(* ===== verification/_CoqProject ===== *)
-Q . S2P
Prelude.v
Datum.v
Process.v
Ring.v
Kv.v
Channel.v
RocksEngine.v
LinkedQueue.v
RocksService.v
CText.v
CNumber.v
CJson.v
Websocket.v
Pipeline.v
Predict.v
Action.v
Lock.v
LockFrame.v
FastSlots.v
FastPath.v
TopoSort.v
Deadlock.v
DeadlockCheck.v
DeadlockResolve.v
Xact.v
Molqo.v
Nram.v
Occ.v
Serial.v
Forecast.v
Candidates.v
IndexWorker.v
NsChannel.v
NsStore.v
NsRequests.v
