(* ===== verification/Prelude.v ===== *)
(** * Verification of NeurDB's storage, index management and model pipeline

    NeurDB is a PostgreSQL 16 server (src/dbengine) with a table access method
    of its own, NRAM, that keeps rows in RocksDB and runs transactions under an
    optimistic protocol steered by a learned policy, and with extensions that
    watch the queries: one creates and drops indexes by itself, one logs query
    templates for a forecast of the workload, one lets a server choose settings
    for each query. Other extensions bring models into
    the database: a store of tensors, and the PREDICT statement with its
    pipeline to an AI engine. This library models NRAM from the codec of a
    column value up to concurrent transactions, the index management from the
    query hook to the worker's main loop, the text processing of the workload
    log, the client of the learned optimizer, the tensor store's service and SQL
    functions, and PREDICT from the statement to the messages on the wire, with
    the parts of the server they depend on, among them the lock manager with its
    deadlock detector. Paths below are relative to src/dbengine/nr_kernel/nr_am/src
    unless they start with src/; nr_index_management.c and the files of
    nr_workload_forecast, nr_molqo, nr_store, nr_pipeline and nr_ext are in
    src/dbengine/nr_kernel.

    ** How the program works

    - A SQL statement reaches a table of the access method through the callbacks
      of nram.c. A read looks into the write set and the read set of the
      transaction and then asks the storage; an insert stores a row marked
      private; an update goes to the write set only.
    - The transaction (nram_xact/xact.c) keeps the sets. Before each statement
      it computes a feature, looks up an action in the policy table
      (nram_xact/action.c) and takes from it the wait priority, the lock timeout
      and whether to lock rows. Before the commit it locks its write set in key
      order, validates its read set and writes.
    - Locks are the server's heavyweight locks
      (src/dbengine/src/backend/storage/lmgr/lock.c and proc.c), changed so that
      waiters queue by rank. A process that has waited for a while looks for a
      cycle in the waits-for graph (deadlock.c there): edges to holders are hard,
      edges to waiters ahead in a queue are soft, and a cycle with soft edges can
      be broken by another order of the queues.
    - The storage is a background worker (nram_storage/rocks_service.c) that owns
      the engine (nram_storage/rocksengine.c, RocksDB below it). Backends call it
      through nram_storage/rocks_handler.c: requests and responses travel as
      messages through circular buffers in shared memory (ipc/msg.c); the worker
      runs handlers on a thread pool (nram_storage/thread.c).
    - Keys and values have a wire format of their own (nram_access/kv.c) on top
      of the server's datum serialization
      (src/dbengine/src/backend/utils/adt/datum.c).
    - The index management (nr_index_management.c) has two sides that meet in
      the table nrim_work_queue. Behind the analysis of each SELECT of a client
      session the hook collects the columns its comparisons, joins, order and
      grouping use, derives index candidates and queues them with the query as a
      JSON text, through a psql process. A background worker takes the items,
      asks the planner for the cost with each candidate as a hypothetical index
      (HypoPG), creates the best one, and keeps the storage of all indexes
      within a budget by dropping those of least utility per megabyte.
    - The workload forecast (nr_workload_forecast) turns each SELECT into a
      template without constants and appends both to a CSV file; it and
      src/dbengine/src/backend/neurdb qualify column names in query texts by
      textual replacement before they send them to the AI engine.
    - The client of the learned optimizer (nr_molqo) sends the text of each
      SELECT to a server through curl, cuts a text out of the JSON answer and
      applies it, as SET commands or as hints in the source text.
    - The tensor store (nr_store) is a background worker with a library of
      compressed models. The SQL functions of pgext/interface.c send it tasks
      through channels in shared memory, one for requests and one per backend
      for responses, and keep the names of models in a table.
    - PREDICT (nr_ext/src/predict.c) looks up a model for a table and its columns,
      trains one if there is none, and returns the engine's answer as a table.
      The functions it calls (nr_pipeline/src/interface.c) read the table
      through a cursor and send the rows in batches as libsvm text over a
      websocket (utils/network/websocket.c). A thread of the backend runs the
      connection: it takes the batches from a queue when the engine asks for
      them and reads the engine's messages, JSON texts (utils/cjson) that can
      arrive in fragments.

    ** Files, in dependency order

    - [Prelude]: outcomes of C code, the state and error monads, machine
      integers with their wrap-around, byte strings, little-endian encodings,
      reads through a pointer, and the shared automation (the databases [zlen]
      and others, the tactics for bounds).
    - [Datum]: datumEstimateSpace, datumSerialize, datumRestore of datum.c.
    - [Process]: calls of processes that share a state; a call returns, raises,
      is undefined, exits or sleeps.
    - [Ring]: writing and reading a circular buffer in two parts.
    - [Kv]: kv.c. [Tid] is the generator of row identifiers and their packing
      into item pointers; then keys, values, their wire formats and the tuple
      codec. Values are compared up to the bytes after their last field, an
      equivalence with [Proper] instances.
    - [Channel]: msg.c. The state [KVChannelShared] is the structure in shared
      memory; [push_try] and [popmsg_try] are the critical sections,
      [KVChannelPush], [KVChannelPopMsg] and the others the blocking loops.
    - [RocksEngine]: rocksengine.c. RocksDB is the class [RocksDB] with the laws
      [RocksDBLaws] its documentation states; an instance keeps them.
    - [LinkedQueue]: the queues of thread.c, rocks_service.c and
      src/dbengine/nr_kernel/nr_pipeline/src/utils/data_structure/queue.c in a
      heap of nodes. [ThreadPool] and [BatchQueue] are modules.
    - [RocksService]: rocks_service.c and rocks_handler.c on a [world] of
      channels, the engine and the processes.
    - [Action]: action.c, with fgets and sscanf as the loader uses them.
    - [Lock]: LockAcquireExtended, LockCheckConflicts, GrantLock, UnGrantLock,
      LockRelease, RemoveFromWaitQueue of lock.c and ProcSleep, ProcLockWakeup of
      proc.c on one lock object.
    - [LockFrame]: which processes, modes and waiters each of these operations
      can bring into a lock object.
    - [FastSlots]: the slots in which a backend keeps weak relation locks
      (FastPathGrantRelationLock and its companions of lock.c), their bits, and
      the transfer to the lock table.
    - [FastPath]: LockAcquireExtended and LockRelease from their start, the
      counters of strong lockers, the backend's own lock table and
      LockErrorCleanup of proc.c. [fp_exec] is one action of a backend, [fp_inv] the
      invariant: per backend, lock and mode, the point of the code where the
      backend is ([phase_of]) fixes what its own table, its slots and the lock
      table say ([key_ok]).
    - [TopoSort]: the topological sort of a wait queue in deadlock.c, with its
      counts and the lists it threads through the edges.
    - [Deadlock]: the rest of deadlock.c and CheckDeadLock of proc.c on a
      [lock_table] of lock objects and processes, the waits-for graph
      ([group_arcs], [walk], [on_cycle]) and the correctness of the search.
    - [DeadlockCheck]: the search for an order of the queues against the tables
      it can meet.
    - [DeadlockResolve]: the rearrangement, runs of the lock table
      ([table_step]: requests, releases, cancellations and checks), and the
      properties of the detector.
    - [Xact]: xact.c. The record [backend] is what a backend keeps for itself;
      its calls on shared state are the nodes of [prog].
    - [Nram]: the callbacks and executor hooks of nram.c.
    - [Occ]: the optimistic protocol, abstractly, and its serializability.
    - [Serial]: several backends of [Xact] and [Nram] that interleave their calls
      on the rows and the lock table.
    - [CText]: C strings as lists of characters, with the functions of ctype.h
      and string.h the text processing uses.
    - [Forecast]: query_logger.c (templates, the log), query_rewrite.c
      (simple_replace and its rules), http_client.c (strip_html_tags) and the
      hook of nr_workload_forecast; replace_str, rewrite_query_simple and
      escape_json_string of src/dbengine/src/backend/neurdb/query_logger.c.
    - [Molqo]: nr_molqo.c on a heap of C strings and a file system, and
      parse_bool of src/dbengine/src/backend/utils/adt/bool.c.
    - [Candidates]: the query side of nr_index_management.c. [Query] and the
      expressions are the server's trees as far as the code looks at them;
      [query_tables] are the features per table, [query_candidates] the merged
      candidates, [candidates_text] their JSON and [nrim_parse_candidates_json]
      its reader on the tokens of jsonb. The input function of jsonb is the
      class [JsonbInput], which promises to read the texts the hook writes; an
      instance keeps the promise.
    - [IndexWorker]: the worker side. [worker_state] holds the tables of the
      schema nrim and the indexes of the database, [worker_env] what the worker
      asks of the planner, HypoPG, the catalogs, psql and [ln];
      [nrim_process_one_work_item] is one item, [worker_rounds] the main loop.
    - [NsChannel]: nr_store/src/pgext/ipc/channel.c. [push_section] and
      [pop_section] are the critical sections of the blocking loops.
    - [NsStore]: the handlers and the main loop of the store's worker
      (pgext/ipc/service.c) and its rows (pgext/operation.c). The store's own
      functions are the class [TensorStore], with an instance.
    - [NsRequests]: the SQL functions of pgext/interface.c, with the worker's
      turns between a request and its response.
    - [CNumber]: doubles as IEEE numbers, strtod and the formats of printf.
    - [CJson]: cJSON.c. The parser works on what is left of its text, with fuel;
      the printer writes into a [printbuffer] that grows.
    - [Websocket]: task.c and websocket.c. [NrWebsocket] is the structure the
      threads share, [receive] the callback for data, [step] the interleaving of
      the backend, the websocket thread and the engine.
    - [Pipeline]: interface.c of nr_pipeline, encode.c and md5.c on the state of a
      [session]. [connection_actions] is what a call does on the connection.
    - [Predict]: predict.c.

    ** What is shown

    - Transactions: under every interleaving of backends at the serializable
      level, with a policy that does not lock and transactions of single-row
      SELECT and UPDATE statements on existing rows that a plan finds through an
      index, the committed transactions are serializable
      ([Serial.occ_serializable]: the code refines [Occ], whose invariant gives
      the serial order), as long as the values an UPDATE assigns do not depend on
      the row its own plan has read: that read does not enter the read set, and
      [Serial.lost_update] is an execution that loses one of two increments.
      Commits lock in ascending tag order when row
      identifiers fit 32 bits ([Xact.validation_lock_order]), and not otherwise
      ([Xact.lock_order_inverted]). The write set is a map with the last value
      per key, a fetch returns the columns of the transaction's last update of
      the row ([Nram.update_then_fetch]), and the kind of the running command
      survives nesting.
    - Storage: a put, get or range scan of a client returns what the engine
      holds, through request, channel, handler and response; the engine returns
      exactly the rows of a byte range; the order of serialized keys is not the
      numerical order, with the consequence for table scans.
    - Channel: the buffer refines a bounded byte queue under any sequence of
      critical sections, messages arrive intact and in order, a blocked push
      returns when there is room; a pop of a message wakes no blocked push.
    - Codecs: tuples, values, keys and policy files survive their round trips;
      where a reader looks behind its buffer the theorem says so.
    - Locks: in every reachable state conflicting modes are not held by rival
      processes and waiters have a reason to wait; every request and release
      returns with the counters its result promises; the queue is ordered by
      rank.
    - Fast path: no two backends hold conflicting modes, wherever they hold
      them ([FastPath.fast_path_exclusive]); no call fails and each backend owns
      what it was granted ([FastPath.fast_path_calls]); a release needs no other
      backend ([FastPath.release_completes]). A cancellation has two halves, and
      others may come in between; all this is for runs in which no strong mode is
      granted to a backend there ([FastPath.no_late_grant]): otherwise its holder
      is not counted and others get conflicting locks
      ([FastPath.late_cancel_conflict]).
    - Deadlocks: in every run of the lock table the check of a process returns
      ([DeadlockResolve.lock_table_safe]); the search finds a cycle exactly when
      there is one ([DeadlockResolve.FindLockCycle_correct]); unless a hard
      deadlock is reported the table that is left has no cycle through the
      process and no cycle that was not there before
      ([DeadlockResolve.DeadLockCheck_resolves]); without lock groups and with
      room for the constraints, no order of the queues avoids a reported hard
      deadlock ([DeadlockResolve.hard_deadlock_unavoidable]). The sort is right in
      both directions ([TopoSort.TopoSort_correct]). With prepared transactions,
      which the runs leave out, an array of the search can be too short.
    - Queues: the thread pool executes each task once and drains before it is
      freed; the batch queue refines a bounded queue.
    - Index candidates: the features of a query are exactly the columns its
      comparisons name; every candidate has one to three distinct columns of a
      table of the query and each sargable column leads one; merging removes
      exactly what it means to; what the hook queues is what the worker reads
      ([Candidates.hook_reaches_worker], through the SQL text and the JSON).
    - Index worker: after each item the storage is within the budget or not
      larger than before, but for a new index that is not found by its name or
      that psql fails to drop ([IndexWorker.budget_respected]); eviction drops the
      shortest prefix by density and only for a candidate worth more, and stops
      at the first victim psql fails to drop ([IndexWorker.eviction_exact]); the
      queue
      drains; the best candidate is chosen; an index is not created twice as
      long as a hypothetical copy makes no plan cheaper. The code's own check
      for an equal index never finds one
      ([IndexWorker.existing_index_not_found]), its reader of the plan's JSON
      never finds the cost, and a failed DROP leaves victims that are never
      evicted.
    - Workload text: queries that differ in what the scan takes for constants
      share a template (a backslash in a literal is taken for an escape, digits
      of an identifier for a number), the template loop ends, the log reads back, replacement replaces exactly the
      occurrences that stand alone, and the rules for WHERE never apply to a
      query laid out with single blanks.
    - Learned optimizer: the hook passes on an error of the hook before it,
      otherwise does not fail, and leaves no file ([Molqo.molqo_hook_effects]); the server gets the query and its SET
      commands are set in order ([Molqo.molqo_settings_applied]). A hinted text is
      freed before it is used, and a value in capital letters loses T and O, so
      that ON turns a setting off ([Molqo.set_on_turns_off]).
    - Tensor store: a channel refines a bounded queue of messages; with the
      relations the code names in the catalog, an inference asks the store for
      exactly the options of the call and a saved model is loaded back by its id
      ([NsRequests.ns_inference_exact], [NsRequests.ns_save_load_roundtrip], which
      also say what happens without them); a serialized model comes back byte for byte up to
      2032 bytes, and a longer one makes the service write through a null
      pointer; a cancelled request leaves its response to the next one; the
      names of the extension's script are not those the code looks for
      ([NsRequests.script_names_differ]), so that as shipped these functions
      raise.
    - JSON: what is printed is parsed back ([CJson.cJSON_round_trip]) and neither
      direction leaves its buffers; no strict prefix of an object's text parses,
      which is what the reassembly of fragments of up to 16384 bytes rests on
      ([Websocket.fragments_reassembled]).
    - PREDICT: the messages the engine is sent are the rows of the table in
      groups, in order, numbers as such and texts by their codes, under every
      interleaving
      ([Pipeline.engine_gets_table]: the cursor loop, the queue, the thread and
      the JSON composed); requests are served while there are batches, and a
      request for more than there are blocks the thread for ever; more than one
      epoch crashes the backend; the codes of texts are injective; the
      statement's columns reach the functions unchanged, and the answer becomes
      one row per number.

    ** Conventions, bounds and fuel

    A function returns [Ok], leaves through an error ([Raise]) with the state as
    the code left it, or does something undefined ([Ub]: a NULL dereference, a
    read outside a block). A blocking loop takes the changes other processes
    make between its critical sections as a list, one entry per sleep, and is
    asleep when the list is used up; liveness theorems say which entries make it
    return. Fuel bounds loops that are not structural, and the theorems
    say how much is enough: one more than the rows of the engine for the iterator
    loop of the range scan, the length of the file for the policy loader (each
    line takes a character), the number of nodes for the loops over a linked
    queue, the length of the text for the template loop, for the skipping of
    comments (one more) and for the reader of JSON. The parser of cJSON gets three
    times the length of its text and three, and more changes nothing
    ([CJson.parse_fuel_enough]); the cursor loops get one more than the rows. The
    search for a cycle gets one more than [MaxBackends], since each level but the
    last enters a process it has not met; the search for an order one more than
    the constraints there is room for; the sort the length of the queue, since
    each step outputs a process. The loop over SET commands gets one more than
    the length of the text. An expression tree is walked structurally.
    Critical sections under a lock are atomic, and a deadlock check holds all of
    them; memory is sequentially consistent; a function of the backend on the
    websocket is the list of its actions, and one that waits is not yet enabled.
    What the SQL engine answers to the pipeline's queries, MD5, libwebsockets'
    callbacks and the functions behind the function manager are arguments. The
    doubles of cJSON and the pipeline are IEEE numbers and round. A priority is a rational number,
    the value of its decimal literal, and the doubles of the index worker are
    rational numbers without rounding; its transactions connect to SPI. An
    exception other than those the code catches ends the worker ([Died]).
    Pointers RocksDB returns are followed by
    arbitrary bytes, an argument; its iterators meet no I/O error. The four threads
    of the tensor store's pool execute one task at a time.

    ** What is not modelled

    Memory contexts and freeing (but for [Molqo], where a freed text is used), log
    output, Assert (compiled out), the release of all locks at once, the fast path of
    virtual transaction locks, the locks of prepared transactions, savepoints,
    parallel workers, and the callbacks of nram.c that only report that they are
    unsupported. Of the index management: the name of a new index,
    the functions that report statistics or create indexes in bulk from the AI
    engine's JSON, signals and the reload of settings, and failures to connect
    to SPI. Of the forecast: the curl process, the background worker, the
    directory of the log file, configuration variables. Of the tensor store: the
    C++ library behind its C interface and the listing of directories. Of the
    pipeline: time metrics, the HTTP client, which nothing calls, what
    nr_inference reads from the connection after it has freed it, and the bytes
    of a text Datum beyond the C string the code takes it for, and hexadecimal
    numbers in the engine's answer. Of cJSON:
    formatted printing and the operations nothing calls. Outside these parts:
    the copies of the executor in nr_ext, the libcurl client of nr_molqo, which
    its build leaves out, the model manager, which is calls of SPI and LibTorch
    whose results it passes on, the rest of the PostgreSQL server and the Python
    services.

    ** Plan

    All components the plan named are modelled but for scans, inserts, deletes and
    the locking policies in the theorem on concurrent transactions ([Serial]): a scan
    tracks the rows it returns and not its range, so that validation does not see
    a row inserted meanwhile and the serializability of single-row statements
    does not extend to it, and a policy that locks adds the lock waits of
    [DeadlockResolve] to every statement. *)
From Stdlib Require Import ZArith Lia.
From stdpp Require Import base list list_numbers strings gmap numbers.

Open Scope Z_scope.

(** ** Outcomes of C code

    A C function of the program either returns a value, leaves through
    [elog(ERROR, ...)] / [ereport(ERROR, ...)] (a [longjmp] to the enclosing
    transaction handler, here [Raise]), or does something the C standard gives
    no meaning to (here [Ub]: an out-of-bounds access, a NULL dereference). *)
Inductive outcome (A : Type) : Type :=
| Ok (a : A)
| Raise (msg : string)
| Ub (why : string).
Arguments Ok {A} a.
Arguments Raise {A} msg.
Arguments Ub {A} why.

#[export] Instance outcome_ret : MRet outcome := λ A, Ok.
#[export] Instance outcome_bind : MBind outcome := λ A B f m,
  match m with Ok a => f a | Raise e => Raise e | Ub e => Ub e end.
#[export] Instance outcome_fmap : FMap outcome := λ A B f m,
  match m with Ok a => Ok (f a) | Raise e => Raise e | Ub e => Ub e end.

Definition is_ok {A} (o : outcome A) : bool :=
  match o with Ok _ => true | _ => false end.

(** State passing with outcomes: the state survives an error, since what was
    done before the [longjmp] (locks taken, rows written) is not undone. *)
Definition M (S A : Type) : Type := S → outcome A * S.

#[export] Instance M_ret {S} : MRet (M S) := λ A a s, (Ok a, s).
#[export] Instance M_bind {S} : MBind (M S) := λ A B f m s,
  match m s with
  | (Ok a, s') => f a s'
  | (Raise e, s') => (Raise e, s')
  | (Ub e, s') => (Ub e, s')
  end.

Definition get_st {S} : M S S := λ s, (Ok s, s).
Definition put_st {S} (s : S) : M S unit := λ _, (Ok tt, s).
Definition modify_st {S} (f : S → S) : M S unit := λ s, (Ok tt, f s).
Definition raise {S A} (msg : string) : M S A := λ s, (Raise msg, s).
Definition lift_out {S A} (o : outcome A) : M S A := λ s, (o, s).

(** [foreach(cell, list)] whose body may leave through an error. *)
Fixpoint for_each {S A} (f : A → M S unit) (l : list A) : M S unit :=
  match l with
  | [] => mret tt
  | x :: l => f x ≫= λ _, for_each f l
  end.

Lemma M_bind_ok {S A B} (f : A → M S B) (m : M S A) s a s' :
  m s = (Ok a, s') → (m ≫= f) s = f a s'.
Proof. intros H. unfold mbind, M_bind. by rewrite H. Qed.

Lemma M_bind_inv_ok {S A B} (f : A → M S B) (m : M S A) s b s' :
  (m ≫= f) s = (Ok b, s') → ∃ a s0, m s = (Ok a, s0) ∧ f a s0 = (Ok b, s').
Proof. unfold mbind, M_bind. destruct (m s) as [[a|e|e] s0]; naive_solver. Qed.

Lemma for_each_cons {S A} (f : A → M S unit) x l s :
  for_each f (x :: l) s = (f x ≫= λ _, for_each f l) s.
Proof. done. Qed.

(** A loop whose body returns on every element keeps every property of the
    state its body keeps. *)
Lemma for_each_ok {S A} (P : S → Prop) (f : A → M S unit) (g : A → S → S) l s :
  P s →
  (∀ x s, x ∈ l → P s → f x s = (Ok tt, g x s) ∧ P (g x s)) →
  for_each f l s = (Ok tt, foldl (λ s x, g x s) s l) ∧ P (foldl (λ s x, g x s) s l).
Proof.
  revert s. induction l as [|x l IH]; intros s HP Hf; [done|]; cbn.
  destruct (Hf x s) as [Hx HP']; [by left|done|].
  erewrite M_bind_ok by exact Hx. apply IH; [done|].
  intros y s' Hy. apply Hf. by right.
Qed.

(** ** Machine integers

    Unsigned C integers are values of [Z] reduced modulo their width; [sint]
    is the conversion to the signed type of the same width. *)
Definition u16 (z : Z) : Z := z `mod` 2 ^ 16.
Definition u32 (z : Z) : Z := z `mod` 2 ^ 32.
Definition u64 (z : Z) : Z := z `mod` 2 ^ 64.
Definition sint (w z : Z) : Z :=
  let m := z `mod` 2 ^ w in if m <? 2 ^ (w - 1) then m else m - 2 ^ w.

Definition in_u16 (z : Z) : Prop := 0 ≤ z < 2 ^ 16.
Definition in_u32 (z : Z) : Prop := 0 ≤ z < 2 ^ 32.
Definition in_u64 (z : Z) : Prop := 0 ≤ z < 2 ^ 64.
Definition in_s16 (z : Z) : Prop := - 2 ^ 15 ≤ z < 2 ^ 15.
Definition in_s32 (z : Z) : Prop := - 2 ^ 31 ≤ z < 2 ^ 31.

#[export] Instance in_u16_dec z : Decision (in_u16 z) := _.
#[export] Instance in_u32_dec z : Decision (in_u32 z) := _.
#[export] Instance in_u64_dec z : Decision (in_u64 z) := _.
#[export] Instance in_s16_dec z : Decision (in_s16 z) := _.
#[export] Instance in_s32_dec z : Decision (in_s32 z) := _.

Lemma u32_range z : in_u32 (u32 z).
Proof. apply Z.mod_pos_bound. lia. Qed.
Lemma u64_range z : in_u64 (u64 z).
Proof. apply Z.mod_pos_bound. lia. Qed.
Lemma u32_id z : in_u32 z → u32 z = z.
Proof. apply Z.mod_small. Qed.
Lemma u64_id z : in_u64 z → u64 z = z.
Proof. apply Z.mod_small. Qed.

Lemma sint_id w z : 0 < w → - 2 ^ (w - 1) ≤ z < 2 ^ (w - 1) → sint w z = z.
Proof.
  intros Hw Hz. unfold sint.
  assert (2 ^ w = 2 * 2 ^ (w - 1)) as E.
  { rewrite <- Z.pow_succ_r by lia. f_equal. lia. }
  destruct (Z.ltb_spec (z `mod` 2 ^ w) (2 ^ (w - 1))) as [Hlt|Hge];
    destruct (decide (0 ≤ z)).
  - apply Z.mod_small. lia.
  - exfalso. rewrite <- (Z.mod_add z 1), Z.mod_small in Hlt by lia. lia.
  - exfalso. rewrite Z.mod_small in Hge by lia. lia.
  - rewrite <- (Z.mod_add z 1), Z.mod_small by lia. lia.
Qed.

(** ** Bytes and memory

    A byte is a [Z] of 0..255 and a memory block is the list of its bytes.
    The program runs on a little-endian machine: [memcpy(p, &x, sizeof x)]
    writes [le_bytes]. A [const char *] that is read through and advanced is
    the list of the bytes from the pointer to the end of its block, so that
    reading past the block is visible ([Ub]). *)
Definition zlen {A} (l : list A) : Z := Z.of_nat (length l).
Definition le_bytes (n z : Z) : list Z := Z_to_little_endian n 8 z.
Definition le_val (bs : list Z) : Z := little_endian_to_Z 8 bs.
Definition is_byte (b : Z) : Prop := 0 ≤ b < 2 ^ 8.

Definition ptr_read (n : Z) (p : list Z) : outcome (list Z * list Z) :=
  if (n <? 0) || (zlen p <? n) then Ub "read past the end of a block"
  else Ok (take (Z.to_nat n) p, drop (Z.to_nat n) p).

Definition rd_u32 (p : list Z) : outcome (Z * list Z) :=
  '(b, p) ← ptr_read 4 p; Ok (u32 (le_val b), p).
Definition rd_u64 (p : list Z) : outcome (Z * list Z) :=
  '(b, p) ← ptr_read 8 p; Ok (u64 (le_val b), p).
Definition rd_s16 (p : list Z) : outcome (Z * list Z) :=
  '(b, p) ← ptr_read 2 p; Ok (sint 16 (le_val b), p).
Definition rd_s32 (p : list Z) : outcome (Z * list Z) :=
  '(b, p) ← ptr_read 4 p; Ok (sint 32 (le_val b), p).

(** [palloc] refuses requests above [MaxAllocSize]. *)
Definition MaxAllocSize : Z := 1073741823.

(** [memcpy(block + off, bs, length bs)]. *)
Definition memcpy_at (block : list Z) (off : Z) (bs : list Z) : list Z :=
  take (Z.to_nat off) block ++ bs ++ drop (Z.to_nat off + length bs) block.

Lemma filter_all {A} (P : A → Prop) `{∀ x, Decision (P x)} (l : list A) : (∀ x, x ∈ l → P x) → filter P l = l.
Proof.
  induction l as [|x l IH]; intros Hl; [done|]. rewrite filter_cons_True by (apply Hl; by left).
  f_equal. apply IH. intros y Hy. apply Hl. by right.
Qed.

Lemma zlen_nonneg {A} (l : list A) : 0 ≤ zlen l.
Proof. unfold zlen. lia. Qed.
Lemma zlen_app {A} (l k : list A) : zlen (l ++ k) = zlen l + zlen k.
Proof. unfold zlen. rewrite length_app. lia. Qed.
Lemma zlen_cons {A} x (l : list A) : zlen (x :: l) = 1 + zlen l.
Proof. unfold zlen. cbn [length]. lia. Qed.
Lemma zlen_nil {A} : zlen (@nil A) = 0.
Proof. done. Qed.
Lemma zlen_le_bytes n z : 0 ≤ n → zlen (le_bytes n z) = n.
Proof. apply length_Z_to_little_endian. Qed.
Lemma zlen_fmap {A B} (f : A → B) l : zlen (f <$> l) = zlen l.
Proof. unfold zlen. by rewrite length_fmap. Qed.

Lemma le_val_le_bytes n z : 0 ≤ n → le_val (le_bytes n z) = z `mod` 2 ^ (n * 8).
Proof. intros. apply little_endian_to_Z_to_little_endian; lia. Qed.

Lemma le_val_le_bytes_id n z :
  0 ≤ n → 0 ≤ z < 2 ^ (n * 8) → le_val (le_bytes n z) = z.
Proof. intros. by rewrite le_val_le_bytes, Z.mod_small. Qed.

Lemma le_bytes_inj n x y :
  0 ≤ n → 0 ≤ x < 2 ^ (n * 8) → 0 ≤ y < 2 ^ (n * 8) →
  le_bytes n x = le_bytes n y → x = y.
Proof.
  intros ? Hx Hy E. rewrite <- (le_val_le_bytes_id n x), E by done.
  by rewrite le_val_le_bytes_id.
Qed.

Lemma le_bytes_mod n z : 0 ≤ n → le_bytes n (z `mod` 2 ^ (n * 8)) = le_bytes n z.
Proof.
  intros Hn. rewrite <- (le_val_le_bytes n z) by done. unfold le_bytes at 1, le_val.
  apply Z_to_little_endian_to_Z; [by rewrite zlen_le_bytes || (symmetry; by apply zlen_le_bytes)| lia |].
  by apply Z_to_little_endian_bound.
Qed.

Lemma le_bytes_bytes n z : 0 ≤ n → Forall is_byte (le_bytes n z).
Proof. intros. by apply Z_to_little_endian_bound. Qed.

Lemma le_bytes_succ n z :
  0 ≤ n → le_bytes (Z.succ n) z = z `mod` 2 ^ 8 :: le_bytes n (z / 2 ^ 8).
Proof.
  intros. unfold le_bytes. rewrite Z_to_little_endian_succ by done.
  by rewrite Z.land_ones, Z.shiftr_div_pow2 by lia.
Qed.

Lemma ptr_read_app n bs rest :
  zlen bs = n → ptr_read n (bs ++ rest) = Ok (bs, rest).
Proof.
  intros <-. unfold ptr_read.
  pose proof (zlen_nonneg bs). pose proof (zlen_nonneg rest).
  destruct (Z.ltb_spec (zlen bs) 0); [lia|]. rewrite zlen_app.
  destruct (Z.ltb_spec (zlen bs + zlen rest) (zlen bs)); [lia|]. cbn.
  unfold zlen. rewrite Nat2Z.id. by rewrite take_app_length, drop_app_length.
Qed.

Lemma ptr_read_short n p : zlen p < n → ptr_read n p = Ub "read past the end of a block".
Proof.
  intros H. unfold ptr_read. replace (zlen p <? n) with true by lia.
  by rewrite orb_true_r.
Qed.

Section reads.
Context (z : Z) (rest : list Z).
Lemma rd_u32_le : in_u32 z → rd_u32 (le_bytes 4 z ++ rest) = Ok (z, rest).
Proof.
  intros. unfold rd_u32, u32. rewrite ptr_read_app by by rewrite zlen_le_bytes.
  cbn -[Z.modulo]. by rewrite le_val_le_bytes_id, Z.mod_small.
Qed.
Lemma rd_u64_le : in_u64 z → rd_u64 (le_bytes 8 z ++ rest) = Ok (z, rest).
Proof.
  intros. unfold rd_u64, u64. rewrite ptr_read_app by by rewrite zlen_le_bytes.
  cbn -[Z.modulo]. by rewrite le_val_le_bytes_id, Z.mod_small.
Qed.
Lemma sint_le_bytes n w :
  0 < n → w = n * 8 → - 2 ^ (w - 1) ≤ z < 2 ^ (w - 1) →
  sint w (le_val (le_bytes n z)) = z.
Proof.
  intros Hn -> Hz. rewrite le_val_le_bytes by lia.
  unfold sint at 1. rewrite Z.mod_mod by lia. apply sint_id; lia.
Qed.
Lemma rd_s16_le : in_s16 z → rd_s16 (le_bytes 2 z ++ rest) = Ok (z, rest).
Proof.
  intros. unfold rd_s16. rewrite ptr_read_app by by rewrite zlen_le_bytes.
  cbn. by rewrite (sint_le_bytes 2 16) by (done || lia).
Qed.
Lemma rd_s32_le : in_s32 z → rd_s32 (le_bytes 4 z ++ rest) = Ok (z, rest).
Proof.
  intros. unfold rd_s32. rewrite ptr_read_app by by rewrite zlen_le_bytes.
  cbn. by rewrite (sint_le_bytes 4 32) by (done || lia).
Qed.
End reads.

Lemma length_memcpy_at block off bs :
  0 ≤ off → off + zlen bs ≤ zlen block → length (memcpy_at block off bs) = length block.
Proof.
  unfold memcpy_at, zlen. intros.
  rewrite !length_app, length_take, length_drop. lia.
Qed.

Lemma lookup_memcpy_at block off bs i :
  0 ≤ off → off + zlen bs ≤ zlen block →
  memcpy_at block off bs !! i =
    if decide (Z.to_nat off ≤ i < Z.to_nat off + length bs)%nat
    then bs !! (i - Z.to_nat off)%nat else block !! i.
Proof.
  intros Hoff Hlen. unfold memcpy_at, zlen in *.
  assert (length (take (Z.to_nat off) block) = Z.to_nat off) as Ht.
  { rewrite length_take. lia. }
  destruct (decide (i < Z.to_nat off)%nat).
  { rewrite lookup_app_l by lia. rewrite lookup_take_lt by lia. case_decide; [lia|done]. }
  rewrite lookup_app_r, Ht by lia.
  destruct (decide (i < Z.to_nat off + length bs)%nat).
  { rewrite lookup_app_l by lia. case_decide; [done|lia]. }
  rewrite lookup_app_r by lia. rewrite lookup_drop. case_decide; [lia|]. f_equal. lia.
Qed.

#[global] Opaque le_bytes le_val.

(** ** Automation of the development *)
Create HintDb neurdb.
Create Rewrite HintDb zlen.
#[export] Hint Rewrite @zlen_app @zlen_cons @zlen_nil @zlen_fmap : zlen.
#[export] Hint Rewrite zlen_le_bytes using lia : zlen.
#[export] Hint Resolve zlen_nonneg : neurdb.

(** Arithmetic on lengths and machine ranges. *)
Ltac zsolve :=
  unfold in_u16, in_u32, in_u64, in_s16, in_s32 in *;
  autorewrite with zlen in *; lia.

(** Run the next read of a parser on the bytes a printer wrote. *)
Ltac step_read :=
  rewrite <- ?app_assoc; cbn [app];
  first
    [ rewrite rd_u32_le by zsolve | rewrite rd_u64_le by zsolve
    | rewrite rd_s16_le by zsolve | rewrite rd_s32_le by zsolve
    | rewrite ptr_read_app by zsolve ];
  cbn [mbind outcome_bind].

(** Split a successful [outcome] or [M] computation in a hypothesis. *)
Ltac inv_ok :=
  repeat match goal with
  | H : mbind _ _ = Ok _ |- _ =>
      unfold mbind, outcome_bind in H; case_match; simplify_eq
  | H : (_ ≫= _) _ = (Ok _, _) |- _ =>
      apply M_bind_inv_ok in H; destruct H as (? & ? & ? & ?)
  | H : Ok _ = Ok _ |- _ => injection H as H; try subst
  | H : Raise _ = Ok _ |- _ => discriminate H
  | H : Ub _ = Ok _ |- _ => discriminate H
  end.
