(* ===== verification/Datum.v ===== *)
(** * Serialization of single datums

    Models [datumGetSize], [datumEstimateSpace], [datumSerialize] and
    [datumRestore] of [dbengine/src/backend/utils/adt/datum.c] with the
    varlena macros of [dbengine/src/include/varatt.h] they use (little-endian
    variant). These are the routines NRAM stores its column values with.

    [Assert] is compiled out of a production build and has no counterpart. *)
From S2P Require Import Prelude.
From Stdlib Require Import ZArith Lia.
From stdpp Require Import base list list_numbers strings numbers.

Open Scope Z_scope.

(** A [Datum] is a machine word: a by-value datum, or a pointer. A pointer is
    the block it points into, from the pointed byte on; a pointer to an
    expanded object carries what the object's [EOH_flatten_into] method writes
    (its length being [EOH_get_flat_size]). *)
Inductive Datum :=
| DWord (w : Z)
| DPtr (block : list Z)
| DExpanded (flat : list Z).

#[export] Instance Datum_eq_dec : EqDecision Datum.
Proof. solve_decision. Defined.

Definition SIZEOF_DATUM : Z := 8.

(** ** varlena headers *)

Definition deref_byte (block : list Z) (i : nat) : outcome Z :=
  match block !! i with Some b => Ok b | None => Ub "read past the end of a block" end.

Definition VARTAG_INDIRECT : Z := 1.
Definition VARTAG_EXPANDED_RO : Z := 2.
Definition VARTAG_ONDISK : Z := 18.
Definition VARTAG_IS_EXPANDED (tag : Z) : bool :=
  Z.land tag (Z.lnot 1) =? VARTAG_EXPANDED_RO.
Definition VARTAG_SIZE (tag : Z) : Z :=
  if tag =? VARTAG_INDIRECT then 8
  else if VARTAG_IS_EXPANDED tag then 8
  else if tag =? VARTAG_ONDISK then 16 else 0.

Definition VARATT_IS_1B_E (h : Z) : bool := h =? 1.
Definition VARATT_IS_1B (h : Z) : bool := Z.land h 1 =? 1.
Definition VARSIZE_1B (h : Z) : Z := Z.land (Z.shiftr h 1) 127.
Definition VARSIZE_4B (h : Z) : Z := Z.land (Z.shiftr h 2) 1073741823.

Definition VARSIZE_ANY (block : list Z) : outcome Z :=
  h ← deref_byte block 0;
  if VARATT_IS_1B_E h then
    tag ← deref_byte block 1; Ok (2 + VARTAG_SIZE tag)
  else if VARATT_IS_1B h then Ok (VARSIZE_1B h)
  else '(w, _) ← rd_u32 block; Ok (VARSIZE_4B w).

(** On a raw block with an expanded-object tag the code would follow the
    object pointer stored in the block, which a block of bytes does not have. *)
Definition VARATT_IS_EXTERNAL_EXPANDED (d : Datum) : outcome bool :=
  match d with
  | DExpanded _ => Ok true
  | DPtr block =>
      h ← deref_byte block 0;
      if VARATT_IS_1B_E h then
        tag ← deref_byte block 1;
        if VARTAG_IS_EXPANDED tag then Ub "no expanded object at this pointer" else Ok false
      else Ok false
  | DWord _ => Ub "dereference of a word"
  end.

(** [strlen]: the number of bytes before the first zero. *)
Fixpoint strlen (block : list Z) : outcome Z :=
  match block with
  | [] => Ub "unterminated string"
  | b :: block => if b =? 0 then Ok 0 else n ← strlen block; Ok (1 + n)
  end.

(** ** The datum routines *)

Definition datumGetSize (value : Datum) (typByVal : bool) (typLen : Z) : outcome Z :=
  if typByVal then Ok typLen
  else if 0 <? typLen then Ok typLen
  else if typLen =? -1 then
    match value with
    | DPtr block => VARSIZE_ANY block
    | DExpanded _ => Ok (2 + VARTAG_SIZE VARTAG_EXPANDED_RO)
    | DWord w => if w =? 0 then Raise "invalid Datum pointer" else Ub "dereference of a word"
    end
  else if typLen =? -2 then
    match value with
    | DPtr block => n ← strlen block; Ok (n + 1)
    | DExpanded _ => Ub "not a cstring"
    | DWord w => if w =? 0 then Raise "invalid Datum pointer" else Ub "dereference of a word"
    end
  else Raise "invalid typLen".

Definition datumEstimateSpace (value : Datum) (isnull typByVal : bool) (typLen : Z)
    : outcome Z :=
  let sz := 4 in
  if isnull then Ok sz
  else if typByVal then Ok (sz + SIZEOF_DATUM)
  else
    expanded ← (if typLen =? -1 then VARATT_IS_EXTERNAL_EXPANDED value else Ok false);
    match expanded, value with
    | true, DExpanded flat => Ok (sz + zlen flat)
    | _, _ => n ← datumGetSize value typByVal typLen; Ok (sz + n)
    end.

(** The bytes behind a pass-by-reference datum, for the payload [memcpy]. *)
Definition DatumGetPointer (value : Datum) : outcome (list Z) :=
  match value with
  | DPtr block => Ok block
  | DExpanded flat => Ub "raw copy of an expanded object"
  | DWord _ => Ub "dereference of a word"
  end.

Definition datumSerialize (value : Datum) (isnull typByVal : bool) (typLen : Z)
    : outcome (list Z) :=
  if isnull then Ok (le_bytes 4 (-2))
  else if typByVal then
    match value with
    | DWord w => Ok (le_bytes 4 (-1) ++ le_bytes 8 w)
    | _ => Ub "pointer stored as a by-value datum"
    end
  else
    expanded ← (if typLen =? -1 then VARATT_IS_EXTERNAL_EXPANDED value else Ok false);
    match expanded, value with
    | true, DExpanded flat => Ok (le_bytes 4 (zlen flat) ++ flat)
    | _, _ =>
        header ← datumGetSize value typByVal typLen;
        block ← DatumGetPointer value;
        '(payload, _) ← ptr_read (sint 32 header) block;
        Ok (le_bytes 4 header ++ payload)
    end.

(** The restored datum, its null flag and the advanced pointer. *)
Definition datumRestore (p : list Z) : outcome (Datum * bool * list Z) :=
  '(header, p) ← rd_s32 p;
  if header =? -2 then Ok (DWord 0, true, p)
  else if header =? -1 then
    '(val, p) ← rd_u64 p; Ok (DWord val, false, p)
  else
    '(d, p) ← ptr_read header p; Ok (DPtr d, false, p).

(** ** What the routines promise *)

(** What a serialized datum becomes when it is read back: an expanded object
    is flattened, and a pointer keeps exactly the bytes of its value. *)
Definition datum_flat (value : Datum) (isnull typByVal : bool) (typLen : Z) : outcome Datum :=
  if isnull then Ok (DWord 0)
  else match value with
  | DWord w => Ok (DWord w)
  | DExpanded flat => Ok (DPtr flat)
  | DPtr block => n ← datumGetSize value typByVal typLen; Ok (DPtr (take (Z.to_nat n) block))
  end.

(** A datum the routines may be given for a column of this type. *)
Definition datum_ok (value : Datum) (isnull typByVal : bool) (typLen : Z) : Prop :=
  isnull = true ∨
  (isnull = false ∧
   if typByVal then ∃ w, value = DWord w ∧ in_u64 w
   else match value with
        | DWord _ => False
        | DExpanded flat => typLen = -1 ∧ zlen flat < 2 ^ 31
        | DPtr block =>
            (typLen = -1 → VARATT_IS_EXTERNAL_EXPANDED value = Ok false) ∧
            ∃ n, datumGetSize value typByVal typLen = Ok n ∧ 0 ≤ n < 2 ^ 31 ∧ n ≤ zlen block
        end).

Section datum.
Context (value : Datum) (isnull typByVal : bool) (typLen : Z).
Hypothesis (Hok : datum_ok value isnull typByVal typLen).

(** The serialized form: a header word and the payload. *)
Lemma datumSerialize_spec :
  ∃ header payload d,
    datumSerialize value isnull typByVal typLen = Ok (le_bytes 4 header ++ payload) ∧
    datum_flat value isnull typByVal typLen = Ok d ∧
    in_s32 header ∧
    ((header = -2 ∧ isnull = true ∧ payload = [] ∧ d = DWord 0) ∨
     (header = -1 ∧ isnull = false ∧ typByVal = true ∧
        ∃ w, d = DWord w ∧ in_u64 w ∧ payload = le_bytes 8 w) ∨
     (0 ≤ header ∧ isnull = false ∧ typByVal = false ∧ zlen payload = header ∧ d = DPtr payload)).
Proof.
  unfold datumSerialize, datum_flat. destruct Hok as [->|[-> H]].
  { eexists (-2), [], _. rewrite app_nil_r.
    refine (conj eq_refl (conj eq_refl (conj _ _))); [zsolve|]. by left. }
  destruct typByVal.
  { destruct H as (w & -> & Hw). eexists (-1), _, _.
    refine (conj eq_refl (conj eq_refl (conj _ _))); [zsolve|]. right. left. eauto 10. }
  destruct value as [w|block|flat]; [done| |].
  - destruct H as (Hexp & n & Hn & Hn32 & Hlen).
    exists n, (take (Z.to_nat n) block), (DPtr (take (Z.to_nat n) block)).
    assert ((if typLen =? -1 then VARATT_IS_EXTERNAL_EXPANDED (DPtr block) else Ok false)
            = Ok false) as ->.
    { destruct (Z.eqb_spec typLen (-1)); auto. }
    cbn [mbind outcome_bind]. rewrite Hn. cbn [mbind outcome_bind DatumGetPointer].
    rewrite sint_id by lia. unfold ptr_read.
    replace (n <? 0) with false by lia. replace (zlen block <? n) with false by lia.
    cbn. refine (conj eq_refl (conj eq_refl (conj _ _))); [zsolve|].
    right. right. split_and!; [lia|done..| |done].
    unfold zlen in *. rewrite length_take. lia.
  - destruct H as (-> & Hlen). exists (zlen flat), flat, (DPtr flat).
    pose proof (zlen_nonneg flat). cbn.
    refine (conj eq_refl (conj eq_refl (conj _ _))); [zsolve|]. right. right. by split_and!.
Qed.

(** [datumEstimateSpace] is exactly what [datumSerialize] writes. *)
Lemma datumEstimateSpace_exact bs :
  datumSerialize value isnull typByVal typLen = Ok bs →
  datumEstimateSpace value isnull typByVal typLen = Ok (zlen bs).
Proof.
  unfold datumSerialize, datumEstimateSpace, SIZEOF_DATUM. destruct Hok as [->|[-> H]].
  { intros [= <-]. by rewrite zlen_le_bytes. }
  destruct typByVal.
  { destruct H as (w & -> & Hw). intros [= <-]; f_equal; zsolve. }
  destruct value as [w|block|flat]; [done| |].
  - destruct H as (Hexp & n & Hn & Hn32 & Hlen).
    destruct (Z.eqb_spec typLen (-1)) as [E|E].
    1: rewrite Hexp by done.
    all: cbn [mbind outcome_bind]; rewrite Hn; cbn [mbind outcome_bind DatumGetPointer];
      rewrite sint_id by lia; unfold ptr_read;
      replace (n <? 0) with false by lia; replace (zlen block <? n) with false by lia;
      cbn [orb mbind outcome_bind]; intros [= <-]; f_equal; rewrite zlen_app, zlen_le_bytes by lia;
      unfold zlen in *; rewrite length_take; lia.
  - destruct H as (-> & Hlen). cbn -[Z.add]. intros [= <-]; f_equal; zsolve.
Qed.
End datum.

(** Restoring what was serialized gives the flattened datum back and leaves
    the pointer right after it. *)
Lemma datumRestore_serialize value isnull typByVal typLen bs rest :
  datum_ok value isnull typByVal typLen →
  datumSerialize value isnull typByVal typLen = Ok bs →
  ∃ d, datum_flat value isnull typByVal typLen = Ok d ∧
       datumRestore (bs ++ rest) = Ok (d, isnull, rest).
Proof.
  intros Hok Hs.
  destruct (datumSerialize_spec _ _ _ _ Hok) as (h & pl & d & Hs' & Hd & Hh & Hcases).
  rewrite Hs in Hs'. injection Hs' as ->. exists d. split; [done|].
  unfold datumRestore. step_read.
  destruct Hcases as [(-> & -> & -> & ->)|[(-> & -> & _ & w & -> & Hw & ->)|(H0 & -> & _ & Hl & ->)]].
  - done.
  - cbn -[rd_u64]. by rewrite rd_u64_le.
  - replace (h =? -2) with false by lia. replace (h =? -1) with false by lia.
    by rewrite ptr_read_app.
Qed.
