(* ===== verification/Process.v ===== *)
(** * Processes

    A process of the server is a function on the state it shares with the
    others. A call of it returns, leaves through an error, does something
    undefined, ends the process, or still waits on a condition variable
    ([Sleeps]). [P] is the monad of such calls. *)
From S2P Require Import Prelude.
From Stdlib Require Import ZArith Lia.
From stdpp Require Import base strings list.

Open Scope Z_scope.

(** What a call of a process comes to. *)
Inductive pres (A : Type) : Type :=
| Done (a : A)
| Error (msg : string)
| Undefined (why : string)
| Exits
| Sleeps.
Arguments Done {A} a.
Arguments Error {A} msg.
Arguments Undefined {A} why.
Arguments Exits {A}.
Arguments Sleeps {A}.

Definition P (S A : Type) : Type := S → pres A * S.

#[export] Instance P_ret {S} : MRet (P S) := λ A a s, (Done a, s).
#[export] Instance P_bind {S} : MBind (P S) := λ A B f m s,
  match m s with
  | (Done a, s') => f a s'
  | (Error e, s') => (Error e, s')
  | (Undefined e, s') => (Undefined e, s')
  | (Exits, s') => (Exits, s')
  | (Sleeps, s') => (Sleeps, s')
  end.

Definition of_outcome {A} (o : outcome A) : pres A :=
  match o with Ok a => Done a | Raise e => Error e | Ub e => Undefined e end.

Definition lift {S A} (o : outcome A) : P S A := λ s, (of_outcome o, s).

Lemma P_bind_done {S A B} (f : A → P S B) (m : P S A) s a s' :
  m s = (Done a, s') → (m ≫= f) s = f a s'.
Proof. intros H. unfold mbind, P_bind. by rewrite H. Qed.

(** Run the next call of a process with the proof of what it returns. *)
Ltac p_step tac := erewrite P_bind_done by tac; cbv beta iota zeta; cbn [fst snd].

Lemma lift_ok {S A B} (f : A → P S B) (o : outcome A) s a :
  o = Ok a → (lift o ≫= f) s = f a s.
Proof. intros ->. done. Qed.
