(* ===== verification/Ring.v ===== *)
(** * Ring buffers

    The two-part [memcpy]s by which [dbengine/nr_kernel/nr_am/src/ipc/msg.c]
    writes into and reads from the circular buffer of a channel, and the
    laws that make the buffer a byte queue. The block, its length and the
    positions are arbitrary here; [Channel] instantiates them. *)
From S2P Require Import Prelude.
From Stdlib Require Import ZArith Lia.
From stdpp Require Import base list list_numbers numbers.

Open Scope Z_scope.

(** [memcpy] into a circular block, in one or two parts. *)
Definition ring_write (buf : list Z) (pos : Z) (bs : list Z) : list Z :=
  if pos + zlen bs <=? zlen buf then memcpy_at buf pos bs
  else
    let part := zlen buf - pos in
    memcpy_at (memcpy_at buf pos (take (Z.to_nat part) bs)) 0 (drop (Z.to_nat part) bs).

(** [memcpy] out of a circular block, in one or two parts. *)
Definition ring_read (buf : list Z) (pos len : Z) : list Z :=
  if pos + len <=? zlen buf then take (Z.to_nat len) (drop (Z.to_nat pos) buf)
  else
    let part := zlen buf - pos in
    take (Z.to_nat part) (drop (Z.to_nat pos) buf) ++ take (Z.to_nat (len - part)) buf.

Section ring.
Context (buf : list Z) (pos : Z).
Hypothesis (Hpos : 0 ≤ pos < zlen buf).
Implicit Types (bs : list Z) (i j : nat).

Lemma length_ring_write bs : zlen bs ≤ zlen buf → length (ring_write buf pos bs) = length buf.
Proof using Hpos.
  intros Hbs. unfold ring_write.
  destruct (Z.leb_spec (pos + zlen bs) (zlen buf)); [apply length_memcpy_at; lia|].
  assert (length (memcpy_at buf pos (take (Z.to_nat (zlen buf - pos)) bs)) = length buf) as E.
  { apply length_memcpy_at; [lia|]. unfold zlen in *. rewrite length_take. lia. }
  rewrite length_memcpy_at; [done|lia|]. unfold zlen in *. rewrite length_drop, E. lia.
Qed.

Lemma lookup_ring_write bs j :
  zlen bs ≤ zlen buf → (j < length buf)%nat →
  ring_write buf pos bs !! j =
    if decide (Z.to_nat pos ≤ j < Z.to_nat pos + length bs)%nat
    then bs !! (j - Z.to_nat pos)%nat
    else if decide (j + length buf < Z.to_nat pos + length bs)%nat
    then bs !! (j + length buf - Z.to_nat pos)%nat
    else buf !! j.
Proof using Hpos.
  intros Hbs Hj. unfold ring_write.
  destruct (Z.leb_spec (pos + zlen bs) (zlen buf)) as [Hle|Hgt].
  { rewrite lookup_memcpy_at by lia. unfold zlen in *.
    repeat case_decide; (done || lia). }
  assert (zlen (take (Z.to_nat (zlen buf - pos)) bs) = zlen buf - pos) as Ht.
  { unfold zlen in *. rewrite length_take. lia. }
  assert (length (memcpy_at buf pos (take (Z.to_nat (zlen buf - pos)) bs)) = length buf) as E.
  { apply length_memcpy_at; lia. }
  rewrite lookup_memcpy_at; [|lia|unfold zlen in *; rewrite length_drop, E; lia].
  rewrite lookup_memcpy_at by lia. rewrite length_drop. unfold zlen in *.
  rewrite length_take. change (Z.to_nat 0) with 0%nat.
  repeat case_decide; try lia; rewrite ?lookup_drop, ?lookup_take_lt by lia;
    first [done | f_equal; lia].
Qed.

Lemma lookup_ring_read len i :
  0 ≤ len ≤ zlen buf → (i < Z.to_nat len)%nat →
  ring_read buf pos len !! i =
    if decide (Z.to_nat pos + i < length buf)%nat then buf !! (Z.to_nat pos + i)%nat
    else buf !! (Z.to_nat pos + i - length buf)%nat.
Proof using Hpos.
  intros Hlen Hi. unfold ring_read.
  destruct (Z.leb_spec (pos + len) (zlen buf)) as [Hle|Hgt].
  { rewrite lookup_take_lt, lookup_drop by lia. case_decide; [done|].
    unfold zlen in *. lia. }
  assert (length (take (Z.to_nat (zlen buf - pos)) (drop (Z.to_nat pos) buf))
          = (length buf - Z.to_nat pos)%nat) as E.
  { rewrite length_take, length_drop. unfold zlen in *. lia. }
  case_decide.
  - rewrite lookup_app_l by lia. rewrite lookup_take_lt, lookup_drop; [done|].
    unfold zlen in *. lia.
  - rewrite lookup_app_r by lia. rewrite E, lookup_take_lt by (unfold zlen in *; lia).
    f_equal. unfold zlen in *. lia.
Qed.

Lemma length_ring_read len :
  0 ≤ len ≤ zlen buf → length (ring_read buf pos len) = Z.to_nat len.
Proof using Hpos.
  intros Hlen. unfold ring_read. unfold zlen in *.
  case_match; rewrite ?length_app, !length_take, ?length_drop; lia.
Qed.
End ring.

(** Appending at the end of the occupied part: the occupied part grows by the
    written bytes. *)
Lemma ring_read_append buf head used bs pos :
  0 ≤ head < zlen buf → 0 ≤ used → used + zlen bs < zlen buf →
  pos = (head + used) `mod` zlen buf →
  ring_read (ring_write buf pos bs) head (used + zlen bs) = ring_read buf head used ++ bs.
Proof.
  intros Hh Hu Hs Hp. pose proof (zlen_nonneg bs) as Hbs0.
  assert (0 ≤ pos < zlen buf ∧ (pos = head + used ∨ pos = head + used - zlen buf)) as [Hpos Hcase].
  { subst pos. split; [apply Z.mod_pos_bound; lia|].
    destruct (decide (head + used < zlen buf)).
    - left. apply Z.mod_small. lia.
    - right. rewrite <- (Z.mod_add _ (-1)) by lia. rewrite Z.mod_small; lia. }
  pose proof (length_ring_write buf pos Hpos bs ltac:(lia)) as Hl.
  assert (zlen (ring_write buf pos bs) = zlen buf) as Hz by (unfold zlen; by rewrite Hl).
  apply list_eq. intros i.
  destruct (decide (i < Z.to_nat (used + zlen bs))%nat) as [Hi|Hi].
  2: { rewrite !lookup_ge_None_2; [done| |].
       - rewrite length_app, length_ring_read by lia. unfold zlen in *. lia.
       - rewrite length_ring_read by lia. lia. }
  rewrite lookup_ring_read by lia. rewrite Hl.
  assert (length (ring_read buf head used) = Z.to_nat used) as Hlr by (apply length_ring_read; lia).
  destruct (decide (i < Z.to_nat used)%nat).
  - rewrite (lookup_app_l _ bs) by lia. rewrite (lookup_ring_read buf head) by lia.
    unfold zlen in *.
    case_decide; rewrite lookup_ring_write by (unfold zlen; lia);
      repeat case_decide; (done || lia).
  - rewrite (lookup_app_r _ bs) by lia. rewrite Hlr. unfold zlen in *.
    case_decide; rewrite lookup_ring_write by (unfold zlen; lia);
      repeat case_decide; try lia; f_equal; lia.
Qed.

(** Taking from the front: the occupied part loses the read bytes. *)
Lemma ring_read_split buf head n m :
  0 ≤ head < zlen buf → 0 ≤ n → 0 ≤ m → n + m < zlen buf →
  ring_read buf head (n + m) =
    ring_read buf head n ++ ring_read buf ((head + n) `mod` zlen buf) m.
Proof.
  intros Hh Hn Hm Hs.
  assert (0 ≤ (head + n) `mod` zlen buf < zlen buf) as Hp by (apply Z.mod_pos_bound; lia).
  assert ((head + n) `mod` zlen buf = head + n ∨
          (head + n) `mod` zlen buf = head + n - zlen buf) as Hcase.
  { destruct (decide (head + n < zlen buf)).
    - left. apply Z.mod_small. lia.
    - right. rewrite <- (Z.mod_add _ (-1)) by lia. rewrite Z.mod_small; lia. }
  assert (length (ring_read buf head n) = Z.to_nat n) as Hlr by (apply length_ring_read; lia).
  apply list_eq. intros i. destruct (decide (i < Z.to_nat (n + m))%nat) as [Hi|Hi].
  2: { rewrite !lookup_ge_None_2; [done| |].
       - rewrite length_app, Hlr, length_ring_read by lia. lia.
       - rewrite length_ring_read by lia. lia. }
  rewrite lookup_ring_read by lia.
  destruct (decide (i < Z.to_nat n)%nat).
  - rewrite lookup_app_l by lia. by rewrite lookup_ring_read by lia.
  - rewrite lookup_app_r, Hlr by lia. rewrite lookup_ring_read by lia.
    unfold zlen in *. repeat case_decide; try lia; f_equal; lia.
Qed.

Lemma ring_read_0 buf pos : 0 ≤ pos < zlen buf → ring_read buf pos 0 = [].
Proof. intros H. apply nil_length_inv. by rewrite length_ring_read by lia. Qed.

(** What was written is read back. *)
Lemma ring_read_write buf pos bs :
  0 ≤ pos < zlen buf → zlen bs < zlen buf →
  ring_read (ring_write buf pos bs) pos (zlen bs) = bs.
Proof.
  intros Hp Hbs. change (zlen bs) with (0 + zlen bs).
  rewrite ring_read_append; [by rewrite ring_read_0|lia..|].
  rewrite Z.add_0_r. symmetry. apply Z.mod_small. lia.
Qed.

(** ** The occupied part

    How many bytes lie between the positions [head] and [tail] of a block of [N]
    bytes, and how that changes when one of them moves. *)
Definition ring_used (N head tail : Z) : Z := (tail + N - head) `mod` N.

Section used.
Context (N head tail : Z).
Hypotheses (HN : 0 < N) (Hh : 0 ≤ head < N) (Ht : 0 ≤ tail < N).

Lemma ring_used_bound : 0 ≤ ring_used N head tail < N.
Proof using HN. apply Z.mod_pos_bound. lia. Qed.

Lemma ring_used_tail : (head + ring_used N head tail) `mod` N = tail.
Proof using HN Ht.
  unfold ring_used. rewrite Z.add_mod_idemp_r by lia.
  replace (_ + _) with (tail + 1 * N) by lia.
  rewrite Z.mod_add by lia. by apply Z.mod_small.
Qed.

Lemma ring_used_move n :
  0 ≤ n ≤ ring_used N head tail → ring_used N ((head + n) `mod` N) tail = ring_used N head tail - n.
Proof using HN.
  intros Hn. pose proof ring_used_bound as Hu. unfold ring_used in *. rewrite Zminus_mod_idemp_r.
  replace (tail + N - (head + n)) with ((tail + N - head) - n) by lia.
  rewrite <- Zminus_mod_idemp_l. apply Z.mod_small. lia.
Qed.

Lemma ring_used_grow n :
  0 ≤ n → ring_used N head tail + n < N → ring_used N head ((tail + n) `mod` N) = ring_used N head tail + n.
Proof using HN.
  intros Hn Hs. pose proof ring_used_bound as Hu. unfold ring_used in *.
  replace ((tail + n) `mod` N + N - head) with ((tail + n) `mod` N + (N - head)) by lia.
  rewrite Z.add_mod_idemp_l by lia.
  replace (tail + n + (N - head)) with ((tail + N - head) + n) by lia.
  rewrite <- Z.add_mod_idemp_l by lia. apply Z.mod_small. lia.
Qed.
End used.

(** The bytes pushed and not yet popped. *)
Definition ring_contents (buf : list Z) (head tail : Z) : list Z :=
  ring_read buf head (ring_used (zlen buf) head tail).

Section contents.
Context (buf : list Z) (head tail : Z).
Hypotheses (Hh : 0 ≤ head < zlen buf) (Ht : 0 ≤ tail < zlen buf).

Lemma zlen_ring_contents : zlen (ring_contents buf head tail) = ring_used (zlen buf) head tail.
Proof using Hh Ht.
  pose proof (ring_used_bound (zlen buf) head tail ltac:(lia)).
  unfold ring_contents, zlen at 1. rewrite length_ring_read by lia. lia.
Qed.

Lemma ring_contents_push bs :
  ring_used (zlen buf) head tail + zlen bs < zlen buf →
  ring_contents (ring_write buf tail bs) head ((tail + zlen bs) `mod` zlen buf) = ring_contents buf head tail ++ bs.
Proof using Hh Ht.
  intros Hs. pose proof (ring_used_bound (zlen buf) head tail ltac:(lia)). pose proof (zlen_nonneg bs).
  assert (zlen (ring_write buf tail bs) = zlen buf) as E by (unfold zlen at 1; rewrite length_ring_write; unfold zlen in *; lia).
  unfold ring_contents. rewrite E, ring_used_grow by lia.
  apply ring_read_append; try lia. symmetry. apply ring_used_tail; lia.
Qed.

Lemma ring_contents_pop n :
  0 ≤ n ≤ ring_used (zlen buf) head tail →
  ring_contents buf head tail = ring_read buf head n ++ ring_contents buf ((head + n) `mod` zlen buf) tail.
Proof using Hh Ht.
  intros Hn. pose proof (ring_used_bound (zlen buf) head tail ltac:(lia)).
  unfold ring_contents at 2. rewrite ring_used_move by lia.
  rewrite <- ring_read_split by lia. unfold ring_contents. f_equal. lia.
Qed.
End contents.
