(* ===== verification/Kv.v ===== *)
(** * NRAM keys and values

    Models [dbengine/nr_kernel/nr_am/src/nram_access/kv.c] and [kv.h]: the
    generator of tuple identifiers and its packing into item pointers, the
    [NRAMKey] and [NRAMValue] structures, their wire format
    ([tkey_serialize], [tvalue_serialize] and their inverses), the conversion
    between heap tuples and NRAM values, and the copy functions. *)
From S2P Require Import Prelude Datum.
From Stdlib Require Import ZArith Lia.
From stdpp Require Import base list list_numbers strings gmap countable numbers.

Open Scope Z_scope.

(** ** Tuple identifiers *)
Module Tid.

(** [ItemPointerData]: a block number in two halves and an offset. *)
Record ItemPointerData := mkItemPointer {
  bi_hi : Z;
  bi_lo : Z;
  ip_posid : Z
}.

#[export] Instance ItemPointerData_eq_dec : EqDecision ItemPointerData.
Proof. solve_decision. Defined.

Definition InvalidOffsetNumber : Z := 0.

Definition ItemPointerSet (blockNumber offNum : Z) : ItemPointerData :=
  mkItemPointer (Z.shiftr blockNumber 16) (Z.land blockNumber 65535) offNum.

Definition BlockIdGetBlockNumber (p : ItemPointerData) : Z :=
  Z.lor (Z.shiftl (bi_hi p) 16) (bi_lo p).

Definition ItemPointerIsValid (p : ItemPointerData) : bool :=
  negb (ip_posid p =? InvalidOffsetNumber).

(** The counter [local_tid_seq] is the state; the returned identifier is
    [[auto inc counter][process id]]. *)
Definition nram_generate_logical_tid (MyProcPid seq : Z) : Z * Z :=
  let counter := u32 (Z.land seq (2 ^ 32 - 1)) in
  let pid_part := u16 (Z.land MyProcPid (2 ^ 16 - 1)) in
  (Z.lor (u64 (Z.shiftl counter 16)) pid_part, u64 (seq + 1)).

Definition nram_encode_tid (logical_tid : Z) : ItemPointerData :=
  let block := Z.land (Z.shiftr logical_tid 16) (2 ^ 32 - 1) in
  let offset := Z.land logical_tid (2 ^ 16 - 1) in
  ItemPointerSet block offset.

Definition nram_decode_tid (tid : ItemPointerData) : Z :=
  Z.lor (u64 (Z.shiftl (BlockIdGetBlockNumber tid) 16)) (ip_posid tid).

Definition nram_generate_tid (MyProcPid seq : Z) : ItemPointerData * Z :=
  let '(logical_tid, seq) := nram_generate_logical_tid MyProcPid seq in
  (nram_encode_tid logical_tid, seq).

(** The identifiers a backend draws in a row. *)
Fixpoint generate_tids (MyProcPid seq : Z) (n : nat) : list ItemPointerData :=
  match n with
  | O => []
  | S n => let '(tid, seq) := nram_generate_tid MyProcPid seq in
           tid :: generate_tids MyProcPid seq n
  end.

(** Concatenating bit fields is addition. *)
Lemma lor_shiftl_add a b n :
  0 ≤ n → 0 ≤ b < 2 ^ n → Z.lor (Z.shiftl a n) b = a * 2 ^ n + b.
Proof.
  intros Hn Hb. pose proof (Z.add_lor_land (Z.shiftl a n) b) as E.
  enough (Z.land (Z.shiftl a n) b = 0) as E0.
  { rewrite E0, Z.shiftl_mul_pow2 in E by lia. rewrite Z.shiftl_mul_pow2 by lia. lia. }
  apply Z.bits_inj_iff'. intros i Hi.
  rewrite Z.land_spec, Z.shiftl_spec, Z.bits_0 by lia.
  destruct (decide (i < n)).
  - by rewrite (Z.testbit_neg_r a) by lia.
  - replace (Z.testbit b i) with false; [by rewrite andb_false_r|].
    symmetry. apply (Z.bounded_iff_bits_nonneg n); lia.
Qed.

Lemma nram_logical_tid_val pid seq :
  (nram_generate_logical_tid pid seq).1 = seq `mod` 2 ^ 32 * 2 ^ 16 + pid `mod` 2 ^ 16.
Proof.
  unfold nram_generate_logical_tid, u32, u16, u64; cbn [fst].
  change (2 ^ 32 - 1) with (Z.ones 32). change (2 ^ 16 - 1) with (Z.ones 16).
  rewrite !Z.land_ones, !Z.mod_mod by lia.
  assert (0 ≤ seq `mod` 2 ^ 32 < 2 ^ 32) by (apply Z.mod_pos_bound; lia).
  assert (0 ≤ pid `mod` 2 ^ 16 < 2 ^ 16) by (apply Z.mod_pos_bound; lia).
  rewrite (Z.mod_small (Z.shiftl _ _)).
  - by rewrite lor_shiftl_add by lia.
  - rewrite Z.shiftl_mul_pow2 by lia. lia.
Qed.

Lemma nram_encode_tid_val t :
  nram_encode_tid t =
    mkItemPointer (((t / 2 ^ 16) `mod` 2 ^ 32) / 2 ^ 16)
                  (((t / 2 ^ 16) `mod` 2 ^ 32) `mod` 2 ^ 16) (t `mod` 2 ^ 16).
Proof.
  unfold nram_encode_tid, ItemPointerSet.
  change (2 ^ 32 - 1) with (Z.ones 32). change (2 ^ 16 - 1) with (Z.ones 16).
  change 65535 with (Z.ones 16).
  by rewrite !Z.land_ones, !Z.shiftr_div_pow2 by lia.
Qed.

(** Packing a 48-bit identifier into an item pointer loses nothing. *)
Lemma decode_encode_tid t : 0 ≤ t < 2 ^ 48 → nram_decode_tid (nram_encode_tid t) = t.
Proof.
  intros Ht. rewrite nram_encode_tid_val. unfold nram_decode_tid, BlockIdGetBlockNumber, u64.
  cbn [bi_hi bi_lo ip_posid].
  assert (0 ≤ t / 2 ^ 16 < 2 ^ 32) by (split; [apply Z.div_pos | apply Z.div_lt_upper_bound]; lia).
  rewrite (Z.mod_small (t / 2 ^ 16)) by done.
  rewrite lor_shiftl_add by (lia || (apply Z.mod_pos_bound; lia)).
  rewrite Z.mul_comm, <- Z.div_mod by lia.
  rewrite Z.mod_small by (rewrite Z.shiftl_mul_pow2 by lia; lia).
  rewrite lor_shiftl_add by (lia || (apply Z.mod_pos_bound; lia)).
  rewrite Z.mul_comm. symmetry. apply Z.div_mod. lia.
Qed.

(** Members of an item pointer within their 16 bits. *)
Definition itemptr_ok (p : ItemPointerData) : Prop :=
  in_u16 (bi_hi p) ∧ in_u16 (bi_lo p) ∧ in_u16 (ip_posid p).

Lemma encode_decode_tid p : itemptr_ok p → nram_encode_tid (nram_decode_tid p) = p.
Proof.
  unfold itemptr_ok, in_u16. destruct p as [hi lo off]. cbn [bi_hi bi_lo ip_posid]. intros (Hhi & Hlo & Hoff).
  rewrite nram_encode_tid_val. unfold nram_decode_tid, BlockIdGetBlockNumber, u64. cbn [bi_hi bi_lo ip_posid].
  rewrite (lor_shiftl_add hi lo) by lia.
  rewrite (Z.mod_small (Z.shiftl _ _)) by (rewrite Z.shiftl_mul_pow2 by lia; lia).
  rewrite lor_shiftl_add by lia.
  rewrite Z.div_add_l, (Z.div_small off), Z.add_0_r by lia.
  rewrite (Z.mod_small (_ * _ + lo)) by lia.
  rewrite Z.div_add_l, (Z.div_small lo), Z.add_0_r by lia.
  rewrite !(Z.add_comm (_ * _)), !Z.mod_add, !Z.mod_small by lia. done.
Qed.

Lemma nram_logical_tid_bound pid seq : 0 ≤ (nram_generate_logical_tid pid seq).1 < 2 ^ 48.
Proof.
  rewrite nram_logical_tid_val.
  assert (0 ≤ seq `mod` 2 ^ 32 < 2 ^ 32) by (apply Z.mod_pos_bound; lia).
  assert (0 ≤ pid `mod` 2 ^ 16 < 2 ^ 16) by (apply Z.mod_pos_bound; lia). lia.
Qed.

Lemma decode_generate_tid pid seq :
  nram_decode_tid (nram_generate_tid pid seq).1 = seq `mod` 2 ^ 32 * 2 ^ 16 + pid `mod` 2 ^ 16.
Proof.
  rewrite <- nram_logical_tid_val.
  rewrite <- (decode_encode_tid (nram_generate_logical_tid pid seq).1)
    by apply nram_logical_tid_bound.
  unfold nram_generate_tid. by destruct (nram_generate_logical_tid pid seq).
Qed.

Lemma nram_generate_tid_seq pid seq : (nram_generate_tid pid seq).2 = u64 (seq + 1).
Proof. done. Qed.

Lemma generate_tids_lookup pid seq n i :
  (i < n)%nat →
  nram_decode_tid <$> generate_tids pid seq n !! i =
    Some ((seq + Z.of_nat i) `mod` 2 ^ 32 * 2 ^ 16 + pid `mod` 2 ^ 16).
Proof.
  revert seq i. induction n as [|n IH]; intros seq i Hi; [lia|].
  cbn [generate_tids]. pose proof (decode_generate_tid pid seq) as Hd.
  pose proof (nram_generate_tid_seq pid seq) as Hs.
  destruct (nram_generate_tid pid seq) as [tid seq']. cbn [fst snd] in *. subst seq'.
  destruct i as [|i]; cbn [lookup list_lookup].
  - cbn. by rewrite Hd, Z.add_0_r.
  - rewrite IH by lia. f_equal. f_equal. f_equal. unfold u64.
    rewrite <- (Z.add_mod_idemp_l _ _ (2 ^ 32)) by lia.
    rewrite Z.mod_mod_divide by (exists (2 ^ 32); lia).
    rewrite Z.add_mod_idemp_l by lia. f_equal. lia.
Qed.

Lemma length_generate_tids pid seq n : length (generate_tids pid seq n) = n.
Proof.
  revert seq. induction n as [|n IH]; intros seq; [done|]. cbn [generate_tids].
  destruct (nram_generate_tid pid seq). cbn. by rewrite IH.
Qed.

(** Up to 2^32 identifiers drawn in a row by one backend are pairwise
    distinct: the counter of [nram_generate_logical_tid] does not wrap. *)
Theorem nram_generate_tid_unique pid seq n :
  Z.of_nat n ≤ 2 ^ 32 → NoDup (generate_tids pid seq n).
Proof.
  intros Hn. apply NoDup_alt. intros i j tid Hi Hj.
  assert (Hil := lookup_lt_Some _ _ _ Hi). assert (Hjl := lookup_lt_Some _ _ _ Hj).
  rewrite length_generate_tids in Hil, Hjl.
  pose proof (generate_tids_lookup pid seq n i Hil) as Ei.
  pose proof (generate_tids_lookup pid seq n j Hjl) as Ej.
  rewrite Hi in Ei. rewrite Hj in Ej. cbn in Ei, Ej.
  assert ((seq + Z.of_nat i) `mod` 2 ^ 32 = (seq + Z.of_nat j) `mod` 2 ^ 32) as E.
  { rewrite Ei in Ej. injection Ej. lia. }
  pose proof (Z.div_mod (seq + Z.of_nat i) (2 ^ 32) ltac:(lia)) as Di.
  pose proof (Z.div_mod (seq + Z.of_nat j) (2 ^ 32) ltac:(lia)) as Dj.
  apply Nat2Z.inj. nia.
Qed.

Lemma nram_generate_tid_unique_witness : NoDup (generate_tids 12345 (2 ^ 32 - 2) 5).
Proof. apply (nram_generate_tid_unique 12345 (2 ^ 32 - 2) 5). lia. Defined.

End Tid.

Import Tid.

(** ** Keys *)

Record NRAMKeyData := mkKey { tableOid : Z; tid : Z }.
Add Printing Constructor NRAMKeyData.

#[export] Instance NRAMKeyData_eq_dec : EqDecision NRAMKeyData.
Proof. solve_decision. Defined.
#[export] Instance NRAMKeyData_countable : Countable NRAMKeyData.
Proof.
  refine (inj_countable' (λ k, (tableOid k, tid k)) (λ '(o, t), mkKey o t) _).
  by intros [].
Defined.

Definition key_ok (k : NRAMKeyData) : Prop := in_u32 (tableOid k) ∧ in_u64 (tid k).
#[export] Instance key_ok_dec k : Decision (key_ok k) := _.

Definition TKEY_LEN : Z := 12.

Definition nram_key_from_tid (oid : Z) (p : ItemPointerData) : NRAMKeyData :=
  mkKey oid (nram_decode_tid p).

Definition tkey_serialize (tkey : NRAMKeyData) : list Z :=
  le_bytes 4 (tableOid tkey) ++ le_bytes 8 (tid tkey).

(** [buf] is the memory from the pointer on and [len] the length argument. *)
Definition tkey_deserialize (buf : list Z) (len : Z) : outcome NRAMKeyData :=
  if negb (len =? 4 + 8) then Raise "tkey_deserialize: input buffer invalid length"
  else
    '(oid, ptr) ← rd_u32 buf;
    '(t, _) ← rd_u64 ptr;
    Ok (mkKey oid t).

Definition copy_nram_key (src : NRAMKeyData) : NRAMKeyData :=
  mkKey (tableOid src) (tid src).

Lemma zlen_tkey_serialize k : zlen (tkey_serialize k) = TKEY_LEN.
Proof. unfold tkey_serialize, TKEY_LEN. zsolve. Qed.
#[export] Hint Rewrite zlen_tkey_serialize : zlen.

Lemma copy_nram_key_id k : copy_nram_key k = k.
Proof. by destruct k. Qed.

Lemma tkey_deserialize_serialize k rest :
  key_ok k → tkey_deserialize (tkey_serialize k ++ rest) TKEY_LEN = Ok k.
Proof.
  destruct k as [o t]. intros [Ho Ht]. cbn in Ho, Ht.
  unfold tkey_deserialize, tkey_serialize. cbn -[rd_u32 app].
  step_read. by step_read.
Qed.

(** A key survives its wire format: [tkey_deserialize] applied to what
    [tkey_serialize] wrote, whatever follows in memory, is the key; and no
    other length than the written one is accepted. *)
Theorem tkey_roundtrip k rest :
  key_ok k →
  tkey_deserialize (tkey_serialize k ++ rest) (zlen (tkey_serialize k)) = Ok k ∧
  ∀ len, len ≠ zlen (tkey_serialize k) →
    tkey_deserialize (tkey_serialize k ++ rest) len =
      Raise "tkey_deserialize: input buffer invalid length".
Proof.
  intros Hk. rewrite zlen_tkey_serialize. split; [by apply tkey_deserialize_serialize|].
  intros len Hlen. unfold tkey_deserialize.
  by destruct (Z.eqb_spec len (4 + 8)).
Qed.

Lemma tkey_roundtrip_witness :
  tkey_deserialize (tkey_serialize (mkKey 16384 5368709121) ++ [1; 2]) 12
    = Ok (mkKey 16384 5368709121).
Proof. apply (tkey_roundtrip (mkKey 16384 5368709121) [1; 2]). by vm_compute. Defined.

Lemma tkey_serialize_inj k1 k2 :
  key_ok k1 → key_ok k2 → tkey_serialize k1 = tkey_serialize k2 → k1 = k2.
Proof.
  intros H1 H2 E. pose proof (tkey_deserialize_serialize k1 [] H1) as E1.
  rewrite E, tkey_deserialize_serialize in E1 by done. by injection E1.
Qed.

(** ** Values *)

(** [data] is the whole block of the flexible array member: the fields of the
    value and whatever follows them in the allocation. *)
Record NRAMValueData := mkValue {
  xact_id : Z;
  flags : Z;
  nfields : Z;
  data : list Z
}.
Add Printing Constructor NRAMValueData.

#[export] Instance NRAMValueData_eq_dec : EqDecision NRAMValueData.
Proof. solve_decision. Defined.

Definition NRAMF_PRIVATE : Z := 1.
Definition NRAMF_DELETED : Z := 2.
Definition NRAMValueIsPrivate (v : NRAMValueData) : bool :=
  negb (Z.land (flags v) NRAMF_PRIVATE =? 0).
Definition NRAMValueIsDeleted (v : NRAMValueData) : bool :=
  negb (Z.land (flags v) NRAMF_DELETED =? 0).

(** [sizeof(NRAMValueFieldData)]: an int16, two padding bytes, two uint32. *)
Definition SIZEOF_FIELD : Z := 12.
Definition OFFSETOF_DATA : Z := 8.

Record NRAMValueFieldData := mkField { attnum : Z; type_oid : Z; field_len : Z }.

Definition field_bytes (f : NRAMValueFieldData) : list Z :=
  le_bytes 2 (attnum f) ++ [0; 0] ++ le_bytes 4 (type_oid f) ++ le_bytes 4 (field_len f).

(** The [len] member of the field header at the pointer. *)
Definition field_len_at (ptr : list Z) : outcome Z :=
  '(_, p) ← ptr_read 8 ptr; '(n, _) ← rd_u32 p; Ok n.

(** Copy the [n] fields at the pointer; the copied bytes and the rest. *)
Fixpoint copy_fields (n : nat) (ptr : list Z) : outcome (list Z * list Z) :=
  match n with
  | O => Ok ([], ptr)
  | S n =>
      len ← field_len_at ptr;
      '(f, ptr) ← ptr_read (SIZEOF_FIELD + len) ptr;
      '(fs, ptr) ← copy_fields n ptr;
      Ok (f ++ fs, ptr)
  end.

(** The first pass of [tvalue_serialize] and [copy_nram_value]: the total size
    of the fields, read from their headers. *)
Fixpoint fields_size (n : nat) (ptr : list Z) : outcome Z :=
  match n with
  | O => Ok 0
  | S n =>
      len ← field_len_at ptr;
      '(_, ptr) ← ptr_read (SIZEOF_FIELD + len) ptr;
      rest ← fields_size n ptr;
      Ok (SIZEOF_FIELD + len + rest)
  end.

Definition tvalue_serialize (tvalue : NRAMValueData) : outcome (list Z) :=
  data_len ← fields_size (Z.to_nat (nfields tvalue)) (data tvalue);
  '(fs, _) ← copy_fields (Z.to_nat (nfields tvalue)) (data tvalue);
  Ok (le_bytes 4 (xact_id tvalue) ++ le_bytes 2 (flags tvalue)
        ++ le_bytes 2 (nfields tvalue) ++ fs).

Definition tvalue_deserialize (buf : list Z) (len : Z) : outcome NRAMValueData :=
  '(x, buf) ← rd_u32 buf;
  '(fl, buf) ← rd_s16 buf;
  '(nf, buf) ← rd_s16 buf;
  let data_len := u64 (len - 4 - 2) in
  let total_len := u64 (OFFSETOF_DATA + data_len) in
  if MaxAllocSize <? total_len then Raise "invalid memory alloc request size"
  else
    '(d, _) ← ptr_read data_len buf;
    Ok (mkValue x fl nf d).

Definition copy_nram_value (src : NRAMValueData) : outcome NRAMValueData :=
  n ← fields_size (Z.to_nat (nfields src)) (data src);
  '(d, _) ← ptr_read n (data src);
  Ok (mkValue (xact_id src) (flags src) (nfields src) d).

(** *** Lemmas on the field walk *)

Lemma ptr_read_inv n p a b : ptr_read n p = Ok (a, b) → p = a ++ b ∧ zlen a = n.
Proof.
  unfold ptr_read. destruct (_ || _) eqn:E; [done|]. intros [= <- <-].
  apply orb_false_iff in E as [E1 E2]. rewrite take_drop. split; [done|].
  unfold zlen in *. rewrite length_take. lia.
Qed.

Lemma ptr_read_extend n p a b q : ptr_read n p = Ok (a, b) → ptr_read n (p ++ q) = Ok (a, b ++ q).
Proof.
  intros H. apply ptr_read_inv in H as [-> Hn]. rewrite <- app_assoc. by apply ptr_read_app.
Qed.

Lemma field_len_at_inv ptr len :
  field_len_at ptr = Ok len → ∃ h b r, ptr = h ++ b ++ r ∧ zlen h = 8 ∧ zlen b = 4 ∧ u32 (le_val b) = len.
Proof.
  unfold field_len_at, rd_u32. intros H.
  destruct (ptr_read 8 ptr) as [[h p]| |] eqn:E1; cbn in H; try done.
  destruct (ptr_read 4 p) as [[b r]| |] eqn:E2; cbn in H; try done. injection H as <-.
  apply ptr_read_inv in E1 as [-> ?]. apply ptr_read_inv in E2 as [-> ?].
  by exists h, b, r.
Qed.

Lemma field_len_at_intro h b r :
  zlen h = 8 → zlen b = 4 → field_len_at (h ++ b ++ r) = Ok (u32 (le_val b)).
Proof.
  intros. unfold field_len_at, rd_u32. rewrite ptr_read_app by done.
  cbn. by rewrite ptr_read_app.
Qed.

Lemma field_len_at_extend ptr len q :
  field_len_at ptr = Ok len → field_len_at (ptr ++ q) = Ok len.
Proof.
  intros (h & b & r & -> & ? & ? & <-)%field_len_at_inv.
  rewrite <- !app_assoc. by apply field_len_at_intro.
Qed.

Lemma field_len_at_prefix f r len :
  12 ≤ zlen f → field_len_at (f ++ r) = Ok len → field_len_at f = Ok len.
Proof.
  intros Hf (h & b & r' & E & Hh & Hb & <-)%field_len_at_inv.
  assert (f = (h ++ b) ++ drop (length (h ++ b)) f) as ->.
  { rewrite app_assoc in E. apply (f_equal (take (length (h ++ b)))) in E.
    rewrite take_app_length, take_app_le in E by (unfold zlen in *; rewrite length_app; lia).
    rewrite <- E at 1. by rewrite take_drop. }
  rewrite <- app_assoc. by apply field_len_at_intro.
Qed.

Lemma fields_size_copy n p :
  match copy_fields n p with
  | Ok (fs, _) => fields_size n p = Ok (zlen fs)
  | Raise e => fields_size n p = Raise e
  | Ub e => fields_size n p = Ub e
  end.
Proof.
  revert p. induction n as [|n IH]; intros p; [done|]. cbn [copy_fields fields_size].
  destruct (field_len_at p) as [len| |]; [|done..]. cbn [mbind outcome_bind].
  destruct (ptr_read (SIZEOF_FIELD + len) p) as [[f q]| |] eqn:Ef; [|done..].
  cbn [mbind outcome_bind]. specialize (IH q).
  destruct (copy_fields n q) as [[fs r]| |]; cbn [mbind outcome_bind]; rewrite IH; [|done..].
  cbn. apply ptr_read_inv in Ef as [_ Ef]. by rewrite zlen_app, Ef.
Qed.

(** Walking the fields splits the block. *)
Lemma copy_fields_split n p fs r :
  copy_fields n p = Ok (fs, r) → p = fs ++ r.
Proof.
  revert p fs r. induction n as [|n IH]; intros p fs r; cbn; [by intros [= <- <-]|].
  destruct (field_len_at p) as [len| |]; [|done..]. cbn.
  destruct (ptr_read (SIZEOF_FIELD + len) p) as [[f q]| |] eqn:Ef; [|done..]. cbn.
  destruct (copy_fields n q) as [[gs r']| |] eqn:Ec; [|done..]. cbn.
  intros [= <- <-]. apply ptr_read_inv in Ef as [-> _]. apply IH in Ec as ->.
  by rewrite app_assoc.
Qed.

(** The walk depends on the fields only, not on what follows them. *)
Lemma copy_fields_local n p fs r q :
  copy_fields n p = Ok (fs, r) → copy_fields n (fs ++ q) = Ok (fs, q).
Proof.
  revert p fs r. induction n as [|n IH]; intros p fs r; cbn [copy_fields];
    [by intros [= <- _]|].
  destruct (field_len_at p) as [len| |] eqn:El; [|done..]. cbn [mbind outcome_bind].
  destruct (ptr_read (SIZEOF_FIELD + len) p) as [[f p']| |] eqn:Ef; [|done..].
  cbn [mbind outcome_bind].
  destruct (copy_fields n p') as [[gs r']| |] eqn:Ec; [|done..]. cbn [mbind outcome_bind].
  intros [= <- <-]. apply ptr_read_inv in Ef as [-> Hf].
  destruct (field_len_at_inv _ _ El) as (h & b & r'' & _ & ? & ? & Hb).
  assert (0 ≤ len) as Hlen.
  { subst len. apply u32_range. }
  rewrite <- app_assoc. rewrite (field_len_at_extend f len).
  2: { eapply field_len_at_prefix; [|exact El]. rewrite Hf. unfold SIZEOF_FIELD. lia. }
  cbn [mbind outcome_bind]. rewrite ptr_read_app by done. cbn [mbind outcome_bind].
  by erewrite IH by exact Ec.
Qed.

(** *** Values up to what follows their fields *)

Definition value_fields (v : NRAMValueData) : outcome (list Z) :=
  '(fs, _) ← copy_fields (Z.to_nat (nfields v)) (data v); Ok fs.

(** A value the storage layer handles: members in range, the fields inside
    the block, and small enough to be allocated. *)
Definition value_ok (v : NRAMValueData) : Prop :=
  in_u32 (xact_id v) ∧ in_s16 (flags v) ∧ in_s16 (nfields v) ∧
  ∃ fs, value_fields v = Ok fs ∧ 10 + zlen fs ≤ MaxAllocSize.

(** Two values are equivalent when they agree on everything but the bytes
    after their last field. *)
#[export] Instance value_equiv : Equiv NRAMValueData := λ v w,
  xact_id v = xact_id w ∧ flags v = flags w ∧ nfields v = nfields w ∧
  value_fields v = value_fields w.

#[export] Instance value_equivalence : Equivalence (≡@{NRAMValueData}).
Proof.
  split.
  - by intros v.
  - by intros v w (? & ? & ? & ?).
  - intros u v w (? & ? & ? & ?) (? & ? & ? & ?). repeat split; congruence.
Qed.

Lemma tvalue_serialize_fields v :
  tvalue_serialize v =
    fs ← value_fields v;
    Ok (le_bytes 4 (xact_id v) ++ le_bytes 2 (flags v) ++ le_bytes 2 (nfields v) ++ fs).
Proof.
  unfold tvalue_serialize, value_fields.
  pose proof (fields_size_copy (Z.to_nat (nfields v)) (data v)) as H.
  by destruct (copy_fields _ _) as [[fs r]| |]; rewrite H.
Qed.

#[export] Instance tvalue_serialize_proper : Proper ((≡) ==> (=)) tvalue_serialize.
Proof.
  intros v w (Hx & Hf & Hn & Hd). rewrite !tvalue_serialize_fields. by rewrite Hd, Hx, Hf, Hn.
Qed.

#[export] Instance value_ok_proper : Proper ((≡) ==> iff) value_ok.
Proof.
  intros v w (Hx & Hf & Hn & Hd). unfold value_ok. by rewrite Hx, Hf, Hn, Hd.
Qed.

(** Bytes after the fields do not matter. *)
Lemma value_fields_tail x fl nf d q fs :
  value_fields (mkValue x fl nf d) = Ok fs → value_fields (mkValue x fl nf (fs ++ q)) = Ok fs.
Proof.
  unfold value_fields; cbn. destruct (copy_fields _ d) as [[gs r]| |] eqn:E; [|done..].
  cbn. intros [= <-]. by rewrite (copy_fields_local _ _ _ _ _ E).
Qed.

Lemma copy_nram_value_spec v :
  value_ok v → ∃ fs,
    value_fields v = Ok fs ∧
    copy_nram_value v = Ok (mkValue (xact_id v) (flags v) (nfields v) fs) ∧
    mkValue (xact_id v) (flags v) (nfields v) fs ≡ v.
Proof.
  intros (_ & _ & _ & fs & Hfs & _). exists fs. split; [done|].
  assert (Hfs' := Hfs). unfold value_fields in Hfs'.
  pose proof (fields_size_copy (Z.to_nat (nfields v)) (data v)) as Hs.
  destruct (copy_fields _ _) as [[gs r]| |] eqn:E; try done.
  cbn in Hfs'. injection Hfs' as ->. unfold copy_nram_value. rewrite Hs.
  cbn [mbind outcome_bind]. rewrite (copy_fields_split _ _ _ _ E) at 1.
  rewrite ptr_read_app by done. split; [done|].
  repeat split. cbn. rewrite Hfs. destruct v as [x fl nf d]. cbn in *.
  rewrite <- (app_nil_r fs) at 1. by apply (value_fields_tail _ _ _ d).
Qed.

(** A copy made with [copy_nram_value] equals its source up to the bytes
    after the last field, and holds exactly the fields. *)
Theorem copy_nram_value_equiv v w :
  value_ok v → copy_nram_value v = Ok w → w ≡ v ∧ value_fields v = Ok (data w) ∧ value_ok w.
Proof.
  intros Hv Hw. destruct (copy_nram_value_spec v Hv) as (fs & Hfs & Hc & Heq).
  rewrite Hw in Hc. injection Hc as ->. split; [done|]. split; [done|]. by rewrite Heq.
Qed.

(** A one-column value: an [int4] 7, followed by two stray bytes. *)
Definition example_value : NRAMValueData :=
  mkValue 731 0 1 (field_bytes (mkField 0 23 12) ++ le_bytes 4 (-1) ++ le_bytes 8 7 ++ [170; 187]).

Lemma example_value_ok : value_ok example_value.
Proof.
  split; [by vm_compute|]. split; [by vm_compute|]. split; [by vm_compute|].
  exists (field_bytes (mkField 0 23 12) ++ le_bytes 4 (-1) ++ le_bytes 8 7).
  split; by vm_compute.
Qed.

Lemma copy_nram_value_equiv_witness : value_ok example_value ∧
  mkValue 731 0 1 (field_bytes (mkField 0 23 12) ++ le_bytes 4 (-1) ++ le_bytes 8 7) ≡ example_value.
Proof.
  split; [exact example_value_ok|].
  by apply (copy_nram_value_equiv example_value _ example_value_ok).
Defined.

Lemma zlen_tvalue_serialize v bs :
  tvalue_serialize v = Ok bs → ∃ fs, value_fields v = Ok fs ∧ zlen bs = 8 + zlen fs.
Proof.
  rewrite tvalue_serialize_fields. destruct (value_fields v) as [fs| |]; [|done..].
  cbn. intros [= <-]. exists fs. split; [done|]. zsolve.
Qed.

Lemma tvalue_deserialize_spec v bs extra :
  value_ok v → tvalue_serialize v = Ok bs → 2 ≤ zlen extra →
  ∃ fs, value_fields v = Ok fs ∧
    tvalue_deserialize (bs ++ extra) (zlen bs) =
      Ok (mkValue (xact_id v) (flags v) (nfields v) (fs ++ take 2 extra)).
Proof.
  intros (Hx & Hf & Hn & fs & Hfs & Hsz) Hs Hextra.
  rewrite tvalue_serialize_fields, Hfs in Hs. cbn in Hs. injection Hs as <-.
  exists fs. split; [done|]. unfold tvalue_deserialize. do 3 step_read.
  pose proof (zlen_nonneg fs). unfold OFFSETOF_DATA, MaxAllocSize in *.
  set (l := zlen _). assert (l = 8 + zlen fs) as -> by (unfold l; zsolve).
  rewrite (u64_id (8 + zlen fs - 4 - 2)), (u64_id (8 + _)) by zsolve.
  replace (1073741823 <? _) with false by lia.
  rewrite <- (take_drop 2 extra) at 1. rewrite app_assoc. rewrite ptr_read_app; [done|].
  rewrite zlen_app. unfold zlen in *. rewrite length_take. lia.
Qed.

Lemma tvalue_serialize_equiv v w : v ≡ w → tvalue_serialize v = tvalue_serialize w.
Proof. intros (Hx & Hf & Hn & Hd). by rewrite !tvalue_serialize_fields, Hx, Hf, Hn, Hd. Qed.

(** The wire format determines the value up to the bytes behind its fields. *)
Lemma tvalue_serialize_inj v w bs :
  value_ok v → value_ok w → tvalue_serialize v = Ok bs → tvalue_serialize w = Ok bs → v ≡ w.
Proof.
  intros Hv Hw Ev Ew.
  destruct (tvalue_deserialize_spec v bs [0; 0] Hv Ev ltac:(done)) as (fv & Hfv & Dv).
  destruct (tvalue_deserialize_spec w bs [0; 0] Hw Ew ltac:(done)) as (fw & Hfw & Dw).
  rewrite Dv in Dw. injection Dw as Hx Hf Hn Hd%app_inv_tail. repeat split; congruence.
Qed.

Lemma tvalue_deserialize_ok v bs extra :
  value_ok v → tvalue_serialize v = Ok bs → 2 ≤ zlen extra →
  ∃ w, tvalue_deserialize (bs ++ extra) (zlen bs) = Ok w ∧ w ≡ v ∧ value_ok w.
Proof.
  intros Hv Hs He. destruct (tvalue_deserialize_spec v bs extra Hv Hs He) as (fs & Hfs & ->).
  eexists. split; [done|].
  assert (mkValue (xact_id v) (flags v) (nfields v) (fs ++ take 2 extra) ≡ v) as E.
  { repeat split. cbn. rewrite Hfs. destruct v. by eapply value_fields_tail. }
  split; [done|]. by rewrite E.
Qed.

(** A value survives its wire format up to the bytes after its fields, and
    serializes to the same bytes again,
    provided two more bytes are mapped after the serialized block:
    [tvalue_deserialize] computes the payload length as
    [len - sizeof(TransactionId) - sizeof(int16)], two more than it should. *)
Theorem tvalue_roundtrip v bs extra :
  value_ok v → tvalue_serialize v = Ok bs → 2 ≤ zlen extra →
  ∃ w, tvalue_deserialize (bs ++ extra) (zlen bs) = Ok w ∧ w ≡ v ∧ tvalue_serialize w = Ok bs.
Proof.
  intros Hv Hs He. destruct (tvalue_deserialize_ok v bs extra Hv Hs He) as (w & Hw & Heq & _).
  exists w. split; [done|]. split; [done|]. by rewrite (tvalue_serialize_equiv w v Heq).
Qed.

Lemma tvalue_roundtrip_witness : ∃ bs w,
  tvalue_serialize example_value = Ok bs ∧
  tvalue_deserialize (bs ++ [9; 9; 9]) (zlen bs) = Ok w ∧ w ≡ example_value.
Proof.
  eexists.
  destruct (tvalue_roundtrip example_value
    (le_bytes 4 731 ++ le_bytes 2 0 ++ le_bytes 2 1
       ++ field_bytes (mkField 0 23 12) ++ le_bytes 4 (-1) ++ le_bytes 8 7) [9; 9; 9])
    as (w & Hw & He & _); [exact example_value_ok|by vm_compute|by vm_compute|].
  exists w. by split; [vm_compute|].
Defined.

(** On a block that ends with the serialized value, as the [palloc]ed
    message entities and the RocksDB values do, [tvalue_deserialize] reads past
    the end of the block. *)
Theorem tvalue_deserialize_overread v bs extra :
  value_ok v → tvalue_serialize v = Ok bs → zlen extra < 2 →
  tvalue_deserialize (bs ++ extra) (zlen bs) = Ub "read past the end of a block".
Proof.
  intros (Hx & Hf & Hn & fs & Hfs & Hsz) Hs Hextra.
  rewrite tvalue_serialize_fields, Hfs in Hs. cbn in Hs. injection Hs as <-.
  unfold tvalue_deserialize. do 3 step_read.
  pose proof (zlen_nonneg fs). unfold OFFSETOF_DATA, MaxAllocSize in *.
  set (l := zlen _). assert (l = 8 + zlen fs) as -> by (unfold l; zsolve).
  rewrite (u64_id (8 + zlen fs - 4 - 2)), (u64_id (8 + _)) by zsolve.
  replace (1073741823 <? _) with false by lia.
  rewrite ptr_read_short by zsolve. done.
Qed.

Lemma tvalue_deserialize_overread_witness : ∃ bs,
  tvalue_serialize example_value = Ok bs ∧
  tvalue_deserialize (bs ++ []) (zlen bs) = Ub "read past the end of a block".
Proof.
  eexists. split; [by vm_compute|].
  apply (tvalue_deserialize_overread example_value); [exact example_value_ok|by vm_compute|done].
Defined.

(** ** Tuples

    A heap tuple is what [heap_deform_tuple] extracts from it: one datum and
    one null flag per attribute. *)
Record Form_pg_attribute := mkAttr { atttypid : Z; attbyval : bool; attlen : Z }.
Definition TupleDesc := list Form_pg_attribute.
Definition HeapTuple := list (Datum * bool).

Fixpoint estimate_lens (tup : HeapTuple) (tupdesc : TupleDesc) : outcome (list Z) :=
  match tupdesc, tup with
  | [], _ => Ok []
  | attr :: tupdesc, (value, isnull) :: tup =>
      len ← datumEstimateSpace value isnull (attbyval attr) (attlen attr);
      lens ← estimate_lens tup tupdesc;
      Ok (len :: lens)
  | _, [] => Ub "fewer values than attributes"
  end.

Fixpoint total_fields (lens : list Z) : Z :=
  match lens with [] => 0 | len :: lens => len + SIZEOF_FIELD + total_fields lens end.

Fixpoint write_fields (i : Z) (tup : HeapTuple) (tupdesc : TupleDesc) (lens : list Z)
    : outcome (list Z) :=
  match tupdesc, tup, lens with
  | attr :: tupdesc, (value, isnull) :: tup, len :: lens =>
      payload ← datumSerialize value isnull (attbyval attr) (attlen attr);
      rest ← write_fields (i + 1) tup tupdesc lens;
      Ok (field_bytes (mkField i (atttypid attr) len) ++ payload ++ rest)
  | _, _, _ => Ok []
  end.

Definition nram_value_serialize_from_tuple (xid : Z) (tup : HeapTuple) (tupdesc : TupleDesc)
    : outcome NRAMValueData :=
  lens ← estimate_lens tup tupdesc;
  let total_size := OFFSETOF_DATA + total_fields lens in
  if MaxAllocSize <? total_size then Raise "invalid memory alloc request size"
  else
    fs ← write_fields 0 tup tupdesc lens;
    if negb (OFFSETOF_DATA + zlen fs =? total_size) then
      Raise "[nram_value_serialize_from_tuple]: wrong value serialization length mismatch"
    else Ok (mkValue xid 0 (sint 16 (zlen tupdesc)) fs).

Fixpoint restore_fields (n : nat) (pos : list Z) : outcome HeapTuple :=
  match n with
  | O => Ok []
  | S n =>
      '(_, pos) ← ptr_read SIZEOF_FIELD pos;
      '(value, isnull, pos) ← datumRestore pos;
      rest ← restore_fields n pos;
      Ok ((value, isnull) :: rest)
  end.

(** [heap_form_tuple] reads one value per attribute of the descriptor. *)
Definition heap_form_tuple (tupdesc : TupleDesc) (values : HeapTuple) : outcome HeapTuple :=
  if zlen values <? zlen tupdesc then Ub "read past the values array"
  else Ok (take (length tupdesc) values).

Definition deserialize_nram_value_to_tuple (val : NRAMValueData) (tupdesc : TupleDesc)
    : outcome HeapTuple :=
  values ← restore_fields (Z.to_nat (nfields val)) (data val);
  heap_form_tuple tupdesc values.

(** *** The tuple round trip *)

Definition attr_ok (attr : Form_pg_attribute) (v : Datum * bool) : Prop :=
  in_u32 (atttypid attr) ∧ datum_ok v.1 v.2 (attbyval attr) (attlen attr).

(** The column as it is read back. *)
Definition attr_flat (attr : Form_pg_attribute) (v w : Datum * bool) : Prop :=
  datum_flat v.1 v.2 (attbyval attr) (attlen attr) = Ok w.1 ∧ w.2 = v.2.

Lemma zlen_field_bytes f : zlen (field_bytes f) = SIZEOF_FIELD.
Proof. unfold field_bytes, SIZEOF_FIELD. zsolve. Qed.
#[export] Hint Rewrite zlen_field_bytes : zlen.

(** One pass over the columns writes the fields that estimate the right
    length, that [copy_fields] walks, and that restore to the columns. *)
Lemma write_fields_spec tupdesc tup i :
  Forall2 attr_ok tupdesc tup →
  ∃ lens fs tup',
    estimate_lens tup tupdesc = Ok lens ∧
    write_fields i tup tupdesc lens = Ok fs ∧
    zlen fs = total_fields lens ∧
    copy_fields (length tupdesc) fs = Ok (fs, []) ∧
    (∀ q, restore_fields (length tupdesc) (fs ++ q) = Ok tup') ∧
    Forall2 (λ '(attr, v) w, attr_flat attr v w) (zip tupdesc tup) tup'.
Proof.
  intros H. revert i. induction H as [|attr [v isnull] tupdesc tup [Ho Hd] H IH]; intros i.
  { exists [], [], []. repeat split; done || constructor. }
  destruct (IH (i + 1)) as (lens & fs & tup' & El & Ew & Hz & Hc & Hr & Hf).
  cbn [fst snd] in Hd.
  destruct (datumSerialize_spec _ _ _ _ Hd) as (h & pl & d & Hs & Hflat & Hh & Hcases).
  set (bs := le_bytes 4 h ++ pl) in *.
  assert (zlen bs < 2 ^ 32 ∧ 4 ≤ zlen bs) as Hbs.
  { pose proof (zlen_nonneg pl). unfold bs.
    destruct Hcases as [(-> & _ & -> & _)|[(-> & _ & _ & w & _ & _ & ->)|(? & _ & _ & ? & _)]];
      zsolve. }
  pose proof (datumEstimateSpace_exact _ _ _ _ Hd _ Hs) as He.
  destruct (datumRestore_serialize _ _ _ _ bs [] Hd Hs) as (d' & Hd' & _).
  rewrite Hflat in Hd'. injection Hd' as <-.
  eexists (zlen bs :: lens), _, ((d, isnull) :: tup').
  cbn [estimate_lens write_fields total_fields length].
  rewrite He. cbn [mbind outcome_bind]. rewrite El, Hs. cbn [mbind outcome_bind]. rewrite Ew.
  cbn [mbind outcome_bind]. split; [done|]. split; [done|]. split; [zsolve|].
  set (hd := field_bytes _). assert (zlen hd = SIZEOF_FIELD) as Hhd by apply zlen_field_bytes.
  split.
  - cbn [copy_fields]. assert (field_len_at (hd ++ bs ++ fs) = Ok (zlen bs)) as ->.
    { unfold hd, field_bytes. cbn [attnum type_oid field_len].
      rewrite <- !app_assoc.
      rewrite (app_assoc [0; 0]), (app_assoc (le_bytes 2 i)).
      rewrite field_len_at_intro by zsolve. by rewrite le_val_le_bytes_id, u32_id by zsolve. }
    cbn [mbind outcome_bind]. rewrite (app_assoc hd), ptr_read_app by zsolve.
    cbn [mbind outcome_bind]. by rewrite Hc.
  - split.
    + intros q. cbn [restore_fields]. rewrite <- app_assoc, ptr_read_app by done.
      cbn [mbind outcome_bind]. rewrite <- app_assoc.
      destruct (datumRestore_serialize _ _ _ _ bs (fs ++ q) Hd Hs) as (d' & Hd' & ->).
      rewrite Hflat in Hd'. injection Hd' as <-. cbn [mbind outcome_bind]. by rewrite Hr.
    + by constructor.
Qed.

Lemma nram_tuple_codec xid tup tupdesc lens :
  Forall2 attr_ok tupdesc tup → zlen tupdesc < 2 ^ 15 → in_u32 xid →
  estimate_lens tup tupdesc = Ok lens → 10 + total_fields lens ≤ MaxAllocSize →
  ∃ v tup',
    nram_value_serialize_from_tuple xid tup tupdesc = Ok v ∧
    value_ok v ∧ value_fields v = Ok (data v) ∧ xact_id v = xid ∧ flags v = 0 ∧
    deserialize_nram_value_to_tuple v tupdesc = Ok tup' ∧
    Forall2 (λ '(attr, c) c', attr_flat attr c c') (zip tupdesc tup) tup'.
Proof.
  intros Hok Hn Hxid Hlens Hsz.
  destruct (write_fields_spec tupdesc tup 0 Hok) as (lens' & fs & tup' & El & Ew & Hz & Hc & Hr & Hf).
  rewrite Hlens in El. injection El as <-.
  pose proof (zlen_nonneg tupdesc) as Hn0.
  assert (sint 16 (zlen tupdesc) = zlen tupdesc) as Hsint by (apply sint_id; lia).
  assert (Z.to_nat (zlen tupdesc) = length tupdesc) as Hnat by (unfold zlen; lia).
  exists (mkValue xid 0 (zlen tupdesc) fs), tup'.
  unfold nram_value_serialize_from_tuple, OFFSETOF_DATA. rewrite Hlens. cbn [mbind outcome_bind].
  replace (MaxAllocSize <? 8 + total_fields lens) with false by lia.
  rewrite Ew. cbn [mbind outcome_bind]. rewrite Hz, Z.eqb_refl, Hsint. cbn [negb].
  assert (value_fields (mkValue xid 0 (zlen tupdesc) fs) = Ok fs) as Hfs.
  { unfold value_fields. cbn [nfields data]. by rewrite Hnat, Hc. }
  split; [done|]. split; [|split; [done|split; [done|split; [done|split; [|done]]]]].
  - split; [done|]. split; [by vm_compute|]. split; [unfold in_s16; cbn; lia|].
    exists fs. split; [done|]. lia.
  - unfold deserialize_nram_value_to_tuple, heap_form_tuple. cbn [nfields data].
    rewrite Hnat. rewrite <- (app_nil_r fs), Hr. cbn [mbind outcome_bind].
    assert (length tup' = length tupdesc) as Hl.
    { apply Forall2_length in Hf, Hok. rewrite length_zip_with in Hf. lia. }
    unfold zlen. rewrite Hl. replace (_ <? _) with false by lia.
    rewrite take_ge by lia. done.
Qed.

(** A value whose data are exactly its fields is copied as it is. *)
Lemma copy_nram_value_exact v : value_ok v → value_fields v = Ok (data v) → copy_nram_value v = Ok v.
Proof.
  intros Hv Hf. destruct (copy_nram_value_spec v Hv) as (fs & Hfs & -> & _).
  rewrite Hf in Hfs. injection Hfs as <-. by destruct v.
Qed.

(** C6. Storing a tuple and loading it back: for every tuple whose columns are
    well formed for the descriptor and whose image fits an allocation,
    [nram_value_serialize_from_tuple] succeeds with a well-formed value (the
    length check never fires) carrying the transaction id and no flag, and
    [deserialize_nram_value_to_tuple] returns the same columns, expanded
    objects flattened. *)
Theorem nram_tuple_roundtrip xid tup tupdesc lens :
  Forall2 attr_ok tupdesc tup → zlen tupdesc < 2 ^ 15 → in_u32 xid →
  estimate_lens tup tupdesc = Ok lens → 10 + total_fields lens ≤ MaxAllocSize →
  ∃ v tup',
    nram_value_serialize_from_tuple xid tup tupdesc = Ok v ∧
    value_ok v ∧ xact_id v = xid ∧ flags v = 0 ∧
    deserialize_nram_value_to_tuple v tupdesc = Ok tup' ∧
    Forall2 (λ '(attr, c) c', attr_flat attr c c') (zip tupdesc tup) tup'.
Proof.
  intros H1 H2 H3 H4 H5. destruct (nram_tuple_codec xid tup tupdesc lens H1 H2 H3 H4 H5)
    as (v & tup' & ? & ? & _ & ? & ? & ? & ?). by exists v, tup'.
Qed.

(** A descriptor [(int4, text)] and the row [(7, 'hi')], the text with a short
    varlena header. *)
Definition example_desc : TupleDesc := [mkAttr 23 true 4; mkAttr 25 false (-1)].
Definition example_tuple : HeapTuple := [(DWord 7, false); (DPtr [7; 104; 105], false)].

Lemma example_tuple_ok : Forall2 attr_ok example_desc example_tuple.
Proof.
  constructor; [|constructor; [|by constructor]].
  - split; [by vm_compute|]. right. split; [done|]. exists 7. by vm_compute.
  - split; [by vm_compute|]. right. split; [done|]. split; [done|]. exists 3. by vm_compute.
Qed.

Lemma nram_tuple_roundtrip_witness : ∃ v tup',
  nram_value_serialize_from_tuple 731 example_tuple example_desc = Ok v ∧
  deserialize_nram_value_to_tuple v example_desc = Ok tup' ∧
  tup' = example_tuple.
Proof.
  destruct (nram_tuple_roundtrip 731 example_tuple example_desc [12; 7])
    as (v & t & Hv & _ & _ & _ & Ht & _);
    [exact example_tuple_ok|by vm_compute..|].
  exists v, t. split; [done|]. split; [done|].
  vm_compute in Hv. injection Hv as <-. vm_compute in Ht. by injection Ht as <-.
Defined.
