(* ===== verification/Channel.v ===== *)
(** * The shared-memory message channel

    Models [dbengine/nr_kernel/nr_am/src/ipc/msg.c] and [msg.h]: a channel is
    a circular byte buffer in shared memory, protected by an LWLock and with
    a condition variable; messages are a fixed header and an entity.

    A critical section (between [LWLockAcquire] and [LWLockRelease]) is one
    atomic step on the shared state. The blocking loops sleep on the condition
    variable between critical sections: what other processes did to the
    channel meanwhile is an argument, a list of [wake]s, one per sleep, and a
    loop that has used all of them is [Asleep]. *)
From S2P Require Import Prelude Ring Kv.
From Stdlib Require Import ZArith Lia.
From stdpp Require Import base list list_numbers strings gmap numbers.

Open Scope Z_scope.

Definition KV_CHANNEL_BUFSIZE : Z := 32768.
Definition MSG_SIZE : Z := 1024.

(** The [LWLock] member has no counterpart (critical sections are atomic);
    [cv] counts the broadcasts on the condition variable. *)
Record KVChannelShared := mkShared {
  is_running : Z;
  head : Z;
  tail : Z;
  cv : nat;
  buffer : list Z
}.

Definition set_head (s : KVChannelShared) (h : Z) : KVChannelShared :=
  mkShared (is_running s) h (tail s) (cv s) (buffer s).
Definition ConditionVariableBroadcast (s : KVChannelShared) : KVChannelShared :=
  mkShared (is_running s) (head s) (tail s) (S (cv s)) (buffer s).

(** The segment of shared memory that [ShmemInitStruct] hands out by name. *)
Abbreviation Shmem := (gmap string KVChannelShared).

Definition zeroed_shared : KVChannelShared :=
  mkShared 0 0 0 0 (replicate (Z.to_nat KV_CHANNEL_BUFSIZE) 0).
Definition fresh_shared : KVChannelShared :=
  mkShared 1 0 0 0 (replicate (Z.to_nat KV_CHANNEL_BUFSIZE) 0).

(** [ShmemInitStruct] allocates the struct when it is not found, also when the
    caller then raises. *)
Definition KVChannelInit (name : string) (create : bool) (shm : Shmem) : outcome string * Shmem :=
  let '(found, shm) :=
    match shm !! name with
    | Some _ => (true, shm)
    | None => (false, <[name := zeroed_shared]> shm)
    end in
  if create then (Ok name, <[name := fresh_shared]> shm)
  else if negb found then (Raise "[NRAM] shared memory segment not found", shm)
  else (Ok name, shm).

Definition TerminateChannel (s : KVChannelShared) : KVChannelShared :=
  ConditionVariableBroadcast (mkShared 0 (head s) (tail s) (cv s) (buffer s)).

Definition KVChannelDestroy (chan : option string) (shm : Shmem) : Shmem :=
  match chan with
  | None => shm
  | Some name => alter TerminateChannel name shm
  end.

(** ** Bytes in and out *)

Definition used (s : KVChannelShared) : Z :=
  (tail s + KV_CHANNEL_BUFSIZE - head s) `mod` KV_CHANNEL_BUFSIZE.

(** The critical section of [KVChannelPush]: the new state when the data fits. *)
Definition push_try (bs : list Z) (s : KVChannelShared) : option KVChannelShared :=
  let space := KV_CHANNEL_BUFSIZE - used s - 1 in
  if zlen bs <=? space then
    let pos := tail s in
    let fin := (pos + zlen bs) `mod` KV_CHANNEL_BUFSIZE in
    Some (ConditionVariableBroadcast
            (mkShared (is_running s) (head s) fin (cv s) (ring_write (buffer s) pos bs)))
  else None.

Definition UnsafeKVChannelPop (len : Z) (s : KVChannelShared) : option (list Z * KVChannelShared) :=
  if len <=? used s then
    let pos := head s in
    let fin := (pos + len) `mod` KV_CHANNEL_BUFSIZE in
    Some (ring_read (buffer s) pos len, set_head s fin)
  else None.

(** ** The blocking loops *)

(** One sleep: whether the postmaster was alive before it, what the others did
    to the channel, and the milliseconds on the clock at the wake-up. *)
Record wake := mkWake {
  wk_alive : bool;
  wk_env : KVChannelShared → KVChannelShared;
  wk_clock : Z
}.

Inductive chan_result (A : Type) : Type :=
| Returned (a : A)
| Raised (msg : string)
| Exited
| Asleep.
Arguments Returned {A} a.
Arguments Raised {A} msg.
Arguments Exited {A}.
Arguments Asleep {A}.

(** The loop [while (is_running) { lock; try; ... sleep }] of [KVChannelPush],
    [KVChannelPop] and [KVChannelPopMsg]. [try] is the critical section,
    [stopped] what is returned when the channel is not running or the call
    does not block, [timed_out] what happens when the timeout has passed;
    [clock] is the milliseconds since the call, when the clock is first read. *)
Section loop.
Context {A : Type} (try : KVChannelShared → option (chan_result A * KVChannelShared)).
Context (stopped : A) (timed_out : chan_result A) (timeout_ms : Z).

Fixpoint blocking_loop (clock : Z) (wakes : list wake) (s : KVChannelShared)
    : chan_result A * KVChannelShared :=
  if is_running s =? 0 then (Returned stopped, s)
  else match try s with
  | Some r => r
  | None =>
      if timeout_ms =? 0 then (Returned stopped, s)
      else if (0 <? timeout_ms) && (timeout_ms - clock <=? 0) then (timed_out, s)
      else match wakes with
      | [] => (Asleep, s)
      | w :: wakes =>
          if negb (wk_alive w) then (Exited, s)
          else blocking_loop (wk_clock w) wakes (wk_env w s)
      end
  end.
End loop.

Definition KVChannelPush (bs : list Z) (timeout_ms clock : Z) (wakes : list wake) (s : KVChannelShared)
    : chan_result bool * KVChannelShared :=
  if KV_CHANNEL_BUFSIZE <? zlen bs then (Raised "KVChannel: message too large", s)
  else blocking_loop
         (λ s, s' ← push_try bs s; Some (Returned true, s'))
         false (Raised "KVChannelPush encounters timeout") timeout_ms clock wakes s.

Definition KVChannelPop (len timeout_ms clock : Z) (wakes : list wake) (s : KVChannelShared)
    : chan_result (option (list Z)) * KVChannelShared :=
  if KV_CHANNEL_BUFSIZE <? len then (Raised "KVChannel: pop too much", s)
  else blocking_loop
         (λ s, '(out, s') ← UnsafeKVChannelPop len s;
               Some (Returned (Some out), ConditionVariableBroadcast s'))
         None (Raised "KVChannelPop encounters timeout") timeout_ms clock wakes s.

(** ** Messages *)

Inductive KVOp :=
| kv_none | kv_open | kv_close | kv_count | kv_put | kv_get | kv_delete
| kv_load | kv_batch_read | kv_cursor_delete | kv_start | kv_stop | kv_range.

Inductive KVMsgStatus := kv_status_none | kv_status_ok | kv_status_error | kv_status_failed.

#[export] Instance KVOp_eq_dec : EqDecision KVOp.
Proof. solve_decision. Defined.
#[export] Instance KVMsgStatus_eq_dec : EqDecision KVMsgStatus.
Proof. solve_decision. Defined.

Definition KVOp_code (op : KVOp) : Z :=
  match op with
  | kv_none => 0 | kv_open => 1 | kv_close => 2 | kv_count => 3 | kv_put => 4
  | kv_get => 5 | kv_delete => 6 | kv_load => 7 | kv_batch_read => 8
  | kv_cursor_delete => 9 | kv_start => 10 | kv_stop => 11 | kv_range => 12
  end.

Definition KVMsgStatus_code (st : KVMsgStatus) : Z :=
  match st with
  | kv_status_none => 0 | kv_status_ok => 1 | kv_status_error => 2 | kv_status_failed => 3
  end.

(** The members are machine words, since a header read from the channel holds
    whatever bytes were there. *)
Record KVMsgHeader := mkHeader {
  op : Z;
  relId : Z;
  status : Z;
  respChannel : Z;
  entitySize : Z
}.
Add Printing Constructor KVMsgHeader.

(** [entity] is a possibly NULL pointer to a block; the [reader] and [writer]
    members always are the default functions below. *)
Record KVMsg := mkMsg { header : KVMsgHeader; entity : option (list Z) }.
Add Printing Constructor KVMsg.

Definition SIZEOF_HEADER : Z := 24.

Definition NewMsg (o : KVOp) (rel_id : Z) (st : KVMsgStatus) (channel_id : Z) : KVMsg :=
  mkMsg (mkHeader (KVOp_code o) rel_id (KVMsgStatus_code st) (u32 channel_id) 0) None.

Definition NewEmptyMsg : KVMsg := mkMsg (mkHeader 0 0 0 0 0) None.

Definition header_bytes (h : KVMsgHeader) : list Z :=
  le_bytes 4 (op h) ++ le_bytes 4 (relId h) ++ le_bytes 4 (status h)
    ++ le_bytes 4 (respChannel h) ++ le_bytes 8 (entitySize h).

Definition header_of_bytes (bs : list Z) : outcome KVMsgHeader :=
  '(o, bs) ← rd_u32 bs;
  '(r, bs) ← rd_u32 bs;
  '(st, bs) ← rd_u32 bs;
  '(ch, bs) ← rd_u32 bs;
  '(sz, _) ← rd_u64 bs;
  Ok (mkHeader o r st ch sz).

(** The message as laid out in the zeroed [temp] buffer. *)
Definition msg_bytes (msg : KVMsg) : outcome (list Z) :=
  let entity_size := entitySize (header msg) in
  body ← (match entity msg with
          | Some e =>
              if 0 <? entity_size then '(b, _) ← ptr_read entity_size e; Ok b else Ok []
          | None => Ok (replicate (Z.to_nat entity_size) 0)
          end);
  Ok (header_bytes (header msg) ++ body).

Definition KVChannelPushMsg (msg : KVMsg) (timeout_ms clock : Z) (wakes : list wake)
    (s : KVChannelShared) : outcome (chan_result bool * KVChannelShared) :=
  let total_size := u64 (SIZEOF_HEADER + entitySize (header msg)) in
  if MSG_SIZE <? total_size then
    Ok (Raised "KVChannelPushMsg: total message too large", s)
  else
    temp ← msg_bytes msg;
    Ok (KVChannelPush temp timeout_ms clock wakes s).

(** The critical section of [KVChannelPopMsg]. The header is consumed before
    the entity is looked at, and nothing is broadcast. *)
Definition popmsg_try (s : KVChannelShared)
    : option (chan_result (option KVMsg) * KVChannelShared) :=
  '(hb, s1) ← UnsafeKVChannelPop SIZEOF_HEADER s;
  match header_of_bytes hb with
  | Ok h =>
      if MaxAllocSize <? entitySize h then Some (Raised "invalid memory alloc request size", s1)
      else match UnsafeKVChannelPop (entitySize h) s1 with
      | Some (e, s2) => Some (Returned (Some (mkMsg h (Some e))), s2)
      | None =>
          Some (Raised "Corrupted message: the remaining message is smaller than entitySize", s1)
      end
  | _ => None
  end.

Definition KVChannelPopMsg (timeout_ms clock : Z) (wakes : list wake) (s : KVChannelShared)
    : chan_result (option KVMsg) * KVChannelShared :=
  blocking_loop popmsg_try None (Returned None) timeout_ms clock wakes s.

(** The default entity handlers: offset, block and entity. *)
Definition DefaultWriteEntity (buf : list Z) (offset : Z) (e : list Z) (size : Z) : list Z * Z :=
  if size =? 0 then (buf, offset)
  else (ring_write buf offset (take (Z.to_nat size) e), (offset + size) `mod` KV_CHANNEL_BUFSIZE).

Definition DefaultReadEntity (buf : list Z) (offset size : Z) : list Z * Z :=
  if size =? 0 then ([], offset)
  else
    let remaining := KV_CHANNEL_BUFSIZE - offset in
    if size <=? remaining then
      (ring_read buf offset size, (offset + size) `mod` KV_CHANNEL_BUFSIZE)
    else (ring_read buf offset size, size - remaining).

(** What [PrintChannelContent] prints: the queued bytes, unprintable ones as [#]. *)
Definition printable (c : Z) : Z := if (32 <=? c) && (c <=? 126) then c else 35.
Definition PrintChannelContent (s : KVChannelShared) : list Z :=
  (λ i : nat, printable
     (default 0 (buffer s !! Z.to_nat ((head s + Z.of_nat i) `mod` KV_CHANNEL_BUFSIZE))))
    <$> seq 0 (Z.to_nat (used s)).

(** What [PrintKVMsg] prints of a message, or the error it raises. *)
Definition op_str (o : Z) : option string :=
  [ "NONE"; "OPEN"; "CLOSE"; "COUNT"; "PUT"; "GET"; "DELETE"; "LOAD"; "BATCH_READ";
    "CURSOR_DELETE"; "START"; "STOP"; "RANGE" ]%string !! Z.to_nat o.
Definition status_str (st : Z) : string :=
  default "UNKNOWN_STATUS"%string
    ([ "NONE"; "OK"; "ERROR"; "FAILED" ]%string !! Z.to_nat st).

Definition PrintKVMsg (msg : option KVMsg) : outcome (option (string * string * list Z)) :=
  match msg with
  | None => Ok None
  | Some msg =>
      match op_str (op (header msg)) with
      | None => Raise "PrintKVMsg: unknown op"
      | Some o =>
          preview ← (match entity msg with
                     | Some e =>
                         if 0 <? entitySize (header msg) then
                           '(b, _) ← ptr_read (Z.min (entitySize (header msg)) 255) e;
                           Ok (map printable b)
                         else Ok []
                     | None => Ok []
                     end : outcome (list Z));
          Ok (Some (o, status_str (status (header msg)), preview))
      end
  end.

(** ** The channel as a byte queue *)

Definition shared_inv (s : KVChannelShared) : Prop :=
  zlen (buffer s) = KV_CHANNEL_BUFSIZE ∧
  0 ≤ head s < KV_CHANNEL_BUFSIZE ∧ 0 ≤ tail s < KV_CHANNEL_BUFSIZE.

(** The abstract state: the bytes pushed and not yet popped. *)
Definition contents (s : KVChannelShared) : list Z := ring_read (buffer s) (head s) (used s).

Lemma fresh_shared_inv : shared_inv fresh_shared.
Proof.
  unfold shared_inv, fresh_shared; cbn [buffer head tail]. unfold zlen.
  rewrite length_replicate. unfold KV_CHANNEL_BUFSIZE. lia.
Qed.

Lemma used_bound s : 0 ≤ used s < KV_CHANNEL_BUFSIZE.
Proof. apply Z.mod_pos_bound. done. Qed.

Section inv.
Context (s : KVChannelShared).
Hypothesis (Hinv : shared_inv s).

Lemma used_tail : (head s + used s) `mod` KV_CHANNEL_BUFSIZE = tail s.
Proof using Hinv.
  destruct Hinv as (_ & Hh & Ht). by apply ring_used_tail.
Qed.

Lemma zlen_contents : zlen (contents s) = used s.
Proof using Hinv.
  destruct Hinv as (Hb & Hh & _). pose proof (used_bound s).
  unfold contents, zlen. rewrite length_ring_read by lia. lia.
Qed.
End inv.

Lemma used_move s n :
  shared_inv s → 0 ≤ n ≤ used s → used (set_head s ((head s + n) `mod` KV_CHANNEL_BUFSIZE)) = used s - n.
Proof.
  intros (_ & Hh & Ht) Hn. by apply ring_used_move.
Qed.

Lemma used_grow s n b :
  shared_inv s → 0 ≤ n → used s + n < KV_CHANNEL_BUFSIZE →
  used (mkShared (is_running s) (head s) ((tail s + n) `mod` KV_CHANNEL_BUFSIZE) (cv s) b)
    = used s + n.
Proof.
  intros (_ & Hh & Ht) Hn Hs. by apply ring_used_grow.
Qed.

Lemma push_try_spec bs s :
  shared_inv s →
  if decide (used s + zlen bs < KV_CHANNEL_BUFSIZE) then
    ∃ s', push_try bs s = Some s' ∧ shared_inv s' ∧ contents s' = contents s ++ bs ∧
          is_running s' = is_running s ∧ cv s' = S (cv s)
  else push_try bs s = None.
Proof.
  intros Hinv. unfold push_try. pose proof (zlen_nonneg bs). pose proof (used_bound s).
  assert (0 < KV_CHANNEL_BUFSIZE) as HN by done.
  case_decide as Hfit.
  2: { by replace (zlen bs <=? _) with false by lia. }
  replace (zlen bs <=? _) with true by lia.
  pose proof Hinv as (Hb & Hh & Ht).
  eexists. split; [done|]. split_and!; [|unfold contents|done..].
  - unfold shared_inv; cbn. split_and!; [|lia|lia| |].
    + unfold zlen in *. rewrite length_ring_write; unfold zlen; lia.
    + apply Z.mod_pos_bound. lia.
    + apply Z.mod_pos_bound. lia.
  - change (used (ConditionVariableBroadcast ?s)) with (used s).
    rewrite used_grow by done. cbn [ConditionVariableBroadcast buffer head].
    rewrite <- ring_read_append with (pos := tail s); [done|lia..|].
    rewrite Hb. symmetry. by apply used_tail.
Qed.

Lemma pop_spec len s :
  shared_inv s → 0 ≤ len →
  if decide (len ≤ used s) then
    ∃ s', UnsafeKVChannelPop len s = Some (take (Z.to_nat len) (contents s), s') ∧
          shared_inv s' ∧ contents s' = drop (Z.to_nat len) (contents s) ∧
          is_running s' = is_running s ∧ cv s' = cv s
  else UnsafeKVChannelPop len s = None.
Proof.
  intros Hinv Hlen. unfold UnsafeKVChannelPop. pose proof (used_bound s).
  case_decide as Hfit.
  2: { by replace (len <=? _) with false by lia. }
  replace (len <=? _) with true by lia. pose proof Hinv as (Hb & Hh & Ht).
  assert (contents s = ring_read (buffer s) (head s) len ++
            ring_read (buffer s) ((head s + len) `mod` KV_CHANNEL_BUFSIZE) (used s - len)) as E.
  { unfold contents. rewrite <- Hb.
    rewrite <- ring_read_split by lia. f_equal. lia. }
  assert (length (ring_read (buffer s) (head s) len) = Z.to_nat len) as El
    by (apply length_ring_read; lia).
  exists (set_head s ((head s + len) `mod` KV_CHANNEL_BUFSIZE)).
  split; [|split_and!; [| |done..]].
  - by rewrite E, <- El, take_app_length.
  - unfold shared_inv; cbn. split_and!; [done| | |lia|lia]; apply Z.mod_pos_bound; done.
  - rewrite E, <- El, drop_app_length. unfold contents. by rewrite used_move.
Qed.

(** ** Refinement: the channel is a bounded byte queue *)

Inductive chan_op := CPush (bs : list Z) | CPop (len : nat).
Inductive chan_obs := OPushed | OFull | OPopped (bs : list Z) | OShort.

(** The abstract object: at most [KV_CHANNEL_BUFSIZE - 1] bytes. *)
Definition queue_step (o : chan_op) (q : list Z) : chan_obs * list Z :=
  match o with
  | CPush bs => if decide (zlen q + zlen bs < KV_CHANNEL_BUFSIZE) then (OPushed, q ++ bs) else (OFull, q)
  | CPop n => if decide (n ≤ length q)%nat then (OPopped (take n q), drop n q) else (OShort, q)
  end.

Definition channel_step (o : chan_op) (s : KVChannelShared) : chan_obs * KVChannelShared :=
  match o with
  | CPush bs => match push_try bs s with Some s' => (OPushed, s') | None => (OFull, s) end
  | CPop n =>
      match UnsafeKVChannelPop (Z.of_nat n) s with
      | Some (out, s') => (OPopped out, s')
      | None => (OShort, s)
      end
  end.

Fixpoint run_ops {S} (step : chan_op → S → chan_obs * S) (ops : list chan_op) (s : S)
    : list chan_obs * S :=
  match ops with
  | [] => ([], s)
  | o :: ops => let '(r, s) := step o s in let '(rs, s) := run_ops step ops s in (r :: rs, s)
  end.

Lemma channel_step_refines o s :
  shared_inv s →
  (channel_step o s).1 = (queue_step o (contents s)).1 ∧
  contents (channel_step o s).2 = (queue_step o (contents s)).2 ∧
  shared_inv (channel_step o s).2.
Proof.
  intros Hinv. destruct o as [bs|n]; cbn [channel_step queue_step].
  - pose proof (push_try_spec bs s Hinv) as H. rewrite zlen_contents by done.
    case_decide; [|by rewrite H]. by destruct H as (s' & -> & Hi & Hc & _).
  - pose proof (pop_spec (Z.of_nat n) s Hinv ltac:(lia)) as H.
    pose proof (zlen_contents s Hinv) as Hz. unfold zlen in Hz.
    case_decide; case_decide; try lia; [|by rewrite H].
    destruct H as (s' & -> & Hi & Hc & _). by rewrite Nat2Z.id in *.
Qed.

(** C27. Under every sequence of critical sections the circular buffer behaves
    as a bounded FIFO of bytes: the same operations succeed, the same bytes
    come out in the order they went in, and the invariant of the indices is
    kept. *)
Theorem channel_refines_byte_queue ops s :
  shared_inv s →
  (run_ops channel_step ops s).1 = (run_ops queue_step ops (contents s)).1 ∧
  contents (run_ops channel_step ops s).2 = (run_ops queue_step ops (contents s)).2 ∧
  shared_inv (run_ops channel_step ops s).2.
Proof.
  revert s. induction ops as [|o ops IH]; intros s Hinv; [done|]. cbn [run_ops].
  destruct (channel_step_refines o s Hinv) as (Ho & Hc & Hi).
  destruct (channel_step o s) as [r s'], (queue_step o (contents s)) as [r' q'].
  cbn [fst snd] in *. subst r' q'. specialize (IH s' Hi).
  destruct (run_ops channel_step ops s'), (run_ops queue_step ops (contents s')).
  cbn [fst snd] in *. destruct IH as (-> & -> & ?). done.
Qed.

Lemma channel_refines_byte_queue_witness :
  shared_inv fresh_shared ∧
  (run_ops channel_step [CPush [1; 2; 3]; CPop 2; CPush [4]; CPop 3; CPop 2] fresh_shared).1 =
    [OPushed; OPopped [1; 2]; OPushed; OShort; OPopped [3; 4]].
Proof.
  split; [exact fresh_shared_inv|].
  rewrite (proj1 (channel_refines_byte_queue _ fresh_shared fresh_shared_inv)).
  by vm_compute.
Defined.

(** ** Messages over the channel *)

Definition header_ok (h : KVMsgHeader) : Prop :=
  in_u32 (op h) ∧ in_u32 (relId h) ∧ in_u32 (status h) ∧ in_u32 (respChannel h) ∧
  in_u64 (entitySize h).

(** A message that may be sent: an entity of the announced size, within
    [MSG_SIZE] together with the header. *)
Definition msg_ok (m : KVMsg) : Prop :=
  header_ok (header m) ∧ SIZEOF_HEADER + entitySize (header m) ≤ MSG_SIZE ∧
  match entity m with
  | Some e => zlen e = entitySize (header m)
  | None => False
  end.

(** The message as the receiver gets it: the entity is a [palloc]ed block even
    when it is empty. *)
Definition msg_wire (m : KVMsg) : list Z := header_bytes (header m) ++ default [] (entity m).

Lemma zlen_header_bytes h : zlen (header_bytes h) = SIZEOF_HEADER.
Proof. unfold header_bytes, SIZEOF_HEADER. zsolve. Qed.
#[export] Hint Rewrite zlen_header_bytes : zlen.

Lemma header_roundtrip h rest : header_ok h → header_of_bytes (header_bytes h ++ rest) = Ok h.
Proof.
  destruct h as [o r st ch sz]. intros (? & ? & ? & ? & ?). cbn in *.
  unfold header_of_bytes, header_bytes; cbn [op relId status respChannel entitySize].
  by do 5 step_read.
Qed.

Lemma msg_bytes_wire m : msg_ok m → msg_bytes m = Ok (msg_wire m).
Proof.
  destruct m as [h [e|]]; intros (Hh & Hs & He); cbn in *; [|done].
  unfold msg_bytes, msg_wire; cbn. rewrite <- He. pose proof (zlen_nonneg e).
  destruct (Z.ltb_spec 0 (zlen e)).
  - by rewrite <- (app_nil_r e) at 2; rewrite ptr_read_app.
  - assert (e = []) as -> by (apply nil_length_inv; unfold zlen in *; lia). done.
Qed.

Lemma zlen_msg_wire m : msg_ok m → zlen (msg_wire m) = SIZEOF_HEADER + entitySize (header m).
Proof.
  destruct m as [h [e|]]; intros (Hh & Hs & He); cbn in *; [|done].
  unfold msg_wire; cbn. zsolve.
Qed.

(** The channel holds exactly these messages. *)
Definition chan_msgs (s : KVChannelShared) (ms : list KVMsg) : Prop :=
  shared_inv s ∧ Forall msg_ok ms ∧ contents s = concat (msg_wire <$> ms).

Lemma chan_msgs_fresh : chan_msgs fresh_shared [].
Proof.
  split; [exact fresh_shared_inv|]. split; [done|].
  apply nil_length_inv. pose proof (zlen_contents _ fresh_shared_inv) as H.
  change (used fresh_shared) with 0 in H. unfold zlen in H. lia.
Qed.

(** The critical section of a pop delivers the first message. *)
Lemma popmsg_try_spec s m ms :
  chan_msgs s (m :: ms) →
  ∃ s', popmsg_try s = Some (Returned (Some m), s') ∧ chan_msgs s' ms ∧
        is_running s' = is_running s ∧ cv s' = cv s ∧
        used s' = used s - (SIZEOF_HEADER + entitySize (header m)).
Proof.
  intros (Hinv & [Hm Hms]%Forall_cons_1 & Hc). cbn in Hc.
  pose proof (zlen_msg_wire m Hm) as Hw. pose proof (zlen_contents s Hinv) as Hu.
  pose proof Hm as (Hh & Hsz & He). destruct (entity m) as [e|] eqn:Ee; [|done].
  assert (0 ≤ entitySize (header m)) as H0 by apply Hh.
  set (rest := concat (msg_wire <$> ms)) in *.
  assert (contents s = header_bytes (header m) ++ e ++ rest) as Hc'.
  { rewrite Hc. unfold msg_wire. rewrite Ee. cbn. by rewrite app_assoc. }
  assert (used s = SIZEOF_HEADER + entitySize (header m) + zlen rest) as Hus.
  { rewrite <- Hu, Hc'. zsolve. }
  pose proof (zlen_nonneg rest). unfold SIZEOF_HEADER in *.
  pose proof (pop_spec 24 s Hinv ltac:(lia)) as Hp1.
  case_decide; [|lia]. destruct Hp1 as (s1 & Ep1 & Hi1 & Hc1 & Hr1 & Hv1).
  pose proof (zlen_header_bytes (header m)) as Hzh. unfold SIZEOF_HEADER in Hzh.
  assert (Z.to_nat 24 = length (header_bytes (header m))) as E24 by (unfold zlen in Hzh; lia).
  rewrite Hc', E24, take_app_length in Ep1. rewrite Hc', E24, drop_app_length in Hc1.
  unfold popmsg_try, SIZEOF_HEADER. rewrite Ep1. cbn [mbind option_bind].
  rewrite <- (app_nil_r (header_bytes _)), header_roundtrip by done.
  replace (MaxAllocSize <? _) with false by (unfold MSG_SIZE, MaxAllocSize in *; lia).
  pose proof (zlen_contents s1 Hi1) as Hu1. rewrite Hc1, zlen_app in Hu1.
  pose proof (pop_spec (entitySize (header m)) s1 Hi1 H0) as Hp2.
  case_decide; [|lia]. destruct Hp2 as (s2 & Ep2 & Hi2 & Hc2 & Hr2 & Hv2).
  assert (Z.to_nat (entitySize (header m)) = length e) as Ele by (unfold zlen in *; lia).
  rewrite Hc1, Ele, take_app_length in Ep2. rewrite Hc1, Ele, drop_app_length in Hc2.
  rewrite Ep2. exists s2. split; [by destruct m as [h ?]; cbn in *; subst|].
  split; [done|]. split; [congruence|]. split; [congruence|].
  rewrite <- (zlen_contents s2 Hi2), Hc2. lia.
Qed.

Lemma blocking_loop_hit {A} try (stopped : A) timed_out t clock wakes s r :
  is_running s ≠ 0 → try s = Some r →
  blocking_loop try stopped timed_out t clock wakes s = r.
Proof.
  intros Hr Ht. destruct wakes; cbn; rewrite Ht; by destruct (Z.eqb_spec (is_running s) 0).
Qed.

(** Messages are delivered in order and intact: on a running channel that
    holds the messages [m :: ms], [KVChannelPopMsg] returns [m] at once,
    whatever its timeout, and leaves [ms]. *)
Theorem KVChannelPopMsg_fifo s m ms timeout_ms clock wakes :
  chan_msgs s (m :: ms) → is_running s ≠ 0 →
  ∃ s', KVChannelPopMsg timeout_ms clock wakes s = (Returned (Some m), s') ∧
        chan_msgs s' ms ∧ is_running s' = is_running s.
Proof.
  intros Hs Hr. destruct (popmsg_try_spec s m ms Hs) as (s' & Ht & Hs' & Hr' & _).
  exists s'. split; [|done]. unfold KVChannelPopMsg. by apply blocking_loop_hit.
Qed.

(** The message a receiver gets for [m]: an absent entity arrives as an empty
    block. *)
Definition delivered (m m' : KVMsg) : Prop :=
  header m = header m' ∧ msg_bytes m = Ok (msg_wire m') ∧ msg_ok m'.

Lemma delivered_refl m : msg_ok m → delivered m m.
Proof. intros Hm. split; [done|]. split; [by apply msg_bytes_wire|done]. Qed.

Lemma delivered_no_entity h :
  header_ok h → entitySize h = 0 → delivered (mkMsg h None) (mkMsg h (Some [])).
Proof.
  intros Hh Hs. split; [done|]. unfold msg_bytes, msg_wire, msg_ok; cbn. rewrite Hs.
  split; [done|]. by split_and!.
Qed.

Lemma push_delivered s m m' ms timeout_ms clock wakes :
  chan_msgs s ms → is_running s ≠ 0 → delivered m m' →
  used s + SIZEOF_HEADER + entitySize (header m') < KV_CHANNEL_BUFSIZE →
  ∃ s', KVChannelPushMsg m timeout_ms clock wakes s = Ok (Returned true, s') ∧
        chan_msgs s' (ms ++ [m']) ∧ is_running s' = is_running s ∧ cv s' = S (cv s).
Proof.
  intros (Hinv & Hms & Hc) Hr (Hhd & Hb & Hm) Hroom. unfold KVChannelPushMsg. rewrite Hhd.
  pose proof Hm as (Hh & Hsz & _). assert (0 ≤ entitySize (header m')) as H0 by apply Hh.
  unfold SIZEOF_HEADER, MSG_SIZE in *.
  rewrite u64_id by zsolve. replace (1024 <? _) with false by lia.
  rewrite Hb. cbn [mbind outcome_bind].
  pose proof (zlen_msg_wire m' Hm) as Hw. unfold SIZEOF_HEADER in Hw. pose proof (used_bound s).
  pose proof (push_try_spec (msg_wire m') s Hinv) as Hp. case_decide; [|lia].
  destruct Hp as (s' & Ep & Hi & Hc' & Hr' & Hv). exists s'.
  unfold KVChannelPush. replace (KV_CHANNEL_BUFSIZE <? _) with false by lia.
  split; [|split; [|done]].
  - f_equal. apply blocking_loop_hit; [done|]. by rewrite Ep.
  - split; [done|]. split; [by apply Forall_app; split; [|constructor]|].
    rewrite Hc', Hc, fmap_app, concat_app. cbn. by rewrite app_nil_r.
Qed.

(** On a running channel with room for the message,
    [KVChannelPushMsg] appends it, returns true and wakes the sleepers. *)
Theorem KVChannelPushMsg_appends s m ms timeout_ms clock wakes :
  chan_msgs s ms → is_running s ≠ 0 → msg_ok m →
  used s + SIZEOF_HEADER + entitySize (header m) < KV_CHANNEL_BUFSIZE →
  ∃ s', KVChannelPushMsg m timeout_ms clock wakes s = Ok (Returned true, s') ∧
        chan_msgs s' (ms ++ [m]) ∧ is_running s' = is_running s ∧ cv s' = S (cv s).
Proof. intros Hs Hr Hm. apply push_delivered; [done|done|by apply delivered_refl]. Qed.

Definition example_msg : KVMsg :=
  mkMsg (mkHeader (KVOp_code kv_get) 16384 (KVMsgStatus_code kv_status_none) 7 3) (Some [1; 2; 3]).

Lemma example_msg_ok : msg_ok example_msg.
Proof. repeat split; cbn; unfold SIZEOF_HEADER, MSG_SIZE; lia. Qed.

Definition example_shared : KVChannelShared :=
  default fresh_shared (push_try (msg_wire example_msg) fresh_shared).

Lemma example_shared_msgs : chan_msgs example_shared [example_msg].
Proof.
  pose proof (push_try_spec (msg_wire example_msg) fresh_shared fresh_shared_inv) as H.
  rewrite zlen_msg_wire in H by exact example_msg_ok.
  change (used fresh_shared) with 0 in H. case_decide as Hd; [|by destruct Hd].
  destruct H as (s' & Hs & Hi & Hc & _).
  assert (example_shared = s') as -> by (unfold example_shared; by rewrite Hs).
  split; [done|]. split; [by repeat constructor; apply example_msg_ok|].
  rewrite Hc. rewrite (proj2 (proj2 chan_msgs_fresh)). cbn. by rewrite app_nil_r.
Qed.

Lemma KVChannelPopMsg_fifo_witness :
  chan_msgs example_shared [example_msg] ∧ is_running example_shared ≠ 0 ∧
  ∃ s', KVChannelPopMsg (-1) 0 [] example_shared = (Returned (Some example_msg), s') ∧
        chan_msgs s' [] ∧ is_running s' = is_running example_shared.
Proof.
  split; [exact example_shared_msgs|]. split; [done|].
  exact (KVChannelPopMsg_fifo example_shared example_msg [] (-1) 0 [] example_shared_msgs
           ltac:(done)).
Defined.

Lemma KVChannelPushMsg_appends_witness :
  msg_ok example_msg ∧
  ∃ s', KVChannelPushMsg example_msg 0 0 [] fresh_shared = Ok (Returned true, s') ∧
        chan_msgs s' ([] ++ [example_msg]) ∧ is_running s' = is_running fresh_shared ∧
        cv s' = S (cv fresh_shared).
Proof.
  split; [exact example_msg_ok|].
  exact (KVChannelPushMsg_appends fresh_shared example_msg [] 0 0 [] chan_msgs_fresh
           ltac:(done) example_msg_ok ltac:(done)).
Defined.

(** ** Waiting *)

(** The state the other processes bring the channel to, over some sleeps in
    which this process changes nothing. *)
Definition env_run (wakes : list wake) (s : KVChannelShared) : KVChannelShared :=
  foldl (λ s w, wk_env w s) s wakes.

(** A wake that finds the postmaster alive and the channel still running. *)
Definition stays_up (w : wake) : Prop :=
  wk_alive w = true ∧ ∀ s, is_running s ≠ 0 → is_running (wk_env w s) ≠ 0.

(** A loop with no timeout returns what its critical section returns, at the
    first wake-up where it succeeds. *)
Lemma blocking_loop_progress {A} try (stopped : A) timed_out clock before after s :
  is_running s ≠ 0 → Forall stays_up before → is_Some (try (env_run before s)) →
  ∃ pre r, pre `prefix_of` before ∧ try (env_run pre s) = Some r ∧
    blocking_loop try stopped timed_out (-1) clock (before ++ after) s = r.
Proof.
  revert clock s. induction before as [|w before IH]; intros clock s Hr Hup [r Ht].
  { exists [], r. split; [apply prefix_nil|]. split; [done|]. by apply blocking_loop_hit. }
  apply Forall_cons_1 in Hup as [[Ha Hw] Hup].
  destruct (try s) as [r0|] eqn:E.
  { exists [], r0. split; [apply prefix_nil|]. split; [done|]. by apply blocking_loop_hit. }
  destruct (IH (wk_clock w) (wk_env w s)) as (pre & r' & Hp & Ht' & Hl);
    [by apply Hw|done|by eexists|].
  exists (w :: pre), r'. split; [by apply prefix_cons|]. split; [done|].
  cbn [app blocking_loop]. destruct (Z.eqb_spec (is_running s) 0); [done|].
  rewrite E, Ha. exact Hl.
Qed.

(** A blocked push makes progress: with no timeout, once the others have
    left room for the data, on a channel that keeps running, [KVChannelPush]
    returns true. *)
Theorem KVChannelPush_progress bs clock before after s :
  is_running s ≠ 0 → Forall stays_up before → shared_inv (env_run before s) →
  used (env_run before s) + zlen bs < KV_CHANNEL_BUFSIZE →
  (KVChannelPush bs (-1) clock (before ++ after) s).1 = Returned true.
Proof.
  intros Hr Hup Hinv Hroom. unfold KVChannelPush.
  pose proof (used_bound (env_run before s)).
  replace (KV_CHANNEL_BUFSIZE <? _) with false by lia.
  pose proof (push_try_spec bs _ Hinv) as Hp. case_decide; [|lia].
  destruct Hp as (s' & Hp & _).
  edestruct (blocking_loop_progress
    (λ s, s' ← push_try bs s; Some (Returned true, s')) false) as (pre & r & _ & Ht & ->);
    [exact Hr|exact Hup|rewrite Hp; by eexists|].
  cbn beta in Ht. destruct (push_try bs (env_run pre s)) eqn:E; cbn in Ht; by simplify_eq/=.
Qed.

Definition full_shared : KVChannelShared :=
  mkShared 1 0 (KV_CHANNEL_BUFSIZE - 1) 0 (replicate (Z.to_nat KV_CHANNEL_BUFSIZE) 0).

(** The receiver takes eight bytes. *)
Definition pop_wake : wake :=
  mkWake true (λ s, set_head s ((head s + 8) `mod` KV_CHANNEL_BUFSIZE)) 0.

Lemma KVChannelPush_progress_witness :
  push_try [1; 2] full_shared = None ∧
  (KVChannelPush [1; 2] (-1) 0 ([pop_wake] ++ []) full_shared).1 = Returned true.
Proof.
  split; [done|]. apply (KVChannelPush_progress [1; 2] 0 [pop_wake] [] full_shared).
  - done.
  - repeat constructor. done.
  - unfold shared_inv, env_run, full_shared; cbn [foldl wk_env pop_wake set_head buffer head tail].
    unfold zlen. rewrite length_replicate. by split_and!.
  - done.
Defined.

Lemma push_try_never bs s : KV_CHANNEL_BUFSIZE ≤ zlen bs → push_try bs s = None.
Proof.
  intros H. unfold push_try. pose proof (used_bound s).
  by replace (zlen bs <=? _) with false by lia.
Qed.

(** A loop whose critical section never succeeds. *)
Lemma blocking_loop_starved {A} try (stopped : A) timed_out t clock wakes s :
  (∀ s, try s = None) →
  (blocking_loop try stopped timed_out t clock wakes s).1
    ∈ [Returned stopped; timed_out; Exited; Asleep].
Proof.
  intros Htry. revert clock s. induction wakes as [|w wakes IH]; intros clock s; cbn;
    rewrite Htry; repeat case_match; cbn; try apply IH; set_solver.
Qed.

Lemma blocking_loop_asleep {A} try (stopped : A) timed_out t clock wakes s :
  (∀ s, try s = None) → t < 0 → is_running s ≠ 0 → Forall stays_up wakes →
  blocking_loop try stopped timed_out t clock wakes s = (Asleep, env_run wakes s).
Proof.
  intros Htry Ht. revert clock s. induction wakes as [|w wakes IH]; intros clock s Hr Hup;
    cbn [blocking_loop]; rewrite Htry; destruct (Z.eqb_spec (is_running s) 0); try done;
    (destruct (Z.eqb_spec t 0); [lia|]); replace (0 <? t) with false by lia; cbn [andb]; [done|].
  apply Forall_cons_1 in Hup as [[-> Hw] Hup]. cbn [negb]. apply IH; [by apply Hw|done].
Qed.

(** The size guard admits data that can never be sent: a push of exactly
    [KV_CHANNEL_BUFSIZE] bytes passes it, yet returns true under no behaviour
    of the other processes; without a timeout, on a channel that keeps running,
    it sleeps for ever. *)
Theorem KVChannelPush_bufsize_never bs timeout_ms clock wakes s :
  zlen bs = KV_CHANNEL_BUFSIZE →
  (∀ msg, (KVChannelPush bs timeout_ms clock wakes s).1 = Raised msg →
          msg = "KVChannelPush encounters timeout"%string) ∧
  (KVChannelPush bs timeout_ms clock wakes s).1 ≠ Returned true ∧
  (timeout_ms < 0 → is_running s ≠ 0 → Forall stays_up wakes →
   KVChannelPush bs timeout_ms clock wakes s = (Asleep, env_run wakes s)).
Proof.
  intros Hlen. unfold KVChannelPush. replace (KV_CHANNEL_BUFSIZE <? _) with false by lia.
  set (try := λ s, _).
  assert (∀ s, try s = None) as Htry by (intros s'; unfold try; by rewrite push_try_never by lia).
  pose proof (blocking_loop_starved try false (Raised "KVChannelPush encounters timeout")
    timeout_ms clock wakes s Htry) as H.
  rewrite !elem_of_cons in H. split_and!; [intros msg E|intros E|by apply blocking_loop_asleep];
    rewrite E in H; destruct H as [H|[H|[H|[H|H%elem_of_nil]]]]; 
    first [discriminate H | by injection H | done].
Qed.

Lemma KVChannelPush_bufsize_never_witness :
  let bs := replicate (Z.to_nat KV_CHANNEL_BUFSIZE) 0 in
  zlen bs = KV_CHANNEL_BUFSIZE ∧
  KVChannelPush bs (-1) 0 [pop_wake] full_shared = (Asleep, env_run [pop_wake] full_shared).
Proof.
  intros bs. assert (zlen bs = KV_CHANNEL_BUFSIZE) as H.
  { unfold zlen, bs. by rewrite length_replicate. }
  split; [done|]. apply (KVChannelPush_bufsize_never bs (-1) 0 [pop_wake] full_shared H).
  - done.
  - done.
  - repeat constructor. done.
Defined.

(** The two receivers differ in the wake-up they give: after
    [KVChannelPopMsg] took a message off, a sender that was blocked for lack of
    room would fit, and no broadcast told it so; [KVChannelPop] of the same
    bytes broadcasts. *)
Theorem KVChannelPopMsg_no_wakeup s m ms bs timeout_ms clock wakes :
  chan_msgs s (m :: ms) → is_running s ≠ 0 → push_try bs s = None →
  zlen bs ≤ SIZEOF_HEADER + entitySize (header m) →
  (∃ s', KVChannelPopMsg timeout_ms clock wakes s = (Returned (Some m), s') ∧
         is_Some (push_try bs s') ∧ cv s' = cv s) ∧
  (∃ s', KVChannelPop (zlen (msg_wire m)) timeout_ms clock wakes s
           = (Returned (Some (msg_wire m)), s') ∧
         is_Some (push_try bs s') ∧ cv s' = S (cv s)).
Proof.
  intros Hs Hr Hfull Hlen. pose proof Hs as (Hinv & [Hm _]%Forall_cons_1 & Hc).
  pose proof (zlen_msg_wire m Hm) as Hw. pose proof (zlen_nonneg (msg_wire m)).
  assert (∀ s', shared_inv s' → used s' = used s - zlen (msg_wire m) → is_Some (push_try bs s'))
    as Hfit.
  { intros s' Hi Hu. pose proof (push_try_spec bs s' Hi) as Hp. pose proof (used_bound s).
    case_decide; [|lia]. destruct Hp as (? & -> & _). by eexists. }
  split.
  - destruct (popmsg_try_spec s m ms Hs) as (s' & Ht & Hs' & Hr' & Hv & Hu).
    exists s'. split; [by apply blocking_loop_hit|]. split; [|done].
    apply Hfit; [apply Hs'|lia].
  - cbn in Hc. pose proof (zlen_contents s Hinv) as Hu. rewrite Hc, zlen_app in Hu.
    pose proof (zlen_nonneg (concat (msg_wire <$> ms))). pose proof (used_bound s).
    pose proof (pop_spec (zlen (msg_wire m)) s Hinv ltac:(lia)) as Hp. case_decide; [|lia].
    destruct Hp as (s' & Hp & Hi & Hc' & Hr' & Hv).
    rewrite Hc in Hp, Hc'. unfold zlen in Hp, Hc'. rewrite Nat2Z.id in Hp, Hc'.
    rewrite take_app_length in Hp. rewrite drop_app_length in Hc'.
    exists (ConditionVariableBroadcast s'). unfold KVChannelPop.
    replace (KV_CHANNEL_BUFSIZE <? _) with false by lia.
    split; [apply blocking_loop_hit; [done|]; unfold zlen; by rewrite Hp|].
    split; [|by cbn; rewrite Hv]. apply Hfit; [done|].
    change (used (ConditionVariableBroadcast s')) with (used s').
    rewrite <- (zlen_contents s' Hi), Hc'. lia.
Qed.

(** Every list of messages that fits can be in a channel. *)
Lemma chan_msgs_fill ms :
  Forall msg_ok ms → zlen (concat (msg_wire <$> ms)) < KV_CHANNEL_BUFSIZE →
  ∃ s, chan_msgs s ms ∧ is_running s = 1.
Proof.
  induction ms as [|m ms IH] using rev_ind; intros Hok Hlen.
  { exists fresh_shared. split; [exact chan_msgs_fresh|done]. }
  apply Forall_app in Hok as [Hms Hm]. rewrite fmap_app, concat_app in Hlen. cbn in Hlen.
  rewrite app_nil_r, zlen_app in Hlen. pose proof (zlen_nonneg (msg_wire m)).
  destruct IH as (s & (Hi & _ & Hc) & Hr); [done|lia|].
  pose proof (push_try_spec (msg_wire m) s Hi) as Hp.
  rewrite <- (zlen_contents s Hi), Hc in Hp. case_decide; [|lia].
  destruct Hp as (s' & _ & Hi' & Hc' & Hr' & _). exists s'. split; [|congruence].
  split; [done|]. split; [by apply Forall_app|].
  rewrite Hc', fmap_app, concat_app. cbn. by rewrite app_nil_r.
Qed.

Definition big_msg (n : Z) : KVMsg :=
  mkMsg (mkHeader 4 16384 1 7 n) (Some (replicate (Z.to_nat n) 0)).

Lemma big_msg_ok n : 0 ≤ n ≤ 1000 → msg_ok (big_msg n).
Proof.
  intros. split; [|split]; cbn; unfold SIZEOF_HEADER, MSG_SIZE, header_ok; [cbn; zsolve|lia|].
  unfold zlen. rewrite length_replicate. lia.
Qed.

Definition full_msgs : list KVMsg := replicate 31 (big_msg 1000) ++ [big_msg 966].

Lemma KVChannelPopMsg_no_wakeup_witness :
  ∃ s, chan_msgs s (example_msg :: full_msgs) ∧ push_try (msg_wire example_msg) s = None ∧
  ∃ s', KVChannelPopMsg (-1) 0 [] s = (Returned (Some example_msg), s') ∧
        is_Some (push_try (msg_wire example_msg) s') ∧ cv s' = cv s.
Proof.
  assert (zlen (concat (msg_wire <$> example_msg :: full_msgs)) = 32761) as Hlen by by vm_compute.
  destruct (chan_msgs_fill (example_msg :: full_msgs)) as (s & Hs & Hr).
  { constructor; [exact example_msg_ok|]. apply Forall_app. split.
    - apply Forall_replicate, big_msg_ok. lia.
    - apply Forall_singleton, big_msg_ok. lia. }
  { rewrite Hlen. done. }
  assert (push_try (msg_wire example_msg) s = None) as Hn.
  { pose proof (push_try_spec (msg_wire example_msg) s (proj1 Hs)) as Hp.
    rewrite <- (zlen_contents s (proj1 Hs)), (proj2 (proj2 Hs)), Hlen in Hp.
    rewrite zlen_msg_wire in Hp by exact example_msg_ok. by case_decide. }
  exists s. split; [done|]. split; [done|].
  apply (proj1 (KVChannelPopMsg_no_wakeup s example_msg full_msgs (msg_wire example_msg) (-1) 0 []
    Hs ltac:(rewrite Hr; done) Hn ltac:(rewrite zlen_msg_wire by exact example_msg_ok; done))).
Defined.
