(* ===== verification/RocksEngine.v ===== *)
(** * The storage engine over RocksDB

    Models [dbengine/nr_kernel/nr_am/src/nram_storage/rocksengine.c] and the
    engine singleton of [nram_access/kv.c]. RocksDB itself is a parameter: the
    class [RocksDB] holds the functions of its C interface that the engine
    calls, [RocksDBLaws] what its documentation promises of them, and the
    instances at the end show that the promises can be kept.

    The pointers RocksDB hands out are followed in memory by the bytes [slack],
    an argument of the readers, since [tvalue_deserialize] looks at two bytes
    behind its buffer. *)
From S2P Require Import Prelude Kv.
From Stdlib Require Import ZArith Lia.
From stdpp Require Import base list list_numbers strings gmap numbers sorting.

Open Scope Z_scope.

(** ** Byte strings in the order of RocksDB's default comparator *)

Fixpoint bytes_ltb (a b : list Z) : bool :=
  match a, b with
  | _, [] => false
  | [], _ :: _ => true
  | x :: a, y :: b => (x <? y) || ((x =? y) && bytes_ltb a b)
  end.
Definition bytes_lt (a b : list Z) : Prop := bytes_ltb a b = true.

#[export] Instance bytes_lt_dec a b : Decision (bytes_lt a b) :=
  decide (bytes_ltb a b = true).

(** [memcmp] on the common length of two blocks. *)
Fixpoint memcmp (a b : list Z) : Z :=
  match a, b with
  | x :: a, y :: b => if x =? y then memcmp a b else x - y
  | _, _ => 0
  end.

Lemma memcmp_ltb a b : length a = length b → (memcmp a b <? 0) = bytes_ltb a b.
Proof.
  revert b. induction a as [|x a IH]; intros [|y b] Hl; try done. cbn.
  destruct (Z.eqb_spec x y) as [->|].
  - rewrite Z.ltb_irrefl. cbn. apply IH. cbn in Hl. lia.
  - destruct (Z.ltb_spec x y), (Z.ltb_spec (x - y) 0); try lia; done.
Qed.

#[export] Instance bytes_lt_trans : Transitive bytes_lt.
Proof.
  unfold bytes_lt. intros a. induction a as [|x a IH]; intros [|y b] [|z c]; try done; cbn.
  rewrite !orb_true_iff, !andb_true_iff, !Z.ltb_lt, !Z.eqb_eq.
  intros [?|[-> ?]] [?|[-> ?]]; [left; lia|by left|by left|right; eauto].
Qed.

#[export] Instance bytes_lt_irrefl : Irreflexive bytes_lt.
Proof. intros a. unfold bytes_lt, complement. induction a; cbn; [done|]. by rewrite Z.ltb_irrefl, Z.eqb_refl. Qed.

Lemma bytes_lt_trichotomy a b : bytes_ltb a b = false → a = b ∨ bytes_lt b a.
Proof.
  unfold bytes_lt. revert b. induction a as [|x a IH]; intros [|y b]; cbn; try (by intros; auto).
  rewrite orb_false_iff, andb_false_iff, Z.ltb_ge, Z.eqb_neq, orb_true_iff, andb_true_iff,
    Z.ltb_lt, Z.eqb_eq.
  intros [? [?|Hl]]; [right; left; lia|].
  destruct (decide (x = y)) as [->|]; [|right; left; lia].
  destruct (IH b Hl) as [->|?]; auto.
Qed.

Lemma bytes_lt_asym a b : bytes_lt a b → bytes_ltb b a = false.
Proof.
  intros H. destruct (bytes_ltb b a) eqn:E; [|done].
  exfalso. apply (bytes_lt_irrefl a). by transitivity b.
Qed.

(** ** The interface of RocksDB *)

Class RocksDB := {
  rocksdb_t : Type;
  rocksdb_iterator_t : Type;
  rocksdb_open : string + rocksdb_t;
  rocksdb_get : rocksdb_t → list Z → string + option (list Z);
  rocksdb_put : rocksdb_t → list Z → list Z → option string * rocksdb_t;
  rocksdb_delete : rocksdb_t → list Z → option string * rocksdb_t;
  rocksdb_create_iterator : rocksdb_t → option rocksdb_iterator_t;
  rocksdb_iter_seek : rocksdb_iterator_t → list Z → rocksdb_iterator_t;
  rocksdb_iter_seek_for_prev : rocksdb_iterator_t → list Z → rocksdb_iterator_t;
  rocksdb_iter_valid : rocksdb_iterator_t → bool;
  rocksdb_iter_next : rocksdb_iterator_t → rocksdb_iterator_t;
  rocksdb_iter_prev : rocksdb_iterator_t → rocksdb_iterator_t;
  rocksdb_iter_key : rocksdb_iterator_t → list Z;
  rocksdb_iter_value : rocksdb_iterator_t → list Z
}.

Abbreviation rocks_map := (gmap (list Z) (list Z)).

(** The entries of a map in key order. *)
Definition sorted_entries (m : rocks_map) (l : list (list Z * list Z)) : Prop :=
  StronglySorted bytes_lt l.*1 ∧ ∀ k v, (k, v) ∈ l ↔ m !! k = Some v.

Definition keys_below (l : list (list Z * list Z)) (k : list Z) : list (list Z * list Z) :=
  filter (λ e, bytes_lt e.1 k) l.
Definition keys_upto (l : list (list Z * list Z)) (k : list Z) : list (list Z * list Z) :=
  filter (λ e, ¬ bytes_lt k e.1) l.

(** What RocksDB promises: the database is a map, a successful write changes
    one key, and an iterator walks a snapshot of the entries in key order. *)
Class RocksDBLaws (R : RocksDB) := {
  rocksdb_view : rocksdb_t → rocks_map;
  rocksdb_get_view db k v : rocksdb_get db k = inr v → v = rocksdb_view db !! k;
  rocksdb_put_view db k v db' :
    rocksdb_put db k v = (None, db') → rocksdb_view db' = <[k := v]> (rocksdb_view db);
  rocksdb_delete_view db k db' :
    rocksdb_delete db k = (None, db') → rocksdb_view db' = delete k (rocksdb_view db);
  iter_entries : rocksdb_iterator_t → list (list Z * list Z);
  iter_pos : rocksdb_iterator_t → Z;
  rocksdb_create_iterator_entries db it :
    rocksdb_create_iterator db = Some it → sorted_entries (rocksdb_view db) (iter_entries it);
  rocksdb_iter_seek_pos it k :
    iter_entries (rocksdb_iter_seek it k) = iter_entries it ∧
    iter_pos (rocksdb_iter_seek it k) = zlen (keys_below (iter_entries it) k);
  rocksdb_iter_seek_for_prev_pos it k :
    iter_entries (rocksdb_iter_seek_for_prev it k) = iter_entries it ∧
    iter_pos (rocksdb_iter_seek_for_prev it k) = zlen (keys_upto (iter_entries it) k) - 1;
  rocksdb_iter_valid_pos it :
    rocksdb_iter_valid it = true ↔ 0 ≤ iter_pos it < zlen (iter_entries it);
  rocksdb_iter_next_pos it :
    rocksdb_iter_valid it = true →
    iter_entries (rocksdb_iter_next it) = iter_entries it ∧
    iter_pos (rocksdb_iter_next it) = iter_pos it + 1;
  rocksdb_iter_prev_pos it :
    rocksdb_iter_valid it = true →
    iter_entries (rocksdb_iter_prev it) = iter_entries it ∧
    iter_pos (rocksdb_iter_prev it) = iter_pos it - 1;
  rocksdb_iter_entry it e :
    iter_entries it !! Z.to_nat (iter_pos it) = Some e →
    rocksdb_iter_valid it = true →
    rocksdb_iter_key it = e.1 ∧ rocksdb_iter_value it = e.2
}.

(** ** The engine *)
Section engine.
Context `{R : RocksDB} (slack : list Z).

Definition NRAM_TABLE_KEY_LENGTH : Z := 4.

Definition rocksengine_fetch_table_key (table_id : Z) : list Z * list Z :=
  (le_bytes NRAM_TABLE_KEY_LENGTH table_id,
   le_bytes NRAM_TABLE_KEY_LENGTH (u32 (table_id + 1))).

Definition strstr (s pat : string) : bool :=
  match String.index 0 pat s with Some _ => true | None => false end.

Definition rocksengine_open : outcome rocksdb_t :=
  match rocksdb_open with
  | inl error =>
      if strstr error "lock hold by current process" then
        Raise "RocksDB unrecoverable lock detected, manual restart needed"
      else Raise "RocksDB: open operation failed"
  | inr rocksdb => Ok rocksdb
  end.

(** The engine of the process, opened at its first use. *)
Definition GetCurrentEngine : M (option rocksdb_t) rocksdb_t := λ shared_engine,
  match shared_engine with
  | Some engine => (Ok engine, Some engine)
  | None =>
      match rocksengine_open with
      | Ok engine => (Ok engine, Some engine)
      | Raise e => (Raise e, None)
      | Ub e => (Ub e, None)
      end
  end.

Definition rocksengine_get (tkey : NRAMKeyData) : M rocksdb_t NRAMValueData := λ db,
  match rocksdb_get db (tkey_serialize tkey) with
  | inl _ => (Raise "RocksDB: get operation failed", db)
  | inr None => (Ub "tvalue_deserialize of a NULL pointer", db)
  | inr (Some value) => (tvalue_deserialize (value ++ slack) (zlen value), db)
  end.

(** A write of RocksDB and the check of its [error] argument. *)
Definition write_result (failed : string) (write : rocksdb_t → option string * rocksdb_t)
    : M rocksdb_t unit := λ db,
  match write db with
  | (Some _, db') => (Raise failed, db')
  | (None, db') => (Ok tt, db')
  end.

Definition rocksengine_put (tkey : NRAMKeyData) (tvalue : NRAMValueData) : M rocksdb_t unit :=
  serialized_value ← (lift_out (tvalue_serialize tvalue) : M rocksdb_t (list Z));
  write_result "RocksDB: put operation failed"
    (λ db, rocksdb_put db (tkey_serialize tkey) serialized_value).

Definition rocksengine_delete (tkey : NRAMKeyData) : M rocksdb_t unit :=
  write_result "RocksDB: delete operation failed"
    (λ db, rocksdb_delete db (tkey_serialize tkey)).

(** *** Iterators: the direction selects the [next] and [seek] members. *)
Record RocksEngineIterator := mkIterator {
  rocksdb_iterator : rocksdb_iterator_t;
  isforward : bool
}.

Definition rocksengine_create_iterator (forward : bool) (db : rocksdb_t)
    : outcome RocksEngineIterator :=
  match rocksdb_create_iterator db with
  | None => Raise "[NRAM] Failed to create RocksDB iterator."
  | Some it => Ok (mkIterator it forward)
  end.

Definition rocksengine_iterator_is_valid (it : RocksEngineIterator) : bool :=
  rocksdb_iter_valid (rocksdb_iterator it).

Definition rocksengine_iterator_seek (it : RocksEngineIterator) (tkey : NRAMKeyData)
    : RocksEngineIterator :=
  mkIterator (rocksdb_iter_seek (rocksdb_iterator it) (tkey_serialize tkey)) (isforward it).
Definition rocksengine_iterator_seek_for_prev (it : RocksEngineIterator) (tkey : NRAMKeyData)
    : RocksEngineIterator :=
  mkIterator (rocksdb_iter_seek_for_prev (rocksdb_iterator it) (tkey_serialize tkey))
    (isforward it).
Definition rocksengine_iterator_next (it : RocksEngineIterator) : RocksEngineIterator :=
  mkIterator (rocksdb_iter_next (rocksdb_iterator it)) (isforward it).
Definition rocksengine_iterator_prev (it : RocksEngineIterator) : RocksEngineIterator :=
  mkIterator (rocksdb_iter_prev (rocksdb_iterator it)) (isforward it).

(** The members [seek] and [next] of the iterator. *)
Definition iterator_seek (it : RocksEngineIterator) : NRAMKeyData → RocksEngineIterator :=
  if isforward it then rocksengine_iterator_seek it else rocksengine_iterator_seek_for_prev it.
Definition iterator_next (it : RocksEngineIterator) : RocksEngineIterator :=
  if isforward it then rocksengine_iterator_next it else rocksengine_iterator_prev it.

Definition rocksengine_iterator_get (it : RocksEngineIterator)
    : outcome (NRAMKeyData * NRAMValueData) :=
  let key := rocksdb_iter_key (rocksdb_iterator it) in
  let value := rocksdb_iter_value (rocksdb_iterator it) in
  tkey ← tkey_deserialize (key ++ slack) (zlen key);
  tvalue ← tvalue_deserialize (value ++ slack) (zlen value);
  Ok (tkey, tvalue).

Definition rocksengine_get_min_key (table_id : Z) (db : rocksdb_t)
    : outcome (option NRAMKeyData) :=
  rocks_it ← rocksengine_create_iterator true db;
  let '(min_key, max_key) := rocksengine_fetch_table_key table_id in
  let rocks_it := mkIterator (rocksdb_iter_seek (rocksdb_iterator rocks_it) min_key) true in
  if negb (rocksengine_iterator_is_valid rocks_it) then Ok None
  else '(tkey, tvalue) ← rocksengine_iterator_get rocks_it; Ok (Some tkey).

Definition rocksengine_get_max_key (table_id : Z) (db : rocksdb_t)
    : outcome (option NRAMKeyData) :=
  rocks_it ← rocksengine_create_iterator false db;
  let '(min_key, max_key) := rocksengine_fetch_table_key table_id in
  let rocks_it :=
    mkIterator (rocksdb_iter_seek_for_prev (rocksdb_iterator rocks_it) max_key) false in
  if negb (rocksengine_iterator_is_valid rocks_it) then Ok None
  else '(tkey, tvalue) ← rocksengine_iterator_get rocks_it; Ok (Some tkey).

(** *** Range scan

    The result arrays are the rows found so far and the capacity allocated; an
    element stored at or above the capacity is out of bounds. [fuel] bounds the
    iterations of the loop. *)
Definition SIZEOF_POINTER : Z := 8.

Fixpoint range_loop (fuel : nat) (it : rocksdb_iterator_t) (end_buf : list Z)
    (capacity : Z) (rows : list (NRAMKeyData * NRAMValueData))
    : option (outcome (list (NRAMKeyData * NRAMValueData))) :=
  match fuel with
  | O => None
  | S fuel =>
      if negb (rocksdb_iter_valid it) then Some (Ok rows)
      else
        let key := rocksdb_iter_key it in
        let val := rocksdb_iter_value it in
        if negb (zlen key =? zlen end_buf) || negb (memcmp key end_buf <? 0) then Some (Ok rows)
        else
          match tkey_deserialize (key ++ slack) (zlen key),
                tvalue_deserialize (val ++ slack) (zlen val) with
          | Ok tkey, Ok tval =>
              let capacity' := if capacity <=? zlen rows then capacity * 2 else capacity in
              if (capacity <=? zlen rows) && (MaxAllocSize <? SIZEOF_POINTER * capacity') then
                Some (Raise "invalid memory alloc request size")
              else if capacity' <=? zlen rows then Some (Ub "write past the end of the result array")
              else range_loop fuel (rocksdb_iter_next it) end_buf capacity' (rows ++ [(tkey, tval)])
          | Ok _, Raise e => Some (Raise e)
          | Ok _, Ub e => Some (Ub e)
          | Raise e, _ => Some (Raise e)
          | Ub e, _ => Some (Ub e)
          end
  end.

Definition rocksengine_range_scan (fuel : nat) (start_key end_key : NRAMKeyData)
    (db : rocksdb_t) : option (outcome (list (NRAMKeyData * NRAMValueData))) :=
  match rocksengine_create_iterator true db with
  | Ok rocks_it =>
      let start_buf := tkey_serialize start_key in
      let end_buf := tkey_serialize end_key in
      range_loop fuel (rocksdb_iter_seek (rocksdb_iterator rocks_it) start_buf) end_buf 8 []
  | Raise e => Some (Raise e)
  | Ub e => Some (Ub e)
  end.
End engine.

Arguments rocksengine_range_scan {R} slack fuel start_key end_key db.

(** ** Sorted entries *)

(** The entries before the first key that is not below [e]. *)
Fixpoint entries_until (e : list Z) (l : list (list Z * list Z)) : list (list Z * list Z) :=
  match l with
  | [] => []
  | x :: l => if bytes_ltb x.1 e then x :: entries_until e l else []
  end.

Lemma sorted_above x l k :
  StronglySorted bytes_lt (x :: l).*1 → ¬ bytes_lt x.1 k → Forall (λ y : list Z * list Z, ¬ bytes_lt y.1 k) l.
Proof.
  cbn. intros [_ Hx]%StronglySorted_inv Hk. rewrite Forall_fmap in Hx.
  eapply Forall_impl; [exact Hx|]. cbn. intros y Hxy Hy. apply Hk. by transitivity y.1.
Qed.

Lemma filter_all_false {A} (P : A → Prop) `{∀ x, Decision (P x)} l :
  Forall (λ x, ¬ P x) l → filter P l = [].
Proof. induction 1; [done|]. by rewrite filter_cons_False. Qed.

Lemma entries_until_filter e l :
  StronglySorted bytes_lt l.*1 → entries_until e l = keys_below l e.
Proof.
  induction l as [|x l IH]; intros Hs; [done|]. cbn [entries_until]. unfold keys_below in *.
  destruct (bytes_ltb x.1 e) eqn:E.
  - rewrite filter_cons_True by done. f_equal. apply IH. by apply StronglySorted_inv in Hs as [].
  - assert (¬ bytes_lt x.1 e) as Hx by (unfold bytes_lt; by rewrite E).
    rewrite filter_cons_False by done. symmetry. apply filter_all_false.
    by eapply sorted_above.
Qed.

Lemma drop_keys_below k l :
  StronglySorted bytes_lt l.*1 →
  drop (length (keys_below l k)) l = filter (λ e : list Z * list Z, ¬ bytes_lt e.1 k) l.
Proof.
  unfold keys_below. induction l as [|x l IH]; intros Hs; [done|].
  destruct (decide (bytes_lt x.1 k)) as [Hx|Hx].
  - rewrite filter_cons_True, (filter_cons_False (λ e : list Z * list Z, ¬ _)) by tauto. cbn.
    apply IH. by apply StronglySorted_inv in Hs as [].
  - pose proof (sorted_above x l k Hs Hx) as Hl.
    rewrite filter_cons_False, (filter_cons_True (λ e : list Z * list Z, ¬ _)) by done.
    rewrite filter_all_false by done. cbn. f_equal.
    clear -Hl. induction Hl; [done|]. rewrite filter_cons_True by done. by f_equal.
Qed.

Lemma sorted_filter (P : list Z * list Z → Prop) `{∀ x, Decision (P x)} l :
  StronglySorted bytes_lt l.*1 → StronglySorted bytes_lt (filter P l).*1.
Proof.
  induction l as [|x l IH]; intros Hs; [done|].
  cbn in Hs. apply StronglySorted_inv in Hs as [Hs Hx]. rewrite filter_cons. case_decide; [|by apply IH].
  cbn. constructor; [by apply IH|]. apply Forall_fmap. rewrite Forall_fmap in Hx.
  apply Forall_forall. intros y [_ Hy]%list_elem_of_filter. by eapply Forall_forall in Hx.
Qed.

Lemma sorted_nodup (l : list (list Z)) : StronglySorted bytes_lt l → NoDup l.
Proof.
  induction 1 as [|x l Hs IH Hx]; constructor; [|done].
  intros Hin. rewrite Forall_forall in Hx. by apply (bytes_lt_irrefl x), Hx.
Qed.

(** The keys of [start, end) in byte order. *)
Definition in_scan_range (start_key end_key k : NRAMKeyData) : Prop :=
  ¬ bytes_lt (tkey_serialize k) (tkey_serialize start_key) ∧
  bytes_lt (tkey_serialize k) (tkey_serialize end_key).
#[export] Instance in_scan_range_dec s e k : Decision (in_scan_range s e k) := _.

(** ** What the engine stores *)

(** An entry of the database is the wire form of a row. *)
Definition entry_ok (kb vb : list Z) : Prop :=
  ∃ k v, key_ok k ∧ kb = tkey_serialize k ∧ value_ok v ∧ tvalue_serialize v = Ok vb.

Section engine_laws.
Context {R : RocksDB} {L : RocksDBLaws R} (slack : list Z).

Definition db_ok (db : rocksdb_t) : Prop := map_Forall entry_ok (rocksdb_view db).

Definition row_at (db : rocksdb_t) (k : NRAMKeyData) (v : NRAMValueData) : Prop :=
  value_ok v ∧ ∃ vb, tvalue_serialize v = Ok vb ∧ rocksdb_view db !! tkey_serialize k = Some vb.

Lemma rocksengine_put_inv k v db db' :
  rocksengine_put k v db = (Ok tt, db') →
  ∃ vb, tvalue_serialize v = Ok vb ∧
    rocksdb_view db' = <[tkey_serialize k := vb]> (rocksdb_view db).
Proof using L.
  intros H. unfold rocksengine_put in H. inv_ok. unfold lift_out in *. simplify_eq.
  match goal with H : tvalue_serialize v = Ok ?b |- _ => exists b; split; [done|] end.
  unfold write_result in *. case_match. case_match; simplify_eq. by apply rocksdb_put_view.
Qed.

Lemma rocksengine_put_rows k v db db' :
  key_ok k → value_ok v → rocksengine_put k v db = (Ok tt, db') →
  row_at db' k v ∧
  (∀ k' v', key_ok k' → k' ≠ k → row_at db' k' v' ↔ row_at db k' v') ∧
  (db_ok db → db_ok db').
Proof using L.
  intros Hk Hv Hp. destruct (rocksengine_put_inv _ _ _ _ Hp) as (vb & Hs & Hview).
  split_and!.
  - split; [done|]. exists vb. split; [done|]. by rewrite Hview, lookup_insert_eq.
  - intros k' v' Hk' Hne. unfold row_at. rewrite Hview, lookup_insert_ne; [done|].
    intros E. apply Hne. symmetry. by apply tkey_serialize_inj.
  - intros Hdb. unfold db_ok. rewrite Hview. apply map_Forall_insert_2; [|done]. by exists k, v.
Qed.

Hypothesis (Hslack : 2 ≤ zlen slack).

Lemma rocksengine_get_row db k v :
  row_at db k v → (∀ e, rocksdb_get db (tkey_serialize k) ≠ inl e) →
  ∃ w, rocksengine_get slack k db = (Ok w, db) ∧ w ≡ v ∧ value_ok w.
Proof using L Hslack.
  intros (Hv & vb & Hs & Hl) Hno. unfold rocksengine_get.
  destruct (rocksdb_get db (tkey_serialize k)) as [e|o] eqn:E; [by destruct (Hno e)|].
  apply rocksdb_get_view in E. rewrite Hl in E. subst o.
  destruct (tvalue_deserialize_ok v vb slack Hv Hs Hslack) as (w & -> & ? & ?). eauto.
Qed.
End engine_laws.

(** ** Range scans *)

(** A row as the scan delivers it, against the entry it was read from. *)
Definition entry_row (e : list Z * list Z) (row : NRAMKeyData * NRAMValueData) : Prop :=
  key_ok row.1 ∧ e.1 = tkey_serialize row.1 ∧
  ∃ v, value_ok v ∧ tvalue_serialize v = Ok e.2 ∧ row.2 ≡ v.

Section scan_laws.
Context {R : RocksDB} {L : RocksDBLaws R} (slack : list Z).
Hypothesis (Hslack : 2 ≤ zlen slack).

Lemma iter_get_entry it e l :
  iter_entries it !! Z.to_nat (iter_pos it) = Some e → 0 ≤ iter_pos it →
  drop (Z.to_nat (iter_pos it)) (iter_entries it) = e :: l →
  rocksdb_iter_valid it = true ∧ rocksdb_iter_key it = e.1 ∧ rocksdb_iter_value it = e.2 ∧
  drop (Z.to_nat (iter_pos (rocksdb_iter_next it))) (iter_entries (rocksdb_iter_next it)) = l ∧
  0 ≤ iter_pos (rocksdb_iter_next it).
Proof using L.
  intros He Hp Hd. assert (rocksdb_iter_valid it = true) as Hv.
  { apply rocksdb_iter_valid_pos. apply lookup_lt_Some in He. unfold zlen. lia. }
  destruct (rocksdb_iter_entry it e He Hv) as [-> ->].
  destruct (rocksdb_iter_next_pos it Hv) as [-> ->]. split_and!; try done; [|lia].
  replace (Z.to_nat (iter_pos it + 1)) with (S (Z.to_nat (iter_pos it))) by lia.
  apply drop_S in He. congruence.
Qed.

(** The loop collects the entries from the iterator on until the end key. *)
Lemma range_loop_spec l it end_key fuel capacity rows :
  drop (Z.to_nat (iter_pos it)) (iter_entries it) = l → 0 ≤ iter_pos it →
  Forall (λ e, entry_ok e.1 e.2) l → (length l < fuel)%nat →
  0 < capacity → zlen rows ≤ capacity →
  2 * SIZEOF_POINTER * (zlen rows + zlen l) ≤ MaxAllocSize →
  ∃ out, range_loop slack fuel it (tkey_serialize end_key) capacity rows = Some (Ok (rows ++ out)) ∧
    Forall2 entry_row (entries_until (tkey_serialize end_key) l) out.
Proof using L Hslack.
  revert it fuel capacity rows. induction l as [|e l IH];
    intros it fuel capacity rows Hd Hp Hok Hfuel Hcap Hrows Hmax;
    (destruct fuel as [|fuel]; [cbn in Hfuel; lia|]); cbn [range_loop].
  { exists []. rewrite app_nil_r. split; [|constructor].
    destruct (rocksdb_iter_valid it) eqn:Hv; [|done].
    apply rocksdb_iter_valid_pos in Hv. apply (f_equal length) in Hd.
    rewrite length_drop in Hd. cbn in Hd. unfold zlen in Hv. lia. }
  assert (iter_entries it !! Z.to_nat (iter_pos it) = Some e) as He.
  { rewrite <- (Nat.add_0_r (Z.to_nat _)), <- lookup_drop, Hd. done. }
  destruct (iter_get_entry it e l He Hp Hd) as (-> & -> & -> & Hd' & Hp'). cbn [negb].
  apply Forall_cons_1 in Hok as [(k & v & Hk & Hkb & Hv & Hvb) Hok].
  rewrite Hkb. rewrite !zlen_tkey_serialize, Z.eqb_refl. cbn [negb orb].
  assert (length (tkey_serialize k) = length (tkey_serialize end_key)) as Hlen.
  { pose proof (zlen_tkey_serialize k). pose proof (zlen_tkey_serialize end_key).
    unfold zlen in *. lia. }
  rewrite memcmp_ltb by done. cbn [entries_until]. rewrite Hkb.
  destruct (bytes_ltb _ _); cbn [negb].
  2: { exists []. rewrite app_nil_r. split; [done|constructor]. }
  rewrite tkey_deserialize_serialize by done.
  destruct (tvalue_deserialize_ok v e.2 slack Hv Hvb Hslack) as (w & -> & Heq & _).
  rewrite zlen_cons in Hmax. pose proof (zlen_nonneg l). cbn [length] in Hfuel.
  unfold SIZEOF_POINTER in *. set (cap' := if capacity <=? zlen rows then _ else _).
  assert (zlen rows < cap' ∧ (capacity ≤ zlen rows → 8 * cap' ≤ MaxAllocSize)) as [Hc1 Hc2].
  { unfold cap'. destruct (Z.leb_spec capacity (zlen rows)); lia. }
  replace ((_ <=? _) && _) with false by (destruct (Z.leb_spec capacity (zlen rows)); lia).
  replace (cap' <=? _) with false by lia.
  destruct (IH (rocksdb_iter_next it) fuel cap' (rows ++ [(k, w)])) as (out & -> & Hout);
    [done|done|done|lia|pose proof (zlen_nonneg rows); lia|zsolve|unfold SIZEOF_POINTER; zsolve|].
  exists ((k, w) :: out). rewrite <- app_assoc. split; [done|].
  constructor; [|done]. split; [done|]. split; [done|]. by exists v.
Qed.

Lemma range_scan_entries db it start_key end_key fuel :
  db_ok db → rocksdb_create_iterator db = Some it →
  (size (rocksdb_view db) < fuel)%nat →
  2 * SIZEOF_POINTER * Z.of_nat (size (rocksdb_view db)) ≤ MaxAllocSize →
  ∃ out es, rocksengine_range_scan slack fuel start_key end_key db = Some (Ok out) ∧
    Forall2 entry_row es out ∧ StronglySorted bytes_lt es.*1 ∧
    ∀ kb vb, (kb, vb) ∈ es ↔
      rocksdb_view db !! kb = Some vb ∧ ¬ bytes_lt kb (tkey_serialize start_key) ∧
      bytes_lt kb (tkey_serialize end_key).
Proof using L Hslack.
  intros Hdb Hit Hfuel Hmax. unfold rocksengine_range_scan, rocksengine_create_iterator.
  rewrite Hit. cbn [rocksdb_iterator].
  destruct (rocksdb_create_iterator_entries db it Hit) as [Hs Hm].
  destruct (rocksdb_iter_seek_pos it (tkey_serialize start_key)) as [He Hp].
  set (l := iter_entries it) in *. set (l' := filter (λ e : list Z * list Z, ¬ bytes_lt e.1 (tkey_serialize start_key)) l).
  assert (length l = size (rocksdb_view db)) as Hsz.
  { rewrite <- length_map_to_list. apply Permutation_length, NoDup_Permutation.
    - apply (NoDup_fmap_1 fst). by apply sorted_nodup.
    - apply NoDup_map_to_list.
    - intros [k v]. by rewrite elem_of_map_to_list. }
  assert (length l' ≤ length l)%nat as Hl' by apply length_filter.
  destruct (range_loop_spec l' (rocksdb_iter_seek it (tkey_serialize start_key)) end_key fuel 8 [])
    as (out & Hout & Hrows).
  - rewrite He, Hp. unfold zlen. rewrite Nat2Z.id. by apply drop_keys_below.
  - rewrite Hp. apply zlen_nonneg.
  - apply Forall_forall. intros [kb vb] [_ Hin]%list_elem_of_filter. apply Hm in Hin. by apply Hdb in Hin.
  - lia.
  - done.
  - done.
  - rewrite zlen_nil. unfold zlen, SIZEOF_POINTER in *. lia.
  - exists out, (entries_until (tkey_serialize end_key) l').
    assert (StronglySorted bytes_lt l'.*1) as Hs' by by apply sorted_filter.
    split; [done|]. split; [done|]. rewrite entries_until_filter by done. split; [by apply sorted_filter|].
    intros kb vb. unfold keys_below, l'. rewrite !list_elem_of_filter, Hm. cbn. tauto.
Qed.
End scan_laws.

(** What a scan of [start, end) has to deliver: the rows of the range, each
    once, in byte order. *)
Definition key_bytes_lt (k1 k2 : NRAMKeyData) : Prop :=
  bytes_lt (tkey_serialize k1) (tkey_serialize k2).

Definition scan_result {R : RocksDB} {L : RocksDBLaws R} (db : rocksdb_t)
    (start_key end_key : NRAMKeyData) (out : list (NRAMKeyData * NRAMValueData)) : Prop :=
  StronglySorted key_bytes_lt out.*1 ∧
  (∀ k w, (k, w) ∈ out →
     key_ok k ∧ in_scan_range start_key end_key k ∧ ∃ v, row_at db k v ∧ w ≡ v) ∧
  (∀ k v, key_ok k → row_at db k v → in_scan_range start_key end_key k →
     ∃ w, (k, w) ∈ out ∧ w ≡ v).

Lemma entry_rows_sorted es out :
  Forall2 entry_row es out → StronglySorted bytes_lt es.*1 → StronglySorted key_bytes_lt out.*1.
Proof.
  induction 1 as [|e [k w] es out (Hk & He & _) Hes IH]; [intros _; constructor|]; cbn in *.
  intros [Hs Hx]%StronglySorted_inv. constructor; [by apply IH|].
  rewrite Forall_fmap in Hx. apply Forall_fmap. clear IH Hs.
  induction Hes as [|e' [k' w'] es out (_ & He' & _) _ IH]; [done|].
  apply Forall_cons_1 in Hx as [Hx Hx']. constructor; [|by apply IH].
  unfold key_bytes_lt. cbn in *. congruence.
Qed.

Section scan.
Context {R : RocksDB} {L : RocksDBLaws R} (slack : list Z).

(** A database the engine can scan: its entries are rows, an iterator can be
    created and the result arrays can be allocated. *)
Definition scannable (fuel : nat) (db : rocksdb_t) : Prop :=
  db_ok db ∧ is_Some (rocksdb_create_iterator db) ∧
  (size (rocksdb_view db) < fuel)%nat ∧
  2 * SIZEOF_POINTER * Z.of_nat (size (rocksdb_view db)) ≤ MaxAllocSize.

Lemma range_scan_rows start_key end_key fuel db :
  2 ≤ zlen slack → scannable fuel db →
  ∃ out, rocksengine_range_scan slack fuel start_key end_key db = Some (Ok out) ∧
    scan_result db start_key end_key out.
Proof using L.
  intros Hslack (Hdb & [it Hit] & Hfuel & Hmax).
  destruct (range_scan_entries slack Hslack db it start_key end_key fuel Hdb Hit Hfuel Hmax)
    as (out & es & Hscan & Hrows & Hsorted & Hin).
  exists out. split; [done|]. split_and!.
  - by eapply entry_rows_sorted.
  - intros k w Hkw. apply list_elem_of_lookup in Hkw as [i Hi].
    destruct (Forall2_lookup_r _ _ _ _ _ Hrows Hi) as ([kb vb] & He & Hk & Hkb & v & Hv & Hvb & Hw).
    cbn in *. subst kb. apply list_elem_of_lookup_2, Hin in He as (Hl & Hr).
    split; [done|]. split; [done|]. exists v. split; [|done]. split; [done|]. by exists vb.
  - intros k v Hk (Hv & vb & Hvb & Hl) Hr.
    assert ((tkey_serialize k, vb) ∈ es) as He by (apply Hin; by destruct Hr).
    apply list_elem_of_lookup in He as [i Hi].
    destruct (Forall2_lookup_l _ _ _ _ _ Hrows Hi) as ([k' w] & Ho & Hk' & Hkb & v' & Hv' & Hvb' & Hw).
    cbn in *. apply tkey_serialize_inj in Hkb as <-; [|done..].
    exists w. split; [by eapply list_elem_of_lookup_2|].
    rewrite Hw. by eapply tvalue_serialize_inj.
Qed.

(** C30. A range scan over a database of rows returns, in byte order and each
    once, exactly the rows whose key lies in [start, end) in byte order, with
    values equal up to the bytes behind their fields; its result array never
    overflows. Without an iterator the scan raises. *)
Theorem rocksengine_range_scan_exact start_key end_key fuel db :
  2 ≤ zlen slack → scannable fuel db →
  (∃ out, rocksengine_range_scan slack fuel start_key end_key db = Some (Ok out) ∧
     scan_result db start_key end_key out) ∧
  ∀ db', rocksdb_create_iterator db' = None →
    rocksengine_range_scan slack fuel start_key end_key db' =
      Some (Raise "[NRAM] Failed to create RocksDB iterator.").
Proof using L.
  intros Hs Hdb. split; [by apply range_scan_rows|].
  intros db' Hn. unfold rocksengine_range_scan, rocksengine_create_iterator. by rewrite Hn.
Qed.

(** A successful put is read back by the next get of its key, up to the
    bytes behind the fields; the rows of other keys stay, and the database
    still holds only rows. *)
Theorem rocksengine_put_get k v db db' :
  2 ≤ zlen slack → key_ok k → value_ok v → db_ok db →
  rocksengine_put k v db = (Ok tt, db') → (∀ e, rocksdb_get db' (tkey_serialize k) ≠ inl e) →
  (∃ w, rocksengine_get slack k db' = (Ok w, db') ∧ w ≡ v) ∧
  (∀ k' v', key_ok k' → k' ≠ k → row_at db' k' v' ↔ row_at db k' v') ∧
  db_ok db'.
Proof using L.
  intros Hs Hk Hv Hdb Hp Hno. destruct (rocksengine_put_rows k v db db' Hk Hv Hp) as (Hr & Ho & Hi).
  split; [|auto]. destruct (rocksengine_get_row slack Hs db' k v Hr Hno) as (w & ? & ? & _). eauto.
Qed.

(** A get of an absent key does not report it: RocksDB answers NULL and
    [tvalue_deserialize] dereferences it, so that the NULL checks of the
    callers are never reached. *)
Theorem rocksengine_get_missing k db :
  rocksdb_view db !! tkey_serialize k = None →
  (∀ e, rocksdb_get db (tkey_serialize k) ≠ inl e) →
  rocksengine_get slack k db = (Ub "tvalue_deserialize of a NULL pointer", db).
Proof using L.
  intros Hn Hno. unfold rocksengine_get.
  destruct (rocksdb_get db (tkey_serialize k)) as [e|o] eqn:E; [by destruct (Hno e)|].
  apply rocksdb_get_view in E. by rewrite Hn in E; subst.
Qed.
End scan.

(** ** Table ranges

    [nram_beginscan] scans a table as [(oid, 0), (oid + 1, 0)). The keys are
    stored with the bytes of the oid in little-endian order, RocksDB compares
    from the first byte on. *)
Definition table_min (oid : Z) : NRAMKeyData := mkKey oid 0.
Definition table_max (oid : Z) : NRAMKeyData := mkKey (u32 (oid + 1)) 0.

Lemma bytes_ltb_app p a b : bytes_ltb (p ++ a) (p ++ b) = bytes_ltb a b.
Proof. induction p as [|x p IH]; [done|]. cbn. by rewrite Z.ltb_irrefl, Z.eqb_refl. Qed.

Lemma bytes_ltb_zeros a n : Forall is_byte a → length a = n → bytes_ltb a (replicate n 0) = false.
Proof.
  intros Ha. revert n. induction Ha as [|x a Hx _ IH]; intros [|n] Hl; try done. cbn in *.
  rewrite IH by lia. unfold is_byte in Hx. destruct (Z.ltb_spec x 0); [lia|].
  by rewrite andb_false_r.
Qed.

Lemma le_bytes_8_0 : le_bytes 8 0 = replicate 8 0.
Proof. with_strategy transparent [le_bytes] by vm_compute. Qed.

Lemma tkey_serialize_cons k :
  tkey_serialize k =
    tableOid k `mod` 256 :: (tableOid k / 256) `mod` 256 ::
      le_bytes 2 (tableOid k / 256 / 256) ++ le_bytes 8 (tid k).
Proof.
  unfold tkey_serialize. rewrite (le_bytes_succ 3), (le_bytes_succ 2) by lia. done.
Qed.

Lemma u32_mod_256 z : u32 z `mod` 256 = z `mod` 256.
Proof.
  unfold u32. change (2 ^ 32) with (256 * 16777216). rewrite Z.rem_mul_r by lia.
  rewrite Z.mul_comm, Z.mod_add by lia. by apply Z.mod_mod.
Qed.

Lemma first_byte_step oid : oid `mod` 256 ≠ 255 → u32 (oid + 1) `mod` 256 = oid `mod` 256 + 1.
Proof.
  intros Hb. rewrite u32_mod_256. pose proof (Z.mod_pos_bound oid 256).
  rewrite <- Z.add_mod_idemp_l by lia. apply Z.mod_small. lia.
Qed.

Lemma first_byte_wrap oid : oid `mod` 256 = 255 → u32 (oid + 1) `mod` 256 = 0.
Proof. intros Hb. by rewrite u32_mod_256, <- Z.add_mod_idemp_l, Hb by lia. Qed.

Lemma bytes_ltb_hd x y a b : x < y → bytes_ltb (x :: a) (y :: b) = true.
Proof. intros H. cbn. by destruct (Z.ltb_spec x y); [|lia]. Qed.
Lemma bytes_ltb_hd_ge x y a b : y < x → bytes_ltb (x :: a) (y :: b) = false.
Proof. intros H. cbn. by destruct (Z.ltb_spec x y), (Z.eqb_spec x y); [lia..|]. Qed.
Lemma bytes_ltb_tl x a b : bytes_ltb (x :: a) (x :: b) = bytes_ltb a b.
Proof. cbn. by rewrite Z.ltb_irrefl, Z.eqb_refl. Qed.

Lemma table_range_wrap oid k :
  oid `mod` 256 = 255 → ¬ in_scan_range (table_min oid) (table_max oid) k.
Proof.
  unfold in_scan_range, bytes_lt. rewrite !tkey_serialize_cons.
  cbn [tableOid tid table_min table_max]. intros Hb. rewrite first_byte_wrap, Hb by done.
  pose proof (Z.mod_pos_bound (tableOid k) 256). intros [Hmin Hmax].
  destruct (decide (tableOid k `mod` 256 = 255)) as [E|]; [|by rewrite bytes_ltb_hd in Hmin by lia].
  by rewrite E, bytes_ltb_hd_ge in Hmax by lia.
Qed.

Lemma table_range_own oid k :
  key_ok k → oid `mod` 256 ≠ 255 → tableOid k = oid →
  in_scan_range (table_min oid) (table_max oid) k.
Proof.
  intros [_ Ht] Hb <-. unfold in_scan_range, bytes_lt. split.
  - unfold tkey_serialize. cbn [tableOid tid table_min]. rewrite bytes_ltb_app, le_bytes_8_0.
    rewrite bytes_ltb_zeros; [done|by apply le_bytes_bytes|].
    pose proof (zlen_le_bytes 8 (tid k)). unfold zlen in *. lia.
  - rewrite !tkey_serialize_cons. cbn [tableOid table_max].
    rewrite bytes_ltb_hd; [done|]. rewrite first_byte_step by done. lia.
Qed.

Lemma table_range_other oid k :
  oid `mod` 256 ≠ 255 → (oid / 256) `mod` 256 ≠ 255 → tableOid k = oid + 256 →
  in_scan_range (table_min oid) (table_max oid) k.
Proof.
  intros Hb Hb2 E. unfold in_scan_range, bytes_lt. rewrite !tkey_serialize_cons.
  cbn [tableOid tid table_min table_max]. rewrite E.
  assert ((oid + 256) `mod` 256 = oid `mod` 256) as ->.
  { rewrite <- (Z.mul_1_l 256) at 1. apply Z.mod_add. lia. }
  assert ((oid + 256) / 256 = oid / 256 + 1) as ->.
  { rewrite <- (Z.mul_1_l 256) at 1. apply Z.div_add. lia. }
  pose proof (Z.mod_pos_bound (oid / 256) 256).
  assert ((oid / 256 + 1) `mod` 256 = (oid / 256) `mod` 256 + 1) as ->.
  { rewrite <- Z.add_mod_idemp_l by lia. apply Z.mod_small. lia. }
  rewrite first_byte_step by done. split.
  - rewrite bytes_ltb_tl, bytes_ltb_hd_ge by lia. done.
  - rewrite bytes_ltb_hd by lia. done.
Qed.

(** The scan that [nram_beginscan] asks for a table is not the table: when
    the low byte of the oid is 255 it returns no row at all; otherwise it
    returns every row of the table and, unless the second byte is 255, also
    every row of the table whose oid is larger by 256. *)
Theorem table_scan_byte_order {R : RocksDB} {L : RocksDBLaws R} slack oid fuel db :
  2 ≤ zlen slack → scannable fuel db →
  ∃ out, rocksengine_range_scan slack fuel (table_min oid) (table_max oid) db = Some (Ok out) ∧
    (oid `mod` 256 = 255 → out = []) ∧
    (oid `mod` 256 ≠ 255 → ∀ k v, key_ok k → row_at db k v →
       tableOid k = oid ∨ ((oid / 256) `mod` 256 ≠ 255 ∧ tableOid k = oid + 256) →
       ∃ w, (k, w) ∈ out ∧ w ≡ v).
Proof.
  intros Hs Hdb.
  destruct (range_scan_rows slack (table_min oid) (table_max oid) fuel db Hs Hdb)
    as (out & Hscan & _ & Hsound & Hcomplete).
  exists out. split; [done|]. split.
  - intros Hb. destruct out as [|[k w] out]; [done|]. exfalso.
    destruct (Hsound k w) as (_ & Hr & _); [by left|]. by eapply table_range_wrap.
  - intros Hb k v Hk Hv Ht. apply Hcomplete; [done..|].
    destruct Ht as [Ht|[Hb2 Ht]]; [by apply table_range_own|by apply table_range_other].
Qed.

(** ** A RocksDB that keeps the promises *)

Definition entry_le (e1 e2 : list Z * list Z) : Prop := bytes_ltb e2.1 e1.1 = false.
#[export] Instance entry_le_dec e1 e2 : Decision (entry_le e1 e2) :=
  decide (bytes_ltb e2.1 e1.1 = false).

#[export] Instance entry_le_total : Total entry_le.
Proof.
  intros e1 e2. unfold entry_le. destruct (bytes_ltb e2.1 e1.1) eqn:E; [right|by left].
  by apply bytes_lt_asym.
Qed.

#[export] Instance entry_le_trans : Transitive entry_le.
Proof.
  intros e1 e2 e3. unfold entry_le. intros H1 H2. destruct (bytes_ltb e3.1 e1.1) eqn:E; [|done].
  destruct (bytes_lt_trichotomy _ _ H1) as [Heq|Hlt]; [congruence|].
  assert (bytes_lt e3.1 e2.1) as H3 by (by transitivity e1.1). unfold bytes_lt in H3. congruence.
Qed.

Definition map_entries (m : rocks_map) : list (list Z * list Z) :=
  merge_sort entry_le (map_to_list m).

Lemma entries_strict l :
  StronglySorted entry_le l → NoDup l.*1 → StronglySorted bytes_lt l.*1.
Proof.
  induction 1 as [|x l Hs IH Hx]; cbn; [constructor|]. intros [Hn Hnd]%NoDup_cons.
  constructor; [by apply IH|]. apply Forall_fmap. apply Forall_forall. intros y Hy.
  rewrite Forall_forall in Hx. specialize (Hx y Hy). unfold entry_le in Hx.
  destruct (bytes_lt_trichotomy _ _ Hx) as [E|]; [|done].
  destruct Hn. rewrite <- E. by apply list_elem_of_fmap_2.
Qed.

Lemma map_entries_sorted m : sorted_entries m (map_entries m).
Proof.
  pose proof (merge_sort_Permutation entry_le (map_to_list m)) as Hp. split.
  - apply entries_strict; [by apply StronglySorted_merge_sort; apply _|].
    unfold map_entries. rewrite Hp. apply NoDup_fst_map_to_list.
  - intros k v. unfold map_entries. by rewrite Hp, elem_of_map_to_list.
Qed.

#[export] Instance MapRocksDB : RocksDB := {|
  rocksdb_t := rocks_map;
  rocksdb_iterator_t := list (list Z * list Z) * Z;
  rocksdb_open := inr ∅;
  rocksdb_get m k := inr (m !! k);
  rocksdb_put m k v := (None, <[k := v]> m);
  rocksdb_delete m k := (None, delete k m);
  rocksdb_create_iterator m := Some (map_entries m, -1);
  rocksdb_iter_seek it k := (it.1, zlen (keys_below it.1 k));
  rocksdb_iter_seek_for_prev it k := (it.1, zlen (keys_upto it.1 k) - 1);
  rocksdb_iter_valid it := (0 <=? it.2) && (it.2 <? zlen it.1);
  rocksdb_iter_next it := (it.1, it.2 + 1);
  rocksdb_iter_prev it := (it.1, it.2 - 1);
  rocksdb_iter_key it := default [] (fst <$> it.1 !! Z.to_nat it.2);
  rocksdb_iter_value it := default [] (snd <$> it.1 !! Z.to_nat it.2)
|}.

#[export, refine] Instance MapRocksDB_laws : RocksDBLaws MapRocksDB := {|
  rocksdb_view := λ m : @rocksdb_t MapRocksDB, m;
  iter_entries := λ it : @rocksdb_iterator_t MapRocksDB, it.1;
  iter_pos := λ it : @rocksdb_iterator_t MapRocksDB, it.2
|}.
Proof.
  all: cbn.
  - naive_solver.
  - naive_solver.
  - naive_solver.
  - intros db it [= <-]. apply map_entries_sorted.
  - done.
  - done.
  - intros it. rewrite andb_true_iff, Z.leb_le, Z.ltb_lt. done.
  - done.
  - done.
  - intros it e -> _. done.
Defined.

Definition example_wire : list Z :=
  le_bytes 4 731 ++ le_bytes 2 0 ++ le_bytes 2 1
    ++ field_bytes (mkField 0 23 12) ++ le_bytes 4 (-1) ++ le_bytes 8 7.
Lemma example_wire_ok : tvalue_serialize example_value = Ok example_wire.
Proof. by vm_compute. Qed.

(** Two tables with one row each, 16384 and 16640 = 16384 + 256. *)
Definition example_map : rocks_map :=
  {[ tkey_serialize (mkKey 16384 65537) := example_wire;
     tkey_serialize (mkKey 16640 131073) := example_wire ]}.
Definition example_db : @rocksdb_t MapRocksDB := example_map.

Lemma example_db_ok : scannable 3 example_db.
Proof.
  assert (∀ k, key_ok k → entry_ok (tkey_serialize k) example_wire) as Hk.
  { intros k Hk. exists k, example_value.
    split; [done|]. split; [done|]. split; [exact example_value_ok|exact example_wire_ok]. }
  split.
  { change (map_Forall entry_ok example_map). apply map_Forall_insert_2; [by apply Hk|]. apply map_Forall_singleton. by apply Hk. }
  split; [by eexists|]. split; by vm_compute.
Qed.

Lemma rocksengine_range_scan_exact_witness : ∃ out,
  rocksengine_range_scan [0; 0] 3 (mkKey 16384 0) (mkKey 16384 131072) example_db
    = Some (Ok out) ∧
  scan_result example_db (mkKey 16384 0) (mkKey 16384 131072) out.
Proof.
  apply (rocksengine_range_scan_exact [0; 0] _ _ 3 example_db); [done|exact example_db_ok].
Defined.

Lemma table_scan_byte_order_witness : ∃ out,
  rocksengine_range_scan [0; 0] 3 (table_min 16384) (table_max 16384) example_db
    = Some (Ok out) ∧
  ∃ w, (mkKey 16640 131073, w) ∈ out ∧ w ≡ example_value.
Proof.
  assert (row_at example_db (mkKey 16640 131073) example_value) as Hrow.
  { split; [exact example_value_ok|]. exists example_wire. split; [exact example_wire_ok|by vm_compute]. }
  assert (key_ok (mkKey 16640 131073)) as Hk by by vm_compute.
  assert ((16384 / 256) `mod` 256 ≠ 255) as Hb by done.
  destruct (table_scan_byte_order [0; 0] 16384 3 example_db) as (out & Hs & _ & Ho);
    [done|exact example_db_ok|].
  exists out. split; [exact Hs|]. clear Hs. apply Ho; [done|done|done|by right].
Defined.

Lemma rocksengine_put_get_witness : ∃ db' w,
  rocksengine_put (mkKey 16384 196609) example_value example_db = (Ok tt, db') ∧
  rocksengine_get [0; 0] (mkKey 16384 196609) db' = (Ok w, db') ∧ w ≡ example_value.
Proof.
  set (db' := <[tkey_serialize (mkKey 16384 196609) := example_wire]> example_map : @rocksdb_t MapRocksDB).
  assert (rocksengine_put (mkKey 16384 196609) example_value example_db = (Ok tt, db')) as Hp.
  { unfold rocksengine_put. erewrite M_bind_ok; [|unfold lift_out; by rewrite example_wire_ok]. done. }
  destruct (rocksengine_put_get [0; 0] (mkKey 16384 196609) example_value example_db db')
    as ((w & Hg & Hw) & _);
    [done|by vm_compute|exact example_value_ok|exact (proj1 example_db_ok)|exact Hp|done|].
  by exists db', w.
Defined.

Lemma rocksengine_get_missing_witness :
  rocksengine_get [0; 0] (mkKey 16384 7) example_db
    = (Ub "tvalue_deserialize of a NULL pointer", example_db).
Proof. apply (rocksengine_get_missing [0; 0] (mkKey 16384 7) example_db); [by vm_compute|done]. Defined.
