(* ===== verification/LinkedQueue.v ===== *)
(** * Linked queues

    Models the three queues of the program that are linked lists with a head
    and a tail pointer under a mutex: the task queue of the thread pool
    ([nr_am/src/nram_storage/thread.c]), the response queue of the storage
    service ([nr_am/src/nram_storage/rocks_service.c]) and the batch queue of
    the AI pipeline ([nr_pipeline/src/utils/data_structure/queue.c]).

    Nodes live in a heap of addresses, so that a dangling pointer is visible
    ([Ub]). Code under the mutex is one atomic step; waiting on a condition
    variable is a step that is not enabled. *)
From S2P Require Import Prelude Kv Channel.
From Stdlib Require Import ZArith Lia.
From stdpp Require Import base strings gmap fin_sets numbers list.

Open Scope Z_scope.

Record node (A : Type) := mkNode { payload : A; next : option nat }.
Arguments mkNode {A} payload next.
Arguments payload {A} n.
Arguments next {A} n.

(** The pointers of a queue and the nodes that are allocated. *)
Record lqueue (A : Type) := mkQueue {
  nodes : gmap nat (node A);
  qhead : option nat;
  qtail : option nat
}.
Arguments mkQueue {A} nodes qhead qtail.
Arguments nodes {A} l.
Arguments qhead {A} l.
Arguments qtail {A} l.

Definition empty_queue {A} : lqueue A := mkQueue ∅ None None.

(** [malloc] a node, link it behind the tail. *)
Definition link_tail {A} (x : A) (q : lqueue A) : outcome (lqueue A) :=
  let a := fresh (dom (nodes q) : gset nat) in
  let m := <[a := mkNode x None]> (nodes q) in
  match qtail q with
  | Some t =>
      match m !! t with
      | Some n => Ok (mkQueue (<[t := mkNode (payload n) (Some a)]> m) (qhead q) (Some a))
      | None => Ub "the tail pointer dangles"
      end
  | None => Ok (mkQueue m (Some a) (Some a))
  end.

(** Take the node at the head off and [free] it. *)
Definition unlink_head {A} (q : lqueue A) : outcome (option (A * lqueue A)) :=
  match qhead q with
  | None => Ok None
  | Some h =>
      match nodes q !! h with
      | None => Ub "the head pointer dangles"
      | Some n =>
          let tail' := match next n with None => None | Some _ => qtail q end in
          Ok (Some (payload n, mkQueue (delete h (nodes q)) (next n) tail'))
      end
  end.

(** [free] every node from the head on. *)
Fixpoint free_from {A} (fuel : nat) (p : option nat) (m : gmap nat (node A))
    : option (outcome (gmap nat (node A))) :=
  match fuel with
  | O => None
  | S fuel =>
      match p with
      | None => Some (Ok m)
      | Some a =>
          match m !! a with
          | None => Some (Ub "the next pointer dangles")
          | Some n => free_from fuel (next n) (delete a m)
          end
      end
  end.

(** The payloads of a queue, from the head on. *)
Fixpoint queue_walk {A} (fuel : nat) (p : option nat) (m : gmap nat (node A)) : list A :=
  match fuel, p with
  | S fuel, Some a =>
      match m !! a with Some n => payload n :: queue_walk fuel (next n) m | None => [] end
  | _, _ => []
  end.

(** ** Chains of nodes *)

Fixpoint chain {A} (m : gmap nat (node A)) (p : option nat) (l : list (nat * A)) : Prop :=
  match l with
  | [] => p = None
  | (a, x) :: l => p = Some a ∧ ∃ n, m !! a = Some (mkNode x n) ∧ chain m n l
  end.

(** The queue represents the list [xs]: its nodes form one chain from the head,
    nothing else is allocated and the tail points to the last node. *)
Definition is_queue {A} (q : lqueue A) (xs : list A) : Prop :=
  ∃ l, chain (nodes q) (qhead q) l ∧ l.*2 = xs ∧ NoDup l.*1 ∧ qtail q = last l.*1 ∧
       dom (nodes q) = list_to_set l.*1.

Section chains.
Context {A : Type}.
Implicit Types (m : gmap nat (node A)) (l : list (nat * A)).

Lemma keys_snoc l t x : (l ++ [(t, x)]).*1 = l.*1 ++ [t].
Proof. by rewrite fmap_app. Qed.

Lemma chain_ext m m' p l :
  (∀ a, a ∈ l.*1 → m' !! a = m !! a) → chain m p l → chain m' p l.
Proof.
  revert p. induction l as [|[a x] l IH]; intros p Hm; cbn; [done|].
  intros (-> & n & Hn & Hc). split; [done|]. exists n. rewrite Hm by left. split; [done|].
  apply IH; [|done]. intros b Hb. apply Hm. by right.
Qed.

Lemma chain_snoc m p l t x a y :
  chain m p (l ++ [(t, x)]) → a ∉ (l ++ [(t, x)]).*1 → NoDup (l ++ [(t, x)]).*1 →
  chain (<[t := mkNode x (Some a)]> (<[a := mkNode y None]> m)) p (l ++ [(t, x); (a, y)]).
Proof.
  revert p. induction l as [|[b z] l IH]; intros p; cbn.
  - intros (-> & n & Hn & ->) [Ha _]%not_elem_of_cons _. split; [done|]. exists (Some a).
    rewrite lookup_insert_eq. split; [done|]. split; [done|]. exists None.
    by rewrite lookup_insert_ne, lookup_insert_eq.
  - intros (-> & n & Hn & Hc) [Hab Ha]%not_elem_of_cons [Hb Hnd]%NoDup_cons.
    split; [done|]. exists n. split; [|by apply IH].
    rewrite fmap_app, not_elem_of_app in Hb. cbn in Hb. rewrite not_elem_of_cons in Hb.
    rewrite !lookup_insert_ne; [done|naive_solver..].
Qed.

Lemma is_queue_empty : is_queue (@empty_queue A) [].
Proof. exists []. by split_and!; [| |constructor| |]. Qed.

Lemma link_tail_spec (x : A) q xs :
  is_queue q xs → ∃ q', link_tail x q = Ok q' ∧ is_queue q' (xs ++ [x]).
Proof.
  intros (l & Hc & <- & Hnd & Ht & Hdom). unfold link_tail. set (a := fresh _).
  assert (a ∉ dom (nodes q)) as Ha by apply is_fresh.
  assert (a ∉ l.*1) as Ha' by (rewrite Hdom in Ha; by rewrite elem_of_list_to_set in Ha).
  destruct l as [|[t z] l _] using rev_ind.
  - cbn in Hc, Ht. rewrite Ht. eexists. split; [done|]. exists [(a, x)].
    split_and!; [|done|by apply NoDup_singleton|done|cbn [nodes]; rewrite dom_insert_L; set_solver].
    split; [done|]. exists None. cbn [nodes]. by rewrite lookup_insert_eq.
  - rewrite keys_snoc, last_snoc in Ht. rewrite Ht.
    assert (∃ n, nodes q !! t = Some (mkNode z n)) as [n Hn].
    { clear -Hc. revert Hc. generalize (qhead q). induction l as [|[b y] l IH]; intros p; cbn.
      - intros (_ & n & Hn & _). eauto.
      - intros (_ & n & _ & Hc). eauto. }
    assert (t ≠ a) as Hta.
    { intros ->. apply Ha'. rewrite keys_snoc. set_solver. }
    rewrite lookup_insert_ne, Hn by done. eexists. split; [done|].
    exists (l ++ [(t, z); (a, x)]). cbn [nodes qhead qtail].
    replace (l ++ [(t, z); (a, x)]) with ((l ++ [(t, z)]) ++ [(a, x)]) at 2 3 4 5
      by by rewrite <- app_assoc.
    split_and!.
    + by apply chain_snoc.
    + by rewrite fmap_app.
    + rewrite keys_snoc. apply NoDup_app. split_and!; [done| |by apply NoDup_singleton].
      intros b Hb ->%list_elem_of_singleton. done.
    + by rewrite keys_snoc, last_snoc.
    + rewrite !dom_insert_L, Hdom, !keys_snoc, !list_to_set_app_L. set_solver.
Qed.

Lemma unlink_head_spec (q : lqueue A) xs :
  is_queue q xs →
  match xs with
  | [] => unlink_head q = Ok None ∧ qhead q = None
  | x :: xs' => (∃ q', unlink_head q = Ok (Some (x, q')) ∧ is_queue q' xs') ∧ qhead q ≠ None
  end.
Proof.
  intros (l & Hc & <- & Hnd & Ht & Hdom). unfold unlink_head.
  destruct l as [|[h x] l]; cbn in Hc.
  { by rewrite Hc. }
  destruct Hc as (-> & n & Hn & Hc). cbn in *. rewrite Hn. split; [|done].
  apply NoDup_cons in Hnd as [Hh Hnd].
  eexists. split; [done|]. exists l. cbn. split_and!; [|done|done| |].
  - eapply chain_ext; [|exact Hc]. intros b Hb. apply lookup_delete_ne. set_solver.
  - destruct l as [|[b y] l]; cbn in Hc; [by rewrite Hc|]. destruct Hc as [-> _]. done.
  - rewrite dom_delete_L, Hdom. set_solver.
Qed.

Lemma free_from_spec m p l fuel :
  chain m p l → NoDup l.*1 → dom m = list_to_set l.*1 → (length l < fuel)%nat →
  free_from fuel p m = Some (Ok ∅).
Proof.
  revert m p fuel. induction l as [|[a x] l IH]; intros m p fuel Hc Hnd Hdom Hf;
    (destruct fuel as [|fuel]; [cbn in Hf; lia|]); cbn [free_from]; cbn in Hc.
  - subst p. do 2 f_equal. apply map_empty. intros i. apply not_elem_of_dom. set_solver.
  - destruct Hc as (-> & n & Hn & Hc). rewrite Hn. cbn in Hnd, Hdom, Hf.
    apply NoDup_cons in Hnd as [Ha Hnd]. apply IH; [|done| |lia].
    + eapply chain_ext; [|exact Hc]. intros b Hb. apply lookup_delete_ne. set_solver.
    + rewrite dom_delete_L, Hdom. set_solver.
Qed.

Lemma queue_walk_chain m p l fuel :
  chain m p l → (length l ≤ fuel)%nat → queue_walk fuel p m = l.*2.
Proof.
  revert p fuel. induction l as [|[a x] l IH]; intros p fuel Hc Hf; cbn in Hc.
  - subst p. by destruct fuel.
  - destruct Hc as (-> & n & Hn & Hc). destruct fuel as [|fuel]; [cbn in Hf; lia|].
    cbn. rewrite Hn. cbn in Hf. rewrite IH; [done|done|lia].
Qed.

Lemma is_queue_size (q : lqueue A) xs : is_queue q xs → size (nodes q) = length xs.
Proof.
  intros (l & _ & <- & Hnd & _ & Hdom). rewrite <- (size_dom (D := gset nat)), Hdom.
  rewrite size_list_to_set by done. by rewrite !length_fmap.
Qed.

Lemma queue_walk_spec (q : lqueue A) xs :
  is_queue q xs → queue_walk (size (nodes q)) (qhead q) (nodes q) = xs.
Proof.
  intros Hq. rewrite (is_queue_size q xs Hq). destruct Hq as (l & Hc & <- & _).
  apply queue_walk_chain; [done|]. by rewrite length_fmap.
Qed.
End chains.

(** ** The batch queue of the pipeline *)
Module BatchQueue.

(** A batch is a C string, of type [A]; [strdup] copies it. *)
Record BatchQueue (A : Type) := mkBatchQueue { queue : lqueue A; size : Z; max_size : Z }.
Arguments mkBatchQueue {A} _ _ _.
Arguments queue {A} _.
Arguments size {A} _.
Arguments max_size {A} _.

Inductive batch_op (A : Type) := BEnqueue (x : A) | BDequeue.
Inductive batch_obs (A : Type) := BAdded | BTaken (x : A) | BWaits | BBroken.
Arguments BEnqueue {A} x.
Arguments BDequeue {A}.
Arguments BAdded {A}.
Arguments BTaken {A} x.
Arguments BWaits {A}.
Arguments BBroken {A}.

Section operations.
Context {A : Type}.

Definition init_batch_queue (max : Z) : BatchQueue A := mkBatchQueue empty_queue 0 max.

(** The part of [enqueue] after its waiting loop: [None] while the queue is
    full and the producer waits. *)
Definition enqueue (batch_data : A) (q : BatchQueue A) : outcome (option (BatchQueue A)) :=
  if max_size q <=? size q then Ok None
  else
    l ← link_tail batch_data (queue q);
    Ok (Some (mkBatchQueue l (u64 (size q + 1)) (max_size q))).

(** The part of [dequeue] after its waiting loop: [None] while the queue is
    empty and the consumer waits. *)
Definition dequeue (q : BatchQueue A) : outcome (option (A * BatchQueue A)) :=
  r ← unlink_head (queue q);
  match r with
  | None => Ok None
  | Some (data, l) => Ok (Some (data, mkBatchQueue l (u64 (size q - 1)) (max_size q)))
  end.

(** The representation invariant: [size] counts the nodes and never exceeds
    [max_size]. *)
Definition batch_inv (q : BatchQueue A) (xs : list A) : Prop :=
  is_queue (queue q) xs ∧ size q = zlen xs ∧ size q ≤ max_size q ∧ in_u64 (max_size q).

Definition batch_step (o : batch_op A) (q : BatchQueue A) : batch_obs A * BatchQueue A :=
  match o with
  | BEnqueue x =>
      match enqueue x q with
      | Ok (Some q') => (BAdded, q') | Ok None => (BWaits, q) | _ => (BBroken, q)
      end
  | BDequeue =>
      match dequeue q with
      | Ok (Some (x, q')) => (BTaken x, q') | Ok None => (BWaits, q) | _ => (BBroken, q)
      end
  end.

(** The bounded queue the batch queue implements. *)
Definition spec_step (max : Z) (o : batch_op A) (xs : list A) : batch_obs A * list A :=
  match o with
  | BEnqueue x => if decide (zlen xs < max) then (BAdded, xs ++ [x]) else (BWaits, xs)
  | BDequeue => match xs with x :: xs => (BTaken x, xs) | [] => (BWaits, []) end
  end.

Fixpoint run {S} (step : batch_op A → S → batch_obs A * S) (ops : list (batch_op A)) (s : S)
    : list (batch_obs A) * S :=
  match ops with
  | [] => ([], s)
  | o :: ops => let '(r, s) := step o s in let '(rs, s) := run step ops s in (r :: rs, s)
  end.

Lemma batch_step_refines (o : batch_op A) q xs :
  batch_inv q xs →
  (batch_step o q).1 = (spec_step (max_size q) o xs).1 ∧
  batch_inv (batch_step o q).2 (spec_step (max_size q) o xs).2 ∧
  max_size (batch_step o q).2 = max_size q.
Proof.
  intros (Hq & Hs & Hle & Hmax). destruct o as [x|]; cbn [batch_step spec_step].
  - unfold enqueue. rewrite Hs. case_decide.
    + replace (_ <=? _) with false by lia.
      destruct (link_tail_spec x _ _ Hq) as (l & -> & Hl). cbn. split_and!; [done| |done].
      pose proof (zlen_nonneg xs). unfold batch_inv, u64; cbn [queue size max_size].
      rewrite Z.mod_small by zsolve. split_and!; [done|zsolve|lia|done].
    + replace (_ <=? _) with true by lia. done.
  - unfold dequeue. pose proof (unlink_head_spec _ _ Hq) as Hu.
    destruct xs as [|x xs].
    + destruct Hu as [-> _]. done.
    + destruct Hu as [(l & -> & Hl) _]. cbn. split_and!; [done| |done].
      pose proof (zlen_nonneg xs). rewrite zlen_cons in Hs.
      unfold batch_inv, u64; cbn [queue size max_size].
      rewrite Z.mod_small by zsolve. split_and!; [done|lia|lia|done].
Qed.

Lemma run_refines (ops : list (batch_op A)) q xs :
  batch_inv q xs →
  (run batch_step ops q).1 = (run (spec_step (max_size q)) ops xs).1 ∧
  batch_inv (run batch_step ops q).2 (run (spec_step (max_size q)) ops xs).2.
Proof.
  revert q xs. induction ops as [|o ops IH]; intros q xs Hinv; [by split|]. cbn [run].
  destruct (batch_step_refines o q xs Hinv) as (Ho & Hi & Hm).
  destruct (batch_step o q) as [r q'], (spec_step (max_size q) o xs) as [r' xs'].
  cbn [fst snd] in *. subst r'. destruct (IH q' xs' Hi) as [IH1 IH2]. rewrite Hm in *.
  destruct (run batch_step ops q'), (run (spec_step (max_size q)) ops xs').
  cbn [fst snd] in *. by subst.
Qed.

(** Every interleaving of the producer and the consumer sees a bounded
    FIFO queue: the same calls wait, the batches come out in the order they
    went in, no pointer dangles, and the size counter counts the nodes. *)
Theorem batch_queue_refines max (ops : list (batch_op A)) :
  in_u64 max →
  (run batch_step ops (init_batch_queue max)).1 = (run (spec_step max) ops []).1 ∧
  batch_inv (run batch_step ops (init_batch_queue max)).2 (run (spec_step max) ops []).2.
Proof.
  intros Hmax. apply (run_refines ops (init_batch_queue max) []).
  split; [apply is_queue_empty|]. cbn. split; [done|]. split; [by destruct Hmax|done].
Qed.

End operations.

Lemma batch_queue_refines_witness :
  (run batch_step [BEnqueue [1]; BEnqueue [2]; BEnqueue [3]; BDequeue; BEnqueue [4]; BDequeue]
     (init_batch_queue 2)).1 = [BAdded; BAdded; BWaits; BTaken [1]; BAdded; BTaken [2]].
Proof.
  exact (proj1 (batch_queue_refines 2
    [BEnqueue [1]; BEnqueue [2]; BEnqueue [3]; BDequeue; BEnqueue [4]; BDequeue] ltac:(done))).
Defined.

End BatchQueue.

(** ** The thread pool *)
Module ThreadPool.
Section pool.
Context {T : Type}.

Record ThreadPool := mkPool { tasks : lqueue T; shutdown : bool; num_threads : nat }.

Definition threadpool_init (n : nat) : ThreadPool := mkPool empty_queue false n.

Definition threadpool_add_task (task : T) (pool : ThreadPool) : outcome ThreadPool :=
  l ← link_tail task (tasks pool); Ok (mkPool l (shutdown pool) (num_threads pool)).

(** What a worker does between taking and releasing the lock: it waits on the
    condition variable, leaves its loop, or goes off with a task. *)
Inductive worker_action := WWait | WExit | WTask (task : T) (pool : ThreadPool).

Definition worker_thread (pool : ThreadPool) : outcome worker_action :=
  match qhead (tasks pool) with
  | None => if shutdown pool then Ok WExit else Ok WWait
  | Some _ =>
      r ← unlink_head (tasks pool);
      match r with
      | Some (task, l) => Ok (WTask task (mkPool l (shutdown pool) (num_threads pool)))
      | None => Ok WWait
      end
  end.

(** [threadpool_destroy] before and after it joined the workers. *)
Definition threadpool_shutdown (pool : ThreadPool) : ThreadPool :=
  mkPool (tasks pool) true (num_threads pool).
Definition threadpool_free (fuel : nat) (pool : ThreadPool) : option (outcome (gmap nat (node T))) :=
  free_from fuel (qhead (tasks pool)) (nodes (tasks pool)).

(** The pool with its workers: the tasks added and the tasks taken so far, in
    order, and which workers have left. The owner stops adding before it
    destroys the pool. *)
Record system := mkSystem {
  pool : ThreadPool;
  added : list T;
  taken : list T;
  exited : list nat
}.

Inductive step : system → system → Prop :=
| step_add s task p :
    shutdown (pool s) = false → threadpool_add_task task (pool s) = Ok p →
    step s (mkSystem p (added s ++ [task]) (taken s) (exited s))
| step_shutdown s :
    step s (mkSystem (threadpool_shutdown (pool s)) (added s) (taken s) (exited s))
| step_take s i task p :
    (i < num_threads (pool s))%nat → i ∉ exited s →
    worker_thread (pool s) = Ok (WTask task p) →
    step s (mkSystem p (added s) (taken s ++ [task]) (exited s))
| step_exit s i :
    (i < num_threads (pool s))%nat → i ∉ exited s → worker_thread (pool s) = Ok WExit →
    step s (mkSystem (pool s) (added s) (taken s) (i :: exited s)).

Definition init_system (n : nat) : system := mkSystem (threadpool_init n) [] [] [].

(** A worker leaves only a shut-down pool with an empty queue. *)
Definition system_inv (s : system) : Prop :=
  ∃ rest, is_queue (tasks (pool s)) rest ∧ added s = taken s ++ rest ∧
    (exited s ≠ [] → shutdown (pool s) = true ∧ rest = []).

Lemma worker_thread_spec p rest :
  is_queue (tasks p) rest →
  match rest with
  | [] => worker_thread p = Ok (if shutdown p then WExit else WWait)
  | x :: rest => ∃ l, worker_thread p = Ok (WTask x (mkPool l (shutdown p) (num_threads p))) ∧
                      is_queue l rest
  end.
Proof.
  intros Hq. pose proof (unlink_head_spec _ _ Hq) as Hu. unfold worker_thread.
  destruct rest as [|x rest].
  - destruct Hu as [_ ->]. by destruct (shutdown p).
  - destruct Hu as [(l & Hl & Hl') Hh]. destruct (qhead (tasks p)); [|done].
    rewrite Hl. cbn. eauto.
Qed.

Lemma step_inv s s' : step s s' → system_inv s → system_inv s'.
Proof.
  intros Hst (rest & Hq & Ha & He). destruct Hst as [s task p Hsh Hadd|s|s i task p Hi Hni Hw|s i Hi Hni Hw].
  - destruct (link_tail_spec task _ _ Hq) as (l & Hl & Hl'). unfold threadpool_add_task in Hadd.
    rewrite Hl in Hadd. cbn in Hadd. injection Hadd as <-. exists (rest ++ [task]); cbn.
    split; [done|]. split; [by rewrite Ha, app_assoc|]. intros Hex. destruct (He Hex). congruence.
  - exists rest. cbn. naive_solver.
  - pose proof (worker_thread_spec _ _ Hq) as Hs. destruct rest as [|x rest].
    { rewrite Hs in Hw. by destruct (shutdown (pool s)). }
    destruct Hs as (l & Hs & Hl). rewrite Hs in Hw. injection Hw as <- <-.
    exists rest; cbn. split; [done|]. split; [by rewrite Ha, <- app_assoc|].
    intros Hex. by destruct (He Hex).
  - pose proof (worker_thread_spec _ _ Hq) as Hs. destruct rest as [|x rest].
    2: { destruct Hs as (l & Hs & _). congruence. }
    exists []; cbn. split; [done|]. split; [done|]. intros _. split; [|done].
    rewrite Hs in Hw. by destruct (shutdown (pool s)).
Qed.

Lemma init_inv n : system_inv (init_system n).
Proof. exists []. split; [apply is_queue_empty|]. done. Qed.

Lemma reachable_inv n s : rtc step (init_system n) s → system_inv s.
Proof.
  revert s. apply rtc_ind_r; [apply init_inv|]. intros s s' _ Hst. by apply step_inv.
Qed.
End pool.

(** The workers take the tasks in the order they were added, each once;
    and when a worker has left its loop no task is lost: everything added was
    taken and the clean-up of [threadpool_destroy] has nothing left to free. *)
Theorem threadpool_drains {T : Type} n (s : @system T) :
  rtc step (init_system n) s →
  taken s `prefix_of` added s ∧
  (exited s ≠ [] → taken s = added s ∧ threadpool_free 1 (pool s) = Some (Ok ∅)).
Proof.
  intros (rest & Hq & Ha & He)%reachable_inv. split; [by exists rest|].
  intros [Hsh ->]%He. rewrite app_nil_r in Ha. split; [done|].
  destruct Hq as (l & Hc & Hl & Hnd & _ & Hdom). apply fmap_nil_inv in Hl as ->.
  eapply free_from_spec; [exact Hc|exact Hnd|exact Hdom|cbn; lia].
Qed.

Lemma threadpool_drains_witness :
  ∃ s : @system Z, rtc step (init_system 1) s ∧ exited s = [0%nat] ∧ taken s = [7; 8].
Proof.
  assert (∃ s : @system Z, rtc step (init_system 1) s ∧ exited s = [0%nat] ∧ added s = [7; 8])
    as (s & Hs & He & Ha).
  { eexists. split.
    - eapply rtc_l; [by apply (step_add _ 7)|]. eapply rtc_l; [by apply (step_add _ 8)|].
      eapply rtc_l; [by eapply (step_take _ 0); [cbn; lia|apply not_elem_of_nil|]|].
      eapply rtc_l; [apply step_shutdown|].
      eapply rtc_l; [by eapply (step_take _ 0); [cbn; lia|apply not_elem_of_nil|]|].
      eapply rtc_l; [by eapply (step_exit _ 0); [cbn; lia|apply not_elem_of_nil|]|]. apply rtc_refl.
    - done. }
  exists s. split; [done|]. split; [done|]. rewrite <- Ha.
  apply (threadpool_drains 1 s Hs). by rewrite He.
Defined.

End ThreadPool.

(** ** The response queue of the storage service *)
Module ResultQueue.

Record ResultQueue := mkResultQueue { results : lqueue KVMsg; shutdown : bool }.

Definition ResultQueueInit : ResultQueue := mkResultQueue empty_queue false.

(** A push after the shutdown leaves its node allocated and unlinked. *)
Definition ResultQueuePush (msg : KVMsg) (q : ResultQueue) : outcome ResultQueue :=
  if shutdown q then Ok q
  else l ← link_tail msg (results q); Ok (mkResultQueue l (shutdown q)).

Definition ResultQueuePop (q : ResultQueue) : outcome (option KVMsg * ResultQueue) :=
  if shutdown q then Ok (None, q)
  else
    r ← unlink_head (results q);
    match r with
    | None => Ok (None, q)
    | Some (msg, l) => Ok (Some msg, mkResultQueue l (shutdown q))
    end.

Definition ResultQueueIsEmpty (q : ResultQueue) : bool :=
  match qhead (results q) with None => true | Some _ => shutdown q end.

Definition ResultQueueDestroy (fuel : nat) (q : ResultQueue)
    : option (outcome (gmap nat (node KVMsg))) :=
  free_from fuel (qhead (results q)) (nodes (results q)).

(** The messages that wait to be sent. *)
Definition pending (q : ResultQueue) (ms : list KVMsg) : Prop :=
  is_queue (results q) ms ∧ shutdown q = false.

Lemma pending_init : pending ResultQueueInit [].
Proof. split; [apply is_queue_empty|done]. Qed.

Lemma ResultQueuePush_spec m q ms :
  pending q ms → ∃ q', ResultQueuePush m q = Ok q' ∧ pending q' (ms ++ [m]).
Proof.
  intros [Hq Hs]. unfold ResultQueuePush. rewrite Hs.
  destruct (link_tail_spec m _ _ Hq) as (l & -> & Hl). cbn. eexists. split; [done|]. by split.
Qed.

Lemma ResultQueuePop_spec q m ms :
  pending q (m :: ms) → ∃ q', ResultQueuePop q = Ok (Some m, q') ∧ pending q' ms.
Proof.
  intros [Hq Hs]. unfold ResultQueuePop. rewrite Hs.
  destruct (unlink_head_spec _ _ Hq) as [(l & -> & Hl) _]. cbn. eexists. split; [done|]. by split.
Qed.

Lemma ResultQueueIsEmpty_spec q ms :
  pending q ms → ResultQueueIsEmpty q = match ms with [] => true | _ => false end.
Proof.
  intros [Hq Hs]. pose proof (unlink_head_spec _ _ Hq) as Hu. unfold ResultQueueIsEmpty.
  destruct ms as [|m ms].
  - by destruct Hu as [_ ->].
  - destruct Hu as [_ Hh]. by destruct (qhead (results q)); [rewrite Hs|].
Qed.

End ResultQueue.
