(* ===== verification/RocksService.v ===== *)
(** * The storage service and its clients

    Models [nr_am/src/nram_storage/rocks_service.c] (the background worker that
    owns the engine) and [rocks_handler.c] (the backends that call it). They
    meet in shared memory: a backend pushes a request on the service's channel
    and waits on its own response channel; the service pops a request, handles
    it on the engine, queues the response and pushes it on the channel named in
    the request.

    A process is a function on the [world]; [Sleeps] is a process that still
    waits on a condition variable. What the other processes do while a backend
    waits for its response is an argument of the client functions. *)
From S2P Require Import Prelude Process Ring Kv Channel RocksEngine LinkedQueue.
From Stdlib Require Import ZArith Lia.
From stdpp Require Import base strings pretty gmap numbers list.

Open Scope Z_scope.

Definition ROCKSDB_CHANNEL : string := "rocks_service_channel".
Definition ROCKSDB_CHANNEL_DEFAULT_TIMEOUT : Z := 1.

Definition of_chan {A} (r : chan_result A) : pres A :=
  match r with Returned a => Done a | Raised e => Error e | Exited => Exits | Asleep => Sleeps end.

(** [snprintf(name, ..., "kv_resp_%u", channel)]. *)
Definition resp_name (channel : Z) : string := "kv_resp_" +:+ pretty channel.

Section service.
Context `{R : RocksDB} (slack : list Z) (range_fuel : rocksdb_t → nat).

(** Shared memory and the statics of the service process. *)
Record world := mkWorld {
  shm : Shmem;
  shared_engine : option rocksdb_t;
  result_queue : ResultQueue.ResultQueue;
  rocks_service_running : bool
}.

Definition with_shm (w : world) (m : Shmem) : world :=
  mkWorld m (shared_engine w) (result_queue w) (rocks_service_running w).
Definition with_engine (w : world) (e : option rocksdb_t) : world :=
  mkWorld (shm w) e (result_queue w) (rocks_service_running w).
Definition with_results (w : world) (q : ResultQueue.ResultQueue) : world :=
  mkWorld (shm w) (shared_engine w) q (rocks_service_running w).

(** ** Channels of the world *)

Definition chan_init (name : string) (create : bool) : P world string := λ w,
  let '(r, m) := KVChannelInit name create (shm w) in (of_outcome r, with_shm w m).

Definition chan_push (name : string) (msg : KVMsg) (timeout_ms : Z) : P world bool := λ w,
  match shm w !! name with
  | None => (Undefined "no such channel", w)
  | Some s =>
      match KVChannelPushMsg msg timeout_ms 0 [] s with
      | Ok (r, s') => (of_chan r, with_shm w (<[name := s']> (shm w)))
      | Raise e => (Error e, w)
      | Ub e => (Undefined e, w)
      end
  end.

Definition chan_pop (name : string) (timeout_ms : Z) (wakes : list wake) : P world (option KVMsg) :=
  λ w,
  match shm w !! name with
  | None => (Undefined "no such channel", w)
  | Some s =>
      let '(r, s') := KVChannelPopMsg timeout_ms 0 wakes s in
      (of_chan r, with_shm w (<[name := s']> (shm w)))
  end.

(** ** The request handlers *)

(** A call on the engine of the process, which is opened at its first use. *)
Definition engine_do {A} (m : M rocksdb_t A) : P world A := λ w,
  match GetCurrentEngine (shared_engine w) with
  | (Ok db, _) => let '(r, db') := m db in (of_outcome r, with_engine w (Some db'))
  | (Raise e, eng) => (Error e, with_engine w eng)
  | (Ub e, eng) => (Undefined e, with_engine w eng)
  end.

(** The memory behind the entity pointer; nothing can be read through NULL. *)
Definition entity_ptr (msg : KVMsg) : list Z :=
  match entity msg with Some e => e ++ slack | None => [] end.

Definition set_entity (msg : KVMsg) (rel : Z) (e : option (list Z)) (len : Z) : KVMsg :=
  mkMsg (mkHeader (op (header msg)) rel (status (header msg)) (respChannel (header msg)) len) e.

Definition handle_kv_get (msg : KVMsg) : P world KVMsg :=
  let key_len := entitySize (header msg) in
  key ← lift (tkey_deserialize (entity_ptr msg) key_len);
  value ← engine_do (rocksengine_get slack key);
  let resp := NewMsg kv_get (tableOid key) kv_status_ok (respChannel (header msg)) in
  val ← lift (tvalue_serialize value);
  mret (set_entity resp (tableOid key) (Some val) (zlen val)).

Definition handle_kv_put (msg : KVMsg) : P world (option KVMsg) :=
  let total_len := entitySize (header msg) in
  if total_len <? 8 then mret None
  else
    '(key_len, buf) ← lift (rd_u64 (entity_ptr msg));
    if total_len <? u64 (8 + key_len) then mret None
    else
      key ← lift (tkey_deserialize buf key_len);
      '(_, buf) ← lift (ptr_read key_len buf);
      let value_len := u64 (total_len - key_len - 8) in
      value ← lift (tvalue_deserialize buf value_len);
      _ ← engine_do (rocksengine_put key value);
      let resp := NewMsg kv_put (relId (header msg)) kv_status_ok (respChannel (header msg)) in
      mret (Some (set_entity resp (tableOid key) None 0)).

(** One row of a range response. *)
Definition row_bytes (row : NRAMKeyData * NRAMValueData) : outcome (list Z) :=
  let kbuf := tkey_serialize row.1 in
  vbuf ← tvalue_serialize row.2;
  Ok (le_bytes 8 (zlen kbuf) ++ kbuf ++ le_bytes 8 (zlen vbuf) ++ vbuf).

Fixpoint rows_bytes (rows : list (NRAMKeyData * NRAMValueData)) : outcome (list Z) :=
  match rows with
  | [] => Ok []
  | row :: rows => b ← row_bytes row; bs ← rows_bytes rows; Ok (b ++ bs)
  end.

Definition engine_range_scan (start_key end_key : NRAMKeyData)
    : M rocksdb_t (list (NRAMKeyData * NRAMValueData)) := λ db,
  match rocksengine_range_scan slack (range_fuel db) start_key end_key db with
  | Some r => (r, db)
  | None => (Ub "the scan exceeds its bound", db)
  end.

Definition handle_kv_range_scan (msg : KVMsg) : P world KVMsg :=
  '(key_len_1, p) ← lift (rd_u64 (entity_ptr msg));
  start_key ← lift (tkey_deserialize p key_len_1);
  '(_, p) ← lift (ptr_read key_len_1 p);
  '(key_len_2, p) ← lift (rd_u64 p);
  end_key ← lift (tkey_deserialize p key_len_2);
  rows ← engine_do (engine_range_scan start_key end_key);
  body ← lift (rows_bytes rows);
  let resp := NewMsg kv_range (tableOid start_key) kv_status_ok (respChannel (header msg)) in
  let entity := le_bytes 4 (zlen rows) ++ body in
  if MaxAllocSize <? zlen entity then lift (Raise "invalid memory alloc request size")
  else mret (set_entity resp (tableOid start_key) (Some entity) (zlen entity)).

(** ** The service *)

Fixpoint print_msgs (ms : list KVMsg) : outcome unit :=
  match ms with
  | [] => Ok tt
  | m :: ms => _ ← PrintKVMsg (Some m); print_msgs ms
  end.

Definition PrintResultQueue (q : ResultQueue.ResultQueue) : outcome unit :=
  if ResultQueue.shutdown q then Ok tt
  else
    let l := ResultQueue.results q in
    print_msgs (queue_walk (size (nodes l)) (qhead l) (nodes l)).

Definition push_result (resp : KVMsg) : P world unit := λ w,
  match ResultQueue.ResultQueuePush resp (result_queue w) with
  | Ok q => (of_outcome (PrintResultQueue q), with_results w q)
  | Raise e => (Error e, w)
  | Ub e => (Undefined e, w)
  end.

(** The switch of [process_request]. *)
Definition dispatch (msg : KVMsg) : P world (option KVMsg) :=
  let o := op (header msg) in
  if o =? KVOp_code kv_get then resp ← handle_kv_get msg; mret (Some resp)
  else if o =? KVOp_code kv_put then handle_kv_put msg
  else if o =? KVOp_code kv_range then resp ← handle_kv_range_scan msg; mret (Some resp)
  else mret None.

Definition process_request (msg : KVMsg) : P world unit :=
  resp ← dispatch msg;
  match resp with
  | Some resp => push_result resp
  | None => mret tt
  end.

Definition pop_result : P world (option KVMsg) := λ w,
  match ResultQueue.ResultQueuePop (result_queue w) with
  | Ok (m, q) => (Done m, with_results w q)
  | Raise e => (Error e, w)
  | Ub e => (Undefined e, w)
  end.

(** The responses are pushed until the queue is empty; [fuel] bounds the
    iterations by the number of nodes. *)
Fixpoint clear_loop (fuel : nat) : P world unit := λ w,
  match fuel with
  | O => (Done tt, w)
  | S fuel =>
      if ResultQueue.ResultQueueIsEmpty (result_queue w) then (Done tt, w)
      else
        (resp ← pop_result;
         match resp with
         | None => clear_loop fuel
         | Some resp =>
             chan ← chan_init (resp_name (respChannel (header resp))) false;
             _ ← chan_push chan resp (-1);
             clear_loop fuel
         end) w
  end.

Definition ResultQueueClear : P world unit := λ w,
  clear_loop (S (size (nodes (ResultQueue.results (result_queue w))))) w.

(** One turn of the loop of [run_rocks_no_thread]; false when it is left. *)
Definition service_turn (wakes : list wake) : P world bool :=
  msg ← chan_pop ROCKSDB_CHANNEL ROCKSDB_CHANNEL_DEFAULT_TIMEOUT wakes;
  match msg with
  | None => mret true
  | Some msg =>
      if op (header msg) =? KVOp_code kv_close then mret false
      else _ ← process_request msg; _ ← ResultQueueClear; mret true
  end.

Definition service_init : P world unit := λ w,
  let '(r, m) := KVChannelInit ROCKSDB_CHANNEL true (shm w) in
  (Done tt, mkWorld m (shared_engine w) ResultQueue.ResultQueueInit true).

(** The loop, for the sleeps of as many turns as the list has. *)
Fixpoint service_loop (turns : list (list wake)) : P world unit := λ w,
  if negb (rocks_service_running w) then (Done tt, w)
  else match turns with
  | [] => (Sleeps, w)
  | t :: turns => (continue ← service_turn t; if (continue : bool) then service_loop turns else mret tt) w
  end.

(** [KVChannelDestroy] and [rocksengine_destroy] after the loop, then the
    process exits. *)
Definition service_exit : P world unit := λ w,
  (Exits, mkWorld (KVChannelDestroy (Some ROCKSDB_CHANNEL) (shm w)) None
            (result_queue w) (rocks_service_running w)).

Definition run_rocks_no_thread (turns : list (list wake)) : P world unit :=
  _ ← service_init; _ ← service_loop turns; service_exit.

(** The SIGTERM handler. *)
Definition terminate_rocks (w : world) : world :=
  mkWorld (alter TerminateChannel ROCKSDB_CHANNEL (shm w)) (shared_engine w) (result_queue w) false.

(** ** The clients *)

Record client := mkClient {
  MyProcPid : Z;
  RespChannel : option string;
  ServerChannel : option string
}.

Definition cstate : Type := world * client.

Definition on_world {A} (m : P world A) : P cstate A := λ '(w, c),
  let '(r, w') := m w in (r, (w', c)).
Definition run_others (others : world → world) : P cstate unit := λ '(w, c), (Done tt, (others w, c)).
Definition get_client : P cstate client := λ s, (Done (snd s), s).
Definition set_client (c : client) : P cstate unit := λ s, (Done tt, (fst s, c)).

Definition GetRespChannel : P cstate string :=
  c ← get_client;
  match RespChannel c with
  | Some chan => mret chan
  | None =>
      chan ← on_world (chan_init (resp_name (MyProcPid c)) true);
      _ ← set_client (mkClient (MyProcPid c) (Some chan) (ServerChannel c));
      mret chan
  end.

Definition GetServerChannel : P cstate string :=
  c ← get_client;
  match ServerChannel c with
  | Some chan => mret chan
  | None =>
      chan ← on_world (chan_init ROCKSDB_CHANNEL false);
      _ ← set_client (mkClient (MyProcPid c) (RespChannel c) (Some chan));
      mret chan
  end.

Definition CloseRespChannel : P cstate unit := λ '(w, c),
  (Done tt, (with_shm w (KVChannelDestroy (RespChannel c) (shm w)),
             mkClient (MyProcPid c) None (ServerChannel c))).

Definition resp_success (resp : option KVMsg) (o : KVOp) : bool :=
  match resp with
  | Some r => (status (header r) =? KVMsgStatus_code kv_status_ok) && (op (header r) =? KVOp_code o)
  | None => false
  end.

(** Send a request and wait for the answer; [None] when the request could not
    be sent. *)
Definition client_call (others : world → world) (req_chan resp_chan : string) (msg : KVMsg)
    : P cstate (option (option KVMsg)) :=
  ok ← on_world (chan_push req_chan msg (-1));
  if negb ok then mret None
  else
    _ ← run_others others;
    resp ← on_world (chan_pop resp_chan (-1) []);
    mret (Some resp).

Definition RocksClientPut (others : world → world) (key : NRAMKeyData) (value : NRAMValueData)
    : P cstate bool :=
  req_chan ← GetServerChannel;
  resp_chan ← GetRespChannel;
  c ← get_client;
  let serialized_key := tkey_serialize key in
  serialized_val ← lift (tvalue_serialize value);
  let entity := le_bytes 8 (zlen serialized_key) ++ serialized_key ++ serialized_val in
  let msg := set_entity (NewMsg kv_put (tableOid key) kv_status_none (MyProcPid c)) (tableOid key)
               (Some entity) (zlen entity) in
  r ← client_call others req_chan resp_chan msg;
  match r with
  | None => mret false
  | Some resp =>
      let success := resp_success resp kv_put in
      if success then mret true
      else _ ← lift (PrintKVMsg resp); mret false
  end.

Definition RocksClientGet (others : world → world) (key : NRAMKeyData)
    : P cstate (option NRAMValueData) :=
  req_chan ← GetServerChannel;
  resp_chan ← GetRespChannel;
  c ← get_client;
  let serialized_key := tkey_serialize key in
  let msg := set_entity (NewMsg kv_get (tableOid key) kv_status_none (MyProcPid c)) (tableOid key)
               (Some serialized_key) (zlen serialized_key) in
  r ← client_call others req_chan resp_chan msg;
  match r with
  | None => mret None
  | Some resp =>
      if resp_success resp kv_get then
        match resp with
        | Some resp =>
            val_out ← lift (tvalue_deserialize (entity_ptr resp) (entitySize (header resp)));
            mret (Some val_out)
        | None => mret None
        end
      else _ ← lift (PrintKVMsg resp); lift (Raise "[NRAM] Rocks GET failed")
  end.

(** The rows of a range response. *)
Fixpoint parse_rows (n : nat) (ptr : list Z) : outcome (list (NRAMKeyData * NRAMValueData)) :=
  match n with
  | O => Ok []
  | S n =>
      '(klen, ptr) ← rd_u64 ptr;
      key ← tkey_deserialize ptr klen;
      '(_, ptr) ← ptr_read klen ptr;
      '(vlen, ptr) ← rd_u64 ptr;
      value ← tvalue_deserialize ptr vlen;
      '(_, ptr) ← ptr_read vlen ptr;
      rows ← parse_rows n ptr;
      Ok ((key, value) :: rows)
  end.

Definition parse_range (ptr : list Z) : outcome (list (NRAMKeyData * NRAMValueData)) :=
  '(out_count, ptr) ← rd_u32 ptr;
  if MaxAllocSize <? SIZEOF_POINTER * out_count then Raise "invalid memory alloc request size"
  else parse_rows (Z.to_nat out_count) ptr.

Definition RocksClientRangeScan (others : world → world) (start_key end_key : NRAMKeyData)
    : P cstate (option (list (NRAMKeyData * NRAMValueData))) :=
  req_chan ← GetServerChannel;
  resp_chan ← GetRespChannel;
  c ← get_client;
  let serialized_start := tkey_serialize start_key in
  let serialized_end := tkey_serialize end_key in
  let entity := le_bytes 8 (zlen serialized_start) ++ serialized_start
                  ++ le_bytes 8 (zlen serialized_end) ++ serialized_end in
  let msg := set_entity (NewMsg kv_range (tableOid start_key) kv_status_none (MyProcPid c))
               (tableOid start_key) (Some entity) (zlen entity) in
  r ← client_call others req_chan resp_chan msg;
  match r with
  | None => mret None
  | Some resp =>
      if resp_success resp kv_range then
        match resp with
        | Some resp => rows ← lift (parse_range (entity_ptr resp)); mret (Some rows)
        | None => mret None
        end
      else mret None
  end.
End service.

(** ** A request and its response *)

(** A channel of the world that runs and holds the messages [ms]. *)
Definition channel_holds `{R : RocksDB} (w : world) (name : string) (ms : list KVMsg) : Prop :=
  ∃ s, shm w !! name = Some s ∧ chan_msgs s ms ∧ is_running s ≠ 0.

Lemma resp_name_inj c1 c2 : 0 ≤ c1 → 0 ≤ c2 → resp_name c1 = resp_name c2 → c1 = c2.
Proof.
  unfold resp_name. intros _ _ E. apply (inj (String.app "kv_resp_")) in E. by apply (inj pretty) in E.
Qed.

Lemma resp_name_server c : resp_name c ≠ ROCKSDB_CHANNEL.
Proof. intros E. apply (f_equal (String.get 0)) in E. discriminate E. Qed.

Section channels.
Context `{R : RocksDB}.

Lemma chan_push_holds w name m m' :
  channel_holds w name [] → delivered m m' →
  ∃ w', chan_push name m (-1) w = (Done true, w') ∧ channel_holds w' name [m'] ∧
    w' = with_shm w (shm w') ∧ ∀ name', name' ≠ name → shm w' !! name' = shm w !! name'.
Proof.
  intros (s & Hs & Hm & Hr) Hd. pose proof Hm as (Hi & _ & Hc).
  pose proof Hd as (_ & _ & Hok). pose proof Hok as (_ & Hsz & _).
  assert (used s = 0) as Hu by (rewrite <- (zlen_contents s Hi), Hc; done).
  destruct (push_delivered s m m' [] (-1) 0 [] Hm Hr Hd) as (s' & Hp & Hm' & Hr' & _).
  { rewrite Hu. unfold MSG_SIZE, KV_CHANNEL_BUFSIZE in *. lia. }
  unfold chan_push. rewrite Hs, Hp. eexists. split; [done|]. cbn. split_and!.
  - exists s'. cbn. rewrite lookup_insert_eq. split; [done|]. split; [done|]. by rewrite Hr'.
  - done.
  - intros name' Hne. by rewrite lookup_insert_ne.
Qed.

Lemma chan_pop_holds w name m timeout_ms wakes :
  channel_holds w name [m] →
  ∃ w', chan_pop name timeout_ms wakes w = (Done (Some m), w') ∧ channel_holds w' name [] ∧
    w' = with_shm w (shm w') ∧ ∀ name', name' ≠ name → shm w' !! name' = shm w !! name'.
Proof.
  intros (s & Hs & Hm & Hr). destruct (popmsg_try_spec s m [] Hm) as (s' & Ht & Hm' & Hr' & _).
  unfold chan_pop, KVChannelPopMsg. rewrite Hs.
  rewrite (blocking_loop_hit _ _ _ _ _ _ _ _ Hr Ht). eexists. split; [done|]. cbn. split_and!.
  - exists s'. cbn. rewrite lookup_insert_eq. split; [done|]. split; [done|]. by rewrite Hr'.
  - done.
  - intros name' Hne. by rewrite lookup_insert_ne.
Qed.

Lemma channel_holds_ext w w' name ms :
  shm w' !! name = shm w !! name → channel_holds w name ms → channel_holds w' name ms.
Proof. intros E (s & Hs & Hr). exists s. by rewrite E. Qed.

Lemma chan_init_open w name ms :
  channel_holds w name ms → chan_init name false w = (Done name, w).
Proof.
  intros (s & Hs & _). unfold chan_init, KVChannelInit. rewrite Hs. cbn. by destruct w.
Qed.

Lemma chan_init_create w name :
  ∃ w', chan_init name true w = (Done name, w') ∧ channel_holds w' name [] ∧
    w' = with_shm w (shm w') ∧ ∀ name', name' ≠ name → shm w' !! name' = shm w !! name'.
Proof.
  unfold chan_init, KVChannelInit. destruct (shm w !! name) eqn:E; cbn.
  - eexists. split; [done|]. split_and!; [|done|intros; cbn; by rewrite lookup_insert_ne].
    exists fresh_shared. cbn. rewrite lookup_insert_eq. by split; [|split; [exact chan_msgs_fresh|]].
  - eexists. split; [done|]. split_and!; [|done|intros; cbn; by rewrite !lookup_insert_ne].
    exists fresh_shared. cbn. rewrite lookup_insert_eq. by split; [|split; [exact chan_msgs_fresh|]].
Qed.
End channels.

Section turn.
Context {R : RocksDB} (slack : list Z) (range_fuel : rocksdb_t → nat).

(** The service waits for a request: its channel and its response queue are
    empty and the engine is open. *)
Definition service_ready (w : world) (db : rocksdb_t) : Prop :=
  channel_holds w ROCKSDB_CHANNEL [] ∧ shared_engine w = Some db ∧
  ResultQueue.pending (result_queue w) [].

Lemma push_result_spec w r :
  ResultQueue.pending (result_queue w) [] → is_ok (PrintKVMsg (Some r)) = true →
  ∃ q, push_result r w = (Done tt, with_results w q) ∧ ResultQueue.pending q [r].
Proof.
  intros Hq Hp. unfold push_result.
  destruct (ResultQueue.ResultQueuePush_spec r _ _ Hq) as (q & -> & Hq'). exists q. split; [|done].
  destruct Hq' as [Hq' Hs]. unfold PrintResultQueue. rewrite Hs, (queue_walk_spec _ _ Hq').
  cbn [app print_msgs]. by destruct (PrintKVMsg (Some r)).
Qed.

Lemma ResultQueueClear_one w r r' :
  ResultQueue.pending (result_queue w) [r] →
  channel_holds w (resp_name (respChannel (header r))) [] → delivered r r' →
  ∃ w', ResultQueueClear w = (Done tt, w') ∧
    channel_holds w' (resp_name (respChannel (header r))) [r'] ∧
    ResultQueue.pending (result_queue w') [] ∧ shared_engine w' = shared_engine w ∧
    ∀ name', name' ≠ resp_name (respChannel (header r)) → shm w' !! name' = shm w !! name'.
Proof.
  intros Hq Hc Hd. unfold ResultQueueClear. rewrite (is_queue_size _ _ (proj1 Hq)).
  cbn [length clear_loop]. rewrite (ResultQueue.ResultQueueIsEmpty_spec _ _ Hq).
  destruct (ResultQueue.ResultQueuePop_spec _ _ _ Hq) as (q & Hpop & Hq').
  p_step ltac:(unfold pop_result; by rewrite Hpop).
  assert (channel_holds (with_results w q) (resp_name (respChannel (header r))) []) as Hc' by exact Hc.
  p_step ltac:(by eapply chan_init_open).
  destruct (chan_push_holds _ _ r r' Hc' Hd) as (w' & Hp & Hh & Hw & Ho).
  p_step ltac:(exact Hp).
  assert (result_queue w' = q ∧ shared_engine w' = shared_engine w) as [Eq Ee] by (by rewrite Hw).
  rewrite (ResultQueue.ResultQueueIsEmpty_spec _ []) by by rewrite Eq.
  exists w'. rewrite Eq. done.
Qed.

(** One turn of the service on one request that is answered. *)
Lemma service_turn_responds w db db' m r r' wakes :
  channel_holds w ROCKSDB_CHANNEL [m] → shared_engine w = Some db →
  ResultQueue.pending (result_queue w) [] → op (header m) ≠ KVOp_code kv_close →
  (∀ w, shared_engine w = Some db →
     dispatch slack range_fuel m w = (Done (Some r), with_engine w (Some db'))) →
  is_ok (PrintKVMsg (Some r)) = true → delivered r r' →
  channel_holds w (resp_name (respChannel (header r))) [] →
  ∃ w', service_turn slack range_fuel wakes w = (Done true, w') ∧
    service_ready w' db' ∧
    channel_holds w' (resp_name (respChannel (header r))) [r'].
Proof.
  intros Hm He Hq Hop Hdisp Hprint Hd Hr. unfold service_turn.
  pose proof (resp_name_server (respChannel (header r))) as Hne.
  destruct (chan_pop_holds _ _ _ ROCKSDB_CHANNEL_DEFAULT_TIMEOUT wakes Hm)
    as (w1 & Hp & Hm1 & Hw1 & Ho1).
  p_step ltac:(exact Hp). destruct (Z.eqb_spec (op (header m)) (KVOp_code kv_close)); [done|].
  assert (result_queue w1 = result_queue w ∧ shared_engine w1 = Some db) as [Eq1 Ee1]
    by (by rewrite Hw1).
  unfold process_request. set (w2 := with_engine w1 (Some db')).
  destruct (push_result_spec w2 r) as (q & Hpush & Hq'); [by cbn; rewrite Eq1|done|].
  set (w3 := with_results w2 q) in *.
  assert (channel_holds w3 (resp_name (respChannel (header r))) []) as Hr3.
  { eapply channel_holds_ext; [|exact Hr]. cbn. by apply Ho1. }
  destruct (ResultQueueClear_one w3 r r' Hq' Hr3 Hd) as (w4 & Hclear & Hr4 & Hq4 & He4 & Ho4).
  exists w4. split_and!; [|split_and!|done].
  - p_step ltac:(p_step ltac:(by apply Hdisp); exact Hpush). by p_step ltac:(exact Hclear).
  - eapply channel_holds_ext; [|exact Hm1]. rewrite Ho4 by done. done.
  - done.
  - done.
Qed.
End turn.

(** ** Backend and service together *)

Section calls.
Context {R : RocksDB} {L : RocksDBLaws R} (slack : list Z) (range_fuel : rocksdb_t → nat).

(** While the backend waits, the service takes one turn. *)
Definition service_runs (wakes : list wake) (w : world) : world :=
  (service_turn slack range_fuel wakes w).2.

(** A backend between two calls: its response channel, once created, is empty. *)
Definition client_ready (w : world) (c : client) : Prop :=
  0 ≤ MyProcPid c < 2 ^ 31 ∧
  (ServerChannel c = None ∨ ServerChannel c = Some ROCKSDB_CHANNEL) ∧
  (RespChannel c = None ∨
   RespChannel c = Some (resp_name (MyProcPid c)) ∧
   channel_holds w (resp_name (MyProcPid c)) []).

Definition opened (c : client) : client :=
  mkClient (MyProcPid c) (Some (resp_name (MyProcPid c))) (Some ROCKSDB_CHANNEL).

Lemma GetServerChannel_spec w c db :
  service_ready w db → client_ready w c →
  GetServerChannel (w, c) =
    (Done ROCKSDB_CHANNEL, (w, mkClient (MyProcPid c) (RespChannel c) (Some ROCKSDB_CHANNEL))).
Proof.
  intros (Hs & _) (_ & Hsrv & _). destruct c as [pid resp srv]. cbn in Hsrv.
  unfold GetServerChannel. p_step ltac:(done). cbn [ServerChannel].
  destruct Hsrv as [->| ->]; [|done].
  p_step ltac:(unfold on_world; by rewrite (chan_init_open _ _ _ Hs)). done.
Qed.

Lemma GetRespChannel_spec w c db srv :
  service_ready w db → client_ready w c →
  ∃ w', GetRespChannel (w, mkClient (MyProcPid c) (RespChannel c) srv) =
          (Done (resp_name (MyProcPid c)),
           (w', mkClient (MyProcPid c) (Some (resp_name (MyProcPid c))) srv)) ∧
    service_ready w' db ∧ channel_holds w' (resp_name (MyProcPid c)) [].
Proof.
  intros Hs (_ & _ & Hr). unfold GetRespChannel. p_step ltac:(done). cbn [RespChannel MyProcPid].
  destruct Hr as [->|[-> Hr]]; [|by exists w].
  destruct (chan_init_create w (resp_name (MyProcPid c))) as (w' & Hi & Hh & Hw & Ho).
  exists w'. split; [|split; [|done]].
  - p_step ltac:(unfold on_world; by rewrite Hi). done.
  - destruct Hs as (Hs & He & Hq). split; [|by rewrite Hw].
    eapply channel_holds_ext; [|exact Hs]. apply Ho. apply not_eq_sym, resp_name_server.
Qed.

(** A request that the service answers with [r'], as the backend sees it. *)
Lemma client_call_spec w db db' c m r r' wakes :
  service_ready w db → channel_holds w (resp_name (respChannel (header r))) [] →
  msg_ok m → op (header m) ≠ KVOp_code kv_close →
  (∀ w, shared_engine w = Some db →
     dispatch slack range_fuel m w = (Done (Some r), with_engine w (Some db'))) →
  is_ok (PrintKVMsg (Some r)) = true → delivered r r' →
  ∃ w', client_call (service_runs wakes) ROCKSDB_CHANNEL (resp_name (respChannel (header r))) m (w, c)
          = (Done (Some (Some r')), (w', c)) ∧
    service_ready w' db' ∧ channel_holds w' (resp_name (respChannel (header r))) [].
Proof.
  intros (Hs & He & Hq) Hr Hm Hop Hdisp Hprint Hd. unfold client_call.
  pose proof (resp_name_server (respChannel (header r))) as Hne.
  destruct (chan_push_holds _ _ m m Hs (delivered_refl m Hm)) as (w1 & Hp & Hs1 & Hw1 & Ho1).
  p_step ltac:(unfold on_world; by rewrite Hp). cbn [negb].
  destruct (service_turn_responds slack range_fuel w1 db db' m r r' wakes) as (w2 & Ht & Hs2 & Hr2);
    [done|by rewrite Hw1|by rewrite Hw1|done|done|done|done| |].
  { eapply channel_holds_ext; [|exact Hr]. by apply Ho1. }
  p_step ltac:(unfold run_others; done).
  unfold service_runs at 1. rewrite Ht. cbn [snd].
  destruct (chan_pop_holds w2 _ r' (-1) [] Hr2) as (w3 & Hpop & Hr3 & Hw3 & Ho3).
  p_step ltac:(unfold on_world; by rewrite Hpop). exists w3. split; [done|]. split; [|done].
  destruct Hs2 as (Hs2 & He2 & Hq2). split; [|by rewrite Hw3].
  eapply channel_holds_ext; [|exact Hs2]. by apply Ho3.
Qed.

(** *** Requests on the engine *)

Lemma engine_do_ok {A} (m : M rocksdb_t A) w db a db' :
  shared_engine w = Some db → m db = (Ok a, db') →
  engine_do m w = (Done a, with_engine w (Some db')).
Proof. intros He Hm. unfold engine_do. rewrite He. cbn. by rewrite Hm. Qed.

Lemma rocksengine_put_run k v bs db db' :
  tvalue_serialize v = Ok bs → rocksdb_put db (tkey_serialize k) bs = (None, db') →
  rocksengine_put k v db = (Ok tt, db').
Proof.
  intros Hs Hp. unfold rocksengine_put.
  erewrite M_bind_ok by (unfold lift_out; by rewrite Hs). unfold write_result. by rewrite Hp.
Qed.

Hypothesis (Hslack : 2 ≤ zlen slack).

(** The request of a put. *)
Definition put_request (pid : Z) (k : NRAMKeyData) (bs : list Z) : KVMsg :=
  let entity := le_bytes 8 (zlen (tkey_serialize k)) ++ tkey_serialize k ++ bs in
  set_entity (NewMsg kv_put (tableOid k) kv_status_none pid) (tableOid k) (Some entity) (zlen entity).

Definition put_response (pid : Z) (k : NRAMKeyData) : KVMsg :=
  set_entity (NewMsg kv_put (tableOid k) kv_status_ok pid) (tableOid k) None 0.

Lemma put_dispatch pid k v bs db db' w :
  in_u32 pid → key_ok k → value_ok v → tvalue_serialize v = Ok bs →
  SIZEOF_HEADER + (8 + TKEY_LEN + zlen bs) ≤ MSG_SIZE →
  rocksdb_put db (tkey_serialize k) bs = (None, db') → shared_engine w = Some db →
  dispatch slack range_fuel (put_request pid k bs) w =
    (Done (Some (put_response pid k)), with_engine w (Some db')).
Proof using Hslack.
  intros Hpid Hk Hv Hs Hfit Hp He. unfold SIZEOF_HEADER, TKEY_LEN, MSG_SIZE in Hfit.
  assert (zlen (le_bytes 8 (zlen (tkey_serialize k)) ++ tkey_serialize k ++ bs) = 20 + zlen bs) as Hlen.
  { autorewrite with zlen. unfold TKEY_LEN. lia. }
  pose proof (zlen_nonneg bs).
  unfold dispatch. change (op (header (put_request pid k bs))) with 4.
  change (4 =? KVOp_code kv_get) with false. change (4 =? KVOp_code kv_put) with true. cbv iota.
  unfold handle_kv_put.
  change (entitySize (header (put_request pid k bs)))
    with (zlen (le_bytes 8 (zlen (tkey_serialize k)) ++ tkey_serialize k ++ bs)).
  rewrite Hlen. replace (20 + zlen bs <? 8) with false by lia.
  change (entity_ptr slack (put_request pid k bs))
    with ((le_bytes 8 (zlen (tkey_serialize k)) ++ tkey_serialize k ++ bs) ++ slack).
  rewrite <- !app_assoc. rewrite zlen_tkey_serialize. unfold TKEY_LEN.
  erewrite lift_ok by (apply rd_u64_le; zsolve). cbv beta iota zeta.
  rewrite u64_id by zsolve. replace (20 + zlen bs <? 8 + 12) with false by lia.
  erewrite lift_ok by by apply tkey_deserialize_serialize.
  erewrite lift_ok by (apply ptr_read_app; apply zlen_tkey_serialize). cbv beta iota zeta.
  replace (20 + zlen bs - 12 - 8) with (zlen bs) by lia. rewrite u64_id by zsolve.
  destruct (tvalue_deserialize_ok v bs slack Hv Hs Hslack) as (v' & Hd & Heq & _).
  erewrite lift_ok by exact Hd.
  p_step ltac:(eapply engine_do_ok; [exact He|]; eapply rocksengine_put_run;
    [rewrite (tvalue_serialize_equiv _ _ Heq); exact Hs|exact Hp]).
  unfold put_response, put_request, NewMsg, set_entity; cbn [header respChannel relId].
  do 6 f_equal. by rewrite (u32_id (u32 pid)) by apply u32_range.
Qed.

(** The headers of requests and responses are well-formed. *)
Lemma set_entity_ok o k st pid e :
  in_u32 pid → key_ok k → SIZEOF_HEADER + zlen e ≤ MSG_SIZE →
  msg_ok (set_entity (NewMsg o (tableOid k) st pid) (tableOid k) (Some e) (zlen e)).
Proof.
  intros Hpid [Hk _] Hsz. pose proof (zlen_nonneg e). unfold SIZEOF_HEADER, MSG_SIZE in Hsz.
  split; [|split]; cbn; [|unfold SIZEOF_HEADER, MSG_SIZE; lia|done].
  split_and!; cbn; [by destruct o|done|by destruct st|apply u32_range|zsolve].
Qed.

Lemma print_known m e o :
  op_str (op (header m)) = Some o → entity m = Some e → zlen e = entitySize (header m) →
  is_ok (PrintKVMsg (Some m)) = true.
Proof.
  intros Ho Hent He. unfold PrintKVMsg. rewrite Ho, Hent. pose proof (zlen_nonneg e).
  destruct (Z.ltb_spec 0 (entitySize (header m))); [|done].
  unfold ptr_read. replace (_ <? 0) with false by lia.
  replace (zlen e <? _) with false by lia. done.
Qed.

(** The backend's state after a call. *)
Lemma client_ready_opened w c :
  0 ≤ MyProcPid c < 2 ^ 31 → channel_holds w (resp_name (MyProcPid c)) [] →
  client_ready w (opened c).
Proof. intros Hpid Hr. split; [done|]. split; [by right|]. right. by split. Qed.

(** The two channel look-ups every call starts with. *)
Ltac client_open Hs Hc :=
  p_step ltac:(by eapply GetServerChannel_spec);
  let w1 := fresh "w1" in
  destruct (GetRespChannel_spec _ _ _ (Some ROCKSDB_CHANNEL) Hs Hc) as (w1 & Hgr & Hs1 & Hr1);
  p_step ltac:(exact Hgr); p_step ltac:(done); cbn [MyProcPid]; clear Hgr.

Lemma pid_u32 pid : 0 ≤ pid < 2 ^ 31 → in_u32 pid ∧ u32 pid = pid.
Proof. intros. assert (in_u32 pid) by zsolve. by rewrite u32_id. Qed.

(** C7. A put of a backend reaches the engine: with the service running and a
    row that fits a message, [RocksClientPut] returns true, the database holds
    the row and no other row changed, and service and backend are ready for the
    next call. *)
Theorem RocksClientPut_stores w db db' c k v bs wakes :
  service_ready w db → client_ready w c → key_ok k → value_ok v →
  tvalue_serialize v = Ok bs → SIZEOF_HEADER + (8 + TKEY_LEN + zlen bs) ≤ MSG_SIZE →
  rocksdb_put db (tkey_serialize k) bs = (None, db') →
  ∃ w', RocksClientPut (service_runs wakes) k v (w, c) = (Done true, (w', opened c)) ∧
    service_ready w' db' ∧ client_ready w' (opened c) ∧ row_at db' k v ∧
    ∀ k' v', key_ok k' → k' ≠ k → row_at db' k' v' ↔ row_at db k' v'.
Proof using L Hslack.
  intros Hs Hc Hk Hv Hbs Hfit Hp. pose proof (proj1 Hc) as Hpid.
  destruct (pid_u32 _ Hpid) as [Hpid32 Hpide]. unfold RocksClientPut.
  client_open Hs Hc.
  erewrite lift_ok by exact Hbs.
  change (set_entity _ _ _ _) with (put_request (MyProcPid c) k bs).
  set (r := put_response (MyProcPid c) k).
  set (r' := mkMsg (header r) (Some [])).
  assert (delivered r r') as Hd.
  { apply delivered_no_entity; [|done]. destruct Hk as [Hk _].
    split_and!; cbn; [done|done|done|apply u32_range|done]. }
  assert (respChannel (header r) = MyProcPid c) as Hch by exact Hpide.
  assert (msg_ok (put_request (MyProcPid c) k bs)) as Hreq.
  { apply set_entity_ok; [done|done|]. autorewrite with zlen. lia. }
  destruct (client_call_spec w1 db db' (opened c) (put_request (MyProcPid c) k bs) r r' wakes)
    as (w' & Hcall & Hs' & Hr'); [done|by rewrite Hch|done|done| |done|done|].
  { intros w0 He. by eapply put_dispatch. }
  rewrite Hch in Hcall, Hr'. p_step ltac:(exact Hcall).
  destruct (rocksengine_put_rows k v db db' Hk Hv) as (Hrow & Hother & _).
  { by eapply rocksengine_put_run. }
  exists w'. split_and!; [done|done|by apply client_ready_opened|done|done].
Qed.

Lemma get_dispatch pid k v bs w db e :
  in_u32 pid → key_ok k → row_at db k v → tvalue_serialize v = Ok bs →
  (∀ e, rocksdb_get db (tkey_serialize k) ≠ inl e) → shared_engine w = Some db →
  e = tkey_serialize k →
  dispatch slack range_fuel
    (set_entity (NewMsg kv_get (tableOid k) kv_status_none pid) (tableOid k) (Some e) (zlen e)) w =
    (Done (Some (set_entity (NewMsg kv_get (tableOid k) kv_status_ok pid) (tableOid k)
                   (Some bs) (zlen bs))), with_engine w (Some db)).
Proof using L Hslack.
  intros Hpid Hk Hrow Hs Hno He ->. unfold dispatch; cbn [op header set_entity NewMsg].
  rewrite Z.eqb_refl. unfold handle_kv_get.
  cbn [entity_ptr entity set_entity header entitySize]. rewrite zlen_tkey_serialize.
  destruct (rocksengine_get_row slack Hslack db k v Hrow Hno) as (v' & Hg & Heq & _).
  p_step ltac:(erewrite lift_ok by (by apply tkey_deserialize_serialize);
    p_step ltac:(by eapply engine_do_ok);
    erewrite lift_ok by (by rewrite (tvalue_serialize_equiv _ _ Heq)); done).
  unfold set_entity, NewMsg; cbn [op header status respChannel].
  rewrite (u32_id (u32 pid)) by apply u32_range. done.
Qed.

(** C8. A get of a backend reads what the engine holds: for a stored row whose
    value fits a message, [RocksClientGet] returns a value equal to it up to
    the bytes behind its fields, and the database is unchanged. *)
Theorem RocksClientGet_fetches w db c k v bs wakes :
  service_ready w db → client_ready w c → key_ok k → row_at db k v →
  tvalue_serialize v = Ok bs → SIZEOF_HEADER + zlen bs ≤ MSG_SIZE →
  (∀ e, rocksdb_get db (tkey_serialize k) ≠ inl e) →
  ∃ w' v', RocksClientGet slack (service_runs wakes) k (w, c) = (Done (Some v'), (w', opened c)) ∧
    v' ≡ v ∧ service_ready w' db ∧ client_ready w' (opened c).
Proof using L Hslack.
  intros Hs Hc Hk Hrow Hbs Hfit Hno. pose proof (proj1 Hc) as Hpid.
  destruct (pid_u32 _ Hpid) as [Hpid32 Hpide]. unfold RocksClientGet.
  client_open Hs Hc.
  set (m := set_entity _ _ _ _).
  set (r := set_entity (NewMsg kv_get (tableOid k) kv_status_ok (MyProcPid c)) (tableOid k)
              (Some bs) (zlen bs)).
  assert (respChannel (header r) = MyProcPid c) as Hch by exact Hpide.
  assert (msg_ok r) as Hr by by apply set_entity_ok.
  assert (msg_ok m) as Hm.
  { apply set_entity_ok; [done|done|]. by rewrite zlen_tkey_serialize. }
  destruct (client_call_spec w1 db db (opened c) m r r wakes) as (w' & Hcall & Hs' & Hr');
    [done|by rewrite Hch|done|done| |by eapply print_known|by apply delivered_refl|].
  { intros w0 He. by eapply get_dispatch. }
  rewrite Hch in Hcall, Hr'. p_step ltac:(exact Hcall).
  destruct (tvalue_deserialize_ok v bs slack (proj1 Hrow) Hbs Hslack) as (v' & Hd & Heq & _).
  exists w', v'. split_and!; [|done|done|by apply client_ready_opened].
  cbn [resp_success header r set_entity NewMsg status op]. rewrite !Z.eqb_refl. cbn [andb].
  by erewrite lift_ok by exact Hd.
Qed.

(** *** Range scans *)

Definition rows_ok (rows : list (NRAMKeyData * NRAMValueData)) : Prop :=
  Forall (λ row, key_ok row.1 ∧ value_ok row.2) rows.

(** The same rows, with values equal up to the bytes behind their fields. *)
Definition rows_equiv (rows rows' : list (NRAMKeyData * NRAMValueData)) : Prop :=
  Forall2 (λ a b, b.1 = a.1 ∧ b.2 ≡ a.2) rows rows'.

Lemma tvalue_serialize_total v :
  value_ok v → ∃ bs, tvalue_serialize v = Ok bs ∧ zlen bs ≤ MaxAllocSize.
Proof.
  intros (_ & _ & _ & fs & Hfs & Hsz). rewrite tvalue_serialize_fields, Hfs. eexists.
  split; [done|]. autorewrite with zlen. lia.
Qed.

Lemma parse_rows_spec rows :
  rows_ok rows →
  ∃ body, rows_bytes rows = Ok body ∧
    ∃ rows', parse_rows (length rows) (body ++ slack) = Ok rows' ∧ rows_equiv rows rows'.
Proof using Hslack.
  induction 1 as [|[k v] rows [Hk Hv] _ (body & Hb & rows' & Hp & He)].
  { exists []. split; [done|]. exists []. split; [done|]. constructor. }
  cbn in Hk, Hv.
  destruct (tvalue_serialize_total v Hv) as (vb & Hvb & Hsz).
  cbn [rows_bytes]. unfold row_bytes; cbn [fst snd]. rewrite Hvb, Hb. cbn [mbind outcome_bind].
  eexists. split; [done|]. cbn [length parse_rows]. pose proof (zlen_nonneg vb).
  unfold MaxAllocSize in Hsz. rewrite zlen_tkey_serialize. unfold TKEY_LEN. do 1 step_read.
  rewrite (tkey_deserialize_serialize k) by done. cbn [mbind outcome_bind].
  rewrite (ptr_read_app 12) by apply zlen_tkey_serialize. cbn [mbind outcome_bind]. step_read.
  destruct (tvalue_deserialize_ok v vb (body ++ slack) Hv Hvb) as (v' & Hd & Heq & _).
  { pose proof (zlen_nonneg body). zsolve. }
  rewrite Hd. cbn [mbind outcome_bind]. step_read. rewrite Hp. cbn.
  eexists. split; [done|]. constructor; [done|done].
Qed.

Lemma rows_bytes_count rows body : rows_bytes rows = Ok body → 28 * zlen rows ≤ zlen body.
Proof.
  revert body. induction rows as [|row rows IH]; intros body H; cbn [rows_bytes] in H.
  { by injection H as <-. }
  unfold row_bytes in H. destruct (tvalue_serialize row.2) as [vb| |]; [|done..].
  destruct (rows_bytes rows) as [bs| |]; [|done..]. cbn in H. injection H as <-.
  specialize (IH bs eq_refl). pose proof (zlen_nonneg vb). autorewrite with zlen.
  unfold TKEY_LEN. lia.
Qed.

Lemma scan_result_equiv db start_key end_key rows rows' :
  rows_equiv rows rows' → scan_result db start_key end_key rows →
  scan_result db start_key end_key rows'.
Proof.
  intros He (Hs & Hsound & Hcomplete).
  assert (rows'.*1 = rows.*1) as Hk.
  { clear -He. induction He as [|a b ? ? [Hab _] _ IH]; cbn; [done|]. by rewrite Hab, IH. }
  split; [by rewrite Hk|]. split.
  - intros k w' [i Hi]%list_elem_of_lookup.
    destruct (Forall2_lookup_r _ _ _ _ _ He Hi) as ([k0 w0] & Hi0 & Hk0 & Hw0). cbn in *. subst k0.
    destruct (Hsound k w0) as (? & ? & v & ? & Hv); [by eapply list_elem_of_lookup_2|].
    split_and!; [done|done|]. exists v. split; [done|]. by rewrite Hw0.
  - intros k v Hk' Hrow Hr. destruct (Hcomplete k v Hk' Hrow Hr) as (w0 & [i Hi]%list_elem_of_lookup & Hw).
    destruct (Forall2_lookup_l _ _ _ _ _ He Hi) as ([k1 w1] & Hi1 & Hk1 & Hw1). cbn in *. subst k1.
    exists w1. split; [by eapply list_elem_of_lookup_2|]. by rewrite Hw1.
Qed.

Lemma scan_result_rows_ok db start_key end_key rows :
  scan_result db start_key end_key rows → rows_ok rows.
Proof.
  intros (_ & Hsound & _). apply Forall_forall. intros [k w] Hin. cbn.
  destruct (Hsound k w Hin) as (Hk & _ & v & [Hv _] & Heq). split; [done|]. by rewrite Heq.
Qed.

Definition range_request (pid : Z) (start_key end_key : NRAMKeyData) : KVMsg :=
  let entity := le_bytes 8 (zlen (tkey_serialize start_key)) ++ tkey_serialize start_key
                  ++ le_bytes 8 (zlen (tkey_serialize end_key)) ++ tkey_serialize end_key in
  set_entity (NewMsg kv_range (tableOid start_key) kv_status_none pid) (tableOid start_key)
    (Some entity) (zlen entity).

Definition range_entity (rows : list (NRAMKeyData * NRAMValueData)) (body : list Z) : list Z :=
  le_bytes 4 (zlen rows) ++ body.

Definition range_response (pid : Z) (start_key : NRAMKeyData)
    (rows : list (NRAMKeyData * NRAMValueData)) (body : list Z) : KVMsg :=
  set_entity (NewMsg kv_range (tableOid start_key) kv_status_ok pid) (tableOid start_key)
    (Some (range_entity rows body)) (zlen (range_entity rows body)).

Lemma range_dispatch pid start_key end_key rows body db w :
  in_u32 pid → key_ok start_key → key_ok end_key →
  rocksengine_range_scan slack (range_fuel db) start_key end_key db = Some (Ok rows) →
  rows_bytes rows = Ok body → zlen (range_entity rows body) ≤ MaxAllocSize →
  shared_engine w = Some db →
  dispatch slack range_fuel (range_request pid start_key end_key) w =
    (Done (Some (range_response pid start_key rows body)), with_engine w (Some db)).
Proof using Hslack.
  intros Hpid Hs He Hscan Hbody Hsz Heng.
  unfold dispatch. change (op (header (range_request pid start_key end_key))) with 12.
  change (12 =? KVOp_code kv_get) with false. change (12 =? KVOp_code kv_put) with false.
  change (12 =? KVOp_code kv_range) with true. cbv iota.
  assert (handle_kv_range_scan slack range_fuel (range_request pid start_key end_key) w =
    (Done (range_response pid start_key rows body), with_engine w (Some db))) as Hh.
  { unfold handle_kv_range_scan, range_request.
    cbn [entity_ptr entity set_entity header respChannel NewMsg].
    rewrite !zlen_tkey_serialize, <- !app_assoc. unfold TKEY_LEN.
    erewrite lift_ok by (apply rd_u64_le; done). cbv beta iota zeta.
    erewrite lift_ok by by apply tkey_deserialize_serialize.
    erewrite lift_ok by (apply ptr_read_app; apply zlen_tkey_serialize). cbv beta iota zeta.
    erewrite lift_ok by (apply rd_u64_le; done). cbv beta iota zeta.
    erewrite lift_ok by by apply tkey_deserialize_serialize.
    p_step ltac:(eapply engine_do_ok; [exact Heng|]; unfold engine_range_scan; by rewrite Hscan).
    erewrite lift_ok by exact Hbody. cbv zeta beta.
    fold (range_entity rows body). replace (MaxAllocSize <? _) with false by lia.
    unfold range_response, set_entity, NewMsg; cbn [op header status respChannel].
    rewrite (u32_id (u32 pid)) by apply u32_range. done. }
  p_step ltac:(exact Hh). done.
Qed.

(** A range scan of a backend: when the rows of the range fit a message,
    [RocksClientRangeScan] returns exactly the rows of [start, end) in byte
    order. *)
Theorem RocksClientRangeScan_fetches w db c start_key end_key wakes :
  service_ready w db → client_ready w c → key_ok start_key → key_ok end_key →
  scannable (range_fuel db) db →
  ∃ rows body,
    rocksengine_range_scan slack (range_fuel db) start_key end_key db = Some (Ok rows) ∧
    rows_bytes rows = Ok body ∧
    (SIZEOF_HEADER + zlen (range_entity rows body) ≤ MSG_SIZE →
     ∃ w' rows', RocksClientRangeScan slack (service_runs wakes) start_key end_key (w, c)
                   = (Done (Some rows'), (w', opened c)) ∧
       scan_result db start_key end_key rows' ∧
       service_ready w' db ∧ client_ready w' (opened c)).
Proof using L Hslack.
  intros Hs Hc Hks Hke Hdb. pose proof (proj1 Hc) as Hpid.
  destruct (pid_u32 _ Hpid) as [Hpid32 Hpide].
  destruct (range_scan_rows slack start_key end_key (range_fuel db) db Hslack Hdb) as (rows & Hscan & Hres).
  destruct (parse_rows_spec rows (scan_result_rows_ok _ _ _ _ Hres)) as (body & Hbody & rows' & Hparse & Heq).
  exists rows, body. split; [done|]. split; [done|]. intros Hfit. unfold RocksClientRangeScan.
  client_open Hs Hc. set (m := set_entity _ _ _ _).
  set (r := range_response (MyProcPid c) start_key rows body).
  assert (respChannel (header r) = MyProcPid c) as Hch by exact Hpide.
  assert (msg_ok r) as Hr by by apply set_entity_ok.
  assert (msg_ok m) as Hm.
  { apply set_entity_ok; [done|done|]. autorewrite with zlen. done. }
  unfold SIZEOF_HEADER, MSG_SIZE in Hfit.
  destruct (client_call_spec w1 db db (opened c) m r r wakes) as (w' & Hcall & Hs' & Hr');
    [done|by rewrite Hch|done|done| |by eapply print_known|by apply delivered_refl|].
  { intros w0 He. apply (range_dispatch (MyProcPid c) start_key end_key); try done. unfold MaxAllocSize. lia. }
  rewrite Hch in Hcall, Hr'. p_step ltac:(exact Hcall).
  exists w', rows'. split_and!; [|by eapply scan_result_equiv|done|by apply client_ready_opened].
  cbn [resp_success header r range_response set_entity NewMsg status op].
  rewrite !Z.eqb_refl. cbn [andb].
  pose proof (zlen_nonneg rows). pose proof (zlen_nonneg body).
  assert (28 * zlen rows ≤ zlen body) as Hcount by by eapply rows_bytes_count.
  unfold range_entity in Hfit. rewrite zlen_app, zlen_le_bytes in Hfit by lia.
  erewrite lift_ok; [done|]. unfold parse_range.
  change (entity_ptr slack r) with ((le_bytes 4 (zlen rows) ++ body) ++ slack).
  step_read. unfold MaxAllocSize, SIZEOF_POINTER. replace (_ <? _) with false by lia.
  unfold zlen. by rewrite Nat2Z.id.
Qed.

(** A range whose rows do not fit a message is not answered: the service
    itself raises an error while it sends the response. *)
Theorem range_response_too_large w db pid start_key end_key rows body wakes :
  channel_holds w ROCKSDB_CHANNEL [range_request pid start_key end_key] →
  shared_engine w = Some db → ResultQueue.pending (result_queue w) [] →
  channel_holds w (resp_name pid) [] → in_u32 pid → key_ok start_key → key_ok end_key →
  rocksengine_range_scan slack (range_fuel db) start_key end_key db = Some (Ok rows) →
  rows_bytes rows = Ok body →
  MSG_SIZE < SIZEOF_HEADER + zlen (range_entity rows body) →
  zlen (range_entity rows body) ≤ MaxAllocSize →
  ∃ w', service_turn slack range_fuel wakes w =
          (Error "KVChannelPushMsg: total message too large", w').
Proof using Hslack.
  intros Hm He Hq Hr Hpid Hks Hke Hscan Hbody Hbig Hmax. unfold service_turn.
  destruct (chan_pop_holds _ _ _ ROCKSDB_CHANNEL_DEFAULT_TIMEOUT wakes Hm)
    as (w1 & Hp & Hm1 & Hw1 & Ho1).
  p_step ltac:(exact Hp). change (op _ =? KVOp_code kv_close) with false. cbv iota.
  set (r := range_response pid start_key rows body). set (w2 := with_engine w1 (Some db)).
  assert (is_ok (PrintKVMsg (Some r)) = true) as Hprint by by eapply print_known.
  destruct (push_result_spec w2 r) as (q & Hpush & Hq'); [by cbn; rewrite Hw1|done|].
  p_step ltac:(unfold process_request; p_step ltac:(eapply range_dispatch; try done; by rewrite Hw1);
    exact Hpush).
  unfold mbind at 1, P_bind at 1. unfold ResultQueueClear. cbn [result_queue with_results].
  rewrite (is_queue_size _ _ (proj1 Hq')). cbn [length clear_loop].
  cbn [result_queue with_results]. rewrite (ResultQueue.ResultQueueIsEmpty_spec _ _ Hq').
  destruct (ResultQueue.ResultQueuePop_spec _ _ _ Hq') as (q' & Hpop & _).
  p_step ltac:(unfold pop_result; cbn [result_queue with_results]; by rewrite Hpop).
  assert (respChannel (header r) = pid) as -> by by apply u32_id.
  set (w3 := with_results _ q').
  assert (channel_holds w3 (resp_name pid) []) as Hr3.
  { eapply channel_holds_ext; [|exact Hr]. cbn. apply Ho1, resp_name_server. }
  p_step ltac:(by eapply chan_init_open). destruct Hr3 as (s & Hs & _).
  unfold mbind, P_bind, chan_push. rewrite Hs. unfold KVChannelPushMsg.
  change (entitySize (header r)) with (zlen (range_entity rows body)).
  unfold MSG_SIZE, SIZEOF_HEADER, MaxAllocSize in *. pose proof (zlen_nonneg (range_entity rows body)).
  rewrite u64_id by zsolve. replace (1024 <? _) with true by lia. by eexists.
Qed.
End calls.

(** ** Witnesses *)

Definition example_client : client := mkClient 4242 None None.
Definition example_world : @world MapRocksDB :=
  mkWorld {[ ROCKSDB_CHANNEL := fresh_shared ]} (Some example_db) ResultQueue.ResultQueueInit true.
Definition example_fuel (db : @rocksdb_t MapRocksDB) : nat := 3.

Lemma example_service_ready : service_ready example_world example_db.
Proof.
  split; [|split; [done|exact ResultQueue.pending_init]].
  exists fresh_shared. cbn [shm example_world]. rewrite lookup_singleton_eq.
  split; [done|]. split; [exact chan_msgs_fresh|done].
Qed.

Lemma example_client_ready : client_ready example_world example_client.
Proof. split; [done|]. split; by left. Qed.

Lemma example_row : row_at example_db (mkKey 16384 65537) example_value.
Proof.
  split; [exact example_value_ok|]. exists example_wire. split; [exact example_wire_ok|by vm_compute].
Qed.

Lemma RocksClientPut_stores_witness : ∃ w',
  RocksClientPut (service_runs [0; 0] example_fuel []) (mkKey 16384 196609) example_value
    (example_world, example_client) = (Done true, (w', opened example_client)).
Proof.
  assert (key_ok (mkKey 16384 196609)) as Hk by by vm_compute.
  assert (SIZEOF_HEADER + (8 + TKEY_LEN + zlen example_wire) ≤ MSG_SIZE) as Hfit by by vm_compute.
  destruct (RocksClientPut_stores [0; 0] example_fuel ltac:(done) example_world example_db
    (<[tkey_serialize (mkKey 16384 196609) := example_wire]> example_map)
    example_client (mkKey 16384 196609) example_value example_wire []
    example_service_ready example_client_ready Hk example_value_ok example_wire_ok Hfit eq_refl)
    as (w' & H & _).
  exists w'. exact H.
Defined.

Lemma RocksClientGet_fetches_witness : ∃ w' v',
  RocksClientGet [0; 0] (service_runs [0; 0] example_fuel []) (mkKey 16384 65537)
    (example_world, example_client) = (Done (Some v'), (w', opened example_client)) ∧
  v' ≡ example_value.
Proof.
  assert (key_ok (mkKey 16384 65537)) as Hk by by vm_compute.
  assert (SIZEOF_HEADER + zlen example_wire ≤ MSG_SIZE) as Hfit by by vm_compute.
  destruct (RocksClientGet_fetches [0; 0] example_fuel ltac:(done) example_world example_db
    example_client (mkKey 16384 65537) example_value example_wire []
    example_service_ready example_client_ready Hk example_row example_wire_ok Hfit ltac:(done))
    as (w' & v' & H & Heq & _).
  exists w', v'. split; [exact H|exact Heq].
Defined.

Lemma RocksClientRangeScan_fetches_witness : ∃ rows body,
  rocksengine_range_scan [0; 0] (example_fuel example_db) (mkKey 16384 0) (mkKey 16385 0) example_db
    = Some (Ok rows) ∧ rows_bytes rows = Ok body.
Proof.
  assert (key_ok (mkKey 16384 0) ∧ key_ok (mkKey 16385 0)) as [Hk1 Hk2] by by vm_compute.
  destruct (RocksClientRangeScan_fetches [0; 0] example_fuel ltac:(done) example_world example_db
    example_client (mkKey 16384 0) (mkKey 16385 0) []
    example_service_ready example_client_ready Hk1 Hk2 example_db_ok) as (rows & body & H1 & H2 & _).
  exists rows, body. split; [exact H1|exact H2].
Defined.

(** A table of twenty rows: 4 + 20 * 60 bytes do not fit a message. *)
Definition twenty_rows : rocks_map :=
  list_to_map ((λ i : nat, (tkey_serialize (mkKey 16384 (65536 * Z.of_nat i + 1)), example_wire))
                 <$> seq 1 20).

Definition scan_size (m : @rocksdb_t MapRocksDB) : option Z :=
  match rocksengine_range_scan [0; 0] 30 (mkKey 16384 0) (mkKey 16385 0) m with
  | Some (Ok rows) => match rows_bytes rows with Ok body => Some (zlen (range_entity rows body)) | _ => None end
  | _ => None
  end.

Lemma scan_size_inv m n : scan_size m = Some n →
  ∃ rows body, rocksengine_range_scan [0; 0] 30 (mkKey 16384 0) (mkKey 16385 0) m = Some (Ok rows) ∧
    rows_bytes rows = Ok body ∧ zlen (range_entity rows body) = n.
Proof.
  unfold scan_size. intros H.
  destruct (rocksengine_range_scan _ _ _ _ m) as [[rows| |]|]; [|done..].
  destruct (rows_bytes rows) as [body| |] eqn:Hb; [|done..].
  exists rows, body. split; [done|]. split; [exact Hb|congruence].
Qed.

Lemma twenty_rows_size : scan_size twenty_rows = Some 1204.
Proof. by vm_compute. Qed.

Lemma range_response_too_large_witness : ∃ w w' : @world MapRocksDB,
  channel_holds w ROCKSDB_CHANNEL [range_request 4242 (mkKey 16384 0) (mkKey 16385 0)] ∧
  service_turn [0; 0] (λ _, 30%nat) [] w = (Error "KVChannelPushMsg: total message too large", w').
Proof.
  assert (key_ok (mkKey 16384 0) ∧ key_ok (mkKey 16385 0)) as [Hk1 Hk2] by by vm_compute.
  assert (in_u32 4242) as Hpid by by vm_compute.
  set (req := range_request 4242 (mkKey 16384 0) (mkKey 16385 0)).
  destruct (chan_msgs_fill [req]) as (s & Hs & Hr).
  { apply Forall_singleton, set_entity_ok; [done|done|by vm_compute]. }
  { by vm_compute. }
  destruct (scan_size_inv _ _ twenty_rows_size) as (rows & body & Hscan & Hbody & Hz).
  set (w := mkWorld {[ ROCKSDB_CHANNEL := s; resp_name 4242 := fresh_shared ]}
              (Some (twenty_rows : @rocksdb_t MapRocksDB)) ResultQueue.ResultQueueInit true).
  assert (channel_holds w ROCKSDB_CHANNEL [req]) as Hw.
  { exists s. cbn [shm w]. rewrite lookup_insert_eq, Hr. split; [reflexivity|]. by split. }
  assert (channel_holds w (resp_name 4242) []) as Hw2.
  { exists fresh_shared. cbn [shm w].
    rewrite lookup_insert_ne, lookup_singleton_eq by (apply not_eq_sym, resp_name_server).
    split; [reflexivity|]. split; [exact chan_msgs_fresh|cbn; lia]. }
  destruct (range_response_too_large [0; 0] (λ _, 30%nat) ltac:(done) w twenty_rows 4242
    (mkKey 16384 0) (mkKey 16385 0) rows body [] Hw eq_refl ResultQueue.pending_init Hw2 Hpid Hk1 Hk2
    Hscan Hbody ltac:(rewrite Hz; reflexivity) ltac:(rewrite Hz; unfold MaxAllocSize; lia))
    as (w' & Hturn).
  exists w, w'. split; [exact Hw|exact Hturn].
Defined.
