(* ===== verification/CText.v ===== *)
(** * C characters and strings

    A C string is the list of its characters up to the terminating zero. The
    functions of <ctype.h> and <string.h> the program uses, in the C locale,
    and decimal digits. *)
From S2P Require Import Prelude.
From Stdlib Require Import ZArith Lia Ascii.
From stdpp Require Import base strings numbers list.

Open Scope Z_scope.

Abbreviation text := (list ascii).

Definition ascii_eqb (a b : ascii) : bool := Ascii.eqb a b.
Definition is_space (c : ascii) : bool :=
  let n := N_of_ascii c in ((n =? 32) || ((9 <=? n) && (n <=? 13)))%N.
Definition digit_val (c : ascii) : option Z :=
  let n := Z.of_N (N_of_ascii c) in
  if (48 <=? n) && (n <=? 57) then Some (n - 48) else None.

Fixpoint skip_spaces (s : text) : text :=
  match s with c :: s' => if is_space c then skip_spaces s' else s | [] => [] end.

(** The digits at the head of the text: their value after [acc], how many they
    are, and the rest. *)
Fixpoint scan_digits (acc : Z) (count : nat) (s : text) : Z * nat * text :=
  match s with
  | c :: s' =>
      match digit_val c with
      | Some d => scan_digits (10 * acc + d) (S count) s'
      | None => (acc, count, s)
      end
  | [] => (acc, count, [])
  end.

(** The C string in a buffer. *)
Fixpoint c_string (s : text) : text :=
  match s with c :: s => if ascii_eqb c "000" then [] else c :: c_string s | [] => [] end.

Definition tolower (c : ascii) : ascii :=
  let n := N_of_ascii c in
  if ((65 <=? n) && (n <=? 90))%N then ascii_of_N (n + 32) else c.

Definition text_of (s : string) : text := String.list_ascii_of_string s.

(** The decimal digits of a number below [10 ^ fuel], in front of [s]. *)
Definition digit_char (d : Z) : ascii := ascii_of_N (Z.to_N (48 + d)).
Fixpoint print_digits (fuel : nat) (n : Z) (s : text) : text :=
  match fuel with
  | O => s
  | S fuel =>
      let s := digit_char (n `mod` 10) :: s in
      if n <? 10 then s else print_digits fuel (n / 10) s
  end.

Lemma digit_val_char d : 0 ≤ d < 10 → digit_val (digit_char d) = Some d.
Proof.
  intros Hd. assert (∃ n : nat, d = Z.of_nat n ∧ (n < 10)%nat) as (n & -> & Hn).
  { exists (Z.to_nat d). lia. }
  do 10 (destruct n as [|n]; [done|]). lia.
Qed.

Lemma scan_digits_print fuel n s acc count :
  0 ≤ n < 10 ^ Z.of_nat fuel → (0 < fuel)%nat →
  ∃ k : nat, (0 < k)%nat ∧
    scan_digits acc count (print_digits fuel n s) =
    scan_digits (acc * 10 ^ Z.of_nat k + n) (count + k) s.
Proof.
  revert n s. induction fuel as [|fuel IH]; intros n s Hn Hf; [lia|].
  pose proof (Z.mod_pos_bound n 10). pose proof (Z.div_mod n 10).
  cbn [print_digits]. destruct (Z.ltb_spec n 10).
  - exists 1%nat. split; [lia|]. cbn [scan_digits]. rewrite digit_val_char by lia.
    rewrite Z.mod_small by lia. f_equal; lia.
  - assert (0 < fuel)%nat as Hf'.
    { destruct fuel; [|lia]. change (10 ^ Z.of_nat 1) with 10 in Hn. lia. }
    rewrite Nat2Z.inj_succ, Z.pow_succ_r in Hn by lia.
    destruct (IH (n / 10) (digit_char (n `mod` 10) :: s)) as (k & Hk & ->); [|done|].
    { split; [apply Z.div_pos; lia|]. apply Z.div_lt_upper_bound; lia. }
    exists (S k). split; [lia|]. cbn [scan_digits]. rewrite digit_val_char by lia.
    rewrite Nat2Z.inj_succ, Z.pow_succ_r by lia. f_equal; lia.
Qed.

Lemma print_digits_app fuel n s : print_digits fuel n s = print_digits fuel n [] ++ s.
Proof.
  revert n s. induction fuel as [|fuel IH]; intros n s; [done|]. cbn [print_digits].
  destruct (n <? 10); [done|]. rewrite IH, (IH _ [_]). by rewrite <- app_assoc.
Qed.

Lemma print_digits_head fuel n s :
  (0 < fuel)%nat → 0 ≤ n → ∃ d rest, 0 ≤ d < 10 ∧ print_digits fuel n s = digit_char d :: rest.
Proof.
  revert n s. induction fuel as [|fuel IH]; intros n s Hf Hn; [lia|]. cbn [print_digits].
  pose proof (Z.mod_pos_bound n 10). destruct (n <? 10); [eauto with lia|].
  destruct fuel as [|fuel]; [cbn; eauto with lia|]. apply IH; [lia|]. apply Z.div_pos; lia.
Qed.

(** ** Character classes *)

Definition is_digit (c : ascii) : bool := bool_decide (is_Some (digit_val c)).
Definition is_alpha (c : ascii) : bool :=
  let n := N_of_ascii c in (((65 <=? n) && (n <=? 90)) || ((97 <=? n) && (n <=? 122)))%N.
Definition is_alnum (c : ascii) : bool := is_digit c || is_alpha c.

(** The characters with a meaning in SQL and JSON texts. *)
Definition QUOTE : ascii := "'".
Definition DQUOTE : ascii := "034".
Definition BACKSLASH : ascii := "092".
Definition BACKTICK : ascii := "096".
Definition NEWLINE : ascii := "010".

(** ** Searching *)

(** [strncmp(s, old, strlen(old)) == 0]. *)
Fixpoint starts_with (old s : text) : bool :=
  match old, s with
  | [], _ => true
  | a :: old, b :: s => ascii_eqb a b && starts_with old s
  | _ :: _, [] => false
  end.

(** [pg_strncasecmp(s, old, strlen(old)) == 0] for ASCII characters. *)
Fixpoint starts_with_ci (old s : text) : bool :=
  match old, s with
  | [], _ => true
  | a :: old, b :: s => ascii_eqb (tolower a) (tolower b) && starts_with_ci old s
  | _ :: _, [] => false
  end.

(** [strstr]: what is before the first occurrence, and the text from it on. *)
Fixpoint strstr (s old : text) : option (text * text) :=
  if starts_with old s then Some ([], s)
  else match s with
       | [] => None
       | c :: s => match strstr s old with Some (b, q) => Some (c :: b, q) | None => None end
       end.

Fixpoint skip_while (p : ascii → bool) (s : text) : text :=
  match s with c :: s' => if p c then skip_while p s' else s | [] => [] end.

Lemma ascii_eqb_spec a b : ascii_eqb a b = true ↔ a = b.
Proof. apply Ascii.eqb_eq. Qed.

Lemma starts_with_spec old s : starts_with old s = true ↔ ∃ r, s = old ++ r.
Proof.
  revert s. induction old as [|a old IH]; intros s; cbn; [naive_solver|].
  destruct s as [|b s]; [split; [done|by intros [r ?]]|].
  rewrite andb_true_iff, ascii_eqb_spec, IH. naive_solver.
Qed.

Lemma starts_with_app old r : starts_with old (old ++ r) = true.
Proof. apply starts_with_spec. by exists r. Qed.

Lemma strstr_Some s old b q :
  strstr s old = Some (b, q) →
  s = b ++ q ∧ starts_with old q = true ∧
  ∀ b1 b2, b = b1 ++ b2 → b2 ≠ [] → starts_with old (b2 ++ q) = false.
Proof.
  revert b q. induction s as [|c s IH]; intros b q; cbn.
  - destruct old; cbn; [|done]. intros [= <- <-]. split; [done|]. split; [done|].
    intros b1 b2 H. symmetry in H. by apply app_eq_nil in H as [_ ->].
  - destruct (starts_with old (c :: s)) eqn:E.
    + intros [= <- <-]. split; [done|]. split; [done|].
      intros b1 b2 H. symmetry in H. by apply app_eq_nil in H as [_ ->].
    + destruct (strstr s old) as [[b' q']|] eqn:Es; [|done]. intros [= <- <-].
      destruct (IH _ _ eq_refl) as (-> & Hq & Hb). split; [done|]. split; [done|].
      intros [|c1 b1] b2 H Hne; cbn in H; [by subst b2|].
      injection H as -> H. by apply (Hb b1).
Qed.

Lemma strstr_None s old : strstr s old = None → ∀ a b, s = a ++ b → starts_with old b = false.
Proof.
  induction s as [|c s IH]; cbn.
  - destruct (starts_with old []) eqn:E; [done|]. intros _ a b H.
    symmetry in H. by apply app_eq_nil in H as [_ ->].
  - destruct (starts_with old (c :: s)) eqn:E; [done|].
    destruct (strstr s old) as [[b' q']|] eqn:Es; [done|]. intros _ [|c1 a] b H; cbn in H; [by subst b|].
    injection H as -> H. by apply (IH eq_refl a).
Qed.

Lemma length_strstr s old b q : strstr s old = Some (b, q) → length s = (length b + length q)%nat.
Proof. intros (-> & _)%strstr_Some. apply length_app. Qed.

(** ** Integers in decimal *)

(** [%d] and [%ld]. *)
Definition print_int (z : Z) : text :=
  if z <? 0 then "-"%char :: print_digits 20 (- z) [] else print_digits 20 z [].

Lemma print_int_head n : -10 ^ 20 < n < 10 ^ 20 → ∃ c t, print_int n = c :: t ∧ (c = "-"%char ∨ ∃ d, 0 ≤ d < 10 ∧ c = digit_char d).
Proof.
  intros Hn. unfold print_int. destruct (Z.ltb_spec n 0); [eauto|].
  destruct (print_digits_head 20 n []) as (d & t & Hd & ->); [lia..|]. eauto 10.
Qed.

Lemma digit_char_not d c : 0 ≤ d < 10 → digit_val c = None → ascii_eqb (digit_char d) c = false.
Proof.
  intros Hd Hc. apply not_true_iff_false. intros E%ascii_eqb_spec. subst c. by rewrite digit_val_char in Hc.
Qed.

(** [,] between the texts. *)
Fixpoint join_comma (l : list text) : text :=
  match l with
  | [] => []
  | [t] => t
  | t :: l => t ++ ","%char :: join_comma l
  end.

Lemma join_comma_cons a l : join_comma (a :: l) = a ++ match l with [] => [] | _ => ","%char :: join_comma l end.
Proof. destruct l; [cbn; by rewrite app_nil_r|]. done. Qed.
