(* ===== verification/CNumber.v ===== *)
(** * Numbers in text

    The C conversions between numbers and decimal text that cJSON uses: the cast
    of a double to [int], [strtod], and [sprintf] with [%d] and [%1.15g]. Doubles
    are IEEE 754 numbers (Stdlib's [spec_float] with 53 bits of precision);
    both directions round to the nearest, ties to even. *)
From S2P Require Import Prelude CText.
From Stdlib Require Import ZArith Lia Ascii SpecFloat.
From stdpp Require Import base strings numbers list.

Open Scope Z_scope.

Definition INT_MAX : Z := 2147483647.
Definition INT_MIN : Z := -2147483648.

(** ** Doubles *)

Abbreviation double := spec_float.

(** The conversion of an [int]. *)
Definition double_of_Z (n : Z) : double := binary_normalize 53 1024 n 0 false.

(** The cast to [int], of a number in range. *)
Definition trunc (d : double) : Z :=
  match d with
  | S754_finite s m e =>
      let a := if 0 <=? e then Zpos m * 2 ^ e else Zpos m / 2 ^ (- e) in
      if s then - a else a
  | _ => 0
  end.

(** The member [valueint] of a number: saturated. *)
Definition valueint_of (d : double) : Z :=
  if SFleb (double_of_Z INT_MAX) d then INT_MAX
  else if SFleb d (double_of_Z INT_MIN) then INT_MIN
  else trunc d.

(** [m * 10^e], rounded. *)
Definition decimal (neg : bool) (m e : Z) : double :=
  match m with
  | Zpos p =>
      if 0 <=? e then binary_normalize 53 1024 ((if neg then - m else m) * 10 ^ e) 0 neg
      else let '(q, e', l) := SFdiv_core_binary 53 1024 m 0 (10 ^ (- e)) 0 in
           binary_round_aux 53 1024 neg q e' l
  | _ => S754_zero neg
  end.

Definition next_is (c : ascii) (s : text) : bool :=
  match s with d :: _ => ascii_eqb d c | [] => false end.

(** The exponent behind a mantissa, if there is one. *)
Definition scan_exponent (s : text) : Z * text :=
  if next_is "e" s || next_is "E" s then
    let s' := drop 1 s in
    let neg := next_is "-" s' in
    let '(x, n, r) := scan_digits 0 0 (if neg || next_is "+" s' then drop 1 s' else s') in
    match n with O => (0, s) | S _ => (if neg then - x else x, r) end
  else (0, s).

(** [strtod] on decimal digits, signs, exponents and the point; [None] when there
    is no number. *)
Definition strtod (s : text) : option (double * text) :=
  let neg := next_is "-" s in
  let '(m, n, s1) := scan_digits 0 0 (if neg || next_is "+" s then drop 1 s else s) in
  let '(m, k, s2) := if next_is "." s1 then scan_digits m 0 (drop 1 s1) else (m, O, s1) in
  match (n + k)%nat with
  | O => None
  | S _ => let '(x, s3) := scan_exponent s2 in Some (decimal neg m (x - Z.of_nat k), s3)
  end.

(** ** Printing *)

(** The decimal digits of the integer part of [num / den], less one: the exponent
    [X] of [%e]. *)
Fixpoint exponent_up (fuel : nat) (num den : Z) : Z :=
  match fuel with
  | O => 0
  | S fuel => if num <? 10 * den then 0 else 1 + exponent_up fuel num (10 * den)
  end.
Fixpoint exponent_down (fuel : nat) (num den : Z) : Z :=
  match fuel with
  | O => 0
  | S fuel => if den <=? num then 0 else exponent_down fuel (10 * num) den - 1
  end.
Definition exponent10 (num den : Z) : Z :=
  if den <=? num then exponent_up 330 num den else exponent_down 330 num den.

(** [num / den], rounded to the nearest, ties to even. *)
Definition round_ratio (num den : Z) : Z :=
  let q := num / den in
  let r := num - q * den in
  if (den <? 2 * r) || ((den =? 2 * r) && Z.odd q) then q + 1 else q.

(** Zeros behind the last digit that counts. *)
Fixpoint strip_zeros (s : text) : text :=
  match s with
  | [] => []
  | c :: s => match strip_zeros s with [] => if ascii_eqb c "0" then [] else [c] | s => c :: s end
  end.

Definition with_point (int frac : text) : text :=
  match strip_zeros frac with [] => int | f => int ++ "."%char :: f end.

(** At least two digits. *)
Definition print_exponent (x : Z) : text :=
  let a := Z.abs x in
  (if x <? 0 then "-"%char else "+"%char) :: (if a <? 10 then ["0"%char] else []) ++ print_digits 20 a [].

(** [%1.<p>g] of a number that is not 0. *)
Definition format_g (p : Z) (d : double) : text :=
  match d with
  | S754_finite s m e =>
      let num := Zpos m * 2 ^ Z.max e 0 in
      let den := 2 ^ Z.max (- e) 0 in
      let x := exponent10 num den in
      let digits := round_ratio (num * 10 ^ Z.max (p - 1 - x) 0) (den * 10 ^ Z.max (x - p + 1) 0) in
      let '(digits, x) := if digits =? 10 ^ p then (digits / 10, x + 1) else (digits, x) in
      let t := print_digits 20 digits [] in
      (if s then ["-"%char] else []) ++
      (if (x <? -4) || (p <=? x) then with_point (take 1 t) (drop 1 t) ++ "e"%char :: print_exponent x
       else if x <? 0 then with_point ["0"%char] (replicate (Z.to_nat (- x - 1)) "0"%char ++ t)
       else with_point (take (Z.to_nat (x + 1)) t) (drop (Z.to_nat (x + 1)) t))
  | _ => ["0"%char]
  end.

(** ** Integers *)

Lemma digits2_log2 p : Zpos (digits2_pos p) = Z.log2 (Zpos p) + 1.
Proof.
  induction p as [p IH|p IH|]; [..|done]; cbn [digits2_pos]; rewrite Pos2Z.inj_succ, IH.
  - rewrite (Pos2Z.inj_xI p), Z.log2_succ_double by done. lia.
  - rewrite (Pos2Z.inj_xO p), Z.log2_double by done. lia.
Qed.

Lemma iter_xO p k : Zpos (Pos.iter xO p k) = Zpos p * 2 ^ Zpos k.
Proof.
  induction k as [|k IH] using Pos.peano_ind; [cbn; lia|].
  rewrite Pos.iter_succ, Pos2Z.inj_xO, IH, Pos2Z.inj_succ, Z.pow_succ_r by done. lia.
Qed.

(** A mantissa of 53 bits is not rounded. *)
Lemma round_aux_exact s m e :
  Zpos (digits2_pos m) = 53 → -1074 ≤ e ≤ 971 → binary_round_aux 53 1024 s (Zpos m) e loc_Exact = S754_finite s m e.
Proof.
  intros Hd He. unfold binary_round_aux, shr_fexp. cbn [Zdigits2]. rewrite Hd.
  assert (fexp 53 1024 (53 + e) - e = 0) as E0 by (unfold fexp, emin; lia).
  rewrite E0. cbn [shr shr_record_of_loc shr_m loc_of_shr_record round_nearest_even Zdigits2]. rewrite Hd, E0.
  cbn [shr shr_m]. by replace (e <=? 1024 - 53) with true by lia.
Qed.

(** An integer of up to 53 bits as a double. *)
Lemma binary_round_int s p :
  Zpos p < 2 ^ 53 →
  let d := Z.log2 (Zpos p) + 1 in
  ∃ m, Zpos m = Zpos p * 2 ^ (53 - d) ∧ binary_round 53 1024 s p 0 = S754_finite s m (d - 53).
Proof.
  intros Hp d. assert (1 ≤ d ≤ 53) as Hd.
  { unfold d. pose proof (Z.log2_nonneg (Zpos p)). assert (Z.log2 (Zpos p) < 53) by (apply Z.log2_lt_pow2; lia). lia. }
  unfold binary_round, shl_align. rewrite digits2_log2. fold d.
  assert (fexp 53 1024 (d + 0) = d - 53) as -> by (unfold fexp, emin; lia).
  destruct (d - 53 - 0) as [|k|k] eqn:E; [|lia|].
  - exists p. replace (53 - d) with 0 by lia. split; [lia|]. replace 0 with (d - 53) at 1 by lia.
    apply round_aux_exact; [|lia]. rewrite digits2_log2. fold d. lia.
  - exists (Pos.iter xO p k). replace (53 - d) with (Zpos k) by lia. split; [apply iter_xO|].
    apply round_aux_exact; [|lia]. rewrite digits2_log2, iter_xO, Z.log2_mul_pow2 by lia. unfold d in *. lia.
Qed.

Lemma trunc_int p s : Zpos p < 2 ^ 53 → trunc (binary_round 53 1024 s p 0) = if s then Zneg p else Zpos p.
Proof.
  intros Hp. destruct (binary_round_int s p Hp) as (m & Hm & ->). cbn [trunc].
  assert (Z.log2 (Zpos p) < 53) by (apply Z.log2_lt_pow2; lia).
  destruct (Z.leb_spec 0 (Z.log2 (Zpos p) + 1 - 53)).
  - assert (Z.log2 (Zpos p) = 52) as E by lia. rewrite E in *. cbn in *. destruct s; lia.
  - rewrite Hm. replace (- (Z.log2 (Zpos p) + 1 - 53)) with (53 - (Z.log2 (Zpos p) + 1)) by lia.
    rewrite Z.div_mul by lia. by destruct s.
Qed.

(** Positive integers compare as their doubles. *)
Lemma compare_round_int p q :
  Zpos p < 2 ^ 53 → Zpos q < 2 ^ 53 →
  SFcompare (binary_round 53 1024 false p 0) (binary_round 53 1024 false q 0) = Some (Zpos p ?= Zpos q) ∧
  SFcompare (binary_round 53 1024 true p 0) (binary_round 53 1024 true q 0) = Some (Zpos q ?= Zpos p).
Proof.
  intros Hp Hq. destruct (binary_round_int false p Hp) as (m & Hm & E1), (binary_round_int true p Hp) as (m' & Hm' & E2).
  destruct (binary_round_int false q Hq) as (n & Hn & E3), (binary_round_int true q Hq) as (n' & Hn' & E4).
  assert (m' = m) as -> by lia. assert (n' = n) as -> by lia. rewrite E1, E2, E3, E4. cbn [SFcompare].
  set (a := Z.log2 (Zpos p)) in *. set (b := Z.log2 (Zpos q)) in *.
  destruct (Z.log2_spec (Zpos p) ltac:(lia)) as [Ha1 Ha2], (Z.log2_spec (Zpos q) ltac:(lia)) as [Hb1 Hb2]. fold a in Ha1, Ha2. fold b in Hb1, Hb2.
  pose proof (Z.log2_nonneg (Zpos p)). pose proof (Z.log2_nonneg (Zpos q)). fold a in H. fold b in H0.
  destruct (Z.compare_spec (a + 1 - 53) (b + 1 - 53)) as [E|E|E].
  - assert (a = b) as Eab by lia. rewrite Eab in *. assert (0 < 2 ^ (53 - (b + 1))) as Hpos.
    { apply Z.pow_pos_nonneg; [lia|]. assert (b < 53) by (apply Z.log2_lt_pow2; lia). lia. }
    change (Pos.compare_cont Eq m n) with (Zpos m ?= Zpos n). rewrite Hm, Hn, <- Zmult_compare_compat_r by lia.
    split; [done|]. by rewrite <- Z.compare_antisym.
  - assert (Zpos p < Zpos q) as Hlt.
    { assert (2 ^ Z.succ a ≤ 2 ^ b) by (apply Z.pow_le_mono_r; lia). lia. }
    rewrite (proj2 (Z.compare_lt_iff _ _) Hlt). rewrite (proj2 (Z.compare_gt_iff _ _)) by lia. done.
  - assert (Zpos q < Zpos p) as Hlt.
    { assert (2 ^ Z.succ b ≤ 2 ^ a) by (apply Z.pow_le_mono_r; lia). lia. }
    rewrite (proj2 (Z.compare_gt_iff _ _)) by lia. rewrite (proj2 (Z.compare_lt_iff _ _)) by lia. done.
Qed.

Lemma valueint_of_int n : in_s32 n → valueint_of (double_of_Z n) = n.
Proof.
  unfold in_s32. intros Hn. unfold valueint_of, double_of_Z, SFleb.
  change (binary_normalize 53 1024 INT_MAX 0 false) with (binary_round 53 1024 false 2147483647 0).
  change (binary_normalize 53 1024 INT_MIN 0 false) with (binary_round 53 1024 true 2147483648 0).
  destruct n as [|p|p]; cbn [binary_normalize].
  - vm_compute. done.
  - destruct (compare_round_int 2147483647 p) as [-> _]; [lia..|].
    assert (SFcompare (binary_round 53 1024 false p 0) (binary_round 53 1024 true 2147483648 0) = Some Gt) as ->.
    { destruct (binary_round_int false p) as (m & _ & ->); [lia|]. vm_compute. done. }
    destruct (Z.compare_spec 2147483647 (Zpos p)); [unfold INT_MAX; lia..|]. rewrite trunc_int by lia. done.
  - destruct (compare_round_int p 2147483648) as [_ ->]; [lia..|].
    assert (SFcompare (binary_round 53 1024 false 2147483647 0) (binary_round 53 1024 true p 0) = Some Gt) as ->.
    { destruct (binary_round_int true p) as (m & _ & ->); [lia|]. vm_compute. done. }
    destruct (Z.compare_spec 2147483648 (Zpos p)); [unfold INT_MIN; lia..|]. rewrite trunc_int by lia. done.
Qed.

Lemma SFeqb_int n : in_s32 n → SFeqb (double_of_Z n) (double_of_Z n) = true.
Proof.
  unfold in_s32, SFeqb, double_of_Z. intros Hn. destruct n as [|p|p]; [done|..]; cbn [binary_normalize].
  - destruct (compare_round_int p p) as [-> _]; [lia..|]. by rewrite Z.compare_refl.
  - destruct (compare_round_int p p) as [_ ->]; [lia..|]. by rewrite Z.compare_refl.
Qed.

Lemma decimal_int neg p : decimal neg (Zpos p) 0 = binary_round 53 1024 neg p 0.
Proof. unfold decimal. change (0 <=? 0) with true. cbv iota. rewrite Z.mul_1_r. by destruct neg. Qed.

(** The text of an integer is read back exactly. *)
Lemma strtod_int n : in_s32 n → strtod (print_int n) = Some (double_of_Z n, []).
Proof.
  unfold in_s32. intros Hn.
  assert (∀ a, 0 ≤ a < 10 ^ 20 → ∃ k : nat, (0 < k)%nat ∧ scan_digits 0 0 (print_digits 20 a []) = (a, k, [])) as Hs.
  { intros a Ha. destruct (scan_digits_print 20 a [] 0 0) as (k & Hk & ->); [lia..|]. exists k. split; [done|]. done. }
  unfold strtod, print_int. destruct (Z.ltb_spec n 0).
  - cbn [next_is drop]. change (ascii_eqb "-" "-") with true. cbn [orb]. rewrite drop_0.
    destruct (Hs (- n)) as (k & Hk & ->); [lia|]. cbn [next_is]. rewrite Nat.add_0_r. destruct k as [|k]; [lia|].
    cbn. destruct n as [|p|p]; [lia..|]. change (decimal true (- Z.neg p) (0 - Z.of_nat 0)) with (decimal true (Zpos p) 0).
    by rewrite decimal_int.
  - destruct (print_digits_head 20 n []) as (d & t & Hd & E); [lia..|].
    destruct (Hs n) as (k & Hk & E2); [lia|]. rewrite E in *. cbn [next_is].
    rewrite !digit_char_not by done. cbn [orb]. rewrite E2. cbn [next_is]. rewrite Nat.add_0_r. destruct k as [|k]; [lia|].
    cbn. destruct n as [|p|p]; [done|..|lia]. change (decimal false (Zpos p) (0 - Z.of_nat 0)) with (decimal false (Zpos p) 0). by rewrite decimal_int.
Qed.
