(* ===== verification/CJson.v ===== *)
(** * cJSON

    Models the parts of [nr_pipeline/src/utils/cjson/cJSON.c] the pipeline uses:
    the parser, the printer without formatting, lookups and the constructors.

    The parser works on what is left of its buffer: the characters from the
    offset to the end, which is the terminating zero. A failed parse is [None];
    the position of the error is not kept. The printer writes into a buffer that
    grows ([printbuffer]); a write past its end would be [Ub]. Numbers are IEEE
    doubles (Stdlib's [spec_float]); the text of a number is read with [strtod]
    and written with [sprintf], both modelled here.

    Raw items, references and the arrays' other operations are left out: nothing
    in the program makes or calls them. *)
From S2P Require Import Prelude CText CNumber.
From Stdlib Require Import ZArith Lia Ascii SpecFloat.
From stdpp Require Import base strings numbers list.

Open Scope Z_scope.

Definition code (c : ascii) : Z := Z.of_N (N_of_ascii c).
Definition chr (z : Z) : ascii := ascii_of_N (Z.to_N z).

(** ** Items *)

Inductive cJSON :=
| cJSON_NULL
| cJSON_False
| cJSON_True
| cJSON_Number (valuedouble : double)
| cJSON_String (valuestring : text)
| cJSON_Array (child : list cJSON)
| cJSON_Object (child : list (text * cJSON)).

Definition CJSON_NESTING_LIMIT : Z := 1000.

(** ** Parsing *)

Definition number_char (c : ascii) : bool :=
  is_digit c || ascii_eqb c "+" || ascii_eqb c "-" || ascii_eqb c "e" || ascii_eqb c "E" || ascii_eqb c ".".

Fixpoint take_while (p : ascii → bool) (s : text) : text :=
  match s with c :: s => if p c then c :: take_while p s else [] | [] => [] end.

Definition parse_number (s : text) : option (cJSON * text) :=
  let number_c_string := take_while number_char (take 63 s) in
  '(number, rest) ← strtod number_c_string;
  Some (cJSON_Number number, drop (length number_c_string - length rest) s).

Definition hex_digit (c : ascii) : option Z :=
  let n := code c in
  if (48 <=? n) && (n <=? 57) then Some (n - 48)
  else if (65 <=? n) && (n <=? 70) then Some (10 + n - 65)
  else if (97 <=? n) && (n <=? 102) then Some (10 + n - 97)
  else None.

Fixpoint hex_value (h : Z) (s : text) : option Z :=
  match s with [] => Some h | c :: s => d ← hex_digit c; hex_value (16 * h + d) s end.

(** What is not hexadecimal counts as 0. *)
Definition parse_hex4 (input : text) : Z := default 0 (hex_value 0 (take 4 input)).

Definition utf8_tail (cp : Z) : ascii := chr (Z.land (Z.lor cp 128) 191).

Definition utf8_encode (cp : Z) : option text :=
  if cp <? 128 then Some [chr (Z.land cp 127)]
  else if cp <? 2048 then Some [chr (Z.land (Z.lor (Z.shiftr cp 6) 192) 255); utf8_tail cp]
  else if cp <? 65536 then
    Some [chr (Z.land (Z.lor (Z.shiftr cp 12) 224) 255); utf8_tail (Z.shiftr cp 6); utf8_tail cp]
  else if cp <=? 1114111 then
    Some [chr (Z.land (Z.lor (Z.shiftr cp 18) 240) 255); utf8_tail (Z.shiftr cp 12); utf8_tail (Z.shiftr cp 6);
          utf8_tail cp]
  else None.

(** The escape sequence at the head of [input]: its length and its UTF-8. *)
Definition utf16_literal_to_utf8 (input : text) : option (nat * text) :=
  if zlen input <? 6 then None
  else
    let first_code := parse_hex4 (drop 2 input) in
    if (56320 <=? first_code) && (first_code <=? 57343) then None
    else if (55296 <=? first_code) && (first_code <=? 56319) then
      let second := drop 6 input in
      if zlen second <? 6 then None
      else if negb (next_is BACKSLASH second && next_is "u" (drop 1 second)) then None
      else
        let second_code := parse_hex4 (drop 2 second) in
        if (second_code <? 56320) || (57343 <? second_code) then None
        else
          utf8 ← utf8_encode (65536 + Z.lor (Z.shiftl (Z.land first_code 1023) 10) (Z.land second_code 1023));
          Some (12%nat, utf8)
    else utf8 ← utf8_encode first_code; Some (6%nat, utf8).

(** The characters up to the closing quote, and what is behind it. *)
Fixpoint string_end (s : text) : option (text * text) :=
  match s with
  | [] => None
  | c :: s =>
      if ascii_eqb c DQUOTE then Some ([], s)
      else if ascii_eqb c BACKSLASH then
        match s with [] => None | d :: s => '(b, r) ← string_end s; Some (c :: d :: b, r) end
      else '(b, r) ← string_end s; Some (c :: b, r)
  end.

Fixpoint skipped_bytes (b : text) : Z :=
  match b with
  | c :: b' =>
      if ascii_eqb c BACKSLASH then match b' with _ :: b => 1 + skipped_bytes b | [] => 1 end else skipped_bytes b'
  | [] => 0
  end.

Definition escaped (c : ascii) : option ascii :=
  if ascii_eqb c "b" then Some "008"%char
  else if ascii_eqb c "f" then Some "012"%char
  else if ascii_eqb c "n" then Some "010"%char
  else if ascii_eqb c "r" then Some "013"%char
  else if ascii_eqb c "t" then Some "009"%char
  else if ascii_eqb c DQUOTE || ascii_eqb c BACKSLASH || ascii_eqb c "/" then Some c
  else None.

(** The loop through the literal: each round takes at least one character. Behind
    the last character is the closing quote. *)
Fixpoint unescape (fuel : nat) (b : text) : option text :=
  match fuel, b with
  | _, [] => Some []
  | O, _ => None
  | S fuel, c :: b' =>
      if negb (ascii_eqb c BACKSLASH) then s ← unescape fuel b'; Some (c :: s)
      else match b' with
      | [] => Some [DQUOTE]
      | d :: b'' =>
          if ascii_eqb d "u" then
            '(n, utf8) ← utf16_literal_to_utf8 b;
            s ← unescape fuel (drop n b); Some (utf8 ++ s)
          else e ← escaped d; s ← unescape fuel b''; Some (e :: s)
      end
  end.

(** A string, as far as its first zero. *)
Definition parse_string (s : text) : option (text * text) :=
  if next_is DQUOTE s then
    '(b, rest) ← string_end (drop 1 s);
    output ← unescape (length b) b;
    Some (c_string output, rest)
  else None.

(** Blanks, control characters and the zero; at the end of the buffer the offset
    goes back to its last character. *)
Definition blank (c : ascii) : bool := code c <=? 32.

Definition buffer_skip_whitespace (s : text) : text :=
  match skip_while blank s with
  | [] => match last s with Some c => [c] | None => [] end
  | s => s
  end.

(** [array_loop] and [object_loop] start behind the bracket or a comma. *)
Fixpoint parse_value (fuel : nat) (depth : Z) (s : text) : option (cJSON * text) :=
  match fuel with
  | O => None
  | S fuel =>
      if starts_with (text_of "null") s then Some (cJSON_NULL, drop 4 s)
      else if starts_with (text_of "false") s then Some (cJSON_False, drop 5 s)
      else if starts_with (text_of "true") s then Some (cJSON_True, drop 4 s)
      else match s with
      | [] => None
      | c :: _ =>
          if ascii_eqb c DQUOTE then '(v, s) ← parse_string s; Some (cJSON_String v, s)
          else if ascii_eqb c "-" || is_digit c then parse_number s
          else if ascii_eqb c "[" then parse_array fuel depth s
          else if ascii_eqb c "{" then parse_object fuel depth s
          else None
      end
  end
with parse_array (fuel : nat) (depth : Z) (s : text) : option (cJSON * text) :=
  match fuel with
  | O => None
  | S fuel =>
      if CJSON_NESTING_LIMIT <=? depth then None
      else
        let s := buffer_skip_whitespace (drop 1 s) in
        if next_is "]" s then Some (cJSON_Array [], drop 1 s)
        else match s with
        | [] => None
        | _ =>
            '(l, s) ← array_loop fuel (depth + 1) s;
            if next_is "]" s then Some (cJSON_Array l, drop 1 s) else None
        end
  end
with array_loop (fuel : nat) (depth : Z) (s : text) : option (list cJSON * text) :=
  match fuel with
  | O => None
  | S fuel =>
      '(v, s) ← parse_value fuel depth (buffer_skip_whitespace s);
      let s := buffer_skip_whitespace s in
      if next_is "," s then '(l, s) ← array_loop fuel depth (drop 1 s); Some (v :: l, s) else Some ([v], s)
  end
with parse_object (fuel : nat) (depth : Z) (s : text) : option (cJSON * text) :=
  match fuel with
  | O => None
  | S fuel =>
      if CJSON_NESTING_LIMIT <=? depth then None
      else
        let s := buffer_skip_whitespace (drop 1 s) in
        if next_is "}" s then Some (cJSON_Object [], drop 1 s)
        else match s with
        | [] => None
        | _ =>
            '(l, s) ← object_loop fuel (depth + 1) s;
            if next_is "}" s then Some (cJSON_Object l, drop 1 s) else None
        end
  end
with object_loop (fuel : nat) (depth : Z) (s : text) : option (list (text * cJSON) * text) :=
  match fuel, s with
  | S fuel, _ :: _ =>
      '(k, s) ← parse_string (buffer_skip_whitespace s);
      let s := buffer_skip_whitespace s in
      if next_is ":" s then
        '(v, s) ← parse_value fuel depth (buffer_skip_whitespace (drop 1 s));
        let s := buffer_skip_whitespace s in
        if next_is "," s then '(l, s) ← object_loop fuel depth (drop 1 s); Some ((k, v) :: l, s)
        else Some ([(k, v)], s)
      else None
  | _, _ => None
  end.

Definition BOM : text := [chr 239; chr 187; chr 191].

Definition skip_utf8_bom (s : text) : text :=
  if (4 <? zlen s) && starts_with BOM s then drop 3 s else s.

Definition parse_fuel (s : text) : nat := 3 * length s + 3.

(** What is behind the value is ignored. *)
Definition cJSON_ParseWithLengthOpts (content : text) : option (cJSON * text) :=
  match content with
  | [] => None
  | _ => parse_value (parse_fuel content) 0 (buffer_skip_whitespace (skip_utf8_bom content))
  end.

Definition cJSON_Parse (value : text) : option cJSON :=
  fst <$> cJSON_ParseWithLengthOpts (value ++ ["000"%char]).

(** ** Printing *)

Definition DBL_EPSILON : double := S754_finite false 4503599627370496 (-104).

Definition compare_double (a b : double) : bool :=
  let maxVal := if SFltb (SFabs b) (SFabs a) then SFabs a else SFabs b in
  SFleb (SFabs (SFsub 53 1024 a b)) (SFmul 53 1024 maxVal DBL_EPSILON).

(** [print_number] without the buffer. *)
Definition number_text (d : double) : text :=
  match d with
  | S754_nan | S754_infinity _ => text_of "null"
  | _ =>
      if SFeqb d (double_of_Z (valueint_of d)) then print_int (valueint_of d)
      else
        let t := format_g 15 d in
        match strtod t with
        | Some (test, _) => if compare_double test d then t else format_g 17 d
        | None => format_g 17 d
        end
  end.

(** ** Printing into a buffer *)

(** The size of the buffer and what is written; the offset is its length. *)
Record printbuffer := mkPrintbuffer { pb_length : Z; pb_output : text }.

Definition ensure (needed : Z) (p : printbuffer) : option printbuffer :=
  let offset := zlen (pb_output p) in
  if (0 <? pb_length p) && (pb_length p <=? offset) then None
  else if INT_MAX <? needed then None
  else
    let needed := needed + offset + 1 in
    if needed <=? pb_length p then Some p
    else if INT_MAX `div` 2 <? needed then
      if needed <=? INT_MAX then Some (mkPrintbuffer INT_MAX (pb_output p)) else None
    else Some (mkPrintbuffer (needed * 2) (pb_output p)).

(** The result of printing: [None] is false. *)
Abbreviation printed := (outcome (option printbuffer)).

Definition and_then (r : printed) (f : printbuffer → printed) : printed :=
  p ← r; match p with Some p => f p | None => Ok None end.

(** Reserve, then write the characters [s] and, if [nul], a zero behind them. *)
Definition emit (needed : Z) (s : text) (nul : bool) (p : printbuffer) : printed :=
  match ensure needed p with
  | None => Ok None
  | Some p =>
      if pb_length p <? zlen (pb_output p) + zlen s + (if nul then 1 else 0) then Ub "write past the end of a block"
      else Ok (Some (mkPrintbuffer (pb_length p) (pb_output p ++ s)))
  end.

(** The temporary buffer of a number has 26 bytes. *)
Definition print_number (d : double) (p : printbuffer) : printed :=
  let t := number_text d in
  if 25 <? zlen t then Ub "write past the end of an array" else emit (zlen t + 1) t true p.

Definition hex_char (n : Z) : ascii := chr (if n <? 10 then 48 + n else 87 + n).

(** A character in a literal. *)
Definition escape_char (c : ascii) : text :=
  if (31 <? code c) && negb (ascii_eqb c DQUOTE) && negb (ascii_eqb c BACKSLASH) then [c]
  else if ascii_eqb c BACKSLASH || ascii_eqb c DQUOTE then [BACKSLASH; c]
  else if code c =? 8 then [BACKSLASH; "b"%char]
  else if code c =? 12 then [BACKSLASH; "f"%char]
  else if code c =? 10 then [BACKSLASH; "n"%char]
  else if code c =? 13 then [BACKSLASH; "r"%char]
  else if code c =? 9 then [BACKSLASH; "t"%char]
  else [BACKSLASH; "u"%char; "0"%char; "0"%char; hex_char (code c / 16); hex_char (code c `mod` 16)].

Definition string_text (s : text) : text := DQUOTE :: concat (escape_char <$> s) ++ [DQUOTE].

Definition escape_characters (s : text) : Z :=
  foldr (λ c n, (if ascii_eqb c DQUOTE || ascii_eqb c BACKSLASH || (code c =? 8) || (code c =? 12) || (code c =? 10) ||
                    (code c =? 13) || (code c =? 9) then 1 else if code c <? 32 then 5 else 0) + n) 0 s.

Definition print_string_ptr (s : text) (p : printbuffer) : printed :=
  let output_length := zlen s + escape_characters s in
  emit (output_length + 3) (string_text s) true p.

(** The loops of [print_array] and [print_object] over the children. *)
Definition print_elements (print_value : cJSON → printbuffer → printed) : list cJSON → printbuffer → printed :=
  fix print_elements (l : list cJSON) (p : printbuffer) : printed :=
    match l with
    | [] => Ok (Some p)
    | v :: l =>
        and_then (print_value v p) (λ p,
        match l with
        | [] => Ok (Some p)
        | _ => and_then (emit 2 [","%char] true p) (print_elements l)
        end)
    end.

Definition print_members (print_value : cJSON → printbuffer → printed) :
    list (text * cJSON) → printbuffer → printed :=
  fix print_members (l : list (text * cJSON)) (p : printbuffer) : printed :=
    match l with
    | [] => Ok (Some p)
    | (k, v) :: l =>
        and_then (print_string_ptr k p) (λ p,
        and_then (emit 1 [":"%char] false p) (λ p,
        and_then (print_value v p) (λ p,
        match l with
        | [] => emit 1 [] true p
        | _ => and_then (emit 2 [","%char] true p) (print_members l)
        end)))
    end.

Fixpoint print_value (item : cJSON) (p : printbuffer) : printed :=
  match item with
  | cJSON_NULL => emit 5 (text_of "null") true p
  | cJSON_False => emit 6 (text_of "false") true p
  | cJSON_True => emit 5 (text_of "true") true p
  | cJSON_Number d => print_number d p
  | cJSON_String s => print_string_ptr s p
  | cJSON_Array child =>
      and_then (emit 1 ["["%char] false p) (λ p,
      and_then (print_elements print_value child p) (λ p,
      emit 2 ["]"%char] true p))
  | cJSON_Object child =>
      and_then (emit 2 ["{"%char] false p) (λ p,
      and_then (print_members print_value child p) (λ p,
      emit 2 ["}"%char] true p))
  end.

Definition cJSON_PrintUnformatted (item : cJSON) : outcome (option text) :=
  match print_value item (mkPrintbuffer 256 []) with
  | Ok p => Ok (pb_output <$> p)
  | Raise e => Raise e
  | Ub e => Ub e
  end.

(** ** Objects *)

(** The names are compared without regard to case. *)
Fixpoint case_insensitive_eq (a b : text) : bool :=
  match a, b with
  | [], [] => true
  | x :: a, y :: b => ascii_eqb (tolower x) (tolower y) && case_insensitive_eq a b
  | _, _ => false
  end.

Fixpoint get_object_item (l : list (text * cJSON)) (name : text) : option cJSON :=
  match l with
  | [] => None
  | (k, v) :: l => if case_insensitive_eq name k then Some v else get_object_item l name
  end.

(** The children of an array have no names. *)
Definition cJSON_GetObjectItem (object : cJSON) (name : string) : option cJSON :=
  match object with cJSON_Object l => get_object_item l (text_of name) | _ => None end.

Definition cJSON_CreateObject : cJSON := cJSON_Object [].
Definition cJSON_CreateNumber (num : double) : cJSON := cJSON_Number num.
Definition cJSON_CreateString (s : text) : cJSON := cJSON_String (c_string s).

Definition cJSON_AddItemToObject (object : cJSON) (name : string) (item : cJSON) : cJSON :=
  match object with cJSON_Object l => cJSON_Object (l ++ [(text_of name, item)]) | _ => object end.
Definition cJSON_AddStringToObject (object : cJSON) (name : string) (s : text) : cJSON :=
  cJSON_AddItemToObject object name (cJSON_CreateString s).
Definition cJSON_AddNumberToObject (object : cJSON) (name : string) (num : double) : cJSON :=
  cJSON_AddItemToObject object name (cJSON_CreateNumber num).

(** [valueint] of an item that is not a number: 1 for true, 0 otherwise. *)
Definition item_valueint (item : cJSON) : Z :=
  match item with cJSON_Number d => valueint_of d | cJSON_True => 1 | _ => 0 end.

(** ** Induction over items *)

Section induction.
Context (P : cJSON → Prop).
Context (HNull : P cJSON_NULL) (HFalse : P cJSON_False) (HTrue : P cJSON_True).
Context (HNum : ∀ d, P (cJSON_Number d)) (HStr : ∀ s, P (cJSON_String s)).
Context (HArr : ∀ l, Forall P l → P (cJSON_Array l)) (HObj : ∀ l, Forall (λ m, P m.2) l → P (cJSON_Object l)).

Fixpoint cJSON_nested_ind (v : cJSON) : P v :=
  match v with
  | cJSON_NULL => HNull
  | cJSON_False => HFalse
  | cJSON_True => HTrue
  | cJSON_Number d => HNum d
  | cJSON_String s => HStr s
  | cJSON_Array l =>
      HArr l ((fix all (l : list cJSON) : Forall P l :=
                 match l with [] => Forall_nil_2 P | v :: l => Forall_cons_2 P v l (cJSON_nested_ind v) (all l) end) l)
  | cJSON_Object l =>
      HObj l ((fix all (l : list (text * cJSON)) : Forall (λ m, P m.2) l :=
                 match l with
                 | [] => Forall_nil_2 _
                 | (k, v) :: l => Forall_cons_2 (λ m, P m.2) (k, v) l (cJSON_nested_ind v) (all l)
                 end) l)
  end.
End induction.

(** ** The text of an item *)

Fixpoint json_text (v : cJSON) : text :=
  match v with
  | cJSON_NULL => text_of "null"
  | cJSON_False => text_of "false"
  | cJSON_True => text_of "true"
  | cJSON_Number d => number_text d
  | cJSON_String s => string_text s
  | cJSON_Array l => "["%char :: join_comma (map json_text l) ++ ["]"%char]
  | cJSON_Object l => "{"%char :: join_comma (map (λ m, string_text m.1 ++ ":"%char :: json_text m.2) l) ++ ["}"%char]
  end.

Definition member_text (m : text * cJSON) : text := string_text m.1 ++ ":"%char :: json_text m.2.

(** ** The buffer is never overrun *)

Definition pb_ok (p : printbuffer) : Prop := zlen (pb_output p) < pb_length p ≤ INT_MAX.

(** What a printing function may do: fail for lack of room, or append its text;
    without [ok], for numbers that are too long, also anything else. *)
Definition prints (ok : bool) (t : text) (f : printbuffer → printed) : Prop :=
  ok = true → ∀ p, pb_ok p →
    match f p with
    | Ok (Some p') => pb_ok p' ∧ pb_output p' = pb_output p ++ t
    | Ok None => INT_MAX < zlen (pb_output p) + zlen t + 2
    | _ => False
    end.

Lemma print_ensure_spec needed p :
  pb_ok p → 0 ≤ needed →
  match ensure needed p with
  | Some p' => pb_output p' = pb_output p ∧ zlen (pb_output p) + needed < pb_length p' ≤ INT_MAX
  | None => INT_MAX < zlen (pb_output p) + needed + 1
  end.
Proof.
  intros [H1 H2] Hn. unfold ensure. pose proof (zlen_nonneg (pb_output p)).
  replace (pb_length p <=? _) with false by lia. rewrite andb_false_r.
  destruct (Z.ltb_spec INT_MAX needed); [lia|]. destruct (Z.leb_spec (needed + zlen (pb_output p) + 1) (pb_length p)); [split; [done|lia]|].
  pose proof (Z.div_mod INT_MAX 2 ltac:(lia)). pose proof (Z.mod_pos_bound INT_MAX 2 ltac:(lia)).
  destruct (Z.ltb_spec (INT_MAX `div` 2) (needed + zlen (pb_output p) + 1)); [|split; [done|cbn; lia]].
  destruct (Z.leb_spec (needed + zlen (pb_output p) + 1) INT_MAX); [split; [done|cbn; lia]|lia].
Qed.

Lemma emit_prints needed s (nul : bool) : zlen s ≤ needed ≤ zlen s + 1 → prints true s (emit needed s nul).
Proof.
  intros Hn _ p Hp. unfold emit. pose proof (zlen_nonneg s). pose proof (print_ensure_spec needed p Hp ltac:(lia)) as He.
  destruct (ensure needed p) as [p'|]; [|lia]. destruct He as [Eo Hl].
  replace (_ <? _) with false by (rewrite Eo; destruct nul; lia).
  split; [|cbn; by rewrite Eo]. unfold pb_ok. cbn. rewrite zlen_app, Eo. lia.
Qed.

Lemma nothing_prints : prints true [] (λ p, Ok (Some p)).
Proof. intros _ p Hp. by rewrite app_nil_r. Qed.

Lemma and_then_prints a b s t f g :
  prints a s f → prints b t g → prints (a && b) (s ++ t) (λ p, and_then (f p) g).
Proof.
  intros Hf Hg [Ha Hb]%andb_true_iff p Hp. specialize (Hf Ha p Hp). unfold and_then. rewrite zlen_app. pose proof (zlen_nonneg t).
  destruct (f p) as [[p'|]| |]; [|cbn; lia|done..]. destruct Hf as [Hp' Eo]. specialize (Hg Hb p' Hp'). cbn.
  destruct (g p') as [[p''|]| |]; [..|done|done].
  - destruct Hg as [? ->]. rewrite Eo, app_assoc. done.
  - rewrite Eo, zlen_app in Hg. lia.
Qed.

Lemma escape_char_length c :
  zlen (escape_char c) = 1 + (if ascii_eqb c DQUOTE || ascii_eqb c BACKSLASH || (code c =? 8) || (code c =? 12) ||
    (code c =? 10) || (code c =? 13) || (code c =? 9) then 1 else if code c <? 32 then 5 else 0).
Proof. destruct c as [[] [] [] [] [] [] [] []]; vm_compute; done. Qed.

Lemma string_text_length s : zlen (string_text s) = zlen s + escape_characters s + 2.
Proof.
  unfold string_text. rewrite zlen_cons, zlen_app. change (zlen [DQUOTE]) with 1.
  assert (zlen (concat (escape_char <$> s)) = zlen s + escape_characters s) as ->; [|lia].
  induction s as [|c s IH]; [done|]. cbn [fmap list_fmap concat]. rewrite zlen_app, IH, zlen_cons, escape_char_length.
  unfold escape_characters. cbn [foldr]. fold (escape_characters s). lia.
Qed.

Lemma print_string_prints s : prints true (string_text s) (print_string_ptr s).
Proof. unfold print_string_ptr. apply emit_prints. rewrite string_text_length. lia. Qed.

(** The numbers of an item fit the 26 bytes. *)
Definition number_fits (d : double) : bool := zlen (number_text d) <=? 25.

Lemma print_number_prints d : prints (number_fits d) (number_text d) (print_number d).
Proof.
  unfold print_number, number_fits. intros Hn p Hp. pose proof (zlen_nonneg (number_text d)).
  replace (25 <? _) with false by lia. by apply emit_prints; [lia|..].
Qed.

Fixpoint numbers_fit (v : cJSON) : bool :=
  match v with
  | cJSON_Number d => number_fits d
  | cJSON_Array l => forallb numbers_fit l
  | cJSON_Object l => forallb (λ m, numbers_fit m.2) l
  | _ => true
  end.

Lemma print_elements_prints l :
  Forall (λ v, prints (numbers_fit v) (json_text v) (print_value v)) l →
  prints (forallb numbers_fit l) (join_comma (map json_text l)) (print_elements print_value l).
Proof.
  induction l as [|v l IH]; intros Hl; [apply nothing_prints|]. apply Forall_cons in Hl as [Hv Hl]. specialize (IH Hl).
  cbn [forallb map]. rewrite join_comma_cons. apply (and_then_prints _ _ _ _ (print_value v)); [done|].
  destruct l as [|w l]; [apply nothing_prints|]. cbn [map].
  by apply (and_then_prints true _ [","%char] _ (emit 2 [","%char] true) (print_elements print_value (w :: l))); [apply emit_prints|].
Qed.

Lemma print_members_prints l :
  Forall (λ m, prints (numbers_fit m.2) (json_text m.2) (print_value m.2)) l →
  prints (forallb (λ m, numbers_fit m.2) l) (join_comma (map member_text l)) (print_members print_value l).
Proof.
  induction l as [|[k v] l IH]; intros Hl; [apply nothing_prints|]. apply Forall_cons in Hl as [Hv Hl]. specialize (IH Hl).
  cbn [forallb map]. rewrite join_comma_cons. unfold member_text at 1. cbn [fst snd]. rewrite <- app_assoc.
  apply (and_then_prints true _ _ _ (print_string_ptr k)); [apply print_string_prints|].
  apply (and_then_prints true _ [":"%char] _ (emit 1 [":"%char] false)); [by apply emit_prints|].
  apply (and_then_prints _ _ _ _ (print_value v)); [done|].
  destruct l as [|w l]; [by apply emit_prints|]. cbn [map].
  by apply (and_then_prints true _ [","%char] _ (emit 2 [","%char] true) (print_members print_value (w :: l))); [apply emit_prints|].
Qed.

Lemma print_value_prints v : prints (numbers_fit v) (json_text v) (print_value v).
Proof.
  induction v as [| | |d|s|l IH|l IH] using cJSON_nested_ind; cbn [numbers_fit json_text];
    [by apply emit_prints..|apply print_number_prints|apply print_string_prints| |];
    rewrite <- (andb_true_r (forallb _ l)).
  - apply (and_then_prints true _ ["["%char] _ (emit 1 ["["%char] false)); [by apply emit_prints|].
    by apply (and_then_prints _ true _ _ (print_elements print_value l)); [apply print_elements_prints|apply emit_prints].
  - apply (and_then_prints true _ ["{"%char] _ (emit 2 ["{"%char] false)); [by apply emit_prints|].
    by apply (and_then_prints _ true _ _ (print_members print_value l)); [apply print_members_prints|apply emit_prints].
Qed.

(** ** What is printed is parsed back *)

Definition zero_free (s : text) : Prop := Forall (λ c, c ≠ "000"%char) s.

(** The text of a number is a number, and reads back as the same double. *)
Definition number_ok (d : double) : Prop :=
  next_is "-" (number_text d) || match number_text d with c :: _ => is_digit c | [] => false end = true ∧
  Forall (λ c, number_char c = true) (number_text d) ∧ zlen (number_text d) ≤ 25 ∧
  strtod (number_text d) = Some (d, []).

Fixpoint item_ok (v : cJSON) : Prop :=
  match v with
  | cJSON_Number d => number_ok d
  | cJSON_String s => zero_free s
  | cJSON_Array l => foldr (λ v P, item_ok v ∧ P) True l
  | cJSON_Object l => foldr (λ m P, (zero_free m.1 ∧ item_ok m.2) ∧ P) True l
  | _ => True
  end.

(** Arrays and objects in one another. *)
Fixpoint nesting (v : cJSON) : Z :=
  match v with
  | cJSON_Array l => 1 + foldr (λ v n, Z.max (nesting v) n) 0 l
  | cJSON_Object l => 1 + foldr (λ m n, Z.max (nesting m.2) n) 0 l
  | _ => 0
  end.

Lemma c_string_zero_free s : zero_free s → c_string s = s.
Proof.
  induction 1 as [|c s Hc _ IH]; [done|]. cbn. rewrite IH.
  destruct (ascii_eqb c "000") eqn:E; [by apply ascii_eqb_spec in E|done].
Qed.

Ltac eval_escape :=
  match goal with |- context [escape_char ?c] => let t := eval vm_compute in (escape_char c) in change (escape_char c) with t end.

Lemma string_end_escape c s :
  string_end (escape_char c ++ s) = '(b, r) ← string_end s; Some (escape_char c ++ b, r).
Proof. destruct c as [[] [] [] [] [] [] [] []]; eval_escape; cbn; by destruct (string_end s) as [[]|]. Qed.

Lemma unescape_escape c fuel b : unescape (S fuel) (escape_char c ++ b) = s ← unescape fuel b; Some (c :: s).
Proof.
  assert (∀ h1 h2, (zlen (BACKSLASH :: "u"%char :: "0"%char :: "0"%char :: h1 :: h2 :: b) <? 6) = false) as Hz.
  { intros. rewrite !zlen_cons. pose proof (zlen_nonneg b). lia. }
  destruct c as [[] [] [] [] [] [] [] []]; eval_escape; try (cbn; done);
    cbn -[zlen utf16_literal_to_utf8]; unfold utf16_literal_to_utf8; rewrite Hz;
    match goal with |- context [parse_hex4 (drop 2 (?x :: ?y :: ?a :: ?b :: ?c :: ?d :: ?r))] =>
      let n := eval vm_compute in (default 0 (hex_value 0 [a; b; c; d])) in
      change (parse_hex4 (drop 2 (x :: y :: a :: b :: c :: d :: r))) with n
    end; cbn; rewrite drop_0; by destruct (unescape fuel b).
Qed.

Lemma escape_char_nonempty c : (0 < length (escape_char c))%nat.
Proof. pose proof (escape_char_length c) as H. unfold zlen in H. repeat case_match; lia. Qed.

Lemma unescape_all s fuel :
  (length (concat (escape_char <$> s)) ≤ fuel)%nat → unescape fuel (concat (escape_char <$> s)) = Some s.
Proof.
  revert fuel. induction s as [|c s IH]; intros fuel; [by destruct fuel|]. cbn [fmap list_fmap concat].
  rewrite length_app. intros Hf. pose proof (escape_char_nonempty c). destruct fuel as [|fuel]; [lia|].
  rewrite unescape_escape, (IH fuel) by lia. done.
Qed.

Lemma string_end_all s r :
  string_end (concat (escape_char <$> s) ++ DQUOTE :: r) = Some (concat (escape_char <$> s), r).
Proof.
  induction s as [|c s IH]; [done|]. cbn [fmap list_fmap concat]. rewrite <- app_assoc, string_end_escape, IH. done.
Qed.

Lemma parse_string_text s r : zero_free s → parse_string (string_text s ++ r) = Some (s, r).
Proof.
  intros Hs. unfold parse_string, string_text. cbn [app next_is drop]. change (ascii_eqb DQUOTE DQUOTE) with true. cbv iota.
  rewrite drop_0, <- app_assoc. cbn [app]. rewrite string_end_all. cbn. rewrite unescape_all by done. cbn.
  by rewrite c_string_zero_free.
Qed.

(** What follows a number is not part of it. *)
Definition ends_number (r : text) : Prop := match r with c :: _ => number_char c = false | [] => True end.

Lemma take_while_all p t r :
  Forall (λ c, p c = true) t → match r with c :: _ => p c = false | [] => True end → take_while p (t ++ r) = t.
Proof. intros Ht Hr. induction Ht as [|c t Hc _ IH]; cbn; [destruct r as [|c r]; cbn; [done|by rewrite Hr]|by rewrite Hc, IH]. Qed.

Lemma parse_number_text d r :
  number_ok d → ends_number r → parse_number (number_text d ++ r) = Some (cJSON_Number d, r).
Proof.
  intros (_ & Hc & Hl & Hs) Hr. unfold parse_number. unfold zlen in Hl.
  assert (take_while number_char (take 63 (number_text d ++ r)) = number_text d) as ->.
  { rewrite take_app_ge by lia. apply take_while_all; [done|]. destruct (63 - _)%nat; [done|]. by destruct r. }
  rewrite Hs. cbn [mbind option_bind]. rewrite Nat.sub_0_r, drop_app_length. done.
Qed.

Lemma skip_whitespace_head c t : blank c = false → buffer_skip_whitespace (c :: t) = c :: t.
Proof. intros Hc. unfold buffer_skip_whitespace. cbn. by rewrite Hc. Qed.

Lemma digit_not_blank c : is_digit c = true → blank c = false.
Proof. destruct c as [[] [] [] [] [] [] [] []]; vm_compute; done. Qed.

Lemma printed_item_head v : item_ok v → ∃ c t, json_text v = c :: t ∧ blank c = false ∧ c ≠ "]"%char.
Proof.
  destruct v as [| | |d|s|l|l]; cbn [json_text]; intros Hv; try by eexists _, _.
  destruct Hv as (Hh & _). destruct (number_text d) as [|c t]; [done|]. exists c, t. split; [done|].
  apply orb_prop in Hh as [->%ascii_eqb_spec|Hd]; [done|]. split; [by apply digit_not_blank|]. by intros ->.
Qed.

Lemma skip_whitespace_text v r : item_ok v → buffer_skip_whitespace (json_text v ++ r) = json_text v ++ r.
Proof. intros Hv. destruct (printed_item_head v Hv) as (c & t & -> & Hc & _). by apply skip_whitespace_head. Qed.

Lemma skip_whitespace_string s r : buffer_skip_whitespace (string_text s ++ r) = string_text s ++ r.
Proof. by apply skip_whitespace_head. Qed.

(** How a value is parsed back, in a context with [fuel] at depth [depth]. *)
Definition parses (v : cJSON) : Prop :=
  ∀ fuel depth r, (3 * length (json_text v) ≤ fuel)%nat → depth + nesting v ≤ CJSON_NESTING_LIMIT → ends_number r →
    parse_value fuel depth (json_text v ++ r) = Some (v, r).

Lemma parses_number d : number_ok d → parses (cJSON_Number d).
Proof.
  intros Hd fuel depth r Hf _ Hr. cbn [json_text] in *. pose proof (parse_number_text d r Hd Hr) as Hp.
  destruct Hd as (Hh & _). destruct (number_text d) as [|c t]; [done|]. destruct fuel as [|fuel]; [cbn in Hf; lia|].
  cbn [next_is app] in *. unfold parse_value. fold parse_value.
  assert (∀ x y, is_digit x = false → x ≠ "-"%char → starts_with (x :: y) (c :: t ++ r) = false) as Hn.
  { intros x y Hx Hx'. cbn. destruct (ascii_eqb x c) eqn:E; [|done]. apply ascii_eqb_spec in E as ->.
    apply orb_prop in Hh as [?%ascii_eqb_spec|?]; [done|congruence]. }
  change (text_of "null") with ("n"%char :: text_of "ull"). change (text_of "false") with ("f"%char :: text_of "alse").
  change (text_of "true") with ("t"%char :: text_of "rue"). rewrite !Hn by done.
  assert (ascii_eqb c DQUOTE = false) as ->.
  { destruct (ascii_eqb c DQUOTE) eqn:E; [|done]. apply ascii_eqb_spec in E as ->. done. }
  by rewrite Hh.
Qed.

Lemma array_loop_parses l fuel depth r :
  l ≠ [] → Forall (λ v, item_ok v ∧ parses v ∧ depth + nesting v ≤ CJSON_NESTING_LIMIT) l →
  (3 * length (join_comma (map json_text l)) + 1 ≤ fuel)%nat →
  array_loop fuel depth (join_comma (map json_text l) ++ "]"%char :: r) = Some (l, "]"%char :: r).
Proof.
  intros Hne Hl. revert fuel Hne. induction Hl as [|v l (Hv & Hp & Hd) Hl IH]; intros fuel Hne; [done|]. clear Hne.
  cbn [map]. rewrite join_comma_cons, length_app, <- app_assoc. intros Hf. destruct fuel as [|fuel]; [lia|].
  cbn [array_loop]. rewrite skip_whitespace_text by done. destruct l as [|w l].
  - cbn [app map]. rewrite Hp by (done || lia). done.
  - set (r' := map _ _). change r' with (json_text w :: map json_text l). cbn [app].
    rewrite Hp by (done || lia). cbn [mbind option_bind]. rewrite skip_whitespace_head by done. cbn [next_is drop].
    change (ascii_eqb "," ",") with true. cbv iota. rewrite drop_0.
    change (json_text w :: map json_text l) with (map json_text (w :: l)). rewrite IH; [done|done|]. cbn in Hf |- *. lia.
Qed.

Lemma object_loop_parses l fuel depth r :
  l ≠ [] →
  Forall (λ m, zero_free m.1 ∧ item_ok m.2 ∧ parses m.2 ∧ depth + nesting m.2 ≤ CJSON_NESTING_LIMIT) l →
  (3 * length (join_comma (map member_text l)) + 1 ≤ fuel)%nat →
  object_loop fuel depth (join_comma (map member_text l) ++ "}"%char :: r) = Some (l, "}"%char :: r).
Proof.
  intros Hne Hl. revert fuel Hne. induction Hl as [|[k v] l (Hk & Hv & Hp & Hd) Hl IH]; intros fuel Hne; [done|]. clear Hne.
  cbn [fst snd] in *. cbn [map]. rewrite join_comma_cons.
  change (member_text (k, v)) with (string_text k ++ ":"%char :: json_text v).
  rewrite !length_app, <- !app_assoc. cbn [app length]. intros Hf. destruct fuel as [|fuel]; [lia|].
  cbn [object_loop]. unfold string_text at 1. cbn [app]. change (DQUOTE :: ?t) with (string_text k ++ ":"%char :: json_text v ++ match map member_text l with [] => [] | _ => ","%char :: join_comma (map member_text l) end ++ "}"%char :: r).
  rewrite skip_whitespace_string, parse_string_text by done. cbn [mbind option_bind].
  rewrite skip_whitespace_head by done. cbn [next_is drop]. change (ascii_eqb ":" ":") with true. cbv iota. rewrite drop_0.
  rewrite skip_whitespace_text by done. destruct l as [|w l].
  - cbn [app map]. rewrite Hp by (done || lia). done.
  - set (r' := map _ _). change r' with (member_text w :: map member_text l). cbn [app].
    rewrite Hp by (done || lia). cbn [mbind option_bind]. rewrite skip_whitespace_head by done. cbn [next_is drop].
    change (ascii_eqb "," ",") with true. cbv iota. rewrite drop_0.
    change (member_text w :: map member_text l) with (map member_text (w :: l)). rewrite IH; [done|done|]. cbn in Hf |- *. lia.
Qed.

Lemma foldr_and {A} (P : A → Prop) l : foldr (λ x Q, P x ∧ Q) True l ↔ Forall P l.
Proof. induction l as [|x l IH]; cbn; [done|]. by rewrite Forall_cons, IH. Qed.

Lemma foldr_max_le {A} (f : A → Z) l n : 0 ≤ n → foldr (λ x m, Z.max (f x) m) 0 l ≤ n ↔ Forall (λ x, f x ≤ n) l.
Proof. intros Hn. induction l as [|x l IH]; cbn; [done|]. rewrite Forall_cons, <- IH. lia. Qed.

Lemma parses_array l : Forall (λ v, item_ok v ∧ parses v) l → parses (cJSON_Array l).
Proof.
  intros Hl fuel depth r Hf Hd _. cbn [json_text nesting] in *. cbn [length] in Hf. rewrite length_app in Hf. cbn [length] in Hf.
  destruct fuel as [|[|fuel]]; [lia..|]. rewrite <- app_comm_cons, <- app_assoc. cbn [app].
  change (parse_value _ _ ("["%char :: ?s)) with (parse_array (S fuel) depth ("["%char :: s)). cbn [parse_array drop].
  assert (0 ≤ foldr (λ v n, Z.max (nesting v) n) 0 l) by (clear; induction l; cbn; lia).
  replace (CJSON_NESTING_LIMIT <=? depth) with false by lia. rewrite drop_0.
  destruct l as [|v l]; [done|].
  assert (Forall (λ w, nesting w ≤ CJSON_NESTING_LIMIT - (depth + 1)) (v :: l)) as Hn by (apply foldr_max_le; lia).
  pose proof Hl as [[Hv _] _]%Forall_cons. destruct (printed_item_head v Hv) as (c & t & E & Hc & Hb).
  assert (∃ t', join_comma (map json_text (v :: l)) ++ "]"%char :: r = c :: t') as [t' E'].
  { cbn [map]. rewrite join_comma_cons, E, <- app_assoc. by eexists. }
  rewrite E', skip_whitespace_head by done. cbn [next_is].
  destruct (ascii_eqb c "]") eqn:Ec; [by apply ascii_eqb_spec in Ec|]. rewrite <- E', array_loop_parses; [done|done| |lia].
  apply Forall_forall. intros w Hw. rewrite Forall_forall in Hl, Hn. specialize (Hl w Hw) as []. specialize (Hn w Hw). split_and!; [done..|lia].
Qed.

Lemma parses_object l : Forall (λ m, zero_free m.1 ∧ item_ok m.2 ∧ parses m.2) l → parses (cJSON_Object l).
Proof.
  intros Hl fuel depth r Hf Hd _. cbn [json_text nesting] in *. fold member_text in *. change (λ m, _ ++ _ :: _) with member_text in *. cbn [length] in Hf. rewrite length_app in Hf. cbn [length] in Hf.
  destruct fuel as [|[|fuel]]; [lia..|]. rewrite <- app_comm_cons, <- app_assoc. cbn [app].
  change (parse_value _ _ ("{"%char :: ?s)) with (parse_object (S fuel) depth ("{"%char :: s)). cbn [parse_object drop].
  assert (0 ≤ foldr (λ m n, Z.max (nesting m.2) n) 0 l) by (clear; induction l; cbn; lia).
  replace (CJSON_NESTING_LIMIT <=? depth) with false by lia. rewrite drop_0.
  destruct l as [|m l]; [done|].
  assert (Forall (λ m, nesting m.2 ≤ CJSON_NESTING_LIMIT - (depth + 1)) (m :: l)) as Hn by (apply (foldr_max_le (λ m, nesting m.2)); lia).
  assert (∃ t', join_comma (map member_text (m :: l)) ++ "}"%char :: r = DQUOTE :: t') as [t' E'].
  { cbn [map]. rewrite join_comma_cons. unfold member_text at 1, string_text. rewrite <- !app_assoc. by eexists. }
  rewrite E', skip_whitespace_head by done. cbn [next_is]. change (ascii_eqb DQUOTE "}") with false. cbv iota.
  rewrite <- E', object_loop_parses; [done|done| |lia].
  apply Forall_forall. intros w Hw. rewrite Forall_forall in Hl, Hn. specialize (Hl w Hw) as (? & ? & ?). specialize (Hn w Hw). split_and!; [done..|lia].
Qed.

Lemma item_parses v : item_ok v → parses v.
Proof.
  induction v as [| | |d|s|l IH|l IH] using cJSON_nested_ind; cbn [item_ok]; intros Hv;
    [by intros [|fuel] depth r Hf _ _; [cbn in Hf; lia|]..| | | |].
  - by apply parses_number.
  - intros fuel depth r Hf _ _. cbn [json_text] in *. destruct fuel as [|fuel]; [cbn in Hf; lia|].
    pose proof (parse_string_text s r Hv) as E. unfold string_text in *. cbn [app] in *. cbn [parse_value].
    by rewrite E.
  - apply parses_array. apply foldr_and in Hv. rewrite Forall_forall in *. auto.
  - apply parses_object. apply (foldr_and (λ m, zero_free m.1 ∧ item_ok m.2)) in Hv. rewrite Forall_forall in *.
    intros m Hm. destruct (Hv m Hm). auto.
Qed.

Lemma numbers_fit_ok v : item_ok v → numbers_fit v = true.
Proof.
  induction v as [| | |d|s|l IH|l IH] using cJSON_nested_ind; cbn [item_ok numbers_fit]; intros Hv; try done.
  - destruct Hv as (_ & _ & ? & _). unfold number_fits. lia.
  - apply foldr_and in Hv. apply forallb_forall. rewrite Forall_forall in *. intros v Hv'%list_elem_of_In. auto.
  - apply (foldr_and (λ m, zero_free m.1 ∧ item_ok m.2)) in Hv. apply forallb_forall. rewrite Forall_forall in *.
    intros m Hm%list_elem_of_In. destruct (Hv m Hm). auto.
Qed.

(** ** The fuel of the parser is enough *)

Lemma length_skip_while p s : (length (skip_while p s) ≤ length s)%nat.
Proof. induction s as [|c s IH]; cbn; [done|]. destruct (p c); cbn; lia. Qed.

Lemma length_skip_whitespace s : (length (buffer_skip_whitespace s) ≤ length s)%nat.
Proof.
  unfold buffer_skip_whitespace. pose proof (length_skip_while blank s). destruct (skip_while blank s); [|done].
  destruct s as [|c s]; [done|]. destruct (last (c :: s)); cbn; lia.
Qed.

Lemma string_end_shrinks s b r : string_end s = Some (b, r) → (length r ≤ length s)%nat.
Proof.
  remember (length s) as n eqn:Hn. revert s b r Hn. induction n as [n IH] using lt_wf_ind. intros s b r -> E.
  destruct s as [|c s]; [done|]. cbn in E. destruct (ascii_eqb c DQUOTE); [simplify_eq; cbn; lia|].
  destruct (ascii_eqb c BACKSLASH).
  - destruct s as [|d s]; [done|]. destruct (string_end s) as [[b' r']|] eqn:E'; [|done]. cbn in E. simplify_eq.
    specialize (IH (length s) ltac:(cbn; lia) s b' r eq_refl E'). cbn. lia.
  - destruct (string_end s) as [[b' r']|] eqn:E'; [|done]. cbn in E. simplify_eq.
    specialize (IH (length s) ltac:(cbn; lia) s b' r eq_refl E'). cbn. lia.
Qed.

Lemma parse_string_shrinks s k r : parse_string s = Some (k, r) → (length r ≤ length s)%nat.
Proof.
  unfold parse_string. destruct (next_is DQUOTE s); [|done]. destruct (string_end _) as [[b r']|] eqn:E; [|done]. cbn.
  destruct (unescape _ _); [|done]. cbn. intros [= _ <-]. apply string_end_shrinks in E. rewrite length_drop in E. lia.
Qed.

Lemma parse_number_shrinks s v r : parse_number s = Some (v, r) → (length r ≤ length s)%nat.
Proof.
  unfold parse_number. destruct (strtod _) as [[d t]|]; [|done]. cbn. intros [= _ <-]. rewrite length_drop. lia.
Qed.

(** Take the result of a parser apart. *)
Ltac parsed :=
  repeat match goal with
  | H : _ ≫= _ = Some _ |- _ => apply bind_Some in H as ([? ?] & ? & H)
  | H : match ?s with [] => None | _ => _ end = Some _ |- _ => let E := fresh in destruct s eqn:E; [done|]; rewrite <- E in *; clear E
  | H : (if ?b then _ else _) = Some _ |- _ => destruct b eqn:?; [|try done]
  | H : Some _ = Some _ |- _ => injection H as <- <-
  | H : None = Some _ |- _ => discriminate H
  end.

Definition shrinks {A} (f : Z → text → option (A * text)) : Prop :=
  ∀ d s v r, f d s = Some (v, r) → (length r ≤ length s)%nat.

(** Lengths of what is left. *)
Ltac lengths :=
  rewrite ?length_drop in *;
  repeat match goal with
  | H : context [length (buffer_skip_whitespace ?s)] |- _ =>
      pose proof (length_skip_whitespace s); rewrite ?length_drop in *;
      generalize dependent (length (buffer_skip_whitespace s)); intros
  | |- context [length (buffer_skip_whitespace ?s)] =>
      pose proof (length_skip_whitespace s); rewrite ?length_drop in *;
      generalize dependent (length (buffer_skip_whitespace s)); intros
  end; cbn [length] in *; try lia.

Lemma parse_shrinks fuel :
  shrinks (parse_value fuel) ∧ shrinks (parse_array fuel) ∧ shrinks (array_loop fuel) ∧
  shrinks (parse_object fuel) ∧ shrinks (object_loop fuel).
Proof.
  unfold shrinks. induction fuel as [|fuel (IHv & IHa & IHl & IHo & IHm)]; [by split_and!|].
  split_and!; intros d s v r E; cbn [parse_value parse_array array_loop parse_object object_loop] in E; parsed;
    repeat match goal with
    | H : parse_string _ = _ |- _ => apply parse_string_shrinks in H
    | H : parse_number _ = _ |- _ => apply parse_number_shrinks in H
    | H : parse_value _ _ _ = _ |- _ => apply IHv in H
    | H : parse_array _ _ _ = _ |- _ => apply IHa in H
    | H : array_loop _ _ _ = _ |- _ => apply IHl in H
    | H : parse_object _ _ _ = _ |- _ => apply IHo in H
    | H : object_loop _ _ _ = _ |- _ => apply IHm in H
    end; lengths.
Qed.

(** The results agree on what is short enough for [fuel]. *)
Definition agree {A} (k fuel : nat) (f g : Z → text → option A) : Prop :=
  ∀ d s, (3 * length s + k ≤ fuel)%nat → g d s = f d s.

Lemma bind_agree {A B} (m : option A) (f g : A → option B) :
  (∀ x, m = Some x → g x = f x) → m ≫= g = m ≫= f.
Proof. destruct m as [x|]; cbn; [by intros ->|done]. Qed.

Lemma parse_fuel_enough fuel fuel' :
  (fuel ≤ fuel')%nat →
  agree 3 fuel (parse_value fuel) (parse_value fuel') ∧ agree 2 fuel (parse_array fuel) (parse_array fuel') ∧
  agree 4 fuel (array_loop fuel) (array_loop fuel') ∧ agree 2 fuel (parse_object fuel) (parse_object fuel') ∧
  agree 4 fuel (object_loop fuel) (object_loop fuel').
Proof.
  unfold agree. revert fuel'. induction fuel as [|fuel IH]; intros fuel' Hf; [split_and!; intros; lia|].
  destruct fuel' as [|fuel']; [lia|]. destruct (IH fuel' ltac:(lia)) as (IHv & IHa & IHl & IHo & IHm).
  destruct (parse_shrinks fuel) as (Hv & Ha & Hl & Ho & Hm).
  split_and!; intros d s Hs; cbn [parse_value parse_array array_loop parse_object object_loop].
  - destruct s as [|c s]; [done|]. by rewrite IHa, IHo by lia.
  - destruct s as [|c s]; [done|]. rewrite IHl; [done|]. lengths.
  - rewrite IHv by lengths. apply bind_agree. intros [v r] E. apply Hv in E.
    destruct (buffer_skip_whitespace r) as [|c r'] eqn:Er; [done|]. rewrite IHl; [done|].
    pose proof (length_skip_whitespace r). rewrite Er in *. lengths.
  - destruct s as [|c s]; [done|]. rewrite IHm; [done|]. lengths.
  - destruct s as [|c s]; [done|]. apply bind_agree. intros [k r] E%parse_string_shrinks.
    destruct (next_is ":" _); [|done]. rewrite IHv by lengths. apply bind_agree. intros [v r'] E'. apply Hv in E'.
    destruct (buffer_skip_whitespace r') as [|c' r''] eqn:Er; [done|]. rewrite IHm; [done|].
    pose proof (length_skip_whitespace r'). rewrite Er in *. lengths.
Qed.

(** ** A prefix is not a value *)

(** A parser takes its value from the front of the text, whatever follows it. *)
Definition local {A} (ok : text → Prop) (f : text → option (A * text)) : Prop :=
  ∀ s v r, f s = Some (v, r) → ok r → ∃ t, s = t ++ r ∧ ∀ r', ok r' → f (t ++ r') = Some (v, r').

Lemma string_end_local : local (λ _, True) string_end.
Proof.
  intros s. remember (length s) as n eqn:Hn. revert s Hn. induction n as [n IH] using lt_wf_ind.
  intros [|c s] -> b r E _; [done|]. cbn in E. destruct (ascii_eqb c DQUOTE) eqn:E1.
  { injection E as <- <-. exists [c]. split; [done|]. intros r' _. cbn. by rewrite E1. }
  destruct (ascii_eqb c BACKSLASH) eqn:E2.
  - destruct s as [|d s]; [done|]. parsed. destruct (IH (length s) ltac:(cbn; lia) s eq_refl _ _ H I) as (t & -> & Ht).
    exists (c :: d :: t). split; [done|]. intros r' _. cbn. by rewrite E1, E2, Ht.
  - parsed. destruct (IH (length s) ltac:(cbn; lia) s eq_refl _ _ H I) as (t & -> & Ht).
    exists (c :: t). split; [done|]. intros r' _. cbn. by rewrite E1, E2, Ht.
Qed.

Lemma parse_string_local : local (λ _, True) parse_string.
Proof.
  intros s k r E _. unfold parse_string in E. destruct s as [|c s]; [done|]. destruct (next_is DQUOTE (c :: s)) eqn:E1; [|done].
  apply bind_Some in E as ([b r0] & Es & E). apply bind_Some in E as (o & Eo & [= <- <-]).
  cbn [drop] in Es. rewrite drop_0 in Es. destruct (string_end_local _ _ _ Es I) as (t & -> & Ht).
  exists (c :: t). split; [done|]. intros r' _. unfold parse_string. cbn [app next_is drop] in *. rewrite E1, drop_0, Ht by done.
  cbn. by rewrite Eo.
Qed.

Lemma take_while_prefix p s : ∃ r, s = take_while p s ++ r ∧ Forall (λ c, p c = true) (take_while p s).
Proof.
  induction s as [|c s (r & E & Hp)]; [by exists []|]. cbn. destruct (p c) eqn:Ec; [|by exists (c :: s)].
  exists r. cbn. rewrite <- E. auto.
Qed.

Lemma scan_digits_suffix a n s x m r : scan_digits a n s = (x, m, r) → r `suffix_of` s.
Proof.
  revert a n. induction s as [|c s IH]; intros a n; cbn; [by intros [= _ _ <-]|].
  destruct (digit_val c); [|by intros [= _ _ <-]]. intros E%IH. by apply suffix_cons_r.
Qed.

Lemma drop_suffix n (s : text) : drop n s `suffix_of` s.
Proof. exists (take n s). by rewrite take_drop. Qed.

Lemma drop_if_suffix (b : bool) n (s : text) : (if b then drop n s else s) `suffix_of` s.
Proof. destruct b; [apply drop_suffix|done]. Qed.

Lemma scan_exponent_suffix s x r : scan_exponent s = (x, r) → r `suffix_of` s.
Proof.
  unfold scan_exponent. destruct (_ || _); [|by intros [= _ <-]]. destruct (scan_digits _ _ _) as [[y n] r'] eqn:E.
  apply scan_digits_suffix in E. destruct n; intros [= _ <-]; [done|].
  etrans; [exact E|]. etrans; [apply drop_if_suffix|apply drop_suffix].
Qed.

Lemma strtod_suffix s d r : strtod s = Some (d, r) → r `suffix_of` s.
Proof.
  unfold strtod. destruct (scan_digits _ _ _) as [[m n] s1] eqn:E1.
  destruct (if next_is "." s1 then _ else _) as [[m' k] s2] eqn:E2. destruct (n + k)%nat; [done|].
  destruct (scan_exponent s2) as [x s3] eqn:E3. intros [= _ <-].
  etrans; [by eapply scan_exponent_suffix|]. etrans; [|etrans; [by eapply scan_digits_suffix|apply drop_if_suffix]].
  destruct (next_is "." s1); [|by injection E2 as _ _ <-]. etrans; [by eapply scan_digits_suffix|apply drop_suffix].
Qed.

Lemma parse_number_local : local ends_number parse_number.
Proof.
  intros s v r E Hr. unfold parse_number in E. destruct (take_while_prefix number_char (take 63 s)) as (r0 & Es & Hp).
  set (nc := take_while number_char (take 63 s)) in *. apply bind_Some in E as ([d rest] & Ed & [= <- Er]).
  assert (length nc ≤ 63)%nat as Hl.
  { assert (length (take 63 s) = length (nc ++ r0)) as H by (by rewrite Es at 1). rewrite length_take, length_app in H. lia. }
  assert (s = nc ++ (r0 ++ drop 63 s)) as Hs by (rewrite app_assoc, <- Es; by rewrite take_drop).
  destruct (strtod_suffix _ _ _ Ed) as [u Hu]. destruct rest as [|c rest].
  - rewrite Nat.sub_0_r in Er. rewrite Hs in Er at 1. rewrite drop_app_length in Er. exists nc.
    split; [by rewrite <- Er|]. intros r' Hr'. unfold parse_number.
    assert (take_while number_char (take 63 (nc ++ r')) = nc) as ->.
    { rewrite take_app_ge by done. apply take_while_all; [done|]. destruct (63 - _)%nat; [done|]. by destruct r'. }
    rewrite Ed. cbn [mbind option_bind]. by rewrite Nat.sub_0_r, drop_app_length.
  - exfalso. assert (r = (c :: rest) ++ r0 ++ drop 63 s) as ->.
    { rewrite <- Er. rewrite Hs at 1. rewrite Hu at 2. rewrite <- app_assoc, Hu, length_app.
      replace (length u + length (c :: rest) - length (c :: rest))%nat with (length u) by lia. by rewrite drop_app_length. }
    rewrite Hu in Hp. apply Forall_app in Hp as [_ [Hc _]%Forall_cons]. cbn in Hr. congruence.
Qed.

Definition blanks (t : text) : Prop := Forall (λ c, blank c = true) t.

Lemma skip_while_blank s : ∃ t, blanks t ∧ s = t ++ skip_while blank s ∧ match skip_while blank s with c :: _ => blank c = false | [] => True end.
Proof.
  induction s as [|c s (t & Ht & E & Hh)]; [by exists []; split; [constructor|]|]. cbn.
  destruct (blank c) eqn:Ec; [|by exists []; split; [constructor|]]. exists (c :: t). cbn. rewrite <- E. split_and!; [|done..]. by constructor.
Qed.

(** Blanks in front of what has a character that is not one. *)
Lemma skip_whitespace_local s t c r :
  buffer_skip_whitespace s = t ++ c :: r → blank c = false →
  ∃ b, blanks b ∧ s = b ++ t ++ c :: r ∧ ∀ r', buffer_skip_whitespace (b ++ t ++ c :: r') = t ++ c :: r'.
Proof.
  intros E Hc. destruct (skip_while_blank s) as (b & Hb & Es & Hh). unfold buffer_skip_whitespace in E.
  destruct (skip_while blank s) as [|x s'].
  - exfalso. rewrite app_nil_r in Es. subst b. destruct (last s) as [y|] eqn:El; [|by destruct t].
    destruct t as [|? [|]]; [injection E as -> _|discriminate E..].
    apply last_Some in El as [l ->]. apply Forall_app in Hb as [_ [? _]%Forall_cons]. congruence.
  - exists b. rewrite <- E. split_and!; [done..|]. intros r'. unfold buffer_skip_whitespace.
    assert (∃ y u, t ++ c :: r' = y :: u ∧ blank y = false) as (y & u & Ey & Hy).
    { destruct t as [|y t]; injection E as -> _; eauto. }
    rewrite Ey. assert (skip_while blank (b ++ y :: u) = y :: u) as ->; [|done].
    clear -Hb Hy. induction Hb as [|z b Hz _ IH]; cbn; [by rewrite Hy|by rewrite Hz].
Qed.

Lemma blanks_end_number t c r : blanks t → number_char c = false → ends_number (t ++ c :: r).
Proof.
  intros Ht Hc. destruct t as [|x t]; [done|]. apply Forall_cons in Ht as [Hx _]. cbn. destruct x as [[] [] [] [] [] [] [] []]; vm_compute in Hx; done.
Qed.

Lemma next_is_inv c s : next_is c s = true → s = c :: drop 1 s.
Proof. destruct s as [|d s]; [done|]. cbn. rewrite drop_0. by intros ->%ascii_eqb_spec. Qed.

(** The parsers of an array and an object, behind the bracket and up to [c]. *)
Definition local_behind {A} (c : ascii) (f : text → option (A * text)) : Prop :=
  ∀ c0 s v r, f (c0 :: s) = Some (v, r) →
    ∃ t, s = t ++ c :: r ∧ ∀ r', f (c0 :: t ++ c :: r') = Some (v, r').

(** The loops, up to the closing bracket. *)
Definition local_upto {A} (c : ascii) (f : text → option (A * text)) : Prop :=
  ∀ s v r, f s = Some (v, c :: r) → ∃ t, s = t ++ c :: r ∧ ∀ r', f (t ++ c :: r') = Some (v, c :: r').

(** A value, and the character [c] that is next behind it. *)
Lemma then_local {A} ok (f : text → option (A * text)) c s v r1 r :
  local ok f → (∀ b r', blanks b → ok (b ++ c :: r')) → blank c = false →
  f (buffer_skip_whitespace s) = Some (v, r1) → buffer_skip_whitespace r1 = c :: r →
  ∃ t, s = t ++ c :: r ∧
    ∀ r', ∃ r1', f (buffer_skip_whitespace (t ++ c :: r')) = Some (v, r1') ∧ buffer_skip_whitespace r1' = c :: r'.
Proof.
  intros Hf Hok Hc Ev En. destruct (skip_whitespace_local r1 [] c r En Hc) as (b & Hb & -> & H2). cbn [app] in *.
  destruct (Hf _ _ _ Ev) as (tv & E1 & H1); [auto|].
  destruct (skip_whitespace_local s (tv ++ b) c r) as (b0 & Hb0 & -> & H0); [by rewrite E1, <- !app_assoc|done|].
  exists (b0 ++ tv ++ b). split; [by rewrite <- !app_assoc|]. intros r'. exists (b ++ c :: r'). split; [|apply H2].
  rewrite <- app_assoc, H0, <- !app_assoc. auto.
Qed.

(** An element and the rest of the list. *)
Definition elements {A B} (f : text → option (A * text)) (g : A → B) (loop : text → option (list B * text))
    (s : text) : option (list B * text) :=
  '(v, s) ← f (buffer_skip_whitespace s);
  let s := buffer_skip_whitespace s in
  if next_is "," s then '(l, s) ← loop (drop 1 s); Some (g v :: l, s) else Some ([g v], s).

Lemma elements_local {A B} (f : text → option (A * text)) (g : A → B) loop c :
  blank c = false → number_char c = false →
  local ends_number f → local_upto c loop → local_upto c (elements f g loop).
Proof.
  intros Hc Hn Hf Hl s l r E. unfold elements in E. apply bind_Some in E as ([v r1] & Ev & E).
  destruct (next_is "," (buffer_skip_whitespace r1)) eqn:En.
  - apply next_is_inv in En. apply bind_Some in E as ([l' r2] & El & [= <- ->]).
    destruct (Hl _ _ _ El) as (t3 & E3 & H3). rewrite E3 in En.
    destruct (then_local ends_number f "," s v r1 (t3 ++ c :: r)) as (t & -> & Ht); [done|intros; by apply blanks_end_number|done..|].
    exists (t ++ ","%char :: t3). split; [by rewrite <- app_assoc|]. intros r'. rewrite <- app_assoc. unfold elements. cbn [app].
    destruct (Ht (t3 ++ c :: r')) as (r1' & -> & E1). cbn [mbind option_bind]. rewrite E1.
    cbn [next_is drop]. change (ascii_eqb "," ",") with true. cbv iota. by rewrite drop_0, H3.
  - injection E as <- E2.
    destruct (then_local ends_number f c s v r1 r) as (t & -> & Ht); [done|intros; by apply blanks_end_number|done..|].
    exists t. split; [done|]. intros r'. unfold elements. destruct (Ht r') as (r1' & -> & E1). cbn [mbind option_bind].
    rewrite E1. by destruct (next_is "," (c :: r')) eqn:E; [rewrite E2 in En; cbn in En, E; congruence|].
Qed.

Lemma object_loop_unfold fuel d s :
  s ≠ [] →
  object_loop (S fuel) d s =
  ('(k, s) ← parse_string (buffer_skip_whitespace s);
   let s := buffer_skip_whitespace s in
   if next_is ":" s then elements (parse_value fuel d) (λ v, (k, v)) (object_loop fuel d) (drop 1 s) else None).
Proof. by destruct s. Qed.

Lemma object_loop_local fuel d :
  local ends_number (parse_value fuel d) → local_upto "}" (object_loop fuel d) → local_upto "}" (object_loop (S fuel) d).
Proof.
  intros IHv IHl s l r E. destruct s as [|c0 s0]; [done|]. rewrite object_loop_unfold in E by done. set (s := c0 :: s0) in *.
  apply bind_Some in E as ([k rk] & Ek & E). cbv beta iota zeta in E. destruct (next_is ":" (buffer_skip_whitespace rk)) eqn:Enk; [|done].
  apply next_is_inv in Enk. destruct (elements_local _ _ _ "}" eq_refl eq_refl IHv IHl _ _ _ E) as (t & Et & Ht).
  rewrite Et in Enk.
  destruct (then_local _ parse_string ":" s k rk (t ++ "}"%char :: r) parse_string_local) as (t0 & E0 & H0); [done..|].
  exists (t0 ++ ":"%char :: t). split; [rewrite E0; by rewrite <- app_assoc|]. intros r'. rewrite <- app_assoc. cbn [app].
  rewrite object_loop_unfold by (by destruct t0). destruct (H0 (t ++ "}"%char :: r')) as (rk' & -> & E1).
  cbn [mbind option_bind]. rewrite E1. cbn [next_is drop]. change (ascii_eqb ":" ":") with true. cbv iota. by rewrite drop_0.
Qed.

(** Brackets around a loop. *)
Definition bracketed {A B} (c : ascii) (g : list A → B) (loop : text → option (list A * text)) (s : text) :
    option (B * text) :=
  let s := buffer_skip_whitespace (drop 1 s) in
  if next_is c s then Some (g [], drop 1 s)
  else match s with
  | [] => None
  | _ => '(l, s) ← loop s; if next_is c s then Some (g l, drop 1 s) else None
  end.

Lemma bracketed_local {A B} c (g : list A → B) loop :
  blank c = false → local_upto c loop → local_behind c (bracketed c g loop).
Proof.
  intros Hc Hl c0 s v r E. unfold bracketed in E. cbn [drop] in E. rewrite drop_0 in E.
  destruct (next_is c (buffer_skip_whitespace s)) eqn:En.
  - apply next_is_inv in En. injection E as <- Er. rewrite Er in En.
    destruct (skip_whitespace_local s [] c r En Hc) as (b & Hb & -> & Hs). cbn [app] in *. exists b.
    split; [done|]. intros r'. unfold bracketed. cbn [drop]. rewrite drop_0, Hs.
    cbn [next_is drop]. by rewrite (proj2 (ascii_eqb_spec c c) eq_refl), drop_0.
  - destruct (buffer_skip_whitespace s) as [|x s'] eqn:Es; [done|]. apply bind_Some in E as ([l s2] & El & E).
    destruct (next_is c s2) eqn:E2; [|done]. apply next_is_inv in E2. injection E as <- Er. rewrite Er in E2. subst s2.
    destruct (Hl _ _ _ El) as (t & Et & Ht). rewrite Et in Es.
    destruct (skip_whitespace_local s t c r Es Hc) as (b & Hb & -> & Hs). exists (b ++ t).
    split; [by rewrite <- app_assoc|]. intros r'. unfold bracketed. rewrite <- app_assoc. cbn [drop]. rewrite drop_0, Hs.
    destruct t as [|y t]; injection Et as -> ->.
    + cbn in En. by rewrite (proj2 (ascii_eqb_spec c c) eq_refl) in En.
    + cbn [app next_is] in En |- *. rewrite En. specialize (Ht r'). cbn [app] in Ht. rewrite Ht. cbn. by rewrite (proj2 (ascii_eqb_spec c c) eq_refl), drop_0.
Qed.

Lemma word_local {A} (w : text) (v : A) (f : text → option (A * text)) s r :
  starts_with w s = true → (∀ s, starts_with w s = true → f s = Some (v, drop (length w) s)) → r = drop (length w) s →
  ∃ t, s = t ++ r ∧ ∀ r', ends_number r' → f (t ++ r') = Some (v, r').
Proof.
  intros [u ->]%starts_with_spec Hf ->. exists w. rewrite drop_app_length. split; [done|]. intros r' _.
  by rewrite Hf, drop_app_length by apply starts_with_app.
Qed.

(** A value that is not a word is known by its first character. *)
Definition parse_by_head (fuel : nat) (d : Z) (c : ascii) (s : text) : option (cJSON * text) :=
  if ascii_eqb c DQUOTE then '(v, s) ← parse_string s; Some (cJSON_String v, s)
  else if ascii_eqb c "-" || is_digit c then parse_number s
  else if ascii_eqb c "[" then parse_array fuel d s
  else if ascii_eqb c "{" then parse_object fuel d s
  else None.

Lemma parse_value_head fuel d c s v r :
  parse_by_head fuel d c (c :: s) = Some (v, r) → parse_value (S fuel) d (c :: s) = parse_by_head fuel d c (c :: s).
Proof.
  intros E. assert (∀ w ws, w ∈ ["n"; "f"; "t"]%char → starts_with (w :: ws) (c :: s) = false) as Hw.
  { intros w ws Hw. cbn. destruct (ascii_eqb w c) eqn:Ew; [|done]. apply ascii_eqb_spec in Ew as ->. exfalso.
    repeat (apply elem_of_cons in Hw as [->|Hw]; [done|]). by apply elem_of_nil in Hw. }
  cbn [parse_value]. change (text_of "null") with ("n"%char :: text_of "ull").
  change (text_of "false") with ("f"%char :: text_of "alse"). change (text_of "true") with ("t"%char :: text_of "rue").
  by rewrite !Hw by (repeat constructor).
Qed.

(** The parser that the first character [c] chooses. *)
Lemma local_head {A} ok (f : text → option (A * text)) c s v r :
  local ok f → f [] = None → ok [] → ok r → f (c :: s) = Some (v, r) →
  ∃ t, s = t ++ r ∧ ∀ r', ok r' → f (c :: t ++ r') = Some (v, r').
Proof.
  intros Hf H0 Hn Hr E. destruct (Hf _ _ _ E Hr) as (t & Et & Ht). destruct t as [|x t].
  - specialize (Ht [] Hn). cbn in Ht. congruence.
  - injection Et as <- ->. exists t. auto.
Qed.

Lemma behind_local {A} c c0 (f : text → option (A * text)) s v r :
  (f (c0 :: s) = Some (v, r) → ∃ t, s = t ++ c :: r ∧ ∀ r', f (c0 :: t ++ c :: r') = Some (v, r')) →
  f (c0 :: s) = Some (v, r) → ∃ t, s = t ++ r ∧ ∀ r', ends_number r' → f (c0 :: t ++ r') = Some (v, r').
Proof.
  intros H E. destruct (H E) as (t & -> & Ht). exists (t ++ [c]). split; [by rewrite <- app_assoc|].
  intros r' _. rewrite <- app_assoc. apply Ht.
Qed.

Lemma parse_by_head_local fuel d c s v r :
  local_behind "]" (parse_array fuel d) → local_behind "}" (parse_object fuel d) → ends_number r →
  parse_by_head fuel d c (c :: s) = Some (v, r) →
  ∃ t, s = t ++ r ∧ ∀ r', ends_number r' → parse_by_head fuel d c (c :: t ++ r') = Some (v, r').
Proof.
  intros Ha Ho Hr. unfold parse_by_head. destruct (ascii_eqb c DQUOTE).
  { intros ([k r0] & E & [= <- <-])%bind_Some.
    destruct (local_head _ _ _ _ _ _ parse_string_local eq_refl I I E) as (t & -> & Ht).
    exists t. split; [done|]. intros r' _. by rewrite Ht. }
  destruct (ascii_eqb c "-" || is_digit c); [by apply local_head; [apply parse_number_local|..]|].
  destruct (ascii_eqb c "["); [by apply (behind_local "]"); apply Ha|].
  destruct (ascii_eqb c "{"); [by apply (behind_local "}"); apply Ho|done].
Qed.

Lemma parse_value_local fuel d :
  local_behind "]" (parse_array fuel d) → local_behind "}" (parse_object fuel d) → local ends_number (parse_value (S fuel) d).
Proof.
  intros Ha Ho s v r E Hr. cbn [parse_value] in E.
  destruct (starts_with (text_of "null") s) eqn:E1.
  { injection E as <- <-. eapply word_local; [done| |done]. intros s' Hs'. cbn [parse_value]. by rewrite Hs'. }
  destruct (starts_with (text_of "false") s) eqn:E2.
  { injection E as <- <-. eapply word_local; [done| |done]. intros s' [u ->]%starts_with_spec. done. }
  destruct (starts_with (text_of "true") s) eqn:E3.
  { injection E as <- <-. eapply word_local; [done| |done]. intros s' [u ->]%starts_with_spec. done. }
  destruct s as [|c s]; [done|]. destruct (parse_by_head_local fuel d c s v r) as (t & -> & Ht); [done..|].
  exists (c :: t). split; [done|]. intros r' Hr'. specialize (Ht r' Hr'). cbn [app]. by erewrite parse_value_head.
Qed.

Lemma parse_local fuel :
  ∀ d, local ends_number (parse_value fuel d) ∧ local_behind "]" (parse_array fuel d) ∧ local_upto "]" (array_loop fuel d) ∧
       local_behind "}" (parse_object fuel d) ∧ local_upto "}" (object_loop fuel d).
Proof.
  induction fuel as [|fuel IH]; intros d; [by split_and!|]. destruct (IH d) as (IHv & IHa & IHl & IHo & IHm).
  destruct (IH (d + 1)) as (_ & _ & IHl' & _ & IHm'). split_and!.
  - by apply parse_value_local.
  - intros c s v r. cbn [parse_array]. destruct (CJSON_NESTING_LIMIT <=? d); [done|].
    by apply (bracketed_local "]" cJSON_Array (array_loop fuel (d + 1))).
  - by apply (elements_local (parse_value fuel d) id (array_loop fuel d) "]").
  - intros c s v r. cbn [parse_object]. destruct (CJSON_NESTING_LIMIT <=? d); [done|].
    by apply (bracketed_local "}" cJSON_Object (object_loop fuel (d + 1))).
  - by apply object_loop_local.
Qed.

(** ** The buffer of a string *)

(** The backslashes counted when the first character is taken as escaped. *)
Definition skipped_behind (b : text) : Z := match b with _ :: b => skipped_bytes b | [] => 0 end.

Lemma skipped_bytes_cons c b :
  skipped_bytes (c :: b) = if ascii_eqb c BACKSLASH then 1 + skipped_behind b else skipped_bytes b.
Proof. cbn. by destruct (ascii_eqb c BACKSLASH), b. Qed.

Lemma skipped_behind_near b : skipped_behind b ≤ skipped_bytes b ≤ skipped_behind b + 1.
Proof.
  induction b as [|c b IH]; [done|]. rewrite skipped_bytes_cons. cbn [skipped_behind].
  destruct (ascii_eqb c BACKSLASH); lia.
Qed.

Lemma hex_digit_not_backslash c d : hex_digit c = Some d → ascii_eqb c BACKSLASH = false.
Proof. intros H. destruct (ascii_eqb c BACKSLASH) eqn:E; [|done]. apply ascii_eqb_spec in E as ->. done. Qed.

Lemma utf8_encode_length cp t : utf8_encode cp = Some t → zlen t ≤ if cp <? 128 then 1 else if cp <? 65536 then 3 else 4.
Proof. unfold utf8_encode. intros E. repeat case_match; simplify_eq; unfold zlen; cbn [length]; lia. Qed.

Lemma skipped_bytes_two a b r : skipped_bytes (a :: b :: r) ≤ 1 + skipped_bytes r.
Proof.
  rewrite !skipped_bytes_cons. cbn [skipped_behind]. pose proof (skipped_behind_near r).
  destruct (ascii_eqb a BACKSLASH), (ascii_eqb b BACKSLASH); lia.
Qed.

(** Four characters that are not hexadecimal count as 0. *)
Lemma parse_hex4_skipped a b c d r :
  let n := parse_hex4 (a :: b :: c :: d :: r) in
  (n = 0 ∧ skipped_bytes (a :: b :: c :: d :: r) ≤ 2 + skipped_bytes r) ∨
  (0 ≤ n < 65536 ∧ skipped_bytes (a :: b :: c :: d :: r) = skipped_bytes r).
Proof.
  intros n. unfold parse_hex4 in n. change (take 4 _) with [a; b; c; d] in n. cbn [hex_value] in n. subst n.
  assert (∀ x y, hex_digit x = Some y → 0 ≤ y < 16) as Hb.
  { intros x y. unfold hex_digit. intros E. repeat case_match; simplify_eq; lia. }
  assert (skipped_bytes (a :: b :: c :: d :: r) ≤ 2 + skipped_bytes r) as Hle.
  { pose proof (skipped_bytes_two a b (c :: d :: r)). pose proof (skipped_bytes_two c d r). lia. }
  destruct (hex_digit a) eqn:Ea; [|by left]. destruct (hex_digit b) eqn:Eb; [|by left].
  destruct (hex_digit c) eqn:Ec; [|by left]. destruct (hex_digit d) eqn:Ed; [|by left]. right.
  pose proof (Hb _ _ Ea). pose proof (Hb _ _ Eb). pose proof (Hb _ _ Ec). pose proof (Hb _ _ Ed).
  rewrite !skipped_bytes_cons, (hex_digit_not_backslash _ _ Ea), (hex_digit_not_backslash _ _ Eb),
    (hex_digit_not_backslash _ _ Ec), (hex_digit_not_backslash _ _ Ed). cbn. lia.
Qed.

Lemma skipped_escape r : skipped_bytes (BACKSLASH :: "u"%char :: r) = 1 + skipped_bytes r.
Proof. done. Qed.

Lemma utf16_literal_fits b n t :
  utf16_literal_to_utf8 (BACKSLASH :: "u"%char :: b) = Some (n, t) →
  zlen t + skipped_bytes (BACKSLASH :: "u"%char :: b) + 1 ≤
  Z.of_nat n + skipped_bytes (drop n (BACKSLASH :: "u"%char :: b)) ∧ (n ≤ length (BACKSLASH :: "u"%char :: b))%nat.
Proof.
  unfold utf16_literal_to_utf8. destruct (Z.ltb_spec (zlen (BACKSLASH :: "u"%char :: b)) 6) as [|Hl]; [done|].
  assert (∃ a1 a2 a3 a4 r, b = a1 :: a2 :: a3 :: a4 :: r) as (a1 & a2 & a3 & a4 & r & ->).
  { unfold zlen in Hl. destruct b as [|? [|? [|? [|? r]]]]; cbn [length] in Hl; [lia..|eauto 10]. }
  rewrite skipped_escape. cbn [drop]. rewrite ?drop_0.
  destruct (parse_hex4_skipped a1 a2 a3 a4 r) as [[E0 Hs]|[Hn Hs]]; rewrite ?E0.
  { intros E. apply bind_Some in E as (u & [= <-] & [= <- <-]). cbn [drop length]. rewrite drop_0. unfold zlen. cbn [length]. lia. }
  set (first := parse_hex4 _) in *. destruct ((56320 <=? first) && (first <=? 57343)) eqn:E1; [done|].
  destruct ((55296 <=? first) && (first <=? 56319)) eqn:E2.
  - destruct (Z.ltb_spec (zlen r) 6) as [|Hr]; [done|].
    destruct (next_is BACKSLASH r && next_is "u" (drop 1 r)) eqn:E3; [|done]. cbn [negb].
    apply andb_true_iff in E3 as [E3 E4]. apply next_is_inv in E3. apply next_is_inv in E4. rewrite E4 in E3.
    set (r2 := drop 1 (drop 1 r)) in *. clearbody r2. subst r.
    assert (∃ b1 b2 b3 b4 r, r2 = b1 :: b2 :: b3 :: b4 :: r) as (b1 & b2 & b3 & b4 & r & ->).
    { unfold zlen in Hr. destruct r2 as [|? [|? [|? [|? r]]]]; cbn [length] in Hr; [lia..|eauto 10]. }
    cbn [drop]. rewrite ?drop_0. destruct (parse_hex4_skipped b1 b2 b3 b4 r) as [[E0 Hs']|[Hn' Hs']]; rewrite ?E0; [done|].
    set (second := parse_hex4 _) in *. destruct (_ || _); [done|].
    intros E. apply bind_Some in E as (u & E%utf8_encode_length & [= <- <-]). rewrite Hs, skipped_escape, Hs'.
    cbn [drop length]. rewrite drop_0. repeat case_match; lia.
  - intros E. apply bind_Some in E as (u & E%utf8_encode_length & [= <- <-]). rewrite Hs. cbn [drop length]. rewrite drop_0.
    repeat case_match; lia.
Qed.

(** No backslash at the end that escapes nothing. *)
Fixpoint closed (b : text) : bool :=
  match b with
  | c :: b' => if ascii_eqb c BACKSLASH then match b' with _ :: b => closed b | [] => false end else closed b'
  | [] => true
  end.

Lemma string_end_closed s b r : string_end s = Some (b, r) → closed b = true.
Proof.
  remember (length s) as n eqn:Hn. revert s b r Hn. induction n as [n IH] using lt_wf_ind. intros [|c s] b r -> E; [done|].
  cbn in E. destruct (ascii_eqb c DQUOTE); [by simplify_eq|]. destruct (ascii_eqb c BACKSLASH) eqn:Ec.
  - destruct s as [|d s]; [done|]. parsed. cbn. rewrite Ec. eapply (IH (length s)); [cbn; lia|done|done].
  - parsed. cbn. rewrite Ec. eapply (IH (length s)); [cbn; lia|done|done].
Qed.

Lemma unescape_length fuel b s :
  unescape fuel b = Some s → zlen s + skipped_bytes b ≤ zlen b + (if closed b then 0 else 1).
Proof.
  revert b s. induction fuel as [|fuel IH]; intros b s.
  { destruct b; [|done]. by intros [= <-]. }
  destruct b as [|c b]; [by intros [= <-]|]. cbn [unescape closed]. destruct (ascii_eqb c BACKSLASH) eqn:Ec; cbn [negb].
  - apply ascii_eqb_spec in Ec as ->. destruct b as [|d b]; [by intros [= <-]|]. destruct (ascii_eqb d "u") eqn:Ed.
    + apply ascii_eqb_spec in Ed as ->. intros E. apply bind_Some in E as ([n u] & Eu & E).
      apply bind_Some in E as (s' & Es & [= <-]). apply IH in Es. destruct (utf16_literal_fits _ _ _ Eu) as [Hu Hn].
      rewrite zlen_app. unfold zlen in Es |- * at 3. rewrite length_drop in Es. unfold zlen. unfold zlen in Hu.
      destruct (closed (drop _ _)), (closed b); lia.
    + intros E. apply bind_Some in E as (e & _ & E). apply bind_Some in E as (s' & Es%IH & [= <-]).
      rewrite skipped_bytes_cons, (proj2 (ascii_eqb_spec _ _) eq_refl), !zlen_cons. cbn [skipped_behind]. lia.
  - intros E. apply bind_Some in E as (s' & Es%IH & [= <-]). rewrite skipped_bytes_cons, Ec, !zlen_cons. lia.
Qed.

(** ** What the component promises *)

Lemma number_text_int n : in_s32 n → number_text (double_of_Z n) = print_int n.
Proof.
  intros Hn. pose proof (valueint_of_int n Hn) as Ev. pose proof (SFeqb_int n Hn) as Ee. unfold number_text.
  rewrite Ev, Ee. destruct (double_of_Z n) eqn:E; [done|..|done]; exfalso; unfold double_of_Z in E;
    destruct n as [|p|p]; try done; cbn [binary_normalize] in E;
    (unfold in_s32 in Hn; destruct (binary_round_int false p) as (m & _ & E1); [lia|];
     destruct (binary_round_int true p) as (m' & _ & E2); [lia|]; congruence).
Qed.

Lemma is_digit_char d : 0 ≤ d < 10 → is_digit (digit_char d) = true.
Proof. intros Hd. unfold is_digit. rewrite digit_val_char by done. by apply bool_decide_eq_true. Qed.

Lemma print_digits_number fuel n s :
  0 ≤ n → Forall (λ c, number_char c = true) s →
  Forall (λ c, number_char c = true) (print_digits fuel n s) ∧ (length (print_digits fuel n s) ≤ fuel + length s)%nat.
Proof.
  revert n s. induction fuel as [|fuel IH]; intros n s Hn Hs; [done|]. cbn [print_digits].
  assert (Forall (λ c, number_char c = true) (digit_char (n `mod` 10) :: s)) as Hs'.
  { constructor; [|done]. unfold number_char. rewrite is_digit_char by (apply Z.mod_pos_bound; lia). done. }
  destruct (n <? 10); [split; [done|cbn; lia]|].
  destruct (IH (n / 10) (digit_char (n `mod` 10) :: s)) as [H1 H2]; [by apply Z.div_pos; lia|done|].
  split; [done|]. cbn in H2. lia.
Qed.

Lemma number_ok_int n : in_s32 n → number_ok (double_of_Z n).
Proof.
  intros Hn. unfold number_ok. rewrite number_text_int by done. split_and!; [..|by apply strtod_int].
  - unfold in_s32 in Hn. destruct (print_int_head n) as (c & t & -> & [->|(d & Hd & ->)]); [lia|done|].
    cbn [next_is]. rewrite is_digit_char by done. apply orb_true_r.
  - unfold in_s32, print_int in *. destruct (Z.ltb_spec n 0); [constructor; [done|]|]; apply print_digits_number; done || lia.
  - unfold in_s32, print_int, zlen in *. destruct (Z.ltb_spec n 0).
    + destruct (print_digits_number 20 (- n) []) as [_ Hl]; [lia|done|]. cbn [length] in *. lia.
    + destruct (print_digits_number 20 n []) as [_ Hl]; [lia|done|]. cbn [length] in *. lia.
Qed.

Lemma print_item v :
  numbers_fit v = true →
  match cJSON_PrintUnformatted v with
  | Ok (Some t) => t = json_text v
  | Ok None => INT_MAX < zlen (json_text v) + 2
  | _ => False
  end.
Proof.
  intros Hn. unfold cJSON_PrintUnformatted. pose proof (print_value_prints v Hn (mkPrintbuffer 256 [])) as H.
  destruct (print_value v _) as [[p|]| |]; cbn in *; apply H; unfold pb_ok, INT_MAX, zlen; cbn; lia.
Qed.

Lemma print_item_ok v :
  item_ok v → zlen (json_text v) + 2 ≤ INT_MAX → cJSON_PrintUnformatted v = Ok (Some (json_text v)).
Proof.
  intros Hv Hl. pose proof (print_item v (numbers_fit_ok v Hv)) as H.
  destruct (cJSON_PrintUnformatted v) as [[t|]| |]; [by subst|lia|done..].
Qed.

Lemma no_bom c t : c ≠ chr 239 → skip_utf8_bom (c :: t) = c :: t.
Proof.
  intros Hc. unfold skip_utf8_bom. destruct (starts_with BOM (c :: t)) eqn:E; [|by rewrite andb_false_r].
  unfold BOM in E. cbn [starts_with] in E. apply andb_true_iff in E as [E%ascii_eqb_spec _]. done.
Qed.

Lemma parse_item v r :
  item_ok v → nesting v ≤ CJSON_NESTING_LIMIT → ends_number r → r ≠ [] →
  cJSON_ParseWithLengthOpts (json_text v ++ r) = Some (v, r).
Proof.
  intros Hv Hn Hr Hne. destruct (printed_item_head v Hv) as (c & t & E & Hc & _).
  assert (c ≠ chr 239) as Hb.
  { destruct v as [| | |d|s|l|l]; cbn [json_text] in E; try (by injection E as <- _); [].
    destruct Hv as (Hh & _). rewrite E in Hh. cbn in Hh. by intros ->. }
  unfold cJSON_ParseWithLengthOpts. rewrite E. cbn [app].
  rewrite no_bom, skip_whitespace_head by done. change (c :: t ++ r) with ((c :: t) ++ r). rewrite <- E.
  apply item_parses; [done| |lia|done]. unfold parse_fuel. rewrite length_app. lia.
Qed.

(** The parser does not depend on the fuel. *)
Lemma parse_value_fuel fuel d s :
  (parse_fuel s ≤ fuel)%nat → parse_value fuel d s = parse_value (parse_fuel s) d s.
Proof. intros Hf. destruct (parse_fuel_enough (parse_fuel s) fuel Hf) as (Hv & _). by apply Hv. Qed.

Lemma parse_object_prefix t v p q :
  zero_free t → next_is "{" t = true → cJSON_ParseWithLengthOpts (t ++ ["000"%char]) = Some (v, ["000"%char]) →
  t = p ++ q → q ≠ [] → cJSON_Parse p = None.
Proof.
  intros Hz Ht Ev -> Hq. destruct p as [|c p]; [done|]. cbn in Ht. apply ascii_eqb_spec in Ht as ->.
  apply eq_None_not_Some. intros [v' E]. unfold cJSON_Parse in E. apply fmap_Some in E as ([v1 r] & E & _).
  unfold cJSON_ParseWithLengthOpts in *. cbn [app] in *.
  rewrite no_bom, skip_whitespace_head in E, Ev by done.
  set (s1 := "{"%char :: p ++ ["000"%char]) in *. set (s2 := "{"%char :: (p ++ q) ++ ["000"%char]) in *.
  assert (parse_fuel s1 ≤ parse_fuel s2)%nat as Hf.
  { unfold parse_fuel, s1, s2. cbn [length]. rewrite !length_app. lia. }
  rewrite <- (parse_value_fuel (parse_fuel s2)) in E by done. destruct (parse_fuel s2) as [|fuel]; [done|].
  change (parse_value (S fuel) 0 s1) with (parse_object fuel 0 s1) in E.
  change (parse_value (S fuel) 0 s2) with (parse_object fuel 0 s2) in Ev.
  destruct (parse_local fuel 0) as (_ & _ & _ & Hl & _). destruct (Hl _ _ _ _ E) as (u & Eu & Hu).
  assert (∃ r0, r = r0 ++ ["000"%char] ∧ p = u ++ "}"%char :: r0) as (r0 & -> & ->).
  { destruct r as [|x r _] using rev_ind; [by apply app_inj_tail in Eu as [_ ?]|]. exists r.
    rewrite app_comm_cons, app_assoc in Eu. by apply app_inj_tail in Eu as [-> ->]. }
  unfold s2 in Ev. rewrite <- !app_assoc in Ev. cbn [app] in Ev. rewrite Hu in Ev. injection Ev as _ Ev.
  apply (f_equal length) in Ev. rewrite !length_app in Ev. cbn in Ev. destruct q; [done|]. cbn in Ev. lia.
Qed.

(** Printing an item whose numbers take at most 25 characters, as every [int]
    does, never writes past the end of a buffer: the output buffer grows as it
    is needed, the result is the text of the item, and printing fails only if
    the text and its terminating zero do not fit in INT_MAX bytes. *)
Theorem cJSON_Print_safe v :
  numbers_fit v = true →
  match cJSON_PrintUnformatted v with
  | Ok (Some t) => t = json_text v
  | Ok None => INT_MAX < zlen (json_text v) + 2
  | _ => False
  end.
Proof. apply print_item. Qed.

(** C16. What is printed is parsed back to the same item: for strings without a
    zero, numbers whose text reads back as the same double (every [int] among
    them), at most 1000 arrays and objects in one another, and a text that fits
    in INT_MAX bytes. *)
Theorem cJSON_round_trip v :
  item_ok v → nesting v ≤ CJSON_NESTING_LIMIT → zlen (json_text v) + 2 ≤ INT_MAX →
  ∃ t, cJSON_PrintUnformatted v = Ok (Some t) ∧ cJSON_Parse t = Some v.
Proof.
  intros Hv Hn Hl. exists (json_text v). split; [by apply print_item_ok|].
  unfold cJSON_Parse. by rewrite parse_item.
Qed.

Definition sample_item : cJSON :=
  cJSON_Object
    [(text_of "event", cJSON_String (text_of "task" ++ [DQUOTE; "009"%char; "031"%char]));
     (text_of "nBatch", cJSON_Number (double_of_Z (-30)));
     (text_of "spec", cJSON_Object [(text_of "learningRate", cJSON_Number (decimal false 1 (-3)));
                                    (text_of "none", cJSON_Array [cJSON_NULL; cJSON_True; cJSON_Array []])])].

Lemma sample_item_ok : item_ok sample_item.
Proof.
  assert (number_ok (decimal false 1 (-3))) by (split_and!; [..|by vm_compute]; vm_compute; [done|by repeat constructor|done]).
  pose proof (number_ok_int (-30) ltac:(done)). cbn [sample_item item_ok foldr fst snd].
  split_and!; try done; repeat (constructor; [done|]); constructor.
Qed.

Lemma cJSON_round_trip_witness :
  item_ok sample_item ∧ ∃ t, cJSON_PrintUnformatted sample_item = Ok (Some t) ∧ cJSON_Parse t = Some sample_item.
Proof. split; [exact sample_item_ok|]. apply cJSON_round_trip; [exact sample_item_ok|vm_compute; discriminate..]. Defined.

(** The bytes [parse_string] writes for a literal fit the buffer it allocates:
    the literal's length less the number of its backslashes. *)
Theorem parse_string_fits s b r t :
  string_end s = Some (b, r) → unescape (length b) b = Some t → zlen t + 1 ≤ (zlen b + 1 - skipped_bytes b) + 1.
Proof. intros Hc%string_end_closed E%unescape_length. rewrite Hc in E. lia. Qed.

Lemma parse_string_fits_witness :
  let b := BACKSLASH :: text_of "ud83d" ++ BACKSLASH :: text_of "ude00a" ++ [BACKSLASH; "n"%char] in
  unescape (length b) b = Some [chr 240; chr 159; chr 152; chr 128; "a"%char; "010"%char] ∧
  6 + 1 ≤ (zlen b + 1 - skipped_bytes b) + 1.
Proof.
  intros b. assert (unescape (length b) b = Some [chr 240; chr 159; chr 152; chr 128; "a"%char; "010"%char]) as E by (vm_compute; done).
  split; [exact E|]. exact (parse_string_fits (b ++ [DQUOTE]) b [] _ eq_refl E).
Defined.

Lemma cJSON_Print_safe_witness : cJSON_PrintUnformatted sample_item = Ok (Some (json_text sample_item)).
Proof.
  pose proof (cJSON_Print_safe sample_item (numbers_fit_ok _ sample_item_ok)) as H.
  destruct (cJSON_PrintUnformatted sample_item) as [[t|]| |] eqn:E; [rewrite H; reflexivity| |exact (False_ind _ H)|exact (False_ind _ H)].
  exfalso. vm_compute in E. discriminate E.
Defined.
