(* ===== verification/Websocket.v ===== *)
(** * The connection to the AI engine

    Models [nr_pipeline/src/utils/network/task.c] (the tasks and their JSON) and
    [websocket.c]: the messages to the engine, the callback that reassembles
    what the engine sends and acts on it, and the two threads that share the
    connection, the backend and the thread that runs libwebsockets.

    libwebsockets is a parameter of the model in this sense: it calls [callback]
    with any data, which it terminates with a zero, and the calls made to it are
    recorded in order. A function of the backend is the list of the atomic
    actions it makes; an action that waits is one that cannot be taken yet. *)
From S2P Require Import Prelude CText CNumber CJson LinkedQueue.
From Stdlib Require Import ZArith Lia Ascii SpecFloat.
From stdpp Require Import base strings numbers relations list.

Open Scope Z_scope.

(** ** Tasks *)

Record TrainTaskSpec := mkTrainTaskSpec {
  tr_architecture : text; tr_batch_size : Z; tr_epoch : Z;
  tr_n_batch_train : Z; tr_n_batch_eval : Z; tr_n_batch_test : Z;
  tr_learning_rate : double; tr_optimizer : text; tr_loss : text; tr_metrics : text;
  tr_cacheSize : Z; tr_features : text; tr_target : text; tr_nFeat : Z; tr_nField : Z; tr_nclass : Z
}.

Record InferenceTaskSpec := mkInferenceTaskSpec {
  in_architecture : text; in_batch_size : Z; in_n_batch : Z; in_metrics : text;
  in_cacheSize : Z; in_features : text; in_target : text; in_nFeat : Z; in_nField : Z; in_modelId : Z; in_nclass : Z
}.

Record FinetuneTaskSpec := mkFinetuneTaskSpec {
  ft_architecture : text; ft_model_id : Z; ft_batch_size : Z; ft_epoch : Z;
  ft_n_batch_train : Z; ft_n_batch_eval : Z; ft_n_batch_test : Z;
  ft_learning_rate : double; ft_optimizer : text; ft_loss : text; ft_metrics : text;
  ft_cacheSize : Z; ft_nFeat : Z; ft_nField : Z
}.

(** The task and its specification: [MLTask] is the tag. *)
Inductive task_spec :=
| T_TRAIN (spec : TrainTaskSpec)
| T_INFERENCE (spec : InferenceTaskSpec)
| T_FINETUNE (spec : FinetuneTaskSpec).

Definition ML_TASK (task : task_spec) : text :=
  text_of match task with T_TRAIN _ => "train" | T_INFERENCE _ => "inference" | T_FINETUNE _ => "finetune" end.

Definition init_train_task_spec (architecture : text) (batch_size epoch n_batch_train n_batch_eval n_batch_test : Z)
    (learning_rate : double) (optimizer loss metrics : text) (cacheSize : Z) (features target : text)
    (nFeat nField nclass : Z) : TrainTaskSpec :=
  mkTrainTaskSpec architecture batch_size epoch n_batch_train n_batch_eval n_batch_test learning_rate optimizer loss
    metrics cacheSize features target nFeat nField nclass.

Definition init_inference_task_spec (architecture : text) (batch_size n_batch : Z) (metrics : text)
    (cacheSize nFeat nField nclass modelId : Z) (features target : text) : InferenceTaskSpec :=
  mkInferenceTaskSpec architecture batch_size n_batch metrics cacheSize features target nFeat nField modelId nclass.

Definition init_finetune_task_spec (model_name : text) (model_id batch_size epoch n_batch_train n_batch_eval
    n_batch_test : Z) (learning_rate : double) (optimizer loss metrics : text) (cacheSize nFeat nField : Z) :
    FinetuneTaskSpec :=
  mkFinetuneTaskSpec model_name model_id batch_size epoch n_batch_train n_batch_eval n_batch_test learning_rate
    optimizer loss metrics cacheSize nFeat nField.

(** An [int] added as a number. *)
Definition cJSON_AddIntToObject (object : cJSON) (name : string) (n : Z) : cJSON :=
  cJSON_AddNumberToObject object name (double_of_Z n).

Definition task_append_to_json (json : cJSON) (task : task_spec) : cJSON :=
  match task with
  | T_TRAIN spec =>
      let json := cJSON_AddStringToObject json "architecture" (tr_architecture spec) in
      let json := cJSON_AddStringToObject json "features" (tr_features spec) in
      let json := cJSON_AddStringToObject json "target" (tr_target spec) in
      let json := cJSON_AddIntToObject json "cacheSize" (tr_cacheSize spec) in
      let json := cJSON_AddIntToObject json "nFeat" (tr_nFeat spec) in
      let json := cJSON_AddIntToObject json "nField" (tr_nField spec) in
      let json := cJSON_AddIntToObject json "nclass" (tr_nclass spec) in
      let spec_json := cJSON_CreateObject in
      let spec_json := cJSON_AddIntToObject spec_json "batchSize" (tr_batch_size spec) in
      let spec_json := cJSON_AddIntToObject spec_json "epoch" (tr_epoch spec) in
      let spec_json := cJSON_AddIntToObject spec_json "nBatchTrain" (tr_n_batch_train spec) in
      let spec_json := cJSON_AddIntToObject spec_json "nBatchEval" (tr_n_batch_eval spec) in
      let spec_json := cJSON_AddIntToObject spec_json "nBatchTest" (tr_n_batch_test spec) in
      let spec_json := cJSON_AddNumberToObject spec_json "learningRate" (tr_learning_rate spec) in
      let spec_json := cJSON_AddStringToObject spec_json "optimizer" (tr_optimizer spec) in
      let spec_json := cJSON_AddStringToObject spec_json "loss" (tr_loss spec) in
      let spec_json := cJSON_AddStringToObject spec_json "metrics" (tr_metrics spec) in
      cJSON_AddItemToObject json "spec" spec_json
  | T_INFERENCE spec =>
      let json := cJSON_AddStringToObject json "architecture" (in_architecture spec) in
      let json := cJSON_AddStringToObject json "features" (in_features spec) in
      let json := cJSON_AddStringToObject json "target" (in_target spec) in
      let json := cJSON_AddIntToObject json "cacheSize" (in_cacheSize spec) in
      let json := cJSON_AddIntToObject json "nFeat" (in_nFeat spec) in
      let json := cJSON_AddIntToObject json "nField" (in_nField spec) in
      let json := cJSON_AddIntToObject json "nclass" (in_nclass spec) in
      let json := cJSON_AddIntToObject json "modelId" (in_modelId spec) in
      let spec_json := cJSON_CreateObject in
      let spec_json := cJSON_AddIntToObject spec_json "batchSize" (in_batch_size spec) in
      let spec_json := cJSON_AddIntToObject spec_json "nBatch" (in_n_batch spec) in
      let spec_json := cJSON_AddStringToObject spec_json "metrics" (in_metrics spec) in
      cJSON_AddItemToObject json "spec" spec_json
  | T_FINETUNE spec =>
      let json := cJSON_AddStringToObject json "architecture" (ft_architecture spec) in
      let json := cJSON_AddIntToObject json "modelId" (ft_model_id spec) in
      let json := cJSON_AddIntToObject json "cacheSize" (ft_cacheSize spec) in
      let json := cJSON_AddIntToObject json "nFeat" (ft_nFeat spec) in
      let json := cJSON_AddIntToObject json "nField" (ft_nField spec) in
      let spec_json := cJSON_CreateObject in
      let spec_json := cJSON_AddIntToObject spec_json "batchSize" (ft_batch_size spec) in
      let spec_json := cJSON_AddIntToObject spec_json "epoch" (ft_epoch spec) in
      let spec_json := cJSON_AddIntToObject spec_json "nBatchTrain" (ft_n_batch_train spec) in
      let spec_json := cJSON_AddIntToObject spec_json "nBatchEval" (ft_n_batch_eval spec) in
      let spec_json := cJSON_AddIntToObject spec_json "nBatchTest" (ft_n_batch_test spec) in
      let spec_json := cJSON_AddNumberToObject spec_json "learningRate" (ft_learning_rate spec) in
      let spec_json := cJSON_AddStringToObject spec_json "optimizer" (ft_optimizer spec) in
      let spec_json := cJSON_AddStringToObject spec_json "loss" (ft_loss spec) in
      let spec_json := cJSON_AddStringToObject spec_json "metrics" (ft_metrics spec) in
      cJSON_AddItemToObject json "spec" spec_json
  end.

(** ** The connection *)

(** The thread that calls libwebsockets. *)
Inductive caller := Backend | WebsocketThread.

Inductive lws_call :=
| lws_write (by_ : caller) (data : text)
| lws_close.

(** [buf] is the bytes used and [buf_size]; the rest of the buffer is zeros. *)
Record NrWebsocket := mkNrWebsocket {
  interrupted : bool;
  connnected : bool;
  setuped : bool;
  task_acknowledged : bool;
  completed : bool;
  queue : BatchQueue.BatchQueue text;
  sid : text;
  buf : option (text * Z);
  result : option text;
  model_id : Z;
  calls : list lws_call
}.

Definition SID_SIZE : Z := 256.
Definition BUFFER_SIZE : Z := 16384.

Definition set_interrupted (ws : NrWebsocket) : NrWebsocket :=
  mkNrWebsocket true (connnected ws) (setuped ws) (task_acknowledged ws) (completed ws) (queue ws) (sid ws) (buf ws)
    (result ws) (model_id ws) (calls ws).
Definition set_connnected (ws : NrWebsocket) : NrWebsocket :=
  mkNrWebsocket (interrupted ws) true (setuped ws) (task_acknowledged ws) (completed ws) (queue ws) (sid ws) (buf ws)
    (result ws) (model_id ws) (calls ws).
Definition set_setuped (s : text) (ws : NrWebsocket) : NrWebsocket :=
  mkNrWebsocket (interrupted ws) (connnected ws) true (task_acknowledged ws) (completed ws) (queue ws) s (buf ws)
    (result ws) (model_id ws) (calls ws).
Definition set_task_acknowledged (ws : NrWebsocket) : NrWebsocket :=
  mkNrWebsocket (interrupted ws) (connnected ws) (setuped ws) true (completed ws) (queue ws) (sid ws) (buf ws)
    (result ws) (model_id ws) (calls ws).
Definition set_completed (r : option text) (id : Z) (ws : NrWebsocket) : NrWebsocket :=
  mkNrWebsocket (interrupted ws) (connnected ws) (setuped ws) (task_acknowledged ws) true (queue ws) (sid ws) (buf ws)
    r id (calls ws).
Definition set_queue (q : BatchQueue.BatchQueue text) (ws : NrWebsocket) : NrWebsocket :=
  mkNrWebsocket (interrupted ws) (connnected ws) (setuped ws) (task_acknowledged ws) (completed ws) q (sid ws) (buf ws)
    (result ws) (model_id ws) (calls ws).
Definition set_buf (b : option (text * Z)) (ws : NrWebsocket) : NrWebsocket :=
  mkNrWebsocket (interrupted ws) (connnected ws) (setuped ws) (task_acknowledged ws) (completed ws) (queue ws) (sid ws) b
    (result ws) (model_id ws) (calls ws).
Definition add_call (c : lws_call) (ws : NrWebsocket) : NrWebsocket :=
  mkNrWebsocket (interrupted ws) (connnected ws) (setuped ws) (task_acknowledged ws) (completed ws) (queue ws) (sid ws)
    (buf ws) (result ws) (model_id ws) (calls ws ++ [c]).

Definition nws_initialize (queue_max_size : Z) : NrWebsocket :=
  mkNrWebsocket false false false false false (BatchQueue.init_batch_queue queue_max_size) [] None None 0 [].

(** ** Messages to the engine *)

Inductive MLStage := S_TRAIN | S_EVALUATE | S_TEST | S_INFERENCE.

Definition ML_STAGE (stage : MLStage) : text :=
  text_of match stage with
  | S_TRAIN => "train" | S_EVALUATE => "evaluate" | S_TEST => "test" | S_INFERENCE => "inference"
  end.

(** [json] is NULL when it comes from a text that is not JSON. *)
Definition send_json (who : caller) (json : option cJSON) (ws : NrWebsocket) : outcome NrWebsocket :=
  match json with
  | None => Ub "strlen of a null pointer"
  | Some json =>
      data ← cJSON_PrintUnformatted json;
      match data with
      | None => Ub "strlen of a null pointer"
      | Some data => Ok (add_call (lws_write who data) ws)
      end
  end.

Definition batch_json (sid : text) (batch_id : Z) (ml_stage : MLStage) (batch_data : text) : cJSON :=
  let json := cJSON_CreateObject in
  let json := cJSON_AddStringToObject json "version" (text_of "1") in
  let json := cJSON_AddStringToObject json "event" (text_of "batch_data") in
  let json := cJSON_AddStringToObject json "sessionId" sid in
  let json := cJSON_AddIntToObject json "batchId" batch_id in
  let json := cJSON_AddStringToObject json "stage" (ML_STAGE ml_stage) in
  cJSON_AddStringToObject json "byte" batch_data.

(** [None] while the queue is full. *)
Definition nws_send_batch_data (batch_id : Z) (ml_stage : MLStage) (batch_data : text) (ws : NrWebsocket) :
    outcome (option NrWebsocket) :=
  data ← cJSON_PrintUnformatted (batch_json (sid ws) batch_id ml_stage batch_data);
  match data with
  | None => Ub "strdup of a null pointer"
  | Some data =>
      q ← BatchQueue.enqueue data (queue ws);
      match q with Some q => Ok (Some (set_queue q ws)) | None => Ok None end
  end.

Definition task_json (sid : text) (table_name : text) (task : task_spec) : cJSON :=
  let json := cJSON_CreateObject in
  let json := cJSON_AddStringToObject json "version" (text_of "1") in
  let json := cJSON_AddStringToObject json "event" (text_of "task") in
  let json := cJSON_AddStringToObject json "sessionId" sid in
  let json := cJSON_AddStringToObject json "type" (ML_TASK task) in
  let json := cJSON_AddStringToObject json "table" table_name in
  task_append_to_json json task.

Definition send_setup_signal (cache_size : Z) (ws : NrWebsocket) : outcome NrWebsocket :=
  let json := cJSON_CreateObject in
  let json := cJSON_AddStringToObject json "version" (text_of "1") in
  let json := cJSON_AddStringToObject json "event" (text_of "setup") in
  let json := cJSON_AddIntToObject json "cacheSize" cache_size in
  send_json Backend (Some json) ws.

Definition send_disconnect_signal (ws : NrWebsocket) : outcome NrWebsocket :=
  let json := cJSON_CreateObject in
  let json := cJSON_AddStringToObject json "version" (text_of "1") in
  let json := cJSON_AddStringToObject json "event" (text_of "disconnect") in
  let json := cJSON_AddStringToObject json "sessionId" (sid ws) in
  send_json Backend (Some json) ws.

(** ** Messages from the engine *)

Definition buffer_data (input : text) (ws : NrWebsocket) : outcome NrWebsocket :=
  let '(used, size) := default ([], BUFFER_SIZE) (buf ws) in
  size ← (if size <=? zlen used + zlen input
          then if INT_MAX <? 2 * size then Ub "signed overflow" else Ok (2 * size)
          else Ok size);
  if size <? zlen used + zlen input then Ub "write past the end of a block"
  else Ok (set_buf (Some (used ++ input, size)) ws).

(** The C string in the buffer. *)
Definition buffered_text (ws : NrWebsocket) : outcome text :=
  match buf ws with
  | None => Ub "read of a null pointer"
  | Some (used, size) =>
      if (zlen (c_string used) =? zlen used) && (size <=? zlen used) then Ub "read past the end of a block"
      else Ok (c_string used)
  end.

(** What the thread does: it serves libwebsockets, or it is in the loop of
    [handle_request_data] with [n_batch] batches to go. *)
Inductive wthread := Serving | Sending (n_batch : Z).

Definition valueint (item : option cJSON) : outcome Z :=
  match item with None => Ub "read of a null pointer" | Some item => Ok (item_valueint item) end.

(** Up to the loop. *)
Definition handle_request_data (json : cJSON) : outcome Z :=
  start_batch_id ← valueint (cJSON_GetObjectItem json "startBatchId");
  valueint (cJSON_GetObjectItem json "nBatch").

(** A round of the loop, or its end: [None] while the queue is empty. *)
Definition send_round (n_batch : Z) (ws : NrWebsocket) : outcome (option (NrWebsocket * wthread)) :=
  if n_batch <=? 0 then Ok (Some (ws, Serving))
  else
    r ← BatchQueue.dequeue (queue ws);
    match r with
    | None => Ok None
    | Some (batch_data, q) =>
        ws ← send_json WebsocketThread (cJSON_Parse batch_data) (set_queue q ws);
        Ok (Some (ws, Sending (n_batch - 1)))
    end.

Definition handle_result (json : cJSON) (ws : NrWebsocket) : outcome NrWebsocket :=
  match cJSON_GetObjectItem json "byte" with
  | Some (cJSON_String s) => Ok (set_completed (Some s) (model_id ws) ws)
  | _ =>
      model_id ← valueint (cJSON_GetObjectItem json "modelId");
      Ok (set_completed None model_id ws)
  end.

Definition handle_ack_setup (json : cJSON) (ws : NrWebsocket) : outcome NrWebsocket :=
  match cJSON_GetObjectItem json "sessionId" with
  | Some (cJSON_String s) =>
      if SID_SIZE <=? zlen (c_string s) then Ub "strcpy past the end of an array"
      else Ok (set_setuped (c_string s) ws)
  | _ => Raise "Invalid JSON format: 'sessionId' field missing or not a string"
  end.

Definition handle_ack_disconnect (ws : NrWebsocket) : NrWebsocket := add_call lws_close ws.
Definition handle_ack_task (ws : NrWebsocket) : NrWebsocket := set_task_acknowledged ws.

Definition handle_event (event : text) (json : cJSON) (ws : NrWebsocket) : outcome (NrWebsocket * wthread) :=
  if decide (event = text_of "request_data") then n ← handle_request_data json; Ok (ws, Sending n)
  else if decide (event = text_of "result") then ws ← handle_result json ws; Ok (ws, Serving)
  else if decide (event = text_of "ack_setup") then ws ← handle_ack_setup json ws; Ok (ws, Serving)
  else if decide (event = text_of "ack_disconnect") then Ok (handle_ack_disconnect ws, Serving)
  else if decide (event = text_of "ack_task") then Ok (handle_ack_task ws, Serving)
  else Raise "Unknown event type".

(** [callback] for LWS_CALLBACK_CLIENT_RECEIVE. *)
Definition receive (input : text) (ws : NrWebsocket) : outcome (NrWebsocket * wthread) :=
  '(ws, json) ← match buf ws with
                | Some _ =>
                    ws ← buffer_data input ws;
                    t ← buffered_text ws;
                    Ok (ws, cJSON_Parse t)
                | None => Ok (ws, cJSON_Parse (c_string input))
                end;
  let keep := match buf ws with
              | None => ws ← buffer_data input ws; Ok (ws, Serving)
              | Some _ => Ok (ws, Serving)
              end in
  match json with
  | None => keep
  | Some json =>
      match cJSON_GetObjectItem json "event" with
      | Some (cJSON_String event) => handle_event event json (set_buf None ws)
      | _ => keep
      end
  end.

Inductive callback_reason :=
| CLIENT_RECEIVE (input : text) | CLIENT_ESTABLISHED | CLIENT_WRITEABLE | CLIENT_CLOSED | OTHER_REASON.

Definition callback (reason : callback_reason) (ws : NrWebsocket) : outcome (NrWebsocket * wthread) :=
  match reason with
  | CLIENT_RECEIVE input => receive input ws
  | CLIENT_ESTABLISHED => Ok (set_connnected ws, Serving)
  | CLIENT_WRITEABLE => Ok (ws, Serving)
  | CLIENT_CLOSED => Ok (set_interrupted ws, Serving)
  | OTHER_REASON => Ok (ws, Serving)
  end.

(** ** The backend *)

Inductive action :=
| WaitConnected | SendSetup | WaitSetup
| SendTask (table_name : text) (task : task_spec) | WaitTask
| SendBatch (batch_id : Z) (ml_stage : MLStage) (batch_data : text)
| WaitCompletion
| SendDisconnect | Join.

Definition wait_for (flag : NrWebsocket → bool) (ws : NrWebsocket) : outcome (option NrWebsocket) :=
  Ok (if flag ws then Some ws else None).

(** [None] while the action waits. *)
Definition run_action (a : action) (ws : NrWebsocket) : outcome (option NrWebsocket) :=
  match a with
  | WaitConnected => wait_for connnected ws
  | SendSetup => Some <$> send_setup_signal (BatchQueue.max_size (queue ws)) ws
  | WaitSetup => wait_for setuped ws
  | SendTask table_name task => Some <$> send_json Backend (Some (task_json (sid ws) table_name task)) ws
  | WaitTask => wait_for task_acknowledged ws
  | SendBatch batch_id ml_stage batch_data => nws_send_batch_data batch_id ml_stage batch_data ws
  | WaitCompletion => wait_for completed ws
  | SendDisconnect => Some <$> send_disconnect_signal ws
  | Join => wait_for interrupted ws
  end.

Definition nws_connect : list action := [WaitConnected; SendSetup; WaitSetup].
Definition nws_send_task (table_name : text) (task : task_spec) : list action := [SendTask table_name task; WaitTask].
Definition nws_wait_completion : list action := [WaitCompletion].
Definition nws_disconnect : list action := [SendDisconnect; Join].
Definition nws_free_websocket : list action := [Join].

(** ** The two threads *)

Record system := mkSystem { ws : NrWebsocket; thread : wthread; backend : list action }.

(** libwebsockets calls back while the thread serves it and is not interrupted
    ([websocket_thread]). *)
Inductive step : system → system → Prop :=
| step_callback reason w w' th' p :
    interrupted w = false → callback reason w = Ok (w', th') →
    step (mkSystem w Serving p) (mkSystem w' th' p)
| step_send n w w' th' p :
    send_round n w = Ok (Some (w', th')) → step (mkSystem w (Sending n) p) (mkSystem w' th' p)
| step_backend a p w w' th :
    run_action a w = Ok (Some w') → step (mkSystem w th (a :: p)) (mkSystem w' th p).

Definition init_system (queue_max_size : Z) (p : list action) : system :=
  mkSystem (nws_initialize queue_max_size) Serving p.

(** ** Reassembly *)

Fixpoint receive_all (inputs : list text) (w : NrWebsocket) : outcome (NrWebsocket * wthread) :=
  match inputs with
  | [] => Ok (w, Serving)
  | [input] => receive input w
  | input :: inputs =>
      '(w, th) ← receive input w;
      match th with Serving => receive_all inputs w | Sending _ => Ok (w, th) end
  end.

(** The thread holds the beginning [p] of a message that came in at [w0]. *)
Definition holding (p : text) (w0 w : NrWebsocket) : Prop :=
  (p = [] ∧ w = w0) ∨ (p ≠ [] ∧ ∃ size, w = set_buf (Some (p, size)) w0 ∧ zlen p < size ∧ BUFFER_SIZE ≤ size).

Lemma buffer_data_holding p w0 w input :
  buf w0 = None → holding p w0 w → input ≠ [] → zlen input ≤ BUFFER_SIZE → zlen p + zlen input ≤ 2 ^ 29 →
  ∃ w', buffer_data input w = Ok w' ∧ holding (p ++ input) w0 w'.
Proof.
  intros H0 Hh Hne Hi Hp. pose proof (zlen_nonneg input). pose proof (zlen_nonneg p).
  assert (∃ size, default ([], BUFFER_SIZE) (buf w) = (p, size) ∧ zlen p < size ∧ BUFFER_SIZE ≤ size ∧
                  ∀ b, set_buf b w = set_buf b w0) as (size & E & Hs1 & Hs2 & Hset).
  { destruct Hh as [[-> ->]|(_ & size & -> & ? & ?)]; [|by exists size].
    exists BUFFER_SIZE. rewrite H0. split_and!; done || (unfold zlen, BUFFER_SIZE; cbn; lia). }
  unfold buffer_data. rewrite E. cbn beta iota. unfold BUFFER_SIZE, INT_MAX in *.
  assert (p ++ input ≠ []) by (by intros [_ ?]%app_eq_nil).
  destruct (Z.leb_spec size (zlen p + zlen input)).
  - replace (_ <? 2 * size) with false by lia. cbn [mbind outcome_bind]. replace (2 * size <? _) with false by lia. rewrite Hset.
    eexists. split; [done|]. right. split; [done|]. eexists. rewrite zlen_app. unfold BUFFER_SIZE. split_and!; [done|lia..].
  - cbn [mbind outcome_bind]. replace (size <? _) with false by lia. rewrite Hset.
    eexists. split; [done|]. right. split; [done|]. eexists. rewrite zlen_app. unfold BUFFER_SIZE. split_and!; [done|lia..].
Qed.

(** What [receive] does with the text it has, once it is in the buffer or is the
    input itself. *)
Lemma receive_holding p w0 w input :
  buf w0 = None → holding p w0 w → input ≠ [] → zlen input ≤ BUFFER_SIZE → zlen p + zlen input ≤ 2 ^ 29 →
  zero_free (p ++ input) →
  match cJSON_Parse (p ++ input) with
  | None => ∃ w', receive input w = Ok (w', Serving) ∧ holding (p ++ input) w0 w'
  | Some json =>
      ∀ e, cJSON_GetObjectItem json "event" = Some (cJSON_String e) → receive input w = handle_event e json w0
  end.
Proof.
  intros H0 Hh Hne Hi Hp Hz. destruct (buffer_data_holding _ _ _ _ H0 Hh Hne Hi Hp) as (w' & Eb & Hh').
  assert (set_buf None w0 = w0) as Hid by (destruct w0; cbn in *; by subst).
  unfold receive. destruct Hh as [[-> ->]|(Hpne & size & -> & _ & _)].
  - rewrite H0. cbn [mbind outcome_bind app] in *. rewrite c_string_zero_free by done.
    destruct (cJSON_Parse input) as [json|].
    + intros e ->. by rewrite Hid.
    + rewrite H0, Eb. cbn. eauto.
  - destruct Hh' as [[? _]|(_ & size' & -> & Hs & Hs')]; [by destruct p|]. cbn [buf set_buf]. rewrite Eb. cbn [mbind outcome_bind].
    unfold buffered_text. cbn [buf set_buf]. rewrite c_string_zero_free by done.
    replace (size' <=? _) with false by lia. rewrite andb_false_r. cbn [mbind outcome_bind].
    destruct (cJSON_Parse (p ++ input)) as [json|].
    + intros e ->. change (set_buf None (set_buf _ w0)) with (set_buf None w0). by rewrite Hid.
    + eexists. split; [done|]. right. split; [by intros [? _]%app_eq_nil|]. eexists. by split_and!.
Qed.

(** The rest of a message, after its beginning [p]. *)
Lemma receive_rest t json e w0 ps p w :
  buf w0 = None → zero_free t → next_is "{" t = true →
  cJSON_ParseWithLengthOpts (t ++ ["000"%char]) = Some (json, ["000"%char]) →
  cJSON_GetObjectItem json "event" = Some (cJSON_String e) → zlen t ≤ 2 ^ 29 →
  Forall (λ p, p ≠ [] ∧ zlen p ≤ BUFFER_SIZE) ps → ps ≠ [] → t = p ++ concat ps → holding p w0 w →
  receive_all ps w = handle_event e json w0.
Proof.
  intros H0 Hz Hb Hj He Hl Hps. revert p w. induction Hps as [|input ps [Hne Hi] Hps IH]; intros p w Hn Ht Hh; [done|]. clear Hn.
  cbn [concat] in Ht. assert (zero_free (p ++ input)) as Hz'.
  { rewrite Ht, app_assoc in Hz. by apply Forall_app in Hz as [? _]. }
  assert (zlen p + zlen input ≤ 2 ^ 29).
  { rewrite Ht, !zlen_app in Hl. pose proof (zlen_nonneg (concat ps)). lia. }
  pose proof (receive_holding p w0 w input H0 Hh Hne Hi ltac:(done) Hz') as Hr.
  destruct ps as [|q ps].
  - cbn [concat] in Ht. rewrite app_nil_r in Ht. rewrite <- Ht in Hr. unfold cJSON_Parse in Hr. rewrite Hj in Hr. cbn in Hr.
    by apply Hr.
  - rewrite (parse_object_prefix t json (p ++ input) (concat (q :: ps))) in Hr; [|done..|by rewrite <- app_assoc|].
    + destruct Hr as (w' & Er & Hh'). cbn [receive_all]. rewrite Er. cbn [mbind outcome_bind].
      apply (IH (p ++ input)); [done| |done]. by rewrite <- app_assoc.
    + apply Forall_cons in Hps as [[Hq _] _]. cbn. by intros [? _]%app_eq_nil.
Qed.

(** C17. A message that comes in fragments of 1 to 16384 bytes, in whatever way it
    is cut, while no earlier message is incomplete, is handled once and as a
    whole: every fragment but the last only adds to the buffer, which is large
    enough, and with the last the event of the message is handled and the buffer
    is gone. A message is a JSON object with nothing behind it, of at most 512
    MB. A larger first fragment need not fit: the buffer is doubled only once, so
    that over 32768 bytes are written past its end. *)
Theorem fragments_reassembled w t json e ps :
  buf w = None → zero_free t → next_is "{" t = true →
  cJSON_ParseWithLengthOpts (t ++ ["000"%char]) = Some (json, ["000"%char]) →
  cJSON_GetObjectItem json "event" = Some (cJSON_String e) → zlen t ≤ 2 ^ 29 →
  concat ps = t →
  (Forall (λ p, p ≠ [] ∧ zlen p ≤ BUFFER_SIZE) ps → receive_all ps w = handle_event e json w) ∧
  (∀ p q, t = p ++ q → q ≠ [] → 2 * BUFFER_SIZE < zlen p → receive p w = Ub "write past the end of a block").
Proof.
  intros H0 Hz Hb Hj He Hl Hc. split.
  - subst t. intros Hps. eapply (receive_rest (concat ps) json e w ps []); [done..| |done|by left]. by intros ->.
  - intros p q -> Hq Hp. pose proof Hz as [Hzp _]%Forall_app. unfold receive. rewrite H0. cbn [mbind outcome_bind].
    rewrite c_string_zero_free, (parse_object_prefix (p ++ q) json p q) by done.
    rewrite H0. unfold buffer_data. rewrite H0. cbn [default from_option id]. change (zlen []) with 0.
    unfold BUFFER_SIZE in *. replace (16384 <=? _) with true by lia. cbn [mbind outcome_bind].
    change (INT_MAX <? 2 * 16384) with false. cbn [mbind outcome_bind].
    by replace (2 * 16384 <? 0 + zlen p) with true by lia.
Qed.

Definition sample_request : text :=
  json_text (cJSON_Object [(text_of "event", cJSON_String (text_of "request_data"));
                           (text_of "startBatchId", cJSON_Number (double_of_Z 0));
                           (text_of "nBatch", cJSON_Number (double_of_Z 3))]).

Lemma fragments_reassembled_witness :
  receive_all [take 5 sample_request; take 20 (drop 5 sample_request); drop 25 sample_request] (nws_initialize 10) =
  Ok (nws_initialize 10, Sending 3).
Proof.
  refine (eq_trans (proj1 (fragments_reassembled (nws_initialize 10) sample_request
    (cJSON_Object [(text_of "event", cJSON_String (text_of "request_data"));
                   (text_of "startBatchId", cJSON_Number (double_of_Z 0));
                   (text_of "nBatch", cJSON_Number (double_of_Z 3))]) (text_of "request_data")
    [take 5 sample_request; take 20 (drop 5 sample_request); drop 25 sample_request] _ _ _ _ _ _ _) _) _).
  - reflexivity.
  - apply (bool_decide_unpack _). vm_compute. exact I.
  - reflexivity.
  - vm_compute. reflexivity.
  - reflexivity.
  - vm_compute. discriminate.
  - reflexivity.
  - repeat constructor; vm_compute; discriminate.
  - vm_compute. reflexivity.
Defined.

(** ** The batches reach the engine *)

Lemma zero_free_c_string s : zero_free (c_string s).
Proof.
  induction s as [|c s IH]; cbn; [constructor|]. destruct (ascii_eqb c "000") eqn:E; [constructor|].
  constructor; [|done]. intros ->. done.
Qed.

Lemma length_c_string s : zlen (c_string s) ≤ zlen s.
Proof. induction s as [|c s IH]; cbn; [done|]. rewrite zlen_cons. destruct (ascii_eqb c "000"); rewrite ?zlen_cons; [|lia]. pose proof (zlen_nonneg s). unfold zlen at 1. cbn. lia. Qed.

Lemma string_text_bound s : zlen (string_text s) ≤ 6 * zlen s + 2.
Proof.
  rewrite string_text_length. enough (escape_characters s ≤ 5 * zlen s) by lia.
  induction s as [|c s IH]; [done|]. rewrite zlen_cons. unfold escape_characters in *. cbn [foldr]. repeat case_match; lia.
Qed.

Lemma print_int_bound n : in_s32 n → zlen (print_int n) ≤ 25.
Proof. intros Hn. pose proof (number_ok_int n Hn) as (_ & _ & Hl & _). by rewrite number_text_int in Hl. Qed.

Lemma batch_json_ok s id stage d : in_s32 id → item_ok (batch_json s id stage d).
Proof.
  intros Hid. pose proof (number_ok_int id Hid). cbn -[number_ok c_string ML_STAGE text_of].
  split_and!; try apply zero_free_c_string; try done; by repeat constructor.
Qed.

Definition batch_limit : Z := 2 ^ 28.

Lemma batch_json_fits s id stage d :
  in_s32 id → zlen s < SID_SIZE → zlen d ≤ batch_limit → zlen (json_text (batch_json s id stage d)) + 2 ≤ INT_MAX.
Proof.
  intros Hid Hs Hd. unfold SID_SIZE, batch_limit in *.
  pose proof (string_text_bound (c_string s)). pose proof (string_text_bound (c_string d)).
  pose proof (length_c_string s). pose proof (length_c_string d). pose proof (print_int_bound id Hid).
  assert (zlen (string_text (c_string (ML_STAGE stage))) ≤ 20) by (destruct stage; vm_compute; discriminate).
  unfold batch_json, cJSON_AddIntToObject, cJSON_AddStringToObject, cJSON_AddNumberToObject, cJSON_CreateString,
    cJSON_CreateNumber, cJSON_AddItemToObject, cJSON_CreateObject. cbn [app json_text map join_comma fst snd].
  rewrite number_text_int by done. set (a := string_text (c_string s)) in *. set (b := string_text (c_string d)) in *.
  set (c := string_text (c_string (ML_STAGE stage))) in *. set (i := print_int id) in *. clearbody a b c i.
  repeat (rewrite zlen_app || rewrite zlen_cons).
  repeat match goal with |- context [zlen (string_text (?f (text_of ?x)))] =>
    let n := eval vm_compute in (zlen (string_text (f (text_of x)))) in change (zlen (string_text (f (text_of x)))) with n
  | |- context [zlen (string_text (text_of ?x))] =>
    let n := eval vm_compute in (zlen (string_text (text_of x))) in change (zlen (string_text (text_of x))) with n end.
  change (zlen []) with 0. unfold INT_MAX. lia.
Qed.

Definition written (w : NrWebsocket) : list text :=
  omap (λ c, match c with lws_write WebsocketThread t => Some t | _ => None end) (calls w).

Definition batches (p : list action) : list (Z * MLStage * text) :=
  omap (λ a, match a with SendBatch id stage d => Some (id, stage, d) | _ => None end) p.

(** The text of a batch, in the session [s] that was set when it was sent. *)
Definition batch_message (t : text) (b : Z * MLStage * text) : Prop :=
  ∃ s, zlen s < SID_SIZE ∧ t = json_text (batch_json s b.1.1 b.1.2 b.2).

Definition action_ok (a : action) : Prop :=
  match a with SendBatch id _ d => in_s32 id ∧ zlen d ≤ batch_limit | _ => True end.

Definition batch_ok (b : Z * MLStage * text) : Prop := in_s32 b.1.1 ∧ zlen b.2 ≤ batch_limit.

Lemma batches_ok p : Forall action_ok p → Forall batch_ok (batches p).
Proof. induction 1 as [|a p Ha _ IH]; [constructor|]. destruct a; try done. by constructor. Qed.

Lemma batches_app p q : batches (p ++ q) = batches p ++ batches q.
Proof. apply omap_app. Qed.

(** What a batch in the queue is sent as. *)
Lemma send_batch_message t b w :
  batch_message t b → batch_ok b → send_json WebsocketThread (cJSON_Parse t) w = Ok (add_call (lws_write WebsocketThread t) w).
Proof.
  destruct b as [[id stage] d]. intros (s & Hs & ->) [Hid Hd]. cbn [fst snd] in *.
  assert (item_ok (batch_json s id stage d)) by (by apply batch_json_ok).
  unfold cJSON_Parse. rewrite parse_item by (done || vm_compute; discriminate). cbn.
  by rewrite print_item_ok by (done || by apply batch_json_fits).
Qed.

Lemma written_add w c : written (add_call c w) = written w ++ (match c with lws_write WebsocketThread t => [t] | _ => [] end).
Proof. unfold written. cbn [calls add_call]. rewrite omap_app. f_equal. by destruct c as [[]|]. Qed.

Definition delivers (max : Z) (p : list action) (s : system) : Prop :=
  ∃ done xs, p = done ++ backend s ∧ BatchQueue.batch_inv (queue (ws s)) xs ∧
    Forall2 batch_message (written (ws s) ++ xs) (batches done) ∧ zlen (sid (ws s)) < SID_SIZE ∧
    BatchQueue.max_size (queue (ws s)) = max.

(** What the callback does not touch. *)
Definition keeps (w w' : NrWebsocket) : Prop :=
  queue w' = queue w ∧ written w' = written w ∧ (zlen (sid w) < SID_SIZE → zlen (sid w') < SID_SIZE).

Lemma handle_event_keeps e json w w' th : handle_event e json w = Ok (w', th) → keeps w w'.
Proof.
  unfold handle_event, handle_request_data, handle_result, handle_ack_setup, handle_ack_disconnect, handle_ack_task, keeps.
  intros E. unfold mbind, outcome_bind in E. repeat case_match; simplify_eq; cbn; try done; split_and!; try done; [lia|].
  rewrite omap_app. by rewrite app_nil_r.
Qed.

Lemma buffer_data_sets input w w' : buffer_data input w = Ok w' → ∃ b, w' = set_buf b w.
Proof.
  unfold buffer_data. destruct (default _ _) as [used size]. intros E. unfold mbind, outcome_bind in E.
  repeat case_match; simplify_eq; eauto.
Qed.

Lemma receive_keeps input w w' th : receive input w = Ok (w', th) → keeps w w'.
Proof.
  unfold receive. intros E.
  destruct (match buf w with Some _ => _ | None => _ end) as [[w1 json]| |] eqn:E1; [|done..]. cbn [mbind outcome_bind] in E.
  assert (∃ b, w1 = set_buf b w) as [b ->].
  { destruct (buf w) eqn:Eb; [|injection E1 as <- _; exists None; destruct w; cbn in *; by subst].
    destruct (buffer_data input w) as [w2| |] eqn:E2; [|done..]. cbn in E1. destruct (buffered_text w2); [|done..].
    injection E1 as <- _. by eapply buffer_data_sets. }
  assert (∀ r, match buf (set_buf b w) with None => w ← buffer_data input (set_buf b w); Ok (w, Serving) | Some _ => Ok (set_buf b w, Serving) end = Ok r → keeps w r.1) as Hk.
  { intros [w2 th2]. cbn [buf set_buf]. destruct b; [by intros [= <- <-]|].
    destruct (buffer_data input _) as [w3| |] eqn:E3; [|done..]. apply buffer_data_sets in E3 as [b' ->]. by intros [= <- <-]. }
  destruct json as [json|]; [|by apply (Hk (w', th))].
  destruct (cJSON_GetObjectItem json "event") as [[]|]; try by apply (Hk (w', th)).
  apply handle_event_keeps in E. exact E.
Qed.

Lemma callback_keeps reason w w' th : callback reason w = Ok (w', th) → keeps w w'.
Proof. destruct reason; cbn [callback]; [apply receive_keeps|by intros [= <- <-]..]. Qed.

Lemma send_json_backend json w w' :
  send_json Backend json w = Ok w' → keeps w w'.
Proof.
  unfold send_json. destruct json; [|done]. destruct (cJSON_PrintUnformatted _) as [[]| |]; [|done..]. intros [= <-].
  split_and!; [done| |done]. rewrite written_add. by rewrite app_nil_r.
Qed.

(** An action that does not send a batch. *)
Lemma run_action_keeps a w w' :
  run_action a w = Ok (Some w') → (∀ id stage d, a ≠ SendBatch id stage d) → keeps w w'.
Proof.
  intros E Ha. destruct a; cbn [run_action] in E; try by (unfold wait_for in E; repeat case_match; simplify_eq).
  - destruct (send_setup_signal _ w) eqn:Es; [|done..]. injection E as <-. exact (send_json_backend _ _ _ Es).
  - destruct (send_json Backend _ w) eqn:Es; [|done..]. injection E as <-. exact (send_json_backend _ _ _ Es).
  - by edestruct Ha.
  - destruct (send_disconnect_signal w) eqn:Es; [|done..]. injection E as <-. exact (send_json_backend _ _ _ Es).
Qed.

(** Sending a batch puts its message in the queue. *)
Lemma send_batch_enqueues id stage d w xs :
  in_s32 id → zlen d ≤ batch_limit → zlen (sid w) < SID_SIZE → BatchQueue.batch_inv (queue w) xs →
  match nws_send_batch_data id stage d w with
  | Ok (Some w') =>
      zlen xs < BatchQueue.max_size (queue w) ∧ ∃ q, w' = set_queue q w ∧
      BatchQueue.batch_inv q (xs ++ [json_text (batch_json (sid w) id stage d)]) ∧
      BatchQueue.max_size q = BatchQueue.max_size (queue w)
  | Ok None => BatchQueue.max_size (queue w) ≤ zlen xs
  | _ => False
  end.
Proof.
  intros Hid Hd Hs Hq. unfold nws_send_batch_data.
  rewrite print_item_ok by (by apply batch_json_ok || by apply batch_json_fits). cbn [mbind outcome_bind].
  pose proof (BatchQueue.batch_step_refines (BatchQueue.BEnqueue (json_text (batch_json (sid w) id stage d))) _ _ Hq) as (H1 & H2 & H3).
  cbn [BatchQueue.batch_step BatchQueue.spec_step] in *. destruct (BatchQueue.enqueue _ (queue w)) as [[q|]| |]; cbn in *.
  - case_decide; [|done]. cbn in *. eauto 10.
  - case_decide; [done|]. lia.
  - case_decide; done.
  - case_decide; done.
Qed.

(** A round of the loop sends the oldest batch. *)
Lemma send_round_spec n w xs bs :
  BatchQueue.batch_inv (queue w) xs → Forall2 batch_message xs bs → Forall batch_ok bs → 0 < n →
  match xs with
  | [] => send_round n w = Ok None
  | x :: xs => ∃ q, send_round n w = Ok (Some (add_call (lws_write WebsocketThread x) (set_queue q w), Sending (n - 1))) ∧
                BatchQueue.batch_inv q xs ∧ BatchQueue.max_size q = BatchQueue.max_size (queue w)
  end.
Proof.
  intros Hq Hm Hok Hn. unfold send_round. replace (n <=? 0) with false by lia.
  pose proof (BatchQueue.batch_step_refines BatchQueue.BDequeue _ _ Hq) as (H1 & H2 & H3).
  cbn [BatchQueue.batch_step BatchQueue.spec_step] in *. destruct xs as [|x xs].
  - destruct (BatchQueue.dequeue (queue w)) as [[[]|]| |]; cbn in *; done.
  - apply Forall2_cons_inv_l in Hm as (b & bs' & Hb & _ & ->). apply Forall_cons in Hok as [Hokb _].
    destruct (BatchQueue.dequeue (queue w)) as [[[y q]|]| |]; cbn in *; [|done..]. injection H1 as ->.
    exists q. split; [|done]. erewrite send_batch_message by done. done.
Qed.

Lemma step_delivers max p s s' : Forall action_ok p → delivers max p s → step s s' → delivers max p s'.
Proof.
  intros Hp (d & xs & Ep & Hq & Hm & Hs & Hx) Hst. assert (Forall batch_ok (batches d)) as Hok.
  { apply batches_ok. rewrite Ep in Hp. by apply Forall_app in Hp as [? _]. }
  destruct Hst as [reason w w' th' q _ E|n w w' th' q E|a q w w' th E]; cbn [ws backend] in *.
  - apply callback_keeps in E as (Eq & Ew & Es). exists d, xs. cbn [ws backend]. rewrite Eq, Ew. auto 10.
  - destruct (Z.leb_spec n 0) as [Hn|Hn].
    { unfold send_round in E. replace (n <=? 0) with true in E by lia. injection E as <- <-. exists d, xs. auto 10. }
    apply Forall2_app_inv_l in Hm as (b1 & b2 & Hm1 & Hm2 & Eb). rewrite Eb in Hok. apply Forall_app in Hok as [_ Hok2].
    pose proof (send_round_spec n w xs b2 Hq Hm2 Hok2 Hn) as Hr. destruct xs as [|x xs]; [congruence|].
    destruct Hr as (q' & Er & Hq' & Hx'). rewrite Er in E. injection E as <- <-. exists d, xs. cbn [ws backend queue sid set_queue add_call].
    split_and!; [done..| |done|congruence]. rewrite written_add, <- app_assoc, Eb. by apply Forall2_app.
  - assert ((∃ id stage b, a = SendBatch id stage b) ∨ ¬ (∃ id stage b, a = SendBatch id stage b)) as [(id & stage & b & ->)|Ha]; [destruct a; naive_solver| |].
    + assert (action_ok (SendBatch id stage b)) as [Hid Hb].
      { rewrite Ep in Hp. apply Forall_app in Hp as [_ Hp]. by apply Forall_cons in Hp as [? _]. }
      cbn [run_action] in E. pose proof (send_batch_enqueues id stage b w xs Hid Hb Hs Hq) as He. rewrite E in He.
      destruct He as (_ & q' & -> & Hq' & Hx').
      exists (d ++ [SendBatch id stage b]), (xs ++ [json_text (batch_json (sid w) id stage b)]). cbn [ws backend queue sid set_queue].
      split_and!; [by rewrite <- app_assoc|done| |done|congruence].
      rewrite batches_app, app_assoc. change (written (set_queue q' w)) with (written w). apply Forall2_app; [done|].
      constructor; [|constructor]. by exists (sid w).
    + apply run_action_keeps in E as (Eq & Ew & Es); [|naive_solver]. exists (d ++ [a]), xs. cbn [ws backend]. rewrite Eq, Ew.
      split_and!; [by rewrite <- app_assoc|done| |auto|done]. rewrite batches_app. replace (batches [a]) with (@nil (Z * MLStage * text)); [by rewrite app_nil_r|].
      destruct a; try done. exfalso. eauto.
Qed.

Lemma reachable_delivers max p s :
  in_u64 max → Forall action_ok p → rtc step (init_system max p) s → delivers max p s.
Proof.
  intros Hmax Hp. assert (delivers max p (init_system max p)) as H0.
  { exists [], []. cbn. split_and!; [done| |constructor|done..]. unfold BatchQueue.batch_inv.
    cbn. split_and!; [apply is_queue_empty|done|by destruct Hmax|done]. }
  generalize dependent (init_system max p). intros s0 H0 Hr. induction Hr as [|s0 s1 s2 Hs _ IH]; [done|].
  apply IH. by eapply step_delivers.
Qed.

(** In every interleaving of the backend, the websocket thread and the
    engine, what the thread has sent and what is in the queue are the messages
    of the batches the backend has sent so far, in order, each text exactly as
    it was made; the queue never holds more than its maximum, and the loop that
    sends never does anything undefined. *)
Theorem batches_sent_in_order max p s :
  in_u64 max → Forall action_ok p → rtc step (init_system max p) s →
  (∃ done queued, p = done ++ backend s ∧ zlen queued ≤ max ∧
     Forall2 batch_message (written (ws s) ++ queued) (batches done)) ∧
  (∀ n, thread s = Sending n → is_ok (send_round n (ws s)) = true).
Proof.
  intros Hmax Hp Hr. destruct (reachable_delivers max p s Hmax Hp Hr) as (d & xs & Ep & Hq & Hm & Hs & Hx). split.
  - exists d, xs. split_and!; [done| |done]. destruct Hq as (_ & ? & ? & _). lia.
  - intros n _. destruct (Z.leb_spec n 0); [unfold send_round; by replace (n <=? 0) with true by lia|].
    apply Forall2_app_inv_l in Hm as (b1 & b2 & _ & Hm2 & Eb).
    pose proof (send_round_spec n (ws s) xs b2 Hq Hm2) as Hsr.
    assert (Forall batch_ok b2) as Hok.
    { assert (Forall batch_ok (batches d)) as Hd by (apply batches_ok; rewrite Ep in Hp; by apply Forall_app in Hp as [? _]).
      rewrite Eb in Hd. by apply Forall_app in Hd as [_ ?]. }
    specialize (Hsr Hok ltac:(lia)). destruct xs; [by rewrite Hsr|]. by destruct Hsr as (q & -> & _).
Qed.

Lemma delivers_counts max p s :
  delivers max p s → ∃ d xs, p = d ++ backend s ∧ BatchQueue.batch_inv (queue (ws s)) xs ∧
    zlen (written (ws s)) + zlen xs = zlen (batches d).
Proof.
  intros (d & xs & Ep & Hq & Hm & _). exists d, xs. split_and!; [done..|].
  apply Forall2_length in Hm. rewrite length_app in Hm. unfold zlen. lia.
Qed.

Lemma send_json_completed who json w w' : send_json who json w = Ok w' → completed w' = completed w.
Proof. unfold send_json. destruct json; [|done]. destruct (cJSON_PrintUnformatted _) as [[]| |]; [|done..]. by intros [= <-]. Qed.

Lemma run_action_completed a w w' : run_action a w = Ok (Some w') → completed w' = completed w.
Proof.
  intros E. destruct a; cbn [run_action] in E; try by (unfold wait_for in E; repeat case_match; simplify_eq).
  - destruct (send_setup_signal _ w) eqn:Es; [|done..]. injection E as <-. exact (send_json_completed _ _ _ _ Es).
  - destruct (send_json Backend _ w) eqn:Es; [|done..]. injection E as <-. exact (send_json_completed _ _ _ _ Es).
  - unfold nws_send_batch_data in E. destruct (cJSON_PrintUnformatted _) as [[]| |]; [|done..]. cbn in E.
    destruct (BatchQueue.enqueue _ _) as [[]| |]; [|done..]. by injection E as <-.
  - destruct (send_disconnect_signal w) eqn:Es; [|done..]. injection E as <-. exact (send_json_completed _ _ _ _ Es).
Qed.

(** The thread owes more batches than there will ever be. *)
Definition starved (p : list action) (k : Z) (c : bool) (s : system) : Prop :=
  ∃ n, thread s = Sending n ∧ zlen (written (ws s)) + n = k ∧ completed (ws s) = c.

Lemma step_starved max p k c s s' :
  Forall action_ok p → zlen (batches p) < k → delivers max p s → starved p k c s → step s s' → starved p k c s'.
Proof.
  intros Hp Hk Hd (n & Ht & Hw & Hc) Hst. destruct (delivers_counts max p s Hd) as (d & xs & Ep & Hq & Hl).
  assert (zlen (batches d) ≤ zlen (batches p)).
  { rewrite Ep, batches_app, zlen_app. pose proof (zlen_nonneg (batches (backend s))). lia. }
  assert (0 < n) by (pose proof (zlen_nonneg xs); lia).
  destruct Hd as (d' & xs' & Ep' & Hq' & Hm' & _). assert (Forall batch_ok (batches d')) as Hok.
  { apply batches_ok. rewrite Ep' in Hp. by apply Forall_app in Hp as [? _]. }
  destruct Hst as [reason w w' th' q _ E|m w w' th' q E|a q w w' th E]; cbn [ws backend thread] in *; [done|..].
  - injection Ht as ->. apply Forall2_app_inv_l in Hm' as (b1 & b2 & _ & Hm2 & Eb). rewrite Eb in Hok. apply Forall_app in Hok as [_ Hok2].
    pose proof (send_round_spec n w xs' b2 Hq' Hm2 Hok2 ltac:(lia)) as Hr. destruct xs' as [|x xs']; [congruence|].
    destruct Hr as (q' & Er & _). rewrite Er in E. injection E as <- <-. exists (n - 1). cbn [ws thread completed add_call set_queue].
    split_and!; [done| |done]. rewrite written_add, zlen_app. change (written (set_queue q' w)) with (written w).
    change (zlen [x]) with 1. lia.
  - exists n. cbn [ws thread]. rewrite (run_action_completed _ _ _ E). split_and!; [done| |done].
    assert (written w' = written w) as ->; [|done].
    assert ((∃ id stage b, a = SendBatch id stage b) ∨ ¬ (∃ id stage b, a = SendBatch id stage b)) as [(id & stage & b & ->)|Ha]; [destruct a; naive_solver| |].
    + cbn [run_action] in E. unfold nws_send_batch_data in E. destruct (cJSON_PrintUnformatted _) as [[]| |]; [|done..]. cbn in E.
      destruct (BatchQueue.enqueue _ _) as [[]| |]; [|done..]. by injection E as <-.
    + apply run_action_keeps in E as (_ & ? & _); [done|naive_solver].
Qed.

(** If the engine asks for more batches than the backend will send in all, the
    websocket thread stays in its loop for ever: it never serves the connection
    again, so the task is never seen to complete. *)
Theorem starved_request_never_ends max p s n :
  in_u64 max → Forall action_ok p → rtc step (init_system max p) s →
  thread s = Sending n → zlen (batches p) < zlen (written (ws s)) + n →
  ∀ s', rtc step s s' → (∃ n', 0 < n' ∧ thread s' = Sending n') ∧ completed (ws s') = completed (ws s).
Proof.
  intros Hmax Hp Hr Ht Hn s' Hr'. set (k := zlen (written (ws s)) + n) in *.
  assert (starved p k (completed (ws s)) s) as H0 by (by exists n).
  assert (starved p k (completed (ws s)) s' ∧ delivers max p s') as [H1 Hd].
  { pose proof (reachable_delivers max p s Hmax Hp Hr) as Hd. clear Hr Ht. revert H0. generalize (completed (ws s)) as c. intros c.
    clearbody k. induction Hr' as [|s0 s1 s2 Hst _ IH]; intros H0; [done|].
    apply IH; [by eapply step_delivers|by eapply step_starved]. }
  destruct H1 as (n' & Ht' & Hw & Hc). destruct (delivers_counts max p s' Hd) as (d & xs & Ep & _ & Hl).
  assert (zlen (batches d) ≤ zlen (batches p)).
  { rewrite Ep, batches_app, zlen_app. pose proof (zlen_nonneg (batches (backend s'))). lia. }
  split; [|done]. exists n'. split; [|done]. pose proof (zlen_nonneg xs). lia.
Qed.

Definition is_send (a : action) : bool := match a with SendBatch _ _ _ => true | _ => false end.

Lemma batches_sends l : Forall (λ a, is_send a = true) l → zlen (batches l) = zlen l.
Proof. induction 1 as [|a l Ha _ IH]; [done|]. destruct a; try done. cbn. rewrite !zlen_cons. fold (batches l). lia. Qed.

Lemma serve max p rest m :
  Forall action_ok p → 1 ≤ max → ∀ s n sends,
  delivers max p s → thread s = Sending n → 0 ≤ n → backend s = sends ++ rest → Forall (λ a, is_send a = true) sends →
  zlen (written (ws s)) + n ≤ zlen (batches p) - zlen (batches rest) → (Z.to_nat n + length sends ≤ m)%nat →
  ∃ s', rtc step s s' ∧ thread s' = Serving ∧ zlen (written (ws s')) = zlen (written (ws s)) + n.
Proof.
  intros Hp Hmax. induction m as [m IH] using lt_wf_ind. intros [w th b] n sends Hd Ht Hn Hb Hs Hle Hm.
  cbn [ws thread backend] in *. subst th b. destruct (Z.eq_dec n 0) as [->|Hn0].
  { exists (mkSystem w Serving (sends ++ rest)). split; [by apply rtc_once, step_send|]. cbn. split; [done|lia]. }
  pose proof Hd as (d & xs & Ep & Hq & Hmsg & Hsid & Hx). cbn [ws backend] in *.
  assert (Forall batch_ok (batches d)) as Hok by (apply batches_ok; rewrite Ep in Hp; by apply Forall_app in Hp as [? _]).
  pose proof (Forall2_length _ _ _ Hmsg) as Hlen. rewrite length_app in Hlen.
  apply Forall2_app_inv_l in Hmsg as (b1 & b2 & _ & Hm2 & Eb). rewrite Eb in Hok. apply Forall_app in Hok as [_ Hok2].
  pose proof (send_round_spec n w xs b2 Hq Hm2 Hok2 ltac:(lia)) as Hr. destruct xs as [|x xs].
  - destruct sends as [|a sends].
    { exfalso. cbn [app] in Ep. rewrite Ep, batches_app, zlen_app in Hle. unfold zlen in Hle. cbn in Hlen. lia. }
    apply Forall_cons in Hs as [Ha Hs]. destruct a as [| | | | |id stage bd| | |]; try done.
    assert (action_ok (SendBatch id stage bd)) as [Hid Hbd].
    { rewrite Ep in Hp. apply Forall_app in Hp as [_ Hp]. by apply Forall_cons in Hp as [? _]. }
    pose proof (send_batch_enqueues id stage bd w [] Hid Hbd Hsid Hq) as He.
    destruct (nws_send_batch_data id stage bd w) as [[w'|]| |] eqn:E; [|unfold zlen in He; cbn [length] in He; lia|done..].
    assert (step (mkSystem w (Sending n) ((SendBatch id stage bd :: sends) ++ rest)) (mkSystem w' (Sending n) (sends ++ rest))) as Hst
      by (by apply step_backend).
    assert (written w' = written w) as Ew by (by destruct He as (_ & q & -> & _)).
    destruct (IH (m - 1)%nat ltac:(cbn in Hm; lia) (mkSystem w' (Sending n) (sends ++ rest)) n sends) as (s' & Hr' & Ht' & Hw');
      [by eapply step_delivers|done..|cbn [ws]; by rewrite Ew|cbn in Hm; lia|].
    exists s'. split; [by eapply rtc_l|]. cbn [ws] in Hw'. by rewrite Ew in Hw'.
  - destruct Hr as (q & Er & _ & _). set (w' := add_call _ _) in Er.
    assert (step (mkSystem w (Sending n) (sends ++ rest)) (mkSystem w' (Sending (n - 1)) (sends ++ rest))) as Hst
      by (by apply step_send).
    assert (zlen (written w') = zlen (written w) + 1) as Ew.
    { unfold w'. rewrite written_add, zlen_app. done. }
    destruct (IH (m - 1)%nat ltac:(lia) (mkSystem w' (Sending (n - 1)) (sends ++ rest)) (n - 1) sends) as (s' & Hr' & Ht' & Hw');
      [by eapply step_delivers|done|lia|done..|cbn [ws]; lia|lia|].
    exists s'. split; [by eapply rtc_l|]. split; [done|]. cbn [ws] in Hw'. lia.
Qed.

(** A request is served if the batches it asks for are sent before the backend
    waits again: from any state in the loop with [n] batches to go there is a
    way on to serving the connection again, with [n] more messages sent, as
    long as the batches in front of [rest] are enough. *)
Theorem request_served max p s n sends rest :
  in_u64 max → 1 ≤ max → Forall action_ok p → rtc step (init_system max p) s →
  thread s = Sending n → 0 ≤ n → backend s = sends ++ rest → Forall (λ a, is_send a = true) sends →
  zlen (written (ws s)) + n ≤ zlen (batches p) - zlen (batches rest) →
  ∃ s', rtc step s s' ∧ thread s' = Serving ∧ zlen (written (ws s')) = zlen (written (ws s)) + n.
Proof.
  intros Hmax Hmax1 Hp Hr Ht Hn Hb Hs Hle. eapply (serve max p rest (Z.to_nat n + length sends)); try done.
  by apply reachable_delivers.
Qed.

(** ** Sample runs *)

Inductive event := ECallback (reason : callback_reason) | ESend | EBackend.

Definition exec1 (e : event) (s : system) : option system :=
  match e, thread s, backend s with
  | ECallback reason, Serving, p =>
      match interrupted (ws s), callback reason (ws s) with
      | false, Ok (w, th) => Some (mkSystem w th p)
      | _, _ => None
      end
  | ESend, Sending n, p =>
      match send_round n (ws s) with Ok (Some (w, th)) => Some (mkSystem w th p) | _ => None end
  | EBackend, th, a :: p =>
      match run_action a (ws s) with Ok (Some w) => Some (mkSystem w th p) | _ => None end
  | _, _, _ => None
  end.

Fixpoint exec (es : list event) (s : system) : option system :=
  match es with [] => Some s | e :: es => s ← exec1 e s; exec es s end.

Lemma exec1_step e s s' : exec1 e s = Some s' → step s s'.
Proof.
  destruct s as [w th p]. unfold exec1. cbn [thread backend ws]. destruct e, th, p; intros E; try done;
    repeat case_match; simplify_eq; by econstructor.
Qed.

Lemma exec_steps es s s' : exec es s = Some s' → rtc step s s'.
Proof.
  revert s. induction es as [|e es IH]; intros s; cbn; [by intros [= ->]|].
  intros (s1 & E1%exec1_step & E2%IH)%bind_Some. by eapply rtc_l.
Qed.

Definition message (l : list (string * cJSON)) : text :=
  json_text (cJSON_Object ((λ m, (text_of m.1, m.2)) <$> l)).
Definition string_item (s : string) : cJSON := cJSON_String (text_of s).

Definition sample_program : list action :=
  nws_connect ++
  nws_send_task (text_of "avazu")
    (T_TRAIN (init_train_task_spec (text_of "armnet") 2 1 1 1 0 (decimal false 1 (-3)) (text_of "optimizer")
       (text_of "loss") (text_of "metrics") 80 (text_of "a,b") (text_of "y") 10 2 2)) ++
  [SendBatch 0 S_TRAIN (text_of "1 4 5"); SendBatch 0 S_TRAIN (text_of "0 7 8")] ++ nws_wait_completion.

(** Up to the engine's request for [n] batches. *)
Definition sample_events (n : Z) : list event :=
  [ECallback CLIENT_ESTABLISHED; EBackend; EBackend;
   ECallback (CLIENT_RECEIVE (message [("event", string_item "ack_setup"); ("sessionId", string_item "s1")]));
   EBackend; EBackend; ECallback (CLIENT_RECEIVE (message [("event", string_item "ack_task")])); EBackend;
   ECallback (CLIENT_RECEIVE (message [("event", string_item "request_data");
     ("startBatchId", cJSON_Number (double_of_Z 0)); ("nBatch", cJSON_Number (double_of_Z n))]))].

Definition sample_system (es : list event) : system :=
  default (init_system 10 []) (exec es (init_system 10 sample_program)).

Definition sent_batch (data : string) : text := json_text (batch_json (text_of "s1") 0 S_TRAIN (text_of data)).

Lemma sample_program_ok : Forall action_ok sample_program.
Proof. by repeat (constructor; [vm_compute; done || (split; [split; discriminate|discriminate])|]). Qed.

Lemma batches_sent_in_order_witness :
  let s := sample_system (sample_events 1 ++ [EBackend; EBackend; ESend]) in
  written (ws s) = [sent_batch "1 4 5"] ∧
  ∃ done queued, sample_program = done ++ backend s ∧ zlen queued ≤ 10 ∧
    Forall2 batch_message (written (ws s) ++ queued) (batches done).
Proof.
  intros s. split; [vm_compute; reflexivity|].
  apply (batches_sent_in_order 10 sample_program s); [split; [discriminate|reflexivity]|exact sample_program_ok|].
  apply (exec_steps (sample_events 1 ++ [EBackend; EBackend; ESend])). vm_compute. reflexivity.
Defined.

Lemma starved_request_never_ends_witness :
  let s := sample_system (sample_events 3 ++ [EBackend; ESend]) in
  written (ws s) = [sent_batch "1 4 5"] ∧ thread s = Sending 2 ∧
  ∀ s', rtc step s s' → (∃ n', 0 < n' ∧ thread s' = Sending n') ∧ completed (ws s') = false.
Proof.
  intros s. split; [vm_compute; reflexivity|]. split; [vm_compute; reflexivity|].
  apply (starved_request_never_ends 10 sample_program s 2); [split; [discriminate|reflexivity]|exact sample_program_ok| | |].
  - apply (exec_steps (sample_events 3 ++ [EBackend; ESend])). vm_compute. reflexivity.
  - vm_compute. reflexivity.
  - vm_compute. reflexivity.
Defined.

Lemma request_served_witness :
  let s := sample_system (sample_events 2) in
  thread s = Sending 2 ∧
  ∃ s', rtc step s s' ∧ thread s' = Serving ∧ zlen (written (ws s')) = zlen (written (ws s)) + 2.
Proof.
  intros s. split; [vm_compute; reflexivity|].
  apply (request_served 10 sample_program s 2
    [SendBatch 0 S_TRAIN (text_of "1 4 5"); SendBatch 0 S_TRAIN (text_of "0 7 8")] nws_wait_completion);
    [split; [discriminate|reflexivity]|discriminate|exact sample_program_ok| | |discriminate| | |].
  - apply (exec_steps (sample_events 2)). vm_compute. reflexivity.
  - vm_compute. reflexivity.
  - vm_compute. reflexivity.
  - repeat constructor.
  - vm_compute. discriminate.
Defined.
