(* ===== verification/Pipeline.v ===== *)
(** * The pipeline from tables to the AI engine

    Models [nr_pipeline/src/interface.c] ([nr_train], [nr_finetune],
    [nr_inference], [nr_model_lookup] and their helpers), [labeling/encode.c]
    and [utils/hash/md5.c].

    A row is the list of its attributes, each a Datum with its type; a Datum is
    a word of 64 bits, with the bytes behind it where it is a pointer. What the
    SQL engine answers to a query, and MD5, are arguments. The cursor is the
    rows of its query and a position; the batch size is positive, as the
    setting that gives it demands. A call of a function is run on the state of
    the session: the mapping tables, the classes of the last training, and the
    batches sent so far. *)
From S2P Require Import Prelude CText CNumber CJson Websocket.
From Stdlib Require Import ZArith Lia Ascii SpecFloat.
From stdpp Require Import base strings numbers relations list.

Open Scope Z_scope.

(** ** Data *)

Inductive oid := INT2OID | INT4OID | INT8OID | FLOAT4OID | FLOAT8OID | TEXTOID | VARCHAROID | CHAROID | OTHEROID.

(** A NULL is the word 0. *)
Record attribute := mkAttribute { typeid : oid; value : Z; pointee : text }.
Abbreviation row := (list attribute).

(** [DatumGetFloat4] and [DatumGetFloat8]. *)
Definition float_of_bits (mbits ebits w : Z) : double :=
  let s := Z.testbit w (mbits + ebits) in
  let e := Z.land (Z.shiftr w mbits) (2 ^ ebits - 1) in
  let m := Z.land w (2 ^ mbits - 1) in
  let bias := 2 ^ (ebits - 1) - 1 in
  if e =? 0 then match m with Zpos m => S754_finite s m (1 - bias - mbits) | _ => S754_zero s end
  else if e =? 2 ^ ebits - 1 then match m with Zpos _ => S754_nan | _ => S754_infinity s end
  else match m + 2 ^ mbits with Zpos m => S754_finite s m (e - bias - mbits) | _ => S754_nan end.

(** [%f]: six decimals. *)
Definition format_f (d : double) : text :=
  match d with
  | S754_zero s => (if s then ["-"%char] else []) ++ text_of "0.000000"
  | S754_infinity s => (if s then ["-"%char] else []) ++ text_of "Infinity"
  | S754_nan => text_of "NaN"
  | S754_finite s m e =>
      let v := round_ratio (Zpos m * 2 ^ Z.max e 0 * 10 ^ 6) (2 ^ Z.max (- e) 0) in
      let frac := print_digits 6 (v `mod` 10 ^ 6) [] in
      (if s then ["-"%char] else []) ++ print_digits 320 (v / 10 ^ 6) [] ++
      "."%char :: replicate (6 - length frac) "0"%char ++ frac
  end.

(** ** Session state *)

(** A mapping table: its rows and the next value of its sequence. *)
Record mapping := mkMapping { codes : list (text * Z); next_code : Z }.

Record session := mkSession {
  mappings : list (text * mapping);
  last_id_class_map : option (list text);
  sent : list (MLStage * text)
}.

Definition set_mappings (m : list (text * mapping)) (s : session) : session :=
  mkSession m (last_id_class_map s) (sent s).
Definition set_classes (l : list text) (s : session) : session := mkSession (mappings s) (Some l) (sent s).
Definition add_batch (stage : MLStage) (t : text) (s : session) : session :=
  mkSession (mappings s) (last_id_class_map s) (sent s ++ [(stage, t)]).

Fixpoint assoc {A} (k : text) (l : list (text * A)) : option A :=
  match l with [] => None | (k', v) :: l => if decide (k = k') then Some v else assoc k l end.

(** ** Labels (encode.c) *)

(** The name of the mapping table, as the server reads it in a statement. *)
Definition NAMEDATALEN : nat := 64.
Definition mapping_table (table_name column_name : text) : text :=
  take (NAMEDATALEN - 1) (tolower <$> table_name ++ "_"%char :: column_name ++ text_of "_encode_mapping").

Definition create_mapping_table_if_not_exists (table_name column_name : text) : M session unit :=
  modify_st (λ s,
    let name := mapping_table table_name column_name in
    match assoc name (mappings s) with
    | Some _ => s
    | None => set_mappings ((name, mkMapping [] 1) :: mappings s) s
    end).

Fixpoint replace_mapping (name : text) (m : mapping) (l : list (text * mapping)) : list (text * mapping) :=
  match l with
  | [] => []
  | (k, v) :: l => if decide (name = k) then (k, m) :: l else (k, v) :: replace_mapping name m l
  end.

(** The text goes into the statements between quotes, as it is. *)
Definition encode_text (text table_name column_name : text) : M session Z :=
  let name := mapping_table table_name column_name in
  _ ← create_mapping_table_if_not_exists table_name column_name;
  s ← get_st;
  if existsb (ascii_eqb QUOTE) text then lift_out (Ub "a text that ends its literal in the statement")
  else
    let m := default (mkMapping [] 1) (assoc name (mappings s)) in
    match assoc text (codes m) with
    | Some v => mret v
    | None =>
        if INT_MAX <? next_code m then raise "nextval: reached maximum value of sequence"
        else
          _ ← put_st (set_mappings
            (replace_mapping name (mkMapping ((text, next_code m) :: codes m) (next_code m + 1)) (mappings s)) s);
          mret (next_code m)
    end.

(** ** Batches in libsvm format *)

(** [%s] of a NULL pointer prints "(null)". A text is read as the C string at
    its address; a "char" is not an address. The name of the model is compared
    with a literal by address, which never agrees. *)
Definition feature_text (a : attribute) (table_name feature_name : text) : M session text :=
  match typeid a with
  | INT2OID => mret (" "%char :: print_int (sint 16 (value a)))
  | INT4OID => mret (" "%char :: print_int (sint 32 (value a)))
  | INT8OID => mret (" "%char :: print_int (sint 64 (value a)))
  | FLOAT4OID => mret (" "%char :: format_f (float_of_bits 23 8 (u32 (value a))))
  | FLOAT8OID => mret (" "%char :: format_f (float_of_bits 52 11 (u64 (value a))))
  | TEXTOID | VARCHAROID =>
      token ← encode_text (if value a =? 0 then text_of "(null)" else c_string (pointee a)) table_name feature_name;
      mret (" "%char :: print_int token)
  | CHAROID =>
      if value a =? 0 then
        token ← encode_text (text_of "(null)") table_name feature_name; mret (" "%char :: print_int token)
      else lift_out (Ub "read of an invalid pointer")
  | OTHEROID => raise "Unsupported data type"
  end.

Fixpoint features_text (attrs : row) (table_name : text) (feature_names : list text) : M session text :=
  match feature_names, attrs with
  | [], _ => mret []
  | f :: feature_names, a :: attrs =>
      t ← feature_text a table_name f;
      r ← features_text attrs table_name feature_names;
      mret (t ++ r)
  | _ :: _, [] => raise "Unsupported data type"
  end.

(** [label_col] is the number of features and one. *)
Definition row_text (has_label : bool) (table_name : text) (feature_names : list text) (attrs : row) : M session text :=
  label ← (if has_label then
             mret (print_int (sint 32 (default 0 (value <$> attrs !! length feature_names))))
           else mret ["0"%char]);
  r ← features_text attrs table_name feature_names;
  mret (label ++ r ++ [NEWLINE]).

Fixpoint _build_libsvm_data (has_label : bool) (table_name : text) (feature_names : list text) (rows : list row) :
    M session text :=
  match rows with
  | [] => mret []
  | attrs :: rows =>
      t ← row_text has_label table_name feature_names attrs;
      r ← _build_libsvm_data has_label table_name feature_names rows;
      mret (t ++ r)
  end.

(** ** Helpers *)

(** [ceil] and the cast to [int]. *)
Definition ceil_int (d : double) : Z := let t := trunc d in if SFltb (double_of_Z t) d then t + 1 else t.

Definition _get_n_batches_train_eval_test (n_batches : Z) : Z * Z * Z :=
  let n_batches_train := ceil_int (SFmul 53 1024 (double_of_Z n_batches) (decimal false 8 (-1))) in
  let n_batches_eval := ceil_int (SFmul 53 1024 (double_of_Z n_batches) (decimal false 1 (-1))) in
  (n_batches_train, n_batches_eval, n_batches - n_batches_train - n_batches_eval).

Definition char_array2str (char_array : list text) : text := join_comma char_array.

(** The columns of a query, between quotes. *)
Definition quoted_columns (names : list text) : text :=
  (fix loop (first : bool) (names : list text) : text :=
     match names with
     | [] => []
     | n :: names => (if first then [] else text_of ", ") ++ DQUOTE :: n ++ DQUOTE :: loop false names
     end) true names.

Definition declare_query (cursor_name : string) (feature_names : list text) (target : option text) (table_name : text) :
    text :=
  text_of "DECLARE " ++ text_of cursor_name ++ text_of " SCROLL CURSOR FOR " ++ text_of "SELECT " ++
  quoted_columns feature_names ++
  match target with
  | Some target => text_of ", " ++ target ++ text_of " FROM " ++ table_name
  | None => text_of " FROM " ++ table_name
  end.

(** The terminating zero included, the concatenation fits its buffer exactly. *)
Definition nr_md5_list (md5 : text → text) (str_list : list text) : outcome text :=
  match str_list with
  | [] => Ub "read before the beginning of an array"
  | _ =>
      let total_length := foldr (λ s n, zlen s + n) 0 str_list in
      let concat_str := join_comma str_list in
      if total_length + (zlen str_list - 1) + 1 <? zlen concat_str + 1 then Ub "write past the end of a block"
      else Ok (md5 concat_str)
  end.

(** ** Sending the rows *)

Section functions.

(** The rows of a query, the values of a query for labels, and the model a query
    on the router finds. *)
Context (select : text → list row) (labels : text → list (option text)) (router : text → option Z).
Context (md5 : text → text).

(** The loop of [nr_train] and [nr_finetune]. [SPI_tuptable] is NULL after MOVE. *)
Fixpoint train_loop (fuel : nat) (batch_size n_batches epoch : Z) (table_name : text) (feature_names : list text)
    (rows : list row) (pos : nat) (current_batch current_epoch : Z) : M session unit :=
  match fuel with
  | O => lift_out (Ub "out of fuel")
  | S fuel =>
      let current_batch := current_batch + 1 in
      let fetched := take (Z.to_nat batch_size) (drop pos rows) in
      let pos := (pos + length fetched)%nat in
      if (zlen fetched =? 0) || (n_batches <? current_batch) then
        let current_epoch := current_epoch + 1 in
        if epoch <=? current_epoch then mret tt
        else lift_out (Ub "read of a null pointer")
      else
        libsvm_data ← _build_libsvm_data true table_name feature_names fetched;
        _ ← modify_st (add_batch S_TRAIN libsvm_data);
        train_loop fuel batch_size n_batches epoch table_name feature_names rows pos current_batch current_epoch
  end.

(** The loop of [nr_inference]. *)
Fixpoint inference_loop (fuel : nat) (batch_size n_batches : Z) (table_name : text) (feature_names : list text)
    (rows : list row) (pos : nat) (current_batch : Z) : M session unit :=
  match fuel with
  | O => lift_out (Ub "out of fuel")
  | S fuel =>
      let current_batch := current_batch + 1 in
      let fetched := take (Z.to_nat batch_size) (drop pos rows) in
      let pos := (pos + length fetched)%nat in
      if (zlen fetched =? 0) || (n_batches <? current_batch) then mret tt
      else
        libsvm_data ← _build_libsvm_data false table_name feature_names fetched;
        _ ← modify_st (add_batch S_INFERENCE libsvm_data);
        inference_loop fuel batch_size n_batches table_name feature_names rows pos current_batch
  end.

(** [SPI_getvalue] of a NULL is a null pointer. Every label makes an entry of the
    hash table: the entry found for it holds the number over the key. *)
Definition make_class_id_map (table_name label_col_name : text) : outcome (list text) :=
  let query := text_of "SELECT DISTINCT " ++ label_col_name ++ text_of " FROM " ++ table_name ++
               text_of " ORDER BY " ++ label_col_name ++ text_of " ASC" in
  (fix loop (l : list (option text)) : outcome (list text) :=
     match l with
     | [] => Ok []
     | None :: _ => Ub "read of a null pointer"
     | Some x :: l => r ← loop l; Ok (x :: r)
     end) (labels query).

Inductive PredictType := PREDICT_CLASS | PREDICT_VALUE.

Definition LEARNING_RATE : double := decimal false 1 (-3).
Definition CACHE_SIZE : Z := 80.

(** The task [nr_train] gives to the engine. *)
Definition train_task (model_name : text) (batch_size n_batches epoch nfeat : Z) (feature_names : list text)
    (target : text) (n_class : Z) : task_spec :=
  let '(n_batches_train, n_batches_evaluate, n_batches_test) := _get_n_batches_train_eval_test n_batches in
  T_TRAIN (init_train_task_spec model_name batch_size epoch n_batches_train n_batches_evaluate n_batches_test
    LEARNING_RATE (text_of "optimizer") (text_of "loss") (text_of "metrics") CACHE_SIZE
    (char_array2str feature_names) target nfeat (zlen feature_names) n_class).

(** The classes of the labels; -1 without. *)
Definition train_classes (type : PredictType) (table_name target : text) : M session Z :=
  match type with
  | PREDICT_CLASS =>
      id_class_map ← lift_out (make_class_id_map table_name target);
      _ ← modify_st (set_classes id_class_map);
      mret (zlen id_class_map)
  | PREDICT_VALUE => mret (-1)
  end.

(** Up to the end of its loop, [nr_train] returns its task. *)
Definition nr_train (model_name table_name : text) (batch_size n_batches epoch nfeat : Z) (feature_names : list text)
    (target : text) (type : PredictType) : M session task_spec :=
  n_class ← train_classes type table_name target;
  let rows := select (declare_query "nr_train_cursor" feature_names (Some target) table_name) in
  _ ← train_loop (S (length rows)) batch_size n_batches epoch table_name feature_names rows 0 0 0;
  mret (train_task model_name batch_size n_batches epoch nfeat feature_names target n_class).

Definition nr_finetune (model_name : text) (model_id : Z) (table_name : text) (batch_size n_batches epoch nfeat : Z)
    (feature_names : list text) (target : text) : M session task_spec :=
  let '(n_batches_train, n_batches_evaluate, n_batches_test) := _get_n_batches_train_eval_test n_batches in
  let rows := select (declare_query "nr_finetune_cursor" feature_names (Some target) table_name) in
  _ ← train_loop (S (length rows)) batch_size n_batches epoch table_name feature_names rows 0 0 0;
  mret (T_FINETUNE (init_finetune_task_spec model_name model_id batch_size epoch n_batches_train n_batches_evaluate
    n_batches_test LEARNING_RATE (text_of "optimizer") (text_of "loss") (text_of "metrics") CACHE_SIZE nfeat
    (zlen feature_names))).

Definition inference_task (model_name : text) (model_id batch_size n_batches nfeat : Z) (feature_names : list text)
    (target : text) (n_class : Z) : task_spec :=
  T_INFERENCE (init_inference_task_spec model_name batch_size n_batches (text_of "metrics") CACHE_SIZE nfeat
    (zlen feature_names) n_class model_id (char_array2str feature_names) target).

(** Up to the end of its loop. *)
Definition nr_inference (model_name : text) (model_id : Z) (table_name : text) (batch_size n_batches nfeat : Z)
    (feature_names : list text) (target : text) (type : PredictType) : M session task_spec :=
  n_class ← match type with
            | PREDICT_CLASS =>
                s ← get_st;
                match last_id_class_map s with
                | None => raise "last_class_id_map is NULL"
                | Some l => if zlen l =? 2 then mret 2 else raise "only binary classification is supported for now"
                end
            | PREDICT_VALUE => mret (-1)
            end;
  let rows := select (declare_query "nr_inference_cursor" feature_names None table_name) in
  _ ← inference_loop (S (length rows)) batch_size n_batches table_name feature_names rows 0 0;
  mret (inference_task model_name model_id batch_size n_batches nfeat feature_names target n_class).

(** The actions on the connection of a call that has come to the end of its
    loop: the task, the batches, and the wait for the engine. *)
Definition connection_actions (table_name : text) (task : task_spec) (sent : list (MLStage * text)) : list action :=
  nws_connect ++ nws_send_task table_name task ++ map (λ b, SendBatch 0 b.1 b.2) sent ++ nws_wait_completion ++
  nws_disconnect ++ nws_free_websocket.

Definition nr_model_lookup (table_name : text) (feature_array : list text) (target : text) : outcome Z :=
  hash_features ← nr_md5_list md5 feature_array;
  Ok (default 0 (router (text_of "SELECT * FROM router WHERE table_name = '" ++ table_name ++
    text_of "' AND feature_columns = '" ++ hash_features ++ text_of "' AND target_columns = '" ++ md5 target ++
    text_of "'"))).
End functions.

(** ** The loops send the rows in chunks *)

(** The rows in groups of [n], the last one with what is left. *)
Fixpoint chunks {A} (fuel : nat) (n : nat) (l : list A) : list (list A) :=
  match fuel, l with
  | S fuel, _ :: _ => take n l :: chunks fuel n (drop n l)
  | _, _ => []
  end.

Definition send_chunk (stage : MLStage) (has_label : bool) (table_name : text) (feature_names : list text)
    (chunk : list row) : M session unit :=
  libsvm_data ← _build_libsvm_data has_label table_name feature_names chunk;
  modify_st (add_batch stage libsvm_data).

Lemma M_bind_ext {S A B} (m : M S A) (f g : A → M S B) s :
  (∀ a s', f a s' = g a s') → (m ≫= f) s = (m ≫= g) s.
Proof. intros H. unfold mbind, M_bind. by destruct (m s) as [[]]. Qed.

Lemma M_bind_assoc {S A B C} (m : M S A) (f : A → M S B) (g : B → M S C) s :
  ((m ≫= f) ≫= g) s = (m ≫= λ a, f a ≫= g) s.
Proof. unfold mbind, M_bind. by destruct (m s) as [[]]. Qed.

Lemma send_chunk_bind {B} stage has_label table_name feature_names chunk (g : unit → M session B) s :
  (send_chunk stage has_label table_name feature_names chunk ≫= g) s =
  (_build_libsvm_data has_label table_name feature_names chunk ≫= λ t, modify_st (add_batch stage t) ≫= g) s.
Proof. apply M_bind_assoc. Qed.

Section chunked.
Context (batch_size n_batches epoch : Z) (table_name : text) (feature_names : list text) (rows : list row).
Hypothesis (Hsize : 1 ≤ batch_size).

Lemma fetched_drop pos r l :
  drop pos rows = r :: l →
  drop (pos + length (take (Z.to_nat batch_size) (r :: l))) rows = drop (Z.to_nat batch_size) (r :: l).
Proof.
  intros Er. rewrite <- drop_drop, Er, length_take.
  destruct (Nat.min_spec (Z.to_nat batch_size) (length (r :: l))) as [[? ->]|[? ->]]; [done|].
  rewrite drop_all. symmetry. by apply drop_ge.
Qed.

Lemma train_loop_chunks fuel pos current_batch s :
  (length (drop pos rows) < fuel)%nat → 0 ≤ current_batch →
  train_loop fuel batch_size n_batches epoch table_name feature_names rows pos current_batch 0 s =
  (for_each (send_chunk S_TRAIN true table_name feature_names)
     (take (Z.to_nat (n_batches - current_batch)) (chunks fuel (Z.to_nat batch_size) (drop pos rows)))
   ≫= λ _, if epoch <=? 1 then mret tt else lift_out (Ub "read of a null pointer")) s.
Proof.
  revert pos current_batch s. induction fuel as [|fuel IH]; intros pos cb s Hf Hcb; [lia|]. cbn [train_loop].
  destruct (drop pos rows) as [|r l] eqn:Er.
  { cbn [chunks]. rewrite !take_nil. change (zlen (@nil row) =? 0) with true. change (0 + 1) with 1. cbn. by destruct (epoch <=? 1). }
  set (fetched := take (Z.to_nat batch_size) (r :: l)). assert (1 ≤ length fetched)%nat as Hl.
  { unfold fetched. rewrite length_take. cbn [length]. lia. }
  replace (zlen fetched =? 0) with false by (unfold zlen; lia). cbn [orb chunks].
  destruct (Z.ltb_spec n_batches (cb + 1)).
  { replace (Z.to_nat (n_batches - cb)) with 0%nat by lia. change (0 + 1) with 1. cbn. by destruct (epoch <=? 1). }
  replace (Z.to_nat (n_batches - cb)) with (S (Z.to_nat (n_batches - (cb + 1)))) by lia. cbn [take for_each].
  rewrite M_bind_assoc, send_chunk_bind. fold fetched. apply M_bind_ext. intros t s1.
  apply M_bind_ext. intros _ s2.
  unfold fetched in *. rewrite IH; rewrite ?(fetched_drop pos r l Er); [done| |lia]. rewrite length_drop. cbn [length] in *. lia.
Qed.

Lemma inference_loop_chunks fuel pos current_batch s :
  (length (drop pos rows) < fuel)%nat → 0 ≤ current_batch →
  inference_loop fuel batch_size n_batches table_name feature_names rows pos current_batch s =
  for_each (send_chunk S_INFERENCE false table_name feature_names)
    (take (Z.to_nat (n_batches - current_batch)) (chunks fuel (Z.to_nat batch_size) (drop pos rows))) s.
Proof.
  revert pos current_batch s. induction fuel as [|fuel IH]; intros pos cb s Hf Hcb; [lia|]. cbn [inference_loop].
  destruct (drop pos rows) as [|r l] eqn:Er.
  { cbn [chunks]. by rewrite !take_nil. }
  set (fetched := take (Z.to_nat batch_size) (r :: l)). assert (1 ≤ length fetched)%nat as Hl.
  { unfold fetched. rewrite length_take. cbn [length]. lia. }
  replace (zlen fetched =? 0) with false by (unfold zlen; lia). cbn [orb chunks].
  destruct (Z.ltb_spec n_batches (cb + 1)); [by replace (Z.to_nat (n_batches - cb)) with 0%nat by lia|].
  replace (Z.to_nat (n_batches - cb)) with (S (Z.to_nat (n_batches - (cb + 1)))) by lia. cbn [take for_each].
  rewrite send_chunk_bind. fold fetched. apply M_bind_ext. intros t s1. apply M_bind_ext. intros _ s2.
  unfold fetched in *. rewrite IH; rewrite ?(fetched_drop pos r l Er); [done| |lia]. rewrite length_drop. cbn [length] in *. lia.
Qed.
End chunked.

(** ** Rows of numbers *)

Definition is_number (t : oid) : bool :=
  match t with INT2OID | INT4OID | INT8OID | FLOAT4OID | FLOAT8OID => true | _ => false end.

Definition number_feature (a : attribute) : text :=
  " "%char :: match typeid a with
  | INT2OID => print_int (sint 16 (value a))
  | INT4OID => print_int (sint 32 (value a))
  | INT8OID => print_int (sint 64 (value a))
  | FLOAT4OID => format_f (float_of_bits 23 8 (u32 (value a)))
  | _ => format_f (float_of_bits 52 11 (u64 (value a)))
  end.

(** The line of a row of [n] number features and, with [has_label], a label. *)
Definition libsvm_line (has_label : bool) (n : nat) (attrs : row) : text :=
  (if has_label then print_int (sint 32 (default 0 (value <$> attrs !! n))) else ["0"%char]) ++
  concat (number_feature <$> take n attrs) ++ [NEWLINE].

Definition number_row (n : nat) (attrs : row) : Prop :=
  (n ≤ length attrs)%nat ∧ Forall (λ a, is_number (typeid a) = true) (take n attrs).

Lemma features_text_numbers attrs table_name names s :
  number_row (length names) attrs →
  features_text attrs table_name names s = (Ok (concat (number_feature <$> take (length names) attrs)), s).
Proof.
  revert attrs. induction names as [|f names IH]; intros attrs [Hl Hn]; [by destruct attrs|]. destruct attrs as [|a attrs]; [cbn in Hl; lia|].
  cbn [length take] in Hl, Hn |- *. apply Forall_cons in Hn as [Ha Hn]. cbn [features_text].
  assert (feature_text a table_name f s = (Ok (number_feature a), s)) as Ef.
  { unfold feature_text, number_feature. by destruct (typeid a). }
  erewrite M_bind_ok by exact Ef. erewrite M_bind_ok by (apply IH; split; [lia|done]). done.
Qed.

Lemma build_numbers has_label table_name names rows s :
  Forall (number_row (length names)) rows →
  _build_libsvm_data has_label table_name names rows s = (Ok (concat (libsvm_line has_label (length names) <$> rows)), s).
Proof.
  induction 1 as [|attrs rows Ha _ IH]; [done|]. cbn [_build_libsvm_data].
  assert (row_text has_label table_name names attrs s = (Ok (libsvm_line has_label (length names) attrs), s)) as Er.
  { unfold row_text. destruct has_label; erewrite M_bind_ok by reflexivity;
      erewrite M_bind_ok by (by apply features_text_numbers); done. }
  erewrite M_bind_ok by exact Er. erewrite M_bind_ok by exact IH. done.
Qed.

Definition add_batches (bs : list (MLStage * text)) (s : session) : session :=
  mkSession (mappings s) (last_id_class_map s) (sent s ++ bs).

(** The batches of the rows: the first [n_batches] groups of [batch_size]. *)
Definition libsvm_batches (stage : MLStage) (has_label : bool) (n : nat) (batch_size n_batches : Z) (rows : list row) :
    list (MLStage * text) :=
  (λ c, (stage, concat (libsvm_line has_label n <$> c))) <$>
  take (Z.to_nat n_batches) (chunks (S (length rows)) (Z.to_nat batch_size) rows).

Lemma chunks_Forall {A} (P : A → Prop) fuel n l : Forall P l → Forall (Forall P) (chunks fuel n l).
Proof.
  revert l. induction fuel as [|fuel IH]; intros l Hl; [constructor|]. destruct l as [|x l]; [constructor|]. cbn [chunks].
  constructor; [by apply Forall_take|]. by apply IH, Forall_drop.
Qed.

Lemma send_chunks stage has_label table_name names cs s :
  Forall (Forall (number_row (length names))) cs →
  for_each (send_chunk stage has_label table_name names) cs s =
  (Ok tt, add_batches ((λ c, (stage, concat (libsvm_line has_label (length names) <$> c))) <$> cs) s).
Proof.
  intros Hcs. revert s. induction Hcs as [|c cs Hc _ IH]; intros s.
  { unfold add_batches. rewrite app_nil_r. by destruct s. }
  rewrite for_each_cons, send_chunk_bind. erewrite M_bind_ok by (by apply build_numbers).
  erewrite M_bind_ok by reflexivity. rewrite IH. unfold add_batches, add_batch. cbn. by rewrite <- app_assoc.
Qed.

Section claims.
Context (select : text → list row) (labels : text → list (option text)).

Lemma nr_train_loop model_name table_name batch_size n_batches epoch nfeat names target type s s1 n_class :
  1 ≤ batch_size → train_classes labels type table_name target s = (Ok n_class, s1) →
  let rows := select (declare_query "nr_train_cursor" names (Some target) table_name) in
  nr_train select labels model_name table_name batch_size n_batches epoch nfeat names target type s =
  (for_each (send_chunk S_TRAIN true table_name names)
     (take (Z.to_nat n_batches) (chunks (S (length rows)) (Z.to_nat batch_size) rows)) ≫= λ _,
   (if epoch <=? 1 then mret tt else lift_out (Ub "read of a null pointer")) ≫= λ _,
   mret (train_task model_name batch_size n_batches epoch nfeat names target n_class)) s1.
Proof.
  intros Hb Hc rows. unfold nr_train. erewrite M_bind_ok by exact Hc. cbv beta zeta. fold rows.
  assert (∀ s, train_loop (S (length rows)) batch_size n_batches epoch table_name names rows 0 0 0 s = _) as Hl
    by (intros s'; apply (train_loop_chunks batch_size n_batches epoch table_name names rows Hb); rewrite ?drop_0; lia).
  rewrite <- M_bind_assoc. unfold mbind at 1, M_bind at 1. rewrite Hl. rewrite drop_0, Z.sub_0_r. done.
Qed.

(** A training over one epoch returns its task, and has sent the table in
    order: its first [n_batches] groups of [batch_size] rows, one batch each, a
    line of libsvm text per row, with the label in front; for features that
    are numbers. *)
Theorem train_sends_table model_name table_name batch_size n_batches epoch nfeat names target type s s1 n_class :
  1 ≤ batch_size → epoch ≤ 1 → train_classes labels type table_name target s = (Ok n_class, s1) →
  let rows := select (declare_query "nr_train_cursor" names (Some target) table_name) in
  Forall (number_row (length names)) rows →
  nr_train select labels model_name table_name batch_size n_batches epoch nfeat names target type s =
  (Ok (train_task model_name batch_size n_batches epoch nfeat names target n_class),
   add_batches (libsvm_batches S_TRAIN true (length names) batch_size n_batches rows) s1).
Proof.
  intros Hb He Hc rows Hr. rewrite (nr_train_loop _ _ _ _ _ _ _ _ _ s s1 n_class Hb Hc). fold rows.
  erewrite M_bind_ok by (apply send_chunks; by apply Forall_take, chunks_Forall).
  replace (epoch <=? 1) with true by lia. done.
Qed.

(** With more than one epoch no training and no finetuning returns: when the
    rows of the first epoch are sent, the cursor is moved back and the result
    of MOVE, which has no rows, is read through a null pointer. *)
Theorem second_epoch_crashes model_name model_id table_name batch_size n_batches epoch nfeat names target type s s1 n_class :
  1 ≤ batch_size → 2 ≤ epoch → train_classes labels type table_name target s = (Ok n_class, s1) →
  Forall (number_row (length names)) (select (declare_query "nr_train_cursor" names (Some target) table_name)) →
  Forall (number_row (length names)) (select (declare_query "nr_finetune_cursor" names (Some target) table_name)) →
  (nr_train select labels model_name table_name batch_size n_batches epoch nfeat names target type s).1 =
    Ub "read of a null pointer" ∧
  (nr_finetune select model_name model_id table_name batch_size n_batches epoch nfeat names target s).1 =
    Ub "read of a null pointer".
Proof.
  intros Hb He Hc Hr Hr'. split.
  - rewrite (nr_train_loop _ _ _ _ _ _ _ _ _ s s1 n_class Hb Hc).
    erewrite M_bind_ok by (apply send_chunks; by apply Forall_take, chunks_Forall).
    by replace (epoch <=? 1) with false by lia.
  - unfold nr_finetune. destruct (_get_n_batches_train_eval_test n_batches) as [[a b] c].
    set (rows := select (declare_query "nr_finetune_cursor" names (Some target) table_name)) in *.
    assert (train_loop (S (length rows)) batch_size n_batches epoch table_name names rows 0 0 0 s = _) as Hl
      by (apply (train_loop_chunks batch_size n_batches epoch table_name names rows Hb); rewrite ?drop_0; lia).
    cbv beta iota zeta. fold rows. unfold mbind at 1, M_bind at 1. rewrite Hl, drop_0, Z.sub_0_r.
    erewrite M_bind_ok by (apply send_chunks; by apply Forall_take, chunks_Forall).
    by replace (epoch <=? 1) with false by lia.
Qed.

(** An inference returns its task and has sent the table in the same groups,
    each row without a label, as long as the classes of the last training in
    the session are two where classes are asked for. *)
Theorem inference_sends_table model_name model_id table_name batch_size n_batches nfeat names target type s :
  1 ≤ batch_size →
  (type = PREDICT_CLASS → zlen <$> last_id_class_map s = Some 2) →
  let rows := select (declare_query "nr_inference_cursor" names None table_name) in
  Forall (number_row (length names)) rows →
  nr_inference select model_name model_id table_name batch_size n_batches nfeat names target type s =
  (Ok (inference_task model_name model_id batch_size n_batches nfeat names target
         match type with PREDICT_CLASS => 2 | PREDICT_VALUE => -1 end),
   add_batches (libsvm_batches S_INFERENCE false (length names) batch_size n_batches rows) s).
Proof.
  intros Hb Ht rows Hr. unfold nr_inference. set (classes := match type with PREDICT_CLASS => _ | PREDICT_VALUE => _ end).
  assert (classes s = (Ok match type with PREDICT_CLASS => 2 | PREDICT_VALUE => -1 end, s)) as Hn.
  { unfold classes. destruct type; [|done]. specialize (Ht eq_refl). destruct (last_id_class_map s) as [l|] eqn:El; [|done].
    injection Ht as Ht. unfold mbind, M_bind, get_st. rewrite El, Ht. done. }
  erewrite M_bind_ok by exact Hn. cbv beta zeta. fold rows.
  erewrite M_bind_ok; [reflexivity|].
  rewrite (inference_loop_chunks batch_size n_batches table_name names rows Hb) by (rewrite ?drop_0; lia).
  rewrite drop_0, Z.sub_0_r. apply send_chunks. by apply Forall_take, chunks_Forall.
Qed.
End claims.

(** ** From the table to the engine *)

Lemma batches_of_sent (l : list (MLStage * text)) :
  batches (map (λ b, SendBatch 0 b.1 b.2) l) = (λ b, (0, b.1, b.2)) <$> l.
Proof. induction l as [|b l IH]; [done|]. cbn. f_equal. apply IH. Qed.

Lemma connection_batches table_name task l :
  batches (connection_actions table_name task l) = (λ b, (0, b.1, b.2)) <$> l.
Proof. unfold connection_actions. rewrite !batches_app, batches_of_sent. cbn. by rewrite app_nil_r. Qed.

Lemma connection_actions_ok table_name task (l : list (MLStage * text)) :
  Forall (λ b, zlen b.2 ≤ batch_limit) l → Forall action_ok (connection_actions table_name task l).
Proof.
  intros Hl. unfold connection_actions. rewrite !Forall_app. split_and!; try by repeat constructor.
  rewrite Forall_fmap. eapply Forall_impl; [exact Hl|]. intros [stage t] Ht. by split.
Qed.

Lemma prefix_batches p d q : p = d ++ q → batches d = take (length (batches d)) (batches p).
Proof. intros ->. rewrite batches_app. by rewrite take_app_length. Qed.

(** ** Labels *)

Definition mapping_ok (m : mapping) : Prop :=
  NoDup (codes m).*1 ∧ NoDup (codes m).*2 ∧ Forall (λ v, v < next_code m) (codes m).*2.

Definition session_ok (s : session) : Prop := Forall (λ e, mapping_ok e.2) (mappings s).

(** The code of a text, if it has one. *)
Definition code_of (s : session) (t table_name column_name : text) : option Z :=
  assoc (mapping_table table_name column_name) (mappings s) ≫= λ m, assoc t (codes m).

Lemma assoc_In {A} k (l : list (text * A)) v : assoc k l = Some v → (k, v) ∈ l.
Proof.
  induction l as [|[k' v'] l IH]; cbn; [done|]. case_decide; [intros [= ->]; subst; by left|]. intros. right. auto.
Qed.

Lemma assoc_ok s name m : session_ok s → assoc name (mappings s) = Some m → mapping_ok m.
Proof. intros Hs Hm%assoc_In. unfold session_ok in Hs. rewrite Forall_forall in Hs. by apply (Hs (name, m)). Qed.

Lemma assoc_replace name m l k :
  is_Some (assoc name l) → assoc k (replace_mapping name m l) = if decide (k = name) then Some m else assoc k l.
Proof.
  induction l as [|[k' v'] l IH]; cbn; [by intros []|]. intros Hn. destruct (decide (name = k')) as [->|Hne]; cbn.
  - by destruct (decide (k = k')).
  - destruct (decide (k = k')) as [->|]; [by rewrite decide_False by done|]. by apply IH.
Qed.

Lemma replace_ok name m l : Forall (λ e, mapping_ok e.2) l → mapping_ok m → Forall (λ e, mapping_ok e.2) (replace_mapping name m l).
Proof. intros Hl Hm. induction Hl as [|[k v] l Hk Hl IH]; cbn; [constructor|]. case_decide; by constructor. Qed.

Lemma assoc_not_In {A} k (l : list (text * A)) : assoc k l = None → k ∉ l.*1.
Proof.
  induction l as [|[k' v'] l IH]; cbn; [intros _; apply not_elem_of_nil|]. case_decide; [done|]. intros Hn.
  apply not_elem_of_cons. auto.
Qed.

(** What a call of [encode_text] does. *)
Lemma encode_text_spec t tb col s v s' :
  session_ok s → encode_text t tb col s = (Ok v, s') →
  session_ok s' ∧ code_of s' t tb col = Some v ∧
  (∀ t' tb' col' v', code_of s t' tb' col' = Some v' → code_of s' t' tb' col' = Some v').
Proof.
  intros Hs. unfold encode_text. set (name := mapping_table tb col).
  set (s1 := match assoc name (mappings s) with Some _ => s | None => set_mappings ((name, mkMapping [] 1) :: mappings s) s end).
  assert (create_mapping_table_if_not_exists tb col s = (Ok tt, s1)) as Hc by done.
  erewrite M_bind_ok by exact Hc. erewrite M_bind_ok by reflexivity.
  assert (session_ok s1 ∧ (∃ m, assoc name (mappings s1) = Some m) ∧
    ∀ t' tb' col' v', code_of s t' tb' col' = Some v' → code_of s1 t' tb' col' = Some v') as (Hs1 & [m Em] & Hk).
  { unfold s1. destruct (assoc name (mappings s)) as [m|] eqn:E; [split_and!; eauto|]. split_and!.
    - unfold session_ok. cbn [mappings set_mappings]. constructor; [|done]. split_and!; constructor.
    - cbn [mappings set_mappings assoc]. rewrite decide_True by done. eauto.
    - intros t' tb' col' v'. unfold code_of, set_mappings. cbn [mappings assoc]. destruct (decide (mapping_table tb' col' = name)) as [Hn|]; [by rewrite Hn, E|done]. }
  rewrite Em. cbn [default from_option id]. destruct (existsb _ t); [done|].
  destruct (assoc t (codes m)) as [w|] eqn:Et.
  { intros [= <- <-]. split_and!; [done| |done]. unfold code_of. fold name. by rewrite Em. }
  destruct (INT_MAX <? next_code m); [done|]. erewrite M_bind_ok by reflexivity. intros [= <- <-].
  destruct (assoc_ok s1 name m Hs1 Em) as (Hn1 & Hn2 & Hlt).
  set (m' := mkMapping ((t, next_code m) :: codes m) (next_code m + 1)).
  assert (mapping_ok m') as Hm'.
  { unfold mapping_ok, m'. cbn. split_and!.
    - constructor; [by apply assoc_not_In|done].
    - constructor; [|done]. rewrite Forall_forall in Hlt. intros Hin. specialize (Hlt _ Hin). cbn in Hlt. lia.
    - constructor; [lia|]. eapply Forall_impl; [exact Hlt|]. cbn. lia. }
  split_and!.
  - by apply replace_ok.
  - unfold code_of. cbn [mappings set_mappings]. fold name. rewrite assoc_replace by eauto. rewrite decide_True by done.
    cbn [mbind option_bind codes assoc m']. by rewrite decide_True.
  - intros t' tb' col' v' Hv'%Hk. unfold code_of in *. cbn [mappings set_mappings]. rewrite assoc_replace by eauto.
    destruct (decide (mapping_table tb' col' = name)) as [Hd|]; [|done]. rewrite Hd, Em in Hv'. cbn [mbind option_bind codes assoc m'] in *.
    rewrite decide_False; [done|]. intros ->. congruence.
Qed.

(** Calls of [encode_text]. *)
Definition encodes (s s' : session) : Prop := ∃ t tb col v, encode_text t tb col s = (Ok v, s').

Lemma encodes_keep s s' :
  rtc encodes s s' → session_ok s →
  session_ok s' ∧ ∀ t tb col v, code_of s t tb col = Some v → code_of s' t tb col = Some v.
Proof.
  induction 1 as [s|s s1 s2 (t & tb & col & v & E) _ IH]; intros Hs; [done|].
  destruct (encode_text_spec t tb col s v s1 Hs E) as (Hs1 & _ & Hk). destruct (IH Hs1) as [? Hk']. eauto.
Qed.

Lemma NoDup_codes m t1 t2 v :
  mapping_ok m → assoc t1 (codes m) = Some v → assoc t2 (codes m) = Some v → t1 = t2.
Proof.
  intros (_ & Hn & _) H1%assoc_In H2%assoc_In.
  apply list_elem_of_lookup in H1 as [i Hi]. apply list_elem_of_lookup in H2 as [j Hj].
  assert (i = j) as ->; [|congruence]. eapply NoDup_lookup; [exact Hn|..]; rewrite list_lookup_fmap; [by rewrite Hi|by rewrite Hj].
Qed.

(** Two texts of a column get the same code exactly if they are equal, however
    many other texts of any column are encoded in between. *)
Theorem encode_text_injective t1 t2 tb col v1 v2 s s1 s2 s3 :
  session_ok s → encode_text t1 tb col s = (Ok v1, s1) → rtc encodes s1 s2 →
  encode_text t2 tb col s2 = (Ok v2, s3) → v1 = v2 ↔ t1 = t2.
Proof.
  intros Hs E1 Hr E2. destruct (encode_text_spec _ _ _ _ _ _ Hs E1) as (Hs1 & H1 & _).
  destruct (encodes_keep _ _ Hr Hs1) as [Hs2 Hk]. apply Hk in H1.
  destruct (encode_text_spec _ _ _ _ _ _ Hs2 E2) as (Hs3 & H2 & Hk2). apply Hk2 in H1.
  split; [|intros ->; congruence]. intros ->. unfold code_of in *.
  destruct (assoc (mapping_table tb col) (mappings s3)) as [m|] eqn:Em; [|done].
  eapply NoDup_codes; [by eapply assoc_ok|exact H1|exact H2].
Qed.

(** ** Rows with texts *)

(** A feature as it is printed when the mapping tables are those of [s]. *)
Definition feature_in (s : session) (table_name feature_name : text) (a : attribute) : text :=
  let token t := " "%char :: print_int (default 0 (code_of s t table_name feature_name)) in
  match typeid a with
  | TEXTOID | VARCHAROID => token (if value a =? 0 then text_of "(null)" else c_string (pointee a))
  | CHAROID => token (text_of "(null)")
  | _ => number_feature a
  end.

Definition line_in (s : session) (has_label : bool) (table_name : text) (names : list text) (attrs : row) : text :=
  (if has_label then print_int (sint 32 (default 0 (value <$> attrs !! length names))) else ["0"%char]) ++
  concat (zip_with (feature_in s table_name) names attrs) ++ [NEWLINE].

(** The batches of the rows: the first [n_batches] groups of [batch_size], texts
    printed by their codes in [s]. *)
Definition batches_in (s : session) (stage : MLStage) (has_label : bool) (table_name : text) (names : list text)
    (batch_size n_batches : Z) (rows : list row) : list (MLStage * text) :=
  (λ c, (stage, concat (line_in s has_label table_name names <$> c))) <$>
  take (Z.to_nat n_batches) (chunks (S (length rows)) (Z.to_nat batch_size) rows).

(** Codes are kept. *)
Definition keeps (s s' : session) : Prop :=
  ∀ t tb col v, code_of s t tb col = Some v → code_of s' t tb col = Some v.

Lemma keeps_refl s : keeps s s.
Proof. by intros t tb col v. Qed.

Lemma keeps_trans s1 s2 s3 : keeps s1 s2 → keeps s2 s3 → keeps s1 s3.
Proof. intros H1 H2 t tb col v Hv. by apply H2, H1. Qed.

Lemma encode_text_sent t tb col s v s' : encode_text t tb col s = (Ok v, s') → sent s' = sent s.
Proof.
  unfold encode_text. intros ([] & s1 & [= <-] & (s2 & s3 & [= <- <-] & E)%M_bind_inv_ok)%M_bind_inv_ok. revert E.
  set (s1 := match assoc (mapping_table tb col) (mappings s) with Some _ => s | None => _ end).
  assert (sent s1 = sent s) as <- by (unfold s1; by destruct (assoc (mapping_table tb col) (mappings s))).
  destruct (existsb _ t); [done|]. destruct (assoc t _); [by intros [= _ <-]|].
  destruct (INT_MAX <? _); [done|]. by intros [= _ <-].
Qed.

(** What a step that builds text does: [t] is what [f] gives in every session that
    keeps its codes. *)
Definition builds (m : M session text) (f : session → text) : Prop :=
  ∀ s t s', session_ok s → m s = (Ok t, s') →
    session_ok s' ∧ keeps s s' ∧ sent s' = sent s ∧ ∀ s2, keeps s' s2 → t = f s2.

Lemma builds_ret t : builds (mret t) (λ _, t).
Proof. intros s t' s' Hs [= <- <-]. split_and!; [done|apply keeps_refl|done|done]. Qed.

Lemma builds_bind m f (g : text → M session text) h k :
  builds m f → (∀ t, builds (g t) (h t)) → (∀ s, h (f s) s = k s) → builds (m ≫= g) k.
Proof.
  intros Hm Hg Hk s t s' Hs (t1 & s1 & E1 & E2)%M_bind_inv_ok.
  destruct (Hm _ _ _ Hs E1) as (Hs1 & K1 & Se1 & F1), (Hg t1 _ _ _ Hs1 E2) as (Hs2 & K2 & Se2 & F2).
  split_and!; [done|by eapply keeps_trans|congruence|]. intros s2 Hs2'. rewrite (F2 s2 Hs2'), <- Hk. f_equal.
  apply F1. by eapply keeps_trans.
Qed.

Lemma builds_token txt tb col :
  builds (token ← encode_text txt tb col; mret (" "%char :: print_int token))
    (λ s, " "%char :: print_int (default 0 (code_of s txt tb col))).
Proof.
  intros s t s' Hs (v & s1 & E1 & [= <- <-])%M_bind_inv_ok.
  destruct (encode_text_spec _ _ _ _ _ _ Hs E1) as (Hs1 & Hc & Hk).
  split_and!; [done|exact Hk|by eapply encode_text_sent|]. intros s2 Hk2. by rewrite (Hk2 _ _ _ _ Hc).
Qed.

Lemma builds_feature a tb f : builds (feature_text a tb f) (λ s, feature_in s tb f a).
Proof.
  unfold feature_text, feature_in, number_feature. destruct (typeid a); try apply builds_ret; try apply builds_token; [|by intros s t s' _ ?].
  destruct (value a =? 0); [apply builds_token|by intros s t s' _ ?].
Qed.

Lemma builds_features attrs tb names :
  builds (features_text attrs tb names) (λ s, concat (zip_with (feature_in s tb) names attrs)).
Proof.
  revert attrs. induction names as [|f names IH]; intros attrs; [destruct attrs; apply builds_ret|].
  destruct attrs as [|a attrs]; [by intros s t s' _ ?|]. cbn [features_text].
  eapply builds_bind; [apply builds_feature| |].
  - intros t. eapply builds_bind; [apply IH|intros r; apply builds_ret|]. by intros s.
  - by intros s.
Qed.

Lemma builds_row has_label tb names attrs :
  builds (row_text has_label tb names attrs) (λ s, line_in s has_label tb names attrs).
Proof.
  unfold row_text. eapply (builds_bind _ (λ _, if has_label
    then print_int (sint 32 (default 0 (value <$> attrs !! length names))) else ["0"%char])).
  - destruct has_label; apply builds_ret.
  - intros label. eapply builds_bind; [apply builds_features|intros r; apply builds_ret|]. by intros s.
  - by intros s.
Qed.

Lemma builds_data has_label tb names rows :
  builds (_build_libsvm_data has_label tb names rows) (λ s, concat (line_in s has_label tb names <$> rows)).
Proof.
  induction rows as [|attrs rows IH]; [apply builds_ret|]. cbn [_build_libsvm_data].
  eapply builds_bind; [apply builds_row| |].
  - intros t. eapply builds_bind; [apply IH|intros r; apply builds_ret|]. by intros s.
  - by intros s.
Qed.

Lemma send_chunks_in stage has_label tb names cs s s' :
  session_ok s → for_each (send_chunk stage has_label tb names) cs s = (Ok tt, s') →
  session_ok s' ∧ keeps s s' ∧ ∀ s2, keeps s' s2 →
    sent s' = sent s ++ ((λ c, (stage, concat (line_in s2 has_label tb names <$> c))) <$> cs).
Proof.
  revert s. induction cs as [|c cs IH]; intros s Hs.
  { intros [= <-]. split_and!; [done|apply keeps_refl|]. intros s2 _. by rewrite app_nil_r. }
  rewrite for_each_cons, send_chunk_bind. intros (t & s1 & E1 & (u & s2 & [= <- <-] & E2)%M_bind_inv_ok)%M_bind_inv_ok.
  destruct (builds_data _ _ _ _ _ _ _ Hs E1) as (Hs1 & K1 & Se1 & F1).
  destruct (IH (add_batch stage t s1) Hs1 E2) as (Hs' & K2 & Hsent).
  split_and!; [done|by eapply keeps_trans|]. intros s3 Hk. rewrite (Hsent s3 Hk). cbn. rewrite Se1, <- app_assoc. cbn.
  rewrite (F1 s3); [done|]. by eapply (keeps_trans _ s').
Qed.

Lemma train_classes_keep labels type tb target s n s1 :
  train_classes labels type tb target s = (Ok n, s1) → mappings s1 = mappings s ∧ sent s1 = sent s.
Proof.
  destruct type; [|by intros [= _ <-]]. cbn [train_classes]. unfold modify_st, lift_out, mbind, M_bind.
  destruct (make_class_id_map labels tb target); [|done..]. by intros [= _ <-].
Qed.

(** A training that returns has sent the first groups of rows of its table. *)
Lemma train_sends select labels model_name tb batch_size n_batches epoch nfeat names target type s task s' :
  1 ≤ batch_size → session_ok s →
  nr_train select labels model_name tb batch_size n_batches epoch nfeat names target type s = (Ok task, s') →
  session_ok s' ∧ sent s' = sent s ++ batches_in s' S_TRAIN true tb names batch_size n_batches
    (select (declare_query "nr_train_cursor" names (Some target) tb)).
Proof.
  intros Hb Hs Ht. destruct (train_classes labels type tb target s) as [[n| |] s1] eqn:Ec;
    [|unfold nr_train, mbind, M_bind in Ht; by rewrite Ec in Ht..].
  destruct (train_classes_keep _ _ _ _ _ _ _ Ec) as [Em Es].
  rewrite (nr_train_loop _ _ _ _ _ _ _ _ _ _ _ s s1 n Hb Ec) in Ht. unfold batches_in.
  set (rows := select _) in *. apply M_bind_inv_ok in Ht as ([] & s2 & E1 & E2).
  assert (s' = s2) as -> by (destruct (epoch <=? 1); [by injection E2|done]).
  assert (session_ok s1) as Hs1 by (unfold session_ok; by rewrite Em).
  destruct (send_chunks_in _ _ _ _ _ _ _ Hs1 E1) as (Hs2 & _ & Hsent). split; [done|]. rewrite <- Es. apply Hsent, keeps_refl.
Qed.


(** The concatenation of [nr_md5_list] fits its buffer. *)
Lemma nr_md5_list_ok md5 l : l ≠ [] → nr_md5_list md5 l = Ok (md5 (join_comma l)).
Proof.
  intros Hl. unfold nr_md5_list. destruct l as [|a l]; [done|].
  assert (∀ a l, zlen (join_comma (a :: l)) = foldr (λ s n, zlen s + n) 0 (a :: l) + zlen l) as E.
  { clear. intros a l. revert a. induction l as [|b l IH]; intros a; [cbn [join_comma foldr]; unfold zlen; cbn [length]; lia|].
    rewrite join_comma_cons, zlen_app, zlen_cons, (IH b), (zlen_cons b l). cbn [foldr]. lia. }
  rewrite (E a l), (zlen_cons a l). replace (_ <? _) with false by lia. done.
Qed.

(** Up to four batches, the split leaves a negative number of batches to test. *)
Lemma small_split_negative n : 1 ≤ n ≤ 4 → (_get_n_batches_train_eval_test n).2 = -1.
Proof.
  intros Hn. assert (n = 1 ∨ n = 2 ∨ n = 3 ∨ n = 4) as [->|[->|[->| ->]]] by lia; vm_compute; reflexivity.
Qed.

(** ** Samples *)

Definition int4 (z : Z) : attribute := mkAttribute INT4OID (z `mod` 2 ^ 64) [].
Definition sample_rows : list row :=
  [[int4 5; mkAttribute FLOAT8OID 4609434218613702656 []; int4 1]; [int4 (-7); mkAttribute INT2OID 3 []; int4 0];
   [int4 0; mkAttribute INT8OID 12 []; int4 1]].
Definition sample_select : text → list row := λ _, sample_rows.
Definition sample_labels : text → list (option text) := λ _, [Some (text_of "0"); Some (text_of "1")].
Definition sample_names : list text := [text_of "a"; text_of "b"].
Definition sample_session : session := mkSession [] None [].

Lemma sample_rows_ok : Forall (number_row 2) sample_rows.
Proof. repeat constructor. Qed.

Lemma train_sends_table_witness :
  sent (nr_train sample_select sample_labels (text_of "armnet") (text_of "t") 2 80 1 10 sample_names (text_of "y")
          PREDICT_CLASS sample_session).2 =
  [(S_TRAIN, text_of "1 5 1.500000" ++ NEWLINE :: text_of "0 -7 3" ++ [NEWLINE]); (S_TRAIN, text_of "1 0 12" ++ [NEWLINE])].
Proof.
  rewrite (train_sends_table sample_select sample_labels (text_of "armnet") (text_of "t") 2 80 1 10 sample_names (text_of "y")
    PREDICT_CLASS sample_session (set_classes [text_of "0"; text_of "1"] sample_session) 2);
    [vm_compute; reflexivity|discriminate|discriminate|reflexivity|exact sample_rows_ok].
Defined.

Lemma second_epoch_crashes_witness :
  (nr_train sample_select sample_labels (text_of "armnet") (text_of "t") 2 80 2 10 sample_names (text_of "y")
     PREDICT_VALUE sample_session).1 = Ub "read of a null pointer".
Proof.
  apply (second_epoch_crashes sample_select sample_labels (text_of "armnet") 1 (text_of "t") 2 80 2 10 sample_names
    (text_of "y") PREDICT_VALUE sample_session sample_session (-1));
    [discriminate|discriminate|reflexivity|exact sample_rows_ok|exact sample_rows_ok].
Defined.

Lemma inference_sends_table_witness :
  sent (nr_inference sample_select (text_of "armnet") 7 (text_of "t") 2 1 10 sample_names (text_of "y") PREDICT_CLASS
          (set_classes [text_of "0"; text_of "1"] sample_session)).2 =
  [(S_INFERENCE, text_of "0 5 1.500000" ++ NEWLINE :: text_of "0 -7 3" ++ [NEWLINE])].
Proof.
  rewrite (inference_sends_table sample_select (text_of "armnet") 7 (text_of "t") 2 1 10 sample_names (text_of "y")
    PREDICT_CLASS (set_classes [text_of "0"; text_of "1"] sample_session));
    [vm_compute; reflexivity|discriminate|reflexivity|exact sample_rows_ok].
Defined.

(** A table with a text column, trained for classes. *)
Definition text_rows : list row :=
  [[mkAttribute TEXTOID 4096 (text_of "red"); int4 1]; [mkAttribute TEXTOID 4112 (text_of "blue"); int4 0];
   [mkAttribute TEXTOID 4128 (text_of "red"); int4 1]].
Definition text_trained : outcome task_spec * session :=
  nr_train (λ _, text_rows) sample_labels (text_of "armnet") (text_of "t") 2 80 1 10 [text_of "a"] (text_of "y")
    PREDICT_CLASS sample_session.
Definition sample_task : task_spec := train_task (text_of "armnet") 2 80 1 10 [text_of "a"] (text_of "y") 2.

Definition sample_connection : system :=
  default (init_system 10 []) (exec (sample_events 1 ++ [EBackend; EBackend; ESend])
    (init_system 10 (connection_actions (text_of "t") sample_task (sent text_trained.2)))).


Lemma encode_text_injective_witness :
  let s1 := (encode_text (text_of "x") (text_of "t") (text_of "c") sample_session).2 in
  let s2 := (encode_text (text_of "z") (text_of "t") (text_of "c") s1).2 in
  (encode_text (text_of "y") (text_of "t") (text_of "c") s2).1 = Ok 3 ∧ (1 = 3 ↔ text_of "x" = text_of "y").
Proof.
  intros s1 s2. split; [vm_compute; reflexivity|].
  apply (encode_text_injective (text_of "x") (text_of "y") (text_of "t") (text_of "c") 1 3 sample_session s1 s2
    (encode_text (text_of "y") (text_of "t") (text_of "c") s2).2); [constructor|vm_compute; reflexivity| |vm_compute; reflexivity].
  apply rtc_once. exists (text_of "z"), (text_of "t"), (text_of "c"), 2. vm_compute. reflexivity.
Defined.
