(* ===== verification/Predict.v ===== *)
(** * PREDICT

    Models [nr_ext/src/predict.c]: a PREDICT statement looks a model up, trains
    one if there is none, runs the inference on the table and returns the
    engine's answer as a table.

    The three functions it calls through the function manager are arguments; a
    NULL result is [None]. The names of the columns and the settings are
    arguments as well. Numbers are read with [atof], for decimal texts, infinity
    and NaN. *)
From S2P Require Import Prelude CText CNumber Pipeline.
From Stdlib Require Import ZArith Lia Ascii SpecFloat.
From stdpp Require Import base strings numbers list.

Open Scope Z_scope.

(** ** Columns *)

(** [strtok(s, "d")] to the end: the delimiters at the head are skipped. *)
Fixpoint strtok (d : ascii) (token : text) (s : text) : list text :=
  match s with
  | [] => match token with [] => [] | _ => [token] end
  | c :: s =>
      if ascii_eqb c d then match token with [] => strtok d [] s | _ => token :: strtok d [] s end
      else strtok d (token ++ [c]) s
  end.

Definition split_columns (columns : text) : list text := strtok "," [] columns.

Record pg_attribute := mkPgAttribute { attname : text; attisdropped : bool }.

Definition max_num_columns : Z := 100.

(** [column_names] has room for 100 pointers. *)
Definition get_column_names (tupleDesc : list pg_attribute) (exclude : text) : outcome (list text) :=
  if max_num_columns <? zlen tupleDesc then Raise "Too many columns in table"
  else
    foldl (λ column_names attr,
             column_names ← column_names;
             if attisdropped attr then Ok column_names
             else if decide (attname attr = exclude) then Ok column_names
             else if max_num_columns <=? zlen column_names then Ub "write past the end of an array"
             else Ok (column_names ++ [attname attr]))
          (Ok []) tupleDesc.

(** ** The answer as a table *)

(** Infinities, NaN and decimal numbers; hexadecimal ones, which [atof] reads too,
    are left out. *)
Definition atof (s : text) : double :=
  let s := skip_spaces s in
  let neg := next_is "-" s in
  let digits := if neg || next_is "+" s then drop 1 s else s in
  if starts_with_ci (text_of "inf") digits then S754_infinity neg
  else if starts_with_ci (text_of "nan") digits then S754_nan
  else match strtod s with Some (d, _) => d | None => S754_zero false end.

(** A row of the result. *)
Inductive out_row := FloatRow (value : double) | ClassRow (class : text) (dbg_value : double).

Record NeurDBInferenceResult := mkResult { typeoid : oid; result : text; id_class_map : list text }.

Definition insert_float8_to_tup_output (value : double) (id_class_map : list text) : outcome out_row :=
  Ok (FloatRow value).

(** [list_nth] demands an element. *)
Definition insert_cstring_to_tup_output (value : double) (id_class_map : list text) : outcome out_row :=
  match id_class_map !! (if SFltb (S754_zero false) value then 1 else 0)%nat with
  | Some class => Ok (ClassRow class value)
  | None => Ub "read past the end of a list"
  end.

Definition BUFFER_SIZE : Z := 64.

(** The loop over the text: [buffer] is what is in the buffer, and [rows] the rows
    inserted so far. *)
Fixpoint parse_loop (callback : double → list text → outcome out_row) (id_class_map : list text)
    (buffer : text) (rows : list out_row) (str : text) : outcome (list out_row) :=
  match str with
  | [] =>
      if 0 <? zlen buffer then r ← callback (atof buffer) id_class_map; Ok (rows ++ [r]) else Ok rows
  | c :: str =>
      if ascii_eqb c " " then
        if 0 <? zlen buffer then
          r ← callback (atof buffer) id_class_map;
          parse_loop callback id_class_map [] (rows ++ [r]) str
        else parse_loop callback id_class_map buffer rows str
      else if zlen buffer <? BUFFER_SIZE - 1 then parse_loop callback id_class_map (buffer ++ [c]) rows str
      else parse_loop callback id_class_map buffer rows str
  end.

Definition parseDoubles (r : NeurDBInferenceResult) (callback : double → list text → outcome out_row) :
    outcome (list out_row) :=
  parse_loop callback (id_class_map r) [] [] (result r).

Definition return_table (r : NeurDBInferenceResult) : outcome (list out_row) :=
  match typeoid r with
  | FLOAT8OID => parseDoubles r insert_float8_to_tup_output
  | TEXTOID => parseDoubles r insert_cstring_to_tup_output
  | _ => Raise "Unsupported data type"
  end.

(** ** The statement *)

Section execution.

(** The functions of the pipeline. *)
Context (nr_model_lookup : text → list text → text → outcome (option Z)).
Context (nr_train : text → text → Z → Z → Z → Z → list text → text → PredictType → outcome (option Z)).
Context (nr_inference : text → Z → text → Z → Z → Z → list text → text → PredictType →
                        outcome (option NeurDBInferenceResult)).
(** The columns of a table of the schema "public". *)
Context (columns_of : text → outcome (list pg_attribute)).
Context (NrTaskBatchSize NrTaskNumBatches NrTaskEpoch NrTaskMaxFeatures : Z) (NrModelName : text).

(** [CStringGetTextDatum] of a pointer that may be NULL. *)
Definition CStringGetTextDatum (s : option text) : outcome text :=
  match s with Some s => Ok s | None => Ub "read of a null pointer" end.

(** An inference without a result returns no rows. *)
Definition exec_udf (type : PredictType) (model : option text) (table trainColumns targetColumn : text)
    : outcome (list out_row) :=
  let trainColumnsList := split_columns trainColumns in
  columns ← (if zlen trainColumns =? 0 then d ← columns_of table; get_column_names d targetColumn
             else Ok trainColumnsList);
  modelLookupResult ← nr_model_lookup table columns targetColumn;
  let modelId := default 0 modelLookupResult in
  modelId ← (if modelId =? 0 then
               model ← CStringGetTextDatum model;
               trainingResult ← nr_train model table NrTaskBatchSize NrTaskNumBatches NrTaskEpoch NrTaskMaxFeatures
                                  columns targetColumn type;
               Ok (default modelId trainingResult)
             else Ok modelId);
  model ← CStringGetTextDatum model;
  inferenceResult ← nr_inference model modelId table NrTaskBatchSize NrTaskNumBatches NrTaskMaxFeatures columns
                      targetColumn type;
  match inferenceResult with Some r => return_table r | None => Ok [] end.

(** A column to train on. *)
Inductive train_column := A_Star | ColumnName (name : text).

Record NeurDBTrainOnSpec := mkTrainOnSpec { modelName : text; trainOn : list train_column }.

Record NeurDBPredictStmt := mkPredictStmt {
  kind : PredictType;
  targetList : list text;
  fromClause : list text;
  trainOnSpec : option NeurDBTrainOnSpec
}.

(** The names with a comma behind each; a star empties the list and ends it. *)
Fixpoint train_on_columns (acc : text) (l : list train_column) : text :=
  match l with
  | [] => acc
  | A_Star :: _ => []
  | ColumnName n :: l => train_on_columns (acc ++ n ++ [","%char]) l
  end.

Definition ExecPredictStmt (stmt : NeurDBPredictStmt) : outcome (list out_row) :=
  let targetColumn := concat (targetList stmt) in
  match fromClause stmt with
  | [] => Raise "No from clause in statement"
  | tableName :: _ =>
      let '(trainOnColumns, modelName) :=
        match trainOnSpec stmt with
        | Some spec => (train_on_columns [] (trainOn spec),
                        Some (if 0 <? zlen (modelName spec) then modelName spec else NrModelName))
        | None => ([], None)
        end in
      exec_udf (kind stmt) modelName tableName (take (length trainOnColumns - 1) trainOnColumns) targetColumn
  end.
End execution.

(** ** The columns a statement names *)

Definition column_ok (n : text) : Prop := n ≠ [] ∧ Forall (λ c, ascii_eqb c "," = false) n.

Lemma strtok_token d n token s : Forall (λ c, ascii_eqb c d = false) n → strtok d token (n ++ s) = strtok d (token ++ n) s.
Proof.
  intros Hn. revert token. induction Hn as [|c n Hc _ IH]; intros token; [by rewrite app_nil_r|].
  cbn. rewrite Hc, IH, <- app_assoc. done.
Qed.

Lemma strtok_join names : Forall column_ok names → strtok "," [] (join_comma names) = names.
Proof.
  induction 1 as [|n names [Hne Hn] _ IH]; [done|]. rewrite join_comma_cons, strtok_token by done. cbn [app].
  destruct n as [|c n]; [done|]. destruct names as [|m names]; [done|]. cbn [strtok]. change (ascii_eqb "," ",") with true.
  cbv iota. by rewrite IH.
Qed.

Lemma train_on_names names acc :
  train_on_columns acc (ColumnName <$> names) = acc ++ concat ((λ n, n ++ [","%char]) <$> names).
Proof.
  revert acc. induction names as [|n names IH]; intros acc; cbn; [by rewrite app_nil_r|]. by rewrite IH, <- !app_assoc.
Qed.

Lemma concat_commas names : names ≠ [] → concat ((λ n, n ++ [","%char]) <$> names) = join_comma names ++ [","%char].
Proof.
  induction names as [|n names IH]; [done|]. intros _. cbn [fmap list_fmap concat]. rewrite join_comma_cons.
  destruct names as [|m names]; [cbn; by rewrite !app_nil_r|]. rewrite IH by done. by rewrite <- !app_assoc.
Qed.

Lemma named_columns names :
  names ≠ [] → let t := train_on_columns [] (ColumnName <$> names) in take (length t - 1) t = join_comma names.
Proof.
  intros Hne t. unfold t. rewrite train_on_names. cbn [app]. rewrite concat_commas by done. rewrite length_app. cbn [length].
  replace (_ + 1 - 1)%nat with (length (join_comma names)) by lia. apply take_app_length.
Qed.

Lemma join_nonempty names : names ≠ [] → Forall column_ok names → zlen (join_comma names) ≠ 0.
Proof.
  intros Hne Hn. destruct names as [|n names]; [done|]. apply Forall_cons in Hn as [[Hn _] _]. rewrite join_comma_cons, zlen_app.
  destruct n as [|c n]; [done|]. rewrite zlen_cons. pose proof (zlen_nonneg n).
  match goal with |- context [zlen ?x] => lazymatch x with n => fail | _ => pose proof (zlen_nonneg x) end end. lia.
Qed.

(** ** The columns of a table *)

Definition kept_columns (exclude : text) (d : list pg_attribute) : list text :=
  attname <$> filter (λ a, attisdropped a = false ∧ attname a ≠ exclude) d.

Lemma get_column_names_loop exclude d acc :
  zlen acc + zlen d ≤ max_num_columns →
  foldl (λ column_names attr,
           column_names ← column_names;
           if attisdropped attr then Ok column_names
           else if decide (attname attr = exclude) then Ok column_names
           else if max_num_columns <=? zlen column_names then Ub "write past the end of an array"
           else Ok (column_names ++ [attname attr])) (Ok acc) d = Ok (acc ++ kept_columns exclude d).
Proof.
  revert acc. induction d as [|a d IH]; intros acc Hl; [by rewrite app_nil_r|]. rewrite zlen_cons in Hl. pose proof (zlen_nonneg d).
  cbn [foldl mbind outcome_bind]. unfold kept_columns. rewrite filter_cons. destruct (attisdropped a) eqn:Ea.
  - rewrite decide_False by (by intros []). apply IH. lia.
  - destruct (decide (attname a = exclude)) as [E|E].
    + rewrite decide_False by (by intros []). apply IH. lia.
    + rewrite decide_True by done. replace (_ <=? _) with false by lia.
      rewrite IH by (rewrite zlen_app; change (zlen [attname a]) with 1; lia). by rewrite <- app_assoc.
Qed.

(** ** The numbers of an answer *)

(** What is between spaces. *)
Definition words (s : text) : list text := strtok " " [] s.

(** Call [f] on each in turn. *)
Fixpoint rows_of (f : text → outcome out_row) (l : list text) : outcome (list out_row) :=
  match l with [] => Ok [] | t :: l => r ← f t; rs ← rows_of f l; Ok (r :: rs) end.

Definition word_row (callback : double → list text → outcome out_row) (ids : list text) (w : text) : outcome out_row :=
  callback (atof (take 63 w)) ids.

Lemma take_63_snoc (w : text) c : take 63 (w ++ [c]) = if zlen (take 63 w) <? BUFFER_SIZE - 1 then take 63 w ++ [c] else take 63 w.
Proof.
  unfold zlen, BUFFER_SIZE. rewrite length_take. destruct (Z.ltb_spec (Z.of_nat (63 `min` length w)) (64 - 1)) as [H|H].
  - rewrite (take_ge w) by lia. by rewrite take_ge by (rewrite length_app; cbn; lia).
  - by rewrite take_app_le by lia.
Qed.

Lemma parse_loop_words callback ids w rows s :
  parse_loop callback ids (take 63 w) rows s =
  rs ← rows_of (word_row callback ids) (strtok " " w s); Ok (rows ++ rs).
Proof.
  assert (∀ w : text, (0 <? zlen (take 63 w)) = match w with [] => false | _ => true end) as Hw.
  { intros [|c w']; [reflexivity|]. unfold zlen. rewrite length_take. apply Z.ltb_lt. cbn [length]. lia. }
  revert w rows. induction s as [|c s IH]; intros w rows; cbn [parse_loop strtok].
  - rewrite Hw. destruct w as [|d w]; cbn [rows_of]; [cbn; by rewrite app_nil_r|].
    unfold word_row. by destruct (callback _ ids).
  - destruct (ascii_eqb c " ").
    + rewrite Hw. destruct w as [|d w]; [apply (IH [])|]. cbn [rows_of]. change (word_row callback ids (d :: w)) with (callback (atof (take 63 (d :: w))) ids).
      destruct (callback (atof (take 63 (d :: w))) ids) as [r| |]; [|done..]. cbn [mbind outcome_bind].
      rewrite (IH []). destruct (rows_of _ _); cbn; [by rewrite <- app_assoc|done..].
    + rewrite <- IH, take_63_snoc. by destruct (_ <? _).
Qed.

Lemma rows_of_Ok f (g : text → out_row) l : (∀ t, f t = Ok (g t)) → rows_of f l = Ok (g <$> l).
Proof. intros Hf. induction l as [|t l IH]; cbn; [done|]. by rewrite Hf, IH. Qed.

(** C25. The table has one row for each text between spaces in the engine's answer,
    in order: its value, read from the first 63 characters, or for a model of
    two classes the second class if the value is above 0 and the first class
    otherwise. *)
Theorem return_table_rows s c0 c1 ids :
  return_table (mkResult FLOAT8OID s ids) = Ok ((λ w, FloatRow (atof (take 63 w))) <$> words s) ∧
  return_table (mkResult TEXTOID s (c0 :: c1 :: ids)) =
    Ok ((λ w, let v := atof (take 63 w) in ClassRow (if SFltb (S754_zero false) v then c1 else c0) v) <$> words s).
Proof.
  unfold return_table, parseDoubles. cbn [typeoid result id_class_map].
  split.
  - rewrite (parse_loop_words _ _ []). by rewrite (rows_of_Ok _ (λ w, FloatRow (atof (take 63 w)))).
  - rewrite (parse_loop_words _ _ []).
    rewrite (rows_of_Ok _ (λ w, let v := atof (take 63 w) in ClassRow (if SFltb (S754_zero false) v then c1 else c0) v)); [done|].
    intros t. unfold word_row, insert_cstring_to_tup_output. cbv zeta. by destruct (SFltb _ _).
Qed.

(** The columns of a table are collected in the array of 100 names without
    writing past its end: for a table of up to 100 columns they are the ones
    that are not dropped and not the target, in order, and for a larger table
    there is an error. *)
Theorem get_column_names_spec d exclude :
  get_column_names d exclude =
  if decide (zlen d ≤ max_num_columns) then Ok (kept_columns exclude d) else Raise "Too many columns in table".
Proof.
  unfold get_column_names. case_decide as Hd; [|by replace (_ <? _) with true by lia].
  replace (_ <? _) with false by lia. rewrite get_column_names_loop by done. done.
Qed.

(** C26. A PREDICT statement that names its columns (non-empty names without a
    comma) looks the model up, trains and infers with exactly these columns in
    their order: it trains only if the lookup finds no model, and the inference
    runs the model found or trained. *)
Theorem ExecPredictStmt_columns lookup train infer columns_of batch_size n_batches epoch nfeat model_name stmt spec names
    table rest found :
  names ≠ [] → Forall column_ok names → trainOnSpec stmt = Some spec → trainOn spec = ColumnName <$> names →
  fromClause stmt = table :: rest →
  let target := concat (targetList stmt) in
  let model := if 0 <? zlen (modelName spec) then modelName spec else model_name in
  lookup table names target = Ok found →
  ExecPredictStmt lookup train infer columns_of batch_size n_batches epoch nfeat model_name stmt =
  (id ← (if default 0 found =? 0
         then default 0 <$> train model table batch_size n_batches epoch nfeat names target (kind stmt)
         else Ok (default 0 found));
   r ← infer model id table batch_size n_batches nfeat names target (kind stmt);
   match r with Some r => return_table r | None => Ok [] end).
Proof.
  intros Hne Hn Hs Ht Hf target model Hl. unfold ExecPredictStmt. rewrite Hf, Hs, Ht, named_columns by done. fold target model.
  unfold exec_udf. pose proof (join_nonempty names Hne Hn). replace (_ =? 0) with false by lia. cbn [mbind outcome_bind].
  unfold split_columns. rewrite strtok_join by done. rewrite Hl. cbn [mbind outcome_bind CStringGetTextDatum].
  destruct (default 0 found =? 0) eqn:E; [|done]. apply Z.eqb_eq in E. rewrite E.
  by destruct (train model table _ _ _ _ names target _).
Qed.

Lemma ExecPredictStmt_columns_witness :
  ExecPredictStmt (λ _ _ _, Ok (Some 0)) (λ _ _ _ _ _ _ _ _ _, Ok (Some 9))
    (λ _ id _ _ _ _ cols _ _, Ok (Some (mkResult FLOAT8OID (print_int id ++ text_of " -2.5") []))) (λ _, Ok [])
    4096 80 1 5500 (text_of "armnet")
    (mkPredictStmt PREDICT_VALUE [text_of "y"] [text_of "t"]
       (Some (mkTrainOnSpec [] [ColumnName (text_of "a"); ColumnName (text_of "b")]))) =
  Ok [FloatRow (double_of_Z 9); FloatRow (decimal true 25 (-1))].
Proof.
  rewrite (ExecPredictStmt_columns _ _ _ _ _ _ _ _ _ _ (mkTrainOnSpec [] [ColumnName (text_of "a"); ColumnName (text_of "b")])
    [text_of "a"; text_of "b"] (text_of "t") [] (Some 0));
    [vm_compute; reflexivity|discriminate| |reflexivity|reflexivity|reflexivity|reflexivity].
  repeat constructor; discriminate.
Defined.
