(* ===== verification/Action.v ===== *)
(** * The learned concurrency-control policy

    Models [nr_am/src/nram_xact/action.c]: the table of actions in shared
    memory, its loading from a policy file, and the choice of an action from
    the feature of a transaction.

    The table is the state; it keeps the entries that were loaded before an
    error. The contents of files is an argument. [sscanf] is modelled for the
    conversions the loader uses: [%u], [%llu] and decimal [%lf] (hexadecimal
    floats, infinities and NaNs are not); a double is the rational its literal
    denotes, without the rounding to binary. *)
From S2P Require Import Prelude CText.
From Stdlib Require Import ZArith Lia QArith Ascii.
From stdpp Require Import base strings gmap numbers list.

Open Scope Z_scope.

Definition SEC_TO_MS (sec : Z) : Z := sec * 1000.
Definition DEFAULT_WAIT_MS : Z := SEC_TO_MS 1.
Definition READ_OPT : Z := 0.
Definition UPDATE_OPT : Z := 1.
Definition MAX_XACT_FEATURE_SPACE : Z := Z.shiftl 1 5.

Record CCActionData := mkAction { detect_all : bool; priority : Q; timeout : Z }.
Add Printing Constructor CCActionData.

Record XactFeatureData := mkFeature { n_access : Z; cur_op : Z; n_dep : Z }.
Add Printing Constructor XactFeatureData.

(** [act] of [CachedAgentFuncData]; the pointer is NULL before start-up. *)
Abbreviation CachedAgentFunc := (option (list CCActionData)).

Definition min_u32 (x y : Z) : Z := if x <? y then x else y.

Definition encode_feature_10bit (feature : XactFeatureData) : Z :=
  let op := if cur_op feature =? 0 then 0 else 1 in
  let acc := min_u32 (n_access feature) 15 in
  let idx := Z.lor 0 op in
  let idx := u32 (Z.shiftl idx 4) in
  Z.lor idx acc.

Definition default_action (detect : bool) : CCActionData := mkAction detect 0 DEFAULT_WAIT_MS.

(** [ShmemInitStruct] finds the block of an earlier start-up or allocates it. *)
Definition init_agent_function_cache (found : CachedAgentFunc) : CachedAgentFunc :=
  match found with
  | Some act => Some act
  | None => Some (replicate (Z.to_nat MAX_XACT_FEATURE_SPACE) (default_action false))
  end.

Definition get_action (feature : option XactFeatureData) (cache : CachedAgentFunc)
    : outcome CCActionData :=
  match cache, feature with
  | None, _ => Raise "GlobalCachedAgentFunc not initialized"
  | Some _, None => Raise "get_action: feature is NULL"
  | Some act, Some feature =>
      match act !! Z.to_nat (encode_feature_10bit feature) with
      | Some a => Ok a
      | None => Ub "read past the end of the action table"
      end
  end.

(** What [print_xact_feature] appends. *)
Definition print_xact_feature (feature : option XactFeatureData)
    : option (Z * string * Z * Z) :=
  match feature with
  | None => None
  | Some f =>
      let op := if cur_op f =? READ_OPT then "READ"%string
                else if cur_op f =? UPDATE_OPT then "WRITE"%string else "UNKNOWN"%string in
      Some (n_access f, op, n_dep f, encode_feature_10bit f)
  end.

(** ** Scanning a line *)

Definition scan_sign (s : text) : bool * text :=
  match s with
  | c :: s' => if ascii_eqb c "-" then (true, s') else if ascii_eqb c "+" then (false, s') else (false, s)
  | [] => (false, [])
  end.

(** [strtoul]: the value saturates at 2^64 - 1, a minus sign negates it. *)
Definition scan_unsigned (s : text) : option (Z * text) :=
  let '(neg, s) := scan_sign (skip_spaces s) in
  let '(v, count, s) := scan_digits 0 0 s in
  match count with
  | O => None
  | S _ =>
      let v' := if 2 ^ 64 <=? v then 2 ^ 64 - 1 else if neg then u64 (- v) else v in
      Some (v', s)
  end.

Definition pow10 (e : Z) : Q :=
  if 0 <=? e then inject_Z (10 ^ e) else (1 # Z.to_pos (10 ^ (- e)))%Q.

(** [%lf]: an exponent letter without digits is a matching failure. *)
Definition scan_double (s : text) : option (Q * text) :=
  let '(neg, s) := scan_sign (skip_spaces s) in
  let '(v, n1, s) := scan_digits 0 0 s in
  let '(v, n2, s) :=
    match s with
    | c :: s' => if ascii_eqb c "." then scan_digits v 0 s' else (v, O, s)
    | [] => (v, O, s)
    end in
  match (n1 + n2)%nat with
  | O => None
  | S _ =>
      let m := (inject_Z (if neg then - v else v) * pow10 (- Z.of_nat n2))%Q in
      match s with
      | c :: s' =>
          if ascii_eqb c "e" || ascii_eqb c "E" then
            let '(eneg, s'') := scan_sign s' in
            let '(e, n3, s'') := scan_digits 0 0 s'' in
            match n3 with
            | O => None
            | S _ => Some ((m * pow10 (if eneg then - e else e))%Q, s'')
            end
          else Some (m, s)
      | [] => Some (m, s)
      end
  end.

(** [sscanf(p, "%u %u %lf %llu", ...)] with 4 conversions. *)
Definition scan4 (p : text) : option (Z * Z * Q * Z) :=
  '(idx, p) ← scan_unsigned p;
  '(detect, p) ← scan_unsigned p;
  '(prio, p) ← scan_double p;
  '(tout, _) ← scan_unsigned p;
  Some (u32 idx, u32 detect, prio, tout).

(** [sscanf(p, "%u %lf %llu", ...)] with 3 conversions. *)
Definition scan3 (p : text) : option (Z * Q * Z) :=
  '(detect, p) ← scan_unsigned p;
  '(prio, p) ← scan_double p;
  '(tout, _) ← scan_unsigned p;
  Some (u32 detect, prio, tout).

(** [fgets] with a buffer of [n + 1] characters, on a file that is not at its end. *)
Fixpoint fgets (n : nat) (file : text) : text * text :=
  match n, file with
  | S n, c :: file =>
      if ascii_eqb c "010" then ([c], file)
      else let '(line, rest) := fgets n file in (c :: line, rest)
  | _, _ => ([], file)
  end.

Fixpoint skip_blanks (s : text) : text :=
  match s with
  | c :: s' => if ascii_eqb c " " || ascii_eqb c "009" then skip_blanks s' else s
  | [] => []
  end.

Definition UINT32_MAX : Z := 2 ^ 32 - 1.

Definition entry (detect : Z) (prio : Q) (tout : Z) : CCActionData :=
  mkAction (negb (detect =? 0)) prio (Z.min tout UINT32_MAX).

(** One line of the file: the table and the cursor after it. *)
Definition load_line (line : text) : M (list CCActionData * Z) unit := λ '(act, cursor),
  let p := skip_blanks (c_string line) in
  match p with
  | [] => (Ok tt, (act, cursor))
  | c :: _ =>
      if ascii_eqb c "010" || ascii_eqb c "#" then (Ok tt, (act, cursor))
      else match scan4 p with
      | Some (idx, detect, prio, tout) =>
          if MAX_XACT_FEATURE_SPACE <=? idx then
            (Raise "load_agent_function: index out of range", (act, cursor))
          else (Ok tt, (<[Z.to_nat idx := entry detect prio tout]> act, cursor))
      | None =>
          match scan3 p with
          | Some (detect, prio, tout) =>
              if MAX_XACT_FEATURE_SPACE <=? cursor then
                (Raise "load_agent_function: too many entries", (act, cursor))
              else
                (Ok tt, (<[Z.to_nat cursor := entry detect prio tout]> act, u32 (cursor + 1)))
          | None => (Raise "load_agent_function: malformed line", (act, cursor))
          end
      end
  end.

(** The loop over the lines; every [fgets] takes a character, so that the
    length of the file bounds the iterations. *)
Fixpoint load_lines (fuel : nat) (file : text) : M (list CCActionData * Z) unit := λ s,
  match fuel, file with
  | _, [] => (Ok tt, s)
  | O, _ :: _ => (Ok tt, s)
  | S fuel, _ :: _ =>
      let '(line, rest) := fgets 255 file in
      (load_line line ≫= λ _, load_lines fuel rest) s
  end.

Fixpoint pg_strcasecmp_eq (s t : string) : bool :=
  match s, t with
  | EmptyString, EmptyString => true
  | String a s, String b t => ascii_eqb (tolower a) (tolower b) && pg_strcasecmp_eq s t
  | _, _ => false
  end.

Definition builtin_policy (detect : bool) (act : list CCActionData) : list CCActionData :=
  (λ _, default_action detect) <$> act.

(** [fopen] gives the contents of a file that can be opened. *)
Definition load_agent_function (fopen : string → option text) (filename : option string)
    : M CachedAgentFunc unit := λ cache,
  match cache with
  | None => (Raise "GlobalCachedAgentFunc not initialized", None)
  | Some act =>
      match filename with
      | None | Some EmptyString => (Raise "load_agent_function: invalid filename", Some act)
      | Some name =>
          if pg_strcasecmp_eq name "2pl" then (Ok tt, Some (builtin_policy true act))
          else if pg_strcasecmp_eq name "occ" then (Ok tt, Some (builtin_policy false act))
          else match fopen name with
          | None => (Raise "load_agent_function: could not open", Some act)
          | Some file =>
              let '(r, (act', _)) := load_lines (length file) file (act, 0) in (r, Some act')
          end
      end
  end.

(** ** The feature index *)

Lemma encode_feature_val f :
  0 ≤ n_access f →
  encode_feature_10bit f = (if cur_op f =? 0 then 0 else 16) + Z.min (n_access f) 15.
Proof.
  intros Hn. unfold encode_feature_10bit, min_u32.
  assert ((if n_access f <? 15 then n_access f else 15) = Z.min (n_access f) 15) as ->
    by (destruct (Z.ltb_spec (n_access f) 15); lia).
  assert (∃ n : nat, Z.min (n_access f) 15 = Z.of_nat n ∧ (n < 16)%nat) as (n & -> & Hlt).
  { exists (Z.to_nat (Z.min (n_access f) 15)). lia. }
  do 16 (destruct n as [|n]; [by destruct (cur_op f =? 0)|]). lia.
Qed.

(** A table as the start-up creates it: 32 entries with 32-bit timeouts. *)
Definition cache_ok (act : list CCActionData) : Prop :=
  zlen act = MAX_XACT_FEATURE_SPACE ∧ Forall (λ a, in_u32 (timeout a)) act.

Lemma get_action_in act f :
  cache_ok act → 0 ≤ n_access f → ∃ a, get_action (Some f) (Some act) = Ok a ∧ a ∈ act.
Proof.
  intros [Hlen _] Hf. unfold get_action. rewrite encode_feature_val by done.
  change MAX_XACT_FEATURE_SPACE with 32 in Hlen. unfold zlen in Hlen.
  destruct (lookup_lt_is_Some_2 act (Z.to_nat ((if cur_op f =? 0 then 0 else 16) + Z.min (n_access f) 15)))
    as [a Ha]; [destruct (cur_op f =? 0); lia|].
  rewrite Ha. exists a. split; [done|]. by eapply list_elem_of_lookup_2.
Qed.

(** The index computed from a feature stays inside the table, so that
    [get_action] always returns an entry; two features select the same entry
    exactly when they agree on reading or writing and on the number of accesses
    up to 15. *)
Theorem get_action_total act f g :
  cache_ok act → 0 ≤ n_access f → 0 ≤ n_access g →
  (∃ a, get_action (Some f) (Some act) = Ok a ∧ a ∈ act) ∧
  0 ≤ encode_feature_10bit f < MAX_XACT_FEATURE_SPACE ∧
  (encode_feature_10bit f = encode_feature_10bit g ↔
   (cur_op f = 0 ↔ cur_op g = 0) ∧ Z.min (n_access f) 15 = Z.min (n_access g) 15).
Proof.
  intros Hact Hf Hg. split; [by apply get_action_in|]. change MAX_XACT_FEATURE_SPACE with 32.
  rewrite !encode_feature_val by done.
  assert (0 ≤ (if cur_op f =? 0 then 0 else 16) + Z.min (n_access f) 15 < 32) as Hb
    by (destruct (cur_op f =? 0); lia).
  split; [lia|]. destruct (Z.eqb_spec (cur_op f) 0), (Z.eqb_spec (cur_op g) 0); split; intros H; (lia || tauto).
Qed.

Definition initial_act : list CCActionData := replicate 32 (default_action false).

Lemma initial_act_ok : cache_ok initial_act.
Proof. split; [done|]. by apply Forall_replicate. Qed.

Lemma get_action_total_witness :
  get_action (Some (mkFeature 4294967295 1 0)) (Some initial_act) = Ok (default_action false) ∧
  encode_feature_10bit (mkFeature 15 1 3) = encode_feature_10bit (mkFeature 4294967295 1 0).
Proof.
  split; [done|].
  apply (get_action_total initial_act (mkFeature 15 1 3) (mkFeature 4294967295 1 0)
    initial_act_ok); done.
Defined.

(** ** Loading keeps the table *)

Lemma scan_digits_nonneg acc count s :
  0 ≤ acc → 0 ≤ (scan_digits acc count s).1.1.
Proof.
  revert acc count. induction s as [|c s IH]; intros acc count Ha; cbn; [done|].
  destruct (digit_val c) as [d|] eqn:E; [|done]. apply IH.
  unfold digit_val in E. case_match; simplify_eq. lia.
Qed.

Lemma scan_unsigned_range s v s' : scan_unsigned s = Some (v, s') → in_u64 v.
Proof.
  unfold scan_unsigned. destruct (scan_sign (skip_spaces s)) as [neg s1].
  pose proof (scan_digits_nonneg 0 0 s1) as Hv.
  destruct (scan_digits 0 0 s1) as [[v0 [|n]] s2]; [done|]. cbn in Hv.
  intros [= <- <-]. destruct (Z.leb_spec (2 ^ 64) v0); [unfold in_u64; lia|].
  destruct neg; [apply u64_range|]. unfold in_u64. lia.
Qed.

Lemma entry_timeout detect prio tout : in_u64 tout → in_u32 (timeout (entry detect prio tout)).
Proof. unfold in_u64, in_u32, entry, UINT32_MAX; cbn. lia. Qed.

Lemma cache_ok_insert act i a :
  cache_ok act → in_u32 (timeout a) → cache_ok (<[i := a]> act).
Proof.
  intros [Hl Ht] Ha. split; [unfold zlen in *; by rewrite length_insert|].
  by apply Forall_insert.
Qed.

Lemma scan4_range p idx detect prio tout :
  scan4 p = Some (idx, detect, prio, tout) → in_u64 tout ∧ in_u32 idx.
Proof.
  unfold scan4. intros ([i p1] & _ & H)%bind_Some. apply bind_Some in H as ([d p2] & _ & H).
  apply bind_Some in H as ([q p3] & _ & H). apply bind_Some in H as ([t p4] & Ht & [= <- <- <- <-]).
  split; [by eapply scan_unsigned_range|apply u32_range].
Qed.

Lemma scan3_range p detect prio tout : scan3 p = Some (detect, prio, tout) → in_u64 tout.
Proof.
  unfold scan3. intros ([d p1] & _ & H)%bind_Some. apply bind_Some in H as ([q p2] & _ & H).
  apply bind_Some in H as ([t p3] & Ht & [= <- <- <-]). by eapply scan_unsigned_range.
Qed.

Lemma load_line_safe line act cursor :
  cache_ok act →
  (∀ why, (load_line line (act, cursor)).1 ≠ Ub why) ∧ cache_ok (load_line line (act, cursor)).2.1.
Proof.
  intros Hact. unfold load_line. destruct (skip_blanks _) as [|c p]; [done|].
  destruct (_ || _); [done|].
  destruct (scan4 (c :: p)) as [[[[idx detect] prio] tout]|] eqn:E4.
  - apply scan4_range in E4 as [Ht _]. case_match; [done|]. cbn. split; [done|].
    by apply cache_ok_insert, entry_timeout.
  - destruct (scan3 (c :: p)) as [[[detect prio] tout]|] eqn:E3; [|done].
    apply scan3_range in E3. case_match; [done|]. cbn. split; [done|].
    by apply cache_ok_insert, entry_timeout.
Qed.

Lemma load_lines_safe fuel file act cursor :
  cache_ok act →
  (∀ why, (load_lines fuel file (act, cursor)).1 ≠ Ub why) ∧
  cache_ok (load_lines fuel file (act, cursor)).2.1.
Proof.
  revert file act cursor. induction fuel as [|fuel IH]; intros [|c file] act cursor Hact;
    cbn [load_lines]; try done.
  destruct (fgets 255 (c :: file)) as [line rest].
  destruct (load_line_safe line act cursor Hact) as [Hub Hok].
  unfold mbind, M_bind. destruct (load_line line (act, cursor)) as [[[]|e|e] [act' cursor']] eqn:E;
    cbn in *; [by apply IH|done|by destruct (Hub e)].
Qed.

(** Whatever the policy file holds, loading it leaves a well-formed table,
    also when it stops at an error: 32 entries with 32-bit timeouts, no write
    outside the table. *)
Theorem load_agent_function_safe fopen filename act :
  cache_ok act →
  (∀ why, (load_agent_function fopen filename (Some act)).1 ≠ Ub why) ∧
  ∃ act', (load_agent_function fopen filename (Some act)).2 = Some act' ∧ cache_ok act'.
Proof.
  intros Hact. unfold load_agent_function.
  destruct filename as [[|a name]|]; [by split; [|exists act]| |by split; [|exists act]].
  assert (∀ d, cache_ok (builtin_policy d act)) as Hb.
  { intros d. destruct Hact as [Hl Ht]. unfold builtin_policy. split; [by rewrite zlen_fmap|].
    apply Forall_fmap, Forall_true. by intros. }
  case_match; [by split; [|eexists]|]. case_match; [by split; [|eexists]|].
  destruct (fopen _) as [file|]; [|by split; [|exists act]].
  destruct (load_lines_safe (length file) file act 0 Hact) as [Hub Hok].
  destruct (load_lines _ _ _) as [r [act' cursor]]. cbn in *. split; [done|]. by exists act'.
Qed.



Lemma load_agent_function_safe_witness :
  (load_agent_function (λ _, Some (text_of "3 1 2.5 700
oops")) (Some "policy.txt") (Some initial_act)).1 = Raise "load_agent_function: malformed line" ∧
  ∃ act', (load_agent_function (λ _, Some (text_of "3 1 2.5 700
oops")) (Some "policy.txt") (Some initial_act)).2 = Some act' ∧ cache_ok act'.
Proof.
  split; [by vm_compute|].
  apply (load_agent_function_safe (λ _, Some (text_of "3 1 2.5 700
oops")) (Some "policy.txt"%string) initial_act initial_act_ok).
Defined.

(** A line of three fields is only read as such when its second field is
    an integer: [%u] stops at the decimal point of a fractional priority and
    [%lf] goes on with the fraction, so that the triplet [1 0.5 1000] is taken
    as the quadruple 1, 0, 0.5, 1000 and lands at index 1 with [detect_all]
    cleared, instead of at index 0 with it set. *)
Theorem fractional_priority_misread :
  scan4 (text_of "1 0.5 1000") = Some (1, 0, (5 # 10)%Q, 1000) ∧
  load_agent_function (λ _, Some (text_of "1 0.5 1000")) (Some "p"%string) (Some initial_act) =
    (Ok tt, Some (<[1%nat := mkAction false (5 # 10) 1000]> initial_act)).
Proof. split; by vm_compute. Qed.

(** ** A policy file with an index on every line *)

Definition print_uint (n : Z) (s : text) : text := print_digits 20 n s.

(** [index detect_all priority timeout] and a newline. *)
Definition print_line (idx : Z) (detect : bool) (prio tout : Z) (s : text) : text :=
  print_uint idx (" "%char :: print_uint (Z.b2z detect)
    (" "%char :: print_uint prio (" "%char :: print_uint tout ("010"%char :: s)))).

(** A digit is none of the characters the loader looks for. *)
Lemma digit_char_plain d :
  0 ≤ d < 10 →
  is_space (digit_char d) = false ∧ ascii_eqb (digit_char d) "-" = false ∧
  ascii_eqb (digit_char d) "+" = false ∧ ascii_eqb (digit_char d) "010" = false ∧
  ascii_eqb (digit_char d) "000" = false ∧ ascii_eqb (digit_char d) "#" = false ∧
  ascii_eqb (digit_char d) " " = false ∧ ascii_eqb (digit_char d) "009" = false.
Proof.
  intros Hd. assert (∃ n : nat, d = Z.of_nat n ∧ (n < 10)%nat) as (n & -> & Hn).
  { exists (Z.to_nat d). lia. }
  do 10 (destruct n as [|n]; [by vm_compute|]). lia.
Qed.

Definition plain (c : ascii) : Prop := ascii_eqb c "010" = false ∧ ascii_eqb c "000" = false.

Lemma print_digits_plain fuel n : 0 ≤ n → Forall plain (print_digits fuel n []).
Proof.
  revert n. induction fuel as [|fuel IH]; intros n Hn; [constructor|]. cbn [print_digits].
  pose proof (Z.mod_pos_bound n 10). destruct (digit_char_plain (n `mod` 10)) as (_ & _ & _ & ? & ? & _); [lia|].
  destruct (n <? 10); [by repeat constructor|]. rewrite print_digits_app. apply Forall_app.
  split; [apply IH, Z.div_pos; lia|]. by repeat constructor.
Qed.

Lemma length_print_digits fuel n : (length (print_digits fuel n []) ≤ fuel)%nat.
Proof.
  revert n. induction fuel as [|fuel IH]; intros n; [done|]. cbn [print_digits].
  destruct (n <? 10); [cbn; lia|]. rewrite print_digits_app, length_app. cbn.
  specialize (IH (n / 10)). lia.
Qed.

Section printed.
Context (n : Z) (c : ascii) (s : text).
Hypothesis (Hn : 0 ≤ n < 2 ^ 64).
Hypothesis (Hc : digit_val c = None).

Lemma scan_digits_uint acc :
  ∃ k : nat, scan_digits acc 0 (print_uint n (c :: s)) = (acc * 10 ^ Z.of_nat (S k) + n, S k, c :: s).
Proof using Hn Hc.
  unfold print_uint. destruct (scan_digits_print 20 n (c :: s) acc 0) as ([|k] & Hk & ->); [|lia|lia|].
  { split; [lia|]. change (10 ^ Z.of_nat 20) with 100000000000000000000. lia. }
  exists k. cbn [scan_digits]. by rewrite Hc.
Qed.

Lemma print_uint_start :
  skip_spaces (print_uint n (c :: s)) = print_uint n (c :: s) ∧
  scan_sign (print_uint n (c :: s)) = (false, print_uint n (c :: s)) ∧
  skip_blanks (print_uint n (c :: s)) = print_uint n (c :: s) ∧
  ∃ d rest, 0 ≤ d < 10 ∧ print_uint n (c :: s) = digit_char d :: rest.
Proof using Hn.
  destruct (print_digits_head 20 n (c :: s)) as (d & rest & Hd & E); [lia|lia|].
  unfold print_uint. rewrite E.
  destruct (digit_char_plain d Hd) as (H1 & H2 & H3 & H4 & H5 & H6 & H7 & H8).
  cbn [skip_spaces scan_sign skip_blanks]. rewrite H1, H2, H3, H7, H8. eauto 10.
Qed.

Lemma scan_unsigned_uint : scan_unsigned (print_uint n (c :: s)) = Some (n, c :: s).
Proof using Hn Hc.
  unfold scan_unsigned. destruct print_uint_start as (-> & -> & _).
  destruct (scan_digits_uint 0) as (k & ->). replace (2 ^ 64 <=? _) with false by lia. done.
Qed.

Lemma scan_double_uint :
  ascii_eqb c "." = false → ascii_eqb c "e" = false → ascii_eqb c "E" = false →
  scan_double (print_uint n (c :: s)) = Some (inject_Z n, c :: s).
Proof using Hn Hc.
  intros H1 H2 H3. unfold scan_double. destruct print_uint_start as (-> & -> & _).
  destruct (scan_digits_uint 0) as (k & ->). rewrite H1. cbn [Nat.add]. rewrite H2, H3. cbn [orb].
  unfold pow10, inject_Z, Qmult. cbn. by rewrite Z.mul_1_r.
Qed.
End printed.

Lemma scan_unsigned_space s : scan_unsigned (" "%char :: s) = scan_unsigned s.
Proof. done. Qed.
Lemma scan_double_space s : scan_double (" "%char :: s) = scan_double s.
Proof. done. Qed.

Section line.
Context (idx : Z) (detect : bool) (prio tout : Z) (s : text).
Hypothesis (Hidx : 0 ≤ idx < MAX_XACT_FEATURE_SPACE) (Hprio : in_u64 prio) (Htout : in_u32 tout).

Lemma scan4_print_line :
  scan4 (print_line idx detect prio tout s) = Some (idx, Z.b2z detect, inject_Z prio, tout).
Proof using Hidx Hprio Htout.
  change MAX_XACT_FEATURE_SPACE with 32 in Hidx. unfold in_u32, in_u64 in *.
  assert (0 ≤ Z.b2z detect < 2) by (destruct detect; cbn; lia).
  unfold scan4, print_line. rewrite scan_unsigned_uint by (done || lia). cbn [mbind option_bind].
  rewrite scan_unsigned_space, scan_unsigned_uint by (done || lia). cbn [mbind option_bind].
  rewrite scan_double_space, scan_double_uint by (done || lia). cbn [mbind option_bind].
  rewrite scan_unsigned_space, scan_unsigned_uint by (done || lia). cbn [mbind option_bind].
  unfold u32. by rewrite !Z.mod_small by lia.
Qed.

(** The line as [fgets] delivers it. *)
Definition line_body : text :=
  print_uint idx [] ++ " "%char :: print_uint (Z.b2z detect) [] ++ " "%char ::
    print_uint prio [] ++ " "%char :: print_uint tout [].

Lemma print_line_body : print_line idx detect prio tout s = line_body ++ "010"%char :: s.
Proof.
  unfold print_line, line_body, print_uint. rewrite print_digits_app.
  rewrite (print_digits_app 20 (Z.b2z detect)), (print_digits_app 20 prio), (print_digits_app 20 tout).
  repeat (rewrite <- app_assoc; cbn [app]). done.
Qed.

Lemma line_body_plain : Forall plain line_body ∧ (length line_body < 255)%nat.
Proof using Hidx Hprio Htout.
  unfold in_u32, in_u64 in *. assert (0 ≤ Z.b2z detect) by (destruct detect; cbn; lia).
  unfold line_body, print_uint. split.
  - repeat (apply Forall_app; split; [apply print_digits_plain; lia|constructor; [done|]]).
    apply print_digits_plain; lia.
  - rewrite length_app. cbn [length]. rewrite length_app. cbn [length]. rewrite length_app. cbn [length].
    pose proof (length_print_digits 20 idx). pose proof (length_print_digits 20 (Z.b2z detect)).
    pose proof (length_print_digits 20 prio). pose proof (length_print_digits 20 tout). lia.
Qed.
End line.

Lemma fgets_line n l s :
  Forall plain l → (length l < n)%nat → fgets n (l ++ "010"%char :: s) = (l ++ ["010"%char], s).
Proof.
  revert n. induction l as [|c l IH]; intros [|n] Hl Hn; cbn in Hn; try lia; cbn [app fgets]; [done|].
  apply Forall_cons_1 in Hl as [[-> _] Hl]. rewrite IH by (done || lia). done.
Qed.

Lemma c_string_plain l : Forall plain l → c_string (l ++ ["010"%char]) = l ++ ["010"%char].
Proof. induction 1 as [|c l [_ Hc] _ IH]; [done|]. cbn. by rewrite Hc, IH. Qed.

(** ** Loading a printed policy *)

(** An entry of a policy: [detect_all], an integral priority, a timeout. *)
Definition policy_entry : Type := bool * Z * Z.
Definition policy_entry_ok (e : policy_entry) : Prop := in_u64 e.1.2 ∧ in_u32 e.2.
Definition policy_action (e : policy_entry) : CCActionData := mkAction e.1.1 (inject_Z e.1.2) e.2.

Fixpoint print_policy (idx : Z) (ps : list policy_entry) : text :=
  match ps with
  | [] => []
  | (detect, prio, tout) :: ps => print_line idx detect prio tout (print_policy (idx + 1) ps)
  end.

Lemma load_line_printed idx detect prio tout act cursor :
  0 ≤ idx < MAX_XACT_FEATURE_SPACE → in_u64 prio → in_u32 tout →
  load_line (line_body idx detect prio tout ++ ["010"%char]) (act, cursor) =
    (Ok tt, (<[Z.to_nat idx := policy_action (detect, prio, tout)]> act, cursor)).
Proof.
  intros Hi Hp Ht. unfold load_line.
  destruct (line_body_plain idx detect prio tout Hi Hp Ht) as [Hpl _].
  rewrite c_string_plain by done. rewrite <- print_line_body.
  pose proof (scan4_print_line idx detect prio tout [] Hi Hp Ht) as Hscan.
  assert (0 ≤ idx < 2 ^ 64) as Hi' by (change MAX_XACT_FEATURE_SPACE with 32 in Hi; lia).
  unfold print_line in *. set (rest := print_uint (Z.b2z detect) _) in *.
  destruct (print_uint_start idx " " rest Hi') as (_ & _ & -> & d & rest' & Hd & E).
  rewrite E in *. destruct (digit_char_plain d Hd) as (_ & _ & _ & -> & _ & -> & _). cbn [orb].
  rewrite Hscan. replace (MAX_XACT_FEATURE_SPACE <=? idx) with false by lia.
  unfold policy_action, entry; cbn [fst snd]. do 3 f_equal.
  assert (negb (Z.b2z detect =? 0) = detect) as -> by by destruct detect.
  unfold in_u32, UINT32_MAX in *. by rewrite Z.min_l by lia.
Qed.

Lemma load_lines_printed ps idx act cursor fuel :
  Forall policy_entry_ok ps → 0 ≤ idx → idx + zlen ps ≤ MAX_XACT_FEATURE_SPACE →
  (length (print_policy idx ps) ≤ fuel)%nat → zlen act = MAX_XACT_FEATURE_SPACE →
  load_lines fuel (print_policy idx ps) (act, cursor) =
    (Ok tt, (take (Z.to_nat idx) act ++ (policy_action <$> ps)
               ++ drop (Z.to_nat idx + length ps) act, cursor)).
Proof.
  revert idx act fuel. induction ps as [|[[detect prio] tout] ps IH];
    intros idx act fuel Hok Hidx Hlen Hfuel Hact; cbn [print_policy fmap list_fmap length].
  - destruct fuel; cbn; by rewrite Nat.add_0_r, take_drop.
  - apply Forall_cons_1 in Hok as [[Hp Ht] Hok]. cbn in Hp, Ht. rewrite zlen_cons in Hlen.
    pose proof (zlen_nonneg ps). cbn [print_policy] in Hfuel. rewrite print_line_body in *.
    set (body := line_body idx detect prio tout) in *.
    destruct (line_body_plain idx detect prio tout) as [Hpl Hsh]; [lia|done|done|]. fold body in Hpl, Hsh.
    rewrite length_app in Hfuel. cbn [length] in Hfuel.
    destruct fuel as [|fuel]; [lia|].
    assert (∃ c t, body ++ "010"%char :: print_policy (idx + 1) ps = c :: t) as (c & t & Ect).
    { destruct body; cbn; eauto. }
    cbn [load_lines]. rewrite Ect. rewrite <- Ect. rewrite fgets_line by (done || lia).
    erewrite M_bind_ok by (apply load_line_printed; (lia || done)).
    rewrite IH; [|done|lia|lia|lia|unfold zlen in *; by rewrite length_insert].
    do 2 f_equal. unfold zlen in *.
    replace (Z.to_nat (idx + 1)) with (S (Z.to_nat idx)) by lia.
    rewrite (take_S_r _ _ (policy_action (detect, prio, tout))) by (apply list_lookup_insert_eq; lia).
    rewrite take_insert_ge, <- app_assoc by lia. cbn [app]. do 3 f_equal.
    rewrite drop_insert_lt by lia. f_equal. lia.
Qed.

(** A policy of 32 entries, printed one per line as index, flag, priority
    and timeout, is loaded exactly, whatever the table held before. *)
Theorem load_agent_function_roundtrip fopen name act ps :
  cache_ok act → Forall policy_entry_ok ps → zlen ps = MAX_XACT_FEATURE_SPACE →
  name ≠ EmptyString → pg_strcasecmp_eq name "2pl" = false → pg_strcasecmp_eq name "occ" = false →
  fopen name = Some (print_policy 0 ps) →
  load_agent_function fopen (Some name) (Some act) = (Ok tt, Some (policy_action <$> ps)).
Proof.
  intros [Hact _] Hok Hlen Hname H2 Ho Hf. unfold load_agent_function. rewrite H2, Ho, Hf.
  destruct name; [done|]. rewrite load_lines_printed by (done || lia).
  unfold zlen in *. rewrite take_0, drop_ge, app_nil_r by lia. done.
Qed.

Definition sample_policy : list policy_entry :=
  (λ i : nat, (Nat.even i, Z.of_nat i, 1000 + Z.of_nat i)) <$> seq 0 32.

Lemma load_agent_function_roundtrip_witness :
  load_agent_function (λ _, Some (print_policy 0 sample_policy)) (Some "learned.txt"%string)
    (Some initial_act) = (Ok tt, Some (policy_action <$> sample_policy)).
Proof.
  apply (load_agent_function_roundtrip (λ _, Some (print_policy 0 sample_policy)) "learned.txt"
    initial_act sample_policy initial_act_ok).
  - apply Forall_fmap, Forall_seq. intros j Hj. split; cbn; unfold in_u64, in_u32; lia.
  - done.
  - done.
  - done.
  - done.
  - done.
Defined.
