(* ===== verification/Lock.v ===== *)
(** * The lock manager with wait priorities

    Models the part of [dbengine/src/backend/storage/lmgr/lock.c] and [proc.c]
    that decides on lock requests, with the changes made for learned
    concurrency control: the wait queue is ordered by [rank], a backend whose
    rank is above 9.8 never waits, and scanning the queue counts dependencies.

    The state is one [LOCK] object with its [PROCLOCK]s and its wait queue; the
    partition lock makes each operation atomic. The arrays [requested] and
    [granted] are functions of the lock mode. A process is the part of its
    [PGPROC] that these operations read. *)
From S2P Require Import Prelude.
From Stdlib Require Import ZArith Lia QArith.
From stdpp Require Import base strings gmap numbers list sorting.

Open Scope Z_scope.

Definition AccessShareLock : Z := 1.
Definition RowShareLock : Z := 2.
Definition RowExclusiveLock : Z := 3.
Definition ShareUpdateExclusiveLock : Z := 4.
Definition ShareLock : Z := 5.
Definition ShareRowExclusiveLock : Z := 6.
Definition ExclusiveLock : Z := 7.
Definition AccessExclusiveLock : Z := 8.

Definition modes : list Z := [1; 2; 3; 4; 5; 6; 7; 8].

Definition LOCKBIT_ON (mode : Z) : Z := Z.shiftl 1 mode.
Definition LOCKBIT_OFF (mode : Z) : Z := Z.lnot (Z.shiftl 1 mode).

Definition bits (ms : list Z) : Z := foldr (λ m acc, Z.lor (LOCKBIT_ON m) acc) 0 ms.

Definition LockConflicts (mode : Z) : Z :=
  match mode with
  | 1 => bits [AccessExclusiveLock]
  | 2 => bits [ExclusiveLock; AccessExclusiveLock]
  | 3 => bits [ShareLock; ShareRowExclusiveLock; ExclusiveLock; AccessExclusiveLock]
  | 4 => bits [ShareUpdateExclusiveLock; ShareLock; ShareRowExclusiveLock; ExclusiveLock;
               AccessExclusiveLock]
  | 5 => bits [RowExclusiveLock; ShareUpdateExclusiveLock; ShareRowExclusiveLock; ExclusiveLock;
               AccessExclusiveLock]
  | 6 => bits [RowExclusiveLock; ShareUpdateExclusiveLock; ShareLock; ShareRowExclusiveLock;
               ExclusiveLock; AccessExclusiveLock]
  | 7 => bits [RowShareLock; RowExclusiveLock; ShareUpdateExclusiveLock; ShareLock;
               ShareRowExclusiveLock; ExclusiveLock; AccessExclusiveLock]
  | 8 => bits modes
  | _ => 0
  end.

Record PGPROC := mkProc {
  pgprocno : nat;
  rank : Q;
  nDep : Z;
  heldLocks : Z;
  waitLockMode : Z;
  lockGroupLeader : option nat
}.

Record PROCLOCK := mkProcLock { myProc : nat; groupLeader : nat; holdMask : Z }.

Record LOCK := mkLock {
  grantMask : Z;
  waitMask : Z;
  procLocks : list PROCLOCK;
  waitProcs : list PGPROC;
  nRequested : Z;
  requested : Z → Z;
  nGranted : Z;
  granted : Z → Z
}.

Definition upd (f : Z → Z) (i v : Z) : Z → Z := λ j, if j =? i then v else f j.

Definition new_lock : LOCK := mkLock 0 0 [] [] 0 (λ _, 0) 0 (λ _, 0).

Definition find_proclock (p : nat) (lock : LOCK) : option PROCLOCK :=
  list_find (λ pl, myProc pl = p) (procLocks lock) ≫= λ x, Some x.2.

Definition set_holdMask (p : nat) (f : Z → Z) (l : list PROCLOCK) : list PROCLOCK :=
  (λ pl, if decide (myProc pl = p) then mkProcLock (myProc pl) (groupLeader pl) (f (holdMask pl))
         else pl) <$> l.

Definition remove_proclock (p : nat) (l : list PROCLOCK) : list PROCLOCK :=
  filter (λ pl, myProc pl ≠ p) l.

(** ** Conflict detection *)

(** The members of the requester's group are not conflicts: their modes are
    subtracted from the conflicts that remain. *)
Fixpoint subtract_modes (ms : list Z) (intersectMask : Z) (remaining : Z → Z) (total : Z)
    : outcome ((Z → Z) * Z) :=
  match ms with
  | [] => Ok (remaining, total)
  | i :: ms =>
      if Z.testbit intersectMask i then
        if remaining i <=? 0 then Raise "PANIC: proclocks held do not match lock"
        else subtract_modes ms intersectMask (upd remaining i (remaining i - 1)) (total - 1)
      else subtract_modes ms intersectMask remaining total
  end.

Fixpoint group_loop (l : list PROCLOCK) (proclock : PROCLOCK) (conflictMask : Z)
    (remaining : Z → Z) (total : Z) : outcome bool :=
  match l with
  | [] => Ok true
  | other :: l =>
      if bool_decide (myProc proclock ≠ myProc other) &&
         bool_decide (groupLeader proclock = groupLeader other) &&
         negb (Z.land (holdMask other) conflictMask =? 0)
      then
        '(remaining, total) ←
          subtract_modes modes (Z.land (holdMask other) conflictMask) remaining total;
        if total =? 0 then Ok false else group_loop l proclock conflictMask remaining total
      else group_loop l proclock conflictMask remaining total
  end.

Definition sum_modes (f : Z → Z) : Z := foldr Z.add 0 (f <$> modes).

(** [extension] tells a relation extension lock. *)
Definition LockCheckConflicts (extension : bool) (MyProc : PGPROC) (lockmode : Z) (lock : LOCK)
    (proclock : PROCLOCK) : outcome bool :=
  let conflictMask := LockConflicts lockmode in
  if Z.land conflictMask (grantMask lock) =? 0 then Ok false
  else
    let myLocks := holdMask proclock in
    let remaining := λ i,
      if Z.testbit conflictMask i then
        granted lock i - (if Z.testbit myLocks i then 1 else 0)
      else 0 in
    let total := sum_modes remaining in
    if total =? 0 then Ok false
    else if bool_decide (groupLeader proclock = pgprocno MyProc) &&
            bool_decide (lockGroupLeader MyProc = None) then Ok true
    else if extension then Ok true
    else group_loop (procLocks lock) proclock conflictMask remaining total.

(** ** Granting *)

Definition GrantLock (lock : LOCK) (p : nat) (lockmode : Z) : LOCK :=
  let granted' := upd (granted lock) lockmode (granted lock lockmode + 1) in
  mkLock (Z.lor (grantMask lock) (LOCKBIT_ON lockmode))
    (if granted' lockmode =? requested lock lockmode
     then Z.land (waitMask lock) (LOCKBIT_OFF lockmode) else waitMask lock)
    (set_holdMask p (λ m, Z.lor m (LOCKBIT_ON lockmode)) (procLocks lock))
    (waitProcs lock) (nRequested lock) (requested lock) (nGranted lock + 1) granted'.

(** The lock and whether waiters should be woken. *)
Definition UnGrantLock (lock : LOCK) (lockmode : Z) (p : nat) : LOCK * bool :=
  let granted' := upd (granted lock) lockmode (granted lock lockmode - 1) in
  let lock' :=
    mkLock (if granted' lockmode =? 0 then Z.land (grantMask lock) (LOCKBIT_OFF lockmode)
            else grantMask lock)
      (waitMask lock)
      (set_holdMask p (λ m, Z.land m (LOCKBIT_OFF lockmode)) (procLocks lock))
      (waitProcs lock) (nRequested lock - 1)
      (upd (requested lock) lockmode (requested lock lockmode - 1))
      (nGranted lock - 1) granted' in
  (lock', negb (Z.land (LockConflicts lockmode) (waitMask lock) =? 0)).

Definition with_waitProcs (lock : LOCK) (q : list PGPROC) : LOCK :=
  mkLock (grantMask lock) (waitMask lock) (procLocks lock) q (nRequested lock)
    (requested lock) (nGranted lock) (granted lock).
Definition with_procLocks (lock : LOCK) (l : list PROCLOCK) : LOCK :=
  mkLock (grantMask lock) (waitMask lock) l (waitProcs lock) (nRequested lock)
    (requested lock) (nGranted lock) (granted lock).

(** The loop of [ProcLockWakeup] over the wait queue: the waiters that stay are
    collected in [kept]. *)
Fixpoint wakeup_loop (extension : bool) (MyProc : PGPROC) (queue kept : list PGPROC)
    (aheadRequests : Z) (lock : LOCK) : outcome LOCK :=
  match queue with
  | [] => Ok (with_waitProcs lock kept)
  | proc :: queue =>
      let lockmode := waitLockMode proc in
      match find_proclock (pgprocno proc) lock with
      | None => Ub "a waiter without a proclock"
      | Some proclock =>
          conflict ←
            (if Z.land (LockConflicts lockmode) aheadRequests =? 0
             then LockCheckConflicts extension MyProc lockmode lock proclock else Ok true);
          if (conflict : bool) then
            wakeup_loop extension MyProc queue (kept ++ [proc])
              (Z.lor aheadRequests (LOCKBIT_ON lockmode)) lock
          else
            wakeup_loop extension MyProc queue kept aheadRequests
              (with_waitProcs (GrantLock lock (pgprocno proc) lockmode) (kept ++ queue))
      end
  end.

Definition ProcLockWakeup (extension : bool) (MyProc : PGPROC) (lock : LOCK) : outcome LOCK :=
  wakeup_loop extension MyProc (waitProcs lock) [] 0 lock.

(** A lock without requests is removed from the table, a later request finds a
    new one. *)
Definition CleanUpLock (extension : bool) (MyProc : PGPROC) (lock : LOCK) (p : nat)
    (wakeupNeeded : bool) : outcome LOCK :=
  let lock :=
    match find_proclock p lock with
    | Some pl => if holdMask pl =? 0 then with_procLocks lock (remove_proclock p (procLocks lock))
                 else lock
    | None => lock
    end in
  if nRequested lock =? 0 then Ok new_lock
  else if wakeupNeeded then ProcLockWakeup extension MyProc lock
  else Ok lock.

(** ** Waiting *)

Definition RemoveFromWaitQueue (extension : bool) (MyProc : PGPROC) (proc : PGPROC) (lock : LOCK)
    : outcome LOCK :=
  let lockmode := waitLockMode proc in
  let requested' := upd (requested lock) lockmode (requested lock lockmode - 1) in
  let lock' :=
    mkLock (grantMask lock)
      (if granted lock lockmode =? requested' lockmode
       then Z.land (waitMask lock) (LOCKBIT_OFF lockmode) else waitMask lock)
      (procLocks lock) (filter (λ q, pgprocno q ≠ pgprocno proc) (waitProcs lock))
      (nRequested lock - 1) requested' (nGranted lock) (granted lock) in
  CleanUpLock extension MyProc lock' (pgprocno proc) true.

(** Where the requester goes in the wait queue. *)
Inductive placement := PGranted | PBefore (n : nat) | PTail | PDeadlock.

(** The dependency count of a waiter. *)
Definition count_dep (lockmode : Z) (proc : PGPROC) : PGPROC :=
  if negb (Z.land (LockConflicts (waitLockMode proc)) lockmode =? 0)
  then mkProc (pgprocno proc) (rank proc) (nDep proc + 1) (heldLocks proc) (waitLockMode proc)
         (lockGroupLeader proc)
  else proc.

Definition rank_gt (a b : Q) : bool := negb (Qle_bool a b).

(** The scan of the wait queue in [ProcSleep]; the waiters passed have their
    dependency counts updated. *)
Fixpoint sleep_scan (extension : bool) (MyProc : PGPROC) (myHeldLocks lockmode : Z)
    (proclock : PROCLOCK) (lock : LOCK) (queue passed : list PGPROC) (aheadRequests : Z)
    : outcome (placement * list PGPROC) :=
  match queue with
  | [] => Ok (PTail, passed)
  | proc :: queue' =>
      let proc' := count_dep lockmode proc in
      let needWaitBefore := rank_gt (rank proc) (rank MyProc) in
      if negb (myHeldLocks =? 0) && bool_decide (lockGroupLeader MyProc ≠ None) &&
         bool_decide (lockGroupLeader MyProc = lockGroupLeader proc)
      then
        sleep_scan extension MyProc myHeldLocks lockmode proclock lock queue' (passed ++ [proc'])
          aheadRequests
      else
        let mustWait := negb (myHeldLocks =? 0) &&
                        negb (Z.land (LockConflicts (waitLockMode proc)) myHeldLocks =? 0) in
        if mustWait && negb (Z.land (LockConflicts lockmode) (heldLocks proc) =? 0)
        then Ok (PDeadlock, passed ++ proc' :: queue')
        else if needWaitBefore || mustWait then
          conflict ←
            (if Z.land (LockConflicts lockmode) aheadRequests =? 0
             then LockCheckConflicts extension MyProc lockmode lock proclock else Ok true);
          if (conflict : bool) then Ok (PBefore (length passed), passed ++ proc' :: queue')
          else Ok (PGranted, passed ++ proc' :: queue')
        else
          sleep_scan extension MyProc myHeldLocks lockmode proclock lock queue' (passed ++ [proc'])
            (Z.lor aheadRequests (LOCKBIT_ON (waitLockMode proc)))
  end.

(** The locks held by the members of the requester's group count as its own. *)
Definition group_held (MyProc : PGPROC) (lock : LOCK) : Z :=
  match lockGroupLeader MyProc with
  | None => heldLocks MyProc
  | Some leader =>
      foldl (λ m pl, if decide (groupLeader pl = leader) then Z.lor m (holdMask pl) else m)
        (heldLocks MyProc) (procLocks lock)
  end.

Inductive wait_status := WaitOk | WaitError | Waiting.

(** [ProcSleep] up to the point where the process blocks. *)
Definition ProcSleep (extension : bool) (MyProc : PGPROC) (lockmode : Z) (proclock : PROCLOCK)
    (lock : LOCK) : outcome (wait_status * LOCK) :=
  let me := mkProc (pgprocno MyProc) (rank MyProc) (nDep MyProc) (heldLocks MyProc) lockmode
              (lockGroupLeader MyProc) in
  '(place, queue) ←
    sleep_scan extension MyProc (group_held MyProc lock) lockmode proclock lock (waitProcs lock) [] 0;
  let lock := with_waitProcs lock queue in
  let join := λ q,
    mkLock (grantMask lock) (Z.lor (waitMask lock) (LOCKBIT_ON lockmode)) (procLocks lock) q
      (nRequested lock) (requested lock) (nGranted lock) (granted lock) in
  match place with
  | PGranted => Ok (WaitOk, GrantLock lock (pgprocno MyProc) lockmode)
  | PBefore n => Ok (Waiting, join (take n queue ++ me :: drop n queue))
  | PTail => Ok (Waiting, join (queue ++ [me]))
  | PDeadlock =>
      lock ← RemoveFromWaitQueue extension MyProc me (join (queue ++ [me]));
      Ok (WaitError, lock)
  end.

(** ** Requests *)

(** The two results of the source that a new request can have, and the two ways
    it can end in [WaitOnLock]. *)
Inductive request_result :=
| LOCKACQUIRE_NOT_AVAIL | LOCKACQUIRE_OK | RequestWaiting | RequestDeadlock.

(** Find or create the proclock and count the request. *)
Definition SetupLockInTable (proc : PGPROC) (lockmode : Z) (lock : LOCK) : outcome PROCLOCK * LOCK :=
  let '(proclock, l) :=
    match find_proclock (pgprocno proc) lock with
    | Some pl => (pl, procLocks lock)
    | None =>
        let pl := mkProcLock (pgprocno proc) (default (pgprocno proc) (lockGroupLeader proc)) 0 in
        (pl, procLocks lock ++ [pl])
    end in
  let lock :=
    mkLock (grantMask lock) (waitMask lock) l (waitProcs lock) (nRequested lock + 1)
      (upd (requested lock) lockmode (requested lock lockmode + 1)) (nGranted lock) (granted lock) in
  if Z.testbit (holdMask proclock) lockmode then (Raise "lock is already held", lock)
  else (Ok proclock, lock).

Definition MAX_WAIT_RANK : Q := 98 # 10.

(** [LockAcquireExtended] from the shared lock table on, up to the point where
    the process blocks. *)
Definition LockAcquireExtended (extension : bool) (MyProc : PGPROC) (lockmode : Z) (dontWait : bool)
    (lock : LOCK) : outcome (request_result * LOCK) :=
  let '(r, lock) := SetupLockInTable MyProc lockmode lock in
  proclock ← r;
  found_conflict ←
    (if negb (Z.land (LockConflicts lockmode) (waitMask lock) =? 0) then Ok true
     else LockCheckConflicts extension MyProc lockmode lock proclock);
  if negb (found_conflict : bool) then
    Ok (LOCKACQUIRE_OK, GrantLock lock (pgprocno MyProc) lockmode)
  else if dontWait || rank_gt (rank MyProc) MAX_WAIT_RANK then
    let l := if holdMask proclock =? 0 then remove_proclock (pgprocno MyProc) (procLocks lock)
             else procLocks lock in
    Ok (LOCKACQUIRE_NOT_AVAIL,
        mkLock (grantMask lock) (waitMask lock) l (waitProcs lock) (nRequested lock - 1)
          (upd (requested lock) lockmode (requested lock lockmode - 1)) (nGranted lock) (granted lock))
  else
    let me := mkProc (pgprocno MyProc) (rank MyProc) (nDep MyProc) (holdMask proclock)
                (waitLockMode MyProc) (lockGroupLeader MyProc) in
    '(st, lock) ← ProcSleep extension me lockmode proclock lock;
    match st with
    | WaitOk => Ok (LOCKACQUIRE_OK, lock)
    | Waiting => Ok (RequestWaiting, lock)
    | WaitError => Ok (RequestDeadlock, lock)
    end.

(** The shared part of [LockRelease]. *)
Definition LockRelease (extension : bool) (MyProc : PGPROC) (lockmode : Z) (lock : LOCK)
    : outcome (bool * LOCK) :=
  match find_proclock (pgprocno MyProc) lock with
  | None => Raise "failed to re-find shared proclock object"
  | Some proclock =>
      if negb (Z.testbit (holdMask proclock) lockmode) then Ok (false, lock)
      else
        let '(lock, wakeupNeeded) := UnGrantLock lock lockmode (pgprocno MyProc) in
        lock ← CleanUpLock extension MyProc lock (pgprocno MyProc) wakeupNeeded;
        Ok (true, lock)
  end.

(** ** What the lock object counts *)

Definition holds (pl : PROCLOCK) (m : Z) : bool := Z.testbit (holdMask pl) m.

Fixpoint cnt_hold (l : list PROCLOCK) (m : Z) : Z :=
  match l with [] => 0 | pl :: l => Z.b2z (holds pl m) + cnt_hold l m end.
Fixpoint cnt_wait (q : list PGPROC) (m : Z) : Z :=
  match q with [] => 0 | p :: q => Z.b2z (waitLockMode p =? m) + cnt_wait q m end.
Fixpoint cnt_mode (l : list Z) (m : Z) : Z :=
  match l with [] => 0 | i :: l => Z.b2z (i =? m) + cnt_mode l m end.

(** Two proclocks that must not hold conflicting modes: those of different
    groups, and for a relation extension lock those of different processes. *)
Definition rivals (extension : bool) (a b : PROCLOCK) : Prop :=
  myProc a ≠ myProc b ∧ (extension = false → groupLeader a ≠ groupLeader b).

Definition compatible (m1 m2 : Z) : Prop := Z.testbit (LockConflicts m1) m2 = false.

(** No two rivals hold conflicting modes. *)
Definition exclusive (extension : bool) (l : list PROCLOCK) : Prop :=
  ∀ a b, a ∈ l → b ∈ l → rivals extension a b →
    ∀ m1 m2, m1 ∈ modes → m2 ∈ modes → holds a m1 = true → holds b m2 = true → compatible m1 m2.

(** The counters agree with the proclocks and the wait queue; [pend] are
    requests that are counted but neither granted nor queued, [pmask] modes
    whose bit of [waitMask] is still to be cleared. *)
Record lock_inv (extension : bool) (pend pmask : list Z) (lock : LOCK) : Prop := mkInv {
  inv_procs : NoDup (myProc <$> procLocks lock);
  inv_waiters : NoDup (pgprocno <$> waitProcs lock);
  inv_granted : ∀ m, m ∈ modes → granted lock m = cnt_hold (procLocks lock) m;
  inv_requested : ∀ m, m ∈ modes →
    requested lock m = granted lock m + cnt_wait (waitProcs lock) m + cnt_mode pend m;
  inv_nRequested : nRequested lock = sum_modes (requested lock);
  inv_grantMask : ∀ m, m ∈ modes → Z.testbit (grantMask lock) m = negb (granted lock m =? 0);
  inv_waitMask_set : ∀ m, m ∈ modes → 0 < cnt_wait (waitProcs lock) m →
    Z.testbit (waitMask lock) m = true;
  inv_waitMask_clear : ∀ m, m ∈ modes → Z.testbit (waitMask lock) m = true →
    0 < cnt_wait (waitProcs lock) m + cnt_mode pmask m;
  inv_waiter : ∀ w, w ∈ waitProcs lock → waitLockMode w ∈ modes ∧
    ∃ pl, pl ∈ procLocks lock ∧ myProc pl = pgprocno w ∧ holds pl (waitLockMode w) = false;
  inv_exclusive : exclusive extension (procLocks lock)
}.

Definition lock_ok (extension : bool) (lock : LOCK) : Prop := lock_inv extension [] [] lock.

(** ** Counting *)

Definition others (p : nat) (l : list PROCLOCK) : list PROCLOCK := filter (λ pl, myProc pl ≠ p) l.

Lemma cnt_hold_nonneg l m : 0 ≤ cnt_hold l m.
Proof. induction l as [|pl l IH]; cbn; [lia|]. destruct (holds pl m); cbn in *; lia. Qed.
Lemma cnt_wait_nonneg q m : 0 ≤ cnt_wait q m.
Proof. induction q as [|w q IH]; cbn; [lia|]. destruct (_ =? _); cbn in *; lia. Qed.
#[local] Hint Resolve cnt_hold_nonneg cnt_wait_nonneg : core.

Lemma cnt_hold_elem l pl m : pl ∈ l → holds pl m = true → 0 < cnt_hold l m.
Proof.
  induction 1 as [pl l|pl y l Hin IH]; cbn; intros H.
  - rewrite H. pose proof (cnt_hold_nonneg l m). cbn. lia.
  - specialize (IH H). destruct (holds y m); cbn; lia.
Qed.

Lemma cnt_hold_zero l pl m : cnt_hold l m = 0 → pl ∈ l → holds pl m = false.
Proof.
  intros H Hin. destruct (holds pl m) eqn:E; [|done].
  pose proof (cnt_hold_elem _ _ _ Hin E). lia.
Qed.

Lemma cnt_hold_pos l m : 0 < cnt_hold l m → ∃ pl, pl ∈ l ∧ holds pl m = true.
Proof.
  induction l as [|pl l IH]; cbn; [lia|]. destruct (holds pl m) eqn:E; intros H.
  - exists pl. split; [by left|done].
  - destruct IH as (x & ? & ?); [cbn in H; lia|]. exists x. split; [by right|done].
Qed.

Lemma cnt_hold_app l k m : cnt_hold (l ++ k) m = cnt_hold l m + cnt_hold k m.
Proof. induction l as [|pl l IH]; cbn; [done|]. rewrite IH. lia. Qed.
Lemma cnt_wait_app l k m : cnt_wait (l ++ k) m = cnt_wait l m + cnt_wait k m.
Proof. induction l as [|pl l IH]; cbn; [done|]. rewrite IH. lia. Qed.

#[export] Instance cnt_wait_perm : Proper (Permutation ==> eq ==> eq) cnt_wait.
Proof. intros q q' Hq m ? <-. induction Hq; cbn; lia. Qed.

Lemma others_id p l : p ∉ myProc <$> l → others p l = l.
Proof.
  unfold others. induction l as [|x l IH]; [done|]. rewrite fmap_cons. intros H.
  rewrite filter_cons_True by set_solver. f_equal. apply IH. set_solver.
Qed.

Lemma cnt_hold_others l me m :
  NoDup (myProc <$> l) → me ∈ l →
  cnt_hold l m = Z.b2z (holds me m) + cnt_hold (others (myProc me) l) m.
Proof.
  induction l as [|x l IH]; [by intros _ ?%elem_of_nil|]. rewrite fmap_cons.
  intros [Hx Hl]%NoDup_cons [->|Hme]%elem_of_cons; unfold others.
  - rewrite filter_cons_False by tauto. fold (others (myProc x) l). by rewrite others_id.
  - rewrite filter_cons_True.
    + cbn. rewrite (IH Hl Hme). unfold others. lia.
    + intros E. apply Hx. rewrite E. by apply list_elem_of_fmap_2.
Qed.

Definition sumf (ms : list Z) (f : Z → Z) : Z := foldr Z.add 0 (f <$> ms).

Lemma sumf_nonneg ms f : (∀ m, m ∈ ms → 0 ≤ f m) → 0 ≤ sumf ms f.
Proof.
  unfold sumf. induction ms as [|i ms IH]; cbn; [lia|]. intros H.
  pose proof (H i ltac:(left)). specialize (IH ltac:(intros; apply H; by right)). lia.
Qed.

Lemma sumf_zero ms f m : (∀ m, m ∈ ms → 0 ≤ f m) → sumf ms f = 0 → m ∈ ms → f m = 0.
Proof.
  induction ms as [|i ms IH]; [by intros _ _ ?%elem_of_nil|]. intros H Hs Hm.
  assert (∀ m, m ∈ ms → 0 ≤ f m) as H' by (intros; apply H; by right).
  pose proof (sumf_nonneg ms f H'). pose proof (H i ltac:(left)).
  change (f i + sumf ms f = 0) in Hs.
  apply elem_of_cons in Hm as [->|Hm]; [lia|]. apply IH; [done|lia|done].
Qed.

Lemma sumf_pos ms f : sumf ms f ≠ 0 → ∃ m, m ∈ ms ∧ f m ≠ 0.
Proof.
  induction ms as [|i ms IH]; [done|]. intros H. change (f i + sumf ms f ≠ 0) in H.
  destruct (decide (f i = 0)) as [E|E].
  - destruct IH as (m & ? & ?); [lia|]. exists m. split; [by right|done].
  - exists i. split; [by left|done].
Qed.

Lemma sumf_ext ms f g : (∀ m, m ∈ ms → f m = g m) → sumf ms f = sumf ms g.
Proof.
  unfold sumf. induction ms as [|i ms IH]; cbn; [done|]. intros H.
  rewrite (H i) by (by left). rewrite IH; [done|]. intros. apply H. by right.
Qed.

Lemma sumf_upd ms f m v :
  NoDup ms → m ∈ ms → sumf ms (upd f m v) = sumf ms f - f m + v.
Proof.
  induction ms as [|i ms IH]; [by intros _ ?%elem_of_nil|].
  intros [Hi Hms]%NoDup_cons [->|Hm]%elem_of_cons.
  - change (upd f i v i + sumf ms (upd f i v) = f i + sumf ms f - f i + v).
    rewrite (sumf_ext ms (upd f i v) f).
    + unfold upd. rewrite Z.eqb_refl. lia.
    + intros k Hk. unfold upd. destruct (Z.eqb_spec k i); [by subst|done].
  - change (upd f m v i + sumf ms (upd f m v) = f i + sumf ms f - f m + v).
    rewrite (IH Hms Hm). unfold upd. destruct (Z.eqb_spec i m); [by subst|lia].
Qed.

Lemma NoDup_modes : NoDup modes.
Proof. by apply (bool_decide_unpack _). Qed.

Lemma mode_lt m : m ∈ modes → 1 ≤ m ≤ 8.
Proof. unfold modes. rewrite !elem_of_cons, elem_of_nil. lia. Qed.

Lemma sum_modes_upd f m v : m ∈ modes → sum_modes (upd f m v) = sum_modes f - f m + v.
Proof. apply (sumf_upd modes), NoDup_modes. Qed.

(** ** Conflicts *)

Lemma conflicts_sym m1 m2 :
  m1 ∈ modes → m2 ∈ modes → Z.testbit (LockConflicts m1) m2 = Z.testbit (LockConflicts m2) m1.
Proof.
  intros H1 H2.
  assert (forallb (λ a, forallb (λ b, Bool.eqb (Z.testbit (LockConflicts a) b)
            (Z.testbit (LockConflicts b) a)) modes) modes = true) as H by reflexivity.
  rewrite forallb_forall in H. specialize (H m1 (proj1 (list_elem_of_In _ _) H1)).
  rewrite forallb_forall in H. specialize (H m2 (proj1 (list_elem_of_In _ _) H2)).
  by apply Bool.eqb_prop.
Qed.

Lemma subtract_modes_ok ms mask f t :
  NoDup ms → (∀ i, i ∈ ms → Z.testbit mask i = true → 0 < f i) →
  ∃ g, subtract_modes ms mask f t = Ok (g, t - sumf ms (λ i, Z.b2z (Z.testbit mask i))) ∧
    (∀ i, i ∈ ms → g i = f i - Z.b2z (Z.testbit mask i)) ∧ (∀ i, i ∉ ms → g i = f i).
Proof.
  revert f t. induction ms as [|i ms IH]; intros f t Hnd Hf.
  { exists f. cbn. split; [f_equal; f_equal; lia|]. split; [by intros ? ?%elem_of_nil|done]. }
  apply NoDup_cons in Hnd as [Hi Hnd]. cbn [subtract_modes].
  destruct (Z.testbit mask i) eqn:Ei.
  - destruct (Z.leb_spec (f i) 0) as [Hle|Hgt]; [specialize (Hf i ltac:(by left) Ei); lia|].
    destruct (IH (upd f i (f i - 1)) (t - 1) Hnd) as (g & Hg & Hin & Hout).
    { intros k Hk Hb. unfold upd. destruct (Z.eqb_spec k i); [by subst|]. apply Hf; [by right|done]. }
    exists g. split; [|split].
    + rewrite Hg. unfold sumf. cbn. rewrite Ei. cbn. f_equal. f_equal. lia.
    + intros k [->|Hk]%elem_of_cons.
      * rewrite (Hout i Hi). unfold upd. rewrite Z.eqb_refl, Ei. cbn. lia.
      * rewrite (Hin k Hk). unfold upd. destruct (Z.eqb_spec k i); [by subst|done].
    + intros k Hk. rewrite Hout by set_solver. unfold upd. destruct (Z.eqb_spec k i); set_solver.
  - destruct (IH f t Hnd) as (g & Hg & Hin & Hout).
    { intros k Hk. apply Hf. by right. }
    exists g. split; [|split].
    + rewrite Hg. unfold sumf. cbn. by rewrite Ei.
    + intros k [->|Hk]%elem_of_cons; [rewrite (Hout i Hi), Ei; cbn; lia|]. by apply Hin.
    + intros k Hk. apply Hout. set_solver.
Qed.

Lemma sumf_sub ms f g : sumf ms (λ i, f i - g i) = sumf ms f - sumf ms g.
Proof. unfold sumf. induction ms as [|i ms IH]; cbn in *; lia. Qed.

(** The conflicts of a mask counted in a list of proclocks. *)
Definition conflict_count (mask : Z) (l : list PROCLOCK) (i : Z) : Z :=
  if Z.testbit mask i then cnt_hold l i else 0.

Lemma conflict_count_nonneg mask l i : 0 ≤ conflict_count mask l i.
Proof. unfold conflict_count. destruct (Z.testbit mask i); auto with lia. Qed.

Lemma conflict_count_zero mask l :
  sum_modes (conflict_count mask l) = 0 →
  ∀ pl m, pl ∈ l → m ∈ modes → Z.testbit mask m = true → holds pl m = false.
Proof.
  intros Hs pl m Hpl Hm Hb.
  pose proof (sumf_zero modes _ m (λ i _, conflict_count_nonneg mask l i) Hs Hm) as H.
  unfold conflict_count in H. rewrite Hb in H. by eapply cnt_hold_zero.
Qed.

Lemma others_cons_eq p x l : myProc x = p → others p (x :: l) = others p l.
Proof. intros H. unfold others. by rewrite filter_cons_False by tauto. Qed.
Lemma others_cons_ne p x l : myProc x ≠ p → others p (x :: l) = x :: others p l.
Proof. intros H. unfold others. by rewrite filter_cons_True. Qed.

(** Subtracting the modes of one proclock leaves the count of the others. *)
Lemma subtract_group x R mask f t :
  (∀ i, i ∈ modes → f i = conflict_count mask (x :: R) i) → t = sum_modes f →
  ∃ g, subtract_modes modes (Z.land (holdMask x) mask) f t = Ok (g, sum_modes g) ∧
    (∀ i, i ∈ modes → g i = conflict_count mask R i).
Proof.
  intros Hf ->.
  destruct (subtract_modes_ok modes (Z.land (holdMask x) mask) f (sum_modes f) NoDup_modes)
    as (g & Hg & Hin & _).
  { intros i Hi. rewrite Z.land_spec, (Hf i Hi). unfold conflict_count.
    intros [Hh ->]%andb_true_iff. eapply cnt_hold_elem; [by left|done]. }
  exists g. split.
  - rewrite Hg. unfold sum_modes. fold (sumf modes f) (sumf modes g).
    by rewrite (sumf_ext modes g _ Hin), sumf_sub.
  - intros i Hi. rewrite (Hin i Hi), (Hf i Hi), Z.land_spec. unfold conflict_count.
    destruct (Z.testbit mask i); [|by rewrite andb_false_r].
    rewrite andb_true_r. cbn [cnt_hold]. unfold holds. lia.
Qed.

Lemma group_loop_spec me mask l : ∀ sk f t,
  (∀ i, i ∈ modes → f i = conflict_count mask (others (myProc me) l ++ sk) i) →
  t = sum_modes f →
  ∃ b, group_loop l me mask f t = Ok b ∧
    (b = false → ∀ pl m,
       pl ∈ sk ∨ (pl ∈ l ∧ myProc pl ≠ myProc me ∧ groupLeader pl ≠ groupLeader me) →
       m ∈ modes → Z.testbit mask m = true → holds pl m = false).
Proof.
  induction l as [|x l IH]; intros sk f t Hf Ht; [by exists true|]. cbn [group_loop].
  destruct (decide (myProc me = myProc x)) as [Ep|Ep].
  - rewrite (bool_decide_eq_false_2 (myProc me ≠ myProc x)) by tauto. cbn [andb].
    rewrite others_cons_eq in Hf by done.
    destruct (IH sk f t Hf Ht) as (b & -> & Hb). exists b. split; [done|].
    intros -> pl m [?|(Hin & Hne & ?)]; apply (Hb eq_refl); [by left|].
    apply elem_of_cons in Hin as [->|Hin]; [done|]. by right.
  - rewrite bool_decide_eq_true_2 by done. rewrite others_cons_ne in Hf by done. cbn [andb].
    destruct (bool_decide (groupLeader me = groupLeader x) &&
              negb (Z.land (holdMask x) mask =? 0)) eqn:Em.
    + apply andb_true_iff in Em as [Eg _]. apply bool_decide_eq_true in Eg.
      destruct (subtract_group x _ mask f t Hf Ht) as (g & -> & Hg). cbn [mbind outcome_bind].
      destruct (Z.eqb_spec (sum_modes g) 0) as [E0|_].
      * exists false. split; [done|]. intros _ pl m Hpl Hm Hb.
        rewrite (sumf_ext modes g _ Hg : sum_modes g = _) in E0.
        apply (conflict_count_zero _ _ E0); [|done..].
        apply elem_of_app. destruct Hpl as [?|(Hin & Hne & Hgl)]; [by right|left].
        apply elem_of_cons in Hin as [->|Hin]; [congruence|]. by apply list_elem_of_filter.
      * destruct (IH sk g _ Hg eq_refl) as (b & -> & Hb). exists b. split; [done|].
        intros -> pl m [?|(Hin & Hne & ?)]; apply (Hb eq_refl); [by left|].
        apply elem_of_cons in Hin as [->|Hin]; [congruence|]. by right.
    + destruct (IH (x :: sk) f t) as (b & -> & Hb); [|done|].
      { intros i Hi. rewrite (Hf i Hi). unfold conflict_count. destruct (Z.testbit mask i); [|done].
        cbn. rewrite !cnt_hold_app. cbn. lia. }
      exists b. split; [done|]. intros -> pl m Hpl; apply (Hb eq_refl).
      destruct Hpl as [?|(Hin & ? & ?)]; [left; by right|].
      apply elem_of_cons in Hin as [->|Hin]; [left; by left|]. by right.
Qed.

(** A mode that conflicts with nothing its rivals hold. *)
Definition grantable (extension : bool) (l : list PROCLOCK) (pl : PROCLOCK) (m : Z) : Prop :=
  ∀ other i, other ∈ l → rivals extension pl other → i ∈ modes →
    Z.testbit (LockConflicts m) i = true → holds other i = false.

Lemma LockCheckConflicts_spec extension pend pmask MyProc m lock pl :
  lock_inv extension pend pmask lock → pl ∈ procLocks lock →
  ∃ b, LockCheckConflicts extension MyProc m lock pl = Ok b ∧
    (b = false → grantable extension (procLocks lock) pl m) ∧
    (b = true → ∃ other i, other ∈ procLocks lock ∧ myProc other ≠ myProc pl ∧
       Z.testbit (LockConflicts m) i = true ∧ holds other i = true).
Proof.
  intros Hinv Hpl. unfold LockCheckConflicts.
  set (mask := LockConflicts m). set (R := others (myProc pl) (procLocks lock)).
  destruct (Z.eqb_spec (Z.land mask (grantMask lock)) 0) as [E|E].
  { exists false. split; [done|]. split; [|done]. intros _ other i Hin _ Hi Hb.
    assert (Z.testbit (Z.land mask (grantMask lock)) i = false) as Ht by by rewrite E, Z.bits_0.
    rewrite Z.land_spec in Ht. fold mask in Hb. rewrite Hb, (inv_grantMask _ _ _ _ Hinv i Hi) in Ht.
    apply negb_false_iff, Z.eqb_eq in Ht. rewrite (inv_granted _ _ _ _ Hinv i Hi) in Ht.
    by eapply cnt_hold_zero. }
  set (f := λ i, if Z.testbit mask i then _ else 0).
  assert (∀ i, i ∈ modes → f i = conflict_count mask R i) as Hf.
  { intros i Hi. unfold f, conflict_count. destruct (Z.testbit mask i); [|done].
    rewrite (inv_granted _ _ _ _ Hinv i Hi),
      (cnt_hold_others _ pl i (inv_procs _ _ _ _ Hinv) Hpl). unfold holds, R.
    destruct (Z.testbit (holdMask pl) i); cbn; lia. }
  destruct (Z.eqb_spec (sum_modes f) 0) as [E0|E0].
  { exists false. split; [done|]. split; [|done]. intros _ other i Hin [Hr _] Hi Hb.
    rewrite (sumf_ext modes f _ Hf : sum_modes f = _) in E0.
    apply (conflict_count_zero _ _ E0); [|done..]. by apply list_elem_of_filter. }
  assert (∃ other i, other ∈ procLocks lock ∧ myProc other ≠ myProc pl ∧
            Z.testbit mask i = true ∧ holds other i = true) as Hreal.
  { destruct (sumf_pos modes f E0) as (i & Hi & Hne). rewrite (Hf i Hi) in Hne.
    unfold conflict_count in Hne. destruct (Z.testbit mask i) eqn:Eb; [|done].
    pose proof (cnt_hold_nonneg R i).
    destruct (cnt_hold_pos R i) as (o & [Ho1 Ho2]%list_elem_of_filter & Ho3); [lia|]. by exists o, i. }
  destruct (_ && _); [by exists true|]. destruct extension; [by exists true|].
  destruct (group_loop_spec pl mask (procLocks lock) [] f (sum_modes f)) as (b & -> & Hb); [|done|].
  { intros i Hi. rewrite app_nil_r. by apply Hf. }
  exists b. split; [done|]. split; [|done]. intros -> other i Hin [Hp Hg] Hi Hbit.
  apply (Hb eq_refl); [right; naive_solver|done..].
Qed.

(** ** Masks *)

Lemma LOCKBIT_ON_spec m i : m ∈ modes → Z.testbit (LOCKBIT_ON m) i = (m =? i).
Proof.
  intros ?%mode_lt. unfold LOCKBIT_ON. rewrite Z.shiftl_1_l. apply Z.pow2_bits_eqb. lia.
Qed.
Lemma LOCKBIT_OFF_spec m i : m ∈ modes → i ∈ modes → Z.testbit (LOCKBIT_OFF m) i = negb (m =? i).
Proof.
  intros Hm Hi%mode_lt. unfold LOCKBIT_OFF. rewrite Z.lnot_spec by lia.
  f_equal. by apply LOCKBIT_ON_spec.
Qed.

Lemma bit_set mask m i : m ∈ modes → Z.testbit (Z.lor mask (LOCKBIT_ON m)) i = Z.testbit mask i || (m =? i).
Proof. intros. by rewrite Z.lor_spec, LOCKBIT_ON_spec. Qed.
Lemma bit_clear mask m i : m ∈ modes → i ∈ modes →
  Z.testbit (Z.land mask (LOCKBIT_OFF m)) i = Z.testbit mask i && negb (m =? i).
Proof. intros. by rewrite Z.land_spec, LOCKBIT_OFF_spec. Qed.

Lemma set_holdMask_procs p f l : myProc <$> set_holdMask p f l = myProc <$> l.
Proof.
  unfold set_holdMask. rewrite <- list_fmap_compose. apply list_fmap_ext. intros i x _. cbn.
  by destruct (decide _).
Qed.

Lemma elem_of_set_holdMask p f l x :
  x ∈ set_holdMask p f l ↔ ∃ y, y ∈ l ∧
    x = if decide (myProc y = p) then mkProcLock (myProc y) (groupLeader y) (f (holdMask y)) else y.
Proof. unfold set_holdMask. rewrite list_elem_of_fmap. naive_solver. Qed.

Lemma set_holdMask_absent p f l : p ∉ myProc <$> l → set_holdMask p f l = l.
Proof.
  induction l as [|x l IH]; [done|]. cbn. intros H. rewrite decide_False by set_solver.
  f_equal. apply IH. set_solver.
Qed.

Lemma cnt_hold_set f l pl i :
  NoDup (myProc <$> l) → pl ∈ l →
  cnt_hold (set_holdMask (myProc pl) f l) i =
    cnt_hold l i - Z.b2z (holds pl i) + Z.b2z (Z.testbit (f (holdMask pl)) i).
Proof.
  induction l as [|x l IH]; [by intros _ ?%elem_of_nil|]. rewrite fmap_cons.
  intros [Hx Hl]%NoDup_cons [->|Hpl]%elem_of_cons; cbn.
  - fold (set_holdMask (myProc x) f l). rewrite decide_True, set_holdMask_absent by done.
    unfold holds. cbn. lia.
  - fold (set_holdMask (myProc pl) f l). rewrite (IH Hl Hpl), decide_False; [lia|].
    intros E. apply Hx. rewrite E. by apply list_elem_of_fmap_2.
Qed.

Lemma proclock_unique l x y :
  NoDup (myProc <$> l) → x ∈ l → y ∈ l → myProc x = myProc y → x = y.
Proof.
  intros Hnd [i Hi]%list_elem_of_lookup [j Hj]%list_elem_of_lookup E.
  assert (i = j) as ->; [|congruence].
  eapply (NoDup_lookup _ _ _ (myProc x) Hnd); rewrite list_lookup_fmap; [by rewrite Hi|].
  rewrite Hj, E. done.
Qed.

(** Changing the modes of one proclock to a set its rivals allow. *)
Lemma exclusive_set extension f l pl :
  NoDup (myProc <$> l) → pl ∈ l → exclusive extension l →
  (∀ m, m ∈ modes → Z.testbit (f (holdMask pl)) m = true →
     holds pl m = true ∨ grantable extension l pl m) →
  exclusive extension (set_holdMask (myProc pl) f l).
Proof.
  intros Hnd Hpl Hex Hf a b (a' & Ha & ->)%elem_of_set_holdMask (b' & Hb & ->)%elem_of_set_holdMask.
  unfold rivals. intros [Hp Hg] m1 m2 Hm1 Hm2.
  assert (∀ o m i, o ∈ l → rivals extension pl o → m ∈ modes → i ∈ modes →
            Z.testbit (f (holdMask pl)) m = true → holds o i = true → compatible m i) as key.
  { intros o m i Ho Hr Hm Hi Hfm Hoi. destruct (Hf m Hm Hfm) as [Hh|Hgr].
    - by apply (Hex pl o).
    - unfold compatible. destruct (Z.testbit (LockConflicts m) i) eqn:E; [|done].
      by rewrite (Hgr o i Ho Hr Hi E) in Hoi. }
  destruct (decide (myProc a' = myProc pl)) as [Ea|Ea];
    destruct (decide (myProc b' = myProc pl)) as [Eb|Eb]; cbn in *; [congruence| | |].
  - rewrite (proclock_unique l a' pl Hnd Ha Hpl Ea) in *. intros. by apply (key b' m1 m2).
  - rewrite (proclock_unique l b' pl Hnd Hb Hpl Eb) in *. unfold compatible. intros.
    rewrite conflicts_sym by done. apply (key a' m2 m1); try done.
    split; [done|]. intros E. specialize (Hg E). congruence.
  - intros. by apply (Hex a' b').
Qed.

Lemma cnt_mode_subset l m i : l ⊆ [m] → i ≠ m → cnt_mode l i = 0.
Proof.
  intros Hl Hne. induction l as [|x l IH]; [done|]. cbn.
  destruct (Z.eqb_spec x i); [set_solver|]. rewrite IH; set_solver.
Qed.

(** The process may wait for another mode of the lock. *)
Lemma GrantLock_waiting_inv extension pmask m lock pl :
  lock_inv extension [m] pmask lock → pmask ⊆ [m] → m ∈ modes →
  pl ∈ procLocks lock → holds pl m = false →
  (∀ w, w ∈ waitProcs lock → pgprocno w = myProc pl → waitLockMode w ≠ m) →
  grantable extension (procLocks lock) pl m →
  lock_ok extension (GrantLock lock (myProc pl) m).
Proof.
  intros [Hnd Hw Hg Hr Hn Hgm Hws Hwc Hwt Hex] Hpm Hm Hpl Hh Hnw Hgr.
  assert (∀ i, i ∈ modes → upd (granted lock) m (granted lock m + 1) i =
            cnt_hold (set_holdMask (myProc pl) (λ k, Z.lor k (LOCKBIT_ON m)) (procLocks lock)) i) as Hg'.
  { intros i Hi. rewrite cnt_hold_set by done. rewrite bit_set by done. unfold upd.
    destruct (Z.eqb_spec i m) as [->|Hne].
    - rewrite Z.eqb_refl, orb_true_r, Hh, Hg by done. cbn. lia.
    - destruct (Z.eqb_spec m i); [congruence|]. rewrite orb_false_r, Hg by done. unfold holds. lia. }
  assert (granted lock m + 1 = requested lock m ↔ cnt_wait (waitProcs lock) m = 0) as Hgr'.
  { rewrite (Hr m Hm). cbn. rewrite Z.eqb_refl. cbn. lia. }
  pose proof (cnt_hold_nonneg (procLocks lock) m) as Hnn.
  constructor; cbn [GrantLock procLocks waitProcs granted requested nRequested grantMask waitMask].
  - by rewrite set_holdMask_procs.
  - done.
  - done.
  - intros i Hi. rewrite (Hr i Hi). cbn. unfold upd. rewrite (Z.eqb_sym m i).
    destruct (Z.eqb_spec i m) as [->|]; cbn; lia.
  - done.
  - intros i Hi. rewrite bit_set, (Hgm i Hi) by done. unfold upd. rewrite (Z.eqb_sym m i).
    destruct (Z.eqb_spec i m) as [->|]; [|by rewrite orb_false_r].
    rewrite orb_true_r. symmetry. rewrite Hg by done. apply negb_true_iff, Z.eqb_neq. lia.
  - intros i Hi Hpos. unfold upd. rewrite Z.eqb_refl.
    destruct (Z.eqb_spec (granted lock m + 1) (requested lock m)) as [E|E]; [|by apply Hws].
    rewrite bit_clear, (Hws i Hi Hpos) by done. destruct (Z.eqb_spec m i); [subst; lia|done].
  - intros i Hi. unfold upd. rewrite Z.eqb_refl. cbn.
    pose proof (cnt_mode_subset pmask m i Hpm) as Hpz.
    pose proof (cnt_wait_nonneg (waitProcs lock) i).
    destruct (Z.eqb_spec (granted lock m + 1) (requested lock m)) as [E|E].
    + rewrite bit_clear by done. intros [Hb Hne%negb_true_iff%Z.eqb_neq]%andb_true_iff.
      specialize (Hwc i Hi Hb). rewrite Hpz in Hwc by done. lia.
    + intros Hb. specialize (Hwc i Hi Hb). destruct (decide (i = m)) as [->|]; [lia|].
      rewrite Hpz in Hwc by done. lia.
  - intros w Hin. destruct (Hwt w Hin) as (? & x & Hx & Hxp & Hxh). split; [done|].
    eexists. split; [apply elem_of_set_holdMask; by exists x|].
    destruct (decide (myProc x = myProc pl)) as [E|]; [|done]. split; [done|]. unfold holds. cbn.
    rewrite bit_set by done. fold (holds x (waitLockMode w)). rewrite Hxh. apply Z.eqb_neq.
    intros Hm'. apply (Hnw w Hin); congruence.
  - apply exclusive_set; try done. intros i Hi. rewrite bit_set by done.
    intros [?|Hmi%Z.eqb_eq]%orb_true_iff; [by left|]. subst i. by right.
Qed.

Lemma GrantLock_inv extension pmask m lock pl :
  lock_inv extension [m] pmask lock → pmask ⊆ [m] → m ∈ modes →
  pl ∈ procLocks lock → holds pl m = false → myProc pl ∉ pgprocno <$> waitProcs lock →
  grantable extension (procLocks lock) pl m →
  lock_ok extension (GrantLock lock (myProc pl) m).
Proof.
  intros ? ? ? ? ? Hnw ?. apply (GrantLock_waiting_inv extension pmask); try done.
  intros w Hw E. destruct Hnw. rewrite <- E. by apply list_elem_of_fmap_2.
Qed.

(** ** Waking the waiters *)

Definition held (lock : LOCK) (p : nat) (m : Z) : Prop :=
  ∃ pl, pl ∈ procLocks lock ∧ myProc pl = p ∧ holds pl m = true.

(** Why the waiter [w] at position [k] of the queue [q] has to wait: another
    process holds a conflicting mode, or an earlier waiter requests one. *)
Definition blocked (lock : LOCK) (q : list PGPROC) (k : nat) (w : PGPROC) : Prop :=
  (∃ p i, held lock p i ∧ p ≠ pgprocno w ∧ Z.testbit (LockConflicts (waitLockMode w)) i = true) ∨
  (∃ j v, (j < k)%nat ∧ q !! j = Some v ∧
     Z.testbit (LockConflicts (waitLockMode w)) (waitLockMode v) = true).

Lemma find_proclock_Some p lock pl :
  find_proclock p lock = Some pl → pl ∈ procLocks lock ∧ myProc pl = p.
Proof.
  unfold find_proclock. intros ([i x] & Hf & [= <-])%bind_Some.
  apply list_find_Some in Hf as (Hi & Hp & _). split; [|done]. by eapply list_elem_of_lookup_2.
Qed.

Lemma find_proclock_None p lock : find_proclock p lock = None → p ∉ myProc <$> procLocks lock.
Proof.
  unfold find_proclock. intros [Hf|([i x] & _ & ?)]%bind_None; [|done].
  apply list_find_None in Hf. intros (y & -> & Hy)%list_elem_of_fmap.
  rewrite Forall_forall in Hf. by apply (Hf y).
Qed.

Lemma find_proclock_in lock pl :
  NoDup (myProc <$> procLocks lock) → pl ∈ procLocks lock →
  find_proclock (myProc pl) lock = Some pl.
Proof.
  intros Hnd Hpl. destruct (find_proclock (myProc pl) lock) as [x|] eqn:E.
  - apply find_proclock_Some in E as [Hx Hp]. f_equal. by apply (proclock_unique (procLocks lock)).
  - apply find_proclock_None in E. destruct E. by apply list_elem_of_fmap_2.
Qed.

Lemma GrantLock_held lock p m p' i : m ∈ modes → held lock p' i → held (GrantLock lock p m) p' i.
Proof.
  intros Hm (pl & Hpl & Hp & Hh). eexists. split; [|split].
  - cbn. apply elem_of_set_holdMask. by exists pl.
  - by destruct (decide (myProc pl = p)).
  - destruct (decide (myProc pl = p)); [|done]. unfold holds. cbn.
    rewrite bit_set by done. unfold holds in Hh. by rewrite Hh.
Qed.

Lemma GrantLock_held_inv lock p m p' i :
  m ∈ modes → held (GrantLock lock p m) p' i → held lock p' i ∨ (p' = p ∧ i = m).
Proof.
  intros Hm (pl & Hpl & Hp & Hh). cbn in Hpl. apply elem_of_set_holdMask in Hpl as (y & Hy & ->).
  destruct (decide (myProc y = p)) as [E|E]; [|left; by exists y].
  unfold holds in Hh. cbn in Hp, Hh. rewrite bit_set in Hh by done.
  apply orb_true_iff in Hh as [Hh|Hh%Z.eqb_eq]; [left; by exists y|right]. subst. done.
Qed.

Lemma GrantLock_holds lock pl m :
  m ∈ modes → pl ∈ procLocks lock → held (GrantLock lock (myProc pl) m) (myProc pl) m.
Proof.
  intros Hm Hpl. eexists. split; [|split].
  - cbn. apply elem_of_set_holdMask. by exists pl.
  - by rewrite decide_True.
  - rewrite decide_True by done. unfold holds. cbn. rewrite bit_set by done.
    by rewrite Z.eqb_refl, orb_true_r.
Qed.

(** Taking a waiter out of the queue leaves its request pending. *)
Lemma dequeue_inv extension lock a w b :
  lock_ok extension lock → waitProcs lock = a ++ w :: b →
  lock_inv extension [waitLockMode w] [waitLockMode w] (with_waitProcs lock (a ++ b)).
Proof.
  intros [Hnd Hw Hg Hr Hn Hgm Hws Hwc Hwt Hex] Eq.
  assert (∀ i, cnt_wait (waitProcs lock) i =
            cnt_wait (a ++ b) i + cnt_mode [waitLockMode w] i) as Hc.
  { intros i. rewrite Eq, !cnt_wait_app. cbn. lia. }
  constructor; cbn [with_waitProcs procLocks waitProcs granted requested nRequested grantMask waitMask];
    try done.
  - rewrite Eq, <- Permutation_middle, fmap_cons in Hw. by apply NoDup_cons in Hw as [_ Hw].
  - intros i Hi. rewrite (Hr i Hi), Hc. cbn. lia.
  - intros i Hi Hpos. apply Hws; [done|]. rewrite Hc. cbn. destruct (_ =? _); cbn; lia.
  - intros i Hi Hb. specialize (Hwc i Hi Hb). rewrite Hc in Hwc. cbn in *. lia.
  - intros x Hx. apply Hwt. rewrite Eq. set_solver.
Qed.

Lemma blocked_mono lock lock' q q' k w :
  (∀ p i, held lock p i → held lock' p i) →
  blocked lock q k w → (k ≤ length q)%nat → blocked lock' (q ++ q') k w.
Proof.
  intros Hh [(p & i & ? & ?)|(j & v & ? & Hv & ?)] Hk; [left; exists p, i; auto|right].
  exists j, v. split; [done|]. split; [|done]. by apply lookup_app_l_Some.
Qed.

Lemma conflict_mode m i : m ∈ modes → Z.testbit (LockConflicts m) i = true → i ∈ modes.
Proof.
  intros Hm Hi.
  assert (Z.land (LockConflicts m) (Z.lnot 510) = 0) as Hz.
  { revert Hm. unfold modes. rewrite !elem_of_cons, elem_of_nil. intros Hm; destruct_or?; by subst. }
  destruct (decide (0 ≤ i)); [|by rewrite Z.testbit_neg_r in Hi by lia].
  assert (Z.testbit 510 i = true) as Hbm.
  { apply (f_equal (λ z, Z.testbit z i)) in Hz.
    rewrite Z.land_spec, Hi, Z.lnot_spec, Z.bits_0 in Hz by done. by apply negb_false_iff in Hz. }
  unfold modes. destruct (decide (i = 0)) as [->|]; [done|]. destruct (decide (i ≤ 8)).
  - rewrite !elem_of_cons. lia.
  - rewrite Z.bits_above_log2 in Hbm; [done|lia|]. change (Z.log2 510) with 8. lia.
Qed.

Lemma conflict_bit mask m : m ∈ modes → Z.land (LockConflicts m) mask ≠ 0 →
  ∃ i, i ∈ modes ∧ Z.testbit (LockConflicts m) i = true ∧ Z.testbit mask i = true.
Proof.
  intros Hm Hne.
  destruct (decide (Exists (λ i, Z.testbit (Z.land (LockConflicts m) mask) i = true) modes))
    as [(i & Hi & Ht)%Exists_exists|Hno].
  - rewrite Z.land_spec in Ht. apply andb_true_iff in Ht as [? ?]. by exists i.
  - destruct Hne. apply Z.bits_inj_0. intros i.
    destruct (Z.testbit (Z.land (LockConflicts m) mask) i) eqn:E; [|done].
    destruct Hno. apply Exists_exists. exists i. split; [|done].
    rewrite Z.land_spec in E. apply andb_true_iff in E as [? _]. by eapply conflict_mode.
Qed.

(** Every waiter is blocked: no wakeup is missing. *)
Definition stuck (lock : LOCK) : Prop :=
  ∀ k w, waitProcs lock !! k = Some w → blocked lock (waitProcs lock) k w.

(** What a run of [ProcLockWakeup] gives: the counters stay right, no process
    loses a mode, a waiter is granted its mode or stays, in its order, and what
    stays is blocked. *)
Record woken (extension : bool) (lock : LOCK) (queue : list PGPROC) (lock' : LOCK) : Prop := mkWoken {
  wk_ok : lock_ok extension lock';
  wk_held : ∀ p i, held lock p i → held lock' p i;
  wk_new : ∀ p i, held lock' p i →
    held lock p i ∨ ∃ w, w ∈ queue ∧ pgprocno w = p ∧ waitLockMode w = i;
  wk_sub : waitProcs lock' `sublist_of` queue;
  wk_granted : ∀ w, w ∈ queue → w ∈ waitProcs lock' ∨ held lock' (pgprocno w) (waitLockMode w);
  wk_stuck : stuck lock'
}.

Lemma wakeup_check extension pend pmask MyProc w pl lock kept ahead :
  lock_inv extension pend pmask lock → waitLockMode w ∈ modes → pl ∈ procLocks lock → myProc pl = pgprocno w →
  (∀ i, Z.testbit ahead i = true → ∃ v, v ∈ kept ∧ waitLockMode v = i) →
  ∃ b, (if Z.land (LockConflicts (waitLockMode w)) ahead =? 0
        then LockCheckConflicts extension MyProc (waitLockMode w) lock pl else Ok true) = Ok b ∧
    (b = false → grantable extension (procLocks lock) pl (waitLockMode w)) ∧
    (b = true → blocked lock kept (length kept) w).
Proof.
  intros Hok Hm Hpl Hp Ha.
  destruct (LockCheckConflicts_spec extension pend pmask MyProc (waitLockMode w) lock pl Hok Hpl)
    as (b & Hc & Hgr & Hreal).
  destruct (Z.eqb_spec (Z.land (LockConflicts (waitLockMode w)) ahead) 0) as [|Hne].
  - exists b. split; [done|]. split; [done|]. intros ->.
    destruct (Hreal eq_refl) as (o & i & ? & Hne & ? & ?). left. exists (myProc o), i.
    split; [by exists o|]. by rewrite <- Hp.
  - exists true. split; [done|]. split; [done|]. intros _. right.
    destruct (conflict_bit _ _ Hm Hne) as (i & _ & Hci & Hai).
    destruct (Ha i Hai) as (v & [j Hj]%list_elem_of_lookup & <-). exists j, v.
    split; [by eapply lookup_lt_Some|done].
Qed.

Lemma wakeup_loop_spec extension MyProc queue : ∀ kept ahead lock,
  lock_ok extension lock → waitProcs lock = kept ++ queue →
  (∀ i, Z.testbit ahead i = true → ∃ v, v ∈ kept ∧ waitLockMode v = i) →
  (∀ k w, kept !! k = Some w → blocked lock kept k w) →
  ∃ lock', wakeup_loop extension MyProc queue kept ahead lock = Ok lock' ∧
    woken extension lock (kept ++ queue) lock'.
Proof.
  induction queue as [|w queue IH]; intros kept ahead lock Hok Eq Ha Hb; cbn [wakeup_loop].
  { rewrite app_nil_r in Eq. exists lock. rewrite <- Eq. split; [by destruct lock|].
    rewrite app_nil_r. constructor; [done|done|auto|by rewrite Eq|rewrite Eq; auto|unfold stuck; by rewrite Eq]. }
  destruct (inv_waiter _ _ _ _ Hok w) as (Hm & pl & Hpl & Hp & Hh); [rewrite Eq; set_solver|].
  rewrite <- Hp, (find_proclock_in lock pl (inv_procs _ _ _ _ Hok) Hpl).
  destruct (wakeup_check extension [] [] MyProc w pl lock kept ahead) as (b' & Hc & Hgr & Htrue);
    [done..|].
  rewrite Hc. cbn [mbind outcome_bind]. destruct b'.
  - destruct (IH (kept ++ [w]) (Z.lor ahead (LOCKBIT_ON (waitLockMode w))) lock) as (lock' & -> & Hw).
    + done.
    + by rewrite <- app_assoc.
    + intros i. rewrite bit_set by done. intros [Hi|Hi%Z.eqb_eq]%orb_true_iff.
      * destruct (Ha i Hi) as (v & ? & ?). exists v. set_solver.
      * exists w. set_solver.
    + intros k v [Hk|[Hk Hv]]%lookup_app_Some.
      * apply (blocked_mono lock); [done|by apply Hb|]. apply lookup_lt_Some in Hk. lia.
      * apply list_lookup_singleton_Some in Hv as [? <-].
        replace k with (length kept) by lia. apply (blocked_mono lock); [done|by apply Htrue|done].
    + exists lock'. split; [done|]. by rewrite <- app_assoc in Hw.
  - destruct (IH kept ahead (with_waitProcs (GrantLock lock (myProc pl) (waitLockMode w))
                               (kept ++ queue))) as (lock' & -> & Hw).
    + apply (GrantLock_inv extension [waitLockMode w] _ (with_waitProcs lock (kept ++ queue)));
        try done; [by apply dequeue_inv| |by apply Hgr].
      pose proof (inv_waiters _ _ _ _ Hok) as Hnd.
      rewrite Eq, <- Permutation_middle, fmap_cons in Hnd.
      apply NoDup_cons in Hnd as [Hnd _]. by rewrite Hp.
    + done.
    + done.
    + intros k v Hk. rewrite <- (app_nil_r kept). apply (blocked_mono lock); [|by apply Hb|].
      * intros. by apply GrantLock_held.
      * apply lookup_lt_Some in Hk. lia.
    + exists lock'. split; [done|]. destruct Hw as [H1 H2 Hn H3 H4 H5]. constructor; [done| | | | |done].
      * intros p i Hpi. apply H2. by apply (GrantLock_held lock).
      * intros p i [Hpi|(v & ? & ?)]%Hn; [|right; exists v; set_solver].
        apply (GrantLock_held_inv lock) in Hpi as [?|[-> ->]]; [by left| |done].
        right. exists w. set_solver.
      * etrans; [exact H3|]. apply sublist_app; [done|]. by constructor.
      * intros v [Hv|[->|Hv]%elem_of_cons]%elem_of_app; [apply H4; set_solver| |apply H4; set_solver].
        right. rewrite <- Hp. apply H2. by apply (GrantLock_holds lock).
Qed.

Lemma ProcLockWakeup_spec extension MyProc lock :
  lock_ok extension lock →
  ∃ lock', ProcLockWakeup extension MyProc lock = Ok lock' ∧
    woken extension lock (waitProcs lock) lock'.
Proof.
  intros Hok. apply (wakeup_loop_spec extension MyProc (waitProcs lock) [] 0); [done|done| |done].
  intros i. by rewrite Z.bits_0.
Qed.

(** ** Releasing *)

Lemma fmap_sublist {A B} (f : A → B) l k : l `sublist_of` k → f <$> l `sublist_of` f <$> k.
Proof. induction 1; cbn; by constructor. Qed.

Lemma remove_proclock_inv extension pend pmask lock pl :
  lock_inv extension pend pmask lock → pl ∈ procLocks lock → holdMask pl = 0 →
  myProc pl ∉ pgprocno <$> waitProcs lock →
  lock_inv extension pend pmask (with_procLocks lock (remove_proclock (myProc pl) (procLocks lock))).
Proof.
  intros [Hnd Hw Hg Hr Hn Hgm Hws Hwc Hwt Hex] Hpl Hz Hnw.
  change (remove_proclock (myProc pl) (procLocks lock)) with (others (myProc pl) (procLocks lock)).
  constructor; cbn [with_procLocks procLocks waitProcs granted requested nRequested grantMask waitMask];
    try done.
  - apply (sublist_NoDup _ (myProc <$> procLocks lock)); [done|]. apply fmap_sublist, sublist_filter.
  - intros i Hi. rewrite (Hg i Hi), (cnt_hold_others _ pl i Hnd Hpl).
    unfold holds. by rewrite Hz, Z.bits_0.
  - intros w Hin. destruct (Hwt w Hin) as (? & x & Hx & Hxp & Hxh). split; [done|]. exists x.
    split; [|done]. apply list_elem_of_filter. split; [|done]. rewrite Hxp. intros E. apply Hnw.
    rewrite <- E. by apply list_elem_of_fmap_2.
  - intros a b [_ Ha]%list_elem_of_filter [_ Hb]%list_elem_of_filter. by apply Hex.
Qed.

Lemma remove_proclock_held lock pl p i :
  NoDup (myProc <$> procLocks lock) → pl ∈ procLocks lock → holdMask pl = 0 →
  held lock p i ↔ held (with_procLocks lock (remove_proclock (myProc pl) (procLocks lock))) p i.
Proof.
  intros Hnd Hpl Hz. split; intros (x & Hx & Hp & Hh).
  2:{ apply list_elem_of_filter in Hx as [_ Hx]. by exists x. } exists x. split; [|done]. apply list_elem_of_filter.
  split; [|done]. intros E. rewrite (proclock_unique _ _ _ Hnd Hx Hpl E) in Hh.
  unfold holds in Hh. by rewrite Hz, Z.bits_0 in Hh.
Qed.

Lemma nRequested_zero extension lock :
  lock_ok extension lock → nRequested lock = 0 →
  waitProcs lock = [] ∧ ∀ p i, i ∈ modes → ¬ held lock p i.
Proof.
  intros [Hnd Hw Hg Hr Hn Hgm Hws Hwc Hwt Hex] Hz. rewrite Hn in Hz.
  assert (∀ i, i ∈ modes → requested lock i = 0) as H0.
  { intros i Hi. apply (sumf_zero modes (requested lock)); [|done|done].
    intros k Hk. rewrite (Hr k Hk), (Hg k Hk). cbn.
    pose proof (cnt_hold_nonneg (procLocks lock) k). pose proof (cnt_wait_nonneg (waitProcs lock) k). lia. }
  assert (∀ i, i ∈ modes → cnt_hold (procLocks lock) i = 0 ∧ cnt_wait (waitProcs lock) i = 0) as Hc.
  { intros k Hk. pose proof (H0 k Hk) as E. rewrite (Hr k Hk), (Hg k Hk) in E. cbn in E.
    pose proof (cnt_hold_nonneg (procLocks lock) k). pose proof (cnt_wait_nonneg (waitProcs lock) k). lia. }
  split.
  - destruct (waitProcs lock) as [|w q] eqn:E; [done|].
    destruct (Hwt w) as [Hm _]; [by left|]. destruct (Hc _ Hm) as [_ Hcw]. cbn in Hcw.
    rewrite Z.eqb_refl in Hcw. pose proof (cnt_wait_nonneg q (waitLockMode w)). cbn in Hcw. lia.
  - intros p i Hi (pl & Hpl & _ & Hh). destruct (Hc i Hi) as [Hch _].
    by rewrite (cnt_hold_zero _ _ _ Hch Hpl) in Hh.
Qed.

Lemma new_lock_ok extension : lock_ok extension new_lock ∧ stuck new_lock.
Proof.
  split; [|done]. constructor; cbn; try done; try (by constructor); try lia.
  - intros m Hm. by rewrite Z.bits_0.
  - intros m Hm. by rewrite Z.bits_0.
  - by intros w ?%elem_of_nil.
  - by intros a b ?%elem_of_nil.
Qed.

(** A cleanup keeps what other processes hold and what they wait for. *)
Record cleaned (extension : bool) (lock lock' : LOCK) : Prop := mkCleaned {
  cl_ok : lock_ok extension lock';
  cl_held : ∀ p i, i ∈ modes → held lock p i → held lock' p i;
  cl_new : ∀ p i, held lock' p i →
    held lock p i ∨ ∃ w, w ∈ waitProcs lock ∧ pgprocno w = p ∧ waitLockMode w = i;
  cl_granted : ∀ w, w ∈ waitProcs lock →
    w ∈ waitProcs lock' ∨ held lock' (pgprocno w) (waitLockMode w);
  cl_sub : waitProcs lock' `sublist_of` waitProcs lock
}.

Lemma CleanUpLock_spec extension MyProc lock p wakeupNeeded :
  lock_ok extension lock → p ∉ pgprocno <$> waitProcs lock →
  (wakeupNeeded = false → stuck lock) →
  ∃ lock', CleanUpLock extension MyProc lock p wakeupNeeded = Ok lock' ∧
    cleaned extension lock lock' ∧ stuck lock'.
Proof.
  intros Hok Hnw Hst. unfold CleanUpLock.
  set (lock1 := match find_proclock p lock with Some _ => _ | None => lock end).
  assert (lock_ok extension lock1 ∧ (∀ p i, held lock p i ↔ held lock1 p i) ∧
          waitProcs lock1 = waitProcs lock) as (Hok1 & Hh1 & Hw1).
  { unfold lock1. destruct (find_proclock p lock) as [pl|] eqn:Ef; [|done].
    apply find_proclock_Some in Ef as [Hpl <-]. destruct (Z.eqb_spec (holdMask pl) 0); [|done].
    split; [by apply remove_proclock_inv|]. split; [|done]. intros.
    apply remove_proclock_held; try done. apply (inv_procs _ _ _ _ Hok). }
  destruct (Z.eqb_spec (nRequested lock1) 0) as [E|E].
  - destruct (nRequested_zero _ _ Hok1 E) as [Hwz Hhz]. rewrite Hw1 in Hwz.
    exists new_lock. split; [done|]. destruct (new_lock_ok extension). split; [|done].
    constructor; [done| |by intros ? ? (? & ?%elem_of_nil & _)| |by rewrite Hwz].
    + intros q i Hi Hq. destruct (Hhz q i Hi). by apply Hh1.
    + rewrite Hwz. by intros w ?%elem_of_nil.
  - destruct wakeupNeeded.
    + destruct (ProcLockWakeup_spec extension MyProc lock1 Hok1) as (lock' & -> & [H1 H2 Hn H3 H4 H5]).
      exists lock'. split; [done|]. rewrite Hw1 in *. split; [|done]. constructor; auto.
      * intros q i _ Hq. by apply H2, Hh1.
      * intros q i [Hq|?]%Hn; [left; by apply Hh1|by right].
    + exists lock1. split; [done|]. split.
      { constructor; rewrite ?Hw1; auto; intros; [by apply Hh1|left; by apply Hh1]. }
      intros k w. rewrite Hw1. intros Hk. rewrite <- (app_nil_r (waitProcs lock)).
      apply (blocked_mono lock); [apply Hh1|by apply Hst|]. apply lookup_lt_Some in Hk. lia.
Qed.

Lemma UnGrantLock_inv extension lock pl m :
  lock_ok extension lock → m ∈ modes → pl ∈ procLocks lock → holds pl m = true →
  lock_ok extension (UnGrantLock lock m (myProc pl)).1.
Proof.
  intros [Hnd Hw Hg Hr Hn Hgm Hws Hwc Hwt Hex] Hm Hpl Hh.
  assert (∀ i, i ∈ modes → upd (granted lock) m (granted lock m - 1) i =
            cnt_hold (set_holdMask (myProc pl) (λ k, Z.land k (LOCKBIT_OFF m)) (procLocks lock)) i) as Hg'.
  { intros i Hi. rewrite cnt_hold_set by done. rewrite bit_clear by done. unfold upd.
    destruct (Z.eqb_spec i m) as [->|Hne].
    - rewrite Z.eqb_refl, andb_false_r, Hh, Hg by done. cbn. lia.
    - destruct (Z.eqb_spec m i); [congruence|]. rewrite andb_true_r, Hg by done. unfold holds. lia. }
  constructor; cbn [UnGrantLock fst procLocks waitProcs granted requested nRequested grantMask waitMask];
    try done.
  - by rewrite set_holdMask_procs.
  - intros i Hi. specialize (Hr i Hi). unfold upd. destruct (Z.eqb_spec i m) as [->|]; lia.
  - rewrite sum_modes_upd by done. lia.
  - intros i Hi. specialize (Hgm i Hi). unfold upd at 1. rewrite Z.eqb_refl. unfold upd.
    destruct (Z.eqb_spec (granted lock m - 1) 0) as [E|E].
    + rewrite bit_clear, (Z.eqb_sym m i) by done. destruct (Z.eqb_spec i m) as [->|].
      * by rewrite E, andb_false_r.
      * by rewrite andb_true_r.
    + destruct (Z.eqb_spec i m) as [->|]; [|done]. rewrite Hgm.
      pose proof (cnt_hold_elem _ _ _ Hpl Hh). rewrite <- (Hg m Hi) in H.
      destruct (Z.eqb_spec (granted lock m) 0), (Z.eqb_spec (granted lock m - 1) 0); (done || lia).
  - intros w Hin. destruct (Hwt w Hin) as (Hwm & x & Hx & Hxp & Hxh). split; [done|].
    eexists. split; [apply elem_of_set_holdMask; by exists x|].
    destruct (decide _); [|done]. split; [done|]. unfold holds. cbn.
    rewrite bit_clear by done. unfold holds in Hxh. by rewrite Hxh.
  - apply exclusive_set; try done. intros i Hi. rewrite bit_clear by done.
    intros [? _]%andb_true_iff. by left.
Qed.

Lemma UnGrantLock_held lock pl m p i :
  NoDup (myProc <$> procLocks lock) → pl ∈ procLocks lock → m ∈ modes → i ∈ modes →
  held (UnGrantLock lock m (myProc pl)).1 p i ↔ held lock p i ∧ (p ≠ myProc pl ∨ i ≠ m).
Proof.
  intros Hnd Hpl Hm Hi. cbn. unfold held. cbn [procLocks]. split.
  - intros (x & (y & Hy & ->)%elem_of_set_holdMask & Hp & Hh).
    destruct (decide (myProc y = myProc pl)) as [E|E]; [|naive_solver].
    unfold holds in Hh. cbn in Hp, Hh. rewrite bit_clear in Hh by done.
    apply andb_true_iff in Hh as [Hh Hne%negb_true_iff%Z.eqb_neq]. split; [by exists y|]. right. congruence.
  - intros [(x & Hx & Hp & Hh) Hor]. eexists. split; [apply elem_of_set_holdMask; by exists x|].
    destruct (decide (myProc x = myProc pl)) as [E|E]; [|done]. split; [done|].
    unfold holds. cbn. rewrite bit_clear by done. unfold holds in Hh. rewrite Hh.
    apply negb_true_iff, Z.eqb_neq. destruct Hor; congruence.
Qed.

(** Releasing a mode that no waiter conflicts with blocks the same waiters. *)
Lemma UnGrantLock_stuck extension lock pl m :
  lock_ok extension lock → stuck lock → m ∈ modes → pl ∈ procLocks lock → holds pl m = true →
  (UnGrantLock lock m (myProc pl)).2 = false → stuck (UnGrantLock lock m (myProc pl)).1.
Proof.
  intros Hok Hst Hm Hpl Hh Hf k w Hk. cbn in Hf, Hk. apply negb_false_iff, Z.eqb_eq in Hf.
  assert (w ∈ waitProcs lock) as Hw by by eapply list_elem_of_lookup_2.
  destruct (inv_waiter _ _ _ _ Hok w Hw) as [Hwm _].
  destruct (Hst k w Hk) as [(p & i & Hp & Hne & Hc)|H]; [left|by right].
  assert (i ∈ modes) as Hi by by eapply conflict_mode.
  exists p, i. split; [|done].
  apply UnGrantLock_held; try done; [apply (inv_procs _ _ _ _ Hok)|]. split; [done|]. right. intros ->.
  apply (f_equal (λ z, Z.testbit z (waitLockMode w))) in Hf.
  rewrite Z.land_spec, conflicts_sym, Hc, Z.bits_0, (inv_waitMask_set _ _ _ _ Hok) in Hf; try done.
  clear -Hw. induction Hw; cbn; [rewrite Z.eqb_refl|].
  - pose proof (cnt_wait_nonneg l (waitLockMode x)). cbn. lia.
  - destruct (_ =? _); cbn; lia.
Qed.

(** What one process gives up; everything else stays held. *)
Record released (extension : bool) (p : nat) (m : Z) (lock lock' : LOCK) : Prop := mkReleased {
  rel_ok : lock_ok extension lock';
  rel_stuck : stuck lock';
  rel_gone : ¬ held lock' p m;
  rel_held : ∀ p' i, i ∈ modes → held lock p' i → p' ≠ p ∨ i ≠ m → held lock' p' i;
  rel_granted : ∀ w, w ∈ waitProcs lock →
    w ∈ waitProcs lock' ∨ held lock' (pgprocno w) (waitLockMode w);
  rel_sub : waitProcs lock' `sublist_of` waitProcs lock
}.

Lemma LockRelease_spec extension MyProc m lock :
  lock_ok extension lock → stuck lock → m ∈ modes →
  pgprocno MyProc ∉ pgprocno <$> waitProcs lock → held lock (pgprocno MyProc) m →
  ∃ lock', LockRelease extension MyProc m lock = Ok (true, lock') ∧
    released extension (pgprocno MyProc) m lock lock'.
Proof.
  intros Hok Hst Hm Hnw (pl & Hpl & Hp & Hh). pose proof (inv_procs _ _ _ _ Hok) as Hnd.
  unfold LockRelease. rewrite <- Hp in *.
  rewrite (find_proclock_in lock pl Hnd Hpl). unfold holds in Hh. rewrite Hh. cbn [negb].
  destruct (UnGrantLock lock m (myProc pl)) as [lock1 wk] eqn:Eu.
  pose proof (UnGrantLock_inv extension lock pl m Hok Hm Hpl Hh) as Hok1. rewrite Eu in Hok1.
  pose proof (UnGrantLock_stuck extension lock pl m Hok Hst Hm Hpl Hh) as Hst1. rewrite Eu in Hst1.
  pose proof (λ p i, UnGrantLock_held lock pl m p i Hnd Hpl Hm) as Hh1. rewrite Eu in Hh1.
  assert (waitProcs lock1 = waitProcs lock) as Hw1 by by injection Eu as <- _.
  destruct (CleanUpLock_spec extension MyProc lock1 (myProc pl) wk) as (lock' & -> & Hc & Hst');
    [done|by rewrite Hw1|done|].
  exists lock'. split; [done|]. destruct Hc as [H1 H2 Hn H3 H4]. cbn [fst] in *. rewrite Hw1 in *.
  constructor; try done.
  - intros [Hu|(w & Hw & Ew & _)]%Hn.
    { apply Hh1 in Hu as [_ [?|?]]; done. }
    apply Hnw. rewrite <- Ew.
    by apply list_elem_of_fmap_2.
  - intros p' i Hi Hp' Hor. apply H2; [done|]. by apply Hh1.
Qed.

(** ** Giving up a request *)

Lemma withdraw_inv extension pmask m lock wm :
  lock_inv extension [m] pmask lock → m ∈ modes →
  (∀ i, i ∈ modes → 0 < cnt_wait (waitProcs lock) i → Z.testbit wm i = true) →
  (∀ i, i ∈ modes → Z.testbit wm i = true → 0 < cnt_wait (waitProcs lock) i) →
  lock_ok extension
    (mkLock (grantMask lock) wm (procLocks lock) (waitProcs lock) (nRequested lock - 1)
       (upd (requested lock) m (requested lock m - 1)) (nGranted lock) (granted lock)).
Proof.
  intros [Hnd Hw Hg Hr Hn Hgm Hws Hwc Hwt Hex] Hm Hs Hc.
  constructor; cbn [procLocks waitProcs granted requested nRequested grantMask waitMask]; try done.
  - intros i Hi. specialize (Hr i Hi). cbn in Hr. unfold upd. rewrite (Z.eqb_sym m i) in Hr.
    destruct (Z.eqb_spec i m) as [Ei|]; cbn in *; [subst i|]; lia.
  - rewrite sum_modes_upd by done. lia.
  - intros i Hi Hb. cbn. specialize (Hc i Hi Hb). lia.
Qed.

Lemma filter_waiters_id p (q : list PGPROC) :
  p ∉ pgprocno <$> q → filter (λ x, pgprocno x ≠ p) q = q.
Proof.
  induction q as [|x q IH]; [done|]. rewrite fmap_cons. intros H.
  rewrite filter_cons_True by set_solver. f_equal. apply IH. set_solver.
Qed.

Lemma filter_out_waiter (q a b : list PGPROC) w :
  NoDup (pgprocno <$> q) → q = a ++ w :: b →
  filter (λ x, pgprocno x ≠ pgprocno w) q = a ++ b.
Proof.
  intros Hnd ->. rewrite <- Permutation_middle, fmap_cons, fmap_app in Hnd.
  apply NoDup_cons in Hnd as [Hw _]. rewrite elem_of_app in Hw.
  rewrite filter_app, filter_cons_False by tauto.
  rewrite !filter_waiters_id by tauto. done.
Qed.

Lemma RemoveFromWaitQueue_spec extension MyProc w lock a b :
  lock_ok extension lock → waitProcs lock = a ++ w :: b →
  ∃ lock', RemoveFromWaitQueue extension MyProc w lock = Ok lock' ∧
    cleaned extension (with_waitProcs lock (a ++ b)) lock' ∧ stuck lock'.
Proof.
  intros Hok Eq. unfold RemoveFromWaitQueue.
  pose proof (inv_waiters _ _ _ _ Hok) as Hnd.
  rewrite (filter_out_waiter _ a b w Hnd Eq).
  destruct (inv_waiter _ _ _ _ Hok w) as [Hm _]; [rewrite Eq; set_solver|].
  set (m := waitLockMode w) in *. set (wm := if _ =? _ then _ else waitMask lock).
  pose proof (dequeue_inv extension lock a w b Hok Eq) as Hd.
  assert (granted lock m = requested lock m - 1 ↔ cnt_wait (a ++ b) m = 0) as Hz.
  { pose proof (inv_requested _ _ _ _ Hd m Hm) as Hr. cbn in Hr. fold m in Hr.
    rewrite Z.eqb_refl in Hr. cbn in Hr. lia. }
  pose proof (cnt_wait_nonneg (a ++ b) m) as Hnn.
  pose proof (withdraw_inv extension [m] m (with_waitProcs lock (a ++ b)) wm Hd Hm) as Hok'.
  destruct (CleanUpLock_spec extension MyProc
    (mkLock (grantMask lock) wm (procLocks lock) (a ++ b) (nRequested lock - 1)
       (upd (requested lock) m (requested lock m - 1)) (nGranted lock) (granted lock))
    (pgprocno w) true) as (lock' & -> & Hc & Hs); [| |done|].
  - apply Hok'; cbn [with_waitProcs waitProcs]; intros i Hi; unfold wm, upd; rewrite Z.eqb_refl.
    + intros Hp. pose proof (inv_waitMask_set _ _ _ _ Hd i Hi Hp) as Hb. cbn in Hb.
      destruct (Z.eqb_spec (granted lock m) (requested lock m - 1)) as [E|E]; [|done].
      rewrite bit_clear, Hb by done. destruct (Z.eqb_spec m i); [|done]. subst i. lia.
    + destruct (Z.eqb_spec (granted lock m) (requested lock m - 1)) as [E|E].
      * rewrite bit_clear by done. intros [Hb Hne%negb_true_iff%Z.eqb_neq]%andb_true_iff.
        pose proof (inv_waitMask_clear _ _ _ _ Hd i Hi Hb) as Hp. cbn in Hp.
        fold m in Hp. destruct (Z.eqb_spec m i); [done|]. cbn in Hp. lia.
      * intros Hb. pose proof (inv_waitMask_clear _ _ _ _ Hd i Hi Hb) as Hp. cbn in Hp.
        fold m in Hp. destruct (Z.eqb_spec m i); cbn in Hp; [subst i|]; lia.
  - cbn. rewrite Eq, <- Permutation_middle, fmap_cons in Hnd. by apply NoDup_cons in Hnd as [? _].
  - exists lock'. split; [done|]. split; [|done]. destruct Hc. by constructor.
Qed.

(** ** Requesting *)

Lemma SetupLockInTable_spec extension proc m lock :
  lock_ok extension lock → m ∈ modes → ¬ held lock (pgprocno proc) m →
  ∃ pl lock1, SetupLockInTable proc m lock = (Ok pl, lock1) ∧ lock_inv extension [m] [] lock1 ∧
    pl ∈ procLocks lock1 ∧ myProc pl = pgprocno proc ∧ holds pl m = false ∧
    (∀ p i, held lock1 p i ↔ held lock p i) ∧
    waitProcs lock1 = waitProcs lock ∧ waitMask lock1 = waitMask lock.
Proof.
  intros [Hnd Hw Hg Hr Hn Hgm Hws Hwc Hwt Hex] Hm Hnh. unfold SetupLockInTable.
  assert (∀ i, i ∈ modes → upd (requested lock) m (requested lock m + 1) i =
            granted lock i + cnt_wait (waitProcs lock) i + cnt_mode [m] i) as Hr'.
  { intros i Hi. specialize (Hr i Hi). cbn in *. unfold upd. rewrite (Z.eqb_sym m i).
    destruct (Z.eqb_spec i m) as [Ei|]; cbn; [subst i|]; lia. }
  destruct (find_proclock (pgprocno proc) lock) as [pl|] eqn:Ef.
  - apply find_proclock_Some in Ef as [Hpl Hp].
    assert (holds pl m = false) as Hh.
    { destruct (holds pl m) eqn:E; [|done]. destruct Hnh. by exists pl. }
    unfold holds in Hh. rewrite Hh. do 2 eexists. split; [done|]. split; [|by split_and!].
    constructor; cbn [procLocks waitProcs granted requested nRequested grantMask waitMask]; try done.
    rewrite sum_modes_upd by done. lia.
  - pose proof (find_proclock_None _ _ Ef) as Hnp. cbn [holdMask]. rewrite Z.bits_0.
    set (pl := mkProcLock _ _ 0).
    assert (∀ i, holds pl i = false) as Hh by (intros; apply Z.bits_0).
    do 2 eexists. split; [done|]. split; [|split_and!; cbn; try done].
    + constructor; cbn [procLocks waitProcs granted requested nRequested grantMask waitMask]; try done.
      * rewrite fmap_app. apply NoDup_app. split; [done|]. split; [|apply NoDup_singleton].
        intros x Hx Hx'%list_elem_of_singleton. by subst.
      * intros i Hi. rewrite cnt_hold_app, (Hg i Hi). cbn. rewrite Hh. cbn. lia.
      * rewrite sum_modes_upd by done. lia.
      * intros w Hin. destruct (Hwt w Hin) as (? & x & ? & ? & ?). split; [done|]. exists x. set_solver.
      * intros a b [Ha|Ha]%elem_of_app [Hb|Hb]%elem_of_app; [by apply Hex|..];
          intros _ m1 m2 _ _ H1 H2;
          [apply list_elem_of_singleton in Hb|apply list_elem_of_singleton in Ha..];
          subst; by rewrite Hh in *.
    + set_solver.
    + intros p i. unfold held. cbn. split.
      * intros (x & [?|Hx%list_elem_of_singleton]%elem_of_app & ? & ?); [by exists x|].
        subst x. by rewrite Hh in *.
      * intros (x & ? & ?). exists x. set_solver.
Qed.

(** The waiters as the counters see them. *)
Definition waiter_key (w : PGPROC) : nat * Z := (pgprocno w, waitLockMode w).

Lemma cnt_wait_key q q' i : waiter_key <$> q = waiter_key <$> q' → cnt_wait q i = cnt_wait q' i.
Proof.
  revert q'. induction q as [|w q IH]; intros [|w' q']; try done. rewrite !fmap_cons.
  intros [= H1 H2 H3]. cbn. rewrite H2. f_equal. by apply IH.
Qed.

Lemma key_elem (q q' : list PGPROC) w : waiter_key <$> q = waiter_key <$> q' → w ∈ q' →
  ∃ v, v ∈ q ∧ waiter_key v = waiter_key w.
Proof.
  intros E Hw. apply (list_elem_of_fmap_2 waiter_key) in Hw. rewrite <- E in Hw.
  apply list_elem_of_fmap in Hw as (v & ? & ?). by exists v.
Qed.

Lemma key_procs (q q' : list PGPROC) : waiter_key <$> q = waiter_key <$> q' → pgprocno <$> q = pgprocno <$> q'.
Proof.
  revert q'. induction q as [|w q IH]; intros [|w' q']; try done. rewrite !fmap_cons.
  intros [= H1 H2 H3]. rewrite H1. f_equal. by apply IH.
Qed.

Lemma requeue_inv extension pend pmask lock q :
  lock_inv extension pend pmask lock → waiter_key <$> q = waiter_key <$> waitProcs lock →
  lock_inv extension pend pmask (with_waitProcs lock q).
Proof.
  intros [Hnd Hw Hg Hr Hn Hgm Hws Hwc Hwt Hex] E.
  constructor; cbn [with_waitProcs procLocks waitProcs granted requested nRequested grantMask waitMask];
    try done.
  - by rewrite (key_procs _ _ E).
  - intros i Hi. rewrite (cnt_wait_key _ _ i E). by apply Hr.
  - intros i Hi. rewrite (cnt_wait_key _ _ i E). by apply Hws.
  - intros i Hi. rewrite (cnt_wait_key _ _ i E). by apply Hwc.
  - intros w Hin. destruct (key_elem _ _ w (eq_sym E) Hin) as (v & Hv & [= E1 E2]).
    rewrite <- E1, <- E2. by apply Hwt.
Qed.

Lemma blocked_key lock q q' k w w' :
  waiter_key <$> q = waiter_key <$> q' → waiter_key w = waiter_key w' →
  blocked lock q k w → blocked lock q' k w'.
Proof.
  intros E [= E1 E2]. unfold blocked. rewrite E1, E2.
  intros [?|(j & v & Hj & Hv & Hc)]; [by left|right].
  assert (waiter_key <$> q' !! j = Some (waiter_key v)) as Hv'.
  { rewrite <- list_lookup_fmap, <- E, list_lookup_fmap, Hv. done. }
  apply fmap_Some in Hv' as (v' & Hv' & [= _ E3]). exists j, v'. by rewrite <- E3.
Qed.

Lemma count_dep_key m w : waiter_key (count_dep m w) = waiter_key w.
Proof. unfold count_dep. by destruct (negb _). Qed.
Lemma count_dep_rank m w : rank (count_dep m w) = rank w.
Proof. unfold count_dep. by destruct (negb _). Qed.

(** A queued request. *)
Definition enqueued (lock : LOCK) (m : Z) (q : list PGPROC) : LOCK :=
  mkLock (grantMask lock) (Z.lor (waitMask lock) (LOCKBIT_ON m)) (procLocks lock) q
    (nRequested lock) (requested lock) (nGranted lock) (granted lock).

Lemma enqueue_inv extension lock pl me m q :
  lock_inv extension [m] [] lock → m ∈ modes → pl ∈ procLocks lock → holds pl m = false →
  myProc pl = pgprocno me → waitLockMode me = m → pgprocno me ∉ pgprocno <$> waitProcs lock →
  q ≡ₚ me :: waitProcs lock → lock_ok extension (enqueued lock m q).
Proof.
  intros [Hnd Hw Hg Hr Hn Hgm Hws Hwc Hwt Hex] Hm Hpl Hh Hp Em Hnw Hq.
  assert (∀ i, cnt_wait q i = cnt_wait (waitProcs lock) i + cnt_mode [m] i) as Hc.
  { intros i. rewrite Hq. cbn. rewrite Em. lia. }
  constructor; cbn [enqueued procLocks waitProcs granted requested nRequested grantMask waitMask];
    try done.
  - rewrite Hq, fmap_cons. by apply NoDup_cons.
  - intros i Hi. rewrite (Hr i Hi), Hc. cbn. lia.
  - intros i Hi. rewrite Hc, bit_set by done. cbn. destruct (Z.eqb_spec m i); cbn; intros H.
    + by rewrite orb_true_r.
    + rewrite (Hws i Hi); [done|lia].
  - intros i Hi. rewrite Hc, bit_set by done. cbn. pose proof (cnt_wait_nonneg (waitProcs lock) i).
    destruct (Z.eqb_spec m i); cbn; [lia|]. rewrite orb_false_r. intros Hb.
    specialize (Hwc i Hi Hb). cbn in Hwc. lia.
  - intros w. rewrite Hq. intros [->|Hin]%elem_of_cons; [|by apply Hwt].
    rewrite Em. split; [done|]. by exists pl.
Qed.

Lemma stuck_insert lock lock' q n me :
  (∀ p i, held lock p i → held lock' p i) →
  (∀ k w, q !! k = Some w → blocked lock q k w) → (n ≤ length q)%nat →
  blocked lock (take n q) n me →
  ∀ k w, (take n q ++ me :: drop n q) !! k = Some w →
    blocked lock' (take n q ++ me :: drop n q) k w.
Proof.
  intros Hh Hst Hn Hme k w Hk.
  assert (length (take n q) = n) as Hl by (rewrite length_take; lia).
  apply lookup_app_Some in Hk as [Hk|[Hle Hk]].
  - assert (k < n)%nat as Hkn by (apply lookup_lt_Some in Hk; lia).
    rewrite lookup_take_lt in Hk by done.
    destruct (Hst k w Hk) as [(p & i & ? & ?)|(j & v & Hj & Hv & Hc)]; [left; exists p, i; auto|right].
    exists j, v. split; [done|]. split; [|done]. rewrite lookup_app_l by lia.
    by rewrite lookup_take_lt by lia.
  - rewrite Hl in *. destruct (k - n)%nat as [|k'] eqn:Ek.
    + injection Hk as <-. replace k with n by lia. apply (blocked_mono lock); [done|done|lia].
    + change (drop n q !! k' = Some w) in Hk. rewrite lookup_drop in Hk.
      destruct (Hst _ w Hk) as [(p & i & ? & ?)|(j & v & Hj & Hv & Hc)]; [left; exists p, i; auto|right].
      destruct (decide (j < n)%nat).
      * exists j, v. split; [lia|]. split; [|done]. rewrite lookup_app_l by lia.
        by rewrite lookup_take_lt by lia.
      * exists (S j), v. split; [lia|]. split; [|done]. rewrite lookup_app_r by lia. rewrite Hl.
        replace (S j - n)%nat with (S (j - n)) by lia.
        change (drop n q !! (j - n)%nat = Some v). rewrite lookup_drop. by replace (n + (j - n))%nat with j by lia.
Qed.

Lemma sleep_scan_spec extension MyProc hl pl lock me queue :
  lock_inv extension [waitLockMode me] [] lock → waitLockMode me ∈ modes →
  pl ∈ procLocks lock → myProc pl = pgprocno me →
  ∀ passed ahead,
  (∀ w, w ∈ queue → waitLockMode w ∈ modes) →
  (∀ i, Z.testbit ahead i = true → ∃ v, v ∈ passed ∧ waitLockMode v = i) →
  ∃ place q, sleep_scan extension MyProc hl (waitLockMode me) pl lock queue passed ahead = Ok (place, q) ∧
    waiter_key <$> q = waiter_key <$> passed ++ queue ∧
    match place with
    | PGranted => grantable extension (procLocks lock) pl (waitLockMode me)
    | PBefore n => (n ≤ length q)%nat ∧ blocked lock (take n q) n me
    | PTail | PDeadlock => True
    end.
Proof.
  intros Hinv Hm Hpl Hp.
  induction queue as [|w queue IH]; intros passed ahead Hq Ha; cbn [sleep_scan].
  { exists PTail, passed. by rewrite app_nil_r. }
  set (w' := count_dep (waitLockMode me) w).
  assert (waiter_key <$> passed ++ w' :: queue = waiter_key <$> passed ++ w :: queue) as Hk.
  { rewrite !fmap_app, !fmap_cons. unfold w'. by rewrite count_dep_key. }
  assert (waitLockMode w' = waitLockMode w) as Hwm by (unfold w', count_dep; by destruct (negb _)).
  assert (∀ a, (∀ i, Z.testbit a i = true → ∃ v, v ∈ passed ++ [w'] ∧ waitLockMode v = i) →
    ∃ place q, sleep_scan extension MyProc hl (waitLockMode me) pl lock queue (passed ++ [w']) a = Ok (place, q) ∧
    waiter_key <$> q = waiter_key <$> passed ++ w :: queue ∧ match place with
    | PGranted => grantable extension (procLocks lock) pl (waitLockMode me)
    | PBefore n => (n ≤ length q)%nat ∧ blocked lock (take n q) n me
    | PTail | PDeadlock => True end) as IH'.
  { intros a Ha'. destruct (IH (passed ++ [w']) a) as (pc & q & ? & Hkq & ?); [set_solver|done|].
    exists pc, q. split; [done|]. split; [|done]. rewrite Hkq, <- Hk. by rewrite <- app_assoc. }
  destruct (negb (hl =? 0) && _ && _).
  { apply IH'. intros i Hi. destruct (Ha i Hi) as (v & ? & ?). exists v. set_solver. }
  destruct (_ && negb _); [by eexists _, _|]. destruct (_ || _).
  - destruct (wakeup_check extension [waitLockMode me] [] MyProc me pl lock passed ahead)
      as (b & -> & Hgr & Hbl); [done..|]. cbn [mbind outcome_bind].
    destruct b; eexists _, _; (split; [done|]); (split; [done|]).
    + rewrite length_app. split; [lia|]. rewrite take_app_length. by apply Hbl.
    + by apply Hgr.
  - apply IH'. intros i. rewrite bit_set by (apply Hq; by left).
    intros [Hi|Hi%Z.eqb_eq]%orb_true_iff.
    + destruct (Ha i Hi) as (v & ? & ?). exists v. set_solver.
    + exists w'. set_solver.
Qed.

(** What a request leads to: the counters stay right and no process loses a
    mode; after an immediate grant the requester holds its mode, a waiter is in
    the queue once, a refused request leaves nothing behind. *)
Record acquired (extension : bool) (me : PGPROC) (m : Z) (lock lock' : LOCK)
    (r : request_result) : Prop := mkAcquired {
  acq_ok : lock_ok extension lock';
  acq_stuck : stuck lock';
  acq_held : ∀ p i, i ∈ modes → held lock p i → held lock' p i;
  acq_result :
    match r with
    | LOCKACQUIRE_OK => held lock' (pgprocno me) m ∧
        waiter_key <$> waitProcs lock' = waiter_key <$> waitProcs lock
    | RequestWaiting => ¬ held lock' (pgprocno me) m ∧
        waiter_key <$> waitProcs lock' ≡ₚ (pgprocno me, m) :: (waiter_key <$> waitProcs lock)
    | LOCKACQUIRE_NOT_AVAIL => ¬ held lock' (pgprocno me) m ∧ waitProcs lock' = waitProcs lock
    | RequestDeadlock => ¬ held lock' (pgprocno me) m ∧
        pgprocno me ∉ pgprocno <$> waitProcs lock'
    end;
  acq_kept : ∀ w, w ∈ waitProcs lock →
    waiter_key w ∈ waiter_key <$> waitProcs lock' ∨ held lock' (pgprocno w) (waitLockMode w)
}.

Definition result_of (st : wait_status) : request_result :=
  match st with
  | WaitOk => LOCKACQUIRE_OK
  | Waiting => RequestWaiting
  | WaitError => RequestDeadlock
  end.

Lemma not_held lock pl i :
  NoDup (myProc <$> procLocks lock) → pl ∈ procLocks lock → holds pl i = false →
  ¬ held lock (myProc pl) i.
Proof.
  intros Hnd Hpl Hh (x & Hx & Hp & Hi). rewrite (proclock_unique _ _ _ Hnd Hx Hpl Hp) in Hi.
  by rewrite Hh in Hi.
Qed.

(** The process as it sits in the queue. *)
Definition as_waiter (proc : PGPROC) (m : Z) : PGPROC :=
  mkProc (pgprocno proc) (rank proc) (nDep proc) (heldLocks proc) m (lockGroupLeader proc).

Lemma stuck_key lock q :
  stuck lock → waiter_key <$> q = waiter_key <$> waitProcs lock →
  ∀ k w, q !! k = Some w → blocked lock q k w.
Proof.
  intros Hst E k w Hk.
  assert (waiter_key <$> waitProcs lock !! k = Some (waiter_key w)) as Hv.
  { by rewrite <- list_lookup_fmap, <- E, list_lookup_fmap, Hk. }
  apply fmap_Some in Hv as (v & Hv & Ev).
  by apply (blocked_key lock (waitProcs lock) q k v w); [| |apply Hst].
Qed.

(** Joining the queue at a place where one is blocked. *)
Lemma join_acquired extension MyProc m lock pl q n :
  lock_inv extension [m] [] lock → stuck lock → m ∈ modes →
  pl ∈ procLocks lock → holds pl m = false → myProc pl = pgprocno MyProc →
  pgprocno MyProc ∉ pgprocno <$> waitProcs lock →
  waiter_key <$> q = waiter_key <$> waitProcs lock → (n ≤ length q)%nat →
  blocked lock (take n q) n (as_waiter MyProc m) →
  acquired extension MyProc m lock
    (enqueued (with_waitProcs lock q) m (take n q ++ as_waiter MyProc m :: drop n q)) RequestWaiting.
Proof.
  intros Hinv Hst Hm Hpl Hh Hp Hnw Hk Hn Hb.
  assert (take n q ++ as_waiter MyProc m :: drop n q ≡ₚ as_waiter MyProc m :: q) as Hperm.
  { by rewrite <- Permutation_middle, take_drop. }
  constructor.
  - apply (enqueue_inv extension _ pl (as_waiter MyProc m)); try done; [by apply requeue_inv|].
    cbn. by rewrite (key_procs _ _ Hk).
  - intros k w. by apply (stuck_insert lock); [|apply stuck_key| |].
  - done.
  - split; [|cbn; by rewrite Hperm, fmap_cons, Hk].
    rewrite <- Hp. by apply (not_held (enqueued (with_waitProcs lock q) m _)); [apply Hinv| |].
  - intros w Hw. left. cbn. rewrite Hperm, fmap_cons, Hk. right. by apply list_elem_of_fmap_2.
Qed.

Lemma ProcSleep_spec extension MyProc m lock pl :
  lock_inv extension [m] [] lock → stuck lock → m ∈ modes →
  pl ∈ procLocks lock → holds pl m = false → myProc pl = pgprocno MyProc →
  pgprocno MyProc ∉ pgprocno <$> waitProcs lock →
  blocked lock (waitProcs lock) (length (waitProcs lock)) (as_waiter MyProc m) →
  ∃ st lock', ProcSleep extension MyProc m pl lock = Ok (st, lock') ∧
    acquired extension MyProc m lock lock' (result_of st).
Proof.
  intros Hinv Hst Hm Hpl Hh Hp Hnw Hbl. unfold ProcSleep. fold (as_waiter MyProc m).
  destruct (sleep_scan_spec extension MyProc (group_held MyProc lock) pl lock (as_waiter MyProc m)
    (waitProcs lock) Hinv Hm Hpl Hp [] 0) as (place & q & Hs & Hk & Hpl').
  { intros w Hw. by destruct (inv_waiter _ _ _ _ Hinv w Hw). }
  { intros i. by rewrite Z.bits_0. }
  cbn [app waitLockMode as_waiter] in Hs, Hk, Hpl'. rewrite Hs. cbn [mbind outcome_bind].
  pose proof (requeue_inv _ _ _ _ q Hinv Hk) as Hinvq.
  assert (pgprocno MyProc ∉ pgprocno <$> q) as Hnq by by rewrite (key_procs _ _ Hk).
  assert (∀ k w, q !! k = Some w → blocked lock q k w) as Hstq by by apply stuck_key.
  destruct place as [|n| |].
  - exists WaitOk. eexists. split; [done|]. constructor.
    + rewrite <- Hp. eapply (GrantLock_inv extension []); try done; [set_solver|by rewrite Hp].
    + intros k w Hkw. cbn in Hkw |- *. rewrite <- (app_nil_r q).
      apply (blocked_mono lock); [intros; by apply (GrantLock_held lock)|by apply Hstq|].
      apply lookup_lt_Some in Hkw. lia.
    + intros. by apply (GrantLock_held lock).
    + split; [|done]. rewrite <- Hp. by apply (GrantLock_holds (with_waitProcs lock q)).
    + intros w Hw. left. cbn. rewrite Hk. by apply list_elem_of_fmap_2.
  - destruct Hpl' as [Hn Hbn]. exists Waiting. eexists. split; [done|]. by apply (join_acquired _ _ _ _ pl).
  - exists Waiting. eexists. split; [done|].
    pose proof (join_acquired extension MyProc m lock pl q (length q)) as Hj.
    rewrite take_ge, drop_ge in Hj by done. apply Hj; try done.
    assert (length q = length (waitProcs lock)) as ->.
    { rewrite <- (length_fmap waiter_key q), Hk. apply length_fmap. }
    by apply (blocked_key lock (waitProcs lock) q _ (as_waiter MyProc m)).
  - assert (lock_ok extension (enqueued (with_waitProcs lock q) m (q ++ [as_waiter MyProc m]))) as Hok.
    { apply (enqueue_inv extension _ pl (as_waiter MyProc m)); try done.
      by rewrite <- Permutation_cons_append. }
    destruct (RemoveFromWaitQueue_spec extension MyProc (as_waiter MyProc m)
      (enqueued (with_waitProcs lock q) m (q ++ [as_waiter MyProc m])) q []) as (lock' & Hr & Hc & Hs');
      [done|done|].
    unfold enqueued in Hr. cbn [with_waitProcs grantMask waitMask procLocks nRequested requested
      nGranted granted] in Hr |- *. rewrite Hr. cbn [mbind outcome_bind].
    exists WaitError, lock'. split; [done|]. destruct Hc as [H1 H2 H3 H4 H5].
    rewrite app_nil_r in *. constructor; [done|done|done| |].
    2:{ intros w Hw. destruct (key_elem q (waitProcs lock) w Hk Hw) as (v & Hv & Ev).
        destruct (H4 v Hv) as [Hv'|Hv']; [left|right]; [rewrite <- Ev; by apply list_elem_of_fmap_2|].
        by injection Ev as <- <-. }
    split.
    + intros [Hx|(w & Hw & Ew & _)]%H3.
      * rewrite <- Hp in Hx. by eapply (not_held lock); [apply (inv_procs _ _ _ _ Hinv)|..].
      * apply Hnq. rewrite <- Ew. by apply list_elem_of_fmap_2.
    + intros Hx. apply Hnq. eapply elem_of_sublist; [exact Hx|]. by apply fmap_sublist.
Qed.

Lemma cnt_wait_pos q i : 0 < cnt_wait q i → ∃ w, w ∈ q ∧ waitLockMode w = i.
Proof.
  induction q as [|w q IH]; cbn; [lia|]. destruct (Z.eqb_spec (waitLockMode w) i); cbn.
  - exists w. set_solver.
  - intros H. destruct IH as (v & ? & ?); [lia|]. exists v. set_solver.
Qed.

(** The first conflict test of a request. *)
Lemma found_conflict_spec extension MyProc m lock pl me :
  lock_inv extension [m] [] lock → m ∈ modes → pl ∈ procLocks lock →
  pgprocno me = myProc pl → waitLockMode me = m →
  ∃ b, (if negb (Z.land (LockConflicts m) (waitMask lock) =? 0) then Ok true
        else LockCheckConflicts extension MyProc m lock pl) = Ok b ∧
    (b = false → grantable extension (procLocks lock) pl m) ∧
    (b = true → blocked lock (waitProcs lock) (length (waitProcs lock)) me).
Proof.
  intros Hinv Hm Hpl Hp Em.
  destruct (Z.eqb_spec (Z.land (LockConflicts m) (waitMask lock)) 0) as [E|E]; cbn [negb].
  - destruct (LockCheckConflicts_spec extension _ _ MyProc m lock pl Hinv Hpl)
      as (b & -> & Hgr & Hreal).
    exists b. split; [done|]. split; [done|]. intros ->.
    destruct (Hreal eq_refl) as (o & i & ? & ? & ? & ?). left. exists (myProc o), i.
    rewrite Hp, Em. split; [by exists o|done].
  - exists true. split; [done|]. split; [done|]. intros _. right.
    destruct (conflict_bit _ _ Hm E) as (i & Hi & Hc & Hw).
    pose proof (inv_waitMask_clear _ _ _ _ Hinv i Hi Hw) as Hpos. cbn in Hpos.
    destruct (cnt_wait_pos (waitProcs lock) i) as (v & [j Hj]%list_elem_of_lookup & Ev); [lia|].
    exists j, v. rewrite Em, Ev. split; [by eapply lookup_lt_Some|done].
Qed.

(** A refused request is taken back. *)
Lemma not_avail_inv extension m lock pl :
  lock_inv extension [m] [] lock → stuck lock → m ∈ modes → pl ∈ procLocks lock →
  holds pl m = false → myProc pl ∉ pgprocno <$> waitProcs lock →
  let l := if holdMask pl =? 0 then remove_proclock (myProc pl) (procLocks lock)
           else procLocks lock in
  let lock' := mkLock (grantMask lock) (waitMask lock) l (waitProcs lock) (nRequested lock - 1)
    (upd (requested lock) m (requested lock m - 1)) (nGranted lock) (granted lock) in
  lock_ok extension lock' ∧ stuck lock' ∧ ∀ p i, held lock p i ↔ held lock' p i.
Proof.
  intros Hinv Hst Hm Hpl Hh Hnw l lock'.
  assert (lock_ok extension (with_procLocks lock' (procLocks lock))) as Hok.
  { apply (withdraw_inv extension [] m lock (waitMask lock)); [done|done|apply Hinv|]. intros i Hi Hb.
    pose proof (inv_waitMask_clear _ _ _ _ Hinv i Hi Hb) as H. cbn in H. lia. }
  assert (lock_ok extension lock' ∧ ∀ p i, held lock p i ↔ held lock' p i) as [Hok' Hh'].
  { unfold lock', l. destruct (Z.eqb_spec (holdMask pl) 0) as [E|E]; [|done]. split.
    - by apply (remove_proclock_inv extension [] [] (with_procLocks lock' (procLocks lock))).
    - intros p i. apply (remove_proclock_held lock); try done. apply Hinv. }
  split; [done|]. split; [|done]. intros k w Hk. cbn in Hk |- *.
  destruct (Hst k w Hk) as [(p & i & ? & ?)|?]; [left|by right]. exists p, i. by rewrite <- Hh'.
Qed.

Lemma LockAcquire_spec extension MyProc m dontWait lock :
  lock_ok extension lock → stuck lock → m ∈ modes →
  pgprocno MyProc ∉ pgprocno <$> waitProcs lock → ¬ held lock (pgprocno MyProc) m →
  ∃ r lock', LockAcquireExtended extension MyProc m dontWait lock = Ok (r, lock') ∧
    acquired extension MyProc m lock lock' r.
Proof.
  intros Hok Hst Hm Hnw Hnh. unfold LockAcquireExtended.
  destruct (SetupLockInTable_spec extension MyProc m lock Hok Hm Hnh)
    as (pl & lock1 & -> & Hinv & Hpl & Hp & Hh & Hheld & Hw & _). cbn [mbind outcome_bind].
  assert (stuck lock1) as Hst1.
  { intros k w. rewrite Hw. intros Hk. destruct (Hst k w Hk) as [(p & i & ? & ?)|?]; [left|by right].
    exists p, i. by rewrite Hheld. }
  set (me := mkProc (pgprocno MyProc) (rank MyProc) (nDep MyProc) (holdMask pl)
               (waitLockMode MyProc) (lockGroupLeader MyProc)).
  destruct (found_conflict_spec extension MyProc m lock1 pl (as_waiter me m) Hinv Hm Hpl)
    as (b & -> & Hgr & Hbl); [done..|]. cbn [mbind outcome_bind].
  assert (myProc pl ∉ pgprocno <$> waitProcs lock1) as Hnw1 by by rewrite Hp, Hw.
  destruct b; cbn [negb].
  - destruct (dontWait || _).
    + do 2 eexists. split; [done|]. rewrite <- Hp.
      destruct (not_avail_inv extension m lock1 pl Hinv Hst1 Hm Hpl Hh Hnw1) as (H1 & H2 & H3).
      constructor; [done|done| | |].
      * intros. by apply H3, Hheld.
      * split; [|done]. intros Hx. by apply H3, Hheld in Hx.
      * intros w Hww. left. cbn. rewrite Hw. by apply list_elem_of_fmap_2.
    + destruct (ProcSleep_spec extension me m lock1 pl) as (st & lock' & -> & Ha);
        [done|done|done|done|done|done|by rewrite Hw|by apply Hbl|]. cbn [mbind outcome_bind].
      exists (result_of st), lock'. split; [by destruct st|]. destruct Ha as [H1 H2 H3 H4 H5].
      rewrite Hw in H4, H5. constructor; [done|done| |done|done]. intros. by apply H3, Hheld.
  - do 2 eexists. split; [done|]. rewrite <- Hp. constructor.
    + by apply (GrantLock_inv extension [] m lock1 pl); try done; [set_solver|apply Hgr].
    + intros k w Hk. cbn in Hk |- *. rewrite <- (app_nil_r (waitProcs lock1)).
      apply (blocked_mono lock1); [intros; by apply GrantLock_held|by apply Hst1|].
      apply lookup_lt_Some in Hk. lia.
    + intros. by apply GrantLock_held, Hheld.
    + cbn. rewrite Hw, <- Hp. split; [|done]. by apply GrantLock_holds.
    + intros w Hww. left. cbn. rewrite Hw. by apply list_elem_of_fmap_2.
Qed.

(** ** Runs of the lock manager

    A process asks only when it is not waiting and does not hold the mode
    already ([LockAcquireExtended] then only counts in the backend's own table),
    and releases only when it is not waiting; [may] restricts who asks. A waiter leaves the queue by being
    woken or by [RemoveFromWaitQueue] (deadlock, cancel, timeout). *)
Inductive lock_step (extension : bool) (may : LOCK → PGPROC → Prop) : LOCK → LOCK → Prop :=
| step_acquire MyProc m dontWait lock r lock' :
    may lock MyProc →
    m ∈ modes → pgprocno MyProc ∉ pgprocno <$> waitProcs lock → ¬ held lock (pgprocno MyProc) m →
    LockAcquireExtended extension MyProc m dontWait lock = Ok (r, lock') →
    lock_step extension may lock lock'
| step_release MyProc m lock b lock' :
    m ∈ modes → pgprocno MyProc ∉ pgprocno <$> waitProcs lock →
    LockRelease extension MyProc m lock = Ok (b, lock') →
    lock_step extension may lock lock'
| step_cancel MyProc w lock lock' :
    w ∈ waitProcs lock → RemoveFromWaitQueue extension MyProc w lock = Ok lock' →
    lock_step extension may lock lock'.

Lemma LockRelease_not_held extension MyProc m lock b lock' :
  NoDup (myProc <$> procLocks lock) → ¬ held lock (pgprocno MyProc) m →
  LockRelease extension MyProc m lock = Ok (b, lock') → b = false ∧ lock' = lock.
Proof.
  unfold LockRelease. intros Hnd Hnh.
  destruct (find_proclock (pgprocno MyProc) lock) as [pl|] eqn:Ef; [|done].
  apply find_proclock_Some in Ef as [Hpl Hp].
  destruct (Z.testbit (holdMask pl) m) eqn:E; cbn [negb]; [|by intros [= <- <-]].
  destruct Hnh. by exists pl.
Qed.

Lemma held_dec lock p m : Decision (held lock p m).
Proof.
  destruct (decide (Exists (λ pl, myProc pl = p ∧ holds pl m = true) (procLocks lock))) as [H|H].
  - left. apply Exists_exists in H as (pl & ? & ?). by exists pl.
  - right. intros (pl & ? & ?). apply H, Exists_exists. by exists pl.
Qed.

Lemma lock_step_inv extension may lock lock' :
  lock_step extension may lock lock' → lock_ok extension lock → stuck lock →
  lock_ok extension lock' ∧ stuck lock'.
Proof.
  intros Hs Hok Hst. destruct Hs as [MyProc m dw lock r lock' _ Hm Hnw Hnh E|MyProc m lock b lock' Hm Hnw E
    |MyProc w lock lock' Hw E].
  - destruct (LockAcquire_spec extension MyProc m dw lock) as (r' & l' & E' & []); try done.
    rewrite E in E'. by injection E' as -> ->.
  - destruct (held_dec lock (pgprocno MyProc) m) as [Hh|Hh].
    + destruct (LockRelease_spec extension MyProc m lock) as (l' & E' & []); try done.
      rewrite E in E'. by injection E' as -> ->.
    + destruct (LockRelease_not_held _ _ _ _ _ _ (inv_procs _ _ _ _ Hok) Hh E) as [_ ->]. done.
  - apply list_elem_of_split in Hw as (a & b & Eq).
    destruct (RemoveFromWaitQueue_spec extension MyProc w lock a b Hok Eq) as (l' & E' & [] & ?).
    rewrite E in E'. by injection E' as ->.
Qed.

Lemma lock_reachable_inv extension may lock :
  rtc (lock_step extension may) new_lock lock → lock_ok extension lock ∧ stuck lock.
Proof.
  destruct (new_lock_ok extension) as [H1 H2]. revert H1 H2. generalize new_lock.
  intros l0 H1 H2 Hr. induction Hr as [l|x y z Hs _ IH]; [done|].
  destruct (lock_step_inv _ _ _ _ Hs H1 H2). by apply IH.
Qed.

(** ** Rank order *)

Definition rank_le (a b : PGPROC) : Prop := (rank a <= rank b)%Q.

Lemma rank_gt_spec a b : rank_gt a b = true ↔ (b < a)%Q.
Proof.
  unfold rank_gt. rewrite negb_true_iff. split.
  - intros H. apply Qnot_le_lt. intros Hle. apply Qle_bool_iff in Hle. congruence.
  - intros H. destruct (Qle_bool a b) eqn:E; [|done]. apply Qle_bool_iff in E.
    by apply Qlt_not_le in H.
Qed.

(** Without locks held, the scan stops at the first waiter of a higher rank. *)
Lemma sleep_scan_rank extension MyProc m pl lock queue : ∀ passed ahead place q,
  sleep_scan extension MyProc 0 m pl lock queue passed ahead = Ok (place, q) →
  Forall (λ w, (rank w <= rank MyProc)%Q) passed →
  rank <$> q = rank <$> passed ++ queue ∧
  match place with
  | PTail => Forall (λ w, (rank w <= rank MyProc)%Q) q
  | PDeadlock => False
  | _ => ∃ n' w, q !! n' = Some w ∧ (rank MyProc < rank w)%Q ∧
      Forall (λ w, (rank w <= rank MyProc)%Q) (take n' q) ∧ (place = PGranted ∨ place = PBefore n')
  end.
Proof.
  induction queue as [|w queue IH]; intros passed ahead place q; cbn [sleep_scan].
  { intros [= <- <-] ?. by rewrite app_nil_r. }
  set (w' := count_dep m w). cbn [Z.eqb negb andb orb].
  assert (rank w' = rank w) as Hr by apply count_dep_rank.
  assert (rank <$> passed ++ w' :: queue = rank <$> passed ++ w :: queue) as Hk.
  { rewrite !fmap_app, !fmap_cons. by rewrite Hr. }
  destruct (rank_gt (rank w) (rank MyProc)) eqn:Eg; cbn [orb].
  - intros Hs Hp. apply rank_gt_spec in Eg.
    assert (q = passed ++ w' :: queue ∧ (place = PGranted ∨ place = PBefore (length passed))) as [-> Hpl].
    { destruct (if _ =? _ then _ else Ok true) as [[]| |]; cbn in Hs; try done;
        injection Hs as <- <-; auto. }
    split; [done|].
    assert (∃ n' w0, (passed ++ w' :: queue) !! n' = Some w0 ∧ (rank MyProc < rank w0)%Q ∧
      Forall (λ w, (rank w <= rank MyProc)%Q) (take n' (passed ++ w' :: queue)) ∧
      (place = PGranted ∨ place = PBefore n')) as Hex.
    { exists (length passed), w'. rewrite take_app_length, Hr. split_and!; try done.
      by apply list_lookup_middle. }
    destruct Hpl; by subst.
  - intros Hs Hp. destruct (IH _ _ _ _ Hs) as [Hq Hm].
    { apply Forall_app. split; [done|]. apply Forall_singleton. rewrite Hr.
      apply Qnot_lt_le. intros Hlt. apply rank_gt_spec in Hlt. congruence. }
    split; [|done]. rewrite Hq, <- Hk. by rewrite <- app_assoc.
Qed.

Lemma sorted_insert (q : list PGPROC) me n :
  StronglySorted rank_le q → Forall (λ w, (rank w <= rank me)%Q) (take n q) →
  Forall (λ w, (rank me <= rank w)%Q) (drop n q) →
  StronglySorted rank_le (take n q ++ me :: drop n q).
Proof.
  revert n. induction q as [|w q IH]; intros n Hs Ht Hd.
  { rewrite take_nil, drop_nil. repeat constructor. }
  apply StronglySorted_inv in Hs as [Hs Hw]. destruct n as [|n].
  { rewrite take_0, drop_0 in *. constructor; [by constructor|]. exact Hd. }
  cbn in *. apply Forall_cons in Ht as [Hwm Ht]. constructor; [by apply IH|].
  rewrite <- (take_drop n q) in Hw. apply Forall_app in Hw as [? ?]. apply Forall_app. by split; [|constructor].
Qed.

Lemma sorted_rank (q q' : list PGPROC) :
  rank <$> q = rank <$> q' → StronglySorted rank_le q' → StronglySorted rank_le q.
Proof.
  revert q'. induction q as [|w q IH]; intros [|w' q']; try done.
  rewrite !fmap_cons. intros [= Hr Hq] [Hs Hw]%StronglySorted_inv. constructor; [by eapply IH|].
  unfold rank_le in *. rewrite Hr.
  assert (Forall (λ r, (rank w' <= r)%Q) (rank <$> q)) as H by by rewrite Hq, Forall_fmap.
  by rewrite Forall_fmap in H.
Qed.

Lemma sorted_sublist (q q' : list PGPROC) :
  q `sublist_of` q' → StronglySorted rank_le q' → StronglySorted rank_le q.
Proof.
  induction 1 as [|x l k Hs IH|x l k Hs IH]; [done|intros [H1 H2]%StronglySorted_inv..]; [|auto].
  constructor; [auto|]. rewrite Forall_forall in *. intros y Hy. apply H2. by eapply elem_of_sublist.
Qed.

Lemma sorted_from (q : list PGPROC) n w :
  StronglySorted rank_le q → q !! n = Some w → Forall (rank_le w) (drop n q).
Proof.
  revert n. induction q as [|x q IH]; intros [|n] Hs; try done.
  - intros [= ->]. apply StronglySorted_inv in Hs as [_ H]. cbn. constructor; [apply Qle_refl|done].
  - cbn. apply StronglySorted_inv in Hs as [Hs _]. by apply IH.
Qed.

(** A requester that holds nothing on the object and is in no lock group. *)
Definition fresh_requester (lock : LOCK) (MyProc : PGPROC) : Prop :=
  lockGroupLeader MyProc = None ∧
  ∀ pl, pl ∈ procLocks lock → myProc pl = pgprocno MyProc → holdMask pl = 0.

Lemma ProcSleep_sorted extension MyProc m lock pl st lock' :
  heldLocks MyProc = 0 → lockGroupLeader MyProc = None →
  StronglySorted rank_le (waitProcs lock) →
  ProcSleep extension MyProc m pl lock = Ok (st, lock') →
  StronglySorted rank_le (waitProcs lock') ∧
  (st = Waiting → ∃ a b, waitProcs lock' = a ++ as_waiter MyProc m :: b ∧
     rank <$> a ++ b = rank <$> waitProcs lock ∧
     Forall (λ w, (rank w <= rank MyProc)%Q) a ∧ Forall (λ w, (rank MyProc < rank w)%Q) b).
Proof.
  intros Hl Hg Hs. unfold ProcSleep. fold (as_waiter MyProc m).
  assert (group_held MyProc lock = 0) as -> by (unfold group_held; by rewrite Hg).
  destruct (sleep_scan _ _ _ _ _ _ _ _ _) as [[place q]| |] eqn:E; cbn [mbind outcome_bind]; try done.
  destruct (sleep_scan_rank _ _ _ _ _ _ _ _ _ _ E) as [Hq Hp]; [done|]. cbn [app] in Hq.
  pose proof (sorted_rank _ _ Hq Hs) as Hsq.
  destruct place as [|n| |]; [|destruct Hp as (n' & w & Hw & Hlt & Ht & [?|[= <-]]); [done|]| |done].
  - by intros [= <- <-].
  - intros [= <- <-]. cbn [waitProcs].
    assert (Forall (λ w, (rank MyProc < rank w)%Q) (drop n q)) as Hd.
    { eapply Forall_impl; [exact (sorted_from q n w Hsq Hw)|]. intros x Hx. by eapply Qlt_le_trans. }
    split.
    + apply sorted_insert; [done|done|]. eapply Forall_impl; [exact Hd|]. intros. by apply Qlt_le_weak.
    + intros _. exists (take n q), (drop n q). cbn [with_waitProcs waitProcs]. rewrite take_drop. by split_and!.
  - intros [= <- <-]. cbn [waitProcs]. rewrite <- (app_nil_r q) in Hsq |- *.
    pose proof (sorted_insert q (as_waiter MyProc m) (length q)) as Hi.
    rewrite take_ge, drop_ge in Hi by done. rewrite app_nil_r in *. split; [by apply Hi|].
    intros _. exists q, []. by rewrite app_nil_r.
Qed.

Lemma LockAcquire_sorted extension MyProc m dontWait lock r lock' :
  fresh_requester lock MyProc → StronglySorted rank_le (waitProcs lock) →
  LockAcquireExtended extension MyProc m dontWait lock = Ok (r, lock') →
  StronglySorted rank_le (waitProcs lock') ∧
  (r = RequestWaiting → ∃ a w b, waitProcs lock' = a ++ w :: b ∧
     waiter_key w = (pgprocno MyProc, m) ∧ rank <$> a ++ b = rank <$> waitProcs lock ∧
     Forall (λ v, (rank v <= rank MyProc)%Q) a ∧ Forall (λ v, (rank MyProc < rank v)%Q) b).
Proof.
  intros [Hg Hf] Hs. unfold LockAcquireExtended.
  destruct (SetupLockInTable MyProc m lock) as [o lock1] eqn:Es.
  assert (waitProcs lock1 = waitProcs lock ∧ ∀ pl, o = Ok pl → holdMask pl = 0) as [Hw Hz].
  { unfold SetupLockInTable in Es.
    destruct (find_proclock (pgprocno MyProc) lock) as [pl|] eqn:Ef.
    - apply find_proclock_Some in Ef as [Hpl Hp]. specialize (Hf pl Hpl Hp).
      rewrite Hf, Z.bits_0 in Es. injection Es as <- <-. split; [done|]. by intros ? [= <-].
    - cbn [holdMask] in Es. rewrite Z.bits_0 in Es. injection Es as <- <-. split; [done|].
      by intros ? [= <-]. }
  destruct o as [pl| |]; cbn [mbind outcome_bind]; try done. specialize (Hz pl eq_refl).
  destruct (if negb _ then Ok true else _) as [c| |]; cbn [mbind outcome_bind]; try done.
  destruct c; cbn [negb]; [|intros [= <- <-]; cbn; by rewrite Hw].
  destruct (dontWait || _); [intros [= <- <-]; cbn; by rewrite Hw|].
  destruct (ProcSleep _ _ _ _ _) as [[st l']| |] eqn:Ep; cbn [mbind outcome_bind]; try done.
  apply ProcSleep_sorted in Ep as [Hsort Hplace]; [|done|done|by rewrite Hw]. rewrite Hw in Hplace.
  destruct st; intros [= <- <-]; (split; [done|]); try done.
  intros _. destruct (Hplace eq_refl) as (a & b & ? & ? & ? & ?). by eexists a, _, b.
Qed.

Lemma lock_step_sorted extension lock lock' :
  lock_step extension fresh_requester lock lock' → lock_ok extension lock → stuck lock →
  StronglySorted rank_le (waitProcs lock) → StronglySorted rank_le (waitProcs lock').
Proof.
  intros Hs Hok Hst Hsort. destruct Hs as [MyProc m dw lock r lock' Hf Hm Hnw Hnh E
    |MyProc m lock b lock' Hm Hnw E|MyProc w lock lock' Hw E].
  - by apply LockAcquire_sorted in E as [? _].
  - destruct (held_dec lock (pgprocno MyProc) m) as [Hh|Hh].
    + destruct (LockRelease_spec extension MyProc m lock) as (l' & E' & []); try done.
      rewrite E in E'. injection E' as -> ->. by eapply sorted_sublist.
    + by destruct (LockRelease_not_held _ _ _ _ _ _ (inv_procs _ _ _ _ Hok) Hh E) as [_ ->].
  - apply list_elem_of_split in Hw as (a & b & Eq).
    destruct (RemoveFromWaitQueue_spec extension MyProc w lock a b Hok Eq) as (l' & E' & Hc & _).
    rewrite E in E'. injection E' as ->. destruct Hc as [_ _ _ _ Hsub]. cbn in Hsub.
    eapply sorted_sublist; [exact Hsub|]. eapply sorted_sublist; [|exact Hsort]. rewrite Eq.
    apply sublist_app; [done|]. by constructor.
Qed.

(** ** The properties *)

Section Runs.

Context (extension : bool).

(** Mutual exclusion and no lost wakeup: after any sequence of requests,
    releases and cancellations, rival proclocks never hold conflicting modes,
    and every process in the wait queue is there because another process holds
    a mode that conflicts with its request or an earlier waiter requests one. *)
Theorem lock_manager_safe (may : LOCK → PGPROC → Prop) (lock : LOCK) :
  rtc (lock_step extension may) new_lock lock →
  (∀ a b m1 m2, a ∈ procLocks lock → b ∈ procLocks lock → rivals extension a b →
     m1 ∈ modes → m2 ∈ modes → holds a m1 = true → holds b m2 = true →
     Z.testbit (LockConflicts m1) m2 = false) ∧
  (∀ k w, waitProcs lock !! k = Some w → blocked lock (waitProcs lock) k w).
Proof.
  intros [Hok Hst]%lock_reachable_inv. split; [|done].
  intros a b m1 m2 Ha Hb Hr H1 H2. by apply (inv_exclusive _ _ _ _ Hok a b).
Qed.

(** A request by a process that is neither waiting nor already holding the
    mode always returns (the PANIC of the conflict check is unreachable), no
    process loses a mode, and the result tells what happened: granted, queued
    once, refused or found to deadlock with nothing left behind. *)
Theorem LockAcquire_outcome (may : LOCK → PGPROC → Prop) (MyProc : PGPROC) (m : Z)
    (dontWait : bool) (lock : LOCK) :
  rtc (lock_step extension may) new_lock lock → m ∈ modes →
  pgprocno MyProc ∉ pgprocno <$> waitProcs lock → ¬ held lock (pgprocno MyProc) m →
  ∃ r lock', LockAcquireExtended extension MyProc m dontWait lock = Ok (r, lock') ∧
    acquired extension MyProc m lock lock' r.
Proof. intros [Hok Hst]%lock_reachable_inv ???. by apply LockAcquire_spec. Qed.

(** A release by a holder succeeds: it gives up exactly that mode, every
    other mode stays held, each waiter is granted its mode or keeps its place,
    and who still waits is still blocked. *)
Theorem LockRelease_outcome (may : LOCK → PGPROC → Prop) (MyProc : PGPROC) (m : Z) (lock : LOCK) :
  rtc (lock_step extension may) new_lock lock → m ∈ modes →
  pgprocno MyProc ∉ pgprocno <$> waitProcs lock → held lock (pgprocno MyProc) m →
  ∃ lock', LockRelease extension MyProc m lock = Ok (true, lock') ∧
    released extension (pgprocno MyProc) m lock lock'.
Proof. intros [Hok Hst]%lock_reachable_inv ???. by apply LockRelease_spec. Qed.

(** Waiting by priority: as long as requesters hold nothing on the object,
    the wait queue is ordered by rank, and a new waiter stands behind exactly
    the waiters whose rank is not above its own, so equal ranks are served in
    the order of arrival. *)
Theorem wait_queue_by_rank (lock : LOCK) (MyProc : PGPROC) (m : Z) (lock' : LOCK) :
  rtc (lock_step extension fresh_requester) new_lock lock → fresh_requester lock MyProc →
  LockAcquireExtended extension MyProc m false lock = Ok (RequestWaiting, lock') →
  StronglySorted rank_le (waitProcs lock') ∧
  ∃ a w b, waitProcs lock' = a ++ w :: b ∧ waiter_key w = (pgprocno MyProc, m) ∧
    rank <$> a ++ b = rank <$> waitProcs lock ∧
    Forall (λ v, (rank v <= rank MyProc)%Q) a ∧ Forall (λ v, (rank MyProc < rank v)%Q) b.
Proof.
  intros Hr Hf Ha.
  assert (StronglySorted rank_le (waitProcs lock)) as Hs.
  { destruct (new_lock_ok extension) as [H1 H2].
    assert (StronglySorted rank_le (waitProcs new_lock)) as H3 by constructor.
    clear -Hr H1 H2 H3. induction Hr as [|x y z Hs _ IH]; [done|].
    destruct (lock_step_inv _ _ _ _ Hs H1 H2). apply IH; [done..|]. by eapply lock_step_sorted. }
  destruct (LockAcquire_sorted _ _ _ _ _ _ _ Hf Hs Ha) as [? H]. split; [done|]. by apply H.
Qed.

(** A process of rank above 9.8 never waits and never deadlocks, also when
    it asked to wait: it gets the mode at once or is refused, and then it does
    not hold it. *)
Theorem high_rank_never_waits (may : LOCK → PGPROC → Prop) (MyProc : PGPROC) (m : Z) (lock : LOCK) :
  rtc (lock_step extension may) new_lock lock → m ∈ modes →
  pgprocno MyProc ∉ pgprocno <$> waitProcs lock → ¬ held lock (pgprocno MyProc) m →
  (98 # 10 < rank MyProc)%Q →
  ∃ lock',
    (LockAcquireExtended extension MyProc m false lock = Ok (LOCKACQUIRE_OK, lock') ∧
     held lock' (pgprocno MyProc) m) ∨
    (LockAcquireExtended extension MyProc m false lock = Ok (LOCKACQUIRE_NOT_AVAIL, lock') ∧
     ¬ held lock' (pgprocno MyProc) m ∧ waitProcs lock' = waitProcs lock).
Proof.
  intros [Hok Hst]%lock_reachable_inv Hm Hnw Hnh Hr.
  destruct (LockAcquire_spec extension MyProc m false lock Hok Hst Hm Hnw Hnh) as (r & lock' & E & [_ _ _ H]).
  exists lock'. rewrite E. revert E. unfold LockAcquireExtended.
  destruct (SetupLockInTable MyProc m lock) as [[pl| |] lock1]; cbn [mbind outcome_bind]; try done.
  destruct (if negb _ then Ok true else _) as [[]| |]; cbn [mbind outcome_bind negb]; try done.
  - apply rank_gt_spec in Hr. fold MAX_WAIT_RANK in Hr. rewrite Hr. cbn [orb].
    intros [= <- _]. right. tauto.
  - intros [= <- _]. left. tauto.
Qed.

End Runs.

(** The dependency counts miss dependencies: the scan tests the conflict
    mask of a waiter against the requested mode's number and not against its
    bit, so that a waiter for [ShareLock] is not counted when [ExclusiveLock]
    is requested, although the two conflict. *)
Theorem nDep_misses_dependency p r n h g :
  Z.testbit (LockConflicts ShareLock) ExclusiveLock = true ∧
  count_dep ExclusiveLock (mkProc p r n h ShareLock g) = mkProc p r n h ShareLock g.
Proof. by split. Qed.

(** ** Witnesses *)

Definition demo_proc (p : nat) (r : Q) : PGPROC := mkProc p r 0 0 0 None.

Definition acquire_or_stay (MyProc : PGPROC) (m : Z) (lock : LOCK) : LOCK :=
  match LockAcquireExtended false MyProc m false lock with Ok (_, lock) => lock | _ => lock end.

(** Process 1 holds the exclusive lock and process 2 waits for it. *)
Definition demo_held : LOCK := acquire_or_stay (demo_proc 1 (5 # 1)) ExclusiveLock new_lock.
Definition demo_wait : LOCK := acquire_or_stay (demo_proc 2 (5 # 1)) ExclusiveLock demo_held.

Definition can_ask (MyProc : PGPROC) (m : Z) (lock : LOCK) : bool :=
  forallb (λ w, negb (Nat.eqb (pgprocno w) (pgprocno MyProc))) (waitProcs lock) &&
  forallb (λ pl, negb (Nat.eqb (myProc pl) (pgprocno MyProc) && holds pl m)) (procLocks lock).

Lemma can_ask_spec MyProc m lock : can_ask MyProc m lock = true →
  pgprocno MyProc ∉ pgprocno <$> waitProcs lock ∧ ¬ held lock (pgprocno MyProc) m.
Proof.
  unfold can_ask. rewrite andb_true_iff, !forallb_forall. intros [H1 H2]. split.
  - intros (w & E & Hw)%list_elem_of_fmap. apply list_elem_of_In in Hw. specialize (H1 w Hw).
    by rewrite E, Nat.eqb_refl in H1.
  - intros (pl & Hpl & Hp & Hh). apply list_elem_of_In in Hpl. specialize (H2 pl Hpl).
    by rewrite Hp, Hh, Nat.eqb_refl in H2.
Qed.

Lemma fresh_check lock MyProc :
  lockGroupLeader MyProc = None →
  forallb (λ pl, negb (Nat.eqb (myProc pl) (pgprocno MyProc)) || (holdMask pl =? 0)) (procLocks lock) = true →
  fresh_requester lock MyProc.
Proof.
  intros Hg H. split; [done|]. rewrite forallb_forall in H. intros pl Hpl%list_elem_of_In E.
  specialize (H pl Hpl). rewrite E, Nat.eqb_refl in H. by apply Z.eqb_eq.
Qed.

Lemma demo_step may MyProc m lock r :
  may lock MyProc → m ∈ modes → can_ask MyProc m lock = true →
  LockAcquireExtended false MyProc m false lock = Ok (r, acquire_or_stay MyProc m lock) →
  lock_step false may lock (acquire_or_stay MyProc m lock).
Proof. intros H1 H2 [H3 H4]%can_ask_spec H5. by eapply step_acquire. Qed.

Lemma demo_reachable :
  rtc (lock_step false fresh_requester) new_lock demo_held ∧
  rtc (lock_step false fresh_requester) new_lock demo_wait.
Proof.
  assert (lock_step false fresh_requester new_lock demo_held) as H1.
  { apply (demo_step _ _ _ _ LOCKACQUIRE_OK); [by apply fresh_check|set_solver|done|done]. }
  split; [by apply rtc_once|]. eapply rtc_l; [exact H1|]. apply rtc_once.
  apply (demo_step _ _ _ _ RequestWaiting); [by apply fresh_check|set_solver|done|done].
Qed.

Lemma lock_manager_safe_witness :
  length (waitProcs demo_wait) = 1%nat ∧ length (procLocks demo_wait) = 2%nat ∧
  (∀ k w, waitProcs demo_wait !! k = Some w → blocked demo_wait (waitProcs demo_wait) k w).
Proof.
  split; [done|]. split; [done|].
  exact (proj2 (lock_manager_safe false fresh_requester demo_wait (proj2 demo_reachable))).
Defined.

Lemma exclusive_in_modes : ExclusiveLock ∈ modes.
Proof. set_solver. Qed.

Lemma LockAcquire_outcome_witness :
  ∃ r lock', LockAcquireExtended false (demo_proc 3 (1 # 1)) ExclusiveLock false demo_wait = Ok (r, lock') ∧
    acquired false (demo_proc 3 (1 # 1)) ExclusiveLock demo_wait lock' r.
Proof.
  destruct (can_ask_spec (demo_proc 3 (1 # 1)) ExclusiveLock demo_wait eq_refl) as [H1 H2].
  exact (LockAcquire_outcome false fresh_requester _ _ false demo_wait (proj2 demo_reachable)
    exclusive_in_modes H1 H2).
Defined.

Lemma LockRelease_outcome_witness :
  ∃ lock', LockRelease false (demo_proc 1 (5 # 1)) ExclusiveLock demo_wait = Ok (true, lock') ∧
    released false 1 ExclusiveLock demo_wait lock'.
Proof.
  apply (LockRelease_outcome false fresh_requester (demo_proc 1 (5 # 1)) ExclusiveLock demo_wait
    (proj2 demo_reachable) exclusive_in_modes).
  - vm_compute. set_solver.
  - eexists. split; [vm_compute; left|]. by split.
Defined.

Lemma wait_queue_by_rank_witness :
  ∃ lock', LockAcquireExtended false (demo_proc 3 (1 # 1)) ExclusiveLock false demo_wait =
    Ok (RequestWaiting, lock') ∧
  pgprocno <$> waitProcs lock' = [3%nat; 2%nat] ∧ StronglySorted rank_le (waitProcs lock').
Proof.
  exists (acquire_or_stay (demo_proc 3 (1 # 1)) ExclusiveLock demo_wait).
  split; [reflexivity|]. split; [reflexivity|].
  apply (wait_queue_by_rank false demo_wait (demo_proc 3 (1 # 1)) ExclusiveLock).
  - exact (proj2 demo_reachable).
  - by apply fresh_check.
  - reflexivity.
Defined.

Lemma high_rank_never_waits_witness :
  can_ask (demo_proc 3 (99 # 10)) ExclusiveLock demo_held = true ∧
  ∃ lock',
    (LockAcquireExtended false (demo_proc 3 (99 # 10)) ExclusiveLock false demo_held = Ok (LOCKACQUIRE_OK, lock') ∧
     held lock' 3 ExclusiveLock) ∨
    (LockAcquireExtended false (demo_proc 3 (99 # 10)) ExclusiveLock false demo_held =
       Ok (LOCKACQUIRE_NOT_AVAIL, lock') ∧
     ¬ held lock' 3 ExclusiveLock ∧ waitProcs lock' = waitProcs demo_held).
Proof.
  split; [reflexivity|].
  destruct (can_ask_spec (demo_proc 3 (99 # 10)) ExclusiveLock demo_held eq_refl) as [H1 H2].
  exact (high_rank_never_waits false fresh_requester (demo_proc 3 (99 # 10)) ExclusiveLock demo_held
    (proj1 demo_reachable) exclusive_in_modes H1 H2 ltac:(reflexivity)).
Defined.
