(* ===== verification/LockFrame.v ===== *)
(** * What a change of a lock object can bring in

    The operations of [Lock] on one lock object add no process, group, held mode or
    waiter but those of the requester and of the waiters: a bound on what is in the
    object before is a bound on what is in it afterwards. *)
From S2P Require Import Prelude Lock.
From Stdlib Require Import ZArith Lia QArith.
From stdpp Require Import base sets strings numbers list.

Open Scope Z_scope.

(** [P] bounds the processes with their groups, [H] the modes they hold, [W] the
    waiters: process, group and mode. *)
Record within (P : nat → nat → Prop) (H : nat → Z → Prop) (W : nat → option nat → Z → Prop) (lock : LOCK)
    : Prop := mkWithin {
  wi_procs : ∀ pl, pl ∈ procLocks lock → P (myProc pl) (groupLeader pl);
  wi_held : ∀ pl m, pl ∈ procLocks lock → holds pl m = true → H (myProc pl) m;
  wi_waiters : ∀ w, w ∈ waitProcs lock → W (pgprocno w) (lockGroupLeader w) (waitLockMode w)
}.

Lemma within_held P H W lock p m : within P H W lock → held lock p m → H p m.
Proof. intros [_ Hh _] (pl & Hpl & <- & Hm). by apply Hh. Qed.

Section within.
Context (P : nat → nat → Prop) (H : nat → Z → Prop) (W : nat → option nat → Z → Prop).
(** A waiter may get what it waits for. *)
Context (HW : ∀ p g m, W p g m → H p m ∧ m ∈ modes).

Lemma set_holdMask_within f p lock :
  within P H W lock →
  (∀ pl m, pl ∈ procLocks lock → myProc pl = p → Z.testbit (f (holdMask pl)) m = true →
     holds pl m = true ∨ H p m) →
  within P H W (with_procLocks lock (set_holdMask p f (procLocks lock))).
Proof.
  intros [H1 H2 H3] Hf. constructor; [| |done].
  - intros pl (x & Hx & ->)%elem_of_set_holdMask. destruct (decide _); by apply (H1 x).
  - intros pl m (x & Hx & ->)%elem_of_set_holdMask. destruct (decide (myProc x = p)) as [E|]; [|by apply H2].
    unfold holds at 1. cbn. intros [Hm|Hm]%(Hf x m Hx E); [by apply H2|by rewrite E].
Qed.

Lemma grant_within lock p m : within P H W lock → H p m → m ∈ modes → within P H W (GrantLock lock p m).
Proof.
  intros Hl Hh Hm. destruct (set_holdMask_within (λ x, Z.lor x (LOCKBIT_ON m)) p lock Hl) as [H1 H2 H3].
  - intros pl i Hpl E. rewrite bit_set by done. intros [?|<-%Z.eqb_eq]%orb_true_iff; [by left|by right].
  - by constructor.
Qed.

Lemma ungrant_within lock p m : within P H W lock → within P H W (UnGrantLock lock m p).1.
Proof.
  intros Hl. destruct (set_holdMask_within (λ x, Z.land x (LOCKBIT_OFF m)) p lock Hl) as [H1 H2 H3].
  - intros pl i Hpl E. rewrite Z.land_spec. intros [? _]%andb_true_iff. by left.
  - by constructor.
Qed.

Lemma wakeup_within extension MyProc queue kept ar lock lock' :
  within P H W lock → (∀ w, w ∈ kept ++ queue → W (pgprocno w) (lockGroupLeader w) (waitLockMode w)) →
  wakeup_loop extension MyProc queue kept ar lock = Ok lock' → within P H W lock'.
Proof.
  revert kept ar lock. induction queue as [|x queue IH]; intros kept ar lock Hl Hk; cbn [wakeup_loop].
  { intros [= <-]. rewrite app_nil_r in Hk. destruct Hl. by constructor. }
  destruct (find_proclock _ _); [|done].
  destruct (if _ =? 0 then _ else Ok true) as [[]| |]; cbn [mbind outcome_bind]; try done.
  - apply IH; [done|]. by rewrite <- app_assoc.
  - destruct (HW _ _ _ (Hk x ltac:(set_solver))) as [Hx Hm]. apply IH.
    + destruct (grant_within lock (pgprocno x) (waitLockMode x) Hl Hx Hm) as [H1 H2 _]. constructor; [done..|].
      intros w Hw. apply Hk. set_solver.
    + intros w Hw. apply Hk. set_solver.
Qed.

Lemma cleanup_within extension MyProc lock p wk lock' : within P H W lock →
  CleanUpLock extension MyProc lock p wk = Ok lock' → within P H W lock'.
Proof.
  intros Hl. unfold CleanUpLock.
  set (lock1 := match find_proclock p lock with Some _ => _ | None => lock end).
  assert (within P H W lock1) as Hl1.
  { unfold lock1. destruct (find_proclock p lock); [|done]. destruct (_ =? 0); [|done].
    destruct Hl as [H1 H2 H3]. constructor; [| |done]; intros pl; cbn; unfold remove_proclock.
    - intros [_ Hpl]%list_elem_of_filter. by apply H1.
    - intros m [_ Hpl]%list_elem_of_filter. by apply H2. }
  destruct (_ =? 0).
  { intros [= <-]. constructor; [by intros ? ?%not_elem_of_nil|by intros ? ? ?%not_elem_of_nil|by intros ? ?%not_elem_of_nil]. }
  destruct wk; [|by intros [= <-]]. apply wakeup_within; [done|]. apply Hl1.
Qed.

Lemma remove_within extension MyProc w lock lock' : within P H W lock →
  RemoveFromWaitQueue extension MyProc w lock = Ok lock' → within P H W lock'.
Proof.
  intros [H1 H2 H3]. unfold RemoveFromWaitQueue. apply cleanup_within. constructor; [done..|].
  intros v [_ Hv]%list_elem_of_filter. by apply H3.
Qed.

Lemma release_within extension MyProc m lock b lock' : within P H W lock →
  LockRelease extension MyProc m lock = Ok (b, lock') → within P H W lock'.
Proof.
  intros Hl. unfold LockRelease. destruct (find_proclock _ _); [|done].
  destruct (negb _); [by intros [= _ <-]|].
  pose proof (ungrant_within lock (pgprocno MyProc) m Hl) as Hu.
  destruct (UnGrantLock _ _ _) as [lock1 wk]. cbn [fst] in Hu.
  destruct (CleanUpLock _ _ _ _ _) as [lk| |] eqn:E; cbn [mbind outcome_bind]; try done.
  intros [= _ <-]. by eapply cleanup_within, E.
Qed.

Lemma count_dep_key3 m w : pgprocno (count_dep m w) = pgprocno w ∧
  lockGroupLeader (count_dep m w) = lockGroupLeader w ∧ waitLockMode (count_dep m w) = waitLockMode w.
Proof. unfold count_dep. by destruct (negb _). Qed.

Abbreviation waiters q := (∀ w, w ∈ q → W (pgprocno w) (lockGroupLeader w) (waitLockMode w)).

Lemma sleep_scan_within extension MyProc hl m pl lock queue passed ar place q :
  waiters (passed ++ queue) →
  sleep_scan extension MyProc hl m pl lock queue passed ar = Ok (place, q) → waiters q.
Proof.
  revert passed ar. induction queue as [|x queue IH]; intros passed ar Hk; cbn [sleep_scan].
  { intros [= _ <-]. by rewrite app_nil_r in Hk. }
  assert (waiters (passed ++ count_dep m x :: queue)) as Hk1.
  { intros w [Hw|[->|Hw]%elem_of_cons]%elem_of_app; [apply Hk; set_solver| |apply Hk; set_solver].
    destruct (count_dep_key3 m x) as (-> & -> & ->). apply Hk. set_solver. }
  assert (waiters ((passed ++ [count_dep m x]) ++ queue)) as Hk2 by by rewrite <- app_assoc.
  destruct (_ && _ && _); [by apply IH|]. destruct (_ && _); [by intros [= _ <-]|].
  destruct (_ || _); [|by apply IH].
  destruct (if _ =? 0 then _ else Ok true) as [[]| |]; cbn [mbind outcome_bind]; try done; by intros [= _ <-].
Qed.

Lemma sleep_within extension MyProc m pl lock st lock' :
  within P H W lock → W (pgprocno MyProc) (lockGroupLeader MyProc) m →
  ProcSleep extension MyProc m pl lock = Ok (st, lock') → within P H W lock'.
Proof.
  intros [H1 H2 H3] Hme. unfold ProcSleep. fold (as_waiter MyProc m).
  destruct (sleep_scan _ _ _ _ _ _ _ _ _) as [[place q]| |] eqn:E; cbn [mbind outcome_bind]; try done.
  assert (waiters q) as Hq by (eapply sleep_scan_within, E; exact H3).
  assert (waiters (q ++ [as_waiter MyProc m])) as Hq'.
  { intros w [Hw|Hw%list_elem_of_singleton]%elem_of_app; [by apply Hq|by subst]. }
  assert (∀ n, waiters (take n q ++ as_waiter MyProc m :: drop n q)) as Hqn.
  { intros n w. rewrite <- Permutation_middle, take_drop. intros [->|Hw]%elem_of_cons; [done|by apply Hq]. }
  destruct (HW _ _ _ Hme) as [Hh Hm]. destruct place as [|n| |].
  - intros [= _ <-]. apply grant_within; [|done..]. by constructor.
  - intros [= _ <-]. constructor; [done..|]. apply Hqn.
  - intros [= _ <-]. by constructor.
  - destruct (RemoveFromWaitQueue _ _ _ _) as [lk| |] eqn:Er; cbn [mbind outcome_bind]; try done.
    intros [= _ <-]. eapply remove_within, Er. by constructor.
Qed.

Lemma setup_within proc m lock : within P H W lock →
  P (pgprocno proc) (default (pgprocno proc) (lockGroupLeader proc)) →
  within P H W (SetupLockInTable proc m lock).2.
Proof.
  intros [H1 H2 H3] Hp. unfold SetupLockInTable. destruct (find_proclock _ _) as [pl|]; destruct (Z.testbit _ m);
    constructor; cbn; try done.
  - intros x [Hx| ->%list_elem_of_singleton]%elem_of_app; [by apply H1|done].
  - intros x i [Hx| ->%list_elem_of_singleton]%elem_of_app; [by apply H2|]. unfold holds. cbn. by rewrite Z.bits_0.
  - intros x [Hx| ->%list_elem_of_singleton]%elem_of_app; [by apply H1|done].
  - intros x i [Hx| ->%list_elem_of_singleton]%elem_of_app; [by apply H2|]. unfold holds. cbn. by rewrite Z.bits_0.
Qed.

Lemma acquire_within extension MyProc m dontWait lock r lock' : within P H W lock →
  P (pgprocno MyProc) (default (pgprocno MyProc) (lockGroupLeader MyProc)) →
  W (pgprocno MyProc) (lockGroupLeader MyProc) m →
  LockAcquireExtended extension MyProc m dontWait lock = Ok (r, lock') → within P H W lock'.
Proof.
  intros Hl Hp Hk. unfold LockAcquireExtended. pose proof (setup_within MyProc m lock Hl Hp) as Hl1.
  destruct (SetupLockInTable MyProc m lock) as [o lock1]. cbn [snd] in Hl1. destruct (HW _ _ _ Hk) as [Hh Hm].
  destruct o as [pl| |]; cbn [mbind outcome_bind]; try done.
  destruct (if negb _ then Ok true else _) as [c| |]; cbn [mbind outcome_bind]; try done.
  destruct c; cbn [negb]; [|intros [= _ <-]; by apply grant_within].
  destruct (dontWait || _).
  - intros [= _ <-]. destruct Hl1 as [H3 H4 H5]. constructor; [| |done]; intros x; cbn; (destruct (_ =? 0); [|auto]).
    + intros [_ Hx]%list_elem_of_filter. by apply H3.
    + intros i [_ Hx]%list_elem_of_filter. by apply H4.
  - destruct (ProcSleep _ _ _ _ _) as [[st l']| |] eqn:Ep; cbn [mbind outcome_bind]; try done.
    apply sleep_within in Ep; [|done..]. by destruct st; intros [= _ <-].
Qed.
End within.
