(* ===== verification/FastSlots.v ===== *)
(** * The fast-path slots of a backend

    Models the part of [dbengine/src/backend/storage/lmgr/lock.c] that keeps weak
    relation locks in the process that holds them: 16 slots, each with the
    identifier of a relation and three bits for the modes below
    ShareUpdateExclusiveLock, all bits in one 64-bit word. Granting, releasing and
    the transfer of the locks of a relation to the main lock table, and what they
    do to the set of locks the slots stand for. *)
From S2P Require Import Prelude Lock LockFrame.
From Stdlib Require Import ZArith Lia QArith.
From stdpp Require Import base functions sets strings numbers list.

Open Scope Z_scope.

Definition FAST_PATH_BITS_PER_SLOT : Z := 3.
Definition FAST_PATH_LOCKNUMBER_OFFSET : Z := 1.
Definition FAST_PATH_MASK : Z := 7.
Definition FP_LOCK_SLOTS_PER_BACKEND : nat := 16.

Definition FAST_PATH_GET_BITS (fpLockBits : Z) (n : nat) : Z :=
  Z.land (Z.shiftr fpLockBits (FAST_PATH_BITS_PER_SLOT * Z.of_nat n)) FAST_PATH_MASK.
Definition FAST_PATH_BIT_POSITION (n : nat) (l : Z) : Z :=
  l - FAST_PATH_LOCKNUMBER_OFFSET + FAST_PATH_BITS_PER_SLOT * Z.of_nat n.
Definition FAST_PATH_SET_LOCKMODE (fpLockBits : Z) (n : nat) (l : Z) : Z :=
  Z.lor fpLockBits (Z.shiftl 1 (FAST_PATH_BIT_POSITION n l)).
Definition FAST_PATH_CLEAR_LOCKMODE (fpLockBits : Z) (n : nat) (l : Z) : Z :=
  Z.land fpLockBits (Z.lnot (Z.shiftl 1 (FAST_PATH_BIT_POSITION n l))).
Definition FAST_PATH_CHECK_LOCKMODE (fpLockBits : Z) (n : nat) (l : Z) : bool :=
  negb (Z.land fpLockBits (Z.shiftl 1 (FAST_PATH_BIT_POSITION n l)) =? 0).

(** The fields of [PGPROC], and the count the backend keeps for itself. *)
Record fp_slots := mkSlots {
  fpLockBits : Z;
  fpRelId : nat → Z;
  FastPathLocalUseCount : Z
}.

Definition with_bits (b : Z) (f : fp_slots) : fp_slots := mkSlots b (fpRelId f) (FastPathLocalUseCount f).
Definition with_count (c : Z) (f : fp_slots) : fp_slots := mkSlots (fpLockBits f) (fpRelId f) c.

(** The loop over the slots, [k] of them left from [n] on. *)
Fixpoint grant_scan (k n : nat) (unused_slot : option nat) (relid lockmode : Z) (f : fp_slots) : bool * fp_slots :=
  match k with
  | O =>
      match unused_slot with
      | Some u =>
          (true, mkSlots (FAST_PATH_SET_LOCKMODE (fpLockBits f) u lockmode) (<[u := relid]> (fpRelId f))
                   (FastPathLocalUseCount f + 1))
      | None => (false, f)
      end
  | S k =>
      if FAST_PATH_GET_BITS (fpLockBits f) n =? 0 then grant_scan k (S n) (Some n) relid lockmode f
      else if fpRelId f n =? relid then
        (true, with_bits (FAST_PATH_SET_LOCKMODE (fpLockBits f) n lockmode) f)
      else grant_scan k (S n) unused_slot relid lockmode f
  end.

Definition FastPathGrantRelationLock (relid lockmode : Z) (f : fp_slots) : bool * fp_slots :=
  grant_scan FP_LOCK_SLOTS_PER_BACKEND 0 None relid lockmode f.

Fixpoint ungrant_scan (k n : nat) (relid lockmode : Z) (result : bool) (f : fp_slots) : bool * fp_slots :=
  match k with
  | O => (result, f)
  | S k =>
      let hit := (fpRelId f n =? relid) && FAST_PATH_CHECK_LOCKMODE (fpLockBits f) n lockmode in
      let f := if hit then with_bits (FAST_PATH_CLEAR_LOCKMODE (fpLockBits f) n lockmode) f else f in
      let f := if negb (FAST_PATH_GET_BITS (fpLockBits f) n =? 0)
               then with_count (FastPathLocalUseCount f + 1) f else f in
      ungrant_scan k (S n) relid lockmode (result || hit) f
  end.

Definition FastPathUnGrantRelationLock (relid lockmode : Z) (f : fp_slots) : bool * fp_slots :=
  ungrant_scan FP_LOCK_SLOTS_PER_BACKEND 0 relid lockmode false (with_count 0 f).

(** The modes of one slot, moved to the lock object; [room] says for which modes
    SetupLockInTable finds shared memory. The result is false if it did not. *)
Fixpoint transfer_modes (room : Z → bool) (ms : list Z) (n : nat) (proc : PGPROC) (f : fp_slots) (lock : LOCK)
    : outcome (bool * fp_slots * LOCK) :=
  match ms with
  | [] => Ok (true, f, lock)
  | lockmode :: ms =>
      if negb (FAST_PATH_CHECK_LOCKMODE (fpLockBits f) n lockmode) then transfer_modes room ms n proc f lock
      else if negb (room lockmode) then Ok (false, f, lock)
      else
        let '(proclock, lock) := SetupLockInTable proc lockmode lock in
        _ ← proclock;
        transfer_modes room ms n proc (with_bits (FAST_PATH_CLEAR_LOCKMODE (fpLockBits f) n lockmode) f)
          (GrantLock lock (pgprocno proc) lockmode)
  end.

Definition weak_modes : list Z := [1; 2; 3].

(** The part of [FastPathTransferRelationLocks] for one process. *)
Fixpoint transfer_scan (room : Z → bool) (k n : nat) (relid : Z) (proc : PGPROC) (f : fp_slots) (lock : LOCK)
    : outcome (bool * fp_slots * LOCK) :=
  match k with
  | O => Ok (true, f, lock)
  | S k =>
      if negb (relid =? fpRelId f n) || (FAST_PATH_GET_BITS (fpLockBits f) n =? 0)
      then transfer_scan room k (S n) relid proc f lock
      else transfer_modes room weak_modes n proc f lock
  end.

Definition transfer_proc (room : Z → bool) (relid : Z) (proc : PGPROC) (f : fp_slots) (lock : LOCK)
    : outcome (bool * fp_slots * LOCK) :=
  transfer_scan room FP_LOCK_SLOTS_PER_BACKEND 0 relid proc f lock.

(** ** Bits *)

Lemma weak_range m : m ∈ weak_modes ↔ 1 ≤ m ≤ 3.
Proof. unfold weak_modes. rewrite !elem_of_cons, elem_of_nil. lia. Qed.

Lemma NoDup_weak : NoDup weak_modes.
Proof. by apply (bool_decide_unpack _). Qed.

Lemma weak_mode m : m ∈ weak_modes → m ∈ modes.
Proof. unfold weak_modes, modes. rewrite !elem_of_cons, elem_of_nil. lia. Qed.

Lemma position_nonneg n l : l ∈ weak_modes → 0 ≤ FAST_PATH_BIT_POSITION n l.
Proof. rewrite weak_range. unfold FAST_PATH_BIT_POSITION, FAST_PATH_LOCKNUMBER_OFFSET, FAST_PATH_BITS_PER_SLOT. lia. Qed.

Lemma position_inj n l n' l' : l ∈ weak_modes → l' ∈ weak_modes →
  FAST_PATH_BIT_POSITION n l = FAST_PATH_BIT_POSITION n' l' → n = n' ∧ l = l'.
Proof.
  rewrite !weak_range. unfold FAST_PATH_BIT_POSITION, FAST_PATH_LOCKNUMBER_OFFSET, FAST_PATH_BITS_PER_SLOT. lia.
Qed.

Lemma one_bit k i : 0 ≤ k → Z.testbit (Z.shiftl 1 k) i = (k =? i).
Proof.
  intros Hk. rewrite Z.shiftl_1_l. destruct (Z.eqb_spec k i) as [->|]; [by apply Z.pow2_bits_true|].
  by apply Z.pow2_bits_false.
Qed.

Lemma check_bit b n l : l ∈ weak_modes →
  FAST_PATH_CHECK_LOCKMODE b n l = Z.testbit b (FAST_PATH_BIT_POSITION n l).
Proof.
  intros Hl%(position_nonneg n). unfold FAST_PATH_CHECK_LOCKMODE. set (k := FAST_PATH_BIT_POSITION n l) in *.
  destruct (Z.testbit b k) eqn:E.
  - apply negb_true_iff, Z.eqb_neq. intros Hz.
    assert (Z.testbit (Z.land b (Z.shiftl 1 k)) k = true) as Ht by by rewrite Z.land_spec, E, one_bit, Z.eqb_refl.
    by rewrite Hz, Z.bits_0 in Ht.
  - apply negb_false_iff, Z.eqb_eq, Z.bits_inj_0. intros i. rewrite Z.land_spec, one_bit by done.
    destruct (Z.eqb_spec k i) as [<-|]; [by rewrite E|apply andb_false_r].
Qed.

Lemma check_set b n l n' l' : l ∈ weak_modes → l' ∈ weak_modes →
  FAST_PATH_CHECK_LOCKMODE (FAST_PATH_SET_LOCKMODE b n l) n' l' =
  FAST_PATH_CHECK_LOCKMODE b n' l' || bool_decide (n' = n ∧ l' = l).
Proof.
  intros Hl Hl'. rewrite !check_bit by done. unfold FAST_PATH_SET_LOCKMODE.
  rewrite Z.lor_spec, one_bit by by apply position_nonneg. f_equal.
  destruct (Z.eqb_spec (FAST_PATH_BIT_POSITION n l) (FAST_PATH_BIT_POSITION n' l')) as [E|E]; symmetry.
  - apply bool_decide_eq_true. by apply position_inj in E as [-> ->].
  - apply bool_decide_eq_false. by intros [-> ->].
Qed.

Lemma check_clear b n l n' l' : l ∈ weak_modes → l' ∈ weak_modes →
  FAST_PATH_CHECK_LOCKMODE (FAST_PATH_CLEAR_LOCKMODE b n l) n' l' =
  FAST_PATH_CHECK_LOCKMODE b n' l' && negb (bool_decide (n' = n ∧ l' = l)).
Proof.
  intros Hl Hl'. rewrite !check_bit by done. unfold FAST_PATH_CLEAR_LOCKMODE.
  rewrite Z.land_spec, Z.lnot_spec, one_bit by by apply position_nonneg. f_equal. f_equal.
  destruct (Z.eqb_spec (FAST_PATH_BIT_POSITION n l) (FAST_PATH_BIT_POSITION n' l')) as [E|E]; symmetry.
  - apply bool_decide_eq_true. by apply position_inj in E as [-> ->].
  - apply bool_decide_eq_false. by intros [-> ->].
Qed.

(** A slot is used when one of its three bits is set. *)
Lemma get_bits_zero b n :
  FAST_PATH_GET_BITS b n = 0 ↔ ∀ l, l ∈ weak_modes → FAST_PATH_CHECK_LOCKMODE b n l = false.
Proof.
  assert (∀ i, Z.testbit (FAST_PATH_GET_BITS b n) i =
    if bool_decide (0 ≤ i < 3) then FAST_PATH_CHECK_LOCKMODE b n (i + 1) else false) as Hbits.
  { intros i. unfold FAST_PATH_GET_BITS, FAST_PATH_MASK. change 7 with (Z.ones 3). rewrite Z.land_spec.
    case_bool_decide as Hi.
    - rewrite Z.testbit_ones_nonneg, Z.shiftr_spec, check_bit by (rewrite ?weak_range; lia).
      replace (i <? 3) with true by lia. rewrite andb_true_r. f_equal. unfold FAST_PATH_BIT_POSITION,
        FAST_PATH_LOCKNUMBER_OFFSET, FAST_PATH_BITS_PER_SLOT. lia.
    - destruct (decide (i < 0)); [rewrite (Z.testbit_neg_r (Z.ones 3)) by lia; apply andb_false_r|].
      rewrite Z.testbit_ones_nonneg by lia. replace (i <? 3) with false by lia. apply andb_false_r. }
  split.
  - intros E l Hl. specialize (Hbits (l - 1)). rewrite E, Z.bits_0 in Hbits.
    rewrite bool_decide_true in Hbits by (apply weak_range in Hl; lia). by replace (l - 1 + 1) with l in Hbits by lia.
  - intros H. apply Z.bits_inj_0. intros i. rewrite Hbits. case_bool_decide; [|done]. apply H, weak_range. lia.
Qed.

(** ** The locks the slots stand for *)

Definition slot_used (f : fp_slots) (n : nat) : Prop := FAST_PATH_GET_BITS (fpLockBits f) n ≠ 0.

#[global] Instance used_dec f n : Decision (slot_used f n).
Proof. unfold slot_used. apply _. Defined.

Definition slots : list nat := seq 0 FP_LOCK_SLOTS_PER_BACKEND.

Definition n_used (f : fp_slots) : nat := length (filter (slot_used f) slots).

Definition fp_holds (f : fp_slots) (relid m : Z) : Prop :=
  ∃ n, n ∈ slots ∧ fpRelId f n = relid ∧ m ∈ weak_modes ∧ FAST_PATH_CHECK_LOCKMODE (fpLockBits f) n m = true.

(** No relation has two slots, and the local count is not too low. *)
Record slots_ok (f : fp_slots) : Prop := mkSlotsOk {
  so_unique : ∀ n n', n ∈ slots → n' ∈ slots → slot_used f n → slot_used f n' → fpRelId f n = fpRelId f n' → n = n';
  so_count : Z.of_nat (n_used f) ≤ FastPathLocalUseCount f
}.

Lemma used_check f n : slot_used f n ↔ ∃ m, m ∈ weak_modes ∧ FAST_PATH_CHECK_LOCKMODE (fpLockBits f) n m = true.
Proof.
  unfold slot_used. rewrite get_bits_zero. split.
  - intros H. destruct (decide (Exists (λ m, FAST_PATH_CHECK_LOCKMODE (fpLockBits f) n m = true) weak_modes)) as [E|E].
    + apply List.Exists_exists in E as (m & Hm%list_elem_of_In & E). by exists m.
    + destruct H. intros l Hl. apply not_true_iff_false. intros Hc. apply E, List.Exists_exists. exists l.
      by rewrite <- list_elem_of_In.
  - intros (m & Hm & Hc) H. by rewrite H in Hc.
Qed.

Lemma n_used_le f f' : (∀ n, n ∈ slots → slot_used f n → slot_used f' n) → (n_used f ≤ n_used f')%nat.
Proof.
  intros H. unfold n_used. apply submseteq_length. revert H. generalize slots. intros l.
  induction l as [|n l IH]; intros H; [done|]. rewrite !filter_cons.
  assert (filter (slot_used f) l ⊆+ filter (slot_used f') l) by (apply IH; intros; apply H; [by right|done]).
  destruct (decide (slot_used f n)) as [Hu|]; [rewrite decide_True by (apply H; [left|done]); by constructor|].
  destruct (decide (slot_used f' n)); [by constructor|done].
Qed.

Lemma n_used_one f f' u : (∀ n, n ∈ slots → slot_used f' n → slot_used f n ∨ n = u) → (n_used f' ≤ S (n_used f))%nat.
Proof.
  intros H. unfold n_used. assert (NoDup slots) as Hnd by apply NoDup_seq.
  assert (filter (slot_used f') slots ⊆+ u :: filter (slot_used f) slots) as Hs%submseteq_length; [|done].
  apply NoDup_submseteq; [by apply list.NoDup_filter|]. intros n [Hu Hn]%list_elem_of_filter.
  destruct (H n Hn Hu) as [?| ->]; [right|left]. by apply list_elem_of_filter.
Qed.

(** ** Granting *)

(** Setting a mode in a slot that is the relation's or free. *)
Lemma set_slot f f' u relid m :
  u ∈ slots → m ∈ weak_modes → (slot_used f u → fpRelId f u = relid) →
  (∀ n, n ∈ slots → slot_used f n → fpRelId f n = relid → n = u) →
  (∀ n, fpRelId f' n = if decide (n = u) then relid else fpRelId f n) →
  fpLockBits f' = FAST_PATH_SET_LOCKMODE (fpLockBits f) u m →
  (∀ n, slot_used f' n ↔ slot_used f n ∨ n = u) ∧
  (∀ r i, fp_holds f' r i ↔ fp_holds f r i ∨ r = relid ∧ i = m).
Proof.
  intros Hu Hm Hrel Huniq Hid Hbits.
  assert (∀ n i, i ∈ weak_modes → FAST_PATH_CHECK_LOCKMODE (fpLockBits f') n i =
    FAST_PATH_CHECK_LOCKMODE (fpLockBits f) n i || bool_decide (n = u ∧ i = m)) as Hc.
  { intros n i Hi. rewrite Hbits. by apply check_set. }
  split.
  - intros n. rewrite !used_check. split.
    + intros (i & Hi & E). rewrite Hc in E by done. apply orb_true_iff in E as [E|E%bool_decide_eq_true];
        [left; by exists i|right; apply E].
    + intros [(i & Hi & E)| ->]; [exists i|exists m]; rewrite Hc by done; [by rewrite E|].
      by rewrite bool_decide_true, orb_true_r.
  - intros r i. split.
    + intros (n & Hn & Er & Hi & E). rewrite Hc in E by done. rewrite Hid in Er.
      apply orb_true_iff in E as [E|[-> ->]%bool_decide_eq_true].
      * left. exists n. split_and!; try done. case_decide; [subst|done]. apply Hrel, used_check. by exists i.
      * right. by rewrite decide_True in Er.
    + intros [(n & Hn & Er & Hi & E)|[-> ->]].
      * exists n. split_and!; try done; [|by rewrite Hc, E]. rewrite Hid. case_decide; [|done]. subst n.
        rewrite <- Er. symmetry. apply Hrel, used_check. by exists i.
      * exists u. split_and!; try done; [by rewrite Hid, decide_True|]. rewrite Hc by done.
        by rewrite bool_decide_true, orb_true_r.
Qed.

Lemma grant_scan_spec k n unused relid m f :
  (n + k = FP_LOCK_SLOTS_PER_BACKEND)%nat →
  (∀ x, x < n → slot_used f x → fpRelId f x ≠ relid)%nat →
  match unused with Some u => u ∈ slots ∧ ¬ slot_used f u | None => ∀ x, (x < n)%nat → slot_used f x end →
  (∃ u, u ∈ slots ∧ slot_used f u ∧ fpRelId f u = relid ∧
     grant_scan k n unused relid m f = (true, with_bits (FAST_PATH_SET_LOCKMODE (fpLockBits f) u m) f)) ∨
  (∃ u, u ∈ slots ∧ ¬ slot_used f u ∧ (∀ x, x ∈ slots → slot_used f x → fpRelId f x ≠ relid) ∧
     grant_scan k n unused relid m f =
       (true, mkSlots (FAST_PATH_SET_LOCKMODE (fpLockBits f) u m) (<[u := relid]> (fpRelId f))
                (FastPathLocalUseCount f + 1))) ∨
  grant_scan k n unused relid m f = (false, f) ∧ (∀ x, x ∈ slots → slot_used f x).
Proof.
  assert (∀ x, x ∈ slots ↔ (x < FP_LOCK_SLOTS_PER_BACKEND)%nat) as Hin by (intros; unfold slots; rewrite elem_of_seq; lia).
  revert n unused. induction k as [|k IH]; intros n unused Hnk Hno Hun; cbn [grant_scan].
  - rewrite Nat.add_0_r in Hnk. subst n. right. destruct unused as [u|].
    + left. exists u. destruct Hun. split_and!; try done. intros x Hx. by apply Hno, Hin.
    + right. split; [done|]. intros x Hx. by apply Hun, Hin.
  - destruct (Z.eqb_spec (FAST_PATH_GET_BITS (fpLockBits f) n) 0) as [E|E].
    + apply IH; [lia| |split; [apply Hin; lia|by intros []]].
      intros x Hx Hux. destruct (decide (x = n)) as [->|]; [done|]. apply Hno; [lia|done].
    + destruct (Z.eqb_spec (fpRelId f n) relid) as [Er|Er].
      * left. exists n. split_and!; try done. apply Hin. lia.
      * apply IH; [lia| |].
        -- intros x Hx Hux. destruct (decide (x = n)) as [->|]; [done|]. apply Hno; [lia|done].
        -- destruct unused as [u|]; [done|]. intros x Hx. destruct (decide (x = n)) as [->|]; [done|]. apply Hun. lia.
Qed.

(** Granting adds the lock, unless all slots are used. *)
Lemma FastPathGrant_spec relid m f :
  slots_ok f → m ∈ weak_modes →
  match FastPathGrantRelationLock relid m f with
  | (true, f') => slots_ok f' ∧ ∀ r i, fp_holds f' r i ↔ fp_holds f r i ∨ r = relid ∧ i = m
  | (false, f') => f' = f ∧ n_used f = FP_LOCK_SLOTS_PER_BACKEND
  end.
Proof.
  intros [Huniq Hcount] Hm. unfold FastPathGrantRelationLock.
  destruct (grant_scan_spec FP_LOCK_SLOTS_PER_BACKEND 0 None relid m f) as
    [(u & Hu & Hused & Hr & ->)|[(u & Hu & Hfree & Hno & ->)|[-> Hall]]]; [done|intros; lia|intros; lia|..].
  - destruct (set_slot f (with_bits (FAST_PATH_SET_LOCKMODE (fpLockBits f) u m) f) u relid m) as [H1 H2]; try done.
    { intros n Hn Hun E. apply Huniq; try done. congruence. }
    { intros n. cbn. by case_decide; subst. }
    split; [|done]. constructor.
    + intros n n' Hn Hn' [Ha| ->]%H1 [Hb| ->]%H1; by apply Huniq.
    + set (f' := with_bits _ _) in *. assert (n_used f' ≤ n_used f)%nat as Hle.
      { apply n_used_le. intros n _ [?| ->]%H1; done. }
      change (FastPathLocalUseCount f') with (FastPathLocalUseCount f). lia.
  - set (f' := mkSlots _ _ _). destruct (set_slot f f' u relid m) as [H1 H2]; try done.
    { intros n Hn Hun E. by destruct (Hno n Hn Hun). }
    { intros n. cbn. case_decide; [subst; apply fn_lookup_insert|by apply fn_lookup_insert_ne]. }
    split; [|done]. constructor.
    + intros n n' Hn Hn' [Ha| ->]%H1 [Hb| ->]%H1; cbn; [| | |done].
      * rewrite !fn_lookup_insert_ne by (intros ->; done). by apply Huniq.
      * rewrite fn_lookup_insert, fn_lookup_insert_ne by (intros ->; done). intros E. by destruct (Hno n).
      * rewrite fn_lookup_insert, fn_lookup_insert_ne by (intros ->; done). intros E. by destruct (Hno n').
    + assert (n_used f' ≤ S (n_used f))%nat as Hle by (apply (n_used_one f f' u); intros n _; by rewrite H1).
      change (FastPathLocalUseCount f') with (FastPathLocalUseCount f + 1). lia.
  - split; [done|]. unfold n_used. rewrite filter_all; done.
Qed.

(** ** Releasing *)

Lemma used_ext f f' n :
  (∀ i, i ∈ weak_modes → FAST_PATH_CHECK_LOCKMODE (fpLockBits f') n i = FAST_PATH_CHECK_LOCKMODE (fpLockBits f) n i) →
  slot_used f' n ↔ slot_used f n.
Proof. intros H. rewrite !used_check. split; intros (i & Hi & E); exists i; by rewrite <- ?H, ?E, ?H. Qed.

Lemma ungrant_scan_spec k n sl relid m res f b f' : sl = seq n k → m ∈ weak_modes →
  ungrant_scan k n relid m res f = (b, f') →
  fpRelId f' = fpRelId f ∧
  (∀ x i, i ∈ weak_modes → FAST_PATH_CHECK_LOCKMODE (fpLockBits f') x i =
     FAST_PATH_CHECK_LOCKMODE (fpLockBits f) x i && negb (bool_decide (x ∈ sl ∧ fpRelId f x = relid ∧ i = m))) ∧
  FastPathLocalUseCount f' = FastPathLocalUseCount f + Z.of_nat (length (filter (slot_used f') (sl))) ∧
  (b = true ↔ res = true ∨
     ∃ x, x ∈ sl ∧ fpRelId f x = relid ∧ FAST_PATH_CHECK_LOCKMODE (fpLockBits f) x m = true).
Proof.
  intros -> Hm. revert n res f. induction k as [|k IH]; intros n res f; cbn [ungrant_scan].
  { intros [= <- <-]. split_and!; try done; [|cbn; lia|].
    - intros x i _. rewrite bool_decide_false by by intros [?%not_elem_of_nil _]. by rewrite andb_true_r.
    - split; [by left|]. intros [?|(x & ?%not_elem_of_nil & _)]; done. }
  set (hit := _ && _). set (f1 := if hit then _ else f). set (f2 := if negb _ then _ else f1).
  assert (fpRelId f2 = fpRelId f) as Hid by (unfold f2, f1; by destruct (negb _), hit).
  assert (∀ x i, i ∈ weak_modes → FAST_PATH_CHECK_LOCKMODE (fpLockBits f2) x i =
    FAST_PATH_CHECK_LOCKMODE (fpLockBits f) x i && negb (bool_decide (x = n ∧ fpRelId f x = relid ∧ i = m))) as Hc.
  { intros x i Hi. assert (fpLockBits f2 = fpLockBits f1) as -> by (unfold f2; by destruct (negb _)).
    unfold f1. destruct hit eqn:Eh; unfold hit in Eh.
    - apply andb_true_iff in Eh as [Er%Z.eqb_eq _]. cbn [fpLockBits with_bits]. rewrite check_clear by done.
      do 2 f_equal. apply bool_decide_ext. split; [intros [-> ->]|intros (-> & _ & ->)]; done.
    - case_bool_decide as Hb; [|by rewrite andb_true_r]. destruct Hb as (-> & Er & ->).
      rewrite andb_false_r. apply andb_false_iff in Eh as [?%Z.eqb_neq|?]; done. }
  assert (FastPathLocalUseCount f2 = FastPathLocalUseCount f + (if decide (slot_used f2 n) then 1 else 0)) as Hcount.
  { assert (FastPathLocalUseCount f1 = FastPathLocalUseCount f) as E1 by (unfold f1; by destruct hit).
    unfold slot_used, f2. destruct (Z.eqb_spec (FAST_PATH_GET_BITS (fpLockBits f1) n) 0) as [E|E];
      cbn [negb with_count fpLockBits FastPathLocalUseCount]; rewrite E1;
      [rewrite decide_False by lia|rewrite decide_True by done]; lia. }
  intros (Hid' & Hc' & Hcount' & Hb)%IH. split_and!.
  - by rewrite Hid'.
  - intros x i Hi. rewrite Hc', Hc, <- andb_assoc, <- negb_orb by done. do 2 f_equal. rewrite Hid.
    cbn [seq]. rewrite <- bool_decide_or. apply bool_decide_ext. rewrite elem_of_cons. tauto.
  - rewrite Hcount', Hcount. cbn [seq]. assert (slot_used f' n ↔ slot_used f2 n) as Hu.
    { apply used_ext. intros i Hi. rewrite Hc' by done. rewrite bool_decide_false, andb_true_r; [done|].
      intros [[? ?]%elem_of_seq _]. lia. }
    rewrite filter_cons. destruct (decide (slot_used f2 n)) as [?%Hu|Hn]; [rewrite decide_True by done; cbn [length]; lia|].
    rewrite decide_False by by rewrite Hu. lia.
  - rewrite Hb, orb_true_iff, Hid. cbn [seq]. setoid_rewrite elem_of_cons.
    assert (hit = true ↔ fpRelId f n = relid ∧ FAST_PATH_CHECK_LOCKMODE (fpLockBits f) n m = true) as ->.
    { unfold hit. by rewrite andb_true_iff, Z.eqb_eq. }
    assert (∀ x, x ∈ seq (S n) k → FAST_PATH_CHECK_LOCKMODE (fpLockBits f2) x m = FAST_PATH_CHECK_LOCKMODE (fpLockBits f) x m) as He.
    { intros x [? ?]%elem_of_seq. rewrite Hc, bool_decide_false, andb_true_r by (done || lia). done. }
    split; [intros [[?|?]|(x & Hx & ? & E)]|intros [?|(x & [->|Hx] & ? & E)]]; eauto.
    + right. exists x. rewrite He in E by done. eauto.
    + right. exists x. rewrite He by done. eauto.
Qed.

Lemma UnGrant_scan relid m f :
  FastPathUnGrantRelationLock relid m f = ungrant_scan FP_LOCK_SLOTS_PER_BACKEND 0 relid m false (with_count 0 f).
Proof. reflexivity. Qed.

Lemma slots_seq : slots = seq 0 FP_LOCK_SLOTS_PER_BACKEND.
Proof. reflexivity. Qed.

(** Releasing removes the lock, reports whether it was there and counts the used slots. *)
Lemma FastPathUnGrant_spec relid m f b f' :
  slots_ok f → m ∈ weak_modes → FastPathUnGrantRelationLock relid m f = (b, f') →
  slots_ok f' ∧ (b = true ↔ fp_holds f relid m) ∧
  (∀ r i, fp_holds f' r i ↔ fp_holds f r i ∧ ¬ (r = relid ∧ i = m)) ∧
  FastPathLocalUseCount f' = Z.of_nat (n_used f').
Proof.
  intros [Huniq _] Hm E. rewrite UnGrant_scan in E.
  apply (ungrant_scan_spec _ _ slots) in E as (Hid & Hc & Hcount & Hb); [|apply slots_seq|done]. cbn [with_count fpLockBits fpRelId FastPathLocalUseCount] in Hid, Hc, Hcount, Hb.
  split_and!.
  - constructor.
    + assert (∀ x, slot_used f' x → slot_used f x) as Hu.
      { intros x. rewrite !used_check. intros (i & Hi & E). rewrite Hc in E by done.
        apply andb_true_iff in E as [E _]. by exists i. }
      intros n n' Hn Hn' ?%Hu ?%Hu. rewrite Hid. by apply Huniq.
    + unfold n_used. lia.
  - rewrite Hb. unfold fp_holds. split; [intros [?|(x & ? & ? & ?)]|intros (x & ? & ? & ? & ?)]; eauto 6; done.
  - intros r i. unfold fp_holds. rewrite Hid. split.
    + intros (n & Hn & Hr & Hi & E). rewrite Hc in E by done.
      apply andb_true_iff in E as [E Hne%negb_true_iff%bool_decide_eq_false]. split; [by exists n|].
      intros [-> ->]. by destruct Hne.
    + intros [(n & Hn & Hr & Hi & E) Hne]. exists n. split_and!; try done. rewrite Hc, E by done.
      apply negb_true_iff, bool_decide_eq_false. intros (_ & ? & ?). destruct Hne. by split; congruence.
  - unfold n_used. lia.
Qed.

(** ** The transfer to the lock table *)

(** Only the modes above ShareUpdateExclusiveLock conflict with a weak mode. *)
Lemma weak_conflict m i : m ∈ weak_modes → Z.testbit (LockConflicts m) i = true → ShareUpdateExclusiveLock < i.
Proof.
  intros Hm Hc. pose proof (conflict_mode m i (weak_mode m Hm) Hc) as Hi.
  assert (Forall (λ m, Forall (λ i, Z.testbit (LockConflicts m) i = true → ShareUpdateExclusiveLock < i) modes) weak_modes)
    as Hall by (repeat constructor; by vm_compute).
  rewrite Forall_forall in Hall. specialize (Hall m Hm). rewrite Forall_forall in Hall. by apply Hall.
Qed.

Lemma held_stuck lock lock' : stuck lock → waitProcs lock' = waitProcs lock →
  (∀ p i, held lock p i → held lock' p i) → stuck lock'.
Proof.
  intros Hst Hw Hh k w. rewrite Hw. intros Hk. rewrite <- (app_nil_r (waitProcs lock)).
  apply (blocked_mono lock); [done|by apply Hst|]. apply lookup_lt_Some in Hk. lia.
Qed.

(** One mode: the grant is safe although nothing is checked, when no process holds a strong mode. *)
Lemma move_mode extension proc m lock :
  lock_ok extension lock → stuck lock → m ∈ weak_modes → ¬ held lock (pgprocno proc) m →
  (∀ w, w ∈ waitProcs lock → pgprocno w = pgprocno proc → waitLockMode w ≠ m) →
  (∀ q i, held lock q i → i ≤ ShareUpdateExclusiveLock) →
  ∃ pl lock1, SetupLockInTable proc m lock = (Ok pl, lock1) ∧
    lock_ok extension (GrantLock lock1 (pgprocno proc) m) ∧ stuck (GrantLock lock1 (pgprocno proc) m) ∧
    waitProcs lock1 = waitProcs lock ∧
    ∀ q i, held (GrantLock lock1 (pgprocno proc) m) q i ↔ held lock q i ∨ q = pgprocno proc ∧ i = m.
Proof.
  intros Hok Hst Hm Hnh Hnw Hno. pose proof (weak_mode m Hm) as Hm'.
  destruct (SetupLockInTable_spec extension proc m lock Hok Hm' Hnh)
    as (pl & lock1 & -> & Hinv & Hpl & Hp & Hh & Hheld & Hw & _). exists pl, lock1.
  assert (∀ q i, held (GrantLock lock1 (pgprocno proc) m) q i ↔ held lock q i ∨ q = pgprocno proc ∧ i = m) as Hg.
  { intros q i. rewrite <- Hheld. split; [by apply GrantLock_held_inv|]. intros [?|[-> ->]]; [by apply GrantLock_held|].
    rewrite <- Hp. by apply GrantLock_holds. }
  split_and!; try done.
  - rewrite <- Hp in *. apply (GrantLock_waiting_inv extension [] m lock1 pl); try done; [set_solver| |].
    + intros w. rewrite Hw. apply Hnw.
    + intros other i Ho _ Hi Hc%weak_conflict; [|done]. apply not_true_iff_false. intros Ht.
      assert (i ≤ ShareUpdateExclusiveLock); [|lia]. apply (Hno (myProc other)), Hheld. by exists other.
  - apply (held_stuck lock); [done|done|]. intros q i ?. apply Hg. by left.
Qed.

(** The modes [moved] went from the slot [n] of the process to the lock object. *)
Record moved_from (n : nat) (proc : PGPROC) (moved : list Z) (f f' : fp_slots) (lock lock' : LOCK) : Prop := mkMoved {
  mv_ids : fpRelId f' = fpRelId f;
  mv_count : FastPathLocalUseCount f' = FastPathLocalUseCount f;
  mv_bits : ∀ x i, i ∈ weak_modes → FAST_PATH_CHECK_LOCKMODE (fpLockBits f') x i =
    FAST_PATH_CHECK_LOCKMODE (fpLockBits f) x i && negb (bool_decide (x = n ∧ i ∈ moved));
  mv_from : ∀ i, i ∈ moved → i ∈ weak_modes ∧ FAST_PATH_CHECK_LOCKMODE (fpLockBits f) n i = true;
  mv_held : ∀ q i, held lock' q i ↔ held lock q i ∨ q = pgprocno proc ∧ i ∈ moved;
  mv_waiters : waitProcs lock' = waitProcs lock;
  mv_within : ∀ P H W, within P H W lock → P (pgprocno proc) (default (pgprocno proc) (lockGroupLeader proc)) →
    (∀ i, i ∈ moved → H (pgprocno proc) i) → within P H W lock'
}.

Lemma moved_nil n proc f lock : moved_from n proc [] f f lock lock.
Proof.
  constructor; try done.
  - intros x i _. rewrite bool_decide_false, andb_true_r by (by intros [_ ?%not_elem_of_nil]). done.
  - by intros i ?%not_elem_of_nil.
  - intros q i. split; [by left|]. intros [?|[_ ?%not_elem_of_nil]]; done.
Qed.

Lemma moved_cons n proc m moved f f' lock lock1 pl lock' :
  m ∈ weak_modes → FAST_PATH_CHECK_LOCKMODE (fpLockBits f) n m = true →
  SetupLockInTable proc m lock = (Ok pl, lock1) → waitProcs lock1 = waitProcs lock →
  (∀ q i, held (GrantLock lock1 (pgprocno proc) m) q i ↔ held lock q i ∨ q = pgprocno proc ∧ i = m) →
  moved_from n proc moved (with_bits (FAST_PATH_CLEAR_LOCKMODE (fpLockBits f) n m) f) f'
    (GrantLock lock1 (pgprocno proc) m) lock' →
  moved_from n proc (m :: moved) f f' lock lock'.
Proof.
  intros Hm Hc Es Hw Hh [H1 H2 H3 H4 H5 H6 H7]. cbn [with_bits fpLockBits fpRelId FastPathLocalUseCount] in *.
  constructor; try done.
  - intros x i Hi. rewrite H3, check_clear, <- andb_assoc, <- negb_orb, <- bool_decide_or by done. do 2 f_equal.
    apply bool_decide_ext. rewrite elem_of_cons. tauto.
  - intros i [->|[? Hi]%H4]%elem_of_cons; [done|]. split; [done|]. rewrite check_clear in Hi by done.
    by apply andb_true_iff in Hi as [? _].
  - intros q i. rewrite H5, Hh, elem_of_cons. tauto.
  - by rewrite H6.
  - intros P H W Hl Hp Hin. apply H7; [|done|intros; apply Hin; by right].
    apply grant_within; [|apply Hin; left|by apply weak_mode].
    pose proof (setup_within P H W proc m lock Hl Hp) as Hs. by rewrite Es in Hs.
Qed.

Lemma transfer_modes_spec room extension n proc ms : ∀ f lock,
  NoDup ms → ms ⊆ weak_modes → lock_ok extension lock → stuck lock →
  (∀ i, i ∈ ms → FAST_PATH_CHECK_LOCKMODE (fpLockBits f) n i = true → ¬ held lock (pgprocno proc) i ∧
     (∀ w, w ∈ waitProcs lock → pgprocno w = pgprocno proc → waitLockMode w ≠ i)) →
  (∀ q i, held lock q i → i ≤ ShareUpdateExclusiveLock) →
  ∃ b f' lock' moved, transfer_modes room ms n proc f lock = Ok (b, f', lock') ∧
    moved_from n proc moved f f' lock lock' ∧ lock_ok extension lock' ∧ stuck lock' ∧
    (b = true → ∀ i, i ∈ ms → FAST_PATH_CHECK_LOCKMODE (fpLockBits f) n i = true → i ∈ moved).
Proof.
  induction ms as [|m ms IH]; intros f lock Hnd Hsub Hok Hst Hfr Hno; cbn [transfer_modes].
  { exists true, f, lock, []. split_and!; try done. apply moved_nil. }
  apply NoDup_cons in Hnd as [Hnm Hnd]. assert (m ∈ weak_modes) as Hm by (apply Hsub; left).
  assert (ms ⊆ weak_modes) as Hsub' by (intros i Hi; apply Hsub; by right).
  destruct (FAST_PATH_CHECK_LOCKMODE (fpLockBits f) n m) eqn:Ec; cbn [negb].
  2: { destruct (IH f lock) as (b & f' & lock' & moved & -> & H1 & H2 & H3 & H4); try done.
       { intros i Hi. apply Hfr. by right. }
       exists b, f', lock', moved. split_and!; try done. intros Hb i [->|Hi]%elem_of_cons Hx; [congruence|by apply H4]. }
  destruct (room m); cbn [negb]; [|exists false, f, lock, []; split_and!; try done; apply moved_nil].
  destruct (Hfr m) as [Hnh Hnw]; [left|done|].
  destruct (move_mode extension proc m lock) as (pl & lock1 & Es & Hok1 & Hst1 & Hw1 & Hh1); try done.
  rewrite Es. cbn [mbind outcome_bind].
  edestruct (IH (with_bits (FAST_PATH_CLEAR_LOCKMODE (fpLockBits f) n m) f) (GrantLock lock1 (pgprocno proc) m))
    as (b & f' & lock' & moved & -> & H1 & H2 & H3 & H4); try done.
  - intros i Hi. cbn [with_bits fpLockBits]. rewrite check_clear by auto.
    intros [Hc _]%andb_true_iff. destruct (Hfr i) as [Hni Hwi]; [by right|done|]. split.
    + intros [?|[_ ->]]%Hh1; done.
    + cbn [GrantLock waitProcs]. by rewrite Hw1.
  - intros q i [?|[_ ->]]%Hh1; [by eapply Hno|]. apply weak_range in Hm. unfold ShareUpdateExclusiveLock. lia.
  - exists b, f', lock', (m :: moved). split_and!; try done; [by eapply moved_cons|].
    intros Hb i [->|Hi]%elem_of_cons Hx; [left|right]. apply H4; [done|done|]. cbn [with_bits fpLockBits].
    rewrite check_clear, Hx by auto. rewrite bool_decide_false; [done|]. intros [_ ->]. done.
Qed.

(** The slot of a relation, if it has one. *)
Lemma transfer_scan_slot room k n relid proc f lock :
  (n + k = FP_LOCK_SLOTS_PER_BACKEND)%nat →
  (∀ x, x ∈ slots → (x < n)%nat → fpRelId f x = relid → ¬ slot_used f x) →
  (∃ u, u ∈ slots ∧ fpRelId f u = relid ∧ slot_used f u ∧
     transfer_scan room k n relid proc f lock = transfer_modes room weak_modes u proc f lock) ∨
  (∀ x, x ∈ slots → fpRelId f x = relid → ¬ slot_used f x) ∧ transfer_scan room k n relid proc f lock = Ok (true, f, lock).
Proof.
  revert n. induction k as [|k IH]; intros n Hnk Hno; cbn [transfer_scan].
  - right. split; [|done]. intros x Hx. apply Hno; [done|]. apply elem_of_seq in Hx. lia.
  - assert (n ∈ slots) as Hn by (rewrite slots_seq, elem_of_seq; lia).
    destruct (Z.eqb_spec relid (fpRelId f n)) as [E|E], (Z.eqb_spec (FAST_PATH_GET_BITS (fpLockBits f) n) 0) as [Eu|Eu];
      cbn [negb orb]; [| |apply IH; [lia|]..].
    + apply IH; [lia|]. intros x Hx Hlt Hr. destruct (decide (x = n)) as [->|]; [by intros []|].
      apply Hno; [done|lia|done].
    + left. by exists n.
    + intros x Hx Hlt Hr. apply Hno; [done| |done]. destruct (decide (x = n)); [congruence|lia].
    + intros x Hx Hlt Hr. apply Hno; [done| |done]. destruct (decide (x = n)); [congruence|lia].
Qed.

(** What a transfer does: the modes [moved] of the relation leave the process and are held in the table. *)
Record transferred (extension : bool) (relid : Z) (proc : PGPROC) (moved : list Z) (f f' : fp_slots)
    (lock lock' : LOCK) : Prop := mkTransferred {
  tr_slots : slots_ok f';
  tr_ok : lock_ok extension lock';
  tr_stuck : stuck lock';
  tr_from : ∀ i, i ∈ moved → fp_holds f relid i;
  tr_fast : ∀ r i, fp_holds f' r i ↔ fp_holds f r i ∧ ¬ (r = relid ∧ i ∈ moved);
  tr_held : ∀ q i, held lock' q i ↔ held lock q i ∨ q = pgprocno proc ∧ i ∈ moved;
  tr_waiters : waitProcs lock' = waitProcs lock;
  tr_within : ∀ P H W, within P H W lock → P (pgprocno proc) (default (pgprocno proc) (lockGroupLeader proc)) →
    (∀ i, i ∈ moved → H (pgprocno proc) i) → within P H W lock'
}.

Lemma transferred_of_moved extension relid u proc moved f f' lock lock' :
  slots_ok f → u ∈ slots → fpRelId f u = relid → lock_ok extension lock' → stuck lock' →
  moved_from u proc moved f f' lock lock' → transferred extension relid proc moved f f' lock lock'.
Proof.
  intros [Huniq Hcount] Hu Hr Hok Hst [H1 H2 H3 H4 H5 H6 H7].
  assert (∀ x, slot_used f' x → slot_used f x) as Hused.
  { intros x. rewrite !used_check. intros (i & Hi & E). rewrite H3 in E by done.
    apply andb_true_iff in E as [E _]. by exists i. }
  constructor; try done.
  - constructor.
    + intros x y Hx Hy ?%Hused ?%Hused. rewrite H1. by apply Huniq.
    + rewrite H2. pose proof (n_used_le f' f (λ x _, Hused x)). lia.
  - intros i [Hi Hc]%H4. by exists u.
  - intros r i. split.
    + intros (x & Hx & Er & Hi & E). rewrite H1 in Er. rewrite H3 in E by done.
      apply andb_true_iff in E as [E Hne%negb_true_iff%bool_decide_eq_false]. split; [by exists x|].
      intros [-> Him]. apply Hne. split; [|done]. destruct (H4 i Him) as [_ Hc].
      apply Huniq; try done; [apply used_check..|congruence]; by exists i.
    + intros [(x & Hx & Er & Hi & E) Hne]. exists x. rewrite H1. split_and!; try done. rewrite H3, E by done.
      apply negb_true_iff, bool_decide_eq_false. intros [-> ?]. destruct Hne. by split; congruence.
Qed.

(** A transfer that does not run out of memory leaves no lock on the relation in
    the slots of the process; nothing is lost, also when it does. *)
Lemma transfer_proc_spec room extension relid proc f lock :
  slots_ok f → lock_ok extension lock → stuck lock →
  (∀ i, fp_holds f relid i → ¬ held lock (pgprocno proc) i ∧
     (∀ w, w ∈ waitProcs lock → pgprocno w = pgprocno proc → waitLockMode w ≠ i) ∧
     ∀ q j, held lock q j → j ≤ ShareUpdateExclusiveLock) →
  ∃ b f' lock' moved, transfer_proc room relid proc f lock = Ok (b, f', lock') ∧
    transferred extension relid proc moved f f' lock lock' ∧ (b = true → ∀ i, ¬ fp_holds f' relid i).
Proof.
  intros Hs Hok Hst Hfr. unfold transfer_proc.
  destruct (transfer_scan_slot room FP_LOCK_SLOTS_PER_BACKEND 0 relid proc f lock) as [(u & Hu & Hr & Hused & ->)|[Hno ->]];
    [done|intros; lia|..].
  - assert (∀ i, i ∈ weak_modes → FAST_PATH_CHECK_LOCKMODE (fpLockBits f) u i = true → fp_holds f relid i) as Hin
      by (intros i Hi Hc; by exists u).
    destruct (transfer_modes_spec room extension u proc weak_modes f lock) as (b & f' & lock' & moved & -> & Hm & H2 & H3 & H4);
      try done; [apply NoDup_weak| | |].
    + intros i Hi Hc. destruct (Hfr i (Hin i Hi Hc)) as (H1 & H2 & _). by split.
    + apply used_check in Hused as (i & Hi & Hc). apply (Hfr i (Hin i Hi Hc)).
    + exists b, f', lock', moved. pose proof (transferred_of_moved extension relid u proc moved f f' lock lock') as Ht.
      specialize (Ht Hs Hu Hr H2 H3 Hm). split_and!; try done. intros Hb i [(x & Hx & Er & Hi & E) Hne]%(tr_fast _ _ _ _ _ _ _ _ Ht).
      apply Hne. split; [done|]. apply H4; try done. assert (x = u) as <-; [|done].
      apply (so_unique f Hs); try done; [|congruence]. apply used_check. by exists i.
  - exists true, f, lock, []. split_and!; [done| |].
    + assert (∀ i, ¬ i ∈ @nil Z) as Hnil by by intros i ?%not_elem_of_nil.
      constructor; try done; [by intros i ?%Hnil| |].
      * intros r i. split; [|tauto]. intros ?. split; [done|]. intros [_ ?%Hnil]; done.
      * intros q i. split; [by left|]. intros [?|[_ ?%Hnil]]; done.
    + intros _ i (x & Hx & Er & Hi & E). apply (Hno x Hx Er), used_check. by exists i.
Qed.
