(* ===== verification/FastPath.v ===== *)
(** * Fast-path locks and the lock table

    Models the protocol of [dbengine/src/backend/storage/lmgr/lock.c] by which
    backends take weak relation locks in their own slots, without looking at the
    lock table, while strong lockers announce themselves in counters and move
    the weak locks they may conflict with to the table: the parts of
    [LockAcquireExtended] and [LockRelease] before the table, the backend's own
    table of locks, and [LockErrorCleanup] of [proc.c].

    A state holds what the backends share and what each keeps for itself; an
    action is what one backend does between two points where another can come in
    between; a cancellation has two of them, before and after the wait for the
    partition lock. The main theorem is that no two backends of different groups
    hold conflicting modes of a lock, wherever each of them holds it, as long as
    no strong mode is granted to a backend between the two halves of its
    cancellation; the end of the file shows what happens then. *)
From S2P Require Import Prelude Lock LockFrame FastSlots.
From Stdlib Require Import ZArith Lia QArith.
From stdpp Require Import base functions fin_maps gmap sets strings numbers list.

Open Scope Z_scope.

(** ** Lock tags *)

Record LOCKTAG := mkTag {
  locktag_field1 : Z;
  locktag_field2 : Z;
  locktag_field3 : Z;
  locktag_field4 : Z;
  locktag_type : Z;
  locktag_lockmethodid : Z
}.

#[global] Instance locktag_dec : EqDecision LOCKTAG.
Proof. solve_decision. Defined.

#[global] Instance locktag_countable : Countable LOCKTAG.
Proof.
  apply (inj_countable'
    (λ t, (locktag_field1 t, locktag_field2 t, locktag_field3 t, locktag_field4 t, locktag_type t, locktag_lockmethodid t))
    (λ '(a, b, c, d, e, f), mkTag a b c d e f)).
  by intros [].
Defined.

Definition LOCKTAG_RELATION : Z := 0.
Definition LOCKTAG_RELATION_EXTEND : Z := 1.
Definition DEFAULT_LOCKMETHOD : Z := 1.
Definition InvalidOid : Z := 0.

Definition SET_LOCKTAG_RELATION (dboid reloid : Z) : LOCKTAG :=
  mkTag dboid reloid 0 0 LOCKTAG_RELATION DEFAULT_LOCKMETHOD.

Definition extension (t : LOCKTAG) : bool := locktag_type t =? LOCKTAG_RELATION_EXTEND.

Definition EligibleForRelationFastPath (MyDatabaseId : Z) (t : LOCKTAG) (mode : Z) : bool :=
  (locktag_lockmethodid t =? DEFAULT_LOCKMETHOD) && (locktag_type t =? LOCKTAG_RELATION) &&
  (locktag_field1 t =? MyDatabaseId) && negb (MyDatabaseId =? InvalidOid) && (mode <? ShareUpdateExclusiveLock).

Definition ConflictsWithRelationFastPath (t : LOCKTAG) (mode : Z) : bool :=
  (locktag_lockmethodid t =? DEFAULT_LOCKMETHOD) && (locktag_type t =? LOCKTAG_RELATION) &&
  negb (locktag_field1 t =? InvalidOid) && (ShareUpdateExclusiveLock <? mode).

Definition FAST_PATH_STRONG_LOCK_HASH_PARTITIONS : Z := 1024.
Definition FastPathStrongLockHashPartition (hashcode : Z) : Z := hashcode `mod` FAST_PATH_STRONG_LOCK_HASH_PARTITIONS.

(** ** The backend's own table *)

Record LOCALLOCK := mkLocal {
  nLocks : Z;
  lockOwners : list (option nat * Z);
  holdsStrongLockCount : bool
}.

Definition new_locallock : LOCALLOCK := mkLocal 0 [] false.

Fixpoint count_owner (owner : option nat) (l : list (option nat * Z)) : list (option nat * Z) :=
  match l with
  | [] => [(owner, 1)]
  | (o, n) :: l => if decide (o = owner) then (o, n + 1) :: l else (o, n) :: count_owner owner l
  end.

Definition GrantLockLocal (owner : option nat) (ll : LOCALLOCK) : LOCALLOCK :=
  mkLocal (nLocks ll + 1) (count_owner owner (lockOwners ll)) (holdsStrongLockCount ll).

(** The loop over the owners in [LockRelease], from the last to the first: the
    count of the owner goes down, and at 0 the last entry takes its place. *)
Fixpoint drop_owner (i : nat) (owner : option nat) (l : list (option nat * Z)) : option (list (option nat * Z)) :=
  match i with
  | O => None
  | S i =>
      match l !! i with
      | Some (o, n) =>
          if decide (o = owner) then
            if n - 1 =? 0 then
              let last := (length l - 1)%nat in
              Some (take last (if (i <? last)%nat then <[i := default (o, n) (l !! last)]> l else l))
            else Some (<[i := (o, n - 1)]> l)
          else drop_owner i owner l
      | None => None
      end
  end.

(** ** The states of a backend *)

(** Where a backend is in [LockAcquireExtended] or [LockRelease]: it holds its
    fpInfoLock and will test the counter; it has seen 0 and still holds it; it
    transfers, [i] processes done; it is about to enter the lock table; it
    waits; a cancelled wait has given up its count; it releases a lock through
    its slots or the table; it is about to remove its entry, with the result. *)
Inductive pc :=
| Idle
| FastLocked (t : LOCKTAG) (m : Z) (owner : option nat)
| FastTested (t : LOCKTAG) (m : Z) (owner : option nat)
| Scanning (t : LOCKTAG) (m : Z) (owner : option nat) (i : nat)
| Ready (t : LOCKTAG) (m : Z) (owner : option nat)
| Asleep (t : LOCKTAG) (m : Z) (owner : option nat)
| Cancelled (t : LOCKTAG) (m : Z) (owner : option nat)
| Releasing (t : LOCKTAG) (m : Z)
| RelShared (t : LOCKTAG) (m : Z)
| RelRemove (t : LOCKTAG) (m : Z) (result : bool).

Record state := mkState {
  fps : nat → fp_slots;
  counts : Z → Z;
  locals : gmap (nat * LOCKTAG * Z) LOCALLOCK;
  StrongLockInProgress : nat → option (LOCKTAG * Z);
  objs : LOCKTAG → LOCK;
  pcs : nat → pc
}.

Definition set_fps (p : nat) (f : fp_slots) (s : state) : state :=
  mkState (<[p := f]> (fps s)) (counts s) (locals s) (StrongLockInProgress s) (objs s) (pcs s).
Definition set_counts (k v : Z) (s : state) : state :=
  mkState (fps s) (<[k := v]> (counts s)) (locals s) (StrongLockInProgress s) (objs s) (pcs s).
Definition set_locals (l : gmap (nat * LOCKTAG * Z) LOCALLOCK) (s : state) : state :=
  mkState (fps s) (counts s) l (StrongLockInProgress s) (objs s) (pcs s).
Definition set_progress (p : nat) (o : option (LOCKTAG * Z)) (s : state) : state :=
  mkState (fps s) (counts s) (locals s) (<[p := o]> (StrongLockInProgress s)) (objs s) (pcs s).
Definition set_obj (t : LOCKTAG) (lock : LOCK) (s : state) : state :=
  mkState (fps s) (counts s) (locals s) (StrongLockInProgress s) (<[t := lock]> (objs s)) (pcs s).
Definition goto (p : nat) (c : pc) (s : state) : state :=
  mkState (fps s) (counts s) (locals s) (StrongLockInProgress s) (objs s) (<[p := c]> (pcs s)).

Definition locallock (s : state) (p : nat) (t : LOCKTAG) (m : Z) : LOCALLOCK :=
  default new_locallock (locals s !! (p, t, m)).
Definition set_local (p : nat) (t : LOCKTAG) (m : Z) (ll : LOCALLOCK) (s : state) : state :=
  set_locals (<[(p, t, m) := ll]> (locals s)) s.

Section Protocol.

(** The hash of a lock tag, the database of each backend, the number of
    processes and the leader of each process's lock group. *)
Context (LockTagHashCode : LOCKTAG → Z) (databaseId : nat → Z) (allProcCount : nat) (leader : nat → option nat).

Definition partition (t : LOCKTAG) : Z := FastPathStrongLockHashPartition (LockTagHashCode t).

Definition set_strong (b : bool) (ll : LOCALLOCK) : LOCALLOCK := mkLocal (nLocks ll) (lockOwners ll) b.

Definition BeginStrongLockAcquire (p : nat) (t : LOCKTAG) (m : Z) (s : state) : state :=
  let s := set_counts (partition t) (u32 (counts s (partition t) + 1)) s in
  let s := set_local p t m (set_strong true (locallock s p t m)) s in
  set_progress p (Some (t, m)) s.

Definition FinishStrongLockAcquire (p : nat) (s : state) : state := set_progress p None s.

Definition AbortStrongLockAcquire (p : nat) (s : state) : state :=
  match StrongLockInProgress s p with
  | None => s
  | Some (t, m) =>
      let s := set_counts (partition t) (u32 (counts s (partition t) - 1)) s in
      let s := set_local p t m (set_strong false (locallock s p t m)) s in
      set_progress p None s
  end.

Definition RemoveLocalLock (p : nat) (t : LOCKTAG) (m : Z) (s : state) : state :=
  let s := if holdsStrongLockCount (locallock s p t m)
           then set_counts (partition t) (u32 (counts s (partition t) - 1)) s else s in
  set_locals (delete (p, t, m) (locals s)) s.

Definition grant_local (p : nat) (t : LOCKTAG) (m : Z) (owner : option nat) (s : state) : state :=
  set_local p t m (GrantLockLocal owner (locallock s p t m)) s.

(** The process as the lock table sees it; [rank] and [nDep] can differ from
    call to call. *)
Definition proc_of (p : nat) (rank : Q) (nDep : Z) : PGPROC := mkProc p rank nDep 0 0 (leader p).

(** What a backend does in one step: see the functions below. *)
Inductive fp_action :=
| AcquireStart (t : LOCKTAG) (m : Z) (owner : option nat)
| FastTest
| FastGrant
| Transfer (room : Z → bool)
| Shared (rank : Q) (nDep : Z) (dontWait room : bool)
| Woken
| CancelStart
| CancelEnd (rank : Q) (nDep : Z)
| ReleaseStart (t : LOCKTAG) (m : Z) (owner : option nat)
| ReleaseFast
| ReleaseShared (rank : Q) (nDep : Z)
| ReleaseRemove.

(** After the fast path: a strong locker announces itself. *)
Definition slow_start (p : nat) (t : LOCKTAG) (m : Z) (owner : option nat) (s : state) : state :=
  if ConflictsWithRelationFastPath t m
  then goto p (Scanning t m owner 0) (BeginStrongLockAcquire p t m s)
  else goto p (Ready t m owner) s.

(** From the start of [LockAcquireExtended] to the test of the counter. *)
Definition acquire_start (p : nat) (t : LOCKTAG) (m : Z) (owner : option nat) (s : state) : state :=
  let ll := locallock s p t m in
  let s := set_local p t m ll s in
  if 0 <? nLocks ll then grant_local p t m owner s
  else if EligibleForRelationFastPath (databaseId p) t m &&
          (FastPathLocalUseCount (fps s p) <? Z.of_nat FP_LOCK_SLOTS_PER_BACKEND)
  then goto p (FastLocked t m owner) s
  else slow_start p t m owner s.

Definition fast_test (p : nat) (t : LOCKTAG) (m : Z) (owner : option nat) (s : state) : state :=
  if negb (counts s (partition t) =? 0) then slow_start p t m owner s
  else goto p (FastTested t m owner) s.

Definition fast_grant (p : nat) (t : LOCKTAG) (m : Z) (owner : option nat) (s : state) : state :=
  let '(acquired, f) := FastPathGrantRelationLock (locktag_field2 t) m (fps s p) in
  let s := set_fps p f s in
  if acquired : bool then goto p Idle (grant_local p t m owner s) else slow_start p t m owner s.

(** A failed request gives up its count and its entry. *)
Definition request_failed (p : nat) (t : LOCKTAG) (m : Z) (s : state) : state :=
  let s := AbortStrongLockAcquire p s in
  goto p Idle (if nLocks (locallock s p t m) =? 0 then RemoveLocalLock p t m s else s).

Definition fpInfoLock_held (c : pc) : bool :=
  match c with FastLocked _ _ _ | FastTested _ _ _ => true | _ => false end.

(** One turn of the loop of [FastPathTransferRelationLocks]; it has to wait for
    the fpInfoLock of the process. *)
Definition transfer_step (p : nat) (t : LOCKTAG) (m : Z) (owner : option nat) (i : nat) (room : Z → bool) (s : state)
    : outcome (option state) :=
  if (allProcCount <=? i)%nat then Ok (Some (goto p (Ready t m owner) s))
  else if fpInfoLock_held (pcs s i) then Ok None
  else if negb (databaseId i =? locktag_field1 t) then Ok (Some (goto p (Scanning t m owner (S i)) s))
  else
    '(done, f, lock) ← transfer_proc room (locktag_field2 t) (proc_of i 0 0) (fps s i) (objs s t);
    let s := set_obj t lock (set_fps i f s) in
    Ok (Some (if done : bool then goto p (Scanning t m owner (S i)) s else request_failed p t m s)).

(** [LockAcquireExtended] in the lock table; [room] says whether there is
    memory. The error of an early deadlock check leads to [LockErrorCleanup]. *)
Definition shared_step (p : nat) (t : LOCKTAG) (m : Z) (owner : option nat) (rank : Q) (nDep : Z)
    (dontWait room : bool) (s : state) : outcome (option state) :=
  if negb room then Ok (Some (request_failed p t m s))
  else
    '(r, lock) ← LockAcquireExtended (extension t) (proc_of p rank nDep) m dontWait (objs s t);
    let s := set_obj t lock s in
    Ok (Some (match r with
              | LOCKACQUIRE_OK => goto p Idle (FinishStrongLockAcquire p (grant_local p t m owner s))
              | LOCKACQUIRE_NOT_AVAIL => request_failed p t m s
              | RequestWaiting => goto p (Asleep t m owner) s
              | RequestDeadlock => goto p Idle (AbortStrongLockAcquire p s)
              end)).

Definition find_waiter (p : nat) (lock : LOCK) : option PGPROC :=
  list_find (λ w, pgprocno w = p) (waitProcs lock) ≫= λ x, Some x.2.

(** The end of a wait: nobody wakes a process that is still in the queue. *)
Definition woken_step (p : nat) (t : LOCKTAG) (m : Z) (owner : option nat) (s : state) : outcome (option state) :=
  match find_waiter p (objs s t) with
  | Some _ => Ok None
  | None =>
      match find_proclock p (objs s t) with
      | Some pl =>
          if Z.testbit (holdMask pl) m
          then Ok (Some (goto p Idle (FinishStrongLockAcquire p (grant_local p t m owner s))))
          else Raise "LockAcquire failed"
      | None => Raise "LockAcquire failed"
      end
  end.

(** [LockErrorCleanup] up to the partition lock, and from there. *)
Definition cancel_start (p : nat) (t : LOCKTAG) (m : Z) (owner : option nat) (s : state) : state :=
  goto p (Cancelled t m owner) (AbortStrongLockAcquire p s).

Definition cancel_end (p : nat) (t : LOCKTAG) (m : Z) (owner : option nat) (rank : Q) (nDep : Z) (s : state)
    : outcome state :=
  match find_waiter p (objs s t) with
  | Some w =>
      lock ← RemoveFromWaitQueue (extension t) (proc_of p rank nDep) w (objs s t);
      Ok (goto p Idle (set_obj t lock s))
  | None => Ok (goto p Idle (grant_local p t m owner s))
  end.

(** [LockRelease] up to the fast path; the warnings leave everything as it is. *)
Definition release_start (p : nat) (t : LOCKTAG) (m : Z) (owner : option nat) (s : state) : state :=
  match locals s !! (p, t, m) with
  | None => s
  | Some ll =>
      if nLocks ll <=? 0 then s
      else
        match drop_owner (length (lockOwners ll)) owner (lockOwners ll) with
        | None => s
        | Some owners =>
            let s := set_local p t m (mkLocal (nLocks ll - 1) owners (holdsStrongLockCount ll)) s in
            if 0 <? nLocks ll - 1 then s
            else if EligibleForRelationFastPath (databaseId p) t m && (0 <? FastPathLocalUseCount (fps s p))
            then goto p (Releasing t m) s
            else goto p (RelShared t m) s
        end
  end.

Definition release_fast (p : nat) (t : LOCKTAG) (m : Z) (s : state) : state :=
  let '(released, f) := FastPathUnGrantRelationLock (locktag_field2 t) m (fps s p) in
  goto p (if released : bool then RelRemove t m true else RelShared t m) (set_fps p f s).

Definition release_shared (p : nat) (t : LOCKTAG) (m : Z) (rank : Q) (nDep : Z) (s : state) : outcome state :=
  '(b, lock) ← LockRelease (extension t) (proc_of p rank nDep) m (objs s t);
  Ok (goto p (RelRemove t m b) (set_obj t lock s)).

(** The tags of relations are made by [SET_LOCKTAG_RELATION]. *)
Definition tag_ok (t : LOCKTAG) : bool :=
  negb ((locktag_lockmethodid t =? DEFAULT_LOCKMETHOD) && (locktag_type t =? LOCKTAG_RELATION)) ||
  (locktag_field3 t =? 0) && (locktag_field4 t =? 0).

(** One action of the backend [p]; [None] when it is elsewhere or has to wait.
    There is no room for 2^32 entries. *)
Definition fp_exec (p : nat) (a : fp_action) (s : state) : outcome (option state) :=
  if (allProcCount <=? p)%nat then Ok None
  else
    match a, pcs s p with
    | AcquireStart t m owner, Idle =>
        if bool_decide (m ∈ modes) && tag_ok t && (Z.of_nat (size (locals s)) <? 2 ^ 32 - 1)
        then Ok (Some (acquire_start p t m owner s)) else Ok None
    | FastTest, FastLocked t m owner => Ok (Some (fast_test p t m owner s))
    | FastGrant, FastTested t m owner => Ok (Some (fast_grant p t m owner s))
    | Transfer room, Scanning t m owner i => transfer_step p t m owner i room s
    | Shared rank nDep dontWait room, Ready t m owner => shared_step p t m owner rank nDep dontWait room s
    | Woken, Asleep t m owner => woken_step p t m owner s
    | CancelStart, Asleep t m owner => Ok (Some (cancel_start p t m owner s))
    | CancelEnd rank nDep, Cancelled t m owner => Some <$> cancel_end p t m owner rank nDep s
    | ReleaseStart t m owner, Idle =>
        if bool_decide (m ∈ modes) then Ok (Some (release_start p t m owner s)) else Ok None
    | ReleaseFast, Releasing t m => Ok (Some (release_fast p t m s))
    | ReleaseShared rank nDep, RelShared t m => Some <$> release_shared p t m rank nDep s
    | ReleaseRemove, RelRemove t m _ => Ok (Some (goto p Idle (RemoveLocalLock p t m s)))
    | _, _ => Ok None
    end.

Definition init : state :=
  mkState (λ _, mkSlots 0 (λ _, InvalidOid) 0) (λ _, 0) ∅ (λ _, None) (λ _, new_lock) (λ _, Idle).

(** ** What a backend holds *)

Definition strong (t : LOCKTAG) (m : Z) : Prop := ConflictsWithRelationFastPath t m = true.
Definition eligible (p : nat) (t : LOCKTAG) (m : Z) : Prop := EligibleForRelationFastPath (databaseId p) t m = true.

Definition fast_held (s : state) (p : nat) (t : LOCKTAG) (m : Z) : Prop :=
  eligible p t m ∧ tag_ok t = true ∧ fp_holds (fps s p) (locktag_field2 t) m.

Definition waits (lock : LOCK) (p : nat) (m : Z) : Prop := (p, m) ∈ waiter_key <$> waitProcs lock.

Definition granted_to (s : state) (p : nat) (t : LOCKTAG) (m : Z) : Prop :=
  held (objs s t) p m ∨ fast_held s p t m.

(** The backend's own table says that it has the lock, and that it is counted. *)
Definition owns (s : state) (p : nat) (t : LOCKTAG) (m : Z) : Prop := 0 < nLocks (locallock s p t m).
Definition claims (s : state) (p : nat) (t : LOCKTAG) (m : Z) : Prop := holdsStrongLockCount (locallock s p t m) = true.

(** ** Runs *)

(** A cancelled backend has given up its count. As long as it still waits, nothing
    is lost; the lock it waits for may also be granted to it before it gets to
    remove itself from the queue. These are the states where that has not
    happened with a strong mode. *)
Definition no_late_grant (s : state) : Prop :=
  ∀ p t m o, pcs s p = Cancelled t m o → strong t m → waits (objs s t) p m.

(** A run through states of the kind [V]. *)
Definition fp_step (V : state → Prop) (s s' : state) : Prop :=
  (∃ p a, fp_exec p a s = Ok (Some s')) ∧ V s'.

(** ** The invariant

    For each backend, tag and mode, where the backend is determines what its own
    table, its slots and the lock table can say. *)
Inductive phase := PNone | PFast | PScan | PReady | PWait | PCancel | PReleasing | PShared | PRemove.

Definition pc_key (c : pc) : option (LOCKTAG * Z) :=
  match c with
  | Idle => None
  | FastLocked t m _ | FastTested t m _ | Scanning t m _ _ | Ready t m _ | Asleep t m _ | Cancelled t m _
  | Releasing t m | RelShared t m | RelRemove t m _ => Some (t, m)
  end.

Definition pc_phase (c : pc) : phase :=
  match c with
  | Idle => PNone
  | FastLocked _ _ _ | FastTested _ _ _ => PFast
  | Scanning _ _ _ _ => PScan
  | Ready _ _ _ => PReady
  | Asleep _ _ _ => PWait
  | Cancelled _ _ _ => PCancel
  | Releasing _ _ => PReleasing
  | RelShared _ _ => PShared
  | RelRemove _ _ _ => PRemove
  end.

Definition phase_of (c : pc) (t : LOCKTAG) (m : Z) : phase :=
  if decide (pc_key c = Some (t, m)) then pc_phase c else PNone.

(** [S]: the mode is strong; [E]: it is eligible for the fast path; [n]: the
    backend owns the lock; [c]: it is counted; [f]: it is in its slots; [h]: it
    is granted in the table; [w]: it is awaited there. *)
Definition key_ok (ph : phase) (S E n c f h w : Prop) : Prop :=
  match ph with
  | PNone => (n ↔ f ∨ h) ∧ ¬ (f ∧ h) ∧ (c ↔ n ∧ S) ∧ ¬ w
  | PFast => E ∧ ¬ n ∧ ¬ c ∧ ¬ f ∧ ¬ h ∧ ¬ w
  | PScan => S ∧ ¬ n ∧ c ∧ ¬ f ∧ ¬ h ∧ ¬ w
  | PReady => ¬ n ∧ (c ↔ S) ∧ ¬ f ∧ ¬ h ∧ ¬ w
  | PWait => ¬ n ∧ (c ↔ S) ∧ ¬ f ∧ (h ∨ w) ∧ ¬ (h ∧ w)
  | PCancel => ¬ n ∧ ¬ c ∧ ¬ f ∧ (h ∨ w) ∧ ¬ (h ∧ w)
  | PReleasing => E ∧ ¬ n ∧ ¬ c ∧ (f ∨ h) ∧ ¬ (f ∧ h) ∧ ¬ w
  | PShared => ¬ n ∧ (c ↔ S) ∧ ¬ f ∧ h ∧ ¬ w
  | PRemove => ¬ n ∧ (c ↔ S) ∧ ¬ f ∧ ¬ h ∧ ¬ w
  end.

Definition key_inv (s : state) (p : nat) (t : LOCKTAG) (m : Z) : Prop :=
  key_ok (phase_of (pcs s p) t m) (strong t m) (eligible p t m) (owns s p t m) (claims s p t m)
    (fast_held s p t m) (held (objs s t) p m) (waits (objs s t) p m).

Definition pc_strong (c : pc) : option (LOCKTAG * Z) :=
  match c with
  | Scanning t m _ _ => Some (t, m)
  | Ready t m _ | Asleep t m _ => if ConflictsWithRelationFastPath t m then Some (t, m) else None
  | _ => None
  end.

(** How far the transfer for a claim has come. *)
Definition done_upto (c : pc) (t : LOCKTAG) (m : Z) : nat :=
  match c with
  | Scanning t' m' _ i => if decide ((t', m') = (t, m)) then i else allProcCount
  | _ => allProcCount
  end.

(** The process has no fast-path lock on the object and is not about to take one. *)
Definition clean (s : state) (q : nat) (t : LOCKTAG) : Prop :=
  (∀ m, ¬ fast_held s q t m) ∧ ∀ m o, pcs s q ≠ FastTested t m o.

Definition counted (k : Z) (x : (nat * LOCKTAG * Z) * LOCALLOCK) : Prop :=
  holdsStrongLockCount x.2 = true ∧ partition x.1.1.2 = k.

#[local] Instance counted_dec k x : Decision (counted k x).
Proof. unfold counted. apply _. Defined.

Record local_ok (cs : Z → Z) (l : gmap (nat * LOCKTAG * Z) LOCALLOCK) : Prop := mkLocalOk {
  lo_counts : ∀ k, cs k = Z.of_nat (size (filter (counted k) l));
  lo_room : Z.of_nat (size l) < 2 ^ 32;
  lo_nonneg : ∀ key ll, l !! key = Some ll → 0 ≤ nLocks ll
}.

Definition member (p g : nat) : Prop := (p < allProcCount)%nat ∧ g = default p (leader p).
Definition may_hold (p : nat) (m : Z) : Prop := (p < allProcCount)%nat ∧ m ∈ modes.
Definition may_wait (p : nat) (g : option nat) (m : Z) : Prop := (p < allProcCount)%nat ∧ g = leader p ∧ m ∈ modes.

Record table_ok (t : LOCKTAG) (lock : LOCK) : Prop := mkTableOk {
  to_ok : lock_ok (extension t) lock;
  to_stuck : stuck lock;
  to_within : within member may_hold may_wait lock
}.

Record in_use (l : gmap (nat * LOCKTAG * Z) LOCALLOCK) (p : nat) (t : LOCKTAG) (m : Z) : Prop := mkInUse {
  iu_proc : (p < allProcCount)%nat;
  iu_mode : m ∈ modes;
  iu_tag : tag_ok t = true;
  iu_entry : is_Some (l !! (p, t, m))
}.

Record fp_inv (s : state) : Prop := mkFpInv {
  fi_slots : ∀ p, slots_ok (fps s p);
  fi_tables : ∀ t, table_ok t (objs s t);
  fi_keys : ∀ p t m, key_inv s p t m;
  fi_use : ∀ p t m, phase_of (pcs s p) t m ≠ PNone ∨ owns s p t m → in_use (locals s) p t m;
  fi_progress : ∀ p, StrongLockInProgress s p = pc_strong (pcs s p);
  fi_local : local_ok (counts s) (locals s);
  fi_clean : ∀ p t m, claims s p t m → ∀ q, (q < done_upto (pcs s p) t m)%nat → clean s q t;
  fi_result : ∀ p t m b, pcs s p = RelRemove t m b → b = true
}.

(** ** Counting the claims *)

Definition claim_of (k : Z) (key : nat * LOCKTAG * Z) (o : option LOCALLOCK) : Z :=
  match o with
  | Some ll => Z.b2z (holdsStrongLockCount ll && bool_decide (partition key.1.2 = k))
  | None => 0
  end.

Lemma counted_delete (k : Z) (key : nat * LOCKTAG * Z) (l : gmap (nat * LOCKTAG * Z) LOCALLOCK) :
  Z.of_nat (size (filter (counted k) l)) =
  Z.of_nat (size (filter (counted k) (delete key l))) + claim_of k key (l !! key).
Proof.
  destruct (l !! key) as [ll|] eqn:E; [|rewrite delete_id by done; cbn; lia].
  rewrite <- (insert_delete_id l key ll) at 1 by done. unfold claim_of.
  assert (filter (counted k) (delete key l) !! key = None) as Hn.
  { apply map_lookup_filter_None. left. apply lookup_delete_eq. }
  destruct (decide (counted k (key, ll))) as [Hc|Hc].
  - rewrite map_filter_insert_True by done. rewrite map_size_insert_None by done.
    destruct Hc as [H1 H2]. cbn in H1, H2. rewrite H1, bool_decide_true by done. cbn. lia.
  - rewrite map_filter_insert_False by done. rewrite delete_id by apply lookup_delete_eq.
    destruct (holdsStrongLockCount ll) eqn:Eh; [|cbn; lia]. rewrite bool_decide_false; [cbn; lia|].
    intros Hk. by destruct Hc.
Qed.

Lemma counted_insert (k : Z) (key : nat * LOCKTAG * Z) (ll : LOCALLOCK) (l : gmap (nat * LOCKTAG * Z) LOCALLOCK) :
  Z.of_nat (size (filter (counted k) (<[key := ll]> l))) =
  Z.of_nat (size (filter (counted k) l)) + claim_of k key (Some ll) - claim_of k key (l !! key).
Proof.
  rewrite (counted_delete k key l), (counted_delete k key (<[key := ll]> l)).
  rewrite delete_insert_eq, lookup_insert_eq. lia.
Qed.

Lemma counted_le (k : Z) (l : gmap (nat * LOCKTAG * Z) LOCALLOCK) : (size (filter (counted k) l) ≤ size l)%nat.
Proof. apply map_subseteq_size, map_filter_subseteq. Qed.

Lemma counted_u32 (k : Z) (l : gmap (nat * LOCKTAG * Z) LOCALLOCK) : Z.of_nat (size l) < 2 ^ 32 →
  u32 (Z.of_nat (size (filter (counted k) l))) = Z.of_nat (size (filter (counted k) l)).
Proof. intros H. apply u32_id. pose proof (counted_le k l). unfold in_u32. lia. Qed.

(** An entry is written and its claim goes up or down with the counter. *)
Lemma local_ok_write (cs cs' : Z → Z) (key : nat * LOCKTAG * Z) (ll : LOCALLOCK) (l : gmap (nat * LOCKTAG * Z) LOCALLOCK) :
  local_ok cs l → Z.of_nat (size (<[key := ll]> l)) < 2 ^ 32 → 0 ≤ nLocks ll →
  (∀ k, cs' k = u32 (cs k + claim_of k key (Some ll) - claim_of k key (l !! key)) ∨
        cs' k = cs k ∧ claim_of k key (Some ll) = claim_of k key (l !! key)) →
  local_ok cs' (<[key := ll]> l).
Proof.
  intros [H1 H2 H3] Hr Hn Hc. constructor; [|done|].
  - intros k. destruct (Hc k) as [->|[-> E]]; rewrite H1.
    + rewrite <- counted_insert. by apply counted_u32.
    + rewrite counted_insert. lia.
  - intros key' ll' [[<- <-]|[_ ?]]%lookup_insert_Some; [done|by eapply H3].
Qed.

Lemma size_rewrite (key : nat * LOCKTAG * Z) (ll : LOCALLOCK) (l : gmap (nat * LOCKTAG * Z) LOCALLOCK) : is_Some (l !! key) → size (<[key := ll]> l) = size l.
Proof. intros. by apply map_size_insert_Some. Qed.

Lemma claim_same k key ll o : holdsStrongLockCount ll = holdsStrongLockCount (default new_locallock o) →
  claim_of k key (Some ll) = claim_of k key o.
Proof. intros E. destruct o as [x|]; cbn in *; by rewrite E. Qed.

Lemma local_ok_remove (cs cs' : Z → Z) (key : nat * LOCKTAG * Z) (l : gmap (nat * LOCKTAG * Z) LOCALLOCK) :
  local_ok cs l →
  (∀ k, cs' k = u32 (cs k - claim_of k key (l !! key)) ∨ cs' k = cs k ∧ claim_of k key (l !! key) = 0) →
  local_ok cs' (delete key l).
Proof.
  intros [H1 H2 H3] Hc. assert (Z.of_nat (size (delete key l)) < 2 ^ 32) as Hr.
  { pose proof (map_subseteq_size (delete key l) l (delete_subseteq l key)). lia. }
  constructor; [|done|].
  - intros k. destruct (Hc k) as [->|[-> E]]; rewrite H1, (counted_delete k key l); [|lia].
    replace (_ + _ - _) with (Z.of_nat (size (filter (counted k) (delete key l)))) by lia. by apply counted_u32.
  - intros key' ll' [_ ?]%lookup_delete_Some. by eapply H3.
Qed.

(** ** Frames *)

(** What an action can do to a lock of another backend: nothing, wake it up, or
    move it from its slots to the table. *)
Definition moves (f h w f' h' w' : Prop) : Prop :=
  (f' ↔ f) ∧ (h' ↔ h) ∧ (w' ↔ w) ∨ (f' ↔ f) ∧ w ∧ ¬ h ∧ h' ∧ ¬ w' ∨ f ∧ ¬ h ∧ ¬ f' ∧ h' ∧ (w' ↔ w).

Lemma key_moves ph S E n c f h w f' h' w' : key_ok ph S E n c f h w → moves f h w f' h' w' → key_ok ph S E n c f' h' w'.
Proof. unfold moves. destruct ph; cbn; tauto. Qed.

Lemma key_claims ph S E n c c' f h w : key_ok ph S E n c f h w → (c' ↔ c) → key_ok ph S E n c' f h w.
Proof. destruct ph; cbn; tauto. Qed.

Lemma waits_not_held t lock p m : table_ok t lock → waits lock p m → ¬ held lock p m.
Proof.
  intros [Hok _ _] (w & [= -> ->] & Hw)%list_elem_of_fmap. destruct (inv_waiter _ _ _ _ Hok w Hw) as (_ & pl & Hpl & <- & Hh).
  apply not_held; [apply Hok|done..].
Qed.

Definition table_frame (p : nat) (m : Z) (lock lock' : LOCK) : Prop :=
  ∀ q i f, (q, i) ≠ (p, m) → moves f (held lock q i) (waits lock q i) f (held lock' q i) (waits lock' q i).

Definition reach_held (lock : LOCK) (p : nat) (m : Z) (q : nat) (i : Z) : Prop :=
  held lock q i ∨ waits lock q i ∨ (q, i) = (p, m).
Definition reach_wait (lock : LOCK) (p : nat) (m : Z) (q : nat) (_ : option nat) (i : Z) : Prop :=
  i ∈ modes ∧ (waits lock q i ∨ (q, i) = (p, m)).

Lemma reach_start t lock p m : table_ok t lock → within (λ _ _, True) (reach_held lock p m) (reach_wait lock p m) lock.
Proof.
  intros [Hok _ _]. constructor; [done| |].
  - intros pl i Hpl Hi. left. by exists pl.
  - intros w Hw. split; [apply (inv_waiter _ _ _ _ Hok w Hw)|]. left. change (waiter_key w ∈ waiter_key <$> waitProcs lock).
    by apply list_elem_of_fmap_2.
Qed.

Lemma reach_waiter lock p m q g i : reach_wait lock p m q g i → reach_held lock p m q i ∧ i ∈ modes.
Proof. intros [Hi [H|H]]; (split; [|done]); [right; left|right; right]; done. Qed.

Lemma static_waiter p g m : may_wait p g m → may_hold p m ∧ m ∈ modes.
Proof. intros (? & _ & ?). done. Qed.

(** A change of the table that brings in no more than the requester, and takes away no more than it. *)
Lemma frame_of t lock lock' p m :
  table_ok t lock → table_ok t lock' →
  within (λ _ _, True) (reach_held lock p m) (reach_wait lock p m) lock' →
  (∀ q i, i ∈ modes → held lock q i → (q, i) ≠ (p, m) → held lock' q i) →
  (∀ w, w ∈ waitProcs lock → waiter_key w ≠ (p, m) →
     waiter_key w ∈ waiter_key <$> waitProcs lock' ∨ held lock' (pgprocno w) (waitLockMode w)) →
  table_frame p m lock lock'.
Proof.
  intros Ht Ht' Hr Hh Hw q i f Hne.
  assert (held lock q i → held lock' q i) as H1.
  { intros H. apply Hh; [|done..]. apply (within_held _ _ _ _ _ _ (to_within _ _ Ht)) in H. apply H. }
  assert (held lock' q i → held lock q i ∨ waits lock q i) as H2.
  { intros [?|[?|?]]%(within_held _ _ _ _ _ _ Hr); [by left|by right|done]. }
  assert (waits lock' q i → waits lock q i) as H3.
  { intros (w & [= -> ->] & Hin)%list_elem_of_fmap. by destruct (wi_waiters _ _ _ _ Hr w Hin) as [_ [?|?]]. }
  assert (waits lock q i → waits lock' q i ∨ held lock' q i) as H4.
  { intros (w & [= -> ->] & Hin)%list_elem_of_fmap. by apply Hw. }
  pose proof (waits_not_held t lock q i Ht) as H5. pose proof (waits_not_held t lock' q i Ht') as H6.
  unfold moves. destruct (held_dec lock' q i), (held_dec lock q i); tauto.
Qed.


Lemma not_queued lock p m : p ∉ pgprocno <$> waitProcs lock → ¬ waits lock p m.
Proof. intros Hn (w & [= -> _] & Hw)%list_elem_of_fmap. apply Hn. by apply list_elem_of_fmap_2. Qed.

Lemma acquire_table t p r d m dw lock :
  table_ok t lock → (p < allProcCount)%nat → m ∈ modes → p ∉ pgprocno <$> waitProcs lock → ¬ held lock p m →
  ∃ res lock', LockAcquireExtended (extension t) (proc_of p r d) m dw lock = Ok (res, lock') ∧
    table_ok t lock' ∧ table_frame p m lock lock' ∧
    match res with
    | LOCKACQUIRE_OK => held lock' p m ∧ ¬ waits lock' p m
    | RequestWaiting => ¬ held lock' p m ∧ waits lock' p m
    | _ => ¬ held lock' p m ∧ ¬ waits lock' p m
    end.
Proof.
  intros Ht Hp Hm Hnw Hnh.
  destruct (LockAcquire_spec (extension t) (proc_of p r d) m dw lock) as (res & lock' & E & Ha); try done; [apply Ht..|].
  destruct Ha as [H1 H2 H3 H4 H5]. cbn [proc_of pgprocno] in *.
  assert (table_ok t lock') as Ht'.
  { constructor; [done..|]. eapply (acquire_within _ _ _ static_waiter), E; [apply Ht|by repeat split..]. }
  assert (table_frame p m lock lock') as Hf.
  { apply (frame_of t); try done.
    - eapply (acquire_within _ _ _ (reach_waiter lock p m)), E; [by eapply reach_start|done|]. split; [done|by right].
    - intros q i Hi Hq _. by apply H3.
    - intros w Hw _. by apply H5. }
  exists res, lock'. split_and!; try done. destruct res.
  - destruct H4 as [? Hw]. split; [done|]. unfold waits. rewrite Hw. by apply not_queued.
  - split; [apply H4|]. intros Hw. apply (waits_not_held t lock' p m Ht' Hw), H4.
  - destruct H4 as [? Hw]. split; [done|]. unfold waits. rewrite Hw. left.
  - destruct H4 as [? Hw]. split; [done|]. by apply not_queued.
Qed.

Lemma release_table t p r d m lock :
  table_ok t lock → m ∈ modes → p ∉ pgprocno <$> waitProcs lock → held lock p m →
  ∃ lock', LockRelease (extension t) (proc_of p r d) m lock = Ok (true, lock') ∧
    table_ok t lock' ∧ table_frame p m lock lock' ∧ ¬ held lock' p m ∧ ¬ waits lock' p m.
Proof.
  intros Ht Hm Hnw Hh.
  destruct (LockRelease_spec (extension t) (proc_of p r d) m lock) as (lock' & E & [H1 H2 H3 H4 H5 H6]); try done; [apply Ht..|].
  cbn [proc_of pgprocno] in *.
  assert (table_ok t lock') as Ht'.
  { constructor; [done..|]. eapply (release_within _ _ _ static_waiter), E. apply Ht. }
  exists lock'. split_and!; try done.
  - apply (frame_of t); try done.
    + eapply (release_within _ _ _ (reach_waiter lock p m)), E. by eapply reach_start.
    + intros q i Hi Hq Hne. apply H4; try done. destruct (decide (q = p)) as [->|]; [right|by left]. congruence.
    + intros w Hw _. destruct (H5 w Hw); [left|by right]. by apply list_elem_of_fmap_2.
  - apply not_queued. intros Hin. apply Hnw. eapply elem_of_sublist; [exact Hin|]. by apply fmap_sublist.
Qed.

Lemma find_waiter_Some p lock w : find_waiter p lock = Some w → w ∈ waitProcs lock ∧ pgprocno w = p.
Proof.
  unfold find_waiter. intros ([i x] & Hf & [= <-])%bind_Some.
  apply list_find_Some in Hf as (Hi & Hp & _). split; [|done]. by eapply list_elem_of_lookup_2.
Qed.

Lemma find_waiter_None p lock : find_waiter p lock = None → p ∉ pgprocno <$> waitProcs lock.
Proof.
  unfold find_waiter. intros [Hf|([i x] & _ & ?)]%bind_None; [|done].
  apply list_find_None in Hf. intros (y & -> & Hy)%list_elem_of_fmap. rewrite Forall_forall in Hf. by apply (Hf y).
Qed.

Lemma cancel_table t p r d m lock w :
  table_ok t lock → find_waiter p lock = Some w → waitLockMode w = m →
  ∃ lock', RemoveFromWaitQueue (extension t) (proc_of p r d) w lock = Ok lock' ∧
    table_ok t lock' ∧ table_frame p m lock lock' ∧ ¬ held lock' p m ∧ ¬ waits lock' p m.
Proof.
  intros Ht [Hw Hp]%find_waiter_Some Em. pose proof Hw as Hw0. apply list_elem_of_split in Hw as (a & b & Eq).
  destruct (RemoveFromWaitQueue_spec (extension t) (proc_of p r d) w lock a b (to_ok _ _ Ht) Eq)
    as (lock' & E & [H1 H2 H3 H4 H5] & H6). cbn [with_waitProcs waitProcs] in *.
  assert (p ∉ pgprocno <$> (a ++ b)) as Hnq.
  { pose proof (inv_waiters _ _ _ _ (to_ok _ _ Ht)) as Hnd. rewrite Eq, <- Permutation_middle, fmap_cons, Hp in Hnd.
    by apply NoDup_cons in Hnd as [? _]. }
  assert (table_ok t lock') as Ht'.
  { constructor; [done..|]. eapply (remove_within _ _ _ static_waiter), E. apply Ht. }
  exists lock'. split_and!; try done.
  - apply (frame_of t); try done.
    + eapply (remove_within _ _ _ (reach_waiter lock p m)), E. by eapply reach_start.
    + intros q i Hi Hq _. by apply H2.
    + intros v Hv Hne. rewrite Eq in Hv. destruct (H4 v) as [?|?]; [|left; by apply list_elem_of_fmap_2|by right].
      apply elem_of_app. apply elem_of_app in Hv as [?|[->|?]%elem_of_cons]; [by left| |by right].
      destruct Hne. unfold waiter_key. congruence.
  - intros [Hh|(v & Hv & Ev & _)]%H3.
    + apply (waits_not_held t lock p m Ht); [|exact Hh]. apply list_elem_of_fmap. exists w. split; [|done].
      unfold waiter_key. congruence.
    + apply Hnq. rewrite <- Ev. by apply list_elem_of_fmap_2.
  - apply not_queued. intros Hin. apply Hnq. eapply elem_of_sublist; [exact Hin|]. by apply fmap_sublist.
Qed.

(** ** One action *)

Definition about (c : pc) (t : LOCKTAG) (m : Z) : Prop := pc_key c = None ∨ pc_key c = Some (t, m).

Lemma phase_elsewhere c t m t' m' : about c t m → (t', m') ≠ (t, m) → phase_of c t' m' = PNone.
Proof. intros [E|E] Hne; unfold phase_of; rewrite decide_False; [done|congruence|done|congruence]. Qed.

Lemma phase_idle t m : phase_of Idle t m = PNone.
Proof. done. Qed.

Lemma phase_here c t m : pc_key c = Some (t, m) → phase_of c t m = pc_phase c.
Proof. intros E. unfold phase_of. by rewrite decide_True. Qed.

Lemma done_elsewhere c t m t' m' : about c t m → (t', m') ≠ (t, m) → done_upto c t' m' = allProcCount.
Proof.
  intros Ha Hne. destruct c as [| | |t0 m0 ? ?| | | | | |]; try done. cbn. rewrite decide_False; [done|].
  destruct Ha as [E|E]; cbn in E; congruence.
Qed.

(** What an action of the backend [p] about the lock [t], [m] may change: its own
    entry and place, and for others only as [moves] says. *)
Record acts (p : nat) (t : LOCKTAG) (m : Z) (c' : pc) (s s' : state) : Prop := mkActs {
  ac_pcs : ∀ q, pcs s' q = if decide (q = p) then c' else pcs s q;
  ac_before : about (pcs s p) t m;
  ac_after : about c' t m;
  ac_locals : ∀ key, key ≠ (p, t, m) → locals s' !! key = locals s !! key;
  ac_slots : ∀ q, slots_ok (fps s' q);
  ac_tables : ∀ u, table_ok u (objs s' u);
  ac_moves : ∀ q u i, (q, u, i) ≠ (p, t, m) →
    moves (fast_held s q u i) (held (objs s u) q i) (waits (objs s u) q i)
      (fast_held s' q u i) (held (objs s' u) q i) (waits (objs s' u) q i);
  ac_key : key_inv s' p t m;
  ac_use : phase_of c' t m ≠ PNone ∨ owns s' p t m → in_use (locals s') p t m;
  ac_progress : ∀ q, StrongLockInProgress s' q = if decide (q = p) then pc_strong c' else StrongLockInProgress s q;
  ac_local : local_ok (counts s') (locals s');
  ac_clean : ∀ q u, clean s q u → clean s' q u ∨ ∀ q' i, ¬ claims s q' u i;
  ac_done : claims s' p t m → ∀ q, (q < done_upto c' t m)%nat → clean s' q t;
  ac_result : ∀ u i b, c' = RelRemove u i b → b = true
}.

Lemma fp_inv_acts p t m c' s s' : fp_inv s → acts p t m c' s s' → fp_inv s'.
Proof.
  intros [I1 I2 I3 I4 I5 I6 I7 I8] [Hpc A2 A3 A4 A5 A6 A7 A8 A9 A10 A11 A12 A13 A14].
  assert (∀ q u i, (q, u, i) ≠ (p, t, m) → locallock s' q u i = locallock s q u i) as Hll.
  { intros q u i Hne. unfold locallock. by rewrite A4. }
  assert (∀ q u i, (q, u, i) ≠ (p, t, m) → phase_of (pcs s' q) u i = phase_of (pcs s q) u i ∧
    done_upto (pcs s' q) u i = done_upto (pcs s q) u i) as Hph.
  { intros q u i Hne. rewrite Hpc. case_decide; [subst q|done]. assert ((u, i) ≠ (t, m)) as Hne' by congruence.
    by rewrite !(phase_elsewhere _ t m), !(done_elsewhere _ t m). }
  constructor; try done.
  - intros q u i. destruct (decide ((q, u, i) = (p, t, m))) as [[= -> -> ->]|Hne]; [done|].
    specialize (I3 q u i). unfold key_inv, owns, claims in *. rewrite Hll by done. rewrite (proj1 (Hph q u i Hne)).
    by eapply key_moves, A7.
  - intros q u i. destruct (decide ((q, u, i) = (p, t, m))) as [[= -> -> ->]|Hne].
    { rewrite Hpc, decide_True by done. apply A9. }
    unfold owns. rewrite Hll, (proj1 (Hph q u i Hne)) by done. intros [J1 J2 J3 J4]%I4. constructor; try done.
    by rewrite A4.
  - intros q. rewrite Hpc, A10. by case_decide.
  - intros q u i Hc. destruct (decide ((q, u, i) = (p, t, m))) as [[= -> -> ->]|Hne].
    { rewrite Hpc, decide_True by done. by apply A13. }
    unfold claims in Hc. rewrite Hll in Hc by done. intros x Hx. rewrite (proj2 (Hph q u i Hne)) in Hx.
    destruct (A12 x u) as [?|Hno]; [by eapply I7|done|]. by destruct (Hno q i).
  - intros q u i b. rewrite Hpc. case_decide; [apply A14|apply I8].
Qed.

(** ** The own entry of a backend *)

Lemma entry_nonneg s p t m : fp_inv s → 0 ≤ nLocks (locallock s p t m).
Proof.
  intros Hi. unfold locallock. destruct (locals s !! (p, t, m)) as [ll|] eqn:E; [|done].
  by apply (lo_nonneg _ _ (fi_local _ Hi) _ _ E).
Qed.

Lemma inv_key s p t m ph : fp_inv s → phase_of (pcs s p) t m = ph →
  key_ok ph (strong t m) (eligible p t m) (owns s p t m) (claims s p t m)
    (fast_held s p t m) (held (objs s t) p m) (waits (objs s t) p m).
Proof. intros Hi <-. by apply fi_keys. Qed.

(** A backend that is not asleep is in no queue. *)
Lemma awake_unqueued s p t : fp_inv s → pc_phase (pcs s p) ≠ PWait → pc_phase (pcs s p) ≠ PCancel → p ∉ pgprocno <$> waitProcs (objs s t).
Proof.
  intros Hi Hp Hp' (w & -> & Hw)%list_elem_of_fmap.
  assert (waits (objs s t) (pgprocno w) (waitLockMode w)) as Hq by (apply list_elem_of_fmap; by exists w).
  pose proof (fi_keys _ Hi (pgprocno w) t (waitLockMode w)) as Hk. unfold key_inv, phase_of in Hk.
  destruct (decide _); [|unfold key_ok in Hk; tauto]. destruct (pcs s (pgprocno w)); cbn in *; tauto || done.
Qed.

(** No strong mode is granted while a process has a fast-path lock it may conflict with. *)
Lemma claim_blocks_fast s p t m q : fp_inv s → claims s p t m → phase_of (pcs s p) t m ≠ PScan →
  (q < allProcCount)%nat → clean s q t.
Proof.
  intros Hi Hc Hp Hq. apply (fi_clean _ Hi p t m Hc). unfold done_upto, phase_of in *.
  destruct (pcs s p) as [| | |t0 m0 ? ?| | | | | |]; try done. cbn in Hp |- *. destruct (decide ((t0, m0) = (t, m))) as [E|]; [|done].
  rewrite decide_True in Hp by congruence. done.
Qed.

Lemma eligible_facts p t m : eligible p t m →
  locktag_lockmethodid t = DEFAULT_LOCKMETHOD ∧ locktag_type t = LOCKTAG_RELATION ∧
  locktag_field1 t = databaseId p ∧ databaseId p ≠ InvalidOid ∧ m < ShareUpdateExclusiveLock.
Proof. unfold eligible, EligibleForRelationFastPath. rewrite !andb_true_iff, negb_true_iff, Z.ltb_lt. lia. Qed.

Lemma strong_facts t m : strong t m →
  locktag_lockmethodid t = DEFAULT_LOCKMETHOD ∧ locktag_type t = LOCKTAG_RELATION ∧
  locktag_field1 t ≠ InvalidOid ∧ ShareUpdateExclusiveLock < m.
Proof. unfold strong, ConflictsWithRelationFastPath. rewrite !andb_true_iff, negb_true_iff, Z.ltb_lt. lia. Qed.

(** Without late grants a cancelled backend holds no strong mode. *)
Lemma cancelled_waits s p t m : fp_inv s → no_late_grant s → phase_of (pcs s p) t m = PCancel → strong t m →
  ¬ held (objs s t) p m.
Proof.
  intros Hi Hl Hp Hs Hh. destruct (inv_key s p t m PCancel Hi Hp) as (_ & _ & _ & _ & Hn). apply Hn. split; [done|].
  unfold phase_of in Hp. destruct (decide _) as [E|]; [|done].
  destruct (pcs s p) as [| | | | | |t0 m0 o| | |] eqn:Ec; try done. injection E as -> ->. by apply (Hl p t m o).
Qed.

(** A fast-path lock and a strong mode of the same object exclude each other. *)
Lemma fast_excludes_strong s q t m p i : fp_inv s → no_late_grant s → fast_held s q t m → held (objs s t) p i →
  i ≤ ShareUpdateExclusiveLock.
Proof.
  intros Hi Hl Hf Hh. destruct (decide (i ≤ ShareUpdateExclusiveLock)) as [|Hgt]; [done|exfalso].
  destruct Hf as (He & Htag & Hx). pose proof (eligible_facts _ _ _ He) as (E1 & E2 & E3 & E4 & _).
  assert (strong t i) as Hs.
  { unfold strong, ConflictsWithRelationFastPath. rewrite !andb_true_iff, negb_true_iff, Z.ltb_lt. lia. }
  assert (¬ eligible p t i) as Hne by (intros (_ & _ & _ & _ & ?)%eligible_facts; lia).
  pose proof (fi_keys _ Hi p t i) as Hk. unfold key_inv in Hk.
  pose proof (λ E, cancelled_waits s p t i Hi Hl E Hs) as Hcan.
  assert (claims s p t i ∧ phase_of (pcs s p) t i ≠ PScan) as [Hc Hp]
    by (destruct (phase_of (pcs s p) t i); cbn in Hk; try (by destruct Hcan); (split; [tauto|try done; tauto])).
  assert (q < allProcCount)%nat as Hq.
  { apply (iu_proc (locals s) q t m), fi_use; [done|]. pose proof (fi_keys _ Hi q t m) as Hq. unfold key_inv in Hq.
    destruct (phase_of (pcs s q) t m); [|by left..]. right. apply (proj1 Hq). by left. }
  destruct (claim_blocks_fast s p t i q Hi Hc Hp Hq) as [Hno _]. by apply (Hno m).
Qed.

Lemma goto_pcs p c s q : pcs (goto p c s) q = if decide (q = p) then c else pcs s q.
Proof. cbn. case_decide; [subst; apply fn_lookup_insert|by apply fn_lookup_insert_ne]. Qed.

Lemma progress_set p o s q :
  StrongLockInProgress (set_progress p o s) q = if decide (q = p) then o else StrongLockInProgress s q.
Proof. cbn. case_decide; [subst; apply fn_lookup_insert|by apply fn_lookup_insert_ne]. Qed.

Lemma tested_dec c u : (∃ i o, c = FastTested u i o) ∨ ∀ i o, c ≠ FastTested u i o.
Proof.
  destruct c as [| |t i o| | | | | | |]; try (right; congruence).
  destruct (decide (t = u)) as [->|]; [left; eauto|right; congruence].
Qed.

(** An action that touches neither slots nor tables. *)
Lemma acts_local p t m c' s s' :
  fp_inv s → fps s' = fps s → objs s' = objs s →
  (∀ q, pcs s' q = if decide (q = p) then c' else pcs s q) →
  about (pcs s p) t m → about c' t m →
  (∀ key, key ≠ (p, t, m) → locals s' !! key = locals s !! key) →
  key_ok (phase_of c' t m) (strong t m) (eligible p t m) (owns s' p t m) (claims s' p t m)
    (fast_held s p t m) (held (objs s t) p m) (waits (objs s t) p m) →
  (phase_of c' t m ≠ PNone ∨ owns s' p t m → in_use (locals s') p t m) →
  (∀ q, StrongLockInProgress s' q = if decide (q = p) then pc_strong c' else StrongLockInProgress s q) →
  local_ok (counts s') (locals s') →
  (∀ u i o, c' = FastTested u i o → ∀ q j, ¬ claims s q u j) →
  (claims s' p t m → done_upto c' t m = 0%nat ∨ claims s p t m ∧
     ∀ q, (q < done_upto c' t m)%nat → (q < done_upto (pcs s p) t m)%nat ∨ clean s q t) →
  (∀ u i b, c' = RelRemove u i b → b = true) →
  fp_inv s'.
Proof.
  intros Hi Ef Eo Hpc Ha Ha' Hl Hk Hu Hp Hlo Hft Hd Hr.
  assert (∀ q u i, fast_held s' q u i ↔ fast_held s q u i) as Hfast by (intros; unfold fast_held; by rewrite Ef).
  assert (∀ q u, clean s q u → clean s' q u ∨ ∀ q' i, ¬ claims s q' u i) as Hclean.
  { intros q u [H1 H2]. destruct (decide (q = p)) as [->|Hne].
    - destruct (tested_dec c' u) as [(i & o & E)|Hno]; [right; by apply (Hft u i o)|].
      left. split; [intros i; rewrite Hfast; apply H1|]. intros i o. rewrite Hpc, decide_True by done. apply Hno.
    - left. split; [intros i; rewrite Hfast; apply H1|]. intros i o. rewrite Hpc, decide_False by done. apply H2. }
  apply (fp_inv_acts p t m c' s s' Hi). constructor; try done.
  - rewrite Ef. apply Hi.
  - rewrite Eo. apply Hi.
  - intros q u i _. rewrite Eo. unfold moves. rewrite Hfast. tauto.
  - unfold key_inv. rewrite Hpc, decide_True by done. rewrite Eo. destruct (Hfast p t m) as [H1 H2].
    eapply key_moves; [exact Hk|]. unfold moves. tauto.
  - intros Hc q Hq. destruct (Hd Hc) as [E|[Hc0 Hlt]]; [lia|].
    assert (clean s q t) as Hcl by (destruct (Hlt q Hq); [by eapply fi_clean|done]).
    destruct (Hclean q t Hcl) as [?|Hno]; [done|]. by destruct (Hno p m).
Qed.

Lemma claim_at k p t m o : claim_of k (p, t, m) o =
  if decide (k = partition t) then Z.b2z (holdsStrongLockCount (default new_locallock o)) else 0.
Proof.
  destruct o as [ll|]; cbn; case_decide; subst; rewrite ?bool_decide_true, ?andb_true_r by done; try done.
  by rewrite bool_decide_false, andb_false_r by congruence.
Qed.

Lemma counts_set k v (cs : Z → Z) k' : (<[k := v]> cs) k' = if decide (k' = k) then v else cs k'.
Proof. case_decide; [subst; apply fn_lookup_insert|by apply fn_lookup_insert_ne]. Qed.

Lemma local_ok_flag s p t m ll d : local_ok (counts s) (locals s) → is_Some (locals s !! (p, t, m)) → 0 ≤ nLocks ll →
  Z.b2z (holdsStrongLockCount ll) = Z.b2z (holdsStrongLockCount (locallock s p t m)) + d →
  local_ok (<[partition t := u32 (counts s (partition t) + d)]> (counts s)) (<[(p, t, m) := ll]> (locals s)).
Proof.
  intros Hl Hs Hn Hd. apply (local_ok_write (counts s)); [done| |done|].
  - rewrite size_rewrite by done. apply Hl.
  - intros k. rewrite counts_set, !claim_at. fold (locallock s p t m).
    change (default new_locallock (Some ll)) with ll. case_decide; [left|right; done]. subst k. f_equal. lia.
Qed.

Lemma local_ok_keep s p t m ll : local_ok (counts s) (locals s) →
  is_Some (locals s !! (p, t, m)) ∨ Z.of_nat (size (locals s)) < 2 ^ 32 - 1 → 0 ≤ nLocks ll →
  holdsStrongLockCount ll = holdsStrongLockCount (locallock s p t m) →
  local_ok (counts s) (<[(p, t, m) := ll]> (locals s)).
Proof.
  intros Hl Hs Hn Hd. apply (local_ok_write (counts s)); [done| |done|].
  - destruct (locals s !! (p, t, m)) as [x|] eqn:E; [rewrite size_rewrite by (by rewrite E); apply Hl|].
    rewrite map_size_insert_None by done. destruct Hs as [[? ?]|]; [done|lia].
  - intros k. right. split; [done|]. by apply claim_same.
Qed.

Lemma locals_insert_ne (l : gmap (nat * LOCKTAG * Z) LOCALLOCK) key ll key' :
  key' ≠ key → <[key := ll]> l !! key' = l !! key'.
Proof. intros. by rewrite lookup_insert_ne by congruence. Qed.

(** ** Giving up the count *)

Record aborted (p : nat) (t : LOCKTAG) (m : Z) (s s1 : state) : Prop := mkAborted {
  ab_fps : fps s1 = fps s;
  ab_objs : objs s1 = objs s;
  ab_pcs : pcs s1 = pcs s;
  ab_locals : ∀ key, key ≠ (p, t, m) → locals s1 !! key = locals s !! key;
  ab_nLocks : nLocks (locallock s1 p t m) = nLocks (locallock s p t m);
  ab_claims : ¬ claims s1 p t m;
  ab_progress : ∀ q, StrongLockInProgress s1 q = if decide (q = p) then None else StrongLockInProgress s q;
  ab_local : local_ok (counts s1) (locals s1);
  ab_entry : is_Some (locals s !! (p, t, m)) → is_Some (locals s1 !! (p, t, m))
}.

Lemma abort_ok s p t m : fp_inv s → (claims s p t m ↔ strong t m) →
  StrongLockInProgress s p = (if ConflictsWithRelationFastPath t m then Some (t, m) else None) →
  aborted p t m s (AbortStrongLockAcquire p s).
Proof.
  intros Hi Hc Hp. unfold AbortStrongLockAcquire. rewrite Hp.
  destruct (ConflictsWithRelationFastPath t m) eqn:Es.
  2: { constructor; try done; [by rewrite Hc; unfold strong; rewrite Es| |apply Hi].
       intros q. case_decide; [by subst|done]. }
  assert (claims s p t m) as Hcl by by apply Hc. pose proof (entry_nonneg s p t m Hi) as Hn.
  constructor; try done; cbn [set_progress set_local set_locals set_counts locals counts].
  - intros key ?. by apply locals_insert_ne.
  - unfold locallock at 1. cbn. by rewrite lookup_insert_eq.
  - unfold claims, locallock. cbn. by rewrite lookup_insert_eq.
  - intros q. exact (progress_set p None s q).
  - change (counts s (partition t) - 1) with (counts s (partition t) + -1). apply local_ok_flag; [apply Hi| |done|].
    + unfold claims, locallock in Hcl. by destruct (locals s !! (p, t, m)).
    + unfold claims in Hcl. by rewrite Hcl.
  - intros _. rewrite lookup_insert_eq. done.
Qed.

(** A request that has failed: the entry goes, with the count. *)
Lemma request_failed_inv s p t m : fp_inv s → pc_key (pcs s p) = Some (t, m) → pc_phase (pcs s p) = PScan ∨ pc_phase (pcs s p) = PReady →
  fp_inv (request_failed p t m s).
Proof.
  intros Hi Hk Hph. pose proof (fi_keys _ Hi p t m) as Hkey. unfold key_inv in Hkey. rewrite (phase_here _ t m Hk) in Hkey.
  assert (aborted p t m s (AbortStrongLockAcquire p s)) as [A1 A2 A3 A4 A5 A6 A7 A8 A9].
  { apply abort_ok; [done| |rewrite (fi_progress _ Hi)].
    - destruct Hph as [E|E]; rewrite E in Hkey; cbn in Hkey; tauto.
    - destruct (pcs s p); cbn in Hk, Hph |- *; try (by destruct Hph); injection Hk as -> ->; [|done].
      destruct Hkey as [Hs _]. unfold strong in Hs. by rewrite Hs. }
  unfold request_failed, RemoveLocalLock. set (s1 := AbortStrongLockAcquire p s) in *. cbv zeta.
  assert (nLocks (locallock s1 p t m) = 0) as Hz.
  { assert (¬ owns s p t m) as Hno by (destruct Hph as [E|E]; rewrite E in Hkey; cbn in Hkey; tauto).
    unfold owns in Hno. pose proof (entry_nonneg s p t m Hi). lia. }
  rewrite Hz. change (0 =? 0) with true. cbv iota.
  destruct (holdsStrongLockCount (locallock s1 p t m)) eqn:Eh; [by destruct A6|].
  assert (locallock (goto p Idle (set_locals (delete (p, t, m) (locals s1)) s1)) p t m = new_locallock) as Hnew.
  { unfold locallock. cbn. by rewrite lookup_delete_eq. }
  assert (¬ owns (goto p Idle (set_locals (delete (p, t, m) (locals s1)) s1)) p t m) as Hno
    by (unfold owns; rewrite Hnew; cbn; lia).
  assert (¬ claims (goto p Idle (set_locals (delete (p, t, m) (locals s1)) s1)) p t m) as Hnc
    by (unfold claims; by rewrite Hnew).
  apply (acts_local p t m Idle s); try done.
  - intros q. by rewrite goto_pcs, <- A3.
  - by right.
  - by left.
  - intros key ?. cbn. rewrite lookup_delete_ne by done. by apply A4.
  - destruct Hph as [E|E]; rewrite E in Hkey; rewrite phase_idle; cbn in Hkey |- *; tauto.
  - by intros [?|?].
  - cbn. apply (local_ok_remove (counts s1)); [done|]. intros k. right. split; [done|]. rewrite claim_at.
    case_decide; [|done]. fold (locallock s1 p t m). by rewrite Eh.
Qed.

(** ** Taking a lock *)

(** The backend has nothing of the lock and may ask for it. *)
Record free (s : state) (p : nat) (t : LOCKTAG) (m : Z) : Prop := mkFree {
  fr_about : about (pcs s p) t m;
  fr_progress : pc_strong (pcs s p) = None;
  fr_use : in_use (locals s) p t m;
  fr_owns : ¬ owns s p t m;
  fr_claims : ¬ claims s p t m;
  fr_fast : ¬ fast_held s p t m;
  fr_held : ¬ held (objs s t) p m;
  fr_waits : ¬ waits (objs s t) p m
}.

Lemma entry_set s p t m ll : locallock (set_local p t m ll s) p t m = ll.
Proof. unfold locallock, set_local. cbn. by rewrite lookup_insert_eq. Qed.

Lemma in_use_same (l l' : gmap (nat * LOCKTAG * Z) LOCALLOCK) p t m :
  in_use l p t m → (is_Some (l !! (p, t, m)) → is_Some (l' !! (p, t, m))) → in_use l' p t m.
Proof. intros [H1 H2 H3 H4] H. constructor; auto. Qed.

Lemma progress_keep s p o q : fp_inv s → pc_strong (pcs s p) = o →
  StrongLockInProgress s q = if decide (q = p) then o else StrongLockInProgress s q.
Proof. intros Hi <-. case_decide; [subst; apply fi_progress|]; done. Qed.

Lemma slow_start_inv s p t m o : fp_inv s → free s p t m → fp_inv (slow_start p t m o s).
Proof.
  intros Hi [H1 H2 H3 H4 H5 H6 H7 H8]. unfold slow_start.
  destruct (ConflictsWithRelationFastPath t m) eqn:Es.
  - set (s' := goto _ _ _).
    assert (locallock s' p t m = set_strong true (locallock s p t m)) as El.
    { unfold s', BeginStrongLockAcquire. rewrite <- (entry_set s p t m (set_strong true (locallock s p t m))). done. }
    apply (acts_local p t m (Scanning t m o 0) s); try done.
    + intros q. exact (goto_pcs p _ s q).
    + by right.
    + intros key ?. by apply locals_insert_ne.
    + rewrite phase_here by done. unfold owns, claims. rewrite El. by split_and!.
    + intros _. apply (in_use_same (locals s)); [done|]. cbn. by rewrite lookup_insert_eq.
    + intros q. exact (progress_set p (Some (t, m)) s q).
    + apply (local_ok_flag s p t m (set_strong true (locallock s p t m)) 1); [apply Hi|apply H3|by apply entry_nonneg|].
      unfold claims in H5. apply not_true_iff_false in H5. by rewrite H5.
    + intros _. left. cbn. by rewrite decide_True.
  - apply (acts_local p t m (Ready t m o) s); try done.
    + intros q. exact (goto_pcs p _ s q).
    + by right.
    + rewrite phase_here by done. unfold key_ok, strong. cbn. rewrite Es. naive_solver.
    + intros q. apply (progress_keep s p _ q Hi). rewrite H2. cbn [pc_strong]. by rewrite Es.
    + apply Hi.
Qed.

Lemma idle_key s p t m : fp_inv s → pcs s p = Idle →
  (owns s p t m ↔ fast_held s p t m ∨ held (objs s t) p m) ∧ ¬ (fast_held s p t m ∧ held (objs s t) p m) ∧
  (claims s p t m ↔ owns s p t m ∧ strong t m) ∧ ¬ waits (objs s t) p m.
Proof. intros Hi E. apply (inv_key s p t m PNone Hi). by rewrite E. Qed.

(** The entry is made, or found. *)
Lemma enter_inv s p t m : fp_inv s → pcs s p = Idle → (p < allProcCount)%nat → m ∈ modes → tag_ok t = true →
  Z.of_nat (size (locals s)) < 2 ^ 32 - 1 →
  fp_inv (set_local p t m (locallock s p t m) s) ∧ in_use (locals (set_local p t m (locallock s p t m) s)) p t m.
Proof.
  intros Hi Hpc Hp Hm Ht Hr. set (s' := set_local _ _ _ _ _).
  assert (locallock s' p t m = locallock s p t m) as El by apply entry_set.
  assert (in_use (locals s') p t m) as Hu by (constructor; try done; cbn; by rewrite lookup_insert_eq).
  split; [|done]. apply (acts_local p t m Idle s); try done.
  - intros q. by case_decide; subst.
  - left. by rewrite Hpc.
  - by left.
  - intros key ?. by apply locals_insert_ne.
  - rewrite phase_idle. unfold owns, claims. rewrite El. by apply (idle_key s p t m).
  - intros q. apply (progress_keep s p _ q Hi). by rewrite Hpc.
  - apply (local_ok_keep s); [apply Hi|by right|by apply entry_nonneg|done].
  - unfold claims. rewrite El. intros Hc. right. split; [done|]. intros q Hq. left. by rewrite Hpc.
Qed.

(** The backend comes back with one more lock of its own. *)
Lemma granted_key s p t m o : 0 ≤ nLocks (locallock s p t m) → owns (grant_local p t m o s) p t m.
Proof. intros Hn. unfold owns, grant_local. rewrite entry_set. cbn. lia. Qed.

Lemma acquire_start_inv s p t m o : fp_inv s → pcs s p = Idle → (p < allProcCount)%nat → m ∈ modes → tag_ok t = true →
  Z.of_nat (size (locals s)) < 2 ^ 32 - 1 → fp_inv (acquire_start p t m o s).
Proof.
  intros Hi0 Hpc0 Hp Hm Ht Hr. destruct (enter_inv s p t m) as [Hi Hu]; try done.
  unfold acquire_start. pose proof (entry_set s p t m (locallock s p t m)) as El.
  set (s1 := set_local p t m (locallock s p t m) s) in *. assert (pcs s1 p = Idle) as Hpc by done. rewrite <- El.
  clearbody s1. clear s Hi0 Hpc0 Hr El. rename s1 into s.
  pose proof (idle_key s p t m Hi Hpc) as (K1 & K2 & K3 & K4). pose proof (entry_nonneg s p t m Hi) as Hn.
  destruct (Z.ltb_spec 0 (nLocks (locallock s p t m))) as [Hpos|Hzero].
  - pose proof (granted_key s p t m o Hn) as Ho. set (s' := grant_local p t m o s) in *.
    assert (claims s' p t m ↔ claims s p t m) as Hc by (unfold claims, s', grant_local; by rewrite entry_set).
    assert (owns s p t m) as Ho0 by done.
    apply (acts_local p t m Idle s); try done.
    + intros q. by case_decide; subst.
    + left. by rewrite Hpc.
    + by left.
    + intros key ?. by apply locals_insert_ne.
    + rewrite phase_idle. cbn. tauto.
    + intros _. apply (in_use_same (locals s)); [done|]. cbn. by rewrite lookup_insert_eq.
    + intros q. apply (progress_keep s p _ q Hi). by rewrite Hpc.
    + apply (local_ok_keep s); [apply Hi|left; apply Hu|cbn; lia|done].
    + rewrite Hc. intros ?. right. split; [done|]. intros q Hq. left. by rewrite Hpc.
  - assert (¬ owns s p t m) as Hno by (unfold owns; lia).
    assert (free s p t m) as Hfree by (constructor; try tauto; [left; by rewrite Hpc|by rewrite Hpc]).
    destruct (_ && _) eqn:Ee; [|by apply slow_start_inv]. apply andb_true_iff in Ee as [Ee _].
    destruct Hfree as [? _ _ ? ? ? ? ?]. apply (acts_local p t m (FastLocked t m o) s); try done.
    + intros q. exact (goto_pcs p _ s q).
    + by right.
    + rewrite phase_here by done. by split_and!.
    + intros q. apply (progress_keep s p _ q Hi). by rewrite Hpc.
    + apply Hi.
Qed.

(** ** The fast path *)

Lemma zero_claims s t : fp_inv s → counts s (partition t) = 0 → ∀ q i, ¬ claims s q t i.
Proof.
  intros Hi E q i Hc. rewrite (lo_counts _ _ (fi_local _ Hi)) in E.
  assert (filter (counted (partition t)) (locals s) = ∅) as Hem by (apply map_size_empty_inv; lia).
  unfold claims, locallock in Hc. destruct (locals s !! (q, t, i)) as [ll|] eqn:El; [|done].
  assert (filter (counted (partition t)) (locals s) !! (q, t, i) = Some ll) as Hl by (by apply map_lookup_filter_Some_2).
  by rewrite Hem in Hl.
Qed.

Lemma pc_in_use s p t m : fp_inv s → pc_key (pcs s p) = Some (t, m) → pc_phase (pcs s p) ≠ PNone → in_use (locals s) p t m.
Proof. intros Hi E Hp. apply (fi_use _ Hi). left. by rewrite phase_here. Qed.

Lemma fast_free s p t m : fp_inv s → pc_key (pcs s p) = Some (t, m) → pc_phase (pcs s p) = PFast →
  free s p t m ∧ eligible p t m.
Proof.
  intros Hi E Hp. pose proof (inv_key s p t m PFast Hi) as Hk. rewrite phase_here in Hk by done.
  destruct (Hk Hp) as (H1 & H2 & H3 & H4 & H5 & H6). split; [|done]. constructor; try done.
  - by right.
  - by destruct (pcs s p).
  - apply pc_in_use; [done..|]. by rewrite Hp.
Qed.

Lemma fast_test_inv s p t m o : fp_inv s → pcs s p = FastLocked t m o → fp_inv (fast_test p t m o s).
Proof.
  intros Hi Hpc. destruct (fast_free s p t m Hi) as [Hf He]; [by rewrite Hpc..|]. unfold fast_test.
  destruct (Z.eqb_spec (counts s (partition t)) 0) as [E|E]; cbn [negb]; [|by apply slow_start_inv].
  destruct Hf as [? ? ? ? ? ? ? ?]. apply (acts_local p t m (FastTested t m o) s); try done.
  - intros q. exact (goto_pcs p _ s q).
  - by right.
  - rewrite phase_here by done. by split_and!.
  - intros q. apply (progress_keep s p _ q Hi). by rewrite Hpc.
  - apply Hi.
  - intros u i o' [= <- <- <-]. by apply zero_claims.
Qed.

Lemma eligible_weak p t m : eligible p t m → m ∈ modes → m ∈ weak_modes.
Proof. intros (_ & _ & _ & _ & H)%eligible_facts Hm%mode_lt. apply weak_range. unfold ShareUpdateExclusiveLock in H. lia. Qed.

Lemma tag_eq p t m u i : eligible p t m → eligible p u i → tag_ok t = true → tag_ok u = true →
  locktag_field2 t = locktag_field2 u → t = u.
Proof.
  intros (H1 & H2 & H3 & _)%eligible_facts (H4 & H5 & H6 & _)%eligible_facts. unfold tag_ok.
  rewrite H1, H2, H4, H5, !Z.eqb_refl. cbn [andb negb orb]. rewrite !andb_true_iff, !Z.eqb_eq.
  intros [H7 H8] [H9 H10] H11. destruct t, u; cbn in *; congruence.
Qed.

Lemma fps_set p f s q : fps (set_fps p f s) q = if decide (q = p) then f else fps s q.
Proof. cbn. case_decide; [subst; apply fn_lookup_insert|by apply fn_lookup_insert_ne]. Qed.

(** A change of the slots that concerns one lock leaves the others. *)
Lemma fast_held_other s s' p t m f : eligible p t m → tag_ok t = true →
  (∀ q, fps s' q = if decide (q = p) then f else fps s q) →
  (∀ r i, (r, i) ≠ (locktag_field2 t, m) → fp_holds f r i ↔ fp_holds (fps s p) r i) →
  ∀ q u i, (q, u, i) ≠ (p, t, m) → fast_held s' q u i ↔ fast_held s q u i.
Proof.
  intros He Ht Hf Hh q u i Hne. unfold fast_held. rewrite Hf. case_decide; [subst q|done].
  split; intros (H1 & H2 & H3); (split_and!; [done..|]); apply Hh; try done;
    intros [= E ->]; apply Hne; by rewrite (tag_eq p t m u m).
Qed.

Lemma same_slots s p : fp_inv s →
  fp_inv (set_fps p (fps s p) s) ∧ ∀ q, fps (set_fps p (fps s p) s) q = fps s q.
Proof.
  intros [I1 I2 I3 I4 I5 I6 I7 I8].
  assert (∀ q, fps (set_fps p (fps s p) s) q = fps s q) as Hsame by (intros q; rewrite fps_set; by case_decide; subst).
  split; [|done]. constructor; try done.
  - intros q. rewrite Hsame. apply I1.
  - intros q u i. specialize (I3 q u i). unfold key_inv, fast_held in *. by rewrite Hsame.
  - intros q u i Hc x Hx. destruct (I7 q u i Hc x Hx) as [J1 J2]. split; [|done]. intros j. unfold fast_held.
    rewrite Hsame. apply J1.
Qed.

Lemma fast_grant_inv s p t m o : fp_inv s → pcs s p = FastTested t m o → fp_inv (fast_grant p t m o s).
Proof.
  intros Hi Hpc. destruct (fast_free s p t m Hi) as [Hf He]; [by rewrite Hpc..|]. unfold fast_grant.
  pose proof (FastPathGrant_spec (locktag_field2 t) m (fps s p) (fi_slots _ Hi p)) as Hg.
  pose proof (eligible_weak p t m He (iu_mode _ _ _ _ (fr_use _ _ _ _ Hf))) as Hm.
  destruct (FastPathGrantRelationLock _ _ _) as [[] f]; specialize (Hg Hm).
  2: { destruct Hg as [-> _]. destruct (same_slots s p Hi) as [Hi' Hsame]. apply slow_start_inv; [done|].
       destruct Hf. constructor; try done. unfold fast_held. by rewrite Hsame. }
  destruct Hg as [Hs Hh]. destruct Hf as [F1 F2 F3 F4 F5 F6 F7 F8]. pose proof (entry_nonneg s p t m Hi) as Hn.
  set (s' := goto _ _ _).
  assert (∀ q, fps s' q = if decide (q = p) then f else fps s q) as Hfps by (intros q; exact (fps_set p f s q)).
  assert (∀ q u i, (q, u, i) ≠ (p, t, m) → fast_held s' q u i ↔ fast_held s q u i) as Hother.
  { apply (fast_held_other s s' p t m f); try done; [apply F3|]. intros r i Hne. rewrite Hh. split; [|by left]. intros [?|[-> ->]]; done. }
  assert (locallock s' p t m = GrantLockLocal o (locallock s p t m)) as El by exact (entry_set s p t m _).
  assert (fast_held s' p t m) as Hfast.
  { split_and!; [done|apply F3|]. rewrite Hfps, decide_True by done. apply Hh. by right. }
  apply (fp_inv_acts p t m Idle s s' Hi). constructor; try done.
  - intros q. exact (goto_pcs p Idle s q).
  - by left.
  - intros key ?. by apply locals_insert_ne.
  - intros q. rewrite Hfps. case_decide; [done|apply Hi].
  - apply Hi.
  - intros q u i Hne. unfold moves. rewrite Hother by done. cbn. tauto.
  - unfold key_inv. assert (owns s' p t m) by (unfold owns; rewrite El; cbn; lia).
    assert (¬ claims s' p t m) by (unfold claims; by rewrite El).
    assert (¬ strong t m) by (intros (_ & _ & _ & ?)%strong_facts; apply eligible_facts in He; lia).
    assert (pcs s' p = Idle) as -> by apply fn_lookup_insert. rewrite phase_idle. cbn. tauto.
  - intros _. apply (in_use_same (locals s)); [done|]. cbn. by rewrite lookup_insert_eq.
  - intros q. apply (progress_keep s p _ q Hi). by rewrite Hpc.
  - apply (local_ok_keep s p t m (GrantLockLocal o (locallock s p t m)));
      [apply Hi|left; apply F3|cbn [GrantLockLocal nLocks]; lia|done].
  - intros q u [H1 H2]. left. split.
    + intros i Hx. destruct (decide ((q, u, i) = (p, t, m))) as [[= -> -> ->]|Hne]; [|by apply (H1 i), Hother].
      by apply (H2 m o).
    + intros i o'. unfold s'. rewrite goto_pcs. case_decide; [done|]. apply H2.
  - intros Hc. unfold claims in Hc. by rewrite El in Hc.
Qed.

(** ** The transfer *)

Lemma objs_set t lock s u : objs (set_obj t lock s) u = if decide (u = t) then lock else objs s u.
Proof. cbn. case_decide; [subst; apply fn_lookup_insert|by apply fn_lookup_insert_ne]. Qed.

(** A step that moves fast-path locks of [i] on the object to the table. *)
Lemma transferred_inv s i t moved f lock :
  fp_inv s → (i < allProcCount)%nat → tag_ok t = true →
  (∀ j, j ∈ moved → fast_held s i t j ∧ ¬ held (objs s t) i j) →
  transferred (extension t) (locktag_field2 t) (proc_of i 0 0) moved (fps s i) f (objs s t) lock →
  fp_inv (set_obj t lock (set_fps i f s)).
Proof.
  intros Hi Hlt Ht Hmv [T1 T2 T3 T4 T5 T6 T7 T8]. cbn [proc_of pgprocno lockGroupLeader] in *.
  set (s' := set_obj _ _ _). destruct Hi as [I1 I2 I3 I4 I5 I6 I7 I8].
  assert (∀ q, fps s' q = if decide (q = i) then f else fps s q) as Hf by (intros q; exact (fps_set i f s q)).
  assert (∀ u, objs s' u = if decide (u = t) then lock else objs s u) as Ho by (intros u; exact (objs_set t lock s u)).
  assert (∀ q u j, fast_held s' q u j ↔ fast_held s q u j ∧ ¬ ((q, u) = (i, t) ∧ j ∈ moved)) as Hfast.
  { intros q u j. unfold fast_held. rewrite Hf. case_decide as Eq; [subst q; rewrite T5|].
    - split; [intros (H1 & H2 & H3 & H4)|intros [(H1 & H2 & H3) H4]].
      + split; [done|]. intros [[= ->] Hj]. by apply H4.
      + split_and!; try done. intros [E Hj]. apply H4. split; [|done]. f_equal.
        destruct (Hmv j Hj) as [(He & _) _]. by apply (tag_eq i u j t j).
    - split; [|tauto]. intros ?. split; [done|]. intros [[= -> _] _]. done. }
  assert (∀ q u j, moves (fast_held s q u j) (held (objs s u) q j) (waits (objs s u) q j)
    (fast_held s' q u j) (held (objs s' u) q j) (waits (objs s' u) q j)) as Hmoves.
  { intros q u j. unfold moves, waits. rewrite Hfast, Ho. case_decide as Eu; [subst u; rewrite T6, T7|].
    - destruct (decide (q = i ∧ j ∈ moved)) as [[-> Hj]|Hn].
      { right; right. destruct (Hmv j Hj). split_and!; try done; [|by right]. intros [_ Hx]. by apply Hx. }
      left. split_and!; try done; [|tauto]. split; [tauto|]. intros ?. split; [done|]. intros [[= ->] ?]. tauto.
    - left. split_and!; try done. split; [tauto|]. intros ?. split; [done|]. intros [[= -> ->] _]. done. }
  constructor; try done.
  - intros q. rewrite Hf. case_decide; [done|apply I1].
  - intros u. rewrite Ho. case_decide; [subst u|apply I2]. constructor; [done..|]. apply T8; [apply I2|done|].
    intros j Hj. split; [done|]. apply weak_mode. by destruct (T4 j Hj) as (? & _ & _ & ? & _).
  - intros q u j. eapply key_moves, Hmoves. apply I3.
  - intros q u j Hc x Hx. destruct (I7 q u j Hc x Hx) as [J1 J2]. split; [|done]. intros k. rewrite Hfast.
    intros [? _]. by apply (J1 k).
Qed.

Lemma transfer_inv s p t m o i room : fp_inv s → no_late_grant s → pcs s p = Scanning t m o i → (i < allProcCount)%nat →
  fpInfoLock_held (pcs s i) = false → databaseId i = locktag_field1 t →
  ∃ b f lock, transfer_proc room (locktag_field2 t) (proc_of i 0 0) (fps s i) (objs s t) = Ok (b, f, lock) ∧
    fp_inv (set_obj t lock (set_fps i f s)) ∧ (b = true → clean (set_obj t lock (set_fps i f s)) i t).
Proof.
  intros Hi Hl Hpc Hlt Hfree Hdb. pose proof (inv_key s p t m PScan Hi) as Hk. rewrite phase_here in Hk by by rewrite Hpc.
  destruct Hk as (Hs & _); [by rewrite Hpc|]. apply strong_facts in Hs as (S1 & S2 & S3 & _).
  assert (in_use (locals s) p t m) as Hu by (apply pc_in_use; by rewrite ?Hpc).
  assert (∀ j, fp_holds (fps s i) (locktag_field2 t) j → fast_held s i t j) as Hfast.
  { intros j Hj. pose proof Hj as (_ & _ & _ & Hw%weak_range & _). split_and!; [|apply Hu|done].
    unfold eligible, EligibleForRelationFastPath. rewrite S1, S2, Hdb, !Z.eqb_refl. cbn [andb].
    apply andb_true_iff. rewrite negb_true_iff, Z.ltb_lt. unfold ShareUpdateExclusiveLock. lia. }
  assert (∀ j, fast_held s i t j → ¬ held (objs s t) i j ∧ ¬ waits (objs s t) i j) as Hkey.
  { intros j Hj. pose proof (fi_keys _ Hi i t j) as Hx. unfold key_inv in Hx.
    destruct (phase_of (pcs s i) t j); cbn in Hx; tauto. }
  destruct (transfer_proc_spec room (extension t) (locktag_field2 t) (proc_of i 0 0) (fps s i) (objs s t))
    as (b & f & lock & moved & E & Htr & Hb).
  - apply Hi.
  - apply (fi_tables _ Hi t).
  - apply (fi_tables _ Hi t).
  - intros j Hj. destruct (Hkey j (Hfast j Hj)) as [H1 H2]. split_and!; [done| |].
    + intros w Hw Ew Em. apply H2, list_elem_of_fmap. exists w. split; [|done]. unfold waiter_key. cbn in Ew. congruence.
    + intros q k Hq. by apply (fast_excludes_strong s i t j q k Hi Hl); [apply Hfast|].
  - exists b, f, lock. split; [done|]. split.
    + eapply transferred_inv, Htr; try done; [apply Hu|]. intros j Hj.
      pose proof (Hfast j (tr_from _ _ _ _ _ _ _ _ Htr j Hj)) as Hj'. split; [done|]. by apply Hkey.
    + intros ->. split.
      * intros j (_ & _ & Hj). change (fps _ i) with (fps (set_fps i f s) i) in Hj. rewrite fps_set, decide_True in Hj by done.
        by apply (Hb eq_refl j).
      * intros j o' Hx. cbn in Hx. rewrite Hx in Hfree. done.
Qed.

Lemma transfer_step_inv s p t m o i room : fp_inv s → no_late_grant s → pcs s p = Scanning t m o i →
  ∃ r, transfer_step p t m o i room s = Ok r ∧ ∀ s', r = Some s' → fp_inv s'.
Proof.
  intros Hi Hlate Hpc. unfold transfer_step.
  assert (∀ s1 c', fp_inv s1 → pcs s1 p = Scanning t m o i → c' = Ready t m o ∧ (allProcCount ≤ i)%nat ∨
    c' = Scanning t m o (S i) ∧ clean s1 i t → fp_inv (goto p c' s1)) as Hgo.
  { clear s Hi Hlate Hpc. intros s c' Hi Hpc Hc. pose proof (inv_key s p t m PScan Hi) as Hk.
    rewrite phase_here in Hk by by rewrite Hpc. destruct Hk as (K1 & K2 & K3 & K4 & K5 & K6); [by rewrite Hpc|].
    assert (in_use (locals s) p t m) as Hu by (apply pc_in_use; by rewrite ?Hpc).
    apply (acts_local p t m c' s); try done.
    - intros q. exact (goto_pcs p c' s q).
    - right. by rewrite Hpc.
    - right. by destruct Hc as [[-> _]|[-> _]].
    - destruct Hc as [[-> _]|[-> _]]; rewrite phase_here by done; cbn; unfold strong in *; tauto.
    - intros q. apply (progress_keep s p _ q Hi). rewrite Hpc. destruct Hc as [[-> _]|[-> _]]; cbn [pc_strong]; [|done].
      unfold strong in K1. by rewrite K1.
    - apply Hi.
    - intros u j o' E. by destruct Hc as [[-> _]|[-> _]].
    - intros Hcl. right. split; [done|]. intros q. rewrite Hpc. destruct Hc as [[-> ?]|[-> ?]]; cbn;
        rewrite ?decide_True by done; [left; lia|]. intros Hq. destruct (decide (q = i)) as [->|]; [by right|left; lia].
    - intros u j b E. by destruct Hc as [[-> _]|[-> _]]. }
  destruct (Nat.leb_spec allProcCount i) as [Hle|Hlt].
  { eexists. split; [done|]. intros s' [= <-]. apply Hgo; [done..|by left]. }
  destruct (fpInfoLock_held (pcs s i)) eqn:Hl; [by eexists|].
  destruct (Z.eqb_spec (databaseId i) (locktag_field1 t)) as [Hdb|Hdb]; cbn [negb].
  - destruct (transfer_inv s p t m o i room) as (b & f & lock & -> & Hi' & Hb); try done. cbn [mbind outcome_bind].
    eexists. split; [done|]. intros s' [= <-]. destruct b.
    + apply Hgo; [done..|]. right. split; [done|]. by apply Hb.
    + apply request_failed_inv; [done| |]; cbn; rewrite Hpc; [done|by left].
  - eexists. split; [done|]. intros s' [= <-]. apply Hgo; [done..|]. right. split; [done|]. split.
    + intros j (He & _). apply eligible_facts in He as (_ & _ & ? & _). congruence.
    + intros j o' E. by rewrite E in Hl.
Qed.

(** ** The lock table *)

(** An action on the lock table. *)
Lemma acts_table p t m c' s s' lock :
  fp_inv s → fps s' = fps s → (∀ u, objs s' u = if decide (u = t) then lock else objs s u) →
  (∀ q, pcs s' q = if decide (q = p) then c' else pcs s q) →
  about (pcs s p) t m → about c' t m →
  (∀ key, key ≠ (p, t, m) → locals s' !! key = locals s !! key) →
  table_ok t lock → table_frame p m (objs s t) lock →
  key_ok (phase_of c' t m) (strong t m) (eligible p t m) (owns s' p t m) (claims s' p t m)
    (fast_held s p t m) (held lock p m) (waits lock p m) →
  (phase_of c' t m ≠ PNone ∨ owns s' p t m → in_use (locals s') p t m) →
  (∀ q, StrongLockInProgress s' q = if decide (q = p) then pc_strong c' else StrongLockInProgress s q) →
  local_ok (counts s') (locals s') →
  pc_phase c' ≠ PFast → (claims s' p t m → claims s p t m ∧ phase_of (pcs s p) t m ≠ PScan) →
  (∀ u i b, c' = RelRemove u i b → b = true) → pc_phase c' ≠ PScan →
  fp_inv s'.
Proof.
  intros Hi Ef Ho Hpc Ha Ha' Hl Ht Hfr Hk Hu Hp Hlo Hnf Hc Hr Hns.
  assert (∀ q u i, fast_held s' q u i ↔ fast_held s q u i) as Hfast by (intros; unfold fast_held; by rewrite Ef).
  assert (∀ q u, clean s q u → clean s' q u) as Hclean.
  { intros q u [H1 H2]. split; [intros i; rewrite Hfast; apply H1|]. intros i o. rewrite Hpc.
    case_decide; [|apply H2]. intros ->. by apply Hnf. }
  apply (fp_inv_acts p t m c' s s' Hi). constructor; try done.
  - rewrite Ef. apply Hi.
  - intros u. rewrite Ho. case_decide; [by subst|apply Hi].
  - intros q u i Hne. rewrite Ho. case_decide as E; [subst u|unfold moves; rewrite Hfast; tauto].
    pose proof (Hfr q i (fast_held s q t i)) as Hm. unfold moves in *. rewrite Hfast. apply Hm. congruence.
  - unfold key_inv. rewrite Hpc, Ho, !decide_True by done. eapply key_moves; [exact Hk|]. unfold moves. rewrite Hfast. tauto.
  - intros q u Hq. left. by apply Hclean.
  - intros [Hcl Hph]%Hc q Hq. apply Hclean. apply (claim_blocks_fast s p t m); try done.
    destruct c'; cbn in Hq; done.
Qed.

Lemma grant_local_ok s p t m o lock : local_ok (counts s) (locals s) → in_use (locals s) p t m → 0 ≤ nLocks (locallock s p t m) →
  local_ok (counts (grant_local p t m o (set_obj t lock s))) (locals (grant_local p t m o (set_obj t lock s))).
Proof.
  intros Hl Hu Hn. apply (local_ok_keep s p t m (GrantLockLocal o (locallock s p t m))); [done|left; apply Hu| |done].
  cbn [GrantLockLocal nLocks]. lia.
Qed.

(** An error before the lock is waited for: the entry stays, not owned. *)
Lemma fail_inv s p t m : fp_inv s → pc_key (pcs s p) = Some (t, m) → pc_phase (pcs s p) = PReady →
  fp_inv (goto p Idle (AbortStrongLockAcquire p s)).
Proof.
  intros Hi Hk Hph. pose proof (inv_key s p t m PReady Hi) as Hkey. rewrite (phase_here _ t m Hk) in Hkey.
  destruct (Hkey Hph) as (K1 & K2 & K3 & K4 & K5).
  destruct (abort_ok s p t m) as [A1 A2 A3 A4 A5 A6 A7 A8 A9]; [done|done| |].
  { rewrite (fi_progress _ Hi). destruct (pcs s p); try done. by injection Hk as -> ->. }
  set (s1 := AbortStrongLockAcquire p s) in *.
  assert (¬ owns (goto p Idle s1) p t m) as Hno.
  { change (¬ 0 < nLocks (locallock s1 p t m)). by rewrite A5. }
  apply (acts_local p t m Idle s); try done.
  - intros q. by rewrite goto_pcs, <- A3.
  - by right.
  - by left.
  - rewrite phase_idle. change (claims (goto p Idle s1) p t m) with (claims s1 p t m). cbn. tauto.
  - by intros [?|?].
Qed.

(** The request is granted. *)
Lemma granted_inv s p t m o lock : fp_inv s → pcs s p = Ready t m o → table_ok t lock → table_frame p m (objs s t) lock →
  held lock p m ∧ ¬ waits lock p m →
  fp_inv (goto p Idle (FinishStrongLockAcquire p (grant_local p t m o (set_obj t lock s)))).
Proof.
  intros Hi Hpc Ht Hfr Hres. pose proof (inv_key s p t m PReady Hi) as Hk. rewrite phase_here in Hk by by rewrite Hpc.
  destruct Hk as (K1 & K2 & K3 & K4 & K5); [by rewrite Hpc|].
  assert (in_use (locals s) p t m) as Hu by (apply pc_in_use; by rewrite ?Hpc).
  pose proof (entry_nonneg s p t m Hi) as Hn. set (s' := goto _ _ _).
  assert (locallock s' p t m = GrantLockLocal o (locallock s p t m)) as El by exact (entry_set s p t m _).
  apply (acts_table p t m Idle s s' lock); try done.
  - intros u. exact (objs_set t lock s u).
  - intros q. exact (goto_pcs p Idle s q).
  - right. by rewrite Hpc.
  - by left.
  - intros key ?. by apply locals_insert_ne.
  - rewrite phase_idle. assert (owns s' p t m) by (unfold owns; rewrite El; cbn; lia).
    assert (claims s' p t m ↔ claims s p t m) by (unfold claims; by rewrite El). cbn. tauto.
  - intros _. apply (in_use_same (locals s)); [done|]. cbn. by rewrite lookup_insert_eq.
  - intros q. exact (progress_set p None s q).
  - by apply (grant_local_ok s p t m o lock); [apply Hi|..].
  - unfold claims. rewrite El. intros Hc. split; [done|]. by rewrite Hpc, phase_here.
Qed.

Lemma shared_step_inv s p t m o r d dw room : fp_inv s → pcs s p = Ready t m o →
  ∃ s', shared_step p t m o r d dw room s = Ok (Some s') ∧ fp_inv s'.
Proof.
  intros Hi Hpc. unfold shared_step.
  destruct room; cbn [negb]; [|eexists; split; [done|]; apply request_failed_inv; rewrite ?Hpc; auto].
  pose proof (inv_key s p t m PReady Hi) as Hk. rewrite phase_here in Hk by by rewrite Hpc.
  destruct Hk as (K1 & K2 & K3 & K4 & K5); [by rewrite Hpc|].
  assert (in_use (locals s) p t m) as Hu by (apply pc_in_use; by rewrite ?Hpc).
  destruct (acquire_table t p r d m dw (objs s t)) as (res & lock & -> & Ht & Hfr & Hres);
    [apply Hi|apply Hu|apply Hu|apply awake_unqueued; by rewrite ?Hpc|done|]. cbn [mbind outcome_bind].
  eexists. split; [done|].
  assert (res ≠ LOCKACQUIRE_OK → res ≠ RequestWaiting → fp_inv (set_obj t lock s)) as Hstay.
  { intros H1 H2. apply (acts_table p t m (Ready t m o) s _ lock); try done.
    - intros u. apply objs_set.
    - intros q. by case_decide; subst.
    - right. by rewrite Hpc.
    - by right.
    - rewrite phase_here by done. destruct res; try done; cbn; tauto.
    - intros q. apply (progress_keep s p _ q Hi). by rewrite Hpc.
    - apply Hi.
    - intros Hc. split; [done|]. by rewrite Hpc, phase_here. }
  destruct res.
  - apply request_failed_inv; [by apply Hstay|by cbn; rewrite Hpc|right; by cbn; rewrite Hpc].
  - by apply granted_inv.
  - apply (acts_table p t m (Asleep t m o) s _ lock); try done.
    + intros u. exact (objs_set t lock s u).
    + intros q. exact (goto_pcs p _ s q).
    + right. by rewrite Hpc.
    + by right.
    + rewrite phase_here by done. cbn. tauto.
    + intros q. apply (progress_keep s p _ q Hi). by rewrite Hpc.
    + apply Hi.
    + intros Hc. split; [done|]. by rewrite Hpc, phase_here.
  - apply fail_inv with t m; [by apply Hstay|by cbn; rewrite Hpc|by cbn; rewrite Hpc].
Qed.

Lemma asleep_key s p t m o : fp_inv s → pcs s p = Asleep t m o →
  ¬ owns s p t m ∧ (claims s p t m ↔ strong t m) ∧ ¬ fast_held s p t m ∧
  (held (objs s t) p m ∨ waits (objs s t) p m) ∧ ¬ (held (objs s t) p m ∧ waits (objs s t) p m) ∧ in_use (locals s) p t m.
Proof.
  intros Hi Hpc. pose proof (inv_key s p t m PWait Hi) as Hk. rewrite phase_here in Hk by by rewrite Hpc.
  destruct Hk as (K1 & K2 & K3 & K4 & K5); [by rewrite Hpc|]. split_and!; try done. apply pc_in_use; by rewrite ?Hpc.
Qed.

Lemma woken_step_inv s p t m o : fp_inv s → pcs s p = Asleep t m o →
  ∃ r, woken_step p t m o s = Ok r ∧ ∀ s', r = Some s' → fp_inv s'.
Proof.
  intros Hi Hpc. destruct (asleep_key s p t m o Hi Hpc) as (K1 & K2 & K3 & K4 & K5 & Hu). unfold woken_step.
  destruct (find_waiter p (objs s t)) as [w|] eqn:Ew; [by eexists|]. apply find_waiter_None in Ew.
  pose proof (not_queued (objs s t) p m Ew) as Hnw. destruct K4 as [Hh|]; [|done]. pose proof Hh as (pl & Hpl & Ep & Hm).
  assert (find_proclock p (objs s t) = Some pl) as -> by (rewrite <- Ep; apply find_proclock_in; [apply (fi_tables _ Hi t)|done]).
  unfold holds in Hm. rewrite Hm.
  eexists. split; [done|]. intros s' [= <-]. clear pl Hpl Ep Hm. set (s' := goto _ _ _). pose proof (entry_nonneg s p t m Hi) as Hn.
  assert (locallock s' p t m = GrantLockLocal o (locallock s p t m)) as El by exact (entry_set s p t m _).
  assert (claims s' p t m ↔ claims s p t m) as Hc by (unfold claims; by rewrite El).
  apply (acts_local p t m Idle s); try done.
  - intros q. exact (goto_pcs p Idle s q).
  - right. by rewrite Hpc.
  - by left.
  - intros key ?. by apply locals_insert_ne.
  - rewrite phase_idle. assert (owns s' p t m) by (unfold owns; rewrite El; cbn; lia). cbn. tauto.
  - intros _. apply (in_use_same (locals s)); [done|]. cbn. by rewrite lookup_insert_eq.
  - intros q. exact (progress_set p None s q).
  - by apply (grant_local_ok s p t m o (objs s t)); [apply Hi|..].
  - rewrite Hc. intros ?. right. split; [done|]. intros q Hq. left. by rewrite Hpc.
Qed.

(** The first half of a cancellation gives up the count. *)
Lemma cancel_start_inv s p t m o : fp_inv s → pcs s p = Asleep t m o → fp_inv (cancel_start p t m o s).
Proof.
  intros Hi Hpc. destruct (asleep_key s p t m o Hi Hpc) as (K1 & K2 & K3 & K4 & K5 & Hu).
  destruct (abort_ok s p t m) as [A1 A2 A3 A4 A5 A6 A7 A8 A9]; [done|done| |].
  { rewrite (fi_progress _ Hi), Hpc. done. }
  unfold cancel_start. set (s1 := AbortStrongLockAcquire p s) in *. set (s' := goto p _ _).
  assert (¬ owns s' p t m) as Hno.
  { change (¬ 0 < nLocks (locallock s1 p t m)). by rewrite A5. }
  assert (¬ claims s' p t m) as Hnc by exact A6.
  apply (acts_local p t m (Cancelled t m o) s); try done.
  - intros q. unfold s'. by rewrite goto_pcs, A3.
  - right. by rewrite Hpc.
  - by right.
  - rewrite phase_here by done. cbn. tauto.
  - intros _. apply (in_use_same (locals s)); [done|exact A9].
Qed.

Lemma cancelled_key s p t m o : fp_inv s → pcs s p = Cancelled t m o →
  ¬ owns s p t m ∧ ¬ claims s p t m ∧ ¬ fast_held s p t m ∧
  (held (objs s t) p m ∨ waits (objs s t) p m) ∧ ¬ (held (objs s t) p m ∧ waits (objs s t) p m) ∧ in_use (locals s) p t m.
Proof.
  intros Hi Hpc. pose proof (inv_key s p t m PCancel Hi) as Hk. rewrite phase_here in Hk by by rewrite Hpc.
  destruct Hk as (K1 & K2 & K3 & K4 & K5); [by rewrite Hpc|]. split_and!; try done. apply pc_in_use; by rewrite ?Hpc.
Qed.

(** The only lock a cancelled backend can be queued for is the one it gave up. *)
Lemma cancelled_mode s p t m o w : fp_inv s → pcs s p = Cancelled t m o → find_waiter p (objs s t) = Some w → waitLockMode w = m.
Proof.
  intros Hi Hpc Ew. destruct (find_waiter_Some _ _ _ Ew) as [Hw Ep].
  assert (waits (objs s t) p (waitLockMode w)) as Hq.
  { apply list_elem_of_fmap. exists w. split; [|done]. unfold waiter_key. congruence. }
  destruct (decide (waitLockMode w = m)) as [|Hne]; [done|].
  destruct (inv_key s p t (waitLockMode w) PNone Hi) as (_ & _ & _ & Hn); [|done].
  apply (phase_elsewhere _ t m); [right; by rewrite Hpc|congruence].
Qed.

(** The second half takes the backend out of the queue, or finds the lock granted
    and keeps it. *)
Lemma cancel_end_inv s p t m o r d : fp_inv s → no_late_grant s → pcs s p = Cancelled t m o →
  ∃ s', cancel_end p t m o r d s = Ok s' ∧ fp_inv s'.
Proof.
  intros Hi Hl Hpc. destruct (cancelled_key s p t m o Hi Hpc) as (K1 & K2 & K3 & K4 & K5 & Hu). unfold cancel_end.
  destruct (find_waiter p (objs s t)) as [w|] eqn:Ew.
  - pose proof (cancelled_mode s p t m o w Hi Hpc Ew) as Em.
    destruct (cancel_table t p r d m (objs s t) w) as (lock & -> & Ht & Hfr & Hnh & Hnw); [apply Hi|done..|].
    cbn [mbind outcome_bind]. eexists. split; [done|]. apply (acts_table p t m Idle s _ lock); try done.
    + intros u. exact (objs_set t lock s u).
    + intros q. exact (goto_pcs p _ s q).
    + right. by rewrite Hpc.
    + by left.
    + rewrite phase_idle. cbn. tauto.
    + intros q. apply (progress_keep s p _ q Hi). by rewrite Hpc.
    + apply Hi.
  - apply find_waiter_None, (not_queued _ _ m) in Ew. assert (¬ strong t m) as Hns by (intros Hs; apply Ew, (Hl p t m o Hpc Hs)).
    eexists. split; [done|]. set (s' := goto _ _ _). pose proof (entry_nonneg s p t m Hi) as Hn.
    assert (locallock s' p t m = GrantLockLocal o (locallock s p t m)) as El by exact (entry_set s p t m _).
    assert (claims s' p t m ↔ claims s p t m) as Hc by (unfold claims; by rewrite El).
    apply (acts_local p t m Idle s); try done.
    + intros q. exact (goto_pcs p Idle s q).
    + right. by rewrite Hpc.
    + by left.
    + intros key ?. by apply locals_insert_ne.
    + rewrite phase_idle. assert (owns s' p t m) by (unfold owns; rewrite El; cbn; lia). cbn. tauto.
    + intros _. apply (in_use_same (locals s)); [done|]. cbn. by rewrite lookup_insert_eq.
    + intros q. apply (progress_keep s p _ q Hi). by rewrite Hpc.
    + by apply (grant_local_ok s p t m o (objs s t)); [apply Hi|..].
    + rewrite Hc. intros ?. done.
Qed.

(** ** Releasing a lock *)

(** An empty count means that no slot is used. *)
Lemma no_slots f r m : slots_ok f → FastPathLocalUseCount f ≤ 0 → ¬ fp_holds f r m.
Proof.
  intros [_ Hc] Hz (n & Hn & _ & Hm & E).
  assert (n ∈ filter (slot_used f) slots) as Hin.
  { apply list_elem_of_filter. split; [|done]. apply used_check. by exists m. }
  unfold n_used in Hc. destruct (filter (slot_used f) slots); [by apply not_elem_of_nil in Hin|]. cbn in Hc. lia.
Qed.

(** The count of the own entry changes and the backend goes on to [c']. *)
Lemma counted_down_inv s p t m ll' c' : fp_inv s → pcs s p = Idle → in_use (locals s) p t m → 0 ≤ nLocks ll' →
  holdsStrongLockCount ll' = holdsStrongLockCount (locallock s p t m) →
  about c' t m → pc_strong c' = None → done_upto c' t m = allProcCount → pc_phase c' ≠ PFast →
  (∀ u i b, c' = RelRemove u i b → b = true) →
  key_ok (phase_of c' t m) (strong t m) (eligible p t m) (0 < nLocks ll') (claims s p t m)
    (fast_held s p t m) (held (objs s t) p m) (waits (objs s t) p m) →
  ∀ s', fps s' = fps s → objs s' = objs s → counts s' = counts s → StrongLockInProgress s' = StrongLockInProgress s →
    locals s' = <[(p, t, m) := ll']> (locals s) → (∀ q, pcs s' q = if decide (q = p) then c' else pcs s q) → fp_inv s'.
Proof.
  intros Hi Hpc Hu Hn Hs H1 H2 H3 H4 H5 H6 s' E1 E2 E3 E4 E5 E6.
  assert (locallock s' p t m = ll') as El' by (unfold locallock; by rewrite E5, lookup_insert_eq).
  assert (claims s' p t m ↔ claims s p t m) as Hc by (unfold claims; by rewrite El', Hs).
  assert (in_use (locals s') p t m) as Hu'.
  { apply (in_use_same (locals s)); [done|]. by rewrite E5, lookup_insert_eq. }
  apply (acts_local p t m c' s); try done.
  - left. by rewrite Hpc.
  - intros key ?. rewrite E5. by apply locals_insert_ne.
  - unfold owns. rewrite El'. eapply key_claims, Hc. done.
  - intros q. rewrite E4, H2. apply (progress_keep s p _ q Hi). by rewrite Hpc.
  - rewrite E3, E5. apply (local_ok_keep s); [apply Hi|left; apply Hu|done..].
  - intros u i o' ->. by destruct H4.
  - rewrite Hc. intros ?. right. split; [done|]. intros q. rewrite H3, Hpc. by left.
Qed.

Lemma release_start_inv s p t m o : fp_inv s → pcs s p = Idle → fp_inv (release_start p t m o s).
Proof.
  intros Hi Hpc. unfold release_start. destruct (locals s !! (p, t, m)) as [ll|] eqn:El; [|done].
  destruct (Z.leb_spec (nLocks ll) 0) as [|Hpos]; [done|]. destruct (drop_owner _ _ _) as [owners|]; [|done].
  assert (locallock s p t m = ll) as Ell by (unfold locallock; by rewrite El).
  assert (owns s p t m) as Ho by (unfold owns; by rewrite Ell).
  pose proof (fi_use _ Hi p t m (or_intror Ho)) as Hu.
  pose proof (idle_key s p t m Hi Hpc) as (K1 & K2 & K3 & K4).
  set (ll' := mkLocal (nLocks ll - 1) owners (holdsStrongLockCount ll)).
  assert (0 ≤ nLocks ll' ∧ holdsStrongLockCount ll' = holdsStrongLockCount (locallock s p t m)) as [Hn Hs]
    by (rewrite Ell; cbn; split; [lia|done]).
  pose proof (λ c', counted_down_inv s p t m ll' c' Hi Hpc Hu Hn Hs) as Hgo.
  destruct (Z.ltb_spec 0 (nLocks ll - 1)) as [H1|H1].
  { apply (Hgo Idle); try done; [by left| |intros q; by case_decide; subst]. rewrite phase_idle. cbn. tauto. }
  assert (¬ 0 < nLocks ll') as Hz by (cbn; lia).
  destruct (EligibleForRelationFastPath (databaseId p) t m) eqn:Ee; cbn [andb];
    [destruct (Z.ltb_spec 0 (FastPathLocalUseCount (fps s p))) as [H2|H2]|].
  - change (fps (set_local p t m _ s) p) with (fps s p). rewrite (proj2 (Z.ltb_lt _ _) H2).
    apply (Hgo (Releasing t m)); try done; [by right| |intros q; exact (goto_pcs p _ s q)].
    rewrite phase_here by done. assert (¬ strong t m) by (intros (_ & _ & _ & ?)%strong_facts; apply eligible_facts in Ee; lia).
    unfold key_ok. cbn. tauto.
  - change (fps (set_local p t m _ s) p) with (fps s p). rewrite (proj2 (Z.ltb_ge _ _) H2).
    apply (Hgo (RelShared t m)); try done; [by right| |intros q; exact (goto_pcs p _ s q)].
    rewrite phase_here by done. assert (¬ fast_held s p t m).
    { intros (_ & _ & Hx). by eapply no_slots, Hx; [apply Hi|]. }
    cbn. tauto.
  - apply (Hgo (RelShared t m)); try done; [by right| |intros q; exact (goto_pcs p _ s q)].
    rewrite phase_here by done. assert (¬ fast_held s p t m) by (intros (Hx & _); unfold eligible in Hx; congruence).
    cbn. tauto.
Qed.

Lemma release_fast_inv s p t m : fp_inv s → pcs s p = Releasing t m → fp_inv (release_fast p t m s).
Proof.
  intros Hi Hpc. pose proof (inv_key s p t m PReleasing Hi) as Hk. rewrite phase_here in Hk by by rewrite Hpc.
  destruct Hk as (He & K1 & K2 & K3 & K4 & K5); [by rewrite Hpc|].
  assert (in_use (locals s) p t m) as Hu by (apply pc_in_use; by rewrite ?Hpc).
  assert (¬ strong t m) as Hns by (intros (_ & _ & _ & ?)%strong_facts; apply eligible_facts in He; lia).
  unfold release_fast. destruct (FastPathUnGrantRelationLock _ _ _) as [b f] eqn:E.
  apply FastPathUnGrant_spec in E as (Hs & Hb & Hh & _); [|apply Hi|apply (eligible_weak p t); [done|apply Hu]].
  set (c' := if b then _ else _). set (s' := goto p c' _).
  assert (∀ q, fps s' q = if decide (q = p) then f else fps s q) as Hfps by (intros q; exact (fps_set p f s q)).
  assert (∀ q, pcs s' q = if decide (q = p) then c' else pcs s q) as Hpcs by (intros q; exact (goto_pcs p c' s q)).
  assert (∀ q u i, (q, u, i) ≠ (p, t, m) → fast_held s' q u i ↔ fast_held s q u i) as Hother.
  { apply (fast_held_other s s' p t m f); try done; [apply Hu|]. intros r i Hne. rewrite Hh. split; [tauto|].
    intros ?. split; [done|]. intros [-> ->]. done. }
  assert (¬ fast_held s' p t m) as Hgone.
  { intros (_ & _ & Hx). rewrite Hfps, decide_True in Hx by done. apply Hh in Hx as [_ Hx]. by apply Hx. }
  assert (b = true ↔ fast_held s p t m) as Hbf.
  { rewrite Hb. split; [|by intros (_ & _ & ?)]. intros ?. split_and!; [done|apply Hu|done]. }
  apply (fp_inv_acts p t m c' s s' Hi). constructor; try done.
  - right. by rewrite Hpc.
  - right. unfold c'. by destruct b.
  - intros q. rewrite Hfps. case_decide; [done|apply Hi].
  - apply Hi.
  - intros q u i Hne. unfold moves. rewrite Hother by done. tauto.
  - unfold key_inv. rewrite Hpcs, decide_True by done. change (owns s' p t m) with (owns s p t m).
    change (claims s' p t m) with (claims s p t m). change (objs s') with (objs s). unfold c'.
    destruct b; rewrite phase_here by done; cbn.
    + pose proof (proj1 Hbf eq_refl). tauto.
    + assert (¬ fast_held s p t m) by (by intros ?%Hbf). tauto.
  - intros q. apply (progress_keep s p _ q Hi). rewrite Hpc. unfold c'. by destruct b.
  - apply Hi.
  - intros q u [J1 J2]. left. split.
    + intros i Hx. destruct (decide ((q, u, i) = (p, t, m))) as [[= -> -> ->]|Hne]; [done|by apply (J1 i), Hother].
    + intros i o. rewrite Hpcs. case_decide; [unfold c'; by destruct b|apply J2].
  - unfold c'. intros u i b'. destruct b; [by intros [= _ _ <-]|done].
Qed.

Lemma release_shared_inv s p t m r d : fp_inv s → pcs s p = RelShared t m →
  ∃ lock, LockRelease (extension t) (proc_of p r d) m (objs s t) = Ok (true, lock) ∧
    fp_inv (goto p (RelRemove t m true) (set_obj t lock s)).
Proof.
  intros Hi Hpc. pose proof (inv_key s p t m PShared Hi) as Hk. rewrite phase_here in Hk by by rewrite Hpc.
  destruct Hk as (K1 & K2 & K3 & K4 & K5); [by rewrite Hpc|].
  assert (in_use (locals s) p t m) as Hu by (apply pc_in_use; by rewrite ?Hpc).
  destruct (release_table t p r d m (objs s t)) as (lock & E & Ht & Hfr & Hnh & Hnw);
    [apply Hi|apply Hu|apply awake_unqueued; by rewrite ?Hpc|done|].
  exists lock. split; [done|]. apply (acts_table p t m (RelRemove t m true) s _ lock); try done.
  - intros u. exact (objs_set t lock s u).
  - intros q. exact (goto_pcs p _ s q).
  - right. by rewrite Hpc.
  - by right.
  - rewrite phase_here by done. cbn. tauto.
  - intros q. apply (progress_keep s p _ q Hi). by rewrite Hpc.
  - apply Hi.
  - intros Hc. split; [done|]. by rewrite Hpc, phase_here.
  - by intros u i b [= _ _ <-].
Qed.

Lemma release_remove_inv s p t m b : fp_inv s → pcs s p = RelRemove t m b → fp_inv (goto p Idle (RemoveLocalLock p t m s)).
Proof.
  intros Hi Hpc. pose proof (inv_key s p t m PRemove Hi) as Hk. rewrite phase_here in Hk by by rewrite Hpc.
  destruct Hk as (K1 & K2 & K3 & K4 & K5); [by rewrite Hpc|]. set (s' := goto _ _ _).
  assert (locals s' = delete (p, t, m) (locals s)) as El by (unfold s', RemoveLocalLock; by destruct (holdsStrongLockCount _)).
  assert (locallock s' p t m = new_locallock) as Hnew by (unfold locallock; by rewrite El, lookup_delete_eq).
  assert (¬ owns s' p t m) as Hno by (unfold owns; rewrite Hnew; cbn; lia).
  assert (¬ claims s' p t m) as Hnc by (unfold claims; by rewrite Hnew).
  apply (acts_local p t m Idle s); try done.
  - unfold s', RemoveLocalLock. by destruct (holdsStrongLockCount _).
  - unfold s', RemoveLocalLock. by destruct (holdsStrongLockCount _).
  - intros q. unfold s'. rewrite goto_pcs. unfold RemoveLocalLock. by destruct (holdsStrongLockCount _).
  - right. by rewrite Hpc.
  - by left.
  - intros key ?. rewrite El. by rewrite lookup_delete_ne.
  - rewrite phase_idle. cbn. tauto.
  - by intros [?|?].
  - intros q. unfold s', RemoveLocalLock.
    destruct (holdsStrongLockCount _); apply (progress_keep s p _ q Hi); by rewrite Hpc.
  - rewrite El. apply (local_ok_remove (counts s)); [apply Hi|]. intros k. rewrite claim_at. fold (locallock s p t m).
    unfold s', RemoveLocalLock. destruct (holdsStrongLockCount (locallock s p t m)); cbn [goto counts set_locals set_counts].
    + rewrite counts_set. case_decide; [left; by subst|by right].
    + right. by case_decide.
Qed.

(** ** Runs *)

Lemma fp_init_inv : fp_inv init.
Proof.
  assert (∀ p t m, ¬ fp_holds (fps init p) t m) as Hnf.
  { intros p t m (n & _ & _ & Hm & E). cbn in E. rewrite check_bit, Z.bits_0 in E by done. done. }
  assert (∀ n, ¬ slot_used (fps init 0) n) as Hnu.
  { intros n Hu. apply used_check in Hu as (m & Hm & E). cbn in E. rewrite check_bit, Z.bits_0 in E by done. done. }
  assert (∀ p t m, locallock init p t m = new_locallock) as Hnew.
  { intros p t m. unfold locallock. cbn [init locals]. by rewrite lookup_empty. }
  assert (∀ p t m, ¬ owns init p t m) as Hno by (intros p t m; unfold owns; rewrite Hnew; cbn; lia).
  constructor; try done.
  - intros p. constructor; [|by vm_compute]. intros n n' _ _ Hu. by destruct (Hnu n).
  - intros t. destruct (new_lock_ok (extension t)). constructor; try done.
    constructor; cbn; [by intros ? ?%not_elem_of_nil|by intros ? ? ?%not_elem_of_nil|by intros ? ?%not_elem_of_nil].
  - intros p t m. unfold key_inv. change (phase_of (pcs init p) t m) with PNone. unfold key_ok.
    assert (¬ fast_held init p t m) by (intros (_ & _ & Hx); by eapply Hnf).
    assert (¬ held (objs init t) p m) by (intros (pl & Hpl & _); by apply not_elem_of_nil in Hpl).
    assert (¬ waits (objs init t) p m) by (by intros ?%not_elem_of_nil).
    specialize (Hno p t m). assert (¬ claims init p t m) by (unfold claims; by rewrite Hnew). tauto.
  - intros p t m [?|Ho]; [done|]. by apply Hno in Ho.
Qed.

(** No action runs into an error of the lock manager, and the invariant stays. *)
Lemma exec_inv p a s : fp_inv s → no_late_grant s → ∃ r, fp_exec p a s = Ok r ∧ ∀ s', r = Some s' → fp_inv s'.
Proof.
  intros Hi Hlate. unfold fp_exec. destruct (Nat.leb_spec allProcCount p) as [|Hp]; [by eexists|].
  assert (∃ r : option state, Ok None = Ok r ∧ ∀ s', r = Some s' → fp_inv s') as Hnone by by eexists.
  assert (∀ s1, fp_inv s1 → ∃ r : option state, Ok (Some s1) = Ok r ∧ ∀ s', r = Some s' → fp_inv s') as Hret.
  { intros s1 H1. eexists. split; [done|]. by intros s' [= <-]. }
  assert (∀ o : outcome state, (∃ s1, o = Ok s1 ∧ fp_inv s1) →
    ∃ r, Some <$> o = Ok r ∧ ∀ s', r = Some s' → fp_inv s') as Hmap.
  { intros o (s1 & -> & H1). eexists. split; [done|]. by intros s' [= <-]. }
  destruct a as [t m o| | |room|r d dw room| | |r d|t m o| |r d|], (pcs s p) eqn:Hpc;
    lazymatch goal with |- ∃ r, Ok None = Ok r ∧ _ => exact Hnone | _ => idtac end.
  - destruct (bool_decide (m ∈ modes) && tag_ok t && _) eqn:E; [|by eexists].
    apply andb_true_iff in E as [[Hm%bool_decide_eq_true Ht]%andb_true_iff Hr%Z.ltb_lt]. apply Hret. by apply acquire_start_inv.
  - apply Hret. by apply fast_test_inv.
  - apply Hret. by apply fast_grant_inv.
  - by apply transfer_step_inv.
  - destruct (shared_step_inv s p t m owner r d dw room Hi Hpc) as (s1 & -> & H1). by apply Hret.
  - by apply woken_step_inv.
  - apply Hret. by apply cancel_start_inv.
  - apply Hmap. by apply cancel_end_inv.
  - destruct (bool_decide (m ∈ modes)); [|by eexists]. apply Hret. by apply release_start_inv.
  - apply Hret. by apply release_fast_inv.
  - apply Hmap. destruct (release_shared_inv s p t m r d Hi Hpc) as (lock & E & H1). unfold release_shared. rewrite E. by eexists.
  - apply Hret. by eapply release_remove_inv.
Qed.

Lemma fp_step_inv s s' : fp_inv s → no_late_grant s → fp_step no_late_grant s s' → fp_inv s' ∧ no_late_grant s'.
Proof.
  intros Hi Hl [(p & a & E) Hl']. split; [|done]. destruct (exec_inv p a s Hi Hl) as (r & E' & H).
  rewrite E in E'. injection E' as <-. by apply H.
Qed.

Lemma fp_reachable_inv s : rtc (fp_step no_late_grant) init s → fp_inv s ∧ no_late_grant s.
Proof.
  assert (fp_inv init ∧ no_late_grant init) as H0 by (split; [apply fp_init_inv|done]). revert H0. generalize init.
  intros s0 H0 Hr. induction Hr as [|x y z Hs _ IH]; [done|]. apply IH. by apply (fp_step_inv x); [apply H0..|].
Qed.

Lemma granted_group s p t m : fp_inv s → held (objs s t) p m →
  ∃ pl, pl ∈ procLocks (objs s t) ∧ myProc pl = p ∧ groupLeader pl = default p (leader p) ∧ m ∈ modes ∧ holds pl m = true.
Proof.
  intros Hi (pl & Hpl & Hp & Hm). destruct (to_within _ _ (fi_tables _ Hi t)) as [W1 W2 _].
  exists pl. destruct (W1 pl Hpl) as [_ Hg], (W2 pl m Hpl Hm) as [_ ?]. subst p. done.
Qed.

Lemma fast_compatible s p t m q i : fp_inv s → no_late_grant s → fast_held s p t m → granted_to s q t i → compatible m i.
Proof.
  intros Hi Hl Hf Hg. apply not_true_iff_false. intros Hc.
  apply weak_conflict in Hc; [|by destruct Hf as (_ & _ & _ & _ & _ & ? & _)].
  destruct Hg as [Hh|(He & _)]; [|apply eligible_facts in He; lia].
  pose proof (fast_excludes_strong s p t m q i Hi Hl Hf Hh). lia.
Qed.

(** C2. No two backends of different lock groups hold conflicting modes of a lock,
    whether they took them in their own slots or in the lock table. This holds in
    every state that requests, transfers, waits, releases and both halves of
    cancellations of any number of backends lead to in any interleaving, as long
    as no strong mode is granted to a backend between the two halves of its
    cancellation ([no_late_grant]); [late_cancel_conflict] shows that it is lost
    otherwise. *)
Theorem fast_path_exclusive (s : state) (p q : nat) (t : LOCKTAG) (m i : Z) :
  rtc (fp_step no_late_grant) init s → p ≠ q → (extension t = false → default p (leader p) ≠ default q (leader q)) →
  granted_to s p t m → granted_to s q t i → compatible m i.
Proof.
  intros [Hi Hl]%fp_reachable_inv Hne Hg [Hp|Hp] [Hq|Hq].
  - destruct (granted_group s p t m Hi Hp) as (a & Ha & <- & Ga & Hm & Hma), (granted_group s q t i Hi Hq) as (b & Hb & <- & Gb & Hi' & Hib).
    apply (inv_exclusive _ _ _ _ (to_ok _ _ (fi_tables _ Hi t)) a b); try done. split; [done|]. by rewrite Ga, Gb.
  - destruct (granted_group s p t m Hi Hp) as (_ & _ & _ & _ & Hm & _). pose proof Hq as (_ & _ & _ & _ & _ & Hw & _).
    unfold compatible. rewrite conflicts_sym by (try done; by apply weak_mode). apply (fast_compatible s q t i p m Hi Hl Hq). by left.
  - apply (fast_compatible s p t m q i Hi Hl Hp). by left.
  - apply (fast_compatible s p t m q i Hi Hl Hp). by right.
Qed.

(** C11. As long as no strong mode is granted to a backend between the two halves of
    its cancellation ([no_late_grant]), no call of the protocol fails: the
    transfer and the requests find the lock not yet granted to the process, a
    wakened process holds its lock, a cancellation finds the process where it
    left it, and a release finds the lock in the slots or in the table. A backend
    between calls owns exactly the locks it was granted, and is counted for its
    strong ones. After a late grant the last part fails
    ([late_cancel_conflict]). *)
Theorem fast_path_calls (s : state) (p : nat) (a : fp_action) :
  rtc (fp_step no_late_grant) init s →
  (∃ r, fp_exec p a s = Ok r) ∧ (∀ t m b, pcs s p = RelRemove t m b → b = true) ∧
  (pcs s p = Idle → ∀ t m, (owns s p t m ↔ granted_to s p t m) ∧ (claims s p t m ↔ owns s p t m ∧ strong t m)).
Proof.
  intros [Hi Hl]%fp_reachable_inv. split_and!.
  - destruct (exec_inv p a s Hi Hl) as (r & E & _). by exists r.
  - apply Hi.
  - intros Hpc t m. destruct (idle_key s p t m Hi Hpc) as (K1 & K2 & K3 & K4). unfold granted_to. tauto.
Qed.

(** A step of the backend itself. *)
Definition own_step (p : nat) (s s' : state) : Prop := ∃ a, fp_exec p a s = Ok (Some s').

Lemma remove_completes s p t m b : fp_inv s → pcs s p = RelRemove t m b →
  own_step p s (goto p Idle (RemoveLocalLock p t m s)).
Proof.
  intros Hi Hpc. exists ReleaseRemove. unfold fp_exec.
  rewrite (proj2 (Nat.leb_gt _ _)) by (apply (iu_proc (locals s) p t m), pc_in_use; by rewrite ?Hpc). by rewrite Hpc.
Qed.

(** What is left once the entry is gone. *)
Lemma removed_nothing s p t m b : fp_inv s → pcs s p = RelRemove t m b →
  let s' := goto p Idle (RemoveLocalLock p t m s) in
  pcs s' p = Idle ∧ locals s' !! (p, t, m) = None ∧ ¬ granted_to s' p t m.
Proof.
  intros Hi Hpc s'. pose proof (release_remove_inv s p t m b Hi Hpc) as Hi'. fold s' in Hi'.
  assert (pcs s' p = Idle) as Hpc' by (unfold s'; by rewrite goto_pcs, decide_True).
  assert (locals s' = delete (p, t, m) (locals s)) as El by (unfold s', RemoveLocalLock; by destruct (holdsStrongLockCount _)).
  assert (locals s' !! (p, t, m) = None) as Hn by (by rewrite El, lookup_delete_eq).
  split_and!; [done..|]. destruct (idle_key s' p t m Hi' Hpc') as (K1 & _). unfold granted_to.
  assert (¬ owns s' p t m) by (unfold owns, locallock; rewrite Hn; cbn; lia). tauto.
Qed.

Lemma shared_completes s p t m : fp_inv s → pcs s p = RelShared t m →
  ∃ s', rtc (own_step p) s s' ∧ pcs s' p = Idle ∧ locals s' !! (p, t, m) = None ∧ ¬ granted_to s' p t m.
Proof.
  intros Hi Hpc. destruct (release_shared_inv s p t m 0 0 Hi Hpc) as (lock & E & Hi').
  set (s1 := goto p (RelRemove t m true) (set_obj t lock s)) in *.
  assert (pcs s1 p = RelRemove t m true) as Hpc1 by (unfold s1; by rewrite goto_pcs, decide_True).
  exists (goto p Idle (RemoveLocalLock p t m s1)). split; [|by eapply removed_nothing].
  eapply rtc_l; [|by eapply rtc_once, remove_completes]. exists (ReleaseShared 0 0). unfold fp_exec.
  rewrite (proj2 (Nat.leb_gt _ _)) by (apply (iu_proc (locals s) p t m), pc_in_use; by rewrite ?Hpc). rewrite Hpc.
  unfold release_shared. by rewrite E.
Qed.

Lemma fast_completes s p t m : fp_inv s → pcs s p = Releasing t m →
  ∃ s', rtc (own_step p) s s' ∧ pcs s' p = Idle ∧ locals s' !! (p, t, m) = None ∧ ¬ granted_to s' p t m.
Proof.
  intros Hi Hpc. pose proof (release_fast_inv s p t m Hi Hpc) as Hi'.
  assert (own_step p s (release_fast p t m s)) as Hstep.
  { exists ReleaseFast. unfold fp_exec.
    rewrite (proj2 (Nat.leb_gt _ _)) by (apply (iu_proc (locals s) p t m), pc_in_use; by rewrite ?Hpc). by rewrite Hpc. }
  assert (pcs (release_fast p t m s) p = RelRemove t m true ∨ pcs (release_fast p t m s) p = RelShared t m) as [E|E].
  { unfold release_fast. destruct (FastPathUnGrantRelationLock _ _ _) as [[] f]; rewrite goto_pcs, decide_True by done; auto. }
  - eexists. split; [eapply rtc_l; [exact Hstep|by eapply rtc_once, remove_completes]|by eapply removed_nothing].
  - destruct (shared_completes _ p t m Hi' E) as (s' & Hr & H). exists s'. split; [by eapply rtc_l|done].
Qed.

(** C12. A backend can finish a release by itself: from a state reached without a
    late grant ([no_late_grant]) where it holds a lock once and the owner that
    releases has an entry for it, its own steps, without waiting for any other
    backend, end with the lock given up in its slots, in the table and in its own
    table. *)
Theorem release_completes (s : state) (p : nat) (t : LOCKTAG) (m : Z) (ll : LOCALLOCK) (o : option nat) :
  rtc (fp_step no_late_grant) init s → pcs s p = Idle → locals s !! (p, t, m) = Some ll → nLocks ll = 1 →
  is_Some (drop_owner (length (lockOwners ll)) o (lockOwners ll)) →
  ∃ s', rtc (own_step p) s s' ∧ pcs s' p = Idle ∧ locals s' !! (p, t, m) = None ∧ ¬ granted_to s' p t m.
Proof.
  intros [Hi _]%fp_reachable_inv Hpc El E1 [owners Ed].
  assert (owns s p t m) as Ho by (unfold owns, locallock; rewrite El; cbn; lia).
  pose proof (fi_use _ Hi p t m (or_intror Ho)) as Hu.
  pose proof (release_start_inv s p t m o Hi Hpc) as Hi'.
  assert (own_step p s (release_start p t m o s)) as Hstep.
  { exists (ReleaseStart t m o). unfold fp_exec. rewrite (proj2 (Nat.leb_gt _ _)) by apply Hu.
    rewrite Hpc, bool_decide_true by apply Hu. done. }
  assert (pcs (release_start p t m o s) p = Releasing t m ∨ pcs (release_start p t m o s) p = RelShared t m) as Hpc'.
  { unfold release_start. rewrite El, E1, Ed. change (1 <=? 0) with false. change (0 <? 1 - 1) with false. cbv beta iota zeta.
    destruct (_ && _); rewrite goto_pcs, decide_True by done; auto. }
  destruct Hpc' as [E|E]; [destruct (fast_completes _ p t m Hi' E) as (s' & Hr & H)|
    destruct (shared_completes _ p t m Hi' E) as (s' & Hr & H)]; exists s'; (split; [by eapply rtc_l|done]).
Qed.

End Protocol.

(** ** Concrete runs *)

(** Three backends of one database, each its own group. *)
Definition demo_exec : nat → fp_action → state → outcome (option state) := fp_exec locktag_field2 (λ _, 1) 3 (λ _, None).
Definition demo_step : (state → Prop) → state → state → Prop := fp_step locktag_field2 (λ _, 1) 3 (λ _, None).
Definition demo_inv : state → Prop := fp_inv locktag_field2 (λ _, 1) 3 (λ _, None).

(** No late grant, tested on the three backends. *)
Definition late_free (s : state) : bool :=
  forallb (λ p, match pcs s p with
                | Cancelled t m _ => negb (ConflictsWithRelationFastPath t m) ||
                    bool_decide ((p, m) ∈ waiter_key <$> waitProcs (objs s t))
                | _ => true
                end) [0; 1; 2]%nat.

Lemma late_free_ok s : demo_inv s → late_free s = true → no_late_grant s.
Proof.
  intros Hi Hf p t m o Hpc Hs.
  assert (p < 3)%nat as Hp.
  { apply (iu_proc _ (locals s) p t m). apply (fi_use _ _ _ _ _ Hi). left. by rewrite Hpc, phase_here. }
  unfold late_free in Hf. rewrite forallb_forall in Hf. specialize (Hf p). rewrite Hpc in Hf.
  unfold strong in Hs. rewrite Hs in Hf. apply bool_decide_eq_true in Hf; [done|].
  destruct p as [|[|[|p]]]; cbn; auto; lia.
Qed.

Fixpoint run (V : state → bool) (l : list (nat * fp_action)) (s : state) : option state :=
  match l with
  | [] => Some s
  | (p, a) :: l => match demo_exec p a s with Ok (Some s) => if V s then run V l s else None | _ => None end
  end.

Lemma run_reaches l s s' : run (λ _, true) l s = Some s' → rtc (demo_step (λ _, True)) s s'.
Proof.
  revert s. induction l as [|[p a] l IH]; intros s; cbn [run]; [by intros [= <-]|].
  destruct (demo_exec p a s) as [[s1|]| |] eqn:E; try done. intros H. eapply rtc_l, IH, H. split; [by exists p, a|done].
Qed.

Lemma run_reaches_late_free l s s' : demo_inv s → no_late_grant s → run late_free l s = Some s' →
  rtc (demo_step no_late_grant) s s'.
Proof.
  revert s. induction l as [|[p a] l IH]; intros s Hi Hl; cbn [run]; [by intros [= <-]|].
  destruct (demo_exec p a s) as [[s1|]| |] eqn:E; try done. destruct (late_free s1) eqn:Ef; [|done]. intros H.
  destruct (exec_inv _ _ _ _ p a s Hi Hl) as (r & E' & Hi'). unfold demo_exec in E. rewrite E in E'. injection E' as <-.
  specialize (Hi' s1 eq_refl). pose proof (late_free_ok s1 Hi' Ef) as Hl'.
  eapply rtc_l, IH, H; [|done..]. split; [by exists p, a|done].
Qed.

Definition demo_tag : LOCKTAG := SET_LOCKTAG_RELATION 1 10.
Definition take_fast (p : nat) (m : Z) : list (nat * fp_action) :=
  [(p, AcquireStart demo_tag m None); (p, FastTest); (p, FastGrant)].
Definition take_strong (p : nat) (m : Z) : list (nat * fp_action) :=
  (p, AcquireStart demo_tag m None) :: replicate 4 (p, Transfer (λ _, true)) ++ [(p, Shared 0 0 false true)].
Definition state_after (l : list (nat * fp_action)) : state := default init (run (λ _, true) l init).

Lemma run_weaken V l s s' : run V l s = Some s' → run (λ _, true) l s = Some s'.
Proof.
  revert s. induction l as [|[p a] l IH]; intros s Hr; cbn [run] in *; [done|].
  destruct (demo_exec p a s) as [[s1|]| |]; try done. destruct (V s1); [|done]. by apply IH.
Qed.

Lemma runs_to V l : match run V l init with Some _ => true | None => false end = true → run V l init = Some (state_after l).
Proof.
  destruct (run V l init) as [s|] eqn:E; [|done]. intros _. unfold state_after. by rewrite (run_weaken V l init s E).
Qed.

(** Backend 1 reads through the fast path; backend 0 takes ExclusiveLock and
    moves the lock of backend 1 to the table; backend 2 waits for
    AccessExclusiveLock and is cancelled. *)
Definition demo_run : list (nat * fp_action) :=
  take_fast 1 AccessShareLock ++ take_strong 0 ExclusiveLock ++
  take_strong 2 AccessExclusiveLock ++ [(2%nat, CancelStart); (2%nat, CancelEnd 0 0)].

Lemma demo_fast : fast_held (λ _, 1) (state_after (take_fast 1 AccessShareLock)) 1 demo_tag AccessShareLock.
Proof. split; [done|]. split; [done|]. exists 15%nat. vm_compute. split_and!; [set_solver|done|set_solver|done]. Qed.

Lemma demo_reached : rtc (demo_step no_late_grant) init (state_after demo_run).
Proof. apply (run_reaches_late_free demo_run); [apply fp_init_inv|done|apply runs_to; by vm_compute]. Qed.

Lemma demo_granted p m : (p, m) = (1%nat, AccessShareLock) ∨ (p, m) = (0%nat, ExclusiveLock) →
  granted_to (λ _, 1) (state_after demo_run) p demo_tag m.
Proof.
  assert (procLocks (objs (state_after demo_run) demo_tag) = [mkProcLock 1 1 2; mkProcLock 0 0 128]) as E by by vm_compute.
  intros Hpm. left. unfold held. rewrite E.
  destruct Hpm as [[= -> ->]|[= -> ->]]; eexists; (split; [|split; [|]]); [left|done|done|right; left|done|done].
Qed.

Lemma fast_path_exclusive_witness :
  rtc (demo_step no_late_grant) init (state_after demo_run) ∧
  granted_to (λ _, 1) (state_after demo_run) 1 demo_tag AccessShareLock ∧
  granted_to (λ _, 1) (state_after demo_run) 0 demo_tag ExclusiveLock ∧ compatible AccessShareLock ExclusiveLock.
Proof.
  pose proof (demo_granted 1 AccessShareLock (or_introl eq_refl)) as H1.
  pose proof (demo_granted 0 ExclusiveLock (or_intror eq_refl)) as H0.
  split; [exact demo_reached|]. split; [exact H1|]. split; [exact H0|].
  apply (fast_path_exclusive locktag_field2 (λ _, 1) 3 (λ _, None) (state_after demo_run) 1 0 demo_tag);
    [exact demo_reached|done|done|exact H1|exact H0].
Defined.

Lemma fast_path_calls_witness :
  rtc (demo_step no_late_grant) init (state_after demo_run) ∧
  (∃ r, fp_exec locktag_field2 (λ _, 1) 3 (λ _, None) 1 (ReleaseStart demo_tag AccessShareLock None) (state_after demo_run) = Ok r) ∧
  (owns (state_after demo_run) 0 demo_tag ExclusiveLock ↔ granted_to (λ _, 1) (state_after demo_run) 0 demo_tag ExclusiveLock).
Proof.
  split; [exact demo_reached|]. split.
  - apply (fast_path_calls locktag_field2 (λ _, 1) 3 (λ _, None) (state_after demo_run) 1); exact demo_reached.
  - apply (fast_path_calls locktag_field2 (λ _, 1) 3 (λ _, None) (state_after demo_run) 0 FastTest demo_reached).
    by vm_compute.
Defined.

Lemma release_completes_witness :
  ∃ s', rtc (own_step locktag_field2 (λ _, 1) 3 (λ _, None) 1) (state_after demo_run) s' ∧ pcs s' 1 = Idle ∧
    locals s' !! (1%nat, demo_tag, AccessShareLock) = None ∧ ¬ granted_to (λ _, 1) s' 1 demo_tag AccessShareLock.
Proof.
  apply (release_completes locktag_field2 (λ _, 1) 3 (λ _, None) (state_after demo_run) 1 demo_tag AccessShareLock
    (mkLocal 1 [(None, 1)] false) None); [exact demo_reached|by vm_compute|by vm_compute|done|by eexists].
Defined.

(** A second backend cannot use the fast path while the strong lock is there,
    nor can a strong request be granted past the moved lock. *)
Example demo_slow_path : pcs (state_after (demo_run ++ [(2%nat, AcquireStart demo_tag RowExclusiveLock None); (2%nat, FastTest);
  (2%nat, Shared 0 0 false true)])) 2 = Asleep demo_tag RowExclusiveLock None.
Proof. by vm_compute. Qed.

(** The count of a strong locker that is cancelled goes down before
    LockErrorCleanup looks at the wait queue. If the lock is granted in between,
    the backend holds it, also by its own table, and is not counted: backend 2
    takes a conflicting lock through the fast path. *)
Definition late_cancel : list (nat * fp_action) :=
  take_strong 0 AccessExclusiveLock ++ take_strong 1 AccessExclusiveLock ++ [(1%nat, CancelStart)] ++
  [(0%nat, ReleaseStart demo_tag AccessExclusiveLock None); (0%nat, ReleaseShared 0 0); (0%nat, ReleaseRemove)] ++
  [(1%nat, CancelEnd 0 0)] ++ take_fast 2 AccessShareLock.

Theorem late_cancel_conflict : ∃ s, rtc (demo_step (λ _, True)) init s ∧
  pcs s 1 = Idle ∧ owns s 1 demo_tag AccessExclusiveLock ∧ ¬ claims s 1 demo_tag AccessExclusiveLock ∧
  granted_to (λ _, 1) s 1 demo_tag AccessExclusiveLock ∧ granted_to (λ _, 1) s 2 demo_tag AccessShareLock ∧
  ¬ compatible AccessShareLock AccessExclusiveLock.
Proof.
  exists (state_after late_cancel). split_and!.
  - apply (run_reaches late_cancel), runs_to. by vm_compute.
  - by vm_compute.
  - by vm_compute.
  - by vm_compute.
  - left. exists (mkProcLock 1 1 256).
    assert (procLocks (objs (state_after late_cancel) demo_tag) = [mkProcLock 1 1 256]) as -> by by vm_compute.
    split; [left|done].
  - right. split; [done|]. split; [done|]. exists 15%nat. vm_compute. split_and!; [set_solver|done|set_solver|done].
  - by vm_compute.
Qed.
