(* ===== verification/TopoSort.v ===== *)
(** * Reordering a wait queue: [TopoSort] of the deadlock detector

    Models [TopoSort] of [dbengine/src/backend/storage/lmgr/deadlock.c], which
    reorders the wait queue of a lock so that the waiter of each given edge comes
    before its blocker. The workspace of the source is kept: the array of
    processes not yet output, the counts [beforeConstraints], and the lists of
    [afterConstraints] that run through the [link] fields of the edges. *)
From S2P Require Import Prelude Lock.
From Stdlib Require Import ZArith Lia QArith.
From stdpp Require Import base strings gmap numbers list sorting.

Open Scope Z_scope.

(** An edge of the waits-for graph, between leaders of lock groups. *)
Record EDGE := mkEdge { waiter : nat; blocker : nat; edge_lock : nat }.

#[global] Instance EDGE_eq_dec : EqDecision EDGE.
Proof. solve_decision. Defined.

(** The process of the array belongs to the group led by [g]. *)
Definition in_group (g : nat) (w : PGPROC) : bool :=
  bool_decide (pgprocno w = g) || bool_decide (lockGroupLeader w = Some g).

Definition leader_of (w : PGPROC) : nat := default (pgprocno w) (lockGroupLeader w).

(** The backwards loop that selects the last member of a group in the queue and
    marks the others with -1. *)
Fixpoint mark_group (g : nat) (topoProcs : list PGPROC) (j : nat) (jj : option nat)
    (beforeConstraints : list Z) : option nat * list Z :=
  match j with
  | O => (jj, beforeConstraints)
  | S j =>
      match topoProcs !! j with
      | Some w =>
          if in_group g w then
            match jj with
            | None => mark_group g topoProcs j (Some j) beforeConstraints
            | Some _ => mark_group g topoProcs j jj (<[j := -1]> beforeConstraints)
            end
          else mark_group g topoProcs j jj beforeConstraints
      | None => mark_group g topoProcs j jj beforeConstraints
      end
  end.

(** The counts and lists; [pred] and [link] are the fields of the i-th edge. *)
Record topo_work := mkTopo {
  beforeConstraints : list Z;
  afterConstraints : list nat;
  pred : gmap nat nat;
  link : gmap nat nat
}.

Definition add_constraint (topoProcs : list PGPROC) (i : nat) (c : EDGE) (s : topo_work) : topo_work :=
  let '(jj, before) := mark_group (waiter c) topoProcs (length topoProcs) None (beforeConstraints s) in
  match jj with
  | None => mkTopo before (afterConstraints s) (pred s) (link s)
  | Some jj =>
      let '(kk, before) := mark_group (blocker c) topoProcs (length topoProcs) None before in
      match kk with
      | None => mkTopo before (afterConstraints s) (pred s) (link s)
      | Some kk =>
          mkTopo (alter Z.succ jj before) (<[kk := S i]> (afterConstraints s))
            (<[i := jj]> (pred s)) (<[i := afterConstraints s !!! kk]> (link s))
      end
  end.

Fixpoint add_constraints (topoProcs : list PGPROC) (i : nat) (constraints : list EDGE) (s : topo_work)
    : topo_work :=
  match constraints with
  | [] => s
  | c :: constraints => add_constraints topoProcs (S i) constraints (add_constraint topoProcs i c s)
  end.

(** [while (topoProcs[last] == NULL) last--;] *)
Fixpoint last_used (topoProcs : list (option PGPROC)) (last : nat) : option nat :=
  match topoProcs !! last with
  | Some (Some _) => Some last
  | _ => match last with O => None | S last => last_used topoProcs last end
  end.

(** The last process without remaining constraints, from [j] down. *)
Fixpoint candidate (topoProcs : list (option PGPROC)) (before : list Z) (j : nat)
    : option (nat * PGPROC) :=
  match topoProcs !! j, before !! j with
  | Some (Some w), Some 0 => Some (j, w)
  | _, _ => match j with O => None | S j => candidate topoProcs before j end
  end.

(** Output a group: the entries up to [last] are visited in order, and each
    member goes in front of what is already in [ordering]. *)
Fixpoint emit (g : nat) (topoProcs : list (option PGPROC)) (ordering : list PGPROC)
    : list (option PGPROC) * list PGPROC :=
  match topoProcs with
  | [] => ([], ordering)
  | Some w :: l =>
      if in_group g w then
        let '(l, ordering) := emit g l (w :: ordering) in (None :: l, ordering)
      else let '(l, ordering) := emit g l ordering in (Some w :: l, ordering)
  | None :: l => let '(l, ordering) := emit g l ordering in (None :: l, ordering)
  end.

(** [for (k = afterConstraints[j]; k > 0; k = constraints[k - 1].link)] *)
Fixpoint release (fuel : nat) (k : nat) (s : topo_work) (before : list Z) : outcome (list Z) :=
  match k with
  | O => Ok before
  | S i =>
      match fuel, pred s !! i, link s !! i with
      | S fuel, Some p, Some k => release fuel k s (alter Z.pred p before)
      | _, _, _ => Ub "a list of constraints without end"
      end
  end.

(** The output loop. [Ok None] is the result false. *)
Fixpoint topo_loop (fuel nConstraints : nat) (s : topo_work) (before : list Z)
    (topoProcs : list (option PGPROC)) (last : nat) (ordering : list PGPROC)
    : outcome (option (list PGPROC)) :=
  if bool_decide (length ordering = length topoProcs) then Ok (Some ordering)
  else
    match fuel with
    | O => Ub "a step without output"
    | S fuel =>
        match last_used topoProcs last with
        | None => Ub "topoProcs[-1]"
        | Some last =>
            match candidate topoProcs before last with
            | None => Ok None
            | Some (j, w) =>
                let '(front, ordering) := emit (leader_of w) (take (S last) topoProcs) ordering in
                before ← release nConstraints (afterConstraints s !!! j) s before;
                topo_loop fuel nConstraints s before (front ++ drop (S last) topoProcs) last ordering
            end
        end
    end.

Definition TopoSort (waitProcs : list PGPROC) (constraints : list EDGE)
    : outcome (option (list PGPROC)) :=
  let queue_size := length waitProcs in
  let s := add_constraints waitProcs 0 constraints
             (mkTopo (replicate queue_size 0) (replicate queue_size O) ∅ ∅) in
  topo_loop queue_size (length constraints) s (beforeConstraints s) (Some <$> waitProcs)
    (queue_size - 1) [].


(** ** What the sort promises *)

(** Each member of the group of [waiter c] is ahead of each of [blocker c]. *)
Definition respects (o : list PGPROC) (c : EDGE) : Prop :=
  ∀ i j a b, o !! i = Some a → o !! j = Some b → leader_of a = waiter c → leader_of b = blocker c →
    (i < j)%nat.

(** The members of a group stand next to each other. *)
Definition adjacent (o : list PGPROC) : Prop :=
  ∀ i j k a b c, (i < j)%nat → (j < k)%nat → o !! i = Some a → o !! j = Some b → o !! k = Some c →
    leader_of a = leader_of c → leader_of b = leader_of a.

(** The leaders the sort compares with: a process of the queue with the number of
    such a leader belongs to its group. *)
Definition leaders_ok (q : list PGPROC) (ends : list nat) : Prop :=
  ∀ w g, w ∈ q → g ∈ (leader_of <$> q) ++ ends → pgprocno w = g → leader_of w = g.

Definition ends_of (cs : list EDGE) : list nat := (waiter <$> cs) ++ (blocker <$> cs).

Lemma in_group_leader w g : (pgprocno w = g → leader_of w = g) → in_group g w = bool_decide (leader_of w = g).
Proof.
  unfold in_group, leader_of. intros H. apply eq_bool_prop_intro.
  rewrite orb_True, !bool_decide_spec. destruct (lockGroupLeader w) as [h|] eqn:E; cbn in *; naive_solver.
Qed.

(** The last position of the group in the queue. *)
Fixpoint rep (g : nat) (q : list PGPROC) : option nat :=
  match q with
  | [] => None
  | w :: q => match rep g q with
              | Some j => Some (S j)
              | None => if decide (leader_of w = g) then Some O else None
              end
  end.

Lemma rep_Some g q j : rep g q = Some j ↔
  (∃ w, q !! j = Some w ∧ leader_of w = g) ∧ ∀ k w, (j < k)%nat → q !! k = Some w → leader_of w ≠ g.
Proof.
  revert j. induction q as [|w q IH]; intros j; cbn.
  { split; [done|]. by intros [(v & ? & _) _]. }
  destruct (rep g q) as [i|] eqn:E.
  - specialize (IH i). split.
    + intros [= <-]. destruct (proj1 IH eq_refl) as [Hi Hl]. split; [done|].
      intros [|k] v Hk; [lia|]. apply Hl. lia.
    + intros [(v & Hv & Hg) Hl]. destruct (proj1 IH eq_refl) as [(u & Hu & Hgu) Hl'].
      destruct j as [|j]; [destruct (Hl (S i) u); [lia|done..]|]. f_equal. f_equal.
      destruct (decide (i = j)) as [->|Hne]; [done|].
      destruct (decide (i < j)%nat); [by destruct (Hl' j v)|destruct (Hl (S i) u); [lia|done..]].
  - assert (∀ k v, q !! k = Some v → leader_of v ≠ g) as Hno.
    { clear IH. revert E. induction q as [|u q IH']; intros E; [done|]. cbn in E.
      destruct (rep g q) eqn:E'; [done|]. case_decide; [done|].
      intros [|k] v; cbn; [by intros [= <-]|by apply IH']. }
    case_decide as Hg; split; try done.
    + intros [= <-]. split; [by exists w|]. intros [|k] v Hk; [lia|]. apply Hno.
    + intros [(v & Hv & Hgv) Hl]. destruct j as [|j]; [done|]. by destruct (Hno j v).
    + intros [(v & Hv & Hgv) _]. destruct j as [|j]; cbn in Hv; [by simplify_eq|by destruct (Hno j v)].
Qed.

Lemma rep_None g q : rep g q = None ↔ g ∉ leader_of <$> q.
Proof.
  induction q as [|w q IH]; cbn; [split; [intros _; apply not_elem_of_nil|done]|].
  rewrite not_elem_of_cons. destruct (rep g q); [split; [done|]; intros [_ H]; apply IH in H; done|].
  case_decide; split; try done; naive_solver.
Qed.

Lemma rep_elem g q : g ∈ leader_of <$> q → is_Some (rep g q).
Proof. intros H. destruct (rep g q) eqn:E; [done|]. by apply rep_None in E. Qed.

(** What [mark_group] leaves: the members of the group below [j], apart from the
    last of the queue, are marked. *)
Lemma mark_group_spec g q j jj b :
  (∀ w, w ∈ q → in_group g w = bool_decide (leader_of w = g)) → (j ≤ length q)%nat →
  length b = length q →
  (match jj with
   | None => ∀ k w, (j ≤ k)%nat → q !! k = Some w → leader_of w ≠ g
   | Some r => (j ≤ r)%nat ∧ rep g q = Some r
   end) →
  ∃ b', mark_group g q j jj b = (rep g q, b') ∧
    ∀ k, b' !! k = if decide ((k < j)%nat ∧ leader_of <$> q !! k = Some g ∧ rep g q ≠ Some k)
                   then Some (-1) else b !! k.
Proof.
  intros Hg. revert jj b. induction j as [|j IH]; intros jj b Hj Hb Hjj; cbn [mark_group].
  { exists b. split; [|intros k; case_decide; [lia|done]]. f_equal. destruct jj as [r|].
    - by destruct Hjj as [_ ->].
    - symmetry. apply rep_None. intros (w & -> & (k & Hk)%list_elem_of_lookup)%list_elem_of_fmap.
      by apply (Hjj k w); [lia|..]. }
  destruct (lookup_lt_is_Some_2 q j) as [w Hw]; [lia|]. rewrite Hw.
  rewrite Hg by (by eapply list_elem_of_lookup_2). case_bool_decide as Hl.
  - destruct jj as [r|].
    + destruct Hjj as [Hr Hrep]. destruct (IH (Some r) (<[j := -1]> b)) as (b' & E & H);
        [lia|by rewrite length_insert|split; [lia|done]|].
      exists b'. split; [done|]. intros k. rewrite H. rewrite list_lookup_insert.
      rewrite Hrep, Hb in *. destruct (decide (k = j)) as [->|Hne];
        repeat case_decide; rewrite ?Hw in *; naive_solver lia.
    + destruct (IH (Some j) b) as (b' & E & H); [lia|done| |].
      { split; [lia|]. apply rep_Some. split; [by exists w|]. intros k v Hk. apply Hjj. lia. }
      assert (rep g q = Some j) as Hrep.
      { apply rep_Some. split; [by exists w|]. intros k v Hk. apply Hjj. lia. }
      exists b'. split; [done|]. intros k. rewrite H.
      rewrite Hrep. destruct (decide (k = j)) as [->|Hne];
        repeat case_decide; rewrite ?Hw in *; naive_solver lia.
  - destruct (IH jj b) as (b' & E & H); [lia|done| |].
    { destruct jj as [r|]; [split; [lia|]; apply Hjj|]. intros k v Hk Hv.
      destruct (decide (k = j)) as [->|]; [by simplify_eq|]. apply (Hjj k v); [lia|done]. }
    exists b'. split; [done|]. intros k. rewrite H.
    destruct (decide (k = j)) as [->|Hne]; repeat case_decide; rewrite ?Hw in *; naive_solver lia.
Qed.

(** The list that starts at [k] and runs through the links. *)
Fixpoint chain (links : gmap nat nat) (k : nat) (l : list nat) : Prop :=
  match l with
  | [] => k = O
  | i :: l => k = S i ∧ ∃ k', links !! i = Some k' ∧ chain links k' l
  end.

Lemma chain_insert links i x k l : i ∉ l → chain links k l → chain (<[i := x]> links) k l.
Proof.
  revert k. induction l as [|j l IH]; intros k; [done|]. rewrite not_elem_of_cons.
  intros [Hj Hl] (-> & k' & Hk & Hc). split; [done|]. exists k'. rewrite lookup_insert_ne by done. auto.
Qed.

Lemma filter_ext_elem {A} (P Q : A → Prop) `{!∀ x, Decision (P x), !∀ x, Decision (Q x)} (l : list A) :
  (∀ x, x ∈ l → P x ↔ Q x) → filter P l = filter Q l.
Proof.
  induction l as [|x l IH]; intros Heq; [done|]. rewrite !filter_cons.
  pose proof (Heq x ltac:(left)). rewrite IH by (intros y Hy; apply Heq; by right).
  repeat case_decide; naive_solver.
Qed.

Lemma lookup_alter_list {A} (f : A → A) i j (l : list A) :
  alter f i l !! j = if decide (i = j) then f <$> l !! j else l !! j.
Proof. case_decide; subst; [apply list_lookup_alter_eq|by apply list_lookup_alter_ne]. Qed.

Section sort.
Context (q : list PGPROC).

(** Constraints between two groups of the queue, by the positions of their last
    members. *)
Definition n_edges (cs : list EDGE) (jj kk : nat) : nat :=
  length (filter (λ c, rep (waiter c) q = Some jj ∧ rep (blocker c) q = Some kk) cs).

(** Constraints of the group at [jj] with a blocker among the processes [r]. *)
Definition n_before (cs : list EDGE) (r : list PGPROC) (jj : nat) : nat :=
  length (filter (λ c, rep (waiter c) q = Some jj ∧ blocker c ∈ leader_of <$> r) cs).

(** The group takes part in a constraint between groups of the queue. *)
Definition involved (cs : list EDGE) (g : nat) : Prop :=
  ∃ c, c ∈ cs ∧ waiter c ∈ leader_of <$> q ∧ blocker c ∈ leader_of <$> q ∧
    (g = waiter c ∨ g = blocker c).

Record work_inv (cs : list EDGE) (s : topo_work) : Prop := mkWorkInv {
  wi_before : length (beforeConstraints s) = length q;
  wi_after : length (afterConstraints s) = length q;
  wi_rep : ∀ j w, q !! j = Some w → rep (leader_of w) q = Some j →
    beforeConstraints s !! j = Some (Z.of_nat (n_before cs q j));
  wi_other : ∀ j w, q !! j = Some w → rep (leader_of w) q ≠ Some j →
    ∃ z, beforeConstraints s !! j = Some z ∧ z ≤ 0 ∧ (z = 0 → ¬ involved cs (leader_of w));
  wi_lists : ∀ kk k, afterConstraints s !! kk = Some k →
    ∃ l, chain (link s) k l ∧ (length l ≤ length cs)%nat ∧
      (∀ i, i ∈ l → (i < length cs)%nat ∧ is_Some (pred s !! i)) ∧
      ∀ jj, length (filter (λ i, pred s !! i = Some jj) l) = n_edges cs jj kk
}.

Lemma n_before_snoc cs c r jj : n_before (cs ++ [c]) r jj = (n_before cs r jj +
  if decide (rep (waiter c) q = Some jj ∧ blocker c ∈ leader_of <$> r) then 1 else 0)%nat.
Proof.
  unfold n_before. rewrite filter_app, length_app. f_equal.
  cbn [filter list_filter]. by case_decide.
Qed.
Lemma n_edges_snoc cs c jj kk : n_edges (cs ++ [c]) jj kk = (n_edges cs jj kk +
  if decide (rep (waiter c) q = Some jj ∧ rep (blocker c) q = Some kk) then 1 else 0)%nat.
Proof.
  unfold n_edges. rewrite filter_app, length_app. f_equal.
  cbn [filter list_filter]. by case_decide.
Qed.

Lemma involved_snoc cs c g : involved (cs ++ [c]) g ↔ involved cs g ∨
  (waiter c ∈ leader_of <$> q ∧ blocker c ∈ leader_of <$> q ∧ (g = waiter c ∨ g = blocker c)).
Proof.
  unfold involved. split.
  - intros (d & [Hd|Hd%list_elem_of_singleton]%elem_of_app & H); [left; by exists d|right; by subst].
  - intros [(d & Hd & H)|H]; [exists d|exists c]; (split; [|done]); apply elem_of_app; [by left|right; by left].
Qed.

Lemma rep_leader g j : rep g q = Some j → g ∈ leader_of <$> q.
Proof.
  intros [(w & Hw & <-) _]%rep_Some. apply list_elem_of_fmap_2. by eapply list_elem_of_lookup_2.
Qed.

Lemma leaders_in_group ends g : leaders_ok q ends → g ∈ (leader_of <$> q) ++ ends →
  ∀ w, w ∈ q → in_group g w = bool_decide (leader_of w = g).
Proof. intros Hok Hg w Hw. apply in_group_leader. intros. by apply (Hok w g). Qed.

Lemma length_mark_group g l j jj b : length (mark_group g l j jj b).2 = length b.
Proof.
  revert jj b. induction j as [|j IH]; intros jj b; [done|]. cbn [mark_group].
  destruct (l !! j); [|apply IH]. destruct (in_group _ _); [|apply IH].
  destruct jj; rewrite IH; [apply length_insert|done].
Qed.

(** The counts after the groups of a further constraint are marked. *)
Definition marked (cs : list EDGE) (s : nat → Prop) (b : list Z) : Prop :=
  length b = length q ∧
  (∀ j w, q !! j = Some w → rep (leader_of w) q = Some j → b !! j = Some (Z.of_nat (n_before cs q j))) ∧
  (∀ j w, q !! j = Some w → rep (leader_of w) q ≠ Some j →
    ∃ z, b !! j = Some z ∧ z ≤ 0 ∧ (z = 0 → ¬ involved cs (leader_of w) ∧ ¬ s (leader_of w))).

Lemma mark_inv cs g s b :
  (∀ w, w ∈ q → in_group g w = bool_decide (leader_of w = g)) → marked cs s b →
  ∃ b', mark_group g q (length q) None b = (rep g q, b') ∧ marked cs (λ h, s h ∨ h = g) b'.
Proof.
  intros Hg (Hb & Hr & Ho).
  destruct (mark_group_spec g q (length q) None b) as (b' & E & H); [done|lia|done| |].
  { intros k w Hk Hw%lookup_lt_Some. lia. }
  exists b'. split; [done|]. split; [rewrite <- Hb, <- (length_mark_group g q (length q) None b), E; done|].
  split; intros j w Hj Hrep; rewrite H, Hj; cbn.
  - case_decide as Hd; [|by apply (Hr _ w)]. destruct Hd as (_ & [= <-] & Hd). done.
  - case_decide as Hd; [exists (-1); split; [done|lia]|]. destruct (Ho j w Hj Hrep) as (z & Hz & Hle & Hz0).
    exists z. split; [done|]. split; [done|]. intros E0. destruct (Hz0 E0) as [Hi Hs]. split; [done|].
    intros [?|Eg]; [done|]. destruct Hd. split; [by apply lookup_lt_Some in Hj|].
    rewrite <- Eg. split; [done|]. by rewrite Eg in *.
Qed.

Lemma work_irrelevant cs c s sel b :
  work_inv cs s → marked cs sel b → (rep (waiter c) q = None ∨ rep (blocker c) q = None) →
  work_inv (cs ++ [c]) (mkTopo b (afterConstraints s) (pred s) (link s)).
Proof.
  intros [Hb Ha Hrep Hoth Hl] (Hb1 & Hr1 & Ho1) Hirr.
  assert (¬ (waiter c ∈ leader_of <$> q ∧ blocker c ∈ leader_of <$> q)) as Hn.
  { rewrite !rep_None in Hirr. tauto. }
  constructor; cbn [beforeConstraints afterConstraints pred link]; try done.
  - intros j w Hj Hj'. rewrite n_before_snoc, (Hr1 j w Hj Hj').
    case_decide as Hd; [|f_equal; lia]. destruct Hd as [?%rep_leader ?]. tauto.
  - intros j w Hj Hj'. destruct (Ho1 j w Hj Hj') as (z & ? & ? & Hz). exists z.
    split_and!; [done..|]. intros Ez. rewrite involved_snoc. naive_solver.
  - intros kk k Hk. destruct (Hl kk k Hk) as (l & Hc & Hlen & Hlt & Hcnt). exists l.
    rewrite length_app; cbn. split_and!; [done|lia| |].
    + intros i Hi. destruct (Hlt i Hi). split; [lia|done].
    + intros jj. rewrite n_edges_snoc, Hcnt. case_decide as Hd; [|lia].
      destruct Hd as [?%rep_leader ?%rep_leader]. tauto.
Qed.

Lemma lists_relevant cs c s jj kk k0 k :
  work_inv cs s → rep (waiter c) q = Some jj → rep (blocker c) q = Some kk →
  <[kk := S (length cs)]> (afterConstraints s) !! k0 = Some k →
  ∃ l, chain (<[length cs := afterConstraints s !!! kk]> (link s)) k l ∧
    (length l ≤ length (cs ++ [c]))%nat ∧
    (∀ i, i ∈ l → (i < length (cs ++ [c]))%nat ∧ is_Some (<[length cs := jj]> (pred s) !! i)) ∧
    ∀ j, length (filter (λ i, <[length cs := jj]> (pred s) !! i = Some j) l) = n_edges (cs ++ [c]) j k0.
Proof.
  intros [Hb Ha Hrep Hoth Hl] Ejj Ekk Hk0.
  rewrite list_lookup_insert in Hk0. rewrite length_app; cbn.
  assert (∀ k1 k2, afterConstraints s !! k1 = Some k2 → ∃ l,
    chain (<[length cs := afterConstraints s !!! kk]> (link s)) k2 l ∧ (length l ≤ length cs)%nat ∧
    (∀ i, i ∈ l → (i < length cs)%nat ∧ is_Some (<[length cs := jj]> (pred s) !! i)) ∧
    ∀ j, length (filter (λ i, <[length cs := jj]> (pred s) !! i = Some j) l) = n_edges cs j k1) as Hl'.
  { intros k1 k2 Hk. destruct (Hl k1 k2 Hk) as (l & Hc & Hlen & Hlt & Hcnt). exists l.
    assert (length cs ∉ l) as Hfresh by (intros Hx; destruct (Hlt _ Hx); lia).
    split_and!; [by apply chain_insert|done| |].
    - intros i Hi. destruct (Hlt i Hi). split; [done|]. by rewrite lookup_insert_ne by (intros <-; done).
    - intros j. rewrite <- Hcnt. f_equal. apply filter_ext_elem.
      intros i Hi. by rewrite lookup_insert_ne by (intros <-; done). }
  case_decide as Hd.
  + destruct Hd as [<- Hlt]. injection Hk0 as <-.
    destruct (lookup_lt_is_Some_2 (afterConstraints s) kk) as [k1 Hk1]; [done|].
    destruct (Hl' kk k1 Hk1) as (l & Hc & Hlen & Hlts & Hcnt).
    exists (length cs :: l). split_and!.
    * split; [done|]. exists k1. rewrite lookup_insert_eq. split; [|done]. f_equal. by apply list_lookup_total_correct.
    * cbn. lia.
    * intros i [->|Hi]%elem_of_cons; [split; [lia|]; by rewrite lookup_insert_eq|].
      destruct (Hlts i Hi). split; [lia|done].
    * intros j. rewrite filter_cons, lookup_insert_eq, n_edges_snoc, <- Hcnt.
      case_decide as Hd; case_decide as Hd'; cbn; try lia; naive_solver.
  + destruct (Hl' k0 k Hk0) as (l & Hc & Hlen & Hlts & Hcnt). exists l.
    split_and!; [done|lia| |].
    * intros i Hi. destruct (Hlts i Hi). split; [lia|done].
    * intros j. rewrite n_edges_snoc, Hcnt. case_decide as Hd'; [|lia].
      destruct Hd' as [_ Hd']. rewrite Ekk in Hd'. injection Hd' as <-. destruct Hd.
      apply lookup_lt_Some in Hk0. by split.
Qed.

Lemma add_constraint_inv cs c s :
  leaders_ok q (ends_of [c]) → work_inv cs s →
  work_inv (cs ++ [c]) (add_constraint q (length cs) c s).
Proof.
  intros Hok Hinv. pose proof Hinv as [Hb Ha Hrep Hoth Hl]. unfold add_constraint.
  destruct (mark_inv cs (waiter c) (λ _, False) (beforeConstraints s)) as (b1 & E1 & Hm1);
    [eapply leaders_in_group; [done|set_solver]| |].
  { split; [done|]. split; [done|]. intros j w Hj Hj'.
    destruct (Hoth j w Hj Hj') as (z & ? & ? & ?). exists z. naive_solver. }
  rewrite E1. clear E1. destruct (rep (waiter c) q) as [jj|] eqn:Ejj;
    [|eapply work_irrelevant; naive_solver].
  destruct (mark_inv cs (blocker c) _ b1 ltac:(eapply leaders_in_group; [done|set_solver]) Hm1)
    as (b2 & E2 & Hm2).
  rewrite E2. clear E2. destruct (rep (blocker c) q) as [kk|] eqn:Ekk;
    [|eapply work_irrelevant; naive_solver].
  apply rep_leader in Ejj as Hwq. apply rep_leader in Ekk as Hbq. destruct Hm2 as (Hb2 & Hr2 & Ho2).
  constructor; cbn [beforeConstraints afterConstraints pred link].
  - by rewrite length_alter.
  - by rewrite length_insert.
  - intros j w Hj Hj'. rewrite n_before_snoc, lookup_alter_list, (Hr2 j w Hj Hj').
    case_decide as Hd; case_decide as Hd'; cbn; f_equal; try lia.
    + subst. by destruct Hd'.
    + destruct Hd' as [? _]. by simplify_eq.
  - intros j w Hj Hj'. destruct (Ho2 j w Hj Hj') as (z & Hz1 & ? & Hz). exists z.
    rewrite lookup_alter_list, Hz1. case_decide as Hd.
    { subst j. apply rep_Some in Ejj as [(w' & Hw' & Ew') Hlast]. simplify_eq. destruct Hj'.
      apply rep_Some. split; [by eexists|]. by rewrite Ew'. }
    split_and!; [done..|]. intros Ez. rewrite involved_snoc. naive_solver.
  - intros k0 k Hk0. by eapply lists_relevant.
Qed.

Lemma leaders_ok_sub ends ends' : ends' ⊆ ends → leaders_ok q ends → leaders_ok q ends'.
Proof. intros Hs Hok w g Hw Hg. apply Hok; [done|]. set_solver. Qed.

Lemma add_constraints_inv cs cs' s :
  leaders_ok q (ends_of cs') → work_inv cs s →
  work_inv (cs ++ cs') (add_constraints q (length cs) cs' s).
Proof.
  revert cs s. induction cs' as [|c cs' IH]; intros cs s Hok Hs; [by rewrite app_nil_r|].
  cbn [add_constraints]. replace (cs ++ c :: cs') with ((cs ++ [c]) ++ cs') by by rewrite <- app_assoc.
  replace (S (length cs)) with (length (cs ++ [c])) by (rewrite length_app; cbn; lia).
  apply IH; [|apply add_constraint_inv; [|done]];
    eapply leaders_ok_sub, Hok; unfold ends_of; set_solver.
Qed.

Lemma work_init : work_inv [] (mkTopo (replicate (length q) 0) (replicate (length q) O) ∅ ∅).
Proof.
  constructor; cbn; rewrite ?length_replicate; try done.
  - intros j w Hj%lookup_lt_Some _. by apply lookup_replicate_2.
  - intros j w Hj%lookup_lt_Some _. exists 0. split; [by apply lookup_replicate_2|].
    split; [done|]. intros _ (c & Hc & _). by apply not_elem_of_nil in Hc.
  - intros kk k [-> _]%lookup_replicate. exists []. split; [done|]. split; [done|]. split; [|done].
    by intros i Hi%not_elem_of_nil.
Qed.

(** ** The output loop *)

(** The array when the groups of [d] are output, and what is left of the queue. *)
Definition mask (d : list nat) : list (option PGPROC) :=
  (λ w, if bool_decide (leader_of w ∈ d) then None else Some w) <$> q.
Definition rest (d : list nat) : list PGPROC := filter (λ w, leader_of w ∉ d) q.

Lemma mask_lookup d j w : mask d !! j = Some (Some w) ↔ q !! j = Some w ∧ leader_of w ∉ d.
Proof.
  unfold mask. rewrite list_lookup_fmap. destruct (q !! j) as [v|]; cbn; [|naive_solver].
  case_bool_decide; naive_solver.
Qed.

Lemma elem_of_rest d w : w ∈ rest d ↔ w ∈ q ∧ leader_of w ∉ d.
Proof. unfold rest. rewrite list_elem_of_filter. tauto. Qed.

Lemma rest_leaders d g : g ∈ leader_of <$> rest d ↔ g ∈ leader_of <$> q ∧ g ∉ d.
Proof.
  rewrite !list_elem_of_fmap. setoid_rewrite elem_of_rest. split; [naive_solver|].
  intros [(w & -> & ?) ?]. by exists w.
Qed.

Lemma emit_spec g l o :
  emit g l o = ((λ x, x ≫= λ w, if in_group g w then None else Some w) <$> l,
                reverse (filter (λ w, in_group g w) (omap id l)) ++ o).
Proof.
  revert o. induction l as [|[w|] l IH]; intros o; [done|..]; cbn [emit fmap list_fmap omap list_omap].
  - destruct (in_group g w) eqn:E; rewrite IH; cbn -[filter]; rewrite E, filter_cons, E; [|done].
    rewrite decide_True by done. by rewrite reverse_cons, <- app_assoc.
  - by rewrite IH.
Qed.

Lemma omap_mask d : omap id (mask d) = rest d.
Proof.
  unfold mask, rest. induction q as [|w l IH]; [done|]. rewrite filter_cons. cbn.
  case_bool_decide; case_decide; try done; cbn; by rewrite IH.
Qed.

Lemma mask_emit d g : (∀ w, w ∈ q → in_group g w = bool_decide (leader_of w = g)) →
  (λ x, x ≫= λ w, if in_group g w then None else Some w) <$> mask d = mask (g :: d) ∧
  filter (λ w, in_group g w) (rest d) = filter (λ w, leader_of w = g) (rest d).
Proof.
  intros Hg. split.
  - unfold mask. rewrite <- list_fmap_compose. apply list_fmap_ext. intros i w Hw.
    apply list_elem_of_lookup_2 in Hw. cbn.
    case_bool_decide as H1; cbn; [by rewrite bool_decide_true by (by right)|]. rewrite Hg by done.
    case_bool_decide as H2; [by rewrite bool_decide_true by (rewrite H2; left)|].
    by rewrite bool_decide_false by (by intros [?|?]%elem_of_cons).
  - apply filter_ext_elem. intros w Hw%elem_of_rest. rewrite Hg by apply Hw. by rewrite bool_decide_spec.
Qed.

Lemma last_used_spec (topo : list (option PGPROC)) last : (∃ k w, (k ≤ last)%nat ∧ topo !! k = Some (Some w)) →
  ∃ last', last_used topo last = Some last' ∧ (last' ≤ last)%nat ∧
    ∀ k w, (last' < k)%nat → (k ≤ last)%nat → topo !! k ≠ Some (Some w).
Proof.
  induction last as [|last IH]; intros (k & w & Hk & Hw); cbn [last_used].
  - assert (k = O) as -> by lia. rewrite Hw. exists O. split_and!; [done..|]. lia.
  - destruct (topo !! S last) as [[v|]|] eqn:E.
    1: { exists (S last). split_and!; [done..|]. lia. }
    all: destruct IH as (l' & El & Hl & Hno);
      [exists k, w; split; [|done]; destruct (decide (k = S last)); [congruence|lia]|];
      exists l'; (split_and!; [done|lia|]); intros i u Hi Hi';
      (destruct (decide (i = S last)) as [->|]; [congruence|apply Hno; lia]).
Qed.

Lemma candidate_spec (topo : list (option PGPROC)) (b : list Z) last :
  match candidate topo b last with
  | Some (j, w) => (j ≤ last)%nat ∧ topo !! j = Some (Some w) ∧ b !! j = Some 0 ∧
      ∀ k v, (j < k)%nat → (k ≤ last)%nat → topo !! k = Some (Some v) → b !! k ≠ Some 0
  | None => ∀ k v, (k ≤ last)%nat → topo !! k = Some (Some v) → b !! k ≠ Some 0
  end.
Proof.
  assert (∀ last, (topo !! last = Some None ∨ topo !! last = None ∨ b !! last ≠ Some 0) →
    candidate topo b last = match last with O => None | S last => candidate topo b last end) as Hskip.
  { intros l H. destruct l; cbn; destruct (topo !! _) as [[v|]|], (b !! _) as [[]|]; naive_solver. }
  induction last as [|last IH].
  - destruct (topo !! O) as [[v|]|] eqn:E; [|rewrite Hskip by auto; intros [] ? ? ?; [congruence|lia]..].
    destruct (decide (b !! O = Some 0)) as [Eb|Eb].
    + cbn. rewrite E, Eb. split_and!; [done..|]. lia.
    + rewrite Hskip by auto. intros [] ? ? ?; [done|lia].
  - assert (∀ v, topo !! S last ≠ Some (Some v) ∨ b !! S last ≠ Some 0 → True) as _ by done.
    destruct (topo !! S last) as [[v|]|] eqn:E; [destruct (decide (b !! S last = Some 0)) as [Eb|Eb]|..].
    { cbn. rewrite E, Eb. split_and!; [done..|]. lia. }
    all: rewrite Hskip by auto; destruct (candidate topo b last) as [[j w]|];
      [destruct IH as (? & ? & ? & Hno); split_and!; [lia|done..|]; intros k u Hk Hk' Hu|intros k u Hk Hu];
      (destruct (decide (k = S last)) as [->|]; [congruence|eauto with lia]).
Qed.

Lemma release_spec s l k fuel b : chain (link s) k l → (length l ≤ fuel)%nat →
  (∀ i, i ∈ l → is_Some (pred s !! i)) →
  ∃ b', release fuel k s b = Ok b' ∧ ∀ j, b' !! j =
    (λ z, z - Z.of_nat (length (filter (λ i, pred s !! i = Some j) l))) <$> b !! j.
Proof.
  revert k fuel b. induction l as [|i l IH]; intros k fuel b.
  - intros -> _ _. exists b. split; [by destruct fuel|]. intros j. cbn.
    destruct (b !! j); [|done]. cbn. f_equal. lia.
  - intros (-> & k' & Hk & Hc) Hf Hp. destruct fuel as [|fuel]; [cbn in Hf; lia|].
    destruct (Hp i ltac:(left)) as [p Ep]. cbn [release]. rewrite Ep, Hk.
    destruct (IH k' fuel (alter Z.pred p b)) as (b' & E & H); [done|cbn in Hf; lia| |].
    { intros x Hx. apply Hp. by right. }
    exists b'. split; [done|]. intros j. rewrite H, lookup_alter_list, filter_cons, Ep.
    case_decide as Hd; case_decide as Hd'; try naive_solver; destruct (b !! j); cbn; try done; f_equal; lia.
Qed.

(** [b] stands behind every member of the group of [a]. *)
Definition behind_group (b a : PGPROC) : Prop :=
  ∀ j k v, q !! j = Some b → q !! k = Some v → leader_of v = leader_of a → (k < j)%nat.

(** A constraint asks for the group of [b] to come earlier. *)
Definition asked (cs : list EDGE) (b : PGPROC) : Prop :=
  ∃ c, c ∈ cs ∧ waiter c = leader_of b ∧ blocker c ∈ leader_of <$> q.

(** The order changes only for processes that constraints ask to move. *)
Definition moves_asked (cs : list EDGE) (o : list PGPROC) : Prop :=
  ∀ i k b a, (i < k)%nat → o !! i = Some b → o !! k = Some a → leader_of b ≠ leader_of a →
    behind_group b a → asked cs b.

Record loop_inv (cs : list EDGE) (d : list nat) (b : list Z) (o : list PGPROC) : Prop := mkLoop {
  li_perm : o ++ rest d ≡ₚ q;
  li_out : ∀ a, a ∈ o → leader_of a ∈ d;
  li_rep : ∀ j w, q !! j = Some w → rep (leader_of w) q = Some j →
    b !! j = Some (Z.of_nat (n_before cs (rest d) j));
  li_other : ∀ j w, q !! j = Some w → rep (leader_of w) q ≠ Some j →
    ∃ z, b !! j = Some z ∧ z ≤ 0 ∧ (z = 0 → ¬ involved cs (leader_of w));
  li_closed : ∀ c, c ∈ cs → waiter c ∈ leader_of <$> o → blocker c ∉ leader_of <$> rest d;
  li_respects : ∀ c, c ∈ cs → respects o c;
  li_adjacent : adjacent o;
  li_moves : moves_asked cs o;
  li_rest : ∀ x a, x ∈ rest d → a ∈ o → behind_group x a → asked cs x
}.

Lemma n_before_pos cs r j : n_before cs r j ≠ O →
  ∃ c, c ∈ cs ∧ rep (waiter c) q = Some j ∧ blocker c ∈ leader_of <$> r.
Proof.
  unfold n_before. intros H. destruct (filter _ cs) as [|c l] eqn:E; [done|].
  assert (c ∈ filter (λ c, rep (waiter c) q = Some j ∧ blocker c ∈ leader_of <$> r) cs) as Hc
    by (rewrite E; left).
  apply list_elem_of_filter in Hc as [[??]?]. by exists c.
Qed.

Lemma n_before_zero cs r j c : n_before cs r j = O → c ∈ cs → rep (waiter c) q = Some j →
  blocker c ∉ leader_of <$> r.
Proof.
  unfold n_before. intros H Hc Hr Hb. apply length_zero_iff_nil in H.
  assert (c ∈ filter (λ c, rep (waiter c) q = Some j ∧ blocker c ∈ leader_of <$> r) cs) as Hin
    by (by apply list_elem_of_filter).
  rewrite H in Hin. by apply not_elem_of_nil in Hin.
Qed.

(** A process left in the array whose group is not free. *)
Lemma blocked_asked cs d b o x jx :
  loop_inv cs d b o → x ∈ rest d → q !! jx = Some x →
  (∀ k v, (jx ≤ k)%nat → mask d !! k = Some (Some v) → b !! k ≠ Some 0) →
  ∃ c, c ∈ cs ∧ waiter c = leader_of x ∧ blocker c ∈ leader_of <$> rest d.
Proof.
  intros Hinv [Hx Hd]%elem_of_rest Hjx Hno.
  destruct (rep_elem (leader_of x) q) as [r Hr]; [by apply list_elem_of_fmap_2|].
  pose proof Hr as [(v & Hv & Ev) Hlast]%rep_Some.
  assert (jx ≤ r)%nat as Hle.
  { destruct (decide (r < jx)%nat) as [Hlt|]; [|lia]. by destruct (Hlast jx x). }
  assert (b !! r ≠ Some 0) as Hb by (apply (Hno r v); [done|]; apply mask_lookup; by rewrite Ev).
  rewrite (li_rep _ _ _ _ Hinv r v Hv) in Hb by by rewrite Ev.
  destruct (n_before_pos cs (rest d) r) as (c & Hc & Hw & Hbl).
  { intros E. by rewrite E in Hb. }
  exists c. split; [done|]. split; [|done]. apply rep_Some in Hw as [(v' & Hv' & <-) _]. by simplify_eq.
Qed.

Lemma n_before_step cs d g kk j : rep g q = Some kk → g ∉ d →
  n_before cs (rest d) j = (n_before cs (rest (g :: d)) j + n_edges cs j kk)%nat.
Proof.
  intros Hg Hd. unfold n_before, n_edges. induction cs as [|c cs IH]; [done|].
  rewrite !filter_cons.
  assert (rep (blocker c) q = Some kk ↔ blocker c = g) as Hkk.
  { split; [|by intros ->]. intros [(v & Hv & <-) _]%rep_Some.
    apply rep_Some in Hg as [(v' & Hv' & <-) _]. by simplify_eq. }
  pose proof (rep_leader g kk Hg). pose proof (rest_leaders d (blocker c)).
  pose proof (rest_leaders (g :: d) (blocker c)) as Hgd. rewrite not_elem_of_cons in Hgd.
  repeat case_decide; cbn; rewrite ?IH; try lia; naive_solver.
Qed.

Lemma n_edges_zero cs jj kk : (∀ c, c ∈ cs → rep (waiter c) q = Some jj → rep (blocker c) q ≠ Some kk) →
  n_edges cs jj kk = O.
Proof.
  unfold n_edges. intros H. destruct (filter _ cs) as [|c l] eqn:E; [done|].
  assert (c ∈ filter (λ c, rep (waiter c) q = Some jj ∧ rep (blocker c) q = Some kk) cs) as Hc
    by (rewrite E; left).
  apply list_elem_of_filter in Hc as [[??]?]. by destruct (H c).
Qed.

(** The list that is released is that of the output group, whichever member of it
    was found. *)
Lemma released_edges cs d b o j w kk jj : loop_inv cs d b o → q !! j = Some w → b !! j = Some 0 →
  rep (leader_of w) q = Some kk → n_edges cs jj j = n_edges cs jj kk.
Proof.
  intros Hinv Hj Hb Hkk. destruct (decide (kk = j)) as [->|Hne]; [done|].
  destruct (li_other _ _ _ _ Hinv j w Hj) as (z & Hz & _ & Hni); [congruence|]. simplify_eq.
  specialize (Hni eq_refl). rewrite !n_edges_zero; [done|..]; intros c Hc Hw%rep_leader Hb'.
  - apply Hni. exists c. apply rep_Some in Hkk as [(v & Hv & Ev) _].
    apply rep_Some in Hb' as [(v' & Hv' & Eb) _]. simplify_eq. rewrite <- Eb, Ev.
    split_and!; [done..| |by right]. rewrite <- Ev. apply list_elem_of_fmap_2. by eapply list_elem_of_lookup_2.
  - apply rep_Some in Hb' as Hb2. destruct Hb2 as [(v' & Hv' & Eb) _]. simplify_eq.
    by rewrite <- Eb, Hkk in Hb'; simplify_eq.
Qed.

Lemma loop_counts cs s d b o j w : work_inv cs s → loop_inv cs d b o →
  q !! j = Some w → leader_of w ∉ d → b !! j = Some 0 →
  ∃ b', release (length cs) (afterConstraints s !!! j) s b = Ok b' ∧
    (∀ i v, q !! i = Some v → rep (leader_of v) q = Some i →
      b' !! i = Some (Z.of_nat (n_before cs (rest (leader_of w :: d)) i))) ∧
    (∀ i v, q !! i = Some v → rep (leader_of v) q ≠ Some i →
      ∃ z, b' !! i = Some z ∧ z ≤ 0 ∧ (z = 0 → ¬ involved cs (leader_of v))).
Proof.
  intros Hs Hinv Hj Hd Hb.
  destruct (lookup_lt_is_Some_2 (afterConstraints s) j) as [k Hk].
  { rewrite (wi_after _ _ Hs). by eapply lookup_lt_Some. }
  destruct (rep_elem (leader_of w) q) as [kk Hkk].
  { apply list_elem_of_fmap_2. by eapply list_elem_of_lookup_2. }
  destruct (wi_lists _ _ Hs j k Hk) as (l & Hc & Hlen & Hl & Hcnt).
  destruct (release_spec s l k (length cs) b Hc Hlen) as (b' & E & Hb'); [naive_solver|].
  exists b'. rewrite (list_lookup_total_correct _ _ _ Hk). split; [done|].
  split; intros i v Hi Hr; rewrite Hb', Hcnt, (released_edges cs d b o j w kk) by done.
  - rewrite (li_rep _ _ _ _ Hinv i v Hi Hr), (n_before_step cs d (leader_of w) kk i Hkk Hd).
    cbn. f_equal. lia.
  - destruct (li_other _ _ _ _ Hinv i v Hi Hr) as (z & -> & Hz & Hni). exists z.
    rewrite n_edges_zero; [cbn; split; [f_equal; lia|done]|].
    intros c _ Hw _. apply rep_Some in Hw as Hw2. destruct Hw2 as [(u & Hu & Eu) _]. simplify_eq.
    by rewrite <- Eu in Hw.
Qed.

(** The members of the next group, in the order they are output. *)
Definition members (d : list nat) (g : nat) : list PGPROC :=
  reverse (filter (λ v, leader_of v = g) (rest d)).

Lemma elem_of_members d g w : w ∈ members d g ↔ w ∈ rest d ∧ leader_of w = g.
Proof. unfold members. rewrite elem_of_reverse, list_elem_of_filter. tauto. Qed.

Lemma rest_cons d g : rest (g :: d) = filter (λ v, leader_of v ≠ g) (rest d).
Proof.
  unfold rest. rewrite list_filter_filter. apply filter_ext_elem. intros w _.
  rewrite not_elem_of_cons. tauto.
Qed.

Lemma members_perm d g o : o ++ rest d ≡ₚ q → (members d g ++ o) ++ rest (g :: d) ≡ₚ q.
Proof.
  intros <-. rewrite rest_cons. unfold members. rewrite reverse_Permutation.
  rewrite (Permutation_app_comm _ o), <- app_assoc. apply Permutation_app_head.
  apply filter_app_complement.
Qed.

Lemma members_lookup d g o i a : (members d g ++ o) !! i = Some a →
  ((i < length (members d g))%nat ∧ a ∈ members d g) ∨
  ((length (members d g) ≤ i)%nat ∧ o !! (i - length (members d g))%nat = Some a).
Proof.
  intros H. apply lookup_app_Some in H as [H|[??]]; [left|by right].
  split; [by eapply lookup_lt_Some|by eapply list_elem_of_lookup_2].
Qed.

Lemma emitted_respects cs d b o g c :
  loop_inv cs d b o → g ∉ d → c ∈ cs →
  (∀ c, c ∈ cs → waiter c = g → blocker c ∉ leader_of <$> rest d) →
  respects (members d g ++ o) c.
Proof.
  intros Hinv Hg Hc Hfree i j x y Hi Hj Hx Hy.
  apply members_lookup in Hi as [[Hi Hi']|[Hi Hi']]; apply members_lookup in Hj as [[Hj Hj']|[Hj Hj']]; try lia.
  - apply elem_of_members in Hi' as [_ Ex], Hj' as [Hr Ey]. destruct (Hfree c Hc); [congruence|].
    rewrite <- Hy. by apply list_elem_of_fmap_2.
  - apply elem_of_members in Hj' as [Hr Ey]. destruct (li_closed _ _ _ _ Hinv c Hc).
    + rewrite <- Hx. apply list_elem_of_fmap_2. by eapply list_elem_of_lookup_2.
    + rewrite <- Hy. by apply list_elem_of_fmap_2.
  - enough (i - length (members d g) < j - length (members d g))%nat by lia.
    by eapply (li_respects _ _ _ _ Hinv c Hc).
Qed.

Lemma emitted_adjacent cs d b o g : loop_inv cs d b o → g ∉ d → adjacent (members d g ++ o).
Proof.
  intros Hinv Hg i j k x y z Hij Hjk Hi Hj Hk E.
  assert (∀ a, a ∈ o → leader_of a ≠ g) as Ho.
  { intros a Ha <-. by apply Hg, (li_out _ _ _ _ Hinv). }
  apply members_lookup in Hi as [[Hi Hi']|[Hi Hi']]; apply members_lookup in Hj as [[Hj Hj']|[Hj Hj']];
    apply members_lookup in Hk as [[Hk Hk']|[Hk Hk']]; try lia;
    repeat match goal with H : _ ∈ members _ _ |- _ => apply elem_of_members in H as [_ ?] end.
  - congruence.
  - destruct (Ho z); [by eapply list_elem_of_lookup_2|congruence].
  - destruct (Ho z); [by eapply list_elem_of_lookup_2|congruence].
  - eapply (li_adjacent _ _ _ _ Hinv (i - length (members d g))%nat
      (j - length (members d g))%nat (k - length (members d g))%nat); try done; lia.
Qed.

Lemma loop_step cs s d b o j w : work_inv cs s → loop_inv cs d b o →
  mask d !! j = Some (Some w) → b !! j = Some 0 →
  (∀ k v, (j < k)%nat → mask d !! k = Some (Some v) → b !! k ≠ Some 0) →
  ∃ b', release (length cs) (afterConstraints s !!! j) s b = Ok b' ∧
    loop_inv cs (leader_of w :: d) b' (members d (leader_of w) ++ o).
Proof.
  intros Hs Hinv [Hj Hd]%mask_lookup Hb Hmax.
  destruct (loop_counts cs s d b o j w) as (b' & E & Hrep & Hoth); [done..|].
  assert (w ∈ q) as Hwq by by eapply list_elem_of_lookup_2.
  assert (∀ c, c ∈ cs → waiter c = leader_of w → blocker c ∉ leader_of <$> rest d) as Hfree.
  { intros c Hc Hw Hbl. destruct (rep_elem (leader_of w) q) as [r Hr]; [by apply list_elem_of_fmap_2|].
    destruct (decide (r = j)) as [->|Hne].
    - rewrite (li_rep _ _ _ _ Hinv j w Hj Hr) in Hb.
      by apply (n_before_zero cs (rest d) j c); [injection Hb; lia|done|rewrite Hw|].
    - destruct (li_other _ _ _ _ Hinv j w Hj) as (z & Hz & _ & Hni); [congruence|]. simplify_eq.
      apply Hni; [done|]. apply rest_leaders in Hbl as [? _]. exists c. rewrite Hw.
      split_and!; [done|by apply list_elem_of_fmap_2|done|by left]. }
  assert (∀ x a, x ∈ rest d → leader_of a = leader_of w → behind_group x a → asked cs x) as Hasked.
  { intros x a Hx Ha Hbe. pose proof Hx as [(jx & Hjx)%list_elem_of_lookup _]%elem_of_rest.
    pose proof (Hbe jx j w Hjx Hj (eq_sym Ha)).
    destruct (blocked_asked cs d b o x jx) as (c & ? & ? & [? _]%rest_leaders); [done..| |by exists c].
    intros k v Hk. apply Hmax. lia. }
  exists b'. split; [done|]. constructor; try done.
  - by apply members_perm, Hinv.
  - intros a [[_ ->]%elem_of_members|Ha]%elem_of_app; [left|right]. by eapply li_out.
  - intros c Hc. rewrite fmap_app, elem_of_app, rest_leaders. intros Hw [Hbq Hbd].
    apply not_elem_of_cons in Hbd as [? ?]. destruct Hw as [(a & Ea & [_ Hm]%elem_of_members)%list_elem_of_fmap|Hw].
    + apply (Hfree c Hc); [congruence|]. by apply rest_leaders.
    + apply (li_closed _ _ _ _ Hinv c Hc Hw). by apply rest_leaders.
  - intros c Hc. by eapply emitted_respects.
  - by eapply emitted_adjacent.
  - intros i k x a Hik Hi Hk Hne Hbe.
    apply members_lookup in Hi as [[Hi Hi']|[Hi Hi']]; apply members_lookup in Hk as [[Hk Hk']|[Hk Hk']]; try lia.
    + apply elem_of_members in Hi' as [_ ?], Hk' as [_ ?]. congruence.
    + apply elem_of_members in Hi' as [? _]. eapply (li_rest _ _ _ _ Hinv x a); [done| |done].
      by eapply list_elem_of_lookup_2.
    + eapply (li_moves _ _ _ _ Hinv (i - length (members d (leader_of w)))%nat
        (k - length (members d (leader_of w)))%nat x a); try done; lia.
  - intros x a [Hx Hxd]%elem_of_rest [[_ Ha]%elem_of_members|Ha]%elem_of_app Hbe;
      apply not_elem_of_cons in Hxd as [_ Hxd].
    + apply (Hasked x a); [by apply elem_of_rest|done..].
    + apply (li_rest _ _ _ _ Hinv x a); [by apply elem_of_rest|done..].
Qed.

Lemma last_such {A} (P : A → Prop) `{!∀ x, Decision (P x)} (l : list A) x : x ∈ l → P x →
  ∃ i y, l !! i = Some y ∧ P y ∧ ∀ k z, (i < k)%nat → l !! k = Some z → ¬ P z.
Proof.
  revert x. induction l as [|y l IH]; intros x Hx HP; [by apply not_elem_of_nil in Hx|].
  destruct (decide (Exists P l)) as [(z & Hz & HPz)%Exists_exists|Hno].
  - destruct (IH z Hz HPz) as (i & u & Hu & HPu & Hl). exists (S i), u. split_and!; [done..|].
    intros [|k] v Hk; [lia|]. apply Hl. lia.
  - exists O, y. split; [done|]. split.
    + apply elem_of_cons in Hx as [->|Hx]; [done|]. destruct Hno. apply Exists_exists. by exists x.
    + intros [|k] z Hk; [lia|]. intros Hz HPz. apply Hno, Exists_exists. exists z.
      split; [by eapply list_elem_of_lookup_2|done].
Qed.

(** When no process is free, no order meets the constraints. *)
Lemma stuck_unsatisfiable cs d b o o' :
  loop_inv cs d b o → rest d ≠ [] → (∀ k v, mask d !! k = Some (Some v) → b !! k ≠ Some 0) →
  o' ≡ₚ q → ¬ ∀ c, c ∈ cs → respects o' c.
Proof.
  intros Hinv Hne Hno Hp Hr. destruct (rest d) as [|x l] eqn:E; [done|]. clear Hne.
  assert (x ∈ rest d) as [Hxq Hxd]%elem_of_rest by (rewrite E; left). clear l E.
  destruct (last_such (λ w, leader_of w ∉ d) o' x) as (i & y & Hi & Hy & Hlast); [by rewrite Hp|done|].
  assert (y ∈ q) as Hyq by (rewrite <- Hp; by eapply list_elem_of_lookup_2).
  pose proof Hyq as (jy & Hjy)%list_elem_of_lookup.
  destruct (blocked_asked cs d b o y jy) as (c & Hc & Ew & Eb);
    [done|by apply elem_of_rest|done|intros; by eapply Hno|].
  apply list_elem_of_fmap in Eb as (u & Eu & [Huq Hud]%elem_of_rest).
  rewrite <- Hp in Huq. apply list_elem_of_lookup in Huq as (k & Hk).
  apply (Hlast k u); [|done..]. by apply (Hr c Hc i k y u).
Qed.

(** The part of the array behind [last] holds nothing to output. *)
Lemma emit_mask d g last o :
  (∀ w, w ∈ q → in_group g w = bool_decide (leader_of w = g)) →
  (∀ k w, (last < k)%nat → mask d !! k ≠ Some (Some w)) →
  ∃ front, emit g (take (S last) (mask d)) o = (front, members d g ++ o) ∧
    front ++ drop (S last) (mask d) = mask (g :: d).
Proof.
  intros Hg Hlast. destruct (mask_emit d g Hg) as [Em Er].
  assert (drop (S last) (mask d) = replicate (length (drop (S last) (mask d))) None) as Hdrop.
  { symmetry. apply replicate_as_Forall. split; [done|]. apply Forall_lookup. intros i [v|] Hi; [|done].
    rewrite lookup_drop in Hi. destruct (Hlast (S last + i)%nat v); [lia|done]. }
  assert (omap id (take (S last) (mask d)) = rest d) as Ho.
  { rewrite <- omap_mask. rewrite <- (take_drop (S last) (mask d)) at 2. rewrite omap_app, Hdrop.
    assert (∀ n, omap id (replicate n (@None PGPROC)) = []) as -> by (by induction n).
    by rewrite app_nil_r. }
  rewrite emit_spec, Ho, Er. eexists. split; [done|].
  rewrite <- Em. rewrite <- (take_drop (S last) (mask d)) at 3. rewrite fmap_app. f_equal.
  by rewrite Hdrop, fmap_replicate.
Qed.

Lemma topo_loop_spec cs s fuel d b o last :
  leaders_ok q [] → work_inv cs s → loop_inv cs d b o →
  (length q - length o ≤ fuel)%nat → (∀ k w, (last < k)%nat → mask d !! k ≠ Some (Some w)) →
  ∃ r, topo_loop fuel (length cs) s b (mask d) last o = Ok r ∧
    match r with
    | Some o' => ∃ d' b', loop_inv cs d' b' o' ∧ length o' = length q
    | None => ∀ o', o' ≡ₚ q → ¬ ∀ c, c ∈ cs → respects o' c
    end.
Proof.
  intros Hok Hs. revert d b o last. induction fuel as [|fuel IH]; intros d b o last Hinv Hf Hlast.
  all: assert (length (mask d) = length q) as Hlen by (unfold mask; by rewrite length_fmap).
  all: pose proof (Permutation_length (li_perm _ _ _ _ Hinv)) as Hpl; rewrite length_app in Hpl.
  all: cbn [topo_loop]; rewrite Hlen; case_bool_decide as Hd; [by exists (Some o); eauto|].
  { lia. }
  assert (∃ x, x ∈ rest d) as [x Hx].
  { destruct (rest d) as [|x l]; [cbn in Hpl; lia|]. exists x. left. }
  pose proof Hx as [[jx Hjx]%list_elem_of_lookup Hxd]%elem_of_rest.
  destruct (last_used_spec (mask d) last) as (last' & -> & Hle & Hskip).
  { exists jx, x. assert (mask d !! jx = Some (Some x)) as H by by apply mask_lookup.
    split; [|done]. destruct (decide (jx ≤ last)%nat); [done|]. destruct (Hlast jx x); [lia|done]. }
  assert (∀ k w, (last' < k)%nat → mask d !! k ≠ Some (Some w)) as Hlast'.
  { intros k w Hk. destruct (decide (k ≤ last)%nat); [by apply Hskip|apply Hlast; lia]. }
  clear Hskip Hlast. pose proof (candidate_spec (mask d) b last') as Hc.
  destruct (candidate (mask d) b last') as [[j w]|].
  - destruct Hc as (Hj & Hm & Hb & Hmax). pose proof Hm as [Hjq Hjd]%mask_lookup.
    destruct (loop_step cs s d b o j w) as (b' & E & Hinv'); [done..| |].
    { intros k v Hk Hv. apply (Hmax k v); [done| |done]. destruct (decide (k ≤ last')%nat); [done|].
      destruct (Hlast' k v); [lia|done]. }
    assert (∀ v, v ∈ q → in_group (leader_of w) v = bool_decide (leader_of v = leader_of w)) as Hg.
    { eapply leaders_in_group; [done|]. apply elem_of_app. left. apply list_elem_of_fmap_2.
      by eapply list_elem_of_lookup_2. }
    destruct (emit_mask d (leader_of w) last' o Hg Hlast') as (front & -> & Ef).
    rewrite E. cbn [mbind outcome_bind]. rewrite Ef. apply IH; [done| |].
    + rewrite length_app. unfold members. rewrite length_reverse.
      assert (w ∈ filter (λ v, leader_of v = leader_of w) (rest d)) as Hin.
      { apply list_elem_of_filter. split; [done|]. apply elem_of_rest. split; [|done].
        by eapply list_elem_of_lookup_2. }
      destruct (filter _ (rest d)); [by apply not_elem_of_nil in Hin|]. cbn. lia.
    + intros k v Hk [Hv Hv']%mask_lookup. apply (Hlast' k v Hk), mask_lookup.
      apply not_elem_of_cons in Hv' as [_ ?]. done.
  - exists None. split; [done|]. intros o' Hp. eapply (stuck_unsatisfiable cs d b o o'); [done| | |done].
    + intros E. by rewrite E in Hx; apply not_elem_of_nil in Hx.
    + intros k v Hv. apply (Hc k v); [|done]. destruct (decide (k ≤ last')%nat); [done|].
      destruct (Hlast' k v); [lia|done].
Qed.
End sort.

(** [TopoSort] returns, for every queue and every set of constraints. *)
Lemma TopoSort_spec q cs : leaders_ok q (ends_of cs) →
  ∃ r, TopoSort q cs = Ok r ∧
    match r with
    | Some o => o ≡ₚ q ∧ (∀ c, c ∈ cs → respects o c) ∧ adjacent o ∧ moves_asked q cs o
    | None => ∀ o', o' ≡ₚ q → ¬ ∀ c, c ∈ cs → respects o' c
    end.
Proof.
  intros Hok. unfold TopoSort.
  pose proof (add_constraints_inv q [] cs _ Hok (work_init q)) as Hs. cbn [app length] in Hs.
  set (s := add_constraints q 0 cs _) in *.
  replace (Some <$> q) with (mask q []) by (by apply list_fmap_ext).
  destruct (topo_loop_spec q cs s (length q) [] (beforeConstraints s) [] (length q - 1)) as (r & E & Hr).
  - eapply leaders_ok_sub, Hok. set_solver.
  - done.
  - assert (rest q [] = q) as Hrest.
    { clear. unfold rest. induction q as [|w q IH]; [done|]. rewrite filter_cons, decide_True, IH; [done|].
      apply not_elem_of_nil. }
    constructor; rewrite ?Hrest; try done; try apply Hs; intros *; by (intros ?%not_elem_of_nil || intros _ ?%not_elem_of_nil).
  - lia.
  - intros k w Hk [?%lookup_lt_Some _]%mask_lookup. lia.
  - exists r. split; [done|]. destruct r as [o|]; [|done].
    destruct Hr as (d & b & Hinv & Hlen).
    pose proof (li_perm _ _ _ _ _ Hinv) as Hp. pose proof (Permutation_length Hp) as Hl.
    rewrite length_app in Hl. assert (rest q d = []) as E' by (apply length_zero_iff_nil; lia).
    rewrite E', app_nil_r in Hp. split_and!; [done|apply Hinv..].
Qed.

Section claims.
Context (waitProcs : list PGPROC) (constraints : list EDGE).
Hypothesis (Hleaders : leaders_ok waitProcs (ends_of constraints)).

(** C13. [TopoSort] returns for every wait queue and every set of edges. When it
    returns true, the new queue has the same processes, the waiter's group of each
    edge is ahead of the blocker's group, the members of a group stand next to each
    other, and a process overtakes others only when an edge asks for it. When it
    returns false, no order of the queue meets the edges. *)
Theorem TopoSort_correct :
  ∃ r, TopoSort waitProcs constraints = Ok r ∧
    match r with
    | Some ordering =>
        ordering ≡ₚ waitProcs ∧ (∀ c, c ∈ constraints → respects ordering c) ∧ adjacent ordering ∧
        moves_asked waitProcs constraints ordering
    | None => ∀ ordering, ordering ≡ₚ waitProcs → ¬ ∀ c, c ∈ constraints → respects ordering c
    end.
Proof. exact (TopoSort_spec _ _ Hleaders). Qed.
End claims.

Definition demo_waiter (p : nat) (g : option nat) : PGPROC := mkProc p (5 # 1)%Q 0 0 ExclusiveLock g.

(** Processes 1 and 4 are a group. The edges ask for 3 before 1 and 2 before 3. *)
Definition demo_queue : list PGPROC :=
  [demo_waiter 1 (Some 4%nat); demo_waiter 2 None; demo_waiter 4 (Some 4%nat); demo_waiter 3 None].

Example sort_moves_group :
  TopoSort demo_queue [mkEdge 3 4 0; mkEdge 2 3 0]
  = Ok (Some [demo_waiter 2 None; demo_waiter 3 None; demo_waiter 4 (Some 4%nat); demo_waiter 1 (Some 4%nat)]).
Proof. vm_compute. reflexivity. Qed.

Example sort_contradiction : TopoSort demo_queue [mkEdge 3 4 0; mkEdge 2 3 0; mkEdge 4 2 0] = Ok None.
Proof. vm_compute. reflexivity. Qed.

Lemma TopoSort_correct_witness :
  ∃ r, TopoSort demo_queue [mkEdge 3 4 0; mkEdge 2 3 0] = Ok r ∧
    match r with
    | Some ordering =>
        ordering ≡ₚ demo_queue ∧ (∀ c, c ∈ [mkEdge 3 4 0; mkEdge 2 3 0] → respects ordering c) ∧
        adjacent ordering ∧ moves_asked demo_queue [mkEdge 3 4 0; mkEdge 2 3 0] ordering
    | None => ∀ ordering, ordering ≡ₚ demo_queue →
        ¬ ∀ c, c ∈ [mkEdge 3 4 0; mkEdge 2 3 0] → respects ordering c
    end.
Proof.
  apply TopoSort_correct. intros w g Hw Hg Hp.
  repeat (apply elem_of_cons in Hw as [->|Hw];
          [repeat (apply elem_of_cons in Hg as [->|Hg]; [by vm_compute in Hp |- *|]);
           by apply not_elem_of_nil in Hg|]).
  by apply not_elem_of_nil in Hw.
Defined.
