(* ===== verification/Deadlock.v ===== *)
(** * The deadlock detector

    Models [dbengine/src/backend/storage/lmgr/deadlock.c] and [CheckDeadLock] of
    [proc.c] on a table of lock objects and processes; all partitions of the lock
    table are locked while the detector runs. The lock objects are those of
    [Lock], their wait queues ordered by rank. A search goes through the waits-for
    graph between lock groups, with hard edges to holders and soft edges to
    waiters ahead in a queue; a soft deadlock is resolved by a new order of some
    queues ([TopoSort]).

    The fixed arrays of the detector are lists with a check at each write: a write
    behind the end is undefined. *)
From S2P Require Import Prelude Lock TopoSort.
From Stdlib Require Import ZArith Lia QArith.
From stdpp Require Import base strings gmap numbers list sorting relations.

Open Scope Z_scope.

(** What the detector reads of a process beside [PGPROC] of [Lock]. [links.next]
    and [waitLock] are set and cleared together. *)
Record proc_entry := mkEntry {
  pgproc : PGPROC;
  waitLock : option nat;
  lockGroupMembers : list nat;
  pid : Z;
  is_autovacuum : bool
}.

(** The lock objects and the array of processes. *)
Record lock_table := mkTable {
  extension_lock : nat → bool;
  locks : nat → LOCK;
  procs : nat → proc_entry
}.

Record WAIT_ORDER := mkOrder { order_lock : nat; order_procs : list PGPROC }.

Record DEADLOCK_INFO := mkInfo { locktag : nat; lockmode : Z; info_pid : Z }.

Inductive DeadLockState :=
| DS_NOT_YET_CHECKED | DS_NO_DEADLOCK | DS_SOFT_DEADLOCK | DS_HARD_DEADLOCK | DS_BLOCKED_BY_AUTOVACUUM.

#[global] Instance DeadLockState_eq_dec : EqDecision DeadLockState.
Proof. solve_decision. Defined.

(** The workspace of a search: [visitedProcs] with the starting point first, the
    soft edges of the cycle, the details of the cycle by depth. *)
Record search := mkSearch {
  visitedProcs : list nat;
  softEdges : list EDGE;
  deadlockDetails : gmap nat DEADLOCK_INFO;
  nDeadlockDetails : nat;
  blocking_autovacuum_proc : option nat
}.

Definition group_leader (t : lock_table) (p : nat) : nat :=
  default p (lockGroupLeader (pgproc (procs t p))).

Definition is_waiting (t : lock_table) (p : nat) : bool := bool_decide (is_Some (waitLock (procs t p))).

Definition visit (p : nat) (s : search) : search :=
  mkSearch (visitedProcs s ++ [p]) (softEdges s) (deadlockDetails s) (nDeadlockDetails s)
    (blocking_autovacuum_proc s).
Definition set_length (depth : nat) (s : search) : search :=
  mkSearch (visitedProcs s) (softEdges s) (deadlockDetails s) depth (blocking_autovacuum_proc s).
Definition set_autovacuum (p : nat) (s : search) : search :=
  mkSearch (visitedProcs s) (softEdges s) (deadlockDetails s) (nDeadlockDetails s) (Some p).

Section detector.
Context (MaxBackends MyProc : nat).

(** Fill [deadlockDetails[depth]]. *)
Definition record_details (t : lock_table) (checkProc lock depth : nat) (s : search) : outcome search :=
  if bool_decide (depth < MaxBackends)%nat then
    Ok (mkSearch (visitedProcs s) (softEdges s)
          (<[depth := mkInfo lock (waitLockMode (pgproc (procs t checkProc))) (pid (procs t checkProc))]>
             (deadlockDetails s))
          (nDeadlockDetails s) (blocking_autovacuum_proc s))
  else Ub "write behind deadlockDetails".

Definition record_soft_edge (e : EDGE) (s : search) : outcome search :=
  if bool_decide (length (softEdges s) < MaxBackends)%nat then
    Ok (mkSearch (visitedProcs s) (softEdges s ++ [e]) (deadlockDetails s) (nDeadlockDetails s)
          (blocking_autovacuum_proc s))
  else Ub "write behind softEdges".

(** ** The search for a cycle *)

(** The loops of [FindLockCycleRecurseMember] over the holders, over a proposed
    order and over the queue of the lock; [recurse] is [FindLockCycleRecurse] one
    level deeper. *)
Section loops.
Context (t : lock_table) (recurse : nat → search → outcome (bool * search)).
Context (checkProc checkProcLeader lock : nat) (conflictMask : Z) (depth : nat).

Fixpoint scan_holders (l : list PROCLOCK) (s : search) : outcome (bool * search) :=
  match l with
  | [] => Ok (false, s)
  | proclock :: l =>
      let proc := myProc proclock in
      if bool_decide (group_leader t proc ≠ checkProcLeader) &&
         existsb (λ lm, Z.testbit (holdMask proclock) lm && Z.testbit conflictMask lm) modes
      then
        '(found, s) ← recurse proc s;
        if (found : bool) then
          s ← record_details t checkProc lock depth s;
          Ok (true, s)
        else
          scan_holders l
            (if bool_decide (checkProc = MyProc) && is_autovacuum (procs t proc)
             then set_autovacuum proc s else s)
      else scan_holders l s
  end.

Definition soft_blocker (proc : PGPROC) (s : search) : outcome (bool * search) :=
  '(found, s) ← recurse (pgprocno proc) s;
  if (found : bool) then
    s ← record_details t checkProc lock depth s;
    s ← record_soft_edge (mkEdge checkProcLeader (leader_of proc) lock) s;
    Ok (true, s)
  else Ok (false, s).

Fixpoint scan_order (l : list PGPROC) (s : search) : outcome (bool * search) :=
  match l with
  | [] => Ok (false, s)
  | proc :: l =>
      if bool_decide (leader_of proc = checkProcLeader) then Ok (false, s)
      else if Z.testbit conflictMask (waitLockMode proc) then
        '(found, s) ← soft_blocker proc s;
        if (found : bool) then Ok (true, s) else scan_order l s
      else scan_order l s
  end.

Fixpoint scan_queue (lastGroupMember : option nat) (l : list PGPROC) (s : search)
    : outcome (bool * search) :=
  match l with
  | [] => Ok (false, s)
  | proc :: l =>
      if bool_decide (Some (pgprocno proc) = lastGroupMember) then Ok (false, s)
      else if Z.testbit conflictMask (waitLockMode proc) && bool_decide (leader_of proc ≠ checkProcLeader)
      then
        '(found, s) ← soft_blocker proc s;
        if (found : bool) then Ok (true, s) else scan_queue lastGroupMember l s
      else scan_queue lastGroupMember l s
  end.
End loops.

(** The last member of the group in the queue; without a group, the process. *)
Definition last_member (t : lock_table) (checkProc checkProcLeader : nat) (queue : list PGPROC)
    : option nat :=
  match lockGroupLeader (pgproc (procs t checkProc)) with
  | None => Some checkProc
  | Some _ =>
      foldl (λ acc proc, if bool_decide (lockGroupLeader proc = Some checkProcLeader)
                         then Some (pgprocno proc) else acc) None queue
  end.

Definition find_order (waitOrders : list WAIT_ORDER) (lock : nat) : option WAIT_ORDER :=
  snd <$> list_find (λ o, order_lock o = lock) waitOrders.

Definition FindLockCycleRecurseMember (t : lock_table) (waitOrders : list WAIT_ORDER)
    (recurse : nat → search → outcome (bool * search)) (checkProc checkProcLeader depth : nat)
    (s : search) : outcome (bool * search) :=
  match waitLock (procs t checkProc) with
  | None => Ub "waitLock is NULL"
  | Some lock =>
      if extension_lock t lock then Ok (false, s)
      else
        let conflictMask := LockConflicts (waitLockMode (pgproc (procs t checkProc))) in
        '(found, s) ←
          scan_holders t recurse checkProc checkProcLeader lock conflictMask depth
            (procLocks (locks t lock)) s;
        if (found : bool) then Ok (true, s)
        else
          match find_order waitOrders lock with
          | Some o =>
              scan_order t recurse checkProc checkProcLeader lock conflictMask depth (order_procs o) s
          | None =>
              let queue := waitProcs (locks t lock) in
              scan_queue t recurse checkProc checkProcLeader lock conflictMask depth
                (last_member t checkProc checkProcLeader queue) queue s
          end
  end.

(** The loop over the members of the group. *)
Fixpoint scan_members (t : lock_table) (waitOrders : list WAIT_ORDER)
    (recurse : nat → search → outcome (bool * search)) (members : list nat) (checkProc depth : nat)
    (s : search) : outcome (bool * search) :=
  match members with
  | [] => Ok (false, s)
  | memberProc :: members =>
      if is_waiting t memberProc && bool_decide (memberProc ≠ checkProc) then
        '(found, s) ← FindLockCycleRecurseMember t waitOrders recurse memberProc checkProc depth s;
        if (found : bool) then Ok (true, s)
        else scan_members t waitOrders recurse members checkProc depth s
      else scan_members t waitOrders recurse members checkProc depth s
  end.

Fixpoint FindLockCycleRecurse (fuel : nat) (t : lock_table) (waitOrders : list WAIT_ORDER)
    (checkProc depth : nat) (s : search) : outcome (bool * search) :=
  match fuel with
  | O => Ub "the search does not end"
  | S fuel =>
      let checkProc := group_leader t checkProc in
      match list_find (λ p, p = checkProc) (visitedProcs s) with
      | Some (O, _) => Ok (true, set_length depth s)
      | Some _ => Ok (false, s)
      | None =>
          if bool_decide (length (visitedProcs s) < MaxBackends)%nat then
            let s := visit checkProc s in
            let recurse := λ p, FindLockCycleRecurse fuel t waitOrders p (S depth) in
            '(found, s) ←
              (if is_waiting t checkProc
               then FindLockCycleRecurseMember t waitOrders recurse checkProc checkProc depth s
               else Ok (false, s));
            if (found : bool) then Ok (true, s)
            else scan_members t waitOrders recurse (lockGroupMembers (procs t checkProc)) checkProc depth s
          else Ub "write behind visitedProcs"
      end
  end.

(** One more call than the array has room for: the deepest call finds its process
    visited. *)
Definition FindLockCycle (t : lock_table) (waitOrders : list WAIT_ORDER) (checkProc : nat)
    (autovac : option nat) : outcome (bool * search) :=
  FindLockCycleRecurse (S MaxBackends) t waitOrders checkProc 0 (mkSearch [] [] ∅ 0 autovac).

(** ** Configurations *)

(** The loop of [ExpandConstraints] from the last constraint back; the i first
    constraints are left, [nWaitOrderProcs] entries are used. *)
Fixpoint expand_loop (t : lock_table) (constraints : list EDGE) (i : nat) (waitOrders : list WAIT_ORDER)
    (nWaitOrderProcs : nat) : outcome (bool * list WAIT_ORDER) :=
  match i with
  | O => Ok (true, waitOrders)
  | S i =>
      match constraints !! i with
      | None => Ub "read behind the constraints"
      | Some c =>
          let lock := edge_lock c in
          if bool_decide (lock ∈ order_lock <$> waitOrders)
          then expand_loop t constraints i waitOrders nWaitOrderProcs
          else
            let queue := waitProcs (locks t lock) in
            if bool_decide (length waitOrders < MaxBackends / 2)%nat &&
               bool_decide (nWaitOrderProcs + length queue ≤ MaxBackends)%nat
            then
              r ← TopoSort queue (take (S i) constraints);
              match r with
              | None => Ok (false, waitOrders)
              | Some ordering =>
                  expand_loop t constraints i (waitOrders ++ [mkOrder lock ordering])
                    (nWaitOrderProcs + length queue)
              end
            else Ub "write behind waitOrders"
      end
  end.

Definition ExpandConstraints (t : lock_table) (constraints : list EDGE) : outcome (bool * list WAIT_ORDER) :=
  expand_loop t constraints (length constraints) [] 0.

(** The static variables of the detector. [curConstraints] are the first
    [nCurConstraints] entries; [possibleConstraints] holds the saved edges and,
    behind them, the output of the last search. *)
Record work := mkWork {
  curConstraints : list EDGE;
  possibleConstraints : gmap nat EDGE;
  nPossibleConstraints : nat;
  waitOrders : list WAIT_ORDER;
  details : gmap nat DEADLOCK_INFO;
  nDetails : nat;
  blocking_autovacuum : option nat
}.

Definition maxCurConstraints : nat := MaxBackends.
Definition maxPossibleConstraints : nat := MaxBackends * 4.

Definition with_cur (l : list EDGE) (w : work) : work :=
  mkWork l (possibleConstraints w) (nPossibleConstraints w) (waitOrders w) (details w) (nDetails w)
    (blocking_autovacuum w).
Definition with_nPossible (n : nat) (w : work) : work :=
  mkWork (curConstraints w) (possibleConstraints w) n (waitOrders w) (details w) (nDetails w)
    (blocking_autovacuum w).
Definition with_orders (o : list WAIT_ORDER) (w : work) : work :=
  mkWork (curConstraints w) (possibleConstraints w) (nPossibleConstraints w) o (details w) (nDetails w)
    (blocking_autovacuum w).

Fixpoint store_edges (off : nat) (l : list EDGE) (m : gmap nat EDGE) : gmap nat EDGE :=
  match l with [] => m | e :: l => store_edges (S off) l (<[off := e]> m) end.

(** What a search leaves, its soft edges written from [off] on. *)
Definition after_search (off : nat) (s : search) (w : work) : work :=
  mkWork (curConstraints w) (store_edges off (softEdges s) (possibleConstraints w))
    (nPossibleConstraints w) (waitOrders w) (deadlockDetails s) (nDeadlockDetails s)
    (blocking_autovacuum_proc s).

(** The searches of [TestConfiguration], in order. *)
Fixpoint test_procs (t : lock_table) (ps : list nat) (softFound : Z) (w : work) : outcome (Z * work) :=
  match ps with
  | [] => Ok (softFound, w)
  | p :: ps =>
      '(found, s) ← FindLockCycle t (waitOrders w) p (blocking_autovacuum w);
      let w := after_search (nPossibleConstraints w) s w in
      if (found : bool) then
        if bool_decide (softEdges s = []) then Ok (-1, w)
        else test_procs t ps (Z.of_nat (length (softEdges s))) w
      else test_procs t ps softFound w
  end.

Definition checked_procs (cur : list EDGE) (startProc : nat) : list nat :=
  concat ((λ c, [waiter c; blocker c]) <$> cur) ++ [startProc].

Definition TestConfiguration (t : lock_table) (startProc : nat) (w : work) : outcome (Z * work) :=
  if bool_decide (maxPossibleConstraints < nPossibleConstraints w + MaxBackends)%nat then Ok (-1, w)
  else
    '(ok, orders) ← ExpandConstraints t (curConstraints w);
    let w := with_orders orders w in
    if negb (ok : bool) then Ok (-1, w)
    else test_procs t (checked_procs (curConstraints w) startProc) 0 w.

(** The loop of [DeadLockCheckRecurse] over the soft edges, [k] of them left. *)
Fixpoint try_edges (recurse : work → outcome (bool * work)) (t : lock_table) (proc : nat) (nEdges : Z)
    (savedList : bool) (oldPossibleConstraints i k : nat) (w : work) : outcome (bool * work) :=
  match k with
  | O => Ok (true, with_nPossible oldPossibleConstraints w)
  | S k =>
      w ← (if negb savedList && bool_decide (0 < i)%nat then
             '(n, w) ← TestConfiguration t proc w;
             if n =? nEdges then Ok w
             else Raise "FATAL: inconsistent results during deadlock check"
           else Ok w);
      match possibleConstraints w !! (oldPossibleConstraints + i)%nat with
      | None => Ub "a constraint that was not written"
      | Some e =>
          '(r, w) ← recurse (with_cur (curConstraints w ++ [e]) w);
          if negb (r : bool) then Ok (false, w)
          else
            try_edges recurse t proc nEdges savedList oldPossibleConstraints (S i) k
              (with_cur (take (length (curConstraints w) - 1) (curConstraints w)) w)
      end
  end.

Fixpoint DeadLockCheckRecurse (fuel : nat) (t : lock_table) (proc : nat) (w : work)
    : outcome (bool * work) :=
  match fuel with
  | O => Ub "the recursion does not end"
  | S fuel =>
      '(nEdges, w) ← TestConfiguration t proc w;
      if nEdges <? 0 then Ok (true, w)
      else if nEdges =? 0 then Ok (false, w)
      else if bool_decide (maxCurConstraints ≤ length (curConstraints w))%nat then Ok (true, w)
      else
        let old := nPossibleConstraints w in
        let savedList := bool_decide (old + Z.to_nat nEdges + MaxBackends ≤ maxPossibleConstraints)%nat in
        let w := if savedList then with_nPossible (old + Z.to_nat nEdges) w else w in
        try_edges (DeadLockCheckRecurse fuel t proc) t proc nEdges savedList old 0 (Z.to_nat nEdges) w
  end.

(** ** The check *)

(** A lock object changes: its waiters are the processes in its queue, and the
    processes that left the queue no longer wait. *)
Definition set_lock (l : nat) (lock : LOCK) (t : lock_table) : lock_table :=
  mkTable (extension_lock t) (λ i, if decide (i = l) then lock else locks t i)
    (λ p,
      let e := procs t p in
      match list_find (λ w, pgprocno w = p) (waitProcs lock) with
      | Some (_, w) => mkEntry w (Some l) (lockGroupMembers e) (pid e) (is_autovacuum e)
      | None =>
          if bool_decide (waitLock e = Some l)
          then mkEntry (pgproc e) None (lockGroupMembers e) (pid e) (is_autovacuum e)
          else e
      end).

(** Rearrange the wait queues and wake who can be woken. *)
Fixpoint apply_orders (orders : list WAIT_ORDER) (t : lock_table) : outcome lock_table :=
  match orders with
  | [] => Ok t
  | o :: orders =>
      let l := order_lock o in
      lock ← ProcLockWakeup (extension_lock t l) (pgproc (procs t MyProc))
               (with_waitProcs (locks t l) (order_procs o));
      apply_orders orders (set_lock l lock t)
  end.

Definition DeadLockCheck (t : lock_table) (proc : nat) : outcome (DeadLockState * work * lock_table) :=
  '(hard, w) ← DeadLockCheckRecurse (S maxCurConstraints) t proc (mkWork [] ∅ 0 [] ∅ 0 None);
  if (hard : bool) then
    '(found, s) ← FindLockCycle t [] proc (blocking_autovacuum w);
    if (found : bool) then Ok (DS_HARD_DEADLOCK, after_search 0 s (with_orders [] w), t)
    else Raise "FATAL: deadlock seems to have disappeared"
  else
    t ← apply_orders (waitOrders w) t;
    Ok (match waitOrders w, blocking_autovacuum w with
        | _ :: _, _ => DS_SOFT_DEADLOCK
        | [], Some _ => DS_BLOCKED_BY_AUTOVACUUM
        | [], None => DS_NO_DEADLOCK
        end, w, t).

(** The saved process is handed out once. *)
Definition GetBlockingAutoVacuumPgproc (w : work) : option nat * work :=
  (blocking_autovacuum w,
   mkWork (curConstraints w) (possibleConstraints w) (nPossibleConstraints w) (waitOrders w) (details w)
     (nDetails w) None).

(** [CheckDeadLock] of proc.c: [None] when the process was woken meanwhile. *)
Definition CheckDeadLock (t : lock_table) : outcome (option DeadLockState * lock_table) :=
  match waitLock (procs t MyProc) with
  | None => Ok (None, t)
  | Some l =>
      '(st, _, t) ← DeadLockCheck t MyProc;
      match st with
      | DS_HARD_DEADLOCK =>
          lock ← RemoveFromWaitQueue (extension_lock t l) (pgproc (procs t MyProc))
                   (pgproc (procs t MyProc)) (locks t l);
          Ok (Some st, set_lock l lock t)
      | _ => Ok (Some st, t)
      end
  end.

(** The lines of [DeadLockReport]: who waits, in which mode, for what, and the
    process named as the blocker. *)
Definition DeadLockReport (w : work) : list (option (Z * Z * nat * Z)) :=
  (λ i, info ← details w !! i;
        next ← details w !! (if bool_decide (S i < nDetails w)%nat then S i else 0%nat);
        Some (info_pid info, lockmode info, locktag info, info_pid next)) <$> seq 0 (nDetails w).

(** The two entries [ProcSleep] leaves when it finds a deadlock of two: the first
    process asks for a mode of the lock, the second waits already. *)
Definition RememberSimpleDeadLock (t : lock_table) (proc1 : nat) (mode : Z) (lock proc2 : nat) (w : work)
    : outcome work :=
  match waitLock (procs t proc2) with
  | None => Ub "waitLock is NULL"
  | Some lock2 =>
      Ok (mkWork (curConstraints w) (possibleConstraints w) (nPossibleConstraints w) (waitOrders w)
            (<[1%nat := mkInfo lock2 (waitLockMode (pgproc (procs t proc2))) (pid (procs t proc2))]>
               (<[0%nat := mkInfo lock mode (pid (procs t proc1))]> (details w)))
            2 (blocking_autovacuum w))
  end.
End detector.

(** ** The waits-for graph *)

(** An outgoing edge of a lock group: the member that waits, the lock, whether the
    blocker is a waiter ahead of it, and the blocking process. *)
Record arc := mkArc { arc_member : nat; arc_lock : nat; arc_soft : bool; arc_proc : nat }.

Fixpoint until {A} (P : A → Prop) `{!∀ x, Decision (P x)} (l : list A) : list A :=
  match l with [] => [] | x :: l => if decide (P x) then [] else x :: until P l end.

Section graph.
Context (t : lock_table) (orders : list WAIT_ORDER).

(** The waiters of other groups that a waiting member finds ahead of it. *)
Definition ahead (c g lock : nat) : list PGPROC :=
  match find_order orders lock with
  | Some o => until (λ w, leader_of w = g) (order_procs o)
  | None =>
      let queue := waitProcs (locks t lock) in
      filter (λ w, leader_of w ≠ g)
        (until (λ w, Some (pgprocno w) = last_member t c g queue) queue)
  end.

Definition hard_blocks (g : nat) (conflictMask : Z) (pl : PROCLOCK) : Prop :=
  group_leader t (myProc pl) ≠ g ∧
  existsb (λ lm, Z.testbit (holdMask pl) lm && Z.testbit conflictMask lm) modes = true.

#[global] Instance hard_blocks_dec g m pl : Decision (hard_blocks g m pl).
Proof. apply and_dec; apply _. Defined.

Definition member_arcs (c g : nat) : list arc :=
  match waitLock (procs t c) with
  | None => []
  | Some l =>
      if extension_lock t l then []
      else
        let conflictMask := LockConflicts (waitLockMode (pgproc (procs t c))) in
        ((λ pl, mkArc c l false (myProc pl)) <$>
           filter (hard_blocks g conflictMask) (procLocks (locks t l))) ++
        ((λ w, mkArc c l true (pgprocno w)) <$>
           filter (λ w, Z.testbit conflictMask (waitLockMode w) = true) (ahead c g l))
  end.

Definition group_arcs (g : nat) : list arc :=
  member_arcs g g ++
  concat ((λ m, if bool_decide (m ≠ g) then member_arcs m g else []) <$> lockGroupMembers (procs t g)).

Definition arc_target (a : arc) : nat := group_leader t (arc_proc a).

(** A walk through the graph from [g] to [h]. *)
Fixpoint walk (g : nat) (l : list arc) (h : nat) : Prop :=
  match l with
  | [] => g = h
  | a :: l => a ∈ group_arcs g ∧ walk (arc_target a) l h
  end.

Definition on_cycle (g : nat) : Prop := ∃ l, l ≠ [] ∧ walk g l g.

(** What the search notes of an edge of the cycle. *)
Definition arc_info (a : arc) : DEADLOCK_INFO :=
  mkInfo (arc_lock a) (waitLockMode (pgproc (procs t (arc_member a)))) (pid (procs t (arc_member a))).
Definition soft_edges (g : nat) (l : list arc) : list EDGE :=
  (fix go g l := match l with
   | [] => []
   | a :: l => go (arc_target a) l ++ (if arc_soft a then [mkEdge g (arc_target a) (arc_lock a)] else [])
   end) g l.
End graph.

(** The loops of a search as one loop over the edges. *)
Section arcs.
Context (MaxBackends MyProc : nat) (t : lock_table) (recurse : nat → search → outcome (bool * search)).
Context (g depth : nat).

Definition found_arc (a : arc) (s : search) : outcome (bool * search) :=
  s ← record_details MaxBackends t (arc_member a) (arc_lock a) depth s;
  s ← (if arc_soft a
       then record_soft_edge MaxBackends (mkEdge g (arc_target t a) (arc_lock a)) s else Ok s);
  Ok (true, s).

Fixpoint try_arcs (l : list arc) (s : search) : outcome (bool * search) :=
  match l with
  | [] => Ok (false, s)
  | a :: l =>
      '(found, s) ← recurse (arc_proc a) s;
      if (found : bool) then found_arc a s
      else try_arcs l (if negb (arc_soft a) && bool_decide (arc_member a = MyProc) &&
                          is_autovacuum (procs t (arc_proc a))
                       then set_autovacuum (arc_proc a) s else s)
  end.

Lemma try_arcs_app l k s : try_arcs (l ++ k) s =
  '(found, s) ← try_arcs l s; if (found : bool) then Ok (true, s) else try_arcs k s.
Proof.
  revert s. induction l as [|a l IH]; intros s; [done|]. cbn [app try_arcs].
  destruct (recurse (arc_proc a) s) as [[[] s']| |]; [|apply IH|done..].
  unfold found_arc. cbn [mbind outcome_bind]. destruct (record_details _ _ _ _ _ _); [|done..].
  cbn [mbind outcome_bind]. by destruct (if arc_soft a then _ else _).
Qed.

Lemma scan_holders_arcs c l mask pls s :
  scan_holders MaxBackends MyProc t recurse c g l mask depth pls s =
  try_arcs ((λ pl, mkArc c l false (myProc pl)) <$> filter (hard_blocks t g mask) pls) s.
Proof.
  revert s. induction pls as [|pl pls IH]; intros s; [done|]. cbn [scan_holders]. rewrite filter_cons.
  destruct (decide (hard_blocks t g mask pl)) as [[H1 H2]|Hn].
  - rewrite bool_decide_true, H2 by done. cbn [fmap list_fmap try_arcs arc_proc andb].
    destruct (recurse (myProc pl) s) as [[[] s']| |]; [| |done..]; cbn [mbind outcome_bind].
    + unfold found_arc. cbn. by destruct (record_details _ _ _ _ _ _).
    + apply IH.
  - rewrite IH. unfold hard_blocks in Hn. case_bool_decide; [|done]. destruct (existsb _ _); [|done].
    by destruct Hn.
Qed.

Lemma soft_blocker_arc c l w s k :
  group_leader t (pgprocno w) = leader_of w →
  ('(found, s) ← soft_blocker MaxBackends t recurse c g l depth w s;
   if (found : bool) then Ok (true, s) else try_arcs k s) =
  try_arcs (mkArc c l true (pgprocno w) :: k) s.
Proof.
  intros Hw. unfold soft_blocker. cbn [try_arcs arc_proc].
  destruct (recurse (pgprocno w) s) as [[[] s']| |]; [| |done..]; cbn [mbind outcome_bind]; [|done].
  unfold found_arc. cbn [arc_member arc_lock arc_soft].
  destruct (record_details _ _ _ _ _ _); [|done..]; cbn [mbind outcome_bind].
  unfold arc_target. cbn [arc_proc]. rewrite Hw.
  by destruct (record_soft_edge _ _ _).
Qed.

Lemma scan_order_arcs c l mask ws s :
  (∀ w, w ∈ ws → group_leader t (pgprocno w) = leader_of w) →
  scan_order MaxBackends t recurse c g l mask depth ws s =
  try_arcs ((λ w, mkArc c l true (pgprocno w)) <$>
    filter (λ w, Z.testbit mask (waitLockMode w) = true) (until (λ w, leader_of w = g) ws)) s.
Proof.
  revert s. induction ws as [|w ws IH]; intros s Hws; [done|]. cbn [scan_order until].
  case_bool_decide; [by rewrite decide_True|]. rewrite decide_False by done. rewrite filter_cons.
  assert (∀ s, scan_order MaxBackends t recurse c g l mask depth ws s = _) as IH'
    by (intros s'; apply IH; intros v Hv; apply Hws; by right). clear IH.
  destruct (Z.testbit mask (waitLockMode w)).
  - rewrite decide_True, fmap_cons by done. rewrite <- soft_blocker_arc by (apply Hws; left).
    destruct (soft_blocker _ _ _ _ _ _ _ _ _) as [[[] s']| |]; [done|apply IH'|done..].
  - rewrite decide_False by done. apply IH'.
Qed.

Lemma scan_queue_arcs c l mask last ws s :
  (∀ w, w ∈ ws → group_leader t (pgprocno w) = leader_of w) →
  scan_queue MaxBackends t recurse c g l mask depth last ws s =
  try_arcs ((λ w, mkArc c l true (pgprocno w)) <$>
    filter (λ w, Z.testbit mask (waitLockMode w) = true)
      (filter (λ w, leader_of w ≠ g) (until (λ w, Some (pgprocno w) = last) ws))) s.
Proof.
  revert s. induction ws as [|w ws IH]; intros s Hws; [done|]. cbn [scan_queue until].
  case_bool_decide; [by rewrite decide_True|]. rewrite decide_False by done.
  assert (∀ s, scan_queue MaxBackends t recurse c g l mask depth last ws s = _) as IH'
    by (intros s'; apply IH; intros v Hv; apply Hws; by right). clear IH. rewrite (filter_cons _ w).
  case_bool_decide as Hg.
  - rewrite decide_True by done. rewrite filter_cons, andb_true_r. destruct (Z.testbit mask (waitLockMode w)).
    + rewrite decide_True, fmap_cons by done. rewrite <- soft_blocker_arc by (apply Hws; left).
      destruct (soft_blocker _ _ _ _ _ _ _ _ _) as [[[] s']| |]; [done|apply IH'|done..].
    + rewrite decide_False by done. apply IH'.
  - rewrite decide_False by (intros ?; done). rewrite andb_false_r. apply IH'.
Qed.

(** The queues and orders hold the processes of the table. *)
Definition entries_ok (orders : list WAIT_ORDER) : Prop :=
  (∀ l w, w ∈ waitProcs (locks t l) → group_leader t (pgprocno w) = leader_of w) ∧
  (∀ o w, o ∈ orders → w ∈ order_procs o → group_leader t (pgprocno w) = leader_of w).

Lemma member_search orders c s : entries_ok orders → is_waiting t c = true →
  FindLockCycleRecurseMember MaxBackends MyProc t orders recurse c g depth s =
  try_arcs (member_arcs t orders c g) s.
Proof.
  intros [Hq Ho] Hw. unfold FindLockCycleRecurseMember, member_arcs, is_waiting in *.
  apply bool_decide_eq_true in Hw as [l Hl]. rewrite Hl. destruct (extension_lock t l); [done|].
  rewrite scan_holders_arcs, try_arcs_app. unfold ahead.
  destruct (try_arcs _ s) as [[[] s']| |]; [done| |done..]; cbn [mbind outcome_bind].
  destruct (find_order orders l) as [o|] eqn:Eo.
  - apply scan_order_arcs. intros w. apply Ho. unfold find_order in Eo.
    apply fmap_Some in Eo as ([i o'] & (? & _ & _)%list_find_Some & ->).
    by eapply list_elem_of_lookup_2.
  - apply scan_queue_arcs. apply Hq.
Qed.

Lemma member_arcs_idle orders c h : is_waiting t c = false → member_arcs t orders c h = [].
Proof.
  unfold is_waiting, member_arcs. intros H%bool_decide_eq_false. destruct (waitLock (procs t c)); [|done].
  destruct H. by eexists.
Qed.

Lemma members_search orders ms s : entries_ok orders →
  scan_members MaxBackends MyProc t orders recurse ms g depth s =
  try_arcs (concat ((λ m, if bool_decide (m ≠ g) then member_arcs t orders m g else []) <$> ms)) s.
Proof.
  intros Hok. revert s. induction ms as [|m ms IH]; intros s; [done|].
  cbn [scan_members fmap list_fmap concat]. rewrite try_arcs_app. case_bool_decide as Hm.
  - rewrite andb_true_r. destruct (is_waiting t m) eqn:Ew.
    + rewrite member_search by done. destruct (try_arcs _ s) as [[[] s']| |]; [done|apply IH|done..].
    + rewrite member_arcs_idle by done. apply IH.
  - rewrite andb_false_r. apply IH.
Qed.

Lemma group_search orders s : entries_ok orders →
  ('(found, s) ←
     (if is_waiting t g
      then FindLockCycleRecurseMember MaxBackends MyProc t orders recurse g g depth s
      else Ok (false, s));
   if (found : bool) then Ok (true, s)
   else scan_members MaxBackends MyProc t orders recurse (lockGroupMembers (procs t g)) g depth s) =
  try_arcs (group_arcs t orders g) s.
Proof.
  intros Hok. unfold group_arcs. rewrite try_arcs_app. destruct (is_waiting t g) eqn:Ew.
  - rewrite member_search by done. destruct (try_arcs _ s) as [[[] s']| |]; [done| |done..].
    by apply members_search.
  - rewrite member_arcs_idle by done. by apply members_search.
Qed.
End arcs.

(** ** The search finds exactly the cycles *)

Lemma NoDup_bound (l : list nat) n : NoDup l → (∀ x, x ∈ l → (x < n)%nat) → (length l ≤ n)%nat.
Proof.
  intros Hnd Hl. rewrite <- (length_seq n 0). apply submseteq_length, NoDup_submseteq; [done|].
  intros x Hx. apply elem_of_seq. specialize (Hl x Hx). lia.
Qed.

Section dfs.
Context (MaxBackends MyProc : nat) (t : lock_table) (orders : list WAIT_ORDER).
Hypothesis (Hentries : entries_ok t orders).
Hypothesis (Hsmall : ∀ g a, a ∈ group_arcs t orders g → (arc_target t a < MaxBackends)%nat).

Lemma length_soft_edges g l : (length (soft_edges t g l) ≤ length l)%nat.
Proof.
  revert g. induction l as [|a l IH]; intros g; cbn; [lia|]. rewrite length_app.
  specialize (IH (arc_target t a)). unfold soft_edges in IH. destruct (arc_soft a); cbn; lia.
Qed.

(** The state of a search that has not found the start. *)
Record searching (st : nat) (s : search) : Prop := mkSearching {
  sg_head : head (visitedProcs s) = Some st;
  sg_nodup : NoDup (visitedProcs s);
  sg_small : ∀ v, v ∈ visitedProcs s → (v < MaxBackends)%nat;
  sg_soft : softEdges s = []
}.

(** What it has added: every new process has only visited successors, none of
    them the start. *)
Definition explored (st : nat) (v v' : list nat) : Prop :=
  v `prefix_of` v' ∧ ∀ x, x ∈ v' → x ∉ v → ∀ a, a ∈ group_arcs t orders x →
    arc_target t a ∈ v' ∧ arc_target t a ≠ st.

(** A search from [g] that has found the start noted the walk there. *)
Definition noted (g st depth : nat) (l : list arc) (s : search) : Prop :=
  walk t orders g l st ∧ (depth + length l ≤ MaxBackends)%nat ∧
  nDeadlockDetails s = (depth + length l)%nat ∧ softEdges s = soft_edges t g l ∧
  ∀ i a, l !! i = Some a → deadlockDetails s !! (depth + i)%nat = Some (arc_info t a).

(** What a call at [depth] promises. *)
Definition search_result (st g depth : nat) (s : search) (b : bool) (s' : search) : Prop :=
  if b then ∃ l, noted g st depth l s'
  else searching st s' ∧ explored st (visitedProcs s) (visitedProcs s') ∧
       g ∈ visitedProcs s' ∧ g ≠ st.

Lemma searching_length st s : searching st s → (length (visitedProcs s) ≤ MaxBackends)%nat.
Proof. intros [_ ? ? _]. by apply NoDup_bound. Qed.

Lemma explored_trans st u v w : explored st u v → explored st v w → explored st u w.
Proof.
  intros [Hp1 H1] [Hp2 H2]. split; [by transitivity v|]. intros x Hx Hu a Ha.
  destruct (decide (x ∈ v)) as [Hv|Hv]; [|by apply (H2 x)].
  destruct (H1 x Hv Hu a Ha). split; [|done]. destruct Hp2 as [k ->]. apply elem_of_app. by left.
Qed.

Lemma found_arc_spec g depth st a l s :
  a ∈ group_arcs t orders g → noted (arc_target t a) st (S depth) l s →
  ∃ s', found_arc MaxBackends t g depth a s = Ok (true, s') ∧ noted g st depth (a :: l) s'.
Proof.
  intros Ha (Hw & Hd & Hn & Hs & Hi). unfold found_arc, record_details.
  rewrite bool_decide_true by lia. cbn [mbind outcome_bind].
  assert (∀ i b, (a :: l) !! i = Some b →
    <[depth := arc_info t a]> (deadlockDetails s) !! (depth + i)%nat = Some (arc_info t b)) as Hdet.
  { intros [|i] b Hb; cbn in Hb.
    - simplify_eq. rewrite Nat.add_0_r. by rewrite lookup_insert_eq.
    - rewrite lookup_insert_ne by lia. rewrite <- (Hi i b Hb). f_equal. lia. }
  pose proof (length_soft_edges (arc_target t a) l) as Hle.
  destruct (arc_soft a) eqn:Esoft; cbn [mbind outcome_bind].
  - unfold record_soft_edge. cbn [softEdges]. rewrite bool_decide_true by (rewrite Hs; lia).
    cbn [mbind outcome_bind]. eexists. split; [done|].
    split_and!; cbn [softEdges nDeadlockDetails deadlockDetails length]; [by split|lia|lia| |done].
    rewrite Hs. cbn. by rewrite Esoft.
  - eexists. split; [done|].
    split_and!; cbn [softEdges nDeadlockDetails deadlockDetails length]; [by split|lia|lia| |done].
    rewrite Hs. cbn. by rewrite Esoft, app_nil_r.
Qed.

Lemma try_arcs_spec recurse g depth st n l s :
  (∀ a s, a ∈ group_arcs t orders g → searching st s → (n ≤ length (visitedProcs s))%nat →
    ∃ b s', recurse (arc_proc a) s = Ok (b, s') ∧ search_result st (arc_target t a) (S depth) s b s') →
  (∀ a, a ∈ l → a ∈ group_arcs t orders g) → searching st s → (n ≤ length (visitedProcs s))%nat →
  ∃ b s', try_arcs MaxBackends MyProc t recurse g depth l s = Ok (b, s') ∧
    if b then ∃ k, noted g st depth k s' ∧ k ≠ []
    else searching st s' ∧ explored st (visitedProcs s) (visitedProcs s') ∧
         ∀ a, a ∈ l → arc_target t a ∈ visitedProcs s' ∧ arc_target t a ≠ st.
Proof.
  intros Hrec. revert s. induction l as [|a l IH]; intros s Hl Hs Hd; cbn [try_arcs].
  { exists false, s. split; [done|]. split; [done|]. split; [split; [done|]; by intros x ? ?|].
    by intros a ?%not_elem_of_nil. }
  destruct (Hrec a s) as (b & s1 & -> & Hres); [apply Hl; left|done|done|]. cbn [mbind outcome_bind].
  destruct b; cbn [search_result] in Hres.
  { destruct Hres as [k Hk]. destruct (found_arc_spec g depth st a k s1) as (s2 & -> & Hn);
      [apply Hl; left|done|]. exists true, s2. split; [done|]. by exists (a :: k). }
  destruct Hres as (Hs1 & He1 & Ha1 & Hne1).
  set (s2 := if _ && _ && _ then set_autovacuum _ s1 else s1).
  assert (searching st s2 ∧ visitedProcs s2 = visitedProcs s1) as [Hs2 Hv2].
  { unfold s2. destruct (_ && _); [|done]. split; [|done]. destruct Hs1. by constructor. }
  destruct (IH s2) as (b & s' & -> & Hres).
  { intros x Hx. apply Hl. by right. }
  { done. }
  { rewrite Hv2. destruct He1 as [Hp _]. apply prefix_length in Hp. lia. }
  exists b, s'. split; [done|]. destruct b; [done|]. destruct Hres as (Hs' & He' & Hall).
  rewrite Hv2 in He'. split; [done|]. split; [by eapply explored_trans|].
  intros x [->|Hx]%elem_of_cons; [|by apply Hall]. split; [|done].
  destruct He' as [[k ->] _]. apply elem_of_app. by left.
Qed.

(** The body of a search that has reached a new process. *)
Lemma group_spec fuel g depth st s :
  (∀ p s, (group_leader t p < MaxBackends)%nat → searching st s →
    (S depth ≤ length (visitedProcs s))%nat → (MaxBackends < fuel + length (visitedProcs s))%nat →
    ∃ b s', FindLockCycleRecurse MaxBackends MyProc fuel t orders p (S depth) s = Ok (b, s') ∧
      search_result st (group_leader t p) (S depth) s b s') →
  searching st (visit g s) → (depth ≤ length (visitedProcs s))%nat →
  (MaxBackends < S fuel + length (visitedProcs s))%nat →
  ∃ b s', try_arcs MaxBackends MyProc t
      (λ p, FindLockCycleRecurse MaxBackends MyProc fuel t orders p (S depth)) g depth
      (group_arcs t orders g) (visit g s) = Ok (b, s') ∧
    if b then ∃ k, noted g st depth k s' ∧ k ≠ []
    else searching st s' ∧ explored st (visitedProcs s) (visitedProcs s') ∧ g ∈ visitedProcs s'.
Proof.
  intros Hrec Hs Hd Hf.
  destruct (try_arcs_spec (λ p, FindLockCycleRecurse MaxBackends MyProc fuel t orders p (S depth))
    g depth st (S (length (visitedProcs s))) (group_arcs t orders g) (visit g s)) as (b & s' & -> & Hres).
  - intros a s1 Ha Hs1 Hn. apply Hrec; [by apply (Hsmall g)|done|lia|lia].
  - done.
  - done.
  - cbn. rewrite length_app. cbn. lia.
  - exists b, s'. split; [done|]. destruct b; [done|]. destruct Hres as (Hs' & [Hp He] & Hall).
    cbn [visit visitedProcs] in Hp, He.
    assert (g ∈ visitedProcs s') as Hg.
    { destruct Hp as [k ->]. rewrite !elem_of_app. left. right. by left. }
    split; [done|]. split; [|done]. split; [etrans; [|exact Hp]; by apply prefix_app_r|].
    intros x Hx Hv. destruct (decide (x = g)) as [->|Hne]; [done|]. apply (He x Hx).
    rewrite elem_of_app, list_elem_of_singleton. tauto.
Qed.

Lemma recurse_spec fuel p depth st s :
  (group_leader t p < MaxBackends)%nat → searching st s → (depth ≤ length (visitedProcs s))%nat →
  (MaxBackends < fuel + length (visitedProcs s))%nat →
  ∃ b s', FindLockCycleRecurse MaxBackends MyProc fuel t orders p depth s = Ok (b, s') ∧
    search_result st (group_leader t p) depth s b s'.
Proof.
  revert p depth s. induction fuel as [|fuel IH]; intros p depth s Hp Hs Hd Hf.
  { pose proof (searching_length st s Hs). lia. }
  cbn [FindLockCycleRecurse]. set (g := group_leader t p) in *.
  pose proof (searching_length st s Hs) as Hlen.
  destruct (list_find (λ p, p = g) (visitedProcs s)) as [[i v]|] eqn:Ef.
  - apply list_find_Some in Ef as (Hi & -> & Hfirst). destruct i as [|i].
    + exists true, (set_length depth s). split; [done|]. exists []. split_and!; cbn; [|rewrite Nat.add_0_r; lia|by rewrite Nat.add_0_r|apply Hs|done].
      pose proof (sg_head _ _ Hs) as Hh. destruct (visitedProcs s); [done|]. cbn in *. congruence.
    + exists false, s. split; [done|]. split; [done|]. split; [split; [done|]; by intros x ? ?|].
      split; [by eapply list_elem_of_lookup_2|]. intros ->. pose proof (sg_head _ _ Hs) as Hh.
      destruct (visitedProcs s) as [|x l] eqn:Ev; [done|]. cbn in Hh. simplify_eq.
      by apply (Hfirst 0%nat st ltac:(done) ltac:(lia)).
  - apply list_find_None in Ef. rewrite Forall_forall in Ef.
    assert (g ∉ visitedProcs s) as Hg by (intros H; by apply (Ef g)).
    assert (searching st (visit g s)) as Hs1.
    { destruct Hs as [Hh Hnd Hsm Hso]. constructor; cbn; [|..|done].
      - destruct (visitedProcs s); [done|]. done.
      - apply NoDup_app. split; [done|]. split; [|apply NoDup_singleton]. by intros x Hx ->%list_elem_of_singleton.
      - intros v [Hv| ->%list_elem_of_singleton]%elem_of_app; [by apply Hsm|done]. }
    pose proof (searching_length _ _ Hs1) as Hlen1. cbn in Hlen1. rewrite length_app in Hlen1. cbn in Hlen1.
    rewrite bool_decide_true by lia. rewrite group_search by done.
    destruct (group_spec fuel g depth st s) as (b & s' & -> & Hres); [|done|done|done|].
    { intros q s2 Hq Hs2 Hd2 Hf2. by apply IH. }
    exists b, s'. split; [done|]. destruct b.
    + destruct Hres as (k & Hk & _). by exists k.
    + destruct Hres as (Hs' & He & Hin). split_and!; [done..|]. intros ->. apply Hg.
      pose proof (sg_head _ _ Hs) as Hh. destruct (visitedProcs s); [done|]. cbn in Hh. simplify_eq. left.
Qed.

(** The search for a cycle through a process returns, inside its arrays, and finds
    one exactly when there is one. *)
Lemma FindLockCycle_spec p av : (group_leader t p < MaxBackends)%nat →
  ∃ b s, FindLockCycle MaxBackends MyProc t orders p av = Ok (b, s) ∧
    if b then ∃ l, l ≠ [] ∧ noted (group_leader t p) (group_leader t p) 0 l s
    else softEdges s = [] ∧ ¬ on_cycle t orders (group_leader t p).
Proof.
  intros Hp. unfold FindLockCycle. set (g := group_leader t p) in *.
  cbn [FindLockCycleRecurse]. fold g. cbn [list_find visitedProcs].
  rewrite bool_decide_true by (cbn; lia). set (s0 := mkSearch [] [] ∅ 0 av).
  assert (searching g (visit g s0)) as Hs1.
  { constructor; cbn; [done|apply NoDup_singleton| |done]. by intros v ->%list_elem_of_singleton. }
  rewrite group_search by done.
  destruct (group_spec MaxBackends g 0 g s0) as (b & s' & -> & Hres); [|done|cbn; lia|cbn; lia|].
  { intros q s2 Hq Hs2 Hd2 Hf2. by apply recurse_spec. }
  exists b, s'. split; [done|]. destruct b.
  - destruct Hres as (k & Hk & Hne). by exists k.
  - destruct Hres as (Hs' & [_ He] & Hin). split; [apply Hs'|]. intros (l & Hl & Hw).
    assert (∀ l x, x ∈ visitedProcs s' → l ≠ [] → ¬ walk t orders x l g) as Hno; [|by apply (Hno l g)].
    clear l Hl Hw. intros l. induction l as [|a l IH]; intros x Hx Hl; [done|]. intros [Ha Hw].
    destruct (He x Hx ltac:(by apply not_elem_of_nil) a Ha) as [Ht Hne].
    destruct l as [|a' l]; [by cbn in Hw|]. by apply (IH (arc_target t a)).
Qed.
End dfs.
