(* ===== verification/DeadlockCheck.v ===== *)
(** * The configurations of the deadlock check

    [ExpandConstraints], [TestConfiguration] and [DeadLockCheckRecurse] of
    [Deadlock] on a table whose locks and processes agree: the search for a
    rearrangement stays inside its arrays, its consistency checks never fail, and
    what it returns is a configuration without a cycle through the processes it
    checked, or a reason why each constraint it tried was given up. *)
From S2P Require Import Prelude Lock TopoSort Deadlock.
From Stdlib Require Import ZArith Lia QArith.
From stdpp Require Import base strings gmap numbers list sorting relations.

Open Scope Z_scope.

(** Locks and processes agree: a process waits for the lock whose queue it is in,
    group members know their leader, and the numbers of the processes are below
    [MaxBackends]. *)
Record table_ok (MaxBackends : nat) (t : lock_table) : Prop := mkTableOk {
  tb_queue : ∀ l w, w ∈ waitProcs (locks t l) →
    pgproc (procs t (pgprocno w)) = w ∧ waitLock (procs t (pgprocno w)) = Some l;
  tb_wait : ∀ p l, waitLock (procs t p) = Some l → ∃ w, w ∈ waitProcs (locks t l) ∧ pgprocno w = p;
  tb_nodup : ∀ l, NoDup (pgprocno <$> waitProcs (locks t l));
  tb_leader : ∀ p g, lockGroupLeader (pgproc (procs t p)) = Some g →
    lockGroupLeader (pgproc (procs t g)) = Some g ∧ p ∈ lockGroupMembers (procs t g);
  tb_members : ∀ g p, p ∈ lockGroupMembers (procs t g) → lockGroupLeader (pgproc (procs t p)) = Some g;
  tb_holders : ∀ l pl, pl ∈ procLocks (locks t l) → (myProc pl < MaxBackends)%nat;
  tb_waiters : ∀ p l, waitLock (procs t p) = Some l → (p < MaxBackends)%nat;
  tb_leaders : ∀ p, (p < MaxBackends)%nat → (group_leader t p < MaxBackends)%nat
}.

(** The orders rearrange the queues of different locks and keep groups together. *)
Record orders_ok (t : lock_table) (orders : list WAIT_ORDER) : Prop := mkOrdersOk {
  or_perm : ∀ o, o ∈ orders → order_procs o ≡ₚ waitProcs (locks t (order_lock o));
  or_adjacent : ∀ o, o ∈ orders → adjacent (order_procs o);
  or_nodup : NoDup (order_lock <$> orders)
}.

(** A constraint is an edge between two groups that wait for its lock. *)
Definition waits_at (t : lock_table) (g l : nat) : Prop :=
  ∃ w, w ∈ waitProcs (locks t l) ∧ leader_of w = g.
Record constraint_ok (t : lock_table) (c : EDGE) : Prop := mkConstraintOk {
  co_waiter : waits_at t (waiter c) (edge_lock c);
  co_blocker : waits_at t (blocker c) (edge_lock c);
  co_differ : waiter c ≠ blocker c
}.

Section table.
Context (MaxBackends : nat) (t : lock_table).
Hypothesis (Hok : table_ok MaxBackends t).

Lemma leader_idem p : group_leader t (group_leader t p) = group_leader t p.
Proof.
  unfold group_leader at 2 3. destruct (lockGroupLeader (pgproc (procs t p))) as [g|] eqn:E; cbn.
  - destruct (tb_leader _ _ Hok p g E) as [H _]. unfold group_leader. by rewrite H.
  - unfold group_leader. by rewrite E.
Qed.

Lemma queue_leader l w : w ∈ waitProcs (locks t l) → group_leader t (pgprocno w) = leader_of w.
Proof. intros Hw. destruct (tb_queue _ _ Hok l w Hw) as [E _]. unfold group_leader, leader_of. by rewrite E. Qed.

Lemma leader_fixed l w : w ∈ waitProcs (locks t l) → group_leader t (leader_of w) = leader_of w.
Proof. intros Hw. rewrite <- (queue_leader l w Hw). apply leader_idem. Qed.

Lemma waiter_small l w : w ∈ waitProcs (locks t l) → (pgprocno w < MaxBackends)%nat.
Proof. intros Hw. destruct (tb_queue _ _ Hok l w Hw) as [_ E]. by eapply tb_waiters. Qed.

Lemma waits_at_leader g l : waits_at t g l → group_leader t g = g ∧ (g < MaxBackends)%nat.
Proof.
  intros (w & Hw & <-). split; [by eapply leader_fixed|]. rewrite <- (queue_leader l w Hw).
  apply (tb_leaders _ _ Hok). by eapply waiter_small.
Qed.

(** The queue entries of one process are one entry. *)
Lemma queue_unique l l' w v : w ∈ waitProcs (locks t l) → v ∈ waitProcs (locks t l') →
  pgprocno w = pgprocno v → w = v ∧ l = l'.
Proof.
  intros Hw Hv E. destruct (tb_queue _ _ Hok l w Hw) as [E1 E2], (tb_queue _ _ Hok l' v Hv) as [E3 E4].
  rewrite E in *. split; congruence.
Qed.

Lemma queue_leaders_ok l cs : (∀ c, c ∈ cs → constraint_ok t c) →
  leaders_ok (waitProcs (locks t l)) (ends_of cs).
Proof.
  intros Hcs w g Hw Hg Hp. rewrite <- (queue_leader l w Hw), Hp. apply elem_of_app in Hg as [Hg|Hg].
  - apply list_elem_of_fmap in Hg as (v & -> & Hv). by eapply leader_fixed.
  - unfold ends_of in Hg. apply elem_of_app in Hg as [Hg|Hg];
      apply list_elem_of_fmap in Hg as (c & -> & Hc); destruct (Hcs c Hc) as [Hcw Hcb _].
    + by eapply waits_at_leader.
    + by eapply waits_at_leader.
Qed.

Lemma orders_lookup orders l : orders_ok t orders →
  match find_order orders l with
  | Some o => o ∈ orders ∧ order_lock o = l ∧ order_procs o ≡ₚ waitProcs (locks t l) ∧ adjacent (order_procs o)
  | None => ∀ o, o ∈ orders → order_lock o ≠ l
  end.
Proof.
  intros Ho. unfold find_order. destruct (list_find _ orders) as [[i o]|] eqn:E; cbn.
  - apply list_find_Some in E as (Hi & <- & _). apply list_elem_of_lookup_2 in Hi.
    split_and!; [done..|by apply (or_perm _ _ Ho)|by apply (or_adjacent _ _ Ho)].
  - apply list_find_None in E. rewrite Forall_forall in E. intros o H. by apply E.
Qed.

Lemma orders_entries orders : orders_ok t orders → entries_ok t orders.
Proof.
  intros Ho. split; [apply queue_leader|]. intros o w Hin Hw. rewrite (or_perm _ _ Ho o Hin) in Hw.
  by eapply queue_leader.
Qed.

Lemma elem_of_until {A} (P : A → Prop) `{!∀ x, Decision (P x)} (l : list A) x : x ∈ until P l → x ∈ l ∧ ¬ P x.
Proof.
  induction l as [|y l IH]; cbn; [by intros ?%not_elem_of_nil|]. case_decide; [by intros ?%not_elem_of_nil|].
  intros [->|Hx]%elem_of_cons; [split; [left|done]|]. destruct (IH Hx). split; [by right|done].
Qed.

Lemma ahead_queue orders c g l w : orders_ok t orders → w ∈ ahead t orders c g l →
  w ∈ waitProcs (locks t l) ∧ leader_of w ≠ g.
Proof.
  intros Ho. unfold ahead. pose proof (orders_lookup orders l Ho) as Hl.
  destruct (find_order orders l) as [o|].
  - destruct Hl as (_ & _ & Hp & _). intros [Hw Hg]%elem_of_until. by rewrite <- Hp.
  - intros [Hg [Hw _]%elem_of_until]%list_elem_of_filter. done.
Qed.

(** The members of a group that wait. *)
Lemma member_wait g c l : (c = g ∧ group_leader t g = g) ∨ c ∈ lockGroupMembers (procs t g) →
  waitLock (procs t c) = Some l → ∃ w, w ∈ waitProcs (locks t l) ∧ pgprocno w = c ∧ leader_of w = g ∧
    pgproc (procs t c) = w.
Proof.
  intros Hc Hl. destruct (tb_wait _ _ Hok c l Hl) as (w & Hw & <-). exists w. split_and!; [done..| |].
  - rewrite <- (queue_leader l w Hw). destruct Hc as [[-> ?]|Hm]; [done|].
    unfold group_leader. by rewrite (tb_members _ _ Hok _ _ Hm).
  - by destruct (tb_queue _ _ Hok l w Hw).
Qed.

(** An edge of a group, from the queue entry of the member that waits. *)
Definition waits_on (orders : list WAIT_ORDER) (w : PGPROC) (a : arc) : Prop :=
  let l := arc_lock a in
  let conflictMask := LockConflicts (waitLockMode w) in
  w ∈ waitProcs (locks t l) ∧ extension_lock t l = false ∧ arc_member a = pgprocno w ∧
  if arc_soft a
  then ∃ v, v ∈ ahead t orders (pgprocno w) (leader_of w) l ∧ pgprocno v = arc_proc a ∧
         Z.testbit conflictMask (waitLockMode v) = true
  else ∃ pl, pl ∈ procLocks (locks t l) ∧ myProc pl = arc_proc a ∧ hard_blocks t (leader_of w) conflictMask pl.

Lemma elem_of_member_arcs orders c g a w : pgproc (procs t c) = w → pgprocno w = c → leader_of w = g →
  (∀ l, waitLock (procs t c) = Some l ↔ w ∈ waitProcs (locks t l)) →
  a ∈ member_arcs t orders c g ↔ waits_on orders w a.
Proof.
  intros Ew Ec Eg Hl. unfold member_arcs, waits_on. rewrite Ew.
  destruct (waitLock (procs t c)) as [l|] eqn:El.
  2: { split; [by intros ?%not_elem_of_nil|]. intros (Hw & _). apply Hl in Hw. congruence. }
  destruct (extension_lock t l) eqn:Ex.
  { split; [by intros ?%not_elem_of_nil|]. intros (Hw & Hx & _). apply Hl in Hw. congruence. }
  rewrite elem_of_app, !list_elem_of_fmap. setoid_rewrite list_elem_of_filter. split.
  - pose proof (proj1 (Hl l) eq_refl) as Hw. intros [(pl & -> & Hb & Hpl)|(v & -> & Hb & Hv)]; cbn.
    + split_and!; [done..|]. exists pl. by rewrite Eg.
    + split_and!; [done..|]. exists v. by rewrite Eg, Ec.
  - intros (Hw & Hx & Em & Ha). apply Hl in Hw. destruct a as [m l' so p]. cbn in *.
    assert (l' = l) as -> by congruence. destruct so.
    + right. destruct Ha as (v & Hv & <- & Hb). exists v. rewrite Em, Ec. rewrite Eg, Ec in Hv. done.
    + left. destruct Ha as (pl & Hpl & <- & Hb). exists pl. rewrite Em, Ec. rewrite Eg in Hb. done.
Qed.

Lemma elem_of_group_arcs orders g a : group_leader t g = g →
  a ∈ group_arcs t orders g ↔ ∃ w, leader_of w = g ∧ waits_on orders w a.
Proof.
  intros Hg. unfold group_arcs. rewrite elem_of_app.
  assert (∀ w l, w ∈ waitProcs (locks t l) → a ∈ member_arcs t orders (pgprocno w) (leader_of w) ↔
    waits_on orders w a) as Hm.
  { intros w l Hw. destruct (tb_queue _ _ Hok l w Hw) as [E El]. apply elem_of_member_arcs; try done.
    intros l'. rewrite El. split; [by intros [= <-]|]. intros Hw'.
    destruct (queue_unique l l' w w Hw Hw' eq_refl) as [_ ->]. done. }
  split.
  - assert (∀ c, (c = g ∧ group_leader t g = g) ∨ c ∈ lockGroupMembers (procs t g) →
      a ∈ member_arcs t orders c g → ∃ w, leader_of w = g ∧ waits_on orders w a) as Hc.
    { intros c Hc Ha. destruct (waitLock (procs t c)) as [l|] eqn:El.
      - destruct (member_wait g c l Hc El) as (w & Hw & <- & <- & _). exists w. split; [done|].
        by apply (Hm w l).
      - unfold member_arcs in Ha. rewrite El in Ha. by apply not_elem_of_nil in Ha. }
    intros [Ha|(l & Hl & Ha)%list_elem_of_In%in_concat]; [by apply (Hc g); [left|]|].
    apply list_elem_of_In in Hl, Ha. apply list_elem_of_fmap in Hl as (m & -> & Hin). case_bool_decide; [|by apply not_elem_of_nil in Ha].
    apply (Hc m); [by right|done].
  - intros (w & <- & Ha). pose proof (Hm w (arc_lock a) (proj1 Ha)) as Hma. apply Hma in Ha as Ha'.
    destruct (decide (pgprocno w = leader_of w)) as [E|Hne]; [left; by rewrite E in Ha'|right].
    destruct Ha as (Hw & _). destruct (tb_queue _ _ Hok _ _ Hw) as [E _].
    apply list_elem_of_In, in_concat. exists (member_arcs t orders (pgprocno w) (leader_of w)).
    split; apply list_elem_of_In; [|done]. apply list_elem_of_fmap. exists (pgprocno w). rewrite bool_decide_true by done. split; [done|].
    unfold leader_of in *. destruct (lockGroupLeader w) as [g|] eqn:El; [|done]. cbn in *.
    apply (tb_leader _ _ Hok). by rewrite E.
Qed.

Lemma arc_target_small orders g a : orders_ok t orders → a ∈ group_arcs t orders g →
  (arc_target t a < MaxBackends)%nat.
Proof.
  intros Ho Ha. apply (tb_leaders _ _ Hok).
  assert (∃ c, a ∈ member_arcs t orders c g) as [c Hc].
  { unfold group_arcs in Ha. apply elem_of_app in Ha as [Ha|Ha]; [by exists g|].
    apply list_elem_of_In, in_concat in Ha as (l & Hl & Ha). apply list_elem_of_In in Hl, Ha.
    apply list_elem_of_fmap in Hl as (m & -> & _). case_bool_decide; [by exists m|by apply not_elem_of_nil in Ha]. }
  unfold member_arcs in Hc. destruct (waitLock (procs t c)) as [l|]; [|by apply not_elem_of_nil in Hc].
  destruct (extension_lock t l); [by apply not_elem_of_nil in Hc|].
  apply elem_of_app in Hc as [(pl & -> & [_ Hpl]%list_elem_of_filter)%list_elem_of_fmap|
    (v & -> & [_ Hv]%list_elem_of_filter)%list_elem_of_fmap]; cbn.
  - by eapply tb_holders.
  - destruct (ahead_queue _ _ _ _ _ Ho Hv) as [Hv' _]. by eapply waiter_small.
Qed.

(** The soft edges of a walk are constraints, and the walk has the edges. *)
Lemma soft_edges_ok orders g l h e : orders_ok t orders → group_leader t g = g →
  walk t orders g l h → e ∈ soft_edges t g l → constraint_ok t e.
Proof.
  intros Ho. revert g. induction l as [|a l IH]; intros g Hg; [by intros _ ?%not_elem_of_nil|].
  intros [Ha Hw]. cbn [soft_edges]. rewrite elem_of_app. intros [He|He].
  { apply (IH (arc_target t a)); [by apply leader_idem|done..]. }
  destruct (arc_soft a) eqn:Es; [|by apply not_elem_of_nil in He].
  apply list_elem_of_singleton in He as ->. apply elem_of_group_arcs in Ha as (w & <- & Hq & _ & _ & Ha); [|done].
  rewrite Es in Ha. destruct Ha as (v & Hv & Ev & _). destruct (ahead_queue _ _ _ _ _ Ho Hv) as [Hv' Hne].
  assert (arc_target t a = leader_of v) as Et.
  { unfold arc_target. rewrite <- Ev. by eapply queue_leader. }
  constructor; cbn; [by exists w|exists v; by rewrite Et|by rewrite Et].
Qed.
End table.

(** ** Expanding constraints into orders *)

Section expand.
Context (MaxBackends : nat) (t : lock_table).
Hypothesis (Hok : table_ok MaxBackends t).

Definition queues (ls : list nat) : list PGPROC := concat ((λ l, waitProcs (locks t l)) <$> ls).

Lemma elem_of_queues ls w : w ∈ queues ls ↔ ∃ l, l ∈ ls ∧ w ∈ waitProcs (locks t l).
Proof.
  unfold queues. rewrite list_elem_of_In, in_concat. split.
  - intros (q & Hq & Hw). apply list_elem_of_In in Hq, Hw. apply list_elem_of_fmap in Hq as (l & -> & Hl).
    by exists l.
  - intros (l & Hl & Hw). exists (waitProcs (locks t l)). rewrite <- !list_elem_of_In. split; [|done].
    apply list_elem_of_fmap. by exists l.
Qed.

(** All waiters of different locks are different processes. *)
Lemma queues_bound ls : NoDup ls → (length (queues ls) ≤ MaxBackends)%nat.
Proof.
  intros Hnd. rewrite <- (length_fmap pgprocno). apply NoDup_bound.
  - induction Hnd as [|l ls Hl Hnd IH]; [constructor|]. unfold queues. cbn [fmap list_fmap concat].
    rewrite fmap_app. apply NoDup_app. split; [apply (tb_nodup _ _ Hok)|]. split; [|done].
    intros p (w & -> & Hw)%list_elem_of_fmap (v & Ev & Hv)%list_elem_of_fmap.
    apply elem_of_queues in Hv as (l' & Hl' & Hv).
    destruct (queue_unique MaxBackends t Hok l l' w v Hw Hv Ev) as [_ ->]. done.
  - intros p (w & -> & (l & _ & Hw)%elem_of_queues)%list_elem_of_fmap. by eapply waiter_small.
Qed.

Lemma constraint_queue c : constraint_ok t c → (2 ≤ length (waitProcs (locks t (edge_lock c))))%nat.
Proof.
  intros [(w & Hw & Ew) (v & Hv & Ev) Hne]. destruct (waitProcs _) as [|x [|y q]]; cbn; [| |lia].
  - by apply not_elem_of_nil in Hw.
  - apply list_elem_of_singleton in Hw, Hv. congruence.
Qed.

Lemma queues_two ls : (∀ l, l ∈ ls → (2 ≤ length (waitProcs (locks t l)))%nat) →
  (2 * length ls ≤ length (queues ls))%nat.
Proof.
  induction ls as [|l ls IH]; intros H; cbn; [lia|]. unfold queues in *. cbn [fmap list_fmap concat].
  rewrite length_app. specialize (H l ltac:(left)) as H1.
  assert (2 * length ls ≤ length (concat ((λ l, waitProcs (locks t l)) <$> ls)))%nat.
  { apply IH. intros l' Hl'. apply H. by right. }
  lia.
Qed.

(** The orders made so far for the constraints from the i-th on. *)
Record expanded (cs : list EDGE) (i : nat) (orders : list WAIT_ORDER) : Prop := mkExpanded {
  ex_orders : orders_ok t orders;
  ex_cover : ∀ j c, (i ≤ j)%nat → cs !! j = Some c → edge_lock c ∈ order_lock <$> orders;
  ex_sat : ∀ o c, o ∈ orders → c ∈ cs → edge_lock c = order_lock o → respects (order_procs o) c;
  ex_from : ∀ o, o ∈ orders → ∃ c, c ∈ cs ∧ edge_lock c = order_lock o;
  ex_moves : ∀ o, o ∈ orders → moves_asked (waitProcs (locks t (order_lock o))) cs (order_procs o)
}.

(** No order of some queue meets the constraints. *)
Definition contradictory (cs : list EDGE) : Prop :=
  ∃ l, (∃ c, c ∈ cs ∧ edge_lock c = l) ∧
    ∀ q, q ≡ₚ waitProcs (locks t l) → ¬ ∀ c, c ∈ cs → respects q c.

Lemma moves_asked_sub q cs cs' o : (∀ c, c ∈ cs → c ∈ cs') → moves_asked q cs o → moves_asked q cs' o.
Proof.
  intros Hs Hm i k b a Hik Hi Hk Hne Hb. destruct (Hm i k b a Hik Hi Hk Hne Hb) as (c & ? & ?).
  exists c. split; [by apply Hs|done].
Qed.

Lemma expanded_snoc cs i c orders ordering :
  expanded cs (S i) orders → cs !! i = Some c → edge_lock c ∉ order_lock <$> orders →
  ordering ≡ₚ waitProcs (locks t (edge_lock c)) → (∀ c, c ∈ take (S i) cs → respects ordering c) →
  adjacent ordering → moves_asked (waitProcs (locks t (edge_lock c))) (take (S i) cs) ordering →
  expanded cs i (orders ++ [mkOrder (edge_lock c) ordering]).
Proof.
  intros [[Hp Ha Hn] Hcov Hsat Hfrom Hmov] Hi Hnew Hperm Hresp Hadj Hm.
  assert (c ∈ cs) as Hc by by eapply list_elem_of_lookup_2.
  constructor; [constructor|..].
  - intros o [Ho| ->%list_elem_of_singleton]%elem_of_app; [by apply Hp|done].
  - intros o [Ho| ->%list_elem_of_singleton]%elem_of_app; [by apply Ha|done].
  - rewrite fmap_app. apply NoDup_app. split; [done|]. split; [|apply NoDup_singleton].
    intros x Hx ->%list_elem_of_singleton. done.
  - intros j d Hj Hd. rewrite fmap_app, elem_of_app. destruct (decide (j = i)) as [->|].
    + right. simplify_eq. by left.
    + left. apply (Hcov j); [lia|done].
  - intros o d [Ho| ->%list_elem_of_singleton]%elem_of_app Hd E; [by apply Hsat|]. cbn in *.
    apply Hresp. apply list_elem_of_lookup in Hd as [k Hk]. destruct (decide (S i ≤ k)%nat).
    + destruct Hnew. rewrite <- E. by apply (Hcov k).
    + apply (list_elem_of_lookup_2 _ k). rewrite lookup_take_lt by lia. done.
  - intros o [Ho| ->%list_elem_of_singleton]%elem_of_app; [by apply Hfrom|]. by exists c.
  - intros o [Ho| ->%list_elem_of_singleton]%elem_of_app; [by apply Hmov|]. cbn.
    eapply moves_asked_sub, Hm. intros d. apply subseteq_take.
Qed.

Lemma expand_loop_spec cs i orders :
  (∀ c, c ∈ cs → constraint_ok t c) → (i ≤ length cs)%nat → expanded cs i orders →
  ∃ b orders', expand_loop MaxBackends t cs i orders (length (queues (order_lock <$> orders))) =
      Ok (b, orders') ∧
    if b then expanded cs 0 orders' else contradictory cs.
Proof.
  intros Hcs. revert orders. induction i as [|i IH]; intros orders Hi Hex; cbn [expand_loop].
  { by exists true, orders. }
  destruct (lookup_lt_is_Some_2 cs i) as [c Hc]; [lia|]. rewrite Hc.
  assert (c ∈ cs) as Hin by by eapply list_elem_of_lookup_2.
  case_bool_decide as Hl.
  { apply IH; [lia|]. destruct Hex as [Ho Hcov Hsat Hfrom Hmov]. constructor; try done.
    intros j d Hj Hd. destruct (decide (j = i)) as [->|]; [by simplify_eq|]. apply (Hcov j); [lia|done]. }
  set (l := edge_lock c) in *. set (ls := order_lock <$> orders) in *.
  assert (NoDup (ls ++ [l])) as Hnd.
  { apply NoDup_app. split; [apply Hex|]. split; [|apply NoDup_singleton].
    intros x Hx ->%list_elem_of_singleton. done. }
  pose proof (queues_bound _ Hnd) as Hb.
  assert (queues (ls ++ [l]) = queues ls ++ waitProcs (locks t l)) as Eq.
  { unfold queues. rewrite fmap_app, concat_app. cbn. by rewrite app_nil_r. }
  assert (2 * length (ls ++ [l]) ≤ length (queues (ls ++ [l])))%nat as H2.
  { apply queues_two. intros x [Hx| ->%list_elem_of_singleton]%elem_of_app; [|by apply constraint_queue, Hcs].
    apply list_elem_of_fmap in Hx as (o & -> & Ho). destruct (ex_from _ _ _ Hex o Ho) as (d & Hd & <-).
    by apply constraint_queue, Hcs. }
  rewrite Eq in Hb, H2. rewrite !length_app in *. cbn [length] in *.
  assert (length orders = length ls) as Elen by (unfold ls; by rewrite length_fmap).
  assert (length orders < MaxBackends / 2)%nat as Hhalf.
  { apply Nat.div_le_lower_bound; lia. }
  rewrite !bool_decide_true by lia. cbn [andb].
  destruct (TopoSort_spec (waitProcs (locks t l)) (take (S i) cs)) as (r & -> & Hr).
  { eapply queue_leaders_ok; [done|]. intros d Hd%subseteq_take. by apply Hcs. }
  cbn [mbind outcome_bind]. destruct r as [o|].
  - destruct Hr as (Hp & Hresp & Hadj & Hm).
    destruct (IH (orders ++ [mkOrder l o])) as (b & orders' & E & Hres);
      [lia|by apply expanded_snoc|].
    assert (order_lock <$> orders ++ [mkOrder l o] = ls ++ [l]) as E2 by by rewrite fmap_app.
    rewrite E2, Eq, length_app in E. by exists b, orders'.
  - exists false, orders. split; [done|]. exists l. split; [by exists c|]. intros q Hq Hall.
    apply (Hr q Hq). intros d Hd%subseteq_take. by apply Hall.
Qed.

Lemma ExpandConstraints_spec cs : (∀ c, c ∈ cs → constraint_ok t c) →
  ∃ b orders, ExpandConstraints MaxBackends t cs = Ok (b, orders) ∧
    if b then expanded cs 0 orders else contradictory cs.
Proof.
  intros Hcs. apply (expand_loop_spec cs (length cs) [] Hcs); [done|].
  constructor; [constructor|..]; try (by intros ? ?%not_elem_of_nil); try (by intros ? ? ?%not_elem_of_nil).
  - constructor.
  - intros j c Hj Hc%lookup_lt_Some. lia.
Qed.
End expand.

(** ** The searches of a configuration *)

(** A search depends on the autovacuum process found earlier in nothing but the
    process it reports. *)
Definition same_search (s s' : search) : Prop :=
  visitedProcs s = visitedProcs s' ∧ softEdges s = softEdges s' ∧
  deadlockDetails s = deadlockDetails s' ∧ nDeadlockDetails s = nDeadlockDetails s'.

Definition same_result (r r' : outcome (bool * search)) : Prop :=
  match r, r' with
  | Ok (b, s), Ok (b', s') => b = b' ∧ same_search s s'
  | Raise m, Raise m' | Ub m, Ub m' => m = m'
  | _, _ => False
  end.

Lemma same_search_refl s : same_search s s.
Proof. done. Qed.

Section same.
Context (MaxBackends MyProc : nat) (t : lock_table) (orders : list WAIT_ORDER).

Lemma found_arc_same g depth a s s' : same_search s s' →
  same_result (found_arc MaxBackends t g depth a s) (found_arc MaxBackends t g depth a s').
Proof.
  intros (Hv & Hs & Hd & Hn). unfold found_arc, record_details. case_bool_decide; [|done].
  cbn [mbind outcome_bind]. destruct (arc_soft a); cbn [mbind outcome_bind].
  - unfold record_soft_edge. cbn [softEdges]. rewrite Hs. case_bool_decide; [|done].
    cbn [mbind outcome_bind same_result]. split; [done|]. split_and!; cbn; congruence.
  - cbn [same_result]. split; [done|]. split_and!; cbn; congruence.
Qed.

Lemma try_arcs_same rec g depth l s s' :
  (∀ p s s', same_search s s' → same_result (rec p s) (rec p s')) → same_search s s' →
  same_result (try_arcs MaxBackends MyProc t rec g depth l s) (try_arcs MaxBackends MyProc t rec g depth l s').
Proof.
  intros Hrec. revert s s'. induction l as [|a l IH]; intros s s' Hs; cbn [try_arcs]; [by split|].
  specialize (Hrec (arc_proc a) s s' Hs).
  destruct (rec (arc_proc a) s) as [[b s1]| |], (rec (arc_proc a) s') as [[b' s1']| |]; try done.
  cbn [same_result] in Hrec. destruct Hrec as [<- Hs1]. cbn [mbind outcome_bind].
  destruct b; [by apply found_arc_same|]. apply IH. by destruct (_ && _).
Qed.

Lemma recurse_same fuel p depth s s' : entries_ok t orders → same_search s s' →
  same_result (FindLockCycleRecurse MaxBackends MyProc fuel t orders p depth s)
    (FindLockCycleRecurse MaxBackends MyProc fuel t orders p depth s').
Proof.
  intros Hok. revert p depth s s'. induction fuel as [|fuel IH]; intros p depth s s' Hs; [done|].
  cbn [FindLockCycleRecurse]. pose proof Hs as (Hv & Hso & Hd & Hn). rewrite <- Hv.
  destruct (list_find _ (visitedProcs s)) as [[[|i] v]|].
  - split; [done|]. split_and!; cbn; congruence.
  - done.
  - case_bool_decide; [|done]. rewrite !group_search by done.
    apply try_arcs_same; [intros; by apply IH|]. split_and!; cbn; congruence.
Qed.

Lemma FindLockCycle_same p av av' : entries_ok t orders →
  same_result (FindLockCycle MaxBackends MyProc t orders p av) (FindLockCycle MaxBackends MyProc t orders p av').
Proof. intros Hok. by apply recurse_same. Qed.
End same.

Section config.
Context (MaxBackends MyProc : nat) (t : lock_table) (proc : nat).
Hypothesis (Hok : table_ok MaxBackends t).

(** The soft edges a configuration leaves to resolve: [None] for a hard deadlock or
    constraints that contradict each other. *)
Fixpoint config_test (orders : list WAIT_ORDER) (ps : list nat) (acc : list EDGE) : option (list EDGE) :=
  match ps with
  | [] => Some acc
  | p :: ps =>
      match FindLockCycle MaxBackends MyProc t orders p None with
      | Ok (true, s) => if bool_decide (softEdges s = []) then None else config_test orders ps (softEdges s)
      | _ => config_test orders ps acc
      end
  end.

Definition config (cs : list EDGE) : option (list EDGE) :=
  match ExpandConstraints MaxBackends t cs with
  | Ok (true, orders) => config_test orders (checked_procs cs proc) []
  | _ => None
  end.

(** The array holds the edges from [off] on. *)
Definition stored (off : nat) (es : list EDGE) (m : gmap nat EDGE) : Prop :=
  ∀ i e, es !! i = Some e → m !! (off + i)%nat = Some e.

Lemma store_edges_spec off es m :
  stored off es (store_edges off es m) ∧ ∀ i, (i < off)%nat → store_edges off es m !! i = m !! i.
Proof.
  revert off m. induction es as [|e es IH]; intros off m; cbn [store_edges]; [done|].
  destruct (IH (S off) (<[off := e]> m)) as [H1 H2]. split.
  - intros [|i] x Hx; cbn in Hx.
    + simplify_eq. rewrite Nat.add_0_r, H2 by lia. apply lookup_insert_eq.
    + rewrite <- (H1 i x Hx). f_equal. lia.
  - intros i Hi. rewrite H2, lookup_insert_ne by lia. done.
Qed.

(** What a test leaves alone. *)
Record framed (w w' : work) : Prop := mkFramed {
  fr_cur : curConstraints w' = curConstraints w;
  fr_n : nPossibleConstraints w' = nPossibleConstraints w;
  fr_low : ∀ i, (i < nPossibleConstraints w)%nat → possibleConstraints w' !! i = possibleConstraints w !! i
}.

Lemma framed_refl w : framed w w.
Proof. done. Qed.
Lemma framed_trans u v w : framed u v → framed v w → framed u w.
Proof.
  intros [H1 H2 H3] [H4 H5 H6]. constructor; [congruence..|]. intros i Hi. rewrite H6, H3; [done..|lia].
Qed.

Lemma test_procs_spec ps acc w : orders_ok t (waitOrders w) →
  (∀ p, p ∈ ps → (group_leader t p < MaxBackends)%nat) →
  stored (nPossibleConstraints w) acc (possibleConstraints w) →
  ∃ n w', test_procs MaxBackends MyProc t ps (Z.of_nat (length acc)) w = Ok (n, w') ∧
    framed w w' ∧ waitOrders w' = waitOrders w ∧
    match config_test (waitOrders w) ps acc with
    | Some es => n = Z.of_nat (length es) ∧ stored (nPossibleConstraints w) es (possibleConstraints w')
    | None => n = -1
    end.
Proof.
  revert acc w. induction ps as [|p ps IH]; intros acc w Ho Hps Hst; cbn [test_procs config_test].
  { by exists (Z.of_nat (length acc)), w. }
  pose proof (orders_entries MaxBackends t Hok _ Ho) as He.
  pose proof (FindLockCycle_same MaxBackends MyProc t (waitOrders w) p (blocking_autovacuum w) None He) as Hsame.
  destruct (FindLockCycle_spec MaxBackends MyProc t (waitOrders w) He
    (λ g a, arc_target_small MaxBackends t Hok (waitOrders w) g a Ho) p (blocking_autovacuum w))
    as (b & s & E & Hb); [apply Hps; left|].
  rewrite E in Hsame |- *. destruct (FindLockCycle _ _ _ _ _ None) as [[b' s']| |]; [|done..].
  destruct Hsame as [<- (_ & Hs & _)]. cbn [mbind outcome_bind].
  set (w1 := after_search (nPossibleConstraints w) s w).
  destruct (store_edges_spec (nPossibleConstraints w) (softEdges s) (possibleConstraints w)) as [Hs1 Hs2].
  assert (framed w w1) as Hf by (constructor; done).
  assert (∀ q, q ∈ ps → (group_leader t q < MaxBackends)%nat) as Hps' by (intros q Hq; apply Hps; by right).
  destruct b.
  - rewrite <- Hs. case_bool_decide as Hempty; [by exists (-1), w1|].
    destruct (IH (softEdges s) w1) as (n & w' & -> & Hf' & Hw & Hr); [done..|].
    exists n, w'. split; [done|]. split; [by eapply framed_trans|]. split; [done|]. done.
  - destruct Hb as [Hb _]. destruct (IH acc w1) as (n & w' & -> & Hf' & Hw & Hr); [done|done| |].
    { unfold w1. cbn. rewrite Hb. done. }
    exists n, w'. split; [done|]. split; [by eapply framed_trans|]. split; [done|]. done.
Qed.

Hypothesis (Hproc : (group_leader t proc < MaxBackends)%nat).

Lemma checked_small cs p : (∀ c, c ∈ cs → constraint_ok t c) → p ∈ checked_procs cs proc →
  (group_leader t p < MaxBackends)%nat.
Proof.
  intros Hcs. unfold checked_procs. rewrite elem_of_app. intros [Hp| ->%list_elem_of_singleton]; [|done].
  apply list_elem_of_In, in_concat in Hp as (l & Hl & Hp). apply list_elem_of_In in Hl, Hp.
  apply list_elem_of_fmap in Hl as (c & -> & Hc). destruct (Hcs c Hc) as [Hw Hb _].
  apply (waits_at_leader _ _ Hok) in Hw as [Ew ?], Hb as [Eb ?].
  apply elem_of_cons in Hp as [->|Hp]; [by rewrite Ew|]. apply list_elem_of_singleton in Hp as ->.
  by rewrite Eb.
Qed.

Lemma TestConfiguration_spec w : (∀ c, c ∈ curConstraints w → constraint_ok t c) →
  (nPossibleConstraints w ≤ MaxBackends * 3)%nat →
  ∃ n w', TestConfiguration MaxBackends MyProc t proc w = Ok (n, w') ∧ framed w w' ∧
    match config (curConstraints w) with
    | Some es => n = Z.of_nat (length es) ∧ stored (nPossibleConstraints w) es (possibleConstraints w') ∧
        ExpandConstraints MaxBackends t (curConstraints w) = Ok (true, waitOrders w')
    | None => n = -1
    end.
Proof.
  intros Hcs Hn. unfold TestConfiguration, config, maxPossibleConstraints.
  rewrite bool_decide_false by lia.
  destruct (ExpandConstraints_spec MaxBackends t Hok (curConstraints w) Hcs) as (b & orders & -> & Hb).
  cbn [mbind outcome_bind]. destruct b; cbn [negb]; [|by exists (-1), (with_orders orders w)].
  destruct (test_procs_spec (checked_procs (curConstraints w) proc) [] (with_orders orders w))
    as (n & w' & E & Hf & Hw & Hr).
  - apply Hb.
  - intros p Hp. by eapply checked_small.
  - done.
  - cbn [length Z.of_nat] in E. exists n, w'. split; [exact E|]. split; [by destruct Hf; constructor|].
    cbn [waitOrders with_orders nPossibleConstraints] in Hr, Hw.
    destruct (config_test orders (checked_procs (curConstraints w) proc) []); [|done].
    rewrite Hw. destruct Hr. by split_and!.
Qed.

(** What the result of a configuration means. *)
Definition solved (cs : list EDGE) (orders : list WAIT_ORDER) : Prop :=
  (∀ c, c ∈ cs → constraint_ok t c) ∧ expanded t cs 0 orders ∧
  ∀ p, p ∈ checked_procs cs proc → ¬ on_cycle t orders (group_leader t p).

Lemma config_test_spec orders ps acc : orders_ok t orders →
  (∀ p, p ∈ ps → (group_leader t p < MaxBackends)%nat) →
  match config_test orders ps acc with
  | None => ∃ p l, p ∈ ps ∧ l ≠ [] ∧ walk t orders (group_leader t p) l (group_leader t p) ∧
      soft_edges t (group_leader t p) l = []
  | Some es =>
      (es = acc ∧ ∀ p, p ∈ ps → ¬ on_cycle t orders (group_leader t p)) ∨
      (es ≠ [] ∧ ∃ p l, p ∈ ps ∧ l ≠ [] ∧ walk t orders (group_leader t p) l (group_leader t p) ∧
         soft_edges t (group_leader t p) l = es)
  end.
Proof.
  intros Ho. revert acc. induction ps as [|p ps IH]; intros acc Hps; cbn [config_test].
  { left. split; [done|]. by intros p ?%not_elem_of_nil. }
  destruct (FindLockCycle_spec MaxBackends MyProc t orders (orders_entries MaxBackends t Hok _ Ho)
    (λ g a, arc_target_small MaxBackends t Hok orders g a Ho) p None) as (b & s & -> & Hb);
    [apply Hps; left|].
  assert (∀ q, q ∈ ps → (group_leader t q < MaxBackends)%nat) as Hps' by (intros q Hq; apply Hps; by right).
  destruct b.
  - destruct Hb as (l & Hl & Hw & _ & _ & Hs & _). case_bool_decide as He.
    + exists p, l. rewrite <- Hs. split; [left|done].
    + specialize (IH (softEdges s) Hps'). destruct (config_test orders ps (softEdges s)) as [es|].
      * right. destruct IH as [[-> _]|(Hes & q & k & ? & ?)]; (split; [done|]).
        -- exists p, l. split; [left|done].
        -- exists q, k. split; [by right|done].
      * destruct IH as (q & k & ? & ?). exists q, k. split; [by right|done].
  - destruct Hb as [_ Hb]. specialize (IH acc Hps'). destruct (config_test orders ps acc) as [es|].
    + destruct IH as [[-> Hno]|(Hes & q & k & ? & ?)]; [left|right].
      * split; [done|]. intros q [->|Hq]%elem_of_cons; [done|by apply Hno].
      * split; [done|]. exists q, k. split; [by right|done].
    + destruct IH as (q & k & ? & ?). exists q, k. split; [by right|done].
Qed.

Lemma config_spec cs : (∀ c, c ∈ cs → constraint_ok t c) →
  match config cs with
  | None => contradictory t cs ∨ ∃ orders g l, expanded t cs 0 orders ∧ group_leader t g = g ∧ l ≠ [] ∧
      walk t orders g l g ∧ soft_edges t g l = []
  | Some [] => ∃ orders, ExpandConstraints MaxBackends t cs = Ok (true, orders) ∧ solved cs orders
  | Some es => ∃ orders g l, expanded t cs 0 orders ∧ group_leader t g = g ∧ l ≠ [] ∧
      walk t orders g l g ∧ soft_edges t g l = es
  end.
Proof.
  intros Hcs. unfold config.
  destruct (ExpandConstraints_spec MaxBackends t Hok cs Hcs) as (b & orders & -> & Hb).
  destruct b; [|by left].
  pose proof (config_test_spec orders (checked_procs cs proc) [] (ex_orders _ _ _ _ Hb)) as H.
  destruct (config_test orders (checked_procs cs proc) []) as [[|e es]|].
  - destruct H as [[_ Hno]|[? _]]; [intros; by eapply checked_small| |done]. exists orders. by split.
  - destruct H as [[? _]|(_ & p & l & _ & Hl & Hw & Hs)]; [intros; by eapply checked_small|done|].
    exists orders, (group_leader t p), l. split_and!; [done|by eapply leader_idem|done..].
  - destruct H as (p & l & _ & Hl & Hw & Hs); [intros; by eapply checked_small|]. right.
    exists orders, (group_leader t p), l. split_and!; [done|by eapply leader_idem|done..].
Qed.
End config.

(** ** The recursion over constraints *)

Section recursion.
Context (MaxBackends MyProc : nat) (t : lock_table) (proc : nat).
Hypothesis (Hok : table_ok MaxBackends t).
Hypothesis (Hproc : (group_leader t proc < MaxBackends)%nat).

(** Why a set of constraints was given up. *)
Inductive fails : list EDGE → Prop :=
| fails_none cs : config MaxBackends MyProc t proc cs = None → fails cs
| fails_room cs : (MaxBackends ≤ length cs)%nat → fails cs
| fails_edges cs es :
    config MaxBackends MyProc t proc cs = Some es → es ≠ [] →
    (∀ e, e ∈ es → fails (cs ++ [e])) → fails cs.

Lemma config_edges_ok cs es : (∀ c, c ∈ cs → constraint_ok t c) →
  config MaxBackends MyProc t proc cs = Some es → ∀ e, e ∈ es → constraint_ok t e.
Proof.
  intros Hcs E e He. pose proof (config_spec MaxBackends MyProc t proc Hok Hproc cs Hcs) as H.
  rewrite E in H. destruct es as [|e' es]; [by apply not_elem_of_nil in He|].
  destruct H as (orders & g & l & [Ho _ _ _ _] & Hg & _ & Hw & Hs). rewrite <- Hs in He.
  by eapply (soft_edges_ok MaxBackends t Hok orders g l g).
Qed.

(** What a call of the recursion promises. *)
Definition recursion_result (w : work) (b : bool) (w' : work) : Prop :=
  if b then framed w w' ∧ fails (curConstraints w)
  else ∃ cs, solved t proc cs (waitOrders w').

(** The state between two attempts: the edges are where they are read. *)
Definition ready (cs es : list EDGE) (saved : bool) (old i : nat) (w : work) : Prop :=
  curConstraints w = cs ∧
  if saved then nPossibleConstraints w = (old + length es)%nat ∧ stored old es (possibleConstraints w)
  else nPossibleConstraints w = old ∧ (i = O → stored old es (possibleConstraints w)).

Lemma regenerate cs es (saved : bool) old i w :
  (∀ c, c ∈ cs → constraint_ok t c) → config MaxBackends MyProc t proc cs = Some es →
  (old ≤ MaxBackends * 3)%nat → ready cs es saved old i w →
  ∃ w', (if negb saved && bool_decide (0 < i)%nat then
           '(n, w) ← TestConfiguration MaxBackends MyProc t proc w;
           if n =? Z.of_nat (length es) then Ok w
           else Raise "FATAL: inconsistent results during deadlock check"
         else Ok w) = Ok w' ∧ curConstraints w' = cs ∧
    nPossibleConstraints w' = nPossibleConstraints w ∧ stored old es (possibleConstraints w') ∧
    ∀ j, (j < old)%nat → possibleConstraints w' !! j = possibleConstraints w !! j.
Proof.
  intros Hcs E Hold [Hc Hr]. destruct saved; cbn [negb andb].
  { exists w. destruct Hr. by split_and!. }
  destruct Hr as [Hn Hs]. case_bool_decide as Hi.
  - destruct (TestConfiguration_spec MaxBackends MyProc t proc Hok Hproc w) as (n & w' & -> & [H1 H2 H3] & H).
    { by rewrite Hc. }
    { lia. }
    rewrite Hc, E in H. destruct H as (-> & Hst & _). cbn [mbind outcome_bind]. rewrite Z.eqb_refl.
    exists w'. rewrite Hn in *. split_and!; [done|congruence|done..].
  - exists w. split_and!; [done..|apply Hs; lia|done].
Qed.

Lemma try_edges_spec rec cs es saved old :
  (∀ c, c ∈ cs → constraint_ok t c) → config MaxBackends MyProc t proc cs = Some es → es ≠ [] →
  (old ≤ MaxBackends * 3)%nat → (saved = true → old + length es ≤ MaxBackends * 3)%nat →
  (∀ w e, e ∈ es → curConstraints w = cs ++ [e] → (nPossibleConstraints w ≤ MaxBackends * 3)%nat →
    ∃ b w', rec w = Ok (b, w') ∧ recursion_result w b w') →
  ∀ k i w, (i + k = length es)%nat → ready cs es saved old i w →
  (∀ j e, (j < i)%nat → es !! j = Some e → fails (cs ++ [e])) →
  ∃ b w', try_edges MaxBackends MyProc rec t proc (Z.of_nat (length es)) saved old i k w = Ok (b, w') ∧
    if b then curConstraints w' = cs ∧ nPossibleConstraints w' = old ∧
      (∀ j, (j < old)%nat → possibleConstraints w' !! j = possibleConstraints w !! j) ∧ fails cs
    else ∃ cs', solved t proc cs' (waitOrders w').
Proof.
  intros Hcs E Hne Hold Hsv Hrec k. induction k as [|k IH]; intros i w Hik Hr Hf; cbn [try_edges].
  { exists true, (with_nPossible old w). split; [done|]. destruct Hr as [Hc _]. split_and!; [done..|].
    apply (fails_edges cs es E Hne). intros e [j Hj]%list_elem_of_lookup. apply (Hf j); [|done].
    apply lookup_lt_Some in Hj. lia. }
  destruct (regenerate cs es saved old i w Hcs E Hold Hr) as (w1 & -> & Hc1 & Hn1 & Hs1 & Hl1).
  cbn [mbind outcome_bind]. destruct (lookup_lt_is_Some_2 es i) as [e He]; [lia|].
  rewrite (Hs1 i e He). set (w2 := with_cur (curConstraints w1 ++ [e]) w1).
  assert (nPossibleConstraints w = if saved then (old + length es)%nat else old) as Hn.
  { destruct Hr as [_ Hr]. destruct saved; by destruct Hr. }
  destruct (Hrec w2 e) as (b & w3 & -> & Hres);
    [by eapply list_elem_of_lookup_2|cbn; by rewrite Hc1| |].
  { cbn. rewrite Hn1, Hn. destruct saved; [by apply Hsv|done]. }
  cbn [mbind outcome_bind]. destruct b; cbn [negb recursion_result] in *; [|by exists false, w3].
  destruct Hres as [[Hc3 Hn3 Hl3] Hfail]. cbn [curConstraints with_cur nPossibleConstraints possibleConstraints w2] in *.
  assert (take (length (curConstraints w3) - 1) (curConstraints w3) = cs) as Htake.
  { rewrite Hc3, Hc1, length_app. cbn. rewrite Nat.add_sub. apply take_app_length. }
  rewrite Htake. set (w4 := with_cur cs w3).
  assert (old ≤ nPossibleConstraints w1)%nat as Hle by (rewrite Hn1, Hn; destruct saved; lia).
  destruct (IH (S i) w4) as (b & w' & -> & Hres); [lia| | |].
  - split; [done|]. cbn. destruct saved.
    + split; [by rewrite Hn3, Hn1, Hn|]. intros j x Hj. rewrite Hl3; [by apply Hs1|].
      rewrite Hn1, Hn. apply lookup_lt_Some in Hj. lia.
    + split; [by rewrite Hn3, Hn1, Hn|done].
  - intros j x Hj Hx. destruct (decide (j = i)) as [->|]; [|apply (Hf j); [lia|done]].
    assert (x = e) as -> by congruence. by rewrite Hc1 in Hfail.
  - exists b, w'. split; [done|]. destruct b; [|done]. destruct Hres as (? & ? & Hl & ?).
    split_and!; [done..| |done]. intros j Hj. rewrite (Hl j Hj). cbn. rewrite Hl3, Hl1; [done..|lia].
Qed.

Lemma DeadLockCheckRecurse_spec fuel w :
  (∀ c, c ∈ curConstraints w → constraint_ok t c) → (length (curConstraints w) ≤ MaxBackends)%nat →
  (nPossibleConstraints w ≤ MaxBackends * 3)%nat → (MaxBackends < fuel + length (curConstraints w))%nat →
  ∃ b w', DeadLockCheckRecurse MaxBackends MyProc fuel t proc w = Ok (b, w') ∧ recursion_result w b w'.
Proof.
  revert w. induction fuel as [|fuel IH]; intros w Hcs Hlen Hn Hf; [lia|]. cbn [DeadLockCheckRecurse].
  destruct (TestConfiguration_spec MaxBackends MyProc t proc Hok Hproc w Hcs Hn)
    as (n & w1 & -> & Hfr & Hr). cbn [mbind outcome_bind].
  destruct (config MaxBackends MyProc t proc (curConstraints w)) as [es|] eqn:E.
  2: { subst n. exists true, w1. split; [done|]. split; [done|]. by apply fails_none. }
  destruct Hr as (-> & Hst & Hexp).
  rewrite (proj2 (Z.ltb_ge (Z.of_nat (length es)) 0)) by lia.
  pose proof (config_spec MaxBackends MyProc t proc Hok Hproc _ Hcs) as Hspec. rewrite E in Hspec.
  destruct (Z.eqb_spec (Z.of_nat (length es)) 0) as [E0|Hne0].
  { destruct es; [|cbn in E0; lia]. destruct Hspec as (orders & E' & Hs). exists false, w1. split; [done|].
    exists (curConstraints w). rewrite Hexp in E'. by injection E' as ->. }
  assert (es ≠ []) as Hne by (intros ->; by cbn in Hne0). unfold maxCurConstraints.
  case_bool_decide as Hroom.
  { exists true, w1. split; [done|]. split; [done|]. rewrite (fr_cur _ _ Hfr) in Hroom. by apply fails_room. }
  rewrite (fr_cur _ _ Hfr) in Hroom. rewrite Nat2Z.id, (fr_n _ _ Hfr).
  unfold maxPossibleConstraints. set (old := nPossibleConstraints w) in *.
  set (saved := bool_decide (old + length es + MaxBackends ≤ MaxBackends * 4)%nat).
  set (w2 := if saved then _ else w1).
  destruct (try_edges_spec (DeadLockCheckRecurse MaxBackends MyProc fuel t proc) (curConstraints w) es
    saved old Hcs E Hne Hn) with (k := length es) (i := O) (w := w2) as (b & w' & -> & Hres).
  - unfold saved. intros H%bool_decide_eq_true. lia.
  - intros w3 e He Hc3 Hn3. apply IH.
    + rewrite Hc3. intros c [Hc| ->%list_elem_of_singleton]%elem_of_app; [by apply Hcs|].
      by eapply config_edges_ok.
    + rewrite Hc3, length_app. cbn. lia.
    + done.
    + rewrite Hc3, length_app. cbn. lia.
  - done.
  - destruct Hfr as [H1 H2 H3]. unfold w2. split; [by destruct saved|]. destruct saved; [done|]. by split.
  - intros j e Hj. lia.
  - exists b, w'. split; [done|]. destruct b; [|done]. destruct Hres as (H1 & H2 & H3 & H4). split; [|done].
    constructor; [done..|]. intros j Hj. rewrite (H3 j Hj). destruct Hfr as [_ _ Hlow].
    rewrite <- (Hlow j Hj). unfold w2. by destruct saved.
Qed.
End recursion.
