(* ===== verification/DeadlockResolve.v ===== *)
(** * What the deadlock check does to the lock table

    The result of [DeadLockCheck]: when it rearranges the wait queues, the new table
    has no cycle through the process and no new cycle at all, also after the waiters
    that can go are woken; when it reports a hard deadlock, there is a cycle, and
    without lock groups no order of the wait queues avoids one. The last part are
    runs of the table: requests, releases, cancellations and deadlock checks of all
    processes in any order. *)
From S2P Require Import Prelude Lock LockFrame TopoSort Deadlock DeadlockCheck.
From Stdlib Require Import ZArith Lia QArith.
From stdpp Require Import base strings gmap numbers list sorting relations.

Open Scope Z_scope.

(** ** The graph between groups *)

(** A group waits for another one. *)
Definition waits (t : lock_table) (orders : list WAIT_ORDER) (g h : nat) : Prop :=
  group_leader t g = g ∧ ∃ a, a ∈ group_arcs t orders g ∧ arc_target t a = h.

Lemma tc_sub {A} (R S : relation A) x y : (∀ x y, R x y → S x y) → tc R x y → tc S x y.
Proof. intros HRS H. induction H; [by apply tc_once, HRS|]. eapply tc_l; [by apply HRS|done]. Qed.

Section cycles.
Context (MaxBackends : nat) (t : lock_table) (orders : list WAIT_ORDER).
Hypothesis (Hok : table_ok MaxBackends t).

Lemma walk_tc g l h : group_leader t g = g → walk t orders g l h → l ≠ [] → tc (waits t orders) g h.
Proof.
  revert g. induction l as [|a l IH]; intros g Hg; [done|]. intros [Ha Hw] _.
  assert (waits t orders g (arc_target t a)) as H1 by (split; [done|]; by exists a).
  destruct l as [|a' l]; [cbn in Hw; subst; by apply tc_once|].
  eapply tc_l; [exact H1|]. apply IH; [by eapply leader_idem|done..].
Qed.

Lemma tc_walk g h : tc (waits t orders) g h → ∃ l, l ≠ [] ∧ walk t orders g l h.
Proof.
  intros H. induction H as [g h (_ & a & Ha & <-)|g h k (_ & a & Ha & <-) _ (l & _ & Hl)].
  - exists [a]. by split_and!.
  - exists (a :: l). by split_and!.
Qed.

Lemma on_cycle_tc g : group_leader t g = g → on_cycle t orders g ↔ tc (waits t orders) g g.
Proof.
  intros Hg. split; [intros (l & Hl & Hw); by eapply walk_tc|apply tc_walk].
Qed.

Lemma waits_leader g h : tc (waits t orders) g h → group_leader t g = g.
Proof. intros H. destruct H as [? ? [? _]|? ? ? [? _] _]; done. Qed.
End cycles.

Section queue.
Context (MaxBackends : nat) (t : lock_table).
Hypothesis (Hok : table_ok MaxBackends t).

(** The member the scan of a queue stops at is the last of its group. *)
Lemma last_member_rep l w g r u : w ∈ waitProcs (locks t l) → leader_of w = g →
  rep g (waitProcs (locks t l)) = Some r → waitProcs (locks t l) !! r = Some u →
  last_member t (pgprocno w) g (waitProcs (locks t l)) = Some (pgprocno u).
Proof.
  intros Hw Eg Hr Hu. pose proof Hr as [(u' & Hu' & Eu) Hlast]%rep_Some. simplify_eq.
  assert (u ∈ waitProcs (locks t l)) as Huq by by eapply list_elem_of_lookup_2.
  destruct (tb_queue _ _ Hok l w Hw) as [Ew _], (tb_queue _ _ Hok l u Huq) as [Ep _].
  unfold last_member. rewrite Ew. destruct (lockGroupLeader w) as [h|] eqn:El.
  - assert (∀ v, v ∈ waitProcs (locks t l) → leader_of v = h ↔ lockGroupLeader v = Some h) as Hv.
    { intros v Hvq. unfold leader_of. destruct (lockGroupLeader v) as [h'|] eqn:Ev; cbn; [naive_solver|].
      split; [|done]. intros Hp. destruct (tb_leader _ _ Hok (pgprocno w) h) as [Hh _]; [by rewrite Ew|].
      destruct (tb_queue _ _ Hok l v Hvq) as [Evp _]. rewrite Hp in Evp. congruence. }
    assert (leader_of w = h) as Ewh by (by apply Hv). rewrite Ewh in *.
    apply list_elem_of_split_length in Hu as (q1 & q2 & Eq & ->). rewrite Eq, foldl_app. cbn [foldl].
    rewrite bool_decide_true by (by apply Hv). generalize (pgprocno u). intros p.
    assert (∀ v, v ∈ q2 → lockGroupLeader v ≠ Some h) as Hq2.
    { intros v [k Hk]%list_elem_of_lookup Hv'. apply (Hlast (S (length q1 + k))%nat v); [lia| |].
      - rewrite Eq, lookup_app_r by lia. replace (S (length q1 + k) - length q1)%nat with (S k) by lia. done.
      - apply Hv; [|done]. rewrite Eq. apply elem_of_app. right. right. by eapply list_elem_of_lookup_2. }
    clear -Hq2. induction q2 as [|v q2 IH]; [done|]. cbn. rewrite bool_decide_false by (apply Hq2; left).
    apply IH. intros x Hx. apply Hq2. by right.
  - f_equal. unfold leader_of in Eu. rewrite El in Eu. cbn in Eu.
    destruct (lockGroupLeader u) as [h|] eqn:Elu; cbn in Eu; [|done]. subst h.
    destruct (tb_leader _ _ Hok (pgprocno u) (pgprocno w)) as [Hh _]; [by rewrite Ep|]. congruence.
Qed.

(** The waiters up to the last of the group are those at smaller positions. *)
Lemma until_last l w g v j : w ∈ waitProcs (locks t l) → leader_of w = g →
  waitProcs (locks t l) !! j = Some v → leader_of v ≠ g →
  v ∈ until (λ x, Some (pgprocno x) = last_member t (pgprocno w) g (waitProcs (locks t l)))
        (waitProcs (locks t l)) ∨
  behind_group (waitProcs (locks t l)) v w.
Proof.
  intros Hw Eg Hj Hne. set (q := waitProcs (locks t l)) in *.
  destruct (rep_elem g q) as [r Hr]; [rewrite <- Eg; by apply list_elem_of_fmap_2|].
  pose proof Hr as [(u & Hu & Eu) Hlast]%rep_Some.
  pose proof (last_member_rep l w g r u Hw Eg Hr Hu) as Elm. fold q in Elm.
  set (lm := last_member _ _ _ _) in *. clearbody lm. subst lm.
  pose proof (tb_nodup _ _ Hok l) as Hnd. fold q in Hnd.
  destruct (decide (j < r)%nat) as [Hlt|Hge]; [left|right].
  - clear -Hnd Hu Hj Hlt. clearbody q. revert j r Hu Hj Hlt.
    induction q as [|x q IH]; intros j r Hu Hj Hlt; [done|]. rewrite fmap_cons in Hnd.
    apply NoDup_cons in Hnd as [Hx Hnd]. cbn [until]. destruct r as [|r]; [lia|]. cbn in Hu.
    rewrite decide_False.
    2: { intros [= E]. apply Hx. rewrite E. apply list_elem_of_fmap_2. by eapply list_elem_of_lookup_2. }
    destruct j as [|j]; cbn in Hj; [simplify_eq; left|right]. apply (IH Hnd j r); [done|done|lia].
  - intros j' k u' Hj' Hk Eu'. assert (j' = j) as ->.
    { eapply (NoDup_lookup (pgprocno <$> q)); [done|..]; by rewrite list_lookup_fmap, ?Hj', ?Hj. }
    rewrite Eg in Eu'. destruct (decide (r < k)%nat) as [Hrk|]; [by destruct (Hlast k u')|].
    assert (j ≠ r) by (intros ->; simplify_eq). lia.
Qed.

Lemma until_before (o : list PGPROC) g v : v ∈ until (λ w, leader_of w = g) o →
  ∃ i, o !! i = Some v ∧ ∀ k u, o !! k = Some u → leader_of u = g → (i < k)%nat.
Proof.
  induction o as [|x o IH]; cbn; [by intros ?%not_elem_of_nil|]. case_decide as Hx; [by intros ?%not_elem_of_nil|].
  intros [->|Hv]%elem_of_cons.
  - exists O. split; [done|]. intros [|k] u Hk Hu; cbn in Hk; [by simplify_eq|lia].
  - destruct (IH Hv) as (i & Hi & Hb). exists (S i). split; [done|].
    intros [|k] u Hk Hu; cbn in Hk; [by simplify_eq|]. specialize (Hb k u Hk Hu). lia.
Qed.

(** An edge that a rearrangement adds leads to a group a constraint moves ahead. *)
Lemma waits_orders cs orders g h : expanded t cs 0 orders → waits t orders g h →
  waits t [] g h ∨ ∃ c, c ∈ cs ∧ waiter c = h.
Proof.
  intros Hex (Hg & a & Ha & <-). pose proof (ex_orders _ _ _ _ Hex) as Ho.
  apply (elem_of_group_arcs MaxBackends t Hok) in Ha as (w & <- & Hw & Hx & Hm & Ha); [|done].
  assert (∀ a', waits_on t [] w a' → arc_target t a' = arc_target t a → waits t [] (leader_of w) (arc_target t a)) as Hold.
  { intros a' Ha' E. split; [done|]. exists a'. split; [|done].
    apply (elem_of_group_arcs MaxBackends t Hok); [done|]. by exists w. }
  destruct (arc_soft a) eqn:Es.
  2: { left. apply (Hold a); [|done]. unfold waits_on. rewrite Es. by split_and!. }
  destruct Ha as (v & Hv & Ev & Hc).
  destruct (ahead_queue _ _ _ _ _ _ Ho Hv) as [Hvq Hne].
  assert (arc_target t a = leader_of v) as Et.
  { unfold arc_target. rewrite <- Ev. by eapply queue_leader. }
  assert (v ∈ ahead t [] (pgprocno w) (leader_of w) (arc_lock a) →
    waits t [] (leader_of w) (arc_target t a)) as Hstay.
  { intros Hv'. apply (Hold a); [|done]. unfold waits_on. rewrite Es. split_and!; [done..|]. by exists v. }
  unfold ahead in Hv. pose proof (orders_lookup t orders (arc_lock a) Ho) as Hl.
  destruct (find_order orders (arc_lock a)) as [o|] eqn:Eo; [|left; by apply Hstay].
  destruct Hl as (Hin & El & Hp & _). apply list_elem_of_lookup in Hvq as Hvj. destruct Hvj as [j Hj].
  destruct (until_last (arc_lock a) w (leader_of w) v j Hw eq_refl Hj Hne) as [Hu|Hbehind].
  { left. apply Hstay. unfold ahead. cbn [find_order list_find fmap option_fmap].
    apply list_elem_of_filter. done. }
  right. apply until_before in Hv as (i & Hi & Hbefore).
  assert (w ∈ order_procs o) as [k Hk]%list_elem_of_lookup by by rewrite Hp.
  pose proof (ex_moves _ _ _ _ Hex o Hin i k v w) as Hmv. rewrite El in Hmv.
  destruct Hmv as (c & ? & ? & _); [by eapply Hbefore|done..|]. exists c. by rewrite Et.
Qed.
End queue.

(** ** Waking after a rearrangement *)

(** A waiter that is woken conflicts with none that stays ahead of it, and no
    proclock comes or goes. *)
Lemma wakeup_order extension MyProc queue : ∀ kept aheadRequests lock lock',
  NoDup (kept ++ queue) → (∀ c, c ∈ kept → Z.testbit aheadRequests (waitLockMode c) = true) →
  (∀ c, c ∈ queue → waitLockMode c ∈ modes) →
  wakeup_loop extension MyProc queue kept aheadRequests lock = Ok lock' →
  myProc <$> procLocks lock' = myProc <$> procLocks lock ∧
  ∃ s, waitProcs lock' = kept ++ s ∧ s `sublist_of` queue ∧
    ∀ w q1 q2, queue = q1 ++ w :: q2 → w ∉ s → ∀ c, c ∈ kept ∨ (c ∈ q1 ∧ c ∈ s) →
      Z.testbit (LockConflicts (waitLockMode w)) (waitLockMode c) = false.
Proof.
  induction queue as [|x queue IH]; intros kept ar lock lock' Hnd Ha Hm; cbn [wakeup_loop].
  { intros [= <-]. split; [done|]. exists []. rewrite app_nil_r. split_and!; [done..|]. by intros ? [] ?. }
  assert (x ∉ kept ∧ x ∉ queue) as [Hxk Hxq].
  { rewrite <- Permutation_middle in Hnd. apply NoDup_cons in Hnd as [Hx _]. rewrite elem_of_app in Hx. tauto. }
  assert (∀ c, c ∈ queue → waitLockMode c ∈ modes) as Hm' by (intros c Hc; apply Hm; by right).
  destruct (find_proclock (pgprocno x) lock) as [pl|]; [|done].
  destruct (Z.eqb_spec (Z.land (LockConflicts (waitLockMode x)) ar) 0) as [E0|E0];
    [destruct (LockCheckConflicts _ _ _ _ _) as [cf| |]|set (cf := true)];
    cbn [mbind outcome_bind]; try done; [destruct cf|unfold cf].
  1, 3: intros E; apply IH in E as (Hp & s & Es & Hsub & Hcf);
    [|by rewrite <- app_assoc|..|done];
    [|intros c [Hc|Hc%list_elem_of_singleton]%elem_of_app; rewrite bit_set by (apply Hm; left);
        [by rewrite (Ha c Hc)|subst; by rewrite Z.eqb_refl, orb_true_r]];
    (split; [done|]); exists (x :: s); rewrite Es, <- app_assoc; (split_and!; [done|by constructor|]);
    intros w [|y q1] q2 [= -> ->] Hw c Hc; [destruct Hw; left|];
    apply not_elem_of_cons in Hw as [_ Hw];
    (eapply (Hcf w q1 q2); [done|done|]); rewrite elem_of_app, list_elem_of_singleton;
    destruct Hc as [Hc|[[->|Hc]%elem_of_cons Hc']]; [by left; left|by left; right|];
    apply elem_of_cons in Hc' as [->|Hc']; [by left; right|by right].
  intros E. apply IH in E as (Hp & s & Es & Hsub & Hcf); [|..|done|done].
  2: { rewrite <- Permutation_middle in Hnd. by apply NoDup_cons in Hnd as [_ ?]. }
  split; [rewrite Hp; apply set_holdMask_procs|].
  exists s. split_and!; [done|by constructor|].
  intros w [|y q1] q2 [= -> ->] Hw c Hc.
  - destruct Hc as [Hc|[Hc _]]; [|by apply not_elem_of_nil in Hc].
    destruct (Z.testbit (LockConflicts (waitLockMode w)) (waitLockMode c)) eqn:Eb; [|done].
    assert (Z.testbit (Z.land (LockConflicts (waitLockMode w)) ar) (waitLockMode c) = true) as Hb
      by (rewrite Z.land_spec, Eb, (Ha c Hc); done).
    by rewrite E0, Z.bits_0 in Hb.
  - eapply (Hcf w q1 q2); [done|done|]. destruct Hc as [Hc|[[->|Hc]%elem_of_cons Hc']]; [by left| |by right].
    destruct Hxq. by eapply elem_of_sublist.
Qed.

Lemma requeue_perm extension lock q : lock_ok extension lock → q ≡ₚ waitProcs lock →
  lock_ok extension (with_waitProcs lock q).
Proof.
  intros [Hnd Hw Hg Hr Hn Hgm Hws Hwc Hwt Hex] Hq.
  constructor; cbn [with_waitProcs procLocks waitProcs granted requested nRequested grantMask waitMask];
    try done; intros *; rewrite ?Hq; auto.
Qed.

Definition locks_ok (t : lock_table) : Prop := ∀ l, lock_ok (extension_lock t l) (locks t l).

(** The waiters a lock can get: processes of the table that wait for it or for
    nothing yet. *)
Definition may_wait (MaxBackends : nat) (t : lock_table) (l : nat) (w : PGPROC) : Prop :=
  lockGroupLeader w = lockGroupLeader (pgproc (procs t (pgprocno w))) ∧ (pgprocno w < MaxBackends)%nat ∧
  (waitLock (procs t (pgprocno w)) = Some l ∨ waitLock (procs t (pgprocno w)) = None).

Lemma queue_may_wait MaxBackends t l w : table_ok MaxBackends t → w ∈ waitProcs (locks t l) →
  may_wait MaxBackends t l w.
Proof.
  intros Hok Hw. destruct (tb_queue _ _ Hok l w Hw) as [E1 E2]. unfold may_wait. rewrite E1.
  split_and!; [done|by eapply waiter_small|by left].
Qed.

Section set_lock.
Context (MaxBackends : nat) (t : lock_table) (l : nat) (lock' : LOCK).
Hypothesis (Hok : table_ok MaxBackends t).
Hypothesis (Hmay : ∀ w, w ∈ waitProcs lock' → may_wait MaxBackends t l w).
Hypothesis (Hnd : NoDup (pgprocno <$> waitProcs lock')).

Lemma set_lock_locks i : locks (set_lock l lock' t) i = if decide (i = l) then lock' else locks t i.
Proof. done. Qed.

(** Groups stay, and the waiters of the lock are those in its queue. *)
Lemma set_lock_proc p :
  lockGroupLeader (pgproc (procs (set_lock l lock' t) p)) = lockGroupLeader (pgproc (procs t p)) ∧
  lockGroupMembers (procs (set_lock l lock' t) p) = lockGroupMembers (procs t p) ∧
  waitLock (procs (set_lock l lock' t) p) =
    if decide (p ∈ pgprocno <$> waitProcs lock') then Some l
    else if decide (waitLock (procs t p) = Some l) then None else waitLock (procs t p).
Proof.
  cbn [set_lock procs]. destruct (list_find _ _) as [[i w]|] eqn:E.
  - apply list_find_Some in E as (Hi & <- & _). apply list_elem_of_lookup_2 in Hi.
    rewrite decide_True by by apply list_elem_of_fmap_2. cbn. by destruct (Hmay w Hi) as (-> & _).
  - apply list_find_None in E. rewrite Forall_forall in E. rewrite (decide_False (P := p ∈ _)).
    2: { intros (w & -> & Hw)%list_elem_of_fmap. by apply (E w Hw). }
    case_bool_decide; case_decide; done.
Qed.

Lemma set_lock_entry w : w ∈ waitProcs lock' → pgproc (procs (set_lock l lock' t) (pgprocno w)) = w.
Proof.
  intros Hw. cbn [set_lock procs]. destruct (list_find _ _) as [[i v]|] eqn:E.
  - apply list_find_Some in E as (Hi & Ev & _). apply list_elem_of_lookup in Hw as [j Hj]. cbn.
    assert (i = j) as ->; [|congruence].
    eapply (NoDup_lookup (pgprocno <$> waitProcs lock')); [done|..]; by rewrite list_lookup_fmap, ?Hi, ?Hj; cbn; rewrite ?Ev.
  - apply list_find_None in E. rewrite Forall_forall in E. by destruct (E w Hw).
Qed.

Lemma set_lock_leader p : group_leader (set_lock l lock' t) p = group_leader t p.
Proof. unfold group_leader. by rewrite (proj1 (set_lock_proc p)). Qed.

(** A process that waits for another lock is not touched. *)
Lemma set_lock_other p i : waitLock (procs t p) = Some i → i ≠ l →
  p ∉ pgprocno <$> waitProcs lock' ∧ procs (set_lock l lock' t) p = procs t p.
Proof.
  intros Hi Hne. assert (p ∉ pgprocno <$> waitProcs lock') as Hp.
  { intros (w & -> & Hw)%list_elem_of_fmap. destruct (Hmay w Hw) as (_ & _ & [?|?]); congruence. }
  split; [done|]. cbn [set_lock procs]. destruct (list_find _ _) as [[k v]|] eqn:E.
  - apply list_find_Some in E as (Hk & <- & _). destruct Hp. apply list_elem_of_fmap_2.
    by eapply list_elem_of_lookup_2.
  - by rewrite bool_decide_false by congruence.
Qed.

Lemma set_lock_table_ok : (∀ pl, pl ∈ procLocks lock' → (myProc pl < MaxBackends)%nat) →
  table_ok MaxBackends (set_lock l lock' t).
Proof.
  intros Hsm. pose proof set_lock_proc as Hp. constructor.
  - intros i w. rewrite set_lock_locks. case_decide as Hi; intros Hw.
    + subst i. split; [by apply set_lock_entry|]. destruct (Hp (pgprocno w)) as (_ & _ & ->).
      by rewrite decide_True by by apply list_elem_of_fmap_2.
    + destruct (tb_queue _ _ Hok i w Hw) as [E1 E2]. by destruct (set_lock_other (pgprocno w) i E2 Hi) as [_ ->].
  - intros p i. destruct (Hp p) as (_ & _ & ->). rewrite set_lock_locks.
    case_decide as H1; [|case_decide as H2; [done|]].
    + intros [= <-]. rewrite decide_True by done. apply list_elem_of_fmap in H1 as (w & -> & ?). by exists w.
    + intros Hi. destruct (tb_wait _ _ Hok p i Hi) as (w & ? & ?). exists w.
      rewrite decide_False by congruence. done.
  - intros i. rewrite set_lock_locks. case_decide; [done|apply (tb_nodup _ _ Hok)].
  - intros p g. destruct (Hp p) as (-> & _), (Hp g) as (-> & -> & _). apply (tb_leader _ _ Hok).
  - intros g p. destruct (Hp p) as (-> & _), (Hp g) as (_ & -> & _). apply (tb_members _ _ Hok).
  - intros i pl. rewrite set_lock_locks. case_decide; [apply Hsm|apply (tb_holders _ _ Hok)].
  - intros p i. destruct (Hp p) as (_ & _ & ->). case_decide as H1; [|case_decide; [done|apply (tb_waiters _ _ Hok)]].
    intros [= <-]. apply list_elem_of_fmap in H1 as (w & -> & Hw). by destruct (Hmay w Hw) as (_ & ? & _).
  - intros p Hlt. rewrite set_lock_leader. by apply (tb_leaders _ _ Hok).
Qed.
End set_lock.

(** In an order that keeps groups together, who is ahead of one member is ahead of
    all. *)
Lemma adjacent_until o i k v u : adjacent o → o !! i = Some v → o !! k = Some u → (i < k)%nat →
  leader_of v ≠ leader_of u → v ∈ until (λ w, leader_of w = leader_of u) o.
Proof.
  intros Hadj Hi Hk Hik Hne.
  assert (∀ j x, (j < i)%nat → o !! j = Some x → leader_of x ≠ leader_of u) as Hno.
  { intros j x Hj Hx E. destruct Hne. rewrite <- E. by apply (Hadj j i k x v u). }
  clear Hadj Hk Hik. revert i Hi Hno. induction o as [|x o IH]; intros i Hi Hno; [done|]. cbn [until].
  destruct i as [|i]; cbn in Hi.
  - simplify_eq. rewrite decide_False by done. left.
  - rewrite decide_False by (apply (Hno O x); [lia|done]). right. apply (IH i Hi).
    intros j y Hj. apply (Hno (S j) y). lia.
Qed.

Section wake.
Context (MaxBackends MyProc : nat) (t : lock_table) (o : WAIT_ORDER) (os : list WAIT_ORDER).
Hypothesis (Hok : table_ok MaxBackends t) (Hlocks : locks_ok t) (Horders : orders_ok t (o :: os)).

Let l := order_lock o.

Record woke (lock' : LOCK) : Prop := mkWoke {
  wo_ok : lock_ok (extension_lock t l) lock';
  wo_stuck : stuck lock';
  wo_sub : waitProcs lock' `sublist_of` order_procs o;
  wo_procs : myProc <$> procLocks lock' = myProc <$> procLocks (locks t l);
  wo_held : ∀ p i, held lock' p i → held (locks t l) p i ∨
    ∃ v, v ∈ order_procs o ∧ v ∉ waitProcs lock' ∧ pgprocno v = p ∧ waitLockMode v = i;
  wo_order : ∀ v q1 q2 c, order_procs o = q1 ++ v :: q2 → v ∉ waitProcs lock' → c ∈ q1 → c ∈ waitProcs lock' →
    Z.testbit (LockConflicts (waitLockMode v)) (waitLockMode c) = false
}.

Lemma order_perm : order_procs o ≡ₚ waitProcs (locks t l).
Proof. apply (or_perm _ _ Horders). left. Qed.

Lemma order_nodup : NoDup (order_procs o).
Proof. apply (NoDup_fmap_1 pgprocno). rewrite order_perm. apply (tb_nodup _ _ Hok). Qed.

Lemma order_modes c : c ∈ order_procs o → waitLockMode c ∈ modes.
Proof. rewrite order_perm. intros Hc. by destruct (inv_waiter _ _ _ _ (Hlocks l) c Hc). Qed.

Lemma wake_facts : ∃ lock',
  ProcLockWakeup (extension_lock t l) (pgproc (procs t MyProc)) (with_waitProcs (locks t l) (order_procs o))
    = Ok lock' ∧ woke lock'.
Proof.
  pose proof (requeue_perm _ _ _ (Hlocks l) order_perm) as Hlk.
  destruct (ProcLockWakeup_spec _ (pgproc (procs t MyProc)) _ Hlk) as (lock' & E & [W1 W2 W3 W4 W5 W6]).
  exists lock'. split; [done|]. unfold ProcLockWakeup in E.
  apply wakeup_order in E as (Hp & s & Es & Hsub & Hcf);
    [|apply order_nodup|by intros c ?%not_elem_of_nil|apply order_modes].
  cbn [app] in Es. subst s. constructor; try done.
  - intros p i Hpi. destruct (W3 p i Hpi) as [?|(v & Hv & <- & <-)]; [by left|right].
    exists v. split_and!; [done| |done..]. intros Hv'.
    destruct (inv_waiter _ _ _ _ W1 v Hv') as (_ & pl & Hpl & Ep & Hh). rewrite <- Ep in Hpi.
    by eapply (not_held lock'); [apply (inv_procs _ _ _ _ W1)|..].
  - intros v q1 q2 c Eq Hv Hc Hc'. eapply Hcf; [done|done|]. by right.
Qed.

Lemma wake_table_ok lock' : woke lock' →
  table_ok MaxBackends (set_lock l lock' t) ∧ locks_ok (set_lock l lock' t) ∧
  orders_ok (set_lock l lock' t) os.
Proof.
  intros [W1 _ W2 W3 W4 W5].
  assert (∀ w, w ∈ waitProcs lock' → w ∈ waitProcs (locks t l)) as Hsub.
  { intros w Hw. rewrite <- order_perm. by eapply elem_of_sublist. }
  split_and!.
  - apply set_lock_table_ok; [done|intros w Hw; by apply queue_may_wait, Hsub|apply (inv_waiters _ _ _ _ W1)|].
    intros pl Hpl. apply (list_elem_of_fmap_2 myProc) in Hpl. rewrite W3 in Hpl.
    apply list_elem_of_fmap in Hpl as (pl' & -> & Hpl'). by eapply tb_holders.
  - intros i. rewrite set_lock_locks. destruct (decide (i = l)) as [->|]; [done|apply Hlocks].
  - destruct Horders as [H1 H2 H3]. rewrite fmap_cons in H3. apply NoDup_cons in H3 as [H3 H4].
    constructor; [|intros o' Ho'; apply H2; by right|done]. intros o' Ho'. rewrite set_lock_locks.
    rewrite decide_False; [apply H1; by right|]. intros E. apply H3. fold l. rewrite <- E.
    by apply list_elem_of_fmap_2.
Qed.

Lemma find_order_cons i : find_order (o :: os) i = if decide (l = i) then Some o else find_order os i.
Proof.
  unfold find_order. cbn [list_find]. unfold l. case_decide; [done|].
  by destruct (list_find (λ o, order_lock o = i) os) as [[??]|].
Qed.

Lemma find_order_self : find_order os l = None.
Proof.
  unfold find_order. destruct (list_find _ os) as [[i o']|] eqn:E; [|done].
  apply list_find_Some in E as (Hi & El & _). apply list_elem_of_lookup_2 in Hi.
  pose proof (or_nodup _ _ Horders) as Hnd. rewrite fmap_cons in Hnd. apply NoDup_cons in Hnd as [Hnd _].
  destruct Hnd. fold l. rewrite <- El. by apply list_elem_of_fmap_2.
Qed.

Section after.
Context (lock' : LOCK).
Hypothesis (Hwoke : woke lock').

Let t1 := set_lock l lock' t.

Lemma after_sub w : w ∈ waitProcs lock' → w ∈ waitProcs (locks t l).
Proof. intros Hw. rewrite <- order_perm. eapply elem_of_sublist; [done|apply Hwoke]. Qed.

Lemma after_may w : w ∈ waitProcs lock' → may_wait MaxBackends t l w.
Proof. intros Hw. by apply queue_may_wait, after_sub. Qed.

Lemma after_leader p : group_leader t1 p = group_leader t p.
Proof. eapply set_lock_leader, after_may. Qed.

Lemma after_target a : arc_target t1 a = arc_target t a.
Proof. apply after_leader. Qed.

Lemma after_last_member c g q : last_member t1 c g q = last_member t c g q.
Proof. unfold last_member, t1. by destruct (set_lock_proc MaxBackends t l lock' after_may c) as (-> & _). Qed.

(** A waiter of the changed lock that was ahead of a member that still waits. *)
Lemma after_ahead w u v i k : w ∈ waitProcs lock' → leader_of u = leader_of w → leader_of v ≠ leader_of w →
  order_procs o !! i = Some v → order_procs o !! k = Some u → (i < k)%nat →
  v ∈ ahead t (o :: os) (pgprocno w) (leader_of w) l.
Proof.
  intros Hw Eu Hne Hi Hk Hik. unfold ahead. rewrite find_order_cons, decide_True by done. rewrite <- Eu.
  apply (adjacent_until _ i k); [apply (or_adjacent _ _ Horders); left|done..|by rewrite Eu].
Qed.

(** Waiters of the new queue keep their order. *)
Lemma sublist_before (q' q : list PGPROC) i k v u : q' `sublist_of` q → NoDup q →
  q' !! i = Some v → q' !! k = Some u → (i < k)%nat → ∃ i' k', q !! i' = Some v ∧ q !! k' = Some u ∧ (i' < k')%nat.
Proof.
  intros Hs. revert i k. induction Hs as [|x q' q Hs IH|x q' q Hs IH]; intros i k Hnd Hi Hk Hik; [done|..];
    apply NoDup_cons in Hnd as [Hx Hnd].
  - destruct k as [|k]; [lia|]. destruct i as [|i]; cbn in Hi, Hk.
    + simplify_eq. apply list_elem_of_lookup_2 in Hk. assert (u ∈ q) as [k' Hk']%list_elem_of_lookup
        by by eapply elem_of_sublist. exists O, (S k'). split_and!; [done..|lia].
    + destruct (IH i k) as (i' & k' & ? & ? & ?); [done..|lia|]. exists (S i'), (S k'). split_and!; [done..|lia].
  - destruct (IH i k) as (i' & k' & ? & ? & ?); [done..|]. exists (S i'), (S k'). split_and!; [done..|lia].
Qed.

Lemma after_soft w v : w ∈ waitProcs lock' → v ∈ ahead t1 os (pgprocno w) (leader_of w) l →
  table_ok MaxBackends t1 → v ∈ ahead t (o :: os) (pgprocno w) (leader_of w) l.
Proof.
  intros Hw Hv Hok1. unfold ahead in Hv. rewrite find_order_self in Hv.
  apply list_elem_of_filter in Hv as [Hne Hv].
  assert (locks t1 l = lock') as El by (unfold t1; by rewrite set_lock_locks, decide_True).
  destruct (rep_elem (leader_of w) (waitProcs lock')) as [r Hr]; [by apply list_elem_of_fmap_2|].
  pose proof Hr as [(u & Hu & Eu) _]%rep_Some.
  pose proof (last_member_rep MaxBackends t1 Hok1 l w (leader_of w) r u) as Hlm. rewrite El in Hlm.
  specialize (Hlm Hw eq_refl Hr Hu). rewrite El in Hv. set (lm := last_member _ _ _ _) in *.
  clearbody lm. subst lm.
  assert (∃ i, waitProcs lock' !! i = Some v ∧ (i < r)%nat) as (i & Hi & Hir).
  { clear -Hv Hu. revert r Hu. induction (waitProcs lock') as [|x q IH]; intros r Hu; [done|].
    cbn [until] in Hv. case_decide as Hd; [by apply not_elem_of_nil in Hv|].
    destruct r as [|r]; cbn in Hu; [by simplify_eq|]. apply elem_of_cons in Hv as [->|Hv].
    - exists O. split; [done|lia].
    - destruct (IH Hv r Hu) as (i & ? & ?). exists (S i). split; [done|lia]. }
  destruct (sublist_before (waitProcs lock') (order_procs o) i r v u) as (i' & k' & ? & ? & ?);
    [apply Hwoke|apply order_nodup|done..|].
  by eapply (after_ahead w u v i' k').
Qed.

(** A woken process that now holds a conflicting mode was ahead. *)
Lemma after_granted w v : w ∈ waitProcs lock' → v ∈ order_procs o → v ∉ waitProcs lock' →
  leader_of v ≠ leader_of w → Z.testbit (LockConflicts (waitLockMode w)) (waitLockMode v) = true →
  v ∈ ahead t (o :: os) (pgprocno w) (leader_of w) l.
Proof.
  intros Hw Hv Hnv Hne Hc.
  assert (w ∈ order_procs o) as Hwo by (eapply elem_of_sublist; [done|apply Hwoke]).
  apply list_elem_of_lookup in Hv as [i Hi]. apply list_elem_of_lookup in Hwo as [k Hk].
  destruct (decide (i < k)%nat); [by eapply (after_ahead w w v i k)|].
  assert (k ≠ i) by (intros ->; simplify_eq). apply list_elem_of_split_length in Hi as (q1 & q2 & Eq & ->).
  assert (w ∈ q1) as Hq1.
  { rewrite Eq, lookup_app_l in Hk by lia. by eapply list_elem_of_lookup_2. }
  pose proof (wo_order _ Hwoke v q1 q2 w Eq Hnv Hq1 Hw) as Hno.
  rewrite conflicts_sym in Hc by (apply order_modes; rewrite Eq; set_solver). congruence.
Qed.

Lemma wake_waits g h : waits t1 os g h → waits t (o :: os) g h.
Proof.
  intros (Hg & a & Ha & <-). rewrite after_leader in Hg.
  destruct (wake_table_ok lock' Hwoke) as (Hok1 & _ & Ho1).
  apply (elem_of_group_arcs MaxBackends t1 Hok1) in Ha as (w & <- & Hw & Hx & Hm & Ha);
    [|by rewrite after_leader].
  assert (w ∈ waitProcs (locks t (arc_lock a))) as Hwt.
  { unfold t1 in Hw. rewrite set_lock_locks in Hw. case_decide as El; [rewrite El; by apply after_sub|done]. }
  assert (∀ a', waits_on t (o :: os) w a' → arc_target t a' = arc_target t a →
    waits t (o :: os) (leader_of w) (arc_target t1 a)) as Hnew.
  { intros a' Ha' E. split; [done|]. exists a'. rewrite after_target. split; [|done].
    apply (elem_of_group_arcs MaxBackends t Hok); [done|]. by exists w. }
  assert (∀ pl, hard_blocks t1 (leader_of w) (LockConflicts (waitLockMode w)) pl →
    hard_blocks t (leader_of w) (LockConflicts (waitLockMode w)) pl) as Hhard.
  { intros pl. unfold hard_blocks. by rewrite after_leader. }
  unfold t1 in Hw, Ha. rewrite set_lock_locks in Hw, Ha. fold t1 in Ha.
  destruct (decide (arc_lock a = l)) as [El|Hne].
  - rewrite El in *. destruct (arc_soft a) eqn:Es.
    + destruct Ha as (v & Hv & Ev & Hc). apply after_soft in Hv; [|done..].
      apply (Hnew a); [|done]. unfold waits_on. rewrite Es, El. split_and!; [done..|]. by exists v.
    + destruct Ha as (pl & Hpl & Ep & Hb%Hhard). pose proof Hb as [Hld Hex].
      apply existsb_exists in Hex as (i & Hi%list_elem_of_In & [Hh Hc]%andb_true_iff).
      destruct (wo_held _ Hwoke (myProc pl) i) as [(pl' & Hpl' & Ep' & Hh')|(v & Hv & Hnv & Ev & Em)];
        [by exists pl|..].
      * apply (Hnew a); [|done]. unfold waits_on. rewrite Es, El. split_and!; [done..|].
        exists pl'. rewrite Ep', Ep. split_and!; [done..|]. split; [by rewrite Ep'|].
        apply existsb_exists. exists i. split; [by apply list_elem_of_In|]. by rewrite andb_true_iff.
      * assert (v ∈ waitProcs (locks t l)) as Hvq by by rewrite <- order_perm.
        assert (leader_of v ≠ leader_of w) as Hlv.
        { rewrite <- (queue_leader MaxBackends t Hok l v Hvq), Ev. done. }
        apply (Hnew (mkArc (pgprocno w) l true (pgprocno v))).
        -- unfold waits_on. cbn. split_and!; [done..|]. exists v. split; [|by rewrite Em].
           apply after_granted; [done..|]. by rewrite Em.
        -- unfold arc_target. cbn. by rewrite Ev, Ep.
  - apply (Hnew a); [|done]. unfold waits_on. split_and!; [done..|]. destruct (arc_soft a).
    + destruct Ha as (v & Hv & Ev & Hc). exists v. split; [|done]. unfold ahead in *.
      rewrite find_order_cons, decide_False by done. destruct (find_order os (arc_lock a)); [done|].
      cbn zeta in Hv |- *. unfold t1 in Hv. rewrite set_lock_locks, decide_False in Hv by done.
      fold t1 in Hv. by rewrite after_last_member in Hv.
    + destruct Ha as (pl & ? & ? & ?). exists pl. by split_and!; [..|apply Hhard].
Qed.
End after.
End wake.

(** ** The result of the check *)

Section check.
Context (MaxBackends MyProc : nat).

Lemma apply_orders_spec orders : ∀ t, table_ok MaxBackends t → locks_ok t → orders_ok t orders →
  ∃ t', apply_orders MyProc orders t = Ok t' ∧ table_ok MaxBackends t' ∧ locks_ok t' ∧
    (∀ p, group_leader t' p = group_leader t p) ∧ (∀ g h, waits t' [] g h → waits t orders g h) ∧
    (∀ l, l ∉ order_lock <$> orders → locks t' l = locks t l) ∧
    (∀ o, o ∈ orders → waitProcs (locks t' (order_lock o)) `sublist_of` order_procs o ∧
       stuck (locks t' (order_lock o))).
Proof.
  induction orders as [|o os IH]; intros t Hok Hlocks Ho; cbn [apply_orders].
  { exists t. split_and!; try done. by intros o ?%not_elem_of_nil. }
  destruct (wake_facts MaxBackends MyProc t o os Hok Hlocks Ho) as (lock' & -> & Hw).
  cbn [mbind outcome_bind].
  destruct (wake_table_ok MaxBackends t o os Hok Hlocks Ho lock' Hw) as (Hok1 & Hl1 & Ho1).
  destruct (IH _ Hok1 Hl1 Ho1) as (t' & -> & H1 & H2 & H3 & H4 & H5 & H6). exists t'.
  pose proof (or_nodup _ _ Ho) as Hnd. rewrite fmap_cons in Hnd. apply NoDup_cons in Hnd as [Hnd _].
  split_and!; [done..| | | |].
  - intros p. rewrite H3. by eapply after_leader.
  - intros g h Hgh. eapply wake_waits; [done..|]. by apply H4.
  - intros l. rewrite fmap_cons, not_elem_of_cons. intros [Hne Hnl]. rewrite H5 by done.
    by rewrite set_lock_locks, decide_False.
  - intros o' [->|Hin]%elem_of_cons; [|by apply H6]. rewrite H5 by done.
    rewrite set_lock_locks, decide_True by done. by destruct Hw.
Qed.

(** The queues of the new table are those of the old one, rearranged, without the
    processes that were woken. *)
Definition rearranged (t t' : lock_table) : Prop :=
  ∀ l, ∃ q, q ≡ₚ waitProcs (locks t l) ∧ waitProcs (locks t' l) `sublist_of` q.

Lemma solved_no_new_cycle t proc cs orders g : table_ok MaxBackends t → group_leader t g = g →
  solved t proc cs orders → tc (waits t orders) g g → tc (waits t []) g g.
Proof.
  intros Hok Hg (Hcs & Hex & Hno).
  assert (∀ c h, c ∈ cs → waiter c = h → ¬ tc (waits t orders) h h) as Hwait.
  { intros c h Hc <- Htc. destruct (waits_at_leader MaxBackends t Hok _ _ (co_waiter _ _ (Hcs c Hc))) as [E _].
    apply (Hno (waiter c)); [|rewrite E; by apply (on_cycle_tc MaxBackends)].
    unfold checked_procs. apply elem_of_app. left. apply list_elem_of_In, in_concat.
    exists [waiter c; blocker c]. rewrite <- !list_elem_of_In. split; [|left].
    by apply (list_elem_of_fmap_2 (λ c, [waiter c; blocker c])). }
  intros Hcyc.
  assert (∀ x y, tc (waits t orders) x y → rtc (waits t orders) y x → tc (waits t []) x y) as Hall.
  { intros x y Htc. induction Htc as [x y Hxy|x y z Hxy Hyz IH]; intros Hback.
    - destruct (waits_orders MaxBackends t Hok cs orders x y Hex Hxy) as [?|(c & Hc & E)]; [by apply tc_once|].
      destruct (Hwait c y Hc E). eapply tc_rtc_l; [exact Hback|by apply tc_once].
    - destruct (waits_orders MaxBackends t Hok cs orders x y Hex Hxy) as [Hxy'|(c & Hc & E)].
      + eapply tc_l; [exact Hxy'|]. apply IH. eapply rtc_r; [exact Hback|done].
      + destruct (Hwait c y Hc E). eapply tc_rtc_r; [exact Hyz|]. eapply rtc_r; [exact Hback|done]. }
  by apply Hall.
Qed.

(** What the check promises for its result. *)
Definition check_result (t : lock_table) (proc : nat) (st : DeadLockState) (w : work) (t' : lock_table) : Prop :=
  match st with
  | DS_HARD_DEADLOCK =>
      t' = t ∧ fails MaxBackends MyProc t proc [] ∧
      ∃ l s, l ≠ [] ∧ noted MaxBackends t [] (group_leader t proc) (group_leader t proc) 0 l s ∧
        details w = deadlockDetails s ∧ nDetails w = nDeadlockDetails s
  | _ =>
      rearranged t t' ∧ ¬ on_cycle t' [] (group_leader t proc) ∧
      ∀ g, group_leader t g = g → on_cycle t' [] g → on_cycle t [] g
  end.

Lemma empty_orders_ok t : orders_ok t [].
Proof. constructor; [by intros ? ?%not_elem_of_nil..|constructor]. Qed.

Lemma fails_cycle t proc : table_ok MaxBackends t → (proc < MaxBackends)%nat →
  fails MaxBackends MyProc t proc [] → on_cycle t [] (group_leader t proc).
Proof.
  intros Hok Hp Hf.
  assert (group_leader t proc < MaxBackends)%nat as Hlp by by apply (tb_leaders _ _ Hok).
  pose proof (config_test_spec MaxBackends MyProc t Hok [] [proc] [] (empty_orders_ok t)) as H.
  assert (config MaxBackends MyProc t proc [] = config_test MaxBackends MyProc t [] [proc] []) as E by done.
  inversion Hf as [cs E'|cs Hroom|cs es E' Hne _]; subst; [| |].
  - rewrite <- E, E' in H. destruct H as (p & l & Hin & Hl & Hw & _);
      [by intros p ->%list_elem_of_singleton|]. apply list_elem_of_singleton in Hin as ->. by exists l.
  - cbn in Hroom. lia.
  - rewrite <- E, E' in H. destruct H as [[-> _]|(_ & p & l & Hin & Hl & Hw & _)];
      [by intros p ->%list_elem_of_singleton|done|]. apply list_elem_of_singleton in Hin as ->. by exists l.
Qed.

Lemma DeadLockCheck_spec t proc : table_ok MaxBackends t → locks_ok t → (proc < MaxBackends)%nat →
  ∃ st w t', DeadLockCheck MaxBackends MyProc t proc = Ok (st, w, t') ∧
    table_ok MaxBackends t' ∧ locks_ok t' ∧ (∀ p, group_leader t' p = group_leader t p) ∧
    ((∀ l, stuck (locks t l)) → ∀ l, stuck (locks t' l)) ∧ check_result t proc st w t'.
Proof.
  intros Hok Hlocks Hp. unfold DeadLockCheck.
  assert (group_leader t proc < MaxBackends)%nat as Hlp by by apply (tb_leaders _ _ Hok).
  destruct (DeadLockCheckRecurse_spec MaxBackends MyProc t proc Hok Hlp (S (maxCurConstraints MaxBackends))
    (mkWork [] ∅ 0 [] ∅ 0 None)) as (b & w & -> & Hr); cbn [curConstraints nPossibleConstraints length];
    [by intros c ?%not_elem_of_nil|lia|lia|unfold maxCurConstraints; lia|].
  cbn [mbind outcome_bind]. destruct b.
  - destruct Hr as [_ Hf]. cbn [curConstraints] in Hf.
    destruct (FindLockCycle_spec MaxBackends MyProc t [] (orders_entries _ _ Hok _ (empty_orders_ok t))
      (λ g a, arc_target_small _ _ Hok [] g a (empty_orders_ok t)) proc (blocking_autovacuum w) Hlp)
      as (b & s & -> & Hb). cbn [mbind outcome_bind]. destruct b.
    + destruct Hb as (l & Hl & Hn). do 3 eexists. split; [done|]. split_and!; [done..|].
      split; [done|]. split; [done|]. by exists l, s.
    + destruct Hb as [_ []]. by apply fails_cycle.
  - destruct Hr as (cs & Hs). pose proof Hs as (Hcs & Hex & Hno).
    pose proof (ex_orders _ _ _ _ Hex) as Ho.
    destruct (apply_orders_spec (waitOrders w) t Hok Hlocks Ho) as (t' & -> & Hok' & Hl' & Hld & Hw & Hsame & Hsub).
    cbn [mbind outcome_bind]. do 3 eexists. split; [done|]. split_and!; [done|done|done| |].
    { intros Hst l. destruct (decide (l ∈ order_lock <$> waitOrders w)) as [(o & -> & Hin)%list_elem_of_fmap|Hn];
        [by apply Hsub|by rewrite Hsame]. }
    assert (rearranged t t' ∧ ¬ on_cycle t' [] (group_leader t proc) ∧
      ∀ g, group_leader t g = g → on_cycle t' [] g → on_cycle t [] g) as Hres; [|by repeat case_match].
    split_and!.
    + intros l. destruct (decide (l ∈ order_lock <$> waitOrders w)) as [(o & -> & Hin)%list_elem_of_fmap|Hn].
      * exists (order_procs o). split; [by apply (or_perm _ _ Ho)|by apply Hsub].
      * exists (waitProcs (locks t l)). by rewrite Hsame.
    + assert (group_leader t (group_leader t proc) = group_leader t proc) as Hg by by eapply leader_idem.
      rewrite (on_cycle_tc MaxBackends t' [] Hok') by by rewrite Hld. intros Htc. apply (Hno proc).
      * unfold checked_procs. apply elem_of_app. right. by left.
      * apply (on_cycle_tc MaxBackends t _ Hok); [done|]. by eapply tc_sub.
    + intros g Hg. rewrite (on_cycle_tc MaxBackends t' [] Hok'), (on_cycle_tc MaxBackends t [] Hok);
        [|done|by rewrite Hld]. intros Htc.
      eapply solved_no_new_cycle; [done..|]. by eapply tc_sub.
Qed.
End check.

(** ** A hard deadlock cannot be avoided *)

Section hard.
Context (MaxBackends MyProc : nat) (t : lock_table) (proc : nat).
Hypothesis (Hok : table_ok MaxBackends t) (Hproc : (group_leader t proc < MaxBackends)%nat).
Hypothesis (Hnogroups : ∀ p, lockGroupLeader (pgproc (procs t p)) = None).

Lemma no_groups_leader l w : w ∈ waitProcs (locks t l) → leader_of w = pgprocno w.
Proof.
  intros Hw. destruct (tb_queue _ _ Hok l w Hw) as [E _]. unfold leader_of.
  by rewrite <- E, Hnogroups, E.
Qed.

(** The queue of a lock under the orders. *)
Definition queue_under (orders : list WAIT_ORDER) (l : nat) : list PGPROC :=
  match find_order orders l with Some o => order_procs o | None => waitProcs (locks t l) end.

Lemma queue_under_perm orders l : orders_ok t orders → queue_under orders l ≡ₚ waitProcs (locks t l).
Proof.
  intros Ho. unfold queue_under. pose proof (orders_lookup t orders l Ho) as H.
  destruct (find_order orders l); [|done]. by destruct H as (_ & _ & ? & _).
Qed.

Lemma until_pos (P : PGPROC → Prop) `{!∀ x, Decision (P x)} (q : list PGPROC) k w v i :
  q !! k = Some w → P w → (∀ j x, (j < k)%nat → q !! j = Some x → ¬ P x) → q !! i = Some v → (i < k)%nat →
  v ∈ until P q.
Proof.
  revert k i. induction q as [|x q IH]; intros k i Hk HP Hno Hi Hik; [done|]. cbn [until].
  destruct k as [|k]; [lia|]. rewrite decide_False by (apply (Hno O); [lia|done]).
  destruct i as [|i]; cbn in Hi; [simplify_eq; left|right]. apply (IH k i); [done..| |done|lia].
  intros j y Hj. apply (Hno (S j)). lia.
Qed.

Lemma until_pos_inv (P : PGPROC → Prop) `{!∀ x, Decision (P x)} (q : list PGPROC) v :
  v ∈ until P q → ∃ i, q !! i = Some v ∧ ∀ j x, (j ≤ i)%nat → q !! j = Some x → ¬ P x.
Proof.
  induction q as [|x q IH]; cbn [until]; [by intros ?%not_elem_of_nil|].
  case_decide as Hx; [by intros ?%not_elem_of_nil|]. intros [->|Hv]%elem_of_cons.
  - exists O. split; [done|]. intros [|j] y Hj Hy; [by simplify_eq/=|lia].
  - destruct (IH Hv) as (i & Hi & Hno). exists (S i). split; [done|].
    intros [|j] y Hj Hy; cbn in Hy; [by simplify_eq|]. apply (Hno j); [lia|done].
Qed.

(** Without groups, who is ahead is who has a smaller position. *)
Lemma ahead_positions orders l w v k i : orders_ok t orders → w ∈ waitProcs (locks t l) →
  queue_under orders l !! k = Some w → queue_under orders l !! i = Some v →
  v ∈ ahead t orders (pgprocno w) (leader_of w) l ↔ (i < k)%nat.
Proof.
  intros Ho Hw Hk Hi. pose proof (queue_under_perm orders l Ho) as Hp.
  assert (NoDup (pgprocno <$> queue_under orders l)) as Hnd by (rewrite Hp; apply (tb_nodup _ _ Hok)).
  assert (∀ j x, queue_under orders l !! j = Some x → pgprocno x = pgprocno w → j = k) as Huniq.
  { intros j x Hj E. eapply (NoDup_lookup (pgprocno <$> queue_under orders l)); [done|..];
      by rewrite list_lookup_fmap, ?Hj, ?Hk; cbn; rewrite ?E. }
  assert (∀ x, x ∈ queue_under orders l → leader_of x = pgprocno x) as Hld.
  { intros x Hx. eapply no_groups_leader. by rewrite <- Hp. }
  assert (∀ q (P : PGPROC → Prop) `{!∀ x, Decision (P x)}, q = queue_under orders l →
    (∀ x, x ∈ q → P x ↔ pgprocno x = pgprocno w) → v ∈ until P q ↔ (i < k)%nat) as Huntil.
  { intros q P HP -> HPx. split.
    - intros (i' & Hi' & Hno)%until_pos_inv. assert (i' = i) as ->.
      { eapply (NoDup_lookup (pgprocno <$> queue_under orders l)); [done|..]; by rewrite list_lookup_fmap, ?Hi', ?Hi. }
      destruct (decide (i < k)%nat); [done|]. exfalso. apply (Hno k w); [lia|done|].
      apply HPx; [by eapply list_elem_of_lookup_2|done].
    - intros Hik. eapply (until_pos P _ k w v i); [done| | |done..].
      + apply HPx; [by eapply list_elem_of_lookup_2|done].
      + intros j x Hj Hx Hpx. apply HPx in Hpx; [|by eapply list_elem_of_lookup_2].
        rewrite (Huniq j x Hx Hpx) in Hj. lia. }
  unfold ahead. rewrite (no_groups_leader l w Hw). destruct (find_order orders l) as [o|] eqn:Eo.
  - apply Huntil; [unfold queue_under; by rewrite Eo|]. intros x Hx. rewrite Hld; [done|].
    unfold queue_under. by rewrite Eo.
  - assert (waitProcs (locks t l) = queue_under orders l) as Eq by (unfold queue_under; by rewrite Eo).
    assert (last_member t (pgprocno w) (pgprocno w) (waitProcs (locks t l)) = Some (pgprocno w)) as Elm.
    { unfold last_member. by rewrite Hnogroups. }
    set (lm := last_member _ _ _ _) in *. clearbody lm. subst lm.
    rewrite list_elem_of_filter, (Huntil _ (λ x, Some (pgprocno x) = Some (pgprocno w))); [|done|naive_solver].
    split; [tauto|]. intros Hik. split; [|done].
    rewrite Hld by by eapply list_elem_of_lookup_2. intros E. rewrite (Huniq i v Hi E) in Hik. lia.
Qed.

Definition satisfies (orders : list WAIT_ORDER) (c : EDGE) : Prop :=
  respects (queue_under orders (edge_lock c)) c.

(** One edge of a walk is there under other orders, or they satisfy its reversal. *)
Lemma arc_transfer orders orders' g a : orders_ok t orders → orders_ok t orders' → group_leader t g = g →
  a ∈ group_arcs t orders g →
  a ∈ group_arcs t orders' g ∨
  (arc_soft a = true ∧ satisfies orders' (mkEdge g (arc_target t a) (arc_lock a))).
Proof.
  intros Ho Ho' Hg Ha. apply (elem_of_group_arcs MaxBackends t Hok) in Ha as (w & <- & Hw & Hx & Hm & Ha); [|done].
  assert (waits_on t orders' w a → a ∈ group_arcs t orders' (leader_of w)) as Hin.
  { intros H. apply (elem_of_group_arcs MaxBackends t Hok); [done|]. by exists w. }
  destruct (arc_soft a) eqn:Es.
  2: { left. apply Hin. unfold waits_on. rewrite Es. by split_and!. }
  destruct Ha as (v & Hv & Ev & Hc). destruct (ahead_queue _ _ _ _ _ _ Ho Hv) as [Hvq Hne].
  set (l := arc_lock a) in *. pose proof (queue_under_perm orders' l Ho') as Hp.
  assert (w ∈ queue_under orders' l) as [k Hk]%list_elem_of_lookup by by rewrite Hp.
  assert (v ∈ queue_under orders' l) as [i Hi]%list_elem_of_lookup by by rewrite Hp.
  destruct (decide (i < k)%nat) as [Hik|Hik].
  - left. apply Hin. unfold waits_on. rewrite Es. split_and!; [done..|]. exists v. split; [|done].
    by eapply ahead_positions.
  - right. split; [done|]. unfold satisfies. cbn [edge_lock]. intros i' j' x y Hi' Hj' Ex Ey. cbn in Ex, Ey.
    assert (∀ j z u, queue_under orders' l !! j = Some z → u ∈ waitProcs (locks t l) →
      leader_of z = leader_of u → z = u) as Hsame.
    { intros j z u Hj Hu E. apply list_elem_of_lookup_2 in Hj. rewrite Hp in Hj.
      rewrite (no_groups_leader l z Hj), (no_groups_leader l u Hu) in E.
      by destruct (queue_unique MaxBackends t Hok l l z u Hj Hu E). }
    assert (arc_target t a = leader_of v) as Et.
    { unfold arc_target. rewrite <- Ev. by eapply queue_leader. }
    rewrite Et in Ey. assert (x = w) as -> by by eapply Hsame. assert (y = v) as -> by by eapply Hsame.
    assert (NoDup (queue_under orders' l)) as Hnd.
    { apply (NoDup_fmap_1 pgprocno). rewrite Hp. apply (tb_nodup _ _ Hok). }
    assert (i' = k) as -> by by eapply NoDup_lookup. assert (j' = i) as -> by by eapply NoDup_lookup.
    assert (i ≠ k) by (intros ->; simplify_eq). lia.
Qed.

Lemma walk_transfer orders orders' g l h : orders_ok t orders → orders_ok t orders' → group_leader t g = g →
  walk t orders g l h →
  walk t orders' g l h ∨ ∃ e, e ∈ soft_edges t g l ∧ satisfies orders' e.
Proof.
  intros Ho Ho'. revert g. induction l as [|a l IH]; intros g Hg; [by left|]. intros [Ha Hw].
  destruct (IH (arc_target t a)) as [Hw'|(e & He & Hs)]; [by eapply leader_idem|done|..].
  - destruct (arc_transfer orders orders' g a Ho Ho' Hg Ha) as [Ha'|[Es Hs]]; [left; by split|right].
    exists (mkEdge g (arc_target t a) (arc_lock a)). split; [|done]. cbn [soft_edges]. rewrite Es.
    apply elem_of_app. right. by left.
  - right. exists e. split; [|done]. cbn [soft_edges]. apply elem_of_app. by left.
Qed.

(** The soft edges of a walk are not reversed by the orders it follows. *)
Lemma soft_unsatisfied orders g l h e : orders_ok t orders → group_leader t g = g → walk t orders g l h →
  e ∈ soft_edges t g l → ¬ satisfies orders e.
Proof.
  intros Ho. revert g. induction l as [|a l IH]; intros g Hg; [by intros _ ?%not_elem_of_nil|].
  intros [Ha Hw]. cbn [soft_edges]. rewrite elem_of_app. intros [He|He].
  { apply (IH (arc_target t a)); [by eapply leader_idem|done..]. }
  destruct (arc_soft a) eqn:Es; [|by apply not_elem_of_nil in He].
  apply list_elem_of_singleton in He as ->. intros Hs.
  apply (elem_of_group_arcs MaxBackends t Hok) in Ha as (w & <- & Hwq & _ & _ & Ha); [|done].
  rewrite Es in Ha. destruct Ha as (v & Hv & Ev & _). destruct (ahead_queue _ _ _ _ _ _ Ho Hv) as [Hvq _].
  pose proof (queue_under_perm orders (arc_lock a) Ho) as Hp.
  assert (w ∈ queue_under orders (arc_lock a)) as [k Hk]%list_elem_of_lookup by by rewrite Hp.
  assert (v ∈ queue_under orders (arc_lock a)) as [i Hi]%list_elem_of_lookup by by rewrite Hp.
  apply (ahead_positions orders (arc_lock a) w v k i) in Hv; [|done..].
  assert (k < i)%nat; [|lia]. apply (Hs k i w v); [done..|]. cbn. unfold arc_target. rewrite <- Ev.
  symmetry. by eapply queue_leader.
Qed.

(** The room for constraints: a process waits for one lock, so a constraint is its
    pair of processes. *)
Lemma constraints_bound (ps : list nat) cs : (∀ p l, waitLock (procs t p) = Some l → p ∈ ps) →
  (∀ c, c ∈ cs → constraint_ok t c) → NoDup cs → (length cs ≤ length ps * length ps)%nat.
Proof.
  intros Hps Hcs Hnd. rewrite <- length_prod, <- (length_fmap (λ c, (waiter c, blocker c)) cs).
  assert (∀ g l, waits_at t g l → waitLock (procs t g) = Some l) as Hat.
  { intros g l (w & Hw & <-). rewrite (no_groups_leader l w Hw). by destruct (tb_queue _ _ Hok l w Hw). }
  apply submseteq_length, NoDup_submseteq.
  - apply NoDup_fmap_2_strong; [|done]. intros c d Hc Hd [= Ew Eb].
    destruct (Hcs c Hc) as [H1 _ _], (Hcs d Hd) as [H2 _ _]. rewrite Ew in H1.
    apply Hat in H1, H2. destruct c, d. cbn in *. congruence.
  - intros p (c & -> & Hc)%list_elem_of_fmap. destruct (Hcs c Hc) as [H1 H2 _].
    apply list_elem_of_In, in_prod; apply list_elem_of_In; eapply Hps, Hat; done.
Qed.

Lemma contradictory_orders cs orders : (∀ c, c ∈ cs → constraint_ok t c) → contradictory t cs →
  orders_ok t orders → ¬ ∀ c, c ∈ cs → satisfies orders c.
Proof.
  intros Hcs (l & _ & Hno) Ho Hs. apply (Hno (queue_under orders l)); [by apply queue_under_perm|].
  intros c Hc. destruct (decide (edge_lock c = l)) as [<-|Hne]; [by apply Hs|].
  intros i j a b Hi _ Ea _. apply list_elem_of_lookup_2 in Hi. rewrite (queue_under_perm orders l Ho) in Hi.
  destruct (Hcs c Hc) as [(w & Hw & Ew) _ _]. destruct Hne.
  assert (pgprocno w = pgprocno a) as E.
  { rewrite <- (no_groups_leader _ _ Hw), <- (no_groups_leader _ _ Hi). congruence. }
  by destruct (queue_unique MaxBackends t Hok _ _ _ _ Hw Hi E).
Qed.

Lemma fails_unavoidable ps cs orders : (∀ p l, waitLock (procs t p) = Some l → p ∈ ps) →
  (length ps * length ps < MaxBackends)%nat → fails MaxBackends MyProc t proc cs →
  (∀ c, c ∈ cs → constraint_ok t c) → NoDup cs → orders_ok t orders →
  (∀ c, c ∈ cs → satisfies orders c) → ∃ g, on_cycle t orders g.
Proof.
  intros Hps Hlen Hf. induction Hf as [cs E|cs Hroom|cs es E Hne _ IH]; intros Hcs Hnd Ho Hs.
  - pose proof (config_spec MaxBackends MyProc t proc Hok Hproc cs Hcs) as H. rewrite E in H.
    destruct H as [H|(os & g & l & Hex & Hg & Hl & Hw & Hsoft)].
    { by destruct (contradictory_orders cs orders Hcs H Ho). }
    destruct (walk_transfer os orders g l g (ex_orders _ _ _ _ Hex) Ho Hg Hw) as [Hw'|(e & He & _)];
      [by exists g, l|]. rewrite Hsoft in He. by apply not_elem_of_nil in He.
  - pose proof (constraints_bound ps cs Hps Hcs Hnd). lia.
  - pose proof (config_spec MaxBackends MyProc t proc Hok Hproc cs Hcs) as H. rewrite E in H.
    assert (∃ os g l, expanded t cs 0 os ∧ group_leader t g = g ∧ l ≠ [] ∧ walk t os g l g ∧
      soft_edges t g l = es) as (os & g & l & Hex & Hg & Hl & Hw & Hsoft) by by destruct es.
    destruct (walk_transfer os orders g l g (ex_orders _ _ _ _ Hex) Ho Hg Hw) as [Hw'|(e & He & Hse)];
      [by exists g, l|].
    assert (e ∈ es) as Hes by by rewrite <- Hsoft.
    apply (IH e Hes).
    + intros c [Hc| ->%list_elem_of_singleton]%elem_of_app; [by apply Hcs|]. by eapply config_edges_ok.
    + apply NoDup_app. split; [done|]. split; [|apply NoDup_singleton].
      intros c Hc ->%list_elem_of_singleton. apply (soft_unsatisfied os g l g e (ex_orders _ _ _ _ Hex) Hg Hw He).
      assert (edge_lock e ∈ order_lock <$> os) as (o & Eo & Hin)%list_elem_of_fmap.
      { apply list_elem_of_lookup in Hc as [j Hj]. apply (ex_cover _ _ _ _ Hex j); [lia|done]. }
      unfold satisfies, queue_under. pose proof (orders_lookup t os (edge_lock e) (ex_orders _ _ _ _ Hex)) as Hl'.
      destruct (find_order os (edge_lock e)) as [o'|]; [|by destruct (Hl' o)].
      destruct Hl' as (Hin' & Eo' & _). apply (ex_sat _ _ _ _ Hex); [done..|by rewrite Eo'].
    + done.
    + intros c [Hc| ->%list_elem_of_singleton]%elem_of_app; [by apply Hs|done].
Qed.
End hard.

(** ** Runs of the lock table *)

(** Each process of the table stands at its number. *)
Definition numbered (t : lock_table) : Prop := ∀ p, pgprocno (pgproc (procs t p)) = p.

(** A request, a release and a cancellation (by timeout or signal) in the table. *)
Definition table_acquire (t : lock_table) (p l : nat) (m : Z) (dontWait : bool)
    : outcome (request_result * lock_table) :=
  '(r, lock) ← LockAcquireExtended (extension_lock t l) (pgproc (procs t p)) m dontWait (locks t l);
  Ok (r, set_lock l lock t).
Definition table_release (t : lock_table) (p l : nat) (m : Z) : outcome (bool * lock_table) :=
  '(b, lock) ← LockRelease (extension_lock t l) (pgproc (procs t p)) m (locks t l);
  Ok (b, set_lock l lock t).
Definition table_cancel (t : lock_table) (p l : nat) : outcome lock_table :=
  lock ← RemoveFromWaitQueue (extension_lock t l) (pgproc (procs t p)) (pgproc (procs t p)) (locks t l);
  Ok (set_lock l lock t).

Section runs.
Context (MaxBackends : nat).

(** No lock exists and no process waits; lock groups are as they are during a run. *)
Record initial (t : lock_table) : Prop := mkInitial {
  in_locks : ∀ l, locks t l = new_lock;
  in_wait : ∀ p, waitLock (procs t p) = None;
  in_numbered : numbered t;
  in_leader : ∀ p g, lockGroupLeader (pgproc (procs t p)) = Some g →
    lockGroupLeader (pgproc (procs t g)) = Some g ∧ p ∈ lockGroupMembers (procs t g);
  in_members : ∀ g p, p ∈ lockGroupMembers (procs t g) → lockGroupLeader (pgproc (procs t p)) = Some g;
  in_leaders : ∀ p, (p < MaxBackends)%nat → (group_leader t p < MaxBackends)%nat
}.

(** A process asks and releases when it does not wait; a waiting process is woken,
    cancelled, or runs the deadlock check. *)
Inductive table_step (t : lock_table) : lock_table → Prop :=
| ts_acquire p l m dontWait r t' :
    (p < MaxBackends)%nat → waitLock (procs t p) = None → m ∈ modes → ¬ held (locks t l) p m →
    table_acquire t p l m dontWait = Ok (r, t') → table_step t t'
| ts_release p l m b t' :
    waitLock (procs t p) = None → m ∈ modes → table_release t p l m = Ok (b, t') → table_step t t'
| ts_cancel p l t' :
    waitLock (procs t p) = Some l → table_cancel t p l = Ok t' → table_step t t'
| ts_check p st t' :
    CheckDeadLock MaxBackends p t = Ok (st, t') → table_step t t'.

Record run_ok (t : lock_table) : Prop := mkRunOk {
  ru_table : table_ok MaxBackends t;
  ru_locks : locks_ok t;
  ru_stuck : ∀ l, stuck (locks t l);
  ru_numbered : numbered t
}.

Lemma initial_ok t : initial t → run_ok t.
Proof.
  intros [Hl Hw Hn H1 H2 H3]. constructor; [constructor| | |done]; try done; intros l; rewrite ?Hl.
  - by intros w ?%not_elem_of_nil.
  - intros i Hi. by rewrite Hw in Hi.
  - constructor.
  - by intros pl ?%not_elem_of_nil.
  - intros i Hi. by rewrite Hw in Hi.
  - apply new_lock_ok.
  - by apply (new_lock_ok false).
Qed.

Lemma set_lock_numbered l lock t : numbered t → numbered (set_lock l lock t).
Proof.
  intros Hn p. cbn [set_lock procs]. destruct (list_find _ _) as [[i w]|] eqn:E.
  - by apply list_find_Some in E as (_ & ? & _).
  - case_bool_decide; apply Hn.
Qed.

Lemma apply_orders_numbered MyProc orders t t' : numbered t → apply_orders MyProc orders t = Ok t' → numbered t'.
Proof.
  revert t. induction orders as [|o os IH]; intros t Hn; cbn [apply_orders]; [by intros [= <-]|].
  destruct (ProcLockWakeup _ _ _) as [lk| |]; cbn [mbind outcome_bind]; try done.
  by apply IH, set_lock_numbered.
Qed.

(** What the lock manager may put into a lock of the table: backends, and waiters
    that wait for nothing else. *)
Definition table_waiter (t : lock_table) (l p : nat) (g : option nat) (m : Z) : Prop :=
  m ∈ modes ∧ ∃ w, pgprocno w = p ∧ lockGroupLeader w = g ∧ may_wait MaxBackends t l w.
Definition table_bound (t : lock_table) (l : nat) (lock : LOCK) : Prop :=
  within (λ p _, (p < MaxBackends)%nat) (λ _ _, True) (table_waiter t l) lock.

Lemma table_waiter_modes t l p g m : table_waiter t l p g m → True ∧ m ∈ modes.
Proof. by intros [? _]. Qed.

(** Replacing a lock object by one the lock manager made of it. *)
Lemma set_lock_run t l lock' : run_ok t → lock_ok (extension_lock t l) lock' → stuck lock' →
  table_bound t l lock' → run_ok (set_lock l lock' t).
Proof.
  intros [Hok Hl Hst Hn] Hlk Hs [Hp _ Hw]. constructor.
  - apply set_lock_table_ok; [done| |apply (inv_waiters _ _ _ _ Hlk)|by intros pl ?%Hp].
    intros w Hin. destruct (Hw w Hin) as (_ & v & E1 & E2 & Hv). unfold may_wait in *.
    by rewrite <- E1, <- E2.
  - intros i. rewrite set_lock_locks. case_decide; [by subst|apply Hl].
  - intros i. rewrite set_lock_locks. by case_decide.
  - by apply set_lock_numbered.
Qed.

Lemma run_bound t l : run_ok t → table_bound t l (locks t l).
Proof.
  intros [Hok Hl _ _]. constructor; [apply (tb_holders _ _ Hok)|done|]. intros w Hw. split.
  - by apply (inv_waiter _ _ _ _ (Hl l)).
  - exists w. split_and!; try done. by apply queue_may_wait.
Qed.

Lemma waiting_entry t p l : run_ok t → waitLock (procs t p) = Some l →
  pgproc (procs t p) ∈ waitProcs (locks t l) ∧ (p < MaxBackends)%nat.
Proof.
  intros [Hok _ _ _] Hl. destruct (tb_wait _ _ Hok p l Hl) as (w & Hw & <-).
  destruct (tb_queue _ _ Hok l w Hw) as [-> _]. split; [done|by eapply tb_waiters].
Qed.

Lemma idle_entry t p l : run_ok t → waitLock (procs t p) = None → p ∉ pgprocno <$> waitProcs (locks t l).
Proof.
  intros [Hok _ _ _] Hn (w & -> & Hw)%list_elem_of_fmap. destruct (tb_queue _ _ Hok l w Hw). congruence.
Qed.

Lemma acquire_run t p l m dontWait : run_ok t → (p < MaxBackends)%nat → waitLock (procs t p) = None →
  m ∈ modes → ¬ held (locks t l) p m →
  ∃ r t', table_acquire t p l m dontWait = Ok (r, t') ∧ run_ok t'.
Proof.
  intros Hr Hp Hw Hm Hh. pose proof (idle_entry t p l Hr Hw) as Hnq.
  pose proof (ru_numbered _ Hr p) as Hnum. rewrite <- Hnum in Hnq, Hh. unfold table_acquire.
  destruct (LockAcquire_spec (extension_lock t l) (pgproc (procs t p)) m dontWait (locks t l)
    (ru_locks _ Hr l) (ru_stuck _ Hr l) Hm Hnq Hh) as (r & lock' & E & Ha). rewrite E. cbn [mbind outcome_bind].
  do 2 eexists. split; [done|].
  eapply (acquire_within _ _ _ (table_waiter_modes t l)) in E; [|by apply run_bound|by rewrite Hnum|].
  - eapply set_lock_run; [done|apply Ha|apply Ha|exact E].
  - split; [done|]. exists (pgproc (procs t p)). split_and!; try done. unfold may_wait. rewrite Hnum.
    by split_and!; [..|right].
Qed.

Lemma release_run t p l m b t' : run_ok t → waitLock (procs t p) = None → m ∈ modes →
  table_release t p l m = Ok (b, t') → run_ok t'.
Proof.
  intros Hr Hw Hm. unfold table_release. pose proof (idle_entry t p l Hr Hw) as Hnq.
  rewrite <- (ru_numbered _ Hr p) in Hnq.
  destruct (LockRelease _ _ _ _) as [[b' lock']| |] eqn:E; cbn [mbind outcome_bind]; try done.
  intros [= <- <-]. pose proof (release_within _ _ _ (table_waiter_modes t l) _ _ _ _ _ _ (run_bound t l Hr) E) as Hin.
  assert (lock_ok (extension_lock t l) lock' ∧ stuck lock') as [? ?].
  { destruct (held_dec (locks t l) (pgprocno (pgproc (procs t p))) m) as [Hh|Hh].
    - destruct (LockRelease_spec _ _ _ _ (ru_locks _ Hr l) (ru_stuck _ Hr l) Hm Hnq Hh) as (lk & E' & []).
      rewrite E in E'. by injection E' as _ ->.
    - destruct (LockRelease_not_held _ _ _ _ _ _ (inv_procs _ _ _ _ (ru_locks _ Hr l)) Hh E) as [_ ->].
      split; apply Hr. }
  by apply set_lock_run.
Qed.

Lemma cancel_run t p l : run_ok t → waitLock (procs t p) = Some l →
  ∃ t', table_cancel t p l = Ok t' ∧ run_ok t'.
Proof.
  intros Hr Hl. destruct (waiting_entry t p l Hr Hl) as [Hw _]. unfold table_cancel.
  apply list_elem_of_split in Hw as (a & b & Eq).
  destruct (RemoveFromWaitQueue_spec _ (pgproc (procs t p)) _ _ a b (ru_locks _ Hr l) Eq)
    as (lock' & E & Hc & Hs). rewrite E. cbn [mbind outcome_bind]. eexists. split; [done|].
  apply set_lock_run; [done|apply Hc|done|].
  eapply (remove_within _ _ _ (table_waiter_modes t l)), E. by apply run_bound.
Qed.

Lemma DeadLockCheck_run MyProc t p : run_ok t → (p < MaxBackends)%nat →
  ∃ st w t', DeadLockCheck MaxBackends MyProc t p = Ok (st, w, t') ∧ run_ok t' ∧
    (∀ q, group_leader t' q = group_leader t q) ∧ check_result MaxBackends MyProc t p st w t'.
Proof.
  intros [Hok Hl Hs Hn] Hp.
  destruct (DeadLockCheck_spec MaxBackends MyProc t p Hok Hl Hp) as (st & w & t' & E & H1 & H2 & H3 & H4 & H5).
  exists st, w, t'. split; [done|]. split; [|done]. constructor; [done|done|by apply H4|].
  clear H5. unfold DeadLockCheck in E.
  destruct (DeadLockCheckRecurse _ _ _ _ _ _) as [[[] w1]| |]; cbn [mbind outcome_bind] in E; try done.
  - destruct (FindLockCycle _ _ _ _ _ _) as [[[] s]| |]; cbn [mbind outcome_bind] in E; try done.
    by injection E as _ _ <-.
  - destruct (apply_orders _ _ _) as [t1| |] eqn:Ea; cbn [mbind outcome_bind] in E; try done.
    injection E as _ _ <-. by eapply apply_orders_numbered.
Qed.

Lemma CheckDeadLock_run MyProc t : run_ok t →
  ∃ st t', CheckDeadLock MaxBackends MyProc t = Ok (st, t') ∧ run_ok t'.
Proof.
  intros Hr. unfold CheckDeadLock. destruct (waitLock (procs t MyProc)) as [l|] eqn:El; [|by exists None, t].
  destruct (waiting_entry t MyProc l Hr El) as [_ Hp].
  destruct (DeadLockCheck_run MyProc t MyProc Hr Hp) as (st & w & t' & -> & Hr' & _ & Hres).
  cbn [mbind outcome_bind]. destruct st; try (by do 2 eexists).
  destruct Hres as [-> _]. destruct (cancel_run t MyProc l Hr El) as (t' & E & Hr1).
  unfold table_cancel in E. destruct (RemoveFromWaitQueue _ _ _ _) as [lk| |]; cbn [mbind outcome_bind] in *; try done.
  injection E as <-. by do 2 eexists.
Qed.

Lemma table_step_ok t t' : table_step t t' → run_ok t → run_ok t'.
Proof.
  intros Hs Hr. destruct Hs as [p l m dw r t' Hp Hw Hm Hh E|p l m b t' Hw Hm E|p l t' Hw E|p st t' E].
  - destruct (acquire_run t p l m dw Hr Hp Hw Hm Hh) as (r' & t1 & E' & ?). rewrite E in E'. by injection E' as _ ->.
  - by eapply release_run.
  - destruct (cancel_run t p l Hr Hw) as (t1 & E' & ?). rewrite E in E'. by injection E' as ->.
  - destruct (CheckDeadLock_run p t Hr) as (st' & t1 & E' & ?). rewrite E in E'. by injection E' as _ ->.
Qed.

Lemma reachable_ok t0 t : initial t0 → rtc table_step t0 t → run_ok t.
Proof.
  intros Hi%initial_ok Hr. induction Hr as [|x y z Hs _ IH]; [done|]. apply IH. by eapply table_step_ok.
Qed.
End runs.

(** ** The properties *)

Section properties.
Context (MaxBackends MyProc : nat) (t0 t : lock_table).
Hypothesis (Hinitial : initial MaxBackends t0) (Hrun : rtc (table_step MaxBackends) t0 t).

(** C14. In every run of requests, releases, cancellations and deadlock checks, a
    process waits in the queue of at most one lock and exactly for the lock its
    entry names, rivals never hold conflicting modes of a lock, and every waiter
    has a reason to wait; the deadlock check of any process returns (no array of it
    overflows, neither of its two consistency errors can occur) and leaves such a
    table. *)
Theorem lock_table_safe :
  (∀ l l' w v, w ∈ waitProcs (locks t l) → v ∈ waitProcs (locks t l') → pgprocno w = pgprocno v →
     w = v ∧ l = l' ∧ waitLock (procs t (pgprocno w)) = Some l) ∧
  (∀ l a b m1 m2, a ∈ procLocks (locks t l) → b ∈ procLocks (locks t l) → rivals (extension_lock t l) a b →
     m1 ∈ modes → m2 ∈ modes → holds a m1 = true → holds b m2 = true →
     Z.testbit (LockConflicts m1) m2 = false) ∧
  (∀ l k w, waitProcs (locks t l) !! k = Some w → blocked (locks t l) (waitProcs (locks t l)) k w) ∧
  (∃ st t', CheckDeadLock MaxBackends MyProc t = Ok (st, t') ∧ run_ok MaxBackends t').
Proof.
  pose proof (reachable_ok MaxBackends t0 t Hinitial Hrun) as Hr. pose proof Hr as [Hok Hl Hs _].
  split_and!.
  - intros l l' w v Hw Hv E. destruct (queue_unique MaxBackends t Hok l l' w v Hw Hv E).
    split_and!; [done..|]. by apply (tb_queue _ _ Hok l w).
  - intros l a b m1 m2 Ha Hb Hab H1 H2. by apply (inv_exclusive _ _ _ _ (Hl l) a b).
  - intros l. apply Hs.
  - by apply CheckDeadLock_run.
Qed.

(** C4. The search for a cycle returns for every process, without writing behind
    its arrays, and is right in both directions: it returns true exactly when the
    process's lock group lies on a cycle of the waits-for graph. It then notes a
    cycle: the soft edges it returns are those of the cycle, and the i-th entry of
    the details names the lock, the mode and the process of the i-th edge. *)
Theorem FindLockCycle_correct (proc : nat) (autovac : option nat) :
  (proc < MaxBackends)%nat →
  ∃ found s, FindLockCycle MaxBackends MyProc t [] proc autovac = Ok (found, s) ∧
    (found = true ↔ on_cycle t [] (group_leader t proc)) ∧
    (found = true → ∃ l, l ≠ [] ∧ walk t [] (group_leader t proc) l (group_leader t proc) ∧
       softEdges s = soft_edges t (group_leader t proc) l ∧ nDeadlockDetails s = length l ∧
       ∀ i a, l !! i = Some a → deadlockDetails s !! i = Some (arc_info t a)).
Proof.
  intros Hp. destruct (reachable_ok MaxBackends t0 t Hinitial Hrun) as [Hok _ _ _].
  destruct (FindLockCycle_spec MaxBackends MyProc t [] (orders_entries _ _ Hok _ (empty_orders_ok t))
    (λ g a, arc_target_small _ _ Hok [] g a (empty_orders_ok t)) proc autovac) as (b & s & -> & Hb);
    [by apply (tb_leaders _ _ Hok)|].
  exists b, s. split; [done|]. destruct b.
  - destruct Hb as (l & Hl & Hw & _ & Hn & Hs & Hd). split; [|by intros _; exists l].
    split; [|done]. intros _. by exists l.
  - destruct Hb as [_ Hno]. by split; [split|].
Qed.

(** C3. The deadlock check returns for every process. Unless it reports a hard
    deadlock, the table it leaves, with queues rearranged and waiters woken, has no
    cycle through the process, and no group is on a cycle that was not on one
    before: a rearrangement never makes a new deadlock. Each queue is a
    rearrangement of the old one without the processes that were woken. When it
    reports a hard deadlock, the table is unchanged, the process is on a cycle, and
    the report names the processes of a cycle in order. *)
Theorem DeadLockCheck_resolves (proc : nat) :
  (proc < MaxBackends)%nat →
  ∃ st w t', DeadLockCheck MaxBackends MyProc t proc = Ok (st, w, t') ∧ run_ok MaxBackends t' ∧
    if bool_decide (st = DS_HARD_DEADLOCK) then
      t' = t ∧ ∃ l, l ≠ [] ∧ walk t [] (group_leader t proc) l (group_leader t proc) ∧
        DeadLockReport w =
          (λ i, a ← l !! i; b ← l !! ((i + 1) mod length l)%nat;
                Some (pid (procs t (arc_member a)), waitLockMode (pgproc (procs t (arc_member a))),
                      arc_lock a, pid (procs t (arc_member b)))) <$> seq 0 (length l)
    else
      (∀ l, ∃ q, q ≡ₚ waitProcs (locks t l) ∧ waitProcs (locks t' l) `sublist_of` q) ∧
      ¬ on_cycle t' [] (group_leader t proc) ∧
      (∀ g, group_leader t g = g → on_cycle t' [] g → on_cycle t [] g).
Proof.
  intros Hp. pose proof (reachable_ok MaxBackends t0 t Hinitial Hrun) as Hr.
  destruct (DeadLockCheck_run MaxBackends MyProc t proc Hr Hp) as (st & w & t' & E & Hr' & _ & Hres).
  exists st, w, t'. split; [done|]. split; [done|]. destruct st; cbn; try done.
  destruct Hres as (-> & _ & l & s & Hl & (Hw & _ & Hn & _ & Hd) & Ed & En). split; [done|].
  exists l. split; [done|]. split; [done|]. unfold DeadLockReport. rewrite Ed, En, Hn. cbn [Nat.add].
  apply list_fmap_ext. intros i j Hij. apply lookup_seq in Hij as [-> Hi].
  destruct (lookup_lt_is_Some_2 l (0 + i)%nat) as [a Ha]; [lia|]. cbn [Nat.add] in *.
  rewrite (Hd i a Ha), Ha. cbn [mbind option_bind].
  assert ((if bool_decide (S i < length l)%nat then S i else 0%nat) = ((i + 1) mod length l)%nat) as ->.
  { case_bool_decide as Hlt; [by rewrite Nat.mod_small by lia; lia|].
    replace (i + 1)%nat with (length l) by lia. by rewrite Nat.Div0.mod_same. }
  destruct (lookup_lt_is_Some_2 l ((i + 1) mod length l)%nat) as [b Hb]; [apply Nat.mod_upper_bound; lia|].
  by rewrite (Hd _ b Hb), Hb.
Qed.

(** C5. A hard deadlock is one no order of the wait queues avoids: without lock
    groups, and as long as the square of the number of waiting processes is below
    [MaxBackends], so that the room for constraints suffices, a report of a hard
    deadlock means that every way to reorder the queues leaves a cycle. *)
Theorem hard_deadlock_unavoidable (proc : nat) (waiting : list nat) (w : work) (t' : lock_table)
    (orders : list WAIT_ORDER) :
  (proc < MaxBackends)%nat →
  (∀ p, lockGroupLeader (pgproc (procs t p)) = None) →
  (∀ p l, waitLock (procs t p) = Some l → p ∈ waiting) →
  (length waiting * length waiting < MaxBackends)%nat →
  DeadLockCheck MaxBackends MyProc t proc = Ok (DS_HARD_DEADLOCK, w, t') →
  (∀ o, o ∈ orders → order_procs o ≡ₚ waitProcs (locks t (order_lock o))) →
  NoDup (order_lock <$> orders) →
  ∃ g, on_cycle t orders g.
Proof.
  intros Hp Hng Hwait Hlen E Hperm Hnd. pose proof (reachable_ok MaxBackends t0 t Hinitial Hrun) as Hr.
  pose proof (ru_table _ _ Hr) as Hok.
  destruct (DeadLockCheck_run MaxBackends MyProc t proc Hr Hp) as (st & w1 & t1 & E' & _ & _ & Hres).
  rewrite E in E'. injection E' as <- <- <-. destruct Hres as (_ & Hf & _).
  eapply (fails_unavoidable MaxBackends MyProc t proc Hok) with (ps := waiting) (cs := []); try done.
  - by apply (tb_leaders _ _ Hok).
  - by intros c ?%not_elem_of_nil.
  - constructor.
  - constructor; [done| |done]. intros o Ho i j k a b c Hij Hjk Hi Hj Hk Eac.
    assert (∀ n x, order_procs o !! n = Some x → x ∈ waitProcs (locks t (order_lock o))) as Hq.
    { intros n x Hx. rewrite <- (Hperm o Ho). by eapply list_elem_of_lookup_2. }
    rewrite (no_groups_leader MaxBackends t Hok Hng _ a (Hq i a Hi)),
      (no_groups_leader MaxBackends t Hok Hng _ c (Hq k c Hk)) in Eac.
    assert (i = k); [|lia]. eapply (NoDup_lookup (pgprocno <$> order_procs o)).
    + rewrite (Hperm o Ho). apply (tb_nodup _ _ Hok).
    + by rewrite list_lookup_fmap, Hi.
    + by rewrite list_lookup_fmap, Hk; cbn; rewrite Eac.
  - by intros c ?%not_elem_of_nil.
Qed.
End properties.

(** ** Two deadlocks *)

(** Processes with equal ranks and without groups, no lock taken. *)
Definition demo_start : lock_table :=
  mkTable (λ _, false) (λ _, new_lock)
    (λ p, mkEntry (mkProc p (5#1) 0 0 0 None) None [] (100 + Z.of_nat p) false).

(** A request that is granted or waits. *)
Definition demo_acquire (p l : nat) (m : Z) (t : lock_table) : lock_table :=
  match table_acquire t p l m false with Ok (_, t') => t' | _ => t end.

Definition may_ask (p l : nat) (m : Z) (t : lock_table) : bool :=
  bool_decide (waitLock (procs t p) = None) && bool_decide (m ∈ modes) &&
  forallb (λ pl, negb (Nat.eqb (myProc pl) p && holds pl m)) (procLocks (locks t l)).

Lemma demo_initial : initial 5 demo_start.
Proof. constructor; try done. by intros g p ?%not_elem_of_nil. Qed.

Lemma demo_acquire_step t p l m : rtc (table_step 5) demo_start t → (p < 5)%nat →
  may_ask p l m t = true → rtc (table_step 5) demo_start (demo_acquire p l m t).
Proof.
  intros Hr Hp [[Hw%bool_decide_eq_true Hm%bool_decide_eq_true]%andb_prop Hh]%andb_prop.
  assert (¬ held (locks t l) p m) as Hn.
  { intros (pl & Hpl & E & Hm'). rewrite forallb_forall in Hh. apply list_elem_of_In in Hpl.
    specialize (Hh pl Hpl). by rewrite E, Nat.eqb_refl, Hm' in Hh. }
  destruct (acquire_run 5 t p l m false (reachable_ok 5 _ _ demo_initial Hr) Hp Hw Hm Hn) as (r & t' & E & _).
  eapply rtc_r; [exact Hr|]. unfold demo_acquire. rewrite E. by eapply ts_acquire.
Qed.

(** Processes 0 and 1 each hold one of two locks and wait for the other's. *)
Definition demo_hard : lock_table :=
  demo_acquire 1 0 ExclusiveLock (demo_acquire 0 1 ExclusiveLock
    (demo_acquire 1 1 ExclusiveLock (demo_acquire 0 0 ExclusiveLock demo_start))).

(** Process 2 waits for a share lock process 0 also holds, behind process 1 that
    wants it exclusively; process 0 waits for process 2. *)
Definition demo_soft : lock_table :=
  demo_acquire 0 2 ExclusiveLock (demo_acquire 2 0 ShareLock (demo_acquire 1 0 AccessExclusiveLock
    (demo_acquire 2 2 ExclusiveLock (demo_acquire 0 0 ShareLock demo_start)))).

Lemma demo_hard_run : rtc (table_step 5) demo_start demo_hard.
Proof. repeat (apply demo_acquire_step; [|lia|by vm_compute]). apply rtc_refl. Qed.

Lemma demo_soft_run : rtc (table_step 5) demo_start demo_soft.
Proof. repeat (apply demo_acquire_step; [|lia|by vm_compute]). apply rtc_refl. Qed.

Definition check_summary (t : lock_table) (p : nat)
    : outcome (DeadLockState * list (option (Z * Z * nat * Z)) * list (list nat)) :=
  '(st, w, t') ← DeadLockCheck 5 p t p;
  Ok (st, DeadLockReport w, (λ l, pgprocno <$> waitProcs (locks t' l)) <$> [0; 1; 2]%nat).

(** The first is hard and reported with both waits. In the second, process 2 goes
    ahead of process 1 and is woken. *)
Example hard_deadlock_reported : check_summary demo_hard 0 =
  Ok (DS_HARD_DEADLOCK, [Some (100, ExclusiveLock, 1%nat, 101); Some (101, ExclusiveLock, 0%nat, 100)],
      [[1]; [0]; []]%nat).
Proof. vm_compute. reflexivity. Qed.

Example soft_deadlock_resolved : (λ '(st, _, queues), (st, queues)) <$> 
  match check_summary demo_soft 0 with Ok r => Some r | _ => None end =
  Some (DS_SOFT_DEADLOCK, [[1]; []; [0]]%nat).
Proof. vm_compute. reflexivity. Qed.

Lemma lock_table_safe_witness :
  (∀ l k w, waitProcs (locks demo_hard l) !! k = Some w →
     blocked (locks demo_hard l) (waitProcs (locks demo_hard l)) k w) ∧
  (∃ st t', CheckDeadLock 5 1 demo_hard = Ok (st, t') ∧ run_ok 5 t').
Proof.
  destruct (lock_table_safe 5 1 demo_start demo_hard demo_initial demo_hard_run) as (_ & _ & H3 & H4).
  by split.
Defined.

Lemma FindLockCycle_correct_witness :
  on_cycle demo_soft [] 0 ∧ ¬ on_cycle demo_soft [] 3.
Proof.
  split.
  - destruct (FindLockCycle_correct 5 0 demo_start demo_soft demo_initial demo_soft_run 0 None)
      as (b & s & E & Hb & _); [lia|]. vm_compute in E. injection E as <- _. by apply Hb.
  - destruct (FindLockCycle_correct 5 3 demo_start demo_soft demo_initial demo_soft_run 3 None)
      as (b & s & E & Hb & _); [lia|]. vm_compute in E. injection E as <- _. by rewrite <- Hb.
Defined.

Lemma DeadLockCheck_resolves_witness :
  ∃ w t', DeadLockCheck 5 0 demo_soft 0 = Ok (DS_SOFT_DEADLOCK, w, t') ∧ ¬ on_cycle t' [] 0.
Proof.
  destruct (DeadLockCheck_resolves 5 0 demo_start demo_soft demo_initial demo_soft_run 0)
    as (st & w & t' & E & _ & H); [lia|].
  pose proof soft_deadlock_resolved as Hs. unfold check_summary in Hs. rewrite E in Hs.
  cbn in Hs. injection Hs as -> _ _ _. exists w, t'. split; [exact E|]. apply H.
Defined.

Lemma hard_deadlock_unavoidable_witness :
  ∃ g, on_cycle demo_hard [mkOrder 0 (waitProcs (locks demo_hard 0))] g.
Proof.
  destruct (DeadLockCheck 5 0 demo_hard 0) as [[[st w] t']| |] eqn:E.
  - pose proof hard_deadlock_reported as Hs. unfold check_summary in Hs. rewrite E in Hs.
    injection Hs as -> _ _.
    apply (hard_deadlock_unavoidable 5 0 demo_start demo_hard demo_initial demo_hard_run 0
      [0; 1]%nat w t'); [lia| | |vm_compute; lia|exact E| |].
    + intros p. do 5 (destruct p as [|p]; [by vm_compute|]). by vm_compute.
    + intros p l Hw. destruct p as [|[|p]]; [left|right; left|]. by vm_compute in Hw.
    + by intros o ->%list_elem_of_singleton.
    + apply NoDup_singleton.
  - by vm_compute in E.
  - by vm_compute in E.
Defined.

(** ** Locks of prepared transactions *)

(** A prepared transaction holds its locks by a dummy process behind the backends in
    the array of processes. The search enters it in [visitedProcs], which has room
    for [MaxBackends] processes only: with all backends waiting, the search writes
    behind the array. *)
Definition prepared_table : lock_table :=
  mkTable (λ _, false)
    (λ _, mkLock (Z.shiftl 1 ExclusiveLock) (Z.shiftl 1 ExclusiveLock)
            [mkProcLock 1 1 (Z.shiftl 1 ExclusiveLock); mkProcLock 0 0 0]
            [mkProc 0 (5#1) 0 0 ExclusiveLock None] 2 (upd (λ _, 0) ExclusiveLock 2)
            1 (upd (λ _, 0) ExclusiveLock 1))
    (λ p, mkEntry (mkProc p (5#1) 0 0 ExclusiveLock None)
            (if bool_decide (p = 0%nat) then Some 0%nat else None) [] 0 false).

Lemma prepared_transaction_overflow :
  FindLockCycle 1 0 prepared_table [] 0 None = Ub "write behind visitedProcs".
Proof. vm_compute. reflexivity. Qed.
