(* ===== verification/Xact.v ===== *)
(** * NRAM transactions

    Models [nr_am/src/nram_xact/xact.c]: the transaction state of a backend with
    its read set and write set, the advisory locks of the validation, the
    transaction callback that validates and writes at commit, and the feature
    and action of the learned concurrency control.

    What a backend keeps for itself is the state [backend]. What it shares with
    the others (rows of the storage service, heavyweight locks) is reached only
    by the operations of [prog]: a backend's code is a tree whose nodes are
    these operations, so that the same definition can run alone or
    interleaved with other backends ([Serial]). *)
From S2P Require Import Prelude Kv Action Lock.
From Stdlib Require Import ZArith Lia QArith.
From stdpp Require Import base strings gmap numbers list sorting.

Open Scope Z_scope.

(** ** Shared operations *)

Inductive LOCKTAG :=
| LOCKTAG_RELATION (reloid : Z)
| LOCKTAG_TUPLE (reloid blocknum offnum : Z)
| LOCKTAG_ADVISORY (field1 field2 : Z).
#[export] Instance LOCKTAG_eq_dec : EqDecision LOCKTAG.
Proof. solve_decision. Defined.

Inductive LockAcquireResult :=
| LOCKACQUIRE_NOT_AVAIL | LOCKACQUIRE_OK | LOCKACQUIRE_ALREADY_HELD | LOCKACQUIRE_ALREADY_CLEAR.
#[export] Instance LockAcquireResult_eq_dec : EqDecision LockAcquireResult.
Proof. solve_decision. Defined.

(** A program of a backend: each node is one call on shared state, its
    continuation takes the answer. *)
Inductive prog (R : Type) : Type :=
| Ret (r : R)
| DoLock (tag : LOCKTAG) (mode : Z) (dontWait : bool) (k : LockAcquireResult → prog R)
| DoUnlock (tag : LOCKTAG) (mode : Z) (k : bool → prog R)
| DoGet (key : NRAMKeyData) (k : option NRAMValueData → prog R)
| DoPut (key : NRAMKeyData) (value : NRAMValueData) (k : bool → prog R)
| DoScan (min max : NRAMKeyData) (k : option (list (NRAMKeyData * NRAMValueData)) → prog R).
Arguments Ret {R} r.
Arguments DoLock {R} tag mode dontWait k.
Arguments DoUnlock {R} tag mode k.
Arguments DoGet {R} key k.
Arguments DoPut {R} key value k.
Arguments DoScan {R} min max k.

Fixpoint pbind {R T} (p : prog R) (f : R → prog T) : prog T :=
  match p with
  | Ret r => f r
  | DoLock tag mode dw k => DoLock tag mode dw (λ a, pbind (k a) f)
  | DoUnlock tag mode k => DoUnlock tag mode (λ a, pbind (k a) f)
  | DoGet key k => DoGet key (λ a, pbind (k a) f)
  | DoPut key v k => DoPut key v (λ a, pbind (k a) f)
  | DoScan lo hi k => DoScan lo hi (λ a, pbind (k a) f)
  end.

(** Code of a backend with state [S]; after an error the state stays as the
    code left it. *)
Definition X (S A : Type) : Type := S → prog (outcome A * S).

Definition x_then {S A B} (f : A → X S B) (r : outcome A * S) : prog (outcome B * S) :=
  match r with
  | (Ok a, s) => f a s
  | (Raise e, s) => Ret (Raise e, s)
  | (Ub e, s) => Ret (Ub e, s)
  end.

#[export] Instance X_ret {S} : MRet (X S) := λ A a s, Ret (Ok a, s).
#[export] Instance X_bind {S} : MBind (X S) := λ A B f m s, pbind (m s) (x_then f).

Definition local {S A} (m : M S A) : X S A := λ s, Ret (m s).
Definition xraise {S A} (msg : string) : X S A := λ s, Ret (Raise msg, s).
Definition LockAcquire {S} (tag : LOCKTAG) (mode : Z) (dontWait : bool) : X S LockAcquireResult :=
  λ s, DoLock tag mode dontWait (λ r, Ret (Ok r, s)).
Definition LockReleaseTag {S} (tag : LOCKTAG) (mode : Z) : X S bool :=
  λ s, DoUnlock tag mode (λ r, Ret (Ok r, s)).
Definition ClientGet {S} (key : NRAMKeyData) : X S (option NRAMValueData) :=
  λ s, DoGet key (λ r, Ret (Ok r, s)).
Definition ClientPut {S} (key : NRAMKeyData) (value : NRAMValueData) : X S bool :=
  λ s, DoPut key value (λ r, Ret (Ok r, s)).
Definition ClientRangeScan {S} (lo hi : NRAMKeyData)
    : X S (option (list (NRAMKeyData * NRAMValueData))) :=
  λ s, DoScan lo hi (λ r, Ret (Ok r, s)).

(** [foreach] over a list. *)
Fixpoint xfor {S A} (f : A → X S unit) (l : list A) : X S unit :=
  match l with
  | [] => mret tt
  | x :: l => f x ≫= λ _, xfor f l
  end.

(** ** State *)

Inductive XactOpType := XACT_OP_READ | XACT_OP_WRITE | XACT_OP_DELETE | XACT_OP_INSERT | XACT_OP_SCAN.

Record NRAMXactOptData := mkOpt {
  opt_type : XactOpType;
  opt_xact_id : Z;
  opt_key : NRAMKeyData;
  opt_value : NRAMValueData
}.

Inductive CmdType := CMD_UNKNOWN | CMD_SELECT | CMD_UPDATE | CMD_INSERT | CMD_DELETE | CMD_MERGE
  | CMD_UTILITY | CMD_NOTHING | CMD_PREDICT.
#[export] Instance CmdType_eq_dec : EqDecision CmdType.
Proof. solve_decision. Defined.

Definition NRAM_CMD_STACK_MAX : Z := 8.

(** [action] points into the shared policy table: it is the index of its entry.
    The member [begin_ts] is never used. *)
Record NRAMXactStateData := mkXact {
  xs_xact_id : Z;
  validated : bool;
  feature : option XactFeatureData;
  action : option Z;
  cur_cmdtype : CmdType;
  cmdtype_depth : Z;
  cmdtype_stack : list CmdType;
  read_set : list NRAMXactOptData;
  write_set : list NRAMXactOptData
}.

(** What a backend keeps: the identifier [GetTopTransactionId] returns, whether
    the callback is registered and how often, the current NRAM transaction, the
    lock timeout, the rank and dependency count of its [PGPROC], its isolation
    level, the policy table it is attached to, its process id and the counter of
    its row identifiers. *)
Record backend := mkBackend {
  top_xid : Z;
  xact_hook_registered : bool;
  xact_callbacks : Z;
  current_nram_xact : option NRAMXactStateData;
  LockTimeout : Z;
  MyProc_rank : Q;
  MyProc_nDep : Z;
  IsolationIsSerializable : bool;
  GlobalCachedAgentFunc : CachedAgentFunc;
  MyProcPid : Z;
  local_tid_seq : Z
}.

Definition InvalidTransactionId : Z := 0.

Definition with_xact (x : option NRAMXactStateData) (b : backend) : backend :=
  mkBackend (top_xid b) (xact_hook_registered b) (xact_callbacks b) x (LockTimeout b)
    (MyProc_rank b) (MyProc_nDep b) (IsolationIsSerializable b) (GlobalCachedAgentFunc b)
    (MyProcPid b) (local_tid_seq b).
Definition with_timeout (t : Z) (b : backend) : backend :=
  mkBackend (top_xid b) (xact_hook_registered b) (xact_callbacks b) (current_nram_xact b) t
    (MyProc_rank b) (MyProc_nDep b) (IsolationIsSerializable b) (GlobalCachedAgentFunc b)
    (MyProcPid b) (local_tid_seq b).
Definition with_hook (reg : bool) (n : Z) (b : backend) : backend :=
  mkBackend (top_xid b) reg n (current_nram_xact b) (LockTimeout b)
    (MyProc_rank b) (MyProc_nDep b) (IsolationIsSerializable b) (GlobalCachedAgentFunc b)
    (MyProcPid b) (local_tid_seq b).
Definition with_rank_timeout (r : Q) (t : Z) (b : backend) : backend :=
  mkBackend (top_xid b) (xact_hook_registered b) (xact_callbacks b) (current_nram_xact b) t
    r (MyProc_nDep b) (IsolationIsSerializable b) (GlobalCachedAgentFunc b)
    (MyProcPid b) (local_tid_seq b).
Definition with_seq (seq : Z) (b : backend) : backend :=
  mkBackend (top_xid b) (xact_hook_registered b) (xact_callbacks b) (current_nram_xact b)
    (LockTimeout b) (MyProc_rank b) (MyProc_nDep b) (IsolationIsSerializable b)
    (GlobalCachedAgentFunc b) (MyProcPid b) seq.

Definition with_sets (rs ws : list NRAMXactOptData) (x : NRAMXactStateData) : NRAMXactStateData :=
  mkXact (xs_xact_id x) (validated x) (feature x) (action x) (cur_cmdtype x) (cmdtype_depth x)
    (cmdtype_stack x) rs ws.
Definition with_validated (v : bool) (x : NRAMXactStateData) : NRAMXactStateData :=
  mkXact (xs_xact_id x) v (feature x) (action x) (cur_cmdtype x) (cmdtype_depth x)
    (cmdtype_stack x) (read_set x) (write_set x).

(** ** The current transaction *)

Definition NewNRAMXactState (xid : Z) : option NRAMXactStateData :=
  if xid =? InvalidTransactionId then None
  else Some (mkXact xid false None None CMD_UNKNOWN 0 (replicate 8 CMD_UNKNOWN) [] []).

Definition refresh_nram_xact : M backend unit := λ b,
  let xid := top_xid b in
  match current_nram_xact b with
  | Some x => if xs_xact_id x =? xid then (Ok tt, b) else (Ok tt, with_xact (NewNRAMXactState xid) b)
  | None => (Ok tt, with_xact (NewNRAMXactState xid) b)
  end.

(** The state is reached through the static variable: a caller that reads a
    member of a NULL state dereferences NULL. *)
Definition GetCurrentNRAMXact : M backend NRAMXactStateData := λ b,
  let '(_, b) := refresh_nram_xact b in
  match current_nram_xact b with
  | Some x => (Ok x, b)
  | None => (Ub "member of a NULL transaction state", b)
  end.

Definition set_xact (x : NRAMXactStateData) : M backend unit := λ b, (Ok tt, with_xact (Some x) b).

Definition clear_nram_xact : M backend unit := λ b, (Ok tt, with_xact None b).

(** The entry of the policy table [state->action] points to. *)
Definition deref_action (x : NRAMXactStateData) (b : backend) : outcome CCActionData :=
  match action x, GlobalCachedAgentFunc b with
  | Some i, Some act =>
      match act !! Z.to_nat i with Some a => Ok a | None => Ub "action outside the table" end
  | _, _ => Ub "state->action is NULL"
  end.

Definition nram_for_modify (x : NRAMXactStateData) : bool :=
  match cur_cmdtype x with CMD_UPDATE | CMD_DELETE | CMD_INSERT => true | _ => false end.
Definition nram_for_read (x : NRAMXactStateData) : bool :=
  match cur_cmdtype x with CMD_SELECT => true | _ => false end.

(** ** Locks *)

Definition LockRelation {S} (reloid mode : Z) : X S unit :=
  LockAcquire (LOCKTAG_RELATION reloid) mode false ≫= λ _, mret tt.
Definition LockTuple {S} (reloid : Z) (p : Tid.ItemPointerData) (mode : Z) : X S unit :=
  LockAcquire (LOCKTAG_TUPLE reloid (Tid.BlockIdGetBlockNumber p) (Tid.ip_posid p)) mode false
    ≫= λ _, mret tt.

Definition nram_lock_for_scan {S} (reloid : Z) : X S unit := LockRelation reloid AccessShareLock.
Definition nram_lock_for_write {S} (reloid : Z) (p : Tid.ItemPointerData) : X S unit :=
  LockRelation reloid RowExclusiveLock ≫= λ _, LockTuple reloid p ExclusiveLock.
Definition nram_lock_for_read {S} (reloid : Z) (p : Tid.ItemPointerData) : X S unit :=
  LockRelation reloid AccessShareLock ≫= λ _, LockTuple reloid p ShareLock.

Definition nram_lockmode_name (mode : Z) : string :=
  match mode with
  | 1 => "AccessShareLock" | 2 => "RowShareLock" | 3 => "RowExclusiveLock"
  | 4 => "ShareUpdateExclusiveLock" | 5 => "ShareLock" | 6 => "ShareRowExclusiveLock"
  | 7 => "ExclusiveLock" | 8 => "AccessExclusiveLock" | 0 => "NoLock" | _ => "UnknownLock"
  end.

(** [SET_LOCKTAG_ADVISORY(tag, key->tableOid, key->tid, 0, 0)]: the fields of a
    lock tag have 32 bits. *)
Definition advisory_tag (key : NRAMKeyData) : LOCKTAG :=
  LOCKTAG_ADVISORY (u32 (tableOid key)) (u32 (tid key)).

Definition nram_validation_lock (key : NRAMKeyData) (mode : Z) : X backend unit :=
  prev ← local (λ b, (Ok (LockTimeout b), with_timeout 0 b));
  res ← LockAcquire (advisory_tag key) mode false;
  if bool_decide (res = LOCKACQUIRE_NOT_AVAIL) then xraise "Failed to acquire advisory lock"
  else local (modify_st (with_timeout prev)).

Definition nram_validation_release (key : NRAMKeyData) (mode : Z) : X backend bool :=
  LockReleaseTag (advisory_tag key) mode.

Definition nram_try_validation_lock (key : NRAMKeyData) (mode : Z) : X backend LockAcquireResult :=
  LockAcquire (advisory_tag key) mode true.

(** ** Read set and write set *)

Definition nram_opt_cmp (a b : NRAMXactOptData) : Z :=
  if negb (tableOid (opt_key a) =? tableOid (opt_key b)) then
    if tableOid (opt_key a) <? tableOid (opt_key b) then -1 else 1
  else if tid (opt_key a) <? tid (opt_key b) then -1
  else if tid (opt_key b) <? tid (opt_key a) then 1
  else 0.

(** [list_sort(list, nram_opt_cmp)]. *)
Definition opt_le (a b : NRAMXactOptData) : Prop := nram_opt_cmp a b ≤ 0.
#[export] Instance opt_le_dec a b : Decision (opt_le a b) := decide (nram_opt_cmp a b ≤ 0).
Definition list_sort (l : list NRAMXactOptData) : list NRAMXactOptData := merge_sort opt_le l.

Definition nram_key_equal (k1 k2 : NRAMKeyData) : bool :=
  (tableOid k1 =? tableOid k2) && (tid k1 =? tid k2).

Fixpoint find_set (l : list NRAMXactOptData) (key : NRAMKeyData) : option NRAMXactOptData :=
  match l with
  | [] => None
  | opt :: l => if nram_key_equal (opt_key opt) key then Some opt else find_set l key
  end.

Definition find_write_set (x : NRAMXactStateData) (key : NRAMKeyData) : option NRAMXactOptData :=
  find_set (write_set x) key.
Definition find_read_set (x : NRAMXactStateData) (key : NRAMKeyData) : option NRAMXactOptData :=
  find_set (read_set x) key.

Definition add_read_set (x : NRAMXactStateData) (key : NRAMKeyData) (value : NRAMValueData)
    : outcome NRAMXactStateData :=
  v ← copy_nram_value value;
  let opt := mkOpt XACT_OP_READ (xact_id value) (copy_nram_key key) v in
  Ok (with_sets (read_set x ++ [opt]) (write_set x) x).

(** Replace the value of the first entry for the key. *)
Fixpoint set_value (l : list NRAMXactOptData) (key : NRAMKeyData) (v : NRAMValueData)
    : list NRAMXactOptData :=
  match l with
  | [] => []
  | opt :: l =>
      if nram_key_equal (opt_key opt) key
      then mkOpt (opt_type opt) (opt_xact_id opt) (opt_key opt) v :: l
      else opt :: set_value l key v
  end.

Definition add_write_set (x : NRAMXactStateData) (key : NRAMKeyData) (value : NRAMValueData)
    : outcome NRAMXactStateData :=
  v ← copy_nram_value value;
  match find_write_set x key with
  | None =>
      let opt := mkOpt XACT_OP_WRITE (xs_xact_id x) (copy_nram_key key) v in
      Ok (with_sets (read_set x) (write_set x ++ [opt]) x)
  | Some _ => Ok (with_sets (read_set x) (set_value (write_set x) key v) x)
  end.

Definition read_own_write (x : NRAMXactStateData) (key : NRAMKeyData)
    : outcome (option NRAMValueData) :=
  match find_write_set x key with
  | None => Ok None
  | Some opt => v ← copy_nram_value (opt_value opt); Ok (Some v)
  end.

Definition read_own_read (x : NRAMXactStateData) (key : NRAMKeyData)
    : outcome (option NRAMValueData) :=
  match find_read_set x key with
  | None => Ok None
  | Some opt => v ← copy_nram_value (opt_value opt); Ok (Some v)
  end.

(** [read_own_write(...) || read_own_read(...)]. *)
Definition read_own (x : NRAMXactStateData) (key : NRAMKeyData) : outcome (option NRAMValueData) :=
  o ← read_own_write x key;
  match o with Some v => Ok (Some v) | None => read_own_read x key end.

(** ** The transaction callback *)

Inductive XactEvent :=
| XACT_EVENT_COMMIT | XACT_EVENT_PARALLEL_COMMIT | XACT_EVENT_ABORT | XACT_EVENT_PARALLEL_ABORT
| XACT_EVENT_PREPARE | XACT_EVENT_PRE_COMMIT | XACT_EVENT_PARALLEL_PRE_COMMIT
| XACT_EVENT_PRE_PREPARE.

(** One entry of the read set: peek at the lock, compare the version. *)
Definition validate_version (opt : NRAMXactOptData) (r : LockAcquireResult) : X backend unit :=
  cur_val ← ClientGet (opt_key opt);
  match cur_val with
  | None => xraise "validation failed: invisible key"
  | Some cur_val =>
      if negb (xact_id cur_val =? opt_xact_id opt) then
        xraise "Transaction aborted during read set validation."
      else if bool_decide (r = LOCKACQUIRE_OK) then
        nram_validation_release (opt_key opt) ShareLock ≫= λ _, mret tt
      else mret tt
  end.

Definition validate_read (opt : NRAMXactOptData) : X backend unit :=
  r ← nram_try_validation_lock (opt_key opt) ShareLock;
  if bool_decide (r = LOCKACQUIRE_NOT_AVAIL) then
    xraise "Transaction aborted during read set validation."
  else validate_version opt r.

(** One entry of the write set: the result of the put is not looked at. *)
Definition flush_write (opt : NRAMXactOptData) : X backend unit :=
  ClientPut (opt_key opt) (opt_value opt) ≫= λ _,
  nram_validation_release (opt_key opt) ExclusiveLock ≫= λ _, mret tt.

Definition lock_write (opt : NRAMXactOptData) : X backend unit :=
  nram_validation_lock (opt_key opt) ExclusiveLock.

(** The validation up to the decision to commit. *)
Definition validate_reads (serializable : bool) (rs : list NRAMXactOptData) : X backend unit :=
  if serializable then xfor validate_read rs else mret tt.

Definition mark_validated : M backend unit := λ b,
  (Ok tt, with_xact (with_validated true <$> current_nram_xact b) b).

(** The deferred writes. *)
Definition commit_writes (ws : list NRAMXactOptData) : X backend unit :=
  local mark_validated ≫= λ _, xfor flush_write ws.

(** The part of the commit after the write set is locked. *)
Definition validate_and_write (rs ws : list NRAMXactOptData) : X backend unit :=
  local (λ b, (Ok (IsolationIsSerializable b), b)) ≫= λ serializable,
  validate_reads serializable rs ≫= λ _, commit_writes ws.

Definition pre_commit (x : NRAMXactStateData) : X backend unit :=
  if validated x then xraise "The transaction has already been validated before."
  else
    let ws := list_sort (write_set x) in
    local (set_xact (with_sets (read_set x) ws x)) ≫= λ _,
    xfor lock_write ws ≫= λ _, validate_and_write (read_set x) ws.

Definition nram_xact_callback (event : XactEvent) : X backend unit := λ b,
  match current_nram_xact b with
  | None => Ret (Ok tt, b)
  | Some _ =>
      (local GetCurrentNRAMXact ≫= λ x,
       match event with
       | XACT_EVENT_PRE_COMMIT => pre_commit x
       | XACT_EVENT_ABORT | XACT_EVENT_COMMIT => local clear_nram_xact
       | _ => mret tt
       end) b
  end.

Definition nram_register_xact_hook : M backend unit := λ b,
  if xact_hook_registered b then (Ok tt, b)
  else (Ok tt, with_hook true (xact_callbacks b + 1) b).

(** [UnregisterXactCallback] removes one registration, if there is one. *)
Definition nram_unregister_xact_hook : M backend unit := λ b,
  if xact_hook_registered b then (Ok tt, b)
  else (Ok tt, with_hook false (Z.max 0 (xact_callbacks b - 1)) b).

Fixpoint validate_read_set (rs : list NRAMXactOptData) : X backend bool :=
  match rs with
  | [] => mret true
  | opt :: rs =>
      ClientGet (opt_key opt) ≫= λ cur_val,
      match cur_val with
      | None => mret false
      | Some cur_val =>
          if negb (xact_id cur_val =? opt_xact_id opt) then mret false else validate_read_set rs
      end
  end.

(** ** Before each statement *)

Definition next_feature (x : NRAMXactStateData) (ndep : Z) : XactFeatureData :=
  match feature x with
  | None => mkFeature 0 0 (u16 ndep)
  | Some f =>
      mkFeature (u32 (n_access f + 1)) (if nram_for_modify x then UPDATE_OPT else cur_op f) (u16 ndep)
  end.

Definition before_access : M backend unit := λ b,
  match current_nram_xact b with
  | None => (Ub "member of a NULL transaction state", b)
  | Some x =>
      let f := next_feature x (MyProc_nDep b) in
      let x' := mkXact (xs_xact_id x) (validated x) (Some f) (action x) (cur_cmdtype x)
                  (cmdtype_depth x) (cmdtype_stack x) (read_set x) (write_set x) in
      match get_action (Some f) (GlobalCachedAgentFunc b) with
      | Ok a =>
          let x'' := mkXact (xs_xact_id x) (validated x) (Some f) (Some (encode_feature_10bit f))
                       (cur_cmdtype x) (cmdtype_depth x) (cmdtype_stack x) (read_set x)
                       (write_set x) in
          (Ok tt, with_rank_timeout (priority a) (sint 32 (timeout a)) (with_xact (Some x'') b))
      | Raise e => (Raise e, with_xact (Some x') b)
      | Ub e => (Ub e, with_xact (Some x') b)
      end
  end.

(** ** Sets as maps *)

Lemma nram_key_equal_spec k1 k2 : nram_key_equal k1 k2 = true ↔ k1 = k2.
Proof.
  unfold nram_key_equal. destruct k1 as [a b], k2 as [c d]. cbn.
  rewrite andb_true_iff, !Z.eqb_eq. naive_solver.
Qed.

Lemma find_set_None l k : find_set l k = None → k ∉ opt_key <$> l.
Proof.
  induction l as [|o l IH]; cbn; [set_solver|].
  destruct (nram_key_equal (opt_key o) k) eqn:E; [done|]. intros Hl.
  assert (opt_key o ≠ k) by (rewrite <- nram_key_equal_spec; congruence). set_solver.
Qed.

Lemma set_value_keys l k v : opt_key <$> set_value l k v = opt_key <$> l.
Proof.
  induction l as [|o l IH]; cbn; [done|]. destruct (nram_key_equal (opt_key o) k); [done|].
  rewrite !fmap_cons. by rewrite IH.
Qed.

Lemma set_value_Forall (P : NRAMValueData → Prop) l k v :
  P v → Forall (λ o, P (opt_value o)) l → Forall (λ o, P (opt_value o)) (set_value l k v).
Proof.
  intros Hv. induction 1 as [|o l Ho Hl IH]; cbn; [constructor|].
  destruct (nram_key_equal (opt_key o) k); by constructor.
Qed.

Lemma copy_nram_value_id v w :
  copy_nram_value v = Ok w → xact_id w = xact_id v ∧ flags w = flags v.
Proof.
  unfold copy_nram_value. destruct (fields_size _ _) as [z| |]; cbn; [|done..].
  destruct (ptr_read _ _) as [[a c]| |]; cbn; [|done..]. by intros [= <-].
Qed.

Lemma find_set_Some l k o : find_set l k = Some o → o ∈ l ∧ opt_key o = k.
Proof.
  induction l as [|a l IH]; cbn; [done|]. destruct (nram_key_equal (opt_key a) k) eqn:E.
  - intros [= ->]. apply nram_key_equal_spec in E. split; [by left|done].
  - intros [? ?]%IH. split; [by right|done].
Qed.

Lemma find_set_app_new l k o k' :
  find_set l k = None → opt_key o = k →
  find_set (l ++ [o]) k' = if decide (k' = k) then Some o else find_set l k'.
Proof.
  intros Hn <-. induction l as [|a l IH]; cbn in *.
  - destruct (nram_key_equal (opt_key o) k') eqn:E.
    + apply nram_key_equal_spec in E as <-. by rewrite decide_True.
    + rewrite decide_False; [done|]. intros ->.
      assert (nram_key_equal (opt_key o) (opt_key o) = true) by by apply nram_key_equal_spec. congruence.
  - destruct (nram_key_equal (opt_key a) (opt_key o)) eqn:E; [done|].
    destruct (nram_key_equal (opt_key a) k') eqn:E'; [|by apply IH].
    rewrite decide_False; [done|]. intros ->. congruence.
Qed.

Lemma find_set_set_value l k v k' o :
  find_set l k = Some o →
  find_set (set_value l k v) k' =
    if decide (k' = k) then Some (mkOpt (opt_type o) (opt_xact_id o) (opt_key o) v) else find_set l k'.
Proof.
  induction l as [|a l IH]; cbn; [done|]. destruct (nram_key_equal (opt_key a) k) eqn:E.
  - intros [= ->]. cbn. apply nram_key_equal_spec in E. destruct (decide (k' = k)) as [->|Hne].
    + assert (nram_key_equal (opt_key o) k = true) as -> by by apply nram_key_equal_spec. done.
    + destruct (nram_key_equal (opt_key o) k') eqn:E'; [|done].
      apply nram_key_equal_spec in E'. congruence.
  - intros Hf. cbn. destruct (nram_key_equal (opt_key a) k') eqn:E'; [|by apply IH].
    rewrite decide_False; [done|]. intros ->. congruence.
Qed.

Lemma add_write_set_spec x k v :
  value_ok v →
  ∃ x' w o, add_write_set x k v = Ok x' ∧ copy_nram_value v = Ok w ∧ w ≡ v ∧ value_ok w ∧
    opt_value o = w ∧ read_set x' = read_set x ∧
    (∀ k', find_write_set x' k' = if decide (k' = k) then Some o else find_write_set x k').
Proof.
  intros Hv. destruct (copy_nram_value_spec v Hv) as (fs & _ & Hc & Heq).
  assert (value_ok (mkValue (xact_id v) (flags v) (nfields v) fs)) as Hw by by rewrite Heq.
  unfold add_write_set, find_write_set. rewrite Hc. cbn [mbind outcome_bind].
  set (w := mkValue _ _ _ fs) in *.
  destruct (find_set (write_set x) k) as [o|] eqn:Ef.
  - exists (with_sets (read_set x) (set_value (write_set x) k w) x), w,
      (mkOpt (opt_type o) (opt_xact_id o) (opt_key o) w). split_and!; try done.
    intros k'. cbn. by rewrite (find_set_set_value _ _ _ _ _ Ef).
  - exists (with_sets (read_set x) (write_set x ++ [mkOpt XACT_OP_WRITE (xs_xact_id x) (copy_nram_key k) w]) x), w,
      (mkOpt XACT_OP_WRITE (xs_xact_id x) (copy_nram_key k) w). split_and!; try done.
    intros k'. cbn. apply find_set_app_new; [done|]. apply copy_nram_key_id.
Qed.

Lemma add_write_set_kept x k v x' :
  add_write_set x k v = Ok x' → xs_xact_id x' = xs_xact_id x ∧ action x' = action x.
Proof.
  unfold add_write_set. destruct (copy_nram_value v) as [w| |]; cbn; [|done..].
  destruct (find_write_set x k); by intros [= <-].
Qed.

Lemma read_own_write_ok x k :
  Forall (λ o, value_ok (opt_value o)) (write_set x) → ∃ o, read_own_write x k = Ok o.
Proof.
  intros Hws. unfold read_own_write, find_write_set.
  destruct (find_set (write_set x) k) as [o|] eqn:E; [|by eexists].
  apply find_set_Some in E as [Hin _]. rewrite Forall_forall in Hws.
  destruct (copy_nram_value_spec _ (Hws o Hin)) as (fs & _ & -> & _). by eexists.
Qed.

(** A sequence of writes and the last value of a key in it. *)
Fixpoint add_writes (x : NRAMXactStateData) (l : list (NRAMKeyData * NRAMValueData))
    : outcome NRAMXactStateData :=
  match l with [] => Ok x | (k, v) :: l => x ← add_write_set x k v; add_writes x l end.

Fixpoint last_write (l : list (NRAMKeyData * NRAMValueData)) (k : NRAMKeyData) : option NRAMValueData :=
  match l with
  | [] => None
  | (k', v) :: l =>
      match last_write l k with Some w => Some w | None => if decide (k = k') then Some v else None end
  end.

Lemma add_writes_keys l x x' :
  add_writes x l = Ok x' → NoDup (opt_key <$> write_set x) → NoDup (opt_key <$> write_set x').
Proof.
  revert x. induction l as [|[k v] l IH]; intros x; cbn; [by intros [= ->]|].
  destruct (add_write_set x k v) as [y| |] eqn:E; cbn; [|done..]. intros Hl Hnd. apply (IH y Hl). revert E.
  unfold add_write_set, find_write_set. destruct (copy_nram_value v) as [w| |]; cbn; [|done..].
  destruct (find_set (write_set x) k) as [o|] eqn:Ef; intros [= <-]; cbn; [by rewrite set_value_keys|].
  rewrite fmap_app. apply NoDup_app. split; [done|]. split; [|apply NoDup_singleton].
  apply find_set_None in Ef. cbn. rewrite copy_nram_key_id. intros a Ha Hb%list_elem_of_singleton. by subst.
Qed.

(** C10. The write set is a map with the last value of each key: after any
    sequence of writes every key has one entry, a read of the transaction's own
    writes returns the last value written to the key, keys not written read as
    before, and the read set is untouched. *)
Theorem write_set_last_write x l :
  NoDup (opt_key <$> write_set x) → Forall (λ e, value_ok e.2) l →
  ∃ x', add_writes x l = Ok x' ∧ NoDup (opt_key <$> write_set x') ∧ read_set x' = read_set x ∧
    ∀ k, match last_write l k with
         | Some v => ∃ w, read_own_write x' k = Ok (Some w) ∧ w ≡ v
         | None => read_own_write x' k = read_own_write x k
         end.
Proof.
  intros Hnd Hl.
  assert (∃ x', add_writes x l = Ok x' ∧ read_set x' = read_set x ∧
    ∀ k, match last_write l k with
         | Some v => ∃ o, find_write_set x' k = Some o ∧ opt_value o ≡ v ∧ value_ok (opt_value o)
         | None => find_write_set x' k = find_write_set x k
         end) as (x' & E & Hr & Hk).
  { clear Hnd. revert x. induction Hl as [|[k v] l Hv Hl IH]; intros x; [by exists x|]. cbn in Hv |- *.
    destruct (add_write_set_spec x k v Hv) as (y & w & o & -> & _ & Hw & Hwok & Ho & Hry & Hf). cbn.
    destruct (IH y) as (x' & -> & Hr & Hk). exists x'. split; [done|]. split; [congruence|]. intros k'.
    specialize (Hk k'). destruct (last_write l k') as [u|]; [done|]. rewrite Hf in Hk.
    destruct (decide (k' = k)); [|done]. exists o. rewrite Ho. by rewrite Hk. }
  exists x'. split; [done|]. split; [by eapply add_writes_keys|]. split; [done|]. intros k.
  specialize (Hk k). unfold read_own_write. destruct (last_write l k) as [v|]; [|by rewrite Hk].
  destruct Hk as (o & -> & Hv & Hok). destruct (copy_nram_value_spec _ Hok) as (fs & _ & -> & Heq).
  eexists. split; [done|]. by rewrite Heq.
Qed.

Definition fresh_xact : NRAMXactStateData :=
  mkXact 100 false None None CMD_UNKNOWN 0 (replicate 8 CMD_UNKNOWN) [] [].

Lemma empty_value_ok : value_ok (mkValue 9 0 0 []).
Proof.
  split; [by vm_compute|]. split; [by vm_compute|]. split; [by vm_compute|].
  exists []. split; by vm_compute.
Qed.

Lemma write_set_last_write_witness :
  ∃ x', add_writes fresh_xact [(mkKey 1 5, example_value); (mkKey 1 6, example_value);
                               (mkKey 1 5, mkValue 9 0 0 [])] = Ok x' ∧
    length (write_set x') = 2%nat ∧ ∃ w, read_own_write x' (mkKey 1 5) = Ok (Some w) ∧ xact_id w = 9.
Proof.
  destruct (write_set_last_write fresh_xact [(mkKey 1 5, example_value); (mkKey 1 6, example_value);
              (mkKey 1 5, mkValue 9 0 0 [])]) as (x' & E & _ & _ & Hk).
  - constructor.
  - apply Forall_cons; split; [exact example_value_ok|].
    apply Forall_cons; split; [exact example_value_ok|].
    apply Forall_cons; split; [exact empty_value_ok|constructor].
  - exists x'. split; [exact E|]. split.
    + vm_compute in E. injection E as <-. reflexivity.
    + specialize (Hk (mkKey 1 5)). cbn in Hk. destruct Hk as (w & Hw & Hx & _). by exists w.
Defined.

(** ** Order of the commit locks *)

(** The blocking lock requests of a run, in order, whatever the answers are and
    wherever it is stopped. *)
Inductive waits {R} : prog R → list LOCKTAG → Prop :=
| w_stop p : waits p []
| w_lock tag mode k r l : waits (k r) l → waits (DoLock tag mode false k) (tag :: l)
| w_try tag mode k r l : waits (k r) l → waits (DoLock tag mode true k) l
| w_unlock tag mode k r l : waits (k r) l → waits (DoUnlock tag mode k) l
| w_get key k r l : waits (k r) l → waits (DoGet key k) l
| w_put key v k r l : waits (k r) l → waits (DoPut key v k) l
| w_scan lo hi k r l : waits (k r) l → waits (DoScan lo hi k) l.
Create HintDb waits.
#[export] Hint Constructors waits : waits.

Lemma waits_bind {R T} (p : prog R) (f : R → prog T) l :
  waits (pbind p f) l →
  ∃ l1 l2, l = l1 ++ l2 ∧ waits p l1 ∧ (l2 = [] ∨ ∃ r, waits (f r) l2).
Proof.
  revert l. induction p as [r|tag mode dw k IH|tag mode k IH|key k IH|key v k IH|lo hi k IH];
    intros l Hl; cbn in Hl; [exists [], l; split; [done|]; split; [constructor|]; right; by exists r|..].
  all: inversion Hl; subst; [exists [], []; split; [done|]; split; [apply w_stop|by left]|..];
       lazymatch goal with
       | IH : ∀ r l, waits (pbind (?k r) _) l → _, H : waits (pbind (?k ?r) _) ?l |- _ =>
           destruct (IH r l H) as (l1 & l2 & -> & Hl1 & Hl2); first
           [ exists l1, l2; by eauto with waits | eexists (_ :: l1), l2; by eauto with waits ]
       end.
Qed.

(** Code without blocking requests. *)
Definition nowait {S A} (m : X S A) : Prop := ∀ s l, waits (m s) l → l = [].

Lemma nowait_ret {S A} (a : A) : nowait (mret a : X S A).
Proof. intros s l Hl. by inversion Hl. Qed.
Lemma nowait_raise {S A} msg : nowait (xraise msg : X S A).
Proof. intros s l Hl. by inversion Hl. Qed.
Lemma nowait_local {S A} (m : M S A) : nowait (local m).
Proof. intros s l Hl. unfold local in Hl. by inversion Hl. Qed.
Lemma nowait_try {S} tag mode : nowait (LockAcquire tag mode true : X S _).
Proof. intros s l Hl. inversion Hl as [|?????|????? H| | | |]; subst; [done|]. by inversion H. Qed.
Lemma nowait_release {S} tag mode : nowait (LockReleaseTag tag mode : X S _).
Proof. intros s l Hl. inversion Hl as [| | |????? H| | |]; subst; [done|]. by inversion H. Qed.
Lemma nowait_get {S} key : nowait (ClientGet key : X S _).
Proof. intros s l Hl. inversion Hl as [| | | |???? H| |]; subst; [done|]. by inversion H. Qed.
Lemma nowait_put {S} key v : nowait (ClientPut key v : X S _).
Proof. intros s l Hl. inversion Hl as [| | | | |????? H|]; subst; [done|]. by inversion H. Qed.
Lemma nowait_bind {S A B} (m : X S A) (f : A → X S B) :
  nowait m → (∀ a, nowait (f a)) → nowait (m ≫= f).
Proof.
  intros Hm Hf s l Hl. apply waits_bind in Hl as (l1 & l2 & -> & H1 & H2).
  rewrite (Hm _ _ H1). destruct H2 as [->|[[o s'] H2]]; [done|].
  destruct o as [a| |]; cbn in H2; [by apply Hf in H2 as ->|by inversion H2..].
Qed.
Lemma nowait_for {S A} (f : A → X S unit) l : (∀ a, nowait (f a)) → nowait (xfor f l).
Proof.
  intros Hf. induction l as [|a l IH]; cbn; [apply nowait_ret|]. by apply nowait_bind.
Qed.
#[export] Hint Resolve nowait_ret nowait_raise nowait_local nowait_try nowait_release nowait_get
  nowait_put nowait_bind nowait_for : waits.

Lemma validate_and_write_nowait rs ws : nowait (validate_and_write rs ws).
Proof.
  unfold validate_and_write, validate_reads, commit_writes. apply nowait_bind; [eauto with waits|].
  intros []; (apply nowait_bind; [|intros _; apply nowait_bind; [eauto with waits|]]);
    eauto with waits; intros; try (apply nowait_for; intros o).
  unfold validate_read, nram_try_validation_lock. apply nowait_bind; [eauto with waits|]. intros r.
  case_match; [eauto with waits|]. unfold validate_version. apply nowait_bind; [eauto with waits|].
  intros [v|]; [|eauto with waits]. unfold nram_validation_release. repeat case_match; eauto with waits.
Qed.

Lemma waits_lock_writes ws b l :
  waits (xfor lock_write ws b) l → l `prefix_of` (advisory_tag ∘ opt_key <$> ws).
Proof.
  revert b l. induction ws as [|o ws IH]; intros b l Hl; cbn in Hl |- *.
  { inversion Hl; subst. by exists []. }
  unfold lock_write, nram_validation_lock in Hl. cbn in Hl.
  inversion Hl as [|? ? ? r l' Hk| | | | |]; subst; [by apply prefix_nil|].
  apply prefix_cons. case_bool_decide; cbn in Hk; [by inversion Hk; subst; apply prefix_nil|by eapply IH].
Qed.

#[export] Instance opt_le_total : Total opt_le.
Proof.
  intros a b. unfold opt_le, nram_opt_cmp. repeat case_match; lia.
Qed.
#[export] Instance opt_le_trans : Transitive opt_le.
Proof. intros a b c. unfold opt_le, nram_opt_cmp. repeat case_match; lia. Qed.

(** The order of lock tags. *)
Definition tag_lt (t u : LOCKTAG) : Prop :=
  match t, u with
  | LOCKTAG_ADVISORY a b, LOCKTAG_ADVISORY c d => a < c ∨ a = c ∧ b < d
  | _, _ => False
  end.

Definition key32 (k : NRAMKeyData) : Prop := in_u32 (tableOid k) ∧ in_u32 (tid k).

Lemma opt_le_tag_lt a b :
  key32 (opt_key a) → key32 (opt_key b) → opt_key a ≠ opt_key b → opt_le a b →
  tag_lt (advisory_tag (opt_key a)) (advisory_tag (opt_key b)).
Proof.
  unfold key32, in_u32, opt_le, nram_opt_cmp, tag_lt, advisory_tag, u32.
  destruct (opt_key a) as [o t], (opt_key b) as [o' t']. cbn. intros [? ?] [? ?] Hne.
  rewrite !Z.mod_small by lia.
  assert (o ≠ o' ∨ t ≠ t') by (destruct (decide (o = o')); [right|left]; congruence).
  repeat case_match; lia.
Qed.

Lemma sorted_tags ws :
  Forall (λ o, key32 (opt_key o)) ws → NoDup (opt_key <$> ws) → StronglySorted opt_le ws →
  StronglySorted tag_lt (advisory_tag ∘ opt_key <$> ws).
Proof.
  intros Hk Hnd Hs. induction Hs as [|o ws Hs IH Ho]; cbn; [constructor|].
  apply Forall_cons in Hk as [Hko Hk]. cbn in Hnd. apply NoDup_cons in Hnd as [Hn Hnd].
  constructor; [by apply IH|]. apply Forall_fmap, Forall_forall. intros u Hu. cbn.
  rewrite Forall_forall in Ho, Hk. apply opt_le_tag_lt; auto.
  intros E. apply Hn. rewrite E. by apply list_elem_of_fmap_2.
Qed.

Lemma prefix_StronglySorted {A} (R : A → A → Prop) l k :
  l `prefix_of` k → StronglySorted R k → StronglySorted R l.
Proof. intros [m ->]. by apply StronglySorted_app_1_l. Qed.

(** The callback waits only for the locks of the sorted write set. *)
Lemma pre_commit_waits x b l :
  waits (pre_commit x b) l → l `prefix_of` (advisory_tag ∘ opt_key <$> list_sort (write_set x)).
Proof.
  unfold pre_commit. destruct (validated x).
  { intros Hl. apply nowait_raise in Hl as ->. apply prefix_nil. }
  intros Hl. apply waits_bind in Hl as (l1 & l2 & -> & H1 & H2). apply nowait_local in H1 as ->.
  destruct H2 as [->|[[o b'] H2]]; [apply prefix_nil|]. cbn [app].
  destruct o; cbn [x_then] in H2; [|by inversion H2; subst; apply prefix_nil..].
  apply waits_bind in H2 as (l1 & l3 & -> & H1 & H3). apply waits_lock_writes in H1.
  assert (l3 = []) as ->; [|by rewrite app_nil_r].
  destruct H3 as [->|[[[] b''] H3]]; [done| |by inversion H3..].
  by apply validate_and_write_nowait in H3.
Qed.

Lemma GetCurrent_sets b x :
  current_nram_xact b = Some x → ∃ b',
    (b' = b ∧ GetCurrentNRAMXact b = (Ok x, b)) ∨
    (∃ y, write_set y = [] ∧ GetCurrentNRAMXact b = (Ok y, b')) ∨
    (∃ e, GetCurrentNRAMXact b = (Ub e, b')).
Proof.
  intros Hc. unfold GetCurrentNRAMXact, refresh_nram_xact, NewNRAMXactState. rewrite Hc.
  destruct (xs_xact_id x =? top_xid b); [exists b; left; by rewrite Hc|].
  destruct (top_xid b =? InvalidTransactionId); cbn; eexists; right;
    [right; by eexists|left; eexists; split; [|reflexivity]; reflexivity].
Qed.

(** C9. Commits lock in one order: every blocking lock request of the pre-commit
    callback, whatever the other backends do, comes in strictly ascending order
    of the lock tags, as long as the row identifiers of the write set fit the 32
    bits of a tag; so no two commits wait for each other. *)
Theorem validation_lock_order b x l :
  current_nram_xact b = Some x → NoDup (opt_key <$> write_set x) →
  Forall (λ o, key32 (opt_key o)) (write_set x) →
  waits (nram_xact_callback XACT_EVENT_PRE_COMMIT b) l → StronglySorted tag_lt l.
Proof.
  intros Hc Hnd Hk Hl. unfold nram_xact_callback in Hl. rewrite Hc in Hl.
  destruct (GetCurrent_sets b x Hc) as (b' & [[-> E]|[(y & Ew & E)|[e E]]]);
    unfold mbind, X_bind, local in Hl; rewrite E in Hl; cbn [pbind x_then] in Hl;
    [| |by inversion Hl; subst; constructor]; apply pre_commit_waits in Hl;
    (eapply prefix_StronglySorted; [exact Hl|]).
  - unfold list_sort. apply sorted_tags.
    + by rewrite (merge_sort_Permutation opt_le).
    + by rewrite (merge_sort_Permutation opt_le).
    + apply StronglySorted_merge_sort; apply _.
  - rewrite Ew. constructor.
Qed.

Definition opt_of (t : Z) : NRAMXactOptData :=
  mkOpt XACT_OP_WRITE 100 (mkKey 1 t) (mkValue 100 0 0 []).

(** A backend about to commit writes to the rows of table 1 with these
    identifiers. *)
Definition committing (tids : list Z) : backend :=
  mkBackend 100 true 1
    (Some (mkXact 100 false None None CMD_UNKNOWN 0 (replicate 8 CMD_UNKNOWN) [] (opt_of <$> tids)))
    0 0 0 true None 1 0.

Lemma committing_waits t u :
  list_sort (opt_of <$> [t; u]) = opt_of <$> [t; u] →
  waits (nram_xact_callback XACT_EVENT_PRE_COMMIT (committing [t; u]))
    [advisory_tag (mkKey 1 t); advisory_tag (mkKey 1 u)].
Proof.
  intros Hs. change (nram_xact_callback _ _) with
    (pre_commit (mkXact 100 false None None CMD_UNKNOWN 0 (replicate 8 CMD_UNKNOWN) [] (opt_of <$> [t; u]))
       (committing [t; u])).
  unfold pre_commit. cbn [validated write_set]. rewrite Hs.
  apply (w_lock _ _ _ LOCKACQUIRE_OK), (w_lock _ _ _ LOCKACQUIRE_OK), w_stop.
Qed.

Lemma committing_waits_1_2 :
  waits (nram_xact_callback XACT_EVENT_PRE_COMMIT (committing [1; 2]))
    [LOCKTAG_ADVISORY 1 1; LOCKTAG_ADVISORY 1 2].
Proof. by apply (committing_waits 1 2). Qed.

Lemma validation_lock_order_witness :
  StronglySorted tag_lt [LOCKTAG_ADVISORY 1 1; LOCKTAG_ADVISORY 1 2].
Proof.
  eapply (validation_lock_order (committing [1; 2])).
  - reflexivity.
  - cbn. repeat (apply NoDup_cons; split; [set_solver|]). apply NoDup_nil_2.
  - repeat (apply Forall_cons; split; [by vm_compute|]). apply Forall_nil_2.
  - exact committing_waits_1_2.
Defined.

(** With wider row identifiers the order is lost: the lock tag keeps 32 of
    the 48 bits of an identifier, and two commits that each sort their write
    set, of rows 1 and 2 and of rows 2 and 2^32 + 1, request the same two locks
    in opposite orders. *)
Theorem lock_order_inverted :
  ∃ t u, t ≠ u ∧
    waits (nram_xact_callback XACT_EVENT_PRE_COMMIT (committing [1; 2])) [t; u] ∧
    waits (nram_xact_callback XACT_EVENT_PRE_COMMIT (committing [2; 2 ^ 32 + 1])) [u; t].
Proof.
  exists (LOCKTAG_ADVISORY 1 1), (LOCKTAG_ADVISORY 1 2). split; [done|].
  split; [exact committing_waits_1_2|]. by apply (committing_waits 2 (2 ^ 32 + 1)).
Qed.
