(* ===== verification/Molqo.v ===== *)
(** * The client of the learned query optimizer

    Models [dbengine/nr_kernel/nr_molqo/src/nr_molqo.c]: the hook behind parse
    analysis that sends the text of a SELECT to the optimizer server through curl,
    cuts the optimized text out of the answer, and applies it, either as hints in
    the source text or as SET commands; and [parse_bool] of
    [backend/utils/adt/bool.c], by which the server reads Boolean settings.

    The heap keeps the C strings that are allocated, so that the text of a query is
    a pointer and [pfree] ends the life of what it points to. The file system keeps
    the temporary file of a request. The shell that runs curl, and the server's
    table of settings, are parameters. *)
From S2P Require Import Prelude Xact CText CNumber CJson.
From Stdlib Require Import ZArith Lia Ascii.
From stdpp Require Import base strings gmap fin_maps numbers list.

Open Scope Z_scope.

(** ** Texts *)

(** [strchr]: what is before the first occurrence, and the text from it on. *)
Fixpoint strchr (s : text) (c : ascii) : option (text * text) :=
  match s with
  | [] => None
  | x :: s =>
      if ascii_eqb x c then Some ([], x :: s)
      else match strchr s c with Some (b, q) => Some (x :: b, q) | None => None end
  end.

(** [snprintf] into a buffer of [size] bytes. *)
Definition snprintf (size : Z) (s : text) : text := take (Z.to_nat (size - 1)) s.

Definition TAB : ascii := "009".
Definition RETURN : ascii := "013".

(** The loop that escapes the query. *)
Definition escape_sql_char (c : ascii) : text :=
  if ascii_eqb c DQUOTE || ascii_eqb c BACKSLASH || ascii_eqb c NEWLINE || ascii_eqb c RETURN || ascii_eqb c TAB
  then
    BACKSLASH ::
      (if ascii_eqb c NEWLINE then ["n"%char]
       else if ascii_eqb c RETURN then ["r"%char]
       else if ascii_eqb c TAB then ["t"%char]
       else [c])
  else [c].

Definition escape_sql (s : text) : text := concat (escape_sql_char <$> s).

Definition json_payload (escaped_sql : text) : text :=
  text_of "{" ++ [DQUOTE] ++ text_of "sql" ++ [DQUOTE] ++ text_of ":" ++ [DQUOTE] ++ escaped_sql ++ [DQUOTE]
    ++ text_of "}".

(** A key in its quotes. *)
Definition quoted_key (key : string) : text := DQUOTE :: text_of key ++ [DQUOTE].

(** The search for the string behind a key, [optimized_sql] and [expert_name]. *)
Definition extract_string (response_buf : text) (key : string) : option text :=
  '(_, start) ← strstr response_buf (quoted_key key);
  '(_, start) ← strchr start ":";
  '(_, start) ← strchr start DQUOTE;
  '(value, _) ← strchr (drop 1 start) DQUOTE;
  Some value.

(** ** Memory and files *)

Record molqo_state (settings : Type) := mkMolqo {
  heap : gmap nat text;
  files : gmap text text;
  p_sourcetext : option nat;
  gucs : settings
}.
Arguments mkMolqo {settings}.
Arguments heap {settings}.
Arguments files {settings}.
Arguments p_sourcetext {settings}.
Arguments gucs {settings}.

Section molqo.
Context {settings : Type}.

Definition with_heap (h : gmap nat text) (s : molqo_state settings) : molqo_state settings :=
  mkMolqo h (files s) (p_sourcetext s) (gucs s).
Definition with_files (f : gmap text text) (s : molqo_state settings) : molqo_state settings :=
  mkMolqo (heap s) f (p_sourcetext s) (gucs s).
Definition with_source (p : option nat) (s : molqo_state settings) : molqo_state settings :=
  mkMolqo (heap s) (files s) p (gucs s).
Definition with_gucs (g : settings) (s : molqo_state settings) : molqo_state settings :=
  mkMolqo (heap s) (files s) (p_sourcetext s) g.

(** A buffer of [size] bytes with a C string written into it. *)
Definition palloc_string (size : Z) (content : text) : M (molqo_state settings) nat := λ s,
  if zlen content + 1 <=? size then
    let p := fresh (dom (heap s)) in (Ok p, with_heap (<[p := content]> (heap s)) s)
  else (Ub "write behind a buffer", s).

Definition pstrdup (content : text) : M (molqo_state settings) nat := palloc_string (zlen content + 1) content.

Definition pfree (p : nat) : M (molqo_state settings) unit := λ s,
  match heap s !! p with
  | Some _ => (Ok tt, with_heap (delete p (heap s)) s)
  | None => (Ub "pfree of a pointer that is not allocated", s)
  end.

Definition deref (p : nat) : M (molqo_state settings) text := λ s,
  match heap s !! p with Some t => (Ok t, s) | None => (Ub "read of freed memory", s) end.

Definition unlink (name : text) : M (molqo_state settings) unit := modify_st (λ s, with_files (delete name (files s)) s).

(** What the extension calls: the switches it reads, [SetConfigOption], which may
    raise an error, the hook that was installed before, the process number and the
    clock, whether the temporary file can be created, and the shell: what a command
    writes to the pipe and its status, or nothing when it cannot be started. *)
Context (enable_molqo : settings → bool) (molqo_server_url : settings → option text).
Context (SetConfigOption : text → text → settings → outcome unit * settings).
Context (prev_hook : option (M (molqo_state settings) unit)).
Context (getpid time : Z) (can_create : text → bool).
Context (shell : text → gmap text text → option (text * Z)).

Definition set_config_option (name value : text) : M (molqo_state settings) unit := λ s,
  let '(r, g) := SetConfigOption name value (gucs s) in (r, with_gucs g s).

(** ** The request *)

Definition tmp_file_name : text :=
  snprintf 256 (text_of "/tmp/molqo_" ++ print_int getpid ++ text_of "_" ++ print_int time ++ text_of ".json").

Definition curl_command (tmp_file url : text) : text :=
  text_of "curl -s -X POST -H 'Content-Type: application/json' -d @" ++ tmp_file ++ text_of " '" ++ url ++
  text_of "' 2>&1".

(** [fopen] with mode [w], [fwrite] and [fclose]. *)
Definition write_file (name content : text) : M (molqo_state settings) bool := λ s,
  if can_create name then (Ok true, with_files (<[name := content]> (files s)) s) else (Ok false, s).

(** A copy of an extracted string. *)
Definition copy_extracted (value : option text) : M (molqo_state settings) (option nat) :=
  match value with
  | Some value => p ← palloc_string (zlen value + 1) value; mret (Some p)
  | None => mret None
  end.

Definition send_http_request (url sql_data : text) : M (molqo_state settings) (option nat) :=
  let sql_len := zlen sql_data in
  let escaped := escape_sql sql_data in
  escaped_sql ← palloc_string (sql_len * 2 + 1) escaped;
  let payload := snprintf (zlen escaped + 256) (json_payload escaped) in
  payload_buf ← palloc_string (zlen escaped + 256) payload;
  let tmp_file := tmp_file_name in
  created ← write_file tmp_file payload;
  if negb created then
    pfree escaped_sql;; pfree payload_buf;; mret None
  else
    let size := zlen url + zlen tmp_file + 256 in
    let command := snprintf size (curl_command tmp_file url) in
    curl_cmd ← palloc_string size command;
    s ← get_st;
    match shell command (files s) with
    | None =>
        unlink tmp_file;; pfree escaped_sql;; pfree payload_buf;; pfree curl_cmd;; mret None
    | Some (output, curl_status) =>
        let response := take (Z.to_nat 8191) output in
        let response_buf := c_string response in
        unlink tmp_file;;
        if negb (curl_status =? 0) then
          pfree escaped_sql;; pfree payload_buf;; pfree curl_cmd;; mret None
        else if zlen response =? 0 then
          pfree escaped_sql;; pfree payload_buf;; pfree curl_cmd;; mret None
        else
          result ← copy_extracted (extract_string response_buf "optimized_sql");
          expert_name ← copy_extracted (extract_string response_buf "expert_name");
          result ← (match result with Some p => mret p | None => pstrdup sql_data end);
          pfree escaped_sql;; pfree payload_buf;; pfree curl_cmd;;
          (match expert_name with Some p => pfree p | None => mret tt end);;
          mret (Some result)
    end.

Definition call_external_optimizer (original_sql : text) : M (molqo_state settings) (option nat) :=
  s ← get_st;
  match molqo_server_url (gucs s) with
  | Some url => send_http_request url original_sql
  | None => lift_out (Ub "strlen of a null pointer")
  end.

(** ** SET commands *)

Definition blank_or_tab (c : ascii) : bool := ascii_eqb c " " || ascii_eqb c TAB.
Definition separator_char (c : ascii) : bool :=
  ascii_eqb c " " || ascii_eqb c "=" || ascii_eqb c "T" || ascii_eqb c "O".

(** Between the parameter and the value: [ TO ], else [ = ], else [=]. *)
Definition find_separator (param : text) : option (text * text) :=
  match strstr param (text_of " TO ") with
  | Some r => Some r
  | None =>
      match strstr param (text_of " = ") with
      | Some r => Some r
      | None => strchr param "="
      end
  end.

Definition strip_quotes (value : text) : text :=
  match value with
  | c :: v =>
      if ascii_eqb c QUOTE || ascii_eqb c DQUOTE then
        match strchr v QUOTE with
        | Some (b, _) => b
        | None => match strchr v DQUOTE with Some (b, _) => b | None => v end
        end
      else value
  | [] => value
  end.

(** The loop over trailing blanks keeps the first character. *)
Fixpoint trim_right (s : text) : text :=
  match s with
  | [] => []
  | c :: s => match trim_right s with [] => if blank_or_tab c then [] else [c] | t => c :: t end
  end.
Definition trim_value (value : text) : text :=
  match value with c :: v => c :: trim_right v | [] => [] end.

(** The parameter and the value of the text behind [SET ]. *)
Definition parse_set (command : text) : option (text * text) :=
  let param_name := skip_while blank_or_tab command in
  match find_separator param_name with
  | Some (name, rest) => Some (name, trim_value (strip_quotes (skip_while separator_char (drop 1 rest))))
  | None => None
  end.

Fixpoint set_loop (fuel : nat) (current_pos : text) : M (molqo_state settings) unit :=
  match fuel with
  | O => lift_out (Ub "the loop does not end")
  | S fuel =>
      match strstr current_pos (text_of "SET ") with
      | None => mret tt
      | Some (_, set_start) =>
          match strchr set_start ";" with
          | None => mret tt
          | Some (command, set_end) =>
              (match parse_set (drop 4 command) with
               | Some (name, value) => set_config_option name value
               | None => mret tt
               end);;
              set_loop fuel (drop 1 set_end)
          end
      end
  end.

(** Each command takes at least five characters. *)
Definition execute_optimized_sql (optimized_sql : text) : M (molqo_state settings) unit :=
  sql_copy ← pstrdup optimized_sql;
  set_loop (S (length optimized_sql)) optimized_sql;;
  pfree sql_copy.

(** ** The hook *)

(** The text of the hints, for display. *)
Definition hint_text (optimized_sql : text) : M (molqo_state settings) unit :=
  match strstr optimized_sql (text_of "/*+") with
  | None => mret tt
  | Some (_, hint_start) =>
      match strstr hint_start (text_of "*/") with
      | None => mret tt
      | Some (hint, _) =>
          let hint_len := zlen hint + 2 in
          p ← palloc_string (hint_len + 1) (take (Z.to_nat hint_len) hint_start);
          pfree p
      end
  end.

(** [PG_TRY] with a handler that forgets the error. *)
Definition forget_error (body : M (molqo_state settings) unit) : M (molqo_state settings) unit := λ s,
  match body s with
  | (Raise _, s') => (Ok tt, s')
  | r => r
  end.

Definition has_hints (sql : text) : bool := bool_decide (is_Some (strstr sql (text_of "/*+"))).

Definition optimize_source (original_sql : text) : M (molqo_state settings) unit :=
  r ← call_external_optimizer original_sql;
  match r with
  | None => mret tt
  | Some p =>
      optimized_sql ← deref p;
      (if bool_decide (optimized_sql = original_sql) then mret tt
       else if has_hints optimized_sql then
         hint_text optimized_sql;; modify_st (with_source (Some p))
       else execute_optimized_sql optimized_sql);;
      pfree p
  end.

Definition query_optimizer_post_parse_analyze (commandType : CmdType) : M (molqo_state settings) unit :=
  (match prev_hook with Some hook => hook | None => mret tt end);;
  s ← get_st;
  if negb (enable_molqo (gucs s)) then mret tt
  else
    match molqo_server_url (gucs s) with
    | None | Some [] => mret tt
    | Some _ =>
        if bool_decide (commandType ≠ CMD_SELECT) then mret tt
        else
          match p_sourcetext s with
          | None => mret tt
          | Some q =>
              original_sql ← deref q;
              match original_sql with
              | [] => mret tt
              | _ => forget_error (optimize_source original_sql)
              end
          end
    end.

(** The SQL function for tests. *)
Definition optimize_query (arg : option text) : M (molqo_state settings) (option text) :=
  match arg with
  | None => mret None
  | Some sql_text =>
      sql_string ← pstrdup (c_string sql_text);
      optimized_sql ← call_external_optimizer (c_string sql_text);
      match optimized_sql with
      | Some p => result ← deref p; pfree p;; pfree sql_string;; mret (Some result)
      | None => pfree sql_string;; mret (Some sql_text)
      end
  end.
End molqo.

(** ** Boolean settings *)

(** [pg_strncasecmp(a, b, n) == 0]. *)
Fixpoint strncaseeq (n : nat) (a b : text) : bool :=
  match n with
  | O => true
  | S n =>
      match a, b with
      | [], [] => true
      | x :: a, y :: b => ascii_eqb (tolower x) (tolower y) && strncaseeq n a b
      | _, _ => false
      end
  end.

Definition parse_bool (value : text) : option bool :=
  let len := length value in
  match value with
  | [] => None
  | c :: _ =>
      if ascii_eqb (tolower c) "t" then if strncaseeq len value (text_of "true") then Some true else None
      else if ascii_eqb (tolower c) "f" then if strncaseeq len value (text_of "false") then Some false else None
      else if ascii_eqb (tolower c) "y" then if strncaseeq len value (text_of "yes") then Some true else None
      else if ascii_eqb (tolower c) "n" then if strncaseeq len value (text_of "no") then Some false else None
      else if ascii_eqb (tolower c) "o" then
        if strncaseeq (Nat.max 2 len) value (text_of "on") then Some true
        else if strncaseeq (Nat.max 2 len) value (text_of "off") then Some false
        else None
      else if ascii_eqb c "1" then if bool_decide (len = 1%nat) then Some true else None
      else if ascii_eqb c "0" then if bool_decide (len = 1%nat) then Some false else None
      else None
  end.

(** ** Searching *)

Definition prepend (a : text) (r : option (text * text)) : option (text * text) :=
  match r with Some (b, q) => Some (a ++ b, q) | None => None end.

Definition without (c : ascii) (s : text) : bool := forallb (λ x, negb (ascii_eqb x c)) s.

Lemma strstr_skip c a s old : without c a = true → strstr (a ++ s) (c :: old) = prepend a (strstr s (c :: old)).
Proof.
  induction a as [|x a IH]; cbn -[strstr]; [by intros _; destruct (strstr s _) as [[]|]|].
  intros [Hx Ha]%andb_prop. cbn [strstr starts_with].
  assert (ascii_eqb c x = false) as ->.
  { apply negb_true_iff in Hx. apply not_true_iff_false. intros E%ascii_eqb_spec. subst.
    by rewrite (proj2 (ascii_eqb_spec x x) eq_refl) in Hx. }
  cbn [andb]. rewrite IH by done. by destruct (strstr s (c :: old)) as [[]|].
Qed.

Lemma strstr_here old s : strstr (old ++ s) old = Some ([], old ++ s).
Proof. destruct (old ++ s) eqn:E; cbn; by rewrite <- E, starts_with_app. Qed.

Lemma strchr_skip c a s : without c a = true → strchr (a ++ s) c = prepend a (strchr s c).
Proof.
  induction a as [|x a IH]; cbn; [by intros _; destruct (strchr s _) as [[]|]|].
  intros [->%negb_true_iff Ha]%andb_prop. rewrite IH by done. by destruct (strchr s c) as [[]|].
Qed.

Lemma strchr_here c s : strchr (c :: s) c = Some ([], c :: s).
Proof. cbn. by rewrite (proj2 (ascii_eqb_spec c c) eq_refl). Qed.

Lemma strchr_first c a s : without c a = true → strchr (a ++ c :: s) c = Some (a, c :: s).
Proof. intros Ha. rewrite strchr_skip, strchr_here by done. cbn. by rewrite app_nil_r. Qed.

Lemma length_strchr c s b q : strchr s c = Some (b, q) → length s = (length b + length q)%nat ∧ (0 < length q)%nat.
Proof.
  revert b. induction s as [|x s IH]; intros b; [done|]. cbn. destruct (ascii_eqb x c).
  - intros [= <- <-]. cbn. lia.
  - destruct (strchr s c) as [[b' q']|]; [|done]. intros [= <- <-]. destruct (IH b' eq_refl). cbn. lia.
Qed.

Lemma without_app c a b : without c (a ++ b) = without c a && without c b.
Proof. apply forallb_app. Qed.

(** ** SET commands *)

Inductive set_style := style_to | style_spaced | style_tight.

Record set_command := mkSet { set_name : text; style : set_style; quoted : bool; set_value : text }.

Definition separator (st : set_style) : text :=
  match st with style_to => text_of " TO " | style_spaced => text_of " = " | style_tight => text_of "=" end.

Definition written_value (c : set_command) : text :=
  if quoted c then QUOTE :: set_value c ++ [QUOTE] else set_value c.

(** The text of a command up to its semicolon. *)
Definition assignment (c : set_command) : text := set_name c ++ separator (style c) ++ written_value c.
Definition print_set (c : set_command) : text := text_of "SET " ++ assignment c ++ text_of "; ".

(** The value [SetConfigOption] gets. *)
Definition passed_value (c : set_command) : text :=
  if quoted c then trim_value (set_value c) else trim_value (skip_while separator_char (set_value c)).

Definition name_char (c : ascii) : bool := is_alnum c || ascii_eqb c "_" || ascii_eqb c ".".

(** No separator comes up too early: with [=], the value has no [ TO ], nor a [ = ]
    behind a tight one. *)
Definition separator_clear (c : set_command) : bool :=
  match style c with
  | style_to => true
  | style_spaced => bool_decide (strstr (separator (style c) ++ written_value c) (text_of " TO ") = None)
  | style_tight =>
      bool_decide (strstr (separator (style c) ++ written_value c) (text_of " TO ") = None) &&
      bool_decide (strstr (separator (style c) ++ written_value c) (text_of " = ") = None)
  end.

Definition command_ok (c : set_command) : bool :=
  match set_name c with [] => false | _ => forallb name_char (set_name c) end &&
  without ";" (set_value c) && without QUOTE (set_value c) &&
  (quoted c || without DQUOTE (set_value c)) && separator_clear c.

Lemma name_without c s : forallb name_char s = true → name_char c = false → without c s = true.
Proof.
  intros Hs Hc. unfold without. apply forallb_forall. intros x Hx. rewrite forallb_forall in Hs.
  apply negb_true_iff, not_true_iff_false. intros ->%ascii_eqb_spec. specialize (Hs c Hx). congruence.
Qed.

Lemma skip_while_none p s : match s with c :: _ => p c = false | [] => True end → skip_while p s = s.
Proof. destruct s; cbn; [done|]. by intros ->. Qed.

Record command_facts (c : set_command) : Prop := mkFacts {
  cf_name : ∃ x n, set_name c = x :: n ∧ blank_or_tab x = false;
  cf_chars : forallb name_char (set_name c) = true;
  cf_semicolon : without ";" (set_value c) = true;
  cf_quote : without QUOTE (set_value c) = true;
  cf_dquote : quoted c = false → without DQUOTE (set_value c) = true;
  cf_separator : separator_clear c = true
}.

Lemma command_ok_facts c : command_ok c = true → command_facts c.
Proof.
  unfold command_ok. rewrite !andb_true_iff. intros ((((Hn & H1) & H2) & H3) & H4).
  destruct (set_name c) as [|x n] eqn:E; [done|]. constructor; try done.
  - exists x, n. split; [done|]. cbn in Hn. apply andb_prop in Hn as [Hx _].
    apply not_true_iff_false. unfold blank_or_tab. rewrite orb_true_iff, !ascii_eqb_spec. by intros [->| ->].
  - by rewrite E.
  - intros Hq. by rewrite Hq in H3.
Qed.

Lemma find_separator_assignment c : command_facts c →
  find_separator (assignment c) = Some (set_name c, separator (style c) ++ written_value c).
Proof.
  intros [_ Hn _ _ _ Hs]. unfold find_separator, assignment, separator_clear in *.
  assert (without " " (set_name c) = true) as Hb by by apply name_without.
  assert (without "=" (set_name c) = true) as He by by apply name_without.
  assert (∀ old, strstr (set_name c ++ separator (style c) ++ written_value c) (" "%char :: old) =
    prepend (set_name c) (strstr (separator (style c) ++ written_value c) (" "%char :: old))) as Hstr
    by (intros; by apply strstr_skip).
  change (text_of " TO ") with (" "%char :: text_of "TO "). change (text_of " = ") with (" "%char :: text_of "= ").
  rewrite !Hstr, strchr_skip by done. destruct (style c).
  - change (separator style_to) with (" "%char :: text_of "TO "). rewrite strstr_here. cbn. by rewrite app_nil_r.
  - apply bool_decide_eq_true in Hs. change (text_of " TO ") with (" "%char :: text_of "TO ") in Hs. rewrite Hs.
    change (separator style_spaced) with (" "%char :: text_of "= "). cbn [prepend].
    rewrite strstr_here. cbn. by rewrite app_nil_r.
  - apply andb_prop in Hs as [Hs1%bool_decide_eq_true Hs2%bool_decide_eq_true].
    change (text_of " TO ") with (" "%char :: text_of "TO ") in Hs1.
    change (text_of " = ") with (" "%char :: text_of "= ") in Hs2. rewrite Hs1, Hs2. cbn [prepend].
    change (separator style_tight ++ written_value c) with ("="%char :: written_value c).
    rewrite strchr_here. cbn. by rewrite app_nil_r.
Qed.

Lemma skip_separator st w : skip_while separator_char (drop 1 (separator st ++ w)) = skip_while separator_char w.
Proof. by destruct st. Qed.

Lemma skip_while_without p c s : without c s = true → without c (skip_while p s) = true.
Proof.
  induction s as [|x s IH]; [done|]. cbn. intros H. destruct (p x); [|done]. apply andb_prop in H as [_ H]. by apply IH.
Qed.

Lemma strip_written c : command_facts c →
  strip_quotes (skip_while separator_char (written_value c)) =
  if quoted c then set_value c else skip_while separator_char (set_value c).
Proof.
  intros [_ _ _ Hq Hd _]. unfold written_value. destruct (quoted c).
  - cbn [skip_while]. change (separator_char QUOTE) with false. cbn [strip_quotes].
    change (ascii_eqb QUOTE QUOTE || ascii_eqb QUOTE DQUOTE) with true. cbn iota.
    by rewrite strchr_first.
  - apply (skip_while_without separator_char) in Hq. specialize (Hd eq_refl).
    apply (skip_while_without separator_char) in Hd.
    destruct (skip_while separator_char (set_value c)) as [|x v]; [done|]. cbn in *.
    apply andb_prop in Hq as [->%negb_true_iff _]. by apply andb_prop in Hd as [->%negb_true_iff _].
Qed.

Lemma parse_set_assignment c : command_ok c = true →
  parse_set (assignment c) = Some (set_name c, passed_value c).
Proof.
  intros Hc%command_ok_facts. unfold parse_set. rewrite skip_while_none.
  - rewrite find_separator_assignment by done. rewrite skip_separator, strip_written by done.
    unfold passed_value. by destruct (quoted c).
  - unfold assignment. destruct (cf_name _ Hc) as (x & n & -> & Hx). done.
Qed.

Lemma assignment_semicolon c : command_ok c = true → without ";" (assignment c) = true.
Proof.
  intros Hc%command_ok_facts. unfold assignment, written_value. rewrite !without_app, !andb_true_iff.
  split_and!; [by apply name_without; [apply cf_chars|]|by destruct (style c)|].
  destruct (quoted c); [|by apply cf_semicolon].
  change (without ";" (set_value c ++ [QUOTE]) = true). rewrite without_app, andb_true_iff.
  split; [by apply cf_semicolon|done].
Qed.

(** The commands of a text, as the loop finds them. *)
Fixpoint set_commands (fuel : nat) (current_pos : text) : list (text * text) :=
  match fuel with
  | O => []
  | S fuel =>
      match strstr current_pos (text_of "SET ") with
      | None => []
      | Some (_, set_start) =>
          match strchr set_start ";" with
          | None => []
          | Some (command, set_end) => option_list (parse_set (drop 4 command)) ++ set_commands fuel (drop 1 set_end)
          end
      end
  end.

Lemma set_commands_space fuel s : set_commands fuel (" "%char :: s) = set_commands fuel s.
Proof.
  destruct fuel as [|fuel]; [done|]. cbn [set_commands].
  assert (strstr (" "%char :: s) (text_of "SET ") = prepend [" "%char] (strstr s (text_of "SET "))) as ->
    by by apply (strstr_skip "S" [" "%char] s (text_of "ET ")).
  by destruct (strstr s _) as [[]|].
Qed.

Lemma set_commands_print cmds fuel sql :
  forallb command_ok cmds = true → strstr sql (text_of "SET ") = None → (length cmds < fuel)%nat →
  set_commands fuel (concat (print_set <$> cmds) ++ sql) = (λ c, (set_name c, passed_value c)) <$> cmds.
Proof.
  intros Hc Hs. revert fuel. induction cmds as [|c cmds IH]; intros fuel Hf.
  { destruct fuel as [|fuel]; [done|]. cbn -[text_of strstr]. by rewrite Hs. }
  cbn in Hc. apply andb_prop in Hc as [Hc Hcs]. destruct fuel as [|fuel]; [cbn in Hf; lia|].
  cbn [fmap list_fmap concat]. unfold print_set at 1. cbn [set_commands]. rewrite <- !app_assoc.
  rewrite strstr_here. change (text_of "; ") with [";"%char; " "%char]. cbn [app].
  rewrite (app_assoc (text_of "SET ") (assignment c)).
  rewrite strchr_first; [|by rewrite without_app, assignment_semicolon].
  change (drop 4 (text_of "SET " ++ assignment c)) with (assignment c).
  rewrite parse_set_assignment by done. cbn [drop]. rewrite ?drop_0, set_commands_space.
  cbn [option_list app]. f_equal. apply IH; [done|]. cbn in Hf. lia.
Qed.

(** ** The answer of the server *)

(** The body of a JSON string: no quote stands alone, no backslash at its end. *)
Fixpoint json_body (b : text) : bool :=
  match b with
  | [] => true
  | c :: b' =>
      if ascii_eqb c BACKSLASH then match b' with _ :: b => json_body b | [] => false end
      else negb (ascii_eqb c DQUOTE) && json_body b'
  end.

(** Characters that stand for themselves in a JSON string. *)
Definition plain_char (c : ascii) : bool :=
  (31 <? code c) && negb (ascii_eqb c DQUOTE) && negb (ascii_eqb c BACKSLASH).

(** A key matches at a quote only when the string behind it is the key. *)
Lemma key_at_quote key b r : forallb plain_char key = true → json_body b = true →
  starts_with (key ++ [DQUOTE]) (b ++ DQUOTE :: r) = true → b = key.
Proof.
  revert b. induction key as [|k key IH]; intros b Hk Hb.
  - destruct b as [|c b]; [done|]. cbn [app starts_with]. rewrite andb_true_iff, ascii_eqb_spec.
    intros [<- _]. done.
  - cbn in Hk. apply andb_prop in Hk as [Hk Hkey].
    assert (ascii_eqb k DQUOTE = false ∧ ascii_eqb k BACKSLASH = false) as [Hq Hs].
    { unfold plain_char in Hk. destruct (ascii_eqb k DQUOTE), (ascii_eqb k BACKSLASH);
        rewrite ?andb_false_r in Hk; done. }
    destruct b as [|c b]; cbn [app starts_with]; [by rewrite Hq|].
    rewrite andb_true_iff, ascii_eqb_spec. intros [<- H]. f_equal. apply IH; [done| |done].
    cbn in Hb. by rewrite Hq, Hs in Hb.
Qed.

(** The search for a key runs over a string body that does not end with the key
    behind a quote. *)
Lemma strstr_body key b r :
  forallb plain_char key = true → json_body b = true → ¬ (DQUOTE :: key) `suffix_of` b →
  strstr (b ++ DQUOTE :: r) (DQUOTE :: key ++ [DQUOTE]) =
  prepend b (strstr (DQUOTE :: r) (DQUOTE :: key ++ [DQUOTE])).
Proof.
  intros Hk. remember (length b) as n eqn:Hn. revert b Hn. induction n as [n IH] using lt_wf_ind.
  intros [|c b] -> Hb Hsuf; [by destruct (strstr _ _) as [[]|]|].
  assert (∀ x y, x :: y = b → json_body y = true →
     strstr (y ++ DQUOTE :: r) (DQUOTE :: key ++ [DQUOTE]) =
     prepend y (strstr (DQUOTE :: r) (DQUOTE :: key ++ [DQUOTE]))) as Htwo.
  { intros x y <- Hy. apply (IH (length y)); [cbn; lia|done|done|].
    intros H. apply Hsuf. by do 2 apply suffix_cons_r. }
  assert (∀ x y, ascii_eqb DQUOTE x = false →
     strstr (x :: y) (DQUOTE :: key ++ [DQUOTE]) = prepend [x] (strstr y (DQUOTE :: key ++ [DQUOTE]))) as Hone.
  { intros x y Hx. cbn [strstr starts_with]. rewrite Hx. cbn [andb]. by destruct (strstr y _) as [[]|]. }
  cbn in Hb. destruct (ascii_eqb c BACKSLASH) eqn:Ec.
  - apply ascii_eqb_spec in Ec as ->. destruct b as [|x y]; [done|]. cbn [app].
    rewrite (Hone BACKSLASH) by done. destruct (ascii_eqb DQUOTE x) eqn:Ex.
    + apply ascii_eqb_spec in Ex as <-.
      assert (strstr (DQUOTE :: y ++ DQUOTE :: r) (DQUOTE :: key ++ [DQUOTE]) =
        prepend [DQUOTE] (strstr (y ++ DQUOTE :: r) (DQUOTE :: key ++ [DQUOTE]))) as ->.
      { cbn [strstr starts_with]. rewrite (proj2 (ascii_eqb_spec DQUOTE DQUOTE) eq_refl). cbn [andb].
        destruct (starts_with (key ++ [DQUOTE]) (y ++ DQUOTE :: r)) eqn:Es.
        - apply key_at_quote in Es; [|done..]. subst y. exfalso. apply Hsuf. by exists [BACKSLASH].
        - by destruct (strstr (y ++ _) _) as [[]|]. }
      rewrite (Htwo DQUOTE y) by done. by destruct (strstr (DQUOTE :: r) _) as [[]|].
    + rewrite Hone, (Htwo x y) by done. by destruct (strstr (DQUOTE :: r) _) as [[]|].
  - apply andb_prop in Hb as [Hq Hb]. cbn [app]. rewrite Hone.
    + rewrite (IH (length b)); [by destruct (strstr (DQUOTE :: r) _) as [[]|]|cbn; lia|done|done|].
      intros H. apply Hsuf. by apply suffix_cons_r.
    + apply negb_true_iff in Hq. apply not_true_iff_false. intros E%ascii_eqb_spec. by subst c.
Qed.

Lemma strstr_quote key r : starts_with (key ++ [DQUOTE]) r = false →
  strstr (DQUOTE :: r) (DQUOTE :: key ++ [DQUOTE]) = prepend [DQUOTE] (strstr r (DQUOTE :: key ++ [DQUOTE])).
Proof.
  intros H. cbn [strstr starts_with]. rewrite (proj2 (ascii_eqb_spec DQUOTE DQUOTE) eq_refl), H. cbn [andb].
  by destruct (strstr r _) as [[]|].
Qed.

(** And over a whole string. *)
Lemma strstr_string key b r :
  forallb plain_char key = true → json_body b = true → ¬ (DQUOTE :: key) `suffix_of` (DQUOTE :: b) →
  starts_with (key ++ [DQUOTE]) r = false →
  strstr (DQUOTE :: b ++ DQUOTE :: r) (DQUOTE :: key ++ [DQUOTE]) =
  prepend (DQUOTE :: b ++ [DQUOTE]) (strstr r (DQUOTE :: key ++ [DQUOTE])).
Proof.
  intros Hk Hb Hs Hr. rewrite strstr_quote, strstr_body, strstr_quote; try done.
  - destruct (strstr r _) as [[x y]|]; [|done]. cbn [prepend app]. by rewrite <- app_assoc.
  - intros H. by apply Hs, suffix_cons_r.
  - apply not_true_iff_false. intros ->%key_at_quote; [|done..]. by apply Hs.
Qed.

(** The answer of the server: the text of the query comes first. *)
Definition server_response (original optimized rest : text) : text :=
  text_of "{" ++ quoted_key "original_sql" ++ text_of ": " ++ (DQUOTE :: original ++ DQUOTE :: text_of ", ") ++
  quoted_key "optimized_sql" ++ text_of ": " ++ DQUOTE :: optimized ++ DQUOTE :: rest.

(** The extracted text ends at the first quote, escaped or not. *)
Definition cut_at_quote (s : text) : text := match strchr s DQUOTE with Some (b, _) => b | None => s end.

Lemma cut_prefix s : ∃ r, s = cut_at_quote s ++ r.
Proof.
  unfold cut_at_quote. induction s as [|c s IH]; [by exists []|]. cbn [strchr]. destruct (ascii_eqb c DQUOTE).
  - by exists (c :: s).
  - destruct IH as [r Hr]. destruct (strchr s DQUOTE) as [[b q]|]; [exists r; by rewrite Hr at 1|]. exists [].
    by rewrite app_nil_r.
Qed.

Lemma cut_without a s : without DQUOTE a = true → cut_at_quote (a ++ s) = a ++ cut_at_quote s.
Proof. intros Ha. unfold cut_at_quote. rewrite strchr_skip by done. by destruct (strchr s DQUOTE) as [[]|]. Qed.

Lemma strchr_cut s r : ∃ q, strchr (s ++ DQUOTE :: r) DQUOTE = Some (cut_at_quote s, q).
Proof.
  unfold cut_at_quote. induction s as [|c s [q IH]]; cbn [app]; [rewrite strchr_here; by eexists|].
  cbn [strchr]. destruct (ascii_eqb c DQUOTE); [by eexists|]. rewrite IH.
  destruct (strchr s DQUOTE) as [[b q']|]; by eexists.
Qed.

Lemma extract_server original optimized rest :
  json_body original = true → ¬ (DQUOTE :: text_of "optimized_sql") `suffix_of` (DQUOTE :: original) →
  extract_string (server_response original optimized rest) "optimized_sql" = Some (cut_at_quote optimized).
Proof.
  intros Hb Hsuf. unfold extract_string, server_response.
  set (behind := quoted_key "optimized_sql" ++ text_of ": " ++ DQUOTE :: optimized ++ DQUOTE :: rest).
  assert (∀ a r, without DQUOTE a = true →
    strstr (a ++ r) (quoted_key "optimized_sql") = prepend a (strstr r (quoted_key "optimized_sql"))) as Hskip
    by (intros; by apply strstr_skip).
  assert (strstr behind (quoted_key "optimized_sql") = Some ([], behind)) as Hbehind by apply strstr_here.
  assert (∃ b, strstr (text_of "{" ++ quoted_key "original_sql" ++ text_of ": " ++
    (DQUOTE :: original ++ DQUOTE :: text_of ", ") ++ behind) (quoted_key "optimized_sql") = Some (b, behind))
    as [b ->].
  { rewrite Hskip by done. unfold quoted_key at 1. cbn [app]. rewrite <- !app_assoc. cbn [app].
    unfold quoted_key in Hskip, Hbehind |- *. rewrite strstr_string; [|done|done| |done].
    - rewrite Hskip by done. rewrite strstr_string, Hskip, Hbehind by done. by eexists.
    - intros H%suffix_length. vm_compute in H. lia. }
  cbn [mbind option_bind]. unfold behind. change (text_of ": ") with [":"%char; " "%char]. cbn [app].
  rewrite strchr_first by done. cbn [mbind option_bind].
  match goal with |- context [strchr (":"%char :: " "%char :: ?r) DQUOTE] =>
    change (":"%char :: " "%char :: r) with ([":"%char; " "%char] ++ r) end.
  rewrite strchr_first by done. cbn [mbind option_bind drop].
  rewrite ?drop_0. by destruct (strchr_cut optimized rest) as [q ->].
Qed.

Lemma strstr_prefix_None a b old : strstr (a ++ b) old = None → strstr a old = None.
Proof.
  intros H. destruct (strstr a old) as [[x q]|] eqn:E; [|done]. apply strstr_Some in E as (-> & [r ->]%starts_with_spec & _).
  pose proof (strstr_None _ _ H x (old ++ r ++ b)) as Hn. rewrite starts_with_app in Hn.
  by rewrite <- !app_assoc in Hn; specialize (Hn eq_refl).
Qed.

(** The body of the string that stands for a text. *)
Definition json_string_body (s : text) : text := concat (escape_char <$> s).

Lemma json_string_body_ok s : json_body (json_string_body s) = true.
Proof.
  unfold json_string_body. induction s as [|c s IH]; [done|]. cbn [fmap list_fmap concat]. rewrite <- IH.
  destruct c as [[] [] [] [] [] [] [] []]; reflexivity.
Qed.

(** ** The request *)

(** Characters of a query JSON can carry as the client writes them. *)
Definition sql_char (c : ascii) : bool :=
  (31 <? code c) || ascii_eqb c NEWLINE || ascii_eqb c RETURN || ascii_eqb c TAB.

Definition request_item (sql : text) : cJSON := cJSON_Object [(text_of "sql", cJSON_String sql)].

Lemma escape_sql_char_json c : sql_char c = true → escape_sql_char c = escape_char c.
Proof. destruct c as [[] [] [] [] [] [] [] []]; by vm_compute. Qed.

(** The payload is what the JSON printer of the pipeline would write. *)
Lemma payload_text sql : forallb sql_char sql = true → json_payload (escape_sql sql) = json_text (request_item sql).
Proof.
  intros Hs. assert (escape_sql sql = concat (escape_char <$> sql)) as ->.
  { unfold escape_sql. induction sql as [|c sql IH]; [done|]. cbn in Hs. apply andb_prop in Hs as [Hc Hs].
    cbn [fmap list_fmap concat]. rewrite escape_sql_char_json by done. f_equal. by apply IH. }
  unfold json_payload, request_item. cbn -[text_of]. unfold member_text, string_text. cbn [fst snd json_text].
  unfold string_text. rewrite <- !app_assoc. cbn [app]. rewrite <- !app_assoc. reflexivity.
Qed.

Lemma payload_parses sql : forallb sql_char sql = true →
  cJSON_Parse (json_payload (escape_sql sql)) = Some (request_item sql).
Proof.
  intros Hs. rewrite payload_text by done. unfold cJSON_Parse. rewrite parse_item; [done| |done|done|done].
  cbn. split_and!; try done; [by repeat constructor|]. unfold zero_free. apply Forall_forall. intros c Hc ->.
  rewrite forallb_forall in Hs. apply list_elem_of_In in Hc. by specialize (Hs _ Hc).
Qed.

Lemma escape_sql_length s : zlen (escape_sql s) ≤ 2 * zlen s.
Proof.
  unfold escape_sql, zlen. induction s as [|c s IH]; cbn [fmap list_fmap concat length]; [lia|].
  rewrite length_app. assert (length (escape_sql_char c) ≤ 2)%nat; [|lia].
  unfold escape_sql_char. by repeat case_match; cbn; lia.
Qed.

Lemma snprintf_fits size s : zlen s < size → snprintf size s = s.
Proof. intros H. unfold snprintf. apply take_ge. unfold zlen in H. lia. Qed.

(** ** What the client does *)

Section client.
Context {settings : Type}.
Implicit Types s : molqo_state settings.

Lemma palloc_spec size content s : zlen content + 1 ≤ size →
  ∃ p, heap s !! p = None ∧ palloc_string size content s = (Ok p, with_heap (<[p := content]> (heap s)) s).
Proof.
  intros H. exists (fresh (dom (heap s))). split; [apply not_elem_of_dom, is_fresh|].
  unfold palloc_string. by rewrite (proj2 (Z.leb_le _ _) H).
Qed.

Lemma pfree_spec p t s : heap s !! p = Some t → pfree p s = (Ok tt, with_heap (delete p (heap s)) s).
Proof. intros H. unfold pfree. by rewrite H. Qed.

Lemma fresh_insert p q (t : text) (h : gmap nat text) : <[q := t]> h !! p = None → p ≠ q ∧ h !! p = None.
Proof. intros [? ?]%lookup_insert_None. by split. Qed.

Lemma with_heap_id s : with_heap (heap s) s = s.
Proof. by destruct s. Qed.

Lemma with_heap_twice h h' s : with_heap h (with_heap h' s) = with_heap h s.
Proof. done. Qed.
End client.

(** Heaps that differ in buffers that were allocated and freed. *)
Ltac heap_eq :=
  apply map_eq; intros ?i;
  repeat match goal with
    | |- context [<[?p := _]> _ !! ?j] => destruct (decide (j = p)) as [->|]; simplify_map_eq
    | |- context [delete ?p _ !! ?j] => destruct (decide (j = p)) as [->|]; simplify_map_eq
    end; try done.

Ltac allocate p Hp :=
  match goal with
  | |- context [mbind _ (palloc_string ?size ?content) ?s] =>
      let E := fresh "E" in
      destruct (palloc_spec size content s) as (p & Hp & E);
      [|rewrite (M_bind_ok _ _ _ _ _ E); clear E; cbn [heap with_heap with_files] in Hp]
  end.

Ltac copy_found p Hp :=
  match goal with
  | |- context [mbind _ (mbind _ (palloc_string ?size ?content)) ?s] =>
      let E := fresh "E" in
      destruct (palloc_spec size content s) as (p & Hp & E); [lia|];
      rewrite (M_bind_ok _ (mbind _ (palloc_string size content)) s (Some p) _
        (eq_trans (M_bind_ok _ _ _ _ _ E) eq_refl)); clear E; cbn [heap with_heap with_files] in Hp
  end;
  repeat (apply fresh_insert in Hp as [? Hp]).

Ltac free :=
  match goal with
  | |- context [mbind _ (pfree ?p) ?s] =>
      erewrite (M_bind_ok _ (pfree p) s) by (eapply pfree_spec; cbn [heap with_heap with_files]; simplify_map_eq; done)
  end; cbn [heap with_heap with_files].

(** The result of a function that has freed its buffers. *)
Ltac balanced := do 2 eexists; split; [done|]; cbn; split_and!; try done;
  try (by rewrite ?delete_insert_eq); try heap_eq.

Section request.
Context {settings : Type}.
Context (getpid time : Z) (can_create : text → bool).
Context (shell : text → gmap text text → option (text * Z)).
Implicit Types s : molqo_state settings.

Abbreviation send := (send_http_request getpid time can_create shell).
Abbreviation tmp := (tmp_file_name getpid time).

(** What the client makes of the answer: nothing when the request fails, the text
    behind [optimized_sql], or the query when there is none. *)
Definition answer (url sql : text) (fs : gmap text text) : option text :=
  if can_create tmp then
    match shell (curl_command tmp url) (<[tmp := json_payload (escape_sql sql)]> fs) with
    | Some (output, status) =>
        let response := take (Z.to_nat 8191) output in
        if (status =? 0) && negb (zlen response =? 0) then
          Some (default sql (extract_string (c_string response) "optimized_sql"))
        else None
    | None => None
    end
  else None.

Definition files_after (fs : gmap text text) : gmap text text := if can_create tmp then delete tmp fs else fs.

Lemma write_file_ok name content s :
  write_file can_create name content s =
  (Ok (can_create name), if can_create name then with_files (<[name := content]> (files s)) s else s).
Proof. unfold write_file. by destruct (can_create name). Qed.

Lemma send_http_request_spec url sql s :
  ∃ r s', send url sql s = (Ok r, s') ∧ files s' = files_after (files s) ∧
    p_sourcetext s' = p_sourcetext s ∧ gucs s' = gucs s ∧
    match answer url sql (files s) with
    | None => r = None ∧ heap s' = heap s
    | Some v => ∃ p, r = Some p ∧ heap s !! p = None ∧ heap s' = <[p := v]> (heap s)
    end.
Proof.
  unfold send_http_request. allocate e He; [pose proof (escape_sql_length sql); lia|].
  rewrite (snprintf_fits _ (json_payload (escape_sql sql))) by
    (unfold json_payload, zlen; rewrite !length_app; cbn; lia).
  allocate q Hq; [unfold json_payload, zlen; rewrite !length_app; cbn; lia|].
  assert (e ≠ q) as Heq by (intros ->; by simplify_map_eq). simplify_map_eq.
  rewrite (M_bind_ok _ _ _ _ _ (write_file_ok _ _ _)). unfold answer, files_after.
  destruct (can_create tmp); cbn [negb].
  2:{ free. free. balanced. }
  rewrite (snprintf_fits _ (curl_command _ _)) by (unfold curl_command, zlen; rewrite !length_app; cbn; lia).
  allocate c Hc; [unfold curl_command, zlen; rewrite !length_app; cbn; lia|].
  apply fresh_insert in Hc as [Hce Hc]. apply fresh_insert in Hc as [Hcq Hc].
  rewrite (M_bind_ok _ get_st _ _ _ eq_refl). cbn [files with_heap with_files].
  destruct (shell _ _) as [[output status]|].
  2:{ rewrite (M_bind_ok _ (unlink _) _ _ _ eq_refl). free. free. free.
      balanced. }
  rewrite (M_bind_ok _ (unlink _) _ _ _ eq_refl). cbn zeta.
  destruct (status =? 0); cbn [negb andb].
  2:{ free. free. free. balanced. }
  destruct (zlen _ =? 0); cbn [negb].
  { free. free. free. balanced. }
  destruct (extract_string _ "optimized_sql") as [v|]; cbn [copy_extracted default].
  - copy_found p Hp. destruct (extract_string _ "expert_name") as [x|]; cbn [copy_extracted].
    + copy_found y Hy. rewrite (M_bind_ok _ (mret p) _ _ _ eq_refl). free. free. free. free.
      balanced. exists p. split_and!; [done..|heap_eq].
    + rewrite (M_bind_ok _ (mret None) _ _ _ eq_refl), (M_bind_ok _ (mret p) _ _ _ eq_refl). free. free. free.
      rewrite (M_bind_ok _ (mret tt) _ _ _ eq_refl). balanced. exists p. split_and!; [done..|heap_eq].
  - rewrite (M_bind_ok _ (mret None) _ _ _ eq_refl).
    destruct (extract_string _ "expert_name") as [x|]; cbn [copy_extracted].
    + copy_found y Hy. unfold pstrdup. allocate p Hp; [lia|]. repeat (apply fresh_insert in Hp as [? Hp]).
      free. free. free. free. balanced. exists p. split_and!; [done..|heap_eq].
    + rewrite (M_bind_ok _ (mret None) _ _ _ eq_refl). unfold pstrdup. allocate p Hp; [lia|].
      repeat (apply fresh_insert in Hp as [? Hp]). free. free. free.
      rewrite (M_bind_ok _ (mret tt) _ _ _ eq_refl). balanced. exists p. split_and!; [done..|heap_eq].
Qed.
End request.

(** The text of plain commands needs no escapes. *)
Lemma json_body_plain a s : forallb plain_char a = true → json_string_body (a ++ s) = a ++ json_string_body s.
Proof.
  intros Ha. unfold json_string_body. induction a as [|c a IH]; [done|]. cbn in Ha. apply andb_prop in Ha as [Hc Ha].
  cbn [app fmap list_fmap concat]. rewrite IH by done. unfold escape_char at 1. unfold plain_char in Hc. by rewrite Hc.
Qed.

Lemma name_char_plain c : name_char c = true → plain_char c = true.
Proof. destruct c as [[] [] [] [] [] [] [] []]; by vm_compute. Qed.

Lemma print_set_plain c : command_ok c = true → forallb plain_char (set_value c) = true →
  forallb plain_char (print_set c) = true.
Proof.
  intros Hc%command_ok_facts Hv. unfold print_set, assignment, written_value. rewrite !forallb_app.
  assert (forallb plain_char (set_name c) = true) as ->.
  { apply forallb_forall. intros x Hx. apply name_char_plain. pose proof (cf_chars _ Hc) as H.
    rewrite forallb_forall in H. by apply H. }
  assert (forallb plain_char (separator (style c)) = true) as -> by by destruct (style c).
  destruct (quoted c); cbn; rewrite ?forallb_app, Hv; done.
Qed.

Lemma commands_plain cmds :
  forallb (λ c, command_ok c && forallb plain_char (set_value c)) cmds = true →
  forallb plain_char (concat (print_set <$> cmds)) = true.
Proof.
  intros H. induction cmds as [|c cmds IH]; [done|]. cbn in H. apply andb_prop in H as [[Hc Hv]%andb_prop H].
  cbn [fmap list_fmap concat]. rewrite forallb_app, print_set_plain, IH by done. done.
Qed.

Lemma plain_without_quote s : forallb plain_char s = true → without DQUOTE s = true.
Proof.
  unfold without. rewrite !forallb_forall. intros H x Hx. specialize (H x Hx). unfold plain_char in H.
  by apply andb_prop in H as [[_ H]%andb_prop _].
Qed.

Section hook.
Context {settings : Type}.
Context (enable_molqo : settings → bool) (molqo_server_url : settings → option text).
Context (SetConfigOption : text → text → settings → outcome unit * settings).
Context (getpid time : Z) (can_create : text → bool).
Context (shell : text → gmap text text → option (text * Z)).
Implicit Types s : molqo_state settings.

Definition run_settings (cmds : list (text * text)) : M settings unit :=
  for_each (λ '(name, value), SetConfigOption name value) cmds.

Definition commands_of (sql : text) : list (text * text) := set_commands (S (length sql)) sql.

Lemma set_loop_commands fuel cur s : (length cur < fuel)%nat →
  set_loop SetConfigOption fuel cur s =
  for_each (λ '(name, value), set_config_option SetConfigOption name value) (set_commands fuel cur) s.
Proof.
  revert cur s. induction fuel as [|fuel IH]; intros cur s Hf; [lia|]. cbn [set_loop set_commands].
  destruct (strstr cur _) as [[b q]|] eqn:E1; [|done]. destruct (strchr q ";") as [[c r]|] eqn:E2; [|done].
  assert (length (drop 1 r) < fuel)%nat as Hr.
  { apply length_strstr in E1. apply length_strchr in E2. rewrite length_drop. lia. }
  destruct (parse_set (drop 4 c)) as [[n v]|].
  - change (option_list (Some (n, v)) ++ ?x) with ((n, v) :: x). rewrite for_each_cons. unfold mbind, M_bind. destruct (set_config_option _ _ _ _) as [[]]; [by apply IH|done..].
  - rewrite (M_bind_ok _ (mret tt) _ _ _ eq_refl). by apply IH.
Qed.

Lemma set_commands_run cmds s :
  for_each (λ '(name, value), set_config_option SetConfigOption name value) cmds s =
  ((run_settings cmds (gucs s)).1, with_gucs (run_settings cmds (gucs s)).2 s).
Proof.
  revert s. induction cmds as [|[n v] cmds IH]; intros s; [by destruct s|].
  unfold run_settings in *. rewrite !for_each_cons. unfold mbind, M_bind, set_config_option.
  destruct (SetConfigOption n v (gucs s)) as [[[]| |] g]; [|done..]. by rewrite IH.
Qed.

Lemma execute_optimized_sql_spec sql s :
  ∃ s', execute_optimized_sql SetConfigOption sql s = ((run_settings (commands_of sql) (gucs s)).1, s') ∧
    files s' = files s ∧ p_sourcetext s' = p_sourcetext s ∧ gucs s' = (run_settings (commands_of sql) (gucs s)).2 ∧
    heap s ⊆ heap s' ∧
    ((run_settings (commands_of sql) (gucs s)).1 = Ok tt → heap s' = heap s).
Proof.
  unfold execute_optimized_sql, pstrdup. allocate c Hc; [lia|].
  set (s1 := with_heap _ s).
  assert (set_loop SetConfigOption (S (length sql)) sql s1 =
    ((run_settings (commands_of sql) (gucs s)).1, with_gucs (run_settings (commands_of sql) (gucs s)).2 s1)) as E.
  { rewrite set_loop_commands by lia. by rewrite set_commands_run. }
  unfold mbind at 1, M_bind at 1. rewrite E.
  destruct (run_settings _ _) as [[[]| |] g]; cbn [fst snd].
  - erewrite pfree_spec by (cbn; by simplify_map_eq). eexists. split; [done|]. cbn.
    rewrite delete_insert_id by done. done.
  - eexists. split; [done|]. cbn. split_and!; try done. by apply insert_subseteq.
  - eexists. split; [done|]. cbn. split_and!; try done. by apply insert_subseteq.
Qed.

(** The queries that are sent to the server, with its address. *)
Definition optimizable (commandType : CmdType) (s : molqo_state settings) : option (text * text) :=
  if enable_molqo (gucs s) && bool_decide (commandType = CMD_SELECT) then
    url ← molqo_server_url (gucs s);
    q ← p_sourcetext s;
    sql ← heap s !! q;
    if bool_decide (url = []) || bool_decide (sql = []) then None else Some (url, sql)
  else None.

(** What the hook does with a query. *)
Definition hook_effect (url sql : text) (s s' : molqo_state settings) : Prop :=
  files s' = files_after getpid time can_create (files s) ∧ heap s ⊆ heap s' ∧
  match answer getpid time can_create shell url sql (files s) with
  | None => p_sourcetext s' = p_sourcetext s ∧ gucs s' = gucs s ∧ heap s' = heap s
  | Some opt =>
      if bool_decide (opt = sql) then
        p_sourcetext s' = p_sourcetext s ∧ gucs s' = gucs s ∧ heap s' = heap s
      else if has_hints opt then
        gucs s' = gucs s ∧ heap s' = heap s ∧ ∃ p, p_sourcetext s' = Some p ∧ heap s' !! p = None
      else
        p_sourcetext s' = p_sourcetext s ∧ gucs s' = (run_settings (commands_of opt) (gucs s)).2 ∧
        ((run_settings (commands_of opt) (gucs s)).1 = Ok tt → heap s' = heap s)
  end.

Lemma run_settings_no_ub cmds g why :
  (∀ name value g why, (SetConfigOption name value g).1 ≠ Ub why) → (run_settings cmds g).1 ≠ Ub why.
Proof.
  intros H. revert g. induction cmds as [|[n v] cmds IH]; intros g; [done|].
  unfold run_settings in *. rewrite for_each_cons. unfold mbind, M_bind. specialize (H n v g why).
  destruct (SetConfigOption n v g) as [[]]; cbn in *; [apply IH|done|congruence].
Qed.

Lemma hint_text_ok sql s : hint_text sql s = (Ok tt, s).
Proof.
  unfold hint_text. destruct (strstr sql _) as [[b q]|]; [|done]. destruct (strstr q _) as [[h r]|]; [|done].
  allocate p Hp; [unfold zlen; rewrite length_take; lia|].
  erewrite pfree_spec by (cbn; by simplify_map_eq). cbn. rewrite delete_insert_id by done. by destruct s.
Qed.

Lemma optimize_source_spec url sql s :
  (∀ name value g why, (SetConfigOption name value g).1 ≠ Ub why) → molqo_server_url (gucs s) = Some url →
  ∃ s', forget_error (optimize_source molqo_server_url SetConfigOption getpid time can_create shell sql) s =
    (Ok tt, s') ∧ hook_effect url sql s s'.
Proof.
  intros Hub Hurl. unfold forget_error, optimize_source, call_external_optimizer, hook_effect.
  destruct (send_http_request_spec getpid time can_create shell url sql s) as (r & s1 & E & Hf & Hp & Hg & Ha).
  assert ((s ← get_st; match molqo_server_url (gucs s) with
    | Some url => send_http_request getpid time can_create shell url sql
    | None => lift_out (Ub "strlen of a null pointer") end) s = (Ok r, s1)) as Ecall.
  { rewrite (M_bind_ok _ get_st _ _ _ eq_refl). by rewrite Hurl. }
  rewrite (M_bind_ok _ _ _ _ _ Ecall). clear E Ecall. destruct (answer _ _ _ _ _ _ _) as [opt|].
  2:{ destruct Ha as [-> Hh]. exists s1. by rewrite Hh. }
  destruct Ha as (p & -> & Hn & Hh).
  rewrite (M_bind_ok _ (deref p) s1 opt s1) by (unfold deref; by rewrite Hh, lookup_insert_eq).
  assert (∀ s2, heap s2 !! p = Some opt → pfree p s2 = (Ok tt, with_heap (delete p (heap s2)) s2)) as Hfree
    by (intros; by eapply pfree_spec).
  assert (heap s1 !! p = Some opt) as Hs1 by by rewrite Hh, lookup_insert_eq.
  assert (delete p (heap s1) = heap s) as Hdel by (rewrite Hh; by apply delete_insert_id).
  case_bool_decide as Heq.
  - rewrite (M_bind_ok _ (mret tt) _ _ _ eq_refl), Hfree by done. eexists. split; [done|]. cbn. by rewrite Hdel.
  - destruct (has_hints opt).
    + rewrite (M_bind_ok _ _ s1 tt (with_source (Some p) s1)).
      * rewrite Hfree by done. eexists. split; [done|]. cbn. rewrite Hdel. by split_and!; [..|exists p].
      * by rewrite (M_bind_ok _ _ _ _ _ (hint_text_ok opt s1)).
    + destruct (execute_optimized_sql_spec opt s1) as (s2 & E2 & Hf2 & Hp2 & Hg2 & Hsub & Hh2).
      rewrite Hg in *. pose proof (run_settings_no_ub (commands_of opt) (gucs s)) as Hno.
      unfold mbind, M_bind. rewrite E2. destruct (run_settings (commands_of opt) (gucs s)) as [[[]|e|e] g]; cbn in *.
      * rewrite Hfree by by rewrite Hh2. eexists. split; [done|]. cbn. rewrite Hh2, Hdel, Hf2, Hp2 by done. done.
      * exists s2. rewrite Hf2, Hp2. split_and!; try done.
        etrans; [|exact Hsub]. rewrite Hh. by apply insert_subseteq.
      * exfalso. by eapply Hno.
Qed.

(** The server is sent the query as JSON and answers with the query behind commands,
    without zero bytes and with at most 8191 bytes. *)
Record answered (cmds : list set_command) (sql rest url : text) (fs : gmap text text) : Prop := mkAnswered {
  an_shell :
    shell (curl_command (tmp_file_name getpid time) url)
      (<[tmp_file_name getpid time := json_text (request_item sql)]> fs) =
    Some (server_response (json_string_body sql) (json_string_body (concat (print_set <$> cmds) ++ sql)) rest, 0);
  an_length :
    zlen (server_response (json_string_body sql) (json_string_body (concat (print_set <$> cmds) ++ sql)) rest) ≤ 8191;
  an_zero :
    zero_free (server_response (json_string_body sql) (json_string_body (concat (print_set <$> cmds) ++ sql)) rest)
}.

(** The answer when the server puts commands in front of the query. *)
Lemma answer_commands cmds sql rest url fs :
  can_create (tmp_file_name getpid time) = true → forallb sql_char sql = true →
  forallb (λ c, command_ok c && forallb plain_char (set_value c)) cmds = true →
  ¬ (DQUOTE :: text_of "optimized_sql") `suffix_of` (DQUOTE :: json_string_body sql) →
  answered cmds sql rest url fs →
  answer getpid time can_create shell url sql fs =
    Some (concat (print_set <$> cmds) ++ cut_at_quote (json_string_body sql)).
Proof.
  intros Hcan Hsql Hcmds Hsuf [Hshell Hlen Hz]. unfold answer. rewrite Hcan, payload_text, Hshell by done. cbn zeta.
  rewrite take_ge by (unfold zlen in Hlen; lia). rewrite c_string_zero_free by done.
  assert ((zlen (server_response (json_string_body sql)
    (json_string_body (concat (print_set <$> cmds) ++ sql)) rest) =? 0) = false) as -> by done.
  cbn [Z.eqb andb negb]. rewrite extract_server by (done || apply json_string_body_ok). cbn [default].
  f_equal. rewrite json_body_plain by by apply commands_plain.
  by apply cut_without, plain_without_quote, commands_plain.
Qed.

Lemma hook_effects (commandType : CmdType) (s : molqo_state settings) :
  (∀ name value g why, (SetConfigOption name value g).1 ≠ Ub why) →
  (∀ q, p_sourcetext s = Some q → is_Some (heap s !! q)) →
  ∃ s', query_optimizer_post_parse_analyze enable_molqo molqo_server_url SetConfigOption None getpid time can_create
          shell commandType s = (Ok tt, s') ∧
    match optimizable commandType s with
    | None => s' = s
    | Some (url, sql) => hook_effect url sql s s'
    end.
Proof.
  intros Hub Hsrc. unfold query_optimizer_post_parse_analyze, optimizable.
  rewrite (M_bind_ok _ (mret tt) _ _ _ eq_refl), (M_bind_ok _ get_st _ _ _ eq_refl).
  destruct (enable_molqo (gucs s)); [|by eexists]. cbn [negb andb].
  destruct (molqo_server_url (gucs s)) as [[|u url]|] eqn:Hurl; cbn [mbind option_bind].
  - exists s. split; [done|]. case_bool_decide; [|done]. destruct (p_sourcetext s) as [q|]; [|done]. cbn.
    by destruct (heap s !! q); cbn; rewrite ?bool_decide_true.
  - destruct (decide (commandType = CMD_SELECT)) as [->|Hc].
    + rewrite bool_decide_false, bool_decide_true by (try done; by intros H; apply H).
      destruct (p_sourcetext s) as [q|]; [|by eexists]. cbn [mbind option_bind].
      destruct (Hsrc q eq_refl) as [sql E]. rewrite E, (M_bind_ok _ (deref q) s sql s) by (unfold deref; by rewrite E).
      destruct sql as [|c sql]; [by eexists|]. by apply optimize_source_spec.
    + rewrite bool_decide_true, bool_decide_false by done. by eexists.
  - exists s. split; [done|]. by case_bool_decide.
Qed.

Lemma optimizable_source ct s url sql : optimizable ct s = Some (url, sql) →
  ∀ q, p_sourcetext s = Some q → is_Some (heap s !! q).
Proof.
  unfold optimizable. intros H q Hq. destruct (_ && _); [|done]. rewrite Hq in H.
  destruct (molqo_server_url _); [|done]. cbn in H. destruct (heap s !! q); [|done]. by eexists.
Qed.

Lemma forallb_impl {A} (p p' : A → bool) l : (∀ x, p x = true → p' x = true) → forallb p l = true → forallb p' l = true.
Proof. intros H. rewrite !forallb_forall. eauto. Qed.

Lemma print_set_length cmds : (length cmds ≤ length (concat (print_set <$> cmds)))%nat.
Proof.
  induction cmds as [|c cmds IH]; [done|]. cbn [fmap list_fmap concat length]. rewrite length_app.
  unfold print_set at 1. rewrite length_app. change (length (text_of "SET ")) with 4%nat. lia.
Qed.

(** C21. The hook first calls the hook that was installed before it, such as that of
    pg_hint_plan; when that one raises, so does this one, with the same error and
    nothing else done. Otherwise it does not fail and never leaves its temporary
    file: for a query that is not sent nothing changes; a request that fails, or
    an answer that is the query, leaves everything as it was, memory included; an
    answer without hints runs its SET commands in order up to the first that
    raises an error, which is forgotten; an answer with hints makes the source
    text of the query a pointer to memory that the hook has freed. *)
Theorem molqo_hook_effects (prev_hook : option (M (molqo_state settings) unit)) (commandType : CmdType)
    (s : molqo_state settings) :
  (∀ name value g why, (SetConfigOption name value g).1 ≠ Ub why) →
  let hook := query_optimizer_post_parse_analyze enable_molqo molqo_server_url SetConfigOption prev_hook getpid time
                can_create shell commandType in
  match default (mret tt) prev_hook s with
  | (Ok _, s0) =>
      (∀ q, p_sourcetext s0 = Some q → is_Some (heap s0 !! q)) →
      ∃ s', hook s = (Ok tt, s') ∧
        match optimizable commandType s0 with
        | None => s' = s0
        | Some (url, sql) => hook_effect url sql s0 s'
        end
  | (Raise e, s0) => hook s = (Raise e, s0)
  | (Ub e, s0) => hook s = (Ub e, s0)
  end.
Proof.
  intros Hub hook. destruct (default (mret tt) prev_hook s) as [r s0] eqn:E.
  assert (hook s = match r with
    | Ok _ => query_optimizer_post_parse_analyze enable_molqo molqo_server_url SetConfigOption None getpid time
                can_create shell commandType s0
    | Raise e => (Raise e, s0)
    | Ub e => (Ub e, s0)
    end) as Hh.
  { unfold hook, query_optimizer_post_parse_analyze, mbind, M_bind. destruct prev_hook as [prev|]; cbn in E; rewrite E; by destruct r. }
  destruct r as [[]|e|e]; [|done..]. intros Hsrc. rewrite Hh. by apply hook_effects.
Qed.

(** C22. A query the server answers with SET commands in front of it: the server is
    sent exactly the query as JSON, and the hook sets exactly these parameters in
    their order, each to its value, and leaves the source text. The answer may have
    any original text and any query whose own text has no SET command and no hints;
    a value without quotes loses the blanks, equal signs and letters T and O it
    begins with. *)
Theorem molqo_settings_applied (cmds : list set_command) (sql rest url : text) (s : molqo_state settings) :
  (∀ name value g why, (SetConfigOption name value g).1 ≠ Ub why) →
  optimizable CMD_SELECT s = Some (url, sql) → can_create (tmp_file_name getpid time) = true →
  forallb sql_char sql = true → cmds ≠ [] →
  forallb (λ c, command_ok c && forallb plain_char (set_value c)) cmds = true →
  ¬ (DQUOTE :: text_of "optimized_sql") `suffix_of` (DQUOTE :: json_string_body sql) →
  strstr (json_string_body sql) (text_of "SET ") = None →
  strstr (concat (print_set <$> cmds) ++ json_string_body sql) (text_of "/*+") = None →
  answered cmds sql rest url (files s) →
  cJSON_Parse (json_payload (escape_sql sql)) = Some (request_item sql) ∧
  ∃ s', query_optimizer_post_parse_analyze enable_molqo molqo_server_url SetConfigOption None getpid time can_create
          shell CMD_SELECT s = (Ok tt, s') ∧
    p_sourcetext s' = p_sourcetext s ∧
    gucs s' = (run_settings ((λ c, (set_name c, passed_value c)) <$> cmds) (gucs s)).2.
Proof.
  intros Hub Hopt Hcan Hsql Hne Hcmds Hsuf Hset Hhint Hans. split; [by apply payload_parses|].
  destruct (hook_effects CMD_SELECT s Hub) as (s' & E & Heff); [by eapply optimizable_source|].
  exists s'. split; [exact E|]. rewrite Hopt in Heff. destruct Heff as (_ & _ & Heff).
  rewrite (answer_commands cmds sql rest url) in Heff by done.
  set (b := json_string_body sql) in *. destruct (cut_prefix b) as [r Hb].
  rewrite bool_decide_false in Heff.
  - assert (has_hints (concat (print_set <$> cmds) ++ cut_at_quote b) = false) as Hh.
    { unfold has_hints. apply bool_decide_eq_false. rewrite (strstr_prefix_None _ r); [by intros [? ?]|].
      by rewrite <- app_assoc, <- Hb. }
    rewrite Hh in Heff. destruct Heff as (-> & -> & _). split; [done|]. do 2 f_equal. unfold commands_of.
    apply set_commands_print.
    + eapply forallb_impl, Hcmds. by intros c [? _]%andb_prop.
    + rewrite Hb in Hset. by apply strstr_prefix_None in Hset.
    + pose proof (print_set_length cmds). rewrite length_app. lia.
  - intros Heq. destruct cmds as [|c cmds]; [done|]. pose proof (strstr_None _ _ Hset [] b eq_refl) as Hno.
    unfold b in Hno. rewrite <- Heq in Hno. cbn [fmap list_fmap concat] in Hno. unfold print_set at 1 in Hno.
    rewrite <- !app_assoc in Hno. rewrite json_body_plain, starts_with_app in Hno by done. done.
Qed.
End hook.

(** C39. A Boolean value in capital letters is not the one that is set: [ON], in
    each of the three notations, sets the parameter to [N], which the server reads
    as off; [OFF] and [TRUE] become texts that are no Booleans. *)
Theorem set_on_turns_off (name : text) (st : set_style) :
  name ≠ [] → forallb name_char name = true →
  ∃ on off true_,
    commands_of (print_set (mkSet name st false (text_of "ON"))) = [(name, on)] ∧
    commands_of (print_set (mkSet name st false (text_of "OFF"))) = [(name, off)] ∧
    commands_of (print_set (mkSet name st false (text_of "TRUE"))) = [(name, true_)] ∧
    parse_bool (text_of "ON") = Some true ∧ parse_bool on = Some false ∧
    parse_bool (text_of "OFF") = Some false ∧ parse_bool off = None ∧
    parse_bool (text_of "TRUE") = Some true ∧ parse_bool true_ = None.
Proof.
  intros Hne Hname.
  assert (∀ v, command_ok (mkSet name st false v) = true →
    commands_of (print_set (mkSet name st false v)) = [(name, trim_value (skip_while separator_char v))]) as H.
  { intros v Hv. unfold commands_of.
    pose proof (set_commands_print [mkSet name st false v] (S (length (print_set (mkSet name st false v)))) []) as E.
    cbn [fmap list_fmap concat] in E. rewrite !app_nil_r in E. apply E; [by cbn [forallb]; rewrite Hv|done|].
    unfold print_set. rewrite length_app. cbn. lia. }
  assert (∀ v, v ∈ [text_of "ON"; text_of "OFF"; text_of "TRUE"] → command_ok (mkSet name st false v) = true) as Hok.
  { intros v Hv. unfold command_ok. cbn [set_name]. destruct name as [|c n]; [done|]. rewrite Hname.
    repeat (apply elem_of_cons in Hv as [->|Hv]; [by destruct st|]). by apply not_elem_of_nil in Hv. }
  do 3 eexists. split_and!; [apply H, Hok; set_solver..| | | | | |]; by vm_compute.
Qed.

(** ** A server *)

Definition demo_commands : list set_command :=
  [mkSet (text_of "enable_mergejoin") style_to false (text_of "off");
   mkSet (text_of "work_mem") style_spaced true (text_of "128 MB");
   mkSet (text_of "enable_nestloop") style_tight false (text_of "ON")].

Definition demo_sql : text := text_of "SELECT " ++ quoted_key "a" ++ [NEWLINE] ++ text_of "FROM t WHERE b = 'x'".

Definition demo_tmp : text := tmp_file_name 4711 1700000000.

(** A server that reads the request with the JSON parser. *)
Definition demo_shell (command : text) (fs : gmap text text) : option (text * Z) :=
  payload ← fs !! demo_tmp;
  item ← cJSON_Parse payload;
  sql ← cJSON_GetObjectItem item "sql";
  match sql with
  | cJSON_String q =>
      Some (server_response (json_string_body q) (json_string_body (concat (print_set <$> demo_commands) ++ q))
              (text_of "}"), 0)
  | _ => None
  end.

Definition demo_set (name value : text) (g : list (text * text)) : outcome unit * list (text * text) :=
  (Ok tt, g ++ [(name, value)]).

Definition demo_state : molqo_state (list (text * text)) := mkMolqo {[0%nat := demo_sql]} ∅ (Some 0%nat) [].

Definition demo_hook : M (molqo_state (list (text * text))) unit :=
  query_optimizer_post_parse_analyze (λ _, true) (λ _, Some (text_of "http://localhost:8080/optimize_set")) demo_set None
    4711 1700000000 (λ _, true) demo_shell CMD_SELECT.

Example settings_arrive : gucs (demo_hook demo_state).2 =
  [(text_of "enable_mergejoin", text_of "off"); (text_of "work_mem", text_of "128 MB");
   (text_of "enable_nestloop", text_of "N")].
Proof. vm_compute. reflexivity. Qed.

Lemma molqo_settings_applied_witness : ∃ s', demo_hook demo_state = (Ok tt, s') ∧
  gucs s' = [(text_of "enable_mergejoin", text_of "off"); (text_of "work_mem", text_of "128 MB");
             (text_of "enable_nestloop", text_of "N")].
Proof.
  destruct (molqo_settings_applied (λ _, true) (λ _, Some (text_of "http://localhost:8080/optimize_set")) demo_set
    4711 1700000000 (λ _, true) demo_shell demo_commands demo_sql (text_of "}")
    (text_of "http://localhost:8080/optimize_set") demo_state) as (_ & s' & E & _ & Hg).
  - done.
  - by vm_compute.
  - done.
  - by vm_compute.
  - done.
  - by vm_compute.
  - apply (bool_decide_eq_false _). by vm_compute.
  - by vm_compute.
  - by vm_compute.
  - constructor; [by vm_compute|by vm_compute|apply (bool_decide_eq_true _); by vm_compute].
  - exists s'. split; [exact E|]. rewrite Hg. by vm_compute.
Defined.

Lemma set_on_turns_off_witness :
  ∃ on, commands_of (text_of "SET enable_nestloop = ON; ") = [(text_of "enable_nestloop", on)] ∧
    parse_bool on = Some false.
Proof.
  destruct (set_on_turns_off (text_of "enable_nestloop") style_spaced) as (on & _ & _ & E & _ & _ & _ & Hon & _);
    [done|by vm_compute|]. exists on. by split.
Defined.

(** A server that adds a hint. *)
Definition hint_shell (command : text) (fs : gmap text text) : option (text * Z) :=
  Some (server_response [] (text_of "/*+ HashJoin(t u) */ SELECT 1") (text_of "}"), 0).

Lemma molqo_hook_effects_witness :
  (∃ s' p, query_optimizer_post_parse_analyze (λ _, true) (λ _, Some (text_of "http://localhost:8080/optimize_hint")) demo_set
             (Some (modify_st (λ s, s))) 4711 1700000000 (λ _, true) hint_shell CMD_SELECT demo_state = (Ok tt, s') ∧
     p_sourcetext s' = Some p ∧ heap s' !! p = None) ∧
  query_optimizer_post_parse_analyze (λ _, true) (λ _, Some (text_of "http://localhost:8080/optimize_hint")) demo_set
    (Some (raise "no such hint")) 4711 1700000000 (λ _, true) hint_shell CMD_SELECT demo_state =
    (Raise "no such hint", demo_state).
Proof.
  split.
  - destruct (molqo_hook_effects (λ _, true) (λ _, Some (text_of "http://localhost:8080/optimize_hint")) demo_set
      4711 1700000000 (λ _, true) hint_shell (Some (modify_st (λ s, s))) CMD_SELECT demo_state) as (s' & E & H); [done| |].
    + intros q [= <-]. by eexists.
    + assert (optimizable (λ _, true) (λ _, Some (text_of "http://localhost:8080/optimize_hint")) CMD_SELECT demo_state =
        Some (text_of "http://localhost:8080/optimize_hint", demo_sql)) as Ho by by vm_compute.
      rewrite Ho in H. destruct H as (_ & _ & H).
      assert (answer 4711 1700000000 (λ _, true) hint_shell (text_of "http://localhost:8080/optimize_hint") demo_sql
        (files demo_state) = Some (text_of "/*+ HashJoin(t u) */ SELECT 1")) as Ha by by vm_compute.
      rewrite Ha in H. rewrite bool_decide_false in H by (by vm_compute).
      destruct H as (_ & _ & p & Hp & Hn). by exists s', p.
  - exact (molqo_hook_effects (λ _, true) (λ _, Some (text_of "http://localhost:8080/optimize_hint")) demo_set
      4711 1700000000 (λ _, true) hint_shell (Some (raise "no such hint")) CMD_SELECT demo_state ltac:(done)).
Defined.
