(* ===== verification/Nram.v ===== *)
(** * The NRAM table access method

    Models the callbacks of [nr_am/src/nram.c] that PostgreSQL calls on a table
    of the [nram] access method: scans, index fetches, inserts, updates and row
    fetches, and the executor hooks that keep the kind of the running command.
    A slot holds the tuple stored in it, a tuple its identity, the mark of
    [nram_mark_tuple_visible_always] and its values. Reference counts of
    relations and the freeing of memory have no counterpart. *)
From S2P Require Import Prelude Datum Kv CText Action Lock RocksEngine Xact.
From Stdlib Require Import ZArith Lia QArith.
From stdpp Require Import base strings gmap numbers list sorting.

Open Scope Z_scope.

Record Relation := mkRel { rd_id : Z; rd_att : TupleDesc }.

Record StoredTuple := mkStored {
  t_self : Tid.ItemPointerData;
  t_tableOid : Z;
  t_visible : bool;
  t_values : HeapTuple
}.

(** An empty slot is [None]. *)
Abbreviation Slot := (option StoredTuple).

Record KVScanDescData := mkScan {
  rs_rd : Relation;
  min_key : NRAMKeyData;
  max_key : NRAMKeyData;
  results : list (NRAMKeyData * NRAMValueData);
  cursor : Z
}.

Definition NRAM_UNSUPPORTED {S A} (func : string) : X S A :=
  xraise ("[NRAM] calling unsupported function " +:+ func).

Definition nram_value_check_visibility (tvalue : NRAMValueData) (x : NRAMXactStateData) : bool :=
  (xact_id tvalue =? xs_xact_id x) || negb (NRAMValueIsPrivate tvalue).

Definition nram_mark_tuple_visible_always (t : StoredTuple) : StoredTuple :=
  mkStored (t_self t) (t_tableOid t) true (t_values t).

(** The tuple of a value, as the callbacks put it into the slot. *)
Definition tuple_of_value (rel : Relation) (tkey : NRAMKeyData) (tvalue : NRAMValueData)
    : outcome StoredTuple :=
  values ← deserialize_nram_value_to_tuple tvalue (rd_att rel);
  Ok (nram_mark_tuple_visible_always
        (mkStored (Tid.nram_encode_tid (tid tkey)) (rd_id rel) false values)).

Definition get_action_of (x : NRAMXactStateData) : X backend CCActionData :=
  local (λ b, (deref_action x b, b)).

Definition pure_out {A} (o : outcome A) : X backend A := local (lift_out o).

(** ** Table scans *)

Definition nram_beginscan (relation : Relation) : X backend KVScanDescData :=
  xact ← local GetCurrentNRAMXact;
  let lo := table_min (rd_id relation) in
  let hi := table_max (rd_id relation) in
  (if nram_for_read xact then
     a ← get_action_of xact;
     if detect_all a then nram_lock_for_scan (rd_id relation) else mret tt
   else mret tt) ≫= λ _,
  r ← ClientRangeScan lo hi;
  match r with
  | None => xraise "Get range failed"
  | Some rows => mret (mkScan relation lo hi rows 0)
  end.

(** A new descriptor is allocated and dropped; the scan is not touched. *)
Definition nram_rescan (scan : KVScanDescData) : KVScanDescData := scan.

Definition track_read (xact : NRAMXactStateData) (tkey : NRAMKeyData) (tvalue : NRAMValueData)
    : X backend unit :=
  x ← pure_out (add_read_set xact tkey tvalue);
  local (set_xact x).

(** The loop of [nram_getnextslot] from the cursor on: how many rows it moves,
    and the row it stops at. *)
Fixpoint next_row (relid : Z) (xact : NRAMXactStateData)
    (rows : list (NRAMKeyData * NRAMValueData)) (moved : Z)
    : X backend (option (NRAMKeyData * NRAMValueData) * Z) :=
  match rows with
  | [] => mret (None, moved)
  | (tkey, tvalue) :: rows =>
      own ← pure_out (read_own xact tkey);
      match own with
      | Some v => mret (Some (tkey, v), moved + 1)
      | None =>
          if nram_value_check_visibility tvalue xact then
            a ← get_action_of xact;
            v ← (if detect_all a then
                   nram_lock_for_read relid (Tid.nram_encode_tid (tid tkey)) ≫= λ _, ClientGet tkey
                 else mret (Some tvalue));
            match v with
            | Some v =>
                (if nram_for_read xact then track_read xact tkey v else mret tt) ≫= λ _,
                mret (Some (tkey, v), moved + 1)
            | None => pure_out (Ub "member of a NULL value")
            end
          else next_row relid xact rows (moved + 1)
      end
  end.

Definition nram_getnextslot (scan : KVScanDescData) (forward : bool)
    : X backend (bool * KVScanDescData * Slot) :=
  xact ← local GetCurrentNRAMXact;
  if negb forward then mret (false, scan, None)
  else
    '(row, moved) ← next_row (rd_id (rs_rd scan)) xact (drop (Z.to_nat (cursor scan)) (results scan)) 0;
    let scan := mkScan (rs_rd scan) (min_key scan) (max_key scan) (results scan) (cursor scan + moved) in
    match row with
    | None => mret (false, scan, None)
    | Some (tkey, tvalue) =>
        t ← pure_out (tuple_of_value (rs_rd scan) tkey tvalue);
        mret (true, scan, Some t)
    end.

(** ** Index fetches *)

Definition lock_for_access (relid : Z) (p : Tid.ItemPointerData) (xact : NRAMXactStateData)
    : X backend unit :=
  a ← get_action_of xact;
  if detect_all a then
    if nram_for_modify xact then nram_lock_for_write relid p
    else if nram_for_read xact then nram_lock_for_read relid p
    else mret tt
  else mret tt.

(** The value of a row for the current transaction, or whether the row is dead;
    only the reads of a SELECT enter the read set. *)
Definition index_fetch_value (relid : Z) (p : Tid.ItemPointerData) (tkey : NRAMKeyData)
    : X backend (option NRAMValueData * bool) :=
  xact ← local GetCurrentNRAMXact;
  own ← pure_out (read_own xact tkey);
  match own with
  | Some v => mret (Some v, false)
  | None =>
      lock_for_access relid p xact ≫= λ _,
      v ← ClientGet tkey;
      match v with
      | None => mret (None, true)
      | Some v =>
          if negb (nram_value_check_visibility v xact) then mret (None, false)
          else (if nram_for_read xact then track_read xact tkey v else mret tt) ≫= λ _,
               mret (Some v, false)
      end
  end.

(** Whether a tuple was found, [all_dead], and the slot. *)
Definition nram_index_fetch_tuple (rel : Relation) (p : Tid.ItemPointerData) (slot : Slot)
    : X backend (bool * bool * Slot) :=
  let tkey := nram_key_from_tid (rd_id rel) p in
  '(v, all_dead) ← index_fetch_value (rd_id rel) p tkey;
  match v with
  | None => mret (false, all_dead, slot)
  | Some v => t ← pure_out (tuple_of_value rel tkey v); mret (true, all_dead, Some t)
  end.

(** ** Changing rows *)

Definition next_tid : M backend Tid.ItemPointerData := λ b,
  let '(p, seq) := Tid.nram_generate_tid (MyProcPid b) (local_tid_seq b) in (Ok p, with_seq seq b).

Definition set_private (v : NRAMValueData) : NRAMValueData :=
  mkValue (xact_id v) (Z.lor (flags v) NRAMF_PRIVATE) (nfields v) (data v).
Definition clear_private (v : NRAMValueData) : NRAMValueData :=
  mkValue (xact_id v) (Z.land (flags v) (Z.lnot NRAMF_PRIVATE)) (nfields v) (data v).

Definition track_write (xact : NRAMXactStateData) (tkey : NRAMKeyData) (tvalue : NRAMValueData)
    : X backend unit :=
  x ← pure_out (add_write_set xact tkey tvalue);
  local (set_xact x).

Definition serialize_tuple (values : HeapTuple) (desc : TupleDesc) : X backend NRAMValueData :=
  local (λ b, (nram_value_serialize_from_tuple (top_xid b) values desc, b)).

(** The row is stored at once, marked private, and again without the mark when
    the transaction commits. *)
Definition nram_insert (relation : Relation) (values : HeapTuple) (failed : string)
    : X backend Tid.ItemPointerData :=
  xact ← local GetCurrentNRAMXact;
  p ← local next_tid;
  let tkey := nram_key_from_tid (rd_id relation) p in
  tvalue ← serialize_tuple values (rd_att relation);
  a ← get_action_of xact;
  (if detect_all a then nram_lock_for_write (rd_id relation) p else mret tt) ≫= λ _,
  ok ← ClientPut tkey (set_private tvalue);
  if negb ok then xraise failed
  else track_write xact tkey (clear_private (set_private tvalue)) ≫= λ _, mret p.

Definition nram_tuple_insert (relation : Relation) (values : HeapTuple) : X backend StoredTuple :=
  p ← nram_insert relation values "RocksClientPut failed in insert";
  mret (mkStored p (rd_id relation) false values).

Fixpoint multi_insert_loop (relation : Relation) (slots : list HeapTuple) : X backend (list StoredTuple) :=
  match slots with
  | [] => mret []
  | values :: slots =>
      p ← nram_insert relation values "RocksClientPut failed in multi_insert";
      rest ← multi_insert_loop relation slots;
      mret (mkStored p (rd_id relation) false values :: rest)
  end.

Definition nram_multi_insert (relation : Relation) (slots : list HeapTuple) : X backend (list StoredTuple) :=
  local refresh_nram_xact ≫= λ _, multi_insert_loop relation slots.

(** The new value goes to the write set. *)
Definition buffer_update (xact : NRAMXactStateData) (key : NRAMKeyData) (relation : Relation)
    (otid : Tid.ItemPointerData) (values : HeapTuple) : X backend StoredTuple :=
  new_value ← serialize_tuple values (rd_att relation);
  track_write xact key new_value ≫= λ _,
  mret (mkStored otid (rd_id relation) false values).

(** A row the transaction has not written is locked when the policy says so. *)
Definition lock_for_update (xact : NRAMXactStateData) (key : NRAMKeyData) (relation : Relation)
    (otid : Tid.ItemPointerData) : X backend unit :=
  own ← pure_out (read_own_write xact key);
  match own with
  | Some _ => mret tt
  | None =>
      a ← get_action_of xact;
      if detect_all a then nram_lock_for_write (rd_id relation) otid else mret tt
  end.

Definition nram_tuple_update (relation : Relation) (otid : Tid.ItemPointerData) (values : HeapTuple)
    : X backend StoredTuple :=
  xact ← local GetCurrentNRAMXact;
  let key := nram_key_from_tid (rd_id relation) otid in
  if negb (Tid.ItemPointerIsValid otid) then xraise "Invalid otid in nram_tuple_update"
  else
    lock_for_update xact key relation otid ≫= λ _, buffer_update xact key relation otid values.

Definition nram_tuple_delete {A} : X backend A := NRAM_UNSUPPORTED "nram_tuple_delete".

(** The reads of this callback always enter the read set. *)
Definition fetch_row_value (rel : Relation) (p : Tid.ItemPointerData) (tkey : NRAMKeyData)
    : X backend (option NRAMValueData) :=
  xact ← local GetCurrentNRAMXact;
  lock_for_access (rd_id rel) p xact ≫= λ _,
  own ← pure_out (read_own xact tkey);
  match own with
  | Some v => mret (Some v)
  | None =>
      v ← ClientGet tkey;
      match v with
      | None => mret None
      | Some v =>
          if negb (nram_value_check_visibility v xact) then mret None
          else track_read xact tkey v ≫= λ _, mret (Some v)
      end
  end.

Definition nram_fetch_row_version (rel : Relation) (p : Tid.ItemPointerData) (slot : Slot)
    : X backend (bool * Slot) :=
  let tkey := nram_key_from_tid (rd_id rel) p in
  v ← fetch_row_value rel p tkey;
  match v with
  | None => mret (false, slot)
  | Some v => t ← pure_out (tuple_of_value rel tkey v); mret (true, Some t)
  end.

Definition nram_tuple_satisfies_snapshot (slot : Slot) : bool := bool_decide (is_Some slot).

(** ** Executor hooks *)

Definition with_cmd (ct : CmdType) (depth : Z) (stack : list CmdType) (x : NRAMXactStateData)
    : NRAMXactStateData :=
  mkXact (xs_xact_id x) (validated x) (feature x) (action x) ct depth stack (read_set x) (write_set x).

Definition nram_ExecutorStart (operation : option CmdType) : M backend unit :=
  x ← GetCurrentNRAMXact;
  let ct := default CMD_UNKNOWN operation in
  let d := cmdtype_depth x in
  let stack := if d <? NRAM_CMD_STACK_MAX then <[Z.to_nat d := ct]> (cmdtype_stack x)
               else cmdtype_stack x in
  set_xact (with_cmd ct (Z.min (d + 1) NRAM_CMD_STACK_MAX) stack x) ≫= λ _,
  before_access.

Definition nram_ExecutorEnd : M backend unit := λ b,
  let '(_, b) := refresh_nram_xact b in
  match current_nram_xact b with
  | Some x =>
      if 0 <? cmdtype_depth x then
        let d := cmdtype_depth x - 1 in
        let ct := if 0 <? d then default CMD_UNKNOWN (cmdtype_stack x !! Z.to_nat (d - 1))
                  else CMD_UNKNOWN in
        set_xact (with_cmd ct d (cmdtype_stack x) x) b
      else (Ok tt, b)
  | None => (Ok tt, b)
  end.

(** ** Policy *)

Definition nram_load_policy (fopen : string → option text) (path : string) : M backend unit := λ b,
  let '(r, act) := load_agent_function fopen (Some path) (GlobalCachedAgentFunc b) in
  (r, mkBackend (top_xid b) (xact_hook_registered b) (xact_callbacks b) (current_nram_xact b)
        (LockTimeout b) (MyProc_rank b) (MyProc_nDep b) (IsolationIsSerializable b) act
        (MyProcPid b) (local_tid_seq b)).

(** ** Reading one's own writes *)

(** A backend inside a transaction whose policy entry does not lock. *)
Definition optimistic (b : backend) (x : NRAMXactStateData) : Prop :=
  current_nram_xact b = Some x ∧ xs_xact_id x = top_xid b ∧
  match deref_action x b with Ok a => detect_all a = false | _ => False end.

Lemma GetCurrent_optimistic b x : optimistic b x → GetCurrentNRAMXact b = (Ok x, b).
Proof.
  intros (Hc & Hi & _). unfold GetCurrentNRAMXact, refresh_nram_xact.
  by rewrite Hc, Hi, Z.eqb_refl, Hc.
Qed.

Lemma get_action_optimistic b x :
  optimistic b x → ∃ a, get_action_of x b = Ret (Ok a, b) ∧ detect_all a = false.
Proof.
  intros (_ & _ & Ha). unfold get_action_of, local. destruct (deref_action x b) as [a| |]; [|done..].
  by exists a.
Qed.

Lemma lock_for_access_optimistic relid p b x :
  optimistic b x → lock_for_access relid p x b = Ret (Ok tt, b).
Proof.
  intros Hx. destruct (get_action_optimistic b x Hx) as (a & Ha & Hd).
  unfold lock_for_access, mbind, X_bind. rewrite Ha. cbn [pbind x_then mret X_ret]. by rewrite Hd.
Qed.

(** An update leaves the new value in the write set and calls nothing shared. *)
Lemma nram_tuple_update_buffers rel p values b x v x' :
  optimistic b x → Tid.ItemPointerIsValid p = true →
  nram_value_serialize_from_tuple (top_xid b) values (rd_att rel) = Ok v →
  (∃ o, read_own_write x (nram_key_from_tid (rd_id rel) p) = Ok o) →
  add_write_set x (nram_key_from_tid (rd_id rel) p) v = Ok x' →
  nram_tuple_update rel p values b =
    Ret (Ok (mkStored p (rd_id rel) false values), with_xact (Some x') b).
Proof.
  intros Hx Hp Hv [o Ho] Hw. unfold nram_tuple_update, mbind, X_bind, local.
  rewrite (GetCurrent_optimistic b x Hx). cbn [pbind x_then mret X_ret]. rewrite Hp. cbn [negb].
  unfold lock_for_update, pure_out, local, lift_out, mbind, X_bind. rewrite Ho. cbn [pbind x_then mret X_ret].
  destruct (get_action_optimistic b x Hx) as (a & Ha & Hd).
  assert (match o with
          | Some _ => mret tt
          | None => get_action_of x ≫= λ a, if detect_all a then nram_lock_for_write (rd_id rel) p
                                            else mret tt
          end b = Ret (Ok tt, b)) as E.
  { destruct o; [done|]. unfold mbind, X_bind. rewrite Ha. cbn [pbind x_then mret X_ret]. by rewrite Hd. }
  unfold mbind, X_bind in E. rewrite E. cbn [pbind x_then mret X_ret].
  unfold buffer_update, serialize_tuple, track_write, local, mbind, X_bind, pure_out, local, lift_out.
  rewrite Hv. cbn [pbind x_then mret X_ret]. by rewrite Hw.
Qed.

(** What the transaction has written is what its fetches return. *)
Lemma fetch_own rel p slot b x v t :
  optimistic b x → read_own_write x (nram_key_from_tid (rd_id rel) p) = Ok (Some v) →
  tuple_of_value rel (nram_key_from_tid (rd_id rel) p) v = Ok t →
  nram_fetch_row_version rel p slot b = Ret (Ok (true, Some t), b) ∧
  nram_index_fetch_tuple rel p slot b = Ret (Ok (true, false, Some t), b).
Proof.
  intros Hx Ho Ht.
  assert (read_own x (nram_key_from_tid (rd_id rel) p) = Ok (Some v)) as Hown.
  { unfold read_own. by rewrite Ho. }
  split.
  - unfold nram_fetch_row_version, fetch_row_value, mbind, X_bind, local.
    rewrite (GetCurrent_optimistic b x Hx). cbn [pbind x_then mret X_ret].
    rewrite (lock_for_access_optimistic _ _ _ _ Hx). cbn [pbind x_then mret X_ret].
    unfold pure_out, local, lift_out. rewrite Hown. cbn [pbind x_then mret X_ret]. by rewrite Ht.
  - unfold nram_index_fetch_tuple, index_fetch_value, mbind, X_bind, local.
    rewrite (GetCurrent_optimistic b x Hx). cbn [pbind x_then mret X_ret].
    unfold pure_out, local, lift_out. rewrite Hown. cbn [pbind x_then mret X_ret]. by rewrite Ht.
Qed.

(** A sequence of updates of rows, of any tables. *)
Record update := mkUpdate { up_rel : Relation; up_tid : Tid.ItemPointerData; up_values : HeapTuple }.

Definition up_key (u : update) : NRAMKeyData := nram_key_from_tid (rd_id (up_rel u)) (up_tid u).

Fixpoint run_updates (us : list update) : X backend unit :=
  match us with
  | [] => mret tt
  | u :: us => nram_tuple_update (up_rel u) (up_tid u) (up_values u) ≫= λ _, run_updates us
  end.

(** The row identity is valid and the columns can be stored. *)
Record update_ok (u : update) : Prop := mkUpdateOk {
  uo_valid : Tid.ItemPointerIsValid (up_tid u) = true;
  uo_tid : Tid.itemptr_ok (up_tid u);
  uo_columns : Forall2 attr_ok (rd_att (up_rel u)) (up_values u);
  uo_natts : zlen (rd_att (up_rel u)) < 2 ^ 15;
  uo_size : ∃ lens, estimate_lens (up_values u) (rd_att (up_rel u)) = Ok lens ∧ 10 + total_fields lens ≤ MaxAllocSize
}.

(** A backend in a transaction that can read what it has written. *)
Record updating (b : backend) (x : NRAMXactStateData) : Prop := mkUpdating {
  ut_optimistic : optimistic b x;
  ut_xid : in_u32 (top_xid b);
  ut_readable : ∀ k, ∃ o, read_own_write x k = Ok o
}.

(** The columns of [u] as they are stored in [v]. *)
Definition stores (u : update) (v : NRAMValueData) : Prop :=
  ∃ values', Forall2 (λ '(attr, c) c', attr_flat attr c c') (zip (rd_att (up_rel u)) (up_values u)) values' ∧
    tuple_of_value (up_rel u) (up_key u) v = Ok (mkStored (up_tid u) (rd_id (up_rel u)) true values').

(** One update calls nothing shared; its row reads as written and others as before. *)
Lemma update_step u b x : updating b x → update_ok u →
  ∃ b' x' v, nram_tuple_update (up_rel u) (up_tid u) (up_values u) b =
      Ret (Ok (mkStored (up_tid u) (rd_id (up_rel u)) false (up_values u)), b') ∧ updating b' x' ∧ stores u v ∧
    ∀ k, read_own_write x' k = if decide (k = up_key u) then Ok (Some v) else read_own_write x k.
Proof.
  intros [Hx Hxid Hr] [Hp Hpok Hok Hn (lens & Hlens & Hsz)].
  destruct (nram_tuple_codec (top_xid b) _ _ lens Hok Hn Hxid Hlens Hsz)
    as (v & tup' & Hv & Hvok & Hvf & _ & _ & Hd & Hflat).
  pose proof (copy_nram_value_exact v Hvok Hvf) as Hcp.
  destruct (add_write_set_spec x (up_key u) v Hvok) as (x' & w & o & Hw & Hcw & _ & _ & Ho & _ & Hf).
  rewrite Hcp in Hcw. injection Hcw as <-.
  assert (∀ k, read_own_write x' k = if decide (k = up_key u) then Ok (Some v) else read_own_write x k) as Hread.
  { intros k. unfold read_own_write. rewrite Hf. destruct (decide (k = up_key u)); [|done]. by rewrite Ho, Hcp. }
  exists (with_xact (Some x') b), x', v. split; [eapply nram_tuple_update_buffers; eauto|]. split_and!; [|exists tup'; split; [done|]|done].
  - constructor; [|done|].
    + destruct Hx as (Hc & Hi & Ha). pose proof (add_write_set_kept _ _ _ _ Hw) as (E1 & E2).
      split; [done|]. split; [by rewrite E1|]. unfold deref_action in *. by rewrite E2.
    + intros k. rewrite Hread. destruct (decide _); [by eexists|apply Hr].
  - unfold tuple_of_value. rewrite Hd. cbn. unfold nram_mark_tuple_visible_always. cbn.
    by rewrite Tid.encode_decode_tid.
Qed.

Lemma updates_step us b x : updating b x → Forall update_ok us →
  ∃ b' x', run_updates us b = Ret (Ok tt, b') ∧ updating b' x' ∧
    ∀ k, (∀ u, u ∈ us → up_key u ≠ k) → read_own_write x' k = read_own_write x k.
Proof.
  intros Hb Hus. revert b x Hb. induction Hus as [|u us Hu _ IH]; intros b x Hb; [by exists b, x|].
  destruct (update_step u b x Hb Hu) as (b1 & x1 & v & E1 & Hb1 & _ & Hr1).
  destruct (IH b1 x1 Hb1) as (b2 & x2 & E2 & Hb2 & Hr2). exists b2, x2. split.
  - cbn [run_updates]. unfold mbind, X_bind. by rewrite E1.
  - split; [done|]. intros k Hk. rewrite Hr2 by (intros u' ?; apply Hk; by right). rewrite Hr1, decide_False; [done|].
    intros ->. apply (Hk u); [by left|done].
Qed.


Definition one_policy : list CCActionData := [default_action false].

Definition example_rel : Relation := mkRel 16384 example_desc.

Definition example_xact : NRAMXactStateData :=
  mkXact 731 false (Some (mkFeature 0 0 0)) (Some 0) CMD_UPDATE 1 (replicate 8 CMD_UPDATE) [] [].

Definition example_backend : backend :=
  mkBackend 731 true 1 (Some example_xact) 0 0 0 true (Some one_policy) 4242 7.

Definition example_update (n : Z) : update := mkUpdate example_rel (Tid.mkItemPointer 0 3 n) example_tuple.

Lemma example_update_ok n : n = 9 ∨ n = 10 → update_ok (example_update n).
Proof.
  intros Hn. constructor; cbn [example_update up_rel up_tid up_values];
    [by destruct Hn as [-> | ->]|destruct Hn as [-> | ->]; by vm_compute|exact example_tuple_ok|reflexivity|].
  exists [12; 7]. split; [reflexivity|by vm_compute].
Qed.


(** ** Nested commands *)

(** Commands with the commands that run inside them (of functions and triggers). *)
Inductive cmds :=
| CNil
| CCmd (operation : option CmdType) (inner rest : cmds).

Fixpoint run_cmds (c : cmds) : M backend unit :=
  match c with
  | CNil => mret tt
  | CCmd operation inner rest =>
      nram_ExecutorStart operation ≫= λ _, run_cmds inner ≫= λ _,
      nram_ExecutorEnd ≫= λ _, run_cmds rest
  end.

Fixpoint nesting (c : cmds) : Z :=
  match c with
  | CNil => 0
  | CCmd _ inner rest => Z.max (1 + nesting inner) (nesting rest)
  end.

(** The command running at a depth. *)
Definition cmd_at (d : Z) (stack : list CmdType) : CmdType :=
  if 0 <? d then default CMD_UNKNOWN (stack !! Z.to_nat (d - 1)) else CMD_UNKNOWN.

Record cmd_state (act : list CCActionData) (b : backend) (x : NRAMXactStateData) : Prop := {
  cs_xact : current_nram_xact b = Some x;
  cs_xid : xs_xact_id x = top_xid b;
  cs_policy : GlobalCachedAgentFunc b = Some act;
  cs_act : cache_ok act;
  cs_feature : ∀ f, feature x = Some f → 0 ≤ n_access f;
  cs_depth : 0 ≤ cmdtype_depth x ≤ NRAM_CMD_STACK_MAX;
  cs_stack : length (cmdtype_stack x) = 8%nat;
  cs_cur : cur_cmdtype x = cmd_at (cmdtype_depth x) (cmdtype_stack x)
}.

(** The same transaction at the same depth of commands. *)
Definition same_cmds (x x' : NRAMXactStateData) : Prop :=
  cmdtype_depth x' = cmdtype_depth x ∧
  take (Z.to_nat (cmdtype_depth x)) (cmdtype_stack x') =
    take (Z.to_nat (cmdtype_depth x)) (cmdtype_stack x) ∧
  read_set x' = read_set x ∧ write_set x' = write_set x.

Lemma cmd_at_take d s s' :
  take (Z.to_nat d) s = take (Z.to_nat d) s' → cmd_at d s = cmd_at d s'.
Proof.
  intros H. unfold cmd_at. destruct (Z.ltb_spec 0 d); [|done]. f_equal.
  rewrite <- (lookup_take_lt s (Z.to_nat d)), <- (lookup_take_lt s' (Z.to_nat d)) by lia. by rewrite H.
Qed.

Lemma ExecutorStart_cmd act b x operation :
  cmd_state act b x → cmdtype_depth x < NRAM_CMD_STACK_MAX →
  ∃ b' x', nram_ExecutorStart operation b = (Ok tt, b') ∧ cmd_state act b' x' ∧
    cmdtype_depth x' = cmdtype_depth x + 1 ∧ cur_cmdtype x' = default CMD_UNKNOWN operation ∧
    take (Z.to_nat (cmdtype_depth x)) (cmdtype_stack x') =
      take (Z.to_nat (cmdtype_depth x)) (cmdtype_stack x) ∧
    read_set x' = read_set x ∧ write_set x' = write_set x.
Proof.
  intros [Hc Hi Hp Ha Hf Hd Hs Hcur] Hlt. unfold nram_ExecutorStart.
  erewrite M_bind_ok by (unfold GetCurrentNRAMXact, refresh_nram_xact; by rewrite Hc, Hi, Z.eqb_refl, Hc).
  replace (cmdtype_depth x <? NRAM_CMD_STACK_MAX) with true by lia.
  rewrite Z.min_l by lia. unfold set_xact, mbind, M_bind. cbn [fst].
  unfold before_access. cbn [current_nram_xact with_xact].
  set (f := next_feature _ _).
  assert (0 ≤ n_access f) as Hfn.
  { unfold f, next_feature. cbn. destruct (feature x); cbn; [|lia]. apply Z.mod_pos_bound. lia. }
  destruct (get_action_in act f Ha Hfn) as (a & Hg & _). cbn [GlobalCachedAgentFunc with_xact].
  rewrite Hp, Hg. eexists _, _. split; [reflexivity|]. unfold NRAM_CMD_STACK_MAX in *.
  split; [split; [reflexivity|..]|]; cbn -[insert]; unfold NRAM_CMD_STACK_MAX; try done; try lia.
  - by intros ? [= <-].
  - by rewrite length_insert.
  - unfold cmd_at. replace (0 <? cmdtype_depth x + 1) with true by lia.
    replace (cmdtype_depth x + 1 - 1) with (cmdtype_depth x) by lia.
    by rewrite list_lookup_insert_eq by lia.
  - split_and!; try done. by rewrite take_insert_ge by lia.
Qed.

Lemma ExecutorEnd_cmd act b x :
  cmd_state act b x → 0 < cmdtype_depth x →
  ∃ b' x', nram_ExecutorEnd b = (Ok tt, b') ∧ cmd_state act b' x' ∧
    cmdtype_depth x' = cmdtype_depth x - 1 ∧ cmdtype_stack x' = cmdtype_stack x ∧
    read_set x' = read_set x ∧ write_set x' = write_set x.
Proof.
  intros [Hc Hi Hp Ha Hf Hd Hs Hcur] Hlt. unfold nram_ExecutorEnd, refresh_nram_xact.
  rewrite Hc, Hi, Z.eqb_refl, Hc. replace (0 <? cmdtype_depth x) with true by lia.
  eexists _, _. split; [reflexivity|]. split; [split; [reflexivity|..]|done]; cbn; try done.
  unfold NRAM_CMD_STACK_MAX in *. lia.
Qed.

Lemma run_cmds_spec c act b x :
  cmd_state act b x → cmdtype_depth x + nesting c ≤ NRAM_CMD_STACK_MAX →
  ∃ b' x', run_cmds c b = (Ok tt, b') ∧ cmd_state act b' x' ∧ same_cmds x x'.
Proof.
  revert b x. induction c as [|operation inner IHi rest IHr]; intros b x Hx Hn; cbn in Hn.
  { exists b, x. split; [done|]. split; [done|]. by repeat split. }
  assert (0 ≤ nesting inner) as Hi0 by (clear; induction inner; cbn; lia).
  destruct (ExecutorStart_cmd act b x operation Hx) as (b1 & x1 & E1 & Hx1 & D1 & _ & S1 & R1 & W1); [lia|].
  destruct (IHi b1 x1 Hx1) as (b2 & x2 & E2 & Hx2 & D2 & S2 & R2 & W2); [lia|].
  pose proof (cs_depth _ _ _ Hx) as Hd.
  destruct (ExecutorEnd_cmd act b2 x2 Hx2) as (b3 & x3 & E3 & Hx3 & D3 & S3 & R3 & W3); [lia|].
  destruct (IHr b3 x3 Hx3) as (b4 & x4 & E4 & Hx4 & D4 & S4 & R4 & W4); [lia|].
  exists b4, x4. cbn [run_cmds]. rewrite (M_bind_ok _ _ _ _ _ E1), (M_bind_ok _ _ _ _ _ E2),
    (M_bind_ok _ _ _ _ _ E3). split; [done|]. split; [done|].
  assert (cmdtype_depth x3 = cmdtype_depth x) as D by lia. rewrite D in *.
  split_and!; [done| |congruence..]. rewrite S4, S3, <- S1.
  apply (f_equal (take (Z.to_nat (cmdtype_depth x)))) in S2. rewrite !take_take, !Nat.min_l in S2 by lia. done.
Qed.

Lemma cmd_state_cur act b x b' x' :
  cmd_state act b x → cmd_state act b' x' → same_cmds x x' → cur_cmdtype x' = cur_cmdtype x.
Proof.
  intros Hx Hx' (Hd & Hs & _). rewrite (cs_cur _ _ _ Hx), (cs_cur _ _ _ Hx'), Hd.
  by apply cmd_at_take.
Qed.

(** The kind of the running command survives nesting: while a command runs,
    and after any commands that ran inside it, the transaction knows the
    command's own kind, and when it ends the kind of the command around it, as
    long as no more than [NRAM_CMD_STACK_MAX] commands are nested; the executor
    hooks never fail and leave the read and the write set alone. *)
Theorem command_nesting act b x operation inner :
  cmd_state act b x → cmdtype_depth x + 1 + nesting inner ≤ NRAM_CMD_STACK_MAX →
  ∃ b1 x1, (nram_ExecutorStart operation ≫= λ _, run_cmds inner) b = (Ok tt, b1) ∧
    current_nram_xact b1 = Some x1 ∧ cur_cmdtype x1 = default CMD_UNKNOWN operation ∧
  ∃ b2 x2, nram_ExecutorEnd b1 = (Ok tt, b2) ∧
    current_nram_xact b2 = Some x2 ∧ cur_cmdtype x2 = cur_cmdtype x ∧
    read_set x2 = read_set x ∧ write_set x2 = write_set x.
Proof.
  intros Hx Hn. assert (0 ≤ nesting inner) as Hi0 by (clear; induction inner; cbn; lia).
  pose proof (cs_depth _ _ _ Hx) as Hd.
  destruct (ExecutorStart_cmd act b x operation Hx) as (b0 & x0 & E0 & Hx0 & D0 & C0 & S0 & R0 & W0); [lia|].
  destruct (run_cmds_spec inner act b0 x0 Hx0) as (b1 & x1 & E1 & Hx1 & Hs); [lia|].
  exists b1, x1. rewrite (M_bind_ok _ _ _ _ _ E0), <- C0. split; [done|].
  split; [by eapply cs_xact|]. split; [by eapply cmd_state_cur|].
  destruct Hs as (D1 & S1 & R1 & W1).
  destruct (ExecutorEnd_cmd act b1 x1 Hx1) as (b2 & x2 & E2 & Hx2 & D2 & S2 & R2 & W2); [lia|].
  exists b2, x2. split; [done|]. split; [by eapply cs_xact|]. split; [|split; congruence].
  apply (cmd_state_cur act b x b2 x2 Hx Hx2). split_and!; [lia| |congruence..].
  rewrite S2, <- S0. apply (f_equal (take (Z.to_nat (cmdtype_depth x)))) in S1.
  rewrite !take_take, !Nat.min_l in S1 by lia. done.
Qed.

(** A transaction that has run nothing yet. *)
Definition idle_backend : backend :=
  mkBackend 731 true 1 (NewNRAMXactState 731) 0 0 0 true (Some initial_act) 4242 7.
Definition idle_xact : NRAMXactStateData :=
  mkXact 731 false None None CMD_UNKNOWN 0 (replicate 8 CMD_UNKNOWN) [] [].

Lemma idle_cmd_state : cmd_state initial_act idle_backend idle_xact.
Proof. split; try done. apply initial_act_ok. Qed.

Lemma command_nesting_witness : ∃ b1 x1,
  (nram_ExecutorStart (Some CMD_UPDATE) ≫= λ _,
   run_cmds (CCmd (Some CMD_SELECT) (CCmd (Some CMD_INSERT) CNil CNil) CNil)) idle_backend = (Ok tt, b1) ∧
  current_nram_xact b1 = Some x1 ∧ cur_cmdtype x1 = CMD_UPDATE.
Proof.
  destruct (command_nesting initial_act idle_backend idle_xact (Some CMD_UPDATE)
    (CCmd (Some CMD_SELECT) (CCmd (Some CMD_INSERT) CNil CNil) CNil) idle_cmd_state)
    as (b1 & x1 & H1 & H2 & H3 & _); [by vm_compute|]. by exists b1, x1.
Defined.

(** Eight nested commands, the innermost an UPDATE, and a SELECT inside it: when
    the SELECT ends the transaction takes the UPDATE for a SELECT. *)
Definition eight_nested : M backend unit :=
  for_each (λ ct, nram_ExecutorStart (Some ct)) (replicate 7 CMD_SELECT ++ [CMD_UPDATE]).

Lemma ninth_command_lost :
  (cur_cmdtype <$> current_nram_xact (eight_nested idle_backend).2) = Some CMD_UPDATE ∧
  (cur_cmdtype <$> current_nram_xact
     ((eight_nested ≫= λ _, run_cmds (CCmd (Some CMD_SELECT) CNil CNil)) idle_backend).2) = Some CMD_SELECT.
Proof. by vm_compute. Qed.

(** ** Inserts without a command *)

(** An insert needs a command: the policy entry of a transaction is set when
    a command starts, so that [nram_multi_insert] in a transaction that has run
    no command, as COPY makes it, reads a member of the null [action]. *)
Theorem multi_insert_null_action rel values slots b v :
  current_nram_xact b = None → top_xid b ≠ InvalidTransactionId →
  nram_value_serialize_from_tuple (top_xid b) values (rd_att rel) = Ok v →
  ∃ b', nram_multi_insert rel (values :: slots) b = Ret (Ub "state->action is NULL", b').
Proof.
  intros Hc Hx Hv. unfold nram_multi_insert, refresh_nram_xact, mbind, X_bind, local.
  rewrite Hc. cbn [pbind x_then multi_insert_loop].
  unfold nram_insert, mbind, X_bind, local, GetCurrentNRAMXact, refresh_nram_xact, NewNRAMXactState.
  cbn [current_nram_xact with_xact top_xid].
  destruct (Z.eqb_spec (top_xid b) InvalidTransactionId) as [|_]; [done|].
  cbn [xs_xact_id current_nram_xact with_xact]. rewrite Z.eqb_refl. cbn [pbind x_then current_nram_xact with_xact].
  destruct (next_tid (with_xact _ b)) as [o b1] eqn:En. unfold next_tid in En.
  destruct (Tid.nram_generate_tid _ _) as [p seq]. injection En as <- <-. cbn [pbind x_then].
  unfold serialize_tuple, local. cbn [top_xid with_seq with_xact]. rewrite Hv. cbn [pbind x_then].
  by eexists.
Qed.

Lemma multi_insert_null_action_witness : ∃ b',
  nram_multi_insert example_rel [example_tuple]
    (mkBackend 731 true 1 None 0 0 0 true (Some initial_act) 4242 7) = Ret (Ub "state->action is NULL", b').
Proof.
  eapply (multi_insert_null_action example_rel example_tuple [] (mkBackend 731 true 1 None 0 0 0 true (Some initial_act) 4242 7)).
  - reflexivity.
  - by vm_compute.
  - vm_compute. reflexivity.
Defined.
