(* ===== verification/Occ.v ===== *)
(** * Optimistic concurrency control, abstractly

    The protocol behind [nram_xact_callback] with everything left out that does
    not matter for its correctness: transactions read rows of a single-version
    store, lock what they write, check that what they read is still current and
    not locked by others, write, and unlock. The steps of the transactions
    interleave freely.

    The main result of this file: the transactions that decided to commit are
    serializable in the order in which they finished locking their write sets.
    The file [Serial] shows that the code refines this protocol. *)
From S2P Require Import Prelude.
From Stdlib Require Import ZArith Lia.
From stdpp Require Import base gmap functions list.

Section protocol.

Context {K V L : Type} `{Countable K}.
(** The lock of a key (several keys may share one), the version of a value, the
    version a transaction gives to what it writes, and the initial rows. *)
Context (tag : K → L) (ver : V → Z) (id : nat → Z) (init : gmap K V).

Abbreviation entries := (list (K * V)).

(** The state of a transaction: what it has read, what it writes, and how far
    the locking, the checks and the writes have come. *)
Inductive tstate :=
| Active (rs : entries)
| Locking (rs ws : entries) (locked todo : list K)
| Validating (rs ws checked tocheck : entries)
| Committing (rs ws put toput : entries)
| Committed (rs ws : entries)
| Aborted.

(** [olog]: the transactions that hold or held all their locks, in that order. *)
Record ostate := mkO { ost : gmap K V; othr : nat → tstate; olog : list nat }.

Definition xlocks (t : tstate) : list L :=
  match t with
  | Locking _ _ locked _ => tag <$> locked
  | Validating _ ws _ _ => tag <$> ws.*1
  | Committing _ _ _ toput => tag <$> toput.*1
  | _ => []
  end.

(** No other transaction holds the lock. *)
Definition lock_free (s : ostate) (i : nat) (l : L) : Prop :=
  ∀ j, j ≠ i → l ∉ xlocks (othr s j).

Inductive ostep : ostate → ostate → Prop :=
| o_read s i rs k v :
    othr s i = Active rs → ost s !! k = Some v →
    ostep s (mkO (ost s) (<[i := Active (rs ++ [(k, v)])]> (othr s)) (olog s))
| o_start s i rs ws :
    othr s i = Active rs → NoDup ws.*1 → Forall (λ e, ver e.2 = id i) ws →
    ostep s (mkO (ost s) (<[i := Locking rs ws [] ws.*1]> (othr s)) (olog s))
| o_lock s i rs ws locked k todo :
    othr s i = Locking rs ws locked (k :: todo) → lock_free s i (tag k) →
    ostep s (mkO (ost s) (<[i := Locking rs ws (locked ++ [k]) todo]> (othr s)) (olog s))
| o_locked s i rs ws locked :
    othr s i = Locking rs ws locked [] →
    ostep s (mkO (ost s) (<[i := Validating rs ws [] rs]> (othr s)) (olog s ++ [i]))
| o_check s i rs ws checked k v v' tocheck :
    othr s i = Validating rs ws checked ((k, v) :: tocheck) →
    lock_free s i (tag k) → ost s !! k = Some v' → ver v' = ver v →
    ostep s (mkO (ost s) (<[i := Validating rs ws (checked ++ [(k, v)]) tocheck]> (othr s)) (olog s))
| o_decide s i rs ws checked :
    othr s i = Validating rs ws checked [] →
    ostep s (mkO (ost s) (<[i := Committing rs ws [] ws]> (othr s)) (olog s))
| o_put s i rs ws put k v toput :
    othr s i = Committing rs ws put ((k, v) :: toput) →
    ostep s (mkO (<[k := v]> (ost s)) (<[i := Committing rs ws (put ++ [(k, v)]) toput]> (othr s))
               (olog s))
| o_done s i rs ws put :
    othr s i = Committing rs ws put [] →
    ostep s (mkO (ost s) (<[i := Committed rs ws]> (othr s)) (olog s))
| o_abort s i :
    match othr s i with Active _ | Locking _ _ _ _ | Validating _ _ _ _ => True | _ => False end →
    ostep s (mkO (ost s) (<[i := Aborted]> (othr s)) (filter (λ j, j ≠ i) (olog s))).

(** ** Views of a transaction state *)

Definition rs_of (t : tstate) : entries :=
  match t with
  | Active rs | Locking rs _ _ _ | Validating rs _ _ _ | Committing rs _ _ _ | Committed rs _ => rs
  | Aborted => []
  end.
(** What a transaction past the locking writes, has written, has still to write. *)
Definition ws_of (t : tstate) : entries :=
  match t with
  | Validating _ ws _ _ | Committing _ ws _ _ | Committed _ ws => ws
  | _ => []
  end.
Definition put_of (t : tstate) : entries :=
  match t with Committing _ _ put _ => put | Committed _ ws => ws | _ => [] end.
Definition unput_of (t : tstate) : entries :=
  match t with Validating _ ws _ _ => ws | Committing _ _ _ toput => toput | _ => [] end.
Definition checked_of (t : tstate) : entries :=
  match t with
  | Validating _ _ checked _ => checked
  | Committing rs _ _ _ | Committed rs _ => rs
  | _ => []
  end.
Definition in_log (t : tstate) : bool :=
  match t with Validating _ _ _ _ | Committing _ _ _ _ | Committed _ _ => true | _ => false end.
Definition deciding (t : tstate) : bool :=
  match t with Committing _ _ _ _ | Committed _ _ => true | _ => false end.

(** The lists of a state belong together. *)
Definition t_wf (i : nat) (t : tstate) : Prop :=
  match t with
  | Locking _ ws locked todo => locked ++ todo = ws.*1 ∧ NoDup ws.*1 ∧ Forall (λ e, ver e.2 = id i) ws
  | Validating rs ws checked tocheck =>
      checked ++ tocheck = rs ∧ NoDup ws.*1 ∧ Forall (λ e, ver e.2 = id i) ws
  | Committing rs ws put toput => put ++ toput = ws ∧ NoDup ws.*1 ∧ Forall (λ e, ver e.2 = id i) ws
  | Committed rs ws => NoDup ws.*1 ∧ Forall (λ e, ver e.2 = id i) ws
  | _ => True
  end.

(** The rows after the transactions of a list have written, in its order: what
    they have put so far, and all they write. *)
Fixpoint puts (thr : nat → tstate) (m : gmap K V) (l : list nat) : gmap K V :=
  match l with [] => m | i :: l => puts thr (list_to_map (put_of (thr i)) ∪ m) l end.
Fixpoint serial (thr : nat → tstate) (m : gmap K V) (l : list nat) : gmap K V :=
  match l with [] => m | i :: l => serial thr (list_to_map (ws_of (thr i)) ∪ m) l end.

Definition before (l : list nat) (j i : nat) : Prop := ∃ l1 l2, l = l1 ++ i :: l2 ∧ j ∈ l1.

Record oinv (s : ostate) : Prop := mkOinv {
  oi_wf : ∀ i, t_wf i (othr s i);
  oi_nodup : NoDup (olog s);
  oi_log : ∀ i, i ∈ olog s ↔ in_log (othr s i) = true;
  oi_excl : ∀ i j l, i ≠ j → l ∈ xlocks (othr s i) → l ∉ xlocks (othr s j);
  oi_store : ost s = puts (othr s) init (olog s);
  oi_order : ∀ i j k, i ≠ j → k ∈ (unput_of (othr s i)).*1 → k ∈ (ws_of (othr s j)).*1 →
    k ∈ (put_of (othr s j)).*1 ∧ before (olog s) j i;
  oi_read : ∀ i k v, (k, v) ∈ rs_of (othr s i) →
    init !! k = Some v ∨
    ∃ j, (k, v) ∈ put_of (othr s j) ∧ (in_log (othr s i) = true → before (olog s) j i);
  oi_checked : ∀ i l1 l2 k v, olog s = l1 ++ i :: l2 → (k, v) ∈ checked_of (othr s i) →
    (∀ j, j ∈ l1 → k ∈ (ws_of (othr s j)).*1 → k ∈ (put_of (othr s j)).*1) ∧
    puts (othr s) init l1 !! k = Some v
}.

(** ** Orders and folds *)

Lemma before_app_r l l' j i : before l j i → before (l ++ l') j i.
Proof. intros (l1 & l2 & -> & ?). exists l1, (l2 ++ l'). by rewrite <- app_assoc. Qed.

Lemma before_snoc l j i : j ∈ l → before (l ++ [i]) j i.
Proof. intros. by exists l, []. Qed.

Lemma before_filter l j i p : j ≠ p → i ≠ p → before l j i → before (filter (λ x, x ≠ p) l) j i.
Proof.
  intros Hj Hi (l1 & l2 & -> & ?). exists (filter (λ x, x ≠ p) l1), (filter (λ x, x ≠ p) l2).
  rewrite filter_app, filter_cons_True by done. split; [done|]. by apply list_elem_of_filter.
Qed.

Lemma before_elem l j i : before l j i → j ∈ l ∧ i ∈ l.
Proof. intros (l1 & l2 & -> & ?). set_solver. Qed.

Lemma split_unique (l1 l2 l1' l2' : list nat) i :
  NoDup (l1 ++ i :: l2) → l1 ++ i :: l2 = l1' ++ i :: l2' → l1 = l1' ∧ l2 = l2'.
Proof.
  revert l1'. induction l1 as [|x l1 IH]; intros [|y l1']; cbn.
  - by intros _ [= ->].
  - intros [Hi _]%NoDup_cons [= <- ->]. destruct Hi. set_solver.
  - intros [Hx _]%NoDup_cons [= -> <-]. destruct Hx. set_solver.
  - intros [_ Hnd]%NoDup_cons [= -> E]. by destruct (IH _ Hnd E) as [-> ->].
Qed.

Lemma before_split l1 l2 j i : NoDup (l1 ++ i :: l2) → before (l1 ++ i :: l2) j i → j ∈ l1.
Proof. intros Hnd (a & b & E & ?). by destruct (split_unique _ _ _ _ _ Hnd E) as [-> _]. Qed.

Lemma puts_ext thr thr' m l :
  (∀ i, i ∈ l → put_of (thr i) = put_of (thr' i)) → puts thr m l = puts thr' m l.
Proof.
  revert m. induction l as [|i l IH]; intros m He; [done|]. cbn.
  rewrite (He i) by (by left). apply IH. intros. apply He. by right.
Qed.

Lemma puts_other thr m l k :
  (∀ i, i ∈ l → k ∉ (put_of (thr i)).*1) → puts thr m l !! k = m !! k.
Proof.
  revert m. induction l as [|i l IH]; intros m Hk; [done|]. cbn.
  rewrite IH by (intros; apply Hk; by right).
  rewrite lookup_union_r; [done|]. apply not_elem_of_list_to_map. apply Hk. by left.
Qed.

Lemma puts_Some thr m l k v :
  puts thr m l !! k = Some v → m !! k = Some v ∨ ∃ i, i ∈ l ∧ (k, v) ∈ put_of (thr i).
Proof.
  revert m. induction l as [|i l IH]; intros m; [by left|]. cbn. intros [Hm|(j & ? & ?)]%IH.
  - apply lookup_union_Some_raw in Hm as [Hm|[_ Hm]]; [|by left].
    apply elem_of_list_to_map_2 in Hm. right. exists i. split; [by left|done].
  - right. exists j. split; [by right|done].
Qed.

Lemma puts_app thr m l l' : puts thr m (l ++ l') = puts thr (puts thr m l) l'.
Proof. revert m. induction l as [|i l IH]; intros m; [done|]. apply IH. Qed.

Lemma serial_app thr m l l' : serial thr m (l ++ l') = serial thr (serial thr m l) l'.
Proof. revert m. induction l as [|i l IH]; intros m; [done|]. apply IH. Qed.

Lemma keys_elem (l : entries) k v : (k, v) ∈ l → k ∈ l.*1.
Proof. intros. by apply (list_elem_of_fmap_2 fst _ (k, v)). Qed.

Lemma in_keys (l : entries) k : k ∈ l.*1 → ∃ v, (k, v) ∈ l.
Proof. intros ([k' v] & -> & ?)%list_elem_of_fmap. by exists v. Qed.

(** ** Each transaction state is consistent *)

Lemma put_in_ws i t : t_wf i t → put_of t ⊆ ws_of t.
Proof. destruct t; cbn; try set_solver. intros (<- & _). set_solver. Qed.

Lemma unput_in_ws i t : t_wf i t → unput_of t ⊆ ws_of t.
Proof. destruct t; cbn; try set_solver. intros (<- & _). set_solver. Qed.

Lemma unput_locked t k : k ∈ (unput_of t).*1 → tag k ∈ xlocks t.
Proof. destruct t; cbn; try set_solver; intros Hk; by apply list_elem_of_fmap_2. Qed.

Lemma ws_put_or_unput i t k :
  t_wf i t → k ∈ (ws_of t).*1 → k ∈ (put_of t).*1 ∨ k ∈ (unput_of t).*1.
Proof.
  destruct t; cbn; intros Hwf; try set_solver. destruct Hwf as (<- & _). rewrite fmap_app. set_solver.
Qed.

Lemma put_in_log t k v : (k, v) ∈ put_of t → in_log t = true.
Proof. destruct t; cbn; try set_solver. Qed.

Lemma ws_in_log t k : k ∈ (ws_of t).*1 → in_log t = true.
Proof. destruct t; cbn; try set_solver. Qed.

Lemma ws_version i t k v : t_wf i t → (k, v) ∈ ws_of t → ver v = id i.
Proof.
  destruct t as [| |? ? ? ?|? ? ? ?|? ?|]; cbn; try set_solver;
    intros Hwf Hin; destruct_and?; by eapply (Forall_forall (λ e : K * V, ver e.2 = id i)) in Hin.
Qed.

Lemma ws_nodup i t : t_wf i t → NoDup (ws_of t).*1.
Proof. destruct t; cbn; try (intros; constructor); tauto. Qed.

Lemma ws_unique i t k v v' : t_wf i t → (k, v) ∈ ws_of t → (k, v') ∈ ws_of t → v = v'.
Proof.
  intros Hwf H1 H2. pose proof (ws_nodup i t Hwf) as Hnd.
  apply (elem_of_list_to_map_1 _ _ _ Hnd) in H1, H2. congruence.
Qed.

(** ** Steps *)

(** Steps that change neither the rows nor what the transaction writes. *)
Lemma oinv_quiet s i t' :
  oinv s → t_wf i t' →
  in_log t' = in_log (othr s i) → ws_of t' = ws_of (othr s i) →
  put_of t' = put_of (othr s i) → unput_of t' = unput_of (othr s i) →
  (∀ l, l ∈ xlocks t' → l ∈ xlocks (othr s i) ∨ lock_free s i l) →
  (∀ k v, (k, v) ∈ rs_of t' →
     (k, v) ∈ rs_of (othr s i) ∨ (in_log (othr s i) = false ∧ ost s !! k = Some v)) →
  (∀ l1 l2 k v, olog s = l1 ++ i :: l2 → (k, v) ∈ checked_of t' → (k, v) ∈ checked_of (othr s i) ∨
     ((∀ j, j ∈ l1 → k ∈ (ws_of (othr s j)).*1 → k ∈ (put_of (othr s j)).*1) ∧
      puts (othr s) init l1 !! k = Some v)) →
  oinv (mkO (ost s) (<[i := t']> (othr s)) (olog s)).
Proof.
  intros [Hwf Hnd Hlog Hex Hst Hord Hrd Hch] Hwf' Hil Hws Hput Hunput Hx Hrs Hck.
  assert (∀ j, in_log (<[i := t']> (othr s) j) = in_log (othr s j)) as Eil.
  { intros j. destruct (decide (j = i)) as [->|]; by rewrite ?fn_lookup_insert, ?fn_lookup_insert_ne. }
  assert (∀ j, ws_of (<[i := t']> (othr s) j) = ws_of (othr s j)) as Ews.
  { intros j. destruct (decide (j = i)) as [->|]; by rewrite ?fn_lookup_insert, ?fn_lookup_insert_ne. }
  assert (∀ j, put_of (<[i := t']> (othr s) j) = put_of (othr s j)) as Eput.
  { intros j. destruct (decide (j = i)) as [->|]; by rewrite ?fn_lookup_insert, ?fn_lookup_insert_ne. }
  assert (∀ j, unput_of (<[i := t']> (othr s) j) = unput_of (othr s j)) as Eun.
  { intros j. destruct (decide (j = i)) as [->|]; by rewrite ?fn_lookup_insert, ?fn_lookup_insert_ne. }
  assert (∀ l, puts (<[i := t']> (othr s)) init l = puts (othr s) init l) as Eputs.
  { intros l. apply puts_ext. intros. by rewrite Eput. }
  constructor; cbn [ost othr olog].
  - intros j. destruct (decide (j = i)) as [->|]; by rewrite ?fn_lookup_insert, ?fn_lookup_insert_ne.
  - done.
  - intros j. by rewrite Eil.
  - intros a b l Hab. destruct (decide (a = i)) as [->|Ha].
    + rewrite fn_lookup_insert, fn_lookup_insert_ne by done. intros [Hl|Hl]%Hx; [by apply (Hex i)|].
      by apply Hl.
    + rewrite (fn_lookup_insert_ne _ i a) by done. intros Hl. destruct (decide (b = i)) as [->|].
      * rewrite fn_lookup_insert. intros [Hl'|Hl']%Hx; [by apply (Hex a i l)|]. by apply (Hl' a).
      * rewrite fn_lookup_insert_ne by done. by apply (Hex a).
  - by rewrite Eputs.
  - intros a b k. rewrite Eun, Ews, Eput. apply Hord.
  - intros a k v. rewrite Eil.
    assert (init !! k = Some v ∨ (∃ j, (k, v) ∈ put_of (othr s j) ∧
              (in_log (othr s a) = true → before (olog s) j a)) →
            init !! k = Some v ∨ (∃ j, (k, v) ∈ put_of (<[i := t']> (othr s) j) ∧
              (in_log (othr s a) = true → before (olog s) j a))) as Hgo.
    { intros [?|(j & ? & ?)]; [by left|right]. exists j. by rewrite Eput. }
    destruct (decide (a = i)) as [->|]; [|rewrite fn_lookup_insert_ne by done; intros; by apply Hgo, Hrd].
    rewrite fn_lookup_insert. intros [?|[Hf Hs]]%Hrs; apply Hgo; [by apply Hrd|].
    rewrite Hst in Hs. apply puts_Some in Hs as [?|(j & ? & ?)]; [by left|right].
    exists j. split; [done|]. by rewrite Hf.
  - intros a l1 l2 k v Hl Hc. rewrite Eputs. setoid_rewrite Ews. setoid_rewrite Eput.
    destruct (decide (a = i)) as [->|]; [|rewrite fn_lookup_insert_ne in Hc by done; by eapply Hch].
    rewrite fn_lookup_insert in Hc. destruct (Hck l1 l2 k v Hl Hc); [by eapply Hch|done].
Qed.

(** All locks are held: the transaction takes its place in the order. *)
(** What a transaction's new state keeps, all threads keep. *)
Lemma proj_insert {A} (R : relation A) `{!Reflexive R} (f : tstate → A) (thr : nat → tstate) i t :
  R (f t) (f (thr i)) → ∀ j, R (f (<[i := t]> thr j)) (f (thr j)).
Proof.
  intros HR j. destruct (decide (j = i)) as [->|]; [by rewrite fn_lookup_insert|by rewrite fn_lookup_insert_ne].
Qed.

Lemma oinv_locked s i rs ws locked :
  oinv s → othr s i = Locking rs ws locked [] →
  oinv (mkO (ost s) (<[i := Validating rs ws [] rs]> (othr s)) (olog s ++ [i])).
Proof.
  intros [Hwf Hnd Hlog Hex Hst Hord Hrd Hch] Ei.
  pose proof (Hwf i) as Hi. rewrite Ei in Hi. cbn in Hi. destruct Hi as (Hl & Hn & Hv).
  rewrite app_nil_r in Hl.
  assert (i ∉ olog s) as Hni. { intros Hin. apply Hlog in Hin. by rewrite Ei in Hin. }
  assert (∀ j, put_of (<[i := Validating rs ws [] rs]> (othr s) j) = put_of (othr s j)) as Eput
    by (apply proj_insert; [apply _|by rewrite Ei]).
  assert (∀ j, xlocks (<[i := Validating rs ws [] rs]> (othr s) j) = xlocks (othr s j)) as Exl
    by (apply proj_insert; [apply _|rewrite Ei; cbn; by rewrite Hl]).
  assert (∀ l, puts (<[i := Validating rs ws [] rs]> (othr s)) init l = puts (othr s) init l) as Eputs
    by (intros l; apply puts_ext; intros; by rewrite Eput).
  assert (∀ k j, j ≠ i → k ∈ ws.*1 → k ∉ (unput_of (othr s j)).*1) as Hfree.
  { intros k j Hj Hk Hu%unput_locked. apply (Hex j i (tag k) Hj Hu). rewrite Ei. cbn. rewrite Hl.
    by apply list_elem_of_fmap_2. }
  constructor; cbn [ost othr olog].
  - intros j. destruct (decide (j = i)) as [->|]; [by rewrite fn_lookup_insert|].
    by rewrite fn_lookup_insert_ne.
  - apply NoDup_app. split; [done|]. split; [|apply NoDup_singleton]. set_solver.
  - intros j. destruct (decide (j = i)) as [->|]; [rewrite fn_lookup_insert; set_solver|].
    rewrite fn_lookup_insert_ne by done. rewrite <- Hlog. set_solver.
  - intros a b l Hab. rewrite !Exl. by apply Hex.
  - rewrite Eputs, puts_app. cbn. rewrite Ei. cbn. by rewrite (left_id_L ∅ (∪)).
  - intros a b k Hab. rewrite Eput. destruct (decide (a = i)) as [->|], (decide (b = i)) as [->|];
      rewrite ?fn_lookup_insert, ?fn_lookup_insert_ne by done; [done| | |].
    + cbn [unput_of]. intros Hk Hw. split.
      * destruct (ws_put_or_unput b (othr s b) k (Hwf b) Hw) as [?|Hu]; [done|].
        exfalso. by apply (Hfree k b).
      * apply before_snoc, Hlog. by eapply ws_in_log.
    + cbn [ws_of]. intros Hu Hk. exfalso. by apply (Hfree k a).
    + intros Hu Hw. destruct (Hord a b k Hab Hu Hw). split; [done|]. by apply before_app_r.
  - intros a k v Ha. setoid_rewrite Eput. destruct (decide (a = i)) as [->|].
    + rewrite fn_lookup_insert in Ha |- *. destruct (Hrd i k v) as [?|(j & Hj & _)]; [by rewrite Ei|by left|].
      right. exists j. split; [done|]. intros _. apply before_snoc, Hlog. by eapply put_in_log.
    + rewrite fn_lookup_insert_ne in Ha |- * by done. destruct (Hrd a k v Ha) as [?|(j & ? & ?)]; [by left|].
      right. exists j. split; [done|]. intros. apply before_app_r. auto.
  - intros a l1 l2 k v Hlg Hc. rewrite Eputs. setoid_rewrite Eput.
    destruct (decide (a = i)) as [->|Ha]; [by rewrite fn_lookup_insert in Hc; apply elem_of_nil in Hc|].
    rewrite fn_lookup_insert_ne in Hc by done.
    destruct l2 as [|x l2 _] using rev_ind.
    { apply app_inj_tail in Hlg as [_ ?]. congruence. }
    rewrite app_comm_cons, app_assoc in Hlg. apply app_inj_tail in Hlg as [Hlg _].
    destruct (Hch a l1 l2 k v Hlg Hc) as [H1 H2]. split; [|done]. intros j Hj.
    rewrite fn_lookup_insert_ne; [by apply H1|]. intros <-. apply Hni. rewrite Hlg. set_solver.
Qed.

Lemma puts_lookup_ext thr thr' m m' l k :
  m !! k = m' !! k →
  (∀ i, i ∈ l → (list_to_map (put_of (thr i)) : gmap K V) !! k = (list_to_map (put_of (thr' i)) : gmap K V) !! k) →
  puts thr m l !! k = puts thr' m' l !! k.
Proof.
  revert m m'. induction l as [|i l IH]; intros m m' Hm Hl; [done|]. cbn. apply IH.
  - rewrite !lookup_union, Hm, (Hl i) by (by left). done.
  - intros. apply Hl. by right.
Qed.

Lemma puts_at thr m la i lb k v :
  (k, v) ∈ put_of (thr i) → NoDup (put_of (thr i)).*1 → (∀ j, j ∈ lb → k ∉ (put_of (thr j)).*1) →
  puts thr m (la ++ i :: lb) !! k = Some v.
Proof.
  intros Hk Hnd Hlb. rewrite puts_app. cbn. rewrite puts_other by done.
  apply lookup_union_Some_l. by apply elem_of_list_to_map_1.
Qed.

Lemma put_nodup i t : t_wf i t → NoDup (put_of t).*1.
Proof.
  destruct t; cbn; try (intros; constructor); [|tauto]. intros (<- & Hnd & _).
  rewrite fmap_app in Hnd. by apply NoDup_app in Hnd as [? _].
Qed.

(** The writes of the transaction that put a key last are the ones in the rows. *)
Lemma puts_last thr (l : list nat) k j :
  j ∈ l → k ∈ (put_of (thr j)).*1 →
  ∃ la i lb, l = la ++ i :: lb ∧ k ∈ (put_of (thr i)).*1 ∧ ∀ x, x ∈ lb → k ∉ (put_of (thr x)).*1.
Proof.
  induction l as [|y l IH] using rev_ind; [by intros ?%elem_of_nil|]. intros Hj Hk.
  destruct (decide (k ∈ (put_of (thr y)).*1)) as [Hy|Hy].
  { exists l, y, []. split; [done|]. split; [done|]. by intros x ?%elem_of_nil. }
  apply elem_of_app in Hj as [Hj|Hj%list_elem_of_singleton]; [|by subst].
  destruct (IH Hj Hk) as (la & i & lb & -> & ? & Hlb). exists la, i, (lb ++ [y]).
  split; [by rewrite <- app_assoc|]. split; [done|].
  intros x [?|Hx%list_elem_of_singleton]%elem_of_app; [by apply Hlb|by subst].
Qed.

(** The row a transaction has just written is its last writer's. *)
Lemma puts_of_put s i rs ws put k0 v0 toput :
  oinv s → othr s i = Committing rs ws put ((k0, v0) :: toput) →
  puts (<[i := Committing rs ws (put ++ [(k0, v0)]) toput]> (othr s)) init (olog s) !! k0 = Some v0.
Proof.
  intros [Hwf Hnd Hlog Hex Hst Hord Hrd Hch] Ei.
  pose proof (Hwf i) as Hi. rewrite Ei in Hi. cbn in Hi. destruct Hi as (Hws & Hn & Hv).
  assert (i ∈ olog s) as (l1 & l2 & El)%list_elem_of_split by (apply Hlog; by rewrite Ei).
  rewrite El in Hnd |- *. apply puts_at.
  - rewrite fn_lookup_insert. set_solver.
  - eapply (put_nodup i). rewrite fn_lookup_insert. cbn. split; [|done].
    rewrite <- Hws. by rewrite <- app_assoc.
  - intros j Hj Hp. assert (j ≠ i) as Hji.
    { intros ->. apply NoDup_app in Hnd as (_ & _ & Hnd). apply NoDup_cons in Hnd as [? _]. done. }
    rewrite fn_lookup_insert_ne in Hp by done.
    destruct (Hord i j k0) as [_ Hb]; [done|rewrite Ei; by left| |].
    { apply in_keys in Hp as (v & Hp%(put_in_ws j _ (Hwf j))). by eapply keys_elem. }
    rewrite El in Hb. apply (before_split _ _ _ _ Hnd) in Hb.
    apply NoDup_app in Hnd as (_ & Hnd & _). apply (Hnd j Hb). by right.
Qed.

Lemma oinv_put s i rs ws put k0 v0 toput :
  oinv s → othr s i = Committing rs ws put ((k0, v0) :: toput) →
  oinv (mkO (<[k0 := v0]> (ost s)) (<[i := Committing rs ws (put ++ [(k0, v0)]) toput]> (othr s)) (olog s)).
Proof.
  intros Hs Ei. pose proof Hs as [Hwf Hnd Hlog Hex Hst Hord Hrd Hch].
  set (t' := Committing rs ws (put ++ [(k0, v0)]) toput).
  pose proof (Hwf i) as Hi. rewrite Ei in Hi. cbn in Hi. destruct Hi as (Hws & Hn & Hv).
  assert (k0 ∉ put.*1) as Hk0.
  { rewrite <- Hws, fmap_app in Hn. apply NoDup_app in Hn as (_ & Hn & _). intros Hin.
    apply (Hn k0 Hin). by left. }
  assert (∀ j, in_log (<[i := t']> (othr s) j) = in_log (othr s j)) as Eil by (apply proj_insert; [apply _|by rewrite Ei]).
  assert (∀ j, ws_of (<[i := t']> (othr s) j) = ws_of (othr s j)) as Ews by (apply proj_insert; [apply _|by rewrite Ei]).
  assert (∀ j, put_of (othr s j) ⊆ put_of (<[i := t']> (othr s) j)) as Sput
    by (apply (proj_insert (flip (⊆)) put_of); rewrite Ei; unfold flip; set_solver).
  assert (∀ j, unput_of (<[i := t']> (othr s) j) ⊆ unput_of (othr s j)) as Sun
    by (apply (proj_insert (⊆) unput_of); rewrite Ei; set_solver).
  assert (∀ j, xlocks (<[i := t']> (othr s) j) ⊆ xlocks (othr s j)) as Sx
    by (apply (proj_insert (⊆) xlocks); rewrite Ei; set_solver).
  assert (∀ j k, k ≠ k0 → (list_to_map (put_of (<[i := t']> (othr s) j)) : gmap K V) !! k =
            (list_to_map (put_of (othr s j)) : gmap K V) !! k) as Epm.
  { intros j k Hk. destruct (decide (j = i)) as [->|]; [|by rewrite fn_lookup_insert_ne].
    rewrite fn_lookup_insert, Ei. cbn. rewrite list_to_map_app, lookup_union_l; [done|].
    cbn. rewrite lookup_insert_ne by done. done. }
  assert (∀ l k, k ≠ k0 ∨ i ∉ l → puts (<[i := t']> (othr s)) init l !! k = puts (othr s) init l !! k) as Eputs.
  { intros l k Hor. apply puts_lookup_ext; [done|]. intros j Hj.
    destruct (decide (k = k0)) as [->|]; [|by apply Epm]. destruct Hor; [done|].
    rewrite fn_lookup_insert_ne; [done|]. intros <-. done. }
  constructor; cbn [ost othr olog].
  - intros j. destruct (decide (j = i)) as [->|]; [|by rewrite fn_lookup_insert_ne].
    rewrite fn_lookup_insert. cbn. split; [|done]. rewrite <- Hws. by rewrite <- app_assoc.
  - done.
  - intros j. by rewrite Eil.
  - intros a b l Hab Ha%Sx Hb%Sx. by apply (Hex a b l).
  - apply map_eq. intros k. destruct (decide (k = k0)) as [->|Hne].
    + rewrite lookup_insert_eq. symmetry. by apply (puts_of_put s i rs ws put k0 v0 toput Hs).
    + rewrite lookup_insert_ne by done. rewrite Eputs by (by left). by rewrite Hst.
  - intros a b k Hab Hu Hw. rewrite Ews in Hw.
    destruct (Hord a b k Hab) as [Hp ?]; [|done|].
    { apply in_keys in Hu as (v & Hu%Sun). by eapply keys_elem. }
    split; [|done]. apply in_keys in Hp as (v & Hp%Sput). by eapply keys_elem.
  - intros a k v Ha. rewrite Eil. destruct (Hrd a k v) as [?|(j & Hj%Sput & ?)]; [|by left|right; by exists j].
    destruct (decide (a = i)) as [->|]; [by rewrite fn_lookup_insert in Ha; rewrite Ei|].
    by rewrite fn_lookup_insert_ne in Ha.
  - intros a l1 l2 k v El Hc.
    assert ((k, v) ∈ checked_of (othr s a)) as Hc'.
    { destruct (decide (a = i)) as [->|]; [by rewrite fn_lookup_insert in Hc; rewrite Ei|].
      by rewrite fn_lookup_insert_ne in Hc. }
    destruct (Hch a l1 l2 k v El Hc') as [H1 H2]. split.
    + intros j Hj Hw. rewrite Ews in Hw. apply (H1 j Hj) in Hw.
      apply in_keys in Hw as (w & Hw%Sput). by eapply keys_elem.
    + rewrite Eputs; [done|]. destruct (decide (k = k0)) as [->|]; [right|by left]. intros Hi.
      apply Hk0. specialize (H1 i Hi). rewrite Ei in H1. apply H1. cbn. rewrite <- Hws, fmap_app. set_solver.
Qed.

Lemma puts_skip thr m l i :
  put_of (thr i) = [] → puts thr m (filter (λ j, j ≠ i) l) = puts thr m l.
Proof.
  intros Hi. revert m. induction l as [|x l IH]; intros m; [done|].
  destruct (decide (x = i)) as [->|Hx].
  - rewrite filter_cons_False by tauto. cbn. rewrite Hi. cbn. by rewrite (left_id_L ∅ (∪)), IH.
  - rewrite filter_cons_True by done. cbn. apply IH.
Qed.

Lemma oinv_abort s i :
  oinv s → put_of (othr s i) = [] → deciding (othr s i) = false →
  oinv (mkO (ost s) (<[i := Aborted]> (othr s)) (filter (λ j, j ≠ i) (olog s))).
Proof.
  intros [Hwf Hnd Hlog Hex Hst Hord Hrd Hch] Hp Hd.
  assert (∀ j, put_of (<[i := Aborted]> (othr s) j) = put_of (othr s j)) as Eput.
  { intros j. destruct (decide (j = i)) as [->|]; [by rewrite fn_lookup_insert, Hp|by rewrite fn_lookup_insert_ne]. }
  assert (∀ l, puts (<[i := Aborted]> (othr s)) init l = puts (othr s) init l) as Eputs.
  { intros l. apply puts_ext. intros. by rewrite Eput. }
  constructor; cbn [ost othr olog].
  - intros j. destruct (decide (j = i)) as [->|]; [by rewrite fn_lookup_insert|by rewrite fn_lookup_insert_ne].
  - by apply NoDup_filter.
  - intros j. rewrite list_elem_of_filter. destruct (decide (j = i)) as [->|].
    + rewrite fn_lookup_insert. cbn. split; [tauto|done].
    + rewrite fn_lookup_insert_ne by done. rewrite Hlog. tauto.
  - intros a b l Hab. destruct (decide (a = i)) as [->|]; [rewrite fn_lookup_insert; set_solver|].
    rewrite (fn_lookup_insert_ne _ i a) by done.
    destruct (decide (b = i)) as [->|]; [rewrite fn_lookup_insert; set_solver|].
    rewrite fn_lookup_insert_ne by done. by apply Hex.
  - rewrite Eputs, puts_skip by done. done.
  - intros a b k Hab. rewrite Eput. destruct (decide (a = i)) as [->|]; [rewrite fn_lookup_insert; set_solver|].
    rewrite (fn_lookup_insert_ne _ i a) by done.
    destruct (decide (b = i)) as [->|]; [rewrite fn_lookup_insert; set_solver|].
    rewrite fn_lookup_insert_ne by done. intros Hu Hw. destruct (Hord a b k Hab Hu Hw).
    split; [done|]. by apply before_filter.
  - intros a k v. destruct (decide (a = i)) as [->|]; [rewrite fn_lookup_insert; set_solver|].
    rewrite fn_lookup_insert_ne by done. intros Ha. destruct (Hrd a k v Ha) as [?|(j & Hj & ?)]; [by left|right].
    exists j. rewrite Eput. split; [done|]. intros. apply before_filter; [|done|auto].
    intros ->. rewrite Hp in Hj. by apply elem_of_nil in Hj.
  - intros a l1 l2 k v El Hc. rewrite Eputs. setoid_rewrite Eput.
    destruct (decide (a = i)) as [->|]; [by rewrite fn_lookup_insert in Hc; apply elem_of_nil in Hc|].
    rewrite fn_lookup_insert_ne in Hc by done.
    assert (a ∈ olog s) as (m1 & m2 & Em)%list_elem_of_split.
    { assert (a ∈ filter (λ j, j ≠ i) (olog s)) as [_ ?]%list_elem_of_filter; [rewrite El; set_solver|done]. }
    assert (filter (λ j, j ≠ i) m1 = l1) as <-.
    { rewrite Em, filter_app, filter_cons_True in El by done.
      rewrite Em in Hnd. apply (NoDup_filter (λ j, j ≠ i)) in Hnd.
      rewrite filter_app, filter_cons_True in Hnd by done. by destruct (split_unique _ _ _ _ _ Hnd El). }
    destruct (Hch a m1 m2 k v Em Hc) as [H1 H2]. rewrite puts_skip by done. split; [|done].
    intros j [Hj Hj1]%list_elem_of_filter. rewrite fn_lookup_insert_ne by done. by apply H1.
Qed.

(** Versions tell the writers apart, and the writers from the initial rows. *)
Context (id_inj : ∀ i j, id i = id j → i = j).
Context (init_ver : ∀ k v i, init !! k = Some v → ver v ≠ id i).

(** A read that passes its check is the last write before the transaction. *)
Lemma check_current s i l1 l2 k v v' :
  oinv s → olog s = l1 ++ i :: l2 → (k, v) ∈ rs_of (othr s i) →
  lock_free s i (tag k) → ost s !! k = Some v' → ver v' = ver v →
  (∀ j, j ∈ l1 → k ∈ (ws_of (othr s j)).*1 → k ∈ (put_of (othr s j)).*1) ∧
  puts (othr s) init l1 !! k = Some v.
Proof.
  intros [Hwf Hnd Hlog Hex Hst Hord Hrd Hch] El Hr Hf Hs Hv. rewrite El in Hnd.
  assert (∀ j, j ∈ l1 → j ≠ i) as Hne.
  { intros j Hj ->. apply NoDup_app in Hnd as (_ & Hnd & _). apply (Hnd i Hj). by left. }
  split.
  { intros j Hj Hw. destruct (ws_put_or_unput j _ k (Hwf j) Hw) as [?|Hu]; [done|].
    destruct (Hf j (Hne j Hj)). by apply unput_locked. }
  rewrite Hst in Hs.
  assert (in_log (othr s i) = true) as Hil by (apply Hlog; rewrite El; set_solver).
  assert (∀ j w, (k, w) ∈ put_of (othr s j) → ver w = id j) as Hput.
  { intros j w Hw%(put_in_ws j _ (Hwf j)). by eapply ws_version. }
  destruct (decide (Exists (λ j, k ∈ (put_of (othr s j)).*1) (olog s))) as [He|He].
  - apply Exists_exists in He as (j0 & Hj0 & Hk0).
    destruct (puts_last (othr s) (olog s) k j0 Hj0 Hk0) as (la & j & lb & Ej & Hk & Hlb).
    apply in_keys in Hk as (w & Hw).
    rewrite Ej, (puts_at _ _ _ _ _ _ w) in Hs; [|done|by eapply put_nodup|done].
    injection Hs as <-. destruct (Hrd i k v Hr) as [Hi|(j' & Hj' & Hb)].
    { destruct (init_ver k v j Hi). by rewrite <- Hv, (Hput j w Hw). }
    assert (j' = j) as ->. { apply id_inj. by rewrite <- (Hput j' v Hj'), <- Hv, (Hput j w Hw). }
    specialize (Hb Hil). rewrite El in Hb. apply (before_split _ _ _ _ Hnd) in Hb.
    assert (w = v) as -> by (eapply (ws_unique j _ k w v (Hwf j)); by eapply (put_in_ws j _ (Hwf j))).
    apply list_elem_of_split in Hb as (a & b & ->).
    assert (lb = b ++ i :: l2) as ->.
    { rewrite <- app_assoc in El, Hnd. cbn in El, Hnd. rewrite El in Ej.
      by destruct (split_unique _ _ _ _ _ Hnd Ej). }
    apply puts_at; [done|by eapply put_nodup|]. intros x Hx. apply Hlb. set_solver.
  - assert (∀ j, j ∈ olog s → k ∉ (put_of (othr s j)).*1) as Hno.
    { intros j Hj Hk. apply He, Exists_exists. by exists j. }
    rewrite puts_other in Hs by done. destruct (Hrd i k v Hr) as [Hi|(j & Hj & Hb)].
    + rewrite puts_other; [done|]. intros j Hj. apply Hno. rewrite El. set_solver.
    + specialize (Hb Hil). apply before_elem in Hb as [Hb _]. destruct (Hno j Hb). by eapply keys_elem.
Qed.

Lemma oinv_step s s' : ostep s s' → oinv s → oinv s'.
Proof.
  intros Hs Hinv. pose proof (oi_wf s Hinv) as Hwf.
  destruct Hs as [s i rs k v Ei Hk|s i rs ws Ei Hnd Hv|s i rs ws locked k todo Ei Hf|s i rs ws locked Ei
    |s i rs ws checked k v v' tocheck Ei Hf Hk Hv|s i rs ws checked Ei|s i rs ws put k v toput Ei
    |s i rs ws put Ei|s i Ei]; try (specialize (Hwf i); rewrite Ei in Hwf; cbn in Hwf).
  - apply oinv_quiet; rewrite ?Ei; try done; cbn; [set_solver| |set_solver].
    intros k' v' [?|[= -> ->]%list_elem_of_singleton]%elem_of_app; auto.
  - apply oinv_quiet; rewrite ?Ei; try done; cbn; try set_solver.
  - destruct Hwf as (Hl & ? & ?). apply oinv_quiet; rewrite ?Ei; try done; cbn; [| |auto|set_solver].
    + split; [|done]. by rewrite <- app_assoc.
    + intros l Hl'. apply list_elem_of_fmap in Hl' as (x & -> & [Hx|Hx%list_elem_of_singleton]%elem_of_app).
      * left. by apply list_elem_of_fmap_2.
      * subst x. by right.
  - by eapply oinv_locked.
  - destruct Hwf as (Hl & ? & ?). apply oinv_quiet; rewrite ?Ei; try done; cbn; [|auto|auto|].
    + split; [|done]. by rewrite <- app_assoc.
    + intros l1 l2 k' w El [?|[= -> ->]%list_elem_of_singleton]%elem_of_app; [by left|right].
      eapply check_current; try done. rewrite Ei. cbn. rewrite <- Hl. set_solver.
  - destruct Hwf as (Hl & ? & ?). rewrite app_nil_r in Hl. subst.
    apply oinv_quiet; rewrite ?Ei; try done; cbn; auto.
  - by apply oinv_put.
  - destruct Hwf as (Hl & ? & ?). rewrite app_nil_r in Hl. subst.
    apply oinv_quiet; rewrite ?Ei; try done; cbn; auto.
  - apply oinv_abort; [done|by destruct (othr s i)..].
Qed.

Definition oinit : ostate := mkO init (λ _, Active []) [].

Lemma oinv_init : oinv oinit.
Proof.
  constructor; cbn; try done; try (by constructor); try set_solver.
Qed.

Lemma oinv_reachable s : rtc ostep oinit s → oinv s.
Proof.
  intros Hr. pose proof oinv_init as Hi. revert Hi. generalize oinit Hr. clear Hr.
  intros s0 Hr. induction Hr as [|x y z Hs _ IH]; [done|]. intros Hx. apply IH. by eapply oinv_step.
Qed.

(** ** Serializability *)

Definition decided (s : ostate) : list nat := filter (λ i, deciding (othr s i) = true) (olog s).

Lemma serial_puts s l k :
  oinv s →
  (∀ j, j ∈ l → deciding (othr s j) = true → k ∈ (ws_of (othr s j)).*1 → k ∈ (put_of (othr s j)).*1) →
  ∀ m, serial (othr s) m (filter (λ i, deciding (othr s i) = true) l) !! k = puts (othr s) m l !! k.
Proof.
  intros Hinv. induction l as [|i l IH]; intros Hl m; [done|].
  specialize (IH ltac:(intros; apply Hl; [by right|done..])). cbn [puts].
  assert (∀ m m' : gmap K V, m !! k = m' !! k → puts (othr s) m l !! k = puts (othr s) m' l !! k) as Hm.
  { intros. by apply puts_lookup_ext. }
  destruct (deciding (othr s i)) eqn:Ed.
  - rewrite filter_cons_True by done. cbn [serial]. rewrite IH. apply Hm.
    assert ((list_to_map (ws_of (othr s i)) : gmap K V) !! k = (list_to_map (put_of (othr s i)) : gmap K V) !! k)
      as Ek.
    { destruct (decide (k ∈ (put_of (othr s i)).*1)) as [Hp|Hp].
      - apply in_keys in Hp as (v & Hp). rewrite (elem_of_list_to_map_1 (put_of (othr s i)) k v);
          [|eapply put_nodup, Hinv|done].
        apply elem_of_list_to_map_1; [eapply ws_nodup, Hinv|]. by eapply (put_in_ws i _ (oi_wf s Hinv i)).
      - rewrite !(proj1 (not_elem_of_list_to_map _ _)); [done|done|].
        intros Hw. apply Hp, Hl; [by left|done|done]. }
    by rewrite !lookup_union, Ek.
  - rewrite filter_cons_False by congruence. rewrite IH. apply Hm.
    assert (put_of (othr s i) = []) as -> by by destruct (othr s i). cbn. by rewrite (left_id_L ∅ (∪)).
Qed.

(** In every reachable state the transactions that decided to commit can be
    put in a sequence such that each read exactly the rows its predecessors
    leave, and the rows are those of the sequence when no commit is halfway. *)
Lemma occ_serial s :
  rtc ostep oinit s →
  NoDup (decided s) ∧ (∀ i, i ∈ decided s ↔ deciding (othr s i) = true) ∧
  (∀ l1 i l2 k v, decided s = l1 ++ i :: l2 → (k, v) ∈ rs_of (othr s i) →
     serial (othr s) init l1 !! k = Some v) ∧
  ((∀ i, match othr s i with Committing _ _ _ _ => False | _ => True end) →
   ost s = serial (othr s) init (decided s)).
Proof.
  intros Hinv%oinv_reachable. split_and!.
  - apply NoDup_filter, (oi_nodup s Hinv).
  - intros i. unfold decided. rewrite list_elem_of_filter, (oi_log s Hinv).
    destruct (othr s i); cbn; naive_solver.
  - intros l1 i l2 k v E Hr.
    assert (i ∈ decided s) as [Hd Hi]%list_elem_of_filter by (rewrite E; set_solver).
    apply list_elem_of_split in Hi as (m1 & m2 & Em). pose proof (oi_nodup s Hinv) as Hnd.
    assert (filter (λ i, deciding (othr s i) = true) m1 = l1) as <-.
    { unfold decided in E. rewrite Em in E, Hnd. rewrite filter_app, filter_cons_True in E by done.
      apply (NoDup_filter (λ i, deciding (othr s i) = true)) in Hnd.
      rewrite filter_app, filter_cons_True in Hnd by done. by destruct (split_unique _ _ _ _ _ Hnd E). }
    destruct (oi_checked s Hinv i m1 m2 k v Em) as [H1 H2].
    { destruct (othr s i); cbn in *; done. }
    rewrite serial_puts; auto.
  - intros Hfin. rewrite (oi_store s Hinv). apply map_eq. intros k. symmetry. apply serial_puts; [done|].
    intros j _ Hd. specialize (Hfin j). by destruct (othr s j).
Qed.

End protocol.
