(* ===== verification/Serial.v ===== *)
(** * Concurrent backends

    Runs the code of [Xact] and [Nram] on several backends that share the rows
    of the storage service and the lock table. A backend executes a transaction
    of SELECT and UPDATE statements on single rows and then the pre-commit
    callback; the calls on shared state of all backends interleave freely.

    The lock table is the contract [Lock] proves of the lock manager: a lock is
    granted when no other backend holds a conflicting mode, and a request may be
    refused. [RocksClientGet] and [RocksClientPut] read and write one row, as
    [RocksService] shows of the storage service.

    A statement is a SELECT or an UPDATE of one stored row that its plan finds
    through an index; an UPDATE is the whole statement, with the index fetch of
    its plan, the second fetch of the row by [ExecModifyTable] and the update.

    Shown here: the code refines the protocol of [Occ], so that committed
    transactions are serializable when the values an UPDATE assigns do not depend
    on the row its own plan has read. Where they do, they are not
    ([lost_update]): that read does not enter the read set. *)
From S2P Require Import Prelude Datum Kv Action Lock RocksEngine Xact Nram Occ.
From Stdlib Require Import ZArith Lia QArith.
From stdpp Require Import base strings gmap functions numbers list sorting.

Open Scope Z_scope.

(** ** Shared state *)

Record shared := mkShared {
  rows : gmap NRAMKeyData NRAMValueData;
  locktab : list (nat * LOCKTAG * Z)
}.

Definition conflicting (i : nat) (tag : LOCKTAG) (mode : Z) (e : nat * LOCKTAG * Z) : bool :=
  bool_decide (e.1.1 ≠ i) && bool_decide (e.1.2 = tag) && Z.testbit (LockConflicts mode) e.2.

Definition can_grant (i : nat) (tag : LOCKTAG) (mode : Z) (tab : list (nat * LOCKTAG * Z)) : bool :=
  forallb (λ e, negb (conflicting i tag mode e)) tab.

Fixpoint remove1 {A} `{EqDecision A} (x : A) (l : list A) : list A :=
  match l with [] => [] | y :: l => if decide (x = y) then l else y :: remove1 x l end.

(** The rows a range scan returns: those of the byte range, in byte order. *)
Definition key_le (e1 e2 : NRAMKeyData * NRAMValueData) : Prop :=
  bytes_ltb (tkey_serialize e2.1) (tkey_serialize e1.1) = false.
#[export] Instance key_le_dec e1 e2 : Decision (key_le e1 e2) :=
  decide (bytes_ltb (tkey_serialize e2.1) (tkey_serialize e1.1) = false).
Definition scan_rows (lo hi : NRAMKeyData) (m : gmap NRAMKeyData NRAMValueData)
    : list (NRAMKeyData * NRAMValueData) :=
  merge_sort key_le (filter (λ e : NRAMKeyData * NRAMValueData, in_scan_range lo hi e.1) (map_to_list m)).

Definition lock_result (i : nat) (tag : LOCKTAG) (mode : Z) (tab : list (nat * LOCKTAG * Z))
    : LockAcquireResult :=
  if decide ((i, tag, mode) ∈ tab) then LOCKACQUIRE_ALREADY_HELD else LOCKACQUIRE_OK.

(** One call of backend [i] on the shared state. *)
Inductive pstep {R} (i : nat) : prog R → shared → prog R → shared → Prop :=
| s_grant tag mode dw k w :
    can_grant i tag mode (locktab w) = true →
    pstep i (DoLock tag mode dw k) w (k (lock_result i tag mode (locktab w)))
      (mkShared (rows w) ((i, tag, mode) :: locktab w))
| s_refuse tag mode dw k w :
    pstep i (DoLock tag mode dw k) w (k LOCKACQUIRE_NOT_AVAIL) w
| s_unlock tag mode k w :
    pstep i (DoUnlock tag mode k) w (k (bool_decide ((i, tag, mode) ∈ locktab w)))
      (mkShared (rows w) (remove1 (i, tag, mode) (locktab w)))
| s_get key k w :
    pstep i (DoGet key k) w (k (rows w !! key)) w
| s_put key v k w :
    pstep i (DoPut key v k) w (k true) (mkShared (<[key := v]> (rows w)) (locktab w))
| s_scan lo hi k w :
    pstep i (DoScan lo hi k) w (k (Some (scan_rows lo hi (rows w)))) w.

(** ** Transactions *)

(** The CMD_UPDATE case of [ExecModifyTable] for a row of a table: the old row is
    fetched, the new row is made of it and stored. *)
Definition modify_row (rel : Relation) (p : Tid.ItemPointerData) (f : StoredTuple → HeapTuple) : X backend unit :=
  nram_fetch_row_version rel p None ≫= λ r,
  match r with
  | (true, Some old) => nram_tuple_update rel p (f old) ≫= λ _, mret tt
  | _ => xraise "failed to fetch tuple being updated"
  end.

(** The new row is made of the row [plan] that the plan produced and of the old
    row ([ExecGetUpdateNewTuple], here [f]). *)
Definition ExecModifyTable_update (rel : Relation) (p : Tid.ItemPointerData)
    (f : StoredTuple → StoredTuple → HeapTuple) (plan : StoredTuple) : X backend unit :=
  modify_row rel p (f plan).

(** [UPDATE ... SET col = ...] on one row that the plan finds through an index. *)
Definition update_statement (rel : Relation) (p : Tid.ItemPointerData)
    (f : StoredTuple → StoredTuple → HeapTuple) : X backend unit :=
  local (nram_ExecutorStart (Some CMD_UPDATE)) ≫= λ _,
  nram_index_fetch_tuple rel p None ≫= λ r,
  match r.2 with
  | None => mret tt
  | Some plan => ExecModifyTable_update rel p f plan
  end ≫= λ _, local nram_ExecutorEnd.

(** A transaction program: what it does next may depend on what it selected. An
    UPDATE assigns values that do not depend on the row its own plan has read:
    constants, parameters, what was selected before. The columns it does not
    assign are those of the old row. *)
Inductive txn :=
| TEnd
| TSelect (rel : Relation) (p : Tid.ItemPointerData) (c : bool * bool * Slot → txn)
| TUpdate (rel : Relation) (p : Tid.ItemPointerData) (f : StoredTuple → HeapTuple) (c : txn).

Fixpoint exec (t : txn) : X backend unit :=
  match t with
  | TEnd => mret tt
  | TSelect rel p c =>
      local (nram_ExecutorStart (Some CMD_SELECT)) ≫= λ _,
      nram_index_fetch_tuple rel p None ≫= λ r,
      local nram_ExecutorEnd ≫= λ _, exec (c r)
  | TUpdate rel p f c => update_statement rel p (λ _, f) ≫= λ _, exec c
  end.

(** An UPDATE whose plan has found the row. *)
Inductive stage :=
| At (t : txn)
| Modify (rel : Relation) (p : Tid.ItemPointerData) (f : StoredTuple → HeapTuple) (c : txn).

Definition exec_stage (st : stage) : X backend unit :=
  match st with
  | At t => exec t
  | Modify rel p f c => (modify_row rel p f ≫= λ _, local nram_ExecutorEnd) ≫= λ _, exec c
  end.

Definition commit : unit → X backend unit := λ _, nram_xact_callback XACT_EVENT_PRE_COMMIT.

Definition transaction (t : txn) (b : backend) : prog (outcome unit * backend) := (exec t ≫= commit) b.

(** A backend that has finished holds no lock ([LockReleaseAll]); an error
    means that its transaction aborted. *)
Inductive tstatus :=
| Running (p : prog (outcome unit * backend))
| Finished (committed : bool).

Record system := mkSystem { sh : shared; threads : nat → tstatus }.

Definition release_all (i : nat) (tab : list (nat * LOCKTAG * Z)) : list (nat * LOCKTAG * Z) :=
  filter (λ e : nat * LOCKTAG * Z, e.1.1 ≠ i) tab.

Inductive sys_step : system → system → Prop :=
| y_run s i p p' w' :
    threads s i = Running p → pstep i p (sh s) p' w' →
    sys_step s (mkSystem w' (<[i := Running p']> (threads s)))
| y_finish s i r b :
    threads s i = Running (Ret (r, b)) →
    sys_step s (mkSystem (mkShared (rows (sh s)) (release_all i (locktab (sh s))))
                  (<[i := Finished (is_ok r)]> (threads s))).

(** ** Running alone *)

(** The body of a transaction against fixed rows. *)
Fixpoint run_gets {R} (m : gmap NRAMKeyData NRAMValueData) (p : prog R) : option R :=
  match p with
  | Ret r => Some r
  | DoGet key k => run_gets m (k (m !! key))
  | _ => None
  end.

Definition ent (o : NRAMXactOptData) : NRAMKeyData * NRAMValueData := (opt_key o, opt_value o).

Definition writes_of (b : backend) : list NRAMXactOptData :=
  match current_nram_xact b with Some x => write_set x | None => [] end.

Definition apply_writes (b : backend) (m : gmap NRAMKeyData NRAMValueData)
    : gmap NRAMKeyData NRAMValueData :=
  list_to_map (ent <$> writes_of b) ∪ m.

(** One transaction after the other: each runs its body alone on the rows its
    predecessors left and then writes its write set. *)
Inductive serial_run (txns : nat → txn) (start : nat → backend)
    : gmap NRAMKeyData NRAMValueData → list nat → gmap NRAMKeyData NRAMValueData → Prop :=
| sr_nil m : serial_run txns start m [] m
| sr_cons m i b l m' :
    run_gets m (exec (txns i) (start i)) = Some (Ok tt, b) →
    serial_run txns start (apply_writes b m) l m' →
    serial_run txns start m (i :: l) m'.

(** ** Assumptions on the transactions *)

(** A backend before its transaction: it has an identifier, runs at the
    serializable level and is attached to a policy that never locks on access. *)
Definition optimistic (act : list CCActionData) : Prop := Forall (λ a, detect_all a = false) act.

Definition start_ok (b : backend) : Prop :=
  top_xid b ≠ InvalidTransactionId ∧ current_nram_xact b = None ∧ IsolationIsSerializable b = true ∧
  match GlobalCachedAgentFunc b with Some act => optimistic act | None => False end.

(** The rows a transaction may select or update. *)
Fixpoint selects_in (K : gset NRAMKeyData) (t : txn) : Prop :=
  match t with
  | TEnd => True
  | TSelect rel p c => nram_key_from_tid (rd_id rel) p ∈ K ∧ ∀ r, selects_in K (c r)
  | TUpdate rel p _ c => nram_key_from_tid (rd_id rel) p ∈ K ∧ selects_in K c
  end.

Definition visible (m : gmap NRAMKeyData NRAMValueData) : Prop :=
  map_Forall (λ _ v, NRAMValueIsPrivate v = false) m.

(** ** The body of a transaction *)

Lemma serialize_id xid values desc v :
  nram_value_serialize_from_tuple xid values desc = Ok v → xact_id v = xid ∧ flags v = 0.
Proof.
  unfold nram_value_serialize_from_tuple. destruct (estimate_lens _ _); cbn; [|done..].
  destruct (_ <? _); [done|]. destruct (write_fields _ _ _ _); cbn; [|done..].
  destruct (negb _); [done|]. by intros [= <-].
Qed.

Definition reads_in (rs : list (NRAMKeyData * NRAMValueData)) (m : gmap NRAMKeyData NRAMValueData) : Prop :=
  ∀ k v, (k, v) ∈ rs → m !! k = Some v.

Section body.

Context (xid : Z) (Hxid : xid ≠ InvalidTransactionId).

(** An entry of the read set for a row that was read. *)
Definition ropt (e : NRAMKeyData * NRAMValueData) (o : NRAMXactOptData) : Prop :=
  opt_key o = e.1 ∧ opt_xact_id o = xact_id e.2.

Definition wset_ok (l : list NRAMXactOptData) : Prop :=
  NoDup (opt_key <$> l) ∧
  Forall (λ o, xact_id (opt_value o) = xid ∧ NRAMValueIsPrivate (opt_value o) = false) l.

Definition base (b : backend) : Prop :=
  top_xid b = xid ∧ IsolationIsSerializable b = true ∧
  match GlobalCachedAgentFunc b with Some act => optimistic act | None => False end.

(** The backend in its transaction, having read [rs]. *)
Definition bkx (b : backend) (x : NRAMXactStateData) (rs : list (NRAMKeyData * NRAMValueData)) : Prop :=
  base b ∧ current_nram_xact b = Some x ∧ xs_xact_id x = xid ∧ validated x = false ∧
  Forall2 ropt rs (read_set x) ∧ wset_ok (write_set x).

Definition bk (b : backend) (rs : list (NRAMKeyData * NRAMValueData)) : Prop :=
  (base b ∧ current_nram_xact b = None ∧ rs = []) ∨ ∃ x, bkx b x rs.

Lemma GetCurrent_bkx b x rs : bkx b x rs → GetCurrentNRAMXact b = (Ok x, b).
Proof.
  intros ((Ht & _) & Hc & Hx & _). unfold GetCurrentNRAMXact, refresh_nram_xact.
  rewrite Hc, Hx, Ht, Z.eqb_refl. by rewrite Hc.
Qed.

Lemma GetCurrent_bk b rs : bk b rs → ∃ x b', GetCurrentNRAMXact b = (Ok x, b') ∧ bkx b' x rs.
Proof.
  intros [(Hb & Hc & ->)|[x Hx]]; [|exists x, b; split; [by eapply GetCurrent_bkx|done]].
  destruct Hb as (Ht & Hs & Hp). unfold GetCurrentNRAMXact, refresh_nram_xact, NewNRAMXactState.
  rewrite Hc, Ht. destruct (Z.eqb_spec xid InvalidTransactionId) as [|_]; [done|]. cbn.
  eexists _, _. split; [done|]. unfold bkx, base, wset_ok. cbn. split_and!; try done; constructor.
Qed.

Lemma ExecutorStart_bk b rs ct b' :
  bk b rs → nram_ExecutorStart (Some ct) b = (Ok tt, b') → ∃ x, bkx b' x rs ∧ cur_cmdtype x = ct.
Proof.
  intros Hbk. destruct (GetCurrent_bk b rs Hbk) as (x & b1 & Hg & Hx & Hc & Hi & Hv & Hr & Hw).
  unfold nram_ExecutorStart. erewrite M_bind_ok by exact Hg. unfold set_xact. cbn.
  unfold before_access, mbind, M_bind. cbn [current_nram_xact with_xact].
  destruct (get_action _ _); intros [= <-]. eexists. split; [split; [exact Hx|]; split; [reflexivity|]; by split_and!|done].
Qed.

Lemma ExecutorEnd_bk b x rs : bkx b x rs → ∃ b', nram_ExecutorEnd b = (Ok tt, b') ∧ bk b' rs.
Proof.
  intros Hx. pose proof Hx as ((Ht & _) & Hc & Hi & _). unfold nram_ExecutorEnd, refresh_nram_xact.
  rewrite Hc, Hi, Ht, Z.eqb_refl, Hc. clear Ht Hc Hi.
  destruct (0 <? cmdtype_depth x); eexists; (split; [done|]); right; [|by exists x].
  destruct Hx as (Hb & Hc & Hi & Hv & Hr & Hw). eexists. split; [exact Hb|]. split; [reflexivity|].
  by split_and!.
Qed.

Lemma deref_optimistic b x rs :
  bkx b x rs → match deref_action x b with Ok a => detect_all a = false | _ => True end.
Proof.
  intros ((_ & _ & Hp) & _). unfold deref_action. destruct (action x) as [i|]; [|done].
  destruct (GlobalCachedAgentFunc b) as [act|]; [|done].
  destruct (act !! Z.to_nat i) as [a|] eqn:E; [|done].
  by apply (Forall_lookup_1 _ _ _ _ Hp E).
Qed.

(** What a program that has read a row does next. *)
Definition fails {R} (p : prog (outcome R * backend)) : Prop :=
  ∃ r b, p = Ret (r, b) ∧ is_ok r = false.

Lemma track_read_spec key v b x rs : bkx b x rs →
  fails (track_read x key v b) ∨ ∃ b' x', track_read x key v b = Ret (Ok tt, b') ∧ bkx b' x' (rs ++ [(key, v)]).
Proof.
  intros (Hb & Hc & Hi & Hvd & Hr & Hw). unfold track_read, mbind, X_bind, pure_out, local, lift_out, add_read_set.
  destruct (copy_nram_value v) as [w| |] eqn:Ew; cbn; [|by left; do 2 eexists..].
  right. do 2 eexists. split; [done|].
  split; [exact Hb|]. split; [reflexivity|]. split_and!; try done. cbn. apply Forall2_app; [done|].
  constructor; [|constructor]. split; [|done]. apply copy_nram_key_id.
Qed.

Lemma index_fetch_value_spec relid p key b x rs :
  bkx b x rs →
  (∃ v, read_own x key = Ok (Some v) ∧ index_fetch_value relid p key b = Ret (Ok (Some v, false), b)) ∨
  fails (index_fetch_value relid p key b) ∨
  read_own x key = Ok None ∧
  ∃ κ, index_fetch_value relid p key b = DoGet key κ ∧
    ∀ v, nram_value_check_visibility v x = true →
      if nram_for_read x
      then fails (κ (Some v)) ∨ ∃ b' x', κ (Some v) = Ret (Ok (Some v, false), b') ∧ bkx b' x' (rs ++ [(key, v)])
      else κ (Some v) = Ret (Ok (Some v, false), b).
Proof.
  intros Hx. unfold index_fetch_value, mbind, X_bind, local. rewrite (GetCurrent_bkx _ _ _ Hx). cbn.
  destruct (read_own x key) as [[v|]| |]; cbn; [by left; exists v| |by right; left; do 2 eexists..].
  pose proof (deref_optimistic b x rs Hx) as Hd. unfold lock_for_access, get_action_of, mbind, X_bind, local.
  cbn. destruct (deref_action x b) as [a| |]; cbn; [|by right; left; do 2 eexists..].
  rewrite Hd. cbn. right. right. split; [done|]. eexists. split; [done|]. intros v Hv. cbn. rewrite Hv. cbn.
  destruct (nram_for_read x); [|done].
  destruct (track_read_spec key v b x rs Hx) as [(r & b' & -> & Hr)|(b' & x' & -> & Hx')]; cbn.
  - left. destruct r; [done|..]; by do 2 eexists.
  - right. by exists b', x'.
Qed.

Lemma fetch_row_value_spec rel p key b x rs :
  bkx b x rs →
  (∃ v, read_own x key = Ok (Some v) ∧ fetch_row_value rel p key b = Ret (Ok (Some v), b)) ∨
  fails (fetch_row_value rel p key b) ∨
  read_own x key = Ok None ∧
  ∃ κ, fetch_row_value rel p key b = DoGet key κ ∧ κ None = Ret (Ok None, b) ∧
    ∀ v, if nram_value_check_visibility v x
      then fails (κ (Some v)) ∨ ∃ b' x', κ (Some v) = Ret (Ok (Some v), b') ∧ bkx b' x' (rs ++ [(key, v)])
      else κ (Some v) = Ret (Ok None, b).
Proof.
  intros Hx. unfold fetch_row_value, mbind, X_bind, local. rewrite (GetCurrent_bkx _ _ _ Hx). cbn.
  pose proof (deref_optimistic b x rs Hx) as Hd. unfold lock_for_access, get_action_of, mbind, X_bind, local.
  cbn. destruct (deref_action x b) as [a| |]; cbn; [|by right; left; do 2 eexists..]. rewrite Hd. cbn.
  destruct (read_own x key) as [[v|]| |]; cbn; [by left; exists v| |by right; left; do 2 eexists..].
  right. right. split; [done|]. eexists. split; [done|]. split; [done|]. intros v. cbn.
  destruct (nram_value_check_visibility v x); cbn; [|done].
  destruct (track_read_spec key v b x rs Hx) as [(r & b' & -> & Hr)|(b' & x' & -> & Hx')]; cbn.
  - left. destruct r; [done|..]; by do 2 eexists.
  - right. by exists b', x'.
Qed.

Lemma lock_for_update_spec key rel p b x rs :
  bkx b x rs → fails (lock_for_update x key rel p b) ∨ lock_for_update x key rel p b = Ret (Ok tt, b).
Proof.
  intros Hx. unfold lock_for_update, pure_out, get_action_of, mbind, X_bind, local, lift_out. cbn.
  destruct (read_own_write x key) as [[v|]| |]; cbn; [by right| |by left; do 2 eexists..].
  pose proof (deref_optimistic b x rs Hx) as Hd.
  destruct (deref_action x b) as [a| |]; cbn; [|by left; do 2 eexists..]. rewrite Hd. by right.
Qed.

Lemma buffer_update_spec key rel p values b x rs :
  bkx b x rs →
  fails (buffer_update x key rel p values b) ∨
  ∃ t b' x', buffer_update x key rel p values b = Ret (Ok t, b') ∧ bkx b' x' rs.
Proof.
  intros (Hb & Hc & Hi & Hvd & Hr & [Hnd Hf]).
  unfold buffer_update, serialize_tuple, mbind, X_bind, local. cbn.
  destruct (nram_value_serialize_from_tuple (top_xid b) values (rd_att rel)) as [v| |] eqn:Es; cbn;
    [|by left; do 2 eexists..].
  apply serialize_id in Es as [Ex Efl]. unfold track_write, mbind, X_bind, pure_out, local, lift_out.
  unfold add_write_set. destruct (copy_nram_value v) as [w| |] eqn:Ew; cbn; [|by left; do 2 eexists..].
  apply copy_nram_value_id in Ew as [Ewx Ewf].
  assert (xact_id w = xid ∧ NRAMValueIsPrivate w = false) as Hwok.
  { split; [by rewrite Ewx, Ex; apply Hb|]. unfold NRAMValueIsPrivate. by rewrite Ewf, Efl. }
  right. unfold find_write_set. destruct (find_set (write_set x) key) as [o|] eqn:Ef; cbn;
    do 3 eexists; (split; [done|]); (split; [exact Hb|]); (split; [reflexivity|]); split_and!; try done; cbn.
  - split; [by rewrite set_value_keys|]. by apply (set_value_Forall (λ v, xact_id v = xid ∧ NRAMValueIsPrivate v = false)).
  - apply find_set_None in Ef. split.
    + rewrite fmap_app. apply NoDup_app. split; [done|]. split; [|apply NoDup_singleton].
      cbn. rewrite copy_nram_key_id. intros k Hk Hk'%list_elem_of_singleton. by subst.
    + apply Forall_app. split; [done|]. by constructor.
Qed.

Lemma tuple_update_spec rel p values b x rs :
  bkx b x rs →
  fails (nram_tuple_update rel p values b) ∨
  ∃ t b' x', nram_tuple_update rel p values b = Ret (Ok t, b') ∧ bkx b' x' rs.
Proof.
  intros Hx. unfold nram_tuple_update, mbind, X_bind, local. rewrite (GetCurrent_bkx _ _ _ Hx). cbn.
  destruct (negb _); [by left; do 2 eexists|]. set (key := nram_key_from_tid (rd_id rel) p).
  destruct (lock_for_update_spec key rel p b x rs Hx) as [(r & b' & -> & Hr)| ->]; cbn.
  { left. destruct r; [done|..]; by do 2 eexists. }
  by apply buffer_update_spec.
Qed.

Definition stage_ok (K : gset NRAMKeyData) (b : backend) (rs : list (NRAMKeyData * NRAMValueData)) (st : stage) : Prop :=
  match st with
  | At t => bk b rs ∧ selects_in K t
  | Modify rel p _ c => (∃ x, bkx b x rs) ∧ nram_key_from_tid (rd_id rel) p ∈ K ∧ selects_in K c
  end.

(** What the body of a transaction does next: it is over, it fails, or it reads a
    row. The row may not enter the read set ([rs' = rs]), and then the rest of the
    body, alone on any rows, does what the whole does. *)
Definition next_ok (K : gset NRAMKeyData) (p : prog (outcome unit * backend)) (rs : list (NRAMKeyData * NRAMValueData))
    : Prop :=
  (∃ b', p = Ret (Ok tt, b') ∧ bk b' rs) ∨ fails p ∨
  ∃ key κ, p = DoGet key κ ∧ key ∈ K ∧
    ∀ v, NRAMValueIsPrivate v = false → fails (κ (Some v)) ∨
      ∃ st b' rs', κ (Some v) = exec_stage st b' ∧ stage_ok K b' rs' st ∧ (rs' = rs ∨ rs' = rs ++ [(key, v)]) ∧
        ∀ m b2, reads_in rs' m → run_gets m (exec_stage st b') = Some (Ok tt, b2) → run_gets m p = Some (Ok tt, b2).

Lemma public_visible v x : NRAMValueIsPrivate v = false → nram_value_check_visibility v x = true.
Proof. intros E. unfold nram_value_check_visibility. by rewrite E, orb_true_r. Qed.

Lemma fails_bind {A B} (p : prog (outcome A * backend)) (g : A → X backend B) : fails p → fails (pbind p (x_then g)).
Proof. intros (r & b & -> & Hr). destruct r; [done|..]; by do 2 eexists. Qed.

(** The end of an UPDATE, when the old row is known. *)
Definition store_row (rel : Relation) (p : Tid.ItemPointerData) (values : HeapTuple) (c : txn) : X backend unit :=
  ((nram_tuple_update rel p values ≫= λ _, mret tt) ≫= λ _, local nram_ExecutorEnd) ≫= λ _, exec c.

Lemma store_row_spec rel p values c b x rs : bkx b x rs →
  fails (store_row rel p values c b) ∨ ∃ b', store_row rel p values c b = exec c b' ∧ bk b' rs.
Proof.
  intros Hx. unfold store_row, mbind, X_bind, local.
  destruct (tuple_update_spec rel p values b x rs Hx) as [Hf|(tp & b2 & x2 & -> & Hx2)].
  - left. by do 3 apply fails_bind.
  - right. cbn [pbind x_then mret X_ret]. destruct (ExecutorEnd_bk _ _ _ Hx2) as (b3 & -> & Hb3). by exists b3.
Qed.

(** The second half of an UPDATE reads the row into the read set or finds it there. *)
Lemma modify_nf K rel p f c b x rs :
  bkx b x rs → nram_key_from_tid (rd_id rel) p ∈ K → selects_in K c →
  (∀ b rs, bk b rs → next_ok K (exec c b) rs) → next_ok K (exec_stage (Modify rel p f c) b) rs.
Proof.
  intros Hx Hk Hs IH. cbn [exec_stage]. unfold modify_row, nram_fetch_row_version, mbind, X_bind.
  set (key := nram_key_from_tid (rd_id rel) p) in *.
  destruct (fetch_row_value_spec rel p key b x rs Hx) as [(v & Ev & ->)|[Hf|(Eo & κ & -> & _ & Hκ)]].
  - cbn [pbind x_then]. unfold pure_out, local, lift_out.
    destruct (tuple_of_value rel key v) as [tp| |]; cbn [pbind x_then mret X_ret]; [|right; left; by do 2 eexists..].
    destruct (store_row_spec rel p (f tp) c b x rs Hx) as [Hf|(b' & E & Hb')]; [by right; left|].
    unfold store_row, mbind, X_bind, local in E. rewrite E. by apply IH.
  - right. left. by do 4 apply fails_bind.
  - right. right. cbn [pbind]. eexists key, _. split; [done|]. split; [done|]. intros v Hv. cbn beta.
    specialize (Hκ v). rewrite (public_visible v x Hv) in Hκ.
    destruct Hκ as [Hf|(b' & x' & E & Hx')]; [left; by do 4 apply fails_bind|]. rewrite E. cbn [pbind x_then].
    unfold pure_out, local, lift_out.
    destruct (tuple_of_value rel key v) as [tp| |] eqn:Et; cbn [pbind x_then mret X_ret]; [|left; by do 2 eexists..].
    destruct (store_row_spec rel p (f tp) c b' x' _ Hx') as [Hf|(b3 & E3 & Hb3)]; [by left|].
    unfold store_row, mbind, X_bind, local in E3. right. exists (At c), b3, (rs ++ [(key, v)]). cbn [exec_stage stage_ok].
    split_and!; try done; [by right|]. intros m b4 Hm Hrun. cbn [run_gets]. rewrite (Hm key v) by set_solver.
    rewrite E. cbn [pbind x_then]. unfold pure_out, local, lift_out. rewrite Et. cbn [pbind x_then mret X_ret].
    by rewrite E3.
Qed.

(** Alone on any rows, the second half succeeds only where the plan finds the row. *)
Lemma modify_found rel p f c b x rs m b' :
  bkx b x rs → read_own x (nram_key_from_tid (rd_id rel) p) = Ok None →
  run_gets m (exec_stage (Modify rel p f c) b) = Some (Ok tt, b') →
  ∃ v tp, m !! nram_key_from_tid (rd_id rel) p = Some v ∧ nram_value_check_visibility v x = true ∧
    tuple_of_value rel (nram_key_from_tid (rd_id rel) p) v = Ok tp.
Proof.
  intros Hx Eo. cbn [exec_stage]. unfold modify_row, nram_fetch_row_version, mbind, X_bind.
  set (key := nram_key_from_tid (rd_id rel) p) in *.
  assert (∀ q : prog (outcome unit * backend), fails q → run_gets m q ≠ Some (Ok tt, b')) as Hfail.
  { intros q (r & b2 & -> & Hr) [= -> ->]. done. }
  destruct (fetch_row_value_spec rel p key b x rs Hx) as [(v & Ev & _)|[Hf|(_ & κ & -> & HN & Hκ)]].
  - by rewrite Eo in Ev.
  - intros E. exfalso. eapply Hfail, E. by do 4 apply fails_bind.
  - cbn [pbind run_gets]. destruct (m !! key) as [v|]; [|by rewrite HN]. specialize (Hκ v).
    destruct (nram_value_check_visibility v x) eqn:Ev; [|by rewrite Hκ].
    destruct Hκ as [Hf|(b2 & x2 & -> & Hx2)].
    { intros E. exfalso. eapply Hfail, E. by do 4 apply fails_bind. }
    cbn [pbind x_then]. unfold pure_out, local, lift_out.
    destruct (tuple_of_value rel key v) as [tp| |] eqn:Et; cbn [pbind x_then]; [|done..]. intros _. by exists v, tp.
Qed.

Lemma select_nf K rel p c b rs :
  bk b rs → nram_key_from_tid (rd_id rel) p ∈ K → (∀ r, selects_in K (c r)) →
  (∀ r b rs, bk b rs → next_ok K (exec (c r) b) rs) → next_ok K (exec (TSelect rel p c) b) rs.
Proof.
  intros Hb Hk Hs IH. cbn [exec]. unfold mbind, X_bind, local. cbn [pbind].
  destruct (nram_ExecutorStart (Some CMD_SELECT) b) as [[[]| |] b1] eqn:E1; cbn [x_then]; [|right; left; by do 2 eexists..].
  destruct (ExecutorStart_bk _ _ _ _ Hb E1) as (x & Hx & Hct). unfold nram_index_fetch_tuple, mbind, X_bind.
  set (key := nram_key_from_tid (rd_id rel) p) in *.
  assert (nram_for_read x = true) as Hrd by (unfold nram_for_read; by rewrite Hct).
  destruct (index_fetch_value_spec (rd_id rel) p key b1 x rs Hx) as [(v & _ & ->)|[Hf|(_ & κ & -> & Hκ)]].
  - cbn [pbind x_then]. unfold pure_out, local, lift_out.
    destruct (tuple_of_value rel key v) as [tp| |]; cbn [pbind x_then mret X_ret]; [|right; left; by do 2 eexists..].
    destruct (ExecutorEnd_bk _ _ _ Hx) as (b3 & -> & Hb3). cbn [x_then]. by apply IH.
  - right. left. by do 2 apply fails_bind.
  - right. right. cbn [pbind]. eexists key, _. split; [done|]. split; [done|]. intros v Hv. cbn beta.
    specialize (Hκ v (public_visible v x Hv)). rewrite Hrd in Hκ.
    destruct Hκ as [Hf|(b2 & x2 & E & Hx2)]; [left; by do 2 apply fails_bind|]. rewrite E. cbn [pbind x_then].
    unfold pure_out, local, lift_out.
    destruct (tuple_of_value rel key v) as [tp| |] eqn:Et; cbn [pbind x_then mret X_ret]; [|left; by do 2 eexists..].
    destruct (ExecutorEnd_bk _ _ _ Hx2) as (b3 & E3 & Hb3). rewrite E3. cbn [x_then]. right.
    eexists (At _), b3, (rs ++ [(key, v)]). split; [done|]. split; [by split|]. split; [by right|].
    intros m b4 Hm Hrun. cbn [run_gets]. rewrite (Hm key v) by set_solver. rewrite E. cbn [pbind x_then].
    unfold pure_out, local, lift_out. rewrite Et. cbn [pbind x_then mret X_ret]. by rewrite E3.
Qed.

(** The UPDATE behind the fetch of its plan. *)
Definition planned (rel : Relation) (p : Tid.ItemPointerData) (f : StoredTuple → HeapTuple) (c : txn)
    (fetched : prog (outcome (option NRAMValueData * bool) * backend)) : prog (outcome unit * backend) :=
  pbind (pbind (pbind fetched (x_then (λ '(v, all_dead),
      match v with
      | None => mret (false, all_dead, None)
      | Some v =>
          t ← pure_out (tuple_of_value rel (nram_key_from_tid (rd_id rel) p) v); mret (true, all_dead, Some t)
      end)))
    (x_then (λ r : bool * bool * Slot,
      match r.2 with None => mret tt | Some plan => ExecModifyTable_update rel p (λ _, f) plan end ≫= λ _,
      local nram_ExecutorEnd)))
    (x_then (λ _, exec c)).

Lemma planned_found rel p f c v b :
  match tuple_of_value rel (nram_key_from_tid (rd_id rel) p) v with
  | Ok _ => planned rel p f c (Ret (Ok (Some v, false), b)) = exec_stage (Modify rel p f c) b
  | _ => fails (planned rel p f c (Ret (Ok (Some v, false), b)))
  end.
Proof.
  destruct (tuple_of_value rel (nram_key_from_tid (rd_id rel) p) v) as [tp| |] eqn:Et;
    unfold planned; cbn [pbind x_then]; unfold mbind, X_bind, pure_out, local, lift_out; rewrite Et;
    [done|by do 2 eexists..].
Qed.

Lemma update_nf K rel p f c b rs :
  bk b rs → nram_key_from_tid (rd_id rel) p ∈ K → selects_in K c →
  (∀ b rs, bk b rs → next_ok K (exec c b) rs) → next_ok K (exec (TUpdate rel p f c) b) rs.
Proof.
  intros Hb Hk Hs IH. cbn [exec]. unfold update_statement, mbind, X_bind, local. cbn [pbind].
  destruct (nram_ExecutorStart (Some CMD_UPDATE) b) as [[[]| |] b1] eqn:E1; cbn [pbind x_then]; [|right; left; by do 2 eexists..].
  destruct (ExecutorStart_bk _ _ _ _ Hb E1) as (x & Hx & Hct). set (key := nram_key_from_tid (rd_id rel) p) in *.
  change (next_ok K (planned rel p f c (index_fetch_value (rd_id rel) p key b1)) rs).
  assert (nram_for_read x = false) as Hrd by (unfold nram_for_read; by rewrite Hct).
  destruct (index_fetch_value_spec (rd_id rel) p key b1 x rs Hx) as [(v & _ & ->)|[Hf|(Eo & κ & -> & Hκ)]].
  - pose proof (planned_found rel p f c v b1) as Hp. destruct (tuple_of_value _ _ v); [|by right; left..].
    rewrite Hp. by apply (modify_nf K rel p f c b1 x).
  - right. left. by do 3 apply fails_bind.
  - change (planned rel p f c (DoGet key κ)) with (DoGet key (λ a, planned rel p f c (κ a))).
    right. right. eexists key, _. split; [done|]. split; [done|]. intros v Hv. cbn beta.
    assert (∀ v, nram_value_check_visibility v x = true → κ (Some v) = Ret (Ok (Some v, false), b1)) as Hκ'.
    { intros w Hw. specialize (Hκ w Hw). by rewrite Hrd in Hκ. }
    rewrite (Hκ' v (public_visible v x Hv)). pose proof (planned_found rel p f c v b1) as Hp.
    destruct (tuple_of_value _ _ v); [|by left..]. rewrite Hp.
    right. exists (Modify rel p f c), b1, rs. split; [done|]. split; [split; [by exists x|done]|].
    split; [by left|]. intros m b2 Hm Hrun. destruct (modify_found rel p f c b1 x rs m b2 Hx Eo Hrun) as (v' & tp' & Em & Hv2 & Et').
    fold key in Em, Et'. cbn [run_gets]. rewrite Em, (Hκ' v' Hv2). pose proof (planned_found rel p f c v' b1) as Hp'.
    fold key in Hp'. rewrite Et' in Hp'. by rewrite Hp'.
Qed.

Lemma exec_nf K t : ∀ b rs, bk b rs → selects_in K t → next_ok K (exec t b) rs.
Proof.
  induction t as [|rel p c IH|rel p f c IH]; intros b rs Hb Hs.
  - left. by exists b.
  - destruct Hs as [Hk Hs]. apply select_nf; auto.
  - destruct Hs as [Hk Hs]. apply update_nf; auto.
Qed.

Lemma stage_nf K st b rs : stage_ok K b rs st → next_ok K (exec_stage st b) rs.
Proof.
  destruct st as [t|rel p f c]; [intros [? ?]; by apply exec_nf|]. intros ([x Hx] & Hk & Hs).
  apply (modify_nf K rel p f c b x); try done. intros. by apply exec_nf.
Qed.

End body.

(** ** The lock table *)

Abbreviation entry := (nat * LOCKTAG * Z)%type.

Definition tab_ok (tab : list entry) : Prop :=
  ∀ e e', e ∈ tab → e' ∈ tab → conflicting e.1.1 e.1.2 e.2 e' = false.

Definition lcount (tab : list entry) (e : entry) : nat := length (filter (λ x, x = e) tab).
Definition occ (l : LOCKTAG) (ls : list LOCKTAG) : nat := length (filter (λ x, x = l) ls).

(** Backend [i] holds each lock of the list in exclusive mode, as often as it is
    listed. *)
Definition holds_all (i : nat) (tab : list entry) (ls : list LOCKTAG) : Prop :=
  ∀ l, (occ l ls ≤ lcount tab (i, l, ExclusiveLock))%nat.

Lemma lcount_elem tab e : (0 < lcount tab e)%nat → e ∈ tab.
Proof.
  unfold lcount. destruct (filter (λ x, x = e) tab) as [|x l] eqn:E; cbn; [lia|]. intros _.
  assert (x ∈ filter (λ x, x = e) tab) as [-> ?]%list_elem_of_filter by (rewrite E; by left). done.
Qed.

Lemma occ_elem l ls : l ∈ ls → (0 < occ l ls)%nat.
Proof.
  intros H. unfold occ. assert (l ∈ filter (λ x, x = l) ls) as H' by by apply list_elem_of_filter.
  destruct (filter _ ls); [by apply elem_of_nil in H'|]. cbn. lia.
Qed.

Lemma holds_all_elem i tab ls l : holds_all i tab ls → l ∈ ls → (i, l, ExclusiveLock) ∈ tab.
Proof. intros H Hl%occ_elem. apply lcount_elem. specialize (H l). lia. Qed.

Lemma occ_cons l x ls : occ l (x :: ls) = ((if decide (x = l) then 1 else 0) + occ l ls)%nat.
Proof. unfold occ. rewrite filter_cons. by destruct (decide (x = l)). Qed.
Lemma lcount_cons e x tab : lcount (x :: tab) e = ((if decide (x = e) then 1 else 0) + lcount tab e)%nat.
Proof. unfold lcount. rewrite filter_cons. by destruct (decide (x = e)). Qed.

Lemma occ_app l ls ls' : occ l (ls ++ ls') = (occ l ls + occ l ls')%nat.
Proof. unfold occ. by rewrite filter_app, length_app. Qed.

Lemma lcount_remove1 e x tab :
  lcount (remove1 x tab) e = (lcount tab e - (if decide (x = e) then 1 else 0))%nat.
Proof.
  induction tab as [|y tab IH]; cbn [remove1]; [cbn; by destruct (decide _)|].
  destruct (decide (x = y)) as [<-|Hy].
  - rewrite lcount_cons. destruct (decide (x = e)); lia.
  - rewrite !lcount_cons, IH. destruct (decide (y = e)), (decide (x = e)); subst; try done; lia.
Qed.

Lemma elem_remove1 (e x : entry) tab : e ∈ remove1 x tab → e ∈ tab.
Proof.
  induction tab as [|y tab IH]; cbn; [done|]. destruct (decide (x = y)); set_solver.
Qed.

Lemma elem_remove1_ne (e x : entry) tab : e ≠ x → e ∈ tab → e ∈ remove1 x tab.
Proof.
  intros Hne. induction tab as [|y tab IH]; cbn; [done|]. destruct (decide (x = y)); set_solver.
Qed.

Lemma lcount_release i j tab l m :
  j ≠ i → lcount (release_all i tab) (j, l, m) = lcount tab (j, l, m).
Proof.
  intros Hj. unfold release_all. induction tab as [|y tab IH]; [done|].
  destruct (decide (y.1.1 = i)) as [E|E].
  - rewrite filter_cons_False by tauto. rewrite IH, lcount_cons.
    destruct (decide (y = (j, l, m))) as [->|]; [done|lia].
  - rewrite filter_cons_True by done. rewrite !lcount_cons, IH. done.
Qed.

Lemma tab_ok_sub tab tab' : (∀ e, e ∈ tab' → e ∈ tab) → tab_ok tab → tab_ok tab'.
Proof. intros Hs H e e' He He'. by apply H; apply Hs. Qed.

(** The modes the transactions use. *)
Lemma exclusive_conflicts m : m = ExclusiveLock ∨ m = ShareLock →
  Z.testbit (LockConflicts m) ExclusiveLock = true ∧ Z.testbit (LockConflicts ExclusiveLock) m = true.
Proof. intros [-> | ->]; by split. Qed.

Definition tab_modes (tab : list entry) : Prop :=
  ∀ e, e ∈ tab → e.2 = ExclusiveLock ∨ e.2 = ShareLock.

Lemma tab_ok_grant i tag mode tab :
  tab_modes tab → mode = ExclusiveLock ∨ mode = ShareLock →
  can_grant i tag mode tab = true → tab_ok tab → tab_ok ((i, tag, mode) :: tab).
Proof.
  intros Hmodes Hmode Hg Hok e e' He He'. unfold can_grant in Hg.
  assert (∀ e, e ∈ tab → Z.testbit (LockConflicts e.2) mode = Z.testbit (LockConflicts mode) e.2) as Hsym.
  { intros e0 He0. by destruct (Hmodes e0 He0) as [-> | ->], Hmode as [-> | ->]. } rewrite forallb_forall in Hg.
  assert (∀ e0, e0 ∈ tab → conflicting i tag mode e0 = false) as Hg'.
  { intros e0 He0%list_elem_of_In. specialize (Hg e0 He0). by apply negb_true_iff. }
  apply elem_of_cons in He as [->|He], He' as [->|He']; cbn.
  - unfold conflicting. cbn. by rewrite bool_decide_eq_false_2 by tauto.
  - by apply Hg'.
  - specialize (Hg' e He). unfold conflicting in *. cbn in *. rewrite (Hsym e He).
    destruct (decide (i = e.1.1)) as [->|Hi]; [by rewrite (bool_decide_eq_false_2 (_ ≠ _)) by tauto|].
    rewrite bool_decide_eq_true_2 in Hg' by done. rewrite bool_decide_eq_true_2 by done. cbn in *.
    destruct (decide (tag = e.1.2)) as [->|Ht].
    + rewrite bool_decide_eq_true_2 in Hg' by done. rewrite bool_decide_eq_true_2 by done. done.
    + by rewrite (bool_decide_eq_false_2 (tag = e.1.2)).
  - by apply Hok.
Qed.

Lemma tab_ok_excl tab i j l m :
  tab_ok tab → (i, l, m) ∈ tab → m = ExclusiveLock ∨ m = ShareLock → j ≠ i →
  (j, l, ExclusiveLock) ∉ tab.
Proof.
  intros Hok Hi Hm Hj Hin. specialize (Hok _ _ Hi Hin). unfold conflicting in Hok. cbn [fst snd] in Hok.
  rewrite !bool_decide_eq_true_2 in Hok by done. destruct (exclusive_conflicts m Hm) as [E _].
  by rewrite E in Hok.
Qed.

Lemma can_grant_excl i tag mode tab j :
  can_grant i tag mode tab = true → mode = ExclusiveLock ∨ mode = ShareLock → j ≠ i →
  (j, tag, ExclusiveLock) ∉ tab.
Proof.
  intros Hg Hm Hj Hin. unfold can_grant in Hg. rewrite forallb_forall in Hg.
  apply list_elem_of_In, Hg in Hin. unfold conflicting in Hin. cbn [fst snd] in Hin.
  rewrite !bool_decide_eq_true_2 in Hin by done.
  destruct (exclusive_conflicts mode Hm) as [E _]. by rewrite E in Hin.
Qed.

(** ** Refinement of the protocol *)

Section refinement.

Context (txns : nat → txn) (start : nat → backend) (n : nat) (init : gmap NRAMKeyData NRAMValueData).
Context (start_wf : ∀ i, start_ok (start i)).

Definition id (i : nat) : Z := top_xid (start i).

Abbreviation tstate := (@tstate NRAMKeyData NRAMValueData).
Abbreviation ostep := (ostep advisory_tag xact_id id).

(** On rows that agree with what was read, the transaction alone comes to the end
    that is reached from here. *)
Definition replays (i : nat) (rs : list (NRAMKeyData * NRAMValueData)) (st : stage) (b : backend) : Prop :=
  ∀ m b', reads_in rs m → run_gets m (exec_stage st b) = Some (Ok tt, b') →
    run_gets m (exec (txns i) (start i)) = Some (Ok tt, b').

(** The body is over: its write set, sorted. *)
Definition body_done (i : nat) (rs : list (NRAMKeyData * NRAMValueData)) (ws : list NRAMXactOptData) : Prop :=
  ∃ b, (∀ m, reads_in rs m → run_gets m (exec (txns i) (start i)) = Some (Ok tt, b)) ∧
    ws = list_sort (writes_of b) ∧ wset_ok (id i) ws.

Definition undecided (a : tstate) : Prop :=
  match a with Active _ | Locking _ _ _ _ | Validating _ _ _ _ => True | _ => False end.

Definition write_rest (ws : list NRAMXactOptData) : unit → X backend unit := λ _, commit_writes ws.
Definition lock_rest (rs ws : list NRAMXactOptData) : unit → X backend unit := λ _, validate_and_write rs ws.
Definition release_then {S} (key : NRAMKeyData) (mode : Z) : X S unit :=
  LockReleaseTag (advisory_tag key) mode ≫= λ _, mret tt.

(** A backend's program and its state in the protocol; [pend] is a lock that
    the protocol has given up already. *)
Inductive rel (i : nat) (tab : list entry) : prog (outcome unit * backend) → tstate → list LOCKTAG → Prop :=
| rt_exec st b rs :
    stage_ok (id i) (dom init) b rs st → replays i rs st b →
    rel i tab (pbind (exec_stage st b) (x_then commit)) (Active rs) []
| rt_lock b rs rsO w1 w2 :
    IsolationIsSerializable b = true → Forall2 ropt rs rsO → body_done i rs (w1 ++ w2) →
    rel i tab (pbind (xfor lock_write w2 b) (x_then (lock_rest rsO (w1 ++ w2))))
      (Locking rs (ent <$> w1 ++ w2) (opt_key <$> w1) (opt_key <$> w2)) []
| rt_check b c rs rsO ws :
    Forall2 ropt rs rsO → body_done i (c ++ rs) ws →
    rel i tab (pbind (xfor validate_read rsO b) (x_then (write_rest ws)))
      (Validating (c ++ rs) (ent <$> ws) c rs) []
| rt_version b c e o r rs rsO ws :
    r ≠ LOCKACQUIRE_NOT_AVAIL → ropt e o → Forall2 ropt rs rsO → body_done i (c ++ e :: rs) ws →
    (i, advisory_tag e.1, ShareLock) ∈ tab →
    rel i tab
      (pbind (pbind (validate_version o r b) (x_then (λ _, xfor validate_read rsO))) (x_then (write_rest ws)))
      (Validating (c ++ e :: rs) (ent <$> ws) c (e :: rs)) []
| rt_unshare b c key rs rsO ws :
    Forall2 ropt rs rsO → body_done i (c ++ rs) ws →
    rel i tab
      (pbind (pbind (release_then key ShareLock b) (x_then (λ _, xfor validate_read rsO)))
         (x_then (write_rest ws)))
      (Validating (c ++ rs) (ent <$> ws) c rs) []
| rt_put b rs w1 w2 :
    body_done i rs (w1 ++ w2) →
    rel i tab (xfor flush_write w2 b) (Committing rs (ent <$> w1 ++ w2) (ent <$> w1) (ent <$> w2)) []
| rt_unlock b key rs w1 w2 :
    body_done i rs (w1 ++ w2) →
    rel i tab (pbind (release_then key ExclusiveLock b) (x_then (λ _, xfor flush_write w2)))
      (Committing rs (ent <$> w1 ++ w2) (ent <$> w1) (ent <$> w2)) [advisory_tag key]
| rt_fail r b a :
    is_ok r = false → undecided a → rel i tab (Ret (r, b)) a [].

Definition thread_rel (i : nat) (tab : list entry) (th : tstatus) (a : tstate) : Prop :=
  match th with
  | Running p => (i < n)%nat ∧ ∃ pend, rel i tab p a pend ∧ holds_all i tab (pend ++ xlocks advisory_tag a)
  | Finished true => ∃ rs ws, a = Committed rs (ent <$> ws) ∧ body_done i rs ws
  | Finished false => a = Aborted ∨ ((n ≤ i)%nat ∧ a = Active [])
  end.

Record refines (s : system) (o : ostate) : Prop := mkRefines {
  rf_rows : ost o = rows (sh s);
  rf_thr : ∀ i, thread_rel i (locktab (sh s)) (threads s i) (othr o i);
  rf_tab : tab_ok (locktab (sh s));
  rf_modes : tab_modes (locktab (sh s));
  rf_visible : visible (rows (sh s));
  rf_dom : dom init ⊆ dom (rows (sh s));
  rf_steps : rtc ostep (oinit init) o
}.

(** The entries of one backend survive what others do. *)
Lemma rel_mono i tab tab' p a pend :
  (∀ l m, (i, l, m) ∈ tab → (i, l, m) ∈ tab') → rel i tab p a pend → rel i tab' p a pend.
Proof. intros Ht []; econstructor; eauto. Qed.

Lemma thread_rel_mono i tab tab' th a :
  (∀ l m, lcount tab' (i, l, m) = lcount tab (i, l, m)) →
  (∀ l m, (i, l, m) ∈ tab → (i, l, m) ∈ tab') →
  thread_rel i tab th a → thread_rel i tab' th a.
Proof.
  intros Hc He. destruct th as [p|[]]; cbn; [|done..]. intros (Hi & pend & Hr & Hh). split; [done|].
  exists pend. split; [by eapply rel_mono|]. intros l. rewrite Hc. apply Hh.
Qed.

(** One backend and its protocol state move; the others stay. *)
Lemma refines_move s s' o i o' :
  refines s o → rtc ostep o o' → ost o' = rows (sh s') →
  (∀ j, j ≠ i → threads s' j = threads s j) → (∀ j, j ≠ i → othr o' j = othr o j) →
  (∀ j l m, j ≠ i → lcount (locktab (sh s')) (j, l, m) = lcount (locktab (sh s)) (j, l, m)) →
  thread_rel i (locktab (sh s')) (threads s' i) (othr o' i) →
  tab_ok (locktab (sh s')) → tab_modes (locktab (sh s')) →
  visible (rows (sh s')) → dom init ⊆ dom (rows (sh s')) →
  refines s' o'.
Proof.
  intros [Hrows Hthr Htab Hmodes Hvis Hdom Hsteps] Hs Hr Hth Ho Hl Hi Ht Hm Hv Hd.
  constructor; try done; [|by etrans].
  intros j. destruct (decide (j = i)) as [->|Hj]; [done|].
  rewrite Hth, Ho by done. apply (thread_rel_mono j (locktab (sh s))); [by intros; apply Hl| |done].
  intros l m Hin. apply lcount_elem. rewrite Hl by done.
  destruct (lcount (locktab (sh s)) (j, l, m)) eqn:E; [|lia].
  unfold lcount in E. apply nil_length_inv in E.
  assert ((j, l, m) ∈ filter (λ x, x = (j, l, m)) (locktab (sh s))) as H by by apply list_elem_of_filter.
  rewrite E in H. by apply elem_of_nil in H.
Qed.

(** A move of the protocol alone. *)
Lemma refines_silent s o i a' log' :
  refines s o → ostep o (mkO (ost o) (<[i := a']> (othr o)) log') →
  thread_rel i (locktab (sh s)) (threads s i) a' →
  refines s (mkO (ost o) (<[i := a']> (othr o)) log').
Proof.
  intros Hr Hs Hi. pose proof Hr as [Hrows Hthr Htab Hmodes Hvis Hdom Hsteps].
  apply (refines_move s s o i); try done; [by apply rtc_once| |].
  - intros j Hj. cbn. by rewrite fn_lookup_insert_ne.
  - cbn. by rewrite fn_lookup_insert.
Qed.

Definition sim (s : system) (i : nat) (p : prog (outcome unit * backend)) : Prop :=
  ∀ p' w', pstep i p (sh s) p' w' → ∃ o, refines (mkSystem w' (<[i := Running p']> (threads s))) o.

(** A step of the program that the protocol does not see, on the same rows. *)
Lemma sim_stutter s o i p' a pend w' :
  refines s o → (i < n)%nat → othr o i = a → rows w' = rows (sh s) → rel i (locktab w') p' a pend →
  holds_all i (locktab w') (pend ++ xlocks advisory_tag a) →
  (∀ j l m, j ≠ i → lcount (locktab w') (j, l, m) = lcount (locktab (sh s)) (j, l, m)) →
  tab_ok (locktab w') → tab_modes (locktab w') →
  ∃ o', refines (mkSystem w' (<[i := Running p']> (threads s))) o'.
Proof.
  intros Hr Hi Ha Hw Hrel Hh Hl Ht Hm. pose proof Hr as [Hrows Hthr Htab Hmodes Hvis Hdom Hsteps].
  exists o. apply (refines_move s _ o i); try done; cbn; rewrite ?Hw; try done.
  - intros j Hj. by rewrite fn_lookup_insert_ne.
  - rewrite fn_lookup_insert, Ha. cbn. split; [done|]. by exists pend.
Qed.

(** A step of the program that is one step of the protocol. *)
Lemma sim_step s o i p' a' pend w' log' :
  refines s o → (i < n)%nat → ostep o (mkO (rows w') (<[i := a']> (othr o)) log') →
  rel i (locktab w') p' a' pend → holds_all i (locktab w') (pend ++ xlocks advisory_tag a') →
  (∀ j l m, j ≠ i → lcount (locktab w') (j, l, m) = lcount (locktab (sh s)) (j, l, m)) →
  tab_ok (locktab w') → tab_modes (locktab w') → visible (rows w') → dom init ⊆ dom (rows w') →
  ∃ o', refines (mkSystem w' (<[i := Running p']> (threads s))) o'.
Proof.
  intros Hr Hi Hs Hrel Hh Hl Ht Hm Hv Hd. eexists.
  apply (refines_move s _ o i _ Hr (rtc_once _ _ Hs)); try done; cbn.
  - intros j Hj. by rewrite fn_lookup_insert_ne.
  - intros j Hj. by rewrite fn_lookup_insert_ne.
  - rewrite !fn_lookup_insert. cbn. split; [done|]. by exists pend.
Qed.

Lemma lcount_other_remove i j (tag : LOCKTAG) mode tab l m :
  j ≠ i → lcount (remove1 (i, tag, mode) tab) (j, l, m) = lcount tab (j, l, m).
Proof. intros Hj. rewrite lcount_remove1. destruct (decide _) as [[= -> _ _]|]; [done|lia]. Qed.

Lemma lcount_other_cons i j (tag : LOCKTAG) mode tab l m :
  j ≠ i → lcount ((i, tag, mode) :: tab) (j, l, m) = lcount tab (j, l, m).
Proof. intros Hj. rewrite lcount_cons. destruct (decide _) as [[= -> _ _]|]; [done|lia]. Qed.

(** ** The writes *)

Lemma sim_put s o i b rs w1 w2 :
  refines s o → (i < n)%nat → body_done i rs (w1 ++ w2) →
  othr o i = Committing rs (ent <$> w1 ++ w2) (ent <$> w1) (ent <$> w2) →
  holds_all i (locktab (sh s)) (advisory_tag <$> (ent <$> w2).*1) →
  sim s i (xfor flush_write w2 b).
Proof.
  intros Hr Hi Hbd Ea Hh p' w' Hp. pose proof Hr as [Hrows Hthr Htab Hmodes Hvis Hdom Hsteps].
  destruct w2 as [|x w2]; [by inv Hp|].
  change (xfor flush_write (x :: w2) b) with (DoPut (opt_key x) (opt_value x) (λ _ : bool,
    pbind (release_then (opt_key x) ExclusiveLock b) (x_then (λ _, xfor flush_write w2)))) in Hp.
  inv Hp. replace (w1 ++ x :: w2) with ((w1 ++ [x]) ++ w2) in Hbd, Ea by by rewrite <- app_assoc.
  apply (sim_step s o i _ (Committing rs (ent <$> (w1 ++ [x]) ++ w2) (ent <$> w1 ++ [x]) (ent <$> w2))
    [advisory_tag (opt_key x)] _ (olog o)); try done; cbn [rows locktab].
  - rewrite <- Hrows. rewrite (fmap_app ent w1 [x]). by apply (o_put _ _ _ o i rs _ _ (opt_key x) (opt_value x)).
  - by constructor.
  - apply map_Forall_insert_2; [|done]. destruct Hbd as (? & _ & _ & _ & Hf).
    rewrite <- app_assoc in Hf. apply Forall_app in Hf as [_ Hf]. by apply Forall_cons in Hf as [[_ ?] _].
  - rewrite dom_insert_L. set_solver.
Qed.

Lemma sim_unlock s o i b key rs w1 w2 :
  refines s o → (i < n)%nat → body_done i rs (w1 ++ w2) →
  othr o i = Committing rs (ent <$> w1 ++ w2) (ent <$> w1) (ent <$> w2) →
  holds_all i (locktab (sh s)) (advisory_tag key :: (advisory_tag <$> (ent <$> w2).*1)) →
  sim s i (pbind (release_then key ExclusiveLock b) (x_then (λ _, xfor flush_write w2))).
Proof.
  intros Hr Hi Hbd Ea Hh p' w' Hp. pose proof Hr as [Hrows Hthr Htab Hmodes Hvis Hdom Hsteps].
  change (pbind (release_then key ExclusiveLock b) (x_then (λ _, xfor flush_write w2))) with
    (DoUnlock (advisory_tag key) ExclusiveLock (λ _ : bool, xfor flush_write w2 b)) in Hp.
  inv Hp. eapply (sim_stutter s o i _ _ []); try done; cbn [locktab].
  - by constructor.
  - intros l. specialize (Hh l). rewrite occ_cons in Hh. rewrite lcount_remove1. cbn [xlocks app].
    destruct (decide (advisory_tag key = l)) as [->|]; [rewrite decide_True by done; lia|].
    rewrite decide_False by congruence. lia.
  - intros. by apply lcount_other_remove.
  - eapply tab_ok_sub; [|done]. intros e. apply elem_remove1.
  - intros e He%elem_remove1. by apply Hmodes.
Qed.

(** ** The checks *)

Lemma no_exclusive_free s o i l :
  refines s o → (∀ j, j ≠ i → (j, l, ExclusiveLock) ∉ locktab (sh s)) → lock_free advisory_tag o i l.
Proof.
  intros Hr Hno j Hj Hl. pose proof (rf_thr _ _ Hr j) as Ht. unfold thread_rel in Ht.
  destruct (threads s j) as [p|[]].
  - destruct Ht as (_ & pend & _ & Hh). apply (Hno j Hj). eapply holds_all_elem; [done|]. set_solver.
  - destruct Ht as (rs & ws & E & _). rewrite E in Hl. by apply elem_of_nil in Hl.
  - destruct Ht as [E|[_ E]]; rewrite E in Hl; by apply elem_of_nil in Hl.
Qed.

(** A program that ends in an error while the transaction is undecided. *)
Lemma sim_fail s o i r b a :
  refines s o → (i < n)%nat → othr o i = a → is_ok r = false → undecided a →
  holds_all i (locktab (sh s)) (xlocks advisory_tag a) →
  ∃ o', refines (mkSystem (sh s) (<[i := Running (Ret (r, b))]> (threads s))) o'.
Proof.
  intros Hr Hi Ha Hok Hu Hh.
  apply (sim_stutter s o i _ a []); try done; [by constructor|apply Hr|apply Hr].
Qed.

Lemma share_not_exclusive (i : nat) (l l' : LOCKTAG) : (i, l, ShareLock) ≠ (i, l', ExclusiveLock).
Proof. by intros [= _ ?]. Qed.

Lemma sim_unshare s o i b c key rs rsO ws :
  refines s o → (i < n)%nat → Forall2 ropt rs rsO → body_done i (c ++ rs) ws →
  othr o i = Validating (c ++ rs) (ent <$> ws) c rs →
  holds_all i (locktab (sh s)) (advisory_tag <$> (ent <$> ws).*1) →
  sim s i (pbind (pbind (release_then key ShareLock b) (x_then (λ _, xfor validate_read rsO)))
             (x_then (write_rest ws))).
Proof.
  intros Hr Hi Hro Hbd Ea Hh p' w' Hp. pose proof Hr as [Hrows Hthr Htab Hmodes Hvis Hdom Hsteps].
  change (pbind (pbind (release_then key ShareLock b) (x_then (λ _, xfor validate_read rsO)))
             (x_then (write_rest ws))) with
    (DoUnlock (advisory_tag key) ShareLock (λ _ : bool,
       pbind (xfor validate_read rsO b) (x_then (write_rest ws)))) in Hp.
  inv Hp. eapply (sim_stutter s o i _ _ []); try done; cbn [locktab].
  - by constructor.
  - intros l. rewrite lcount_remove1, decide_False by apply share_not_exclusive.
    specialize (Hh l). cbn [app xlocks]. lia.
  - intros. by apply lcount_other_remove.
  - eapply tab_ok_sub; [|done]. intros e. apply elem_remove1.
  - intros e He%elem_remove1. by apply Hmodes.
Qed.

Lemma sim_version s o i b c e op r rs rsO ws :
  refines s o → (i < n)%nat → ropt e op → Forall2 ropt rs rsO →
  body_done i (c ++ e :: rs) ws → (i, advisory_tag e.1, ShareLock) ∈ locktab (sh s) →
  othr o i = Validating (c ++ e :: rs) (ent <$> ws) c (e :: rs) →
  holds_all i (locktab (sh s)) (advisory_tag <$> (ent <$> ws).*1) →
  sim s i (pbind (pbind (validate_version op r b) (x_then (λ _, xfor validate_read rsO)))
             (x_then (write_rest ws))).
Proof.
  intros Hr Hi [Hk Hv] Hro Hbd Hsh Ea Hh p' w' Hp.
  pose proof Hr as [Hrows Hthr Htab Hmodes Hvis Hdom Hsteps]. destruct e as [k v]. cbn [fst snd] in *.
  unfold validate_version, ClientGet, mbind, X_bind in Hp. cbn [pbind x_then] in Hp. inv Hp.
  destruct (rows (sh s) !! opt_key op) as [cv|] eqn:Ec; cbn [pbind x_then].
  2:{ by apply (sim_fail s o i _ b _ Hr Hi Ea). }
  destruct (Z.eqb_spec (xact_id cv) (opt_xact_id op)) as [Ev|Ev]; cbn [negb].
  2:{ by apply (sim_fail s o i _ b _ Hr Hi Ea). }
  assert (ostep o (mkO (rows (sh s)) (<[i := Validating ((c ++ [(opt_key op, v)]) ++ rs) (ent <$> ws)
            (c ++ [(opt_key op, v)]) rs]> (othr o)) (olog o))) as Hs.
  { rewrite <- Hrows, <- app_assoc. cbn [app]. eapply o_check; [exact Ea| |by rewrite Hrows|by rewrite Ev].
    apply (no_exclusive_free s o i _ Hr). intros j Hj. eapply tab_ok_excl; [done|exact Hsh|by right|done]. }
  replace (c ++ (opt_key op, v) :: rs) with ((c ++ [(opt_key op, v)]) ++ rs) in Hbd by by rewrite <- app_assoc.
  destruct (bool_decide (r = LOCKACQUIRE_OK)).
  - apply (sim_step s o i _ _ [] _ (olog o) Hr Hi Hs); try done. by apply rt_unshare.
  - apply (sim_step s o i _ _ [] _ (olog o) Hr Hi Hs); try done. by apply rt_check.
Qed.

Lemma sim_check s o i b c rs rsO ws :
  refines s o → (i < n)%nat → threads s i = Running (pbind (xfor validate_read rsO b) (x_then (write_rest ws))) →
  Forall2 ropt rs rsO → body_done i (c ++ rs) ws →
  othr o i = Validating (c ++ rs) (ent <$> ws) c rs →
  holds_all i (locktab (sh s)) (advisory_tag <$> (ent <$> ws).*1) →
  sim s i (pbind (xfor validate_read rsO b) (x_then (write_rest ws))).
Proof.
  intros Hr Hi Hth Hro Hbd Ea Hh. pose proof Hr as [Hrows Hthr Htab Hmodes Hvis Hdom Hsteps].
  destruct Hro as [|e op rs rsO He Hro].
  - rewrite app_nil_r in *.
    assert (pbind (xfor validate_read [] b) (x_then (write_rest ws)) =
            xfor flush_write ws (mark_validated b).2) as E by reflexivity.
    rewrite E in Hth |- *.
    eapply (sim_put s _ i _ c [] ws); [apply (refines_silent s o i (Committing c (ent <$> ws) [] (ent <$> ws)))|..];
      try done; [by eapply o_decide| |].
    + rewrite Hth. split; [done|]. exists []. split; [by apply (rt_put i _ _ c [] ws)|done].
    + cbn. by rewrite fn_lookup_insert.
  - intros p' w' Hp. cbn [xfor] in Hp.
    unfold validate_read, nram_try_validation_lock, LockAcquire, mbind, X_bind in Hp. cbn [pbind x_then] in Hp.
    pose proof He as [Hk Hv]. inv Hp.
    + assert (bool_decide (lock_result i (advisory_tag (opt_key op)) ShareLock (locktab (sh s))
                = LOCKACQUIRE_NOT_AVAIL) = false) as ->.
      { apply bool_decide_eq_false_2. unfold lock_result. by destruct (decide _). }
      eapply (sim_stutter s o i _ _ []); try done; cbn [locktab].
      * apply rt_version; try done; [unfold lock_result; by destruct (decide _)|]. rewrite Hk. by left.
      * intros l. rewrite lcount_cons, decide_False by apply share_not_exclusive. apply Hh.
      * intros. by apply lcount_other_cons.
      * apply tab_ok_grant; auto.
      * intros x [->|Hx]%elem_of_cons; [by right|by apply Hmodes].
    + rewrite bool_decide_eq_true_2 by done. cbn [pbind x_then xraise].
      by apply (sim_fail s o i _ b _ Hr Hi Ea).
Qed.

(** ** The locks *)

Lemma ent_keys ws : (ent <$> ws).*1 = opt_key <$> ws.
Proof. rewrite <- list_fmap_compose. by apply list_fmap_ext. Qed.

Lemma sim_lock s o i b rs rsO w1 w2 :
  refines s o → (i < n)%nat →
  threads s i = Running (pbind (xfor lock_write w2 b) (x_then (lock_rest rsO (w1 ++ w2)))) →
  IsolationIsSerializable b = true → Forall2 ropt rs rsO → body_done i rs (w1 ++ w2) →
  othr o i = Locking rs (ent <$> w1 ++ w2) (opt_key <$> w1) (opt_key <$> w2) →
  holds_all i (locktab (sh s)) (advisory_tag <$> (opt_key <$> w1)) →
  sim s i (pbind (xfor lock_write w2 b) (x_then (lock_rest rsO (w1 ++ w2)))).
Proof.
  intros Hr Hi Hth Hser Hro Hbd Ea Hh. pose proof Hr as [Hrows Hthr Htab Hmodes Hvis Hdom Hsteps].
  destruct w2 as [|x w2].
  - rewrite app_nil_r in *.
    assert (pbind (xfor lock_write [] b) (x_then (lock_rest rsO w1)) =
            pbind (xfor validate_read rsO b) (x_then (write_rest w1))) as E.
    { unfold lock_rest, validate_and_write, mbind, X_bind. cbn. by rewrite Hser. }
    rewrite E in Hth |- *.
    assert (holds_all i (locktab (sh s)) (advisory_tag <$> (ent <$> w1).*1)) as Hh'.
    { by rewrite ent_keys. }
    eapply (sim_check s _ i b [] rs rsO w1);
      [apply (refines_silent s o i (Validating rs (ent <$> w1) [] rs) (olog o ++ [i]))|..]; try done.
    + by eapply o_locked.
    + rewrite Hth. split; [done|]. exists []. split; [by apply (rt_check i _ b [] rs)|done].
    + cbn. by rewrite fn_lookup_insert.
  - intros p' w' Hp. cbn [xfor] in Hp.
    unfold lock_write, nram_validation_lock, LockAcquire, mbind, X_bind, local in Hp.
    cbn [pbind x_then] in Hp. inv Hp.
    + assert (bool_decide (lock_result i (advisory_tag (opt_key x)) ExclusiveLock (locktab (sh s))
                = LOCKACQUIRE_NOT_AVAIL) = false) as ->.
      { apply bool_decide_eq_false_2. unfold lock_result. by destruct (decide _). }
      cbn [pbind x_then modify_st].
      replace (w1 ++ x :: w2) with ((w1 ++ [x]) ++ w2) in Hbd, Ea |- * by by rewrite <- app_assoc.
      apply (sim_step s o i _ (Locking rs (ent <$> (w1 ++ [x]) ++ w2) (opt_key <$> w1 ++ [x]) (opt_key <$> w2))
        [] _ (olog o)); try done; cbn [rows locktab].
      * rewrite <- Hrows, (fmap_app opt_key w1 [x]). eapply o_lock; [exact Ea|].
        apply (no_exclusive_free s o i _ Hr). intros j Hj. eapply can_grant_excl; [done|by left|done].
      * by apply rt_lock.
      * intros l. cbn [app xlocks]. rewrite fmap_app, fmap_app, occ_app, lcount_cons.
        specialize (Hh l). change (occ l (advisory_tag <$> (opt_key <$> [x])))
          with (occ l [advisory_tag (opt_key x)]). rewrite occ_cons. change (occ l []) with 0%nat.
        destruct (decide (advisory_tag (opt_key x) = l)) as [->|]; [rewrite decide_True by done; lia|].
        rewrite decide_False by congruence. lia.
      * intros. by apply lcount_other_cons.
      * apply tab_ok_grant; auto.
      * intros y [->|Hy]%elem_of_cons; [by left|by apply Hmodes].
    + rewrite bool_decide_eq_true_2 by done. cbn [pbind x_then xraise].
      by apply (sim_fail s o i _ _ _ Hr Hi Ea).
Qed.

(** ** The body *)

Lemma wset_ok_perm xid ws ws' : ws' ≡ₚ ws → wset_ok xid ws → wset_ok xid ws'.
Proof. intros Hp [? ?]. split; by rewrite Hp. Qed.

(** The end of the body is the beginning of the commit. *)
Lemma commit_begins i b rs :
  bk (id i) b rs → (∀ m, reads_in rs m → run_gets m (exec (txns i) (start i)) = Some (Ok tt, b)) →
  ∃ b' rsO ws, IsolationIsSerializable b' = true ∧ Forall2 ropt rs rsO ∧ body_done i rs ws ∧
    commit tt b = pbind (xfor lock_write ws b') (x_then (lock_rest rsO ws)).
Proof.
  intros Hb Hrun. unfold commit, nram_xact_callback, mbind, X_bind, local.
  destruct Hb as [(Hbase & Hc & ->)|[x Hx]].
  - rewrite Hc. exists b, [], []. split; [apply Hbase|]. split; [constructor|]. split.
    + exists b. split; [done|]. unfold writes_of. rewrite Hc. split; [done|]. split; constructor.
    + unfold lock_rest, validate_and_write, mbind, X_bind, local. cbn.
      rewrite (proj1 (proj2 Hbase)). cbn. unfold commit_writes, mark_validated, mbind, X_bind, local. cbn.
      rewrite Hc. by destruct b; cbn in *; subst.
  - pose proof Hx as ((Ht & Hs & Hp) & Hc & Hi & Hv & Hr & Hw). rewrite Hc. cbn [pbind].
    rewrite (GetCurrent_bkx _ _ _ _ Hx). cbn [x_then]. unfold pre_commit. rewrite Hv.
    do 3 eexists. split; [|split; [exact Hr|split]]; [| |reflexivity].
    + done.
    + exists b. split; [done|]. unfold writes_of. rewrite Hc. split; [done|].
      apply (wset_ok_perm _ (write_set x)); [apply merge_sort_Permutation|done].
Qed.

Lemma id_valid i : id i ≠ InvalidTransactionId.
Proof. apply (start_wf i). Qed.

(** Entering the commit: the protocol state of a finished body. *)
Lemma enter_commit s o i b rs :
  refines s o → (i < n)%nat → threads s i = Running (commit tt b) → othr o i = Active rs →
  bk (id i) b rs → (∀ m, reads_in rs m → run_gets m (exec (txns i) (start i)) = Some (Ok tt, b)) →
  ∃ o' b' rsO ws, refines s o' ∧ IsolationIsSerializable b' = true ∧ Forall2 ropt rs rsO ∧
    body_done i rs ws ∧ commit tt b = pbind (xfor lock_write ws b') (x_then (lock_rest rsO ws)) ∧
    othr o' i = Locking rs (ent <$> ws) [] (opt_key <$> ws).
Proof.
  intros Hr Hi Hth Ea Hb Hrun. destruct (commit_begins i b rs Hb Hrun) as (b' & rsO & ws & Hs & Hro & Hbd & E).
  eexists _, b', rsO, ws. split; [|split_and!; try done].
  - apply (refines_silent s o i (Locking rs (ent <$> ws) [] (opt_key <$> ws)) (olog o) Hr).
    + rewrite <- ent_keys. destruct Hbd as (_ & _ & _ & Hnd & Hf).
      apply o_start; [done|by rewrite ent_keys|]. rewrite Forall_fmap. eapply Forall_impl; [exact Hf|].
      by intros op [? _].
    + rewrite Hth, E. split; [done|]. exists []. split; [by apply (rt_lock i _ b' rs rsO [] ws)|].
      intros l. cbn. lia.
  - cbn. by rewrite fn_lookup_insert.
Qed.

Lemma sim_exec s o i st b rs :
  refines s o → (i < n)%nat → threads s i = Running (pbind (exec_stage st b) (x_then commit)) →
  stage_ok (id i) (dom init) b rs st → replays i rs st b → othr o i = Active rs →
  sim s i (pbind (exec_stage st b) (x_then commit)).
Proof.
  intros Hr Hi Hth Hb Hrep Ea. pose proof Hr as [Hrows Hthr Htab Hmodes Hvis Hdom Hsteps].
  destruct (stage_nf (id i) (id_valid i) (dom init) st b rs Hb)
    as [(b' & E & Hb')|[(r & b' & E & Hok)|(key & κ & E & Hk & Hκ)]]; rewrite E in Hth |- *; cbn [pbind x_then] in *.
  - destruct (enter_commit s o i b' rs) as (o' & b2 & rsO & ws & Hr' & Hs & Hro & Hbd & Ec & Ea'); try done.
    { intros m Hm. apply (Hrep m b' Hm). by rewrite E. }
    rewrite Ec in Hth |- *. apply (sim_lock s o' i b2 rs rsO [] ws); try done. intros l. cbn. lia.
  - destruct r; [done|..]; intros p' w' Hp; inv Hp.
  - intros p' w' Hp. inv Hp. destruct (rows (sh s) !! key) as [v|] eqn:Ev.
    2:{ apply not_elem_of_dom in Ev. set_solver. }
    assert (holds_all i (locktab (sh s)) []) as Hh by (intros l; cbn; lia).
    destruct (Hκ v) as [(r & b' & Eκ & Hok)|(st' & b' & rs' & Eκ & Hst & Hrs & Hgo)]; [by apply (Hvis key)|..]; rewrite Eκ.
    + apply (sim_stutter s o i _ (Active rs) []); try done. destruct r; [done|..]; by constructor.
    + assert (rel i (locktab (sh s)) (pbind (exec_stage st' b') (x_then commit)) (Active rs') []) as Hrel.
      { constructor; [done|]. intros m b2 Hm Hrun. apply (Hrep m b2); [|by apply Hgo].
        intros k' v' Hin. apply Hm. destruct Hrs as [->| ->]; set_solver. }
      destruct Hrs as [->| ->]; [by apply (sim_stutter s o i _ (Active rs) [])|].
      apply (sim_step s o i _ (Active (rs ++ [(key, v)])) [] _ (olog o) Hr Hi); try done.
      rewrite <- Hrows. apply o_read; [done|]. by rewrite Hrows.
Qed.

(** ** The end *)

Definition finished (s : system) (i : nat) (c : bool) : system :=
  mkSystem (mkShared (rows (sh s)) (release_all i (locktab (sh s)))) (<[i := Finished c]> (threads s)).

Lemma finish_move s o i c a' log' :
  refines s o → ostep o (mkO (ost o) (<[i := a']> (othr o)) log') →
  thread_rel i [] (Finished c) a' → ∃ o', refines (finished s i c) o'.
Proof.
  intros Hr Hs Ha. pose proof Hr as [Hrows Hthr Htab Hmodes Hvis Hdom Hsteps]. eexists.
  assert (∀ e, e ∈ release_all i (locktab (sh s)) → e ∈ locktab (sh s)) as Hsub.
  { by intros e [_ ?]%list_elem_of_filter. }
  apply (refines_move s _ o i _ Hr (rtc_once _ _ Hs)); try done; cbn.
  - intros j Hj. by rewrite fn_lookup_insert_ne.
  - intros j Hj. by rewrite fn_lookup_insert_ne.
  - intros. by apply lcount_release.
  - by rewrite !fn_lookup_insert.
  - by eapply tab_ok_sub.
  - intros e He. by apply Hmodes, Hsub.
Qed.

Definition fin (s : system) (i : nat) (p : prog (outcome unit * backend)) : Prop :=
  ∀ r b, p = Ret (r, b) → ∃ o, refines (finished s i (is_ok r)) o.

Lemma fin_fail s o i r b :
  refines s o → is_ok r = false → undecided (othr o i) → fin s i (Ret (r, b)).
Proof.
  intros Hr Hok Hu r' b' [= <- <-]. rewrite Hok. eapply (finish_move s o i false Aborted); [done| |by left].
  apply o_abort. by destruct (othr o i).
Qed.

Lemma fin_put s o i b rs w1 w2 :
  refines s o → body_done i rs (w1 ++ w2) →
  othr o i = Committing rs (ent <$> w1 ++ w2) (ent <$> w1) (ent <$> w2) →
  fin s i (xfor flush_write w2 b).
Proof.
  intros Hr Hbd Ea r b' E. destruct w2 as [|x w2]; [|done]. injection E as <- <-. rewrite app_nil_r in *.
  eapply (finish_move s o i true); [done|by eapply o_done|]. by exists rs, w1.
Qed.

Lemma fin_check s o i b c rs rsO ws :
  refines s o → (i < n)%nat → threads s i = Running (pbind (xfor validate_read rsO b) (x_then (write_rest ws))) →
  Forall2 ropt rs rsO → body_done i (c ++ rs) ws →
  othr o i = Validating (c ++ rs) (ent <$> ws) c rs →
  holds_all i (locktab (sh s)) (advisory_tag <$> (ent <$> ws).*1) →
  fin s i (pbind (xfor validate_read rsO b) (x_then (write_rest ws))).
Proof.
  intros Hr Hi Hth Hro Hbd Ea Hh. destruct Hro as [|e op rs rsO He Hro]; [|done].
  rewrite app_nil_r in *.
  change (pbind (xfor validate_read [] b) (x_then (write_rest ws)))
    with (xfor flush_write ws (mark_validated b).2) in Hth |- *.
  eapply (fin_put s _ i _ c [] ws); [apply (refines_silent s o i (Committing c (ent <$> ws) [] (ent <$> ws)))|..];
    try done; [by eapply o_decide| |].
  - rewrite Hth. split; [done|]. exists []. split; [by apply (rt_put i _ _ c [] ws)|done].
  - cbn. by rewrite fn_lookup_insert.
Qed.

Lemma fin_lock s o i b rs rsO w1 w2 :
  refines s o → (i < n)%nat →
  threads s i = Running (pbind (xfor lock_write w2 b) (x_then (lock_rest rsO (w1 ++ w2)))) →
  IsolationIsSerializable b = true → Forall2 ropt rs rsO → body_done i rs (w1 ++ w2) →
  othr o i = Locking rs (ent <$> w1 ++ w2) (opt_key <$> w1) (opt_key <$> w2) →
  holds_all i (locktab (sh s)) (advisory_tag <$> (opt_key <$> w1)) →
  fin s i (pbind (xfor lock_write w2 b) (x_then (lock_rest rsO (w1 ++ w2)))).
Proof.
  intros Hr Hi Hth Hser Hro Hbd Ea Hh. destruct w2 as [|x w2]; [|done]. rewrite app_nil_r in *.
  assert (pbind (xfor lock_write [] b) (x_then (lock_rest rsO w1)) =
          pbind (xfor validate_read rsO b) (x_then (write_rest w1))) as E.
  { unfold lock_rest, validate_and_write, mbind, X_bind. cbn. by rewrite Hser. }
  rewrite E in Hth |- *. rewrite <- ent_keys in Hh.
  eapply (fin_check s _ i b [] rs rsO w1);
    [apply (refines_silent s o i (Validating rs (ent <$> w1) [] rs) (olog o ++ [i]))|..]; try done.
  - by eapply o_locked.
  - rewrite Hth. split; [done|]. exists []. split; [by apply (rt_check i _ b [] rs)|done].
  - cbn. by rewrite fn_lookup_insert.
Qed.

Lemma fin_exec s o i st b rs :
  refines s o → (i < n)%nat → threads s i = Running (pbind (exec_stage st b) (x_then commit)) →
  stage_ok (id i) (dom init) b rs st → replays i rs st b → othr o i = Active rs →
  fin s i (pbind (exec_stage st b) (x_then commit)).
Proof.
  intros Hr Hi Hth Hb Hrep Ea.
  destruct (stage_nf (id i) (id_valid i) (dom init) st b rs Hb)
    as [(b' & E & Hb')|[(r & b' & E & Hok)|(key & κ & E & Hk & Hκ)]]; rewrite E in Hth |- *; cbn [pbind x_then] in *.
  - destruct (enter_commit s o i b' rs) as (o' & b2 & rsO & ws & Hr' & Hs & Hro & Hbd & Ec & Ea'); try done.
    { intros m Hm. apply (Hrep m b' Hm). by rewrite E. }
    rewrite Ec in Hth |- *. apply (fin_lock s o' i b2 rs rsO [] ws); try done. intros l. cbn. lia.
  - destruct r; [done|..]; eapply (fin_fail s o); try done; by rewrite Ea.
  - done.
Qed.

Lemma refines_step s s' o : refines s o → sys_step s s' → ∃ o', refines s' o'.
Proof.
  intros Hr Hs.
  assert (∀ i p, threads s i = Running p → sim s i p ∧ fin s i p) as Hmain.
  { intros i p Hth. pose proof (rf_thr _ _ Hr i) as Ht. rewrite Hth in Ht. destruct Ht as (Hi & pend & Hrel & Hh).
    remember (othr o i) as a eqn:Ea. symmetry in Ea. destruct Hrel.
    - split; [by eapply sim_exec|by eapply fin_exec].
    - split; [by eapply sim_lock|by eapply fin_lock].
    - split; [by eapply sim_check|by eapply fin_check].
    - split; [by eapply sim_version|done].
    - split; [by eapply sim_unshare|done].
    - split; [by eapply sim_put|by eapply fin_put].
    - split; [by eapply sim_unlock|done].
    - split; [by intros p' w' Hp; inv Hp|]. eapply fin_fail; [done|done|by subst]. }
  destruct Hs as [s i p p' w' Hth Hp|s i r b Hth].
  - by eapply Hmain.
  - by eapply Hmain.
Qed.

End refinement.

(** ** Serializability *)

Definition sys_init (txns : nat → txn) (start : nat → backend) (n : nat)
    (init : gmap NRAMKeyData NRAMValueData) : system :=
  mkSystem (mkShared init [])
    (λ i, if decide (i < n)%nat then Running (transaction (txns i) (start i)) else Finished false).

Section serializable.

Context (txns : nat → txn) (start : nat → backend) (n : nat) (init : gmap NRAMKeyData NRAMValueData).
Context (start_wf : ∀ i, start_ok (start i)).
Context (start_inj : ∀ i j, top_xid (start i) = top_xid (start j) → i = j).
Context (init_older : ∀ k v i, init !! k = Some v → xact_id v ≠ top_xid (start i)).
Context (init_visible : visible init).
Context (txns_wf : ∀ i, selects_in (dom init) (txns i)).

Lemma start_bk i : bk (id start i) (start i) [].
Proof.
  left. destruct (start_wf i) as (H1 & H2 & H3 & H4). by split_and!.
Qed.

Lemma refines_init : refines txns start n init (sys_init txns start n init) (oinit init).
Proof.
  constructor; cbn; try done; [|by intros e e' ?%elem_of_nil|by intros e ?%elem_of_nil].
  intros i. cbn. unfold thread_rel. destruct (decide (i < n)%nat) as [Hi|Hi]; [|right; split; [lia|done]].
  split; [done|]. exists []. split; [|intros l; cbn; lia].
  apply (rt_exec _ _ _ _ _ (At (txns i))); [split; [apply start_bk|apply txns_wf]|]. by intros m b' _.
Qed.

Lemma refines_reachable s :
  rtc sys_step (sys_init txns start n init) s → ∃ o, refines txns start n init s o.
Proof.
  intros Hr. pose proof refines_init as Hi. revert Hi. generalize (oinit init).
  induction Hr as [|x y z Hs _ IH]; intros o Ho; [by exists o|].
  destruct (refines_step _ _ _ _ start_wf _ _ _ Ho Hs) as [o' Ho']. by eapply IH.
Qed.

Lemma apply_writes_sorted i rs ws b m :
  body_done txns start i rs ws → ws = list_sort (writes_of b) →
  apply_writes b m = list_to_map (ent <$> ws) ∪ m.
Proof.
  intros (_ & _ & _ & Hnd & _) Hs. unfold apply_writes. f_equal.
  symmetry. apply list_to_map_proper; [by rewrite ent_keys|]. rewrite Hs. unfold list_sort.
  by rewrite merge_sort_Permutation.
Qed.

(** C1. Serializability of the optimistic commit: let any number of backends run
    transactions at the serializable level under a policy that does not lock on
    access, with their calls on shared state interleaved in any way and lock
    requests refused at any time. The statements are SELECTs and UPDATEs of one
    row of the initial table each, found through an index; the values an UPDATE
    assigns may depend on what earlier SELECTs returned and on the old row that
    [ExecModifyTable] fetches, and not on the row its own plan has read (for
    that case see [lost_update]). When all have finished, the stored rows are
    those of running the committed transactions one after the other, in some
    order, each alone on the rows left by its predecessors. *)
Theorem occ_serializable (s : system) :
  rtc sys_step (sys_init txns start n init) s → (∀ i, ∃ c, threads s i = Finished c) →
  ∃ l, NoDup l ∧ (∀ i, i ∈ l ↔ threads s i = Finished true) ∧
    serial_run txns start init l (rows (sh s)).
Proof using All.
  intros Hr Hfin. destruct (refines_reachable s Hr) as [o [Hrows Hthr _ _ _ _ Hsteps]].
  destruct (occ_serial advisory_tag xact_id (id start) init start_inj init_older o Hsteps)
    as (Hnd & Hdec & Hread & Hstore).
  exists (decided o). split; [done|].
  assert (∀ i, threads s i = Finished true ↔ deciding (othr o i) = true) as Hcom.
  { intros i. specialize (Hthr i). destruct (Hfin i) as [c Hc]. rewrite Hc in Hthr |- *.
    destruct c; cbn in Hthr.
    - destruct Hthr as (rs & ws & -> & _). done.
    - by destruct Hthr as [-> | [_ ->]]. }
  split; [intros i; by rewrite Hdec, Hcom|].
  rewrite <- Hrows, Hstore.
  2:{ intros i. specialize (Hthr i). destruct (Hfin i) as [c Hc]. rewrite Hc in Hthr.
      destruct c; cbn in Hthr; [destruct Hthr as (? & ? & -> & _); done|by destruct Hthr as [-> | [_ ->]]]. }
  assert (∀ l2 l1, decided o = l1 ++ l2 →
    serial_run txns start (serial (othr o) init l1) l2 (serial (othr o) (serial (othr o) init l1) l2)) as Hgo.
  { induction l2 as [|i l2 IH]; intros l1 E; [constructor|].
    assert (threads s i = Finished true) as Hi by (apply Hcom, Hdec; rewrite E; set_solver).
    pose proof (Hthr i) as Ht. rewrite Hi in Ht. destruct Ht as (rs & ws & Ea & Hbd).
    pose proof Hbd as (b & Hrun & Hs & _).
    apply (sr_cons _ _ _ i b).
    - apply Hrun. intros k v Hkv. eapply Hread; [exact E|]. by rewrite Ea.
    - rewrite (apply_writes_sorted i rs ws) by done. cbn [serial]. rewrite Ea. cbn [ws_of].
      specialize (IH (l1 ++ [i])). rewrite serial_app in IH. cbn [serial] in IH. rewrite Ea in IH.
      cbn [ws_of] in IH. apply IH. by rewrite E, <- app_assoc. }
  by apply (Hgo (decided o) []).
Qed.

End serializable.

(** ** Schedules *)

(** Backend [i] makes its next move; a lock that cannot be granted is refused. *)
Definition move (i : nat) (s : system) : system :=
  let go p w := mkSystem w (<[i := Running p]> (threads s)) in
  match threads s i with
  | Finished _ => s
  | Running (Ret (r, _)) =>
      mkSystem (mkShared (rows (sh s)) (release_all i (locktab (sh s))))
        (<[i := Finished (is_ok r)]> (threads s))
  | Running (DoLock tag mode dw k) =>
      if can_grant i tag mode (locktab (sh s))
      then go (k (lock_result i tag mode (locktab (sh s))))
             (mkShared (rows (sh s)) ((i, tag, mode) :: locktab (sh s)))
      else go (k LOCKACQUIRE_NOT_AVAIL) (sh s)
  | Running (DoUnlock tag mode k) =>
      go (k (bool_decide ((i, tag, mode) ∈ locktab (sh s))))
        (mkShared (rows (sh s)) (remove1 (i, tag, mode) (locktab (sh s))))
  | Running (DoGet key k) => go (k (rows (sh s) !! key)) (sh s)
  | Running (DoPut key v k) => go (k true) (mkShared (<[key := v]> (rows (sh s))) (locktab (sh s)))
  | Running (DoScan lo hi k) => go (k (Some (scan_rows lo hi (rows (sh s))))) (sh s)
  end.

Definition schedule (l : list nat) (s : system) : system := foldl (λ s i, move i s) s l.

Lemma move_step i s : rtc sys_step s (move i s).
Proof.
  unfold move. destruct (threads s i) as [p|c] eqn:E; [|done].
  destruct p as [[r b]|tag mode dw k|tag mode k|key k|key v k|lo hi k].
  - apply rtc_once. by eapply y_finish.
  - destruct (can_grant _ _ _ _) eqn:Eg; apply rtc_once; (eapply y_run; [exact E|]); by constructor.
  - apply rtc_once. eapply y_run; [exact E|]. constructor.
  - apply rtc_once. eapply y_run; [exact E|]. constructor.
  - apply rtc_once. eapply y_run; [exact E|]. constructor.
  - apply rtc_once. eapply y_run; [exact E|]. constructor.
Qed.

Lemma schedule_steps l s : rtc sys_step s (schedule l s).
Proof.
  revert s. induction l as [|i l IH]; intros s; [done|]. etrans; [apply (move_step i)|apply IH].
Qed.

Lemma move_other i j s : j ≠ i → threads (move i s) j = threads s j.
Proof.
  intros Hj. unfold move. destruct (threads s i) as [p|c]; [|done].
  destruct p as [[r b]|tag mode dw k|tag mode k|key k|key v k|lo hi k]; cbn;
    rewrite ?fn_lookup_insert_ne by done; try done.
  destruct (can_grant _ _ _ _); cbn; by rewrite fn_lookup_insert_ne.
Qed.

Lemma schedule_other l j s : j ∉ l → threads (schedule l s) j = threads s j.
Proof.
  revert s. induction l as [|i l IH]; intros s Hj; [done|]. cbn. fold (schedule l (move i s)).
  rewrite IH by set_solver. apply move_other. set_solver.
Qed.

(** ** Two increments of one row *)

Definition demo_rel : Relation := mkRel 20000 [mkAttr 23 true 4].
Definition demo_tid : Tid.ItemPointerData := Tid.mkItemPointer 0 1 5.
Definition demo_key : NRAMKeyData := nram_key_from_tid (rd_id demo_rel) demo_tid.
Definition int_row (z : Z) : HeapTuple := [(DWord z, false)].
Definition int_of (t : HeapTuple) : Z := match t with [(DWord z, false)] => z | _ => 0 end.

Definition demo_rows : gmap NRAMKeyData NRAMValueData :=
  match nram_value_serialize_from_tuple 7 (int_row 0) (rd_att demo_rel) with
  | Ok v => {[demo_key := v]}
  | _ => ∅
  end.

Definition demo_start (i : nat) : backend :=
  mkBackend (100 + Z.of_nat i) true 1 None DEFAULT_WAIT_MS 0 0 true (Some initial_act) (4000 + Z.of_nat i) 0.

(** A SELECT followed by an UPDATE with the value read, increased. *)
Definition demo_txn (i : nat) : txn :=
  TSelect demo_rel demo_tid (λ r,
    TUpdate demo_rel demo_tid (λ _, int_row (match r.2 with Some t => int_of (t_values t) + 1 | None => 0 end)) TEnd).

Definition stored_int (s : system) : option Z :=
  match rows (sh s) !! demo_key with
  | Some v => match deserialize_nram_value_to_tuple v (rd_att demo_rel) with Ok t => Some (int_of t) | _ => None end
  | None => None
  end.

Lemma demo_visible : visible demo_rows.
Proof. apply map_Forall_to_list. vm_compute. by repeat constructor. Qed.
Lemma demo_dom : demo_key ∈ dom demo_rows.
Proof. apply elem_of_dom. by eexists. Qed.
Lemma demo_older k v i : demo_rows !! k = Some v → xact_id v ≠ top_xid (demo_start i).
Proof.
  unfold demo_rows. destruct (nram_value_serialize_from_tuple 7 _ _) as [w| |] eqn:E; [|done..].
  apply serialize_id in E as [E _]. intros [_ <-]%lookup_singleton_Some. rewrite E. cbn [top_xid demo_start]. lia.
Qed.

(** Both read 0; backend 0 commits 1 and the validation of backend 1 fails. *)
Definition demo_schedule : list nat := [0; 1; 0; 0; 0; 0; 0; 0; 0; 1; 1; 1; 1; 1; 1; 1]%nat.
Definition demo_end : system := schedule demo_schedule (sys_init demo_txn demo_start 2 demo_rows).

Lemma demo_finished i : ∃ c, threads demo_end i = Finished c.
Proof.
  destruct (decide (i = 0%nat)) as [->|]; [by exists true|].
  destruct (decide (i = 1%nat)) as [->|]; [by exists false|].
  exists false. unfold demo_end. rewrite schedule_other.
  - cbn. by rewrite decide_False by lia.
  - unfold demo_schedule. set_solver.
Qed.

Lemma occ_serializable_witness :
  stored_int demo_end = Some 1 ∧ threads demo_end 0%nat = Finished true ∧
  threads demo_end 1%nat = Finished false ∧
  ∃ l, NoDup l ∧ (∀ i, i ∈ l ↔ threads demo_end i = Finished true) ∧
    serial_run demo_txn demo_start demo_rows l (rows (sh demo_end)).
Proof.
  split; [vm_compute; reflexivity|]. split; [vm_compute; reflexivity|]. split; [vm_compute; reflexivity|].
  apply (occ_serializable demo_txn demo_start 2 demo_rows).
  - intros i. split; [unfold InvalidTransactionId; cbn [top_xid demo_start]; lia|].
    split; [done|]. split; [done|]. by apply Forall_replicate.
  - intros i j. cbn [top_xid demo_start]. lia.
  - exact demo_older.
  - exact demo_visible.
  - intros i. split; [exact demo_dom|]. intros r. split; [exact demo_dom|exact I].
  - apply schedule_steps.
  - exact demo_finished.
Defined.

(** ** A lost update *)

(** Two backends that each execute [UPDATE t SET col = col + 1] on the row. *)
Definition increment : X backend unit :=
  update_statement demo_rel demo_tid (λ plan _, int_row (int_of (t_values plan) + 1)).

Definition increments : system :=
  mkSystem (mkShared demo_rows [])
    (λ i, if decide (i < 2)%nat then Running ((increment ≫= commit) (demo_start i)) else Finished false).

Definition alone (i : nat) : list nat := replicate 12 i.

(** C40. A lost update at the serializable level: the read an UPDATE makes
    through an index fetch does not enter the read set. When another backend
    commits an increment between that read and the second fetch of the row,
    both increments commit and the row, 0 at the start, ends as 1; one after
    the other they make 2. *)
Theorem lost_update :
  (∃ s, rtc sys_step increments s ∧ threads s 0%nat = Finished true ∧ threads s 1%nat = Finished true ∧
     stored_int s = Some 1) ∧
  (∃ s, rtc sys_step increments s ∧ threads s 0%nat = Finished true ∧ threads s 1%nat = Finished true ∧
     stored_int s = Some 2).
Proof.
  split.
  - exists (schedule ([0%nat] ++ alone 1 ++ alone 0) increments).
    split; [apply schedule_steps|]. by vm_compute.
  - exists (schedule (alone 0 ++ alone 1) increments).
    split; [apply schedule_steps|]. by vm_compute.
Qed.
