(* ===== verification/Forecast.v ===== *)
(** * Workload forecasting: templates, the workload log and query rewriting

    Models the text processing of the workload forecast extension: the query
    templates and the CSV workload log of
    [nr_workload_forecast/src/query_logger.c], the qualification of column names
    of [nr_workload_forecast/src/query_rewrite.c] (the file
    [backend/neurdb/query_rewrite.c] has the same functions), the replacement
    and JSON escaping of [backend/neurdb/query_logger.c], and the cleaning of
    responses of [nr_workload_forecast/src/http_client.c].

    Texts are C strings. Writing more bytes than were allocated and reading
    behind the terminating zero are [Ub]. MD5, the local time and the parser of
    the server are arguments. *)
From S2P Require Import Prelude CText.
From Stdlib Require Import ZArith Lia Ascii.
From stdpp Require Import base strings numbers list.

Open Scope Z_scope.

(** ** Query templates *)

Definition MAX_QUERY_LENGTH : Z := 65536.

(** The loop over the body of a string literal from index [i] on; it stops at
    the closing delimiter, at the end of the text, or at the maximal length.
    A backslash skips a character, also the terminating zero. *)
Fixpoint skip_string (delim : ascii) (i : Z) (s : text) : outcome (Z * text) :=
  match s with
  | [] => Ok (i, [])
  | c :: s' =>
      if negb (i <? MAX_QUERY_LENGTH) then Ok (i, s)
      else if ascii_eqb c BACKSLASH then
        match s' with
        | [] => Ub "read behind the end of the query"
        | _ :: s'' => skip_string delim (i + 2) s''
        end
      else if ascii_eqb c delim then
        match s' with
        | d :: s'' => if ascii_eqb d delim then skip_string delim (i + 2) s'' else Ok (i, s)
        | [] => Ok (i, s)
        end
      else skip_string delim (i + 1) s'
  end.

Definition is_number_char (c : ascii) : bool := is_digit c || ascii_eqb c ".".

(** The number literal at the head of the text. *)
Fixpoint skip_number (i : Z) (s : text) : Z * text :=
  match s with c :: s' => if is_number_char c then skip_number (i + 1) s' else (i, s) | [] => (i, []) end.

(** The rest of a hexadecimal literal. *)
Fixpoint skip_hex (i : Z) (s : text) : Z * text :=
  match s with
  | c :: s' => if is_space c || ascii_eqb c QUOTE then (i, s) else skip_hex (i + 1) s'
  | [] => (i, [])
  end.

Definition next_is (p : ascii → bool) (s : text) : bool := match s with c :: _ => p c | [] => false end.

(** The main loop of [extract_constant_tokens]; the flags [in_string] and
    [in_number] are false whenever the loop tests them. *)
Fixpoint extract_loop (fuel : nat) (in_identifier escaped : bool) (i : Z) (query template : text)
    : outcome text :=
  match fuel, query with
  | _, [] => Ok template
  | O, _ => Ok template
  | S fuel, ch :: rest =>
      if negb (i <? MAX_QUERY_LENGTH) then Ok template
      else if escaped then extract_loop fuel in_identifier false (i + 1) rest (template ++ [ch])
      else if ascii_eqb ch BACKSLASH then
        extract_loop fuel in_identifier true (i + 1) rest (template ++ [ch])
      else if ascii_eqb ch DQUOTE || ascii_eqb ch BACKTICK then
        extract_loop fuel (negb in_identifier) false (i + 1) rest (template ++ [ch])
      else if in_identifier then
        extract_loop fuel in_identifier false (i + 1) rest (template ++ [ch])
      else if ascii_eqb ch QUOTE || ascii_eqb ch DQUOTE then
        '(i, q) ← skip_string ch (i + 1) rest;
        let template := template ++ [ch] ++ text_of "&&&" in
        match q with
        | d :: q' => if ascii_eqb d ch then extract_loop fuel false false (i + 1) q' (template ++ [ch])
                     else extract_loop fuel false false i q template
        | [] => extract_loop fuel false false i [] template
        end
      else if is_digit ch then
        let '(i, q) := skip_number i query in
        extract_loop fuel false false i q (template ++ ["#"%char])
      else if ((ascii_eqb ch "0" && next_is (ascii_eqb "x") rest) ||
               (ascii_eqb ch "x" && next_is (ascii_eqb QUOTE) rest) ||
               (ascii_eqb ch "b" && next_is (ascii_eqb QUOTE) rest)) &&
              (next_is (ascii_eqb "x") rest || next_is (ascii_eqb "b") rest) then
        match rest with
        | ch' :: rest' =>
            let '(i, q) := skip_hex (i + 2) rest' in
            extract_loop fuel false false i q (template ++ [ch; ch'] ++ text_of "@@@")
        | [] => extract_loop fuel false false (i + 1) rest (template ++ [ch])
        end
      else extract_loop fuel false false (i + 1) rest (template ++ [ch])
  end.

Definition extract_constant_tokens (query : text) : outcome text :=
  extract_loop (length query) false false 0 query [].

(** The second pass: runs of white space become one blank, leading and trailing
    white space goes; [normalized] is what is written so far. *)
Fixpoint squeeze (in_space : bool) (template normalized : text) : text :=
  match template with
  | [] => normalized
  | ch :: template =>
      if is_space ch then
        if negb in_space && negb (bool_decide (normalized = []))
        then squeeze true template (normalized ++ [" "%char])
        else squeeze in_space template normalized
      else squeeze false template (normalized ++ [ch])
  end.

Definition drop_last_blank (normalized : text) : text :=
  match last normalized with
  | Some c => if ascii_eqb c " " then take (length normalized - 1) normalized else normalized
  | None => normalized
  end.

Definition normalize_query (query_text : option text) : outcome (option text) :=
  match query_text with
  | None => Ok None
  | Some query => template ← extract_constant_tokens query;
                  Ok (Some (drop_last_blank (squeeze false template [])))
  end.

(** ** Deciding what to log *)

Definition is_select_query (query_text : text) : bool :=
  let p := skip_while is_space query_text in
  if starts_with_ci (text_of "SELECT") p then true
  else if starts_with_ci (text_of "WITH") p then
    let p := skip_while is_space (drop 4 p) in
    let p := skip_while is_space (skip_while is_alnum p) in
    if starts_with_ci (text_of "AS") p then
      match skip_while is_space (drop 2 p) with
      | c :: p => ascii_eqb c "(" && starts_with_ci (text_of "SELECT") (skip_while is_space p)
      | [] => false
      end
    else false
  else false.

(** ** The workload log *)

Definition hex_digit (d : Z) : ascii :=
  ascii_of_N (Z.to_N (if d <? 10 then 48 + d else 87 + d)).
(** [sprintf("%02x", b)]. *)
Definition hex_byte (b : Z) : text := [hex_digit (b / 16); hex_digit (b `mod` 16)].
Definition hex (digest : list Z) : text := concat (hex_byte <$> digest).

Definition POSTGRES_EPOCH_JDATE : Z := 2451545.
Definition UNIX_EPOCH_JDATE : Z := 2440588.
Definition SECS_PER_DAY : Z := 86400.

(** The environment of the logger: the MD5 digest, the local time of a second
    printed by [strftime] and whether the log file can be opened. *)
Record log_env := mkLogEnv {
  MD5 : text → list Z;
  localtime : Z → option text;
  fopen_ok : bool
}.

Definition compute_template_hash (env : log_env) (template_text : text) : text :=
  hex (MD5 env template_text).

Fixpoint double_quotes (s : text) : text :=
  match s with
  | [] => []
  | c :: s => if ascii_eqb c DQUOTE then DQUOTE :: c :: double_quotes s else c :: double_quotes s
  end.

Definition csv_header : text := text_of "timestamp,template_hash,template,original_query" ++ [NEWLINE].

Definition csv_line (time_str template_hash template_text query_text : text) : text :=
  time_str ++ text_of "," ++ template_hash ++ text_of "," ++ [DQUOTE] ++ double_quotes template_text ++
  [DQUOTE] ++ text_of "," ++ [DQUOTE] ++ double_quotes query_text ++ [DQUOTE; NEWLINE].

Definition time_string (env : log_env) (timestamp : Z) : text :=
  let secs := Z.quot timestamp 1000000 + (POSTGRES_EPOCH_JDATE - UNIX_EPOCH_JDATE) * SECS_PER_DAY in
  match localtime env secs with Some t => t | None => text_of "1970-01-01 00:00:00" end.

(** The contents of the log file after a query; errors of the file system other
    than a failing [fopen] are left out. *)
Definition query_logger_log_query (env : log_env) (query_text : text) (timestamp : Z) (file : text)
    : outcome text :=
  if negb (is_select_query query_text) then Ok file
  else
    template ← normalize_query (Some query_text);
    match template with
    | None => Ok file
    | Some template =>
        let template_hash := compute_template_hash env template in
        if negb (fopen_ok env) then Ok file
        else
          let file := if bool_decide (file = []) then csv_header else file in
          Ok (file ++ csv_line (time_string env timestamp) template_hash template query_text)
    end.

(** The hook on each analyzed query. *)
Definition workload_forecast_post_parse_analyze (enable select : bool) (env : log_env)
    (p_sourcetext : option text) (timestamp : Z) (file : text) : outcome text :=
  if negb enable then Ok file
  else if negb select then Ok file
  else match p_sourcetext with
       | None | Some [] => Ok file
       | Some query_text => query_logger_log_query env query_text timestamp file
       end.

(** ** Replacement in query texts *)

(** [strcpy] or [memcpy] into a block of [size] bytes, the zero included. *)
Definition store_string (size : Z) (s : text) : outcome text :=
  if size <? zlen s + 1 then Ub "write past the allocated string" else Ok s.

(** *** [replace_str] *)

Fixpoint count_all (fuel : nat) (p old : text) : Z :=
  match fuel with
  | O => 0
  | S fuel =>
      match strstr p old with
      | Some (_, q) => 1 + count_all fuel (drop (length old) q) old
      | None => 0
      end
  end.

Fixpoint copy_all (fuel : nat) (p old new : text) : text :=
  match fuel with
  | O => p
  | S fuel =>
      match strstr p old with
      | Some (b, q) => b ++ new ++ copy_all fuel (drop (length old) q) old new
      | None => p
      end
  end.

Definition replace_str (str old new : text) : outcome text :=
  if bool_decide (old = []) then Ok str
  else
    let count := count_all (S (length str)) str old in
    if count =? 0 then Ok str
    else store_string (zlen str + count * (zlen new - zlen old) + 1)
           (copy_all (S (length str)) str old new).

(** *** [simple_replace] *)

(** Whether an occurrence stands alone: [prev] is the character before it, if
    any, [next] what follows it. *)
Definition standalone (prev : option ascii) (next : text) : bool :=
  match prev with None => true | Some c => is_space c || ascii_eqb c "(" end &&
  match next with
  | [] => true
  | c :: _ => is_space c || ascii_eqb c "," || ascii_eqb c ")" || ascii_eqb c ">" ||
              ascii_eqb c "<" || ascii_eqb c "="
  end.

(** The character before [b ++ ...] when [prev] is the one before [b]. *)
Definition prev_char (prev : option ascii) (b : text) : option ascii :=
  match last b with Some c => Some c | None => prev end.

Fixpoint count_valid (fuel : nat) (prev : option ascii) (p old : text) : Z :=
  match fuel with
  | O => 0
  | S fuel =>
      match strstr p old with
      | Some (b, q) =>
          let next := drop (length old) q in
          (if standalone (prev_char prev b) next then 1 else 0) + count_valid fuel (last old) next old
      | None => 0
      end
  end.

(** An occurrence that does not stand alone: the text before it and its first
    character are copied, unless it is right at the position [p]. *)
Fixpoint copy_valid (fuel : nat) (prev : option ascii) (p old new : text) : text :=
  match fuel with
  | O => p
  | S fuel =>
      match strstr p old with
      | Some (b, q) =>
          let next := drop (length old) q in
          if standalone (prev_char prev b) next
          then b ++ new ++ copy_valid fuel (last old) next old new
          else (if bool_decide (b = []) then [] else b ++ take 1 q) ++
               copy_valid fuel (head q) (drop 1 q) old new
      | None => p
      end
  end.

Definition simple_replace (str old new : text) : outcome text :=
  if bool_decide (old = []) then Ok str
  else
    let count := count_valid (S (length str)) None str old in
    if count =? 0 then Ok str
    else store_string (zlen str + count * (zlen new - zlen old) + 1)
           (copy_valid (S (length str)) None str old new).

(** *** Qualifying column names *)

(** The parse tree as far as the rewriting looks at it. *)
Inductive FromItem := RangeVar (relname : string) (alias : option string) | OtherItem.
Inductive RawStmt := SelectStmt (fromClause : list FromItem) | OtherStmt.

Record QueryRewriteContext := mkContext {
  table_names : list string;
  table_aliases : list string
}.

Fixpoint extract_table_info (fromClause : list FromItem) (context : QueryRewriteContext)
    : QueryRewriteContext :=
  match fromClause with
  | [] => context
  | RangeVar relname alias :: items =>
      let alias_name := default relname alias in
      extract_table_info items
        (mkContext (table_names context ++ [relname])
                   (table_aliases context ++ [(alias_name +:+ ":" +:+ relname)%string]))
  | OtherItem :: items => extract_table_info items context
  end.

(** [prefix ++ col] becomes [prefix ++ table.col]. *)
Definition rule (prefix table col : string) : text * text :=
  (text_of (prefix +:+ col), text_of (prefix +:+ table +:+ "." +:+ col)).

Definition title_rules : list (text * text) :=
  (rule " WHERE " "title" <$> ["title_id"; "kind_id"; "production_year"; "imdb_id"; "phonograph_code";
                               "episode_of_id"; "season_nr"; "episode_nr"]%string) ++
  (rule "ORDER BY " "title" <$> ["title_id"; "kind_id"; "production_year"; "imdb_id"]%string).
Definition cast_info_rules : list (text * text) :=
  (rule " WHERE " "cast_info" <$> ["person_id"; "movie_id"; "role_id"; "note"; "nr_order"]%string) ++
  (rule "ORDER BY " "cast_info" <$> ["person_id"; "movie_id"; "role_id"]%string).
Definition movie_info_rules : list (text * text) :=
  (rule " WHERE " "movie_info" <$> ["movie_id"; "info_type_id"; "info"; "note"]%string) ++
  (rule "ORDER BY " "movie_info" <$> ["movie_id"; "info_type_id"]%string).

Definition rules_of (table_name : string) : list (text * text) :=
  if String.eqb table_name "title" then title_rules
  else if String.eqb table_name "cast_info" then cast_info_rules
  else if String.eqb table_name "movie_info" then movie_info_rules
  else [].

Fixpoint replace_rules (replace : text → text → text → outcome text) (rules : list (text * text))
    (str : text) : outcome text :=
  match rules with
  | [] => Ok str
  | (old, new) :: rules => str ← replace str old new; replace_rules replace rules str
  end.

Definition apply_simple_rewrites (original_query : text) (context : QueryRewriteContext)
    : outcome text :=
  match table_names context with
  | [] => Ok original_query
  | table_name :: _ => replace_rules simple_replace (rules_of table_name) original_query
  end.

(** Only the first SELECT statement is handled. *)
Fixpoint rewrite_first_select (original_query : text) (stmts : list RawStmt) : outcome text :=
  match stmts with
  | [] => Ok original_query
  | SelectStmt fromClause :: _ =>
      let context := extract_table_info fromClause (mkContext [] []) in
      if bool_decide (table_names context = []) then Ok original_query
      else apply_simple_rewrites original_query context
  | OtherStmt :: stmts => rewrite_first_select original_query stmts
  end.

Definition rewrite_query_with_table_prefixes (raw_parser : text → list RawStmt) (original_query : text)
    : outcome text :=
  rewrite_first_select original_query (raw_parser original_query).

(** The rewriting of [backend/neurdb/query_logger.c]. *)
Definition contains (s old : text) : bool := bool_decide (is_Some (strstr s old)).

Definition simple_title_rules : list (text * text) :=
  rule " WHERE " "title" <$> ["title_id"; "kind_id"; "production_year"; "imdb_id"; "phonograph_code";
                              "episode_of_id"; "season_nr"; "episode_nr"]%string.
Definition simple_cast_info_rules : list (text * text) :=
  rule " WHERE " "cast_info" <$> ["person_id"; "movie_id"; "role_id"; "note"; "nr_order"; "role_id"]%string.
Definition simple_movie_info_rules : list (text * text) :=
  rule " WHERE " "movie_info" <$> ["movie_id"; "info_type_id"; "info"; "note"]%string.
Definition simple_order_rules : list (text * text) :=
  [rule "ORDER BY " "title" "production_year"; rule "ORDER BY " "title" "title_id";
   rule "ORDER BY " "title" "kind_id"; rule "ORDER BY " "cast_info" "person_id";
   rule "ORDER BY " "cast_info" "movie_id"].

Definition rewrite_if (cond : bool) (rules : list (text * text)) (str : text) : outcome text :=
  if cond then replace_rules replace_str rules str else Ok str.

Definition rewrite_query_simple (original_query : text) : outcome text :=
  s ← rewrite_if (contains original_query (text_of "SELECT * FROM title WHERE")) simple_title_rules original_query;
  s ← rewrite_if (contains original_query (text_of "SELECT * FROM cast_info WHERE")) simple_cast_info_rules s;
  s ← rewrite_if (contains original_query (text_of "SELECT * FROM movie_info WHERE")) simple_movie_info_rules s;
  rewrite_if (contains s (text_of "ORDER BY")) simple_order_rules s.

(** ** JSON strings and responses *)

Definition escape_char (c : ascii) : text :=
  if ascii_eqb c DQUOTE then [BACKSLASH; DQUOTE]
  else if ascii_eqb c BACKSLASH then [BACKSLASH; BACKSLASH]
  else if ascii_eqb c NEWLINE then [BACKSLASH; "n"%char]
  else if ascii_eqb c "013" then [BACKSLASH; "r"%char]
  else if ascii_eqb c "009" then [BACKSLASH; "t"%char]
  else [c].

Fixpoint escape_chars (s : text) : text :=
  match s with [] => [] | c :: s => escape_char c ++ escape_chars s end.

(** [escape_json_string] of [backend/neurdb/query_logger.c]. *)
Definition escape_json_string (str : text) : outcome text :=
  store_string (zlen str * 2 + 3) ([DQUOTE] ++ escape_chars str ++ [DQUOTE]).

(** [postdata] of [nr_send_query_to_ai]. *)
Definition postdata (rewritten_query : text) : outcome text :=
  e ← escape_json_string rewritten_query;
  Ok (text_of "{" ++ [DQUOTE] ++ text_of "query" ++ [DQUOTE] ++ text_of ": " ++ [DQUOTE] ++ e ++ [DQUOTE] ++
      text_of ", " ++ [DQUOTE] ++ text_of "execution_time" ++ [DQUOTE] ++ text_of ": 100.0}").

(** [strip_html_tags] of [http_client.c], on the buffer's contents. *)
Fixpoint strip_tags (in_tag : bool) (buffer : text) : text :=
  match buffer with
  | [] => []
  | c :: buffer =>
      if ascii_eqb c "<" then strip_tags true buffer
      else if ascii_eqb c ">" then strip_tags false buffer
      else if in_tag then strip_tags in_tag buffer
      else c :: strip_tags in_tag buffer
  end.
Definition strip_html_tags (buffer : text) : text := strip_tags false buffer.

(** ** Replacement against a reference *)

Section replacement.

Context (old new : text) (valid : option ascii → text → bool).
Context (old_ne : old ≠ []).

(** The reference, one character at a time: an occurrence that is valid is
    replaced and skipped ([skip] characters are left of it), anything else is
    copied. *)
Fixpoint subst_where (skip : nat) (prev : option ascii) (s : text) : text :=
  match s with
  | [] => []
  | c :: s' =>
      match skip with
      | S skip => subst_where skip (Some c) s'
      | O => if starts_with old s && valid prev (drop (length old) s)
             then new ++ subst_where (length old - 1) (Some c) s'
             else c :: subst_where 0 (Some c) s'
      end
  end.

(** How often it replaces. *)
Fixpoint count_where (skip : nat) (prev : option ascii) (s : text) : Z :=
  match s with
  | [] => 0
  | c :: s' =>
      match skip with
      | S skip => count_where skip (Some c) s'
      | O => if starts_with old s && valid prev (drop (length old) s)
             then 1 + count_where (length old - 1) (Some c) s'
             else count_where 0 (Some c) s'
      end
  end.

Lemma prev_char_cons prev c b : prev_char (Some c) b = prev_char prev (c :: b).
Proof.
  unfold prev_char. destruct b as [|d b]; [done|]. rewrite last_cons_cons.
  destruct (last (d :: b)) eqn:E; [done|]. by apply last_None in E.
Qed.

Lemma prev_char_nil prev : prev_char prev [] = prev.
Proof. done. Qed.

Lemma prev_char_old prev : prev_char prev old = last old.
Proof.
  unfold prev_char. destruct (last old) eqn:E; [done|]. by apply last_None in E.
Qed.

(** No occurrence starts inside [b] of [b ++ q]. *)
Definition no_start (b q : text) : Prop :=
  ∀ b1 b2, b = b1 ++ b2 → b2 ≠ [] → starts_with old (b2 ++ q) = false.

Lemma no_start_cons c b q : no_start (c :: b) q → starts_with old (c :: b ++ q) = false ∧ no_start b q.
Proof.
  intros H. split; [by apply (H [] (c :: b))|]. intros b1 b2 -> Hne. by apply (H (c :: b1)).
Qed.

Lemma subst_before b q prev :
  no_start b q → subst_where 0 prev (b ++ q) = b ++ subst_where 0 (prev_char prev b) q.
Proof.
  revert prev. induction b as [|c b IH]; intros prev H; [done|].
  apply no_start_cons in H as [H1 H2]. cbn [app subst_where]. rewrite H1. cbn [andb].
  rewrite (IH _ H2). by rewrite (prev_char_cons prev).
Qed.

Lemma count_before b q prev :
  no_start b q → count_where 0 prev (b ++ q) = count_where 0 (prev_char prev b) q.
Proof.
  revert prev. induction b as [|c b IH]; intros prev H; [done|].
  apply no_start_cons in H as [H1 H2]. cbn [app count_where]. rewrite H1. cbn [andb].
  rewrite (IH _ H2). by rewrite (prev_char_cons prev).
Qed.

Lemma subst_skip b q prev :
  subst_where (length b) prev (b ++ q) = subst_where 0 (prev_char prev b) q.
Proof.
  revert prev. induction b as [|c b IH]; intros prev; [done|].
  cbn [length app subst_where]. by rewrite IH, (prev_char_cons prev).
Qed.

Lemma count_skip b q prev :
  count_where (length b) prev (b ++ q) = count_where 0 (prev_char prev b) q.
Proof.
  revert prev. induction b as [|c b IH]; intros prev; [done|].
  cbn [length app count_where]. by rewrite IH, (prev_char_cons prev).
Qed.

Lemma old_cons : ∃ c l, old = c :: l ∧ (length old - 1)%nat = length l.
Proof. destruct old as [|c l]; [done|]. exists c, l. split; [done|]. cbn. lia. Qed.

(** At an occurrence. *)
Lemma subst_at prev next :
  subst_where 0 prev (old ++ next) =
    if valid prev next then new ++ subst_where 0 (last old) next
    else take 1 (old ++ next) ++ subst_where 0 (head (old ++ next)) (drop 1 (old ++ next)).
Proof.
  pose proof (starts_with_app old next) as Hs. pose proof (prev_char_old prev) as Hl.
  assert (drop (length old) (old ++ next) = next) as Hd by apply drop_app_length.
  destruct old_cons as (c & l & E & El).
  replace (old ++ next) with (c :: l ++ next) in * by (by rewrite E). cbn [subst_where].
  rewrite Hs, Hd. cbn [andb]. destruct (valid prev next); [|cbn; by rewrite drop_0].
  rewrite El, subst_skip. by rewrite (prev_char_cons prev), <- E, Hl.
Qed.

Lemma count_at prev next :
  count_where 0 prev (old ++ next) =
    if valid prev next then 1 + count_where 0 (last old) next
    else count_where 0 (head (old ++ next)) (drop 1 (old ++ next)).
Proof.
  pose proof (starts_with_app old next) as Hs. pose proof (prev_char_old prev) as Hl.
  assert (drop (length old) (old ++ next) = next) as Hd by apply drop_app_length.
  destruct old_cons as (c & l & E & El).
  replace (old ++ next) with (c :: l ++ next) in * by (by rewrite E). cbn [count_where].
  rewrite Hs, Hd. cbn [andb]. destruct (valid prev next); [|cbn; by rewrite drop_0].
  rewrite El, count_skip. by rewrite (prev_char_cons prev), <- E, Hl.
Qed.

Lemma no_occurrence_subst s prev : no_start s [] → subst_where 0 prev s = s ∧ count_where 0 prev s = 0.
Proof.
  intros H. rewrite <- (app_nil_r s). rewrite subst_before, count_before by done. cbn. done.
Qed.

Lemma strstr_no_start s b q : strstr s old = Some (b, q) → s = b ++ q ∧ no_start b q ∧ ∃ next, q = old ++ next.
Proof.
  intros (-> & Hq & Hb)%strstr_Some. split; [done|]. split; [done|]. by apply starts_with_spec.
Qed.

Lemma strstr_none_start s : strstr s old = None → no_start s [].
Proof.
  intros H b1 b2 -> Hne. rewrite app_nil_r. by eapply strstr_None.
Qed.

(** Replacing changes the length by the same amount each time. *)
Lemma zlen_subst s prev skip :
  (skip ≤ length s)%nat →
  zlen (subst_where skip prev s) = zlen s - Z.of_nat skip + count_where skip prev s * (zlen new - zlen old).
Proof.
  revert prev skip. induction s as [|c s IH]; intros prev skip Hs; [cbn in *; unfold zlen; cbn; lia|].
  cbn [subst_where count_where]. destruct skip as [|skip].
  - destruct (starts_with old (c :: s) && _) eqn:E.
    + apply andb_true_iff in E as [E _]. apply starts_with_spec in E as [r E].
      apply (f_equal length) in E. rewrite length_app in E. cbn in E.
      destruct old_cons as (d & l & E' & El). rewrite El. apply (f_equal length) in E'. cbn in E'.
      rewrite zlen_app, IH by lia. unfold zlen. cbn. lia.
    + rewrite zlen_cons, IH by lia. rewrite zlen_cons. lia.
  - cbn in Hs. rewrite IH by lia. rewrite zlen_cons. lia.
Qed.

End replacement.

Definition always (prev : option ascii) (next : text) : bool := true.

Lemma copy_all_subst old new fuel p prev :
  old ≠ [] → (length p < fuel)%nat →
  copy_all fuel p old new = subst_where old new always 0 prev p ∧
  count_all fuel p old = count_where old always 0 prev p.
Proof.
  intros Hne. revert p prev. induction fuel as [|fuel IH]; intros p prev Hl; [lia|].
  cbn [copy_all count_all]. destruct (strstr p old) as [[b q]|] eqn:E.
  - apply strstr_no_start in E as (-> & Hb & next & ->). rewrite drop_app_length.
    rewrite subst_before, count_before, subst_at, count_at by done. cbn [always].
    rewrite !length_app in Hl. assert (length old ≠ 0%nat) by (by destruct old).
    destruct (IH next (last old)) as [-> ->]; [lia|done].
  - apply strstr_none_start in E. destruct (no_occurrence_subst old new always p prev E) as [-> ->]. done.
Qed.

Lemma count_where_nonneg old valid skip prev s : 0 ≤ count_where old valid skip prev s.
Proof.
  revert skip prev. induction s as [|c s IH]; intros skip prev; cbn; [lia|].
  destruct skip; [|apply IH]. destruct (_ && _); [|apply IH]. specialize (IH (length old - 1)%nat (Some c)). lia.
Qed.

(** Nothing replaced, nothing changed. *)
Lemma count_where_0 old new valid skip prev s :
  skip = 0%nat → count_where old valid skip prev s = 0 → subst_where old new valid skip prev s = s.
Proof.
  revert skip prev. induction s as [|c s IH]; intros skip prev ->; cbn; [done|].
  destruct (_ && _); [|intros H; by rewrite IH].
  intros H. pose proof (count_where_nonneg old valid (length old - 1) (Some c) s). lia.
Qed.

(** [replace_str] replaces every occurrence, from left to right, and stays
    inside the string it allocates. *)
Theorem replace_str_exact str old new :
  old ≠ [] → replace_str str old new = Ok (subst_where old new always 0 None str).
Proof.
  intros Hne. unfold replace_str. rewrite bool_decide_false by done.
  destruct (copy_all_subst old new (S (length str)) str None Hne) as [-> ->]; [lia|].
  destruct (Z.eqb_spec (count_where old always 0 None str) 0) as [E|_].
  - by rewrite count_where_0.
  - unfold store_string. rewrite (zlen_subst old new always Hne) by lia.
    replace (_ <? _) with false; [done|]. symmetry. apply Z.ltb_ge. lia.
Qed.

(** *** Occurrences that stand alone *)

(** A text none of whose proper prefixes is a suffix: its occurrences do not
    overlap. *)
Definition unbordered (old : text) : Prop :=
  ∀ k : nat, (0 < k < length old)%nat → drop k old ≠ take (length old - k) old.

Lemma unbordered_no_start old next :
  unbordered old → old ≠ [] → no_start old (drop 1 old) next.
Proof.
  intros Hu Hne b1 b2 Hb Hb2. apply not_true_iff_false. intros Hs.
  apply starts_with_spec in Hs as [r Hs].
  assert (b2 = drop (1 + length b1) old) as ->.
  { rewrite <- drop_drop, Hb. by rewrite drop_app_length. }
  set (k := (1 + length b1)%nat) in *.
  assert (k < length old)%nat as Hk.
  { destruct (Nat.lt_ge_cases k (length old)); [done|]. by rewrite drop_ge in Hb2. }
  apply (Hu k); [lia|]. apply (f_equal (take (length old - k))) in Hs.
  rewrite take_app_le in Hs by (rewrite length_drop; lia).
  rewrite take_ge in Hs by (rewrite length_drop; lia). rewrite Hs. by rewrite take_app_le by lia.
Qed.

Lemma count_valid_where old fuel p prev :
  unbordered old → old ≠ [] → (length p < fuel)%nat →
  count_valid fuel prev p old = count_where old standalone 0 prev p.
Proof.
  intros Hu Hne. revert p prev. induction fuel as [|fuel IH]; intros p prev Hl; [lia|].
  cbn [count_valid]. destruct (strstr p old) as [[b q]|] eqn:E.
  - apply strstr_no_start in E as (-> & Hb & next & ->). rewrite drop_app_length.
    rewrite count_before, count_at by done. rewrite !length_app in Hl.
    assert (length old ≠ 0%nat) by (by destruct old). rewrite IH by lia.
    destruct (standalone _ _); [done|]. rewrite drop_app_le by lia.
    rewrite count_before by (by apply unbordered_no_start).
    f_equal. destruct old as [|c l]; [done|]. cbn. rewrite drop_0.
    by rewrite (prev_char_cons None), (prev_char_old (c :: l)).
  - apply strstr_none_start in E. by destruct (no_occurrence_subst old [] standalone p prev E) as [_ ->].
Qed.

(** An occurrence that does not stand alone is neither at the head of the text
    nor right behind another one. *)
Definition no_loss (old str : text) : Prop :=
  ∀ a c, str = a ++ old ++ c → standalone (last a) c = false → a ≠ [] ∧ ∀ a', a ≠ a' ++ old.

(** Where the copying loop can stand. *)
Definition reached (old a p : text) : Prop :=
  a = [] ∨ (∃ a', a = a' ++ old) ∨ (∃ a0 c, a = a0 ++ [c] ∧ starts_with old (c :: p) = true).

Lemma last_app_char (a : text) prev b : last a = prev → last (a ++ b) = prev_char prev b.
Proof.
  intros <-. unfold prev_char. destruct b as [|c b]; [by rewrite app_nil_r|]. by rewrite last_app.
Qed.

Lemma unbordered_no_repeat old next c :
  unbordered old → old ≠ [] → starts_with old (c :: old ++ next) = true → old = [c].
Proof.
  intros Hu Hne Hs. destruct old as [|d [|e l]] eqn:Eo; [done|..].
  - apply starts_with_spec in Hs as [r Hs]. by simplify_eq/=.
  - rewrite <- Eo in *. exfalso. apply (Hu 1%nat); [subst; cbn; lia|].
    apply starts_with_spec in Hs as [r Hs]. apply (f_equal (take (length old))) in Hs.
    rewrite take_app_length in Hs. rewrite Eo in Hs at 1. cbn [take length] in Hs.
    rewrite take_app_le in Hs by (subst; cbn; lia). rewrite <- Hs at 1. cbn [drop]. rewrite drop_0. by subst.
Qed.

Lemma copy_valid_subst old new str fuel a p :
  unbordered old → old ≠ [] → no_loss old str → str = a ++ p → reached old a p → (length p < fuel)%nat →
  copy_valid fuel (last a) p old new = subst_where old new standalone 0 (last a) p.
Proof.
  intros Hu Hne Hno. revert a p. induction fuel as [|fuel IH]; intros a p Hstr Hr Hl; [lia|].
  cbn [copy_valid]. destruct (strstr p old) as [[b q]|] eqn:E.
  2:{ apply strstr_none_start in E. by destruct (no_occurrence_subst old new standalone p (last a) E) as [-> _]. }
  apply strstr_no_start in E as (-> & Hb & next & ->). rewrite drop_app_length.
  rewrite subst_before, subst_at by done. rewrite !length_app in Hl.
  assert (length old ≠ 0%nat) by (by destruct old).
  pose proof (last_app_char a (last a) b eq_refl) as Hlast. rewrite <- Hlast.
  destruct (standalone _ _) eqn:Ev.
  - f_equal. f_equal. pose proof (IH (a ++ b ++ old) next) as IH'. rewrite !app_assoc in IH'.
    rewrite (last_app_char (a ++ b) _ old eq_refl), prev_char_old in IH' by done.
    apply IH'; [by rewrite Hstr, <- !app_assoc| |lia]. right. left. by exists (a ++ b).
  - destruct (Hno (a ++ b) next) as [Hne1 Hne2]; [by rewrite Hstr, <- app_assoc|done|].
    rewrite bool_decide_false.
    2:{ intros ->. rewrite app_nil_r in Hne1, Hne2. destruct Hr as [->|[[a' ->]|(a0 & c & -> & Hs)]]; [done|by eapply Hne2|].
        by apply (unbordered_no_repeat old next c Hu Hne) in Hs as ->; eapply Hne2. }
    rewrite <- app_assoc. f_equal. f_equal. destruct old as [|d l] eqn:Eo; [done|].
    cbn [app take drop head]. rewrite drop_0.
    pose proof (IH (a ++ b ++ [d]) (l ++ next)) as IH'. rewrite (app_assoc a b [d]), last_snoc in IH'.
    apply IH'; [by rewrite Hstr, <- !app_assoc| |cbn in *; rewrite length_app; lia].
    right. right. exists (a ++ b), d. split; [done|]. apply (starts_with_app (d :: l) next).
Qed.

(** [simple_replace] replaces exactly the occurrences that stand alone, for a
    pattern that cannot overlap itself, in a text in which an occurrence that
    does not stand alone is not at the head and not right behind another one. *)
Theorem simple_replace_exact str old new :
  old ≠ [] → unbordered old → no_loss old str →
  simple_replace str old new = Ok (subst_where old new standalone 0 None str).
Proof.
  intros Hne Hu Hno. unfold simple_replace. rewrite bool_decide_false by done.
  rewrite count_valid_where by (done || lia).
  pose proof (copy_valid_subst old new str (S (length str)) [] str Hu Hne Hno eq_refl) as E. cbn [last] in E.
  rewrite E by (by left || lia).
  destruct (Z.eqb_spec (count_where old standalone 0 None str) 0) as [E0|_]; [by rewrite count_where_0|].
  unfold store_string. rewrite (zlen_subst old new standalone Hne) by lia.
  replace (_ <? _) with false; [done|]. symmetry. apply Z.ltb_ge. lia.
Qed.

(** ** Templates *)

(** What the scan of a string literal takes in one step: a character, a doubled
    quote, or a backslash with the character behind it. *)
Inductive string_unit := LitChar (c : ascii) | LitQuote | LitEscape (c : ascii).

Definition render_unit (u : string_unit) : text :=
  match u with LitChar c => [c] | LitQuote => [QUOTE; QUOTE] | LitEscape c => [BACKSLASH; c] end.
Definition render_units (body : list string_unit) : text := concat (render_unit <$> body).

(** The tokens of a query as it is scanned: characters that are copied, string
    literals, number literals (digits of an identifier without quotes among
    them), and identifiers in double quotes. *)
Inductive token :=
  | Plain (c : ascii)
  | StringLiteral (body : list string_unit)
  | NumberLiteral (d : ascii) (rest : text)
  | Identifier (body : text).

Definition render (t : token) : text :=
  match t with
  | Plain c => [c]
  | StringLiteral body => [QUOTE] ++ render_units body ++ [QUOTE]
  | NumberLiteral d rest => d :: rest
  | Identifier body => [DQUOTE] ++ body ++ [DQUOTE]
  end.

(** What the template has for a token. *)
Definition abstracted (t : token) : text :=
  match t with
  | Plain c => [c]
  | StringLiteral _ => [QUOTE] ++ text_of "&&&" ++ [QUOTE]
  | NumberLiteral _ _ => ["#"%char]
  | Identifier body => [DQUOTE] ++ body ++ [DQUOTE]
  end.

Definition plain_char (c : ascii) : bool :=
  negb (ascii_eqb c BACKSLASH || ascii_eqb c DQUOTE || ascii_eqb c BACKTICK || ascii_eqb c QUOTE || is_digit c).

Definition identifier_char (c : ascii) : bool :=
  negb (ascii_eqb c BACKSLASH || ascii_eqb c DQUOTE || ascii_eqb c BACKTICK).

Definition unit_ok (u : string_unit) : bool :=
  match u with LitChar c => negb (ascii_eqb c BACKSLASH || ascii_eqb c QUOTE) | _ => true end.

Definition token_ok (t : token) : bool :=
  match t with
  | Plain c => plain_char c
  | StringLiteral body => forallb unit_ok body
  | NumberLiteral d rest => is_digit d && forallb is_number_char rest
  | Identifier body => forallb identifier_char body
  end.

(** A literal ends where it should: what follows does not continue it. *)
Definition ends_before (t : token) (next : text) : bool :=
  match t with
  | StringLiteral _ => negb (next_is (ascii_eqb QUOTE) next)
  | NumberLiteral _ _ => negb (next_is is_number_char next)
  | _ => true
  end.

Fixpoint tokens_ok (ts : list token) : bool :=
  match ts with
  | [] => true
  | t :: ts => token_ok t && ends_before t (concat (render <$> ts)) && tokens_ok ts
  end.

Definition render_all (ts : list token) : text := concat (render <$> ts).
Definition abstract_all (ts : list token) : text := concat (abstracted <$> ts).

Lemma skip_string_length delim i s i' q : skip_string delim i s = Ok (i', q) → (length q ≤ length s)%nat.
Proof.
  remember (length s) as n eqn:En. assert (length s ≤ n)%nat as Hn by lia. clear En.
  revert i s Hn. induction n as [n IH] using lt_wf_ind. intros i [|c s] Hn; cbn in *; [naive_solver|].
  destruct (negb _); [intros [= <- <-]; cbn; lia|].
  destruct (ascii_eqb c BACKSLASH).
  { destruct s as [|d s]; [done|]. intros H. cbn in Hn. apply (IH (n - 2)%nat) in H; lia. }
  destruct (ascii_eqb c delim).
  - destruct s as [|d s]; [intros [= <- <-]; cbn; lia|]. destruct (ascii_eqb d delim).
    + intros H. cbn in Hn. apply (IH (n - 2)%nat) in H; lia.
    + intros [= <- <-]. cbn in *. lia.
  - intros H. apply (IH (n - 1)%nat) in H; lia.
Qed.

Lemma skip_number_length i s i' q : skip_number i s = (i', q) → (length q ≤ length s)%nat.
Proof.
  revert i. induction s as [|c s IH]; intros i; cbn; [naive_solver|].
  destruct (is_number_char c); [intros H; apply IH in H; lia|intros [= <- <-]; cbn; lia].
Qed.

Lemma skip_hex_length i s i' q : skip_hex i s = (i', q) → (length q ≤ length s)%nat.
Proof.
  revert i. induction s as [|c s IH]; intros i; cbn; [naive_solver|].
  destruct (_ || _); [intros [= <- <-]; cbn; lia|intros H; apply IH in H; lia].
Qed.

(** The loop consumes at least a character in each round, so [length query]
    rounds are enough: more fuel changes nothing. *)
Lemma extract_loop_fuel f1 f2 ident escaped i query template :
  (length query ≤ f1)%nat → (length query ≤ f2)%nat →
  extract_loop f1 ident escaped i query template = extract_loop f2 ident escaped i query template.
Proof.
  revert f2 ident escaped i query template.
  induction f1 as [|f1 IH]; intros f2 ident escaped i [|c s] template H1 H2; cbn in H1, H2;
    [destruct f2; done|lia|destruct f2; done|].
  destruct f2 as [|f2]; [lia|]. cbn [extract_loop].
  destruct (negb _); [done|]. destruct escaped; [apply IH; lia|].
  destruct (ascii_eqb c BACKSLASH); [apply IH; lia|].
  destruct (ascii_eqb c DQUOTE || ascii_eqb c BACKTICK); [apply IH; lia|].
  destruct ident; [apply IH; lia|].
  destruct (ascii_eqb c QUOTE || ascii_eqb c DQUOTE).
  { destruct (skip_string c (i + 1) s) as [[i' q]| |] eqn:E; cbn; [|done..].
    apply skip_string_length in E. destruct q as [|d q]; cbn in E; [apply IH; cbn; lia|].
    destruct (ascii_eqb d c); apply IH; cbn; lia. }
  destruct (is_digit c) eqn:Ed.
  { cbn [skip_number]. unfold is_number_char at 1 2. rewrite Ed. cbn [orb].
    destruct (skip_number (i + 1) s) as [i' q] eqn:E. apply skip_number_length in E. apply IH; lia. }
  destruct (_ && _); [|apply IH; lia]. destruct s as [|d s]; [apply IH; cbn; lia|].
  destruct (skip_hex (i + 2) s) as [i' q] eqn:E. apply skip_hex_length in E. cbn in *. apply IH; lia.
Qed.

(** [extract_constant_tokens] terminates: its loop ends within [length query]
    rounds, whatever the query, so that a larger bound gives the same template. *)
Theorem extract_constant_tokens_total query fuel :
  (length query ≤ fuel)%nat →
  extract_loop fuel false false 0 query [] = extract_constant_tokens query.
Proof. intros. by apply extract_loop_fuel. Qed.

Lemma skip_string_literal body i q :
  forallb unit_ok body = true →
  next_is (ascii_eqb QUOTE) q = false → i + zlen (render_units body) < MAX_QUERY_LENGTH →
  skip_string QUOTE i (render_units body ++ QUOTE :: q) = Ok (i + zlen (render_units body), QUOTE :: q).
Proof.
  revert i. induction body as [|u body IH]; intros i Hb Hq Hi.
  - change (render_units []) with ([] : text) in *. rewrite zlen_nil in *. cbn [app skip_string].
    replace (i <? _) with true by (symmetry; apply Z.ltb_lt; lia). cbn [negb].
    change (ascii_eqb QUOTE BACKSLASH) with false. change (ascii_eqb QUOTE QUOTE) with true. cbv iota.
    destruct q as [|d q]; [do 2 f_equal; lia|]. unfold next_is, ascii_eqb in *.
    rewrite Ascii.eqb_sym, Hq. do 2 f_equal. lia.
  - cbn [forallb] in Hb. apply andb_true_iff in Hb as [Hu Hb].
    change (render_units (u :: body)) with (render_unit u ++ render_units body) in *.
    rewrite zlen_app in *. pose proof (zlen_nonneg (render_units body)).
    destruct u as [c| |c]; cbn [render_unit app unit_ok] in *; rewrite ?zlen_cons, ?zlen_nil in *; cbn [skip_string];
      replace (i <? _) with true by (symmetry; apply Z.ltb_lt; lia); cbn [negb].
    + apply negb_true_iff, orb_false_iff in Hu as [-> ->]. rewrite IH by (done || lia). do 2 f_equal. lia.
    + change (ascii_eqb QUOTE BACKSLASH) with false. change (ascii_eqb QUOTE QUOTE) with true. cbv iota.
      rewrite IH by (done || lia). do 2 f_equal. lia.
    + change (ascii_eqb BACKSLASH BACKSLASH) with true. cbv iota. rewrite IH by (done || lia). do 2 f_equal. lia.
Qed.

Lemma skip_number_literal rest i q :
  forallb is_number_char rest = true → next_is is_number_char q = false →
  skip_number i (rest ++ q) = (i + zlen rest, q).
Proof.
  revert i. induction rest as [|c rest IH]; intros i Hr Hq.
  - rewrite zlen_nil, Z.add_0_r. destruct q as [|d q]; [done|]. cbn in Hq |- *. by rewrite Hq.
  - cbn in Hr |- *. apply andb_true_iff in Hr as [-> Hr]. rewrite IH by done. rewrite zlen_cons. f_equal. lia.
Qed.

Lemma extract_identifier body fuel i q template :
  forallb identifier_char body = true → (length (body ++ DQUOTE :: q) ≤ fuel)%nat →
  i + zlen body + 1 ≤ MAX_QUERY_LENGTH →
  extract_loop fuel true false i (body ++ DQUOTE :: q) template =
  extract_loop (length q) false false (i + zlen body + 1) q (template ++ body ++ [DQUOTE]).
Proof.
  revert fuel i template. induction body as [|c body IH]; intros [|fuel] i template Hb Hf Hi;
    [cbn in Hf; lia| |cbn in Hf; lia|].
  - rewrite zlen_nil in *. cbn [app extract_loop].
    replace (i <? _) with true by (symmetry; apply Z.ltb_lt; lia). cbn [negb].
    change (ascii_eqb DQUOTE BACKSLASH) with false. change (ascii_eqb DQUOTE DQUOTE) with true.
    cbn [orb negb]. rewrite Z.add_0_r. apply extract_loop_fuel; [cbn in Hf; lia|done].
  - cbn [forallb] in Hb. apply andb_true_iff in Hb as [Hc Hb].
    unfold identifier_char in Hc. rewrite negb_true_iff, !orb_false_iff in Hc.
    destruct Hc as [[Hc1 Hc2] Hc3]. rewrite zlen_cons in *. pose proof (zlen_nonneg body).
    cbn [app extract_loop]. replace (i <? _) with true by (symmetry; apply Z.ltb_lt; lia). cbn [negb].
    rewrite Hc1, Hc2, Hc3. cbn [orb]. rewrite IH by (done || lia || (cbn in Hf; lia)).
    rewrite <- app_assoc. f_equal. lia.
Qed.

Lemma extract_token t fuel i q template :
  token_ok t = true → ends_before t q = true → (length (render t ++ q) ≤ fuel)%nat →
  i + zlen (render t) ≤ MAX_QUERY_LENGTH →
  extract_loop fuel false false i (render t ++ q) template =
  extract_loop (length q) false false (i + zlen (render t)) q (template ++ abstracted t).
Proof.
  intros Ht Hq Hf Hi. destruct fuel as [|fuel]; [destruct t; cbn in Hf; lia|].
  assert ((i <? MAX_QUERY_LENGTH) = true) as Hlt.
  { apply Z.ltb_lt. destruct t; cbn [render app] in Hi; rewrite zlen_cons in Hi;
      match type of Hi with context [zlen ?l] => pose proof (zlen_nonneg l) end; lia. }
  destruct t as [c|body|d rest|body]; cbn [render app extract_loop abstracted token_ok ends_before] in *;
    rewrite Hlt; cbn [negb].
  - unfold plain_char in Ht. rewrite negb_true_iff, !orb_false_iff in Ht.
    destruct Ht as ((((H1 & H2) & H3) & H4) & H5). rewrite H1, H2, H3, H4, H5. cbn [orb].
    rewrite zlen_cons, zlen_nil, Z.add_0_r. cbn [length] in Hf.
    destruct ((_ || _) && _) eqn:E; [|apply extract_loop_fuel; lia].
    destruct q as [|d q]; [by rewrite andb_false_r in E|].
    assert (ascii_eqb c "0" = false) as H0.
    { destruct (ascii_eqb c "0") eqn:E0; [|done]. apply ascii_eqb_spec in E0. by subst c. }
    rewrite H0 in E. cbn [next_is] in E. destruct (ascii_eqb QUOTE d) eqn:Eq; [|by rewrite !andb_false_r in E].
    apply ascii_eqb_spec in Eq as <-. by rewrite andb_false_r in E.
  - change (ascii_eqb QUOTE BACKSLASH) with false. change (ascii_eqb QUOTE DQUOTE) with false.
    change (ascii_eqb QUOTE BACKTICK) with false. change (ascii_eqb QUOTE QUOTE) with true. cbn [orb].
    apply negb_true_iff in Hq. rewrite zlen_cons, zlen_app, zlen_cons, zlen_nil in *.
    rewrite <- (app_assoc (render_units _)) in *. cbn [app] in *. rewrite skip_string_literal by (done || lia).
    cbn [outcome_bind mbind]. rewrite <- app_assoc. cbn [length] in Hf. rewrite length_app in Hf. cbn in Hf.
    change (ascii_eqb QUOTE QUOTE) with true. cbv iota. rewrite extract_loop_fuel with (f2 := length q) by lia.
    f_equal. lia.
  - apply andb_true_iff in Ht as [Hd Hr]. apply negb_true_iff in Hq.
    assert (is_number_char d = true) as Hn by (unfold is_number_char; by rewrite Hd).
    assert (∀ e, ascii_eqb d e = true → is_digit e = true) as He.
    { intros e E. apply ascii_eqb_spec in E as <-. done. }
    destruct (ascii_eqb d BACKSLASH) eqn:E1; [by apply He in E1|].
    destruct (ascii_eqb d DQUOTE) eqn:E2; [by apply He in E2|].
    destruct (ascii_eqb d BACKTICK) eqn:E3; [by apply He in E3|].
    destruct (ascii_eqb d QUOTE) eqn:E4; [by apply He in E4|]. cbn [orb].
    rewrite Hd. pose proof (skip_number_literal (d :: rest) i q) as E. cbn [app forallb] in E.
    rewrite E by (by rewrite ?Hn, ?Hr). apply extract_loop_fuel; [|done]. cbn in Hf. rewrite length_app in Hf. lia.
  - change (ascii_eqb DQUOTE BACKSLASH) with false. change (ascii_eqb DQUOTE DQUOTE) with true. cbn [orb negb].
    rewrite zlen_cons, zlen_app, zlen_cons, zlen_nil in *. rewrite <- app_assoc in *. cbn [app] in *.
    rewrite extract_identifier by (done || lia || (cbn in Hf; lia)). rewrite <- app_assoc. f_equal. lia.
Qed.

Lemma extract_tokens ts i template :
  tokens_ok ts = true → i + zlen (render_all ts) ≤ MAX_QUERY_LENGTH →
  extract_loop (length (render_all ts)) false false i (render_all ts) template =
  Ok (template ++ abstract_all ts).
Proof.
  revert i template. induction ts as [|t ts IH]; intros i template Ht Hi; [cbn; by rewrite app_nil_r|].
  cbn [tokens_ok] in Ht. apply andb_true_iff in Ht as [[Ht He]%andb_true_iff Hts].
  change (render_all (t :: ts)) with (render t ++ render_all ts) in *. rewrite zlen_app in Hi.
  pose proof (zlen_nonneg (render_all ts)). rewrite extract_token by (done || lia).
  rewrite IH by (done || lia). by rewrite <- app_assoc.
Qed.

(** What is left of a token when its constant is forgotten. *)
Inductive shape := PlainShape (c : ascii) | StringShape | NumberShape | IdentifierShape (body : text).
Definition shape_of (t : token) : shape :=
  match t with
  | Plain c => PlainShape c
  | StringLiteral _ => StringShape
  | NumberLiteral _ _ => NumberShape
  | Identifier body => IdentifierShape body
  end.

Lemma abstract_shape ts ts' : shape_of <$> ts = shape_of <$> ts' → abstract_all ts = abstract_all ts'.
Proof.
  revert ts'. induction ts as [|t ts IH]; intros [|t' ts'] E; try done. cbn in E. injection E as Et E.
  unfold abstract_all in *. cbn. rewrite (IH ts' E). f_equal. by destruct t, t'; cbn in *; simplify_eq.
Qed.

(** C35. The template of a query of at most [MAX_QUERY_LENGTH] bytes copies its text,
    with [&&&] for the body of each string literal and [#] for each number, so
    that two queries that differ only in these have the same template. Literals
    are what the scan takes for them: in a string literal a backslash takes the
    character behind it along, also a quote, and the digits of an identifier
    without quotes are a number. *)
Theorem template_independent_of_constants ts ts' :
  tokens_ok ts = true → tokens_ok ts' = true → shape_of <$> ts = shape_of <$> ts' →
  zlen (render_all ts) ≤ MAX_QUERY_LENGTH → zlen (render_all ts') ≤ MAX_QUERY_LENGTH →
  extract_constant_tokens (render_all ts) = Ok (abstract_all ts) ∧
  normalize_query (Some (render_all ts)) = normalize_query (Some (render_all ts')).
Proof.
  intros H1 H2 Hs L1 L2. unfold normalize_query, extract_constant_tokens.
  rewrite !extract_tokens by (done || lia). split; [done|]. by rewrite <- (abstract_shape ts ts' Hs).
Qed.

(** ** White space *)

(** No white space but single blanks between other characters; [prev] is the
    character before, [None] at the head. *)
Fixpoint single_blanks (prev : option ascii) (s : text) : bool :=
  match s with
  | [] => match prev with Some c => negb (is_space c) | None => true end
  | c :: s =>
      (if is_space c
       then ascii_eqb c " " && match prev with Some p => negb (is_space p) | None => false end
       else true) && single_blanks (Some c) s
  end.

(** The same without the condition at the end. *)
Fixpoint blanks_inside (prev : option ascii) (s : text) : bool :=
  match s with
  | [] => true
  | c :: s =>
      (if is_space c
       then ascii_eqb c " " && match prev with Some p => negb (is_space p) | None => false end
       else true) && blanks_inside (Some c) s
  end.

Definition ends_blank (s : text) : bool := match last s with Some c => is_space c | None => false end.

Lemma blanks_inside_snoc s prev c :
  blanks_inside prev (s ++ [c]) =
  blanks_inside prev s &&
  (if is_space c
   then ascii_eqb c " " && match prev_char prev s with Some p => negb (is_space p) | None => false end
   else true).
Proof.
  revert prev. induction s as [|d s IH]; intros prev; [cbn; by rewrite andb_true_r|].
  cbn [app blanks_inside]. rewrite IH, <- andb_assoc. by rewrite (prev_char_cons prev).
Qed.

Lemma squeeze_blanks_inside in_space template normalized :
  blanks_inside None normalized = true → (in_space = false → ends_blank normalized = false) →
  blanks_inside None (squeeze in_space template normalized) = true.
Proof.
  revert in_space normalized. induction template as [|c template IH]; intros in_space normalized Hb He; [done|].
  cbn [squeeze]. destruct (is_space c) eqn:Ec.
  - destruct in_space; cbn [negb andb]; [by apply IH|].
    destruct (bool_decide_reflect (normalized = [])) as [->|Hne]; cbn [negb]; [by apply IH|].
    apply IH; [|done]. rewrite blanks_inside_snoc, Hb. cbn.
    specialize (He eq_refl). unfold ends_blank in He. unfold prev_char.
    destruct (last normalized) eqn:El; [by rewrite He|]. by apply last_None in El.
  - apply IH; [by rewrite blanks_inside_snoc, Hb, Ec|]. intros _. unfold ends_blank. by rewrite last_snoc.
Qed.

Lemma single_blanks_inside s prev :
  single_blanks prev s =
  blanks_inside prev s && match prev_char prev s with Some c => negb (is_space c) | None => true end.
Proof.
  revert prev. induction s as [|d s IH]; intros prev; [done|]. cbn [single_blanks blanks_inside].
  rewrite IH, <- andb_assoc. by rewrite (prev_char_cons prev).
Qed.

(** A template has no leading or trailing white space, and no white space but
    single blanks inside: queries laid out differently share their template. *)
Theorem normalize_query_single_blanks query template :
  normalize_query (Some query) = Ok (Some template) → single_blanks None template = true.
Proof.
  cbn. destruct (extract_constant_tokens query) as [t| |]; cbn; intros H; [|done..]. simplify_eq.
  pose proof (squeeze_blanks_inside false t [] eq_refl (λ _, eq_refl)) as Hb.
  set (s := squeeze false t []) in *. clearbody s. rewrite single_blanks_inside. unfold drop_last_blank.
  destruct s as [|c s _] using rev_ind; [done|]. rewrite last_snoc.
  rewrite blanks_inside_snoc in Hb. apply andb_true_iff in Hb as [Hb Hc].
  destruct (ascii_eqb c " ") eqn:Ec.
  - rewrite length_app, Nat.add_sub, take_app_length. rewrite Hb.
    apply ascii_eqb_spec in Ec as ->. cbn in Hc |- *. by destruct (prev_char None s).
  - rewrite blanks_inside_snoc, Hb, Ec. unfold prev_char. rewrite last_snoc. by destruct (is_space c).
Qed.

(** ** Reading the log back *)

(** A reader of comma-separated values: quoted fields may hold any character,
    with quotes doubled; a record ends at a line end outside quotes. *)
Inductive csv_state := FieldStart | Unquoted | Quoted | QuoteSeen.

Fixpoint csv_records (st : csv_state) (field : text) (record : list text) (s : text) : list (list text) :=
  match s with
  | [] => []
  | c :: s =>
      let separator (_ : unit) :=
        if ascii_eqb c "," then csv_records FieldStart [] (record ++ [field]) s
        else if ascii_eqb c NEWLINE then (record ++ [field]) :: csv_records FieldStart [] [] s
        else csv_records Unquoted (field ++ [c]) record s in
      match st with
      | FieldStart => if ascii_eqb c DQUOTE then csv_records Quoted field record s else separator ()
      | Unquoted => separator ()
      | Quoted => if ascii_eqb c DQUOTE then csv_records QuoteSeen field record s
                  else csv_records Quoted (field ++ [c]) record s
      | QuoteSeen => if ascii_eqb c DQUOTE then csv_records Quoted (field ++ [c]) record s else separator ()
      end
  end.
Definition csv_read (file : text) : list (list text) := csv_records FieldStart [] [] file.

(** A field that needs no quotes. *)
Definition bare_char (c : ascii) : bool :=
  negb (ascii_eqb c "," || ascii_eqb c NEWLINE || ascii_eqb c DQUOTE).

Lemma csv_bare_field st f field record s :
  st = FieldStart ∨ st = Unquoted → forallb bare_char f = true →
  csv_records st field record (f ++ ","%char :: s) = csv_records FieldStart [] (record ++ [field ++ f]) s.
Proof.
  revert st field. induction f as [|c f IH]; intros st field Hst Hf.
  - rewrite app_nil_r. by destruct Hst as [-> | ->].
  - cbn [forallb] in Hf. apply andb_true_iff in Hf as [Hc Hf].
    unfold bare_char in Hc. rewrite negb_true_iff, !orb_false_iff in Hc. destruct Hc as [[H1 H2] H3].
    cbn [app csv_records]. rewrite H1, H2, H3.
    destruct Hst as [-> | ->]; rewrite IH by (done || by right); by rewrite <- app_assoc.
Qed.

Lemma csv_quoted_body q field record s :
  csv_records Quoted field record (double_quotes q ++ DQUOTE :: s) =
  csv_records QuoteSeen (field ++ q) record s.
Proof.
  revert field. induction q as [|c q IH]; intros field; [by rewrite app_nil_r|]. cbn [double_quotes].
  destruct (ascii_eqb c DQUOTE) eqn:E.
  - cbn [app csv_records]. change (ascii_eqb DQUOTE DQUOTE) with true. cbv iota.
    rewrite E, IH. by rewrite <- app_assoc.
  - cbn [app csv_records]. rewrite E, IH. by rewrite <- app_assoc.
Qed.

Lemma csv_line_read time hash template query s :
  forallb bare_char time = true → forallb bare_char hash = true →
  csv_records FieldStart [] [] (csv_line time hash template query ++ s) =
  [time; hash; template; query] :: csv_records FieldStart [] [] s.
Proof.
  intros Ht Hh. unfold csv_line. rewrite <- !app_assoc. cbn [text_of String.list_ascii_of_string app].
  rewrite csv_bare_field by (by auto). rewrite csv_bare_field by (by auto). cbn [app csv_records].
  change (ascii_eqb DQUOTE DQUOTE) with true. cbv iota. rewrite csv_quoted_body. cbn [app csv_records].
  change (ascii_eqb "," DQUOTE) with false. change (ascii_eqb "," ",") with true. cbv iota.
  change (ascii_eqb DQUOTE DQUOTE) with true. cbv iota. rewrite csv_quoted_body. cbn [app csv_records].
  done.
Qed.

Lemma hex_bare digest : (∀ b, b ∈ digest → 0 ≤ b < 256) → forallb bare_char (hex digest) = true.
Proof.
  assert (∀ d, 0 ≤ d < 16 → bare_char (hex_digit d) = true) as Hd.
  { intros d Hd. assert (∃ n : nat, d = Z.of_nat n ∧ (n < 16)%nat) as (n & -> & Hn) by (exists (Z.to_nat d); lia).
    do 16 (destruct n as [|n]; [done|]). lia. }
  induction digest as [|b digest IH]; intros H; [done|]. unfold hex. cbn.
  assert (0 ≤ b < 256) by (apply H; by left). pose proof (Z.mod_pos_bound b 16).
  rewrite !Hd; [|lia|split; [apply Z.div_pos; lia|apply Z.div_lt_upper_bound; lia]].
  apply IH. intros b' ?. apply H. by right.
Qed.

(** The log after a sequence of queries. *)
Fixpoint log_queries (env : log_env) (qs : list (text * Z)) (file : text) : outcome text :=
  match qs with
  | [] => Ok file
  | (query, timestamp) :: qs =>
      file ← workload_forecast_post_parse_analyze true true env (Some query) timestamp file;
      log_queries env qs file
  end.

(** The record a query should leave. *)
Definition log_record (env : log_env) (q : text * Z) : list (list text) :=
  if is_select_query q.1 then
    match normalize_query (Some q.1) with
    | Ok (Some template) => [[time_string env q.2; compute_template_hash env template; template; q.1]]
    | _ => []
    end
  else [].

Section workload_log.

Context (env : log_env).
(** MD5 yields bytes, and the date format has no commas, quotes or line ends. *)
Context (MD5_bytes : ∀ t b, b ∈ MD5 env t → 0 ≤ b < 256).
Context (localtime_bare : ∀ secs t, localtime env secs = Some t → forallb bare_char t = true).
Context (fopen_succeeds : fopen_ok env = true).

Lemma time_string_bare timestamp : forallb bare_char (time_string env timestamp) = true.
Proof. unfold time_string. destruct (localtime env _) eqn:E; [by eapply localtime_bare|done]. Qed.

Lemma log_query_appends query timestamp file file' :
  query_logger_log_query env query timestamp file = Ok file' →
  file' = file ∧ log_record env (query, timestamp) = [] ∨
  ∃ r record, file' = (if bool_decide (file = []) then csv_header else file) ++ r ∧
    log_record env (query, timestamp) = [record] ∧
    ∀ s, csv_records FieldStart [] [] (r ++ s) = record :: csv_records FieldStart [] [] s.
Proof.
  unfold query_logger_log_query, log_record. cbn [fst snd]. rewrite fopen_succeeds.
  destruct (is_select_query query); cbn [negb]; [|intros [= <-]; by left].
  destruct (normalize_query (Some query)) as [[template|]| |] eqn:E; cbn; intros H; simplify_eq; [right|by left].
  eexists _, _. split; [done|]. split; [done|]. intros s. rewrite csv_line_read; [done|apply time_string_bare|apply hex_bare; eauto].
Qed.

(** A file of whole records. *)
Definition holds (file : text) (records : list (list text)) : Prop :=
  ∀ s, csv_records FieldStart [] [] (file ++ s) = records ++ csv_records FieldStart [] [] s.

Lemma holds_read file records : holds file records → csv_read file = records.
Proof. intros H. specialize (H []). by rewrite !app_nil_r in H. Qed.

Definition column_names : list text :=
  [text_of "timestamp"; text_of "template_hash"; text_of "template"; text_of "original_query"].

Lemma header_holds : holds csv_header [column_names].
Proof. intros s. reflexivity. Qed.

Lemma log_queries_hold qs file file' records :
  file ≠ [] → holds file records → (∀ q, q ∈ qs → q.1 ≠ []) → log_queries env qs file = Ok file' →
  holds file' (records ++ concat (log_record env <$> qs)).
Proof.
  revert file records. induction qs as [|[query timestamp] qs IH]; intros file records Hne Hh Hq; cbn.
  { intros [= <-]. by rewrite app_nil_r. }
  destruct query as [|c query]; [exfalso; by apply (Hq ([], timestamp)); [left|]|].
  destruct (query_logger_log_query env (c :: query) timestamp file) as [f| |] eqn:E; cbn; [|done..].
  assert (∀ q, q ∈ qs → q.1 ≠ []) as Hq' by (intros q ?; apply Hq; by right).
  apply log_query_appends in E as [[-> ->]|(r & record & -> & -> & Hs)]; [by apply IH|].
  rewrite bool_decide_false by done. intros H. rewrite app_assoc.
  eapply IH in H; [done|by destruct file|intros s; by rewrite <- !app_assoc, Hh, Hs|done].
Qed.

Lemma log_queries_from_empty qs file' :
  (∀ q, q ∈ qs → q.1 ≠ []) → log_queries env qs [] = Ok file' →
  csv_read file' =
    match concat (log_record env <$> qs) with [] => [] | records => column_names :: records end.
Proof.
  induction qs as [|[query timestamp] qs IH]; intros Hq; cbn; [by intros [= <-]|].
  destruct query as [|c query]; [exfalso; by apply (Hq ([], timestamp)); [left|]|].
  destruct (query_logger_log_query env (c :: query) timestamp []) as [f| |] eqn:E; cbn; [|done..].
  assert (∀ q, q ∈ qs → q.1 ≠ []) as Hq' by (intros q ?; apply Hq; by right).
  apply log_query_appends in E as [[-> ->]|(r & record & -> & -> & Hs)]; [by apply IH|].
  rewrite bool_decide_true by done. intros H.
  eapply (log_queries_hold _ _ _ [column_names; record]) in H; [by apply holds_read in H|done| |done].
  intros s. by rewrite <- !app_assoc, header_holds, Hs.
Qed.

(** Queries without a backslash at the end of an open literal are logged. *)
Lemma log_queries_ok qs file :
  (∀ q, q ∈ qs → ∃ template, normalize_query (Some q.1) = Ok (Some template)) →
  ∃ file', log_queries env qs file = Ok file'.
Proof.
  revert file. induction qs as [|[query timestamp] qs IH]; intros file H; [by eexists|].
  destruct (H (query, timestamp)) as [template Ht]; [by left|]. cbn [fst] in Ht.
  assert (∃ f, workload_forecast_post_parse_analyze true true env (Some query) timestamp file = Ok f) as [f Ef].
  { destruct query as [|c query]; [by eexists|]. cbn [workload_forecast_post_parse_analyze negb].
    unfold query_logger_log_query. rewrite Ht, fopen_succeeds. destruct (negb _); by eexists. }
  cbn [log_queries]. rewrite Ef. cbn. apply IH. intros q ?. apply H. by right.
Qed.

(** C36. The workload log reads back: after any sequence of queries the file is a
    header and, in order, the time, hash, template and text of each SELECT,
    whatever quotes, commas and line ends the texts hold. *)
Theorem workload_log_roundtrip qs :
  (∀ q, q ∈ qs → q.1 ≠ []) →
  (∀ q, q ∈ qs → ∃ template, normalize_query (Some q.1) = Ok (Some template)) →
  ∃ file, log_queries env qs [] = Ok file ∧
    csv_read file =
      match concat (log_record env <$> qs) with [] => [] | records => column_names :: records end.
Proof.
  intros Hne Hok. destruct (log_queries_ok qs [] Hok) as [file E]. exists file. split; [done|].
  by apply log_queries_from_empty.
Qed.

End workload_log.

(** ** JSON strings *)

Definition unescape_char (c : ascii) : ascii :=
  if ascii_eqb c "n" then NEWLINE
  else if ascii_eqb c "r" then "013"%char
  else if ascii_eqb c "t" then "009"%char
  else c.

(** A reader of the body of a JSON string: its value and what follows the
    closing quote. *)
Fixpoint json_body (s : text) : option (text * text) :=
  match s with
  | [] => None
  | c :: s =>
      if ascii_eqb c DQUOTE then Some ([], s)
      else if ascii_eqb c BACKSLASH then
        match s with
        | d :: s => '(v, r) ← json_body s; Some (unescape_char d :: v, r)
        | [] => None
        end
      else '(v, r) ← json_body s; Some (c :: v, r)
  end.
Definition json_string (s : text) : option (text * text) :=
  match s with c :: s => if ascii_eqb c DQUOTE then json_body s else None | [] => None end.

Lemma json_body_escape s r : json_body (escape_chars s ++ DQUOTE :: r) = Some (s, r).
Proof.
  induction s as [|c s IH]; [done|]. cbn [escape_chars]. rewrite <- app_assoc. unfold escape_char.
  destruct (ascii_eqb c DQUOTE) eqn:E1; [apply ascii_eqb_spec in E1 as ->; cbn; by rewrite IH|].
  destruct (ascii_eqb c BACKSLASH) eqn:E2; [apply ascii_eqb_spec in E2 as ->; cbn; by rewrite IH|].
  destruct (ascii_eqb c NEWLINE) eqn:E3; [apply ascii_eqb_spec in E3 as ->; cbn; by rewrite IH|].
  destruct (ascii_eqb c "013") eqn:E4; [apply ascii_eqb_spec in E4 as ->; cbn; by rewrite IH|].
  destruct (ascii_eqb c "009") eqn:E5; [apply ascii_eqb_spec in E5 as ->; cbn; by rewrite IH|].
  cbn [app json_body]. rewrite E1, E2. by rewrite IH.
Qed.

Lemma zlen_escape_chars s : zlen (escape_chars s) ≤ 2 * zlen s.
Proof.
  induction s as [|c s IH]; [done|]. cbn [escape_chars]. rewrite zlen_app, zlen_cons.
  assert (zlen (escape_char c) ≤ 2); [|lia]. unfold escape_char. by repeat case_match.
Qed.

(** [escape_json_string] stays inside the buffer it allocates, and reading
    the JSON string gives the text back, up to the closing quote. *)
Theorem escape_json_string_roundtrip str r :
  ∃ e, escape_json_string str = Ok e ∧ json_string (e ++ r) = Some (str, r).
Proof.
  exists ([DQUOTE] ++ escape_chars str ++ [DQUOTE]). split.
  - unfold escape_json_string, store_string. rewrite !zlen_app, !zlen_cons, !zlen_nil.
    pose proof (zlen_escape_chars str). replace (_ <? _) with false; [done|]. symmetry. apply Z.ltb_ge. lia.
  - rewrite <- !app_assoc. cbn [app json_string]. change (ascii_eqb DQUOTE DQUOTE) with true. cbv iota.
    apply json_body_escape.
Qed.

(** What the server posts, however, is not a JSON object: the value of the
    member query ends at once, since the escaped text is put between quotes again. *)
Lemma postdata_value_empty q p :
  postdata q = Ok p →
  ∃ rest, p = text_of "{" ++ [DQUOTE] ++ text_of "query" ++ [DQUOTE] ++ text_of ": " ++ rest ∧
    ∃ r, json_string rest = Some ([], r).
Proof.
  unfold postdata. destruct (escape_json_string_roundtrip q []) as (e & -> & He). cbn [mbind outcome_bind].
  intros [= <-]. eexists. split; [done|]. destruct e as [|c e]; [done|]. cbn [app json_string] in He.
  destruct (ascii_eqb c DQUOTE) eqn:E; [|done]. apply ascii_eqb_spec in E as ->. eexists. reflexivity.
Qed.

(** ** Rules that never apply *)

(** An occurrence at which a rule could apply. *)
Definition applies (old str : text) : Prop :=
  ∃ a next, str = a ++ old ++ next ∧ standalone (last a) next = true.

Lemma count_valid_none old str fuel a p :
  old ≠ [] → ¬ applies old str → str = a ++ p → count_valid fuel (last a) p old = 0.
Proof.
  intros Hne Hn. revert a p. induction fuel as [|fuel IH]; intros a p Hs; [done|]. cbn [count_valid].
  destruct (strstr p old) as [[b q]|] eqn:E; [|done].
  apply strstr_no_start in E as (-> & _ & next & ->). rewrite drop_app_length.
  rewrite <- (last_app_char a (last a) b eq_refl).
  destruct (standalone (last (a ++ b)) next) eqn:Ev.
  { exfalso. apply Hn. exists (a ++ b), next. by rewrite Hs, <- app_assoc. }
  pose proof (IH ((a ++ b) ++ old) next) as IH'.
  rewrite (last_app_char _ _ old eq_refl), prev_char_old in IH' by done.
  rewrite IH'; [done|]. by rewrite Hs, <- !app_assoc.
Qed.

Lemma simple_replace_none str old new : ¬ applies old str → simple_replace str old new = Ok str.
Proof.
  intros Hn. unfold simple_replace. destruct (bool_decide_reflect (old = [])); [done|].
  pose proof (count_valid_none old str (S (length str)) [] str) as E. cbn [last] in E. by rewrite E.
Qed.

Lemma replace_rules_none rules str :
  Forall (λ r, ¬ applies r.1 str) rules → replace_rules simple_replace rules str = Ok str.
Proof.
  induction rules as [|[old new] rules IH]; [done|]. intros (H & Hr)%Forall_cons. cbn.
  rewrite simple_replace_none by done. cbn. by apply IH.
Qed.

(** A pattern that starts with a blank needs another blank or an opening
    parenthesis in front of it, or the head of the text. *)
Lemma single_blanks_app a b prev : blanks_inside prev (a ++ b) = true → blanks_inside (prev_char prev a) b = true.
Proof.
  revert prev. induction a as [|c a IH]; intros prev; cbn; [done|]. intros [_ H]%andb_true_iff.
  apply IH in H. by rewrite (prev_char_cons prev) in H.
Qed.

(** No blank right behind an opening parenthesis. *)
Fixpoint no_open_blank (s : text) : bool :=
  match s with
  | c :: s' => negb (ascii_eqb c "(" && next_is is_space s') && no_open_blank s'
  | [] => true
  end.

Lemma no_open_blank_app a c s :
  no_open_blank (a ++ c :: s) = true → is_space c = true → last a ≠ Some "("%char.
Proof.
  induction a as [|d a IH]; cbn; [done|]. intros [H1 H2]%andb_true_iff Hc.
  destruct a as [|e a]; [|by apply IH]. cbn in H1. rewrite Hc in H1. destruct (ascii_eqb d "(") eqn:E; [done|].
  intros [= ->]. done.
Qed.

Lemma blank_pattern_never_applies str old :
  single_blanks None str = true → no_open_blank str = true → next_is is_space old = true → ¬ applies old str.
Proof.
  intros Hs Ho Hb (a & next & -> & Hst). destruct old as [|c old]; [done|]. cbn in Hb.
  rewrite single_blanks_inside in Hs. apply andb_true_iff in Hs as [Hs _].
  pose proof (no_open_blank_app a c (old ++ next) Ho Hb) as Ha.
  apply single_blanks_app in Hs. cbn [app blanks_inside] in Hs. rewrite Hb in Hs.
  apply andb_true_iff in Hs as [[_ Hp]%andb_true_iff _]. unfold prev_char in Hp.
  unfold standalone in Hst. destruct (last a) as [d|]; [|done]. apply negb_true_iff in Hp.
  rewrite Hp in Hst. destruct (ascii_eqb d "(") eqn:E; [|done]. by apply ascii_eqb_spec in E as ->.
Qed.

(** Each rule is for WHERE, with a blank in front, or for ORDER BY. *)
Lemma rules_of_kinds table_name :
  Forall (λ r, next_is is_space r.1 = true ∨ starts_with (text_of "ORDER BY ") r.1 = true) (rules_of table_name).
Proof.
  unfold rules_of. repeat case_match; [..|constructor];
    rewrite Forall_forall; intros r Hr; cbn in Hr;
    repeat (apply elem_of_cons in Hr as [->|Hr]; [by (left; reflexivity) || (right; reflexivity)|]);
    by apply elem_of_nil in Hr.
Qed.

(** The rewriting of WHERE clauses never happens for a query laid out with
    single blanks: the patterns start with a blank, and [simple_replace] wants
    another blank, or a parenthesis, before an occurrence. Without an ORDER BY
    such a query is returned unchanged, whatever its tables. *)
Theorem where_clauses_never_rewritten raw_parser query :
  single_blanks None query = true → no_open_blank query = true → strstr query (text_of "ORDER BY ") = None →
  rewrite_query_with_table_prefixes raw_parser query = Ok query.
Proof.
  intros Hs Ho Hord. unfold rewrite_query_with_table_prefixes.
  induction (raw_parser query) as [|[fromClause|] stmts IH]; cbn; [done| |done].
  destruct (bool_decide _); [done|]. unfold apply_simple_rewrites. destruct (table_names _) as [|t ts]; [done|].
  apply replace_rules_none. eapply Forall_impl; [apply rules_of_kinds|]. intros [old new] [H|H]; cbn [fst] in *.
  - by apply blank_pattern_never_applies.
  - intros (a & next & -> & _). apply starts_with_spec in H as [r ->].
    eapply strstr_None in Hord; [|reflexivity]. rewrite <- app_assoc, starts_with_app in Hord. done.
Qed.

(** ** Witnesses *)

Lemma replace_str_exact_witness :
  replace_str (text_of "a WHERE kind_id = 1 OR b WHERE kind_id = 2") (text_of "kind_id") (text_of "title.kind_id") =
  Ok (text_of "a WHERE title.kind_id = 1 OR b WHERE title.kind_id = 2").
Proof. rewrite replace_str_exact; [vm_compute; reflexivity|done]. Defined.

(** [unbordered] and [no_loss] by computation. *)
Definition unbordered_b (old : text) : bool :=
  forallb (λ k, negb (bool_decide (drop k old = take (length old - k) old))) (seq 1 (length old - 1)).

Lemma unbordered_b_spec old : unbordered_b old = true → unbordered old.
Proof.
  unfold unbordered_b. rewrite forallb_forall. intros H k Hk.
  specialize (H k). rewrite in_seq in H. specialize (H ltac:(lia)).
  by apply negb_true_iff, bool_decide_eq_false in H.
Qed.

Definition no_loss_b (old str : text) : bool :=
  forallb (λ k, let a := take k str in
                negb (starts_with old (drop k str)) || standalone (last a) (drop (length old) (drop k str)) ||
                (negb (bool_decide (a = [])) &&
                 negb (bool_decide (drop (length a - length old) a = old))))
    (seq 0 (S (length str))).

Lemma no_loss_b_spec old str : no_loss_b old str = true → no_loss old str.
Proof.
  unfold no_loss_b. rewrite forallb_forall. intros H a c -> Hst. specialize (H (length a)).
  rewrite in_seq, length_app in H. specialize (H ltac:(lia)). cbn zeta in H.
  rewrite take_app_length, !drop_app_length, starts_with_app, Hst in H. cbn [negb orb] in H.
  apply andb_true_iff in H as [H1%negb_true_iff%bool_decide_eq_false H2%negb_true_iff%bool_decide_eq_false].
  split; [done|]. intros a' ->. apply H2. rewrite length_app, Nat.add_sub. apply drop_app_length.
Qed.

Lemma simple_replace_exact_witness :
  simple_replace (text_of "SELECT * FROM t WHERE xkind_id = 1 AND kind_id = 2") (text_of "kind_id") (text_of "t.kind_id") =
  Ok (text_of "SELECT * FROM t WHERE xkind_id = 1 AND t.kind_id = 2").
Proof.
  rewrite simple_replace_exact; [vm_compute; reflexivity|done|..].
  - apply unbordered_b_spec. vm_compute. reflexivity.
  - apply no_loss_b_spec. vm_compute. reflexivity.
Defined.

Lemma extract_constant_tokens_total_witness :
  extract_loop 100 false false 0 (text_of "SELECT 'x' , 12.5") [] = Ok (text_of "SELECT '&&&' , #").
Proof. rewrite extract_constant_tokens_total; [vm_compute; reflexivity|cbn; lia]. Defined.

Definition plain_tokens (s : string) : list token := Plain <$> text_of s.

Lemma template_independent_of_constants_witness :
  let q1 := plain_tokens "SELECT " ++ [Identifier (text_of "my table 1")] ++ plain_tokens ".a WHERE b = " ++
            [StringLiteral [LitChar "i"; LitChar "t"; LitQuote; LitEscape "s"]] ++ plain_tokens " AND c > " ++ [NumberLiteral "1" (text_of "2.5")] in
  let q2 := plain_tokens "SELECT " ++ [Identifier (text_of "my table 1")] ++ plain_tokens ".a WHERE b = " ++
            [StringLiteral []] ++ plain_tokens " AND c > " ++ [NumberLiteral "7" []] in
  normalize_query (Some (render_all q1)) = normalize_query (Some (render_all q2)).
Proof. intros q1 q2. apply template_independent_of_constants; vm_compute; (reflexivity || done). Defined.

(** In SQL a backslash is an ordinary character of such a literal: two queries that
    differ only in a constant there have different templates here. *)
Example backslash_constant_differs :
  normalize_query (Some (text_of "SELECT a FROM t WHERE a = 'x" ++ BACKSLASH :: text_of "' AND b = 1")) ≠
  normalize_query (Some (text_of "SELECT a FROM t WHERE a = 'y' AND b = 1")).
Proof. vm_compute. discriminate. Qed.

(** And queries of different tables can share one. *)
Example table_digits_forgotten :
  normalize_query (Some (text_of "SELECT a FROM t1")) = normalize_query (Some (text_of "SELECT a FROM t2")).
Proof. vm_compute. reflexivity. Qed.

Lemma normalize_query_single_blanks_witness :
  single_blanks None (text_of "SELECT a FROM t WHERE b = '&&&'") = true.
Proof.
  apply (normalize_query_single_blanks ([NEWLINE] ++ text_of "  SELECT  a FROM t  WHERE b = 'x  y'  ")).
  vm_compute. reflexivity.
Defined.

(** A digest of sixteen bytes and a fixed date. *)
Definition example_log_env : log_env := mkLogEnv
  (λ t, (λ k, (Z.of_nat (length t) * k) `mod` 256) <$> seqZ 0 16)
  (λ _, Some (text_of "2024-05-01 12:00:00")) true.

Lemma workload_log_roundtrip_witness :
  let qs := [(text_of "SELECT " ++ [DQUOTE] ++ text_of "a" ++ [DQUOTE] ++ text_of ", 'x,y' FROM t", 0);
             (text_of "UPDATE t SET a = 1", 1); (text_of "select 2" ++ [NEWLINE] ++ text_of "from t", 2)] in
  ∃ file, log_queries example_log_env qs [] = Ok file ∧
    (λ r, r !! 3%nat) <$> csv_read file =
      [Some (text_of "original_query"); Some (qs.*1 !!! 0%nat); Some (qs.*1 !!! 2%nat)].
Proof.
  intros qs. destruct (workload_log_roundtrip example_log_env) with (qs := qs) as (file & E & R).
  - intros t b. cbn. intros (k & -> & _)%list_elem_of_fmap. apply Z.mod_pos_bound. lia.
  - intros secs t [= <-]. reflexivity.
  - reflexivity.
  - apply Forall_forall. subst qs. repeat constructor; done.
  - apply Forall_forall. subst qs. repeat constructor; eexists; vm_compute; reflexivity.
  - exists file. split; [done|]. rewrite R. vm_compute. reflexivity.
Defined.

Lemma where_clauses_never_rewritten_witness :
  rewrite_query_with_table_prefixes (λ _, [SelectStmt [RangeVar "title" None]])
    (text_of "SELECT * FROM title WHERE title_id = 1") = Ok (text_of "SELECT * FROM title WHERE title_id = 1").
Proof. apply where_clauses_never_rewritten; vm_compute; reflexivity. Defined.
