(* ===== verification/Candidates.v ===== *)
(** * Index candidates of a query

    Models the part of [nr_index_management/nr_index_management.c] that runs in
    the backend of a query: the hook that decides whether a query is looked at,
    the features it collects per table from the WHERE, ORDER BY and GROUP BY
    clauses, the index candidates made from them, the JSON text they travel in
    and its parser on the worker's side, and the statement that puts a query
    into the work queue.

    A [Bitmapset] is a number whose bits are its members, the catalogs and the
    hash function are arguments. *)
From S2P Require Import Prelude CText.
From Stdlib Require Import ZArith Lia Ascii.
From stdpp Require Import base strings numbers sorting list.

Open Scope Z_scope.

(** ** Queries, as far as the code looks at them *)

Inductive CoercionForm := COERCE_EXPLICIT_CALL | COERCE_EXPLICIT_CAST | COERCE_IMPLICIT_CAST | COERCE_SQL_SYNTAX.

#[export] Instance CoercionForm_eq_dec : EqDecision CoercionForm.
Proof. solve_decision. Defined.

(** Expressions; [OtherNode] is any other node with the children the tree
    walker visits. *)
Inductive Node :=
  | Var (varno varattno : Z)
  | OpExpr (opno : Z) (args : list Node)
  | FuncExpr (funcformat : CoercionForm) (args : list Node)
  | CollateExpr (arg : Node)
  | RelabelType (relabelformat : CoercionForm) (arg : Node)
  | CoerceViaIO (coerceformat : CoercionForm) (arg : Node)
  | ArrayCoerceExpr (coerceformat : CoercionForm) (arg : Node)
  | ConvertRowtypeExpr (convertformat : CoercionForm) (arg : Node)
  | CoerceToDomain (coercionformat : CoercionForm) (arg : Node)
  | OtherNode (children : list Node).

Inductive CmdType := CMD_SELECT | CMD_OTHER.

Record QueryOf (rte : Type) := mkQuery {
  commandType : CmdType;
  stmt_location : Z;
  stmt_len : Z;
  rtable : list rte;
  quals : option Node;              (* of the join tree *)
  targetList : list (Z * Node);     (* ressortgroupref, expr *)
  sortClause : list Z;              (* tleSortGroupRef *)
  groupClause : list Z
}.
Arguments mkQuery {rte}.
Arguments commandType {rte}.
Arguments stmt_location {rte}.
Arguments stmt_len {rte}.
Arguments rtable {rte}.
Arguments quals {rte}.
Arguments targetList {rte}.
Arguments sortClause {rte}.
Arguments groupClause {rte}.

Inductive RangeTblEntry :=
  | RTE_RELATION (relid : Z)
  | RTE_SUBQUERY (subquery : QueryOf RangeTblEntry)
  | RTE_OTHER.
Definition Query : Type := QueryOf RangeTblEntry.

(** What the code asks the catalogs and the configuration. *)
Record catalog := mkCatalog {
  get_opname : Z → option string;
  get_rel_nspname : Z → option string  (* [get_namespace_name(get_rel_namespace(relid))] *)
}.

Record settings := mkSettings {
  strategy : string;
  nr_reactive_enable : bool;
  nr_reactive_max_columns_per_index : Z;
  nr_reactive_max_candidates_per_query : Z;
  application_name : option string
}.

(** ** Which statements are looked at *)

Definition get_current_statement_text (p_sourcetext : option text) (query : Query) : option text :=
  match p_sourcetext with
  | None => None
  | Some source =>
      let loc := stmt_location query in
      let len := stmt_len query in
      if (0 <=? loc) && (0 <? len) && (loc <? zlen source)
      then Some (take (Z.to_nat (Z.min len (zlen source - loc))) (drop (Z.to_nat loc) source))
      else Some source
  end.

(** The rest of a block comment, behind its end. *)
Fixpoint skip_block (p : text) : text :=
  match p with
  | [] => []
  | c :: p' => match p' with
               | d :: p'' => if ascii_eqb c "*" && ascii_eqb d "/" then p'' else skip_block p'
               | [] => []
               end
  end.

(** The loop over white space and comments. *)
Fixpoint skip_comments (fuel : nat) (p : text) : text :=
  match fuel with
  | O => p
  | S fuel =>
      let p := skip_while is_space p in
      match p with
      | c :: d :: p' =>
          if ascii_eqb c "-" && ascii_eqb d "-"
          then skip_comments fuel (skip_while (λ c, negb (ascii_eqb c NEWLINE)) p')
          else if ascii_eqb c "/" && ascii_eqb d "*" then skip_comments fuel (skip_block p')
          else p
      | _ => p
      end
  end.

Definition word_char (c : ascii) : bool := is_alnum c || ascii_eqb c "_".

Definition is_select_statement_text (stmt : option text) : bool :=
  match stmt with
  | None => false
  | Some p =>
      let p := skip_comments (S (length p)) p in
      if negb (starts_with_ci (text_of "select") p) then false
      else match drop 6 p with c :: _ => negb (word_char c) | [] => true end
  end.

Definition is_system_schema_name (nspname : option string) : bool :=
  match nspname with
  | None => true
  | Some nspname =>
      if String.eqb nspname "pg_catalog" || String.eqb nspname "information_schema" then true
      else if String.eqb nspname "nrim" then true
      else starts_with (text_of "pg_") (text_of nspname) &&
           negb (starts_with (text_of "pg_temp") (text_of nspname))
  end.

(** The body of the loop over the range table, subqueries included. *)
Fixpoint rte_is_user_table (cat : catalog) (rte : RangeTblEntry) : bool :=
  match rte with
  | RTE_RELATION relid =>
      if relid =? 0 then true
      else match get_rel_nspname cat relid with
           | None => false
           | Some nspname => negb (is_system_schema_name (Some nspname))
           end
  | RTE_SUBQUERY (mkQuery _ _ _ rtable _ _ _ _) => forallb (rte_is_user_table cat) rtable
  | RTE_OTHER => true
  end.
Definition query_references_only_user_tables (cat : catalog) (query : Query) : bool :=
  forallb (rte_is_user_table cat) (rtable query).

Definition is_ai_engine_session (s : settings) : bool :=
  match application_name s with
  | None => false
  | Some appname => String.eqb appname "neurdb_ai" || String.eqb appname "nrim_reactive_worker" ||
                    String.eqb appname "neurdb_reactive_worker"
  end.

(** ** Columns and operators *)

Definition collect_var_attnum (query : Query) (varno varattno : Z) : option (Z * Z) :=
  if (varno <=? 0) || (zlen (rtable query) <? varno) then None
  else match rtable query !! Z.to_nat (varno - 1) with
       | Some (RTE_RELATION relid) =>
           if relid =? 0 then None
           else if varattno <=? 0 then None
           else Some (relid, varattno)
       | _ => None
       end.

Definition is_equality_op (cat : catalog) (opno : Z) : bool :=
  match get_opname cat opno with None => false | Some name => String.eqb name "=" end.

Definition is_range_op (cat : catalog) (opno : Z) : bool :=
  match get_opname cat opno with
  | None => false
  | Some name => String.eqb name "<" || String.eqb name "<=" || String.eqb name ">" || String.eqb name ">="
  end.

(** ** Features of a table *)

(** A set of small numbers, as a number. *)
Definition Bitmapset : Type := Z.
Definition bms_add_member (a : Bitmapset) (x : Z) : Bitmapset := Z.setbit a x.
Definition bms_is_member (x : Z) (a : Bitmapset) : bool := Z.testbit a x.
(** The members in the order in which [bms_next_member] visits them. *)
Definition bms_members (a : Bitmapset) : list Z :=
  filter (λ x, Z.testbit a x = true) (seqZ 0 (Z.log2 a + 1)).

Record NrimTableFeat := mkFeat {
  feat_relid : Z;
  eq_cols : Bitmapset;
  range_cols : Bitmapset;
  join_cols : Bitmapset;
  filter_cols : Bitmapset;
  sargable_filter_cols : Bitmapset;
  nonsargable_filter_cols : Bitmapset;
  order_cols : list Z;
  group_cols : list Z
}.

Definition empty_feat (relid : Z) : NrimTableFeat := mkFeat relid 0 0 0 0 0 0 [] [].

(** [nrim_get_table_feat] finds the entry of a table, or appends an empty one;
    the caller then changes the entry in place, which [f] stands for. *)
Fixpoint nrim_get_table_feat (tables : list NrimTableFeat) (relid : Z) (f : NrimTableFeat → NrimTableFeat)
    : list NrimTableFeat :=
  match tables with
  | [] => [f (empty_feat relid)]
  | tf :: tables => if feat_relid tf =? relid then f tf :: tables
                    else tf :: nrim_get_table_feat tables relid f
  end.

Definition nrim_add_att_bitmap (bms : Bitmapset) (attnum : Z) : Bitmapset :=
  if attnum <=? 0 then bms else bms_add_member bms (attnum - 1).

Definition nrim_add_att_list_unique (l : list Z) (attnum : Z) : list Z :=
  if bool_decide (attnum ∈ l) then l else l ++ [attnum].

(** The fields that are written, each as an update of a table's entry. *)
Inductive feature := EqCol | RangeCol | JoinCol | FilterCol | SargableCol | NonsargableCol.

#[export] Instance feature_eq_dec : EqDecision feature.
Proof. solve_decision. Defined.

Definition add_feature (k : feature) (attnum : Z) (tf : NrimTableFeat) : NrimTableFeat :=
  let 'mkFeat r eq rng jn fl sg ns ord grp := tf in
  match k with
  | EqCol => mkFeat r (nrim_add_att_bitmap eq attnum) rng jn fl sg ns ord grp
  | RangeCol => mkFeat r eq (nrim_add_att_bitmap rng attnum) jn fl sg ns ord grp
  | JoinCol => mkFeat r eq rng (nrim_add_att_bitmap jn attnum) fl sg ns ord grp
  | FilterCol => mkFeat r eq rng jn (nrim_add_att_bitmap fl attnum) sg ns ord grp
  | SargableCol => mkFeat r eq rng jn fl (nrim_add_att_bitmap sg attnum) ns ord grp
  | NonsargableCol => mkFeat r eq rng jn fl sg (nrim_add_att_bitmap ns attnum) ord grp
  end.

Definition add_order (attnum : Z) (tf : NrimTableFeat) : NrimTableFeat :=
  let 'mkFeat r eq rng jn fl sg ns ord grp := tf in
  mkFeat r eq rng jn fl sg ns (nrim_add_att_list_unique ord attnum) grp.
Definition add_group (attnum : Z) (tf : NrimTableFeat) : NrimTableFeat :=
  let 'mkFeat r eq rng jn fl sg ns ord grp := tf in
  mkFeat r eq rng jn fl sg ns ord (nrim_add_att_list_unique grp attnum).

(** ** Coercions *)

(** The node below the coercions of a node, and whether one changed the type. *)
Fixpoint nrim_strip_coercions_for_sargability (node : Node) (saw_coercion : bool) : Node * bool :=
  match node with
  | CollateExpr arg => nrim_strip_coercions_for_sargability arg saw_coercion
  | RelabelType _ arg | CoerceViaIO _ arg | CoerceToDomain _ arg | ArrayCoerceExpr _ arg =>
      nrim_strip_coercions_for_sargability arg true
  | FuncExpr funcformat [arg] =>
      if bool_decide (funcformat ≠ COERCE_EXPLICIT_CALL)
      then nrim_strip_coercions_for_sargability arg true
      else (node, saw_coercion)
  | _ => (node, saw_coercion)
  end.

(** [strip_implicit_coercions] of [nodeFuncs.c]; an implicit cast has an
    argument. *)
Fixpoint strip_implicit_coercions (node : Node) : Node :=
  match node with
  | FuncExpr COERCE_IMPLICIT_CAST (arg :: _) => strip_implicit_coercions arg
  | RelabelType COERCE_IMPLICIT_CAST arg | CoerceViaIO COERCE_IMPLICIT_CAST arg
  | ArrayCoerceExpr COERCE_IMPLICIT_CAST arg | ConvertRowtypeExpr COERCE_IMPLICIT_CAST arg
  | CoerceToDomain COERCE_IMPLICIT_CAST arg => strip_implicit_coercions arg
  | _ => node
  end.

(** The column an expression is, and whether it is not coerced. *)
Definition nrim_collect_var_attnum_sargability (query : Query) (expr : Node) : option (Z * Z * bool) :=
  let '(base, coerced) := nrim_strip_coercions_for_sargability expr false in
  match strip_implicit_coercions base with
  | Var varno varattno =>
      match collect_var_attnum query varno varattno with
      | Some (relid, attnum) => Some (relid, attnum, negb coerced)
      | None => None
      end
  | _ => None
  end.

(** ** Collecting features *)

(** A side of a comparison that is a column is a filter column. *)
Definition add_filter_side (side : option (Z * Z * bool)) (tables : list NrimTableFeat) : list NrimTableFeat :=
  match side with
  | Some (relid, att, sargable) =>
      nrim_get_table_feat tables relid
        (λ tf, let tf := add_feature FilterCol att tf in
               if sargable : bool then add_feature SargableCol att tf else add_feature NonsargableCol att tf)
  | None => tables
  end.

(** A sargable side is an equality or range column, by the operator. *)
Definition add_key_side (is_eq is_rng : bool) (side : option (Z * Z * bool)) (tables : list NrimTableFeat)
    : list NrimTableFeat :=
  match side with
  | Some (relid, att, true) =>
      nrim_get_table_feat tables relid
        (λ tf, if is_eq then add_feature EqCol att tf
               else if is_rng then add_feature RangeCol att tf else tf)
  | _ => tables
  end.

(** What a binary operator adds. *)
Definition nrim_feat_op (cat : catalog) (query : Query) (opno : Z) (lhs_raw rhs_raw : Node)
    (tables : list NrimTableFeat) : list NrimTableFeat :=
  let is_eq := is_equality_op cat opno in
  let is_rng := is_range_op cat opno in
  let lhs := nrim_collect_var_attnum_sargability query lhs_raw in
  let rhs := nrim_collect_var_attnum_sargability query rhs_raw in
  let tables := add_filter_side lhs tables in
  let tables := add_filter_side rhs tables in
  match is_eq, lhs, rhs with
  | true, Some (relid_l, att_l, true), Some (relid_r, att_r, true) =>
      if negb (relid_l =? relid_r) then
        let tables := nrim_get_table_feat tables relid_l (add_feature JoinCol att_l) in
        nrim_get_table_feat tables relid_r (add_feature JoinCol att_r)
      else
        nrim_get_table_feat tables relid_l (λ tf, add_feature EqCol att_r (add_feature EqCol att_l tf))
  | _, _, _ => add_key_side is_eq is_rng rhs (add_key_side is_eq is_rng lhs tables)
  end.

(** The walker: the node itself, then its children. *)
Fixpoint nrim_feat_walker (cat : catalog) (query : Query) (node : Node) (tables : list NrimTableFeat)
    : list NrimTableFeat :=
  let walk_all := fix walk_all (nodes : list Node) tables :=
    match nodes with
    | [] => tables
    | n :: nodes => walk_all nodes (nrim_feat_walker cat query n tables)
    end in
  match node with
  | Var _ _ => tables
  | OpExpr opno args =>
      let tables := match args with
                    | [lhs_raw; rhs_raw] => nrim_feat_op cat query opno lhs_raw rhs_raw tables
                    | _ => tables
                    end in
      walk_all args tables
  | FuncExpr _ args => walk_all args tables
  | CollateExpr arg | RelabelType _ arg | CoerceViaIO _ arg | ArrayCoerceExpr _ arg
  | ConvertRowtypeExpr _ arg | CoerceToDomain _ arg => nrim_feat_walker cat query arg tables
  | OtherNode children => walk_all children tables
  end.

Definition get_sortgroupclause_expr (sortref : Z) (targetList : list (Z * Node)) : outcome Node :=
  match snd <$> list_find (λ tle, tle.1 = sortref) targetList with
  | Some (_, expr) => Ok expr
  | None => Raise "ORDER/GROUP BY expression not found in targetlist"
  end.

(** One clause of ORDER BY or GROUP BY; [add] is the list the column goes to. *)
Definition collect_clause (query : Query) (add : Z → NrimTableFeat → NrimTableFeat) (sortref : Z)
    (tables : list NrimTableFeat) : outcome (list NrimTableFeat) :=
  expr ← get_sortgroupclause_expr sortref (targetList query);
  match strip_implicit_coercions expr with
  | Var varno varattno =>
      match collect_var_attnum query varno varattno with
      | Some (relid, attnum) => Ok (nrim_get_table_feat tables relid (add attnum))
      | None => Ok tables
      end
  | _ => Ok tables
  end.

Fixpoint collect_clauses (query : Query) (add : Z → NrimTableFeat → NrimTableFeat) (clauses : list Z)
    (tables : list NrimTableFeat) : outcome (list NrimTableFeat) :=
  match clauses with
  | [] => Ok tables
  | sortref :: clauses => tables ← collect_clause query add sortref tables; collect_clauses query add clauses tables
  end.

Definition nrim_collect_order_group (query : Query) (tables : list NrimTableFeat)
    : outcome (list NrimTableFeat) :=
  tables ← collect_clauses query add_order (sortClause query) tables;
  collect_clauses query add_group (groupClause query) tables.

(** ** Candidates *)

(** The [ncols] columns in use of the array [cols]. *)
Record NrimCand := mkCand { relid : Z; cols : list Z }.
Definition ncols (c : NrimCand) : Z := zlen (cols c).

#[export] Instance NrimCand_eq_dec : EqDecision NrimCand.
Proof. solve_decision. Defined.

Definition list_member_int (l : list Z) (x : Z) : bool := bool_decide (x ∈ l).

(** The columns of the join set behind those of the equality set. *)
Fixpoint append_new (eq_list : list Z) (members : list Z) : list Z :=
  match members with
  | [] => eq_list
  | m :: members => append_new (if list_member_int eq_list m then eq_list else eq_list ++ [m]) members
  end.

Fixpoint order_pairs (r ord : Z) (eq_used : Z) (eq_list : list Z) : list NrimCand :=
  match eq_list with
  | [] => []
  | eq :: eq_list =>
      if eq =? ord then order_pairs r ord eq_used eq_list
      else if 2 <=? eq_used then []
      else mkCand r [eq; ord] :: mkCand r [ord; eq] :: order_pairs r ord (eq_used + 1) eq_list
  end.

Definition attnums (a : Bitmapset) : list Z := (λ member, member + 1) <$> bms_members a.
Definition single (r : Z) (att : Z) : NrimCand := mkCand r [att].

Definition nrim_generate_candidates_for_table (maxw : Z) (tf : NrimTableFeat) : list NrimCand :=
  let r := feat_relid tf in
  let skip_order_only := negb (bool_decide (order_cols tf = [])) && negb (filter_cols tf =? 0) &&
                         negb (nonsargable_filter_cols tf =? 0) in
  let eq_list := append_new (attnums (eq_cols tf)) (attnums (join_cols tf)) in
  (single r <$> attnums (eq_cols tf)) ++ (single r <$> attnums (join_cols tf)) ++
  (single r <$> attnums (range_cols tf)) ++
  (single r <$> filter (λ ord, negb skip_order_only &&
                               ((nonsargable_filter_cols tf =? 0) ||
                                negb (bms_is_member (ord - 1) (nonsargable_filter_cols tf))) = true)
                       (order_cols tf)) ++
  (single r <$> group_cols tf) ++
  match eq_list with a :: b :: _ => [mkCand r [a; b]] | _ => [] end ++
  match eq_list with
  | a :: b :: c :: _ => if 3 <=? maxw then [mkCand r [a; b; c]] else []
  | _ => []
  end ++
  match order_cols tf, eq_list with
  | ord :: _, _ :: _ => if 2 <=? maxw then order_pairs r ord 0 eq_list else []
  | _, _ => []
  end.

Fixpoint cols_equal (a b : list Z) : bool :=
  match a, b with
  | [], _ => true
  | x :: a, y :: b => (x =? y) && cols_equal a b
  | _ :: _, [] => false
  end.

Definition nrim_cand_equals (a b : NrimCand) : bool :=
  if negb (relid a =? relid b) || negb (ncols a =? ncols b) then false
  else cols_equal (cols a) (cols b).

Definition nrim_cand_is_prefix_of (shorter longer : NrimCand) : bool :=
  if negb (relid shorter =? relid longer) then false
  else if ncols longer <=? ncols shorter then false
  else cols_equal (cols shorter) (cols longer).

Fixpoint dedupe (cands dedup : list NrimCand) : list NrimCand :=
  match cands with
  | [] => dedup
  | c :: cands => dedupe cands (if existsb (nrim_cand_equals c) dedup then dedup else dedup ++ [c])
  end.

Definition dropped_by (dedup : list NrimCand) (c : NrimCand) : bool :=
  (ncols c =? 1) &&
  existsb (λ d, (relid d =? relid c) && (1 <? ncols d) && nrim_cand_is_prefix_of c d) dedup.

Definition nrim_merge_candidates (cands : list NrimCand) : list NrimCand :=
  let dedup := dedupe cands [] in
  filter (λ c, dropped_by dedup c = false) dedup.

Definition query_tables (cat : catalog) (query : Query) : outcome (list NrimTableFeat) :=
  let tables := match quals query with Some quals => nrim_feat_walker cat query quals [] | None => [] end in
  nrim_collect_order_group query tables.

(** The candidates of a query, merged. *)
Definition query_candidates (cat : catalog) (s : settings) (query : Query) : outcome (list NrimCand) :=
  tables ← query_tables cat query;
  Ok (nrim_merge_candidates
        (concat (nrim_generate_candidates_for_table (nr_reactive_max_columns_per_index s) <$> tables))).

(** ** The candidates as JSON text *)

Definition quoted (s : text) : text := DQUOTE :: s ++ [DQUOTE].

Definition cand_text (c : NrimCand) : text :=
  text_of "{" ++ quoted (text_of "relid") ++ text_of ":" ++ print_int (relid c) ++ text_of "," ++
  quoted (text_of "cols") ++ text_of ":[" ++ join_comma (print_int <$> cols c) ++ text_of "]}".

Definition candidates_text (cands : list NrimCand) : text :=
  text_of "[" ++ join_comma (cand_text <$> cands) ++ text_of "]".

Definition nrim_build_candidates_json (cat : catalog) (s : settings) (query : Query) : outcome (option text) :=
  cands ← query_candidates cat s query;
  let emitted := take (Z.to_nat (nr_reactive_max_candidates_per_query s)) cands in
  Ok (if bool_decide (emitted = []) then None else Some (candidates_text emitted)).

(** *** JSON values and the iterator over them *)

Inductive json :=
  | JNum (n : Z)
  | JStr (s : text)
  | JArr (elems : list json)
  | JObj (members : list (text * json)).

(** [jbvBinary] is a nested array or object that is not entered. *)
Inductive JsonbValue := jbvNumeric (n : Z) | jbvString (s : text) | jbvBinary.

Inductive JsonbToken :=
  | WJB_KEY (k : text)
  | WJB_VALUE (v : JsonbValue)
  | WJB_ELEM (v : JsonbValue)
  | WJB_BEGIN_ARRAY
  | WJB_END_ARRAY
  | WJB_BEGIN_OBJECT
  | WJB_END_OBJECT.

(** The order of the keys of an object: shorter ones first, then by bytes. *)
Fixpoint bytes_ltb (a b : text) : bool :=
  match a, b with
  | x :: a, y :: b =>
      if (N_of_ascii x <? N_of_ascii y)%N then true
      else if (N_of_ascii y <? N_of_ascii x)%N then false else bytes_ltb a b
  | _, _ => false
  end.
Definition key_ltb (a b : text) : bool :=
  if (length a =? length b)%nat then bytes_ltb a b else (length a <? length b)%nat.

(** The last value of a key counts. *)
Fixpoint insert_member {A} (k : text) (x : A) (l : list (text * A)) : list (text * A) :=
  match l with
  | [] => [(k, x)]
  | (k', x') :: l =>
      if key_ltb k k' then (k, x) :: (k', x') :: l
      else if key_ltb k' k then (k', x') :: insert_member k x l
      else (k, x) :: l
  end.
Definition sort_members {A} (l : list (text * A)) : list (text * A) :=
  foldl (λ sorted kx, insert_member kx.1 kx.2 sorted) [] l.

(** The tokens of [JsonbIteratorNext] with nesting; [scalar] is the token of a
    scalar at this place. *)
Fixpoint tokens_at (scalar : JsonbValue → JsonbToken) (v : json) : list JsonbToken :=
  match v with
  | JNum n => [scalar (jbvNumeric n)]
  | JStr s => [scalar (jbvString s)]
  | JArr elems => WJB_BEGIN_ARRAY :: concat (map (tokens_at WJB_ELEM) elems) ++ [WJB_END_ARRAY]
  | JObj members =>
      WJB_BEGIN_OBJECT ::
      concat (map (λ m, WJB_KEY m.1 :: m.2)
                  (sort_members (map (λ m, match m with (k, v) => (k, tokens_at WJB_VALUE v) end) members))) ++
      [WJB_END_OBJECT]
  end.
Definition json_tokens (v : json) : list JsonbToken :=
  match v with
  | JNum _ | JStr _ => WJB_BEGIN_ARRAY :: tokens_at WJB_ELEM v ++ [WJB_END_ARRAY]
  | _ => tokens_at WJB_ELEM v
  end.

(** The compact text of a value. *)
Fixpoint json_text (v : json) : text :=
  match v with
  | JNum n => print_int n
  | JStr s => quoted s
  | JArr elems => text_of "[" ++ join_comma (map json_text elems) ++ text_of "]"
  | JObj members =>
      text_of "{" ++ join_comma (map (λ m, match m with (k, v) => quoted k ++ text_of ":" ++ json_text v end) members) ++
      text_of "}"
  end.

(** *** The parser of the worker *)

Record parse_state := mkParse {
  out_cands : list NrimCand;
  current : option (Z * Z * list Z);   (* relid, ncols, the columns stored *)
  expect_relid : bool;
  in_cols : bool
}.

Definition INT64_MIN : Z := - 2 ^ 63.
Definition INT64_MAX : Z := 2 ^ 63 - 1.
Definition INT16_MAX : Z := 32767.

Definition numeric_int8 (n : Z) : outcome Z :=
  if (n <? INT64_MIN) || (INT64_MAX <? n) then Raise "bigint out of range" else Ok n.

(** One round of the loop over the tokens; [col_i] is the number of columns
    stored. *)
Definition parse_token (st : parse_state) (tok : JsonbToken) : outcome parse_state :=
  let 'mkParse out cur expect_relid in_cols := st in
  match tok with
  | WJB_BEGIN_OBJECT => Ok (mkParse out (Some (0, 0, [])) false false)
  | WJB_END_OBJECT =>
      match cur with
      | Some (relid, ncols, cols) =>
          if negb (relid =? 0) && (0 <? ncols)
          then Ok (mkParse (out ++ [mkCand relid (take (Z.to_nat ncols) cols)]) None expect_relid in_cols)
          else Ok (mkParse out None expect_relid in_cols)
      | None => Ok st
      end
  | WJB_KEY k =>
      match cur with
      | None => Ok st
      | Some _ => Ok (mkParse out cur (bool_decide (k = text_of "relid")) (bool_decide (k = text_of "cols")))
      end
  | WJB_VALUE v =>
      match cur with
      | None => Ok st
      | Some (relid, ncols, cols) =>
          match expect_relid, v with
          | true, jbvNumeric n =>
              rel ← numeric_int8 n;
              Ok (mkParse out (Some (if 0 <? rel then rel `mod` 2 ^ 32 else relid, ncols, cols)) false in_cols)
          | _, _ => Ok (mkParse out cur false in_cols)
          end
      end
  | WJB_BEGIN_ARRAY => Ok st
  | WJB_END_ARRAY =>
      match cur with
      | Some (relid, ncols, cols) =>
          Ok (mkParse out (Some (relid, if in_cols then zlen cols else ncols, cols)) expect_relid false)
      | None => Ok (mkParse out cur expect_relid false)
      end
  | WJB_ELEM v =>
      match cur with
      | Some (relid, ncols, cols) =>
          if negb in_cols then Ok st
          else if 8 <=? zlen cols then Ok st
          else match v with
               | jbvNumeric n =>
                   att ← numeric_int8 n;
                   if (0 <? att) && (att <=? INT16_MAX)
                   then Ok (mkParse out (Some (relid, ncols, cols ++ [att])) expect_relid in_cols)
                   else Ok st
               | _ => Ok st
               end
      | None => Ok st
      end
  end.

Fixpoint parse_tokens (st : parse_state) (toks : list JsonbToken) : outcome parse_state :=
  match toks with
  | [] => Ok st
  | tok :: toks => st ← parse_token st tok; parse_tokens st toks
  end.

(** What the input function of [jsonb] promises: the text of a value is read as
    the tokens of this value. *)
Fixpoint json_simple (v : json) : bool :=
  match v with
  | JNum n => (- 10 ^ 20 <? n) && (n <? 10 ^ 20)
  | JStr s => forallb (λ c, negb (ascii_eqb c DQUOTE || ascii_eqb c BACKSLASH) && (32 <=? N_of_ascii c)%N) s
  | JArr elems => forallb json_simple elems
  | JObj members =>
      forallb (λ m, match m with (k, v) =>
        forallb (λ c, negb (ascii_eqb c DQUOTE || ascii_eqb c BACKSLASH) && (32 <=? N_of_ascii c)%N) k &&
        json_simple v end) members
  end.

Class JsonbInput := {
  jsonb_in : text → outcome (list JsonbToken);
  jsonb_in_text : ∀ v, json_simple v = true → jsonb_in (json_text v) = Ok (json_tokens v)
}.

Definition nrim_parse_candidates_json `{JsonbInput} (candidates_json : option text) : outcome (list NrimCand) :=
  match candidates_json with
  | None | Some [] => Ok []
  | Some t =>
      toks ← jsonb_in t;
      st ← parse_tokens (mkParse [] None false false) toks;
      Ok (out_cands st)
  end.

(** ** Putting a query into the work queue *)

Fixpoint hex_digits (n : nat) (h : Z) : text :=
  match n with
  | O => []
  | S n => hex_digits n (h / 16) ++ [ascii_of_N (Z.to_N (let d := h `mod` 16 in if d <? 10 then 48 + d else 87 + d))]
  end.

(** ["nrimq_%08x"]. *)
Definition enqueue_tag (h : Z) : text := text_of "nrimq_" ++ hex_digits 8 h.

Definition dollar_quoted (tag s : text) : text := text_of "$" ++ tag ++ text_of "$" ++ s ++ text_of "$" ++ tag ++ text_of "$".

Definition insert_head : text := text_of "INSERT INTO nrim.nrim_work_queue(query_text, candidates) VALUES (".

(** The command [nrim_enqueue_work_item] hands to psql; [hash_any] is the hash of
    the query text. *)
Definition enqueue_sql (hash_any : text → Z) (query_text : text) (candidates : option text) : text :=
  let tag := enqueue_tag (hash_any query_text) in
  insert_head ++ dollar_quoted tag query_text ++ text_of ", " ++
  match candidates with
  | Some (c :: cs) => dollar_quoted tag (c :: cs)
  | _ => text_of "NULL"
  end ++ text_of ");".

(** What the extension has done: whether this backend has started the worker,
    and the commands given to psql. *)
Record hook_state := mkHook { nrim_worker_started : bool; psql_commands : list text }.

(** [get_database_name], [fork] and [RegisterDynamicBackgroundWorker] as the
    environment answers them. *)
Record hook_env := mkHookEnv {
  hash_any : text → Z;
  database_known : bool;
  fork_ok : bool;
  register_ok : bool
}.

Definition nrim_start_worker_if_needed (env : hook_env) (st : hook_state) : hook_state :=
  if nrim_worker_started st then st
  else if register_ok env then mkHook true (psql_commands st) else st.

Definition nrim_enqueue_work_item (env : hook_env) (query_text : text) (candidates : option text)
    (st : hook_state) : hook_state * bool :=
  if bool_decide (query_text = []) then (st, false)
  else if negb (database_known env) then (st, false)
  else if negb (fork_ok env) then (st, false)
  else (mkHook (nrim_worker_started st) (psql_commands st ++ [enqueue_sql (hash_any env) query_text candidates]), true).

(** The hook; hooks installed before this one are left out. *)
Definition index_management_post_parse_analyze (cat : catalog) (s : settings) (env : hook_env)
    (p_sourcetext : option text) (query : Query) (st : hook_state) : outcome hook_state :=
  match commandType query with
  | CMD_OTHER => Ok st
  | CMD_SELECT =>
      if negb (String.eqb (strategy s) "reactive") then Ok st
      else if negb (nr_reactive_enable s) then Ok st
      else if is_ai_engine_session s then Ok st
      else match get_current_statement_text p_sourcetext query with
           | None | Some [] => Ok st
           | Some query_text =>
               if negb (is_select_statement_text (Some query_text)) then Ok st
               else if negb (query_references_only_user_tables cat query) then Ok st
               else
                 let st := nrim_start_worker_if_needed env st in
                 candidates ← nrim_build_candidates_json cat s query;
                 match candidates with
                 | Some json => Ok (nrim_enqueue_work_item env query_text (Some json) st).1
                 | None => Ok st
                 end
           end
  end.

(** ** The features are the predicates of the query *)

Lemma bms_members_spec a x : 0 ≤ a → x ∈ bms_members a ↔ 0 ≤ x ∧ Z.testbit a x = true.
Proof.
  intros Ha. unfold bms_members. rewrite list_elem_of_filter, elem_of_seqZ. split; [intros [? ?]; split; [lia|done]|].
  intros [Hx Hb]. split; [done|]. split; [lia|]. destruct (Z.lt_ge_cases x (0 + (Z.log2 a + 1))); [done|].
  rewrite Z.bits_above_log2 in Hb by lia. done.
Qed.

Lemma NoDup_bms_members a : NoDup (bms_members a).
Proof. apply NoDup_filter, NoDup_seqZ. Qed.

Lemma attnums_spec a att : 0 ≤ a → att ∈ attnums a ↔ 0 < att ∧ Z.testbit a (att - 1) = true.
Proof.
  intros Ha. unfold attnums. rewrite list_elem_of_fmap. split.
  - intros (x & -> & Hx%bms_members_spec); [|done]. replace (x + 1 - 1) with x by lia. intuition lia.
  - intros [H1 H2]. exists (att - 1). rewrite bms_members_spec by done. intuition lia.
Qed.

Lemma NoDup_attnums a : NoDup (attnums a).
Proof. apply NoDup_fmap_2; [intros ???; lia|apply NoDup_bms_members]. Qed.

(** The entry of a table, or an empty one. *)
Fixpoint feat_of (tables : list NrimTableFeat) (r : Z) : NrimTableFeat :=
  match tables with
  | [] => empty_feat r
  | tf :: tables => if feat_relid tf =? r then tf else feat_of tables r
  end.

Definition feature_set (k : feature) (tf : NrimTableFeat) : Bitmapset :=
  match k with
  | EqCol => eq_cols tf
  | RangeCol => range_cols tf
  | JoinCol => join_cols tf
  | FilterCol => filter_cols tf
  | SargableCol => sargable_filter_cols tf
  | NonsargableCol => nonsargable_filter_cols tf
  end.

Lemma feat_of_get tables r f r' :
  (∀ tf, feat_relid (f tf) = feat_relid tf) →
  feat_of (nrim_get_table_feat tables r f) r' = if r' =? r then f (feat_of tables r) else feat_of tables r'.
Proof.
  intros Hf. induction tables as [|tf tables IH]; cbn.
  - rewrite Hf. cbn. destruct (Z.eqb_spec r r'), (Z.eqb_spec r' r); done || lia.
  - destruct (Z.eqb_spec (feat_relid tf) r); cbn; rewrite ?Hf.
    + destruct (Z.eqb_spec (feat_relid tf) r'), (Z.eqb_spec r' r); done || lia.
    + destruct (Z.eqb_spec (feat_relid tf) r'), (Z.eqb_spec r' r); done || lia.
Qed.

(** An update adds the columns of [l] to the sets of an entry, and nothing else. *)
Record adds (f : NrimTableFeat → NrimTableFeat) (l : list (feature * Z)) : Prop := {
  adds_relid tf : feat_relid (f tf) = feat_relid tf;
  adds_bit tf k a : 0 < a →
    Z.testbit (feature_set k (f tf)) (a - 1) = true ↔
    (k, a) ∈ l ∨ Z.testbit (feature_set k tf) (a - 1) = true
}.

Lemma adds_id : adds (λ tf, tf) [].
Proof. split; [done|]. intros tf k a _. rewrite elem_of_nil. tauto. Qed.

Lemma setbit_iff x a b : 0 < a → 0 < b → Z.testbit (bms_add_member x (a - 1)) (b - 1) = true ↔ b = a ∨ Z.testbit x (b - 1) = true.
Proof.
  intros Ha Hb. unfold bms_add_member. rewrite Z.setbit_eqb, orb_true_iff, Z.eqb_eq by lia.
  split; intros [?|?]; auto; left; lia.
Qed.

Lemma adds_feature k a f l : 0 < a → adds f l → adds (λ tf, add_feature k a (f tf)) ((k, a) :: l).
Proof.
  intros Ha [Hr Hb]. split.
  - intros tf. rewrite <- (Hr tf). by destruct (f tf), k.
  - intros tf k' a' Ha'. specialize (Hb tf k' a' Ha'). rewrite elem_of_cons.
    assert (Z.testbit (feature_set k' (add_feature k a (f tf))) (a' - 1) = true ↔
            (k', a') = (k, a) ∨ Z.testbit (feature_set k' (f tf)) (a' - 1) = true) as ->; [|tauto].
    destruct (f tf) as [r eq rng jn fl sg ns ord grp]. unfold add_feature, feature_set, nrim_add_att_bitmap.
    rewrite (proj2 (Z.leb_gt a 0)) by lia. destruct k, k'; cbn; rewrite ?setbit_iff by done;
      (split; [intros [->|?]; auto | intros [[= ->]|?]; auto]) || (split; [by right|by intros [?|?]]).
Qed.

(** A column of a table is in one of the sets. *)
Definition in_feature (tables : list NrimTableFeat) (r : Z) (k : feature) (a : Z) : Prop :=
  Z.testbit (feature_set k (feat_of tables r)) (a - 1) = true.

Lemma in_feature_get tables r0 f l r k a :
  adds f l → 0 < a →
  in_feature (nrim_get_table_feat tables r0 f) r k a ↔ (r = r0 ∧ (k, a) ∈ l) ∨ in_feature tables r k a.
Proof.
  intros [Hr Hb] Ha. unfold in_feature. rewrite feat_of_get by done.
  destruct (Z.eqb_spec r r0) as [->|Hne]; [rewrite Hb by done; tauto|]. tauto.
Qed.

(** What a comparison of two sides says about columns. *)
Definition filter_facts (side : option (Z * Z * bool)) : list (Z * feature * Z) :=
  match side with
  | Some (r, a, sargable) => [(r, FilterCol, a); (r, if sargable : bool then SargableCol else NonsargableCol, a)]
  | None => []
  end.
Definition key_facts (is_eq is_rng : bool) (side : option (Z * Z * bool)) : list (Z * feature * Z) :=
  match side with
  | Some (r, a, true) => if is_eq then [(r, EqCol, a)] else if is_rng then [(r, RangeCol, a)] else []
  | _ => []
  end.
Definition op_facts (cat : catalog) (query : Query) (op : Z * Node * Node) : list (Z * feature * Z) :=
  let '(opno, l, r) := op in
  let lhs := nrim_collect_var_attnum_sargability query l in
  let rhs := nrim_collect_var_attnum_sargability query r in
  let is_eq := is_equality_op cat opno in
  filter_facts lhs ++ filter_facts rhs ++
  match is_eq, lhs, rhs with
  | true, Some (relid_l, att_l, true), Some (relid_r, att_r, true) =>
      let k := if relid_l =? relid_r then EqCol else JoinCol in [(relid_l, k, att_l); (relid_r, k, att_r)]
  | _, _, _ => key_facts is_eq (is_range_op cat opno) lhs ++ key_facts is_eq (is_range_op cat opno) rhs
  end.

(** The comparisons of an expression. *)
Fixpoint comparisons (node : Node) : list (Z * Node * Node) :=
  match node with
  | Var _ _ => []
  | OpExpr opno args => match args with [l; r] => [(opno, l, r)] | _ => [] end ++ concat (map comparisons args)
  | FuncExpr _ args | OtherNode args => concat (map comparisons args)
  | CollateExpr arg | RelabelType _ arg | CoerceViaIO _ arg | ArrayCoerceExpr _ arg
  | ConvertRowtypeExpr _ arg | CoerceToDomain _ arg => comparisons arg
  end.

(** Induction over expressions with the children of a node. *)
Section node_induction.

Context (P : Node → Prop).
Context (HVar : ∀ n a, P (Var n a)) (HOp : ∀ o args, Forall P args → P (OpExpr o args))
        (HFunc : ∀ f args, Forall P args → P (FuncExpr f args)) (HCollate : ∀ a, P a → P (CollateExpr a))
        (HRelabel : ∀ f a, P a → P (RelabelType f a)) (HIO : ∀ f a, P a → P (CoerceViaIO f a))
        (HArray : ∀ f a, P a → P (ArrayCoerceExpr f a)) (HRow : ∀ f a, P a → P (ConvertRowtypeExpr f a))
        (HDomain : ∀ f a, P a → P (CoerceToDomain f a)) (HOther : ∀ c, Forall P c → P (OtherNode c)).

Fixpoint node_induction (n : Node) : P n :=
  let all := fix all (l : list Node) : Forall P l :=
    match l with [] => Forall_nil_2 P | n :: l => Forall_cons_2 P n l (node_induction n) (all l) end in
  match n with
  | Var n a => HVar n a
  | OpExpr o args => HOp o args (all args)
  | FuncExpr f args => HFunc f args (all args)
  | CollateExpr a => HCollate a (node_induction a)
  | RelabelType f a => HRelabel f a (node_induction a)
  | CoerceViaIO f a => HIO f a (node_induction a)
  | ArrayCoerceExpr f a => HArray f a (node_induction a)
  | ConvertRowtypeExpr f a => HRow f a (node_induction a)
  | CoerceToDomain f a => HDomain f a (node_induction a)
  | OtherNode c => HOther c (all c)
  end.

End node_induction.

Lemma collect_var_attnum_Some query n a r att :
  collect_var_attnum query n a = Some (r, att) → RTE_RELATION r ∈ rtable query ∧ r ≠ 0 ∧ 0 < att.
Proof.
  unfold collect_var_attnum. destruct (_ || _); [done|].
  destruct (rtable query !! _) as [[r'| |]|] eqn:E; [|done..].
  destruct (Z.eqb_spec r' 0); [done|]. destruct (Z.leb_spec a 0); [done|]. intros [= <- <-].
  split; [by eapply list_elem_of_lookup_2|]. lia.
Qed.

Lemma collect_sargability_Some query e r a s :
  nrim_collect_var_attnum_sargability query e = Some (r, a, s) → RTE_RELATION r ∈ rtable query ∧ r ≠ 0 ∧ 0 < a.
Proof.
  unfold nrim_collect_var_attnum_sargability. destruct (nrim_strip_coercions_for_sargability e false) as [base c].
  destruct (strip_implicit_coercions base); try done.
  destruct (collect_var_attnum query varno varattno) as [[r' a']|] eqn:E; [|done]. intros [= <- <- _].
  by eapply collect_var_attnum_Some.
Qed.

(** A side is no column or a column with a positive number. *)
Definition side_ok (side : option (Z * Z * bool)) : Prop :=
  match side with Some (_, a, _) => 0 < a | None => True end.

Lemma collect_side_ok query e : side_ok (nrim_collect_var_attnum_sargability query e).
Proof.
  destruct (nrim_collect_var_attnum_sargability query e) as [[[r a] s]|] eqn:E; [|done].
  by apply collect_sargability_Some in E as (_ & _ & ?).
Qed.

Lemma in_feature_adds f l tables r0 r k a :
  adds f l → 0 < a →
  in_feature (nrim_get_table_feat tables r0 f) r k a ↔
  (r, k, a) ∈ (λ ka, (r0, ka.1, ka.2)) <$> l ∨ in_feature tables r k a.
Proof.
  intros Hf Ha. rewrite (in_feature_get _ _ _ _ _ _ _ Hf) by done. rewrite list_elem_of_fmap.
  split; intros [H|H]; auto; left; [by exists (k, a); destruct H as [-> ?]|].
  destruct H as ([k' a'] & [= -> -> ->] & ?). done.
Qed.

Lemma in_filter_side side tables r k a :
  side_ok side → 0 < a →
  in_feature (add_filter_side side tables) r k a ↔ (r, k, a) ∈ filter_facts side ∨ in_feature tables r k a.
Proof.
  intros Hs Ha. destruct side as [[[r' a'] s]|]; [|cbn; rewrite elem_of_nil; tauto]. cbn in Hs.
  pose proof (adds_feature (if s then SargableCol else NonsargableCol) a' _ _ Hs
    (adds_feature FilterCol a' _ _ Hs adds_id)) as Hadd.
  unfold add_filter_side. cbv zeta.
  destruct s; rewrite (in_feature_adds _ _ _ _ _ _ _ Hadd Ha); cbn; rewrite !elem_of_cons; tauto.
Qed.

Lemma in_key_side is_eq is_rng side tables r k a :
  side_ok side → 0 < a →
  in_feature (add_key_side is_eq is_rng side tables) r k a ↔
  (r, k, a) ∈ key_facts is_eq is_rng side ∨ in_feature tables r k a.
Proof.
  intros Hs Ha. destruct side as [[[r' a'] []]|]; [|cbn; rewrite elem_of_nil; tauto..]. cbn in Hs |- *.
  destruct is_eq; [|destruct is_rng].
  - by rewrite (in_feature_adds _ _ _ _ _ _ _ (adds_feature EqCol a' _ _ Hs adds_id) Ha).
  - by rewrite (in_feature_adds _ _ _ _ _ _ _ (adds_feature RangeCol a' _ _ Hs adds_id) Ha).
  - by rewrite (in_feature_adds _ _ _ _ _ _ _ adds_id Ha).
Qed.

Lemma in_feature_op cat query opno lhs rhs tables r k a :
  0 < a →
  in_feature (nrim_feat_op cat query opno lhs rhs tables) r k a ↔
  (r, k, a) ∈ op_facts cat query (opno, lhs, rhs) ∨ in_feature tables r k a.
Proof.
  intros Ha. unfold nrim_feat_op, op_facts. cbv zeta. rewrite !elem_of_app.
  pose proof (collect_side_ok query lhs) as Hl. pose proof (collect_side_ok query rhs) as Hr.
  set (l := nrim_collect_var_attnum_sargability query lhs) in *.
  set (r' := nrim_collect_var_attnum_sargability query rhs) in *. clearbody l r'.
  assert (∀ b, in_feature (add_key_side b (is_range_op cat opno) r'
       (add_key_side b (is_range_op cat opno) l (add_filter_side r' (add_filter_side l tables)))) r k a ↔
    ((r, k, a) ∈ filter_facts l ∨ (r, k, a) ∈ filter_facts r' ∨
     (r, k, a) ∈ key_facts b (is_range_op cat opno) l ++ key_facts b (is_range_op cat opno) r') ∨
    in_feature tables r k a) as Hkey.
  { intros b. rewrite elem_of_app, !in_key_side, !in_filter_side by done. tauto. }
  destruct (is_equality_op cat opno); [|apply Hkey].
  destruct l as [[[rl al] [|]]|]; [|apply Hkey..]. destruct r' as [[[rr ar] [|]]|]; [|apply Hkey..]. cbn in Hl, Hr.
  destruct (Z.eqb_spec rl rr) as [->|Hne]; cbn [negb].
  - rewrite (in_feature_adds _ _ _ _ _ _ _ (adds_feature EqCol ar _ _ Hr (adds_feature EqCol al _ _ Hl adds_id)) Ha).
    rewrite !in_filter_side by done. cbn [fmap list_fmap fst snd]. rewrite !(elem_of_cons _ _ (rr, EqCol, _)). tauto.
  - rewrite (in_feature_adds _ _ _ _ _ _ _ (adds_feature JoinCol ar _ _ Hr adds_id) Ha).
    rewrite (in_feature_adds _ _ _ _ _ _ _ (adds_feature JoinCol al _ _ Hl adds_id) Ha).
    rewrite !in_filter_side by done. cbn [fmap list_fmap fst snd]. rewrite !elem_of_cons, !elem_of_nil. tauto.
Qed.

(** What all comparisons of an expression say. *)
Definition quals_facts (cat : catalog) (query : Query) (node : Node) : list (Z * feature * Z) :=
  comparisons node ≫= op_facts cat query.

Lemma quals_facts_concat cat query nodes :
  concat (map comparisons nodes) ≫= op_facts cat query = concat (quals_facts cat query <$> nodes).
Proof. induction nodes as [|n nodes IH]; [done|]. cbn. by rewrite bind_app, IH. Qed.

Lemma walk_all_facts cat query r k a nodes tables :
  Forall (λ n, ∀ tables, in_feature (nrim_feat_walker cat query n tables) r k a ↔
                         (r, k, a) ∈ quals_facts cat query n ∨ in_feature tables r k a) nodes →
  in_feature ((fix walk_all (nodes : list Node) tables :=
    match nodes with [] => tables | n :: nodes => walk_all nodes (nrim_feat_walker cat query n tables) end)
    nodes tables) r k a ↔
  (r, k, a) ∈ concat (quals_facts cat query <$> nodes) ∨ in_feature tables r k a.
Proof.
  intros H. revert tables. induction H as [|n nodes Hn _ IH]; intros tables.
  - cbn. rewrite elem_of_nil. tauto.
  - rewrite IH, Hn. cbn. rewrite elem_of_app. tauto.
Qed.

(** The walker collects exactly what the comparisons of the expression say. *)
Lemma feat_walker_facts cat query node r k a tables :
  0 < a →
  in_feature (nrim_feat_walker cat query node tables) r k a ↔
  (r, k, a) ∈ quals_facts cat query node ∨ in_feature tables r k a.
Proof.
  intros Ha. revert tables. induction node using node_induction; intros tables; try exact (IHnode tables).
  - cbn. rewrite elem_of_nil. tauto.
  - cbn [nrim_feat_walker]. etransitivity; [by apply walk_all_facts|].
    unfold quals_facts at 2. cbn [comparisons]. rewrite bind_app, elem_of_app, quals_facts_concat.
    destruct args as [|l [|r' [|? ?]]]; try (cbn [mbind list_bind]; rewrite elem_of_nil; tauto).
    rewrite in_feature_op by done. cbn [mbind list_bind]. rewrite app_nil_r. tauto.
  - cbn [nrim_feat_walker]. etransitivity; [by apply walk_all_facts|]. unfold quals_facts at 2. cbn [comparisons].
    by rewrite quals_facts_concat.
  - cbn [nrim_feat_walker]. etransitivity; [by apply walk_all_facts|]. unfold quals_facts at 2. cbn [comparisons].
    by rewrite quals_facts_concat.
Qed.

(** ** Order and grouping columns *)

(** The columns an ORDER BY or GROUP BY names for a table, in order. *)
Definition clause_column (query : Query) (sortref : Z) : option (Z * Z) :=
  match get_sortgroupclause_expr sortref (targetList query) with
  | Ok expr => match strip_implicit_coercions expr with
               | Var varno varattno => collect_var_attnum query varno varattno
               | _ => None
               end
  | _ => None
  end.

Definition clause_columns (query : Query) (clauses : list Z) (r : Z) : list Z :=
  snd <$> filter (λ c, c.1 = r) (omap (clause_column query) clauses).

(** Keep the first of each value. *)
Definition first_of_each (l acc : list Z) : list Z := foldl nrim_add_att_list_unique acc l.

Lemma first_of_each_spec l acc :
  NoDup acc → NoDup (first_of_each l acc) ∧ ∀ a, a ∈ first_of_each l acc ↔ a ∈ acc ∨ a ∈ l.
Proof.
  revert acc. induction l as [|x l IH]; intros acc Hacc; cbn.
  - split; [done|]. intros a. rewrite elem_of_nil. tauto.
  - destruct (IH (nrim_add_att_list_unique acc x)) as [H1 H2].
    { unfold nrim_add_att_list_unique. case_bool_decide; [done|]. apply NoDup_app. split; [done|].
      split; [|apply NoDup_singleton]. intros y Hy ->%list_elem_of_singleton. done. }
    split; [done|]. intros a. rewrite H2, elem_of_cons. unfold nrim_add_att_list_unique.
    case_bool_decide; [naive_solver|]. rewrite elem_of_app, list_elem_of_singleton. tauto.
Qed.

(** An update of a list of columns that leaves the rest of an entry alone. *)
Record list_update (add : Z → NrimTableFeat → NrimTableFeat) (field other : NrimTableFeat → list Z) : Prop := {
  lu_relid a tf : feat_relid (add a tf) = feat_relid tf;
  lu_set k a tf : feature_set k (add a tf) = feature_set k tf;
  lu_field a tf : field (add a tf) = nrim_add_att_list_unique (field tf) a;
  lu_other a tf : other (add a tf) = other tf
}.

Lemma add_order_update : list_update add_order order_cols group_cols.
Proof. split; intros; destruct tf; try destruct k; done. Qed.
Lemma add_group_update : list_update add_group group_cols order_cols.
Proof. split; intros; destruct tf; try destruct k; done. Qed.

Lemma collect_clauses_spec add field other query clauses tables tables' :
  list_update add field other → collect_clauses query add clauses tables = Ok tables' →
  ∀ r, field (feat_of tables' r) = first_of_each (clause_columns query clauses r) (field (feat_of tables r)) ∧
       other (feat_of tables' r) = other (feat_of tables r) ∧
       ∀ k, feature_set k (feat_of tables' r) = feature_set k (feat_of tables r).
Proof.
  intros [Hr Hs Hf Ho]. revert tables. induction clauses as [|c clauses IH]; intros tables; cbn [collect_clauses].
  { intros [= <-] r. done. }
  unfold collect_clause. destruct (get_sortgroupclause_expr c (targetList query)) as [expr| |] eqn:E;
    cbn [mbind outcome_bind]; [|done..].
  intros H r. assert (clause_columns query (c :: clauses) r =
    match clause_column query c with Some (r', a) => if r' =? r then [a] else [] | None => [] end ++
    clause_columns query clauses r) as ->.
  { unfold clause_columns. cbn [omap list_omap]. destruct (clause_column query c) as [[r' a]|]; [|done].
    rewrite filter_cons. cbn [fst]. destruct (Z.eqb_spec r' r); [by rewrite decide_True|by rewrite decide_False]. }
  unfold clause_column. rewrite E.
  destruct (strip_implicit_coercions expr); try by apply (IH _ H).
  destruct (collect_var_attnum query varno varattno) as [[r' a]|]; [|by apply (IH _ H)].
  cbn [mbind outcome_bind] in H. destruct (IH _ H r) as (-> & -> & Hk). setoid_rewrite Hk.
  rewrite (feat_of_get _ _ _ _ (Hr a)). rewrite (Z.eqb_sym r' r).
  destruct (Z.eqb_spec r r') as [->|]; [|done]. rewrite Hf, Ho. split_and!; [done..|]. intros k. apply Hs.
Qed.

(** ** Invariants of the tables *)

(** An invariant of the list of tables that is kept by every update an
    [allowed] change of an entry makes. *)
Section tables_invariant.

Context (cat : catalog) (query : Query) (J : list NrimTableFeat → Prop).
Context (allowed : (NrimTableFeat → NrimTableFeat) → Prop).
Context (allowed_id : allowed (λ tf, tf)).
Context (allowed_add : ∀ k a f, 0 < a → allowed f → allowed (λ tf, add_feature k a (f tf))).
Context (J_get : ∀ tables r f, RTE_RELATION r ∈ rtable query → r ≠ 0 → allowed f → J tables →
                               J (nrim_get_table_feat tables r f)).

Lemma op_invariant opno lhs rhs tables : J tables → J (nrim_feat_op cat query opno lhs rhs tables).
Proof.
  intros H. unfold nrim_feat_op, add_key_side, add_filter_side. cbv zeta.
  destruct (nrim_collect_var_attnum_sargability query lhs) as [[[rl al] sl]|] eqn:El;
    [apply collect_sargability_Some in El as (? & ? & ?)|];
  destruct (nrim_collect_var_attnum_sargability query rhs) as [[[rr ar] sr]|] eqn:Er;
    try apply collect_sargability_Some in Er as (? & ? & ?);
  repeat match goal with
    | |- J (nrim_get_table_feat _ _ _) => apply J_get; [done|done| |]
    | |- allowed (λ tf, tf) => apply allowed_id
    | |- allowed (λ tf, add_feature ?k ?a (@?f tf)) => apply (allowed_add k a f); [done|]
    | |- allowed (add_feature ?k ?a) => apply (allowed_add k a (λ tf, tf)); [done|]
    | |- context [match ?b with true => _ | false => _ end] => is_var b; destruct b
    | |- context [if ?b then _ else _] => destruct b
    | _ => done
    end.
Qed.

Lemma walker_invariant node tables : J tables → J (nrim_feat_walker cat query node tables).
Proof.
  revert tables. induction node using node_induction; intros tables H'; try exact (IHnode tables H');
    [done|cbn [nrim_feat_walker]..].
  - assert (J match args with [l; r] => nrim_feat_op cat query o l r tables | _ => tables end) as H''.
    { destruct args as [|? [|? [|? ?]]]; try done. by apply op_invariant. }
    revert H''. generalize (match args with [l; r] => nrim_feat_op cat query o l r tables | _ => tables end).
    induction H as [|n nodes Hn _ IH]; [done|]. intros t Ht. by apply IH, Hn.
  - revert tables H'. induction H as [|n nodes Hn _ IH]; [done|]. intros t Ht. by apply IH, Hn.
  - revert tables H'. induction H as [|n nodes Hn _ IH]; [done|]. intros t Ht. by apply IH, Hn.
Qed.

Lemma clauses_invariant add clauses tables tables' :
  (∀ a, 0 < a → allowed (add a)) → J tables → collect_clauses query add clauses tables = Ok tables' → J tables'.
Proof.
  intros Hadd. revert tables. induction clauses as [|c clauses IH]; intros tables H; cbn [collect_clauses]; [by intros [= <-]|].
  unfold collect_clause. destruct (get_sortgroupclause_expr c (targetList query)) as [expr| |];
    cbn [mbind outcome_bind]; [|done..].
  destruct (strip_implicit_coercions expr); try by apply IH.
  destruct (collect_var_attnum query varno varattno) as [[r a]|] eqn:E; [|by apply IH].
  apply collect_var_attnum_Some in E as (Hr & Hr0 & Ha). cbn [mbind outcome_bind].
  apply IH, J_get; auto.
Qed.

Lemma query_tables_invariant tables :
  (∀ a, 0 < a → allowed (add_order a)) → (∀ a, 0 < a → allowed (add_group a)) → J [] →
  query_tables cat query = Ok tables → J tables.
Proof.
  intros Ho Hg H0. unfold query_tables, nrim_collect_order_group. intros H.
  set (t0 := match quals query with Some _ => _ | None => [] end) in H.
  assert (J t0) as Ht0 by (subst t0; destruct (quals query); [by apply walker_invariant|done]).
  destruct (collect_clauses query add_order (sortClause query) t0) as [t1| |] eqn:E1; cbn in H; [|done..].
  eapply clauses_invariant in E1; [|done..]. by eapply clauses_invariant in H.
Qed.

End tables_invariant.

Lemma get_forall (I : NrimTableFeat → Prop) tables r f :
  I (empty_feat r) → (∀ tf, I tf → I (f tf)) → Forall I tables → Forall I (nrim_get_table_feat tables r f).
Proof.
  intros H0 Hf. induction 1 as [|tf tables Htf Ht IH]; cbn; [constructor; auto|].
  destruct (_ =? _); constructor; auto.
Qed.

Lemma feat_of_invariant (I : NrimTableFeat → Prop) tables r : Forall I tables → I (empty_feat r) → I (feat_of tables r).
Proof. induction 1; cbn; [done|]. destruct (_ =? _); auto. Qed.

(** The entry of a table that can be in a query. *)
Record table_ok (query : Query) (tf : NrimTableFeat) : Prop := {
  tok_rel : RTE_RELATION (feat_relid tf) ∈ rtable query;
  tok_relid : feat_relid tf ≠ 0;
  tok_sets k : 0 ≤ feature_set k tf;
  tok_order : NoDup (order_cols tf) ∧ Forall (λ a, 0 < a) (order_cols tf);
  tok_group : NoDup (group_cols tf) ∧ Forall (λ a, 0 < a) (group_cols tf)
}.
Lemma query_tables_features cat query tables :
  query_tables cat query = Ok tables →
  ∀ r,
    (∀ k a, 0 < a →
       in_feature tables r k a ↔ ∃ q, quals query = Some q ∧ (r, k, a) ∈ quals_facts cat query q) ∧
    order_cols (feat_of tables r) = first_of_each (clause_columns query (sortClause query) r) [] ∧
    group_cols (feat_of tables r) = first_of_each (clause_columns query (groupClause query) r) [].
Proof.
  unfold query_tables, nrim_collect_order_group. intros H r.
  set (t0 := match quals query with Some _ => _ | None => [] end) in H.
  destruct (collect_clauses query add_order (sortClause query) t0) as [t1| |] eqn:E1; cbn in H; [|done..].
  destruct (collect_clauses_spec _ _ _ _ _ _ _ add_order_update E1 r) as (O1 & G1 & S1).
  destruct (collect_clauses_spec _ _ _ _ _ _ _ add_group_update H r) as (G2 & O2 & S2).
  assert (∀ r k a, 0 < a → in_feature t0 r k a ↔ ∃ q, quals query = Some q ∧ (r, k, a) ∈ quals_facts cat query q) as H0.
  { intros r' k a Ha. subst t0. destruct (quals query) as [q|].
    - rewrite feat_walker_facts by done. unfold in_feature. cbn. destruct k; cbn; rewrite Z.bits_0; naive_solver.
    - unfold in_feature. cbn. destruct k; cbn; rewrite Z.bits_0; naive_solver. }
  assert (order_cols (feat_of t0 r) = [] ∧ group_cols (feat_of t0 r) = []) as [O0 G0].
  { apply (feat_of_invariant (λ tf, order_cols tf = [] ∧ group_cols tf = [])); [|done]. subst t0.
    destruct (quals query) as [q|]; [|constructor].
    apply (walker_invariant cat query _
             (λ f, ∀ tf, order_cols tf = [] ∧ group_cols tf = [] → order_cols (f tf) = [] ∧ group_cols (f tf) = []));
      [done| |by intros; apply get_forall|constructor].
    intros k a f _ Hf tf Htf. specialize (Hf tf Htf). by destruct (f tf), k. }
  rewrite O2, O1, G2, G1, O0, G0. split; [|done]. intros k a Ha. rewrite <- H0 by done.
  unfold in_feature. by rewrite S2, S1.
Qed.

(** C31. The features of a query are exactly what its clauses say: a column is in
    one of a table's sets if and only if a comparison somewhere in the WHERE
    clause puts it there, and the order and grouping columns are those of the
    ORDER BY and GROUP BY clauses, each once, in order. *)
Theorem query_features_exact cat query tables :
  query_tables cat query = Ok tables →
  ∀ r,
    (∀ k a, 0 < a →
       in_feature tables r k a ↔ ∃ q, quals query = Some q ∧ (r, k, a) ∈ quals_facts cat query q) ∧
    order_cols (feat_of tables r) = first_of_each (clause_columns query (sortClause query) r) [] ∧
    group_cols (feat_of tables r) = first_of_each (clause_columns query (groupClause query) r) [].
Proof. apply query_tables_features. Qed.

Lemma add_att_nonneg bms a : 0 ≤ bms → 0 ≤ nrim_add_att_bitmap bms a.
Proof.
  intros H. unfold nrim_add_att_bitmap, bms_add_member. destruct (Z.leb_spec a 0); [done|].
  unfold Z.setbit. rewrite Z.lor_nonneg. split; [done|]. apply Z.shiftl_nonneg. lia.
Qed.

Lemma add_unique_ok l a :
  0 < a → NoDup l ∧ Forall (λ a, 0 < a) l →
  NoDup (nrim_add_att_list_unique l a) ∧ Forall (λ a, 0 < a) (nrim_add_att_list_unique l a).
Proof.
  intros Ha [Hn Hp]. unfold nrim_add_att_list_unique. case_bool_decide; [done|]. split.
  - apply NoDup_app. split; [done|]. split; [|apply NoDup_singleton]. intros y Hy ->%list_elem_of_singleton. done.
  - apply Forall_app. auto.
Qed.

Lemma empty_table_ok query r : RTE_RELATION r ∈ rtable query → r ≠ 0 → table_ok query (empty_feat r).
Proof. intros H1 H2. split; cbn; [done..| |split; constructor|split; constructor]. by intros []. Qed.

Lemma add_feature_ok query k a tf : 0 < a → table_ok query tf → table_ok query (add_feature k a tf).
Proof.
  intros Ha [H1 H2 H3 H4 H5]. destruct tf. destruct k; split; cbn in *; try done; intros [];
    (apply add_att_nonneg; apply (H3 EqCol) || apply (H3 RangeCol) || apply (H3 JoinCol) ||
      apply (H3 FilterCol) || apply (H3 SargableCol) || apply (H3 NonsargableCol)) ||
    apply (H3 EqCol) || apply (H3 RangeCol) || apply (H3 JoinCol) || apply (H3 FilterCol) ||
    apply (H3 SargableCol) || apply (H3 NonsargableCol).
Qed.

Lemma add_order_ok query a tf : 0 < a → table_ok query tf → table_ok query (add_order a tf).
Proof.
  intros Ha [H1 H2 H3 H4 H5]. destruct tf. split; cbn in *; [done..|intros k; by specialize (H3 k); destruct k| |done].
  by apply add_unique_ok.
Qed.

Lemma add_group_ok query a tf : 0 < a → table_ok query tf → table_ok query (add_group a tf).
Proof.
  intros Ha [H1 H2 H3 H4 H5]. destruct tf. split; cbn in *; [done..|intros k; by specialize (H3 k); destruct k|done|].
  by apply add_unique_ok.
Qed.

Lemma query_tables_ok cat query tables : query_tables cat query = Ok tables → Forall (table_ok query) tables.
Proof.
  apply (query_tables_invariant cat query _ (λ f, ∀ tf, table_ok query tf → table_ok query (f tf))).
  - done.
  - intros k a f Ha Hf tf Htf. by apply add_feature_ok, Hf.
  - intros t r f H1 H2 Hf. by apply get_forall; [apply empty_table_ok|].
  - intros a Ha tf. by apply add_order_ok.
  - intros a Ha tf. by apply add_group_ok.
  - constructor.
Qed.

(** Each table has one entry. *)
Lemma elem_of_get_relids tables r f x :
  (∀ tf, feat_relid (f tf) = feat_relid tf) →
  x ∈ feat_relid <$> nrim_get_table_feat tables r f → x ∈ feat_relid <$> tables ∨ x = r.
Proof.
  intros Hf. induction tables as [|tf tables IH]; cbn; rewrite ?elem_of_cons.
  - rewrite Hf. cbn. tauto.
  - destruct (_ =? _); cbn; rewrite elem_of_cons, ?Hf; tauto.
Qed.

Lemma get_relids tables r f :
  (∀ tf, feat_relid (f tf) = feat_relid tf) → NoDup (feat_relid <$> tables) →
  NoDup (feat_relid <$> nrim_get_table_feat tables r f).
Proof.
  intros Hf. induction tables as [|tf tables IH]; cbn; [intros _; apply NoDup_singleton|].
  rewrite NoDup_cons. intros [H1 H2]. destruct (Z.eqb_spec (feat_relid tf) r) as [E|Hne]; cbn.
  - rewrite Hf. by apply NoDup_cons.
  - apply NoDup_cons. split; [|by apply IH]. intros [?|?]%elem_of_get_relids; done.
Qed.

Lemma query_tables_relids cat query tables :
  query_tables cat query = Ok tables → NoDup (feat_relid <$> tables).
Proof.
  apply (query_tables_invariant cat query (λ t, NoDup (feat_relid <$> t)) (λ f, ∀ tf, feat_relid (f tf) = feat_relid tf)).
  - done.
  - intros k a f _ Hf tf. rewrite <- (Hf tf). by destruct (f tf), k.
  - intros t r f _ _. apply get_relids.
  - intros a _ []. done.
  - intros a _ []. done.
  - apply NoDup_nil_2.
Qed.

Lemma feat_of_elem tables tf : NoDup (feat_relid <$> tables) → tf ∈ tables → feat_of tables (feat_relid tf) = tf.
Proof.
  induction tables as [|t tables IH]; cbn; [by intros _ ?%elem_of_nil|].
  rewrite NoDup_cons, elem_of_cons. intros [H1 H2] [->|Hin]; [by rewrite Z.eqb_refl|].
  destruct (Z.eqb_spec (feat_relid t) (feat_relid tf)) as [E|_]; [|by apply IH].
  exfalso. apply H1. rewrite E. by apply list_elem_of_fmap_2.
Qed.

(** ** Candidates are well formed *)

(** A column an index of the table could be for. *)
Definition key_column (tf : NrimTableFeat) (a : Z) : Prop :=
  a ∈ attnums (eq_cols tf) ∨ a ∈ attnums (join_cols tf) ∨ a ∈ attnums (range_cols tf) ∨
  a ∈ order_cols tf ∨ a ∈ group_cols tf.

Lemma append_new_spec l members :
  NoDup l → NoDup (append_new l members) ∧ ∀ a, a ∈ append_new l members ↔ a ∈ l ∨ a ∈ members.
Proof.
  revert l. induction members as [|m members IH]; intros l Hl; cbn.
  - split; [done|]. intros a. rewrite elem_of_nil. tauto.
  - destruct (IH (if list_member_int l m then l else l ++ [m])) as [H1 H2].
    { unfold list_member_int. case_bool_decide; [done|]. apply NoDup_app. split; [done|].
      split; [|apply NoDup_singleton]. by intros y Hy ->%list_elem_of_singleton. }
    split; [done|]. intros a. rewrite H2, elem_of_cons. unfold list_member_int.
    case_bool_decide; [naive_solver|]. rewrite elem_of_app, list_elem_of_singleton. tauto.
Qed.

Lemma order_pairs_in r ord used l c :
  c ∈ order_pairs r ord used l → ∃ eq, eq ∈ l ∧ eq ≠ ord ∧ (c = mkCand r [eq; ord] ∨ c = mkCand r [ord; eq]).
Proof.
  revert used. induction l as [|e l IH]; intros used; cbn; [by intros ?%elem_of_nil|].
  destruct (Z.eqb_spec e ord).
  { intros (eq & ? & ?)%IH. exists eq. split; [by right|done]. }
  destruct (2 <=? used); [by intros ?%elem_of_nil|]. rewrite !elem_of_cons.
  intros [->|[->|(eq & ? & ?)%IH]]; [exists e; split; [by left|auto]..|]. exists eq. split; [by right|done].
Qed.

Lemma attnums_pos a x : x ∈ attnums a → 0 < x.
Proof. intros (m & -> & Hm)%list_elem_of_fmap. unfold bms_members in Hm.
  apply list_elem_of_filter in Hm as [_ Hm%elem_of_seqZ]. lia.
Qed.

Lemma key_column_pos query tf a : table_ok query tf → key_column tf a → 0 < a.
Proof.
  intros H [?|[?|[?|[?|?]]]]; [by eapply attnums_pos..| |].
  - by destruct (tok_order _ _ H) as [_ Hp]; rewrite Forall_forall in Hp; apply Hp.
  - by destruct (tok_group _ _ H) as [_ Hp]; rewrite Forall_forall in Hp; apply Hp.
Qed.

(** A candidate is for the table, has one to three distinct columns, and each of
    them is one of the table's key columns. *)
Record cand_for (maxw : Z) (tf : NrimTableFeat) (c : NrimCand) : Prop := {
  cf_relid : relid c = feat_relid tf;
  cf_ncols : 1 ≤ ncols c ≤ Z.max 2 (Z.min 3 maxw);
  cf_nodup : NoDup (cols c);
  cf_cols a : a ∈ cols c → key_column tf a
}.

Lemma single_for maxw tf a : key_column tf a → cand_for maxw tf (single (feat_relid tf) a).
Proof.
  intros Ha. split; [done|unfold ncols, zlen; cbn; lia|apply NoDup_singleton|].
  by intros b ->%list_elem_of_singleton.
Qed.

Lemma pair_for maxw tf a b : key_column tf a → key_column tf b → a ≠ b → cand_for maxw tf (mkCand (feat_relid tf) [a; b]).
Proof.
  intros Ha Hb Hne. split; [done|unfold ncols, zlen; cbn; lia| |].
  - repeat (apply NoDup_cons; split); rewrite ?elem_of_cons, ?elem_of_nil; try naive_solver. apply NoDup_nil_2.
  - intros x. cbn. rewrite !elem_of_cons, elem_of_nil. naive_solver.
Qed.

Lemma generate_for query maxw tf c :
  table_ok query tf → c ∈ nrim_generate_candidates_for_table maxw tf → cand_for maxw tf c.
Proof.
  intros Hok. unfold nrim_generate_candidates_for_table.
  destruct (append_new_spec (attnums (eq_cols tf)) (attnums (join_cols tf)) (NoDup_attnums _)) as [Hnd Hin].
  set (eq_list := append_new _ _) in *. clearbody eq_list.
  assert (∀ a, a ∈ eq_list → key_column tf a) as Hkey by (intros a; rewrite Hin; unfold key_column; tauto).
  assert (∀ l : list Z, (∀ a, a ∈ l → key_column tf a) → c ∈ (single (feat_relid tf) <$> l) → cand_for maxw tf c) as Hsingle'.
  { intros l Hl (a & -> & Ha)%list_elem_of_fmap. by apply single_for, Hl. }
  cbv zeta. rewrite !elem_of_app. unfold key_column in *. intros [H|[H|[H|[H|[H|[H|[H|H]]]]]]].
  - eapply Hsingle'; [|done]. tauto.
  - eapply Hsingle'; [|done]. tauto.
  - eapply Hsingle'; [|done]. tauto.
  - eapply Hsingle'; [|done]. intros a [_ ?]%list_elem_of_filter. tauto.
  - eapply Hsingle'; [|done]. tauto.
  - destruct eq_list as [|a [|b l]]; try by apply elem_of_nil in H. apply list_elem_of_singleton in H as ->.
    apply NoDup_cons in Hnd as [Hne _]. apply pair_for; [apply Hkey; by left|apply Hkey; right; by left|].
    intros ->. apply Hne. by left.
  - destruct eq_list as [|a [|b [|d l]]]; try by apply elem_of_nil in H. destruct (Z.leb_spec 3 maxw); [|by apply elem_of_nil in H].
    apply list_elem_of_singleton in H as ->. split; [done|unfold ncols, zlen; cbn; lia| |].
    + change (a :: b :: d :: l) with ([a; b; d] ++ l) in Hnd. by apply NoDup_app in Hnd as [? _].
    + intros x Hx. apply Hkey. change (a :: b :: d :: l) with ([a; b; d] ++ l). apply elem_of_app. by left.
  - destruct (order_cols tf) as [|ord os] eqn:Eo; [by apply elem_of_nil in H|].
    destruct eq_list as [|e l]; [by apply elem_of_nil in H|]. destruct (2 <=? maxw); [|by apply elem_of_nil in H].
    apply order_pairs_in in H as (eq & Heq & Hne & [-> | ->]); apply pair_for; try done;
      unfold key_column; rewrite Eo; try (by apply Hkey); rewrite elem_of_cons; tauto.
Qed.

(** ** Merging *)

Lemma cols_equal_spec a b : cols_equal a b = true ↔ a `prefix_of` b.
Proof.
  revert b. induction a as [|x a IH]; intros b; cbn; [split; [intros _; apply prefix_nil|done]|].
  destruct b as [|y b]; [split; [done|by intros [k ?]]|].
  rewrite andb_true_iff, Z.eqb_eq, IH. split; [intros [-> ?]; by apply prefix_cons|].
  intros H. split; [by eapply prefix_cons_inv_1|by eapply prefix_cons_inv_2].
Qed.

Lemma cand_equals_spec a b : nrim_cand_equals a b = true ↔ a = b.
Proof.
  unfold nrim_cand_equals. destruct (Z.eqb_spec (relid a) (relid b)) as [Er|Er], (Z.eqb_spec (ncols a) (ncols b)) as [En|En]; cbn.
  - rewrite cols_equal_spec. split; [|by intros ->]. intros [k Hk]. unfold ncols, zlen in En.
    rewrite Hk, length_app in En. destruct k as [|x k]; [|cbn in En; lia]. rewrite app_nil_r in Hk.
    destruct a, b. cbn in *. by subst.
  - split; [done|by intros ->].
  - split; [done|by intros ->].
  - split; [done|by intros ->].
Qed.

Lemma existsb_equals c l : existsb (nrim_cand_equals c) l = bool_decide (c ∈ l).
Proof.
  apply eq_true_iff_eq. rewrite existsb_exists, bool_decide_eq_true. split.
  - by intros (d & Hd%list_elem_of_In & ->%cand_equals_spec).
  - intros H. exists c. split; [by apply list_elem_of_In|by apply cand_equals_spec].
Qed.

Lemma dedupe_spec cands acc :
  NoDup acc →
  NoDup (dedupe cands acc) ∧ (∀ c, c ∈ dedupe cands acc ↔ c ∈ acc ∨ c ∈ cands) ∧
  ∃ l, l `sublist_of` cands ∧ dedupe cands acc = acc ++ l.
Proof.
  revert acc. induction cands as [|c cands IH]; intros acc Ha; cbn.
  - split; [done|]. split; [intros c; rewrite elem_of_nil; tauto|]. exists []. by rewrite app_nil_r.
  - rewrite existsb_equals. case_bool_decide as Hc.
    + destruct (IH acc Ha) as (H1 & H2 & l & Hl & E). split; [done|]. split.
      * intros d. rewrite H2, elem_of_cons. naive_solver.
      * exists l. split; [by constructor|done].
    + destruct (IH (acc ++ [c])) as (H1 & H2 & l & Hl & E).
      { apply NoDup_app. split; [done|]. split; [|apply NoDup_singleton]. by intros y Hy ->%list_elem_of_singleton. }
      split; [done|]. split.
      * intros d. rewrite H2, elem_of_app, list_elem_of_singleton, elem_of_cons. tauto.
      * exists (c :: l). split; [by constructor|]. by rewrite E, <- app_assoc.
Qed.

Lemma dedupe_NoDup cands acc : NoDup (acc ++ cands) → dedupe cands acc = acc ++ cands.
Proof.
  revert acc. induction cands as [|c cands IH]; intros acc H; cbn; [by rewrite app_nil_r|].
  rewrite existsb_equals, bool_decide_false.
  - rewrite (IH (acc ++ [c])); by rewrite <- app_assoc.
  - apply NoDup_app in H as (_ & H & _). intros Hc. apply (H c Hc). by left.
Qed.

(** [c] has one column, and [d] is a wider index that starts with it. *)
Definition covered_by (c d : NrimCand) : Prop :=
  ncols c = 1 ∧ relid d = relid c ∧ 1 < ncols d ∧ cols c `prefix_of` cols d.

Lemma dropped_by_spec l c : dropped_by l c = true ↔ ∃ d, d ∈ l ∧ covered_by c d.
Proof.
  unfold dropped_by, covered_by, nrim_cand_is_prefix_of.
  rewrite andb_true_iff, Z.eqb_eq, existsb_exists. split.
  - intros (H1 & d & Hd%list_elem_of_In & [[Hr%Z.eqb_eq Hn%Z.ltb_lt]%andb_true_iff Hp]%andb_true_iff).
    exists d. rewrite (Z.eqb_sym), Hr, Z.eqb_refl in Hp. cbn in Hp.
    destruct (_ <=? _); [done|]. apply cols_equal_spec in Hp. done.
  - intros (d & Hd & H1 & Hr & Hn & Hp). split; [done|]. exists d. split; [by apply list_elem_of_In|].
    rewrite Hr, Z.eqb_refl. rewrite (proj2 (Z.ltb_lt 1 (ncols d))) by done. cbn.
    rewrite H1, (proj2 (Z.leb_gt _ _)) by done. by apply cols_equal_spec.
Qed.

Lemma merge_NoDup cands : NoDup (nrim_merge_candidates cands).
Proof. apply NoDup_filter. by destruct (dedupe_spec cands [] NoDup_nil_2). Qed.

Lemma merge_elem cands c :
  c ∈ nrim_merge_candidates cands ↔ c ∈ cands ∧ ¬ ∃ d, d ∈ cands ∧ covered_by c d.
Proof.
  unfold nrim_merge_candidates. destruct (dedupe_spec cands [] NoDup_nil_2) as (_ & H2 & _).
  assert (∀ c, c ∈ dedupe cands [] ↔ c ∈ cands) as Hin by (intros d; rewrite H2, elem_of_nil; tauto).
  rewrite list_elem_of_filter, Hin, <- not_true_iff_false, dropped_by_spec. setoid_rewrite Hin. tauto.
Qed.

(** [nrim_merge_candidates] keeps exactly the candidates that are not a
    single column another candidate of the same table starts with, each once
    and in their order; merging again changes nothing. *)
Theorem merge_candidates_exact cands :
  NoDup (nrim_merge_candidates cands) ∧
  (∀ c, c ∈ nrim_merge_candidates cands ↔ c ∈ cands ∧ ¬ ∃ d, d ∈ cands ∧ covered_by c d) ∧
  nrim_merge_candidates cands `sublist_of` cands ∧
  nrim_merge_candidates (nrim_merge_candidates cands) = nrim_merge_candidates cands.
Proof.
  split_and!; [apply merge_NoDup|apply merge_elem|..].
  - destruct (dedupe_spec cands [] NoDup_nil_2) as (_ & _ & l & Hl & E).
    unfold nrim_merge_candidates. etransitivity; [apply sublist_filter|]. by rewrite E.
  - set (m := nrim_merge_candidates cands). unfold nrim_merge_candidates.
    rewrite (dedupe_NoDup m []) by apply merge_NoDup.
    apply filter_all. intros c Hc. apply not_true_iff_false. rewrite dropped_by_spec. intros (d & Hd & Hcov).
    apply merge_elem in Hc as [_ Hc]. apply merge_elem in Hd as [Hd _]. apply Hc. by exists d.
Qed.

Lemma elem_of_generated maxw tables c :
  c ∈ concat (nrim_generate_candidates_for_table maxw <$> tables) ↔
  ∃ tf, tf ∈ tables ∧ c ∈ nrim_generate_candidates_for_table maxw tf.
Proof.
  induction tables as [|tf tables IH]; cbn.
  - rewrite elem_of_nil. split; [done|]. by intros (? & ?%elem_of_nil & _).
  - rewrite elem_of_app, IH. split.
    + intros [?|(t & ? & ?)]; [exists tf; split; [by left|done]|exists t; split; [by right|done]].
    + intros (t & [->|?]%elem_of_cons & ?); [by left|right; by exists t].
Qed.

(** Why a column of a table is in an index candidate. *)
Definition wanted_column (cat : catalog) (query : Query) (r a : Z) : Prop :=
  (∃ q k, quals query = Some q ∧ k ∈ [EqCol; JoinCol; RangeCol] ∧ (r, k, a) ∈ quals_facts cat query q) ∨
  a ∈ clause_columns query (sortClause query) r ∨ a ∈ clause_columns query (groupClause query) r.

Section of_query.

Context (cat : catalog) (s : settings) (query : Query) (tables : list NrimTableFeat).
Context (Htables : query_tables cat query = Ok tables).

Lemma table_feature tf k a :
  tf ∈ tables → 0 < a → Z.testbit (feature_set k tf) (a - 1) = true ↔ in_feature tables (feat_relid tf) k a.
Proof.
  intros Ht Ha. unfold in_feature. rewrite feat_of_elem; [done|by eapply query_tables_relids|done].
Qed.

Lemma table_attnums tf k a :
  tf ∈ tables →
  a ∈ attnums (feature_set k tf) ↔
  0 < a ∧ ∃ q, quals query = Some q ∧ (feat_relid tf, k, a) ∈ quals_facts cat query q.
Proof.
  intros Ht. pose proof (query_tables_ok _ _ _ Htables) as Hok. rewrite Forall_forall in Hok.
  rewrite attnums_spec by (by apply (tok_sets query), Hok).
  split; (intros [Ha H]; split; [done|]).
  - rewrite table_feature in H by done. by apply (query_tables_features cat query tables) in H.
  - rewrite table_feature by done. by apply (query_tables_features cat query tables).
Qed.

Lemma table_lists tf a :
  tf ∈ tables →
  (a ∈ order_cols tf ↔ a ∈ clause_columns query (sortClause query) (feat_relid tf)) ∧
  (a ∈ group_cols tf ↔ a ∈ clause_columns query (groupClause query) (feat_relid tf)).
Proof.
  intros Ht. destruct (query_tables_features cat query tables Htables (feat_relid tf)) as (_ & Ho & Hg).
  rewrite feat_of_elem in Ho, Hg by (done || by eapply query_tables_relids). rewrite Ho, Hg.
  destruct (first_of_each_spec (clause_columns query (sortClause query) (feat_relid tf)) [] NoDup_nil_2) as [_ ->].
  destruct (first_of_each_spec (clause_columns query (groupClause query) (feat_relid tf)) [] NoDup_nil_2) as [_ ->].
  rewrite elem_of_nil. tauto.
Qed.

Lemma key_column_wanted tf a : tf ∈ tables → key_column tf a → wanted_column cat query (feat_relid tf) a.
Proof.
  intros Ht. unfold key_column, wanted_column. destruct (table_lists tf a Ht) as [-> ->].
  intros [H|[H|[H|H]]]; [left..|by right].
  - apply (table_attnums tf EqCol) in H as (_ & q & ? & ?); [|done]. exists q, EqCol. split; [done|]. split; [by left|done].
  - apply (table_attnums tf JoinCol) in H as (_ & q & ? & ?); [|done]. exists q, JoinCol. split; [done|]. split; [right; by left|done].
  - apply (table_attnums tf RangeCol) in H as (_ & q & ? & ?); [|done]. exists q, RangeCol. split; [done|]. split; [do 2 right; by left|done].
Qed.

End of_query.

Lemma candidates_wf cat s query cands c :
  query_candidates cat s query = Ok cands → c ∈ cands →
  RTE_RELATION (relid c) ∈ rtable query ∧ relid c ≠ 0 ∧
  1 ≤ ncols c ≤ Z.max 2 (Z.min 3 (nr_reactive_max_columns_per_index s)) ∧
  NoDup (cols c) ∧ ∀ a, a ∈ cols c → 0 < a ∧ wanted_column cat query (relid c) a.
Proof.
  unfold query_candidates. destruct (query_tables cat query) as [tables| |] eqn:Et; cbn; [|done..].
  intros [= <-] Hc. apply merge_elem in Hc as [Hc _].
  apply elem_of_generated in Hc as (tf & Ht & Hc). pose proof (query_tables_ok _ _ _ Et) as Hok.
  rewrite Forall_forall in Hok. specialize (Hok tf Ht). destruct (generate_for query _ tf c Hok Hc) as [Hr Hn Hnd Ha].
  rewrite Hr. split_and!; [apply Hok|apply Hok|lia|lia|done|]. intros a Hin. specialize (Ha a Hin).
  split; [by eapply key_column_pos|by eapply key_column_wanted].
Qed.

(** C32. Every candidate of a query is a well-formed index: it is for a relation
    of the query's range table, has one to three columns and never more than
    two or the configured width, its columns are distinct and positive, and
    each is compared, joined, ordered or grouped by in the query. *)
Theorem candidates_well_formed cat s query cands c :
  query_candidates cat s query = Ok cands → c ∈ cands →
  RTE_RELATION (relid c) ∈ rtable query ∧ relid c ≠ 0 ∧
  1 ≤ ncols c ≤ Z.max 2 (Z.min 3 (nr_reactive_max_columns_per_index s)) ∧
  NoDup (cols c) ∧ ∀ a, a ∈ cols c → 0 < a ∧ wanted_column cat query (relid c) a.
Proof. apply candidates_wf. Qed.

Lemma feat_of_cases tables r :
  feat_of tables r = empty_feat r ∨ feat_of tables r ∈ tables ∧ feat_relid (feat_of tables r) = r.
Proof.
  induction tables as [|tf tables IH]; cbn; [by left|]. destruct (Z.eqb_spec (feat_relid tf) r); [right; split; [by left|done]|].
  destruct IH as [?|[? ?]]; [by left|right; split; [by right|done]].
Qed.

(** A candidate survives merging, or a wider one that starts with its column does. *)
Lemma merge_leads cands r a :
  mkCand r [a] ∈ cands → ∃ c, c ∈ nrim_merge_candidates cands ∧ relid c = r ∧ head (cols c) = Some a.
Proof.
  intros Hin. destruct (decide (Exists (covered_by (mkCand r [a])) cands)) as [H|H]; [|].
  - apply Exists_exists in H as (d & Hd & H1 & Hr & Hn & Hp). exists d. split.
    + apply merge_elem. split; [done|]. intros (e & _ & H1' & _). lia.
    + split; [done|]. destruct Hp as [k ->]. done.
  - exists (mkCand r [a]). split; [|done]. apply merge_elem. split; [done|]. intros (d & Hd & Hc). apply H.
    apply Exists_exists. by exists d.
Qed.

Lemma generate_single maxw tf a :
  a ∈ attnums (eq_cols tf) ∨ a ∈ attnums (join_cols tf) ∨ a ∈ attnums (range_cols tf) ∨ a ∈ group_cols tf →
  mkCand (feat_relid tf) [a] ∈ nrim_generate_candidates_for_table maxw tf.
Proof.
  intros H. change (mkCand (feat_relid tf) [a]) with (single (feat_relid tf) a).
  unfold nrim_generate_candidates_for_table. cbv zeta. rewrite !elem_of_app.
  destruct H as [H|[H|[H|H]]]; apply (list_elem_of_fmap_2 (single (feat_relid tf))) in H; tauto.
Qed.

(** No wanted column is lost: each column a sargable comparison or join
    names, and each grouping column, leads one of the merged candidates. *)
Theorem candidates_complete cat s query cands r a :
  query_candidates cat s query = Ok cands → 0 < a →
  (∃ q k, quals query = Some q ∧ k ∈ [EqCol; JoinCol; RangeCol] ∧ (r, k, a) ∈ quals_facts cat query q) ∨
  a ∈ clause_columns query (groupClause query) r →
  ∃ c, c ∈ cands ∧ relid c = r ∧ head (cols c) = Some a.
Proof.
  unfold query_candidates. destruct (query_tables cat query) as [tables| |] eqn:Et; cbn; [|done..].
  intros [= <-] Ha Hwant. apply merge_leads.
  destruct (query_tables_features cat query tables Et r) as (Hf & _ & Hg).
  assert (feat_of tables r ∈ tables ∧ feat_relid (feat_of tables r) = r) as [Hin Hr].
  { destruct (feat_of_cases tables r) as [E|?]; [exfalso|done]. destruct Hwant as [(q & k & Hq & _ & Hk)|Hc].
    - assert (in_feature tables r k a) as Hb by (apply Hf; eauto). unfold in_feature in Hb. rewrite E in Hb.
      destruct k; cbn in Hb; by rewrite Z.bits_0 in Hb.
    - rewrite E in Hg. cbn in Hg. apply (elem_of_nil a).
      replace [] with (first_of_each (clause_columns query (groupClause query) r) []).
      destruct (first_of_each_spec (clause_columns query (groupClause query) r) [] NoDup_nil_2) as [_ ->]. by right. }
  apply elem_of_generated. exists (feat_of tables r). split; [done|]. rewrite <- Hr at 1. apply generate_single.
  destruct Hwant as [(q & k & Hq & Hk & Hfact)|Hc].
  - assert (a ∈ attnums (feature_set k (feat_of tables r))) as Hat.
    { apply (table_attnums cat query tables Et); [done|]. rewrite Hr. eauto. }
    rewrite !elem_of_cons, elem_of_nil in Hk. destruct Hk as [->|[->|[->|[]]]]; cbn in Hat; tauto.
  - do 3 right. apply (table_lists cat query tables Et _ a Hin). by rewrite Hr.
Qed.

(** ** An input function for [jsonb] texts

    A reader of compact JSON texts of integers, strings without escapes, arrays
    and objects: it satisfies the promise of [JsonbInput]. *)
Module CompactJson.

Definition digits_value (s : text) : option (Z * text) :=
  match scan_digits 0 0 s with (n, S _, r) => Some (n, r) | _ => None end.

Definition next_char_is (c : ascii) (s : text) : bool :=
  match s with d :: _ => ascii_eqb d c | [] => false end.

Fixpoint span_string (s : text) : option (text * text) :=
  match s with
  | [] => None
  | c :: s => if ascii_eqb c DQUOTE then Some ([], s) else '(k, r) ← span_string s; Some (c :: k, r)
  end.

Fixpoint parse_value (fuel : nat) (s : text) : option (json * text) :=
  match fuel, s with
  | S fuel, c :: s' =>
      if ascii_eqb c "[" then
        if next_char_is "]" s' then Some (JArr [], drop 1 s')
        else '(l, r) ← parse_elems fuel s'; Some (JArr l, r)
      else if ascii_eqb c "{" then
        if next_char_is "}" s' then Some (JObj [], drop 1 s')
        else '(l, r) ← parse_members fuel s'; Some (JObj l, r)
      else if ascii_eqb c DQUOTE then '(k, r) ← span_string s'; Some (JStr k, r)
      else if ascii_eqb c "-" then '(n, r) ← digits_value s'; Some (JNum (- n), r)
      else '(n, r) ← digits_value s; Some (JNum n, r)
  | _, _ => None
  end
with parse_elems (fuel : nat) (s : text) : option (list json * text) :=
  match fuel with
  | O => None
  | S fuel =>
      '(v, r) ← parse_value fuel s;
      if next_char_is "," r then '(l, r) ← parse_elems fuel (drop 1 r); Some (v :: l, r)
      else if next_char_is "]" r then Some ([v], drop 1 r) else None
  end
with parse_members (fuel : nat) (s : text) : option (list (text * json) * text) :=
  match fuel, s with
  | S fuel, c :: s =>
      if ascii_eqb c DQUOTE then
        '(k, r) ← span_string s;
        if next_char_is ":" r then
          '(v, r) ← parse_value fuel (drop 1 r);
          if next_char_is "," r then '(l, r) ← parse_members fuel (drop 1 r); Some ((k, v) :: l, r)
          else if next_char_is "}" r then Some ([(k, v)], drop 1 r) else None
        else None
      else None
  | _, _ => None
  end.

Definition jsonb_in (t : text) : outcome (list JsonbToken) :=
  match parse_value (length t) t with
  | Some (v, []) => Ok (json_tokens v)
  | _ => Raise "invalid input syntax for type json"
  end.

(** Induction over JSON values. *)
Section json_induction.

Context (P : json → Prop) (HNum : ∀ n, P (JNum n)) (HStr : ∀ s, P (JStr s))
        (HArr : ∀ l, Forall P l → P (JArr l)) (HObj : ∀ l, Forall (λ m, P m.2) l → P (JObj l)).

Fixpoint json_induction (v : json) : P v :=
  match v with
  | JNum n => HNum n
  | JStr s => HStr s
  | JArr l =>
      HArr l ((fix all (l : list json) : Forall P l :=
                 match l with [] => Forall_nil_2 P | v :: l => Forall_cons_2 P v l (json_induction v) (all l) end) l)
  | JObj l =>
      HObj l ((fix all (l : list (text * json)) : Forall (λ m, P m.2) l :=
                 match l with
                 | [] => Forall_nil_2 _
                 | (k, v) :: l => Forall_cons_2 (λ m, P m.2) (k, v) l (json_induction v) (all l)
                 end) l)
  end.

End json_induction.

(** What follows a value in a text. *)
Definition value_end (r : text) : Prop := match r with c :: _ => digit_val c = None | [] => True end.

Lemma digits_value_print n r : 0 ≤ n < 10 ^ 20 → value_end r → digits_value (print_digits 20 n [] ++ r) = Some (n, r).
Proof.
  intros Hn Hr. unfold digits_value. rewrite <- print_digits_app.
  destruct (scan_digits_print 20 n r 0 0) as (k & Hk & ->); [done|lia|]. rewrite Z.mul_0_l, Z.add_0_l, Nat.add_0_l.
  assert (scan_digits n k r = (n, k, r)) as ->.
  { destruct r as [|c r]; [done|]. cbn in Hr |- *. by rewrite Hr. }
  by destruct k as [|k]; [lia|].
Qed.

Definition string_char (c : ascii) : bool :=
  negb (ascii_eqb c DQUOTE || ascii_eqb c BACKSLASH) && (32 <=? N_of_ascii c)%N.

Lemma span_quoted s r : forallb string_char s = true → span_string (s ++ DQUOTE :: r) = Some (s, r).
Proof.
  induction s as [|c s IH]; [done|]. cbn [forallb app span_string]. intros [Hc Hs]%andb_true_iff.
  unfold string_char in Hc. destruct (ascii_eqb c DQUOTE); [done|]. by rewrite IH.
Qed.

(** The first character of a value's text. *)
Lemma json_text_head v : json_simple v = true → ∃ c t, json_text v = c :: t ∧ ascii_eqb c "]" = false.
Proof.
  destruct v as [n|s|l|l]; cbn [json_simple json_text]; [|unfold quoted; eauto|eauto..].
  intros [H1%Z.ltb_lt H2%Z.ltb_lt]%andb_true_iff.
  destruct (print_int_head n) as (c & t & -> & [->|(d & Hd & ->)]); [lia|eauto..].
  eexists _, _. split; [done|]. by apply digit_char_not.
Qed.

Lemma parse_number n fuel r :
  -10 ^ 20 < n < 10 ^ 20 → value_end r → (0 < fuel)%nat →
  parse_value fuel (print_int n ++ r) = Some (JNum n, r).
Proof.
  intros Hn Hr Hf. destruct fuel as [|fuel]; [lia|]. unfold print_int. destruct (Z.ltb_spec n 0).
  - cbn -[digits_value print_digits]. rewrite digits_value_print by (done || lia). cbn. do 3 f_equal. lia.
  - destruct (print_digits_head 20 n []) as (d & t & Hd & E); [lia..|].
    pose proof (digits_value_print n r ltac:(lia) Hr) as Hv. rewrite E in Hv |- *. cbn [app parse_value] in Hv |- *.
    rewrite !digit_char_not by done. by rewrite Hv.
Qed.

Definition parses (v : json) : Prop :=
  ∀ fuel r, json_simple v = true → (length (json_text v) ≤ fuel)%nat → value_end r →
            parse_value fuel (json_text v ++ r) = Some (v, r).

Lemma length_json_text v : json_simple v = true → (0 < length (json_text v))%nat.
Proof. intros (c & t & -> & _)%json_text_head. cbn. lia. Qed.

Lemma join_cons2 (t u : text) l : join_comma (t :: u :: l) = t ++ ","%char :: join_comma (u :: l).
Proof. done. Qed.

Lemma parse_elems_text l fuel r :
  l ≠ [] → Forall parses l → forallb json_simple l = true → (length (join_comma (map json_text l)) < fuel)%nat →
  parse_elems fuel (join_comma (map json_text l) ++ "]"%char :: r) = Some (l, r).
Proof.
  intros Hne Hp. revert fuel. induction Hp as [|v l Hv Hl IH]; [done|]. intros fuel Hs Hf.
  cbn [forallb] in Hs. apply andb_true_iff in Hs as [Hsv Hs]. destruct fuel as [|fuel]; [lia|].
  pose proof (length_json_text v Hsv). destruct l as [|v' l].
  - cbn [map join_comma] in *. cbn [parse_elems]. rewrite Hv by (done || lia). cbn. by rewrite drop_0.
  - change (map json_text (v :: v' :: l)) with (json_text v :: json_text v' :: map json_text l) in *.
    rewrite join_cons2, length_app in *. cbn [length] in Hf.
    rewrite <- app_assoc. cbn [app parse_elems]. rewrite Hv by (done || lia).
    cbn [mbind option_bind next_char_is drop]. change (ascii_eqb "," ",") with true. cbv iota.
    rewrite drop_0. change (json_text v' :: map json_text l) with (map json_text (v' :: l)) in *.
    rewrite IH by (done || lia). done.
Qed.

Definition member_text (m : text * json) : text := match m with (k, v) => quoted k ++ text_of ":" ++ json_text v end.
Definition member_simple (m : text * json) : bool := match m with (k, v) => forallb string_char k && json_simple v end.

Lemma parse_members_text l fuel r :
  l ≠ [] → Forall (λ m, parses m.2) l → forallb member_simple l = true →
  (length (join_comma (map member_text l)) < fuel)%nat →
  parse_members fuel (join_comma (map member_text l) ++ "}"%char :: r) = Some (l, r).
Proof.
  intros Hne Hp. revert fuel. induction Hp as [|[k v] l Hv Hl IH]; [done|]. intros fuel Hs Hf. cbn [snd] in Hv.
  cbn [forallb member_simple] in Hs. apply andb_true_iff in Hs as [[Hk Hsv]%andb_true_iff Hs].
  destruct fuel as [|fuel]; [lia|]. pose proof (length_json_text v Hsv).
  assert (∀ rest, value_end rest → (length (json_text v) ≤ fuel)%nat →
    parse_members (S fuel) (member_text (k, v) ++ rest) =
      if next_char_is "," rest then '(l, r) ← parse_members fuel (drop 1 rest); Some ((k, v) :: l, r)
      else if next_char_is "}" rest then Some ([(k, v)], drop 1 rest) else None) as Hstep.
  { intros rest Hr Hlen. cbn [member_text]. unfold quoted. rewrite <- !app_comm_cons, <- !app_assoc.
    cbn [app parse_members]. change (ascii_eqb DQUOTE DQUOTE) with true. cbv iota.
    rewrite span_quoted by done. cbn [mbind option_bind text_of String.list_ascii_of_string app next_char_is drop].
    change (ascii_eqb ":" ":") with true. cbv iota. rewrite drop_0, Hv by done. done. }
  assert (length (member_text (k, v)) = (length k + 3 + length (json_text v))%nat) as Hlen.
  { cbn. rewrite !length_app. cbn. lia. }
  destruct l as [|m l].
  - cbn [map join_comma] in *. rewrite Hstep by (done || lia). cbn. by rewrite drop_0.
  - change (map member_text ((k, v) :: m :: l)) with (member_text (k, v) :: member_text m :: map member_text l) in *.
    rewrite join_cons2, length_app in *. cbn [length] in Hf.
    rewrite <- app_assoc. cbn [app]. rewrite Hstep by (done || lia).
    cbn [next_char_is drop]. change (ascii_eqb "," ",") with true. cbv iota.
    rewrite drop_0. change (member_text m :: map member_text l) with (map member_text (m :: l)) in *.
    rewrite IH by (done || lia). done.
Qed.

Lemma parse_text v : parses v.
Proof.
  induction v as [n|s|l IH|l IH] using json_induction; intros fuel r Hs Hf Hr.
  - cbn [json_simple json_text] in *. apply andb_true_iff in Hs as [H1%Z.ltb_lt H2%Z.ltb_lt].
    apply parse_number; [lia|done|]. destruct (print_int_head n) as (c & t & E & _); [lia|]. rewrite E in Hf. cbn in Hf. lia.
  - cbn [json_text] in *. unfold quoted in *. destruct fuel as [|fuel]; [cbn in Hf; lia|].
    rewrite <- app_comm_cons, <- app_assoc. cbn [app parse_value].
    change (ascii_eqb DQUOTE "[") with false. change (ascii_eqb DQUOTE "{") with false.
    change (ascii_eqb DQUOTE DQUOTE) with true. cbv iota. by rewrite span_quoted.
  - cbn [json_text json_simple] in *. destruct fuel as [|fuel]; [cbn in Hf; lia|].
    rewrite !length_app in Hf. cbn [text_of String.list_ascii_of_string length app] in *.
    rewrite <- app_assoc. cbn [app parse_value]. change (ascii_eqb "[" "[") with true. cbv iota.
    destruct l as [|v l]; [done|]. rewrite parse_elems_text by (done || (cbn [length] in Hf; lia)).
    assert (next_char_is "]" (join_comma (map json_text (v :: l)) ++ "]"%char :: r) = false) as ->; [|done].
    cbn [forallb] in Hs. apply andb_true_iff in Hs as [Hv _].
    destruct (json_text_head v Hv) as (c & t & E & Hc). cbn [map]. rewrite E. by destruct (map json_text l).
  - cbn [json_text json_simple] in *. destruct fuel as [|fuel]; [cbn in Hf; lia|].
    rewrite !length_app in Hf. cbn [text_of String.list_ascii_of_string length app] in *.
    rewrite <- app_assoc. cbn [app parse_value]. change (ascii_eqb "{" "[") with false.
    change (ascii_eqb "{" "{") with true. cbv iota.
    destruct l as [|[k v] l]; [done|].
    assert (next_char_is "}" (join_comma (map member_text ((k, v) :: l)) ++ "}"%char :: r) = false) as E by (by destruct l).
    change (map (λ m, match m with (k, v) => _ end) ((k, v) :: l)) with (map member_text ((k, v) :: l)) in *.
    rewrite E, parse_members_text by (done || lia). done.
Qed.

End CompactJson.

Lemma compact_jsonb_in_text v : json_simple v = true → CompactJson.jsonb_in (json_text v) = Ok (json_tokens v).
Proof.
  intros Hv. unfold CompactJson.jsonb_in. pose proof (CompactJson.parse_text v (length (json_text v)) [] Hv (le_n _) I) as E.
  rewrite app_nil_r in E. by rewrite E.
Qed.

Definition CompactJsonbInput : JsonbInput :=
  {| jsonb_in := CompactJson.jsonb_in; jsonb_in_text := compact_jsonb_in_text |}.

(** ** The candidates survive the trip to the worker *)

Record cand_sendable (c : NrimCand) : Prop := {
  cs_relid : 0 < relid c < 2 ^ 32;
  cs_ncols : 1 ≤ ncols c ≤ 8;
  cs_cols : Forall (λ a, 0 < a ≤ INT16_MAX) (cols c)
}.

Definition cand_json (c : NrimCand) : json :=
  JObj [(text_of "relid", JNum (relid c)); (text_of "cols", JArr (map JNum (cols c)))].

Lemma cand_text_json c : cand_text c = json_text (cand_json c).
Proof.
  unfold cand_text, cand_json. cbn [json_text map join_comma]. rewrite map_map. cbn [json_text].
  change (text_of ":[") with (text_of ":" ++ text_of "["). change (text_of "]}") with (text_of "]" ++ text_of "}").
  change (map (λ x, print_int x) (cols c)) with (print_int <$> cols c).
  rewrite <- !app_assoc, <- !app_comm_cons, <- !app_assoc. reflexivity.
Qed.

Lemma candidates_text_json cands : candidates_text cands = json_text (JArr (map cand_json cands)).
Proof.
  unfold candidates_text. cbn [json_text]. rewrite map_map. do 3 f_equal.
  apply list_fmap_ext. intros _ c _. apply cand_text_json.
Qed.

Lemma cand_json_simple c : cand_sendable c → json_simple (cand_json c) = true.
Proof.
  intros [Hr Hn Hc]. unfold cand_json. cbn [json_simple forallb].
  assert (forallb json_simple (map JNum (cols c)) = true) as ->.
  { induction Hc as [|a l Ha _ IH]; [done|]. cbn [map forallb json_simple]. rewrite IH. unfold INT16_MAX in Ha.
    by rewrite !(proj2 (Z.ltb_lt _ _)) by lia. }
  by rewrite !(proj2 (Z.ltb_lt _ _)) by lia.
Qed.

Lemma candidates_json_simple cands : Forall cand_sendable cands → json_simple (JArr (map cand_json cands)) = true.
Proof.
  cbn [json_simple]. induction 1 as [|c l Hc _ IH]; [done|]. cbn [map forallb]. by rewrite cand_json_simple, IH.
Qed.

Lemma cand_json_tokens c :
  tokens_at WJB_ELEM (cand_json c) =
  [WJB_BEGIN_OBJECT; WJB_KEY (text_of "cols"); WJB_BEGIN_ARRAY] ++
  ((λ a, WJB_ELEM (jbvNumeric a)) <$> cols c) ++
  [WJB_END_ARRAY; WJB_KEY (text_of "relid"); WJB_VALUE (jbvNumeric (relid c)); WJB_END_OBJECT].
Proof.
  unfold cand_json. cbn [tokens_at map]. unfold sort_members. cbn [foldl insert_member fst snd].
  change (key_ltb (text_of "cols") (text_of "relid")) with true. cbn [map concat fst snd app].
  rewrite map_map. cbn [tokens_at]. rewrite <- !app_assoc. cbn [app]. do 3 f_equal.
  assert (∀ l rest, concat (map (λ x, [WJB_ELEM (jbvNumeric x)]) l) ++ rest = ((λ a, WJB_ELEM (jbvNumeric a)) <$> l) ++ rest) as E.
  { intros l rest. f_equal. induction l as [|x l IH]; [done|]. cbn. by rewrite IH. }
  apply E.
Qed.

Lemma parse_tokens_app st a b : parse_tokens st (a ++ b) = (st ← parse_tokens st a; parse_tokens st b).
Proof.
  revert st. induction a as [|t a IH]; intros st; [done|]. cbn. destruct (parse_token st t); cbn; [apply IH|done..].
Qed.

Lemma parse_cols out r n l acc e rest :
  Forall (λ a, 0 < a ≤ INT16_MAX) l → (length acc + length l ≤ 8)%nat →
  parse_tokens (mkParse out (Some (r, n, acc)) e true) (((λ a, WJB_ELEM (jbvNumeric a)) <$> l) ++ rest) =
  parse_tokens (mkParse out (Some (r, n, acc ++ l)) e true) rest.
Proof.
  intros Hl. revert acc. induction Hl as [|a l Ha _ IH]; intros acc Hlen; [by rewrite app_nil_r|].
  cbn [fmap list_fmap app parse_tokens parse_token negb]. cbn [length] in Hlen.
  rewrite (proj2 (Z.leb_gt 8 (zlen acc))) by (unfold zlen; lia).
  unfold INT16_MAX in *. unfold numeric_int8, INT64_MIN, INT64_MAX.
  rewrite (proj2 (Z.ltb_ge a _)) by lia. rewrite (proj2 (Z.ltb_ge _ a)) by lia. cbn [orb mbind outcome_bind].
  rewrite (proj2 (Z.ltb_lt 0 a)), (proj2 (Z.leb_le a _)) by lia. cbn [andb mbind outcome_bind].
  rewrite IH by (rewrite length_app; cbn; lia). by rewrite <- app_assoc.
Qed.

Lemma parse_cand out cur e i c rest :
  cand_sendable c →
  parse_tokens (mkParse out cur e i) (tokens_at WJB_ELEM (cand_json c) ++ rest) =
  parse_tokens (mkParse (out ++ [c]) None false false) rest.
Proof.
  intros [Hr Hn Hc]. rewrite cand_json_tokens, <- !app_assoc. cbn [app parse_tokens parse_token mbind outcome_bind].
  rewrite bool_decide_false by done. rewrite bool_decide_true by done.
  unfold ncols, zlen in Hn. rewrite parse_cols by (done || (cbn; lia)).
  cbn [app parse_tokens parse_token mbind outcome_bind]. rewrite bool_decide_true by done.
  rewrite bool_decide_false by done. unfold numeric_int8, INT64_MIN, INT64_MAX.
  rewrite (proj2 (Z.ltb_ge (relid c) _)) by lia. rewrite (proj2 (Z.ltb_ge _ (relid c))) by lia.
  cbn [orb mbind outcome_bind]. rewrite (proj2 (Z.ltb_lt 0 (relid c))) by lia.
  rewrite Z.mod_small by lia. cbn [parse_token]. rewrite (proj2 (Z.eqb_neq (relid c) 0)) by lia. unfold zlen at 1.
  rewrite (proj2 (Z.ltb_lt 0 _)) by lia. cbn [negb andb mbind outcome_bind]. unfold zlen. rewrite Nat2Z.id.
  rewrite (firstn_all (cols c)). destruct c. done.
Qed.

Lemma parse_cands out cands rest :
  Forall cand_sendable cands →
  parse_tokens (mkParse out None false false) (concat (map (tokens_at WJB_ELEM) (map cand_json cands)) ++ rest) =
  parse_tokens (mkParse (out ++ cands) None false false) rest.
Proof.
  intros H. revert out. induction H as [|c l Hc _ IH]; intros out; [by rewrite app_nil_r|].
  cbn [map concat]. rewrite <- app_assoc, parse_cand, IH by done. by rewrite <- app_assoc.
Qed.

Lemma parse_candidates_text `{JsonbInput} cands :
  Forall cand_sendable cands → nrim_parse_candidates_json (Some (candidates_text cands)) = Ok cands.
Proof.
  intros Hc. unfold nrim_parse_candidates_json. rewrite candidates_text_json.
  destruct (json_text (JArr (map cand_json cands))) as [|ch t] eqn:E; [done|]. rewrite <- E.
  rewrite jsonb_in_text by (by apply candidates_json_simple). cbn [mbind outcome_bind json_tokens tokens_at parse_tokens parse_token].
  rewrite parse_cands by done. done.
Qed.

(** ** Reading the insert command *)

Fixpoint span_until (c : ascii) (s : text) : text * text :=
  match s with
  | [] => ([], [])
  | d :: s' => if ascii_eqb d c then ([], s) else let '(a, b) := span_until c s' in (d :: a, b)
  end.

(** A dollar-quoted literal: it ends at the first occurrence of its delimiter. *)
Definition read_dollar (s : text) : option (text * text) :=
  match s with
  | c :: s =>
      if ascii_eqb c "$" then
        let '(tag, r) := span_until "$" s in
        let delim := text_of "$" ++ tag ++ text_of "$" in
        '(b, q) ← strstr (drop 1 r) delim;
        Some (b, drop (length delim) q)
      else None
  | [] => None
  end.

(** The row the command inserts. *)
Definition read_insert (sql : text) : option (text * option text) :=
  if starts_with insert_head sql then
    '(query_text, r) ← read_dollar (drop (length insert_head) sql);
    if starts_with (text_of ", ") r then
      let r := drop 2 r in
      if bool_decide (r = text_of "NULL);") then Some (query_text, None)
      else '(candidates, r) ← read_dollar r;
           if bool_decide (r = text_of ");") then Some (query_text, Some candidates) else None
    else None
  else None.

(** No delimiter inside [s] when one follows. *)
Definition no_delimiter (delim s : text) : Prop := ∀ b1 b2, s = b1 ++ b2 → b2 ≠ [] → ∀ r, starts_with delim (b2 ++ delim ++ r) = false.

Lemma strstr_delimiter delim s r : no_delimiter delim s → strstr (s ++ delim ++ r) delim = Some (s, delim ++ r).
Proof.
  induction s as [|c s IH]; intros H; cbn [app].
  - destruct (delim ++ r) as [|d l] eqn:E; cbn; rewrite <- E, starts_with_app; done.
  - cbn. pose proof (H [] (c :: s) eq_refl ltac:(done) r) as E. cbn [app] in E. rewrite E.
    rewrite IH; [done|]. intros b1 b2 -> Hne. by apply (H (c :: b1) b2).
Qed.

(** By computation: no occurrence that begins inside [s]. *)
Lemma no_delimiter_strstr delim s :
  delim ≠ [] → strstr (s ++ take (length delim - 1) delim) delim = None → no_delimiter delim s.
Proof.
  intros Hd H b1 b2 -> Hne r. rewrite <- app_assoc in H.
  pose proof (strstr_None _ _ H b1 (b2 ++ take (length delim - 1) delim) eq_refl) as H'.
  apply not_true_iff_false. intros E. rewrite <- not_true_iff_false in H'. apply H'.
  apply starts_with_spec in E as [t E]. apply starts_with_spec.
  rewrite <- (take_drop (length delim - 1) delim) in E at 1. rewrite <- !app_assoc in E.
  rewrite (app_assoc b2) in E. assert (length delim ≤ length (b2 ++ take (length delim - 1) delim))%nat as Hl.
  { rewrite length_app, length_take. destruct b2; [done|]. cbn. lia. }
  set (x := b2 ++ take (length delim - 1) delim) in *. exists (drop (length delim) x).
  apply (f_equal (take (length delim))) in E. rewrite take_app_length, take_app_le in E by done.
  rewrite <- (take_drop (length delim) x) at 1. by rewrite E.
Qed.

(** Texts without a dollar sign. *)
Definition no_dollar (s : text) : bool := forallb (λ c, negb (ascii_eqb c "$")) s.

Lemma no_dollar_delimiter tag s : no_dollar s = true → no_delimiter (text_of "$" ++ tag ++ text_of "$") s.
Proof.
  intros H b1 b2 -> Hne r. destruct b2 as [|c b2]; [done|]. unfold no_dollar in H. rewrite forallb_app in H.
  apply andb_true_iff in H as [_ H]. cbn [forallb] in H. apply andb_true_iff in H as [H _].
  cbn [text_of String.list_ascii_of_string app starts_with].
  unfold ascii_eqb in *. rewrite Ascii.eqb_sym. by destruct (Ascii.eqb c "$").
Qed.

Lemma read_dollar_quoted tag s r :
  no_dollar tag = true → no_delimiter (text_of "$" ++ tag ++ text_of "$") s →
  read_dollar (dollar_quoted tag s ++ r) = Some (s, r).
Proof.
  intros Ht Hs. unfold dollar_quoted. rewrite <- !app_assoc. cbn [text_of String.list_ascii_of_string app read_dollar].
  change (ascii_eqb "$" "$") with true. cbv iota.
  assert (∀ rest, span_until "$" (tag ++ "$"%char :: rest) = (tag, "$"%char :: rest)) as ->.
  { clear -Ht. induction tag as [|c tag IH]; intros rest; [done|]. cbn in Ht |- *.
    apply andb_true_iff in Ht as [Hc Ht]. destruct (ascii_eqb c "$"); [done|]. by rewrite IH. }
  cbn [drop]. rewrite drop_0.
  replace (s ++ "$"%char :: tag ++ "$"%char :: r) with (s ++ (text_of "$" ++ tag ++ text_of "$") ++ r)
    by (cbn; by rewrite <- app_assoc).
  rewrite strstr_delimiter by done. cbn [mbind option_bind]. by rewrite drop_app_length.
Qed.

Lemma no_dollar_app a b : no_dollar (a ++ b) = no_dollar a && no_dollar b.
Proof. apply forallb_app. Qed.

Lemma no_dollar_print_int n : no_dollar (print_int n) = true.
Proof.
  assert (∀ d, 0 ≤ d < 10 → ascii_eqb (digit_char d) "$" = false) as Hd by (intros; by apply digit_char_not).
  assert (∀ fuel n s, no_dollar s = true → no_dollar (print_digits fuel n s) = true) as H.
  { induction fuel as [|fuel IH]; intros m s Hs; [done|]. cbn [print_digits].
    assert (no_dollar (digit_char (m `mod` 10) :: s) = true) as E.
    { cbn. rewrite Hd by (apply Z.mod_pos_bound; lia). done. }
    destruct (m <? 10); [done|]. by apply IH. }
  unfold print_int. destruct (n <? 0); [|by apply H].
  change (no_dollar (print_digits 20 (- n) []) = true). by apply H.
Qed.

Lemma no_dollar_join l : Forall (λ t, no_dollar t = true) l → no_dollar (join_comma l) = true.
Proof.
  induction 1 as [|t l Ht Hl IH]; [done|]. destruct l as [|u l]; [done|].
  change (join_comma (t :: u :: l)) with (t ++ ","%char :: join_comma (u :: l)). rewrite no_dollar_app, Ht. exact IH.
Qed.

Lemma no_dollar_candidates cands : no_dollar (candidates_text cands) = true.
Proof.
  unfold candidates_text. rewrite !no_dollar_app, no_dollar_join; [done|]. apply Forall_fmap, Forall_true.
  intros c. unfold cand_text. cbn [compose]. rewrite !no_dollar_app, no_dollar_print_int, no_dollar_join; [done|].
  apply Forall_fmap, Forall_true. intros n. apply no_dollar_print_int.
Qed.

Lemma no_dollar_tag h : no_dollar (enqueue_tag h) = true.
Proof.
  assert (∀ n h, no_dollar (hex_digits n h) = true) as H.
  { induction n as [|n IH]; intros h'; [done|]. cbn [hex_digits]. rewrite no_dollar_app, IH. cbn [andb].
    pose proof (Z.mod_pos_bound h' 16). set (d := h' `mod` 16) in *. clearbody d.
    assert (∃ k : nat, d = Z.of_nat k ∧ (k < 16)%nat) as (k & -> & Hk) by (exists (Z.to_nat d); lia).
    do 16 (destruct k as [|k]; [done|]). lia. }
  unfold enqueue_tag. by rewrite no_dollar_app, H.
Qed.

Lemma read_enqueue_sql hash query_text cands :
  let tag := enqueue_tag (hash query_text) in
  strstr (query_text ++ text_of "$" ++ tag) (text_of "$" ++ tag ++ text_of "$") = None →
  read_insert (enqueue_sql hash query_text (Some (candidates_text cands))) = Some (query_text, Some (candidates_text cands)).
Proof.
  intros tag Htag. unfold read_insert, enqueue_sql. fold tag. rewrite starts_with_app, drop_app_length.
  assert (no_dollar tag = true) as Ht by apply no_dollar_tag.
  rewrite read_dollar_quoted; [|done|].
  2:{ apply no_delimiter_strstr; [done|]. rewrite !length_app. cbn [length text_of String.list_ascii_of_string].
      replace (1 + (length tag + 1) - 1)%nat with (length (text_of "$" ++ tag)) by (rewrite length_app; cbn; lia).
      rewrite (app_assoc (text_of "$")), take_app_length. by rewrite <- (app_assoc (text_of "$")). }
  cbn [mbind option_bind]. rewrite starts_with_app. change 2%nat with (length (text_of ", ")). rewrite drop_app_length.
  change (match candidates_text cands with [] => _ | c :: cs => _ end) with (dollar_quoted tag (candidates_text cands)).
  rewrite bool_decide_false by (unfold dollar_quoted; done).
  rewrite read_dollar_quoted; [|done|apply no_dollar_delimiter, no_dollar_candidates]. done.
Qed.

(** ** From the hook to the worker *)

(** Object identifiers have 32 bits and column numbers 16. *)
Record machine_width (cat : catalog) (query : Query) : Prop := {
  mw_relids r : RTE_RELATION r ∈ rtable query → 0 ≤ r < 2 ^ 32;
  mw_attnums r a : wanted_column cat query r a → a ≤ INT16_MAX
}.

Lemma candidates_sendable cat s query cands :
  machine_width cat query → query_candidates cat s query = Ok cands → Forall cand_sendable cands.
Proof.
  intros [Hr Ha] Hc. apply Forall_forall. intros c Hin.
  destruct (candidates_wf cat s query cands c Hc Hin) as (H1 & H2 & H3 & _ & H5).
  split; [specialize (Hr _ H1); lia|lia|]. apply Forall_forall. intros a Hin'. destruct (H5 a Hin') as [? Hw].
  split; [done|by eapply Ha].
Qed.

(** When a query is put into the queue. *)
Definition intercepted (cat : catalog) (s : settings) (query : Query) (stmt : text) : Prop :=
  commandType query = CMD_SELECT ∧ strategy s = "reactive"%string ∧ nr_reactive_enable s = true ∧
  is_ai_engine_session s = false ∧ is_select_statement_text (Some stmt) = true ∧
  query_references_only_user_tables cat query = true.

(** C24. What the hook hands to psql reaches the worker: either the hook gives no
    command, or the query is a SELECT of user tables in a client's session and
    the command inserts its statement's text together with candidates that the
    worker reads back as the query's first merged candidates, unless the text
    contains the quoting tag made from its own hash. *)
Theorem hook_reaches_worker `{JsonbInput} cat s env src query st st' :
  machine_width cat query → index_management_post_parse_analyze cat s env src query st = Ok st' →
  psql_commands st' = psql_commands st ∨
  ∃ stmt cands sql json,
    get_current_statement_text src query = Some stmt ∧ intercepted cat s query stmt ∧
    query_candidates cat s query = Ok cands ∧ psql_commands st' = psql_commands st ++ [sql] ∧
    nrim_parse_candidates_json (Some json) =
      Ok (take (Z.to_nat (nr_reactive_max_candidates_per_query s)) cands) ∧
    let tag := enqueue_tag (hash_any env stmt) in
    (strstr (stmt ++ text_of "$" ++ tag) (text_of "$" ++ tag ++ text_of "$") = None →
     read_insert sql = Some (stmt, Some json)).
Proof.
  intros Hw. unfold index_management_post_parse_analyze.
  destruct (commandType query) eqn:Ec; [|intros [= <-]; by left].
  destruct (String.eqb_spec (strategy s) "reactive") as [Es|]; cbn [negb]; [|intros [= <-]; by left].
  destruct (nr_reactive_enable s) eqn:Ee; cbn [negb]; [|intros [= <-]; by left].
  destruct (is_ai_engine_session s) eqn:Ea; [intros [= <-]; by left|].
  destruct (get_current_statement_text src query) as [[|c t]|] eqn:Et; [intros [= <-]; by left| |intros [= <-]; by left].
  destruct (is_select_statement_text (Some (c :: t))) eqn:Ei; cbn [negb]; [|intros [= <-]; by left].
  destruct (query_references_only_user_tables cat query) eqn:Eu; cbn [negb]; [|intros [= <-]; by left].
  assert (psql_commands (nrim_start_worker_if_needed env st) = psql_commands st) as Est.
  { unfold nrim_start_worker_if_needed. by destruct (nrim_worker_started st), (register_ok env). }
  set (st0 := nrim_start_worker_if_needed env st) in *. clearbody st0.
  unfold nrim_build_candidates_json. destruct (query_candidates cat s query) as [cands| |] eqn:Eq; cbn [mbind outcome_bind]; [|done..].
  set (emitted := take _ cands). destruct (bool_decide (emitted = [])); [intros [= <-]; by left|].
  unfold nrim_enqueue_work_item. rewrite bool_decide_false by done.
  destruct (database_known env); cbn [negb fst]; [|intros [= <-]; by left].
  destruct (fork_ok env); cbn [negb fst]; [|intros [= <-]; by left]. intros [= <-]. right.
  exists (c :: t), cands, (enqueue_sql (hash_any env) (c :: t) (Some (candidates_text emitted))), (candidates_text emitted).
  split_and!; [done|done|done|cbn; by rewrite Est| |apply read_enqueue_sql].
  apply parse_candidates_text. apply Forall_take. by eapply candidates_sendable.
Qed.

(** ** Statements that begin with SELECT *)

(** White space and comments. *)
Inductive layout : text → Prop :=
  | layout_nil : layout []
  | layout_space c l : is_space c = true → layout l → layout (c :: l)
  | layout_line body l :
      forallb (λ c, negb (ascii_eqb c NEWLINE)) body = true → layout l →
      layout (text_of "--" ++ body ++ NEWLINE :: l)
  | layout_block body l :
      no_delimiter (text_of "*/") body → layout l → layout (text_of "/*" ++ body ++ text_of "*/" ++ l).

Lemma skip_line_body body l :
  forallb (λ c, negb (ascii_eqb c NEWLINE)) body = true →
  skip_while (λ c, negb (ascii_eqb c NEWLINE)) (body ++ NEWLINE :: l) = NEWLINE :: l.
Proof. induction body as [|c body IH]; [done|]. cbn. intros [-> H]%andb_true_iff. by apply IH. Qed.

Lemma skip_block_body body l : no_delimiter (text_of "*/") body → skip_block (body ++ text_of "*/" ++ l) = l.
Proof.
  induction body as [|c body IH]; intros H; [done|].
  pose proof (H [] (c :: body) eq_refl ltac:(done) l) as E.
  assert (no_delimiter (text_of "*/") body) as H' by (intros b1 b2 -> Hne; by apply (H (c :: b1))).
  specialize (IH H'). revert E IH. cbn [app].
  destruct (body ++ text_of "*/" ++ l) as [|d r] eqn:Eb; [by destruct body|].
  cbn [skip_block starts_with text_of String.list_ascii_of_string]. unfold ascii_eqb.
  rewrite (Ascii.eqb_sym "*" c), (Ascii.eqb_sym "/" d), andb_true_r. by intros ->.
Qed.

Lemma skip_comments_space fuel c p : is_space c = true → skip_comments (S fuel) (c :: p) = skip_comments (S fuel) p.
Proof. intros H. cbn. by rewrite H. Qed.

Lemma skip_comments_line fuel p :
  skip_comments (S fuel) ("-"%char :: "-"%char :: p) =
  skip_comments fuel (skip_while (λ c, negb (ascii_eqb c NEWLINE)) p).
Proof. done. Qed.
Lemma skip_comments_block fuel p : skip_comments (S fuel) ("/"%char :: "*"%char :: p) = skip_comments fuel (skip_block p).
Proof. done. Qed.

(** A text at which the loop stops. *)
Definition stops (p : text) : Prop := ∀ fuel, skip_comments (S fuel) p = p.

Lemma skip_layout pre p fuel : layout pre → stops p → (length pre ≤ fuel)%nat → skip_comments (S fuel) (pre ++ p) = p.
Proof.
  intros Hl Hp. revert fuel. induction Hl as [|c l Hc _ IH|body l Hb _ IH|body l Hb _ IH]; intros fuel Hf.
  - apply Hp.
  - cbn [app]. rewrite skip_comments_space by done. apply IH. cbn in Hf. lia.
  - rewrite !length_app in Hf. cbn in Hf. destruct fuel as [|fuel]; [lia|].
    rewrite <- !app_assoc. cbn [text_of String.list_ascii_of_string app].
    rewrite skip_comments_line, skip_line_body by done. rewrite (skip_comments_space fuel) by done. apply IH. lia.
  - rewrite !length_app in Hf. cbn in Hf. destruct fuel as [|fuel]; [lia|].
    rewrite <- !app_assoc. cbn [text_of String.list_ascii_of_string app].
    rewrite skip_comments_block. pose proof (skip_block_body body (l ++ p) Hb) as E. cbn in E. rewrite E. apply IH. lia.
Qed.

Lemma skip_while_split f p :
  ∃ a, p = a ++ skip_while f p ∧ forallb f a = true ∧
       match skip_while f p with c :: _ => f c = false | [] => True end.
Proof.
  induction p as [|c p IH]; [by exists []|]. cbn. destruct (f c) eqn:E; [|by exists []].
  destruct IH as (a & Hp & Ha & Hn). exists (c :: a). cbn. rewrite E. split; [by f_equal|done].
Qed.

Lemma layout_spaces a : forallb is_space a = true → layout a.
Proof. induction a as [|c a IH]; [constructor|]. cbn. intros [? ?]%andb_true_iff. constructor; auto. Qed.

Lemma layout_app a b : layout a → layout b → layout (a ++ b).
Proof.
  intros Ha Hb. induction Ha; cbn [app]; [done|by constructor|..]; rewrite <- !app_assoc; cbn [app];
    by constructor.
Qed.

Lemma skip_block_split p : (∃ body, p = body ++ text_of "*/" ++ skip_block p ∧ no_delimiter (text_of "*/") body) ∨ skip_block p = [].
Proof.
  induction p as [|c p IH]; [by right|]. destruct p as [|d p]; [by right|]. cbn [skip_block].
  destruct (ascii_eqb c "*" && ascii_eqb d "/") eqn:E.
  - left. apply andb_true_iff in E as [->%ascii_eqb_spec ->%ascii_eqb_spec]. exists []. split; [done|].
    intros b1 b2 H. symmetry in H. by apply app_eq_nil in H as [_ ->].
  - destruct IH as [(body & Hb & Hn)|Hn]; [left|by right]. exists (c :: body). split; [cbn [app]; by f_equal|].
    intros [|c' b1] b2 H Hne r; cbn in H.
    + subst b2. cbn [app]. assert (∃ rest, body ++ text_of "*/" ++ r = d :: rest) as [rest ->].
      { destruct body as [|d' body]; cbn in Hb; injection Hb as -> _; eauto. }
      cbn [starts_with text_of String.list_ascii_of_string]. unfold ascii_eqb in *.
      rewrite (Ascii.eqb_sym "*" c), (Ascii.eqb_sym "/" d), andb_true_r. done.
    + injection H as <- ->. by apply (Hn b1).
Qed.

Lemma skip_comments_split fuel p :
  (length p < fuel)%nat →
  ∃ pre, p = pre ++ skip_comments fuel p ∧ (layout pre ∨ skip_comments fuel p = []).
Proof.
  revert p. induction fuel as [|fuel IH]; intros p Hf; [lia|]. cbn [skip_comments].
  destruct (skip_while_split is_space p) as (a & Ep & Ha%layout_spaces & Hn).
  set (q := skip_while is_space p) in *. clearbody q. subst p. rewrite length_app in Hf.
  destruct q as [|c [|d q]]; cbv zeta; [by exists a; auto..|]. cbn in Hf.
  destruct (ascii_eqb c "-" && ascii_eqb d "-") eqn:E1; [|destruct (ascii_eqb c "/" && ascii_eqb d "*") eqn:E2; [|by exists a; auto]].
  - apply andb_true_iff in E1 as [->%ascii_eqb_spec ->%ascii_eqb_spec].
    destruct (skip_while_split (λ c, negb (ascii_eqb c NEWLINE)) q) as (b & Eq & Hb & Hl).
    set (q' := skip_while _ q) in *. clearbody q'. subst q. rewrite length_app in Hf.
    destruct q' as [|c q'].
    { exists (a ++ text_of "--" ++ b). replace (skip_comments fuel []) with ([] : text) by (by destruct fuel).
      split; [cbn; by rewrite !app_nil_r|by right]. }
    apply negb_false_iff, ascii_eqb_spec in Hl as ->. cbn in Hf. destruct fuel as [|fuel]; [lia|].
    rewrite skip_comments_space by done. destruct (IH q') as (pre & Hq & Hpre); [lia|].
    exists (a ++ text_of "--" ++ b ++ NEWLINE :: pre). split.
    { rewrite <- !app_assoc. cbn [app text_of String.list_ascii_of_string]. by rewrite <- Hq. }
    destruct Hpre as [Hpre|Hpre]; [left|by right]. apply layout_app; [done|]. by constructor.
  - apply andb_true_iff in E2 as [->%ascii_eqb_spec ->%ascii_eqb_spec].
    destruct (skip_block_split q) as [(body & Hb & Hd)|En].
    + destruct (IH (skip_block q)) as (pre & Hq & Hpre).
      { apply (f_equal length) in Hb. rewrite !length_app in Hb. lia. }
      exists (a ++ text_of "/*" ++ body ++ text_of "*/" ++ pre). split.
      { rewrite <- !app_assoc, <- Hq, <- Hb. done. }
      destruct Hpre as [Hpre|Hpre]; [left|by right]. apply layout_app; [done|]. by constructor.
    + rewrite En. exists (a ++ text_of "/*" ++ q). replace (skip_comments fuel []) with ([] : text) by (by destruct fuel).
      split; [by rewrite app_nil_r|by right].
Qed.

Lemma starts_with_ci_spec old s :
  starts_with_ci old s = true ↔ ∃ kw r, s = kw ++ r ∧ tolower <$> kw = tolower <$> old.
Proof.
  revert s. induction old as [|a old IH]; intros s; cbn.
  - split; [intros _; by exists [], s|done].
  - destruct s as [|b s].
    + split; [done|]. intros (kw & r & E & H). symmetry in E. apply app_eq_nil in E as [-> _]. done.
    + rewrite andb_true_iff, ascii_eqb_spec, IH. split.
      * intros [E (kw & r & -> & H)]. exists (b :: kw), r. cbn. by rewrite E, H.
      * intros (kw & r & E & H). destruct kw as [|c kw]; [done|]. cbn in E, H. injection E as -> ->. injection H as H1 H2.
        split; [done|]. by exists kw, r.
Qed.

Lemma select_stops kw r : tolower <$> kw = text_of "select" → stops (kw ++ r).
Proof.
  intros H fuel. destruct kw as [|c kw]; [done|]. injection H as Hc _.
  assert (is_space c = false ∧ ascii_eqb c "-" = false ∧ ascii_eqb c "/" = false) as (H1 & H2 & H3).
  { split_and!; apply not_true_iff_false; intros E.
    - unfold tolower in Hc. unfold is_space in E. destruct ((65 <=? N_of_ascii c) && _)%N eqn:Eb; [|by subst c].
      rewrite orb_true_iff, andb_true_iff, N.eqb_eq, !N.leb_le in E. apply andb_true_iff in Eb as [Eb _].
      apply N.leb_le in Eb. lia.
    - apply ascii_eqb_spec in E as ->. done.
    - apply ascii_eqb_spec in E as ->. done. }
  cbn [app skip_comments skip_while]. rewrite H1. cbv zeta. destruct (kw ++ r); [done|]. by rewrite H2, H3.
Qed.

(** C37. [is_select_statement_text] terminates and accepts exactly the texts that
    begin, behind white space and comments, with the word SELECT. *)
Theorem is_select_statement_text_exact stmt :
  is_select_statement_text (Some stmt) = true ↔
  ∃ pre kw rest, stmt = pre ++ kw ++ rest ∧ layout pre ∧ tolower <$> kw = text_of "select" ∧
    match rest with c :: _ => word_char c = false | [] => True end.
Proof.
  cbn [is_select_statement_text]. split.
  - destruct (skip_comments_split (S (length stmt)) stmt) as (pre & E & Hpre); [lia|].
    set (q := skip_comments _ _) in *. clearbody q. destruct (starts_with_ci (text_of "select") q) eqn:Es; cbn [negb]; [|done].
    apply starts_with_ci_spec in Es as (kw & r & -> & Hkw). assert (length kw = 6%nat) as Hlen.
    { apply (f_equal length) in Hkw. by rewrite !length_fmap in Hkw. }
    rewrite <- Hlen, drop_app_length. intros Hr. exists pre, kw, r. split; [done|].
    split; [destruct Hpre as [?|Hn]; [done|by destruct kw]|]. split; [done|].
    destruct r; [done|]. by apply negb_true_iff.
  - intros (pre & kw & rest & -> & Hpre & Hkw & Hr).
    rewrite skip_layout; [|done|by apply select_stops|rewrite !length_app; lia].
    assert (starts_with_ci (text_of "select") (kw ++ rest) = true) as -> by (apply starts_with_ci_spec; eauto).
    assert (length kw = 6%nat) as Hlen by (apply (f_equal length) in Hkw; by rewrite length_fmap in Hkw).
    cbn [negb]. rewrite <- Hlen, drop_app_length. destruct rest; [done|]. by rewrite Hr.
Qed.

(** ** Witnesses *)

Definition example_catalog : catalog := mkCatalog
  (λ opno, if opno =? 96 then Some "="%string else if opno =? 97 then Some "<"%string else None)
  (λ _, Some "public"%string).

Definition example_settings : settings := mkSettings "reactive" true 3 20 (Some "psql"%string).

(** [SELECT * FROM t, u WHERE t.1 = u.2 AND t.3 = 5 AND t.4::numeric < 7 GROUP BY t.5 ORDER BY t.6]. *)
Definition example_query : Query := mkQuery CMD_SELECT 0 0 [RTE_RELATION 100; RTE_RELATION 200]
  (Some (OtherNode [OpExpr 96 [Var 1 1; Var 2 2]; OpExpr 96 [Var 1 3; OtherNode []];
                    OpExpr 97 [CoerceViaIO COERCE_EXPLICIT_CAST (Var 1 4); OtherNode []]]))
  [(1, Var 1 6); (2, Var 1 5)] [1] [2].

Definition example_tables : list NrimTableFeat :=
  match query_tables example_catalog example_query with Ok t => t | _ => [] end.
Definition example_cands : list NrimCand :=
  match query_candidates example_catalog example_settings example_query with Ok c => c | _ => [] end.

Lemma query_features_exact_witness :
  in_feature example_tables 100 JoinCol 1 ∧ in_feature example_tables 100 NonsargableCol 4 ∧
  order_cols (feat_of example_tables 100) = [6].
Proof.
  destruct (query_features_exact example_catalog example_query example_tables) with (r := 100) as (H & Ho & _).
  { vm_compute. reflexivity. }
  rewrite Ho. split_and!; [apply H|apply H|vm_compute; reflexivity]; try lia; eexists; (split; [reflexivity|]);
    apply (bool_decide_unpack _); vm_compute; exact I.
Defined.

Lemma candidates_well_formed_witness : NoDup (cols (mkCand 100 [3; 1])) ∧ wanted_column example_catalog example_query 100 1.
Proof.
  destruct (candidates_well_formed example_catalog example_settings example_query example_cands (mkCand 100 [3; 1]))
    as (_ & _ & _ & H1 & H2).
  - vm_compute. reflexivity.
  - apply (bool_decide_unpack _). vm_compute. exact I.
  - split; [done|]. apply H2. apply (bool_decide_unpack _). vm_compute. exact I.
Defined.

Lemma candidates_complete_witness : ∃ c, c ∈ example_cands ∧ relid c = 200 ∧ head (cols c) = Some 2.
Proof.
  apply (candidates_complete example_catalog example_settings example_query).
  - vm_compute. reflexivity.
  - lia.
  - left. eexists _, JoinCol. split; [reflexivity|]. split; [apply (bool_decide_unpack _); vm_compute; exact I|].
    apply (bool_decide_unpack _); vm_compute; exact I.
Defined.

Definition example_hook_env : hook_env := mkHookEnv (λ t, Z.of_nat (length t)) true true true.
Definition example_source : text := text_of "/* app */ SELECT * FROM t, u WHERE t.a = u.b".

Lemma example_machine_width : machine_width example_catalog example_query.
Proof.
  split.
  - intros r H. cbn in H. rewrite !elem_of_cons, elem_of_nil in H. destruct H as [[= ->]|[[= ->]|[]]]; lia.
  - intros r a [(q & k & [= <-] & _ & H)|H].
    + assert (Forall (λ f, f.2 ≤ INT16_MAX) (quals_facts example_catalog example_query
        (OtherNode [OpExpr 96 [Var 1 1; Var 2 2]; OpExpr 96 [Var 1 3; OtherNode []];
                    OpExpr 97 [CoerceViaIO COERCE_EXPLICIT_CAST (Var 1 4); OtherNode []]]))) as Hf
        by (vm_compute; repeat constructor; discriminate).
      rewrite Forall_forall in Hf. apply (Hf _ H).
    + unfold clause_columns in H.
      assert (∀ l, l = [1] ∨ l = [2] → Forall (λ c, c.2 ≤ INT16_MAX) (omap (clause_column example_query) l)) as Hf
        by (intros l [-> | ->]; vm_compute; repeat constructor; discriminate).
      setoid_rewrite Forall_forall in Hf.
      destruct H as [(x & -> & [_ Hx]%list_elem_of_filter)%list_elem_of_fmap|(x & -> & [_ Hx]%list_elem_of_filter)%list_elem_of_fmap];
        eapply Hf, Hx; auto.
Qed.

Lemma hook_reaches_worker_witness :
  match index_management_post_parse_analyze example_catalog example_settings example_hook_env (Some example_source)
          example_query (mkHook false []) with
  | Ok st => ∃ sql json, psql_commands st = [sql] ∧ read_insert sql = Some (example_source, Some json) ∧
               @nrim_parse_candidates_json CompactJsonbInput (Some json) = Ok example_cands
  | _ => False
  end.
Proof.
  destruct (index_management_post_parse_analyze example_catalog example_settings example_hook_env (Some example_source)
              example_query (mkHook false [])) as [st| |] eqn:E; [|vm_compute in E; discriminate..].
  destruct (@hook_reaches_worker CompactJsonbInput _ _ _ _ _ _ _ example_machine_width E)
    as [H|(stmt & cands & sql & json & Hs & _ & Hc & Hp & Hj & Hr)].
  - exfalso. revert H. apply (f_equal (λ o, match o with Ok st => psql_commands st | _ => [] end)) in E.
    cbn beta in E. intros H. rewrite H in E. vm_compute in E. discriminate.
  - assert (stmt = example_source) as -> by (vm_compute in Hs; injection Hs as <-; reflexivity).
    assert (cands = example_cands) as -> by (unfold example_cands; rewrite Hc; reflexivity).
    exists sql, json. split; [exact Hp|]. split; [apply Hr; vm_compute; reflexivity|].
    rewrite Hj. vm_compute. reflexivity.
Defined.
