(* ===== verification/IndexWorker.v ===== *)
(** * The index worker

    Models the background worker of [nr_index_management/nr_index_management.c]:
    its tables (the work queue, the index registry, query facts and their
    attribution), the budget, eviction by total utility, the handling of one
    work item, the refresh of the registry and the main loop, and the budget
    functions a session can call.

    Each SQL statement of the code is a function on the tables. Numbers of type
    double are rationals, without rounding; the logarithm, the planner, HypoPG,
    the catalogs and the exit codes of psql are the environment. Connecting to
    SPI is taken to succeed. *)
From S2P Require Import Prelude CText Candidates.
From Stdlib Require Import ZArith QArith Lqa Lia Ascii.
From stdpp Require Import base strings numbers gmap sorting list.

Open Scope Z_scope.

(** ** The tables *)

Inductive work_status := Pending | Processing | Done | Error.
#[export] Instance work_status_eq_dec : EqDecision work_status.
Proof. solve_decision. Defined.

(** [nrim.nrim_work_queue]; the table is kept in the order of its ids. *)
Record work_item := mkItem {
  wi_id : Z;
  wi_status : work_status;
  wi_query_text : text;
  wi_candidates : option text;
  wi_last_error : option string
}.

Inductive index_state := created | dropping.
#[export] Instance index_state_eq_dec : EqDecision index_state.
Proof. solve_decision. Defined.

(** [nrim.nrim_index_registry], by [index_oid]. *)
Record registry_row := mkRow {
  rg_table : Z;
  rg_columns : list Z;
  rg_created_at : Z;
  rg_state : index_state;
  rg_size_bytes : option Z;
  rg_idx_scan : option Z;
  rg_touch : Q;
  rg_benefit : Q;
  rg_value : Q
}.

(** The indexes of the database: [pg_class] and [pg_index]. *)
Record index_info := mkIndex {
  ix_relid : Z;
  ix_cols : list Z;
  ix_bytes : Z;
  ix_public : bool
}.

Record worker_state := mkWorker {
  queue : list work_item;
  registry : gmap Z registry_row;
  query_facts : gmap Z Q;
  attribution : gmap (Z * Z) Q;
  indexes : gmap Z index_info;
  now : Z
}.

Definition set_queue (q : list work_item) (st : worker_state) : worker_state :=
  mkWorker q (registry st) (query_facts st) (attribution st) (indexes st) (now st).
Definition set_registry (r : gmap Z registry_row) (st : worker_state) : worker_state :=
  mkWorker (queue st) r (query_facts st) (attribution st) (indexes st) (now st).
Definition set_facts (f : gmap Z Q) (st : worker_state) : worker_state :=
  mkWorker (queue st) (registry st) f (attribution st) (indexes st) (now st).
Definition set_attribution (a : gmap (Z * Z) Q) (st : worker_state) : worker_state :=
  mkWorker (queue st) (registry st) (query_facts st) a (indexes st) (now st).
Definition set_indexes (i : gmap Z index_info) (st : worker_state) : worker_state :=
  mkWorker (queue st) (registry st) (query_facts st) (attribution st) i (now st).

(** ** The environment *)

Inductive explain_result := Cost (c : Q) | ExplainFailed (msg : option string).
Inductive hypo_result := HypoError | HypoNone | HypoIndex (size_mb : option Q).

Record worker_env := mkEnv {
  ln : Q → Q;
  hash_text : text → Z;
  hypopg_available : bool;
  explain : gmap Z index_info → text → option NrimCand → explain_result;  (* with a hypothetical index *)
  hypopg_create : NrimCand → hypo_result;
  rel_known : Z → bool;                                 (* a table's names resolve *)
  att_known : Z → Z → bool;
  att_btree : Z → Z → bool;
  index_known : Z → bool;                               (* an index's names resolve *)
  drop_ok : Z → bool;                                   (* psql drops the index *)
  create_index : NrimCand → option (Z * index_info * bool);  (* its oid, and whether its name is found *)
  database_size_mb : option Q
}.

Record worker_settings := mkWorkerSettings {
  max_candidates_per_query : Z;
  max_hypopg_evals_per_minute : Z;
  min_value_improvement : Q;
  enable_auto_index_creation : bool;
  max_index_storage_mb : option Q
}.

(** ** Scores *)

Definition Qltb (x y : Q) : bool := negb (Qle_bool y x).

Definition nrim_log1p_nonneg (env : worker_env) (x : Q) : Q :=
  if Qle_bool x 0 then 0%Q else ln env (1 + x)%Q.

Definition nrim_index_utility (env : worker_env) (benefit_score touch_score : Q) : Q :=
  (nrim_log1p_nonneg env benefit_score + (1 # 10) * nrim_log1p_nonneg env touch_score)%Q.

Definition mb (bytes : Z) : Q := (inject_Z bytes / 1048576)%Q.

(** The numerator and the whole of [value_score] in SQL. *)
Definition sql_utility (env : worker_env) (benefit touch : Q) : Q :=
  (ln env (1 + benefit) + (1 # 10) * ln env (1 + touch))%Q.
Definition sql_value_score (env : worker_env) (benefit touch : Q) (bytes : Z) : Q :=
  (sql_utility env benefit touch / (ln env (1 + inject_Z (Z.max bytes 0)) + 1))%Q.

(** ** Storage and budget *)

Definition public_bytes (idx : gmap Z index_info) : Z :=
  map_fold (λ _ i total, (if ix_public i then ix_bytes i else 0) + total) 0 idx.

Definition nr_get_current_index_storage_mb (st : worker_state) : Q := mb (public_bytes (indexes st)).

Definition nr_calculate_index_budget_mb (env : worker_env) (s : worker_settings) : Q :=
  match max_index_storage_mb s with
  | Some budget_mb => if Qltb 0 budget_mb then budget_mb
                      else match database_size_mb env with Some db => (db / 2)%Q | None => (105710 # 100)%Q end
  | None => match database_size_mb env with Some db => (db / 2)%Q | None => (105710 # 100)%Q end
  end.

Definition index_bytes (st : worker_state) (oid : Z) : Z :=
  match indexes st !! oid with Some i => ix_bytes i | None => 0 end.

(** [DROP INDEX] through psql. *)
Definition run_drop (env : worker_env) (oid : Z) (st : worker_state) : bool * worker_state :=
  if drop_ok env oid then (true, set_indexes (delete oid (indexes st)) st) else (false, st).

(** ** Facts, registry and attribution *)

Definition nrim_query_id_from_text (env : worker_env) (query_text : text) : Z :=
  let h := hash_text env query_text in
  let qid := Z.land (Z.lor (Z.shiftl h 32) h) (2 ^ 63 - 1) in
  if qid =? 0 then 1 else qid.

Definition nrim_worker_update_query_facts (query_id : Z) (st : worker_state) : worker_state :=
  if query_id =? 0 then st
  else set_facts (<[query_id := match query_facts st !! query_id with
                                | Some f => (f * (9 # 10) + 1)%Q
                                | None => 1%Q
                                end]> (query_facts st)) st.

(** One-dimensional arrays: the lower bound of the subscripts and the elements.
    The columns of an index are an [int2vector], whose subscripts start at 0 and
    which a cast to [int2[]] leaves as it is; those of [ARRAY[...]] start at 1. *)
Record pg_array := mkArray { lbound : Z; elems : list Z }.

Definition buildint2vector (int2s : list Z) : pg_array := mkArray 0 int2s.

Definition array_literal (elems : list Z) : pg_array := mkArray 1 elems.

Definition array_eq (array1 array2 : pg_array) : bool :=
  if negb (zlen (elems array1) =? zlen (elems array2)) || negb (lbound array1 =? lbound array2) then false
  else forallb (λ p, p.1 =? p.2) (zip (elems array1) (elems array2)).

Definition same_index (c : NrimCand) (i : index_info) : bool :=
  (ix_relid i =? relid c) && array_eq (buildint2vector (ix_cols i)) (array_literal (cols c)).

Definition nrim_worker_index_exists (st : worker_state) (c : NrimCand) : bool :=
  if (relid c =? 0) || (ncols c <=? 0) then false
  else existsb (λ p, same_index c p.2) (map_to_list (indexes st)).

Definition Qmax (x y : Q) : Q := if Qle_bool x y then y else x.

Definition nrim_worker_ensure_registry_for_index (env : worker_env) (index_oid : Z) (c : NrimCand)
    (benefit_score : Q) (st : worker_state) : worker_state :=
  if (index_oid =? 0) || (relid c =? 0) || (ncols c <=? 0) then st
  else if negb (rel_known env (relid c)) then st
  else
    let row := match registry st !! index_oid with
      | Some r => mkRow (rg_table r) (rg_columns r) (rg_created_at r) (rg_state r) (rg_size_bytes r)
                        (rg_idx_scan r) (rg_touch r) (Qmax (rg_benefit r) benefit_score) (rg_value r)
      | None => mkRow (relid c) (cols c) (now st) created (Some (index_bytes st index_oid)) None 0%Q
                      benefit_score benefit_score
      end in
    set_registry (<[index_oid := row]> (registry st)) st.

(** [sum(f.frequency_ewma * a.marginal_benefit_ewma)] over the attribution of an
    index. *)
Definition attributed_benefit (st : worker_state) (index_oid : Z) : Q :=
  map_fold (λ k m total, if k.2 =? index_oid
                         then match query_facts st !! k.1 with Some f => (f * m + total)%Q | None => total end
                         else total) 0%Q (attribution st).

Definition nrim_worker_update_attribution (env : worker_env) (query_id index_oid : Z) (marginal_benefit : Q)
    (st : worker_state) : worker_state :=
  if (query_id =? 0) || (index_oid =? 0) || Qltb marginal_benefit 0 then st
  else
    let a := match attribution st !! (query_id, index_oid) with
             | Some m => (m * (9 # 10) + marginal_benefit)%Q
             | None => marginal_benefit
             end in
    let st := set_attribution (<[(query_id, index_oid) := a]> (attribution st)) st in
    match registry st !! index_oid with
    | Some r =>
        let b := attributed_benefit st index_oid in
        set_registry (<[index_oid :=
          mkRow (rg_table r) (rg_columns r) (rg_created_at r) (rg_state r) (rg_size_bytes r) (rg_idx_scan r)
                (rg_touch r) b (sql_value_score env b (rg_touch r) (index_bytes st index_oid))]> (registry st)) st
    | None => st
    end.

(** [idx_scan] is the scan counter in [pg_stat_user_indexes]. The old touch score
    is the one in the value score. *)
Definition refresh_row (env : worker_env) (idx_scan : Z → Z) (st : worker_state) (oid : Z) (r : registry_row)
    : registry_row :=
  match indexes st !! oid with
  | None => r
  | Some i =>
      mkRow (rg_table r) (rg_columns r) (rg_created_at r) (rg_state r) (Some (ix_bytes i)) (Some (idx_scan oid))
            (rg_touch r * (9 # 10) + inject_Z (Z.max 0 (idx_scan oid - default 0 (rg_idx_scan r))%Z))%Q
            (rg_benefit r) (sql_value_score env (rg_benefit r) (rg_touch r) (ix_bytes i))
  end.

Definition nrim_worker_refresh_registry_stats (env : worker_env) (idx_scan : Z → Z) (st : worker_state)
    : worker_state :=
  set_registry (map_imap (λ oid r, Some (refresh_row env idx_scan st oid r)) (registry st)) st.

(** ** Eviction *)

Record victim := mkVictim { v_oid : Z; v_size_mb : Q; v_utility : Q }.

(** A row of the query that lists the evictable indexes. *)
Record evict_row := mkEvictRow {
  er_oid : Z;
  er_size_mb : Q;
  er_benefit : Q;
  er_touch : Q;
  er_created_at : Z
}.

Definition er_density (env : worker_env) (r : evict_row) : Q :=
  (sql_utility env (er_benefit r) (er_touch r) / (er_size_mb r + (1 # 1000000)))%Q.

(** [ORDER BY density ASC, created_at ASC]. *)
Definition er_leb (env : worker_env) (a b : evict_row) : bool :=
  Qltb (er_density env a) (er_density env b) ||
  (Qeq_bool (er_density env a) (er_density env b) && (er_created_at a <=? er_created_at b)).

Fixpoint insert_sorted (env : worker_env) (r : evict_row) (l : list evict_row) : list evict_row :=
  match l with
  | [] => [r]
  | r' :: l' => if er_leb env r r' then r :: l else r' :: insert_sorted env r l'
  end.
Definition sort_rows (env : worker_env) (l : list evict_row) : list evict_row :=
  foldr (insert_sorted env) [] l.

Definition row_of (st : worker_state) (p : Z * registry_row) : option evict_row :=
  match rg_state p.2, indexes st !! p.1 with
  | created, Some i =>
      Some (mkEvictRow p.1 (mb (default (ix_bytes i) (rg_size_bytes p.2))) (rg_benefit p.2) (rg_touch p.2)
                       (rg_created_at p.2))
  | _, _ => None
  end.

Definition evictable (env : worker_env) (st : worker_state) : list evict_row :=
  sort_rows env (omap (row_of st) (map_to_list (registry st))).

(** The loop that picks victims. A row whose name does not resolve is deleted from
    the registry, and the delete leaves one row processed, which ends the loop. *)
Fixpoint pick_victims (env : worker_env) (rows : list evict_row) (needed_mb freed_mb utility_sum : Q)
    (st : worker_state) : list victim * Q * Q * worker_state :=
  match rows with
  | [] => ([], freed_mb, utility_sum, st)
  | r :: rows =>
      if negb (Qltb freed_mb needed_mb) then ([], freed_mb, utility_sum, st)
      else if er_oid r =? 0 then pick_victims env rows needed_mb freed_mb utility_sum st
      else
        let idx_mb := if Qle_bool (er_size_mb r) 0 then (1 # 1000)%Q else er_size_mb r in
        let util := nrim_index_utility env (er_benefit r) (er_touch r) in
        if negb (index_known env (er_oid r))
        then ([], freed_mb, utility_sum, set_registry (delete (er_oid r) (registry st)) st)
        else
          let '(vs, f, u, st) := pick_victims env rows needed_mb (freed_mb + idx_mb)%Q (utility_sum + util)%Q st in
          (mkVictim (er_oid r) idx_mb util :: vs, f, u, st)
  end.

Definition mark_dropping (r : registry_row) : registry_row :=
  mkRow (rg_table r) (rg_columns r) (rg_created_at r) dropping (rg_size_bytes r) (rg_idx_scan r) (rg_touch r)
        (rg_benefit r) (rg_value r).

Definition mark_victims (vs : list victim) (st : worker_state) : worker_state :=
  set_registry (foldl (λ reg v, alter mark_dropping (v_oid v) reg) (registry st) vs) st.

(** Delete what the tables know of an index. *)
Definition forget_index (oid : Z) (st : worker_state) : worker_state :=
  set_registry (delete oid (registry st))
    (set_attribution (filter (λ p, p.1.2 ≠ oid) (attribution st)) st).

(** The loop that drops the victims: whether all drops it tried succeeded, and
    what is still needed. *)
Fixpoint drop_victims (env : worker_env) (vs : list victim) (needed_mb : Q) (st : worker_state)
    : bool * Q * worker_state :=
  match vs with
  | [] => (true, needed_mb, st)
  | v :: vs =>
      let '(ok, st) := run_drop env (v_oid v) st in
      if negb ok then (false, needed_mb, st)
      else
        let st := forget_index (v_oid v) st in
        let needed_mb := (needed_mb - v_size_mb v)%Q in
        if Qle_bool needed_mb 0 then (true, needed_mb, st) else drop_victims env vs needed_mb st
  end.

Definition nrim_worker_evict_until_fits_total_utility (env : worker_env) (s : worker_settings)
    (needed_mb candidate_utility : Q) (st : worker_state) : bool * worker_state :=
  if Qle_bool needed_mb 0 then (true, st)
  else
    let '(victims, freed_mb, victim_utility_sum, st) :=
      pick_victims env (evictable env st) needed_mb 0 0 st in
    if Qltb freed_mb needed_mb then (false, st)
    else
      let threshold := (victim_utility_sum * (1 + min_value_improvement s))%Q in
      if Qle_bool candidate_utility threshold then (false, st)
      else
        let st := mark_victims victims st in
        let '(ok, needed_mb, st) := drop_victims env victims needed_mb st in
        (ok && Qle_bool needed_mb 0, st).

Definition nrim_worker_evict_until_fits := nrim_worker_evict_until_fits_total_utility.

(** ** A work item *)

Definition set_status (id : Z) (status : work_status) (last_error : option string → option string)
    (q : list work_item) : list work_item :=
  (λ w, if wi_id w =? id
        then mkItem (wi_id w) status (wi_query_text w) (wi_candidates w) (last_error (wi_last_error w))
        else w) <$> q.

(** [UPDATE nrim.nrim_work_queue SET status=..., last_error=... WHERE id=...]. *)
Definition finish (id : Z) (status : work_status) (msg : option string) (st : worker_state) : worker_state :=
  set_queue (set_status id status (λ _, msg) (queue st)) st.

(** The pending item with the smallest id. *)
Definition next_pending (q : list work_item) : option work_item :=
  snd <$> list_find (λ w, wi_status w = Pending) q.

(** The check of an index's columns; [get_attname] raises an error for a column
    that does not exist. *)
Fixpoint columns_ok (env : worker_env) (r : Z) (cols : list Z) : outcome bool :=
  match cols with
  | [] => Ok true
  | a :: cols =>
      if negb (att_known env r a) then Raise "cache lookup failed for attribute"
      else if negb (att_btree env r a) then Ok false
      else columns_ok env r cols
  end.

Record best_cand := mkBest { b_cand : NrimCand; b_benefit : Q; b_size_mb : Q; b_value : Q }.

(** Creating, sizing and costing the hypothetical index of a candidate. *)
Definition hypo_evaluate (env : worker_env) (idx : gmap Z index_info) (query_text : text) (baseline_cost : Q)
    (c : NrimCand) : Q * Q :=
  match hypopg_create env c with
  | HypoIndex size =>
      let benefit := match explain env idx query_text (Some c) with
                     | Cost with_cost =>
                         let benefit := (baseline_cost - with_cost)%Q in
                         if Qltb benefit 0 then 0%Q else benefit
                     | ExplainFailed _ => 0%Q
                     end in
      (benefit, default 0%Q size)
  | _ => (0%Q, 0%Q)
  end.

(** Keep the better of the best so far and a candidate. *)
Definition better (best : option best_cand) (c : NrimCand) (benefit size_mb : Q) : option best_cand :=
  if Qltb 0 benefit then
    let value := (benefit / (size_mb + 1))%Q in
    if Qltb (match best with Some b => b_value b | None => 0%Q end) value
    then Some (mkBest c benefit size_mb value) else best
  else best.

(** The loop over the candidates. *)
Fixpoint evaluate (env : worker_env) (s : worker_settings) (st : worker_state) (query_text : text)
    (baseline_cost : Q) (cands : list NrimCand) (evals : Z) (best : option best_cand)
    : outcome (option best_cand) :=
  match cands with
  | [] => Ok best
  | c :: cands =>
      if max_candidates_per_query s <=? evals then Ok best
      else if (0 <? max_hypopg_evals_per_minute s) && (max_hypopg_evals_per_minute s <=? evals) then Ok best
      else if (relid c =? 0) || (ncols c <=? 0) then evaluate env s st query_text baseline_cost cands evals best
      else if nrim_worker_index_exists st c then evaluate env s st query_text baseline_cost cands evals best
      else if negb (rel_known env (relid c)) then evaluate env s st query_text baseline_cost cands evals best
      else
        ok ← columns_ok env (relid c) (cols c);
        if negb ok then evaluate env s st query_text baseline_cost cands evals best
        else
          let '(benefit, size_mb) := hypo_evaluate env (indexes st) query_text baseline_cost c in
          evaluate env s st query_text baseline_cost cands (evals + 1) (better best c benefit size_mb)
  end.

(** The budget check before the creation: whether the index may be created. *)
Definition make_room (env : worker_env) (s : worker_settings) (size_mb candidate_utility : Q) (st : worker_state)
    : bool * worker_state :=
  let budget_mb := nr_calculate_index_budget_mb env s in
  if Qltb 0 budget_mb then
    let needed_mb := (nr_get_current_index_storage_mb st + size_mb - budget_mb)%Q in
    if Qltb 0 needed_mb then nrim_worker_evict_until_fits env s needed_mb candidate_utility st else (true, st)
  else (true, st).

(** Behind a successful [CREATE INDEX]: registration and the enforcement of the
    budget with the real size. *)
Definition after_create (env : worker_env) (s : worker_settings) (id query_id oid : Z) (b : best_cand)
    (candidate_utility : Q) (st : worker_state) : worker_state :=
  let st := nrim_worker_ensure_registry_for_index env oid (b_cand b) (b_benefit b) st in
  let st := nrim_worker_update_attribution env query_id oid (b_benefit b) st in
  let budget_mb := nr_calculate_index_budget_mb env s in
  let needed_mb := if Qltb 0 budget_mb then (nr_get_current_index_storage_mb st - budget_mb)%Q else 0%Q in
  if Qltb 0 needed_mb then
    let '(fits, st) := nrim_worker_evict_until_fits env s needed_mb candidate_utility st in
    if fits then set_queue (set_status id Done (λ e, e) (queue st)) st
    else
      let st := (run_drop env oid st).2 in
      let st := set_registry (delete oid (registry st)) st in
      let st := set_attribution (delete (query_id, oid) (attribution st)) st in
      finish id Done (Some "budget exceeded after creation; dropped newly created index"%string) st
  else set_queue (set_status id Done (λ e, e) (queue st)) st.

(** From the best candidate to the end of the item. *)
Definition create_best (env : worker_env) (s : worker_settings) (id query_id : Z) (b : best_cand)
    (st : worker_state) : outcome worker_state :=
  let freq := match query_facts st !! query_id with
              | Some f => if Qle_bool f 0 then 1%Q else f
              | None => 1%Q
              end in
  let candidate_utility := nrim_index_utility env (b_benefit b * freq)%Q 0 in
  if negb (enable_auto_index_creation s) then
    Ok (finish id Done (Some "auto-creation disabled in worker session (set via ALTER SYSTEM SET nr_enable_auto_index_creation=on; SELECT pg_reload_conf())"%string) st)
  else
    let '(room, st) := make_room env s (b_size_mb b) candidate_utility st in
    if negb room then
      Ok (finish id Done (Some "budget exceeded and eviction not beneficial/insufficient"%string) st)
    else if negb (rel_known env (relid (b_cand b))) then
      Ok (finish id Error (Some "could not resolve relation name"%string) st)
    else if nrim_worker_index_exists st (b_cand b) then Ok (finish id Done None st)
    else
      ok ← columns_ok env (relid (b_cand b)) (cols (b_cand b));
      if negb ok then Ok (finish id Error (Some "could not resolve column name"%string) st)
      else match create_index env (b_cand b) with
           | None => Ok (finish id Error (Some "CREATE INDEX failed"%string) st)
           | Some (oid, info, found) =>
               let st := set_indexes (<[oid := info]> (indexes st)) st in
               if found && negb (oid =? 0) then Ok (after_create env s id query_id oid b candidate_utility st)
               else Ok (set_queue (set_status id Done (λ e, e) (queue st)) st)
           end.

(** The processing of a claimed item. An error that is raised ends the worker, and
    what its transaction did is rolled back; no error is raised once an eviction
    has committed its drops ([create_best_returns]). *)
Definition process_item `{JsonbInput} (env : worker_env) (s : worker_settings) (w : work_item)
    (st : worker_state) : outcome worker_state :=
  let id := wi_id w in
  let query_id := nrim_query_id_from_text env (wi_query_text w) in
  let st := nrim_worker_update_query_facts query_id st in
  if negb (hypopg_available env) then
    Ok (finish id Error (Some "hypopg extension not installed"%string) st)
  else match explain env (indexes st) (wi_query_text w) None with
  | ExplainFailed msg => Ok (finish id Error (Some (default "EXPLAIN failed"%string msg)) st)
  | Cost baseline_cost =>
      cands ← nrim_parse_candidates_json (wi_candidates w);
      match cands with
      | [] => Ok (finish id Done (Some "candidate parse failed"%string) st)
      | _ =>
          best ← evaluate env s st (wi_query_text w) baseline_cost cands 0 None;
          match best with
          | None => Ok (finish id Done (Some "no beneficial candidate (HypoPG delta_cost<=0)"%string) st)
          | Some b => create_best env s id query_id b st
          end
      end
  end.

Inductive item_result := NoItem | Handled | Died.

Definition nrim_process_one_work_item `{JsonbInput} (env : worker_env) (s : worker_settings)
    (st : worker_state) : item_result * worker_state :=
  match next_pending (queue st) with
  | None => (NoItem, st)
  | Some w =>
      if negb (0 <? wi_id w) then (NoItem, st)
      else
        let st := set_queue (set_status (wi_id w) Processing (λ e, e) (queue st)) st in
        match process_item env s w st with
        | Ok st => (Handled, st)
        | _ => (Died, st)
        end
  end.

(** ** The cost of a plan *)

(** The tokens of the iterator when it does not enter nested values. *)
Definition shallow_value (v : json) : JsonbValue :=
  match v with JNum n => jbvNumeric n | JStr s => jbvString s | _ => jbvBinary end.
Definition shallow_tokens (v : json) : list JsonbToken :=
  match v with
  | JArr l => WJB_BEGIN_ARRAY :: ((λ e, WJB_ELEM (shallow_value e)) <$> l) ++ [WJB_END_ARRAY]
  | JObj m => WJB_BEGIN_OBJECT :: concat ((λ kv, [WJB_KEY kv.1; WJB_VALUE kv.2]) <$>
                sort_members ((λ kv, (kv.1, shallow_value kv.2)) <$> m)) ++ [WJB_END_OBJECT]
  | _ => [WJB_BEGIN_ARRAY; WJB_ELEM (shallow_value v); WJB_END_ARRAY]
  end.

Record cost_state := mkCostState {
  in_first_elem : bool;
  in_top_object : bool;
  want_plan : bool;
  in_plan_object : bool;
  want_total_cost : bool
}.

(** One round: the next state, or the cost. *)
Definition cost_step (tok : JsonbToken) (cs : cost_state) : Z + cost_state :=
  let 'mkCostState first top plan inplan cost := cs in
  match tok with
  | WJB_ELEM _ => inr (if negb first then mkCostState true top plan inplan cost else cs)
  | WJB_BEGIN_OBJECT =>
      if first && negb top then inr (mkCostState first true plan inplan cost)
      else if plan then inr (mkCostState first top false true cost)
      else inr cs
  | WJB_KEY k =>
      if top then inr (mkCostState first top (bool_decide (k = text_of "Plan")) inplan
                         (if inplan then bool_decide (k = text_of "Total Cost") else cost))
      else inr cs
  | WJB_VALUE (jbvNumeric n) => if inplan && cost then inl n else inr cs
  | WJB_END_OBJECT => inr (if inplan then mkCostState first top plan false cost else cs)
  | _ => inr cs
  end.

Fixpoint cost_loop (toks : list JsonbToken) (cs : cost_state) : option Z :=
  match toks with
  | [] => None
  | tok :: toks => match cost_step tok cs with inl n => Some n | inr cs => cost_loop toks cs end
  end.

Definition nrim_extract_total_cost_from_explain_json (plan_json : json) : option Z :=
  cost_loop (shallow_tokens plan_json) (mkCostState false false false false false).

(** ** Creating and dropping from a session *)

(** [name_taken]: an index of this name exists; [valid_columns]: the array of
    column names has one dimension and no nulls; [result]: what [CREATE INDEX]
    makes, if it succeeds. *)
Definition nr_create_index_if_budget_allows (env : worker_env) (s : worker_settings)
    (name_taken valid_columns : bool) (result : option (Z * index_info)) (st : worker_state)
    : outcome (bool * worker_state) :=
  if negb (enable_auto_index_creation s) then Ok (false, st)
  else if name_taken then Ok (false, st)
  else if Qle_bool (nr_calculate_index_budget_mb env s) (nr_get_current_index_storage_mb st) then Ok (false, st)
  else if negb valid_columns then Raise "Invalid columns array"
  else match result with
       | Some (oid, info) => Ok (true, set_indexes (<[oid := info]> (indexes st)) st)
       | None => Ok (false, st)
       end.

(** ** The main loop *)

(** Up to [n] items in a row; whether there was one, and whether the worker is
    still alive. *)
Fixpoint work_burst `{JsonbInput} (n : nat) (env : worker_env) (s : worker_settings) (did_work : bool)
    (st : worker_state) : bool * bool * worker_state :=
  match n with
  | O => (did_work, true, st)
  | S n =>
      match nrim_process_one_work_item env s st with
      | (NoItem, st) => (did_work, true, st)
      | (Handled, st) => work_burst n env s true st
      | (Died, st) => (did_work, false, st)
      end
  end.

(** One round of the loop of [nrim_worker_main], without signals. *)
Definition worker_round `{JsonbInput} (env : worker_env) (s : worker_settings) (idx_scan : Z → Z)
    (st : worker_state) : bool * worker_state :=
  let '(did_work, alive, st) := work_burst 5 env s false st in
  if negb alive then (false, st)
  else (true, if did_work then nrim_worker_refresh_registry_stats env idx_scan st else st).

Fixpoint worker_rounds `{JsonbInput} (n : nat) (env : worker_env) (s : worker_settings) (idx_scan : Z → Z)
    (st : worker_state) : bool * worker_state :=
  match n with
  | O => (true, st)
  | S n => let '(alive, st) := worker_round env s idx_scan st in
           if alive then worker_rounds n env s idx_scan st else (false, st)
  end.

(** ** The walk over a plan never finds its cost *)

Lemma cost_loop_none toks first cost :
  WJB_BEGIN_OBJECT ∉ toks → cost_loop toks (mkCostState first false false false cost) = None.
Proof.
  revert first. induction toks as [|tok toks IH]; intros first H; [done|].
  apply not_elem_of_cons in H as [Hne H]. cbn [cost_loop].
  destruct tok as [k|[n|s|]|v| | | |]; cbn; try congruence; try (by apply IH).
  by destruct first; apply IH.
Qed.

(** The structured reader of EXPLAIN's output never yields a cost, for any
    JSON value: walking without entering nested values, it never sees the
    object of the plan, so that the cost always comes from the text search
    behind it. *)
Theorem extract_total_cost_never v : nrim_extract_total_cost_from_explain_json v = None.
Proof.
  unfold nrim_extract_total_cost_from_explain_json. destruct v as [n|s|l|m]; [done..| |]; cbn [shallow_tokens cost_loop cost_step].
  - apply cost_loop_none. rewrite elem_of_app, list_elem_of_fmap, list_elem_of_singleton. naive_solver.
  - cbn [andb]. apply cost_loop_none. rewrite elem_of_app, list_elem_of_singleton.
    intros [(l & Hin & Hl)%list_elem_of_In%in_concat|?]; [|done].
    apply list_elem_of_In, list_elem_of_fmap in Hin as (kv & -> & _). cbn in Hl. naive_solver.
Qed.

(** ** Arithmetic of rationals as the code compares them *)

Lemma Qltb_spec x y : Qltb x y = true ↔ (x < y)%Q.
Proof.
  unfold Qltb. rewrite negb_true_iff. split.
  - intros H. apply Qnot_le_lt. intros Hle. apply Qle_bool_iff in Hle. congruence.
  - intros H. apply not_true_iff_false. intros Hle%Qle_bool_iff. by apply (Qlt_not_le _ _ H).
Qed.

Lemma Qltb_false x y : Qltb x y = false ↔ (y <= x)%Q.
Proof.
  unfold Qltb. rewrite negb_false_iff. apply Qle_bool_iff.
Qed.

Lemma Qle_bool_false x y : Qle_bool x y = false ↔ (y < x)%Q.
Proof. rewrite <- Qltb_spec. unfold Qltb. by rewrite negb_true_iff. Qed.

(** ** What eviction removes *)

(** The tables and the database without some indexes. *)
Definition without (oids : list Z) (st : worker_state) : worker_state :=
  mkWorker (queue st) (filter (λ p, p.1 ∉ oids) (registry st)) (query_facts st)
    (filter (λ p, p.1.2 ∉ oids) (attribution st)) (filter (λ p, p.1 ∉ oids) (indexes st)) (now st).

Lemma worker_state_eq st st' :
  queue st = queue st' → registry st = registry st' → query_facts st = query_facts st' →
  attribution st = attribution st' → indexes st = indexes st' → now st = now st' → st = st'.
Proof. destruct st, st'. cbn. congruence. Qed.

Lemma filter_not_in_cons {A} (m : gmap Z A) oid oids :
  filter (λ p, p.1 ∉ oids) (delete oid m) = filter (λ p, p.1 ∉ oid :: oids) m.
Proof.
  apply map_eq. intros k. apply option_eq. intros x. rewrite !map_lookup_filter_Some, lookup_delete_Some. cbn.
  rewrite not_elem_of_cons. naive_solver.
Qed.

Lemma without_remove oid oids st :
  without oids (forget_index oid (set_indexes (delete oid (indexes st)) st)) = without (oid :: oids) st.
Proof.
  apply worker_state_eq; [done| |done| | |done]; cbn.
  - apply filter_not_in_cons.
  - apply map_eq. intros k. apply option_eq. intros x. rewrite !map_lookup_filter_Some. cbn.
    rewrite not_elem_of_cons. naive_solver.
  - apply filter_not_in_cons.
Qed.

Lemma without_nil st : without [] st = st.
Proof.
  apply worker_state_eq; [done| |done| | |done]; cbn; apply map_eq; intros k; apply option_eq; intros x;
    rewrite map_lookup_filter_Some, elem_of_nil; tauto.
Qed.

Lemma without_mark vs st : without (v_oid <$> vs) (mark_victims vs st) = without (v_oid <$> vs) st.
Proof.
  apply worker_state_eq; [done| |done..]. unfold without, mark_victims, set_registry. cbn [registry].
  apply map_eq. intros k. destruct (decide (k ∈ v_oid <$> vs)) as [Hk|Hk].
  { rewrite !map_lookup_filter_None_2; [done|right; naive_solver..]. }
  assert (∀ reg : gmap Z registry_row, foldl (λ reg v, alter mark_dropping (v_oid v) reg) reg vs !! k = reg !! k) as E.
  { clear -Hk. induction vs as [|v vs IH]; intros reg; [done|]. cbn in Hk |- *. apply not_elem_of_cons in Hk as [H1 H2].
    rewrite IH by done. by apply lookup_alter_ne. }
  apply option_eq. intros x. rewrite !map_lookup_filter_Some, E. done.
Qed.

(** ** Choosing victims *)

(** What an index counts for when it is evicted. *)
Definition size_of (r : evict_row) : Q := if Qle_bool (er_size_mb r) 0 then (1 # 1000)%Q else er_size_mb r.
Definition utility_of (env : worker_env) (r : evict_row) : Q := nrim_index_utility env (er_benefit r) (er_touch r).
Definition victim_of (env : worker_env) (r : evict_row) : victim := mkVictim (er_oid r) (size_of r) (utility_of env r).

Definition sum_from (x : Q) (l : list Q) : Q := foldl Qplus x l.
Definition sum (l : list Q) : Q := sum_from 0 l.

Lemma sum_from_eq x l : (sum_from x l == x + sum l)%Q.
Proof.
  unfold sum. revert x. induction l as [|y l IH]; intros x; cbn; [lra|]. fold (sum_from (x + y) l) (sum_from (0 + y) l).
  rewrite (IH (x + y)%Q), (IH (0 + y)%Q). lra.
Qed.

Lemma sum_cons x l : (sum (x :: l) == x + sum l)%Q.
Proof. unfold sum at 1. cbn. fold (sum_from (0 + x) l). rewrite sum_from_eq. lra. Qed.

Lemma foldl_minus x l : (foldl Qminus x l == x - sum l)%Q.
Proof.
  revert x. induction l as [|y l IH]; intros x; [cbn; unfold sum; cbn; lra|].
  cbn [foldl]. rewrite IH, sum_cons. lra.
Qed.

Lemma pick_victims_spec env rows needed freed util st :
  (∀ r, r ∈ rows → er_oid r ≠ 0 ∧ index_known env (er_oid r) = true) →
  ∃ n, (n ≤ length rows)%nat ∧
    pick_victims env rows needed freed util st =
      (victim_of env <$> take n rows, sum_from freed (size_of <$> take n rows),
       sum_from util (utility_of env <$> take n rows), st) ∧
    (∀ m, (m < n)%nat → (sum_from freed (size_of <$> take m rows) < needed)%Q) ∧
    (n = length rows ∨ (needed <= sum_from freed (size_of <$> take n rows))%Q).
Proof.
  revert freed util. induction rows as [|r rows IH]; intros freed util Hr.
  { exists 0%nat. cbn. split_and!; [done..|lia|by left]. }
  cbn [pick_victims]. destruct (Qltb freed needed) eqn:E; cbn [negb].
  2:{ exists 0%nat. cbn. apply Qltb_false in E. split_and!; [lia|done|lia|by right]. }
  apply Qltb_spec in E. destruct (Hr r) as [H0 Hk]; [by left|]. rewrite (proj2 (Z.eqb_neq _ _) H0), Hk. cbn [negb].
  destruct (IH (freed + size_of r)%Q (util + utility_of env r)%Q) as (n & Hn & Hp & Hlt & Hend).
  { intros r' ?. apply Hr. by right. }
  cbv zeta. fold (size_of r) (utility_of env r). rewrite Hp. exists (S n). split; [cbn; lia|]. split; [done|]. split.
  - intros [|m] Hm; [done|]. apply Hlt. lia.
  - destruct Hend as [->|?]; [by left|by right].
Qed.

(** The loop drops all victims, or those before the first that psql fails to drop. *)
Lemma drop_victims_spec env vs needed st :
  (∀ m, (m < length vs)%nat → (0 < foldl Qminus needed (v_size_mb <$> take m vs))%Q) →
  Forall (λ v, drop_ok env (v_oid v) = true) vs ∧
    drop_victims env vs needed st = (true, foldl Qminus needed (v_size_mb <$> vs), without (v_oid <$> vs) st) ∨
  ∃ k v needed', vs !! k = Some v ∧ drop_ok env (v_oid v) = false ∧
    Forall (λ v, drop_ok env (v_oid v) = true) (take k vs) ∧
    drop_victims env vs needed st = (false, needed', without (v_oid <$> take k vs) st).
Proof.
  revert needed st. induction vs as [|v vs IH]; intros needed st Hm.
  { left. cbn. by rewrite without_nil. }
  cbn [drop_victims]. unfold run_drop. destruct (drop_ok env (v_oid v)) eqn:Ed; cbn [negb]; cbv zeta.
  2:{ right. exists 0%nat, v, needed. cbn. rewrite without_nil. by split_and!. }
  destruct (Qle_bool (needed - v_size_mb v) 0) eqn:E.
  - left. destruct vs as [|v' vs].
    + split; [by repeat constructor|]. cbn [foldl fmap list_fmap]. by rewrite <- without_remove, without_nil.
    + exfalso. apply Qle_bool_iff in E. specialize (Hm 1%nat ltac:(cbn; lia)). cbn in Hm. lra.
  - destruct (IH (needed - v_size_mb v)%Q (forget_index (v_oid v) (set_indexes (delete (v_oid v) (indexes st)) st)))
      as [[Hd ->]|(k & v' & needed' & Hk & Hd & Hf & ->)].
    + intros m Hlt. apply (Hm (S m)). cbn. lia.
    + left. split; [by constructor|]. by rewrite without_remove.
    + right. exists (S k), v', needed'. split_and!; [done|done|by constructor|]. by rewrite without_remove.
Qed.

(** ** Eviction *)

(** The catalogs are sound: an index of [pg_class] has a valid oid, names that
    resolve, and a size. *)
Definition catalog_ok (env : worker_env) (st : worker_state) : Prop :=
  ∀ oid i, indexes st !! oid = Some i → oid ≠ 0 ∧ index_known env oid = true ∧ 0 ≤ ix_bytes i.

Lemma catalog_subseteq env st st' : catalog_ok env st → indexes st' ⊆ indexes st → catalog_ok env st'.
Proof. intros Hc Hs oid i Hi. by apply (Hc oid i), (lookup_weaken _ _ _ _ Hi Hs). Qed.

Lemma insert_sorted_perm env r l : insert_sorted env r l ≡ₚ r :: l.
Proof. induction l as [|r' l IH]; cbn; [done|]. destruct (er_leb env r r'); [done|]. rewrite IH. by constructor. Qed.

Lemma sort_rows_perm env l : sort_rows env l ≡ₚ l.
Proof. induction l as [|r l IH]; [done|]. cbn. rewrite insert_sorted_perm. by constructor. Qed.

Lemma elem_of_evictable env st r :
  r ∈ evictable env st ↔ ∃ row, registry st !! er_oid r = Some row ∧ row_of st (er_oid r, row) = Some r.
Proof.
  unfold evictable. rewrite sort_rows_perm, list_elem_of_omap. split.
  - intros ([oid row] & Hin%elem_of_map_to_list & Hr). assert (er_oid r = oid) as ->; [|by exists row].
    unfold row_of in Hr. cbn in Hr. repeat case_match; by simplify_eq.
  - intros (row & Hin & Hr). exists (er_oid r, row). by rewrite elem_of_map_to_list.
Qed.

Lemma NoDup_evictable env st : NoDup (er_oid <$> evictable env st).
Proof.
  unfold evictable. rewrite sort_rows_perm.
  assert (∀ l : list (Z * registry_row), NoDup l.*1 → NoDup (er_oid <$> omap (row_of st) l)) as H;
    [|apply H, NoDup_fst_map_to_list].
  intros l. induction l as [|[oid row] l IH]; cbn; [done|]. intros [Hn Hl]%NoDup_cons.
  destruct (row_of st (oid, row)) as [r|] eqn:E; [|by apply IH]. cbn. apply NoDup_cons. split; [|by apply IH].
  assert (er_oid r = oid) as -> by (unfold row_of in E; cbn in E; repeat case_match; by simplify_eq).
  intros (r' & -> & ([oid' row'] & Hin & Hr')%list_elem_of_omap)%list_elem_of_fmap. apply Hn.
  assert (er_oid r' = oid') as -> by (unfold row_of in Hr'; cbn in Hr'; repeat case_match; by simplify_eq).
  apply list_elem_of_fmap. by exists (oid', row').
Qed.

Lemma evictable_sorted env st :
  StronglySorted (λ a b, (er_density env a <= er_density env b)%Q) (evictable env st).
Proof.
  assert (∀ a b, er_leb env a b = true → (er_density env a <= er_density env b)%Q) as Ht.
  { intros a b. unfold er_leb. rewrite orb_true_iff, andb_true_iff, Qltb_spec, Qeq_bool_iff. intros [?|[? _]]; lra. }
  assert (∀ a b, er_leb env a b = false → (er_density env b <= er_density env a)%Q) as Hf.
  { intros a b. unfold er_leb. rewrite orb_false_iff, Qltb_false. tauto. }
  unfold evictable. generalize (omap (row_of st) (map_to_list (registry st))). intros l.
  induction l as [|r l IH]; [constructor|]. change (sort_rows env (r :: l)) with (insert_sorted env r (sort_rows env l)).
  induction IH as [|x l' Hl IH Hx]; cbn; [repeat constructor|]. destruct (er_leb env r x) eqn:E.
  - apply Ht in E. constructor; [by constructor|]. constructor; [done|].
    eapply Forall_impl; [done|]. intros y Hy. cbn in Hy. lra.
  - apply Hf in E. constructor; [done|]. rewrite insert_sorted_perm. by constructor.
Qed.

Definition victims_sizes (env : worker_env) (st : worker_state) (n : nat) : Q := sum (size_of <$> take n (evictable env st)).
Definition victims_utility (env : worker_env) (st : worker_state) (n : nat) : Q := sum (utility_of env <$> take n (evictable env st)).
Definition victims_oids (env : worker_env) (st : worker_state) (n : nat) : list Z := er_oid <$> take n (evictable env st).

(** The victims an eviction picks: the fewest that free what is needed. *)
Definition picked (env : worker_env) (st : worker_state) (needed : Q) (n : nat) : Prop :=
  (n ≤ length (evictable env st))%nat ∧ (needed <= victims_sizes env st n)%Q ∧
  ∀ m, (m < n)%nat → (victims_sizes env st m < needed)%Q.

Definition droppable (env : worker_env) (oid : Z) : Prop := drop_ok env oid = true.

Section eviction.

Context (env : worker_env) (s : worker_settings) (st : worker_state).
Context (Hcat : catalog_ok env st).

Lemma evictable_known r : r ∈ evictable env st → er_oid r ≠ 0 ∧ index_known env (er_oid r) = true.
Proof.
  intros (row & _ & Hr)%elem_of_evictable. unfold row_of in Hr. cbn [fst snd] in Hr.
  destruct (rg_state row); [|done]. destruct (indexes st !! er_oid r) as [i|] eqn:E; [|done].
  by destruct (Hcat _ _ E) as (? & ? & _).
Qed.

(** The outcomes of an eviction: all victims are gone; psql failed to drop one of
    them, and those before it are gone; or nothing was done. *)
Lemma evict_spec needed util : (0 < needed)%Q →
  (∃ n, picked env st needed n ∧ (victims_utility env st n * (1 + min_value_improvement s) < util)%Q ∧
     Forall (droppable env) (victims_oids env st n) ∧
     nrim_worker_evict_until_fits env s needed util st = (true, without (victims_oids env st n) st)) ∨
  (∃ n k v, picked env st needed n ∧ (victims_utility env st n * (1 + min_value_improvement s) < util)%Q ∧
     (k < n)%nat ∧ evictable env st !! k = Some v ∧ ¬ droppable env (er_oid v) ∧
     Forall (droppable env) (victims_oids env st k) ∧
     nrim_worker_evict_until_fits env s needed util st =
       (false, without (victims_oids env st k) (mark_victims (victim_of env <$> take n (evictable env st)) st))) ∨
  nrim_worker_evict_until_fits env s needed util st = (false, st) ∧
  ((victims_sizes env st (length (evictable env st)) < needed)%Q ∨
   ∃ n, picked env st needed n ∧ (util <= victims_utility env st n * (1 + min_value_improvement s))%Q).
Proof.
  intros Hneed. unfold nrim_worker_evict_until_fits, nrim_worker_evict_until_fits_total_utility.
  rewrite (proj2 (Qle_bool_false needed 0)) by done.
  destruct (pick_victims_spec env (evictable env st) needed 0 0 st evictable_known) as (n & Hn & -> & Hmin & Hend).
  fold (sum (size_of <$> take n (evictable env st))) (sum (utility_of env <$> take n (evictable env st))).
  fold (victims_sizes env st n) (victims_utility env st n).
  destruct (Qltb (victims_sizes env st n) needed) eqn:E1.
  { right; right. split; [done|]. left. apply Qltb_spec in E1. destruct Hend as [->|Hend]; [done|].
    unfold victims_sizes, sum in E1. lra. }
  apply Qltb_false in E1. destruct (Qle_bool util _) eqn:E2.
  { right; right. split; [done|]. right. exists n. apply Qle_bool_iff in E2. done. }
  apply Qle_bool_false in E2. assert (picked env st needed n) as Hp by done.
  assert (∀ k, (v_oid <$> (victim_of env <$> take k (evictable env st))) = victims_oids env st k) as Ho
    by (intros k; unfold victims_oids; by rewrite <- list_fmap_compose).
  assert (∀ k, Forall (λ v, drop_ok env (v_oid v) = true) (victim_of env <$> take k (evictable env st)) →
    Forall (droppable env) (victims_oids env st k)) as Hf by (intros k Hk; rewrite <- Ho; by apply Forall_fmap).
  edestruct (drop_victims_spec env (victim_of env <$> take n (evictable env st)) needed)
    as [[Hd ->]|(k & v & needed' & Hk & Hd & Hb & ->)].
  - intros m Hm. rewrite length_fmap, length_take in Hm. rewrite <- fmap_take, take_take, Nat.min_l by lia.
    rewrite foldl_minus, <- list_fmap_compose. change (v_size_mb ∘ victim_of env) with size_of.
    assert (victims_sizes env st m < needed)%Q as Hlt by (apply Hmin; lia). unfold victims_sizes in Hlt. lra.
  - left. exists n. split_and!; [done..|by apply Hf|]. rewrite <- Ho, without_mark. f_equal. cbn [andb].
    apply Qle_bool_iff. rewrite foldl_minus, <- list_fmap_compose. change (v_size_mb ∘ victim_of env) with size_of.
    fold (victims_sizes env st n). lra.
  - right; left. rewrite list_lookup_fmap in Hk. apply fmap_Some in Hk as (r & Hr & ->).
    apply lookup_take_Some in Hr as [Hr Hkn]. rewrite <- fmap_take, take_take, Nat.min_l in Hb by lia.
    exists n, k, r. split_and!; [done..|unfold droppable; cbn in Hd; congruence|by apply Hf|].
    cbn [andb]. f_equal. rewrite <- fmap_take, take_take, Nat.min_l by lia. by rewrite Ho.
Qed.

End eviction.


(** ** Every item that is handled is finished *)

Lemma pick_victims_queue env rows needed freed util st :
  queue (pick_victims env rows needed freed util st).2 = queue st.
Proof.
  revert freed util. induction rows as [|r rows IH]; intros freed util; [done|]. cbn [pick_victims].
  destruct (negb _); [done|]. destruct (_ =? 0); [apply IH|]. destruct (negb _); [done|]. cbv zeta.
  match goal with |- context [pick_victims env rows needed ?f ?u st] => specialize (IH f u) end.
  by destruct (pick_victims env rows needed _ _ st) as [[[? ?] ?] ?].
Qed.

Lemma drop_victims_queue env vs needed st : queue (drop_victims env vs needed st).2 = queue st.
Proof.
  revert needed st. induction vs as [|v vs IH]; intros needed st; [done|]. cbn [drop_victims]. unfold run_drop.
  destruct (drop_ok env (v_oid v)); cbn [negb]; [|done]. cbv zeta. destruct (Qle_bool _ _); [done|]. by rewrite IH.
Qed.

Lemma evict_queue env s needed util st : queue (nrim_worker_evict_until_fits env s needed util st).2 = queue st.
Proof.
  unfold nrim_worker_evict_until_fits, nrim_worker_evict_until_fits_total_utility.
  destruct (Qle_bool needed 0); [done|]. pose proof (pick_victims_queue env (evictable env st) needed 0 0 st) as Hp.
  destruct (pick_victims env _ needed 0 0 st) as [[[vs f] u] st1]. cbn [snd] in Hp.
  destruct (Qltb f needed); [done|]. destruct (Qle_bool util _); [done|].
  pose proof (drop_victims_queue env vs needed (mark_victims vs st1)) as Hd.
  destruct (drop_victims env vs needed (mark_victims vs st1)) as [[ok n] st2]. cbn [snd] in *. by rewrite Hd.
Qed.

(** The queue in which item [id] has ended. *)
Definition finished_in (id : Z) (q q' : list work_item) : Prop :=
  ∃ status err, (status = Done ∨ status = Error) ∧ q' = set_status id status err q.

Lemma finish_finished id status msg st :
  status = Done ∨ status = Error → finished_in id (queue st) (queue (finish id status msg st)).
Proof. intros H. by eexists _, _. Qed.

Lemma make_room_queue env s size util st : queue (make_room env s size util st).2 = queue st.
Proof. unfold make_room. destruct (Qltb 0 _); [|done]. destruct (Qltb 0 _); [apply evict_queue|done]. Qed.

Lemma ensure_registry_queue env oid c b st : queue (nrim_worker_ensure_registry_for_index env oid c b st) = queue st.
Proof. unfold nrim_worker_ensure_registry_for_index. destruct (_ || _); [done|]. by destruct (negb _). Qed.

Lemma update_attribution_queue env q oid b st : queue (nrim_worker_update_attribution env q oid b st) = queue st.
Proof. unfold nrim_worker_update_attribution. destruct (_ || _); [done|]. cbv zeta. by destruct (registry _ !! oid). Qed.

Lemma after_create_finished env s id qid oid b util st :
  finished_in id (queue st) (queue (after_create env s id qid oid b util st)).
Proof.
  unfold after_create. cbv zeta.
  set (st1 := nrim_worker_update_attribution _ _ _ _ _).
  assert (queue st1 = queue st) as Hq by (subst st1; by rewrite update_attribution_queue, ensure_registry_queue).
  clearbody st1. rewrite <- Hq. destruct (Qltb 0 _).
  - match goal with |- context [nrim_worker_evict_until_fits env s ?n ?u st1] =>
      pose proof (evict_queue env s n u st1) as He; destruct (nrim_worker_evict_until_fits env s n u st1) as [[] st2] end;
      cbn [snd] in He.
    + rewrite <- He. eexists Done, _. split; [by left|done].
    + unfold finish, run_drop. rewrite <- He. destruct (drop_ok env oid); eexists Done, _; (split; [by left|done]).
  - eexists Done, _. split; [by left|done].
Qed.

Lemma create_best_finished env s id qid b st st' :
  create_best env s id qid b st = Ok st' → finished_in id (queue st) (queue st').
Proof.
  unfold create_best. cbv zeta. destruct (negb (enable_auto_index_creation s)); [intros [= <-]; apply finish_finished; by left|].
  match goal with |- context [make_room env s ?a ?u st] =>
    pose proof (make_room_queue env s a u st) as Hq; destruct (make_room env s a u st) as [room st1] end.
  cbn [snd] in Hq. rewrite <- Hq. destruct (negb room); [intros [= <-]; apply finish_finished; by left|].
  destruct (negb (rel_known _ _)); [intros [= <-]; apply finish_finished; by right|].
  destruct (nrim_worker_index_exists st1 _); [intros [= <-]; apply finish_finished; by left|].
  destruct (columns_ok env _ _) as [ok| |]; cbn [mbind outcome_bind]; [|done..].
  destruct (negb ok); [intros [= <-]; apply finish_finished; by right|].
  destruct (create_index env (b_cand b)) as [[[oid info] found]|]; [|intros [= <-]; apply finish_finished; by right].
  destruct (found && negb (oid =? 0)); intros [= <-].
  - apply (after_create_finished env s id qid oid b _ (set_indexes _ st1)).
  - eexists Done, _. split; [by left|done].
Qed.

Lemma process_item_finished `{JsonbInput} env s w st st' :
  process_item env s w st = Ok st' → finished_in (wi_id w) (queue st) (queue st').
Proof.
  unfold process_item. cbv zeta. set (st1 := nrim_worker_update_query_facts _ st).
  assert (queue st1 = queue st) as <- by (subst st1; unfold nrim_worker_update_query_facts; by destruct (_ =? 0)).
  destruct (negb (hypopg_available env)); [intros [= <-]; apply finish_finished; by right|].
  destruct (explain env _ (wi_query_text w) None); [|intros [= <-]; apply finish_finished; by right].
  destruct (nrim_parse_candidates_json (wi_candidates w)) as [cands| |]; cbn [mbind outcome_bind]; [|done..].
  destruct cands as [|cand cands]; [intros [= <-]; apply finish_finished; by left|].
  destruct (evaluate env s st1 _ _ _ _ _) as [best| |]; cbn [mbind outcome_bind]; [|done..].
  destruct best; [|intros [= <-]; apply finish_finished; by left]. apply create_best_finished.
Qed.

(** An item that the worker handles is the pending one with the smallest id,
    and it ends as done or in error, never pending or in processing; no other
    item changes. *)
Theorem handled_item_finished `{JsonbInput} env s st st' :
  nrim_process_one_work_item env s st = (Handled, st') →
  ∃ w status err,
    next_pending (queue st) = Some w ∧ (status = Done ∨ status = Error) ∧
    queue st' = set_status (wi_id w) status err (queue st).
Proof.
  unfold nrim_process_one_work_item. destruct (next_pending (queue st)) as [w|] eqn:E; [|done].
  destruct (negb (0 <? wi_id w)); [done|].
  destruct (process_item env s w _) as [st1| |] eqn:Ep; intros [= <-]. apply process_item_finished in Ep as (status & err & Hs & ->).
  exists w, status, (λ e, err e). split; [done|]. split; [done|]. cbn. unfold set_status. rewrite <- list_fmap_compose.
  apply list_fmap_ext. intros _ x _. cbn. by destruct (wi_id x =? wi_id w) eqn:Ex; cbn; rewrite ?Ex.
Qed.

(** ** The queue drains in order *)

Definition pending_ids (q : list work_item) : list Z := wi_id <$> filter (λ w, wi_status w = Pending) q.

Lemma set_status_ids id status err q : wi_id <$> set_status id status err q = wi_id <$> q.
Proof.
  unfold set_status. rewrite <- list_fmap_compose. apply list_fmap_ext. intros _ w _. cbn. by destruct (wi_id w =? id).
Qed.

Lemma set_status_absent id status err q : id ∉ wi_id <$> q → set_status id status err q = q.
Proof.
  induction q as [|w q IH]; [done|]. rewrite fmap_cons, not_elem_of_cons. intros [Hne Hq].
  unfold set_status. rewrite fmap_cons. fold (set_status id status err q). rewrite IH by done.
  by rewrite (proj2 (Z.eqb_neq _ _)) by done.
Qed.

Lemma next_pending_ids q w status err :
  NoDup (wi_id <$> q) → next_pending q = Some w → status ≠ Pending →
  w ∈ q ∧ pending_ids q = wi_id w :: pending_ids (set_status (wi_id w) status err q).
Proof.
  unfold next_pending, pending_ids. induction q as [|x q IH]; [done|]. rewrite fmap_cons, NoDup_cons. intros [Hx Hq] Hn Hs.
  cbn in Hn. unfold set_status. rewrite fmap_cons. fold (set_status (wi_id w) status err q). case_decide as Hp.
  - cbn in Hn. injection Hn as <-. split; [by left|]. rewrite Z.eqb_refl.
    rewrite filter_cons_True by done. rewrite filter_cons_False by done. by rewrite set_status_absent.
  - rewrite !filter_cons_False; [|destruct (wi_id x =? wi_id w); done|done].
    destruct (list_find (λ w, wi_status w = Pending) q) as [[i y]|] eqn:E; [|done]. cbn in Hn. injection Hn as <-.
    destruct IH as [Hin ->]; [done..|]. split; [by right|done].
Qed.

Lemma next_pending_None q : next_pending q = None → pending_ids q = [].
Proof.
  unfold next_pending, pending_ids. induction q as [|x q IH]; [done|]. cbn. case_decide; [done|].
  intros H'. apply IH. by destruct (list_find _ q) as [[? ?]|].
Qed.

(** Ids are distinct and positive, as a serial primary key has them. *)
Definition queue_ids_ok (q : list work_item) : Prop := NoDup (wi_id <$> q) ∧ Forall (λ i, 0 < i) (wi_id <$> q).

Lemma process_drains `{JsonbInput} env s st r st' :
  queue_ids_ok (queue st) → nrim_process_one_work_item env s st = (r, st') → r ≠ Died →
  queue_ids_ok (queue st') ∧
  match r with
  | NoItem => st' = st ∧ pending_ids (queue st) = []
  | _ => ∃ id, pending_ids (queue st) = id :: pending_ids (queue st')
  end.
Proof.
  intros [Hnd Hpos] Hp Hr. unfold nrim_process_one_work_item in Hp.
  destruct (next_pending (queue st)) as [w|] eqn:E.
  2:{ injection Hp as <- <-. split; [done|]. split; [done|]. by apply next_pending_None. }
  pose proof (next_pending_ids (queue st) w) as Hids.
  destruct (Z.ltb_spec 0 (wi_id w)) as [_|Hle]; cbn [negb] in Hp.
  2:{ exfalso. destruct (Hids Done id Hnd E) as [Hin _]; [done|]. rewrite Forall_forall in Hpos.
      specialize (Hpos (wi_id w)). rewrite list_elem_of_fmap in Hpos. assert (0 < wi_id w) by (apply Hpos; eauto). lia. }
  destruct (process_item env s w _) as [st1| |] eqn:Ep; injection Hp as <- <-; [|done..].
  apply process_item_finished in Ep as (status & err & Hs & ->). cbn [queue set_queue].
  split; [unfold queue_ids_ok; by rewrite !set_status_ids|]. exists (wi_id w).
  assert (set_status (wi_id w) status err (set_status (wi_id w) Processing (λ e, e) (queue st)) =
          set_status (wi_id w) status err (queue st)) as ->.
  { unfold set_status. rewrite <- list_fmap_compose. apply list_fmap_ext. intros _ x _. cbn.
    by destruct (wi_id x =? wi_id w) eqn:Ex; cbn; rewrite ?Ex. }
  by apply Hids; [..|destruct Hs as [-> | ->]].
Qed.

Lemma burst_drains `{JsonbInput} n env s did did' st st' :
  queue_ids_ok (queue st) → work_burst n env s did st = (did', true, st') →
  queue_ids_ok (queue st') ∧ pending_ids (queue st') = drop n (pending_ids (queue st)).
Proof.
  revert did st. induction n as [|n IH]; intros did st Hok; cbn [work_burst].
  { intros [= <- <-]. split; [done|]. by rewrite drop_0. }
  destruct (nrim_process_one_work_item env s st) as [r st1] eqn:E.
  destruct r; [| |by intros].
  - intros [= <- <-]. apply process_drains in E as [Hok' [-> ->]]; [|done..]. split; [done|]. by rewrite drop_nil.
  - intros Hb. apply process_drains in E as [Hok' [id ->]]; [|done..]. by apply IH in Hb.
Qed.

(** C33. The worker drains its queue in the order of the ids, five items a round:
    after [n] rounds in which no error was raised exactly the first [5 n]
    pending items have left the queue, so that every item is handled. *)
Theorem worker_drains_queue `{JsonbInput} n env s idx_scan st st' :
  queue_ids_ok (queue st) → worker_rounds n env s idx_scan st = (true, st') →
  pending_ids (queue st') = drop (5 * n) (pending_ids (queue st)).
Proof.
  revert st. induction n as [|n IH]; intros st Hok; cbn [worker_rounds].
  { intros [= <-]. by rewrite drop_0. }
  unfold worker_round. destruct (work_burst 5 env s false st) as [[did alive] st1] eqn:E.
  destruct alive; cbn [negb]; [|done]. apply burst_drains in E as [Hok1 Hp1]; [|done].
  set (st2 := if did then _ else st1). assert (queue st2 = queue st1) as Hq by (by subst st2; destruct did).
  intros Hr. apply IH in Hr; [|by rewrite Hq]. rewrite Hr, Hq, Hp1, drop_drop. f_equal. lia.
Qed.

(** ** The storage budget *)

(** The registry describes public indexes of the database, with their sizes. *)
Definition tables_accurate (st : worker_state) : Prop :=
  registry st !! 0 = None ∧
  ∀ oid r, registry st !! oid = Some r →
    ∃ i, indexes st !! oid = Some i ∧ ix_public i = true ∧ 0 < ix_bytes i ∧
         default (ix_bytes i) (rg_size_bytes r) = ix_bytes i.

Lemma public_bytes_delete m oid i :
  m !! oid = Some i → public_bytes m = (if ix_public i then ix_bytes i else 0) + public_bytes (delete oid m).
Proof.
  intros H. unfold public_bytes. rewrite (map_fold_delete_L _ _ oid i m); [done| |done]. intros. lia.
Qed.

Lemma public_bytes_insert m oid i :
  m !! oid = None → public_bytes (<[oid := i]> m) = (if ix_public i then ix_bytes i else 0) + public_bytes m.
Proof. intros H. rewrite (public_bytes_delete _ oid i), delete_insert_id by (done || apply lookup_insert_eq). done. Qed.

Lemma mb_add a b : (mb (a + b) == mb a + mb b)%Q.
Proof. unfold mb. rewrite inject_Z_plus. field. Qed.

Lemma mb_nonneg a : 0 ≤ a → (0 <= mb a)%Q.
Proof. intros H. unfold mb. apply Qle_shift_div_l; [lra|]. rewrite Qmult_0_l. by rewrite <- (Zle_Qle 0). Qed.

Lemma mb_pos a : 0 < a → (0 < mb a)%Q.
Proof. intros H. unfold mb. apply Qlt_shift_div_l; [lra|]. rewrite Qmult_0_l. by rewrite <- (Zlt_Qlt 0). Qed.

(** A row that describes an index of [m]. *)
Definition row_accurate (m : gmap Z index_info) (r : evict_row) : Prop :=
  ∃ i, m !! er_oid r = Some i ∧ ix_public i = true ∧ 0 < ix_bytes i ∧ er_size_mb r = mb (ix_bytes i).

Lemma usage_without m rows :
  NoDup (er_oid <$> rows) → Forall (row_accurate m) rows →
  (mb (public_bytes (filter (λ p, p.1 ∉ er_oid <$> rows) m)) == mb (public_bytes m) - sum (size_of <$> rows))%Q.
Proof.
  revert m. induction rows as [|r rows IH]; intros m Hnd Hacc.
  - assert (filter (λ p, p.1 ∉ er_oid <$> []) m = m) as ->.
    { apply map_eq. intros k. apply option_eq. intros x. rewrite map_lookup_filter_Some. cbn. rewrite elem_of_nil. tauto. }
    unfold sum. cbn. lra.
  - rewrite fmap_cons in *. apply NoDup_cons in Hnd as [Hr Hnd]. apply Forall_cons in Hacc as [(i & Hi & Hp & Hb & Hs) Hacc].
    rewrite <- filter_not_in_cons, IH; [|done|].
    + rewrite (public_bytes_delete m (er_oid r) i Hi), Hp, mb_add, fmap_cons, sum_cons.
      assert (size_of r = mb (ix_bytes i)) as ->; [|lra].
      unfold size_of. rewrite Hs, (proj2 (Qle_bool_false _ _)); [done|]. by apply mb_pos.
    + rewrite Forall_forall in *. intros r' Hr'. destruct (Hacc r' Hr') as (i' & Hi' & ?). exists i'. split; [|done].
      rewrite lookup_delete_ne; [done|]. intros E. apply Hr. rewrite E. by apply list_elem_of_fmap_2.
Qed.

Lemma public_bytes_mono m m' :
  m ⊆ m' → (∀ oid i, m' !! oid = Some i → 0 ≤ ix_bytes i) → public_bytes m ≤ public_bytes m'.
Proof.
  revert m'. induction m as [|oid i m Hn IH] using map_ind; intros m' Hs Hb.
  - clear Hs. induction m' as [|oid i m' Hn IH] using map_ind; [done|]. rewrite public_bytes_insert by done.
    assert (0 ≤ ix_bytes i) by (apply (Hb oid), lookup_insert_eq).
    assert (public_bytes ∅ ≤ public_bytes m').
    { apply IH. intros k j Hj. apply (Hb k). rewrite lookup_insert_ne; [done|]. intros ->. congruence. }
    destruct (ix_public i); lia.
  - assert (m' !! oid = Some i) as Hi by (eapply lookup_weaken; [apply lookup_insert_eq|done]).
    rewrite public_bytes_insert by done. rewrite (public_bytes_delete m' oid i Hi).
    assert (public_bytes m ≤ public_bytes (delete oid m')); [|lia]. apply IH.
    + rewrite <- (delete_insert_id m oid i) by done. by apply delete_mono.
    + intros k j [_ Hj]%lookup_delete_Some. by eapply Hb.
Qed.

Lemma mb_mono a b : a ≤ b → (mb a <= mb b)%Q.
Proof. intros H. replace b with (a + (b - a)) by lia. rewrite mb_add. assert (0 <= mb (b - a))%Q by (apply mb_nonneg; lia). lra. Qed.

Section budget.

Context (env : worker_env) (s : worker_settings).

Lemma evictable_accurate st r : tables_accurate st → r ∈ evictable env st → row_accurate (indexes st) r.
Proof.
  intros [_ Hacc] (row & Hreg & Hrow)%elem_of_evictable. destruct (Hacc _ _ Hreg) as (i & Hi & Hp & Hb & Hs).
  exists i. split_and!; [done..|]. unfold row_of in Hrow. cbn [fst snd] in Hrow. rewrite Hi in Hrow.
  destruct (rg_state row); [|done]. rewrite Hs in Hrow. by injection Hrow as <-.
Qed.

Lemma without_accurate oids st : tables_accurate st → tables_accurate (without oids st).
Proof.
  intros [H0 Hacc]. split; [apply map_lookup_filter_None; by left|].
  intros oid r. cbn. intros [Hr Hn]%map_lookup_filter_Some. destruct (Hacc _ _ Hr) as (i & Hi & ?). exists i.
  split; [|done]. by apply map_lookup_filter_Some.
Qed.

Lemma mark_accurate vs st : tables_accurate st → tables_accurate (mark_victims vs st).
Proof.
  intros [H0 Hacc]. unfold mark_victims, tables_accurate. cbn [registry indexes set_registry].
  set (P := λ reg : gmap Z registry_row, reg !! 0 = None ∧ ∀ oid row, reg !! oid = Some row → ∃ i, indexes st !! oid = Some i ∧
    ix_public i = true ∧ 0 < ix_bytes i ∧ default (ix_bytes i) (rg_size_bytes row) = ix_bytes i).
  change (P (foldl (λ reg v, alter mark_dropping (v_oid v) reg) (registry st) vs)).
  assert (P (registry st)) as HP by done. clear H0 Hacc. revert HP. generalize (registry st).
  induction vs as [|v vs IH]; intros reg [H0 Hacc]; [done|]. cbn [foldl]. apply IH. split.
  - destruct (decide (v_oid v = 0)) as [->|]; [by rewrite lookup_alter_eq, H0|by rewrite lookup_alter_ne].
  - intros oid row. destruct (decide (v_oid v = oid)) as [->|]; [|rewrite lookup_alter_ne by done; apply Hacc].
    rewrite lookup_alter_eq. intros (row' & Hr & ->)%fmap_Some. apply (Hacc _ _ Hr).
Qed.

Definition usage (st : worker_state) : Q := nr_get_current_index_storage_mb st.

(** Fewer indexes take no more space. *)
Lemma usage_subseteq st st' : catalog_ok env st → indexes st' ⊆ indexes st → (usage st' <= usage st)%Q.
Proof.
  intros Hc Hs. unfold usage, nr_get_current_index_storage_mb. apply mb_mono, public_bytes_mono; [done|].
  intros oid i Hi. by destruct (Hc _ _ Hi) as (_ & _ & ?).
Qed.

Lemma evict_usage needed util st b st' :
  catalog_ok env st → tables_accurate st → (0 < needed)%Q → nrim_worker_evict_until_fits env s needed util st = (b, st') →
  tables_accurate st' ∧ indexes st' ⊆ indexes st ∧ (b = true → (usage st' <= usage st - needed)%Q).
Proof.
  intros Hc Hacc Hneed E.
  destruct (evict_spec env s st Hc needed util Hneed)
    as [(n & (Hn & Hs & _) & _ & _ & E')|[(n & k & v & _ & _ & _ & _ & _ & _ & E')|[E' _]]];
    rewrite E' in E; injection E as <- <-.
  - split; [by apply without_accurate|]. split; [apply map_filter_subseteq|]. intros _.
    unfold usage, nr_get_current_index_storage_mb. cbn [indexes without]. unfold victims_oids.
    rewrite usage_without; [unfold victims_sizes in Hs; lra| |].
    + rewrite fmap_take. eapply sublist_NoDup; [apply NoDup_evictable|]. apply sublist_take.
    + apply Forall_take, Forall_forall. intros r Hr. by apply evictable_accurate.
  - split; [by apply without_accurate, mark_accurate|]. split; [apply map_filter_subseteq|done].
  - done.
Qed.

(** An index that psql does not drop is not evicted. *)
Lemma drop_victims_keeps vs needed st oid :
  drop_ok env oid = false → indexes (drop_victims env vs needed st).2 !! oid = indexes st !! oid.
Proof.
  intros Hd. revert needed st. induction vs as [|v vs IH]; intros needed st; [done|]. cbn [drop_victims]. unfold run_drop.
  destruct (drop_ok env (v_oid v)) eqn:E; cbn [negb]; cbv zeta; [|done].
  assert (v_oid v ≠ oid) by congruence. destruct (Qle_bool _ 0); [|rewrite IH]; cbn; by rewrite lookup_delete_ne.
Qed.

Lemma evict_keeps needed util st oid :
  catalog_ok env st → drop_ok env oid = false →
  indexes (nrim_worker_evict_until_fits env s needed util st).2 !! oid = indexes st !! oid.
Proof.
  intros Hc Hd. unfold nrim_worker_evict_until_fits, nrim_worker_evict_until_fits_total_utility.
  destruct (Qle_bool needed 0); [done|].
  destruct (pick_victims_spec env (evictable env st) needed 0 0 st (evictable_known env st Hc)) as (n & _ & -> & _).
  destruct (Qltb _ needed); [done|]. destruct (Qle_bool util _); [done|].
  pose proof (drop_victims_keeps (victim_of env <$> take n (evictable env st)) needed
    (mark_victims (victim_of env <$> take n (evictable env st)) st) oid Hd) as Hk.
  destruct (drop_victims env _ needed _) as [[ok needed'] st'] eqn:E. exact Hk.
Qed.

Lemma make_room_usage size util st ok st' :
  catalog_ok env st → tables_accurate st → make_room env s size util st = (ok, st') →
  tables_accurate st' ∧ indexes st' ⊆ indexes st.
Proof.
  unfold make_room. cbv zeta. intros Hc Hacc. destruct (Qltb 0 _); [|by intros [= <- <-]].
  destruct (Qltb 0 (_ - _)) eqn:E; [|by intros [= <- <-]]. apply Qltb_spec in E.
  intros Hev. by apply evict_usage in Hev as (? & ? & _).
Qed.

Lemma ensure_indexes oid c b st : indexes (nrim_worker_ensure_registry_for_index env oid c b st) = indexes st.
Proof. unfold nrim_worker_ensure_registry_for_index. destruct (_ || _); [done|]. by destruct (negb _). Qed.
Lemma attribution_indexes q oid b st : indexes (nrim_worker_update_attribution env q oid b st) = indexes st.
Proof. unfold nrim_worker_update_attribution. destruct (_ || _); [done|]. cbv zeta. by destruct (registry _ !! oid). Qed.

Lemma ensure_accurate oid info c b st :
  tables_accurate st → oid ≠ 0 → indexes st !! oid = Some info → ix_public info = true → 0 < ix_bytes info →
  tables_accurate (nrim_worker_ensure_registry_for_index env oid c b st).
Proof.
  intros [H0 Hacc] Ho Hi Hp Hb. unfold nrim_worker_ensure_registry_for_index.
  destruct (_ || _); [done|]. destruct (negb _); [done|]. split; cbn [registry indexes set_registry].
  - by rewrite lookup_insert_ne.
  - intros k r. destruct (decide (k = oid)) as [->|Hne].
    + rewrite lookup_insert_eq. intros [= <-]. exists info. split_and!; [done..|].
      destruct (registry st !! oid) as [r|] eqn:E.
      * destruct (Hacc _ _ E) as (i & Hi' & _ & _ & Hs). simplify_eq. done.
      * cbn. unfold index_bytes. by rewrite Hi.
    + rewrite lookup_insert_ne by done. apply Hacc.
Qed.

Lemma attribution_accurate q oid b st :
  tables_accurate st → tables_accurate (nrim_worker_update_attribution env q oid b st).
Proof.
  intros [H0 Hacc]. unfold nrim_worker_update_attribution. destruct (_ || _); [done|]. cbv zeta.
  cbn [registry set_attribution]. destruct (registry st !! oid) as [r|] eqn:E; [|done]. split; cbn.
  - rewrite lookup_insert_ne; [done|]. intros ->. congruence.
  - intros k r'. destruct (decide (k = oid)) as [->|Hne].
    + rewrite lookup_insert_eq. intros [= <-]. apply (Hacc _ _ E).
    + rewrite lookup_insert_ne by done. apply Hacc.
Qed.

(** What [CREATE INDEX] makes: a public index. *)
Definition creates_public (st : worker_state) : Prop :=
  ∀ c oid info found, create_index env c = Some (oid, info, found) →
    ix_public info = true ∧ 0 < ix_bytes info ∧ oid ≠ 0 ∧ index_known env oid = true ∧ indexes st !! oid = None.

Lemma creates_subseteq st st' : creates_public st → indexes st' ⊆ indexes st → creates_public st'.
Proof.
  intros Hc Hs c oid info found E. destruct (Hc _ _ _ _ E) as (? & ? & ? & ? & Hn). split_and!; try done.
  apply eq_None_not_Some. intros [i Hi]. by rewrite (lookup_weaken _ _ _ _ Hi Hs) in Hn.
Qed.

Context (Hbudget : (0 < nr_calculate_index_budget_mb env s)%Q).

(** A new index that stays over the budget: it was not found by its name, or psql
    has failed to drop it again. *)
Definition overrun (st' : worker_state) : Prop :=
  ∃ c oid info found, create_index env c = Some (oid, info, found) ∧ indexes st' !! oid = Some info ∧
    (found = false ∨ drop_ok env oid = false).

Definition within (st st' : worker_state) : Prop :=
  (usage st' <= nr_calculate_index_budget_mb env s)%Q ∨ (usage st' <= usage st)%Q ∨ overrun st'.

Lemma insert_accurate oid info st :
  tables_accurate st → indexes st !! oid = None → tables_accurate (set_indexes (<[oid := info]> (indexes st)) st).
Proof.
  intros [H0 Hacc] Hi. split; [done|]. cbn. intros k r Hr. destruct (Hacc _ _ Hr) as (i & ? & ?).
  exists i. split; [|done]. rewrite lookup_insert_ne; [done|]. intros ->. congruence.
Qed.

Lemma delete_accurate oid st (m : gmap Z index_info) a :
  tables_accurate st → m = indexes st ∨ m = delete oid (indexes st) →
  tables_accurate (set_attribution a (set_registry (delete oid (registry st)) (set_indexes m st))).
Proof.
  intros [H0 Hacc] Hm. split; cbn.
  - apply lookup_delete_None. by right.
  - intros k r [Hne Hr]%lookup_delete_Some. destruct (Hacc _ _ Hr) as (i & ? & ?). exists i. split; [|done].
    destruct Hm as [->| ->]; [done|by rewrite lookup_delete_ne].
Qed.

Lemma after_create_within id qid c oid info b util st :
  catalog_ok env st → tables_accurate st → creates_public st → create_index env c = Some (oid, info, true) →
  let st' := after_create env s id qid oid b util (set_indexes (<[oid := info]> (indexes st)) st) in
  tables_accurate st' ∧ within st st'.
Proof.
  intros Hcat Hacc Hcr Ec. destruct (Hcr _ _ _ _ Ec) as (Hp & Hb & Ho & Hk & Hi). cbv zeta. unfold after_create. cbv zeta.
  set (st1 := nrim_worker_update_attribution _ _ _ _ _).
  assert (tables_accurate st1) as Hacc1.
  { apply attribution_accurate. eapply ensure_accurate; try done; [by apply insert_accurate|]. apply lookup_insert_eq. }
  assert (indexes st1 = <[oid := info]> (indexes st)) as Hix by (subst st1; by rewrite attribution_indexes, ensure_indexes).
  assert (catalog_ok env st1) as Hcat1.
  { intros k i. rewrite Hix. intros [[<- <-]|[_ ?]]%lookup_insert_Some; [split_and!; try done; lia|by eapply Hcat]. }
  clearbody st1. rewrite (proj2 (Qltb_spec 0 (nr_calculate_index_budget_mb env s))) by done.
  destruct (Qltb 0 (_ - _)) eqn:E.
  2:{ split; [done|]. left. apply Qltb_false in E. unfold usage.
      change (nr_get_current_index_storage_mb (set_queue _ st1)) with (nr_get_current_index_storage_mb st1). lra. }
  apply Qltb_spec in E. fold (usage st1) in *.
  pose proof (evict_keeps (usage st1 - nr_calculate_index_budget_mb env s)%Q util st1 oid Hcat1) as Hkeep.
  destruct (nrim_worker_evict_until_fits env s _ util st1) as [fits st2] eqn:Ev.
  apply evict_usage in Ev as (Hacc2 & Hs & Hu); [|done..]. destruct fits.
  { split; [done|]. left. specialize (Hu eq_refl). unfold usage in *.
    change (nr_get_current_index_storage_mb (set_queue _ st2)) with (nr_get_current_index_storage_mb st2). lra. }
  unfold run_drop. destruct (drop_ok env oid) eqn:Ed; cbn [snd].
  - split; [by apply (delete_accurate oid st2 (delete oid (indexes st2))); [|right]|]. right; left.
    apply usage_subseteq; [done|]. cbn. rewrite <- (delete_insert_id (indexes st) oid info), <- Hix by done. by apply delete_mono.
  - split; [by apply (delete_accurate oid st2 (indexes st2)); [|left]|]. right; right. exists c, oid, info, true.
    split; [done|]. split; [|by right]. cbn. cbn [snd] in Hkeep. by rewrite (Hkeep eq_refl), Hix, lookup_insert_eq.
Qed.

Lemma create_best_within id qid b st st' :
  catalog_ok env st → tables_accurate st → creates_public st →
  create_best env s id qid b st = Ok st' → tables_accurate st' ∧ within st st'.
Proof.
  intros Hcat Hacc Hcr. unfold create_best. cbv zeta.
  assert (within st st) as Hself by (right; left; lra).
  destruct (negb (enable_auto_index_creation s)); [by intros [= <-]|].
  destruct (make_room env s (b_size_mb b) _ st) as [room st1] eqn:Er.
  apply make_room_usage in Er as (Hacc1 & Hsub); [|done..].
  assert (usage st1 <= usage st)%Q as Hu by (by apply usage_subseteq). assert (within st st1) as Hw1 by (by right; left).
  destruct (negb room); [by intros [= <-]|]. destruct (negb (rel_known env _)); [by intros [= <-]|].
  destruct (nrim_worker_index_exists st1 _); [by intros [= <-]|].
  destruct (columns_ok env _ _) as [ok| |]; cbn [mbind outcome_bind]; [|done..].
  destruct (negb ok); [by intros [= <-]|].
  destruct (create_index env (b_cand b)) as [[[oid info] found]|] eqn:Ec; [|by intros [= <-]].
  pose proof (catalog_subseteq env st st1 Hcat Hsub) as Hcat1. pose proof (creates_subseteq st st1 Hcr Hsub) as Hcr1.
  destruct (Hcr1 _ _ _ _ Ec) as (_ & _ & Ho & _ & Hi). rewrite (proj2 (Z.eqb_neq _ _) Ho), andb_true_r.
  destruct found; intros [= <-].
  - match goal with |- tables_accurate (after_create env s id qid oid b ?u _) ∧ _ =>
      destruct (after_create_within id qid (b_cand b) oid info b u st1) as [? [Hw|[Hw|Hw]]]; [done..| | |] end;
      (split; [done|]); [by left|right; left; lra|by right; right].
  - split; [by apply (insert_accurate oid info st1)|]. right; right. exists (b_cand b), oid, info, false.
    split_and!; [done| |by left]. apply lookup_insert_eq.
Qed.

Lemma process_item_within `{JsonbInput} w st st' :
  catalog_ok env st → tables_accurate st → creates_public st →
  process_item env s w st = Ok st' → tables_accurate st' ∧ within st st'.
Proof.
  intros Hcat Hacc Hcr. unfold process_item. cbv zeta. set (st1 := nrim_worker_update_query_facts _ st).
  assert (tables_accurate st1 ∧ indexes st1 = indexes st) as [Hacc1 Hix].
  { subst st1. unfold nrim_worker_update_query_facts. by destruct (_ =? 0). }
  assert (usage st1 = usage st) as Hus by (unfold usage, nr_get_current_index_storage_mb; by rewrite Hix).
  assert (within st st1) as Hw by (right; left; rewrite Hus; lra).
  destruct (negb (hypopg_available env)); [by intros [= <-]|].
  destruct (explain env _ (wi_query_text w) None); [|by intros [= <-]].
  destruct (nrim_parse_candidates_json (wi_candidates w)) as [cands| |]; cbn [mbind outcome_bind]; [|done..].
  destruct cands as [|cand cands]; [by intros [= <-]|].
  destruct (evaluate env s st1 _ _ _ _ _) as [best| |]; cbn [mbind outcome_bind]; [|done..].
  destruct best as [b|]; [|by intros [= <-]]. intros Hb.
  assert (indexes st1 ⊆ indexes st) as Hsub by (by rewrite Hix).
  apply create_best_within in Hb as [? Hw'];
    [|by eapply catalog_subseteq|done|by eapply creates_subseteq]. split; [done|].
  unfold within in *. by rewrite Hus in Hw'.
Qed.

End budget.


(** ** The best candidate *)

(** The subscripts of an index's columns start at 0 and those of the array they
    are compared with at 1. *)
Lemma index_exists_never st c : nrim_worker_index_exists st c = false.
Proof.
  unfold nrim_worker_index_exists. destruct (_ || _); [done|]. apply not_true_iff_false.
  intros ([oid i] & _ & H)%existsb_exists. revert H. unfold same_index, array_eq. cbn. by rewrite orb_true_r, andb_false_r.
Qed.

Definition eligible (env : worker_env) (c : NrimCand) : bool :=
  negb ((relid c =? 0) || (ncols c <=? 0)) && rel_known env (relid c) && forallb (att_btree env (relid c)) (cols c).

(** How many candidates are evaluated at most. *)
Definition eval_limit (s : worker_settings) : nat :=
  Z.to_nat (if 0 <? max_hypopg_evals_per_minute s
            then Z.min (max_candidates_per_query s) (max_hypopg_evals_per_minute s)
            else max_candidates_per_query s).

Definition evaluated (env : worker_env) (s : worker_settings) (cands : list NrimCand) : list NrimCand := take (eval_limit s) (filter (λ c, eligible env c = true) cands).

Lemma columns_ok_known env r cols :
  Forall (λ a, att_known env r a = true) cols → columns_ok env r cols = Ok (forallb (att_btree env r) cols).
Proof.
  induction 1 as [|a cols Ha _ IH]; [done|]. cbn. rewrite Ha. cbn [negb]. by destruct (att_btree env r a).
Qed.

(** The loop as a fold over the candidates that are evaluated. *)
Lemma evaluate_fold env s st query_text baseline cands evals best :
  0 ≤ evals → Forall (λ c, Forall (λ a, att_known env (relid c) a = true) (cols c)) cands →
  evaluate env s st query_text baseline cands evals best =
  Ok (foldl (λ best c, better best c (hypo_evaluate env (indexes st) query_text baseline c).1 (hypo_evaluate env (indexes st) query_text baseline c).2)
        best (take (eval_limit s - Z.to_nat evals) (filter (λ c, eligible env c = true) cands))).
Proof.
  intros He Hk. revert evals best He. induction Hk as [|c cands Hc _ IH]; intros evals best He; cbn [evaluate].
  { by destruct (_ - _)%nat. }
  destruct (max_candidates_per_query s <=? evals) eqn:E1.
  { apply Z.leb_le in E1. replace (eval_limit s - Z.to_nat evals)%nat with 0%nat; [done|].
    unfold eval_limit. destruct (0 <? _); lia. }
  destruct ((0 <? max_hypopg_evals_per_minute s) && (max_hypopg_evals_per_minute s <=? evals)) eqn:E2.
  { apply andb_true_iff in E2 as [E2 E3%Z.leb_le]. replace (eval_limit s - Z.to_nat evals)%nat with 0%nat; [done|].
    unfold eval_limit. rewrite E2. lia. }
  assert (eligible env c = negb ((relid c =? 0) || (ncols c <=? 0)) &&
    rel_known env (relid c) && forallb (att_btree env (relid c)) (cols c)) as El by done.
  destruct ((relid c =? 0) || (ncols c <=? 0)); [by rewrite filter_cons_False, IH by (by rewrite ?El)|].
  rewrite index_exists_never.
  destruct (rel_known env (relid c)); cbn [negb]; [|by rewrite filter_cons_False, IH by (by rewrite ?El)].
  rewrite columns_ok_known by done. cbn [mbind outcome_bind].
  destruct (forallb (att_btree env (relid c)) (cols c)); cbn [negb]; [|by rewrite filter_cons_False, IH by (by rewrite ?El)].
  rewrite filter_cons_True by done.
  assert (eval_limit s - Z.to_nat evals = S (eval_limit s - Z.to_nat (evals + 1)))%nat as ->.
  { apply Z.leb_gt in E1. unfold eval_limit. apply andb_false_iff in E2.
    destruct (0 <? max_hypopg_evals_per_minute s) eqn:E3; [|lia]. apply Z.ltb_lt in E3.
    destruct E2 as [?|E2%Z.leb_gt]; [done|]. lia. }
  cbn [take foldl]. rewrite <- IH by lia. by destruct (hypo_evaluate env (indexes st) query_text baseline c).
Qed.

(** The columns of the best candidate have been resolved when it was evaluated. *)
Lemma evaluate_columns env s st query_text baseline cands evals best b :
  (∀ b0, best = Some b0 → columns_ok env (relid (b_cand b0)) (cols (b_cand b0)) = Ok true) →
  evaluate env s st query_text baseline cands evals best = Ok (Some b) →
  columns_ok env (relid (b_cand b)) (cols (b_cand b)) = Ok true.
Proof.
  revert evals best. induction cands as [|c cands IH]; intros evals best Hb; cbn [evaluate].
  { intros [= ->]. by apply Hb. }
  destruct (max_candidates_per_query s <=? evals); [intros [= ->]; by apply Hb|].
  destruct (_ && _); [intros [= ->]; by apply Hb|]. destruct (_ || _); [by apply IH|].
  destruct (nrim_worker_index_exists st c); [by apply IH|]. destruct (negb (rel_known env (relid c))); [by apply IH|].
  destruct (columns_ok env (relid c) (cols c)) as [ok| |] eqn:Ec; cbn [mbind outcome_bind]; [|done..].
  destruct ok; cbn [negb]; [|by apply IH]. destruct (hypo_evaluate _ _ _ _ c) as [benefit size_mb]. apply IH.
  intros b0. unfold better. destruct (Qltb 0 benefit); [|apply Hb]. cbv zeta.
  destruct (Qltb _ _); [by intros [= <-]|apply Hb].
Qed.

(** So no error is raised behind an eviction, whose drops psql has committed. *)
Lemma create_best_returns env s id qid b st query_text baseline cands st0 :
  evaluate env s st0 query_text baseline cands 0 None = Ok (Some b) →
  ∃ st', create_best env s id qid b st = Ok st'.
Proof.
  intros Hc%evaluate_columns; [|done]. unfold create_best. cbv zeta. destruct (negb (enable_auto_index_creation s)); [by eexists|].
  destruct (make_room env s (b_size_mb b) _ st) as [room st1]. destruct (negb room); [by eexists|].
  destruct (negb (rel_known env _)); [by eexists|]. destruct (nrim_worker_index_exists st1 _); [by eexists|].
  rewrite Hc. cbn [mbind outcome_bind negb]. destruct (create_index env (b_cand b)) as [[[oid info] found]|]; [|by eexists].
  destruct (found && _); by eexists.
Qed.

Section best.

Context (env : worker_env) (idx : gmap Z index_info) (query_text : text) (baseline : Q).

Definition benefit_of (c : NrimCand) : Q := (hypo_evaluate env idx query_text baseline c).1.
Definition value_of (c : NrimCand) : Q := (benefit_of c / ((hypo_evaluate env idx query_text baseline c).2 + 1))%Q.
Definition best_of (best : option best_cand) (cands : list NrimCand) : option best_cand :=
  foldl (λ best c, better best c (hypo_evaluate env idx query_text baseline c).1 (hypo_evaluate env idx query_text baseline c).2)
    best cands.

(** The best so far describes one of the candidates. *)
Definition best_in (cands : list NrimCand) (best : option best_cand) : Prop :=
  match best with
  | Some b => b_cand b ∈ cands ∧ (0 < b_benefit b)%Q ∧ (0 < b_value b)%Q ∧ b_benefit b = benefit_of (b_cand b) ∧
              b_value b = value_of (b_cand b)
  | None => True
  end.
Definition best_value (best : option best_cand) : Q := match best with Some b => b_value b | None => 0%Q end.

Lemma better_spec seen best c :
  best_in seen best →
  let best' := better best c (hypo_evaluate env idx query_text baseline c).1 (hypo_evaluate env idx query_text baseline c).2 in
  best_in (seen ++ [c]) best' ∧ (best_value best <= best_value best')%Q ∧
  ((0 < benefit_of c)%Q → (value_of c <= best_value best')%Q).
Proof.
  intros Hin. cbv zeta. unfold better. fold (benefit_of c) (value_of c) (best_value best).
  assert (best_in (seen ++ [c]) best) as Hin'.
  { destruct best as [b|]; [|done]. destruct Hin as [? ?]. split; [apply elem_of_app; by left|done]. }
  destruct (Qltb 0 (benefit_of c)) eqn:E.
  - apply Qltb_spec in E. destruct (Qltb (best_value best) (value_of c)) eqn:E2.
    + apply Qltb_spec in E2. split_and!; [|cbn; lra|intros _; cbn; lra]. cbn. split_and!; try done.
      * apply elem_of_app. right. by left.
      * destruct best as [b|]; cbn in E2; [destruct Hin as (_ & _ & Hv & _); lra|done].
    + apply Qltb_false in E2. split_and!; [done|lra|done].
  - apply Qltb_false in E. split_and!; [done|lra|intros; lra].
Qed.

Lemma best_of_spec seen best cands :
  best_in seen best → (∀ c, c ∈ seen → (0 < benefit_of c)%Q → (value_of c <= best_value best)%Q) →
  best_in (seen ++ cands) (best_of best cands) ∧
  ∀ c, c ∈ seen ++ cands → (0 < benefit_of c)%Q → (value_of c <= best_value (best_of best cands))%Q.
Proof.
  revert seen best. induction cands as [|c cands IH]; intros seen best Hin Hall; [by rewrite app_nil_r|].
  destruct (better_spec seen best c Hin) as (H1 & H2 & H3).
  replace (seen ++ c :: cands) with ((seen ++ [c]) ++ cands) by (by rewrite <- app_assoc). apply IH; [done|].
  intros c' Hc Hb. apply elem_of_app in Hc as [Hc|Hc]; [|apply list_elem_of_singleton in Hc as ->; by apply H3]. specialize (Hall c' Hc Hb). lra.
Qed.

End best.

(** The worker picks the best candidate: of the first candidates of known
    tables whose columns have a btree order, up to the limits, the one whose
    benefit per megabyte is largest, and none only when no candidate lowers the
    cost. *)
Theorem best_candidate_maximal env s st query_text baseline cands :
  Forall (λ c, Forall (λ a, att_known env (relid c) a = true) (cols c)) cands →
  ∃ best, evaluate env s st query_text baseline cands 0 None = Ok best ∧
    (∀ c, c ∈ evaluated env s cands → (0 < benefit_of env (indexes st) query_text baseline c)%Q →
       (value_of env (indexes st) query_text baseline c <= best_value best)%Q) ∧
    match best with
    | Some b => b_cand b ∈ evaluated env s cands ∧ (0 < b_benefit b)%Q ∧
                b_benefit b = benefit_of env (indexes st) query_text baseline (b_cand b) ∧
                b_value b = value_of env (indexes st) query_text baseline (b_cand b)
    | None => True
    end.
Proof.
  intros Hk. eexists. split; [apply evaluate_fold; [lia|done]|]. rewrite Nat.sub_0_r.
  fold (evaluated env s cands). fold (best_of env (indexes st) query_text baseline None (evaluated env s cands)).
  destruct (best_of_spec env (indexes st) query_text baseline [] None (evaluated env s cands)) as [H1 H2].
  - done.
  - by intros c ?%elem_of_nil.
  - split; [done|]. destruct (best_of _ _ _ _ _ _); [|done]. destruct H1 as (? & ? & ? & ? & ?). done.
Qed.

(** ** No index is created twice *)

Definition distinct_indexes (st : worker_state) : Prop :=
  ∀ o1 o2 i1 i2, indexes st !! o1 = Some i1 → indexes st !! o2 = Some i2 →
    ix_relid i1 = ix_relid i2 → ix_cols i1 = ix_cols i2 → o1 = o2.

Lemma distinct_subseteq st st' : distinct_indexes st → indexes st' ⊆ indexes st → distinct_indexes st'.
Proof. intros H Hs o1 o2 i1 i2 H1 H2. apply H; by eapply lookup_weaken. Qed.

Lemma pick_victims_indexes env rows needed freed util st :
  indexes (pick_victims env rows needed freed util st).2 = indexes st.
Proof.
  revert freed util. induction rows as [|r rows IH]; intros freed util; [done|]. cbn [pick_victims].
  destruct (negb _); [done|]. destruct (_ =? 0); [apply IH|]. destruct (negb _); [done|]. cbv zeta.
  match goal with |- context [pick_victims env rows needed ?f ?u st] => specialize (IH f u) end.
  by destruct (pick_victims env rows needed _ _ st) as [[[? ?] ?] ?].
Qed.

Lemma drop_victims_indexes env vs needed st : indexes (drop_victims env vs needed st).2 ⊆ indexes st.
Proof.
  revert needed st. induction vs as [|v vs IH]; intros needed st; [done|]. cbn [drop_victims]. unfold run_drop.
  destruct (drop_ok env (v_oid v)); cbn [negb]; [|done]. cbv zeta.
  destruct (Qle_bool _ _); cbn [snd]; [apply delete_subseteq|]. etransitivity; [apply IH|]. apply delete_subseteq.
Qed.

Lemma evict_indexes env s needed util st : indexes (nrim_worker_evict_until_fits env s needed util st).2 ⊆ indexes st.
Proof.
  unfold nrim_worker_evict_until_fits, nrim_worker_evict_until_fits_total_utility.
  destruct (Qle_bool needed 0); [done|]. pose proof (pick_victims_indexes env (evictable env st) needed 0 0 st) as Hp.
  destruct (pick_victims env _ needed 0 0 st) as [[[vs f] u] st1]. cbn [snd] in Hp. rewrite <- Hp.
  destruct (Qltb f needed); [done|]. destruct (Qle_bool util _); [done|].
  pose proof (drop_victims_indexes env vs needed (mark_victims vs st1)) as Hd.
  by destruct (drop_victims env vs needed (mark_victims vs st1)) as [[ok n] st2].
Qed.

Lemma make_room_indexes env s size util st : indexes (make_room env s size util st).2 ⊆ indexes st.
Proof. unfold make_room. destruct (Qltb 0 _); [|done]. destruct (Qltb 0 _); [apply evict_indexes|done]. Qed.

Lemma make_room_fits env s size util st :
  (nr_get_current_index_storage_mb st + size <= nr_calculate_index_budget_mb env s)%Q →
  make_room env s size util st = (true, st).
Proof.
  intros H. unfold make_room. destruct (Qltb 0 _); [|done].
  rewrite (proj2 (Qltb_false _ _)); [done|]. lra.
Qed.

Lemma after_create_fits env s id qid oid b util st :
  (nr_get_current_index_storage_mb st <= nr_calculate_index_budget_mb env s)%Q →
  indexes (after_create env s id qid oid b util st) = indexes st.
Proof.
  intros H. unfold after_create. cbv zeta. set (st1 := nrim_worker_update_attribution _ _ _ _ _).
  assert (indexes st1 = indexes st) as E by (subst st1; by rewrite attribution_indexes, ensure_indexes). clearbody st1.
  rewrite (proj2 (Qltb_false _ _)); [done|]. destruct (Qltb 0 _); [|lra].
  revert H. unfold nr_get_current_index_storage_mb. rewrite E. lra.
Qed.

Lemma after_create_indexes env s id qid oid b util st :
  indexes (after_create env s id qid oid b util st) ⊆ indexes st.
Proof.
  unfold after_create. cbv zeta. set (st1 := nrim_worker_update_attribution _ _ _ _ _).
  assert (indexes st1 = indexes st) as <- by (subst st1; by rewrite attribution_indexes, ensure_indexes). clearbody st1.
  destruct (Qltb 0 _); [|done].
  match goal with |- context [nrim_worker_evict_until_fits env s ?n ?u st1] =>
    pose proof (evict_indexes env s n u st1) as He; destruct (nrim_worker_evict_until_fits env s n u st1) as [[] st2] end;
    cbn [snd] in He; [done|]. unfold run_drop. destruct (drop_ok env oid); [|done]. cbn. etransitivity; [apply delete_subseteq|done].
Qed.

(** An index on the candidate's columns exists. *)
Definition indexed (idx : gmap Z index_info) (c : NrimCand) : Prop :=
  ∃ oid i, idx !! oid = Some i ∧ ix_relid i = relid c ∧ ix_cols i = cols c.

(** A hypothetical index on columns that have an index already makes no plan
    cheaper. *)
Definition no_gain_from_copies (env : worker_env) : Prop :=
  ∀ idx query_text c baseline with_cost, indexed idx c →
    explain env idx query_text None = Cost baseline → explain env idx query_text (Some c) = Cost with_cost →
    (baseline <= with_cost)%Q.

(** The best candidate lowers the cost. *)
Definition gaining (env : worker_env) (idx : gmap Z index_info) (query_text : text) (baseline : Q)
    (best : option best_cand) : Prop :=
  match best with Some b => (0 < benefit_of env idx query_text baseline (b_cand b))%Q | None => True end.

Lemma evaluate_gaining env s st query_text baseline cands evals best best' :
  gaining env (indexes st) query_text baseline best →
  evaluate env s st query_text baseline cands evals best = Ok best' →
  gaining env (indexes st) query_text baseline best'.
Proof.
  revert evals best. induction cands as [|c cands IH]; intros evals best Hb; cbn [evaluate]; [by intros [= <-]|].
  destruct (_ <=? _); [by intros [= <-]|]. destruct (_ && _); [by intros [= <-]|].
  destruct (_ || _); [by apply IH|].
  destruct (nrim_worker_index_exists st c); [by apply IH|]. destruct (negb _); [by apply IH|].
  destruct (columns_ok env _ _) as [ok| |]; cbn [mbind outcome_bind]; [|done..]. destruct (negb ok); [by apply IH|].
  destruct (hypo_evaluate env _ query_text baseline c) as [ben sz] eqn:E. apply IH. unfold better.
  destruct (Qltb 0 ben) eqn:Eq; [|done]. apply Qltb_spec in Eq. destruct (Qltb _ _); [|done].
  cbn. unfold benefit_of. by rewrite E.
Qed.

Lemma gaining_not_indexed env idx query_text baseline c :
  no_gain_from_copies env → explain env idx query_text None = Cost baseline →
  (0 < benefit_of env idx query_text baseline c)%Q → ¬ indexed idx c.
Proof.
  intros Hg Hb. unfold benefit_of, hypo_evaluate. destruct (hypopg_create env c); cbn; [lra..|].
  destruct (explain env idx query_text (Some c)) as [w|] eqn:Ew; cbn; [|lra].
  intros Hpos Hi. specialize (Hg _ _ _ _ _ Hi Hb Ew). destruct (Qltb _ _); lra.
Qed.

Lemma create_best_distinct env s id qid b st st' :
  distinct_indexes st → ¬ indexed (indexes st) (b_cand b) →
  (∀ oid info found, create_index env (b_cand b) = Some (oid, info, found) →
     ix_relid info = relid (b_cand b) ∧ ix_cols info = cols (b_cand b)) →
  create_best env s id qid b st = Ok st' → distinct_indexes st'.
Proof.
  intros Hd Hn Hc. unfold create_best. cbv zeta. destruct (negb (enable_auto_index_creation s)); [by intros [= <-]|].
  match goal with |- context [make_room env s ?a ?u st] =>
    pose proof (make_room_indexes env s a u st) as Hs; destruct (make_room env s a u st) as [room st1] end.
  cbn [snd] in Hs. apply (distinct_subseteq st st1 Hd) in Hs as Hd1.
  destruct (negb room); [by intros [= <-]|]. destruct (negb (rel_known _ _)); [by intros [= <-]|].
  destruct (nrim_worker_index_exists st1 _); [by intros [= <-]|].
  destruct (columns_ok env _ _) as [ok| |]; cbn [mbind outcome_bind]; [|done..]. destruct (negb ok); [by intros [= <-]|].
  destruct (create_index env (b_cand b)) as [[[oid info] found]|] eqn:Ec; [|by intros [= <-]].
  destruct (Hc _ _ _ eq_refl) as [Er El]. 
  assert (∀ o i, indexes st1 !! o = Some i → ix_relid i = relid (b_cand b) → ix_cols i = cols (b_cand b) → False) as Hno.
  { intros o i Hi E1 E2. apply Hn. exists o, i. split; [|done]. by eapply lookup_weaken. }
  assert (distinct_indexes (set_indexes (<[oid := info]> (indexes st1)) st1)) as Hd2.
  { intros o1 o2 i1 i2. cbn. intros [[<- <-]|[Hn1 H1]]%lookup_insert_Some [[<- <-]|[Hn2 H2]]%lookup_insert_Some E1 E2.
    - done.
    - exfalso. apply (Hno _ _ H2); congruence.
    - exfalso. apply (Hno _ _ H1); congruence.
    - by apply (Hd1 _ _ _ _ H1 H2). }
  destruct (found && _); intros [= <-]; [|done]. eapply distinct_subseteq; [exact Hd2|]. apply after_create_indexes.
Qed.

(** The check for an index on the same columns never finds one:
    [indkey::int2[] = ARRAY[...]] compares arrays whose lower bounds differ. A
    best candidate that copies an existing index is therefore created besides
    it when the budget has room. *)
Theorem existing_index_not_found env s id qid b st oid i oid' info found :
  indexes st !! oid = Some i → ix_relid i = relid (b_cand b) → ix_cols i = cols (b_cand b) →
  enable_auto_index_creation s = true →
  (nr_get_current_index_storage_mb st + b_size_mb b <= nr_calculate_index_budget_mb env s)%Q →
  (mb (public_bytes (<[oid' := info]> (indexes st))) <= nr_calculate_index_budget_mb env s)%Q →
  rel_known env (relid (b_cand b)) = true → columns_ok env (relid (b_cand b)) (cols (b_cand b)) = Ok true →
  create_index env (b_cand b) = Some (oid', info, found) → oid' ≠ oid →
  nrim_worker_index_exists st (b_cand b) = false ∧
  ∃ st', create_best env s id qid b st = Ok st' ∧ indexes st' !! oid = Some i ∧ indexes st' !! oid' = Some info.
Proof.
  intros Hi _ _ Ha Hb Hb' Hr Hc Hcr Hne. split; [apply index_exists_never|].
  unfold create_best. cbv zeta. rewrite Ha. cbn [negb]. rewrite make_room_fits by done. cbn [negb].
  rewrite Hr. cbn [negb]. rewrite index_exists_never, Hc. cbn [mbind outcome_bind negb]. rewrite Hcr.
  assert (indexes st !! oid = Some i ∧ <[oid' := info]> (indexes st) !! oid = Some i ∧
    <[oid' := info]> (indexes st) !! oid' = Some info) as (_ & H1 & H2) by by rewrite lookup_insert_ne, lookup_insert_eq.
  destruct (found && _); (eexists; split; [done|]); [|done]. by rewrite after_create_fits.
Qed.

(** No index is created twice, as long as a hypothetical copy of an index
    makes no plan cheaper: if no two indexes of the database are on the same
    columns of the same table, that is so after each work item. *)
Theorem no_duplicate_indexes `{JsonbInput} env s st r st' :
  distinct_indexes st → no_gain_from_copies env →
  (∀ c oid info found, create_index env c = Some (oid, info, found) → ix_relid info = relid c ∧ ix_cols info = cols c) →
  nrim_process_one_work_item env s st = (r, st') → distinct_indexes st'.
Proof.
  intros Hd Hg Hc. unfold nrim_process_one_work_item.
  destruct (next_pending (queue st)) as [w|]; [|by intros [= _ <-]]. destruct (negb (0 <? wi_id w)); [by intros [= _ <-]|].
  set (st0 := set_queue _ st). assert (distinct_indexes st0) as Hd0 by done. clearbody st0.
  destruct (process_item env s w st0) as [st1| |] eqn:Ep; intros [= _ <-]; [|done..].
  revert Ep. unfold process_item. cbv zeta. set (st2 := nrim_worker_update_query_facts _ st0).
  assert (distinct_indexes st2) as Hd2 by (subst st2; unfold nrim_worker_update_query_facts; by destruct (_ =? 0)).
  clearbody st2. destruct (negb (hypopg_available env)); [by intros [= <-]|].
  destruct (explain env (indexes st2) (wi_query_text w) None) eqn:Ex; [|by intros [= <-]].
  destruct (nrim_parse_candidates_json (wi_candidates w)) as [cands| |]; cbn [mbind outcome_bind]; [|done..].
  destruct cands as [|cand cands]; [by intros [= <-]|].
  destruct (evaluate env s st2 _ _ _ _ _) as [best| |] eqn:Ev; cbn [mbind outcome_bind]; [|done..].
  apply evaluate_gaining in Ev; [|done]. destruct best as [b|]; [|by intros [= <-]].
  apply create_best_distinct; [done|by eapply gaining_not_indexed|apply Hc].
Qed.

(** ** When a drop fails *)

Lemma marked_dropping vs st oid row :
  oid ∈ v_oid <$> vs → registry (mark_victims vs st) !! oid = Some row → rg_state row = dropping.
Proof.
  cbn [registry mark_victims set_registry]. generalize (registry st). induction vs as [|v vs IH] using rev_ind;
    intros reg Hin; [by apply elem_of_nil in Hin|]. rewrite foldl_app. cbn [foldl].
  rewrite fmap_app in Hin. destruct (decide (v_oid v = oid)) as [->|Hne].
  - rewrite lookup_alter_eq. destruct (foldl _ reg vs !! oid); [|done]. by intros [= <-].
  - rewrite lookup_alter_ne by done. apply IH. apply elem_of_app in Hin as [?|Hin%list_elem_of_singleton]; [done|congruence].
Qed.

(** If psql cannot drop the first victim, eviction fails and every victim it
    has picked stays marked as dropping: none of them is ever considered for
    eviction again. *)
Theorem failed_eviction_strands_victims env s st needed util n v vs :
  catalog_ok env st → (0 < needed)%Q →
  (needed <= victims_sizes env st n)%Q → (∀ m, (m < n)%nat → (victims_sizes env st m < needed)%Q) →
  (n ≤ length (evictable env st))%nat →
  (victims_utility env st n * (1 + min_value_improvement s) < util)%Q →
  take n (evictable env st) = v :: vs → drop_ok env (er_oid v) = false →
  ∃ st', nrim_worker_evict_until_fits env s needed util st = (false, st') ∧
    ∀ r, r ∈ v :: vs → er_oid r ∉ er_oid <$> evictable env st'.
Proof.
  intros Hnames Hneed Hs Hmin Hn Hu Hv Hd. unfold nrim_worker_evict_until_fits, nrim_worker_evict_until_fits_total_utility.
  rewrite (proj2 (Qle_bool_false needed 0)) by done.
  destruct (pick_victims_spec env (evictable env st) needed 0 0 st (evictable_known env st Hnames)) as (k & Hk & -> & Hlt & Hend).
  assert (k = n) as ->.
  { destruct (Nat.lt_trichotomy k n) as [Hkn|[?|Hkn]]; [exfalso|done|exfalso].
    - specialize (Hmin k Hkn). destruct Hend as [->|Hend]; [lia|]. unfold victims_sizes, sum in *. lra.
    - specialize (Hlt n Hkn). unfold victims_sizes, sum in *. lra. }
  fold (sum (size_of <$> take n (evictable env st))) (sum (utility_of env <$> take n (evictable env st))).
  fold (victims_sizes env st n) (victims_utility env st n).
  rewrite (proj2 (Qltb_false _ _)) by done. rewrite (proj2 (Qle_bool_false util _)) by done.
  rewrite Hv. cbn [fmap list_fmap drop_victims victim_of v_oid]. unfold run_drop. cbn [v_oid victim_of]. rewrite Hd. cbn [negb andb].
  eexists. split; [done|]. intros r Hr (r' & E & Hr')%list_elem_of_fmap.
  apply elem_of_evictable in Hr' as (row & Hreg & Hrow). rewrite <- E in *.
  apply marked_dropping in Hreg; [|by apply (list_elem_of_fmap_2 v_oid _ (victim_of env r)), (list_elem_of_fmap_2 (victim_of env) (v :: vs))].
  unfold row_of in Hrow. cbn [fst snd] in Hrow. by rewrite Hreg in Hrow.
Qed.

(** ** Query ids *)

Lemma query_id_value h :
  0 ≤ h < 2 ^ 32 → Z.land (Z.lor (Z.shiftl h 32) h) (2 ^ 63 - 1) = (h * (2 ^ 32 + 1)) `mod` 2 ^ 63.
Proof.
  intros Hh. replace (2 ^ 63 - 1) with (Z.ones 63) by reflexivity. rewrite Z.land_ones by lia. f_equal.
  assert (Z.land (Z.shiftl h 32) h = 0) as Hl.
  { apply Z.bits_inj'. intros n Hn. rewrite Z.land_spec, Z.bits_0. destruct (Z.lt_ge_cases n 32).
    - rewrite Z.shiftl_spec_low by lia. done.
    - rewrite (Z.bits_above_log2 h n), andb_false_r; [done|lia|].
      destruct (Z.eq_dec h 0) as [->|]; [cbn; lia|]. apply Z.log2_lt_pow2; [lia|]. eapply Z.lt_le_trans; [apply Hh|].
      apply Z.pow_le_mono_r; lia. }
  rewrite <- Z.lxor_lor, <- Z.add_nocarry_lxor, Z.shiftl_mul_pow2 by (done || lia). lia.
Qed.

Lemma query_id_mod env t :
  0 ≤ hash_text env t < 2 ^ 32 →
  nrim_query_id_from_text env t =
    let qid := (hash_text env t * (2 ^ 32 + 1)) `mod` 2 ^ 63 in if qid =? 0 then 1 else qid.
Proof. intros H. unfold nrim_query_id_from_text. by rewrite query_id_value. Qed.

(** A query's id is a positive 64-bit signed number that depends only on the
    hash of its text, and different hashes give different ids. *)
Theorem query_id_in_range env t t' :
  0 ≤ hash_text env t < 2 ^ 32 → 0 ≤ hash_text env t' < 2 ^ 32 →
  0 < nrim_query_id_from_text env t < 2 ^ 63 ∧
  (nrim_query_id_from_text env t = nrim_query_id_from_text env t' ↔ hash_text env t = hash_text env t').
Proof.
  intros H H'. rewrite !query_id_mod by done. cbv zeta. generalize dependent (hash_text env t).
  generalize dependent (hash_text env t'). intros h' H' h H.
  assert (∀ h, 0 ≤ h < 2 ^ 32 → ∃ k, (h * (2 ^ 32 + 1)) `mod` 2 ^ 63 = h * (2 ^ 32 + 1) - 2 ^ 63 * k ∧ 0 ≤ k ≤ 1 ∧
    0 ≤ (h * (2 ^ 32 + 1)) `mod` 2 ^ 63 < 2 ^ 63) as Hm.
  { intros x Hx. exists ((x * (2 ^ 32 + 1)) / 2 ^ 63). pose proof (Z.div_mod (x * (2 ^ 32 + 1)) (2 ^ 63)).
    pose proof (Z.mod_pos_bound (x * (2 ^ 32 + 1)) (2 ^ 63)). lia. }
  destruct (Hm h H) as (k & E & Hk & Hb), (Hm h' H') as (k' & E' & Hk' & Hb').
  destruct (Z.eqb_spec ((h * (2 ^ 32 + 1)) `mod` 2 ^ 63) 0), (Z.eqb_spec ((h' * (2 ^ 32 + 1)) `mod` 2 ^ 63) 0);
    (split; [lia|]); split; intros; subst; lia.
Qed.

(** ** Witnesses *)

(** A planner that costs 100 without and 40 with a hypothetical index of half a
    megabyte, unless the index exists; [ln] is replaced by a linear function. *)
Definition example_env : worker_env := mkEnv
  (λ x, (x - 1)%Q) (λ t, Z.of_nat (length t)) true
  (λ idx _ c, match c with
              | Some c => if existsb (λ p, bool_decide (ix_relid p.2 = relid c ∧ ix_cols p.2 = cols c)) (map_to_list idx)
                          then Cost 100 else Cost 40
              | None => Cost 100
              end)
  (λ _, HypoIndex (Some (1 # 2)%Q)) (λ _, true) (λ _ _, true) (λ _ _, true) (λ _, true) (λ _, true)
  (λ c, Some (900, mkIndex (relid c) (cols c) 524288 true, true)) None.

Definition failing_env : worker_env := mkEnv
  (ln example_env) (hash_text example_env) true (explain example_env) (hypopg_create example_env)
  (λ _, true) (λ _ _, true) (λ _ _, true) (λ _, true) (λ _, false) (create_index example_env) None.

(** A budget of one megabyte. *)
Definition example_worker_settings : worker_settings := mkWorkerSettings 20 30 (2 # 10)%Q true (Some 1%Q).

Definition example_item (id : Z) : work_item :=
  mkItem id Pending (text_of "SELECT * FROM t WHERE a = 1") (Some (candidates_text [mkCand 100 [1]])) None.

Definition example_worker : worker_state := mkWorker
  [example_item 1; example_item 2]
  {[500 := mkRow 100 [9] 0 created (Some 786432) None 0 1 1]} ∅ ∅ {[500 := mkIndex 100 [9] 786432 true]} 7.

#[local] Abbreviation compact_process := (@nrim_process_one_work_item CompactJsonbInput).

Lemma pair_fst {A B} (p : A * B) a : p.1 = a → p = (a, p.2).
Proof. by destruct p; cbn; intros ->. Qed.

Lemma example_accurate : tables_accurate example_worker.
Proof.
  unfold tables_accurate, example_worker. cbn [registry indexes].
  split; [done|]. intros oid r [<- <-]%lookup_singleton_Some. exists (mkIndex 100 [9] 786432 true). split; [apply lookup_singleton_eq|done].
Qed.

Lemma example_catalog env : (∀ oid, index_known env oid = true) → catalog_ok env example_worker.
Proof. unfold catalog_ok, example_worker. cbn [indexes]. intros Hk oid i [<- <-]%lookup_singleton_Some. by split_and!. Qed.


Lemma handled_item_finished_witness :
  ∃ w status err, next_pending (queue example_worker) = Some w ∧ (status = Done ∨ status = Error) ∧
    queue (compact_process example_env example_worker_settings example_worker).2 =
    set_status (wi_id w) status err (queue example_worker).
Proof.
  apply (@handled_item_finished CompactJsonbInput example_env example_worker_settings).
  apply pair_fst. vm_compute. reflexivity.
Defined.

Lemma worker_drains_queue_witness :
  pending_ids (queue (@worker_rounds CompactJsonbInput 1 example_env example_worker_settings (λ _, 0) example_worker).2) = [].
Proof.
  rewrite (@worker_drains_queue CompactJsonbInput 1 example_env example_worker_settings (λ _, 0) example_worker).
  - reflexivity.
  - split; [apply (bool_decide_unpack _); vm_compute; exact I|repeat constructor].
  - apply pair_fst. vm_compute. reflexivity.
Defined.


Lemma best_candidate_maximal_witness :
  ∃ best, evaluate example_env example_worker_settings example_worker [] 100 [mkCand 100 [1]; mkCand 100 [9]] 0 None = Ok best ∧
    (value_of example_env (indexes example_worker) [] 100 (mkCand 100%Z [1%Z]) <= best_value best)%Q.
Proof.
  destruct (best_candidate_maximal example_env example_worker_settings example_worker [] 100 [mkCand 100 [1]; mkCand 100 [9]])
    as (best & E & H & _); [repeat constructor|].
  exists best. split; [done|]. apply H; [apply (bool_decide_unpack _); vm_compute; exact I|reflexivity].
Defined.

Lemma example_no_gain : no_gain_from_copies example_env.
Proof.
  intros idx q c b w (oid & i & Hi & E1 & E2) [= <-]. cbn.
  rewrite (proj2 (existsb_exists _ _)); [intros [= <-]; lra|]. exists (oid, i). split; [by apply list_elem_of_In, elem_of_map_to_list|].
  by apply bool_decide_eq_true.
Qed.

Lemma existing_index_not_found_witness :
  indexes example_worker !! 500 = Some (mkIndex 100 [9] 786432 true) ∧
  ∃ st', create_best example_env (mkWorkerSettings 20 30 (2 # 10)%Q true None) 1 7 (mkBest (mkCand 100 [9]) 60 1 30) example_worker
           = Ok st' ∧ indexes st' !! 900 = Some (mkIndex 100 [9] 524288 true).
Proof.
  split; [reflexivity|].
  destruct (existing_index_not_found example_env (mkWorkerSettings 20 30 (2 # 10)%Q true None) 1 7
    (mkBest (mkCand 100 [9]) 60 1 30) example_worker 500 (mkIndex 100 [9] 786432 true) 900 (mkIndex 100 [9] 524288 true) true)
    as (_ & st' & E & _ & H); try reflexivity; try (vm_compute; discriminate). by exists st'.
Defined.

Lemma no_duplicate_indexes_witness :
  distinct_indexes (compact_process example_env example_worker_settings example_worker).2.
Proof.
  apply (@no_duplicate_indexes CompactJsonbInput example_env example_worker_settings example_worker
    (compact_process example_env example_worker_settings example_worker).1).
  - unfold distinct_indexes, example_worker. cbn [indexes].
    intros o1 o2 i1 i2 [<- <-]%lookup_singleton_Some [<- <-]%lookup_singleton_Some _ _. done.
  - apply example_no_gain.
  - intros c oid info found [= <- <- <-]. done.
  - apply surjective_pairing.
Defined.

Lemma failed_eviction_strands_victims_witness :
  ∃ st', nrim_worker_evict_until_fits failing_env example_worker_settings (1 # 4) 60 example_worker = (false, st') ∧
    500 ∉ er_oid <$> evictable failing_env st'.
Proof.
  destruct (failed_eviction_strands_victims failing_env example_worker_settings example_worker (1 # 4) 60 1
    (mkEvictRow 500 (mb 786432) 1 0 0) []) as (st' & E & H).
  - by apply example_catalog.
  - lra.
  - apply Qle_bool_iff. vm_compute. reflexivity.
  - intros [|m] Hm; [|lia]. reflexivity.
  - vm_compute. lia.
  - reflexivity.
  - vm_compute. reflexivity.
  - reflexivity.
  - exists st'. split; [done|]. apply (H (mkEvictRow 500 (mb 786432) 1 0 0)). by left.
Defined.

Lemma query_id_in_range_witness :
  0 < nrim_query_id_from_text example_env (text_of "SELECT 1") < 2 ^ 63.
Proof. apply (query_id_in_range example_env (text_of "SELECT 1") (text_of "SELECT 22")); cbn; lia. Defined.
