(* ===== verification/NsChannel.v ===== *)
(** * The channels of the tensor store

    Models [nr_store/src/pgext/ipc/channel.c]: the circular buffers in shared
    memory through which backends and the service of the tensor store exchange
    whole messages, with the blocking loops around their critical sections and
    the constructors of messages.

    [push_section] and [pop_section] are what runs under the channel's lock.
    [NSChannelPush] and [NSChannelPop] are the loops around them; what the other
    processes do during a sleep is an argument ([ns_wake]). The state of the
    processes is any type that has channels ([HasChannels]). *)
From S2P Require Import Prelude Process Ring.
From Stdlib Require Import ZArith Lia Ascii String.
From stdpp Require Import base strings gmap numbers list.

Open Scope Z_scope.

Definition NS_CHANNEL : string := "ns_service_channel".
Definition NS_CHANNEL_BUFSIZE : Z := 131072.
Definition NS_MSG_SIZE : Z := 2048.
Definition NS_CHANNEL_TIMEOUT : Z := 20000.
Definition NSTASK_HDRSZ : Z := 12.

Inductive NSTaskType :=
| NS_TASK_NONE
| NS_TASK_SAVE_MODEL
| NS_TASK_SAVE_MODELS
| NS_TASK_SAVE_MODELS_FROM_PATHS
| NS_TASK_SAVE_MODEL_DRY_RUN
| NS_TASK_LOAD_MODEL
| NS_TASK_INFERNECE
| NS_TASK_SHUTDOWN
| NS_TASK_CLEAN_CACHE
| NS_TASK_OK
| NS_TASK_ERROR.

Definition NSTaskType_code (t : NSTaskType) : Z :=
  match t with
  | NS_TASK_NONE => 0
  | NS_TASK_SAVE_MODEL => 1
  | NS_TASK_SAVE_MODELS => 2
  | NS_TASK_SAVE_MODELS_FROM_PATHS => 3
  | NS_TASK_SAVE_MODEL_DRY_RUN => 4
  | NS_TASK_LOAD_MODEL => 5
  | NS_TASK_INFERNECE => 6
  | NS_TASK_SHUTDOWN => 7
  | NS_TASK_CLEAN_CACHE => 8
  | NS_TASK_OK => 9
  | NS_TASK_ERROR => 10
  end.

(** A message; [payload] is what follows the header in its block. *)
Record NSTaskMsg := mkTask {
  task_type : Z;
  payload_size : Z;
  resp_channel : Z;
  payload : list Z
}.

#[export] Instance NSTaskMsg_eq_dec : EqDecision NSTaskMsg.
Proof. solve_decision. Defined.

Record NSChannel := mkNSChannel {
  chan_name : string;
  head : Z;
  tail : Z;
  is_active : bool;
  buffer : list Z
}.

(** The block of a message in memory. *)
Definition task_bytes (m : NSTaskMsg) : list Z :=
  le_bytes 4 (task_type m) ++ le_bytes 4 (payload_size m) ++ le_bytes 4 (resp_channel m) ++ payload m.

Definition field_at (off : nat) (bs : list Z) : Z := u32 (le_val (take 4 (drop off bs))).

Definition task_of_bytes (bs : list Z) : NSTaskMsg :=
  mkTask (field_at 0 bs) (field_at 4 bs) (field_at 8 bs) (drop 12 bs).

(** ** Channels in shared memory *)

Abbreviation NSChannels := (gmap string NSChannel).

Definition zeroed_channel : NSChannel :=
  mkNSChannel "" 0 0 false (replicate (Z.to_nat NS_CHANNEL_BUFSIZE) 0).
Definition fresh_channel (name : string) : NSChannel :=
  mkNSChannel name 0 0 true (replicate (Z.to_nat NS_CHANNEL_BUFSIZE) 0).

(** [ShmemInitStruct] hands out the block of a name, and allocates it when there
    is none; a block that exists is left as it is. *)
Definition NSChannelInit (name : string) (create : bool) (shm : NSChannels) : NSChannels :=
  match shm !! name with
  | Some _ => shm
  | None => <[name := if create then fresh_channel name else zeroed_channel]> shm
  end.

Definition deactivate (ch : NSChannel) : NSChannel :=
  mkNSChannel (chan_name ch) (head ch) (tail ch) false (buffer ch).

Definition NSChannelDestroy (name : string) (shm : NSChannels) : NSChannels := alter deactivate name shm.

(** ** The critical sections *)

Definition ns_used (ch : NSChannel) : Z :=
  (tail ch + NS_CHANNEL_BUFSIZE - head ch) `mod` NS_CHANNEL_BUFSIZE.

Definition push_section (bs : list Z) (ch : NSChannel) : option (bool * NSChannel) :=
  let available := NS_CHANNEL_BUFSIZE - ns_used ch - 1 in
  if zlen bs <=? available then
    let start_pos := tail ch in
    let end_pos := (start_pos + zlen bs) `mod` NS_CHANNEL_BUFSIZE in
    Some (true, mkNSChannel (chan_name ch) (head ch) end_pos (is_active ch) (ring_write (buffer ch) start_pos bs))
  else None.

(** [Some None] is a header whose message is not complete. *)
Definition pop_section (ch : NSChannel) : option (option NSTaskMsg * NSChannel) :=
  if NSTASK_HDRSZ <=? ns_used ch then
    let start_pos := head ch in
    let header_buf := ring_read (buffer ch) start_pos NSTASK_HDRSZ in
    let total_size := NSTASK_HDRSZ + field_at 4 header_buf in
    if total_size <=? ns_used ch then
      let msg := task_of_bytes (ring_read (buffer ch) start_pos total_size) in
      let end_pos := (start_pos + total_size) `mod` NS_CHANNEL_BUFSIZE in
      Some (Some msg, mkNSChannel (chan_name ch) end_pos (tail ch) (is_active ch) (buffer ch))
    else Some (None, ch)
  else None.

(** ** The blocking loops *)

Class HasChannels (W : Type) := {
  channels : W → NSChannels;
  set_channels : NSChannels → W → W;
  channels_set shm w : channels (set_channels shm w) = shm;
  set_channels_set shm shm' w : set_channels shm (set_channels shm' w) = set_channels shm w;
  set_channels_id w : set_channels (channels w) w = w
}.

Definition set_channel `{HasChannels W} (name : string) (ch : NSChannel) (w : W) : W :=
  set_channels (<[name := ch]> (channels w)) w.

(** One sleep: whether the postmaster was alive before it, what the others did
    during it, and the milliseconds since the call at the wake-up. *)
Record ns_wake (W : Type) := mkNsWake {
  nw_alive : bool;
  nw_env : W → W;
  nw_elapsed : Z
}.
Arguments mkNsWake {W}.
Arguments nw_alive {W}.
Arguments nw_env {W}.
Arguments nw_elapsed {W}.

Section loop.
Context `{HasChannels W} {A : Type} (name : string).
Context (section : NSChannel → option (A * NSChannel)) (stopped : A).

Fixpoint channel_loop (elapsed : Z) (wakes : list (ns_wake W)) (w : W) : pres A * W :=
  match channels w !! name with
  | None => (Undefined "no such channel", w)
  | Some ch =>
      if negb (is_active ch) then (Done stopped, w)
      else match section ch with
      | Some (a, ch) => (Done a, set_channel name ch w)
      | None =>
          if NS_CHANNEL_TIMEOUT <=? elapsed then (Done stopped, w)
          else match wakes with
          | [] => (Sleeps, w)
          | k :: wakes =>
              if negb (nw_alive k) then (Exits, w)
              else channel_loop (nw_elapsed k) wakes (nw_env k w)
          end
      end
  end.
End loop.

(** A message that is NULL is dereferenced. *)
Definition NSChannelPush `{HasChannels W} (name : string) (message : option NSTaskMsg)
    (wakes : list (ns_wake W)) : P W bool :=
  match message with
  | None => λ w, (Undefined "message is NULL", w)
  | Some m =>
      let msg_size := NSTASK_HDRSZ + payload_size m in
      if NS_MSG_SIZE <? msg_size then mret false
      else
        '(bs, _) ← lift (ptr_read msg_size (task_bytes m));
        channel_loop name (push_section bs) false 0 wakes
  end.

Definition NSChannelPop `{HasChannels W} (name : string) (wakes : list (ns_wake W)) : P W (option NSTaskMsg) :=
  channel_loop name pop_section None 0 wakes.

(** ** Making messages *)

Definition NewEmptyTask : NSTaskMsg := mkTask (NSTaskType_code NS_TASK_NONE) 0 0 [].

Definition NewTask (type : NSTaskType) (size resp : Z) (data : option (list Z)) : outcome (option NSTaskMsg) :=
  let size := u32 size in
  let total_size := NSTASK_HDRSZ + size in
  if NS_MSG_SIZE <? total_size then Ok None
  else match data with
  | Some p =>
      '(bs, _) ← ptr_read size p;
      Ok (Some (mkTask (NSTaskType_code type) size (u32 resp) bs))
  | None => Ok (Some (mkTask (NSTaskType_code type) size (u32 resp) (replicate (Z.to_nat size) 0)))
  end.

Definition NewOkResponse : NSTaskMsg := mkTask (NSTaskType_code NS_TASK_OK) 0 0 [].

(** [error_msg] is the string without its terminating zero. *)
Definition NewErrorResponse (error_msg : list Z) : NSTaskMsg :=
  let len := zlen error_msg + 1 in
  let len := if NS_MSG_SIZE <? NSTASK_HDRSZ + len then NS_MSG_SIZE - NSTASK_HDRSZ else len in
  mkTask (NSTaskType_code NS_TASK_ERROR) len 0 (take (Z.to_nat len) (error_msg ++ [0])).

Definition str_bytes (s : string) : list Z := (λ c, Z.of_N (N_of_ascii c)) <$> list_ascii_of_string s.

(** ** A channel holds messages *)

Definition chan_inv (ch : NSChannel) : Prop :=
  zlen (buffer ch) = NS_CHANNEL_BUFSIZE ∧ 0 ≤ head ch < NS_CHANNEL_BUFSIZE ∧ 0 ≤ tail ch < NS_CHANNEL_BUFSIZE.

Definition task_ok (m : NSTaskMsg) : Prop :=
  in_u32 (task_type m) ∧ in_u32 (resp_channel m) ∧ payload_size m = zlen (payload m) ∧
  NSTASK_HDRSZ + payload_size m ≤ NS_MSG_SIZE.

#[export] Instance task_ok_dec m : Decision (task_ok m) := _.

Definition holds (ch : NSChannel) (ms : list NSTaskMsg) : Prop :=
  chan_inv ch ∧ Forall task_ok ms ∧ ring_contents (buffer ch) (head ch) (tail ch) = concat (task_bytes <$> ms).

Definition msgs_size (ms : list NSTaskMsg) : Z := zlen (concat (task_bytes <$> ms)).

Lemma zlen_task_bytes m : zlen (task_bytes m) = NSTASK_HDRSZ + zlen (payload m).
Proof. unfold task_bytes, NSTASK_HDRSZ. rewrite !zlen_app, !zlen_le_bytes by lia. lia. Qed.

Lemma field_at_le n x bs rest :
  length bs = n → in_u32 x → field_at n (bs ++ le_bytes 4 x ++ rest) = x.
Proof.
  intros <- Hx. unfold field_at. rewrite drop_app_length.
  pose proof (zlen_le_bytes 4 x ltac:(lia)) as Hl. unfold zlen in Hl.
  rewrite take_app_le, take_ge by lia. rewrite le_val_le_bytes_id; [by apply u32_id|lia|]. exact Hx.
Qed.

(** The fields of a message are found again, whatever follows it. *)
Lemma task_fields m rest :
  task_ok m →
  field_at 0 (task_bytes m ++ rest) = task_type m ∧ field_at 4 (task_bytes m ++ rest) = payload_size m ∧
  field_at 8 (task_bytes m ++ rest) = resp_channel m ∧ drop 12 (task_bytes m ++ rest) = payload m ++ rest.
Proof.
  intros (Ht & Hr & Hs & Hm). assert (in_u32 (payload_size m)) as Hp.
  { rewrite Hs. pose proof (zlen_nonneg (payload m)). unfold in_u32, NSTASK_HDRSZ, NS_MSG_SIZE in *. lia. }
  assert (∀ x, length (le_bytes 4 x) = 4%nat) as Hl.
  { intros x. pose proof (zlen_le_bytes 4 x ltac:(lia)) as H. unfold zlen in H. lia. }
  unfold task_bytes. rewrite <- !app_assoc. split_and!.
  - by apply (field_at_le 0 _ []).
  - apply (field_at_le 4); [apply Hl|done].
  - rewrite (app_assoc (le_bytes 4 (task_type m))). apply field_at_le; [|done]. by rewrite length_app, !Hl.
  - rewrite !app_assoc, drop_app_le; [|rewrite !length_app, !Hl; lia].
    rewrite <- !app_assoc, (app_assoc (le_bytes 4 (task_type m))), (app_assoc (_ ++ _)).
    rewrite drop_app_length'; [done|]. by rewrite !length_app, !Hl.
Qed.

Lemma task_roundtrip m : task_ok m → task_of_bytes (task_bytes m) = m.
Proof.
  intros Hm. destruct (task_fields m [] Hm) as (H0 & H4 & H8 & Hd). rewrite !app_nil_r in *.
  unfold task_of_bytes. rewrite H0, H4, H8, Hd. by destruct m.
Qed.

(** A field of a header depends on the header's bytes only. *)
Lemma field_at_take bs : field_at 4 (take 12 bs) = field_at 4 bs.
Proof. unfold field_at. by rewrite skipn_firstn_comm, take_take. Qed.

Lemma ns_used_contents ch : chan_inv ch → ns_used ch = zlen (ring_contents (buffer ch) (head ch) (tail ch)).
Proof. intros (Hb & Hh & Ht). rewrite zlen_ring_contents, Hb by (rewrite Hb; done). done. Qed.

Lemma fresh_channel_holds name : holds (fresh_channel name) [].
Proof.
  unfold holds, chan_inv, fresh_channel. cbn [buffer head tail].
  assert (zlen (replicate (Z.to_nat NS_CHANNEL_BUFSIZE) 0) = NS_CHANNEL_BUFSIZE) as E.
  { unfold zlen. rewrite length_replicate. unfold NS_CHANNEL_BUFSIZE. lia. }
  revert E. generalize (replicate (Z.to_nat NS_CHANNEL_BUFSIZE) 0). intros b E.
  split; [rewrite E; done|split; [done|]]. apply nil_length_inv.
  pose proof (zlen_ring_contents b 0 0) as H. rewrite E in H. specialize (H ltac:(done) ltac:(done)).
  change (ring_used NS_CHANNEL_BUFSIZE 0 0) with 0 in H. unfold zlen in H. lia.
Qed.

Lemma push_section_spec m ms ch :
  holds ch ms → task_ok m →
  match push_section (task_bytes m) ch with
  | Some (ok, ch') => ok = true ∧ holds ch' (ms ++ [m]) ∧ is_active ch' = is_active ch ∧
                      msgs_size ms + zlen (task_bytes m) < NS_CHANNEL_BUFSIZE
  | None => NS_CHANNEL_BUFSIZE ≤ msgs_size ms + zlen (task_bytes m)
  end.
Proof.
  intros (Hi & Hms & Hc) Hm. pose proof (ns_used_contents ch Hi) as Hu. rewrite Hc in Hu. fold (msgs_size ms) in Hu.
  unfold push_section. destruct Hi as (Hb & Hh & Ht). destruct (Z.leb_spec (zlen (task_bytes m)) (NS_CHANNEL_BUFSIZE - ns_used ch - 1)); [|lia].
  split; [done|]. split; [|split; [done|lia]].
  assert (ring_used (zlen (buffer ch)) (head ch) (tail ch) + zlen (task_bytes m) < zlen (buffer ch)) as Hfit.
  { rewrite Hb. change (ring_used NS_CHANNEL_BUFSIZE (head ch) (tail ch)) with (ns_used ch). lia. }
  split; [|split].
  - unfold chan_inv; cbn [buffer head tail]. split; [|split; [done|apply Z.mod_pos_bound; done]].
    pose proof (length_ring_write (buffer ch) (tail ch) ltac:(rewrite Hb; done) (task_bytes m)) as Hl.
    unfold zlen in *. rewrite Hl; [done|]. pose proof (zlen_nonneg (task_bytes m)). unfold zlen, NS_CHANNEL_BUFSIZE in *.
    pose proof (ring_used_bound (Z.of_nat (length (buffer ch))) (head ch) (tail ch)). lia.
  - apply Forall_app_2; [done|]. by constructor.
  - cbn [buffer head tail]. rewrite <- Hb, ring_contents_push by (rewrite Hb in *; done).
    rewrite Hc, fmap_app, concat_app. cbn. by rewrite app_nil_r.
Qed.

Lemma pop_section_empty ch : holds ch [] → pop_section ch = None.
Proof.
  intros (Hi & _ & Hc). unfold pop_section. rewrite (ns_used_contents ch Hi), Hc. done.
Qed.

Lemma pop_section_spec m ms ch :
  holds ch (m :: ms) →
  ∃ ch', pop_section ch = Some (Some m, ch') ∧ holds ch' ms ∧ is_active ch' = is_active ch.
Proof.
  intros (Hi & [Hm Hms]%Forall_cons & Hc). pose proof (ns_used_contents ch Hi) as Hu.
  rewrite Hc in Hu. cbn [fmap list_fmap concat] in Hc, Hu. rewrite zlen_app in Hu. pose proof (zlen_task_bytes m) as Hz.
  pose proof (zlen_nonneg (concat (task_bytes <$> ms))). pose proof (zlen_nonneg (payload m)). pose proof (zlen_nonneg (task_bytes m)).
  pose proof Hi as (Hb & Hh & Ht). pose proof Hm as (_ & _ & Hs & Hsz).
  assert (∀ n, 0 ≤ n ≤ ns_used ch → ring_read (buffer ch) (head ch) n = take (Z.to_nat n) (task_bytes m ++ concat (task_bytes <$> ms))) as Hread.
  { intros n Hn. rewrite <- Hc. rewrite (ring_contents_pop (buffer ch) (head ch) (tail ch)) with (n := n); rewrite ?Hb; [|done..].
    pose proof (ring_used_bound NS_CHANNEL_BUFSIZE (head ch) (tail ch) ltac:(done)).
    change (ring_used NS_CHANNEL_BUFSIZE (head ch) (tail ch)) with (ns_used ch) in *.
    rewrite take_app_le, take_ge; [done|..]; rewrite length_ring_read by (rewrite Hb; lia); lia. }
  unfold pop_section. replace (NSTASK_HDRSZ <=? ns_used ch) with true by (unfold NSTASK_HDRSZ in *; lia).
  rewrite Hread by (unfold NSTASK_HDRSZ in *; lia). change (Z.to_nat NSTASK_HDRSZ) with 12%nat. rewrite field_at_take.
  destruct (task_fields m (concat (task_bytes <$> ms)) Hm) as (_ & -> & _ & _).
  replace (NSTASK_HDRSZ + payload_size m <=? ns_used ch) with true by lia.
  rewrite Hs, <- Hz, Hread by lia. unfold zlen at 1. rewrite Nat2Z.id, take_app_length, task_roundtrip by done.
  eexists. split; [done|]. split; [|done]. split; [|split; [done|]].
  - unfold chan_inv; cbn [buffer head tail]. split; [done|]. split; [apply Z.mod_pos_bound|]; done.
  - cbn [buffer head tail]. rewrite (ring_contents_pop (buffer ch) (head ch) (tail ch)) with (n := zlen (task_bytes m)) in Hc;
      [|rewrite ?Hb; (done || (change (ring_used NS_CHANNEL_BUFSIZE (head ch) (tail ch)) with (ns_used ch); lia))..].
    rewrite Hread in Hc by lia. unfold zlen at 1 in Hc. rewrite Nat2Z.id, take_app_length, Hb in Hc. by apply app_inv_head in Hc.
Qed.

(** ** Refinement: the channel is a bounded queue of messages *)

Inductive ns_op := OpPush (m : NSTaskMsg) | OpPop.
Inductive ns_obs := Refused | Full | Pushed | Popped (m : NSTaskMsg) | Incomplete | Empty.

(** The abstract object: the messages in order, together less than the buffer. *)
Definition msg_queue_step (o : ns_op) (q : list NSTaskMsg) : ns_obs * list NSTaskMsg :=
  match o with
  | OpPush m =>
      if NS_MSG_SIZE <? NSTASK_HDRSZ + payload_size m then (Refused, q)
      else if msgs_size q + NSTASK_HDRSZ + payload_size m <? NS_CHANNEL_BUFSIZE then (Pushed, q ++ [m]) else (Full, q)
  | OpPop => match q with m :: q => (Popped m, q) | [] => (Empty, []) end
  end.

(** One attempt of [NSChannelPush] or [NSChannelPop] on an active channel. *)
Definition section_step (o : ns_op) (ch : NSChannel) : ns_obs * NSChannel :=
  match o with
  | OpPush m =>
      if NS_MSG_SIZE <? NSTASK_HDRSZ + payload_size m then (Refused, ch)
      else match push_section (task_bytes m) ch with Some (_, ch) => (Pushed, ch) | None => (Full, ch) end
  | OpPop =>
      match pop_section ch with
      | Some (Some m, ch) => (Popped m, ch)
      | Some (None, ch) => (Incomplete, ch)
      | None => (Empty, ch)
      end
  end.

Fixpoint ns_run {S} (step : ns_op → S → ns_obs * S) (ops : list ns_op) (s : S) : list ns_obs * S :=
  match ops with
  | [] => ([], s)
  | o :: ops => let '(r, s) := step o s in let '(rs, s) := ns_run step ops s in (r :: rs, s)
  end.

(** The pushed messages are well formed; how long they are does not matter. *)
Definition op_ok (o : ns_op) : Prop :=
  match o with
  | OpPush m => in_u32 (task_type m) ∧ in_u32 (resp_channel m) ∧ payload_size m = zlen (payload m)
  | OpPop => True
  end.

Lemma section_step_refines o ch q :
  op_ok o → holds ch q →
  (section_step o ch).1 = (msg_queue_step o q).1 ∧ holds (section_step o ch).2 (msg_queue_step o q).2.
Proof.
  intros Ho Hq. destruct o as [m|]; cbn [section_step msg_queue_step].
  - destruct (Z.ltb_spec NS_MSG_SIZE (NSTASK_HDRSZ + payload_size m)); [done|].
    assert (task_ok m) as Hm by (destruct Ho as (? & ? & ?); done).
    pose proof (push_section_spec m q ch Hq Hm) as H'. rewrite zlen_task_bytes in H'. destruct Ho as (_ & _ & Hs).
    destruct (push_section (task_bytes m) ch) as [[ok ch']|]; rewrite Hs.
    + destruct H' as (_ & Hh & _ & ?). replace (_ <? _) with true by lia. done.
    + replace (_ <? _) with false by lia. done.
  - destruct q as [|m q]; [by rewrite pop_section_empty|]. by destruct (pop_section_spec m q ch Hq) as (ch' & -> & Hh & _).
Qed.

(** C28. Under every sequence of critical sections of pushes and pops a channel
    behaves as a queue of whole messages: what is pushed comes out unchanged and
    in order, a push fails only when the message is over the limit or there is
    no room, and a pop never finds a message that is not complete. *)
Theorem ns_channel_refines_queue name ops :
  Forall op_ok ops →
  (ns_run section_step ops (fresh_channel name)).1 = (ns_run msg_queue_step ops []).1 ∧
  holds (ns_run section_step ops (fresh_channel name)).2 (ns_run msg_queue_step ops []).2.
Proof.
  pose proof (fresh_channel_holds name) as Hh. revert Hh. generalize (fresh_channel name) (@nil NSTaskMsg).
  intros ch q Hh Ho. revert ch q Hh. induction Ho as [|o ops Ho _ IH]; intros ch q Hh; [done|]. cbn [ns_run].
  destruct (section_step_refines o ch q Ho Hh) as [Ho1 Ho2].
  destruct (section_step o ch) as [r ch'], (msg_queue_step o q) as [r' q']. cbn [fst snd] in *. subst r'.
  specialize (IH ch' q' Ho2). destruct (ns_run section_step ops ch'), (ns_run msg_queue_step ops q').
  cbn [fst snd] in *. destruct IH as [-> ?]. done.
Qed.

Lemma ns_channel_refines_queue_witness :
  let m := mkTask 6 3 77 [1; 2; 3] in
  (ns_run section_step [OpPush m; OpPush NewEmptyTask; OpPop; OpPop; OpPop] (fresh_channel "c")).1 =
    [Pushed; Pushed; Popped m; Popped NewEmptyTask; Empty].
Proof.
  intros m. rewrite (proj1 (ns_channel_refines_queue "c" [OpPush m; OpPush NewEmptyTask; OpPop; OpPop; OpPop]
    ltac:(repeat (apply Forall_cons; split; [done|]); apply Forall_nil; done))). reflexivity.
Defined.

(** ** Calls that do not wait *)

Section calls.
Context `{HasChannels W}.
Implicit Types (w : W).

Lemma NSChannelPush_done name m ms ch wakes w :
  channels w !! name = Some ch → is_active ch = true → holds ch ms → task_ok m →
  msgs_size ms + zlen (task_bytes m) < NS_CHANNEL_BUFSIZE →
  ∃ ch', NSChannelPush name (Some m) wakes w = (Done true, set_channel name ch' w) ∧ holds ch' (ms ++ [m]) ∧
         is_active ch' = true.
Proof.
  intros Hc Ha Hh Hm Hfit. pose proof (push_section_spec m ms ch Hh Hm) as Hp.
  destruct (push_section (task_bytes m) ch) as [[ok ch']|] eqn:Ep; [|lia]. destruct Hp as (-> & Hh' & Ha' & _).
  exists ch'. split; [|rewrite Ha'; done]. unfold NSChannelPush. destruct Hm as (_ & _ & Hs & Hsz).
  replace (NS_MSG_SIZE <? _) with false by lia.
  rewrite (lift_ok _ _ _ (task_bytes m, [])).
  - destruct wakes; cbn [channel_loop]; rewrite Hc, Ha; cbn [negb]; by rewrite Ep.
  - rewrite Hs, <- zlen_task_bytes. unfold ptr_read. pose proof (zlen_nonneg (task_bytes m)).
    replace (_ || _) with false by lia. unfold zlen. by rewrite Nat2Z.id, take_ge, drop_ge by lia.
Qed.

Lemma pop_loop_done name m ms ch elapsed wakes w :
  channels w !! name = Some ch → is_active ch = true → holds ch (m :: ms) →
  ∃ ch', channel_loop name pop_section None elapsed wakes w = (Done (Some m), set_channel name ch' w) ∧ holds ch' ms ∧
         is_active ch' = true.
Proof.
  intros Hc Ha Hh. destruct (pop_section_spec m ms ch Hh) as (ch' & Ep & Hh' & Ha').
  exists ch'. split; [|rewrite Ha'; done].
  destruct wakes; cbn [channel_loop]; rewrite Hc, Ha; cbn [negb]; by rewrite Ep.
Qed.

(** A pop on an empty channel that sleeps through one change by the others. *)
Lemma pop_loop_sleep name ch k wakes w :
  channels w !! name = Some ch → is_active ch = true → holds ch [] → nw_alive k = true →
  channel_loop name pop_section None 0 (k :: wakes) w = channel_loop name pop_section None (nw_elapsed k) wakes (nw_env k w).
Proof.
  intros Hc Ha Hh Hk. cbn [channel_loop]. rewrite Hc, Ha, Hk. cbn [negb]. by rewrite pop_section_empty.
Qed.
Lemma pop_loop_timeout name ch elapsed w :
  channels w !! name = Some ch → is_active ch = true → holds ch [] → NS_CHANNEL_TIMEOUT ≤ elapsed →
  channel_loop name pop_section None elapsed [] w = (Done None, w).
Proof.
  intros Hc Ha Hh Ht. cbn [channel_loop]. rewrite Hc, Ha. cbn [negb]. rewrite pop_section_empty by done.
  by replace (NS_CHANNEL_TIMEOUT <=? elapsed) with true by lia.
Qed.
End calls.
