(* ===== verification/NsStore.v ===== *)
(** * The tensor store's service and its SQL functions

    Models [nr_store/src/pgext/ipc/service.c] (the background worker that owns
    the store and its handlers) and [nr_store/src/pgext/interface.c] (the SQL
    functions, which run in backends). A backend writes its arguments into the
    payload of a message, pushes it on the service's channel and waits on a
    channel of its own; the service hands the message to a thread, which parses
    the payload, calls the store and pushes the response.

    The store itself (C++) is the class [TensorStore]. Strings are lists of
    bytes without a zero; a pointer into a payload is the list of bytes from it
    to the end of the block. The catalog and the table ns_model are part of the
    state. *)
From S2P Require Import Prelude Process Ring NsChannel.
From Stdlib Require Import ZArith Lia Ascii String.
From stdpp Require Import base strings pretty gmap numbers list.

Open Scope Z_scope.

(** ** Floating-point numbers by their bits

    The conversions between [float] and [double]. The first is exact; the second
    rounds to the nearest, ties to even. *)
Definition double_of_float (b : Z) : Z :=
  let s := Z.shiftr b 31 in
  let e := Z.land (Z.shiftr b 23) 255 in
  let m := Z.land b (2 ^ 23 - 1) in
  let '(e', m') :=
    if e =? 255 then (2047, if m =? 0 then 0 else Z.lor (m * 2 ^ 29) (2 ^ 51))
    else if e =? 0 then
      if m =? 0 then (0, 0) else (Z.log2 m + 874, (m - 2 ^ Z.log2 m) * 2 ^ (52 - Z.log2 m))
    else (e + 896, m * 2 ^ 29) in
  s * 2 ^ 63 + e' * 2 ^ 52 + m'.

(** [m / 2^k], rounded. *)
Definition shift_round (m k : Z) : Z :=
  let q := Z.shiftr m k in
  let r := m - q * 2 ^ k in
  if (2 ^ k <? 2 * r) || ((2 ^ k =? 2 * r) && Z.odd q) then q + 1 else q.

Definition float_of_double (d : Z) : Z :=
  let s := Z.shiftr d 63 in
  let e := Z.land (Z.shiftr d 52) 2047 in
  let m := Z.land d (2 ^ 52 - 1) in
  let b :=
    if e =? 2047 then 255 * 2 ^ 23 + (if m =? 0 then 0 else Z.lor (Z.shiftr m 29) (2 ^ 22))
    else
      let sig := if e =? 0 then m else m + 2 ^ 52 in
      let ex := if e =? 0 then -1074 else e - 1075 in
      let q := Z.max (Z.log2 sig + ex - 23) (-149) in
      let r := if ex <? q then shift_round sig (q - ex) else Z.shiftl sig (ex - q) in
      Z.min ((q + 149) * 2 ^ 23 + r) (255 * 2 ^ 23) in
  s * 2 ^ 31 + b.

(** ** The store *)

Record InferenceOptions := mkOptions {
  model_id : list Z;
  query : list Z;
  pg_dsn : list Z;
  input_columns : list (list Z);
  output_column : list Z;
  batch_size : Z;
  tokenizer_path : list Z;
  pad_token : list Z;
  eos_token : list Z;
  bos_token : list Z;
  max_input_len : Z;
  max_output_len : Z;
  load_mode : Z;
  task : Z;
  use_gpu : bool
}.

Inductive inference_result := Inferred | InferenceFailed (err_msg : option (list Z)).

Inductive NSLoadMode := NS_LOAD_FLOAT32 | NS_LOAD_UINT8 | NS_LOAD_UINT8_DELTA | NS_LOAD_FLOAT16.

Definition NSLoadMode_code (m : NSLoadMode) : Z :=
  match m with NS_LOAD_FLOAT32 => 0 | NS_LOAD_UINT8 => 1 | NS_LOAD_UINT8_DELTA => 2 | NS_LOAD_FLOAT16 => 3 end.

(** The functions of neurstore.h: what they return and the store afterwards.
    Tolerances are bits of a [double]; a loaded model is its serialization. *)
Class TensorStore := {
  store_t : Type;
  ns_save_model_internal : list Z → Z → list Z → store_t → bool * store_t;
  ns_save_models_internal : list (list Z) → Z → list Z → store_t → bool * store_t;
  ns_load_model_internal : NSLoadMode → list Z → store_t → option (list Z) * store_t;
  ns_inference_internal : InferenceOptions → store_t → inference_result * store_t;
  ns_save_model_dry_run_internal : Z → list Z → Z → InferenceOptions → store_t → option (Z * Z) * store_t;
  icm_clear_cache : store_t → store_t
}.

#[local] Instance M_fmap {S} : FMap (M S) := λ A B f m, m ≫= λ x, mret (f x).

(** A call of the store. *)
Definition call {S A} (f : S → A * S) : M S A := λ s, let '(a, s') := f s in (Ok a, s').

(** ** Reading payloads *)

(** The string a pointer to characters points to. *)
Fixpoint read_cstr (p : list Z) : outcome (list Z) :=
  match p with
  | [] => Ub "read past the end of a block"
  | 0 :: _ => Ok []
  | c :: p => s ← read_cstr p; Ok (c :: s)
  end.

Fixpoint read_cstrs (ps : list (list Z)) : outcome (list (list Z)) :=
  match ps with
  | [] => Ok []
  | p :: ps => s ← read_cstr p; ss ← read_cstrs ps; Ok (s :: ss)
  end.

Definition error_response {S} (msg : string) : M S NSTaskMsg := mret (NewErrorResponse (str_bytes msg)).

Definition sizeof_SaveModelPayload : Z := 16.
Definition sizeof_SaveModelsPayload : Z := 16.
Definition sizeof_LoadModelPayload : Z := 12.
Definition sizeof_InferencePayload : Z := 60.
Definition sizeof_SaveModelDryRunPayload : Z := 68.

(** ** The handlers *)

Section handlers.
Context `{TensorStore}.
Implicit Types (t : NSTaskMsg).

Definition handle_save_model t : M store_t NSTaskMsg :=
  if payload_size t <? sizeof_SaveModelPayload then error_response "payload too small"
  else
    let name_len := field_at 8 (payload t) in
    let path_len := field_at 12 (payload t) in
    let expect := sizeof_SaveModelPayload + name_len + path_len in
    if (payload_size t <? expect) || (name_len =? 0) || (path_len =? 0) then error_response "invalid name/path length"
    else
      let tolerance := float_of_double (u64 (le_val (take 8 (payload t)))) in
      let name_ptr := drop 16 (payload t) in
      let path_ptr := drop (Z.to_nat name_len) name_ptr in
      name ← lift_out (read_cstr name_ptr);
      path ← lift_out (read_cstr path_ptr);
      ok ← call (ns_save_model_internal name (double_of_float tolerance) path);
      if negb ok then error_response "save_model_internal failed" else mret NewOkResponse.

(** The loop over the names; [None] is the response for a length that is wrong. *)
Fixpoint read_names (n : nat) (cursor : list Z) : outcome (option (list (list Z))) :=
  match n with
  | O => Ok (Some [])
  | S n =>
      '(name_len, cursor) ← rd_u32 cursor;
      if (name_len =? 0) || (zlen cursor <? name_len) then Ok None
      else
        rest ← read_names n (drop (Z.to_nat name_len) cursor);
        Ok (option_map (cons cursor) rest)
  end.

Definition handle_save_models t : M store_t NSTaskMsg :=
  if payload_size t <? sizeof_SaveModelsPayload then error_response "payload too small"
  else
    let folder_len := field_at 8 (payload t) in
    let n_models := field_at 12 (payload t) in
    if (folder_len =? 0) || (n_models =? 0) then error_response "invalid folder_len or n_models"
    else if payload_size t <? sizeof_SaveModelsPayload + folder_len + n_models * 4
    then error_response "payload truncated"
    else
      let folder_path := drop 16 (payload t) in
      let cursor := drop (Z.to_nat folder_len) folder_path in
      model_names ← lift_out (read_names (Z.to_nat n_models) cursor);
      match model_names with
      | None => error_response "invalid name_len or payload overflow"
      | Some model_names =>
          names ← lift_out (read_cstrs model_names);
          folder ← lift_out (read_cstr folder_path);
          ok ← call (ns_save_models_internal names (u64 (le_val (take 8 (payload t)))) folder);
          if (ok : bool) then mret NewOkResponse else error_response "ns_save_models_internal failed"
      end.

Definition load_mode_of (code : Z) : option NSLoadMode :=
  if code =? 0 then Some NS_LOAD_FLOAT32
  else if code =? 1 then Some NS_LOAD_UINT8
  else if code =? 2 then Some NS_LOAD_UINT8_DELTA
  else if code =? 3 then Some NS_LOAD_FLOAT16
  else None.

(** [NewTask(NS_TASK_OK, ...)] whose payload is written afterwards, also when the
    task is NULL. *)
Definition new_response (size : Z) (data : list Z) : outcome NSTaskMsg :=
  resp ← NewTask NS_TASK_OK size 0 None;
  match resp with
  | None => Ub "resp is NULL"
  | Some resp =>
      if zlen (payload resp) <? zlen data then Ub "write past the end of a block"
      else Ok (mkTask (task_type resp) (payload_size resp) (resp_channel resp) (memcpy_at (payload resp) 0 data))
  end.

Definition handle_load_model t : M store_t NSTaskMsg :=
  if payload_size t <? sizeof_LoadModelPayload then error_response "payload too small"
  else
    let return_serialized := field_at 0 (payload t) in
    let mode := field_at 4 (payload t) in
    let name_len := field_at 8 (payload t) in
    if (name_len =? 0) || (NSLoadMode_code NS_LOAD_FLOAT16 <? mode) then error_response "invalid field"
    else if payload_size t <? sizeof_LoadModelPayload + name_len then error_response "payload truncated"
    else
      model ← match load_mode_of mode with
              | Some mode => name ← lift_out (read_cstr (drop 12 (payload t))); call (ns_load_model_internal mode name)
              | None => mret None
              end;
      match model with
      | None => error_response "ns_load_model_xxx failed"
      | Some blob =>
          if return_serialized =? 0 then mret NewOkResponse
          else lift_out (new_response (4 + zlen blob) (le_bytes 4 (zlen blob) ++ blob))
      end.

(** [ADVANCE_STR]: the pointer and the cursor behind the string. *)
Definition advance_str (len : Z) (cursor : list Z) : option (list Z * list Z) :=
  if zlen cursor <? len then None else Some (cursor, drop (Z.to_nat len) cursor).

Fixpoint read_columns (n : nat) (cursor : list Z) : option (list (list Z)) :=
  match n with
  | O => Some []
  | S n =>
      if zlen cursor <? 4 then None
      else
        let col_len := field_at 0 cursor in
        let cursor := drop 4 cursor in
        if zlen cursor <? col_len then None else option_map (cons cursor) (read_columns n (drop (Z.to_nat col_len) cursor))
  end.

(** [ioc_create] copies the strings. *)
Definition ioc_create (model_id query pg_dsn : list Z) (input_columns : list (list Z)) (output_column : list Z)
    (batch_size : Z) (tokenizer_path pad_token eos_token bos_token : list Z)
    (max_input_len max_output_len load_mode task use_gpu : Z) : outcome InferenceOptions :=
  model_id ← read_cstr model_id;
  query ← read_cstr query;
  pg_dsn ← read_cstr pg_dsn;
  output_column ← read_cstr output_column;
  tokenizer_path ← read_cstr tokenizer_path;
  pad_token ← read_cstr pad_token;
  eos_token ← read_cstr eos_token;
  bos_token ← read_cstr bos_token;
  input_columns ← read_cstrs input_columns;
  Ok (mkOptions model_id query pg_dsn input_columns output_column (sint 32 batch_size) tokenizer_path pad_token
        eos_token bos_token (sint 32 max_input_len) (sint 32 max_output_len) (sint 32 load_mode) (sint 32 task)
        (negb (sint 32 use_gpu =? 0))).

(** The strings and columns behind the header of an inference payload, whose
    lengths start at [off]: the pointers, or [None] when the payload is
    truncated. *)
Definition read_strings (off : nat) (p cursor : list Z)
    : option (list Z * list Z * list Z * list Z * list Z * list Z * list Z * list Z * list Z) :=
  '(model_id, cursor) ← advance_str (field_at off p) cursor;
  '(query, cursor) ← advance_str (field_at (off + 4) p) cursor;
  '(pg_dsn, cursor) ← advance_str (field_at (off + 8) p) cursor;
  '(output_column, cursor) ← advance_str (field_at (off + 12) p) cursor;
  '(tokenizer_path, cursor) ← advance_str (field_at (off + 16) p) cursor;
  '(pad_token, cursor) ← advance_str (field_at (off + 20) p) cursor;
  '(eos_token, cursor) ← advance_str (field_at (off + 24) p) cursor;
  '(bos_token, cursor) ← advance_str (field_at (off + 28) p) cursor;
  Some (model_id, query, pg_dsn, output_column, tokenizer_path, pad_token, eos_token, bos_token, cursor).

(** [palloc] of an array of pointers. *)
Definition palloc_pointers (n : Z) : outcome unit :=
  if MaxAllocSize <? n * 8 then Raise "invalid memory alloc request size" else Ok tt.

Definition handle_inference t : M store_t NSTaskMsg :=
  if payload_size t <? sizeof_InferencePayload then error_response "payload too small"
  else
    let p := payload t in
    match read_strings 24 p (drop 60 p) with
    | None => error_response "payload truncated"
    | Some (model_id, query, pg_dsn, output_column, tokenizer_path, pad_token, eos_token, bos_token, cursor) =>
        let n := field_at 56 p in
        _ ← lift_out (palloc_pointers n);
        match read_columns (Z.to_nat n) cursor with
        | None => error_response "payload truncated"
        | Some input_columns =>
            opts ← lift_out (ioc_create model_id query pg_dsn input_columns output_column (field_at 0 p)
                               tokenizer_path pad_token eos_token bos_token (field_at 4 p) (field_at 8 p)
                               (field_at 12 p) (field_at 16 p) (field_at 20 p));
            r ← call (ns_inference_internal opts);
            match r with
            | Inferred => mret NewOkResponse
            | InferenceFailed (Some err_msg) => mret (NewErrorResponse err_msg)
            | InferenceFailed None => error_response "ns_inference_run failed"
            end
        end
    end.

Definition handle_save_model_dry_run t : M store_t NSTaskMsg :=
  if payload_size t <? sizeof_SaveModelDryRunPayload then error_response "payload too small"
  else
    let p := payload t in
    match advance_str (field_at 8 p) (drop 68 p) with
    | None => error_response "payload truncated"
    | Some (model_path, cursor) =>
        match read_strings 32 p cursor with
        | None => error_response "payload truncated"
        | Some (model_id, query, pg_dsn, output_column, tokenizer_path, pad_token, eos_token, bos_token, cursor) =>
            let n := field_at 64 p in
            _ ← lift_out (palloc_pointers n);
            match read_columns (Z.to_nat n) cursor with
            | None => error_response "payload truncated"
            | Some input_columns =>
                opts ← lift_out (ioc_create model_id query pg_dsn input_columns output_column (field_at 12 p)
                                   tokenizer_path pad_token eos_token bos_token (field_at 16 p) (field_at 20 p)
                                   (field_at 4 p) (field_at 24 p) (field_at 28 p));
                model_path ← lift_out (read_cstr model_path);
                r ← call (ns_save_model_dry_run_internal (double_of_float (field_at 0 p)) model_path
                            (sint 32 (field_at 4 p)) opts);
                match r with
                | None => error_response "ns_save_model_dry_run failed"
                | Some (ratio, delta_perf) => lift_out (new_response 16 (le_bytes 8 ratio ++ le_bytes 8 delta_perf))
                end
            end
        end
    end.

(** The response of a task, if there is one; [cache_mgr] is whether the cache
    manager exists. *)
Definition process_task (cache_mgr : bool) t : M store_t (option NSTaskMsg) :=
  let has_type ty := task_type t =? NSTaskType_code ty in
  if has_type NS_TASK_SAVE_MODEL then Some <$> handle_save_model t
  else if has_type NS_TASK_SAVE_MODELS then Some <$> handle_save_models t
  else if has_type NS_TASK_SAVE_MODEL_DRY_RUN then Some <$> handle_save_model_dry_run t
  else if has_type NS_TASK_LOAD_MODEL then Some <$> handle_load_model t
  else if has_type NS_TASK_INFERNECE then Some <$> handle_inference t
  else if has_type NS_TASK_CLEAN_CACHE then
    if cache_mgr then _ ← modify_st icm_clear_cache; mret (Some NewOkResponse)
    else Some <$> error_response "Cache manager not initialized"
  else mret None.

End handlers.

(** ** The service *)

(** [snprintf(resp_name, ..., "ns_resp_%u", pid)]. *)
Definition ns_resp_name (pid : Z) : string := "ns_resp_" +:+ pretty pid.

(** Shared memory, the statics of the service process and its thread pool, and
    the catalog: the relations of the schema public, the rows of ns_model and
    the last value of the sequence. *)
Record ns_world `{TensorStore} := mkNsWorld {
  ns_channels : NSChannels;
  store : store_t;
  cache_mgr : bool;
  pool : list (NSTaskMsg * string);
  ns_service_running : bool;
  relations : list string;
  ns_model : list (Z * list Z);
  sequence : Z
}.

Section service.
Context `{TensorStore}.

Definition with_channels (c : NSChannels) (w : ns_world) : ns_world :=
  mkNsWorld _ c (store w) (cache_mgr w) (pool w) (ns_service_running w) (relations w) (ns_model w) (sequence w).
Definition with_store (s : store_t) (w : ns_world) : ns_world :=
  mkNsWorld _ (ns_channels w) s (cache_mgr w) (pool w) (ns_service_running w) (relations w) (ns_model w) (sequence w).
Definition with_pool (q : list (NSTaskMsg * string)) (w : ns_world) : ns_world :=
  mkNsWorld _ (ns_channels w) (store w) (cache_mgr w) q (ns_service_running w) (relations w) (ns_model w) (sequence w).
Definition with_running (b : bool) (w : ns_world) : ns_world :=
  mkNsWorld _ (ns_channels w) (store w) (cache_mgr w) (pool w) b (relations w) (ns_model w) (sequence w).
Definition with_rows (rows : list (Z * list Z)) (v : Z) (w : ns_world) : ns_world :=
  mkNsWorld _ (ns_channels w) (store w) (cache_mgr w) (pool w) (ns_service_running w) (relations w) rows v.

#[export] Instance ns_world_channels : HasChannels ns_world := {|
  channels := ns_channels;
  set_channels := with_channels;
  channels_set _ _ := eq_refl;
  set_channels_set _ _ _ := eq_refl;
  set_channels_id w := match w with mkNsWorld _ _ _ _ _ _ _ _ _ => eq_refl end
|}.

Definition modify (f : ns_world → ns_world) : P ns_world unit := λ w, (Done tt, f w).
Definition exits {S A} : P S A := λ s, (Exits, s).

(** One round of the main loop: a task goes to the thread pool with its response
    channel, which is looked up before. *)
Definition ns_service_turn (wakes : list (ns_wake ns_world)) : P ns_world unit :=
  t ← NSChannelPop NS_CHANNEL wakes;
  match t with
  | None => mret tt
  | Some t =>
      if task_type t =? NSTaskType_code NS_TASK_SHUTDOWN then modify (with_running false)
      else
        let name := ns_resp_name (resp_channel t) in
        _ ← modify (λ w, with_channels (NSChannelInit name false (ns_channels w)) w);
        modify (λ w, with_pool (pool w ++ [(t, name)]) w)
  end.

(** A thread runs the first task of the pool. *)
Definition worker_turn (wakes : list (ns_wake ns_world)) : P ns_world unit := λ w,
  match pool w with
  | [] => (Done tt, w)
  | (t, name) :: rest =>
      let '(r, s) := process_task (cache_mgr w) t (store w) in
      let w := with_store s (with_pool rest w) in
      match r with
      | Ok None => (Done tt, w)
      | Ok (Some resp) => (NSChannelPush name (Some resp) wakes ≫= λ _, mret tt) w
      | Raise e => (Error e, w)
      | Ub e => (Undefined e, w)
      end
  end.

(** [threadpool_destroy] lets the threads finish the tasks. *)
Fixpoint drain_pool (n : nat) : P ns_world unit :=
  match n with O => mret tt | S n => _ ← worker_turn []; drain_pool n end.

(** The rounds of the main loop, each with what happens during its sleeps and
    the number of tasks the threads finish before the next. *)
Fixpoint ns_service_loop (turns : list (list (ns_wake ns_world) * nat)) : P ns_world unit := λ w,
  if negb (ns_service_running w) then
    let stop : P ns_world unit :=
      _ ← drain_pool (length (pool w));
      _ ← modify (λ w, with_channels (NSChannelDestroy NS_CHANNEL (ns_channels w)) w);
      exits in
    stop w
  else match turns with
  | [] => (Sleeps, w)
  | (wakes, tasks) :: turns =>
      let round : P ns_world unit := _ ← ns_service_turn wakes; drain_pool tasks in
      (round ≫= λ _, ns_service_loop turns) w
  end.

Definition run_neurstore (turns : list (list (ns_wake ns_world) * nat)) : P ns_world unit :=
  _ ← modify (λ w, with_channels (NSChannelInit NS_CHANNEL false (ns_channels w)) w);
  _ ← modify (with_running true);
  ns_service_loop turns.

Definition terminate_neurstore (wakes : list (ns_wake ns_world)) : P ns_world unit :=
  _ ← modify (λ w, with_channels (NSChannelInit NS_CHANNEL false (ns_channels w)) w);
  msg ← lift (NewTask NS_TASK_SHUTDOWN 0 0 None);
  _ ← NSChannelPush NS_CHANNEL msg wakes;
  mret tt.

(** ** Tables *)

Definition fails {S A} (msg : string) : P S A := λ s, (Error msg, s).

Definition pgext_open (table : string) : P ns_world unit := λ w,
  if bool_decide (table ∈ relations w) then (Done tt, w) else (Error "table does not exist", w).

Definition pgext_nextval (seqname : string) : P ns_world Z := λ w,
  if bool_decide (seqname ∈ relations w) then (Done (sequence w + 1), with_rows (ns_model w) (sequence w + 1) w)
  else (Error "Sequence not found in schema public", w).

(** The primary key is checked by the index. *)
Definition pgext_insert (row : Z * list Z) : P ns_world unit := λ w,
  if bool_decide (row.1 ∈ (ns_model w).*1) then (Error "duplicate key value violates unique constraint", w)
  else (Done tt, with_rows (ns_model w ++ [row]) (sequence w) w).

Definition insert_model (name : list Z) : P ns_world unit :=
  v ← pgext_nextval "model_model_id_seq";
  pgext_insert (sint 32 v, name).

Fixpoint insert_models (names : list (list Z)) : P ns_world unit :=
  match names with [] => mret tt | n :: names => _ ← insert_model n; insert_models names end.

(** The callback keeps the name of the last row found. *)
Definition lookup_model_name (id : Z) : P ns_world (option (list Z)) := λ w,
  if bool_decide ("model_pkey"%string ∈ relations w) then
    (pgext_open "ns_model" ≫= λ _, mret (last (filter (λ row, row.1 = id) (ns_model w)).*2)) w
  else (Error "Index model_pkey not found", w).

(** ** The SQL functions *)

Record ns_backend := mkNsBackend { MyProcPid : Z; response_channel : option string }.

Definition ns_session : Type := ns_world * ns_backend.

Definition in_world {A} (m : P ns_world A) : P ns_session A := λ '(w, b), let '(r, w') := m w in (r, (w', b)).

(** What happens around a request: during the sleeps of its push, and during
    each pop that is tried for the response, with whether the statement is
    cancelled behind it. *)
Record schedule := mkSchedule {
  push_wakes : list (ns_wake ns_world);
  pop_calls : list (list (ns_wake ns_world) * bool)
}.

Definition ensure_response_channel : P ns_session string := λ '(w, b),
  match response_channel b with
  | Some name => (Done name, (w, b))
  | None =>
      let name := ns_resp_name (u32 (MyProcPid b)) in
      (Done name, (with_channels (NSChannelInit name true (ns_channels w)) w, mkNsBackend (MyProcPid b) (Some name)))
  end.

Definition send_task (msg : option NSTaskMsg) (wakes : list (ns_wake ns_world)) (err : string) : P ns_world unit :=
  _ ← modify (λ w, with_channels (NSChannelInit NS_CHANNEL false (ns_channels w)) w);
  ok ← NSChannelPush NS_CHANNEL msg wakes;
  if (ok : bool) then mret tt else fails err.

Fixpoint wait_response (name : string) (calls : list (list (ns_wake ns_world) * bool)) : P ns_world NSTaskMsg :=
  match calls with
  | [] => λ w, (Sleeps, w)
  | (wakes, cancelled) :: calls =>
      r ← NSChannelPop name wakes;
      match r with
      | Some resp => mret resp
      | None => if (cancelled : bool) then fails "canceling statement due to user request" else wait_response name calls
      end
  end.

Definition ns_request (sched : schedule) (type : NSTaskType) (data : option (list Z)) (err : string)
    : P ns_session NSTaskMsg :=
  name ← ensure_response_channel;
  msg ← (λ s : ns_session, lift (NewTask type (zlen (default [] data)) (MyProcPid s.2) data) s);
  _ ← in_world (send_task msg (push_wakes sched) err);
  in_world (wait_response name (pop_calls sched)).

Definition is_ok_response (resp : NSTaskMsg) : bool := task_type resp =? NSTaskType_code NS_TASK_OK.

Definition bytes_str (bs : list Z) : string := string_of_list_ascii ((λ b, ascii_of_N (Z.to_N b)) <$> bs).

(** [elog(ERROR, "...: %s", resp->payload)]. *)
Definition report_error {S A} (prefix : string) (resp : NSTaskMsg) : P S A :=
  s ← lift (read_cstr (payload resp)); fails (prefix +:+ bytes_str s).

(** A string with its terminating zero, and its length as the headers hold it. *)
Definition c_str (s : list Z) : list Z := s ++ [0].
Definition c_len (s : list Z) : Z := u32 (zlen s + 1).

Definition save_model_payload (name : list Z) (tolerance : Z) (path : list Z) : list Z :=
  le_bytes 8 (double_of_float tolerance) ++ le_bytes 4 (c_len name) ++ le_bytes 4 (c_len path) ++ c_str name ++ c_str path.

Definition ns_save_model (sched : schedule) (name : list Z) (tolerance : Z) (path : list Z) : P ns_session bool :=
  resp ← ns_request sched NS_TASK_SAVE_MODEL (Some (save_model_payload name tolerance path)) "NeurStore: push task failed";
  if negb (is_ok_response resp) then mret false
  else
    _ ← in_world (pgext_open "ns_model" ≫= λ _, insert_model name);
    mret true.

Definition len_str (s : list Z) : list Z := le_bytes 4 (c_len s) ++ c_str s.

Definition save_models_payload (names : list (list Z)) (tolerance : Z) (folder : list Z) : list Z :=
  le_bytes 8 (double_of_float tolerance) ++ le_bytes 4 (c_len folder) ++ le_bytes 4 (zlen names) ++ c_str folder ++
  concat (len_str <$> names).

(** A text array: the number of its dimensions and its elements, [None] for
    NULL. *)
Definition text_array : Type := Z * list (option (list Z)).

Definition ns_save_models (sched : schedule) (names : text_array) (tolerance : Z) (folder : list Z) : P ns_session bool :=
  if negb (names.1 =? 1) then mret false
  else match mapM id names.2 with
  | None => fails "model name cannot be NULL"
  | Some names =>
      resp ← ns_request sched NS_TASK_SAVE_MODELS (Some (save_models_payload names tolerance folder))
               "NeurStore: push NS_TASK_SAVE_MODELS failed";
      if negb (is_ok_response resp) then mret false
      else
        _ ← in_world (pgext_open "ns_model" ≫= λ _, insert_models names);
        mret true
  end.

(** The names of the files that end in .onnx, without the ending; an entry of the
    directory is whether it is a directory, and its name. *)
Definition onnx_name (entry : bool * list Z) : option (list Z) :=
  let '(is_dir, filename) := entry in
  let len := zlen filename in
  if is_dir then None
  else if (5 <? len) && bool_decide (drop (Z.to_nat (len - 5)) filename = str_bytes ".onnx")
  then Some (take (Z.to_nat (len - 5)) filename) else None.

Definition ns_save_models_from_folder (sched : schedule) (dir : option (list (bool * list Z))) (folder : list Z)
    (tolerance : Z) : P ns_session bool :=
  match dir with
  | None => fails "Could not open folder"
  | Some entries =>
      match omap onnx_name entries with
      | [] => mret true
      | names => ns_save_models sched (1, Some <$> names) tolerance folder
      end
  end.

Definition options_header (o : InferenceOptions) : list Z :=
  le_bytes 4 (c_len (model_id o)) ++ le_bytes 4 (c_len (query o)) ++ le_bytes 4 (c_len (pg_dsn o)) ++
  le_bytes 4 (c_len (output_column o)) ++ le_bytes 4 (c_len (tokenizer_path o)) ++ le_bytes 4 (c_len (pad_token o)) ++
  le_bytes 4 (c_len (eos_token o)) ++ le_bytes 4 (c_len (bos_token o)) ++ le_bytes 4 (zlen (input_columns o)).

Definition options_data (o : InferenceOptions) : list Z :=
  c_str (model_id o) ++ c_str (query o) ++ c_str (pg_dsn o) ++ c_str (output_column o) ++ c_str (tokenizer_path o) ++
  c_str (pad_token o) ++ c_str (eos_token o) ++ c_str (bos_token o) ++ concat (len_str <$> input_columns o).

Definition inference_payload (o : InferenceOptions) : list Z :=
  le_bytes 4 (batch_size o) ++ le_bytes 4 (max_input_len o) ++ le_bytes 4 (max_output_len o) ++
  le_bytes 4 (load_mode o) ++ le_bytes 4 (task o) ++ le_bytes 4 (if use_gpu o then 1 else 0) ++ options_header o ++ options_data o.

Definition dry_run_payload (tolerance : Z) (model_path : list Z) (o : InferenceOptions) : list Z :=
  le_bytes 4 tolerance ++ le_bytes 4 (load_mode o) ++ le_bytes 4 (c_len model_path) ++ le_bytes 4 (batch_size o) ++
  le_bytes 4 (max_input_len o) ++ le_bytes 4 (max_output_len o) ++ le_bytes 4 (task o) ++ le_bytes 4 (if use_gpu o then 1 else 0) ++
  options_header o ++ c_str model_path ++ options_data o.

(** The columns of an array argument. *)
Definition array_columns (a : text_array) : outcome (list (list Z)) :=
  if negb (a.1 =? 1) then Raise "input_columns must be 1-D array"
  else match mapM id a.2 with None => Raise "input_columns is NULL" | Some cols => Ok cols end.

Definition with_columns (o : InferenceOptions) (cols : list (list Z)) : InferenceOptions :=
  mkOptions (model_id o) (query o) (pg_dsn o) cols (output_column o) (batch_size o) (tokenizer_path o) (pad_token o)
    (eos_token o) (bos_token o) (max_input_len o) (max_output_len o) (load_mode o) (task o) (use_gpu o).
Definition with_model_id (o : InferenceOptions) (m : list Z) : InferenceOptions :=
  mkOptions m (query o) (pg_dsn o) (input_columns o) (output_column o) (batch_size o) (tokenizer_path o) (pad_token o)
    (eos_token o) (bos_token o) (max_input_len o) (max_output_len o) (load_mode o) (task o) (use_gpu o).

(** The arguments are those of [o] but its columns; the model id is empty. *)
Definition ns_save_model_dry_run (sched : schedule) (tolerance : Z) (model_path : list Z) (cols : text_array)
    (o : InferenceOptions) : P ns_session (Z * Z) :=
  cols ← lift (array_columns cols);
  let o := with_model_id (with_columns o cols) [] in
  resp ← ns_request sched NS_TASK_SAVE_MODEL_DRY_RUN (Some (dry_run_payload tolerance model_path o))
           "push NS_TASK_SAVE_MODEL_DRY_RUN failed";
  if negb (is_ok_response resp) then report_error "Dry-run failed: " resp
  else
    '(ratio, p) ← lift (rd_u64 (payload resp));
    '(delta, _) ← lift (rd_u64 p);
    mret (ratio, delta).

Definition load_model_payload (name : list Z) (mode : NSLoadMode) (return_serialized : bool) : list Z :=
  le_bytes 4 (if return_serialized then 1 else 0) ++ le_bytes 4 (NSLoadMode_code mode) ++ le_bytes 4 (c_len name) ++ c_str name.

(** The serialized model; [None] is NULL. *)
Definition send_load_model_task (sched : schedule) (name : list Z) (mode : NSLoadMode) (return_serialized : bool)
    : P ns_session (option (list Z)) :=
  resp ← ns_request sched NS_TASK_LOAD_MODEL (Some (load_model_payload name mode return_serialized))
           "push NS_TASK_LOAD_MODEL failed";
  if is_ok_response resp && return_serialized then
    '(data_size, p) ← lift (rd_u32 (payload resp));
    '(data, _) ← lift (ptr_read data_size p);
    mret (Some data)
  else if negb (is_ok_response resp) then report_error "NeurStore: Task failed with error: " resp
  else mret None.

(** [ns_load_model] and the variants of it for the other modes. *)
Definition ns_load_model (mode : NSLoadMode) (sched : schedule) (id : Z) (return_serialized : bool)
    : P ns_session (option (list Z)) :=
  name ← in_world (lookup_model_name id);
  match name with
  | None => fails "Model with ID not found"
  | Some name => send_load_model_task sched name mode return_serialized
  end.

(** The arguments are those of [o] but its model id and its columns. *)
Definition ns_inference (sched : schedule) (id : Z) (cols : text_array) (o : InferenceOptions) : P ns_session bool :=
  name ← in_world (lookup_model_name id);
  match name with
  | None => fails "Model with ID not found"
  | Some name =>
      cols ← lift (array_columns cols);
      let o := with_model_id (with_columns o cols) name in
      resp ← ns_request sched NS_TASK_INFERNECE (Some (inference_payload o)) "push NS_TASK_INFERNECE failed";
      if negb (is_ok_response resp) then report_error "NeurStore inference failed: " resp else mret true
  end.

Definition ns_clean_cache (sched : schedule) : P ns_session bool :=
  resp ← ns_request sched NS_TASK_CLEAN_CACHE None "NeurStore: push clean cache task failed";
  mret (is_ok_response resp).

End service.

(** ** A tolerance survives the wire

    A [float4] travels as a [double] and is converted back. *)

Definition is_nan (b : Z) : bool := (Z.land (Z.shiftr b 23) 255 =? 255) && negb (Z.land b (2 ^ 23 - 1) =? 0).

(** The three fields of a number. *)
Lemma bit_fields we wm s e m :
  0 ≤ we → 0 ≤ wm → 0 ≤ e < 2 ^ we → 0 ≤ m < 2 ^ wm →
  let x := s * 2 ^ (we + wm) + e * 2 ^ wm + m in
  Z.shiftr x (we + wm) = s ∧ Z.land (Z.shiftr x wm) (2 ^ we - 1) = e ∧ Z.land x (2 ^ wm - 1) = m.
Proof.
  intros Hwe Hwm He Hm x. rewrite !Z.shiftr_div_pow2 by lia.
  replace (2 ^ we - 1) with (Z.ones we) by (rewrite Z.ones_equiv; lia).
  replace (2 ^ wm - 1) with (Z.ones wm) by (rewrite Z.ones_equiv; lia). rewrite !Z.land_ones by lia.
  assert (x = (s * 2 ^ we + e) * 2 ^ wm + m) as E by (subst x; rewrite Z.pow_add_r by lia; lia).
  assert (x / 2 ^ wm = s * 2 ^ we + e) as Ed.
  { rewrite E, Z.div_add_l by lia. rewrite (Z.div_small m) by lia. lia. }
  split_and!.
  - rewrite Z.add_comm, Z.pow_add_r, <- Z.div_div, Ed by lia. rewrite Z.div_add_l, (Z.div_small e) by lia. lia.
  - rewrite Ed, Z.add_comm, Z.mod_add by lia. by apply Z.mod_small.
  - rewrite E, Z.add_comm, Z.mod_add by lia. by apply Z.mod_small.
Qed.

Lemma float_fields b :
  in_u32 b → ∃ s e m, 0 ≤ s < 2 ∧ 0 ≤ e < 2 ^ 8 ∧ 0 ≤ m < 2 ^ 23 ∧ b = s * 2 ^ (8 + 23) + e * 2 ^ 23 + m.
Proof.
  intros Hb. exists (b / 2 ^ 31), ((b / 2 ^ 23) `mod` 2 ^ 8), (b `mod` 2 ^ 23).
  pose proof (Z.mod_pos_bound b (2 ^ 23)). pose proof (Z.mod_pos_bound (b / 2 ^ 23) (2 ^ 8)).
  pose proof (Z.div_mod b (2 ^ 23)). pose proof (Z.div_mod (b / 2 ^ 23) (2 ^ 8)).
  rewrite Z.div_div in * by lia. unfold in_u32 in Hb.
  assert (0 ≤ b / 2 ^ 31 < 2) by (split; [apply Z.div_pos; lia|apply Z.div_lt_upper_bound; lia]).
  change (2 ^ 23 * 2 ^ 8) with (2 ^ 31) in *. change (2 ^ (8 + 23)) with (2 ^ 31). lia.
Qed.

Lemma shift_round_exact r k : 0 < k → shift_round (r * 2 ^ k) k = r.
Proof.
  intros Hk. unfold shift_round. rewrite Z.shiftr_div_pow2, Z.div_mul by lia.
  assert (0 < 2 ^ k) by lia. replace (r * 2 ^ k - r * 2 ^ k) with 0 by lia.
  by replace (2 ^ k <? 2 * 0) with false by lia; replace (2 ^ k =? 2 * 0) with false by lia.
Qed.

(** A normal double whose significand is [sig * 2^(52 - k)]. *)
Lemma float_of_double_normal s e m :
  0 ≤ s < 2 → 1 ≤ e < 2047 → 0 ≤ m < 2 ^ 52 →
  float_of_double (s * 2 ^ 63 + e * 2 ^ 52 + m) =
    let q := Z.max (e - 1046) (-149) in
    s * 2 ^ 31 + Z.min ((q + 149) * 2 ^ 23 + shift_round (m + 2 ^ 52) (q - (e - 1075))) (255 * 2 ^ 23).
Proof.
  intros Hs He Hm. destruct (bit_fields 11 52 s e m) as (E1 & E2 & E3); [lia..|].
  change (11 + 52) with 63 in *. change (2 ^ 11 - 1) with 2047 in E2.
  unfold float_of_double. cbv zeta. rewrite E1, E2, E3.
  replace (e =? 2047) with false by lia. replace (e =? 0) with false by lia.
  rewrite (Z.log2_unique (m + 2 ^ 52) 52) by lia.
  replace (52 + (e - 1075) - 23) with (e - 1046) by lia. replace (e - 1075 <? Z.max (e - 1046) (-149)) with true by lia. done.
Qed.

Lemma float_double_float b :
  in_u32 b → is_nan b = false → float_of_double (double_of_float b) = b ∧ in_u64 (double_of_float b).
Proof.
  intros Hb Hn. destruct (float_fields b Hb) as (s & e & m & Hs & He & Hm & Eb).
  destruct (bit_fields 8 23 s e m) as (E1 & E2 & E3); [lia..|]. rewrite <- Eb in E1, E2, E3.
  change (8 + 23) with 31 in *. change (2 ^ 8 - 1) with 255 in E2.
  unfold is_nan in Hn. rewrite E2, E3 in Hn. unfold double_of_float. cbv zeta. rewrite E1, E2, E3.
  destruct (Z.eqb_spec e 255) as [->|].
  { destruct (Z.eqb_spec m 0) as [Em|]; [|done]. rewrite Eb, Em. clear - Hs.
    assert (s = 0 ∨ s = 1) as [-> | ->] by lia; vm_compute; done. }
  destruct (Z.eqb_spec e 0) as [->|].
  - destruct (Z.eqb_spec m 0) as [Em|].
    { rewrite Eb, Em. clear - Hs. assert (s = 0 ∨ s = 1) as [-> | ->] by lia; vm_compute; done. }
    destruct (Z.log2_spec m) as [Hl1 Hl2]; [lia|]. pose proof (Z.log2_nonneg m) as Hl0.
    set (k := Z.log2 m) in *. assert (k < 23) as Hk by (apply (Z.pow_lt_mono_r_iff 2); lia).
    assert (2 ^ k * 2 ^ (52 - k) = 2 ^ 52) as Ep by (rewrite <- Z.pow_add_r by lia; f_equal; lia).
    rewrite Z.pow_succ_r in Hl2 by lia.
    assert (0 ≤ (m - 2 ^ k) * 2 ^ (52 - k) < 2 ^ 52) as Hm' by nia.
    split; [|unfold in_u64; lia].
    rewrite float_of_double_normal by lia. cbv zeta. replace (Z.max (k + 874 - 1046) (-149)) with (-149) by lia.
    replace ((m - 2 ^ k) * 2 ^ (52 - k) + 2 ^ 52) with (m * 2 ^ (52 - k)) by lia.
    replace (-149 - (k + 874 - 1075)) with (52 - k) by lia. rewrite shift_round_exact by lia. lia.
  - split; [|unfold in_u64; lia]. rewrite float_of_double_normal by lia. cbv zeta.
    replace (Z.max (e + 896 - 1046) (-149)) with (e - 150) by lia. replace (e - 150 - (e + 896 - 1075)) with 29 by lia.
    replace (m * 2 ^ 29 + 2 ^ 52) with ((m + 2 ^ 23) * 2 ^ 29) by lia. rewrite shift_round_exact by lia. lia.
Qed.

(** ** Payloads are read as they were written *)

Lemma length_le_bytes4 x : length (le_bytes 4 x) = 4%nat.
Proof. pose proof (zlen_le_bytes 4 x ltac:(lia)) as H. unfold zlen in H. lia. Qed.
Lemma length_le_bytes8 x : length (le_bytes 8 x) = 8%nat.
Proof. pose proof (zlen_le_bytes 8 x ltac:(lia)) as H. unfold zlen in H. lia. Qed.

Lemma drop_le4 n x rest : drop (S (S (S (S n)))) (le_bytes 4 x ++ rest) = drop n rest.
Proof.
  rewrite drop_app_ge by (rewrite length_le_bytes4; lia). rewrite length_le_bytes4. f_equal. lia.
Qed.
Lemma drop_le8 n x rest : drop (S (S (S (S (S (S (S (S n)))))))) (le_bytes 8 x ++ rest) = drop n rest.
Proof.
  rewrite drop_app_ge by (rewrite length_le_bytes8; lia). rewrite length_le_bytes8. f_equal. lia.
Qed.
Lemma field_here x rest : field_at 0 (le_bytes 4 x ++ rest) = u32 x.
Proof.
  unfold field_at. rewrite drop_0, take_app_le, take_ge, le_val_le_bytes by (rewrite ?length_le_bytes4; lia).
  unfold u32. by rewrite Z.mod_mod by lia.
Qed.
Lemma field_skip4 n x rest : field_at (S (S (S (S n)))) (le_bytes 4 x ++ rest) = field_at n rest.
Proof. unfold field_at. by rewrite drop_le4. Qed.
Lemma field_skip8 n x rest : field_at (S (S (S (S (S (S (S (S n)))))))) (le_bytes 8 x ++ rest) = field_at n rest.
Proof. unfold field_at. by rewrite drop_le8. Qed.
Lemma double_here d rest : in_u64 d → u64 (le_val (take 8 (le_bytes 8 d ++ rest))) = d.
Proof.
  intros Hd. rewrite take_app_le, take_ge, le_val_le_bytes_id by (rewrite ?length_le_bytes8; done || lia). by apply u64_id.
Qed.
Lemma u32_u32 x : u32 (u32 x) = u32 x.
Proof. unfold u32. by rewrite Z.mod_mod by lia. Qed.
Lemma u32_c_len s : u32 (c_len s) = c_len s.
Proof. apply u32_u32. Qed.
Lemma zlen_c_str s : zlen (c_str s) = zlen s + 1.
Proof. unfold c_str. rewrite zlen_app. done. Qed.
Lemma zlen_len_str s : zlen (len_str s) = zlen s + 5.
Proof. unfold len_str. rewrite zlen_app, zlen_c_str, zlen_le_bytes by lia. lia. Qed.
Lemma sint_u32 x : in_s32 x → sint 32 (u32 x) = x.
Proof.
  intros Hx. rewrite <- (sint_id 32 x) at 2 by (unfold in_s32 in Hx; lia).
  unfold sint, u32. by rewrite Z.mod_mod by lia.
Qed.

Create Rewrite HintDb wire.
Create Rewrite HintDb wire_len.
#[export] Hint Rewrite @drop_0 field_here field_skip4 field_skip8 drop_le4 drop_le8 u32_u32 u32_c_len : wire.
#[export] Hint Rewrite @zlen_app zlen_c_str zlen_len_str @zlen_cons @zlen_nil : wire_len.
#[export] Hint Rewrite zlen_le_bytes using lia : wire_len.

(** A string of C: its characters are not zero. *)
Definition plain (s : list Z) : Prop := Forall (λ c, c ≠ 0) s.

Lemma read_c_str s rest : plain s → read_cstr (c_str s ++ rest) = Ok s.
Proof.
  unfold c_str. rewrite <- app_assoc. cbn [app]. induction 1 as [|c s Hc _ IH]; [done|]. cbn [app read_cstr].
  destruct c; [done|..]; by rewrite IH.
Qed.

(** A length below that of a message is not truncated. *)
Lemma c_len_small s : zlen s < NS_MSG_SIZE → c_len s = zlen s + 1.
Proof. intros H. apply u32_id. pose proof (zlen_nonneg s). unfold in_u32, NS_MSG_SIZE in *. lia. Qed.

Lemma drop_c_str s rest : zlen s < NS_MSG_SIZE → drop (Z.to_nat (c_len s)) (c_str s ++ rest) = rest.
Proof.
  intros H. rewrite c_len_small, <- zlen_c_str by done. unfold zlen. by rewrite Nat2Z.id, drop_app_length.
Qed.

Lemma advance_c_str s rest :
  zlen s < NS_MSG_SIZE → advance_str (c_len s) (c_str s ++ rest) = Some (c_str s ++ rest, rest).
Proof.
  intros H. unfold advance_str. rewrite drop_c_str, c_len_small, zlen_app, zlen_c_str by done.
  pose proof (zlen_nonneg rest). by replace (_ <? _) with false by lia.
Qed.

Lemma zlen_concat_ge (ss : list (list Z)) s : s ∈ ss → zlen (len_str s) ≤ zlen (concat (len_str <$> ss)).
Proof.
  induction 1 as [s ss|s s' ss _ IH]; cbn [fmap list_fmap concat]; rewrite zlen_app.
  - pose proof (zlen_nonneg (concat (len_str <$> ss))). lia.
  - pose proof (zlen_nonneg (len_str s')). lia.
Qed.

Lemma read_columns_spec (cols : list (list Z)) rest :
  Forall plain cols → zlen (concat (len_str <$> cols)) < NS_MSG_SIZE →
  ∃ ps, read_columns (length cols) (concat (len_str <$> cols) ++ rest) = Some ps ∧ read_cstrs ps = Ok cols.
Proof.
  induction 1 as [|s cols Hs _ IH]; intros Hl; [by exists []|]. cbn [fmap list_fmap concat] in *.
  rewrite zlen_app, zlen_len_str in Hl. pose proof (zlen_nonneg (concat (len_str <$> cols))). pose proof (zlen_nonneg s).
  destruct IH as (ps & E1 & E2); [lia|]. exists ((c_str s ++ concat (len_str <$> cols) ++ rest) :: ps).
  cbn [length read_columns]. rewrite <- !app_assoc. set (tl := concat (len_str <$> cols) ++ rest) in *.
  unfold len_str. rewrite <- !app_assoc. autorewrite with wire.
  replace (_ <? 4) with false by (autorewrite with wire_len; pose proof (zlen_nonneg tl); lia).
  pose proof (advance_c_str s tl ltac:(lia)) as Ha. unfold advance_str in Ha.
  destruct (_ <? c_len s); [done|]. injection Ha as Ha. rewrite Ha, E1. split; [done|]. cbn [read_cstrs].
  by rewrite read_c_str, E2.
Qed.

Lemma read_names_spec (names : list (list Z)) rest :
  Forall plain names → zlen (concat (len_str <$> names)) < NS_MSG_SIZE →
  ∃ ps, read_names (length names) (concat (len_str <$> names) ++ rest) = Ok (Some ps) ∧ read_cstrs ps = Ok names.
Proof.
  induction 1 as [|s names Hs _ IH]; intros Hl; [by exists []|]. cbn [fmap list_fmap concat] in *.
  rewrite zlen_app, zlen_len_str in Hl. pose proof (zlen_nonneg (concat (len_str <$> names))). pose proof (zlen_nonneg s).
  destruct IH as (ps & E1 & E2); [lia|]. exists ((c_str s ++ concat (len_str <$> names) ++ rest) :: ps).
  cbn [length read_names]. rewrite <- !app_assoc. set (tl := concat (len_str <$> names) ++ rest) in *.
  unfold len_str. rewrite <- !app_assoc, rd_u32_le. cbn [mbind outcome_bind].
  2: { rewrite c_len_small by lia. unfold in_u32, NS_MSG_SIZE in *. lia. }
  rewrite drop_c_str, E1 by lia. replace (c_len s =? 0) with false by (rewrite c_len_small by lia; lia).
  replace (_ <? c_len s) with false.
  2: { rewrite c_len_small by lia. rewrite zlen_app, zlen_c_str. pose proof (zlen_nonneg tl). lia. }
  split; [done|]. cbn [read_cstrs]. by rewrite read_c_str, E2.
Qed.

(** ** The handlers on the requests of the SQL functions *)

Definition client_task (type : NSTaskType) (data : list Z) (pid : Z) : NSTaskMsg :=
  mkTask (NSTaskType_code type) (zlen data) (u32 pid) data.

Definition fits (data : list Z) : Prop := NSTASK_HDRSZ + zlen data ≤ NS_MSG_SIZE.

Lemma NewTask_fits type data pid :
  fits data → NewTask type (zlen data) pid (Some data) = Ok (Some (client_task type data pid)) ∧
              task_ok (client_task type data pid).
Proof.
  unfold fits. intros Hf. pose proof (zlen_nonneg data). assert (in_u32 (zlen data)) by (unfold in_u32, NSTASK_HDRSZ, NS_MSG_SIZE in *; lia).
  split.
  - unfold NewTask. rewrite u32_id by done. replace (NS_MSG_SIZE <? _) with false by lia.
    unfold ptr_read. replace (_ || _) with false by lia. unfold zlen. by rewrite Nat2Z.id, take_ge by lia.
  - split_and!; [destruct type; done|apply u32_range|done|done].
Qed.

Lemma NewTask_large type data pid :
  NS_MSG_SIZE < NSTASK_HDRSZ + zlen data → zlen data < 2 ^ 32 → NewTask type (zlen data) pid (Some data) = Ok None.
Proof.
  intros Hf Hl. unfold NewTask. rewrite u32_id by (split; [apply zlen_nonneg|done]).
  by replace (NS_MSG_SIZE <? _) with true by lia.
Qed.

Definition options_ok (o : InferenceOptions) : Prop :=
  Forall plain [model_id o; query o; pg_dsn o; output_column o; tokenizer_path o; pad_token o; eos_token o; bos_token o] ∧
  Forall plain (input_columns o) ∧
  Forall in_s32 [batch_size o; max_input_len o; max_output_len o; load_mode o; task o].

Lemma field_at_app n hdr rest : field_at (length hdr + n) (hdr ++ rest) = field_at n rest.
Proof. unfold field_at. by rewrite drop_app_add. Qed.

Lemma read_strings_spec hdr o rest rest' :
  options_ok o → zlen (options_data o) < NS_MSG_SIZE →
  ∃ a b c d e f g h,
    read_strings (length hdr) (hdr ++ options_header o ++ rest) (options_data o ++ rest') =
      Some (a, b, c, d, e, f, g, h, concat (len_str <$> input_columns o) ++ rest') ∧
    read_cstr a = Ok (model_id o) ∧ read_cstr b = Ok (query o) ∧ read_cstr c = Ok (pg_dsn o) ∧
    read_cstr d = Ok (output_column o) ∧ read_cstr e = Ok (tokenizer_path o) ∧ read_cstr f = Ok (pad_token o) ∧
    read_cstr g = Ok (eos_token o) ∧ read_cstr h = Ok (bos_token o).
Proof.
  intros (Hp & _ & _) Hl. repeat (apply Forall_cons in Hp as [? Hp]).
  unfold options_data in Hl. repeat rewrite zlen_app in Hl. rewrite !zlen_c_str in Hl.
  pose proof (zlen_nonneg (concat (len_str <$> input_columns o))).
  pose proof (zlen_nonneg (model_id o)). pose proof (zlen_nonneg (query o)). pose proof (zlen_nonneg (pg_dsn o)).
  pose proof (zlen_nonneg (output_column o)). pose proof (zlen_nonneg (tokenizer_path o)).
  pose proof (zlen_nonneg (pad_token o)). pose proof (zlen_nonneg (eos_token o)). pose proof (zlen_nonneg (bos_token o)).
  do 8 eexists. split.
  - unfold read_strings. rewrite <- (Nat.add_0_r (length hdr)) at 1. rewrite !field_at_app. unfold options_header, options_data.
    rewrite <- !app_assoc. autorewrite with wire.
    repeat (rewrite advance_c_str by lia; cbn [mbind option_bind]). reflexivity.
  - by rewrite !read_c_str.
Qed.

Definition inference_response (r : inference_result) : NSTaskMsg :=
  match r with
  | Inferred => NewOkResponse
  | InferenceFailed (Some err_msg) => NewErrorResponse err_msg
  | InferenceFailed None => NewErrorResponse (str_bytes "ns_inference_run failed")
  end.

Lemma zlen_options_header o : zlen (options_header o) = 36.
Proof. unfold options_header. autorewrite with wire_len. done. Qed.

(** The columns behind the strings are few enough to be allocated. *)
Lemma columns_few (cols : list (list Z)) : zlen (concat (len_str <$> cols)) < NS_MSG_SIZE → zlen cols < NS_MSG_SIZE.
Proof.
  intros Hl. assert (zlen cols ≤ zlen (concat (len_str <$> cols))); [|lia]. clear Hl.
  induction cols as [|s cols IH]; [done|]. cbn [fmap list_fmap concat]. rewrite zlen_cons, zlen_app, zlen_len_str.
  pose proof (zlen_nonneg s). lia.
Qed.

Lemma options_columns_small o :
  zlen (options_data o) < NS_MSG_SIZE →
  zlen (concat (len_str <$> input_columns o)) < NS_MSG_SIZE ∧ zlen (input_columns o) < NS_MSG_SIZE ∧ 0 ≤ zlen (input_columns o).
Proof.
  intros Hl. assert (zlen (concat (len_str <$> input_columns o)) < NS_MSG_SIZE) as Hc.
  { unfold options_data in Hl. repeat rewrite zlen_app in Hl.
    repeat match type of Hl with context [zlen (c_str ?s)] =>
      pose proof (zlen_nonneg (c_str s)); generalize dependent (zlen (c_str s)); intros end. lia. }
  split; [done|]. split; [by apply columns_few|apply zlen_nonneg].
Qed.

Lemma ioc_create_spec o a b c d e f g h ps bs mi mo lm ta ug :
  read_cstr a = Ok (model_id o) → read_cstr b = Ok (query o) → read_cstr c = Ok (pg_dsn o) →
  read_cstr d = Ok (output_column o) → read_cstr e = Ok (tokenizer_path o) → read_cstr f = Ok (pad_token o) →
  read_cstr g = Ok (eos_token o) → read_cstr h = Ok (bos_token o) → read_cstrs ps = Ok (input_columns o) →
  [bs; mi; mo; lm; ta; ug] = u32 <$> [batch_size o; max_input_len o; max_output_len o; load_mode o; task o; if use_gpu o then 1 else 0] →
  options_ok o → ioc_create a b c ps d bs e f g h mi mo lm ta ug = Ok o.
Proof.
  intros Ea Eb Ec Ed Ee Ef Eg Eh Ep [= -> -> -> -> -> ->] (_ & _ & Hi). repeat (apply Forall_cons in Hi as [? Hi]).
  unfold ioc_create. rewrite Ea, Eb, Ec, Ed, Ee, Ef, Eg, Eh, Ep. cbn [mbind outcome_bind].
  rewrite !sint_u32 by (done || by destruct (use_gpu o)). by destruct o as [?????????????? []].
Qed.

Lemma new_response_fits data : fits data → new_response (zlen data) data = Ok (mkTask (NSTaskType_code NS_TASK_OK) (zlen data) 0 data).
Proof.
  unfold fits. intros Hf. pose proof (zlen_nonneg data). unfold new_response, NewTask.
  rewrite u32_id by (unfold in_u32, NSTASK_HDRSZ, NS_MSG_SIZE in *; lia). replace (NS_MSG_SIZE <? _) with false by lia.
  cbn [mbind outcome_bind payload task_type payload_size resp_channel].
  assert (zlen (replicate (Z.to_nat (zlen data)) 0) = zlen data) as -> by (unfold zlen; rewrite length_replicate; lia).
  rewrite Z.ltb_irrefl. unfold memcpy_at. cbn [Z.to_nat take Nat.add app].
  rewrite drop_ge, app_nil_r; [done|]. rewrite length_replicate. unfold zlen. lia.
Qed.

Lemma new_response_large data :
  NS_MSG_SIZE < NSTASK_HDRSZ + zlen data → zlen data < 2 ^ 32 → new_response (zlen data) data = Ub "resp is NULL".
Proof.
  intros Hf Hl. unfold new_response, NewTask. rewrite u32_id by (split; [apply zlen_nonneg|done]).
  by replace (NS_MSG_SIZE <? _) with true by lia.
Qed.

Section handled.
Context `{TensorStore}.
Implicit Types (s : store_t).

Lemma call_bind {A B} (f : store_t → A * store_t) (k : A → M store_t B) s :
  (call f ≫= k) s = let '(a, s') := f s in k a s'.
Proof. unfold mbind, M_bind, call. by destruct (f s). Qed.

Lemma lift_out_bind {A B} (o : outcome A) (k : A → M store_t B) s a : o = Ok a → (lift_out o ≫= k) s = k a s.
Proof. intros ->. done. Qed.

Lemma handle_inference_client o pid s :
  options_ok o → fits (inference_payload o) →
  handle_inference (client_task NS_TASK_INFERNECE (inference_payload o) pid) s =
    let '(r, s') := ns_inference_internal o s in (Ok (inference_response r), s').
Proof.
  intros Ho Hf. unfold fits in Hf.
  assert (zlen (inference_payload o) = 60 + zlen (options_data o)) as Hz.
  { unfold inference_payload. repeat rewrite zlen_app. rewrite zlen_options_header, !zlen_le_bytes by lia. lia. }
  pose proof (zlen_nonneg (options_data o)) as Hd. rewrite Hz in Hf.
  unfold handle_inference. cbn [payload_size payload client_task]. rewrite Hz.
  replace (_ <? sizeof_InferencePayload) with false by (unfold sizeof_InferencePayload; lia).
  set (hdr := le_bytes 4 (batch_size o) ++ le_bytes 4 (max_input_len o) ++ le_bytes 4 (max_output_len o) ++
                le_bytes 4 (load_mode o) ++ le_bytes 4 (task o) ++ le_bytes 4 (if use_gpu o then 1 else 0)).
  assert (inference_payload o = hdr ++ options_header o ++ options_data o) as Ep.
  { unfold inference_payload, hdr. by rewrite <- !app_assoc. }
  assert (length hdr = 24%nat) as Hh by (unfold hdr; rewrite !length_app, !length_le_bytes4; done).
  assert (drop 60 (inference_payload o) = options_data o ++ []) as Edr.
  { rewrite app_nil_r. unfold inference_payload, options_header. rewrite <- !app_assoc. by autorewrite with wire. }
  assert (zlen (options_data o) < NS_MSG_SIZE) as Hsm by (unfold NSTASK_HDRSZ in Hf; lia).
  destruct (read_strings_spec hdr o (options_data o) [] Ho Hsm) as (a & b & c & d & e & f & g & h & Er & Ea & Eb & Ec & Ed & Ee & Ef & Eg & Eh).
  rewrite <- Ep, Hh, <- Edr in Er. rewrite Er. clear Er. rewrite app_nil_r.
  destruct (options_columns_small o Hsm) as (Hc & Hn & Hn0).
  destruct (read_columns_spec (input_columns o) [] (proj1 (proj2 Ho)) Hc) as (ps & Eps & Ecs). rewrite app_nil_r in Eps.
  assert (field_at 56 (inference_payload o) = zlen (input_columns o)) as E56.
  { unfold inference_payload, options_header. rewrite <- !app_assoc. autorewrite with wire. apply u32_id.
    unfold in_u32, NS_MSG_SIZE in *. lia. }
  rewrite E56. rewrite (lift_out_bind _ _ _ tt).
  2: { unfold palloc_pointers. by replace (_ <? _) with false by (unfold MaxAllocSize, NS_MSG_SIZE in *; lia). }
  replace (Z.to_nat (zlen (input_columns o))) with (length (input_columns o)) by (unfold zlen; lia). rewrite Eps.
  erewrite lift_out_bind; [|eapply ioc_create_spec; try eassumption; unfold inference_payload; by autorewrite with wire].
  rewrite call_bind. destruct (ns_inference_internal o s) as [[|[err|]] s']; done.
Qed.

Lemma handle_save_model_client name tolerance path pid s :
  plain name → plain path → in_u32 tolerance → is_nan tolerance = false → fits (save_model_payload name tolerance path) →
  handle_save_model (client_task NS_TASK_SAVE_MODEL (save_model_payload name tolerance path) pid) s =
    let '(ok, s') := ns_save_model_internal name (double_of_float tolerance) path s in
    (Ok (if ok then NewOkResponse else NewErrorResponse (str_bytes "save_model_internal failed")), s').
Proof.
  intros Hn Hp Ht Hnan Hf. destruct (float_double_float tolerance Ht Hnan) as [Eft Hd].
  assert (zlen (save_model_payload name tolerance path) = 18 + zlen name + zlen path) as Hz.
  { unfold save_model_payload. autorewrite with wire_len. lia. }
  unfold fits in Hf. rewrite Hz in Hf. pose proof (zlen_nonneg name). pose proof (zlen_nonneg path).
  assert (zlen name < NS_MSG_SIZE ∧ zlen path < NS_MSG_SIZE) as [Hsn Hsp] by (unfold NSTASK_HDRSZ in Hf; lia).
  unfold handle_save_model. cbn [payload_size payload client_task]. rewrite Hz. unfold save_model_payload.
  autorewrite with wire. rewrite double_here, Eft by done. unfold sizeof_SaveModelPayload.
  replace (_ <? 16) with false by lia. rewrite !c_len_small by done. replace (_ <? _) with false by lia.
  replace (_ =? 0) with false by lia. replace (_ =? 0) with false by lia. cbn [orb].
  rewrite (lift_out_bind _ _ _ name) by by apply read_c_str.
  rewrite <- (c_len_small name), drop_c_str by done.
  rewrite (lift_out_bind _ _ _ path) by (rewrite <- (app_nil_r (c_str path)); by apply read_c_str).
  rewrite call_bind. by destruct (ns_save_model_internal _ _ _ s) as [[] s'].
Qed.

Lemma handle_save_models_client names tolerance folder pid s :
  names ≠ [] → Forall plain names → plain folder → in_u32 tolerance → is_nan tolerance = false →
  fits (save_models_payload names tolerance folder) →
  handle_save_models (client_task NS_TASK_SAVE_MODELS (save_models_payload names tolerance folder) pid) s =
    let '(ok, s') := ns_save_models_internal names (double_of_float tolerance) folder s in
    (Ok (if ok then NewOkResponse else NewErrorResponse (str_bytes "ns_save_models_internal failed")), s').
Proof.
  intros Hne Hn Hp Ht Hnan Hf. destruct (float_double_float tolerance Ht Hnan) as [_ Hd].
  assert (zlen (save_models_payload names tolerance folder) = 17 + zlen folder + zlen (concat (len_str <$> names))) as Hz.
  { unfold save_models_payload. repeat rewrite zlen_app. rewrite zlen_c_str, !zlen_le_bytes by lia. lia. }
  unfold fits in Hf. rewrite Hz in Hf. pose proof (zlen_nonneg folder). pose proof (zlen_nonneg (concat (len_str <$> names))).
  assert (zlen folder < NS_MSG_SIZE ∧ zlen (concat (len_str <$> names)) < NS_MSG_SIZE) as [Hsf Hsn]
    by (unfold NSTASK_HDRSZ in Hf; lia).
  pose proof (columns_few names Hsn) as Hfew.
  assert (1 ≤ zlen names) as Hge by (destruct names; [done|rewrite zlen_cons; pose proof (zlen_nonneg names); lia]).
  assert (zlen names * 4 ≤ zlen (concat (len_str <$> names))) as H4.
  { clear. induction names as [|n names IH]; [done|]. cbn [fmap list_fmap concat]. rewrite zlen_cons, zlen_app, zlen_len_str.
    pose proof (zlen_nonneg n). lia. }
  destruct (read_names_spec names [] Hn Hsn) as (ps & Eps & Ecs). rewrite app_nil_r in Eps.
  unfold handle_save_models. cbn [payload_size payload client_task]. rewrite Hz. unfold save_models_payload.
  autorewrite with wire. rewrite double_here by done. unfold sizeof_SaveModelsPayload.
  rewrite (u32_id (zlen names)) by (unfold in_u32, NS_MSG_SIZE in *; lia).
  replace (_ <? 16) with false by lia. rewrite drop_c_str, c_len_small by done.
  replace (_ =? 0) with false by lia. replace (_ =? 0) with false by lia. cbn [orb]. replace (_ <? _) with false by lia.
  rewrite (lift_out_bind _ _ _ (Some ps)) by (unfold zlen; by rewrite Nat2Z.id).
  rewrite (lift_out_bind _ _ _ names) by done.
  rewrite (lift_out_bind _ _ _ folder) by by apply read_c_str.
  rewrite call_bind. by destruct (ns_save_models_internal _ _ _ s) as [[] s'].
Qed.

Definition load_response (return_serialized : bool) (model : option (list Z)) : outcome NSTaskMsg :=
  match model with
  | None => Ok (NewErrorResponse (str_bytes "ns_load_model_xxx failed"))
  | Some blob =>
      if negb return_serialized then Ok NewOkResponse
      else new_response (4 + zlen blob) (le_bytes 4 (zlen blob) ++ blob)
  end.

Lemma handle_load_model_client name mode (ret : bool) pid s :
  plain name → fits (load_model_payload name mode ret) →
  handle_load_model (client_task NS_TASK_LOAD_MODEL (load_model_payload name mode ret) pid) s =
    let '(model, s') := ns_load_model_internal mode name s in (load_response ret model, s').
Proof.
  intros Hn Hf. assert (zlen (load_model_payload name mode ret) = 13 + zlen name) as Hz.
  { unfold load_model_payload. autorewrite with wire_len. lia. }
  unfold fits in Hf. rewrite Hz in Hf. pose proof (zlen_nonneg name).
  assert (zlen name < NS_MSG_SIZE) as Hs by (unfold NSTASK_HDRSZ in Hf; lia).
  unfold handle_load_model. cbn [payload_size payload client_task]. rewrite Hz. unfold load_model_payload.
  autorewrite with wire. unfold sizeof_LoadModelPayload. replace (_ <? 12) with false by lia.
  rewrite c_len_small by done. replace (zlen name + 1 =? 0) with false by lia.
  assert (load_mode_of (u32 (NSLoadMode_code mode)) = Some mode ∧
    (NSLoadMode_code NS_LOAD_FLOAT16 <? u32 (NSLoadMode_code mode)) = false) as [-> ->] by by destruct mode.
  cbn [orb]. replace (_ <? _) with false by lia.
  assert (∀ k : option (list Z) → M store_t NSTaskMsg,
    ((name0 ← lift_out (read_cstr (c_str name)); call (ns_load_model_internal mode name0)) ≫= k) s =
    let '(m, s') := ns_load_model_internal mode name s in k m s') as Hk.
  { intros k. rewrite <- (app_nil_r (c_str name)), read_c_str by done. unfold mbind, M_bind, lift_out, call.
    by destruct (ns_load_model_internal mode name s). }
  rewrite Hk. destruct (ns_load_model_internal mode name s) as [[blob|] s'], ret; done.
Qed.

Definition dry_run_response (r : option (Z * Z)) : NSTaskMsg :=
  match r with
  | None => NewErrorResponse (str_bytes "ns_save_model_dry_run failed")
  | Some (ratio, delta) => mkTask (NSTaskType_code NS_TASK_OK) 16 0 (le_bytes 8 ratio ++ le_bytes 8 delta)
  end.

Lemma handle_dry_run_client tolerance path o pid s :
  in_u32 tolerance → plain path → options_ok o → fits (dry_run_payload tolerance path o) →
  handle_save_model_dry_run (client_task NS_TASK_SAVE_MODEL_DRY_RUN (dry_run_payload tolerance path o) pid) s =
    let '(r, s') := ns_save_model_dry_run_internal (double_of_float tolerance) path (load_mode o) o s in
    (Ok (dry_run_response r), s').
Proof.
  intros Ht Hp Ho Hf. unfold fits in Hf.
  assert (zlen (dry_run_payload tolerance path o) = 69 + zlen path + zlen (options_data o)) as Hz.
  { unfold dry_run_payload. repeat rewrite zlen_app. rewrite zlen_options_header, zlen_c_str, !zlen_le_bytes by lia. lia. }
  pose proof (zlen_nonneg (options_data o)) as Hd. pose proof (zlen_nonneg path) as Hp0. rewrite Hz in Hf.
  unfold handle_save_model_dry_run. cbn [payload_size payload client_task]. rewrite Hz.
  replace (_ <? sizeof_SaveModelDryRunPayload) with false by (unfold sizeof_SaveModelDryRunPayload; lia).
  set (hdr := le_bytes 4 tolerance ++ le_bytes 4 (load_mode o) ++ le_bytes 4 (c_len path) ++ le_bytes 4 (batch_size o) ++
    le_bytes 4 (max_input_len o) ++ le_bytes 4 (max_output_len o) ++ le_bytes 4 (task o) ++ le_bytes 4 (if use_gpu o then 1 else 0)).
  assert (dry_run_payload tolerance path o = hdr ++ options_header o ++ c_str path ++ options_data o) as Ep.
  { unfold dry_run_payload, hdr. by rewrite <- !app_assoc. }
  assert (length hdr = 32%nat) as Hh by (unfold hdr; rewrite !length_app, !length_le_bytes4; done).
  assert (zlen (options_data o) < NS_MSG_SIZE ∧ zlen path < NS_MSG_SIZE) as [Hsm Hsp] by (unfold NSTASK_HDRSZ in Hf; lia).
  assert (advance_str (field_at 8 (dry_run_payload tolerance path o)) (drop 68 (dry_run_payload tolerance path o)) =
    Some (c_str path ++ options_data o, options_data o ++ [])) as ->.
  { unfold dry_run_payload, options_header. rewrite <- !app_assoc. autorewrite with wire. rewrite app_nil_r. by apply advance_c_str. }
  destruct (read_strings_spec hdr o (c_str path ++ options_data o) [] Ho Hsm)
    as (a & b & c & d & e & f & g & h & Er & Ea & Eb & Ec & Ed & Ee & Ef & Eg & Eh).
  rewrite <- Ep, Hh in Er. rewrite Er. clear Er. rewrite app_nil_r. destruct (options_columns_small o Hsm) as (Hc & Hn & Hn0).
  destruct (read_columns_spec (input_columns o) [] (proj1 (proj2 Ho)) Hc) as (ps & Eps & Ecs). rewrite app_nil_r in Eps.
  assert (field_at 64 (dry_run_payload tolerance path o) = zlen (input_columns o)) as E64.
  { unfold dry_run_payload, options_header. rewrite <- !app_assoc. autorewrite with wire. apply u32_id.
    unfold in_u32, NS_MSG_SIZE in *. lia. }
  rewrite E64. rewrite (lift_out_bind _ _ _ tt).
  2: { unfold palloc_pointers. by replace (_ <? _) with false by (unfold MaxAllocSize, NS_MSG_SIZE in *; lia). }
  replace (Z.to_nat (zlen (input_columns o))) with (length (input_columns o)) by (unfold zlen; lia). rewrite Eps.
  erewrite lift_out_bind; [|eapply ioc_create_spec; try eassumption; unfold dry_run_payload; by autorewrite with wire].
  rewrite (lift_out_bind _ _ _ path) by by apply read_c_str. rewrite call_bind.
  assert (field_at 0 (dry_run_payload tolerance path o) = tolerance ∧
    sint 32 (field_at 4 (dry_run_payload tolerance path o)) = load_mode o) as [-> ->].
  { unfold dry_run_payload. autorewrite with wire. split; [by apply u32_id|]. apply sint_u32.
    destruct Ho as (_ & _ & Hi). by repeat (apply Forall_cons in Hi as [? Hi]). }
  destruct (ns_save_model_dry_run_internal _ _ _ o s) as [[[ratio delta]|] s']; [|done].
  unfold lift_out. assert (zlen (le_bytes 8 ratio ++ le_bytes 8 delta) = 16) as E16 by (rewrite zlen_app, !zlen_le_bytes; lia).
  rewrite <- E16 at 1. rewrite new_response_fits, E16; [done|]. unfold fits. rewrite E16. done.
Qed.

End handled.

(** The bound that [handle_save_models] puts on the number of names counts
    their length fields only: a well-formed message of two names, of which the
    first uses up the payload, makes it read the second length behind the end of
    the message, with every store. *)
Theorem save_models_reads_past `{TensorStore} (s : store_t) :
  let t := mkTask (NSTaskType_code NS_TASK_SAVE_MODELS) 25 7
    (le_bytes 8 0 ++ le_bytes 4 1 ++ le_bytes 4 2 ++ [0] ++ le_bytes 4 4 ++ [65; 66; 67; 0]) in
  task_ok t ∧ (handle_save_models t s).1 = Ub "read past the end of a block".
Proof. cbv zeta. split; [by apply (bool_decide_unpack _)|]. reflexivity. Qed.
