(* ===== verification/NsRequests.v ===== *)
(** * Requests to the tensor store, from the SQL function to the response

    A SQL function of [nr_store/src/pgext/interface.c] and the service of
    [service.c] together: the request is sent, the service takes it and a thread
    answers it while the backend waits ([answered]). The theorems say what the
    store is asked and what the function returns, and what happens at the limits
    of the protocol: messages that are too long, a request that is cancelled,
    and the names under which the functions look for the relations of the
    extension. *)
From S2P Require Import Prelude Process Ring NsChannel NsStore.
From Stdlib Require Import ZArith Lia Ascii String.
From stdpp Require Import base strings pretty gmap numbers list.

Open Scope Z_scope.

(** ** A request and its response *)

Section requests.
Context `{TensorStore}.
Implicit Types (w : ns_world) (b : ns_backend).

Definition chan_ready w (name : string) (ms : list NSTaskMsg) : Prop :=
  ∃ ch, ns_channels w !! name = Some ch ∧ is_active ch = true ∧ holds ch ms.

(** The service waits and the backend has no open request. *)
Definition ns_ready w b : Prop :=
  chan_ready w NS_CHANNEL [] ∧ pool w = [] ∧
  match response_channel b with
  | Some name => name = ns_resp_name (u32 (MyProcPid b)) ∧ chan_ready w name []
  | None => ns_channels w !! ns_resp_name (u32 (MyProcPid b)) = None
  end.

(** The service takes a request and a thread answers it. *)
Definition serve w : ns_world := ((ns_service_turn [] ≫= λ _, worker_turn []) w).2.

(** A request during whose wait the service answers. *)
Definition answered : schedule := mkSchedule [] [([mkNsWake true serve 1], false)].

Lemma resp_name_not_service pid : ns_resp_name pid ≠ NS_CHANNEL.
Proof. unfold ns_resp_name, NS_CHANNEL. cbn. done. Qed.

Lemma chan_ready_other w name name' ms ch :
  name' ≠ name → chan_ready w name ms → chan_ready (set_channel name' ch w) name ms.
Proof. intros Hn (ch' & Hc & Ha & Hh). exists ch'. cbn. by rewrite lookup_insert_ne. Qed.

Lemma ready_pop name m ms elapsed wakes w :
  chan_ready w name (m :: ms) →
  ∃ ch', channel_loop name pop_section None elapsed wakes w = (Done (Some m), set_channel name ch' w) ∧
         chan_ready (set_channel name ch' w) name ms.
Proof.
  intros (ch & Hc & Ha & Hh). pose proof (pop_loop_done name m ms ch elapsed wakes w) as Hpop.
  destruct (Hpop Hc Ha Hh) as (ch' & E & Hh' & Ha'). exists ch'. split; [done|]. exists ch'. cbn. by rewrite lookup_insert_eq.
Qed.

Lemma init_known w name create ms : chan_ready w name ms → with_channels (NSChannelInit name create (ns_channels w)) w = w.
Proof. intros (ch & Hc & _). unfold NSChannelInit. rewrite Hc. by destruct w. Qed.

Lemma msgs_size_small ms m : Forall task_ok ms → task_ok m → (length ms ≤ 2)%nat → msgs_size ms + zlen (task_bytes m) < NS_CHANNEL_BUFSIZE.
Proof.
  intros Hms Hm Hl. assert (∀ m, task_ok m → zlen (task_bytes m) ≤ NS_MSG_SIZE) as Hs.
  { intros m' (_ & _ & E & ?). rewrite zlen_task_bytes. lia. }
  assert (msgs_size ms ≤ NS_MSG_SIZE * Z.of_nat (length ms)) as Hb.
  { clear - Hms Hs. unfold msgs_size. induction Hms as [|a ms Ha _ IH]; [done|]. cbn [fmap list_fmap concat length].
    rewrite zlen_app. specialize (Hs a Ha). lia. }
  specialize (Hs m Hm). unfold NS_MSG_SIZE, NS_CHANNEL_BUFSIZE in *. lia.
Qed.

Lemma ready_push name m ms wakes w :
  chan_ready w name ms → (length ms ≤ 2)%nat → task_ok m →
  ∃ ch', NSChannelPush name (Some m) wakes w = (Done true, set_channel name ch' w) ∧
         chan_ready (set_channel name ch' w) name (ms ++ [m]).
Proof.
  intros (ch & Hc & Ha & Hh) Hl Hm. pose proof (NSChannelPush_done name m ms ch wakes w) as Hpush.
  destruct (Hpush Hc Ha Hh Hm) as (ch' & E & Hh' & Ha').
  - apply msgs_size_small; [|done..]. by destruct Hh as (_ & ? & _).
  - exists ch'. split; [done|]. exists ch'. cbn. by rewrite lookup_insert_eq.
Qed.

(** The service hands a request to the thread pool. *)
Lemma service_takes w t ts rs :
  chan_ready w NS_CHANNEL (t :: ts) → pool w = [] → task_type t ≠ NSTaskType_code NS_TASK_SHUTDOWN →
  chan_ready w (ns_resp_name (resp_channel t)) rs →
  ∃ ch, ns_service_turn [] w = (Done tt, with_pool [(t, ns_resp_name (resp_channel t))] (set_channel NS_CHANNEL ch w)) ∧
        chan_ready (set_channel NS_CHANNEL ch w) NS_CHANNEL ts ∧
        chan_ready (set_channel NS_CHANNEL ch w) (ns_resp_name (resp_channel t)) rs.
Proof.
  intros Hq Hp Ht Hr. set (name := ns_resp_name (resp_channel t)) in *.
  assert (NS_CHANNEL ≠ name) as Hne by (intros E; by apply (resp_name_not_service (resp_channel t))).
  destruct (ready_pop NS_CHANNEL t ts 0 [] w Hq) as (ch & E1 & Hq1). exists ch. set (w1 := set_channel NS_CHANNEL ch w) in *.
  assert (chan_ready w1 name rs) as Hr1 by by apply chan_ready_other. split; [|done].
  unfold ns_service_turn, NSChannelPop. erewrite P_bind_done by exact E1. cbv beta iota zeta.
  rewrite (proj2 (Z.eqb_neq _ _) Ht). unfold modify. erewrite P_bind_done by reflexivity. fold name.
  rewrite (init_known _ _ _ rs Hr1). replace (pool w1) with (pool w) by done. by rewrite Hp.
Qed.

Lemma serve_spec w t ts rs resp s' :
  chan_ready w NS_CHANNEL (t :: ts) → pool w = [] → task_type t ≠ NSTaskType_code NS_TASK_SHUTDOWN →
  chan_ready w (ns_resp_name (resp_channel t)) rs → (length rs ≤ 2)%nat →
  process_task (cache_mgr w) t (store w) = (Ok (Some resp), s') → task_ok resp →
  ∃ c, serve w = with_channels c (with_store s' w) ∧ chan_ready (serve w) NS_CHANNEL ts ∧
       chan_ready (serve w) (ns_resp_name (resp_channel t)) (rs ++ [resp]).
Proof.
  intros Hq Hp Ht Hr Hl Hpt Hok. destruct (service_takes w t ts rs Hq Hp Ht Hr) as (ch1 & Es & Hq1 & Hr1).
  set (name := ns_resp_name (resp_channel t)) in *.
  assert (name ≠ NS_CHANNEL) as Hne by apply resp_name_not_service.
  set (w1 := set_channel NS_CHANNEL ch1 w) in *. set (w2 := with_store s' (with_pool [] w1)) in *.
  destruct (ready_push name resp rs [] w2 Hr1 Hl Hok) as (ch3 & E3 & Hr3).
  assert (serve w = set_channel name ch3 w2) as Esv.
  { unfold serve. erewrite P_bind_done by exact Es. unfold worker_turn. cbn [pool with_pool cache_mgr store].
    change (process_task _ t _) with (process_task (cache_mgr w) t (store w)). rewrite Hpt.
    change (with_store s' (with_pool [] (with_pool [(t, name)] w1))) with w2.
    by erewrite P_bind_done by exact E3. }
  exists (<[name := ch3]> (ns_channels w2)). rewrite Esv. split_and!; [|by apply chan_ready_other|done].
  unfold w2, w1, set_channel. destruct w; cbn in *. by rewrite Hp.
Qed.

(** A task whose handler goes wrong takes the service with it. *)
Lemma serve_undefined w t ts rs why s' :
  chan_ready w NS_CHANNEL (t :: ts) → pool w = [] → task_type t ≠ NSTaskType_code NS_TASK_SHUTDOWN →
  chan_ready w (ns_resp_name (resp_channel t)) rs → process_task (cache_mgr w) t (store w) = (Ub why, s') →
  ((ns_service_turn [] ≫= λ _, worker_turn []) w).1 = Undefined why.
Proof.
  intros Hq Hp Ht Hr Hpt. destruct (service_takes w t ts rs Hq Hp Ht Hr) as (ch1 & Es & _ & _).
  erewrite P_bind_done by exact Es. unfold worker_turn. cbn [pool with_pool].
  change (process_task _ t _) with (process_task (cache_mgr w) t (store w)). by rewrite Hpt.
Qed.

Lemma ensure_spec w b :
  ns_ready w b →
  let name := ns_resp_name (u32 (MyProcPid b)) in
  ∃ c, ensure_response_channel (w, b) = (Done name, (with_channels c w, mkNsBackend (MyProcPid b) (Some name))) ∧
       chan_ready (with_channels c w) NS_CHANNEL [] ∧ chan_ready (with_channels c w) name [].
Proof.
  intros (Hq & _ & Hr) name. destruct b as [pid [n|]]; cbn [MyProcPid response_channel] in *.
  - destruct Hr as [-> Hr]. exists (ns_channels w). destruct w. done.
  - assert (name ≠ NS_CHANNEL) as Hne by apply resp_name_not_service. unfold name in *.
    exists (<[ns_resp_name (u32 pid) := fresh_channel (ns_resp_name (u32 pid))]> (ns_channels w)).
    unfold ensure_response_channel, NSChannelInit. cbn [response_channel MyProcPid]. rewrite Hr. split; [done|]. split.
    + destruct Hq as (ch & Hc & Ha & Hh). exists ch. cbn. by rewrite lookup_insert_ne.
    + eexists. cbn [ns_channels with_channels]. rewrite lookup_insert_eq. split; [done|]. split; [done|apply fresh_channel_holds].
Qed.

(** The request is sent; the channel of the service holds it. *)
Lemma send_spec w t err ms :
  chan_ready w NS_CHANNEL ms → (length ms ≤ 2)%nat → task_ok t →
  ∃ ch, send_task (Some t) [] err w = (Done tt, set_channel NS_CHANNEL ch w) ∧
        chan_ready (set_channel NS_CHANNEL ch w) NS_CHANNEL (ms ++ [t]).
Proof.
  intros Hq Hl Ht. destruct (ready_push NS_CHANNEL t ms [] w Hq Hl Ht) as (ch & E & Hq').
  exists ch. split; [|done]. unfold send_task, modify. erewrite P_bind_done by reflexivity.
  rewrite (init_known _ _ _ ms Hq). by erewrite P_bind_done by exact E.
Qed.

Lemma request_starts w b sched type data err t :
  ns_ready w b → push_wakes sched = [] →
  NewTask type (zlen (default [] data)) (MyProcPid b) data = Ok (Some t) → task_ok t →
  let name := ns_resp_name (u32 (MyProcPid b)) in
  ∃ c, let w1 := with_channels c w in
    ns_request sched type data err (w, b) =
      in_world (wait_response name (pop_calls sched)) (w1, mkNsBackend (MyProcPid b) (Some name)) ∧
    chan_ready w1 NS_CHANNEL [t] ∧ chan_ready w1 name [].
Proof.
  intros Hr Hs Hn Ht name. destruct (ensure_spec w b Hr) as (c & E & Hq & Hr'). fold name in E, Hr'.
  destruct (send_spec (with_channels c w) t err [] Hq ltac:(cbn; lia) Ht) as (ch & E2 & Hq').
  exists (<[NS_CHANNEL := ch]> c). split.
  - unfold ns_request. erewrite P_bind_done by exact E. erewrite P_bind_done by (unfold lift; cbn [snd MyProcPid]; by rewrite Hn).
    rewrite Hs. erewrite P_bind_done by (unfold in_world; rewrite E2; reflexivity). by destruct w.
  - split; [exact Hq'|]. apply (chan_ready_other (with_channels c w) name NS_CHANNEL [] ch); [|done].
    intros E'. by apply (resp_name_not_service (u32 (MyProcPid b))).
Qed.

Lemma request_answered w b type data err t resp s' :
  ns_ready w b → NewTask type (zlen (default [] data)) (MyProcPid b) data = Ok (Some t) → task_ok t →
  resp_channel t = u32 (MyProcPid b) → task_type t ≠ NSTaskType_code NS_TASK_SHUTDOWN →
  process_task (cache_mgr w) t (store w) = (Ok (Some resp), s') → task_ok resp →
  ∃ c b', ns_request answered type data err (w, b) = (Done resp, (with_channels c (with_store s' w), b')) ∧
    ns_ready (with_channels c (with_store s' w)) b' ∧ MyProcPid b' = MyProcPid b.
Proof.
  intros Hr Hn Ht Hrc Hsh Hp Hok. destruct (request_starts w b answered type data err t Hr eq_refl Hn Ht) as (c & E & Hq & Hr1).
  set (w1 := with_channels c w) in *. set (name := ns_resp_name (u32 (MyProcPid b))) in *.
  assert (NS_CHANNEL ≠ name) as Hne by (intros E'; by apply (resp_name_not_service (u32 (MyProcPid b)))).
  assert (pool w1 = []) as Hpool by apply Hr. pose proof Hr1 as Hr1'. unfold name in Hr1'. rewrite <- Hrc in Hr1'.
  destruct (serve_spec w1 t [] [] resp s' Hq Hpool Hsh Hr1' ltac:(cbn; lia) Hp Hok) as (c2 & Es & Hq2 & Hr2).
  rewrite Hrc in Hr2. fold name in Hr2. cbn [app] in Hr2.
  destruct (ready_pop name resp [] 1 [] (serve w1) Hr2) as (ch & Ep & Hr3).
  exists (<[name := ch]> c2), (mkNsBackend (MyProcPid b) (Some name)).
  assert (set_channel name ch (serve w1) = with_channels (<[name := ch]> c2) (with_store s' w)) as Ew by by rewrite Es.
  split_and!; [|split_and!|done].
  - rewrite E. unfold in_world. cbn [answered pop_calls wait_response]. unfold NSChannelPop.
    destruct Hr1 as (ch1 & Hc1 & Ha1 & Hh1).
    pose proof (pop_loop_sleep name ch1 (mkNsWake true serve 1) [] w1) as Hsl. specialize (Hsl Hc1 Ha1 Hh1 eq_refl).
    cbn [nw_elapsed nw_env] in Hsl. rewrite Ep, Ew in Hsl. by erewrite P_bind_done by exact Hsl.
  - rewrite <- Ew. by apply chan_ready_other.
  - apply Hr.
  - cbn. split; [done|]. by rewrite <- Ew.
Qed.

Lemma client_request w b type data err resp s' :
  ns_ready w b → fits data → type ≠ NS_TASK_SHUTDOWN →
  process_task (cache_mgr w) (client_task type data (MyProcPid b)) (store w) = (Ok (Some resp), s') → task_ok resp →
  ∃ c b', ns_request answered type (Some data) err (w, b) = (Done resp, (with_channels c (with_store s' w), b')) ∧
    ns_ready (with_channels c (with_store s' w)) b' ∧ MyProcPid b' = MyProcPid b.
Proof.
  intros Hr Hf Ht Hp Hok. destruct (NewTask_fits type data (MyProcPid b) Hf) as [Hn Hto].
  eapply (request_answered w b type (Some data) err _ resp s' Hr Hn Hto); [done| |done..]. by destruct type.
Qed.

(** ** Responses *)

Lemma ok_response_ok : task_ok NewOkResponse.
Proof. by split_and!. Qed.

Lemma error_response_task_ok e : task_ok (NewErrorResponse e).
Proof.
  unfold NewErrorResponse. set (len := if NS_MSG_SIZE <? NSTASK_HDRSZ + (zlen e + 1) then NS_MSG_SIZE - NSTASK_HDRSZ else zlen e + 1).
  assert (0 ≤ len ≤ zlen e + 1 ∧ NSTASK_HDRSZ + len ≤ NS_MSG_SIZE) as [Hl Hm].
  { subst len. pose proof (zlen_nonneg e). unfold NSTASK_HDRSZ, NS_MSG_SIZE. destruct (Z.ltb_spec 2048 (12 + (zlen e + 1))); lia. }
  split_and!; [done..| |done]. cbn [payload payload_size]. unfold zlen. rewrite length_take, length_app. cbn.
  unfold zlen in Hl. lia.
Qed.

Lemma read_cstr_plain s : plain s → read_cstr s = Ub "read past the end of a block".
Proof. induction 1 as [|c s Hc _ IH]; [done|]. cbn [read_cstr]. destruct c; [done|..]; by rewrite IH. Qed.

(** What [elog] makes of the message of an error response: a message that does not
    fit the response has no terminating zero. *)
Definition reported {A} (prefix : string) (e : list Z) : pres A :=
  if NS_MSG_SIZE <? NSTASK_HDRSZ + (zlen e + 1) then Undefined "read past the end of a block"
  else Error (prefix +:+ bytes_str e).

Lemma report_error_spec {S A} prefix e (s : S) :
  plain e → report_error (A := A) prefix (NewErrorResponse e) s = (reported prefix e, s).
Proof.
  intros He. unfold report_error, reported, NewErrorResponse. cbn [payload].
  destruct (Z.ltb_spec NS_MSG_SIZE (NSTASK_HDRSZ + (zlen e + 1))).
  - rewrite take_app_le, read_cstr_plain; [done|by apply Forall_take|]. unfold zlen, NSTASK_HDRSZ, NS_MSG_SIZE in *. lia.
  - rewrite take_ge by (rewrite length_app; cbn; unfold zlen; lia).
    pose proof (read_c_str e [] He) as E. rewrite app_nil_r in E. unfold c_str in E. by rewrite E.
Qed.

(** The message of the store's error, as the service passes it on. *)
Definition inference_error (err : option (list Z)) : list Z := default (str_bytes "ns_inference_run failed") err.

(** ** What the SQL functions do *)

(** The catalog has the relations the functions name. *)
Definition installed w : Prop :=
  "ns_model"%string ∈ relations w ∧ "model_pkey"%string ∈ relations w ∧ "model_model_id_seq"%string ∈ relations w.

Definition model_name_of w (id : Z) : option (list Z) := last (filter (λ row, row.1 = id) (ns_model w)).*2.

Lemma lookup_named w id : "ns_model"%string ∈ relations w → "model_pkey"%string ∈ relations w →
  lookup_model_name id w = (Done (model_name_of w id), w).
Proof.
  intros H1 H2. unfold lookup_model_name, pgext_open. rewrite bool_decide_true by done.
  erewrite P_bind_done by (by rewrite bool_decide_true). done.
Qed.

Lemma lookup_installed w id : installed w → lookup_model_name id w = (Done (model_name_of w id), w).
Proof. intros (H1 & H2 & _). by apply lookup_named. Qed.

(** Without the index the functions name, a lookup raises. *)
Lemma lookup_unnamed w id : "model_pkey"%string ∉ relations w →
  lookup_model_name id w = (Error "Index model_pkey not found", w).
Proof. intros Hn. unfold lookup_model_name. by rewrite bool_decide_false. Qed.

Lemma load_unnamed w b mode sched id ret : "model_pkey"%string ∉ relations w →
  ns_load_model mode sched id ret (w, b) = (Error "Index model_pkey not found", (w, b)).
Proof. intros Hn. unfold ns_load_model, in_world, mbind, P_bind. by rewrite lookup_unnamed. Qed.

Lemma inference_unnamed w b sched id cols o : "model_pkey"%string ∉ relations w →
  ns_inference sched id cols o (w, b) = (Error "Index model_pkey not found", (w, b)).
Proof. intros Hn. unfold ns_inference, in_world, mbind, P_bind. by rewrite lookup_unnamed. Qed.

Lemma in_world_done {A B} (m : P ns_world A) (f : A → P ns_session B) w b (a : A) w' :
  m w = (Done a, w') → (in_world m ≫= f) (w, b) = f a (w', b).
Proof. intros E. apply P_bind_done. unfold in_world. by rewrite E. Qed.

Lemma array_columns_plain (cols : list (list Z)) : array_columns (1, Some <$> cols) = Ok cols.
Proof.
  unfold array_columns. cbn [fst snd negb Z.eqb Pos.eqb]. replace (mapM id (Some <$> cols)) with (Some cols); [done|].
  induction cols as [|c cols IH]; [done|]. cbn [fmap list_fmap mapM]. by rewrite <- IH.
Qed.

(** C18. An inference asks the store for exactly the options of the call, with the
    name of the model and the columns of the array, whatever their lengths within
    the limit of a message; it returns true when the store has done it, and the
    store's message as an error when it has not (a message that does not fit a
    response is read past its end). Afterwards the service and the backend are
    ready for the next request. This is with an index named model_pkey in the
    catalog, the name the code looks for; without it, as with the relations that
    the extension's script makes ([script_names_differ]), and for an id without a
    row, every inference raises and asks for nothing. *)
Theorem ns_inference_exact w b id (cols : list (list Z)) o :
  ns_ready w b → "ns_model"%string ∈ relations w →
  ("model_pkey"%string ∉ relations w → ∀ sched,
     ns_inference sched id (1, Some <$> cols) o (w, b) = (Error "Index model_pkey not found", (w, b))) ∧
  ("model_pkey"%string ∈ relations w →
   match model_name_of w id with
   | None => ∀ sched, ns_inference sched id (1, Some <$> cols) o (w, b) = (Error "Model with ID not found", (w, b))
   | Some name =>
       options_ok (with_model_id (with_columns o cols) name) →
       fits (inference_payload (with_model_id (with_columns o cols) name)) →
       (∀ e s', ns_inference_internal (with_model_id (with_columns o cols) name) (store w) = (InferenceFailed (Some e), s') → plain e) →
       let '(r, s') := ns_inference_internal (with_model_id (with_columns o cols) name) (store w) in
       ∃ c b',
         ns_inference answered id (1, Some <$> cols) o (w, b) =
           (match r with
            | Inferred => Done true
            | InferenceFailed err => reported "NeurStore inference failed: " (inference_error err)
            end, (with_channels c (with_store s' w), b')) ∧
         ns_ready (with_channels c (with_store s' w)) b'
   end).
Proof.
  intros Hr H1. split; [intros Hn sched; by apply inference_unnamed|]. intros H2.
  destruct (model_name_of w id) as [name|] eqn:Hm.
  2: { intros sched. unfold ns_inference. by rewrite (in_world_done _ _ _ _ _ _ (lookup_named w id H1 H2)), Hm. }
  intros Ho Hf He. set (o' := with_model_id (with_columns o cols) name) in *.
  pose proof (handle_inference_client o' (MyProcPid b) (store w) Ho Hf) as Hh.
  destruct (ns_inference_internal o' (store w)) as [r s'].
  destruct (client_request w b NS_TASK_INFERNECE _ "push NS_TASK_INFERNECE failed" (inference_response r) s' Hr Hf ltac:(done))
    as (c & b' & E & Hr' & _).
  { unfold process_task. cbn [task_type client_task NSTaskType_code Z.eqb Pos.eqb]. unfold fmap, M_fmap, mbind, M_bind.
    by rewrite Hh. }
  { destruct r as [|[]]; [apply ok_response_ok|apply error_response_task_ok..]. }
  exists c, b'. split; [|done]. unfold ns_inference. rewrite (in_world_done _ _ _ _ _ _ (lookup_named w id H1 H2)), Hm.
  rewrite (lift_ok _ _ _ cols) by apply array_columns_plain. cbv zeta. fold o'. erewrite P_bind_done by exact E.
  destruct r as [|[e|]]; cbn [inference_response]; [done|..]; apply report_error_spec; [|by repeat constructor].
  by eapply He.
Qed.

Lemma save_model_asks w b name tolerance path :
  ns_ready w b → plain name → plain path → in_u32 tolerance → is_nan tolerance = false →
  fits (save_model_payload name tolerance path) →
  let '(ok, s') := ns_save_model_internal name (double_of_float tolerance) path (store w) in
  ∃ c b', ns_ready (with_channels c (with_store s' w)) b' ∧ MyProcPid b' = MyProcPid b ∧
    ns_save_model answered name tolerance path (w, b) =
      if ok then (in_world (pgext_open "ns_model" ≫= λ _, insert_model name) ≫= λ _, mret true)
                   (with_channels c (with_store s' w), b')
      else (Done false, (with_channels c (with_store s' w), b')).
Proof.
  intros Hr Hn Hp Ht Hnan Hf. pose proof (handle_save_model_client name tolerance path (MyProcPid b) (store w) Hn Hp Ht Hnan Hf) as Hh.
  destruct (ns_save_model_internal name (double_of_float tolerance) path (store w)) as [ok s'].
  edestruct (client_request w b NS_TASK_SAVE_MODEL (save_model_payload name tolerance path) "NeurStore: push task failed")
    as (c & b' & E & Hr' & Hpid); [done|done|done| | |].
  { unfold process_task. cbn [task_type client_task NSTaskType_code Z.eqb Pos.eqb]. unfold fmap, M_fmap, mbind, M_bind.
    by rewrite Hh. }
  { destruct ok; [apply ok_response_ok|apply error_response_task_ok]. }
  exists c, b'. split; [done|]. split; [done|]. unfold ns_save_model. erewrite P_bind_done by exact E. by destruct ok.
Qed.

Lemma insert_model_done w name :
  installed w → sint 32 (sequence w + 1) ∉ (ns_model w).*1 →
  (pgext_open "ns_model" ≫= λ _, insert_model name) w =
    (Done tt, with_rows (ns_model w ++ [(sint 32 (sequence w + 1), name)]) (sequence w + 1) w).
Proof.
  intros (H1 & _ & H3) Hid. unfold insert_model, pgext_open, pgext_nextval.
  erewrite P_bind_done by (by rewrite bool_decide_true). cbv beta.
  erewrite P_bind_done by (by rewrite bool_decide_true). cbv beta.
  unfold pgext_insert. cbn [fst ns_model with_rows sequence]. by rewrite bool_decide_false.
Qed.

Lemma ns_ready_rows rows v w b : ns_ready w b → ns_ready (with_rows rows v w) b.
Proof. done. Qed.

Lemma load_model_asks w b name mode (ret : bool) resp s' :
  ns_ready w b → plain name → fits (load_model_payload name mode ret) →
  ns_load_model_internal mode name (store w) = (resp, s') →
  ∀ m, load_response ret resp = Ok m → task_ok m →
  ∃ c b', ns_ready (with_channels c (with_store s' w)) b' ∧
    ns_request answered NS_TASK_LOAD_MODEL (Some (load_model_payload name mode ret)) "push NS_TASK_LOAD_MODEL failed" (w, b) =
      (Done m, (with_channels c (with_store s' w), b')).
Proof.
  intros Hr Hn Hf E m Em Hm. pose proof (handle_load_model_client name mode ret (MyProcPid b) (store w) Hn Hf) as Hh.
  rewrite E, Em in Hh.
  edestruct (client_request w b NS_TASK_LOAD_MODEL (load_model_payload name mode ret) "push NS_TASK_LOAD_MODEL failed" m s')
    as (c & b' & Er & Hr' & _); [done|done|done| |done|by exists c, b'].
  unfold process_task. cbn [task_type client_task NSTaskType_code Z.eqb Pos.eqb]. unfold fmap, M_fmap, mbind, M_bind. by rewrite Hh.
Qed.

Lemma blob_response blob :
  zlen blob ≤ 2032 →
  let d := le_bytes 4 (zlen blob) ++ blob in
  load_response true (Some blob) = Ok (mkTask (NSTaskType_code NS_TASK_OK) (zlen d) 0 d) ∧
  task_ok (mkTask (NSTaskType_code NS_TASK_OK) (zlen d) 0 d).
Proof.
  intros Hb d. assert (zlen d = 4 + zlen blob) as Hd by (unfold d; rewrite zlen_app, zlen_le_bytes; lia).
  assert (fits d) as Hf by (unfold fits, NSTASK_HDRSZ, NS_MSG_SIZE; lia).
  split; [|by split_and!]. unfold load_response. cbn [negb]. rewrite <- Hd. by apply new_response_fits.
Qed.

Lemma send_load_returns w b name mode blob s' :
  ns_ready w b → plain name → fits (load_model_payload name mode true) →
  ns_load_model_internal mode name (store w) = (Some blob, s') → zlen blob ≤ 2032 →
  ∃ c b', ns_ready (with_channels c (with_store s' w)) b' ∧
    send_load_model_task answered name mode true (w, b) = (Done (Some blob), (with_channels c (with_store s' w), b')).
Proof.
  intros Hr Hn Hf E Hb. destruct (blob_response blob Hb) as [Em Hm].
  destruct (load_model_asks w b name mode true _ _ Hr Hn Hf E _ Em Hm) as (c & b' & Hr' & Er).
  exists c, b'. split; [done|]. unfold send_load_model_task. erewrite P_bind_done by exact Er.
  pose proof (zlen_nonneg blob). cbn [is_ok_response task_type NSTaskType_code Z.eqb Pos.eqb andb payload].
  rewrite (lift_ok _ _ _ (zlen blob, blob)); [|apply rd_u32_le; unfold in_u32; lia]. cbv beta iota.
  rewrite (lift_ok _ _ _ (blob, [])); [done|]. unfold ptr_read.
  replace (_ || _) with false by lia. unfold zlen. by rewrite Nat2Z.id, take_ge, drop_ge by lia.
Qed.

(** Without the sequence the functions name, a save raises after the store has
    saved the model. *)
Lemma save_unnamed w b name tolerance path s' :
  ns_ready w b → "ns_model"%string ∈ relations w → "model_model_id_seq"%string ∉ relations w →
  plain name → plain path → in_u32 tolerance → is_nan tolerance = false → fits (save_model_payload name tolerance path) →
  ns_save_model_internal name (double_of_float tolerance) path (store w) = (true, s') →
  ∃ w' b', ns_save_model answered name tolerance path (w, b) = (Error "Sequence not found in schema public", (w', b')) ∧
    store w' = s' ∧ ns_model w' = ns_model w.
Proof.
  intros Hr Hs Hq Hn Hp Ht Hnan Hf E. pose proof (save_model_asks w b name tolerance path Hr Hn Hp Ht Hnan Hf) as Ha.
  rewrite E in Ha. destruct Ha as (c & b' & _ & _ & Ea). set (w1 := with_channels c (with_store s' w)) in *. exists w1, b'.
  assert ((pgext_open "ns_model" ≫= λ _, insert_model name) w1 = (Error "Sequence not found in schema public", w1)) as Ei.
  { assert (relations w1 = relations w) as Hs1 by done.
    unfold insert_model, pgext_open. erewrite P_bind_done by (by rewrite Hs1, bool_decide_true).
    unfold pgext_nextval, mbind, P_bind. by rewrite Hs1, bool_decide_false. }
  rewrite Ea. unfold in_world, mbind at 1, P_bind at 1. by rewrite Ei.
Qed.

(** C19. A model that is saved can be loaded by the id of its row when the catalog
    has the relations the functions name ([installed]) and the serialized model
    has at most 2032 bytes: the store is asked to save under the name and with
    the tolerance of the call, the row with the next value of the sequence is
    inserted, and a load of that id asks the store for the same name and returns
    the bytes of the model the store gives. Without the sequence
    model_model_id_seq a save raises after the store has saved and inserts no
    row; without the index model_pkey every load raises. The extension's script
    makes neither ([script_names_differ]). *)
Theorem ns_save_load_roundtrip w b name tolerance path mode s1 blob s2 :
  ns_ready w b → "ns_model"%string ∈ relations w → plain name → plain path → in_u32 tolerance → is_nan tolerance = false →
  fits (save_model_payload name tolerance path) → sint 32 (sequence w + 1) ∉ (ns_model w).*1 →
  ns_save_model_internal name (double_of_float tolerance) path (store w) = (true, s1) →
  ns_load_model_internal mode name s1 = (Some blob, s2) → zlen blob ≤ 2032 →
  (installed w → ∃ w' b' w'' b'',
     ns_save_model answered name tolerance path (w, b) = (Done true, (w', b')) ∧
     ns_model w' = ns_model w ++ [(sint 32 (sequence w + 1), name)] ∧ sequence w' = sequence w + 1 ∧
     ns_load_model mode answered (sint 32 (sequence w + 1)) true (w', b') = (Done (Some blob), (w'', b'')) ∧
     store w'' = s2 ∧ ns_model w'' = ns_model w' ∧ ns_ready w'' b'') ∧
  ("model_model_id_seq"%string ∉ relations w → ∃ w' b',
     ns_save_model answered name tolerance path (w, b) = (Error "Sequence not found in schema public", (w', b')) ∧
     store w' = s1 ∧ ns_model w' = ns_model w) ∧
  ("model_pkey"%string ∉ relations w → ∀ sched id ret,
     ns_load_model mode sched id ret (w, b) = (Error "Index model_pkey not found", (w, b))).
Proof.
  intros Hr Hns Hn Hp Ht Hnan Hf Hid Es El Hb.
  split_and!; [|intros Hq; by eapply save_unnamed|intros Hq sched id ret; by apply load_unnamed]. intros Hi.
  pose proof (save_model_asks w b name tolerance path Hr Hn Hp Ht Hnan Hf) as Ha.
  rewrite Es in Ha. destruct Ha as (c & b' & Hr' & _ & Ea). set (w1 := with_channels c (with_store s1 w)) in *.
  rewrite (in_world_done _ _ _ _ _ _ (insert_model_done w1 name Hi Hid)) in Ea.
  apply (ns_ready_rows (ns_model w1 ++ [(sint 32 (sequence w1 + 1), name)]) (sequence w1 + 1)) in Hr'.
  set (w2 := with_rows _ _ w1) in *.
  assert (fits (load_model_payload name mode true)) as Hfl.
  { unfold fits, load_model_payload, save_model_payload in *. pose proof (zlen_nonneg path).
    autorewrite with wire_len in *. lia. }
  destruct (send_load_returns w2 b' name mode blob s2 Hr' Hn Hfl El Hb) as (c' & b'' & Hr'' & E2).
  exists w2, b', (with_channels c' (with_store s2 w2)), b''. split_and!; [done..| |done|done|done].
  unfold ns_load_model. rewrite (in_world_done _ _ _ _ _ _ (lookup_installed w2 _ Hi)). unfold model_name_of.
  cbn [ns_model w2 with_rows]. rewrite filter_app, fmap_app, filter_cons_True by done.
  change (sequence w1) with (sequence w). cbn [fmap list_fmap filter list_filter]. by rewrite last_snoc.
Qed.

(** C29. A serialized model comes back byte for byte when it has at most 2032
    bytes. One byte more and the service has no response to write to: the
    backend waits, and the thread that answers it writes through a null pointer. *)
Theorem ns_load_model_limit w b name mode blob s' :
  ns_ready w b → plain name → fits (load_model_payload name mode true) →
  ns_load_model_internal mode name (store w) = (Some blob, s') →
  (zlen blob ≤ 2032 → ∃ w' b', send_load_model_task answered name mode true (w, b) = (Done (Some blob), (w', b')) ∧ ns_ready w' b') ∧
  (2032 < zlen blob < 2 ^ 32 - 4 → ∃ w1 b1,
     send_load_model_task (mkSchedule [] []) name mode true (w, b) = (Sleeps, (w1, b1)) ∧
     ((ns_service_turn [] ≫= λ _, worker_turn []) w1).1 = Undefined "resp is NULL").
Proof.
  intros Hr Hn Hf E. split.
  - intros Hb. destruct (send_load_returns w b name mode blob s' Hr Hn Hf E Hb) as (c & b' & Hr' & Er). by eexists _, b'.
  - intros Hb. destruct (NewTask_fits NS_TASK_LOAD_MODEL (load_model_payload name mode true) (MyProcPid b) Hf) as [Et Hto].
    destruct (request_starts w b (mkSchedule [] []) NS_TASK_LOAD_MODEL (Some (load_model_payload name mode true))
      "push NS_TASK_LOAD_MODEL failed" _ Hr eq_refl Et Hto) as (c & Es & Hq & Hr1).
    eexists (with_channels c w), _. split.
    { unfold send_load_model_task, mbind, P_bind. by rewrite Es. }
    eapply (serve_undefined _ _ [] []); [exact Hq|apply Hr|done|exact Hr1|].
    pose proof (handle_load_model_client name mode true (MyProcPid b) (store w) Hn Hf) as Hh. rewrite E in Hh.
    unfold process_task. cbn [task_type client_task NSTaskType_code Z.eqb Pos.eqb]. unfold fmap, M_fmap, mbind, M_bind.
    change (store (with_channels c w)) with (store w). rewrite Hh. unfold load_response. cbn [negb].
    assert (zlen (le_bytes 4 (zlen blob) ++ blob) = 4 + zlen blob) as Hz by (rewrite zlen_app, zlen_le_bytes; lia).
    rewrite <- Hz, new_response_large by (unfold NSTASK_HDRSZ, NS_MSG_SIZE; lia). done.
Qed.

Lemma request_too_large w b sched type data err :
  NS_MSG_SIZE < NSTASK_HDRSZ + zlen data → zlen data < 2 ^ 32 →
  (ns_request sched type (Some data) err (w, b)).1 = Undefined "message is NULL".
Proof.
  intros Hl Hs. destruct b as [pid [name|]]; unfold ns_request.
  all: erewrite P_bind_done by reflexivity; unfold lift; cbn [snd MyProcPid default].
  all: erewrite P_bind_done by (by rewrite NewTask_large); done.
Qed.

(** An inference whose strings do not fit a message, such as one with a long
    query, is not refused: the message is NULL and the push dereferences it,
    whatever the other processes do. *)
Theorem ns_inference_too_large w b sched id name (cols : list (list Z)) o :
  installed w → model_name_of w id = Some name →
  NS_MSG_SIZE < NSTASK_HDRSZ + zlen (inference_payload (with_model_id (with_columns o cols) name)) →
  zlen (inference_payload (with_model_id (with_columns o cols) name)) < 2 ^ 32 →
  (ns_inference sched id (1, Some <$> cols) o (w, b)).1 = Undefined "message is NULL".
Proof.
  intros Hi Hm Hl Hs. unfold ns_inference. rewrite (in_world_done _ _ _ _ _ _ (lookup_installed w id Hi)), Hm.
  rewrite (lift_ok _ _ _ cols) by apply array_columns_plain. cbv zeta.
  pose proof (request_too_large w b sched NS_TASK_INFERNECE _ "push NS_TASK_INFERNECE failed" Hl Hs) as Hr.
  unfold mbind, P_bind. destruct (ns_request sched NS_TASK_INFERNECE _ _ (w, b)) as [r ?]. cbn [fst] in Hr. by subst r.
Qed.

(** A request whose first pop runs into the time limit, after which the statement
    is cancelled; and a request that finds a response at once. *)
Definition cancelled : schedule := mkSchedule [] [([mkNsWake true (λ w, w) NS_CHANNEL_TIMEOUT], true)].
Definition at_once : schedule := mkSchedule [] [([], false)].

(** C38. A response carries nothing that says which request it answers: when a
    statement is cancelled while it waits and the service answers it later, the
    next request of the backend returns the response of the cancelled one,
    before the service has even seen the new request. *)
Theorem cancelled_response_is_next w b type1 data1 err1 type2 data2 err2 resp s' :
  ns_ready w b → fits data1 → fits data2 → type1 ≠ NS_TASK_SHUTDOWN →
  process_task (cache_mgr w) (client_task type1 data1 (MyProcPid b)) (store w) = (Ok (Some resp), s') → task_ok resp →
  ∃ w1 b1 w2,
    ns_request cancelled type1 (Some data1) err1 (w, b) = (Error "canceling statement due to user request", (w1, b1)) ∧
    ns_request at_once type2 (Some data2) err2 (serve w1, b1) = (Done resp, (w2, b1)) ∧
    chan_ready w2 NS_CHANNEL [client_task type2 data2 (MyProcPid b)] ∧ store w2 = s'.
Proof.
  intros Hr Hf1 Hf2 Ht Hp Hok. destruct (NewTask_fits type1 data1 (MyProcPid b) Hf1) as [Hn1 Hto1].
  destruct (request_starts w b cancelled type1 (Some data1) err1 _ Hr eq_refl Hn1 Hto1) as (c & E & Hq & Hr1).
  set (w1 := with_channels c w) in *. set (name := ns_resp_name (u32 (MyProcPid b))) in *.
  set (b1 := mkNsBackend (MyProcPid b) (Some name)) in *.
  assert (NS_CHANNEL ≠ name) as Hne by (intros E'; by apply (resp_name_not_service (u32 (MyProcPid b)))).
  assert (NSTaskType_code type1 ≠ NSTaskType_code NS_TASK_SHUTDOWN) as Ht' by by destruct type1.
  destruct (serve_spec w1 (client_task type1 data1 (MyProcPid b)) [] [] resp s' Hq (proj1 (proj2 Hr)) Ht' Hr1 ltac:(cbn; lia) Hp Hok)
    as (c2 & Es & Hq2 & Hr2). change (ns_resp_name _) with name in Hr2.
  destruct (NewTask_fits type2 data2 (MyProcPid b) Hf2) as [Hn2 Hto2].
  destruct (send_spec (serve w1) _ err2 [] Hq2 ltac:(cbn; lia) Hto2) as (ch & E2 & Hq3). set (w3 := set_channel NS_CHANNEL ch (serve w1)) in *.
  destruct (ready_pop name resp [] 0 [] w3 (chan_ready_other _ _ _ _ _ Hne Hr2)) as (ch' & E3 & _).
  exists w1, b1, (set_channel name ch' w3). split_and!.
  - rewrite E. unfold in_world. cbn [cancelled pop_calls wait_response]. unfold NSChannelPop.
    destruct Hr1 as (ch1 & Hc1 & Ha1 & Hh1).
    pose proof (pop_loop_sleep name ch1 (mkNsWake true (λ w, w) NS_CHANNEL_TIMEOUT) [] w1 Hc1 Ha1 Hh1 eq_refl) as Hs.
    cbn [nw_elapsed nw_env] in Hs.
    pose proof (pop_loop_timeout name ch1 NS_CHANNEL_TIMEOUT w1 Hc1 Ha1 Hh1 ltac:(done)) as Ho. rewrite Ho in Hs.
    by erewrite P_bind_done by exact Hs.
  - unfold ns_request, b1. erewrite P_bind_done by reflexivity. erewrite P_bind_done by (unfold lift; cbn [snd MyProcPid default from_option id]; by rewrite Hn2).
    erewrite P_bind_done by (unfold in_world; cbn [push_wakes at_once]; rewrite E2; reflexivity).
    unfold in_world. cbn [at_once pop_calls wait_response]. unfold NSChannelPop. by erewrite P_bind_done by exact E3.
  - by apply chan_ready_other.
  - unfold w3. rewrite Es. done.
Qed.

(** The relations of the script of the extension: the table, and the names the
    server gives to the sequence and to the index of its primary key. *)
Definition script_relations : list string := ["ns_model"; "ns_model_model_id_seq"; "ns_model_pkey"].

(** With the relations of the extension's script the functions that look a
    model up always raise, and a model that is saved raises after the store has
    saved it: the functions name a sequence and an index that do not exist. *)
Theorem script_names_differ w b sched mode id ret cols o name tolerance path s' :
  ns_ready w b → relations w = script_relations →
  plain name → plain path → in_u32 tolerance → is_nan tolerance = false → fits (save_model_payload name tolerance path) →
  ns_save_model_internal name (double_of_float tolerance) path (store w) = (true, s') →
  ns_load_model mode sched id ret (w, b) = (Error "Index model_pkey not found", (w, b)) ∧
  ns_inference sched id cols o (w, b) = (Error "Index model_pkey not found", (w, b)) ∧
  ∃ w' b', ns_save_model answered name tolerance path (w, b) = (Error "Sequence not found in schema public", (w', b')) ∧
    store w' = s' ∧ ns_model w' = ns_model w.
Proof.
  intros Hr Hs Hn Hp Ht Hnan Hf E. split_and!.
  - apply load_unnamed. rewrite Hs. by apply (bool_decide_unpack _).
  - apply inference_unnamed. rewrite Hs. by apply (bool_decide_unpack _).
  - apply save_unnamed; try done; rewrite Hs; by apply (bool_decide_unpack _).
Qed.

End requests.

(** ** A store for the examples: it keeps the names, and a model is its name
    twice. *)
Definition names_store : TensorStore := {|
  store_t := list (list Z);
  ns_save_model_internal name _ _ s := (true, s ++ [name]);
  ns_save_models_internal names _ _ s := (true, s ++ names);
  ns_load_model_internal _ name s := (if bool_decide (name ∈ s) then Some (name ++ name) else None, s);
  ns_inference_internal o s :=
    (if bool_decide (model_id o ∈ s) then Inferred else InferenceFailed (Some (str_bytes "no model")), s);
  ns_save_model_dry_run_internal _ _ _ _ s := (None, s);
  icm_clear_cache s := s
|}.

(** A server that has just started: one saved model, and the channel of the
    service. *)
Definition started (rels : list string) : @ns_world names_store :=
  mkNsWorld names_store {[NS_CHANNEL := fresh_channel NS_CHANNEL]} [[65; 66]] true [] true rels [(1, [65; 66])] 1.

Definition new_backend : ns_backend := mkNsBackend 4711 None.
Definition functions_relations : list string := ["ns_model"; "model_pkey"; "model_model_id_seq"].

Lemma started_ready rels : @ns_ready names_store (started rels) new_backend.
Proof.
  split_and!; [|done|].
  - exists (fresh_channel NS_CHANNEL). split; [apply lookup_singleton_eq|]. split; [done|apply fresh_channel_holds].
  - apply lookup_singleton_ne. intros E. by apply (resp_name_not_service (u32 4711)).
Qed.

Lemma started_installed : @installed names_store (started functions_relations).
Proof. split_and!; by apply (bool_decide_unpack _). Qed.

Definition example_options : InferenceOptions :=
  mkOptions [] (str_bytes "select a, b from t") (str_bytes "dbname=postgres") [] (str_bytes "c") 8 [] [] [] [] 128 (-1) 0 0 true.

#[local] Instance Forall_plain_dec s : Decision (plain s).
Proof. unfold plain. apply _. Defined.

Lemma ns_inference_exact_witness :
  (∃ c b', @ns_inference names_store answered 1 (1, Some <$> [[97]; [98]]) example_options (started functions_relations, new_backend) =
     (Done true, (with_channels c (started functions_relations), b'))) ∧
  @ns_inference names_store answered 1 (1, Some <$> [[97]; [98]]) example_options (started script_relations, new_backend) =
    (Error "Index model_pkey not found", (started script_relations, new_backend)).
Proof.
  split.
  - destruct (proj2 (@ns_inference_exact names_store (started functions_relations) new_backend 1 [[97]; [98]] example_options
      (started_ready _) (proj1 started_installed)) (proj1 (proj2 started_installed))) as (c & b' & E & _).
    + split_and!; by apply (bool_decide_unpack _).
    + by apply (bool_decide_unpack _).
    + intros e s'. vm_compute. intros E. discriminate E.
    + exists c, b'. exact E.
  - apply (@ns_inference_exact names_store (started script_relations) new_backend 1 [[97]; [98]] example_options
      (started_ready _)); by apply (bool_decide_unpack _).
Defined.

Lemma ns_save_load_roundtrip_witness :
  ∃ w' b' w'' b'', @ns_save_model names_store answered [67] 1065353216 [47] (started functions_relations, new_backend) = (Done true, (w', b')) ∧
    @ns_load_model names_store NS_LOAD_UINT8 answered 2 true (w', b') = (Done (Some [67; 67]), (w'', b'')).
Proof.
  destruct (@ns_save_load_roundtrip names_store (started functions_relations) new_backend [67] 1065353216 [47] NS_LOAD_UINT8
    [[65; 66]; [67]] [67; 67] [[65; 66]; [67]] (started_ready _)) as [H _]; [by apply (bool_decide_unpack _)..|].
  destruct (H started_installed) as (w' & b' & w'' & b'' & E1 & _ & _ & E2 & _).
  exists w', b', w'', b''. exact (conj E1 E2).
Defined.

Lemma ns_load_model_limit_witness :
  ∃ w' b', @send_load_model_task names_store answered [65; 66] NS_LOAD_FLOAT32 true (started functions_relations, new_backend) =
    (Done (Some [65; 66; 65; 66]), (w', b')).
Proof.
  destruct (proj1 (@ns_load_model_limit names_store (started functions_relations) new_backend [65; 66] NS_LOAD_FLOAT32 [65; 66; 65; 66]
    [[65; 66]] (started_ready _) ltac:(by apply (bool_decide_unpack _)) ltac:(by apply (bool_decide_unpack _)) eq_refl)
    ltac:(done)) as (w' & b' & E & _).
  exists w', b'. exact E.
Defined.

Lemma ns_inference_too_large_witness :
  (@ns_inference names_store answered 1 (1, Some <$> [replicate 2000 97]) example_options
     (started functions_relations, new_backend)).1 = Undefined "message is NULL".
Proof.
  apply (@ns_inference_too_large names_store (started functions_relations) new_backend answered 1 [65; 66] [replicate 2000 97]
    example_options started_installed eq_refl); vm_compute; done.
Defined.

Lemma cancelled_response_is_next_witness :
  ∃ w1 b1 w2,
    @ns_request names_store cancelled NS_TASK_CLEAN_CACHE (Some []) "" (started functions_relations, new_backend) =
      (Error "canceling statement due to user request", (w1, b1)) ∧
    @ns_request names_store at_once NS_TASK_SAVE_MODEL (Some []) "" (serve w1, b1) = (Done NewOkResponse, (w2, b1)).
Proof.
  destruct (@cancelled_response_is_next names_store (started functions_relations) new_backend NS_TASK_CLEAN_CACHE [] ""
    NS_TASK_SAVE_MODEL [] "" NewOkResponse [[65; 66]] (started_ready _) ltac:(done) ltac:(done) ltac:(done) eq_refl ok_response_ok)
    as (w1 & b1 & w2 & E1 & E2 & _).
  exists w1, b1, w2. exact (conj E1 E2).
Defined.

Lemma script_names_differ_witness :
  @ns_load_model names_store NS_LOAD_FLOAT32 answered 1 true (started script_relations, new_backend) =
    (Error "Index model_pkey not found", (started script_relations, new_backend)).
Proof.
  refine (proj1 (@script_names_differ names_store (started script_relations) new_backend answered NS_LOAD_FLOAT32 1 true
    (1, []) example_options [67] 1065353216 [47] [[65; 66]; [67]] (started_ready _) eq_refl _ _ _ _ _ eq_refl));
  by apply (bool_decide_unpack _).
Defined.
